(* ===== verification/_CoqProject ===== *)
-Q . S2P
Prelude.v
Dll.v
Graph.v
GraphSpec.v
GraphLink.v
GraphRefine.v
GraphProps.v
Bytes.v
PropData.v
PropDataProofs.v
PropertyGraph.v
PropStore.v
PropGraphRefine.v
PropGraphProps.v
Datatypes.v
GraphFile.v
GraphFileProofs.v
GraphStorage.v
GraphStorageProps.v
GraphDataOps.v
Serialization.v
RdfTypes.v
Identifiers.v
IdentifiersProps.v
IndexProps.v
FuzzyTurtle.v
FuzzyTurtleSafe.v
RdfGraph.v
RdfGraphInv.v
RdfGraphProps.v
Helpers.v
HelpersProps.v
Variant.v
VariantProps.v
Heap.v
BufferTask.v
BufferTaskProps.v
Scheduler.v
SchedulerProps.v
SchedulerQueue.v
FlexBuffer.v
Hashtable.v
HashtableProps.v
HashMerge.v
HashView.v
HashViewProps.v
PreAgg.v
PreAggProps.v
HashIndex.v
SegmentTree.v
BufferScan.v
Utf8.v
Like.v
StringFuncs.v
Sorting.v
SortingMerge.v
SortingProps.v
SparqlText.v
SparqlTextProps.v
Endpoint.v
EndpointProps.v
Regex.v
Catalog.v
CatalogProps.v
Engine.v
EngineProps.v
SparqlLexer.v
SparqlParser.v
SparqlQuery.v
SparqlTermination.v
SparqlSyntax.v
SparqlExprRoundtrip.v
SparqlPatternRoundtrip.v
SparqlRoundtrip.v
SparqlKey.v
SparqlResult.v
JoinOrder.v
JoinOrderSets.v
JoinOrderProps.v
JoinOrderOptimal.v
