(* ===== verification/Prelude.v ===== *)
(** * A verification development of GengoDB

    GengoDB is a graph database built on the LingoDB query engine.  Graphs live
    in stores of fixed-size records linked by indices; RDF graphs are property
    graphs whose nodes stand for terms; queries are compiled and call the
    runtime for strings, values, hash tables, buffers and sorting, which the
    workers of a scheduler run in parallel.  This library models the program's
    own core in C++ (paths below are under src/), and proves what makes each
    part correct.

    ** How the code is modelled

    An operation is a function on the values of the data it uses.  Code that can
    stop is in the monad [res] of this file: [Fault AssertFailed] for a failed
    assertion, [Fault (Thrown m)] for an exception, [Fault BadAccess] for an
    access outside a buffer (undefined in C++), [Fault OutOfFuel] only for the
    model's bound on a loop.  Machine integers are [Z] with the wrap-around
    written out ([u32], [u64], [i32], [i64]).  Pointers are indices or
    addresses, memory is a list of records or a finite map.  Results of [malloc],
    of the file system and of third-party libraries (rdf4cpp) are arguments of
    the definitions; what the proofs rely on is a named hypothesis or a class.
    Concurrent code is a step function of a worker on the shared state, one
    access to shared memory or one critical section per step; the theorems
    quantify over all interleavings.

    Every bound on a loop is shown to be enough: the theorems say that the
    result is [Ok], not only what it is when there is one.  Bounds are the number
    of records in a store for walks along chains, the length of the text for the
    lexers, the parsers and LIKE, the size of the array for heaps, and the number
    of elements for iterators.

    ** Graphs (include/gengodb/runtime, src/gengodb/runtime)

    - [Dll], [Pool]: doubly linked chains of indices and free lists, shared by
      the stores.
    - [Graph]: the template Graph of Graph.h with its wrappers in
      BuiltinGraphs.h.  [GraphSpec] is a multigraph as finite maps, [GraphLink]
      and [GraphRefine] show that linking, unlinking, adding and removing refine
      it, [GraphProps] that every reachable graph satisfies the invariant and
      that traversals visit exactly the incident relationships.
    - [PropData], [PropDataProofs]: PropertyData and BlobTable, values of fixed
      and variable size, flushing and loading.
    - [PropertyGraph], [PropStore], [PropGraphRefine], [PropGraphProps]: the
      property graph, chains of property records, refinement, and that removal
      frees every record.
    - [GraphStorage], [GraphStorageProps]: the registry of graph memory and the
      end of an execution context (GraphStorage.cpp, ExecutionContext.h).
    - [GraphFile], [GraphFileProofs]: the stored form of a graph, flush and
      loading (GengoDBGraph.cpp, GraphData.cpp); [GraphDataOps]: population of
      the built-in graphs and the text of their values.

    ** RDF (include/gengodb/semantics, src/gengodb/semantics)

    - [Datatypes], [RdfTypes]: XSD datatypes and the encodings of literals.
    - [Identifiers], [IdentifiersProps], [IndexProps]: dictionaries of node ids
      and the index of global ids.
    - [FuzzyTurtle], [FuzzyTurtleSafe]: the reader that blanks truth degrees
      before the text goes to the Turtle parser; it ends on every text and keeps
      the layout.
    - [RdfGraph], [RdfGraphInv], [RdfGraphProps]: triples, literals, loading and
      caching; the ids that terms get, and the global ids of several graphs,
      against an equality of terms that does not mention their encoding.
    - [Variant], [VariantProps]: SPARQL values at run time (Variant.cpp).

    ** The query runtime (include/lingodb/runtime, src/runtime)

    - [Bytes], [Serialization]: little-endian integers, and the serialisation
      library of include/lingodb/utility.
    - [Helpers], [HelpersProps]: VarLen32, arenas and tagged pointers (helpers.h,
      ExecutionContext.h).
    - [Utf8], [Like]: the LIKE predicate; [StringFuncs]:
      substrings, searching, replacing, splitting and code
      points (StringRuntime.cpp).
    - [FlexBuffer]: FlexibleBuffer and GrowingBuffer.  The
      class [EntryStore] is what a hash table relies on, [flex_store] shows that
      a growing buffer provides it.
    - [Hashtable], [HashtableProps], [HashMerge]: the chained hash table, proved
      against [EntryStore]; grouping, and merging the tables of the workers.
    - [HashView], [HashViewProps]: the lock-free build of HashIndexedView.
    - [PreAgg], [PreAggProps]: aggregation in two phases: fragments of the workers
      with their caches, the merge of the 64 partitions (PreAggregationHashtable
      .cpp), and the code that SubOpToControlFlow.cpp emits for a row and for a
      lookup, read as the program it builds.
    - [HashIndex]: multi-maps (HashMultiMap.cpp); the hashes of columns
      (Hash.cpp) and the index of primary keys with its file
      (LingoDBHashIndex.cpp).
    - [Heap]: the heap of ORDER BY ... LIMIT, correct for limits from 1 to
      2^31 - 1 (the loop that builds it counts in an int).
    - [SegmentTree]: the segment tree of window functions.
    - [BufferTask], [BufferTaskProps], [BufferScan]: parallel
      iteration over buffers with work stealing, and the iterators.
    - [Sorting], [SortingMerge], [SortingProps]: the parallel sort of
      Sorting.cpp, with every order in which the workers take the pieces of its
      four tasks; separators are computed in doubles rounded to 53 bits.

    ** The scheduler (src/scheduler/Scheduler.cpp)

    - [Scheduler]: the queue of tasks, the life of one task, sleeping workers
      and fiber slots, each in a module; [SchedulerProps]: a task is finalized
      at most once, from every reachable state its workers can finalize it, and
      once its work is used up they cannot avoid it; a runnable fiber is not
      forgotten;
      [SchedulerQueue]: the queue as a list, getTask, disjoint fiber stacks.

    ** Statements, catalogue and endpoint

    - [SparqlText], [SparqlTextProps]: the accumulator that splits the input of
      the shell into statements (SparqlEngine.cpp, tools/sparql.cpp), proved on
      texts in which every "<" begins an IRI.
    - [Regex]: the part of std::regex that the engine uses, by backtracking.
    - [Catalog], [CatalogProps]: the catalogue with its entries for graphs and
      for the index of their nodes (catalog/Catalog.cpp, gengodb/catalog); a
      catalogue that is persisted opens again with the same graphs when no
      relationship slot of them was free.
    - [Engine], [EngineProps]: recognition of LOAD, settings and queries, and
      their execution (SparqlEngine.cpp).  Translation and execution of queries
      are arguments.  The persists directive keeps such graphs in the session
      and for a later start.
    - [Endpoint], [EndpointProps]: requests, routes and result formats of
      tools/sparql-endpoint.cpp, over the class [Engine]; [engine] of Engine.v
      is its instance.

    ** The parser of queries (SparqlMLIRTranslator.h)

    - [SparqlLexer]: the tokenizer, and that every token consumes text.
    - [SparqlParser]: terms, patterns, expressions, their keys and free
      variables, and the recursive descent over expressions and graph patterns.
      A parser is a function of the state [PState] to a value, an exception or
      [PFuel]; [SparqlQuery]: the clauses of a query, its checks, and [parse].
    - [SparqlTermination]: the parser ends on every text without UNION, with
      the length of the text as the bound, and does not end on a misplaced one.
    - [SparqlSyntax]: a reference grammar as a printer of tokens and texts;
      [SparqlExprRoundtrip], [SparqlPatternRoundtrip], [SparqlRoundtrip]: the
      parser, and with the tokenizer the text, give back what was printed.
    - [SparqlKey]: the keys that identify aggregates; [SparqlResult]: the
      invariant of returned queries, and texts that are read in another way than
      SPARQL says.

    ** Join ordering (src/compiler/Dialect/RelAlg/Transforms/queryopt)

    - [JoinOrder]: node sets as bit vectors (utils.h), the query graph with
      hyperedges, selections and pseudo nodes and the operations that build it
      (QueryGraph.h, QueryGraphBuilder), the combination of plans (utils.cpp),
      DPHyp with its recursions and the count of subgraphs (DPhyp.cpp), the
      greedy fallback (GOO.cpp) and the choice between them.  Estimates are
      IEEE doubles; the recursions have the nodes outside the excluded set as
      fuel.
    - [JoinOrderSets]: sets and their subsets in the order of iterateSubsets.
    - [JoinOrderProps]: the builder makes well-formed graphs, on which both
      searches end without touching a missing plan, and plans join every
      relation once.
    - [JoinOrderOptimal]: on edges between two relations, DPHyp visits the
      connected sets before their supersets, emits every pair of connected
      parts when the plans of both are final, and so solves the recurrence of
      optimal plans; no predicate of the query is lost.

    ** Groups of theorems

    Refinement: the graph, the property graph and the merged hash tables against
    finite maps; two-phase aggregation against a sequential group-by.
    Invariants: reachable graphs, growing buffers, arenas, the rows of an index
    over its whole life.
    Equivalence: LIKE, segment trees, string equality and the LOAD statement
    against reference definitions.  Round trips: files, dictionaries, serialised
    values, literals, packed characters, split and join, form data, CSV and RDF
    terms.  The parser of queries: termination, a round trip through a
    reference grammar, and the invariant of its results.  Sorting: the result is
    a sorted permutation, and the bounds of splits and separators.  From a LOAD statement to the triples of the graph.  Join ordering: complete
    plans, optimal substructure, predicates.  Concurrency: exactly-once iteration,
    finalization, the lock-free index, with termination and freedom from
    deadlock.  Errors: what throws, and a few theorems that show where the code
    does not do what it means to.

    ** Not modelled

    The compiler behind the parser of queries (MLIR dialects, the SQL frontend,
    code generation), Arrow tables and
    the relational catalogue, sockets and the other tools, and the vendored libraries: their meaning
    is that of MLIR, LLVM and Arrow, which are not in the repository, or they are
    input and output only.  Of the scheduler, stack switching and the threads of
    the operating system.  Of the string functions, those that call Arrow or the
    regular expressions of C++; dates and decimals are mostly
    calls into Arrow.  Of the
    hash index, the views of Arrow columns.  Of join ordering, the walk over the
    operators of MLIR that computes the sets of an edge, the edges for cross
    products, the estimate of a predicate over columns (an argument) and the
    rewriting of the operators.  The merges of different partitions
    of an aggregation run one after another in the model, in any order: they
    touch different entries and tables, and the buffer of the result under a
    lock. *)

From stdpp Require Export base list gmap strings.
From Stdlib Require Export ZArith Lia.

#[global] Set Default Goal Selector "!".
#[global] Open Scope Z_scope.

(** ** Faults and the result monad

    A C++ operation of the modelled code either returns or stops.  It stops
    because an [assert] fails, because an exception is thrown, or because it
    would read or write outside a buffer (which C++ leaves undefined).
    [OutOfFuel] belongs to the model: every theorem that a loop returns shows
    that it does not occur. *)
Inductive fault :=
  | AssertFailed
  | BadAccess
  | Thrown (msg : string)
  | OutOfFuel.

#[global] Instance fault_eq_dec : EqDecision fault.
Proof. solve_decision. Defined.

Inductive res (A : Type) :=
  | Ok (a : A)
  | Fault (f : fault).
Arguments Ok {A} a.
Arguments Fault {A} f.

Definition res_bind {A B} (m : res A) (k : A → res B) : res B :=
  match m with
  | Ok a => k a
  | Fault f => Fault f
  end.

Declare Scope res_scope.
Delimit Scope res_scope with res.
Notation "'let*' x := m 'in' k" := (res_bind m (λ x, k))
  (at level 10, x name, m at level 100, k at level 200) : res_scope.
Notation "'let*' ' p := m 'in' k" := (res_bind m (λ x, match x with p => k end))
  (at level 10, p pattern, m at level 100, k at level 200) : res_scope.
#[global] Open Scope res_scope.

(** [assert(b)] of the source, with assertions enabled. *)
Definition assert_ (b : bool) : res unit := if b then Ok tt else Fault AssertFailed.

Definition is_ok {A} (m : res A) : Prop := ∃ a, m = Ok a.

Lemma res_bind_ok {A B} (m : res A) (k : A → res B) b :
  res_bind m k = Ok b → ∃ a, m = Ok a ∧ k a = Ok b.
Proof. destruct m; simpl; naive_solver. Qed.

Lemma res_bind_assoc {A B C} (m : res A) (k : A → res B) (h : B → res C) :
  res_bind (res_bind m k) h = res_bind m (λ a, res_bind (k a) h).
Proof. by destruct m. Qed.

(** Decomposes every [m >>= k = Ok b] hypothesis into its steps. *)
Ltac inv_ok :=
  repeat match goal with
  | H : res_bind _ _ = Ok _ |- _ =>
      let a := fresh "a" in let E := fresh "E" in
      apply res_bind_ok in H as (a & E & H)
  | H : Ok _ = Ok _ |- _ => injection H as H; subst
  | H : Fault _ = Ok _ |- _ => discriminate H
  | H : Ok _ = Fault _ |- _ => discriminate H
  end.

(** ** Buffers: lists indexed by a signed integer *)

Section zlist.
Context {A : Type}.
Implicit Types (l : list A) (i j : Z) (x : A).

Definition zget l i : option A := if 0 <=? i then l !! Z.to_nat i else None.
Definition zset l i x : list A := if 0 <=? i then <[Z.to_nat i := x]> l else l.

(** [buf.ptr[i]] as an rvalue and as an assigned lvalue. *)
Definition load l i : res A :=
  match zget l i with Some x => Ok x | None => Fault BadAccess end.
Definition store l i x : res (list A) :=
  match zget l i with Some _ => Ok (zset l i x) | None => Fault BadAccess end.

Lemma zget_lt l i x : zget l i = Some x → 0 ≤ i < Z.of_nat (length l).
Proof.
  unfold zget. destruct (Z.leb_spec 0 i); [|done].
  intros ?%lookup_lt_Some. lia.
Qed.

Lemma zget_is_Some l i : is_Some (zget l i) ↔ 0 ≤ i < Z.of_nat (length l).
Proof.
  split; [intros [x ?]; by eapply zget_lt|].
  intros [? ?]. unfold zget. destruct (Z.leb_spec 0 i); [|lia].
  apply lookup_lt_is_Some. lia.
Qed.

Lemma zget_None l i : zget l i = None ↔ ¬ (0 ≤ i < Z.of_nat (length l)).
Proof. rewrite <- zget_is_Some, eq_None_not_Some. done. Qed.

Lemma length_zset l i x : length (zset l i x) = length l.
Proof. unfold zset. destruct (0 <=? i); [apply length_insert|done]. Qed.

Lemma zget_zset_eq l i x : 0 ≤ i < Z.of_nat (length l) → zget (zset l i x) i = Some x.
Proof.
  intros ?. unfold zget, zset. destruct (Z.leb_spec 0 i); [|lia].
  apply list_lookup_insert_eq. lia.
Qed.

Lemma zget_zset_ne l i j x : i ≠ j → zget (zset l i x) j = zget l j.
Proof.
  intros ?. unfold zget, zset.
  destruct (Z.leb_spec 0 i), (Z.leb_spec 0 j); try done.
  apply list_lookup_insert_ne. lia.
Qed.

Lemma zget_zset l i j x :
  zget (zset l i x) j =
    if decide (i = j) then (λ _, x) <$> zget l j else zget l j.
Proof.
  case_decide as E; [subst|by apply zget_zset_ne].
  destruct (zget l j) as [y|] eqn:E; simpl.
  - apply zget_zset_eq. by eapply zget_lt.
  - apply zget_None. rewrite length_zset. by apply zget_None.
Qed.

Lemma zget_zset_Some l i x y : zget l i = Some y → zget (zset l i x) i = Some x.
Proof. intros ?%zget_lt. by apply zget_zset_eq. Qed.

Lemma zset_id l i x : zget l i = Some x → zset l i x = l.
Proof.
  unfold zget, zset. destruct (0 <=? i); [|done]. intros ?. by apply list_insert_id.
Qed.

Lemma zset_zset l i x y : zset (zset l i x) i y = zset l i y.
Proof. unfold zset. destruct (0 <=? i); [|done]. apply list_insert_insert_eq. Qed.

Lemma load_ok l i x : load l i = Ok x ↔ zget l i = Some x.
Proof. unfold load. destruct (zget l i); naive_solver. Qed.

Lemma load_Some l i x : zget l i = Some x → load l i = Ok x.
Proof. apply load_ok. Qed.

Lemma store_Some l i x y : zget l i = Some y → store l i x = Ok (zset l i x).
Proof. unfold store. by intros ->. Qed.

Lemma store_ok l l' i x : store l i x = Ok l' → l' = zset l i x ∧ is_Some (zget l i).
Proof. unfold store. destruct (zget l i); naive_solver. Qed.

Lemma zget_replicate n x i : 0 ≤ i < Z.of_nat n → zget (replicate n x) i = Some x.
Proof.
  intros ?. unfold zget. destruct (Z.leb_spec 0 i); [|lia].
  apply lookup_replicate_2. lia.
Qed.

Lemma zget_app_l l1 l2 i : i < Z.of_nat (length l1) → zget (l1 ++ l2) i = zget l1 i.
Proof.
  intros ?. unfold zget. destruct (Z.leb_spec 0 i); [|done].
  apply lookup_app_l. lia.
Qed.

Lemma zget_app_end l x : zget (l ++ [x]) (Z.of_nat (length l)) = Some x.
Proof.
  unfold zget. destruct (Z.leb_spec 0 (Z.of_nat (length l))); [|lia].
  rewrite Nat2Z.id. by apply list_lookup_middle.
Qed.

Lemma zget_ext l l' :
  length l = length l' → (∀ i, 0 ≤ i < Z.of_nat (length l) → zget l i = zget l' i) → l = l'.
Proof.
  intros Hlen Heq. apply list_eq_same_length with (n := length l); [done|done|].
  intros k x y Hk Hx Hy. specialize (Heq (Z.of_nat k) ltac:(lia)).
  unfold zget in Heq. rewrite (proj2 (Z.leb_le 0 (Z.of_nat k))) in Heq by lia.
  rewrite Nat2Z.id in Heq. congruence.
Qed.
End zlist.

Lemma zget_fmap {A B} (f : A → B) (l : list A) i : zget (f <$> l) i = f <$> zget l i.
Proof. unfold zget. destruct (0 <=? i); [apply list_lookup_fmap|done]. Qed.

(** ** Machine integers *)

Definition wrap_u (bits z : Z) : Z := z mod 2 ^ bits.
Definition wrap_s (bits z : Z) : Z := (z + 2 ^ (bits - 1)) mod 2 ^ bits - 2 ^ (bits - 1).

Definition u8 := wrap_u 8.
Definition u32 := wrap_u 32.
Definition u64 := wrap_u 64.
Definition i32 := wrap_s 32.
Definition i64 := wrap_s 64.

Definition in_u (bits z : Z) : Prop := 0 ≤ z < 2 ^ bits.
Definition in_s (bits z : Z) : Prop := - 2 ^ (bits - 1) ≤ z < 2 ^ (bits - 1).

Lemma pow2_double b : 0 < b → 2 ^ b = 2 * 2 ^ (b - 1).
Proof. intros. rewrite <- Z.pow_succ_r by lia. f_equal. lia. Qed.

Lemma wrap_u_id b z : in_u b z → wrap_u b z = z.
Proof. apply Z.mod_small. Qed.

Lemma wrap_s_id b z : 0 < b → in_s b z → wrap_s b z = z.
Proof.
  unfold in_s, wrap_s. intros ? [? ?]. rewrite Z.mod_small; [lia|].
  rewrite (pow2_double b) by done. lia.
Qed.

Lemma wrap_u_range b z : 0 ≤ b → in_u b (wrap_u b z).
Proof. intros. apply Z.mod_pos_bound. by apply Z.pow_pos_nonneg. Qed.

Lemma wrap_s_range b z : 0 < b → in_s b (wrap_s b z).
Proof.
  intros. unfold in_s, wrap_s. rewrite (pow2_double b) at 1 by done.
  pose proof (Z.mod_pos_bound (z + 2 ^ (b - 1)) (2 ^ b)) as Hm.
  rewrite (pow2_double b) in * by done.
  assert (0 < 2 ^ (b - 1)) by (apply Z.pow_pos_nonneg; lia). lia.
Qed.

(** Reinterpreting a signed value as unsigned and back loses nothing. *)
Lemma wrap_s_u b z : 0 < b → in_s b z → wrap_s b (wrap_u b z) = z.
Proof.
  intros Hb Hz. unfold wrap_s, wrap_u.
  rewrite Zplus_mod_idemp_l. by apply wrap_s_id.
Qed.

Lemma wrap_u_s b z : 0 < b → in_u b z → wrap_u b (wrap_s b z) = z.
Proof.
  intros Hb Hz. unfold wrap_s, wrap_u.
  rewrite Zminus_mod_idemp_l. replace (z + _ - _) with z by lia.
  by apply Z.mod_small.
Qed.

(** ** Counting buffer indices *)

Lemma NoDup_bounded_length (l : list Z) n :
  NoDup l → (∀ i, i ∈ l → 0 ≤ i < n) → (length l ≤ Z.to_nat n)%nat.
Proof.
  intros Hnd Hb. rewrite <- (length_seqZ 0 n).
  apply submseteq_length, NoDup_submseteq; [done|].
  intros i Hi%Hb. apply elem_of_seqZ. lia.
Qed.

(** A finite map whose keys are the indices below [n] that are not listed in
    [fr] has as many entries as there are unlisted indices. *)
Lemma map_size_complement {A} (m : gmap Z A) (fr : list Z) n :
  0 ≤ n → NoDup fr → (∀ i, i ∈ fr → 0 ≤ i < n) →
  (∀ i, is_Some (m !! i) ↔ 0 ≤ i < n ∧ i ∉ fr) →
  Z.of_nat (size m) = n - Z.of_nat (length fr).
Proof.
  intros Hn Hnd Hfr Hm.
  assert (dom m ∪ list_to_set fr = list_to_set (seqZ 0 n)) as Hdom.
  { apply set_eq. intros i. rewrite elem_of_union, elem_of_dom, !elem_of_list_to_set, elem_of_seqZ, Hm.
    destruct (decide (i ∈ fr)) as [Hi|]; [|naive_solver lia]. pose proof (Hfr i Hi). naive_solver lia. }
  apply (f_equal size) in Hdom.
  rewrite size_union, size_dom in Hdom by (intros i; rewrite elem_of_dom, elem_of_list_to_set, Hm; naive_solver).
  rewrite !size_list_to_set in Hdom by (done || apply NoDup_seqZ).
  rewrite length_seqZ in Hdom. lia.
Qed.

(** Two finite maps agree when their lookups do, one key at a time. *)
Lemma alter_lookup_is_Some {A} (f : A → A) (m : gmap Z A) i j :
  is_Some (alter f i m !! j) ↔ is_Some (m !! j).
Proof.
  destruct (decide (i = j)) as [->|]; [rewrite lookup_alter_eq|by rewrite lookup_alter_ne].
  apply fmap_is_Some.
Qed.

(** ** Bit fields *)

Lemma testbit_low a b n m : 0 ≤ m < n → Z.testbit (a * 2 ^ n + b) m = Z.testbit b m.
Proof.
  intros Hm. rewrite <- (Z.mod_pow2_bits_low _ n m) by lia. rewrite <- (Z.mod_pow2_bits_low b n m) by lia.
  f_equal. rewrite Z.add_comm. apply Z.mod_add. apply Z.pow_nonzero; lia.
Qed.

(** Or-ing a shifted value with one that fits below it is addition. *)
Lemma lor_shiftl_add a b n : 0 ≤ n → 0 ≤ b < 2 ^ n → Z.lor (Z.shiftl a n) b = a * 2 ^ n + b.
Proof.
  intros Hn Hb. apply Z.bits_inj'. intros m Hm. rewrite Z.lor_spec, Z.shiftl_spec by lia.
  destruct (Z.lt_ge_cases m n) as [Hlt|Hge].
  - rewrite testbit_low by lia. rewrite (Z.testbit_neg_r a) by lia. done.
  - assert (Z.testbit b m = false) as ->.
    { rewrite <- (Z.mod_small b (2 ^ n)) by lia. apply Z.mod_pow2_bits_high. lia. }
    rewrite orb_false_r. replace m with ((m - n) + n) at 2 by lia.
    rewrite <- Z.div_pow2_bits by lia. f_equal. rewrite Z.add_comm, Z.div_add by (apply Z.pow_nonzero; lia).
    rewrite Z.div_small by lia. lia.
Qed.

Lemma land_ones_mod a n : 0 ≤ n → Z.land a (2 ^ n - 1) = a mod 2 ^ n.
Proof. intros. rewrite <- Z.land_ones by lia. f_equal. rewrite Z.ones_equiv. lia. Qed.

(** ** Sums over lists *)

Lemma sum_insert {A} (f : A → nat) l i x y : l !! i = Some x → (sum_list_with f (<[i := y]> l) + f x = sum_list_with f l + f y)%nat.
Proof. revert i. induction l as [|a l IH]; intros [|i] Hi; simplify_eq/=; [lia|]. pose proof (IH i Hi). lia. Qed.

Lemma sum_replicate {A} (f : A → nat) k x : sum_list_with f (replicate k x) = (k * f x)%nat.
Proof. induction k as [|k IH]; [done|]. simpl. by rewrite IH. Qed.

(** ** Updating a list at an index *)

Lemma insert_lookup_iff {A} (l : list A) i x0 x j y :
  l !! i = Some x0 → <[i := x]> l !! j = Some y ↔ (j ≠ i ∧ l !! j = Some y) ∨ (j = i ∧ y = x).
Proof.
  intros Hi. destruct (decide (j = i)) as [->|Hne]; [|rewrite list_lookup_insert_ne by done; naive_solver].
  rewrite list_lookup_insert_eq by (by eapply lookup_lt_Some). naive_solver.
Qed.
