(* ===== verification/Dll.v ===== *)
(** * Doubly linked index chains

    The graph runtime threads doubly linked lists through fixed-size buffers:
    the relationships incident to a node ([Graph] in Graph.h) and the
    properties of a node or relationship ([PropertyGraph] in BuiltinGraphs.h)
    are records whose previous and next fields hold buffer indices, with
    [GRAPH_NONE] (-1) as the null link.  This file is the shared theory of such
    chains: a segment predicate over a buffer, how it splits and joins, and
    what the pointer updates of insertion at the head and of unlinking do. *)

From S2P Require Import Prelude.


(** [static constexpr int32_t GRAPH_NONE = -1] *)
Definition GRAPH_NONE : Z := -1.

(** The last element of a list, [d] for the empty one. *)
Definition lastd (d : Z) (l : list Z) : Z := foldl (λ _ x, x) d l.
(** The first element of a list, [d] for the empty one. *)
Definition hdd (d : Z) (l : list Z) : Z := match l with [] => d | x :: _ => x end.

Lemma lastd_snoc d l x : lastd d (l ++ [x]) = x.
Proof. unfold lastd. by rewrite foldl_snoc. Qed.

Lemma lastd_elem d l : l ≠ [] → lastd d l ∈ l.
Proof.
  destruct l as [|x l _] using rev_ind; [done|].
  intros _. rewrite lastd_snoc. set_solver.
Qed.

Lemma remove_at_elem (l1 l2 : list Z) i j :
  NoDup (l1 ++ i :: l2) → j ∈ l1 ++ l2 ↔ j ∈ l1 ++ i :: l2 ∧ j ≠ i.
Proof.
  intros [_ [Hd [Hi _]%NoDup_cons]]%NoDup_app. specialize (Hd i). rewrite !elem_of_app, elem_of_cons. naive_solver (set_solver).
Qed.

Lemma filter_ne_id (l : list Z) i : i ∉ l → filter (λ j, j ≠ i) l = l.
Proof.
  induction l as [|x l IH]; [done|]. intros [? ?]%not_elem_of_cons.
  rewrite filter_cons_True by done. by rewrite IH.
Qed.

Lemma filter_ne_split (l1 l2 : list Z) i :
  NoDup (l1 ++ i :: l2) → filter (λ j, j ≠ i) (l1 ++ i :: l2) = l1 ++ l2.
Proof.
  intros [_ [Hd [Hi _]%NoDup_cons]]%NoDup_app.
  rewrite filter_app, filter_cons_False by naive_solver.
  rewrite !filter_ne_id; [done|done|]. intros ?. by eapply Hd; [|left].
Qed.

Section dll.
Context {R : Type}.
(** The links of a record and which records belong to the chain. *)
Context (prv nxt : R → Z) (own : R → Prop).

(** [dseg rs p c l e]: following next links from [c] visits exactly [l] and
    then [e]; the first record's previous link is [p]. *)
Fixpoint dseg (rs : list R) (p c : Z) (l : list Z) (e : Z) : Prop :=
  match l with
  | [] => c = e
  | i :: l' => c = i ∧ ∃ r, zget rs i = Some r ∧ own r ∧ prv r = p ∧ dseg rs i (nxt r) l' e
  end.

Lemma dseg_app rs p c l1 l2 e :
  dseg rs p c (l1 ++ l2) e ↔
    ∃ m, dseg rs p c l1 m ∧ dseg rs (lastd p l1) m l2 e.
Proof.
  revert p c. induction l1 as [|i l1 IH]; intros p c; simpl.
  - naive_solver.
  - split.
    + intros (-> & r & Hr & Ho & Hp & (m & H1 & H2)%IH). eauto 10.
    + intros (m & (-> & r & Hr & Ho & Hp & H1) & H2).
      split; [done|]. exists r. split_and!; [done..|]. apply IH. eauto.
Qed.

Lemma dseg_hd rs p c l e : dseg rs p c l e → c = hdd e l.
Proof. destruct l; naive_solver. Qed.

Lemma dseg_elem rs p c l e i :
  dseg rs p c l e → i ∈ l → ∃ r, zget rs i = Some r ∧ own r.
Proof.
  revert p c. induction l as [|j l IH]; intros p c; [set_solver|].
  intros (-> & r & Hr & Ho & Hp & H) [->|?]%elem_of_cons; eauto.
Qed.

Lemma dseg_nonneg rs p c l e : dseg rs p c l e → Forall (λ i, 0 ≤ i) l.
Proof.
  intros H. apply Forall_forall. intros i Hi.
  destruct (dseg_elem _ _ _ _ _ _ H Hi) as (r & ?%zget_lt & _). lia.
Qed.

(** Records outside the segment, and records whose view is kept, do not matter. *)
Lemma dseg_frame rs rs' p c l e :
  (∀ i r, i ∈ l → zget rs i = Some r → own r →
     ∃ r', zget rs' i = Some r' ∧ own r' ∧ prv r' = prv r ∧ nxt r' = nxt r) →
  dseg rs p c l e → dseg rs' p c l e.
Proof.
  revert p c. induction l as [|j l IH]; intros p c Hf; simpl; [done|].
  intros (-> & r & Hr & Ho & Hp & H).
  destruct (Hf j r) as (r' & Hr' & Ho' & Hp' & Hn'); [set_solver|done|done|].
  split; [done|]. exists r'. split_and!; [done..|congruence|].
  rewrite Hn'. apply IH; [|done]. intros i ri ?. apply Hf. set_solver.
Qed.

Lemma dseg_frame_ne rs x r' p c l e :
  x ∉ l → dseg rs p c l e → dseg (zset rs x r') p c l e.
Proof.
  intros Hx. apply dseg_frame. intros i r Hi Hr Ho. exists r.
  rewrite zget_zset_ne by (intros ->; done). done.
Qed.

(** The two halves of unlinking, stated pointwise on the records. *)
Lemma dseg_relink_next rs rs' p c l x e e' :
  NoDup (l ++ [x]) → dseg rs p c (l ++ [x]) e →
  (∀ j r, j ∈ l ++ [x] → zget rs j = Some r → own r →
     ∃ r', zget rs' j = Some r' ∧ own r' ∧ prv r' = prv r ∧
           nxt r' = if decide (j = x) then e' else nxt r) →
  dseg rs' p c (l ++ [x]) e'.
Proof.
  intros (_ & Hdx & _)%NoDup_app (m & H1 & (-> & rx & Hrx & Hox & Hpx & _))%dseg_app Hf.
  apply dseg_app. exists x. split.
  - eapply dseg_frame; [|exact H1]. intros j rj Hj Hrj Hoj.
    destruct (Hf j rj) as (r' & ? & ? & ? & Hn'); [set_solver|done..|].
    exists r'. rewrite decide_False in Hn'; [done|].
    intros ->. eapply Hdx; [exact Hj|by left].
  - destruct (Hf x rx) as (r' & ? & ? & Hp' & Hn'); [set_solver|done..|].
    rewrite decide_True in Hn' by done. split; [done|]. exists r'. split_and!; [done..|congruence|done].
Qed.

Lemma dseg_relink_prev rs rs' p p' y l e :
  NoDup (y :: l) → dseg rs p y (y :: l) e →
  (∀ j r, j ∈ y :: l → zget rs j = Some r → own r →
     ∃ r', zget rs' j = Some r' ∧ own r' ∧ nxt r' = nxt r ∧
           prv r' = if decide (j = y) then p' else prv r) →
  dseg rs' p' y (y :: l) e.
Proof.
  intros [Hy Hnd]%NoDup_cons (_ & ry & Hry & Hoy & Hpy & H) Hf.
  destruct (Hf y ry) as (r' & ? & ? & Hn' & Hp'); [set_solver|done..|].
  rewrite decide_True in Hp' by done. split; [done|]. exists r'. split_and!; [done..|].
  rewrite Hn'. eapply dseg_frame; [|exact H]. intros j rj Hj Hrj Hoj.
  destruct (Hf j rj) as (r'' & ? & ? & ? & Hp''); [set_solver|done..|].
  exists r''. rewrite decide_False in Hp'' by (intros ->; done). done.
Qed.

(** A chain: a segment that starts without predecessor and ends in [GRAPH_NONE]. *)
Definition chain rs c l := dseg rs GRAPH_NONE c l GRAPH_NONE.

Lemma chain_nil rs : chain rs GRAPH_NONE [].
Proof. done. Qed.

Lemma chain_empty rs l : chain rs GRAPH_NONE l → l = [].
Proof.
  intros H. destruct l as [|i l]; [done|].
  pose proof (dseg_nonneg _ _ _ _ _ H) as [Hi _]%Forall_cons.
  destruct H as [<- _]. unfold GRAPH_NONE in Hi. lia.
Qed.

Lemma chain_cons rs c l : c ≠ GRAPH_NONE → chain rs c l → ∃ l', l = c :: l'.
Proof. intros Hc H. destruct l as [|i l']; [by destruct Hc|]. destruct H as [-> _]. eauto. Qed.

(** The links of a chain's member are its neighbours in the list. *)
Lemma chain_member rs c l1 i l2 r :
  chain rs c (l1 ++ i :: l2) → zget rs i = Some r →
  own r ∧ prv r = lastd GRAPH_NONE l1 ∧ nxt r = hdd GRAPH_NONE l2.
Proof.
  intros (m & H1 & (-> & r0 & Hr0 & Ho & Hp & H2))%dseg_app ?. simplify_eq.
  split_and!; [done..|]. by eapply dseg_hd.
Qed.

(** The neighbours of a member, where there are any, are members. *)
Lemma chain_neighbour rs c l1 i l2 x :
  chain rs c (l1 ++ i :: l2) → x = lastd GRAPH_NONE l1 ∨ x = hdd GRAPH_NONE l2 →
  x ≠ GRAPH_NONE → ∃ r, zget rs x = Some r ∧ own r.
Proof.
  intros Hc Hx Hne. apply (dseg_elem _ _ _ _ _ x Hc).
  rewrite elem_of_app, elem_of_cons. destruct Hx as [->| ->].
  - left. apply lastd_elem. by intros ->.
  - right; right. destruct l2; [done|]. left.
Qed.

Lemma chain_is_first rs c l1 i l2 :
  chain rs c (l1 ++ i :: l2) → lastd GRAPH_NONE l1 = GRAPH_NONE ↔ l1 = [].
Proof.
  intros Hc. split; [|by intros ->]. intros Hl.
  destruct l1 as [|x l1 _] using rev_ind; [done|]. rewrite lastd_snoc in Hl. subst x.
  pose proof (dseg_nonneg _ _ _ _ _ Hc) as Hn. rewrite Forall_forall in Hn.
  specialize (Hn GRAPH_NONE). unfold GRAPH_NONE in Hn. set_solver by lia.
Qed.

(** Insertion at the head: the new record points to the old head, and the
    old head (if any) points back. *)
Lemma chain_push rs rs' id c l :
  id ∉ l → NoDup l → chain rs c l →
  (∃ r, zget rs' id = Some r ∧ own r ∧ prv r = GRAPH_NONE ∧ nxt r = c) →
  (∀ i r, i ∈ l → zget rs i = Some r → own r →
     ∃ r', zget rs' i = Some r' ∧ own r' ∧ nxt r' = nxt r ∧
           prv r' = if decide (i = c) then id else prv r) →
  chain rs' id (id :: l).
Proof.
  intros Hid Hnd Hc (r & Hr & Ho & Hp & Hn) Hf.
  split; [done|]. exists r. split_and!; [done..|]. rewrite Hn.
  destruct l as [|i l]; [by destruct Hc|]. pose proof (dseg_hd _ _ _ _ _ Hc) as ->.
  eapply dseg_relink_prev; [done|exact Hc|exact Hf].
Qed.

(** Unlinking a member: its neighbours point to each other. *)
Lemma chain_unlink rs rs' c c' l1 i l2 :
  NoDup (l1 ++ i :: l2) → chain rs c (l1 ++ i :: l2) →
  c' = (if decide (l1 = []) then hdd GRAPH_NONE l2 else c) →
  (∀ j r, j ∈ l1 ++ l2 → zget rs j = Some r → own r →
     ∃ r', zget rs' j = Some r' ∧ own r' ∧
       nxt r' = (if decide (l1 ≠ [] ∧ j = lastd GRAPH_NONE l1) then hdd GRAPH_NONE l2 else nxt r) ∧
       prv r' = (if decide (l2 ≠ [] ∧ j = hdd GRAPH_NONE l2) then lastd GRAPH_NONE l1 else prv r)) →
  chain rs' c' (l1 ++ l2).
Proof.
  intros Hnd (m & H1 & (-> & r & Hr & Ho & Hp & H2))%dseg_app -> Hf.
  apply NoDup_app in Hnd as (Hnd1 & Hd & [Hi2 Hnd2]%NoDup_cons).
  assert (∀ j, j ∈ l1 → j ∉ l2) as Hd12 by (intros j ??; by eapply (Hd j); [|right]).
  apply dseg_app. exists (hdd GRAPH_NONE l2). split.
  - destruct l1 as [|x l1 _] using rev_ind; [done|].
    rewrite decide_False by (by destruct l1). eapply dseg_relink_next; [done|exact H1|].
    intros j rj Hj Hrj Hoj. destruct (Hf j rj) as (r' & ? & ? & Hn' & Hp'); [set_solver|done..|].
    exists r'. split_and!; [done..| |].
    + rewrite Hp', decide_False; [done|]. intros [Hl2 ->].
      apply (Hd12 _ Hj). destruct l2; [done|]. left.
    + rewrite Hn', lastd_snoc. repeat case_decide; destruct l1; naive_solver.
  - destruct l2 as [|y l2]; [done|]. pose proof (dseg_hd _ _ _ _ _ H2) as Hy. rewrite Hy in H2.
    eapply dseg_relink_prev; [done|exact H2|].
    intros j rj Hj Hrj Hoj. destruct (Hf j rj) as (r' & ? & ? & Hn' & Hp'); [set_solver|done..|].
    exists r'. split_and!; [done..| |].
    + rewrite Hn', decide_False; [done|]. intros [Hl1 ->].
      eapply Hd12; [|exact Hj]. by apply lastd_elem.
    + rewrite Hp'. simpl. repeat case_decide; naive_solver.
Qed.
End dll.

Arguments chain_unlink {R} prv nxt own rs rs' c c' l1 i l2.
Arguments chain_push {R} prv nxt own rs rs' id c l.

(** ** Slot allocation

    [Graph::allocNode], [Graph::allocRel] and [PropertyGraph::allocProp] are the
    same allocator over three buffers: reuse the most recently freed slot, else
    advance the high-water mark.  [pool] is its invariant. *)

(** [pool mark cap fr live]: below the high-water mark every slot is either
    live or listed once in the free list; nothing is live above the mark. *)
Record pool (mark cap : Z) (fr : list Z) (live : Z → Prop) : Prop := {
  pool_mark : 0 ≤ mark ≤ cap;
  pool_nodup : NoDup fr;
  pool_free_elem : ∀ i, i ∈ fr ↔ 0 ≤ i < mark ∧ ¬ live i;
  pool_live : ∀ i, live i → 0 ≤ i < mark;
}.

Definition pool_room (mark cap : Z) (fr : list Z) : Prop := fr ≠ [] ∨ mark < cap.

(** The shared shape of the three allocators: new mark, new free list, slot. *)
Definition pool_alloc (mark cap : Z) (fr : list Z) : res (Z * list Z * Z) :=
  match fr with
  | id :: fr' => Ok (mark, fr', id)
  | [] => let* _ := assert_ (mark <? cap) in Ok (mark + 1, [], mark)
  end.

Lemma pool_ext mark cap fr live live' :
  pool mark cap fr live → (∀ i, live i ↔ live' i) → pool mark cap fr live'.
Proof.
  intros [? ? Hf Hl] He. split; [done..| |].
  - intros i. by rewrite Hf, He.
  - intros i. rewrite <- He. apply Hl.
Qed.

Lemma pool_empty cap (live : Z → Prop) : 0 ≤ cap → (∀ i, ¬ live i) → pool 0 cap [] live.
Proof. intros ? Hl. split; [lia|constructor|set_solver by lia|]. by intros i ?%Hl. Qed.

Lemma pool_alloc_ok mark cap fr live :
  pool mark cap fr live → pool_room mark cap fr →
  ∃ mark' fr' id, pool_alloc mark cap fr = Ok (mark', fr', id) ∧
    ¬ live id ∧ 0 ≤ id < mark' ∧ (∀ i, i ≠ id → i < mark' ↔ i < mark) ∧
    pool mark' cap fr' (λ i, i = id ∨ live i).
Proof.
  intros [Hm Hnd Hf Hl] Hr. destruct fr as [|id fr]; simpl.
  - destruct Hr as [|Hr]; [done|]. rewrite (proj2 (Z.ltb_lt _ _) Hr). simpl.
    exists (mark + 1), [], mark.
    assert (¬ live mark) by (intros ?%Hl; lia).
    split_and!; [done|done|lia|lia|lia|]. split; [lia|done| |].
    + intros i. split; [set_solver|]. intros [? Hn].
      destruct (decide (i = mark)); [by destruct Hn; left|].
      assert (i ∈ []) by (apply Hf; split; [lia|naive_solver]). done.
    + intros i [->|?%Hl]; lia.
  - exists mark, fr, id. apply NoDup_cons in Hnd as [Hid Hnd].
    destruct (proj1 (Hf id)) as [? ?]; [set_solver|].
    split_and!; [done|done|lia..|]. split; [lia|done| |].
    + intros i. split.
      * intros Hi. destruct (proj1 (Hf i)) as [? ?]; [set_solver|]. naive_solver.
      * intros [? ?]. assert (i ∈ id :: fr) as [->|]%elem_of_cons by (apply Hf; naive_solver); naive_solver.
    + intros i [->|?%Hl]; lia.
Qed.

Lemma pool_alloc_full mark cap fr :
  ¬ pool_room mark cap fr → pool_alloc mark cap fr = Fault AssertFailed.
Proof.
  intros Hr. destruct fr as [|id fr]; simpl.
  - destruct (Z.ltb_spec mark cap); [|done]. destruct Hr. by right.
  - destruct Hr. by left.
Qed.

Lemma pool_release mark cap fr live id :
  pool mark cap fr live → live id → pool mark cap (id :: fr) (λ i, live i ∧ i ≠ id).
Proof.
  intros [Hm Hnd Hf Hl] Hid. split; [done| | |].
  - apply NoDup_cons. split; [|done]. by intros [_ ?]%Hf.
  - intros i. rewrite elem_of_cons, Hf. split.
    + intros [->|[? ?]]; [split; [by apply Hl|naive_solver]|naive_solver].
    + intros [? ?]. destruct (decide (i = id)); naive_solver.
  - intros i [? ?]. by apply Hl.
Qed.

(** The number of live slots is the mark minus the length of the free list. *)
Lemma pool_count {A} (m : gmap Z A) mark cap fr live :
  pool mark cap fr live → (∀ i, is_Some (m !! i) ↔ live i) →
  Z.of_nat (size m) = mark - Z.of_nat (length fr).
Proof.
  intros [Hm Hnd Hf Hl] He. apply map_size_complement; [lia|done| |].
  - intros i Hi. by apply Hf.
  - intros i. rewrite He, Hf. split; [|intros [? Hn]].
    + intros Hli. pose proof (Hl i Hli). naive_solver.
    + destruct (decide (i ∈ fr)) as [Hi|Hi]; rewrite Hf in Hi; [naive_solver|].
      assert (¬ ¬ live i) as Hnn by naive_solver.
      rewrite <- He in *. destruct (m !! i); [done|]. destruct Hnn. by intros [? ?].
Qed.

(** The live slots after allocation and release, as lookups of the abstraction. *)
Lemma alloc_live {A} (x : A) (o : option A) (i id : Z) :
  i = id ∨ is_Some o ↔ is_Some (if decide (i = id) then Some x else o).
Proof. case_decide; [|naive_solver]. split; [by eauto|by left]. Qed.

Lemma release_live {A} (o : option A) (i id : Z) :
  is_Some o ∧ i ≠ id ↔ is_Some (if decide (i = id) then None else o).
Proof. case_decide; [|naive_solver]. split; [naive_solver|by intros [? ?]]. Qed.

Create HintDb pool.
#[export] Hint Resolve pool_alloc_ok pool_alloc_full pool_release pool_ext pool_empty : pool.
