(* ===== verification/Graph.v ===== *)
(** * The adjacency-list graph

    Model of [Graph<NodePayload, RelPayload>] (include/gengodb/runtime/Graph.h):
    nodes and relationships are entries of two fixed-capacity buffers; every
    relationship is threaded into the doubly linked incidence chains of its two
    end nodes.  The abstract specification [SpecGraph] is a multigraph with
    ordered adjacency lists; [Rep] relates the two and every operation is shown
    to refine its specification. *)

From S2P Require Import Prelude Dll.

Section graph.
Context {NP RP : Type}.

(** [Graph::NodeEntry] *)
Record NodeEntry := mkNode {
  firstRelId : Z;
  n_inUse : bool;
  labels : list Z;
  extra : Z;
  n_payload : NP;
}.

(** [Graph::RelEntry] *)
Record RelEntry := mkRel {
  firstNodeId : Z;
  secondNodeId : Z;
  typeId : Z;
  firstPrevRelId : Z;
  firstNextRelId : Z;
  secondPrevRelId : Z;
  secondNextRelId : Z;
  r_inUse : bool;
  firstInChainMarker : Z;
  r_payload : RP;
}.

(** The data members of [Graph].  The two vectors of freed ids are kept with
    their back at the head of the list. *)
Record Graph := mkGraph {
  nodes_ : list NodeEntry;
  rels_ : list RelEntry;
  nodeMark_ : Z;
  relMark_ : Z;
  nodeCap_ : Z;
  relCap_ : Z;
  freeNodes_ : list Z;
  freeRels_ : list Z;
}.

(** Field updates. *)
Definition set_firstRelId (n : NodeEntry) h :=
  mkNode h (n_inUse n) (labels n) (extra n) (n_payload n).
Definition set_n_inUse (n : NodeEntry) b :=
  mkNode (firstRelId n) b (labels n) (extra n) (n_payload n).
Definition set_n_payload (n : NodeEntry) p :=
  mkNode (firstRelId n) (n_inUse n) (labels n) (extra n) p.
Definition set_firstLinks (r : RelEntry) p n :=
  mkRel (firstNodeId r) (secondNodeId r) (typeId r) p n (secondPrevRelId r) (secondNextRelId r)
    (r_inUse r) (firstInChainMarker r) (r_payload r).
Definition set_secondLinks (r : RelEntry) p n :=
  mkRel (firstNodeId r) (secondNodeId r) (typeId r) (firstPrevRelId r) (firstNextRelId r) p n
    (r_inUse r) (firstInChainMarker r) (r_payload r).
Definition set_r_inUse (r : RelEntry) b :=
  mkRel (firstNodeId r) (secondNodeId r) (typeId r) (firstPrevRelId r) (firstNextRelId r)
    (secondPrevRelId r) (secondNextRelId r) b (firstInChainMarker r) (r_payload r).
Definition set_r_payload (r : RelEntry) p :=
  mkRel (firstNodeId r) (secondNodeId r) (typeId r) (firstPrevRelId r) (firstNextRelId r)
    (secondPrevRelId r) (secondNextRelId r) (r_inUse r) (firstInChainMarker r) p.
Definition set_nodes (g : Graph) ns :=
  mkGraph ns (rels_ g) (nodeMark_ g) (relMark_ g) (nodeCap_ g) (relCap_ g) (freeNodes_ g) (freeRels_ g).
Definition set_rels (g : Graph) rs :=
  mkGraph (nodes_ g) rs (nodeMark_ g) (relMark_ g) (nodeCap_ g) (relCap_ g) (freeNodes_ g) (freeRels_ g).
Definition set_nodeAlloc (g : Graph) mark fr :=
  mkGraph (nodes_ g) (rels_ g) mark (relMark_ g) (nodeCap_ g) (relCap_ g) fr (freeRels_ g).
Definition set_relAlloc (g : Graph) mark fr :=
  mkGraph (nodes_ g) (rels_ g) (nodeMark_ g) mark (nodeCap_ g) (relCap_ g) (freeNodes_ g) fr.

(** Which of the two link pairs of [r] belongs to the chain of node [n]: the
    code's test [r.firstNodeId == n], with the first pair winning for a
    self-loop. *)
Definition nextOf (n : Z) (r : RelEntry) : Z :=
  if firstNodeId r =? n then firstNextRelId r else secondNextRelId r.
Definition prevOf (n : Z) (r : RelEntry) : Z :=
  if firstNodeId r =? n then firstPrevRelId r else secondPrevRelId r.
Definition setNextOf (n : Z) (r : RelEntry) (v : Z) : RelEntry :=
  if firstNodeId r =? n then set_firstLinks r (firstPrevRelId r) v
  else set_secondLinks r (secondPrevRelId r) v.
Definition setPrevOf (n : Z) (r : RelEntry) (v : Z) : RelEntry :=
  if firstNodeId r =? n then set_firstLinks r v (firstNextRelId r)
  else set_secondLinks r v (secondNextRelId r).

(** ** Operations *)

(** The constructor: both buffers zero-filled. *)
Definition zeroNode (np : NP) : NodeEntry := mkNode 0 false [0; 0; 0; 0; 0] 0 np.
Definition zeroRel (rp : RP) : RelEntry := mkRel 0 0 0 0 0 0 0 false 0 rp.
Definition newGraph (np : NP) (rp : RP) (nodeCapacity relCapacity : Z) : Graph :=
  mkGraph (replicate (Z.to_nat nodeCapacity) (zeroNode np))
          (replicate (Z.to_nat relCapacity) (zeroRel rp))
          0 0 nodeCapacity relCapacity [] [].

(** The asserting accessors [node] and [rel]. *)
Definition node (g : Graph) (id : Z) : res NodeEntry :=
  let* _ := assert_ ((0 <=? id) && (id <? nodeMark_ g)) in load (nodes_ g) id.
Definition rel (g : Graph) (id : Z) : res RelEntry :=
  let* _ := assert_ ((0 <=? id) && (id <? relMark_ g)) in load (rels_ g) id.

Definition allocNode (g : Graph) : res (Graph * Z) :=
  match freeNodes_ g with
  | id :: fr => Ok (set_nodeAlloc g (nodeMark_ g) fr, id)
  | [] =>
      let* _ := assert_ (nodeMark_ g <? nodeCap_ g) in
      Ok (set_nodeAlloc g (nodeMark_ g + 1) [], nodeMark_ g)
  end.

Definition allocRel (g : Graph) : res (Graph * Z) :=
  match freeRels_ g with
  | id :: fr => Ok (set_relAlloc g (relMark_ g) fr, id)
  | [] =>
      let* _ := assert_ (relMark_ g <? relCap_ g) in
      Ok (set_relAlloc g (relMark_ g + 1) [], relMark_ g)
  end.

Definition linkRelToNode (g : Graph) (relId nodeId : Z) (nodeIsFirst : bool) : res Graph :=
  let* n := load (nodes_ g) nodeId in
  let* r := load (rels_ g) relId in
  let oldHead := firstRelId n in
  let r' := if nodeIsFirst then set_firstLinks r GRAPH_NONE oldHead
            else set_secondLinks r GRAPH_NONE oldHead in
  let g1 := set_rels g (zset (rels_ g) relId r') in
  let* g2 :=
    if oldHead =? GRAPH_NONE then Ok g1
    else
      let* head := load (rels_ g1) oldHead in
      Ok (set_rels g1 (zset (rels_ g1) oldHead (setPrevOf nodeId head relId))) in
  Ok (set_nodes g2 (zset (nodes_ g2) nodeId (set_firstRelId n relId))).

Definition unlinkRelFromNode (g : Graph) (relId nodeId : Z) : res Graph :=
  let* r := load (rels_ g) relId in
  let* n := load (nodes_ g) nodeId in
  let prevId := prevOf nodeId r in
  let nextId := nextOf nodeId r in
  let* g1 :=
    if negb (prevId =? GRAPH_NONE) then
      let* prev := load (rels_ g) prevId in
      Ok (set_rels g (zset (rels_ g) prevId (setNextOf nodeId prev nextId)))
    else Ok (set_nodes g (zset (nodes_ g) nodeId (set_firstRelId n nextId))) in
  if negb (nextId =? GRAPH_NONE) then
    let* next := load (rels_ g1) nextId in
    Ok (set_rels g1 (zset (rels_ g1) nextId (setPrevOf nodeId next prevId)))
  else Ok g1.

Definition addNode (g : Graph) (initPayload : NP) : res (Graph * Z) :=
  let* '(g1, id) := allocNode g in
  let* n := load (nodes_ g1) id in
  let n' := set_n_payload (set_firstRelId (set_n_inUse n true) GRAPH_NONE) initPayload in
  Ok (set_nodes g1 (zset (nodes_ g1) id n'), id).

Definition addRelationship (g : Graph) (from to ty : Z) (initPayload : RP) : res (Graph * Z) :=
  let* '(g1, id) := allocRel g in
  let* r := load (rels_ g1) id in
  let r' := mkRel from to (i32 ty) GRAPH_NONE GRAPH_NONE GRAPH_NONE GRAPH_NONE true
                  (firstInChainMarker r) initPayload in
  let g2 := set_rels g1 (zset (rels_ g1) id r') in
  let* g3 := linkRelToNode g2 id from true in
  if negb (from =? to) then
    let* g4 := linkRelToNode g3 id to false in Ok (g4, id)
  else Ok (g3, id).

Definition removeRelationship (g : Graph) (id : Z) : res Graph :=
  let* r := load (rels_ g) id in
  let* _ := assert_ (r_inUse r) in
  let* g1 := unlinkRelFromNode g id (firstNodeId r) in
  let* g2 :=
    if negb (firstNodeId r =? secondNodeId r) then unlinkRelFromNode g1 id (secondNodeId r)
    else Ok g1 in
  let* r2 := load (rels_ g2) id in
  let g3 := set_rels g2 (zset (rels_ g2) id (set_r_inUse r2 false)) in
  Ok (set_relAlloc g3 (relMark_ g3) (id :: freeRels_ g3)).

(** The [while (cur != GRAPH_NONE)] loop of [removeNode].  The fuel bounds the
    number of relationships removed; [removeNode] supplies one more than the
    number of entries ever allocated. *)
Fixpoint removeIncident (fuel : nat) (g : Graph) (id cur : Z) : res Graph :=
  match fuel with
  | O => Fault OutOfFuel
  | S fuel' =>
      if cur =? GRAPH_NONE then Ok g
      else
        let* r := load (rels_ g) cur in
        let next := nextOf id r in
        let* g' := removeRelationship g cur in
        removeIncident fuel' g' id next
  end.

Definition removeNode (g : Graph) (id : Z) : res Graph :=
  let* n := load (nodes_ g) id in
  let* _ := assert_ (n_inUse n) in
  let* g1 := removeIncident (S (Z.to_nat (relMark_ g))) g id (firstRelId n) in
  let* n1 := load (nodes_ g1) id in
  let n2 := set_firstRelId (set_n_inUse n1 false) GRAPH_NONE in
  let g2 := set_nodes g1 (zset (nodes_ g1) id n2) in
  Ok (set_nodeAlloc g2 (nodeMark_ g2) (id :: freeNodes_ g2)).

(** [clear] rewinds the high-water marks; the entries stay as they are. *)
Definition clear (g : Graph) : Graph :=
  mkGraph (nodes_ g) (rels_ g) 0 0 (nodeCap_ g) (relCap_ g) [] [].

(** [newNode] and [newRel] return a reference to the entry at the old mark. *)
Definition newNode (g : Graph) : res (Graph * Z) :=
  let* _ := assert_ (nodeMark_ g <? nodeCap_ g) in
  Ok (set_nodeAlloc g (nodeMark_ g + 1) (freeNodes_ g), nodeMark_ g).
Definition newRel (g : Graph) : res (Graph * Z) :=
  let* _ := assert_ (relMark_ g <? relCap_ g) in
  Ok (set_relAlloc g (relMark_ g + 1) (freeRels_ g), relMark_ g).

(** Following the chain of node [n] from relationship [cur], as every
    traversal of the runtime does. *)
Fixpoint walk (fuel : nat) (rs : list RelEntry) (n cur : Z) : res (list Z) :=
  match fuel with
  | O => Fault OutOfFuel
  | S fuel' =>
      if cur =? GRAPH_NONE then Ok []
      else
        let* r := load rs cur in
        let* l := walk fuel' rs n (nextOf n r) in Ok (cur :: l)
  end.

Definition incident_rels (g : Graph) (n : Z) : res (list Z) :=
  let* e := node g n in walk (S (Z.to_nat (relMark_ g))) (rels_ g) n (firstRelId e).

End graph.
Arguments NodeEntry : clear implicits.
Arguments RelEntry : clear implicits.
Arguments Graph : clear implicits.
