(* ===== verification/GraphSpec.v ===== *)
(** * Abstract multigraph and refinement of the adjacency-list graph

    [SpecGraph] is what [Graph] promises: a finite map of nodes, each with its
    payload and its ordered adjacency list, and a finite map of relationships.
    [Rep g s] says that the buffers of [g] represent [s]. *)

From S2P Require Import Prelude Dll Graph.

Section spec.
Context {NP RP : Type}.

Record SpecRel := mkSRel { sr_first : Z; sr_second : Z; sr_type : Z; sr_payload : RP }.
Record SpecNode := mkSNode { sn_payload : NP; sn_adj : list Z }.
Record SpecGraph := mkSpec { sg_nodes : gmap Z SpecNode; sg_rels : gmap Z SpecRel }.

Definition incident (i : Z) (r : SpecRel) : Prop := sr_first r = i ∨ sr_second r = i.
#[global] Instance incident_dec i r : Decision (incident i r).
Proof. unfold incident. apply _. Defined.

(** ** Specification of the operations *)
Definition push (id : Z) (sn : SpecNode) := mkSNode (sn_payload sn) (id :: sn_adj sn).
Definition drop_rel (id : Z) (sn : SpecNode) :=
  mkSNode (sn_payload sn) (filter (λ j, j ≠ id) (sn_adj sn)).

Definition spec_empty : SpecGraph := mkSpec ∅ ∅.
Definition spec_addNode (s : SpecGraph) (id : Z) (p : NP) : SpecGraph :=
  mkSpec (<[id := mkSNode p []]> (sg_nodes s)) (sg_rels s).
Definition spec_addRel (s : SpecGraph) (id from to ty : Z) (p : RP) : SpecGraph :=
  let ns := alter (push id) from (sg_nodes s) in
  mkSpec (if decide (from = to) then ns else alter (push id) to ns)
         (<[id := mkSRel from to ty p]> (sg_rels s)).
Definition spec_removeRel (s : SpecGraph) (id : Z) : SpecGraph :=
  mkSpec (drop_rel id <$> sg_nodes s) (delete id (sg_rels s)).
(** Removing a node removes every relationship incident to it, everywhere. *)
Definition spec_removeNode (s : SpecGraph) (n : Z) : SpecGraph :=
  let gone := default [] (sn_adj <$> sg_nodes s !! n) in
  let s' := foldl spec_removeRel s gone in
  mkSpec (delete n (sg_nodes s')) (sg_rels s').

Record spec_wf (s : SpecGraph) : Prop := {
  swf_nodup : ∀ i sn, sg_nodes s !! i = Some sn → NoDup (sn_adj sn);
  swf_adj : ∀ i sn k, sg_nodes s !! i = Some sn →
    k ∈ sn_adj sn ↔ ∃ r, sg_rels s !! k = Some r ∧ incident i r;
  swf_ends : ∀ k r, sg_rels s !! k = Some r →
    is_Some (sg_nodes s !! sr_first r) ∧ is_Some (sg_nodes s !! sr_second r);
}.

(** ** Representation *)
Definition srel_of (r : RelEntry RP) : SpecRel :=
  mkSRel (firstNodeId r) (secondNodeId r) (typeId r) (r_payload r).

Definition abs_node (g : Graph NP RP) (i : Z) : option NP :=
  if (0 <=? i) && (i <? nodeMark_ g) then
    e ← zget (nodes_ g) i; if n_inUse e then Some (n_payload e) else None
  else None.
Definition abs_rel (g : Graph NP RP) (i : Z) : option SpecRel :=
  if (0 <=? i) && (i <? relMark_ g) then
    r ← zget (rels_ g) i; if r_inUse r then Some (srel_of r) else None
  else None.

Definition touches (n : Z) (r : RelEntry RP) : Prop := firstNodeId r = n ∨ secondNodeId r = n.
Definition rel_chain (n : Z) := chain (prevOf n) (nextOf n) (touches n).

Record layout (g : Graph NP RP) : Prop := {
  lay_nlen : Z.of_nat (length (nodes_ g)) = nodeCap_ g;
  lay_rlen : Z.of_nat (length (rels_ g)) = relCap_ g;
  lay_npool : pool (nodeMark_ g) (nodeCap_ g) (freeNodes_ g) (λ i, is_Some (abs_node g i));
  lay_rpool : pool (relMark_ g) (relCap_ g) (freeRels_ g) (λ i, is_Some (abs_rel g i));
}.

Record Rep (g : Graph NP RP) (s : SpecGraph) : Prop := {
  rep_layout : layout g;
  rep_nodes : ∀ i, sn_payload <$> sg_nodes s !! i = abs_node g i;
  rep_rels : ∀ i, sg_rels s !! i = abs_rel g i;
  rep_chain : ∀ i sn e, sg_nodes s !! i = Some sn → zget (nodes_ g) i = Some e →
    rel_chain i (rels_ g) (firstRelId e) (sn_adj sn);
  rep_wf : spec_wf s;
}.

(** ** Reading the representation *)

Lemma abs_node_Some g i p :
  abs_node g i = Some p ↔
    0 ≤ i < nodeMark_ g ∧ ∃ e, zget (nodes_ g) i = Some e ∧ n_inUse e = true ∧ n_payload e = p.
Proof.
  unfold abs_node. destruct (Z.leb_spec 0 i), (Z.ltb_spec i (nodeMark_ g)); simpl; try naive_solver lia.
  destruct (zget (nodes_ g) i) as [e|]; simpl; [|naive_solver].
  destruct (n_inUse e) eqn:Hu.
  - split; [intros [= <-]; eauto 10|]. intros (_ & e' & [= <-] & _ & <-). done.
  - split; [done|]. intros (_ & e' & [= <-] & ? & _). congruence.
Qed.

Lemma abs_rel_Some g i sr :
  abs_rel g i = Some sr ↔
    0 ≤ i < relMark_ g ∧ ∃ r, zget (rels_ g) i = Some r ∧ r_inUse r = true ∧ srel_of r = sr.
Proof.
  unfold abs_rel. destruct (Z.leb_spec 0 i), (Z.ltb_spec i (relMark_ g)); simpl; try naive_solver lia.
  destruct (zget (rels_ g) i) as [e|]; simpl; [|naive_solver].
  destruct (r_inUse e) eqn:Hu.
  - split; [intros [= <-]; eauto 10|]. intros (_ & e' & [= <-] & _ & <-). done.
  - split; [done|]. intros (_ & e' & [= <-] & ? & _). congruence.
Qed.

Lemma rep_node g s i sn :
  Rep g s → sg_nodes s !! i = Some sn →
  0 ≤ i < nodeMark_ g ∧ ∃ e, zget (nodes_ g) i = Some e ∧ n_inUse e = true ∧
    n_payload e = sn_payload sn ∧ rel_chain i (rels_ g) (firstRelId e) (sn_adj sn).
Proof.
  intros HR Hi. pose proof (rep_nodes _ _ HR i) as Hn. rewrite Hi in Hn. symmetry in Hn.
  apply abs_node_Some in Hn as (? & e & He & ? & ?). split; [done|]. exists e.
  split_and!; [done..|]. by eapply rep_chain.
Qed.

Lemma rep_node_inv g s i e :
  Rep g s → 0 ≤ i < nodeMark_ g → zget (nodes_ g) i = Some e → n_inUse e = true →
  ∃ sn, sg_nodes s !! i = Some sn ∧ sn_payload sn = n_payload e.
Proof.
  intros HR Hi He Hu. pose proof (rep_nodes _ _ HR i) as Hn.
  rewrite (proj2 (abs_node_Some g i (n_payload e))) in Hn by eauto 10.
  destruct (sg_nodes s !! i) as [sn|]; naive_solver.
Qed.

Lemma rep_rel g s k sr :
  Rep g s → sg_rels s !! k = Some sr →
  0 ≤ k < relMark_ g ∧ ∃ r, zget (rels_ g) k = Some r ∧ r_inUse r = true ∧ srel_of r = sr.
Proof. intros HR Hk. rewrite (rep_rels _ _ HR) in Hk. by apply abs_rel_Some. Qed.

Lemma rep_node_cases g s i : Rep g s → sg_nodes s !! i = None ↔ abs_node g i = None.
Proof. intros HR. rewrite <- (rep_nodes _ _ HR i). by destruct (sg_nodes s !! i). Qed.

Lemma rep_adj_bounds g s i sn k :
  Rep g s → sg_nodes s !! i = Some sn → k ∈ sn_adj sn → 0 ≤ k < relMark_ g.
Proof.
  intros HR Hi Hk. apply (swf_adj _ (rep_wf _ _ HR) i sn k Hi) in Hk as (r & Hr & _).
  by apply (rep_rel _ _ _ _ HR) in Hr as [? _].
Qed.

Lemma rep_adj_length g s i sn :
  Rep g s → sg_nodes s !! i = Some sn → (length (sn_adj sn) ≤ Z.to_nat (relMark_ g))%nat.
Proof.
  intros HR Hi. apply NoDup_bounded_length; [by eapply swf_nodup; [apply HR|]|].
  intros k. by eapply rep_adj_bounds.
Qed.

(** ** Updates of one node's chain

    [rel_upd n rs rs']: [rs'] differs from [rs] at most in the links that the
    chain of node [n] uses. *)
Definition same_core (r r' : RelEntry RP) : Prop :=
  firstNodeId r' = firstNodeId r ∧ secondNodeId r' = secondNodeId r ∧ typeId r' = typeId r ∧
  r_inUse r' = r_inUse r ∧ firstInChainMarker r' = firstInChainMarker r ∧ r_payload r' = r_payload r.

Record rel_upd (n : Z) (rs rs' : list (RelEntry RP)) : Prop := {
  upd_length : length rs' = length rs;
  upd_entry : ∀ i r, zget rs i = Some r → ∃ r', zget rs' i = Some r' ∧ same_core r r' ∧
    ∀ m, m ≠ n → touches m r → prevOf m r' = prevOf m r ∧ nextOf m r' = nextOf m r;
}.

Lemma same_core_trans r r' r'' : same_core r r' → same_core r' r'' → same_core r r''.
Proof. unfold same_core. intuition congruence. Qed.

Lemma same_core_touches m r r' : same_core r r' → touches m r → touches m r'.
Proof. unfold same_core, touches. intuition congruence. Qed.

Lemma same_core_srel r r' : same_core r r' → srel_of r' = srel_of r ∧ r_inUse r' = r_inUse r.
Proof. unfold same_core, srel_of. intuition congruence. Qed.

Lemma rel_upd_refl n rs : rel_upd n rs rs.
Proof. split; [done|]. intros i r ?. exists r. split_and!; [done| |done]. by repeat split. Qed.

Lemma rel_upd_trans n rs rs' rs'' : rel_upd n rs rs' → rel_upd n rs' rs'' → rel_upd n rs rs''.
Proof.
  intros [Hl1 H1] [Hl2 H2]. split; [congruence|]. intros i r Hi.
  destruct (H1 i r Hi) as (r' & Hr' & Hc' & Hv'). destruct (H2 i r' Hr') as (r'' & Hr'' & Hc'' & Hv'').
  exists r''. split_and!; [done|by eapply same_core_trans|]. intros m Hm Ht.
  destruct (Hv' m Hm Ht), (Hv'' m Hm (same_core_touches _ _ _ Hc' Ht)). split; congruence.
Qed.

Lemma rel_upd_zset n rs i r r' :
  zget rs i = Some r → same_core r r' →
  (∀ m, m ≠ n → touches m r → prevOf m r' = prevOf m r ∧ nextOf m r' = nextOf m r) →
  rel_upd n rs (zset rs i r').
Proof.
  intros Hi Hc Hv. split; [apply length_zset|]. intros j rj Hj.
  destruct (decide (i = j)) as [->|Hne].
  - simplify_eq. exists r'. split_and!; [by eapply zget_zset_Some|done..].
  - rewrite zget_zset_ne by done. by eapply (rel_upd_refl n rs).
Qed.

Lemma rel_upd_chain n rs rs' m c l :
  rel_upd n rs rs' → m ≠ n → rel_chain m rs c l → rel_chain m rs' c l.
Proof.
  intros [_ Hu] Hm. apply dseg_frame. intros i r Hi Hr Ht.
  destruct (Hu i r Hr) as (r' & Hr' & Hc & Hv). destruct (Hv m Hm Ht).
  exists r'. split_and!; [done|by eapply same_core_touches|done..].
Qed.

Lemma rel_upd_abs n (g g' : Graph NP RP) i :
  rel_upd n (rels_ g) (rels_ g') → relMark_ g' = relMark_ g → abs_rel g' i = abs_rel g i.
Proof.
  intros [Hl Hu] Hm. unfold abs_rel. rewrite Hm. case_match; [|done].
  destruct (zget (rels_ g) i) as [r|] eqn:Hr; simpl.
  - destruct (Hu i r Hr) as (r' & -> & Hc & _). simpl.
    apply same_core_srel in Hc as [-> ->]. done.
  - apply zget_None in Hr. rewrite <- Hl in Hr. apply zget_None in Hr as ->. done.
Qed.

(** Effect of the four link writers on every chain's view. *)
Lemma setPrevOf_view n r v :
  same_core r (setPrevOf n r v) ∧ prevOf n (setPrevOf n r v) = v ∧
  nextOf n (setPrevOf n r v) = nextOf n r ∧
  (touches n r → ∀ m, m ≠ n → touches m r →
    prevOf m (setPrevOf n r v) = prevOf m r ∧ nextOf m (setPrevOf n r v) = nextOf m r).
Proof.
  unfold setPrevOf, prevOf, nextOf, same_core, touches.
  destruct (Z.eqb_spec (firstNodeId r) n) as [E|E]; simpl; split_and!; try done;
    try (by rewrite (proj2 (Z.eqb_eq _ _) E)); try (by rewrite (proj2 (Z.eqb_neq _ _) E)).
  - intros _ m Hm Ht. rewrite (proj2 (Z.eqb_neq _ _)) by congruence. done.
  - intros [?|?] m Hm [?|?]; try congruence. rewrite (proj2 (Z.eqb_eq _ _)) by done. done.
Qed.

Lemma setNextOf_view n r v :
  same_core r (setNextOf n r v) ∧ nextOf n (setNextOf n r v) = v ∧
  prevOf n (setNextOf n r v) = prevOf n r ∧
  (touches n r → ∀ m, m ≠ n → touches m r →
    prevOf m (setNextOf n r v) = prevOf m r ∧ nextOf m (setNextOf n r v) = nextOf m r).
Proof.
  unfold setNextOf, prevOf, nextOf, same_core, touches.
  destruct (Z.eqb_spec (firstNodeId r) n) as [E|E]; simpl; split_and!; try done;
    try (by rewrite (proj2 (Z.eqb_eq _ _) E)); try (by rewrite (proj2 (Z.eqb_neq _ _) E)).
  - intros _ m Hm Ht. rewrite (proj2 (Z.eqb_neq _ _)) by congruence. done.
  - intros [?|?] m Hm [?|?]; try congruence. rewrite (proj2 (Z.eqb_eq _ _)) by done. done.
Qed.

(** ** The specification preserves its own well-formedness *)

Lemma spec_addRel_node s id from to ty p i :
  sg_nodes (spec_addRel s id from to ty p) !! i =
    (λ sn, if decide (from = i ∨ to = i) then push id sn else sn) <$> sg_nodes s !! i.
Proof.
  unfold spec_addRel; simpl. case_decide as E; [subst from|].
  - destruct (decide (to = i)) as [->|Hi];
      [rewrite lookup_alter_eq|rewrite lookup_alter_ne by done];
      destruct (sg_nodes s !! i); simpl; f_equal; case_decide; naive_solver.
  - destruct (decide (to = i)) as [->|Hi].
    + rewrite lookup_alter_eq, lookup_alter_ne by done.
      destruct (sg_nodes s !! i); simpl; f_equal; case_decide; naive_solver.
    + rewrite lookup_alter_ne by done. destruct (decide (from = i)) as [->|Hf];
        [rewrite lookup_alter_eq|rewrite lookup_alter_ne by done];
        destruct (sg_nodes s !! i); simpl; f_equal; case_decide; naive_solver.
Qed.

Lemma spec_wf_addNode s id p :
  spec_wf s → sg_nodes s !! id = None → spec_wf (spec_addNode s id p).
Proof.
  intros [Hnd Hadj Hends] Hid. split; simpl.
  - intros i sn. rewrite lookup_insert. case_decide; [|by apply Hnd].
    intros [= <-]. constructor.
  - intros i sn k. rewrite lookup_insert. case_decide as Ei; [subst i|by apply Hadj].
    intros [= <-]; simpl. split; [set_solver|]. intros (r & Hr & [<-|<-]);
      destruct (Hends k r Hr) as [[? ?] [? ?]]; congruence.
  - intros k r Hr. destruct (Hends k r Hr) as [? ?].
    by rewrite !lookup_insert_is_Some'; auto.
Qed.

Lemma spec_wf_fresh s id :
  spec_wf s → sg_rels s !! id = None → ∀ i sn, sg_nodes s !! i = Some sn → id ∉ sn_adj sn.
Proof.
  intros Hwf Hid i sn Hi Hin. apply (swf_adj _ Hwf i sn id Hi) in Hin as (r & Hr & _). congruence.
Qed.

Lemma spec_wf_addRel s id from to ty p :
  spec_wf s → sg_rels s !! id = None →
  is_Some (sg_nodes s !! from) → is_Some (sg_nodes s !! to) →
  spec_wf (spec_addRel s id from to ty p).
Proof.
  intros Hwf Hid Hf Ht. pose proof (spec_wf_fresh _ _ Hwf Hid) as Hfresh.
  destruct Hwf as [Hnd Hadj Hends]. split.
  - intros i sn. rewrite spec_addRel_node. intros (sn0 & Hi & ->)%fmap_Some.
    case_decide; [|by eapply Hnd]. constructor; [by eapply Hfresh|by eapply Hnd].
  - intros i sn k. rewrite spec_addRel_node. intros (sn0 & Hi & ->)%fmap_Some; simpl.
    specialize (Hadj i sn0 k Hi). specialize (Hfresh i sn0 Hi).
    destruct (decide (id = k)) as [->|Hk].
    + rewrite lookup_insert_eq. unfold incident. case_decide; simpl; set_solver.
    + rewrite lookup_insert_ne by done. rewrite <- Hadj. case_decide; simpl; set_solver.
  - intros k r. rewrite !spec_addRel_node, !fmap_is_Some; simpl.
    rewrite lookup_insert. case_decide; [|by apply Hends]. by intros [= <-].
Qed.

Lemma spec_wf_removeRel s id : spec_wf s → spec_wf (spec_removeRel s id).
Proof.
  intros [Hnd Hadj Hends]. split; simpl.
  - intros i sn. rewrite lookup_fmap. intros (sn0 & Hi & ->)%fmap_Some; simpl.
    apply NoDup_filter. by eapply Hnd.
  - intros i sn k. rewrite lookup_fmap. intros (sn0 & Hi & ->)%fmap_Some; simpl.
    rewrite list_elem_of_filter, (Hadj i sn0 k Hi).
    destruct (decide (id = k)) as [->|]; simplify_map_eq; naive_solver.
  - intros k r [? Hr]%lookup_delete_Some. rewrite !lookup_fmap, !fmap_is_Some. by eapply Hends.
Qed.

(** Dropping a relationship at its two ends drops it everywhere. *)
Lemma drop_ends s id r :
  spec_wf s → sg_rels s !! id = Some r →
  (if decide (sr_first r = sr_second r) then alter (drop_rel id) (sr_first r) (sg_nodes s)
   else alter (drop_rel id) (sr_second r) (alter (drop_rel id) (sr_first r) (sg_nodes s))) =
  sg_nodes (spec_removeRel s id).
Proof.
  intros Hwf Hr. apply map_eq. intros i. simpl. rewrite lookup_fmap.
  assert (∀ sn, sg_nodes s !! i = Some sn → ¬ incident i r → drop_rel id sn = sn) as Hout.
  { intros sn Hi Hni. unfold drop_rel. rewrite filter_ne_id; [by destruct sn|].
    intros Hin. apply (swf_adj _ Hwf i sn id Hi) in Hin as (? & ? & ?). by simplify_eq. }
  assert (¬ incident i r → sg_nodes s !! i = drop_rel id <$> sg_nodes s !! i) as Hout'.
  { intros Hni. destruct (sg_nodes s !! i) as [sn|]; simpl; [|done]. by rewrite Hout. }
  unfold incident in Hout'. case_decide as E.
  - destruct (decide (sr_first r = i)) as [->|?]; [by rewrite lookup_alter_eq|].
    rewrite lookup_alter_ne by done. apply Hout'. intuition congruence.
  - destruct (decide (sr_second r = i)) as [<-|?].
    + by rewrite lookup_alter_eq, lookup_alter_ne.
    + rewrite lookup_alter_ne by done. destruct (decide (sr_first r = i)) as [<-|?];
        [by rewrite lookup_alter_eq|]. rewrite lookup_alter_ne by done. apply Hout'. intuition.
Qed.

(** ** Removing a list of relationships, and a node *)

Lemma removeRels_node s l i :
  sg_nodes (foldl spec_removeRel s l) !! i =
    (λ sn, mkSNode (sn_payload sn) (filter (λ k, k ∉ l) (sn_adj sn))) <$> sg_nodes s !! i.
Proof.
  revert s. induction l as [|k l IH]; intros s; simpl.
  - destruct (sg_nodes s !! i) as [[p a]|]; simpl; [|done]. do 2 f_equal.
    induction a as [|x a IHa]; [done|]. rewrite filter_cons_True by set_solver. by rewrite <- IHa.
  - rewrite IH. simpl. rewrite lookup_fmap.
    destruct (sg_nodes s !! i) as [[p a]|]; simpl; [|done]. do 2 f_equal.
    rewrite list_filter_filter. apply list_filter_iff. intros x. set_solver.
Qed.

Lemma removeRels_rel s l k :
  sg_rels (foldl spec_removeRel s l) !! k = if decide (k ∈ l) then None else sg_rels s !! k.
Proof.
  revert s. induction l as [|x l IH]; intros s; [done|]. cbn [foldl].
  rewrite IH. cbn [spec_removeRel sg_rels]. rewrite lookup_delete. repeat case_decide; set_solver.
Qed.

Lemma removeRels_wf s l : spec_wf s → spec_wf (foldl spec_removeRel s l).
Proof. revert s. induction l; intros s Hs; simpl; [done|]. by apply IHl, spec_wf_removeRel. Qed.

(** A relationship survives [spec_removeNode] exactly if it is not incident. *)
Lemma spec_removeNode_rel s n sn k r :
  spec_wf s → sg_nodes s !! n = Some sn →
  sg_rels (spec_removeNode s n) !! k = Some r ↔ sg_rels s !! k = Some r ∧ ¬ incident n r.
Proof.
  intros Hwf Hn. unfold spec_removeNode. rewrite Hn; simpl. rewrite removeRels_rel.
  pose proof (swf_adj _ Hwf n sn k Hn) as Hadj. case_decide as Hk.
  - apply Hadj in Hk as (r' & Hr' & Hi). split; [done|]. naive_solver.
  - split; [|naive_solver]. intros Hr. split; [done|]. intros Hi. apply Hk, Hadj. eauto.
Qed.

Lemma spec_wf_removeNode s n sn :
  spec_wf s → sg_nodes s !! n = Some sn → spec_wf (spec_removeNode s n).
Proof.
  intros Hwf Hn. pose proof (λ k r, spec_removeNode_rel s n sn k r Hwf Hn) as Hrel.
  pose proof (removeRels_wf s (sn_adj sn) Hwf) as [Hnd Hadj Hends].
  unfold spec_removeNode in *. rewrite Hn in *; simpl in *. split; simpl.
  - intros i sni [_ Hi]%lookup_delete_Some. by eapply Hnd.
  - intros i sni k [_ Hi]%lookup_delete_Some. by apply Hadj.
  - intros k r Hk. pose proof Hk as Hk'. apply Hrel in Hk' as [_ Hni].
    destruct (Hends k r Hk). unfold incident in Hni.
    rewrite !lookup_delete_ne by naive_solver. done.
Qed.

End spec.
Arguments SpecRel : clear implicits.
Arguments SpecNode : clear implicits.
Arguments SpecGraph : clear implicits.
