(* ===== verification/GraphLink.v ===== *)
(** * Linking and unlinking a relationship at a node

    What the pointer surgery of [linkRelToNode] and [unlinkRelFromNode] does to
    the incidence chain of the node, and that it leaves the chains of all other
    nodes alone. *)

From S2P Require Import Prelude Dll Graph GraphSpec.

Section link.
Context {NP RP : Type}.
Implicit Types (g : Graph NP RP) (s : SpecGraph NP RP) (r : RelEntry RP).

Lemma link_record n r h (flag : bool) :
  (flag = true ↔ firstNodeId r = n) →
  (if flag then set_firstLinks r GRAPH_NONE h else set_secondLinks r GRAPH_NONE h) =
  setNextOf n (setPrevOf n r GRAPH_NONE) h.
Proof.
  intros Hf. unfold setNextOf, setPrevOf.
  destruct (Z.eqb_spec (firstNodeId r) n) as [E|E]; simpl.
  - rewrite (proj2 Hf E), (proj2 (Z.eqb_eq _ _) E). done.
  - rewrite (proj2 (Z.eqb_neq _ _) E). destruct flag; [|done]. by destruct E; apply Hf.
Qed.

Lemma rel_upd_setPrev n (rs : list (RelEntry RP)) i r v :
  zget rs i = Some r → touches n r → rel_upd n rs (zset rs i (setPrevOf n r v)).
Proof.
  intros Hi Ht. destruct (setPrevOf_view n r v) as (? & _ & _ & ?).
  by eapply rel_upd_zset; eauto.
Qed.

Lemma rel_upd_setNext n (rs : list (RelEntry RP)) i r v :
  zget rs i = Some r → touches n r → rel_upd n rs (zset rs i (setNextOf n r v)).
Proof.
  intros Hi Ht. destruct (setNextOf_view n r v) as (? & _ & _ & ?).
  by eapply rel_upd_zset; eauto.
Qed.

Lemma rel_upd_link n (rs : list (RelEntry RP)) i r h :
  zget rs i = Some r → touches n r →
  rel_upd n rs (zset rs i (setNextOf n (setPrevOf n r GRAPH_NONE) h)).
Proof.
  intros Hi Ht. destruct (setPrevOf_view n r GRAPH_NONE) as (Hc & _ & _ & Hv).
  assert (touches n (setPrevOf n r GRAPH_NONE)) as Ht' by by eapply same_core_touches.
  destruct (setNextOf_view n (setPrevOf n r GRAPH_NONE) h) as (Hc' & _ & _ & Hv').
  eapply rel_upd_zset; [done|by eapply same_core_trans|]. intros m Hm Htm.
  destruct (Hv Ht m Hm Htm), (Hv' Ht' m Hm (same_core_touches _ _ _ Hc Htm)). split; congruence.
Qed.

Lemma link_ok g relId nodeId flag n r l :
  zget (nodes_ g) nodeId = Some n → zget (rels_ g) relId = Some r →
  (flag = true ↔ firstNodeId r = nodeId) → touches nodeId r →
  relId ∉ l → NoDup l → rel_chain nodeId (rels_ g) (firstRelId n) l →
  ∃ rs', linkRelToNode g relId nodeId flag =
      Ok (set_nodes (set_rels g rs') (zset (nodes_ g) nodeId (set_firstRelId n relId))) ∧
    rel_upd nodeId (rels_ g) rs' ∧ rel_chain nodeId rs' relId (relId :: l).
Proof.
  intros Hn Hr Hf Ht Hl Hnd Hc. unfold linkRelToNode.
  rewrite (load_Some _ _ _ Hn), (load_Some _ _ _ Hr); simpl.
  rewrite (link_record _ _ _ _ Hf). set (r' := setNextOf _ _ _).
  assert (rel_upd nodeId (rels_ g) (zset (rels_ g) relId r')) as Hu by by apply rel_upd_link.
  assert (touches nodeId r' ∧ prevOf nodeId r' = GRAPH_NONE ∧ nextOf nodeId r' = firstRelId n) as Hr'.
  { destruct (setPrevOf_view nodeId r GRAPH_NONE) as (H1 & H2 & H3 & _).
    destruct (setNextOf_view nodeId (setPrevOf nodeId r GRAPH_NONE) (firstRelId n)) as (H4 & H5 & H6 & _).
    split_and!; [|unfold r'; congruence|done]. eapply same_core_touches; [exact H4|].
    by eapply same_core_touches. }
  destruct (Z.eqb_spec (firstRelId n) GRAPH_NONE) as [E|E]; simpl.
  - exists (zset (rels_ g) relId r'). split_and!; [done..|].
    eapply chain_push; [done|done|exact Hc| |].
    + exists r'. split_and!; [by eapply zget_zset_Some|naive_solver..].
    + rewrite E in Hc. apply chain_empty in Hc as ->. set_solver.
  - destruct (chain_cons _ _ _ _ _ _ E Hc) as [l' ->].
    assert (relId ≠ firstRelId n) as Hne by set_solver.
    destruct (dseg_elem _ _ _ _ _ _ _ _ (firstRelId n) Hc) as (h & Hh & Hth); [set_solver|].
    assert (zget (zset (rels_ g) relId r') (firstRelId n) = Some h) as Hh' by by rewrite zget_zset_ne.
    rewrite (load_Some _ _ _ Hh'); simpl. eexists. split; [done|]. split.
    + eapply rel_upd_trans; [exact Hu|]. by apply rel_upd_setPrev.
    + destruct (setPrevOf_view nodeId h relId) as (Hch & Hph & Hnh & _).
      eapply chain_push; [done|done|exact Hc| |].
      * exists r'. rewrite zget_zset_ne by done. split_and!; [by eapply zget_zset_Some|naive_solver..].
      * intros i ri Hi Hri Hti. case_decide as Ei; [subst i|].
        -- simplify_eq. eexists. split; [by eapply zget_zset_Some|].
           split_and!; [by eapply same_core_touches|done..].
        -- exists ri. rewrite !zget_zset_ne by (congruence || set_solver). done.
Qed.

(** The two writes of [unlinkRelFromNode], named so that their combination can
    be analysed by the neighbours that exist. *)
Definition relink_prev n (rs : list (RelEntry RP)) (prevId nextId : Z) :=
  match zget rs prevId with Some p => zset rs prevId (setNextOf n p nextId) | None => rs end.
Definition relink_next n (rs : list (RelEntry RP)) (prevId nextId : Z) :=
  match zget rs nextId with Some x => zset rs nextId (setPrevOf n x prevId) | None => rs end.

Lemma relink_prev_lookup n rs a b j r :
  zget rs j = Some r →
  zget (relink_prev n rs a b) j = Some (if decide (j = a) then setNextOf n r b else r).
Proof.
  intros Hj. unfold relink_prev. case_decide as E; [subst|].
  - rewrite Hj. by eapply zget_zset_Some.
  - destruct (zget rs a); [rewrite zget_zset_ne by done|]; done.
Qed.

Lemma relink_next_lookup n rs a b j r :
  zget rs j = Some r →
  zget (relink_next n rs a b) j = Some (if decide (j = b) then setPrevOf n r a else r).
Proof.
  intros Hj. unfold relink_next. case_decide as E; [subst|].
  - rewrite Hj. by eapply zget_zset_Some.
  - destruct (zget rs b); [rewrite zget_zset_ne by done|]; done.
Qed.

Lemma relink_upd n rs a b :
  (∀ x, x = a ∨ x = b → ∀ r, zget rs x = Some r → touches n r) →
  rel_upd n rs (relink_next n (relink_prev n rs a b) a b).
Proof.
  intros Ht. apply rel_upd_trans with (relink_prev n rs a b).
  - unfold relink_prev. destruct (zget rs a) eqn:E; [|apply rel_upd_refl].
    apply rel_upd_setNext; [done|]. by eapply (Ht a); eauto.
  - unfold relink_next. destruct (zget (relink_prev n rs a b) b) as [r'|] eqn:E; [|apply rel_upd_refl].
    apply rel_upd_setPrev; [done|]. destruct (zget rs b) as [r|] eqn:Eb.
    + rewrite (relink_prev_lookup _ _ _ _ _ _ Eb) in E. injection E as <-.
      assert (touches n r) by (by eapply (Ht b); eauto). case_decide; [|done].
      by eapply same_core_touches; [apply setNextOf_view|].
    + exfalso. apply zget_None in Eb. apply Eb. replace (length rs) with (length (relink_prev n rs a b)).
      * by eapply zget_lt.
      * unfold relink_prev. destruct (zget rs a); [apply length_zset|done].
Qed.

Lemma relink_chain n rs c l1 i l2 :
  NoDup (l1 ++ i :: l2) → rel_chain n rs c (l1 ++ i :: l2) →
  rel_chain n (relink_next n (relink_prev n rs (lastd GRAPH_NONE l1) (hdd GRAPH_NONE l2))
                 (lastd GRAPH_NONE l1) (hdd GRAPH_NONE l2))
    (if decide (l1 = []) then hdd GRAPH_NONE l2 else c) (l1 ++ l2).
Proof.
  intros Hnd Hc. eapply chain_unlink; [exact Hnd|exact Hc|done|]. intros j r Hj Hr Ht.
  pose proof (zget_lt _ _ _ Hr) as Hj0.
  eexists. split; [apply relink_next_lookup, relink_prev_lookup; exact Hr|].
  set (a := lastd GRAPH_NONE l1). set (b := hdd GRAPH_NONE l2).
  set (r1 := if decide (j = a) then setNextOf n r b else r).
  destruct (setNextOf_view n r b) as (Hc1 & Hn1 & Hp1 & _).
  destruct (setPrevOf_view n r1 a) as (Hc2 & Hp2 & Hn2 & _).
  assert (touches n r1 ∧ prevOf n r1 = prevOf n r ∧
    nextOf n r1 = if decide (j = a) then b else nextOf n r) as (Ht1 & Hp & Hn).
  { unfold r1. case_decide; [|done]. split_and!; [by eapply same_core_touches|done..]. }
  assert (l1 = [] → j ≠ a) by (intros ->; unfold a, GRAPH_NONE; simpl; lia).
  assert (l2 = [] → j ≠ b) by (intros ->; unfold b, GRAPH_NONE; simpl; lia).
  clearbody r1. destruct (decide (j = b)) as [Eb|Eb]; split_and!; try done.
  - by eapply same_core_touches; [exact Hc2|].
  - rewrite Hn2, Hn. destruct (decide (j = a)) as [Ea|Ea];
      [rewrite decide_True by naive_solver|rewrite decide_False by naive_solver]; done.
  - by rewrite Hp2, decide_True by naive_solver.
  - rewrite Hn. destruct (decide (j = a)) as [Ea|Ea];
      [rewrite decide_True by naive_solver|rewrite decide_False by naive_solver]; done.
  - by rewrite Hp, decide_False by naive_solver.
Qed.

(** [unlinkRelFromNode] performs exactly the two relinks and moves the head
    when the removed relationship was first. *)
Lemma unlink_exec g relId nodeId n r l1 l2 (a := lastd GRAPH_NONE l1) (b := hdd GRAPH_NONE l2) :
  zget (nodes_ g) nodeId = Some n → zget (rels_ g) relId = Some r →
  rel_chain nodeId (rels_ g) (firstRelId n) (l1 ++ relId :: l2) →
  unlinkRelFromNode g relId nodeId =
    Ok (set_nodes (set_rels g (relink_next nodeId (relink_prev nodeId (rels_ g) a b) a b))
          (zset (nodes_ g) nodeId (set_firstRelId n (if decide (l1 = []) then b else firstRelId n)))).
Proof.
  intros Hn Hr Hc. destruct (chain_member _ _ _ _ _ _ _ _ _ Hc Hr) as (_ & Hp & Hx).
  unfold unlinkRelFromNode. rewrite (load_Some _ _ _ Hr), (load_Some _ _ _ Hn); simpl.
  rewrite Hp, Hx. fold a b. unfold relink_next, relink_prev.
  pose proof (chain_is_first _ _ _ _ _ _ _ _ Hc) as Ha. fold a in Ha.
  assert (∀ rs : list (RelEntry RP), zget rs GRAPH_NONE = None) as Hnone by done.
  assert (zset (nodes_ g) nodeId (set_firstRelId n (firstRelId n)) = nodes_ g) as Hid.
  { apply zset_id. by destruct n. }
  destruct (Z.eqb_spec a GRAPH_NONE) as [Ea|Ea]; simpl.
  - rewrite decide_True by (by apply Ha). rewrite Ea, Hnone.
    destruct (Z.eqb_spec b GRAPH_NONE) as [Eb|Eb]; simpl; [by rewrite Eb, Hnone|].
    destruct (chain_neighbour _ _ _ _ _ _ _ _ b Hc) as (rb & Hrb & _); [auto..|].
    by rewrite (load_Some _ _ _ Hrb), Hrb.
  - rewrite decide_False by naive_solver. rewrite Hid.
    destruct (chain_neighbour _ _ _ _ _ _ _ _ a Hc) as (ra & Hra & _); [auto..|].
    rewrite (load_Some _ _ _ Hra), Hra; simpl.
    destruct (Z.eqb_spec b GRAPH_NONE) as [Eb|Eb]; simpl; [by rewrite Eb, Hnone|].
    destruct (chain_neighbour _ _ _ _ _ _ _ _ b Hc) as (rb & Hrb & _); [auto..|].
    unfold load. destruct (zget (zset (rels_ g) a _) b) eqn:Eg; [done|].
    rewrite zget_zset, Hrb in Eg. by case_decide.
Qed.

Lemma unlink_ok g relId nodeId n l1 l2 :
  zget (nodes_ g) nodeId = Some n →
  NoDup (l1 ++ relId :: l2) → rel_chain nodeId (rels_ g) (firstRelId n) (l1 ++ relId :: l2) →
  ∃ rs' c', unlinkRelFromNode g relId nodeId =
      Ok (set_nodes (set_rels g rs') (zset (nodes_ g) nodeId (set_firstRelId n c'))) ∧
    rel_upd nodeId (rels_ g) rs' ∧ rel_chain nodeId rs' c' (l1 ++ l2).
Proof.
  intros Hn Hnd Hc.
  destruct (dseg_elem _ _ _ _ _ _ _ _ relId Hc) as (r & Hr & Ht); [set_solver|].
  do 2 eexists. split; [by eapply unlink_exec|]. split; [|by eapply relink_chain].
  apply relink_upd. intros x Hx rx Hrx.
  destruct (chain_neighbour _ _ _ _ _ _ _ _ x Hc Hx) as (? & ? & ?); [|congruence].
  intros ->. discriminate Hrx.
Qed.

(** ** All chains at once *)

(** Every node of [m] heads the chain of its adjacency list. *)
Definition chains_rep (ns : list (NodeEntry NP)) (rs : list (RelEntry RP)) (m : gmap Z (SpecNode NP)) :=
  ∀ i sn e, m !! i = Some sn → zget ns i = Some e → rel_chain i rs (firstRelId e) (sn_adj sn).

Lemma chains_rep_step ns rs rs' m k n c f :
  chains_rep ns rs m → zget ns k = Some n → rel_upd k rs rs' →
  (∀ sn, m !! k = Some sn → rel_chain k rs' c (sn_adj (f sn))) →
  chains_rep (zset ns k (set_firstRelId n c)) rs' (alter f k m).
Proof.
  intros Hch Hn Hu Hk i sn e. destruct (decide (i = k)) as [->|Hi].
  - rewrite lookup_alter_eq, (zget_zset_Some _ _ _ _ Hn). intros (sn0 & Hm & ->)%fmap_Some [= <-].
    by apply Hk.
  - rewrite lookup_alter_ne, zget_zset_ne by done. intros Hm He.
    eapply rel_upd_chain; [exact Hu|done|]. by eapply Hch.
Qed.

Lemma link_chains g relId nodeId flag n r m sn :
  zget (nodes_ g) nodeId = Some n → zget (rels_ g) relId = Some r →
  (flag = true ↔ firstNodeId r = nodeId) → touches nodeId r →
  m !! nodeId = Some sn → relId ∉ sn_adj sn → NoDup (sn_adj sn) →
  chains_rep (nodes_ g) (rels_ g) m →
  ∃ rs', linkRelToNode g relId nodeId flag =
      Ok (set_nodes (set_rels g rs') (zset (nodes_ g) nodeId (set_firstRelId n relId))) ∧
    rel_upd nodeId (rels_ g) rs' ∧
    chains_rep (zset (nodes_ g) nodeId (set_firstRelId n relId)) rs' (alter (push relId) nodeId m).
Proof.
  intros Hn Hr Hf Ht Hm Hid Hnd Hch.
  destruct (link_ok g relId nodeId flag n r (sn_adj sn)) as (rs' & He & Hu & Hc); [done..| |].
  { by eapply Hch. }
  exists rs'. split_and!; [done..|]. eapply chains_rep_step; [done..|].
  intros sn' Hm'. simplify_eq. done.
Qed.

Lemma unlink_chains g relId nodeId n m sn :
  zget (nodes_ g) nodeId = Some n → m !! nodeId = Some sn →
  relId ∈ sn_adj sn → NoDup (sn_adj sn) → chains_rep (nodes_ g) (rels_ g) m →
  ∃ rs' c, unlinkRelFromNode g relId nodeId =
      Ok (set_nodes (set_rels g rs') (zset (nodes_ g) nodeId (set_firstRelId n c))) ∧
    rel_upd nodeId (rels_ g) rs' ∧
    chains_rep (zset (nodes_ g) nodeId (set_firstRelId n c)) rs' (alter (drop_rel relId) nodeId m).
Proof.
  intros Hn Hm (l1 & l2 & Hl)%list_elem_of_split Hnd Hch. rewrite Hl in Hnd.
  destruct (unlink_ok g relId nodeId n l1 l2) as (rs' & c & He & Hu & Hc); [done|done| |].
  { rewrite <- Hl. by eapply Hch. }
  exists rs', c. split_and!; [done..|]. eapply chains_rep_step; [done..|].
  intros sn' Hm'. simplify_eq. simpl. by rewrite Hl, filter_ne_split.
Qed.

End link.
