(* ===== verification/GraphRefine.v ===== *)
(** * Refinement of the adjacency-list operations

    Each operation of [Graph] refines the operation of the same name on
    [SpecGraph]: it returns (no fault, no fuel exhaustion), and the resulting
    buffers represent the specified multigraph. *)

From S2P Require Import Prelude Dll Graph GraphSpec GraphLink.

Section refine.
Context {NP RP : Type}.
Implicit Types (g : Graph NP RP) (s : SpecGraph NP RP) (r : RelEntry RP).

Definition node_room g := pool_room (nodeMark_ g) (nodeCap_ g) (freeNodes_ g).
Definition rel_room g := pool_room (relMark_ g) (relCap_ g) (freeRels_ g).

Lemma allocNode_pool g :
  allocNode g = let* '(m, fr, id) := pool_alloc (nodeMark_ g) (nodeCap_ g) (freeNodes_ g) in
                Ok (set_nodeAlloc g m fr, id).
Proof. unfold allocNode, pool_alloc. destruct (freeNodes_ g); [|done]. by destruct (_ <? _). Qed.

Lemma allocRel_pool g :
  allocRel g = let* '(m, fr, id) := pool_alloc (relMark_ g) (relCap_ g) (freeRels_ g) in
               Ok (set_relAlloc g m fr, id).
Proof. unfold allocRel, pool_alloc. destruct (freeRels_ g); [|done]. by destruct (_ <? _). Qed.

(** ** Effect of entry writes on the abstraction *)

Lemma abs_node_alloc g m fr id e e0 i :
  zget (nodes_ g) id = Some e0 → 0 ≤ id < m → (∀ j, j ≠ id → j < m ↔ j < nodeMark_ g) →
  n_inUse e = true →
  abs_node (set_nodes (set_nodeAlloc g m fr) (zset (nodes_ g) id e)) i =
    if decide (i = id) then Some (n_payload e) else abs_node g i.
Proof.
  intros He0 Hid Hm Hu. unfold abs_node; simpl. case_decide as Ei; [subst i|].
  - rewrite (zget_zset_Some _ _ _ _ He0). simpl.
    destruct (Z.leb_spec 0 id), (Z.ltb_spec id m); simpl; try lia. by rewrite Hu.
  - rewrite zget_zset_ne by done. specialize (Hm i Ei).
    destruct (Z.leb_spec 0 i), (Z.ltb_spec i m), (Z.ltb_spec i (nodeMark_ g)); simpl; done || lia.
Qed.

Lemma abs_rel_alloc g m fr id r r0 i :
  zget (rels_ g) id = Some r0 → 0 ≤ id < m → (∀ j, j ≠ id → j < m ↔ j < relMark_ g) →
  r_inUse r = true →
  abs_rel (set_rels (set_relAlloc g m fr) (zset (rels_ g) id r)) i =
    if decide (i = id) then Some (srel_of r) else abs_rel g i.
Proof.
  intros He0 Hid Hm Hu. unfold abs_rel; simpl. case_decide as Ei; [subst i|].
  - rewrite (zget_zset_Some _ _ _ _ He0). simpl.
    destruct (Z.leb_spec 0 id), (Z.ltb_spec id m); simpl; try lia. by rewrite Hu.
  - rewrite zget_zset_ne by done. specialize (Hm i Ei).
    destruct (Z.leb_spec 0 i), (Z.ltb_spec i m), (Z.ltb_spec i (relMark_ g)); simpl; done || lia.
Qed.

Lemma abs_node_head g k n h i :
  zget (nodes_ g) k = Some n →
  abs_node (set_nodes g (zset (nodes_ g) k (set_firstRelId n h))) i = abs_node g i.
Proof.
  intros Hk. unfold abs_node; simpl. case_match; [|done]. rewrite zget_zset.
  case_decide; [subst|done]. by rewrite Hk.
Qed.

Lemma layout_alloc_slot {A} (l : list A) cap m fr live id :
  Z.of_nat (length l) = cap → pool m cap fr live → 0 ≤ id < m → ∃ e, zget l id = Some e.
Proof. intros Hl Hp Hid. apply zget_is_Some. pose proof (pool_mark _ _ _ _ Hp). lia. Qed.

(** ** Initial graph *)

Lemma newGraph_rep np rp ncap rcap :
  0 ≤ ncap → 0 ≤ rcap → Rep (newGraph np rp ncap rcap) (spec_empty (NP := NP) (RP := RP)).
Proof.
  intros Hn Hr.
  assert (∀ i, abs_node (newGraph np rp ncap rcap) i = None) as Hon.
  { intros i. unfold abs_node; simpl. destruct (Z.leb_spec 0 i), (Z.ltb_spec i 0); simpl; done || lia. }
  assert (∀ i, abs_rel (newGraph np rp ncap rcap) i = None) as Hor.
  { intros i. unfold abs_rel; simpl. destruct (Z.leb_spec 0 i), (Z.ltb_spec i 0); simpl; done || lia. }
  split.
  - split; simpl; rewrite ?length_replicate; [lia..| |]; apply pool_empty; try done;
      intros i [? ?]; congruence.
  - intros i. by rewrite Hon.
  - intros i. by rewrite Hor.
  - intros i sn e Hi. done.
  - split; intros; done.
Qed.

(** ** addNode *)

Lemma addNode_rep g s p :
  Rep g s → node_room g →
  ∃ g' id, addNode g p = Ok (g', id) ∧ sg_nodes s !! id = None ∧ 0 ≤ id < nodeMark_ g' ∧
    Rep g' (spec_addNode s id p).
Proof.
  intros HR Hroom. destruct (rep_layout _ _ HR) as [Hnl Hrl Hnp Hrp].
  destruct (pool_alloc_ok _ _ _ _ Hnp Hroom) as (m & fr & id & Ha & Hnew & Hid & Hm & Hpool).
  destruct (layout_alloc_slot _ _ _ _ _ _ Hnl Hpool Hid) as [e0 He0].
  unfold addNode. rewrite allocNode_pool, Ha; simpl. rewrite (load_Some _ _ _ He0); simpl.
  assert (abs_node g id = None) as Habs by by apply eq_None_not_Some.
  eexists _, id. split; [done|]. split; [by apply (rep_node_cases _ _ _ HR)|]. split; [done|].
  set (e := set_n_payload _ _). pose proof (λ i, abs_node_alloc g m fr id e e0 i He0 Hid Hm eq_refl) as Hab.
  split.
  - split; simpl; [by rewrite length_zset|done| |exact Hrp].
    eapply pool_ext; [exact Hpool|]. intros i. rewrite Hab. apply alloc_live.
  - intros i. simpl. rewrite Hab, lookup_insert.
    destruct (decide (id = i)) as [<-|]; [by rewrite decide_True|].
    rewrite decide_False by done. apply (rep_nodes _ _ HR).
  - apply (rep_rels _ _ HR).
  - intros i sn ei. simpl. rewrite lookup_insert. case_decide as Ei; [subst i|].
    + rewrite (zget_zset_Some _ _ _ _ He0). intros [= <-] [= <-]. apply chain_nil.
    + rewrite zget_zset_ne by done. apply (rep_chain _ _ HR).
  - apply spec_wf_addNode; [apply HR|]. by apply (rep_node_cases _ _ _ HR).
Qed.

Lemma addNode_full g p : ¬ node_room g → addNode g p = Fault AssertFailed.
Proof. intros Hr. unfold addNode. by rewrite allocNode_pool, pool_alloc_full. Qed.

(** ** addRelationship *)

(** Chains survive a write to a slot that no adjacency list mentions. *)
Lemma chains_rep_fresh ns (rs : list (RelEntry RP)) (m : gmap Z (SpecNode NP)) id r :
  chains_rep ns rs m → (∀ i sn, m !! i = Some sn → id ∉ sn_adj sn) →
  chains_rep ns (zset rs id r) m.
Proof. intros Hch Hf i sn e Hi He. apply dseg_frame_ne; [by eapply Hf|]. by eapply Hch. Qed.

(** The links of a new relationship, in both end nodes' chains. *)
Lemma link_both_chains g id r m :
  zget (rels_ g) id = Some r → chains_rep (nodes_ g) (rels_ g) m →
  (∀ i sn, m !! i = Some sn → NoDup (sn_adj sn) ∧ (id ∉ sn_adj sn) ∧ is_Some (zget (nodes_ g) i)) →
  is_Some (m !! firstNodeId r) → is_Some (m !! secondNodeId r) →
  ∃ ns' rs', 
    (let* g3 := linkRelToNode g id (firstNodeId r) true in
     if negb (firstNodeId r =? secondNodeId r) then linkRelToNode g3 id (secondNodeId r) false
     else Ok g3) = Ok (set_nodes (set_rels g rs') ns') ∧
    (∀ i, abs_node (set_nodes g ns') i = abs_node g i) ∧ length ns' = length (nodes_ g) ∧
    (∀ i, abs_rel (set_rels g rs') i = abs_rel g i) ∧ length rs' = length (rels_ g) ∧
    chains_rep ns' rs' (if decide (firstNodeId r = secondNodeId r)
      then alter (push id) (firstNodeId r) m
      else alter (push id) (secondNodeId r) (alter (push id) (firstNodeId r) m)).
Proof.
  intros Hr Hch Hm [sn1 H1] [sn2 H2].
  destruct (Hm _ _ H1) as (Hnd1 & Hf1 & [n1 Hn1]). destruct (Hm _ _ H2) as (Hnd2 & Hf2 & [n2 Hn2]).
  destruct (link_chains g id (firstNodeId r) true n1 r m sn1)
    as (rs1 & Hl1 & Hu1 & Hch1); try done; [by left|].
  rewrite Hl1. simpl. set (g1 := set_nodes _ _) in *.
  destruct (Z.eqb_spec (firstNodeId r) (secondNodeId r)) as [E|E]; simpl.
  - exists (nodes_ g1), rs1. rewrite decide_True by done. split_and!; [done| | | | |done].
    + intros i. by apply abs_node_head.
    + apply length_zset.
    + intros i. by eapply rel_upd_abs.
    + apply Hu1.
  - destruct (upd_entry _ _ _ Hu1 id r Hr) as (r1 & Hr1 & Hc1 & _).
    destruct Hc1 as (Hc1 & Hc2 & _).
    destruct (link_chains g1 id (secondNodeId r) false n2 r1 (alter (push id) (firstNodeId r) m) sn2)
      as (rs2 & Hl2 & Hu2 & Hch2).
    { simpl. by rewrite zget_zset_ne. }
    { done. }
    { split; [done|congruence]. }
    { by right. }
    { by rewrite lookup_alter_ne. }
    1-3: done.
    exists (zset (nodes_ g1) (secondNodeId r) (set_firstRelId n2 id)), rs2.
    rewrite decide_False by done. split_and!; [by rewrite Hl2| | | | |done].
    + intros i. transitivity (abs_node g1 i); [|exact (abs_node_head g _ _ _ i Hn1)].
      apply (abs_node_head g1). simpl. by rewrite zget_zset_ne.
    + by rewrite length_zset; apply length_zset.
    + intros i. transitivity (abs_rel g1 i); by eapply rel_upd_abs.
    + etransitivity; [apply Hu2|apply Hu1].
Qed.

Lemma addRelationship_rep g s from to ty p :
  Rep g s → rel_room g → is_Some (sg_nodes s !! from) → is_Some (sg_nodes s !! to) →
  ∃ g' id, addRelationship g from to ty p = Ok (g', id) ∧ sg_rels s !! id = None ∧
    0 ≤ id < relMark_ g' ∧ Rep g' (spec_addRel s id from to (i32 ty) p).
Proof.
  intros HR Hroom Hfrom Hto. destruct (rep_layout _ _ HR) as [Hnl Hrl Hnp Hrp].
  destruct (pool_alloc_ok _ _ _ _ Hrp Hroom) as (m & fr & id & Ha & Hnew & Hid & Hm & Hpool).
  destruct (layout_alloc_slot _ _ _ _ _ _ Hrl Hpool Hid) as [r0 Hr0].
  assert (sg_rels s !! id = None) as Hfree by (rewrite (rep_rels _ _ HR); by apply eq_None_not_Some).
  pose proof (spec_wf_fresh _ _ (rep_wf _ _ HR) Hfree) as Hfresh.
  pose proof (spec_wf_addRel s id from to (i32 ty) p (rep_wf _ _ HR) Hfree Hfrom Hto) as Hwf.
  set (r := mkRel from to (i32 ty) GRAPH_NONE GRAPH_NONE GRAPH_NONE GRAPH_NONE true
              (firstInChainMarker r0) p).
  set (g2 := set_rels (set_relAlloc g m fr) (zset (rels_ g) id r)).
  pose proof (λ i, abs_rel_alloc g m fr id r r0 i Hr0 Hid Hm eq_refl) as Hab.
  destruct (link_both_chains g2 id r (sg_nodes s)) as (ns' & rs' & Hl & Han & Hnl' & Har & Hrl' & Hch).
  { simpl. by eapply zget_zset_Some. }
  { apply chains_rep_fresh; [exact (rep_chain _ _ HR)|exact Hfresh]. }
  { intros i sn Hi. split_and!; [by eapply swf_nodup; [apply HR|]|by eapply Hfresh|].
    destruct (rep_node _ _ _ _ HR Hi) as (_ & e & He & _). by exists e. }
  { done. }
  { done. }
  exists (set_nodes (set_rels g2 rs') ns'), id. split; [|split; [done|split; [exact Hid|]]].
  - unfold addRelationship. rewrite allocRel_pool, Ha; simpl. rewrite (load_Some _ _ _ Hr0); simpl.
    fold r. fold g2. simpl in Hl. destruct (linkRelToNode g2 id from true); [|done]. simpl in *.
    destruct (from =? to); simpl in *; [by injection Hl as ->|]. by rewrite Hl.
  - assert (∀ i, abs_rel (set_nodes (set_rels g2 rs') ns') i =
      if decide (i = id) then Some (srel_of r) else abs_rel g i) as Habs.
    { intros i. rewrite <- Hab. apply Har. }
    assert (∀ i, abs_node (set_nodes (set_rels g2 rs') ns') i = abs_node g i) as Habn by exact Han.
    split.
    + split; simpl; [by rewrite Hnl'|by rewrite Hrl'; simpl; rewrite length_zset| |].
      * eapply pool_ext; [exact Hnp|]. intros i. by rewrite Habn.
      * eapply pool_ext; [exact Hpool|]. intros i. rewrite Habs. apply alloc_live.
    + intros i. rewrite spec_addRel_node. rewrite Habn, <- (rep_nodes _ _ HR i). destruct (sg_nodes s !! i); simpl; [|done].
      by destruct (decide (from = i ∨ to = i)).
    + intros i. simpl. rewrite Habs, lookup_insert.
      destruct (decide (id = i)) as [<-|]; [by rewrite decide_True|].
      rewrite decide_False by done. apply (rep_rels _ _ HR).
    + exact Hch.
    + exact Hwf.
Qed.

Lemma addRelationship_full g from to ty p :
  ¬ rel_room g → addRelationship g from to ty p = Fault AssertFailed.
Proof. intros Hr. unfold addRelationship. by rewrite allocRel_pool, pool_alloc_full. Qed.

(** ** removeRelationship *)

Lemma unlink_both_chains g id r m :
  zget (rels_ g) id = Some r → chains_rep (nodes_ g) (rels_ g) m →
  (∀ i sn, m !! i = Some sn → touches i r →
     NoDup (sn_adj sn) ∧ id ∈ sn_adj sn ∧ is_Some (zget (nodes_ g) i)) →
  is_Some (m !! firstNodeId r) → is_Some (m !! secondNodeId r) →
  ∃ ns' rs' r', 
    (let* g1 := unlinkRelFromNode g id (firstNodeId r) in
     if negb (firstNodeId r =? secondNodeId r) then unlinkRelFromNode g1 id (secondNodeId r)
     else Ok g1) = Ok (set_nodes (set_rels g rs') ns') ∧
    (∀ i, abs_node (set_nodes g ns') i = abs_node g i) ∧ length ns' = length (nodes_ g) ∧
    (∀ i, abs_rel (set_rels g rs') i = abs_rel g i) ∧ length rs' = length (rels_ g) ∧
    zget rs' id = Some r' ∧ srel_of r' = srel_of r ∧
    chains_rep ns' rs' (if decide (firstNodeId r = secondNodeId r)
      then alter (drop_rel id) (firstNodeId r) m
      else alter (drop_rel id) (secondNodeId r) (alter (drop_rel id) (firstNodeId r) m)).
Proof.
  intros Hr Hch Hm [sn1 H1] [sn2 H2].
  destruct (Hm _ _ H1) as (Hnd1 & Hf1 & [n1 Hn1]); [by left|].
  destruct (Hm _ _ H2) as (Hnd2 & Hf2 & [n2 Hn2]); [by right|].
  destruct (unlink_chains g id (firstNodeId r) n1 m sn1)
    as (rs1 & c1 & Hl1 & Hu1 & Hch1); [done..|].
  rewrite Hl1. simpl. set (g1 := set_nodes _ _) in *.
  destruct (upd_entry _ _ _ Hu1 id r Hr) as (r1 & Hr1 & Hc1%same_core_srel & _).
  destruct (Z.eqb_spec (firstNodeId r) (secondNodeId r)) as [E|E]; simpl.
  - exists (nodes_ g1), rs1, r1. rewrite decide_True by done. split_and!; [done| | | | |done|apply Hc1|done].
    + intros i. by apply abs_node_head.
    + apply length_zset.
    + intros i. by eapply rel_upd_abs.
    + apply Hu1.
  - destruct (unlink_chains g1 id (secondNodeId r) n2 (alter (drop_rel id) (firstNodeId r) m) sn2)
      as (rs2 & c2 & Hl2 & Hu2 & Hch2).
    { simpl. by rewrite zget_zset_ne. }
    { by rewrite lookup_alter_ne. }
    1-3: done.
    destruct (upd_entry _ _ _ Hu2 id r1 Hr1) as (r2 & Hr2 & Hc2%same_core_srel & _).
    exists (zset (nodes_ g1) (secondNodeId r) (set_firstRelId n2 c2)), rs2, r2.
    rewrite decide_False by done. split_and!; [by rewrite Hl2| | | | |done| |done].
    + intros i. transitivity (abs_node g1 i); [|exact (abs_node_head g _ _ _ i Hn1)].
      apply (abs_node_head g1). simpl. by rewrite zget_zset_ne.
    + by rewrite length_zset; apply length_zset.
    + intros i. transitivity (abs_rel g1 i); by eapply rel_upd_abs.
    + etransitivity; [apply Hu2|apply Hu1].
    + destruct Hc1, Hc2. congruence.
Qed.

Lemma abs_rel_release g id r i :
  zget (rels_ g) id = Some r →
  abs_rel (set_rels g (zset (rels_ g) id (set_r_inUse r false))) i =
    if decide (i = id) then None else abs_rel g i.
Proof.
  intros Hr. unfold abs_rel; simpl. rewrite zget_zset. case_decide as E.
  - subst i. rewrite decide_True by done. rewrite Hr; simpl. by destruct (_ && _).
  - by rewrite decide_False.
Qed.

Lemma removeRelationship_rep g s id :
  Rep g s → is_Some (sg_rels s !! id) →
  ∃ g', removeRelationship g id = Ok g' ∧ Rep g' (spec_removeRel s id) ∧
    nodeMark_ g' = nodeMark_ g ∧ relMark_ g' = relMark_ g ∧ freeNodes_ g' = freeNodes_ g.
Proof.
  intros HR [sr Hsr]. destruct (rep_layout _ _ HR) as [Hnl Hrl Hnp Hrp].
  destruct (rep_rel _ _ _ _ HR Hsr) as (Hid & r & Hr & Hu & <-).
  destruct (swf_ends _ (rep_wf _ _ HR) _ _ Hsr) as [Hfirst Hsecond].
  destruct (unlink_both_chains g id r (sg_nodes s))
    as (ns & rs & r' & Hl & Han & Hnl' & Har & Hrl' & Hr' & Hs' & Hch); [done|exact (rep_chain _ _ HR)| |done..|].
  { intros i sn Hi Ht. split_and!; [by eapply swf_nodup; [apply HR|]| |].
    - apply (swf_adj _ (rep_wf _ _ HR) i sn id Hi). eauto.
    - destruct (rep_node _ _ _ _ HR Hi) as (_ & e & He & _). by exists e. }
  change (firstNodeId r) with (sr_first (srel_of r)) in Hch.
  change (secondNodeId r) with (sr_second (srel_of r)) in Hch.
  rewrite (drop_ends _ _ _ (rep_wf _ _ HR) Hsr) in Hch.
  set (g2 := set_nodes (set_rels g rs) ns) in *.
  set (g3 := set_rels g2 (zset rs id (set_r_inUse r' false))).
  exists (set_relAlloc g3 (relMark_ g3) (id :: freeRels_ g3)). split.
  { unfold removeRelationship. rewrite (load_Some _ _ _ Hr); simpl. rewrite Hu; simpl.
    destruct (unlinkRelFromNode g id (firstNodeId r)) as [g1|]; [|done]. simpl in *. rewrite Hl. simpl.
    by rewrite (load_Some _ _ _ Hr'). }
  assert (∀ i, abs_rel (set_relAlloc g3 (relMark_ g3) (id :: freeRels_ g3)) i =
    if decide (i = id) then None else abs_rel g i) as Hab.
  { intros i. rewrite <- (Har i). exact (abs_rel_release g2 id r' i Hr'). }
  assert (∀ i, abs_node (set_relAlloc g3 (relMark_ g3) (id :: freeRels_ g3)) i = abs_node g i)
    as Habn by exact Han.
  split; [|done]. split.
  - split; simpl; [by rewrite Hnl'|by rewrite length_zset, Hrl'| |].
    + eapply pool_ext; [exact Hnp|]. intros i. by rewrite Habn.
    + eapply pool_ext; [apply (pool_release _ _ _ _ id Hrp)|].
      * rewrite <- (rep_rels _ _ HR). eauto.
      * intros i. rewrite Hab. apply release_live.
  - intros i. simpl. rewrite lookup_fmap. rewrite Habn, <- (rep_nodes _ _ HR i). by destruct (sg_nodes s !! i).
  - intros i. simpl. rewrite Hab, lookup_delete.
    destruct (decide (id = i)) as [<-|]; [by rewrite decide_True|].
    rewrite decide_False by done. apply (rep_rels _ _ HR).
  - assert (chains_rep ns (zset rs id (set_r_inUse r' false)) (sg_nodes (spec_removeRel s id))) as Hch'.
    { apply chains_rep_fresh; [exact Hch|]. apply spec_wf_fresh; [apply spec_wf_removeRel, HR|].
      apply lookup_delete_eq. }
    exact Hch'.
  - apply spec_wf_removeRel, HR.
Qed.

(** ** removeNode *)

(** The loop removes exactly the relationships of the node's adjacency list;
    any fuel above their number suffices. *)
Lemma removeIncident_rep id l : ∀ fuel g s sn,
  Rep g s → sg_nodes s !! id = Some sn → sn_adj sn = l → (length l < fuel)%nat →
  ∃ g', removeIncident fuel g id (hdd GRAPH_NONE l) = Ok g' ∧ Rep g' (foldl spec_removeRel s l) ∧
    nodeMark_ g' = nodeMark_ g ∧ relMark_ g' = relMark_ g ∧ freeNodes_ g' = freeNodes_ g.
Proof.
  induction l as [|k l IH]; intros fuel g s sn HR Hn Hl Hfuel;
    (destruct fuel as [|fuel]; [simpl in *; lia|]); simpl; [by exists g|].
  destruct (rep_node _ _ _ _ HR Hn) as (_ & e & He & _ & _ & Hc). rewrite Hl in Hc.
  assert (k ∈ sn_adj sn) as Hk by (rewrite Hl; set_solver).
  pose proof (rep_adj_bounds _ _ _ _ _ HR Hn Hk) as Hkb.
  destruct (Z.eqb_spec k GRAPH_NONE); [unfold GRAPH_NONE in *; lia|].
  destruct (dseg_elem _ _ _ _ _ _ _ _ k Hc) as (r & Hr & _); [set_solver|].
  destruct (chain_member _ _ _ _ _ [] k l r Hc Hr) as (_ & _ & Hnext).
  rewrite (load_Some _ _ _ Hr); simpl. rewrite Hnext.
  apply (swf_adj _ (rep_wf _ _ HR) id sn k Hn) in Hk as (sr & Hsr & _).
  destruct (removeRelationship_rep g s k HR) as (g1 & -> & HR1 & Hm1 & Hm2 & Hm3); [by eauto|]. simpl.
  pose proof (swf_nodup _ (rep_wf _ _ HR) id sn Hn) as Hnd. rewrite Hl in Hnd.
  destruct (IH fuel g1 (spec_removeRel s k) (drop_rel k sn)) as (g2 & Hg2 & HR2 & ? & ? & ?);
    [done| | |simpl in *; lia|].
  - simpl. by rewrite lookup_fmap, Hn.
  - simpl. rewrite Hl. exact (filter_ne_split [] l k Hnd).
  - exists g2. split; [done|]. split; [done|]. split_and!; congruence.
Qed.

Lemma abs_node_release g id n fr i :
  zget (nodes_ g) id = Some n →
  abs_node (set_nodeAlloc (set_nodes g (zset (nodes_ g) id
      (set_firstRelId (set_n_inUse n false) GRAPH_NONE))) (nodeMark_ g) fr) i =
    if decide (i = id) then None else abs_node g i.
Proof.
  intros Hr. unfold abs_node; simpl. rewrite zget_zset. case_decide as E.
  - subst i. rewrite decide_True by done. rewrite Hr; simpl. by destruct (_ && _).
  - by rewrite decide_False.
Qed.

Lemma removeNode_rep g s id :
  Rep g s → is_Some (sg_nodes s !! id) →
  ∃ g', removeNode g id = Ok g' ∧ Rep g' (spec_removeNode s id) ∧ nodeMark_ g' = nodeMark_ g.
Proof.
  intros HR [sn Hn]. destruct (rep_node _ _ _ _ HR Hn) as (Hid & e & He & Hu & _ & Hc).
  destruct (removeIncident_rep id (sn_adj sn) (S (Z.to_nat (relMark_ g))) g s sn HR Hn eq_refl)
    as (g1 & Hg1 & HR1 & Hm1 & Hm2 & Hm3).
  { pose proof (rep_adj_length _ _ _ _ HR Hn). lia. }
  unfold removeNode. rewrite (load_Some _ _ _ He). cbn [res_bind]. rewrite Hu.
  rewrite (dseg_hd _ _ _ _ _ _ _ _ Hc). cbn [res_bind assert_]. rewrite Hg1. cbn [res_bind].
  assert (sg_nodes (foldl spec_removeRel s (sn_adj sn)) !! id ≠ None) as Hn1
    by (rewrite removeRels_node, Hn; done).
  apply not_eq_None_Some in Hn1 as [sn1 Hn1].
  destruct (rep_node _ _ _ _ HR1 Hn1) as (_ & e1 & He1 & Hu1 & _ & _).
  rewrite (load_Some _ _ _ He1); simpl.
  eexists. split; [done|]. split; [|done].
  set (s1 := foldl spec_removeRel s (sn_adj sn)) in *.
  assert (spec_removeNode s id = mkSpec (delete id (sg_nodes s1)) (sg_rels s1)) as Hspec
    by (unfold spec_removeNode; by rewrite Hn).
  pose proof (λ i, abs_node_release g1 id e1 (id :: freeNodes_ g1) i He1) as Hab.
  destruct (rep_layout _ _ HR1) as [Hnl Hrl Hnp Hrp]. split.
  - split; simpl; [by rewrite length_zset|done| |exact Hrp].
    eapply pool_ext; [apply (pool_release _ _ _ _ id Hnp)|].
    + rewrite <- (rep_nodes _ _ HR1), Hn1. done.
    + intros i. rewrite Hab. apply release_live.
  - intros i. rewrite Hspec. simpl. rewrite Hab, lookup_delete.
    destruct (decide (id = i)) as [<-|]; [by rewrite decide_True|].
    rewrite decide_False by done. apply (rep_nodes _ _ HR1).
  - intros i. rewrite Hspec. apply (rep_rels _ _ HR1).
  - intros i sni ei. rewrite Hspec. simpl. intros [? Hi]%lookup_delete_Some.
    rewrite zget_zset_ne by done. by apply (rep_chain _ _ HR1).
  - eapply spec_wf_removeNode; [apply HR|done].
Qed.

(** ** Traversal *)

Lemma walk_chain fuel n (rs : list (RelEntry RP)) p c l :
  dseg (prevOf n) (nextOf n) (touches n) rs p c l GRAPH_NONE → (length l < fuel)%nat →
  walk fuel rs n c = Ok l.
Proof.
  revert fuel p c. induction l as [|i l IH]; intros [|fuel] p c Hd Hf; simpl in *; try lia.
  - by rewrite Hd.
  - destruct Hd as (-> & r & Hr & _ & _ & Hd). pose proof (zget_lt _ _ _ Hr).
    destruct (Z.eqb_spec i GRAPH_NONE); [unfold GRAPH_NONE in *; lia|].
    rewrite (load_Some _ _ _ Hr); simpl. erewrite IH by (done || lia). done.
Qed.

Lemma incident_rels_rep g s n sn :
  Rep g s → sg_nodes s !! n = Some sn → incident_rels g n = Ok (sn_adj sn).
Proof.
  intros HR Hn. destruct (rep_node _ _ _ _ HR Hn) as (Hid & e & He & _ & _ & Hc).
  unfold incident_rels, node.
  destruct (Z.leb_spec 0 n), (Z.ltb_spec n (nodeMark_ g)); try lia.
  cbn [andb assert_ res_bind]. rewrite (load_Some _ _ _ He). cbn [res_bind]. eapply walk_chain; [exact Hc|].
  pose proof (rep_adj_length _ _ _ _ HR Hn). lia.
Qed.

Lemma rep_counts g s :
  Rep g s →
  Z.of_nat (size (sg_nodes s)) = nodeMark_ g - Z.of_nat (length (freeNodes_ g)) ∧
  Z.of_nat (size (sg_rels s)) = relMark_ g - Z.of_nat (length (freeRels_ g)).
Proof.
  intros HR. destruct (rep_layout _ _ HR) as [_ _ Hnp Hrp]. split.
  - apply (pool_count _ _ _ _ _ Hnp). intros i. by rewrite <- (rep_nodes _ _ HR i), fmap_is_Some.
  - apply (pool_count _ _ _ _ _ Hrp). intros i. by rewrite (rep_rels _ _ HR i).
Qed.

End refine.
