(* ===== verification/GraphProps.v ===== *)
(** * Properties of the adjacency-list graph

    The contract of [Graph] as theorems: every operation refines its
    specification on every branch, the invariant holds in every reachable
    state, and traversal visits each incident relationship exactly once. *)

From S2P Require Import Prelude Dll Graph GraphSpec GraphLink GraphRefine.

Section steps.
Context {NP RP : Type}.
Implicit Types (g : Graph NP RP) (s : SpecGraph NP RP).

(** ** Operations as steps *)
Inductive gop :=
  | OpAddNode (p : NP)
  | OpAddRel (from to ty : Z) (p : RP)
  | OpRemoveRel (id : Z)
  | OpRemoveNode (id : Z).

Definition gstep g (o : gop) : res (Graph NP RP) :=
  match o with
  | OpAddNode p => let* '(g', _) := addNode g p in Ok g'
  | OpAddRel from to ty p => let* '(g', _) := addRelationship g from to ty p in Ok g'
  | OpRemoveRel id => removeRelationship g id
  | OpRemoveNode id => removeNode g id
  end.

(** What a caller has to respect: ids handed to an operation are live. *)
Definition legal g (o : gop) : Prop :=
  match o with
  | OpAddNode _ => True
  | OpAddRel from to _ _ => is_Some (abs_node g from) ∧ is_Some (abs_node g to)
  | OpRemoveRel id => is_Some (abs_rel g id)
  | OpRemoveNode id => is_Some (abs_node g id)
  end.

(** The specification's step for the same operation and the allocated id. *)
Inductive spec_step : SpecGraph NP RP → gop → SpecGraph NP RP → Prop :=
  | spec_step_addNode s p id :
      sg_nodes s !! id = None → spec_step s (OpAddNode p) (spec_addNode s id p)
  | spec_step_addRel s from to ty p id :
      sg_rels s !! id = None →
      is_Some (sg_nodes s !! from) → is_Some (sg_nodes s !! to) →
      spec_step s (OpAddRel from to ty p) (spec_addRel s id from to (i32 ty) p)
  | spec_step_removeRel s id :
      is_Some (sg_rels s !! id) → spec_step s (OpRemoveRel id) (spec_removeRel s id)
  | spec_step_removeNode s id :
      is_Some (sg_nodes s !! id) → spec_step s (OpRemoveNode id) (spec_removeNode s id).

(** States reachable from an empty graph by legal operations. *)
Inductive reach (np : NP) (rp : RP) (ncap rcap : Z) : Graph NP RP → Prop :=
  | reach_new : reach np rp ncap rcap (newGraph np rp ncap rcap)
  | reach_step g o g' :
      reach np rp ncap rcap g → legal g o → gstep g o = Ok g' → reach np rp ncap rcap g'.

(** Only a full buffer stops a legal operation. *)
Definition full_for g (o : gop) : Prop :=
  match o with
  | OpAddNode _ => ¬ node_room g
  | OpAddRel _ _ _ _ => ¬ rel_room g
  | _ => False
  end.

#[global] Instance pool_room_dec mark cap fr : Decision (pool_room mark cap fr).
Proof. unfold pool_room. apply _. Defined.
#[global] Instance node_room_dec g : Decision (node_room g).
Proof. unfold node_room. apply _. Defined.
#[global] Instance rel_room_dec g : Decision (rel_room g).
Proof. unfold rel_room. apply _. Defined.

Lemma rep_live_node g s i : Rep g s → is_Some (abs_node g i) ↔ is_Some (sg_nodes s !! i).
Proof. intros HR. by rewrite <- (rep_nodes _ _ HR i), fmap_is_Some. Qed.

Lemma rep_live_rel g s i : Rep g s → is_Some (abs_rel g i) ↔ is_Some (sg_rels s !! i).
Proof. intros HR. by rewrite (rep_rels _ _ HR i). Qed.

(** Forward simulation of one legal step. *)
Lemma step_simulation g s o :
  Rep g s → legal g o →
  (full_for g o ∧ gstep g o = Fault AssertFailed) ∨
  ∃ g' s', gstep g o = Ok g' ∧ spec_step s o s' ∧ Rep g' s'.
Proof.
  intros HR Hl. destruct o as [p|from to ty p|id|id]; simpl in *.
  - destruct (decide (node_room g)) as [Hr|Hr]; [right|left; by rewrite addNode_full].
    destruct (addNode_rep g s p HR Hr) as (g' & id & -> & Hid & _ & HR').
    exists g', (spec_addNode s id p). by split_and!; [|constructor|].
  - rewrite !(rep_live_node _ _ _ HR) in Hl. destruct Hl as [Hf Ht].
    destruct (decide (rel_room g)) as [Hr|Hr]; [right|left; by rewrite addRelationship_full].
    destruct (addRelationship_rep g s from to ty p HR Hr Hf Ht) as (g' & id & -> & Hid & _ & HR').
    exists g', (spec_addRel s id from to (i32 ty) p). by split_and!; [|constructor|].
  - rewrite (rep_live_rel _ _ _ HR) in Hl. right.
    destruct (removeRelationship_rep g s id HR Hl) as (g' & -> & HR' & _).
    exists g', (spec_removeRel s id). by split_and!; [|constructor|].
  - rewrite (rep_live_node _ _ _ HR) in Hl. right.
    destruct (removeNode_rep g s id HR Hl) as (g' & -> & HR' & _).
    exists g', (spec_removeNode s id). by split_and!; [|constructor|].
Qed.

Lemma reach_rep np rp ncap rcap g :
  0 ≤ ncap → 0 ≤ rcap → reach np rp ncap rcap g → ∃ s, Rep g s.
Proof.
  intros Hn Hr. induction 1 as [|g o g' _ [s HR] Hl Hs].
  - exists spec_empty. by apply newGraph_rep.
  - destruct (step_simulation g s o HR Hl) as [[_ ?]|(g'' & s' & ? & _ & ?)]; [congruence|].
    exists s'. congruence.
Qed.
#[global] Instance legal_dec g o : Decision (legal g o).
Proof. destruct o; simpl; apply _. Defined.

(** Running a list of operations, checking that each is legal where it runs. *)
Fixpoint run g (ops : list gop) : res (Graph NP RP) :=
  match ops with
  | [] => Ok g
  | o :: ops => let* g' := gstep g o in run g' ops
  end.
Fixpoint run_legal g (ops : list gop) : bool :=
  match ops with
  | [] => true
  | o :: ops =>
      bool_decide (legal g o) && match gstep g o with Ok g' => run_legal g' ops | Fault _ => false end
  end.

Lemma reach_run np rp ncap rcap ops : ∀ g g',
  reach np rp ncap rcap g → run_legal g ops = true → run g ops = Ok g' → reach np rp ncap rcap g'.
Proof.
  induction ops as [|o ops IH]; intros g g' Hg Hl Hrun; simpl in *; [by simplify_eq|].
  apply andb_true_iff in Hl as [Hl%bool_decide_eq_true Hrest].
  destruct (gstep g o) as [g1|] eqn:Hs; [|done]. simpl in Hrun.
  eapply IH; [|done..]. by eapply reach_step.
Qed.
End steps.
Arguments gop : clear implicits.

(** The operations are functions, so a returning call refines its specification. *)
Lemma addNode_det {NP RP} (g : Graph NP RP) s p g' id :
  Rep g s → addNode g p = Ok (g', id) → Rep g' (spec_addNode s id p).
Proof.
  intros HR Ha. destruct (decide (node_room g)) as [Hr|Hr]; [|by rewrite addNode_full in Ha].
  destruct (addNode_rep g s p HR Hr) as (? & ? & Ha' & _ & _ & ?).
  by rewrite Ha in Ha'; injection Ha' as <- <-.
Qed.

Lemma addRelationship_det {NP RP} (g : Graph NP RP) s from to ty p g' id :
  Rep g s → is_Some (sg_nodes s !! from) → is_Some (sg_nodes s !! to) →
  addRelationship g from to ty p = Ok (g', id) →
  sg_rels s !! id = None ∧ Rep g' (spec_addRel s id from to (i32 ty) p).
Proof.
  intros HR Hf Ht Ha. destruct (decide (rel_room g)) as [Hr|Hr]; [|by rewrite addRelationship_full in Ha].
  destruct (addRelationship_rep g s from to ty p HR Hr Hf Ht) as (? & ? & Ha' & ? & _ & ?).
  by rewrite Ha in Ha'; injection Ha' as <- <-.
Qed.

(** Dropping a relationship just pushed gives the adjacency list back. *)
Lemma spec_add_remove_rel {NP RP} (s : SpecGraph NP RP) id from to ty p :
  spec_wf s → sg_rels s !! id = None → spec_removeRel (spec_addRel s id from to ty p) id = s.
Proof.
  intros Hwf Hid. unfold spec_removeRel. destruct s as [ns rs]. f_equal.
  - apply map_eq. intros i. rewrite lookup_fmap, spec_addRel_node. simpl.
    destruct (ns !! i) as [[pl adj]|] eqn:Hi; simpl; [|done]. f_equal.
    pose proof (spec_wf_fresh _ _ Hwf Hid i _ Hi) as Hf. simpl in Hf.
    case_decide; unfold drop_rel, push; simpl; rewrite ?filter_cons_False by naive_solver;
      by rewrite filter_ne_id.
  - simpl. by apply delete_insert_id.
Qed.

(** Concrete graphs for the witnesses: two nodes, a relationship and a self-loop. *)
Definition ok_graph {A} (m : res (Graph Z Z * A)) : Graph Z Z :=
  match m with Ok (g, _) => g | Fault _ => newGraph 0 0 0 0 end.
Definition sample0 : Graph Z Z := newGraph 0 0 4 4.
Definition sample1 := ok_graph (addNode sample0 10).
Definition sample2 := ok_graph (addNode sample1 20).
Definition sample3 := ok_graph (addRelationship sample2 0 1 7 100).
Definition sample := ok_graph (addRelationship sample3 1 1 8 200).

Definition sample2_spec : SpecGraph Z Z := spec_addNode (spec_addNode spec_empty 0 10) 1 20.
Definition sample_spec : SpecGraph Z Z :=
  spec_addRel (spec_addRel sample2_spec 0 0 1 7 100) 1 1 1 8 200.

Lemma sample2_rep : Rep sample2 sample2_spec.
Proof.
  apply (addNode_det sample1); [|vm_compute; reflexivity].
  apply (addNode_det sample0); [|vm_compute; reflexivity]. by apply newGraph_rep.
Qed.

Lemma sample_rep : Rep sample sample_spec.
Proof.
  apply (addRelationship_det sample3 _ 1 1 8 200); [|vm_compute; eauto..].
  apply (addRelationship_det sample2 _ 0 1 7 100); [apply sample2_rep|vm_compute; eauto..].
Qed.

Lemma sample_reach : reach 0 0 4 4 sample.
Proof.
  apply (reach_run 0 0 4 4 [OpAddNode 10; OpAddNode 20; OpAddRel 0 1 7 100; OpAddRel 1 1 8 200] sample0);
    [apply reach_new|vm_compute; reflexivity..].
Qed.

(** C1. Forward simulation of the adjacency-list graph by the abstract
    multigraph: where the buffers represent a multigraph, a legal operation
    (its ids are live) either takes the multigraph's step, with the new buffers
    representing the new multigraph, or stops at the capacity assertion because
    the buffer it needs is full.  So removeNode's loop terminates and no
    operation touches memory out of range. *)
Theorem graph_simulation {NP RP : Type} (g : Graph NP RP) (s : SpecGraph NP RP) (o : gop NP RP) :
  Rep g s → legal g o →
  (full_for g o ∧ gstep g o = Fault AssertFailed) ∨
  ∃ g' s', gstep g o = Ok g' ∧ spec_step s o s' ∧ Rep g' s'.
Proof. apply step_simulation. Qed.

Lemma graph_simulation_witness :
  (full_for sample (OpRemoveNode 1) ∧ gstep sample (OpRemoveNode 1) = Fault AssertFailed) ∨
  ∃ g' s', gstep sample (OpRemoveNode 1) = Ok g' ∧ spec_step sample_spec (OpRemoveNode 1) s' ∧ Rep g' s'.
Proof. apply graph_simulation; [apply sample_rep|vm_compute; eauto]. Defined.

(** Every state reachable from an empty graph by legal operations
    represents a well-formed multigraph whose numbers of nodes and
    relationships are the high-water marks minus the lengths of the free lists
    (what [GraphStorageHelper::nodeCount] and [relCount] compute). *)
Theorem graph_reachable_invariant {NP RP : Type} (np : NP) (rp : RP) ncap rcap (g : Graph NP RP) :
  0 ≤ ncap → 0 ≤ rcap → reach np rp ncap rcap g →
  ∃ s, Rep g s ∧
    Z.of_nat (size (sg_nodes s)) = nodeMark_ g - Z.of_nat (length (freeNodes_ g)) ∧
    Z.of_nat (size (sg_rels s)) = relMark_ g - Z.of_nat (length (freeRels_ g)).
Proof.
  intros Hn Hr Hg. destruct (reach_rep np rp ncap rcap g Hn Hr Hg) as [s HR].
  exists s. split; [done|]. by apply rep_counts.
Qed.

Lemma graph_reachable_invariant_witness :
  ∃ s, Rep sample s ∧
    Z.of_nat (size (sg_nodes s)) = nodeMark_ sample - Z.of_nat (length (freeNodes_ sample)) ∧
    Z.of_nat (size (sg_rels s)) = relMark_ sample - Z.of_nat (length (freeRels_ sample)).
Proof. apply (graph_reachable_invariant 0 0 4 4); [lia|lia|apply sample_reach]. Defined.

(** Traversal: following the chain of a live node from [firstRelId]
    terminates and yields every live relationship incident to the node exactly
    once (a self-loop once), and nothing else. *)
Theorem graph_traversal_exact {NP RP : Type} (g : Graph NP RP) (s : SpecGraph NP RP) (n : Z) :
  Rep g s → is_Some (abs_node g n) →
  ∃ l, incident_rels g n = Ok l ∧ NoDup l ∧
    ∀ k, k ∈ l ↔ ∃ r, abs_rel g k = Some r ∧ incident n r.
Proof.
  intros HR [sn Hn]%(rep_live_node _ _ _ HR). exists (sn_adj sn).
  split; [by eapply incident_rels_rep|]. split; [by eapply swf_nodup; [apply HR|]|].
  intros k. rewrite (swf_adj _ (rep_wf _ _ HR) n sn k Hn). by rewrite (rep_rels _ _ HR).
Qed.

Lemma graph_traversal_exact_witness :
  ∃ l, incident_rels sample 1 = Ok l ∧ NoDup l ∧
    ∀ k, k ∈ l ↔ ∃ r, abs_rel sample k = Some r ∧ incident 1 r.
Proof. apply (graph_traversal_exact sample sample_spec 1); [apply sample_rep|vm_compute; eauto]. Defined.

(** Removing a live node removes exactly the node and the relationships
    incident to it: every other relationship keeps its record, every other
    node keeps its payload and its adjacency order, and the slots go to the
    free lists. *)
Theorem graph_removeNode_effect {NP RP : Type} (g : Graph NP RP) (s : SpecGraph NP RP) (id : Z) sn :
  Rep g s → sg_nodes s !! id = Some sn →
  ∃ g', removeNode g id = Ok g' ∧ abs_node g' id = None ∧
    (∀ i, i ≠ id → abs_node g' i = abs_node g i) ∧
    (∀ k r, abs_rel g' k = Some r ↔ abs_rel g k = Some r ∧ ¬ incident id r) ∧
    (∀ i sni, i ≠ id → sg_nodes s !! i = Some sni →
       incident_rels g' i = Ok (filter (λ k, k ∉ sn_adj sn) (sn_adj sni))).
Proof.
  intros HR Hid. destruct (removeNode_rep g s id HR) as (g' & Hg & HR' & _); [by eauto|].
  exists g'. split; [done|].
  assert (∀ i, sg_nodes (spec_removeNode s id) !! i = if decide (id = i) then None else
    (λ sni, mkSNode (sn_payload sni) (filter (λ k, k ∉ sn_adj sn) (sn_adj sni))) <$> sg_nodes s !! i) as Hns.
  { intros i. unfold spec_removeNode. rewrite Hid; simpl. by rewrite lookup_delete, removeRels_node. }
  split_and!.
  - rewrite <- (rep_nodes _ _ HR'), Hns. by rewrite decide_True.
  - intros i Hi. rewrite <- (rep_nodes _ _ HR'), <- (rep_nodes _ _ HR), Hns, decide_False by done.
    by destruct (sg_nodes s !! i).
  - intros k r. rewrite <- (rep_rels _ _ HR'), <- (rep_rels _ _ HR).
    eapply spec_removeNode_rel; [apply HR|done].
  - intros i sni Hi Hsni. rewrite (incident_rels_rep _ _ i _ HR' ltac:(rewrite Hns, decide_False, Hsni; done)).
    done.
Qed.

Lemma graph_removeNode_effect_witness :
  ∃ g', removeNode sample 1 = Ok g' ∧ abs_node g' 1 = None ∧
    (∀ i, i ≠ 1 → abs_node g' i = abs_node sample i) ∧
    (∀ k r, abs_rel g' k = Some r ↔ abs_rel sample k = Some r ∧ ¬ incident 1 r) ∧
    (∀ i sni, i ≠ 1 → sg_nodes sample_spec !! i = Some sni →
       incident_rels g' i = Ok (filter (λ k, k ∉ [1; 0]) (sn_adj sni))).
Proof.
  apply (graph_removeNode_effect sample sample_spec 1 (mkSNode 20 [1; 0]));
    [apply sample_rep|vm_compute; reflexivity].
Defined.

(** Adding a relationship and removing it again gives the same multigraph
    back: adjacency order, payloads and relationship records of everything else
    are as before. *)
Theorem graph_add_remove_roundtrip {NP RP : Type} (g : Graph NP RP) (s : SpecGraph NP RP) from to ty p g1 id :
  Rep g s → is_Some (abs_node g from) → is_Some (abs_node g to) →
  addRelationship g from to ty p = Ok (g1, id) →
  ∃ g2, removeRelationship g1 id = Ok g2 ∧ Rep g2 s.
Proof.
  intros HR Hf Ht Ha. rewrite (rep_live_node _ _ _ HR) in Hf. rewrite (rep_live_node _ _ _ HR) in Ht.
  destruct (addRelationship_det g s from to ty p g1 id HR Hf Ht Ha) as [Hid HR1].
  destruct (removeRelationship_rep g1 _ id HR1) as (g2 & Hg2 & HR2 & _).
  { simpl. rewrite lookup_insert_eq. by eauto. }
  exists g2. split; [done|]. by rewrite (spec_add_remove_rel s id from to (i32 ty) p (rep_wf _ _ HR) Hid) in HR2.
Qed.

Lemma graph_add_remove_roundtrip_witness :
  ∃ g2, removeRelationship sample3 0 = Ok g2 ∧ Rep g2 sample2_spec.
Proof.
  apply (graph_add_remove_roundtrip sample2 sample2_spec 0 1 7 100);
    [apply sample2_rep|vm_compute; eauto..].
Defined.
