(* ===== verification/Bytes.v ===== *)
(** * Bytes and little-endian integers

    Objects in memory and on disk are sequences of bytes.  The runtime copies
    integers byte-wise ([memcpy], [fwrite], [ByteWriter::write]) on
    little-endian targets, so a [w]-byte integer is [le_bytes w z].  Readers
    consume a byte sequence from the front. *)

From S2P Require Import Prelude.
From Stdlib Require Import Strings.Byte.

Definition bytes := list byte.

Definition byte_val (b : byte) : Z := Z.of_N (Byte.to_N b).
Definition byte_of_Z (z : Z) : byte :=
  match Byte.of_N (Z.to_N (z mod 256)) with Some b => b | None => Byte.x00 end.

Lemma byte_val_range b : 0 ≤ byte_val b < 256.
Proof. unfold byte_val. pose proof (Byte.to_N_bounded b). lia. Qed.

Lemma byte_of_Z_val b : byte_of_Z (byte_val b) = b.
Proof.
  unfold byte_of_Z. pose proof (byte_val_range b). rewrite Z.mod_small by done.
  unfold byte_val. by rewrite N2Z.id, Byte.of_to_N.
Qed.

#[export] Instance byte_eq_decision : EqDecision byte.
Proof. intros a b. destruct (decide (byte_val a = byte_val b)) as [H|H]; [left|right; by intros ->].
  by rewrite <- (byte_of_Z_val a), <- (byte_of_Z_val b), H.
Defined.
#[export] Instance byte_countable : Countable byte := inj_countable' byte_val byte_of_Z byte_of_Z_val.

Lemma byte_val_of_Z z : byte_val (byte_of_Z z) = z mod 256.
Proof.
  unfold byte_of_Z, byte_val. pose proof (Z.mod_pos_bound z 256 ltac:(lia)).
  destruct (Byte.of_N _) as [b|] eqn:E.
  - apply Byte.to_of_N in E. rewrite E. lia.
  - apply Byte.of_N_None_iff in E. lia.
Qed.

(** ** Little-endian integers of [n] bytes *)

Fixpoint le_bytes (n : nat) (z : Z) : bytes :=
  match n with
  | O => []
  | S n => byte_of_Z z :: le_bytes n (z / 256)
  end.

Fixpoint le_val (bs : bytes) : Z :=
  match bs with
  | [] => 0
  | b :: bs => byte_val b + 256 * le_val bs
  end.

Lemma length_le_bytes n z : length (le_bytes n z) = n.
Proof. revert z. induction n; intros; simpl; auto. Qed.

Lemma pow256_S n : 2 ^ (8 * Z.of_nat (S n)) = 256 * 2 ^ (8 * Z.of_nat n).
Proof.
  replace (8 * Z.of_nat (S n)) with (8 + 8 * Z.of_nat n) by lia.
  rewrite Z.pow_add_r by lia. done.
Qed.

Lemma le_val_bytes n z : le_val (le_bytes n z) = wrap_u (8 * Z.of_nat n) z.
Proof.
  revert z. induction n as [|n IH]; intros z; cbn [le_bytes le_val]; [symmetry; apply Z.mod_1_r|].
  rewrite IH, byte_val_of_Z. unfold wrap_u. rewrite pow256_S.
  rewrite (Z.rem_mul_r z 256); [done|lia|]. apply Z.pow_pos_nonneg; lia.
Qed.

Lemma le_val_range bs : 0 ≤ le_val bs < 2 ^ (8 * Z.of_nat (length bs)).
Proof.
  induction bs as [|b bs IH]; cbn [le_val length]; [by simpl|].
  rewrite pow256_S. pose proof (byte_val_range b). lia.
Qed.

Lemma le_bytes_val bs : le_bytes (length bs) (le_val bs) = bs.
Proof.
  induction bs as [|b bs IH]; cbn [le_val length le_bytes]; [done|].
  pose proof (byte_val_range b).
  assert ((byte_val b + 256 * le_val bs) / 256 = le_val bs) as ->.
  { rewrite Z.mul_comm, Z.div_add, Z.div_small by lia. lia. }
  rewrite IH. f_equal. rewrite <- (byte_of_Z_val b) at 2. unfold byte_of_Z.
  do 3 f_equal. by rewrite Z.mul_comm, Z.mod_add by lia.
Qed.

(** ** Encoding of the source's integer types *)

Definition put_u8 (z : Z) : bytes := le_bytes 1 z.
Definition put_u16 (z : Z) : bytes := le_bytes 2 z.
Definition put_u32 (z : Z) : bytes := le_bytes 4 z.
Definition put_u64 (z : Z) : bytes := le_bytes 8 z.
Definition put_bool (b : bool) : bytes := put_u8 (Z.b2z b).

(** ** Readers

    A reader takes the remaining bytes and returns a value and what is left.
    It fails when the input is too short, where the source's reader throws or
    reports a short read. *)

Definition reader A := bytes → res (A * bytes).

Definition take_bytes (n : nat) : reader bytes := λ bs,
  if (length bs <? n)%nat then Fault BadAccess else Ok (take n bs, drop n bs).

Definition get_uint (n : nat) : reader Z := λ bs,
  let* '(b, bs) := take_bytes n bs in Ok (le_val b, bs).
Definition get_sint (n : nat) : reader Z := λ bs,
  let* '(z, bs) := get_uint n bs in Ok (wrap_s (8 * Z.of_nat n) z, bs).
Definition get_bool : reader bool := λ bs,
  let* '(z, bs) := get_uint 1 bs in Ok (negb (z =? 0), bs).

Definition get_u8 := get_uint 1.
Definition get_u16 := get_uint 2.
Definition get_u32 := get_uint 4.
Definition get_u64 := get_uint 8.
Definition get_i32 := get_sint 4.
Definition get_i64 := get_sint 8.

(** [n] values in sequence. *)
Fixpoint get_many {A} (get : reader A) (n : nat) : reader (list A) := λ bs,
  match n with
  | O => Ok ([], bs)
  | S n =>
      let* '(x, bs) := get bs in
      let* '(xs, bs) := get_many get n bs in Ok (x :: xs, bs)
  end.

(** [get] reads back what [put] wrote, for values satisfying [P], leaving the rest. *)
Definition reads {A} (P : A → Prop) (put : A → bytes) (get : reader A) : Prop :=
  ∀ x rest, P x → get (put x ++ rest) = Ok (x, rest).

Lemma take_bytes_app bs rest : take_bytes (length bs) (bs ++ rest) = Ok (bs, rest).
Proof.
  unfold take_bytes. rewrite length_app.
  destruct (Nat.ltb_spec (length bs + length rest) (length bs)); [lia|].
  by rewrite take_app_length, drop_app_length.
Qed.

Lemma take_bytes_le n z rest : take_bytes n (le_bytes n z ++ rest) = Ok (le_bytes n z, rest).
Proof. rewrite <- (length_le_bytes n z) at 1. apply take_bytes_app. Qed.

Lemma get_uint_reads n : reads (in_u (8 * Z.of_nat n)) (le_bytes n) (get_uint n).
Proof.
  intros z rest Hz. unfold get_uint. rewrite take_bytes_le; simpl.
  by rewrite le_val_bytes, wrap_u_id.
Qed.

Lemma get_sint_reads n : (0 < n)%nat → reads (in_s (8 * Z.of_nat n)) (le_bytes n) (get_sint n).
Proof.
  intros Hn z rest Hz. unfold get_sint, get_uint. rewrite take_bytes_le; simpl.
  rewrite le_val_bytes, wrap_s_u by (done || lia). done.
Qed.

Lemma get_bool_reads : reads (λ _, True) put_bool get_bool.
Proof. intros [] rest _; done. Qed.

Lemma get_many_reads {A} (P : A → Prop) put get (xs : list A) rest :
  reads P put get → Forall P xs →
  get_many get (length xs) (concat (put <$> xs) ++ rest) = Ok (xs, rest).
Proof.
  intros Hr. induction 1 as [|x xs Hx Hxs IH]; [done|].
  rewrite fmap_cons. cbn [length get_many concat]. rewrite <- app_assoc, Hr by done.
  cbn [res_bind]. by rewrite IH.
Qed.

Create HintDb codec.
#[export] Hint Resolve get_uint_reads get_sint_reads get_bool_reads get_many_reads : codec.

(** Runs a reader over what its writer produced. *)
Ltac read_step lem :=
  rewrite <- ?app_assoc; erewrite lem; [cbn [res_bind]|try done..].
