(* ===== verification/PropData.v ===== *)
(** * Property payload storage

    Model of [BlobTable] and [PropertyGraph::PropertyData]
    (include/gengodb/runtime/BuiltinGraphs.h, src/gengodb/runtime/BuiltinGraphs.cpp):
    values that do not fit into a property record live in three vectors of
    64-bit values and in one append-only byte arena per datatype. *)

From S2P Require Import Prelude Bytes.
From Stdlib Require Import Strings.Byte.

(** ** BlobTable *)

(** A blob is an offset from [blobData_.ptr] and a length. *)
Record BlobTable := mkBlobTable {
  bt_blobs : list (Z * Z);
  bt_data : bytes;
  bt_cap : Z;
}.

Definition newBlobTable (cap : Z) : BlobTable :=
  mkBlobTable [] (replicate (Z.to_nat cap) Byte.x00) cap.

(** [blobs_.back().first + blobs_.back().second], or the start of the data. *)
Definition blob_end (blobs : list (Z * Z)) : Z :=
  match last blobs with Some (off, len) => off + len | None => 0 end.

Definition usedBytes (t : BlobTable) : Z := blob_end (bt_blobs t).
Definition blobCount (t : BlobTable) : Z := Z.of_nat (length (bt_blobs t)).

Definition bt_alloc (t : BlobTable) (len : Z) : res (BlobTable * (Z * Z)) :=
  let ptr := blob_end (bt_blobs t) in
  let* _ := assert_ (u64 (ptr + len) <=? bt_cap t) in
  let blobs := bt_blobs t ++ [(ptr, len)] in
  let index := Z.of_nat (length blobs) - 1 in
  let* _ := assert_ (index <=? 2147483647) in
  Ok (mkBlobTable blobs (bt_data t) (bt_cap t), (ptr, index)).

Definition bt_get (t : BlobTable) (idx : Z) : res (Z * Z) := load (bt_blobs t) idx.

(** [memcpy] to and from the table's data. *)
Definition bt_write (t : BlobTable) (off : Z) (bs : bytes) : res BlobTable :=
  if (0 <=? off) && (off + Z.of_nat (length bs) <=? Z.of_nat (length (bt_data t))) then
    Ok (mkBlobTable (bt_blobs t)
          (take (Z.to_nat off) (bt_data t) ++ bs ++
           drop (Z.to_nat off + length bs) (bt_data t)) (bt_cap t))
  else Fault BadAccess.
Definition bt_read (t : BlobTable) (off len : Z) : res bytes :=
  if (0 <=? off) && (0 <=? len) && (off + len <=? Z.of_nat (length (bt_data t))) then
    Ok (take (Z.to_nat len) (drop (Z.to_nat off) (bt_data t)))
  else Fault BadAccess.

(** [store<T>] and [getValue<T>] for a value of the given object bytes. *)
Definition bt_store (t : BlobTable) (idx : Z) (value : bytes) : res BlobTable :=
  let* '(ptr, len) := bt_get t idx in
  let* _ := assert_ (negb (len <? Z.of_nat (length value))) in
  bt_write t ptr value.
Definition bt_getValue (t : BlobTable) (idx sizeofT : Z) : res bytes :=
  let* '(ptr, len) := bt_get t idx in
  let* _ := assert_ (negb (len <? sizeofT)) in
  bt_read t ptr sizeofT.

(** The bytes of one blob. *)
Definition blob_bytes (t : BlobTable) (idx : Z) : res bytes :=
  let* '(ptr, len) := bt_get t idx in bt_read t ptr len.

Fixpoint restore_blobs (offset : Z) (lengths : list Z) : list (Z * Z) :=
  match lengths with
  | [] => []
  | len :: lengths => (offset, len) :: restore_blobs (offset + len) lengths
  end.

Definition bt_restore (t : BlobTable) (raw : bytes) (lengths : list Z) : res BlobTable :=
  let* t1 := bt_write t 0 raw in
  Ok (mkBlobTable (bt_blobs t1 ++ restore_blobs 0 lengths) (bt_data t1) (bt_cap t1)).

(** ** PropertyData *)

(** The doubles are kept as their 64-bit patterns.  [pd_blobs] lists the
    entries of the unordered map in its iteration order. *)
Record PropertyData := mkPropertyData {
  blobCapacity_ : Z;
  lst_i64_ : list Z;
  lst_ui64_ : list Z;
  lst_double_ : list Z;
  pd_blobs : list (Z * BlobTable);
}.

Definition newPropertyData : PropertyData := mkPropertyData (1024 * 1024) [] [] [] [].

Definition setBlobCapacity (d : PropertyData) (n : Z) : PropertyData :=
  mkPropertyData n (lst_i64_ d) (lst_ui64_ d) (lst_double_ d) (pd_blobs d).

(** [add_*] return the index of the pushed element as an int32. *)
Definition add_i64 (d : PropertyData) (v : Z) : PropertyData * Z :=
  (mkPropertyData (blobCapacity_ d) (lst_i64_ d ++ [v]) (lst_ui64_ d) (lst_double_ d) (pd_blobs d),
   i32 (Z.of_nat (length (lst_i64_ d)))).
Definition add_ui64 (d : PropertyData) (v : Z) : PropertyData * Z :=
  (mkPropertyData (blobCapacity_ d) (lst_i64_ d) (lst_ui64_ d ++ [v]) (lst_double_ d) (pd_blobs d),
   i32 (Z.of_nat (length (lst_ui64_ d)))).
Definition add_double (d : PropertyData) (v : Z) : PropertyData * Z :=
  (mkPropertyData (blobCapacity_ d) (lst_i64_ d) (lst_ui64_ d) (lst_double_ d ++ [v]) (pd_blobs d),
   i32 (Z.of_nat (length (lst_double_ d)))).
Definition get_i64_at (d : PropertyData) (idx : Z) : res Z := load (lst_i64_ d) idx.
Definition get_ui64_at (d : PropertyData) (idx : Z) : res Z := load (lst_ui64_ d) idx.
Definition get_double_at (d : PropertyData) (idx : Z) : res Z := load (lst_double_ d) idx.

(** Map access in the unordered map of tables. *)
Fixpoint tbl_find (t : Z) (m : list (Z * BlobTable)) : option BlobTable :=
  match m with
  | [] => None
  | (k, b) :: m => if k =? t then Some b else tbl_find t m
  end.
Fixpoint tbl_update (t : Z) (b : BlobTable) (m : list (Z * BlobTable)) : list (Z * BlobTable) :=
  match m with
  | [] => []
  | (k, b0) :: m => if k =? t then (k, b) :: m else (k, b0) :: tbl_update t b m
  end.
(** [insert] and [emplace] keep the mapped value of a key that is present. *)
Definition tbl_emplace (t : Z) (b : BlobTable) (m : list (Z * BlobTable)) : list (Z * BlobTable) :=
  match tbl_find t m with Some _ => m | None => m ++ [(t, b)] end.

(** [blobs_.at(t)] throws when there is no table. *)
Definition tbl_at (d : PropertyData) (t : Z) : res BlobTable :=
  match tbl_find t (pd_blobs d) with
  | Some b => Ok b
  | None => Fault (Thrown "out_of_range")
  end.
Definition set_tables (d : PropertyData) (m : list (Z * BlobTable)) : PropertyData :=
  mkPropertyData (blobCapacity_ d) (lst_i64_ d) (lst_ui64_ d) (lst_double_ d) m.

Definition get_blob (d : PropertyData) (t idx : Z) : res (Z * Z) :=
  let* b := tbl_at d t in bt_get b idx.
Definition add_blob (d : PropertyData) (t len : Z) : res (PropertyData * (Z * Z)) :=
  let d1 := match tbl_find t (pd_blobs d) with
            | Some _ => d
            | None => set_tables d (tbl_emplace t (newBlobTable (Z.max (blobCapacity_ d) len)) (pd_blobs d))
            end in
  let* b := tbl_at d1 t in
  let* '(b', r) := bt_alloc b len in
  Ok (set_tables d1 (tbl_update t b' (pd_blobs d1)), r).

(** The copy that follows [add_blob] in the callers, and the matching read. *)
Definition write_blob (d : PropertyData) (t off : Z) (bs : bytes) : res PropertyData :=
  let* b := tbl_at d t in
  let* b' := bt_write b off bs in
  Ok (set_tables d (tbl_update t b' (pd_blobs d))).
Definition read_blob (d : PropertyData) (t idx : Z) : res bytes :=
  let* b := tbl_at d t in blob_bytes b idx.

(** ** Serialisation *)

(** [writeVec]: the count as uint32, then the elements. *)
Definition put_vec64 (v : list Z) : bytes :=
  put_u32 (Z.of_nat (length v)) ++ concat (put_u64 <$> v).

Definition put_table (e : Z * BlobTable) : bytes :=
  let '(t, b) := e in
  put_u32 t ++ put_u32 (blobCount b) ++
  concat (put_u32 <$> (snd <$> bt_blobs b)) ++
  put_u64 (usedBytes b) ++ take (Z.to_nat (usedBytes b)) (bt_data b).

Definition pd_flush (d : PropertyData) : bytes :=
  put_vec64 (lst_i64_ d) ++ put_vec64 (lst_ui64_ d) ++ put_vec64 (lst_double_ d) ++
  put_u32 (Z.of_nat (length (pd_blobs d))) ++ concat (put_table <$> pd_blobs d).

(** [fread] of one object: at end of file the object keeps its value; a
    partial object is indeterminate. *)
Definition fread_or {A} (old : A) (get : reader A) : reader A := λ bs,
  match bs with [] => Ok (old, []) | _ => get bs end.

(** [readVec]: [resize(n)] keeps old elements or zero-fills, then the elements
    are overwritten as far as the file goes. *)
Fixpoint read_elems (n : nat) (old : list Z) (get : reader Z) : reader (list Z) := λ bs,
  match n with
  | O => Ok ([], bs)
  | S n =>
      let* '(x, bs) := fread_or (hd 0 old) get bs in
      let* '(xs, bs) := read_elems n (tl old) get bs in Ok (x :: xs, bs)
  end.
Definition get_vec64 (get : reader Z) (old : list Z) : reader (list Z) := λ bs,
  let* '(n, bs) := fread_or 0 get_u32 bs in read_elems (Z.to_nat n) old get bs.

Definition get_byte : reader byte := λ bs,
  let* '(b, bs) := take_bytes 1 bs in Ok (hd Byte.x00 b, bs).

(** One iteration of the table loop of [load]. *)
Definition get_table : reader (Z * BlobTable) := λ bs,
  let* '(typeVal, bs) := fread_or 0 get_u32 bs in
  let* '(blobCount, bs) := fread_or 0 get_u32 bs in
  let* '(lengths, bs) := get_many (fread_or 0 get_u32) (Z.to_nat blobCount) bs in
  let* '(used, bs) := fread_or 0 get_u64 bs in
  let* '(raw, bs) := get_many (fread_or Byte.x00 get_byte) (Z.to_nat used) bs in
  let* table := bt_restore (newBlobTable (Z.max used 1024)) raw lengths in
  Ok ((i32 typeVal, table), bs).

Definition pd_load (d : PropertyData) : reader PropertyData := λ bs,
  let* '(l1, bs) := get_vec64 get_i64 (lst_i64_ d) bs in
  let* '(l2, bs) := get_vec64 get_u64 (lst_ui64_ d) bs in
  let* '(l3, bs) := get_vec64 get_u64 (lst_double_ d) bs in
  let* '(typeCount, bs) := fread_or 0 get_u32 bs in
  let* '(ts, bs) := get_many get_table (Z.to_nat typeCount) bs in
  Ok (mkPropertyData (blobCapacity_ d) l1 l2 l3
        (foldl (λ m e, tbl_emplace (fst e) (snd e) m) (pd_blobs d) ts), bs).
