(* ===== verification/PropDataProofs.v ===== *)
(** * Property payload storage: invariants and round trips *)

From S2P Require Import Prelude Bytes PropData.
From Stdlib Require Import Strings.Byte.

(** ** The blob arena *)

Definition sum_len (ls : list Z) : Z := foldr Z.add 0 ls.

(** Blobs lie back to back from the start of the data and fit into it. *)
Record bt_wf (t : BlobTable) : Prop := {
  btw_layout : bt_blobs t = restore_blobs 0 (snd <$> bt_blobs t);
  btw_lens : Forall (λ e, 0 ≤ snd e) (bt_blobs t);
  btw_data : Z.of_nat (length (bt_data t)) = bt_cap t;
  btw_used : usedBytes t ≤ bt_cap t;
  btw_cap : bt_cap t < 2 ^ 64;
}.

Lemma sum_len_nonneg ls : Forall (λ z, 0 ≤ z) ls → 0 ≤ sum_len ls.
Proof. induction 1; simpl in *; lia. Qed.

Lemma restore_blobs_end off ls :
  blob_end (restore_blobs off ls) = match ls with [] => 0 | _ => off + sum_len ls end.
Proof.
  revert off. induction ls as [|l ls IH]; intros off; [done|]. unfold blob_end in *. simpl.
  destruct ls as [|l' ls]; [simpl; lia|].
  specialize (IH (off + l)). cbn [restore_blobs] in *. rewrite last_cons_cons, IH. simpl. lia.
Qed.

Lemma restore_blobs_app off l1 l2 :
  restore_blobs off (l1 ++ l2) = restore_blobs off l1 ++ restore_blobs (off + sum_len l1) l2.
Proof.
  revert off. induction l1 as [|l l1 IH]; intros off; simpl; [f_equal; lia|].
  rewrite IH. do 3 f_equal. lia.
Qed.

Lemma restore_blobs_lookup off ls i o l :
  Forall (λ z, 0 ≤ z) ls → restore_blobs off ls !! i = Some (o, l) →
  off ≤ o ∧ 0 ≤ l ∧ o + l ≤ off + sum_len ls.
Proof.
  intros Hls. revert off i. induction Hls as [|x ls Hx Hls IH]; intros off i; [done|].
  pose proof (sum_len_nonneg _ Hls). destruct i as [|i]; simpl.
  - intros [= <- <-]. lia.
  - intros Hi%IH. lia.
Qed.

Lemma bt_wf_used t : bt_wf t → usedBytes t = sum_len (snd <$> bt_blobs t) ∧ 0 ≤ usedBytes t.
Proof.
  intros Hw. assert (usedBytes t = sum_len (snd <$> bt_blobs t)) as E.
  { unfold usedBytes. rewrite (btw_layout _ Hw) at 1. rewrite restore_blobs_end. by destruct (snd <$> bt_blobs t). }
  split; [done|]. rewrite E. apply sum_len_nonneg, Forall_fmap, Hw.
Qed.

Lemma bt_wf_lookup t idx off len :
  bt_wf t → zget (bt_blobs t) idx = Some (off, len) → 0 ≤ off ∧ 0 ≤ len ∧ off + len ≤ usedBytes t.
Proof.
  intros Hw Hi. destruct (bt_wf_used _ Hw) as [Hu _]. rewrite Hu.
  unfold zget in Hi. destruct (0 <=? idx); [|done].
  rewrite (btw_layout _ Hw) in Hi. apply restore_blobs_lookup in Hi; [lia|].
  apply Forall_fmap, Hw.
Qed.

Lemma newBlobTable_wf cap : 0 ≤ cap < 2 ^ 64 → bt_wf (newBlobTable cap).
Proof. intros ?. split; simpl; try done; rewrite ?length_replicate; unfold usedBytes, blob_end; simpl; lia. Qed.

(** Appending a blob keeps the layout and returns the old end. *)
Lemma bt_alloc_wf t len t' off idx :
  bt_wf t → 0 ≤ len < 2 ^ 63 → bt_cap t < 2 ^ 63 → bt_alloc t len = Ok (t', (off, idx)) →
  bt_wf t' ∧ off = usedBytes t ∧ usedBytes t' = usedBytes t + len ∧
  idx = blobCount t ∧ bt_data t' = bt_data t ∧ bt_get t' idx = Ok (off, len).
Proof.
  intros Hw Hlen Hcap. unfold bt_alloc. destruct (bt_wf_used _ Hw) as [Hu Hu0].
  pose proof (btw_used _ Hw). fold (usedBytes t).
  destruct (Z.leb_spec (u64 (usedBytes t + len)) (bt_cap t)) as [Hfit|]; [|done]. simpl.
  unfold u64 in Hfit. rewrite wrap_u_id in Hfit by (unfold in_u; lia).
  destruct (_ <=? _); [|done]. simpl. intros [= <- <- <-].
  assert (usedBytes (mkBlobTable (bt_blobs t ++ [(usedBytes t, len)]) (bt_data t) (bt_cap t)) =
    usedBytes t + len) as Hend by (unfold usedBytes at 1, blob_end; simpl; by rewrite last_snoc).
  rewrite length_app; simpl. split_and!; try done.
  - split; simpl; [|apply Forall_app; split; [apply Hw|by repeat constructor; simpl; lia]|apply Hw|lia|apply Hw].
    rewrite fmap_app, restore_blobs_app, <- (btw_layout _ Hw), <- Hu. done.
  - unfold blobCount. lia.
  - unfold bt_get. apply load_Some. simpl.
    replace (Z.of_nat (length (bt_blobs t) + 1) - 1) with (Z.of_nat (length (bt_blobs t))) by lia.
    apply zget_app_end.
Qed.

Lemma bt_read_take t t' off len n :
  0 ≤ off → 0 ≤ len → off + len ≤ n → n ≤ Z.of_nat (length (bt_data t)) → n ≤ Z.of_nat (length (bt_data t')) →
  take (Z.to_nat n) (bt_data t') = take (Z.to_nat n) (bt_data t) →
  bt_read t' off len = bt_read t off len.
Proof.
  intros. unfold bt_read.
  destruct (Z.leb_spec 0 off), (Z.leb_spec 0 len); try lia.
  destruct (Z.leb_spec (off + len) (Z.of_nat (length (bt_data t)))),
    (Z.leb_spec (off + len) (Z.of_nat (length (bt_data t')))); try lia. simpl. f_equal.
  assert (∀ l : bytes, take (Z.to_nat len) (drop (Z.to_nat off) l) =
    take (Z.to_nat len) (drop (Z.to_nat off) (take (Z.to_nat n) l))) as Ht.
  { intros l. rewrite skipn_firstn_comm, take_take. f_equal. lia. }
  rewrite (Ht (bt_data t')), (Ht (bt_data t)). congruence.
Qed.

(** What is written into a blob is read back, and no other blob changes. *)
Lemma bt_write_read t off bs t' :
  bt_write t off bs = Ok t' → bt_read t' off (Z.of_nat (length bs)) = Ok bs.
Proof.
  unfold bt_write, bt_read.
  destruct (Z.leb_spec 0 off), (Z.leb_spec (off + Z.of_nat (length bs)) (Z.of_nat (length (bt_data t))));
    simpl; try done.
  intros [= <-]. simpl. rewrite !length_app, length_take, length_drop.
  destruct (Z.leb_spec 0 (Z.of_nat (length bs))); [|lia].
  destruct (Z.leb_spec (off + Z.of_nat (length bs))
    (Z.of_nat (Z.to_nat off `min` length (bt_data t) + (length bs + (length (bt_data t) - (Z.to_nat off + length bs)))))); [|lia].
  simpl. f_equal. rewrite Nat2Z.id. rewrite drop_app_ge by (rewrite length_take; lia).
  rewrite length_take. replace (Z.to_nat off - _)%nat with 0%nat by lia. rewrite drop_0.
  by rewrite take_app_length.
Qed.

Lemma bt_write_frame t off bs t' n :
  bt_write t off bs = Ok t' → 0 ≤ n ≤ off →
  take (Z.to_nat n) (bt_data t') = take (Z.to_nat n) (bt_data t) ∧
  bt_blobs t' = bt_blobs t ∧ bt_cap t' = bt_cap t ∧ length (bt_data t') = length (bt_data t).
Proof.
  unfold bt_write. 
  destruct (Z.leb_spec 0 off), (Z.leb_spec (off + Z.of_nat (length bs)) (Z.of_nat (length (bt_data t))));
    simpl; try done.
  intros [= <-] Hn. simpl. split_and!; try done.
  - rewrite take_app_le by (rewrite length_take; lia). rewrite take_take. f_equal. lia.
  - rewrite !length_app, length_take, length_drop. lia.
Qed.

(** ** Serialised form *)

Lemma fread_or_reads {A} (P : A → Prop) put (get : reader A) (old : A) :
  reads P put get → (∀ x, P x → put x ≠ []) → reads P put (fread_or old get).
Proof.
  intros Hr Hne x rest Hx. unfold fread_or. destruct (put x ++ rest) eqn:E.
  - apply app_eq_nil in E as [E _]. by destruct (Hne x Hx).
  - rewrite <- E. by apply Hr.
Qed.

Lemma le_bytes_nonempty n z : (0 < n)%nat → le_bytes n z ≠ [].
Proof. destruct n; [lia|done]. Qed.

Lemma fread_u32_reads old : reads (in_u 32) put_u32 (fread_or old get_u32).
Proof. apply fread_or_reads; [exact (get_uint_reads 4)|intros; by apply le_bytes_nonempty; lia]. Qed.
Lemma fread_u64_reads old : reads (in_u 64) put_u64 (fread_or old get_u64).
Proof. apply fread_or_reads; [exact (get_uint_reads 8)|intros; by apply le_bytes_nonempty; lia]. Qed.
Lemma fread_i64_reads old : reads (in_s 64) put_u64 (fread_or old get_i64).
Proof. apply fread_or_reads; [exact (get_sint_reads 8 ltac:(lia))|intros; by apply le_bytes_nonempty; lia]. Qed.

Lemma get_byte_reads old : reads (λ _, True) (λ b, [b]) (fread_or old get_byte).
Proof. apply fread_or_reads; [|done]. intros b rest _. unfold get_byte. by rewrite (take_bytes_app [b]). Qed.

Lemma concat_singletons (bs : bytes) : concat ((λ b, [b]) <$> bs) = bs.
Proof. induction bs as [|b bs IH]; [done|]. rewrite fmap_cons. cbn [concat]. by rewrite IH. Qed.

Lemma read_elems_reads (P : Z → Prop) put get xs old rest :
  (∀ o, reads P put (fread_or o get)) → Forall P xs →
  read_elems (length xs) old get (concat (put <$> xs) ++ rest) = Ok (xs, rest).
Proof.
  intros Hr Hxs. revert old. induction Hxs as [|x xs Hx Hxs IH]; intros old; [done|].
  rewrite fmap_cons. cbn [length read_elems concat]. rewrite <- app_assoc, Hr by done.
  cbn [res_bind]. by rewrite IH.
Qed.

Lemma get_vec64_reads (P : Z → Prop) get xs old rest :
  (∀ o, reads P put_u64 (fread_or o get)) → Forall P xs → Z.of_nat (length xs) < 2 ^ 32 →
  get_vec64 get old (put_vec64 xs ++ rest) = Ok (xs, rest).
Proof.
  intros Hr Hxs Hn. unfold get_vec64, put_vec64. rewrite <- app_assoc.
  rewrite fread_u32_reads by (unfold in_u; lia). cbn [res_bind]. rewrite Nat2Z.id.
  by eapply read_elems_reads.
Qed.

(** A table whose counts and lengths fit the file format. *)
Record bt_storable (t : BlobTable) : Prop := {
  bts_wf : bt_wf t;
  bts_lens : Forall (λ e, snd e < 2 ^ 32) (bt_blobs t);
  bts_count : blobCount t < 2 ^ 32;
}.

(** The table [load] builds from the serialised form of [t]. *)
Definition restored (t : BlobTable) : BlobTable :=
  let u := usedBytes t in
  mkBlobTable (bt_blobs t)
    (take (Z.to_nat u) (bt_data t) ++ drop (Z.to_nat u) (replicate (Z.to_nat (Z.max u 1024)) Byte.x00))
    (Z.max u 1024).

Lemma get_table_reads k t rest :
  bt_storable t → in_s 32 k → get_table (put_table (k, t) ++ rest) = Ok ((k, restored t), rest).
Proof.
  intros [Hw Hl Hc] Hk. destruct (bt_wf_used _ Hw) as [Hu Hu0]. pose proof (btw_used _ Hw) as Hcap.
  pose proof (btw_cap _ Hw). pose proof (btw_data _ Hw) as Hd.
  unfold get_table, put_table. rewrite <- !app_assoc.
  assert (put_u32 k = put_u32 (wrap_u 32 k)) as ->.
  { unfold put_u32. rewrite <- (le_bytes_val (le_bytes 4 k)), length_le_bytes, le_val_bytes. done. }
  rewrite fread_u32_reads by (apply wrap_u_range; lia). cbn [res_bind].
  rewrite fread_u32_reads by (unfold in_u, blobCount in *; lia). cbn [res_bind].
  unfold blobCount. rewrite Nat2Z.id, <- (length_fmap snd (bt_blobs t)).
  rewrite (get_many_reads (in_u 32) put_u32); [|apply fread_u32_reads|]. 2:{
    apply Forall_fmap. pose proof (btw_lens _ Hw). rewrite Forall_forall in *. unfold in_u; simpl. naive_solver. }
  cbn [res_bind]. rewrite fread_u64_reads by (unfold in_u; lia). cbn [res_bind].
  set (raw := take (Z.to_nat (usedBytes t)) (bt_data t)).
  assert (length raw = Z.to_nat (usedBytes t)) as Hraw by (unfold raw; rewrite length_take; lia).
  pose proof (get_many_reads (λ _, True) (λ b, [b]) _ raw rest (get_byte_reads Byte.x00)
    (Forall_true _ _ (λ _, I))) as Hg.
  rewrite concat_singletons, Hraw in Hg. rewrite Hg. cbn [res_bind].
  unfold bt_restore, bt_write. simpl. rewrite length_replicate, Hraw.
  destruct (Z.leb_spec (0 + Z.of_nat (Z.to_nat (usedBytes t)))
    (Z.of_nat (Z.to_nat (Z.max (usedBytes t) 1024)))); [|lia].
  simpl. rewrite <- (btw_layout _ Hw). unfold i32. by rewrite wrap_s_u by (done || lia).
Qed.

Lemma restored_blob t idx : bt_storable t → blob_bytes (restored t) idx = blob_bytes t idx.
Proof.
  intros [Hw _ _]. unfold blob_bytes, bt_get, load. simpl.
  destruct (zget (bt_blobs t) idx) as [[off len]|] eqn:Hi; simpl; [|done].
  destruct (bt_wf_lookup _ _ _ _ Hw Hi) as (? & ? & ?). pose proof (btw_used _ Hw). pose proof (btw_data _ Hw).
  assert (length (take (Z.to_nat (usedBytes t)) (bt_data t)) = Z.to_nat (usedBytes t)) as Hlen
    by (rewrite length_take; lia).
  apply bt_read_take with (usedBytes t); [lia..| |]; simpl.
  - rewrite length_app, Hlen. lia.
  - rewrite take_app_le by lia. rewrite take_take. f_equal. lia.
Qed.

(** Everything in the data fits the file format, and map keys are distinct. *)
Record pd_storable (d : PropertyData) : Prop := {
  pds_i64 : Forall (in_s 64) (lst_i64_ d);
  pds_ui64 : Forall (in_u 64) (lst_ui64_ d);
  pds_double : Forall (in_u 64) (lst_double_ d);
  pds_counts : Z.of_nat (length (lst_i64_ d)) < 2 ^ 32 ∧ Z.of_nat (length (lst_ui64_ d)) < 2 ^ 32 ∧
    Z.of_nat (length (lst_double_ d)) < 2 ^ 32 ∧ Z.of_nat (length (pd_blobs d)) < 2 ^ 32;
  pds_keys : NoDup (fst <$> pd_blobs d);
  pds_tables : Forall (λ e, in_s 32 (fst e) ∧ bt_storable (snd e)) (pd_blobs d);
}.

Lemma tbl_find_app t m1 m2 :
  tbl_find t (m1 ++ m2) = match tbl_find t m1 with Some b => Some b | None => tbl_find t m2 end.
Proof. induction m1 as [|[k b] m1 IH]; simpl; [done|]. by destruct (k =? t). Qed.

Lemma tbl_find_None t m : tbl_find t m = None ↔ t ∉ fst <$> m.
Proof.
  induction m as [|[k b] m IH]; simpl; [set_solver|].
  destruct (Z.eqb_spec k t); set_solver.
Qed.

Lemma emplace_all m ts :
  NoDup (fst <$> (m ++ ts)) → foldl (λ m e, tbl_emplace (fst e) (snd e) m) m ts = m ++ ts.
Proof.
  revert m. induction ts as [|[k b] ts IH]; intros m Hnd; simpl; [by rewrite app_nil_r|].
  assert (tbl_find k m = None) as Hk.
  { apply tbl_find_None. rewrite fmap_app in Hnd. apply NoDup_app in Hnd as (_ & Hd & _).
    intros Hin. apply (Hd k Hin). simpl. left. }
  unfold tbl_emplace at 2. simpl. rewrite Hk, IH; rewrite <- app_assoc; done.
Qed.

Lemma tbl_find_restored t m :
  tbl_find t ((λ e, (fst e, restored (snd e))) <$> m) = restored <$> tbl_find t m.
Proof. induction m as [|[k b] m IH]; simpl; [done|]. by destruct (k =? t). Qed.

Lemma tbl_find_elem t m b : tbl_find t m = Some b → (t, b) ∈ m.
Proof.
  induction m as [|[k b'] m IH]; simpl; [done|]. destruct (Z.eqb_spec k t) as [->|].
  - intros [= ->]. left.
  - intros ?%IH. by right.
Qed.

(** Loading the flushed data into empty property data. *)
Lemma pd_load_flush d cap rest :
  pd_storable d →
  pd_load (mkPropertyData cap [] [] [] []) (pd_flush d ++ rest) =
    Ok (mkPropertyData cap (lst_i64_ d) (lst_ui64_ d) (lst_double_ d)
          ((λ e, (fst e, restored (snd e))) <$> pd_blobs d), rest).
Proof.
  intros [H1 H2 H3 (Hc1 & Hc2 & Hc3 & Hc4) Hk Ht]. unfold pd_load, pd_flush. rewrite <- !app_assoc.
  rewrite (get_vec64_reads (in_s 64)) by (done || apply fread_i64_reads). cbn [res_bind].
  rewrite (get_vec64_reads (in_u 64)) by (done || apply fread_u64_reads). cbn [res_bind].
  rewrite (get_vec64_reads (in_u 64)) by (done || apply fread_u64_reads). cbn [res_bind].
  rewrite fread_u32_reads by (unfold in_u; lia). cbn [res_bind]. rewrite Nat2Z.id.
  assert (get_many get_table (length (pd_blobs d)) (concat (put_table <$> pd_blobs d) ++ rest) =
    Ok ((λ e, (fst e, restored (snd e))) <$> pd_blobs d, rest)) as ->.
  { clear Hk Hc4. induction Ht as [|[k b] m [Hkr Hb] _ IH]; [done|].
    rewrite !fmap_cons. cbn [length get_many concat]. rewrite <- app_assoc.
    rewrite get_table_reads by done. cbn [res_bind]. by rewrite IH. }
  cbn [res_bind pd_blobs blobCapacity_]. rewrite emplace_all; [done|].
  simpl. rewrite <- list_fmap_compose. exact Hk.
Qed.

Lemma restored_read_blob d cap t idx :
  pd_storable d →
  read_blob (mkPropertyData cap (lst_i64_ d) (lst_ui64_ d) (lst_double_ d)
               ((λ e, (fst e, restored (snd e))) <$> pd_blobs d)) t idx = read_blob d t idx.
Proof.
  intros Hs. unfold read_blob, tbl_at. simpl. rewrite tbl_find_restored.
  destruct (tbl_find t (pd_blobs d)) as [b|] eqn:Hb; simpl; [|done].
  apply restored_blob. pose proof (pds_tables _ Hs) as Ht. rewrite Forall_forall in Ht.
  by apply (Ht (t, b)), tbl_find_elem.
Qed.

(** ** Appending a blob *)

Record pd_wf (d : PropertyData) : Prop := {
  pdw_cap : 0 ≤ blobCapacity_ d < 2 ^ 63;
  pdw_tables : ∀ t b, tbl_find t (pd_blobs d) = Some b → bt_wf b ∧ bt_cap b < 2 ^ 63;
}.

Lemma tbl_find_update t b m t' :
  tbl_find t' (tbl_update t b m) =
    if decide (t' = t) then (λ _, b) <$> tbl_find t m else tbl_find t' m.
Proof.
  induction m as [|[k b0] m IH]; simpl; [by case_decide|].
  destruct (Z.eqb_spec k t) as [->|Hk]; simpl.
  - destruct (Z.eqb_spec t t') as [->|]; [by rewrite decide_True|]. by rewrite decide_False by congruence.
  - destruct (Z.eqb_spec k t') as [->|]; [by rewrite decide_False|]. apply IH.
Qed.

Lemma tbl_find_emplace t b m t' :
  tbl_find t m = None →
  tbl_find t' (tbl_emplace t b m) = if decide (t' = t) then Some b else tbl_find t' m.
Proof.
  intros Hn. unfold tbl_emplace. rewrite Hn, tbl_find_app. simpl.
  destruct (Z.eqb_spec t t') as [->|]; [rewrite decide_True by done; by rewrite Hn|].
  rewrite decide_False by congruence. by destruct (tbl_find t' m).
Qed.

(** The table [add_blob] allocates from. *)
Definition table_for (d : PropertyData) (t len : Z) : BlobTable :=
  default (newBlobTable (Z.max (blobCapacity_ d) len)) (tbl_find t (pd_blobs d)).

Lemma add_blob_exec d t len :
  add_blob d t len =
    let* '(b', r) := bt_alloc (table_for d t len) len in
    Ok (set_tables d (tbl_update t b'
          (match tbl_find t (pd_blobs d) with
           | Some _ => pd_blobs d
           | None => tbl_emplace t (table_for d t len) (pd_blobs d)
           end)), r).
Proof.
  unfold add_blob, table_for, tbl_at. destruct (tbl_find t (pd_blobs d)) as [b|] eqn:Hf; simpl.
  - by rewrite Hf.
  - by rewrite tbl_find_emplace, decide_True by done.
Qed.

Lemma table_for_wf d t len :
  pd_wf d → 0 ≤ len < 2 ^ 63 → bt_wf (table_for d t len) ∧ bt_cap (table_for d t len) < 2 ^ 63.
Proof.
  intros [Hc Ht] Hlen. unfold table_for. destruct (tbl_find t (pd_blobs d)) as [b|] eqn:Hf; simpl.
  - by apply Ht in Hf.
  - split; [apply newBlobTable_wf|]; lia.
Qed.

(** A blob that could be read keeps its bytes when the table grows. *)
Lemma bt_append_frame b b1 b2 off idx bs i :
  bt_wf b → bt_blobs b1 = bt_blobs b ++ [(off, Z.of_nat (length bs))] → bt_data b1 = bt_data b →
  off = usedBytes b → bt_write b1 off bs = Ok b2 → is_ok (blob_bytes b i) → idx = blobCount b →
  blob_bytes b2 i = blob_bytes b i.
Proof.
  intros Hw Hbl Hdt Hoff Hwr [x Hx] ->. destruct (bt_wf_used _ Hw) as [_ Hu0].
  destruct (bt_write_frame _ _ _ _ (usedBytes b) Hwr) as (Ht & Hb2 & _ & Hlen); [lia|].
  unfold blob_bytes, bt_get, load in *. rewrite Hb2, Hbl.
  destruct (zget (bt_blobs b) i) as [[o l]|] eqn:Hi; [|done]. simpl in *.
  rewrite zget_app_l by (apply zget_lt in Hi; lia). rewrite Hi. cbn [res_bind].
  destruct (bt_wf_lookup _ _ _ _ Hw Hi) as (? & ? & ?). pose proof (btw_used _ Hw). pose proof (btw_data _ Hw).
  apply bt_read_take with (usedBytes b); [lia..| |].
  - rewrite Hlen, Hdt. lia.
  - by rewrite Ht, Hdt.
Qed.

Lemma bt_alloc_blobs t len t' r :
  bt_alloc t len = Ok (t', r) → bt_blobs t' = bt_blobs t ++ [(usedBytes t, len)] ∧
    bt_data t' = bt_data t ∧ bt_cap t' = bt_cap t.
Proof.
  unfold bt_alloc. destruct (_ <=? _); [|done]. cbn [assert_ res_bind]. destruct (_ <=? _); [|done].
  cbn [assert_ res_bind]. by intros [= <- <-].
Qed.

(** The write that follows an allocation stays inside the table. *)
Lemma bt_alloc_write b bs b1 off idx :
  bt_wf b → bt_cap b < 2 ^ 63 → Z.of_nat (length bs) < 2 ^ 63 →
  bt_alloc b (Z.of_nat (length bs)) = Ok (b1, (off, idx)) →
  ∃ b2, bt_write b1 off bs = Ok b2 ∧ bt_wf b2 ∧ bt_cap b2 < 2 ^ 63 ∧ blob_bytes b2 idx = Ok bs ∧
    ∀ i, is_ok (blob_bytes b i) → blob_bytes b2 i = blob_bytes b i.
Proof.
  intros Hw Hc Hl Ha. destruct (bt_wf_used _ Hw) as [_ Hu0].
  destruct (bt_alloc_wf _ _ _ _ _ Hw (conj (Nat2Z.is_nonneg _) Hl) Hc Ha) as (Hw1 & -> & Hu & Hidx & Hd & Hg).
  destruct (bt_alloc_blobs _ _ _ _ Ha) as (Hb1 & _ & Hc1).
  pose proof (btw_used _ Hw1). pose proof (btw_data _ Hw1).
  destruct (bt_write b1 (usedBytes b) bs) as [b2|] eqn:Hwr.
  2: { unfold bt_write in Hwr.
       destruct (Z.leb_spec 0 (usedBytes b)), (Z.leb_spec (usedBytes b + Z.of_nat (length bs)) (Z.of_nat (length (bt_data b1))));
         simpl in Hwr; done || lia. }
  destruct (bt_write_frame _ _ _ _ 0 Hwr) as (_ & Hb2 & Hc2 & Hlen); [lia|].
  exists b2. split_and!; [done| |lia| |].
  - destruct Hw1 as [? ? ? ? ?]. split; rewrite ?Hb2, ?Hc2, ?Hlen; try done. unfold usedBytes in *. by rewrite Hb2.
  - pose proof (bt_write_read _ _ _ _ Hwr) as Hr. unfold blob_bytes, bt_get in *. rewrite Hb2, Hg. done.
  - intros i Hi. by eapply (bt_append_frame b b1 b2).
Qed.

(** The tables after [add_blob] and the write into the new blob. *)
Lemma add_write_blob d t bs d1 off idx :
  pd_wf d → Z.of_nat (length bs) < 2 ^ 63 → add_blob d t (Z.of_nat (length bs)) = Ok (d1, (off, idx)) →
  ∃ d2 b2, write_blob d1 t off bs = Ok d2 ∧
    blobCapacity_ d2 = blobCapacity_ d ∧
    (∀ t', tbl_find t' (pd_blobs d2) = if decide (t' = t) then Some b2 else tbl_find t' (pd_blobs d)) ∧
    bt_wf b2 ∧ bt_cap b2 < 2 ^ 63 ∧ blob_bytes b2 idx = Ok bs ∧
    ∀ i, is_ok (blob_bytes (table_for d t (Z.of_nat (length bs))) i) →
      blob_bytes b2 i = blob_bytes (table_for d t (Z.of_nat (length bs))) i.
Proof.
  intros Hw Hl Ha. destruct (table_for_wf d t (Z.of_nat (length bs)) Hw) as [Hw0 Hc0]; [lia|].
  rewrite add_blob_exec in Ha. apply res_bind_ok in Ha as ([b1 r] & Hal & [= <- ->]).
  destruct (bt_alloc_write _ _ _ _ _ Hw0 Hc0 Hl Hal) as (b2 & Hwr & Hw2 & Hc2 & Hr2 & Hf2).
  set (m := match tbl_find t (pd_blobs d) with Some _ => _ | None => _ end) in *.
  assert (∀ t', tbl_find t' m = if decide (t' = t) then Some (table_for d t (Z.of_nat (length bs))) else tbl_find t' (pd_blobs d)) as Hm.
  { intros t'. unfold m, table_for. destruct (tbl_find t (pd_blobs d)) as [b|] eqn:Hf; simpl.
    - case_decide; [|done]. subst t'. by rewrite Hf.
    - by apply tbl_find_emplace. }
  unfold write_blob, tbl_at. simpl. rewrite tbl_find_update, Hm. rewrite !decide_True by done. simpl. rewrite Hwr. simpl.
  eexists _, b2. split; [done|]. split; [done|]. split; [|done]. intros t'. simpl.
  rewrite !tbl_find_update, !Hm. rewrite !(decide_True (P := t = t)) by done. simpl. by case_decide.
Qed.

Lemma append_blob d t bs d1 off idx :
  pd_wf d → Z.of_nat (length bs) < 2 ^ 63 →
  add_blob d t (Z.of_nat (length bs)) = Ok (d1, (off, idx)) →
  ∃ d2, write_blob d1 t off bs = Ok d2 ∧ pd_wf d2 ∧ read_blob d2 t idx = Ok bs ∧
    ∀ t' i, is_ok (read_blob d t' i) → read_blob d2 t' i = read_blob d t' i.
Proof.
  intros Hw Hl Ha. destruct (add_write_blob d t bs d1 off idx Hw Hl Ha) as (d2 & b2 & H2 & Hc2 & Hf2 & Hw2 & Hb2 & Hr2 & Hfr).
  exists d2. split; [done|]. split; [|split].
  - split; [rewrite Hc2; apply Hw|]. intros t' b'. rewrite Hf2. case_decide; [by intros [= <-]|apply Hw].
  - unfold read_blob, tbl_at. by rewrite Hf2, decide_True.
  - intros t' i. unfold read_blob, tbl_at. rewrite Hf2. case_decide as E; [subst t'|done].
    unfold table_for in Hfr. destruct (tbl_find t (pd_blobs d)) as [b|]; simpl in *; [apply Hfr|].
    by intros [? ?].
Qed.

(** ** Claims *)

(** [PropertyData::flush] followed by [PropertyData::load] restores the
    three value vectors and the bytes of every blob of every table, and
    consumes exactly the written bytes. *)
Theorem property_data_flush_load d :
  pd_storable d →
  ∃ d', pd_load newPropertyData (pd_flush d) = Ok (d', []) ∧
    lst_i64_ d' = lst_i64_ d ∧ lst_ui64_ d' = lst_ui64_ d ∧ lst_double_ d' = lst_double_ d ∧
    ∀ t idx, read_blob d' t idx = read_blob d t idx.
Proof.
  intros Hs. eexists. split.
  - rewrite <- (app_nil_r (pd_flush d)). by apply (pd_load_flush d (1024 * 1024) []).
  - split_and!; [done..|]. intros t idx. by apply restored_read_blob.
Qed.

(** Property data with one value of each kind and one blob. *)
Definition sample_table : BlobTable := mkBlobTable [(0, 3)] [Byte.x61; Byte.x62; Byte.x63; Byte.x00] 4.
Definition sample_data : PropertyData := mkPropertyData 4 [-5] [7] [9] [(11, sample_table)].

Lemma sample_data_storable : pd_storable sample_data.
Proof.
  split; simpl; try (repeat constructor; unfold in_s, in_u; lia).
  - apply NoDup_singleton.
  - repeat constructor; simpl; try (unfold in_s, blobCount, usedBytes, blob_end; simpl; lia); try done.
Qed.

Lemma property_data_flush_load_witness :
  ∃ d', pd_load newPropertyData (pd_flush sample_data) = Ok (d', []) ∧
    lst_i64_ d' = [-5] ∧ lst_ui64_ d' = [7] ∧ lst_double_ d' = [9] ∧
    ∀ t idx, read_blob d' t idx = read_blob sample_data t idx.
Proof. apply (property_data_flush_load sample_data), sample_data_storable. Defined.

(** Appending a blob: [add_blob] for as many bytes as the value has,
    followed by the copy into the returned place, keeps the tables well formed,
    reads back as the value under the returned index, and leaves the bytes of
    every blob that could be read before unchanged, in this and in every other
    table. *)
Theorem property_data_add_blob d t bs d1 off idx :
  pd_wf d → Z.of_nat (length bs) < 2 ^ 63 →
  add_blob d t (Z.of_nat (length bs)) = Ok (d1, (off, idx)) →
  ∃ d2, write_blob d1 t off bs = Ok d2 ∧ pd_wf d2 ∧ read_blob d2 t idx = Ok bs ∧
    ∀ t' i, is_ok (read_blob d t' i) → read_blob d2 t' i = read_blob d t' i.
Proof. apply append_blob. Qed.

Lemma sample_data_wf : pd_wf sample_data.
Proof.
  split; [simpl; lia|]. intros t b. cbn [sample_data pd_blobs tbl_find]. destruct (11 =? t); [|done]. intros [= <-].
  split; [|simpl; lia]. split; simpl; try done. repeat constructor; simpl; lia.
Qed.

Lemma property_data_add_blob_witness :
  ∃ d1 off idx d2, add_blob sample_data 11 1 = Ok (d1, (off, idx)) ∧ write_blob d1 11 off [Byte.x64] = Ok d2 ∧
    pd_wf d2 ∧ read_blob d2 11 idx = Ok [Byte.x64] ∧
    ∀ t' i, is_ok (read_blob sample_data t' i) → read_blob d2 t' i = read_blob sample_data t' i.
Proof.
  destruct (add_blob sample_data 11 1) as [[d1 [off idx]]|] eqn:Ha; [|vm_compute in Ha; discriminate Ha].
  exists d1, off, idx.
  destruct (property_data_add_blob sample_data 11 [Byte.x64] d1 off idx sample_data_wf ltac:(simpl; lia) Ha)
    as (d2 & ? & ? & ? & ?).
  exists d2. by split_and!.
Defined.

(** Reloading shrinks the tables: a table that held at least 1024 bytes
    comes back with exactly the capacity it uses, so the next [add_blob] of a
    non-empty value on the reloaded data stops at the capacity assertion,
    whatever the configured blob capacity is. *)
Theorem property_data_reload_is_full d cap t b len :
  pd_storable d → tbl_find t (pd_blobs d) = Some b → 1024 ≤ usedBytes b < 2 ^ 63 → 0 < len < 2 ^ 63 →
  ∃ d', pd_load (mkPropertyData cap [] [] [] []) (pd_flush d) = Ok (d', []) ∧
    add_blob d' t len = Fault AssertFailed.
Proof.
  intros Hs Hf Hu Hlen. eexists. split.
  - rewrite <- (app_nil_r (pd_flush d)). by apply (pd_load_flush d cap []).
  - rewrite add_blob_exec. unfold table_for. simpl. rewrite tbl_find_restored, Hf. simpl.
    unfold bt_alloc. simpl. fold (usedBytes b). unfold u64. rewrite wrap_u_id by (unfold in_u; lia).
    destruct (Z.leb_spec (usedBytes b + len) (Z.max (usedBytes b) 1024)); [lia|done].
Qed.

Definition full_table : BlobTable := mkBlobTable [(0, 1024)] (replicate 2048 Byte.x61) 2048.
Definition full_data : PropertyData := mkPropertyData 2048 [] [] [] [(11, full_table)].

Lemma property_data_reload_is_full_witness :
  is_ok (add_blob full_data 11 1) ∧
  ∃ d', pd_load (mkPropertyData 2048 [] [] [] []) (pd_flush full_data) = Ok (d', []) ∧
    add_blob d' 11 1 = Fault AssertFailed.
Proof.
  split; [eexists; vm_compute; reflexivity|].
  apply (property_data_reload_is_full full_data 2048 11 full_table 1); [|reflexivity|..].
  - split; simpl; try (repeat constructor; unfold in_s, in_u; lia); [apply NoDup_singleton|].
    repeat constructor; simpl; try (unfold in_s, blobCount, usedBytes, blob_end; simpl; lia); try done.
  - unfold usedBytes, blob_end. simpl. lia.
  - lia.
Defined.
