(* ===== verification/PropertyGraph.v ===== *)
(** * The property graph

    Model of [PropertyGraph] (include/gengodb/runtime/BuiltinGraphs.h and
    src/gengodb/runtime/BuiltinGraphs.cpp): a [Graph] whose node and
    relationship payloads are the heads of doubly linked chains in a third
    buffer of property records.  [SimpleGraph] and [AlignmentGraph_8x3_8x1],
    the other two built-in instances of [Graph], are at the end. *)

From S2P Require Import Prelude Dll Graph PropData.

(** [PropertyGraph::PropRecord] *)
Record PropRecord := mkProp {
  nextPropId : Z;
  prevPropId : Z;
  p_key : Z;
  p_type : Z;
  p_value : Z;
  p_inUse : bool;
}.

Record PropertyGraph := mkPG {
  graph_ : Graph Z Z;
  props_ : list PropRecord;
  propMark_ : Z;
  propCap_ : Z;
  freeProps_ : list Z;
  pg_nodeCap_ : Z;
  pg_relCap_ : Z;
  propData_ : PropertyData;
  persists_ : bool;
}.

Definition set_graph (pg : PropertyGraph) g :=
  mkPG g (props_ pg) (propMark_ pg) (propCap_ pg) (freeProps_ pg) (pg_nodeCap_ pg) (pg_relCap_ pg)
    (propData_ pg) (persists_ pg).
Definition set_props (pg : PropertyGraph) ps :=
  mkPG (graph_ pg) ps (propMark_ pg) (propCap_ pg) (freeProps_ pg) (pg_nodeCap_ pg) (pg_relCap_ pg)
    (propData_ pg) (persists_ pg).
Definition set_propAlloc (pg : PropertyGraph) mark fr :=
  mkPG (graph_ pg) (props_ pg) mark (propCap_ pg) fr (pg_nodeCap_ pg) (pg_relCap_ pg)
    (propData_ pg) (persists_ pg).
Definition set_propData (pg : PropertyGraph) d :=
  mkPG (graph_ pg) (props_ pg) (propMark_ pg) (propCap_ pg) (freeProps_ pg) (pg_nodeCap_ pg) (pg_relCap_ pg)
    d (persists_ pg).
Definition setPersists (pg : PropertyGraph) b :=
  mkPG (graph_ pg) (props_ pg) (propMark_ pg) (propCap_ pg) (freeProps_ pg) (pg_nodeCap_ pg) (pg_relCap_ pg)
    (propData_ pg) b.

Definition set_p_inUse (p : PropRecord) b :=
  mkProp (nextPropId p) (prevPropId p) (p_key p) (p_type p) (p_value p) b.
Definition set_prevProp (p : PropRecord) v :=
  mkProp (nextPropId p) v (p_key p) (p_type p) (p_value p) (p_inUse p).
Definition set_nextProp (p : PropRecord) v :=
  mkProp v (prevPropId p) (p_key p) (p_type p) (p_value p) (p_inUse p).
Definition set_p_value (p : PropRecord) v :=
  mkProp (nextPropId p) (prevPropId p) (p_key p) (p_type p) v (p_inUse p).

(** The constructor and [create]. *)
Definition pg_create (nodeCapacity relCapacity propCapacity : Z) : PropertyGraph :=
  mkPG (newGraph 0 0 nodeCapacity relCapacity)
       (replicate (Z.to_nat propCapacity) (mkProp 0 0 0 0 0 false))
       0 propCapacity [] nodeCapacity relCapacity
       (setBlobCapacity newPropertyData (Z.max (1024 * 1024) (u64 (u64 propCapacity * 256))))
       false.

Definition pg_prop (pg : PropertyGraph) (id : Z) : res PropRecord :=
  let* _ := assert_ ((0 <=? id) && (id <? propMark_ pg)) in load (props_ pg) id.

Definition newProp (pg : PropertyGraph) : res (PropertyGraph * Z) :=
  let* _ := assert_ (propMark_ pg <? propCap_ pg) in
  Ok (set_propAlloc pg (propMark_ pg + 1) (freeProps_ pg), propMark_ pg).

Definition pg_addNode (pg : PropertyGraph) : res (PropertyGraph * Z) :=
  let* '(g, id) := addNode (graph_ pg) GRAPH_NONE in
  let* n := node g id in
  Ok (set_graph pg (set_nodes g (zset (nodes_ g) id (set_n_inUse n true))), id).

Definition pg_addRelationship (pg : PropertyGraph) (from to ty : Z) : res (PropertyGraph * Z) :=
  let* '(g, id) := addRelationship (graph_ pg) from to ty GRAPH_NONE in
  Ok (set_graph pg g, id).

(** The loop that returns a chain of property records to the free list. *)
Fixpoint freeChain (fuel : nat) (pg : PropertyGraph) (p : Z) : res PropertyGraph :=
  match fuel with
  | O => Fault OutOfFuel
  | S fuel' =>
      if p =? GRAPH_NONE then Ok pg
      else
        let* rec := load (props_ pg) p in
        let pnext := nextPropId rec in
        let pg1 := set_props pg (zset (props_ pg) p (set_p_inUse rec false)) in
        freeChain fuel' (set_propAlloc pg1 (propMark_ pg1) (p :: freeProps_ pg1)) pnext
  end.

Definition propFuel (pg : PropertyGraph) : nat := S (Z.to_nat (propMark_ pg)).

(** Writing through [rel(id).payload] and [node(id).payload]. *)
Definition set_relPayload (pg : PropertyGraph) (id : Z) (r : RelEntry Z) (v : Z) : PropertyGraph :=
  set_graph pg (set_rels (graph_ pg) (zset (rels_ (graph_ pg)) id (set_r_payload r v))).
Definition set_nodePayload (pg : PropertyGraph) (id : Z) (n : NodeEntry Z) (v : Z) : PropertyGraph :=
  set_graph pg (set_nodes (graph_ pg) (zset (nodes_ (graph_ pg)) id (set_n_payload n v))).

(** The loop over the incident relationships in [removeNode]. *)
Fixpoint freeRelProps (fuel : nat) (pg : PropertyGraph) (nodeId cur : Z) : res PropertyGraph :=
  match fuel with
  | O => Fault OutOfFuel
  | S fuel' =>
      if cur =? GRAPH_NONE then Ok pg
      else
        let* r := rel (graph_ pg) cur in
        let next := nextOf nodeId r in
        let* pg1 := freeChain (propFuel pg) pg (r_payload r) in
        let* r1 := load (rels_ (graph_ pg1)) cur in
        freeRelProps fuel' (set_relPayload pg1 cur r1 GRAPH_NONE) nodeId next
  end.

Definition pg_removeNode (pg : PropertyGraph) (nodeId : Z) : res PropertyGraph :=
  let* n := node (graph_ pg) nodeId in
  let* pg1 := freeRelProps (S (Z.to_nat (relMark_ (graph_ pg)))) pg nodeId (firstRelId n) in
  let* n1 := load (nodes_ (graph_ pg1)) nodeId in
  let* pg2 := freeChain (propFuel pg1) pg1 (n_payload n1) in
  let* n2 := load (nodes_ (graph_ pg2)) nodeId in
  let pg3 := set_nodePayload pg2 nodeId n2 GRAPH_NONE in
  let* g := removeNode (graph_ pg3) nodeId in
  Ok (set_graph pg3 g).

Definition pg_removeRelationship (pg : PropertyGraph) (relId : Z) : res PropertyGraph :=
  let* r := rel (graph_ pg) relId in
  let* pg1 := freeChain (propFuel pg) pg (r_payload r) in
  let* g := removeRelationship (graph_ pg1) relId in
  Ok (set_graph pg1 g).

Definition allocProp (pg : PropertyGraph) : res (PropertyGraph * Z) :=
  match freeProps_ pg with
  | id :: fr => Ok (set_propAlloc pg (propMark_ pg) fr, id)
  | [] =>
      let* _ := assert_ (propMark_ pg <? propCap_ pg) in
      Ok (set_propAlloc pg (propMark_ pg + 1) [], propMark_ pg)
  end.

(** [addPropertyToChain]: the new head is the returned id. *)
Definition addPropertyToChain (pg : PropertyGraph) (chainHead k t v : Z) : res (PropertyGraph * Z) :=
  let* '(pg1, id) := allocProp pg in
  let* p := load (props_ pg1) id in
  let p' := mkProp chainHead GRAPH_NONE k t v true in
  let pg2 := set_props pg1 (zset (props_ pg1) id p') in
  if negb (chainHead =? GRAPH_NONE) then
    let* h := load (props_ pg2) chainHead in
    Ok (set_props pg2 (zset (props_ pg2) chainHead (set_prevProp h id)), id)
  else Ok (pg2, id).

Definition addNodeProperty (pg : PropertyGraph) (nodeId k t v : Z) : res (PropertyGraph * Z) :=
  let* n := node (graph_ pg) nodeId in
  let* '(pg1, id) := addPropertyToChain pg (n_payload n) k t v in
  Ok (set_nodePayload pg1 nodeId n id, id).

Definition addRelProperty (pg : PropertyGraph) (relId k t v : Z) : res (PropertyGraph * Z) :=
  let* r := rel (graph_ pg) relId in
  let* '(pg1, id) := addPropertyToChain pg (r_payload r) k t v in
  Ok (set_relPayload pg1 relId r id, id).

Definition setPropertyValue (pg : PropertyGraph) (id v : Z) : res PropertyGraph :=
  let* p := load (props_ pg) id in
  Ok (set_props pg (zset (props_ pg) id (set_p_value p v))).

(** [removeProperty] with the caller's chain head by reference: returns the
    new graph and the new head. *)
Definition removeProperty (pg : PropertyGraph) (id chainHead : Z) : res (PropertyGraph * Z) :=
  let* p := load (props_ pg) id in
  let* _ := assert_ (p_inUse p) in
  let* '(pg1, chainHead1) :=
    if negb (prevPropId p =? GRAPH_NONE) then
      let* q := load (props_ pg) (prevPropId p) in
      Ok (set_props pg (zset (props_ pg) (prevPropId p) (set_nextProp q (nextPropId p))), chainHead)
    else Ok (pg, nextPropId p) in
  let* p1 := load (props_ pg1) id in
  let* pg2 :=
    if negb (nextPropId p1 =? GRAPH_NONE) then
      let* q := load (props_ pg1) (nextPropId p1) in
      Ok (set_props pg1 (zset (props_ pg1) (nextPropId p1) (set_prevProp q (prevPropId p1))))
    else Ok pg1 in
  let* p2 := load (props_ pg2) id in
  let pg3 := set_props pg2 (zset (props_ pg2) id (set_p_inUse p2 false)) in
  Ok (set_propAlloc pg3 (propMark_ pg3) (id :: freeProps_ pg3), chainHead1).

Definition pg_clear (pg : PropertyGraph) : PropertyGraph :=
  set_propAlloc (set_graph pg (clear (graph_ pg))) 0 [].

(** Following a property chain from its head, as the clients of
    [getNodePropertyLListHeadOf] do, and reading every record. *)
Fixpoint read_chain (fuel : nat) (ps : list PropRecord) (cur : Z) : res (list (Z * (Z * Z * Z))) :=
  match fuel with
  | O => Fault OutOfFuel
  | S fuel' =>
      if cur =? GRAPH_NONE then Ok []
      else
        let* p := load ps cur in
        let* l := read_chain fuel' ps (nextPropId p) in
        Ok ((cur, (p_key p, p_type p, p_value p)) :: l)
  end.
Definition node_properties (pg : PropertyGraph) (n : Z) : res (list (Z * (Z * Z * Z))) :=
  let* e := node (graph_ pg) n in read_chain (propFuel pg) (props_ pg) (n_payload e).
Definition rel_properties (pg : PropertyGraph) (k : Z) : res (list (Z * (Z * Z * Z))) :=
  let* r := rel (graph_ pg) k in read_chain (propFuel pg) (props_ pg) (r_payload r).

(** ** SimpleGraph: 64-bit payloads *)
Module SimpleGraph.
Definition t := Graph Z Z.
Definition create (nodeCapacity relCapacity : Z) : t := newGraph 0 0 nodeCapacity relCapacity.
Definition addNode (g : t) (value : Z) : res (t * Z) := Graph.addNode g value.
Definition addRelationship (g : t) (from to value : Z) : res (t * Z) :=
  Graph.addRelationship g from to 0 value.
Definition removeNode (g : t) (id : Z) : res t := Graph.removeNode g id.
Definition removeRelationship (g : t) (id : Z) : res t := Graph.removeRelationship g id.
Definition setNodeValue (g : t) (id v : Z) : res t :=
  let* n := node g id in Ok (set_nodes g (zset (nodes_ g) id (set_n_payload n v))).
Definition getNodeValue (g : t) (id : Z) : res Z :=
  let* n := node g id in Ok (n_payload n).
Definition setRelValue (g : t) (id v : Z) : res t :=
  let* r := rel g id in Ok (set_rels g (zset (rels_ g) id (set_r_payload r v))).
Definition getRelValue (g : t) (id : Z) : res Z :=
  let* r := rel g id in Ok (r_payload r).
Definition clear (g : t) : t := Graph.clear g.
End SimpleGraph.

(** ** AlignmentGraph_8x3_8x1: three 64-bit words per node *)
Module AlignmentGraph.
Record Payload := mkPayload { pl_a : Z; pl_b : Z; pl_c : Z }.
Definition t := Graph Payload Z.
Definition create (nodeCapacity relCapacity : Z) : t :=
  newGraph (mkPayload 0 0 0) 0 nodeCapacity relCapacity.
Definition addNode (g : t) : res (t * Z) := Graph.addNode g (mkPayload 0 0 0).
Definition addRelationship (g : t) (from to : Z) : res (t * Z) :=
  Graph.addRelationship g from to 0 0.
Definition removeNode (g : t) (id : Z) : res t := Graph.removeNode g id.
Definition removeRelationship (g : t) (id : Z) : res t := Graph.removeRelationship g id.
Definition clear (g : t) : t := Graph.clear g.
End AlignmentGraph.
