(* ===== verification/PropStore.v ===== *)
(** * The property records of a property graph

    [PStore] is the invariant of the buffer of property records: every owner
    (a node or a relationship) has a chain of records, the chains are disjoint,
    and the records in no chain are exactly the free ones.  The lemmas say what
    [addPropertyToChain], [removeProperty] and the freeing loop do to it. *)

From S2P Require Import Prelude Dll Graph PropData PropertyGraph.

(** An owner of properties: a node or a relationship. *)
Abbreviation owner := (Z + Z)%type.
(** Key, type and value of a property, as the record stores them. *)
Abbreviation propval := (Z * Z * Z)%type.

Definition val_of (p : PropRecord) : propval := (p_key p, p_type p, p_value p).
Definition live_prop (p : PropRecord) : Prop := p_inUse p = true.
Definition prop_chain := chain prevPropId nextPropId live_prop.

(** The properties of every owner, in chain order: record id and content. *)
Abbreviation props_of := (gmap owner (list (Z * propval))).
Definition ids (l : list (Z * propval)) : list Z := l.*1.
Definition head (l : list (Z * propval)) : Z := hdd GRAPH_NONE (ids l).
Definition owned (L : props_of) (i : Z) : Prop := ∃ o l, L !! o = Some l ∧ i ∈ ids l.

Record PStore (pg : PropertyGraph) (L : props_of) : Prop := {
  ps_len : Z.of_nat (length (props_ pg)) = propCap_ pg;
  ps_pool : pool (propMark_ pg) (propCap_ pg) (freeProps_ pg) (owned L);
  ps_chain : ∀ o l, L !! o = Some l → NoDup (ids l) ∧ prop_chain (props_ pg) (head l) (ids l);
  ps_vals : ∀ o l i v, L !! o = Some l → (i, v) ∈ l →
    ∃ p, zget (props_ pg) i = Some p ∧ val_of p = v;
  ps_disj : ∀ o o' l l' i, L !! o = Some l → L !! o' = Some l' → i ∈ ids l → i ∈ ids l' → o = o';
}.

Definition prop_room (pg : PropertyGraph) : Prop :=
  pool_room (propMark_ pg) (propCap_ pg) (freeProps_ pg).

Lemma ids_elem l i : i ∈ ids l ↔ ∃ v, (i, v) ∈ l.
Proof.
  unfold ids. rewrite list_elem_of_fmap. split; [intros ([j v] & -> & ?); eauto|intros [v ?]].
  by exists (i, v).
Qed.

Lemma ids_app l1 l2 : ids (l1 ++ l2) = ids l1 ++ ids l2.
Proof. apply fmap_app. Qed.

Lemma owned_insert L o l i :
  owned (<[o := l]> L) i ↔ i ∈ ids l ∨ ∃ o' l', o' ≠ o ∧ L !! o' = Some l' ∧ i ∈ ids l'.
Proof.
  unfold owned. split.
  - intros (o' & l' & Hl & Hi). rewrite lookup_insert in Hl. case_decide; naive_solver.
  - intros [Hi|(o' & l' & ? & ? & ?)]; [exists o, l|exists o', l'].
    + by rewrite lookup_insert_eq.
    + by rewrite lookup_insert_ne.
Qed.

Lemma owned_disj pg L o l i :
  PStore pg L → L !! o = Some l → i ∈ ids l →
  ¬ ∃ o' l', o' ≠ o ∧ L !! o' = Some l' ∧ i ∈ ids l'.
Proof. intros HP Ho Hi (o' & l' & Hne & Ho' & Hi'). apply Hne. by eapply ps_disj. Qed.

Lemma owned_owner pg L o l i :
  PStore pg L → L !! o = Some l → (∃ o' l', o' ≠ o ∧ L !! o' = Some l' ∧ i ∈ ids l') ↔ owned L i ∧ i ∉ ids l.
Proof.
  intros HP Ho. split.
  - intros (o' & l' & Hne & Ho' & Hi). split; [by exists o', l'|]. intros Hi'. apply Hne. by eapply ps_disj.
  - intros [(o' & l' & Ho' & Hi) Hni]. exists o', l'. split_and!; [|done..]. intros ->. by simplify_eq.
Qed.

(** ** Changing the chain of one owner

    The proof obligations of an update that gives owner [o] the new list [l]:
    its own chain and contents, and that other chains keep their links. *)
Lemma PStore_update pg pg' L o l0 l :
  PStore pg L → L !! o = Some l0 →
  Z.of_nat (length (props_ pg')) = propCap_ pg' →
  pool (propMark_ pg') (propCap_ pg') (freeProps_ pg') (λ i, i ∈ ids l ∨ (owned L i ∧ i ∉ ids l0)) →
  NoDup (ids l) → prop_chain (props_ pg') (head l) (ids l) →
  (∀ i v, (i, v) ∈ l → ∃ p, zget (props_ pg') i = Some p ∧ val_of p = v) →
  (∀ i, owned L i → i ∉ ids l0 → zget (props_ pg') i = zget (props_ pg) i ∧ i ∉ ids l) →
  PStore pg' (<[o := l]> L).
Proof.
  intros HP Ho Hlen Hpool Hnd Hch Hv Hfr. pose proof (λ i, owned_owner _ _ _ _ i HP Ho) as Hoth.
  assert (∀ o' l' i, o' ≠ o → L !! o' = Some l' → i ∈ ids l' → 
    zget (props_ pg') i = zget (props_ pg) i ∧ i ∉ ids l) as Hother.
  { intros o' l' i Hne Ho' Hi. destruct (proj1 (Hoth i)) as [? ?]; [by eauto 10|]. by apply Hfr. }
  split; [done| | | |].
  - eapply pool_ext; [exact Hpool|]. intros i. by rewrite owned_insert, Hoth.
  - intros o' l'. rewrite lookup_insert. case_decide as E; [by intros [= <-]|].
    intros Ho'. destruct (ps_chain _ _ HP _ _ Ho') as [? Hc]. split; [done|].
    eapply dseg_frame; [|exact Hc]. intros i p Hi Hp Hl.
    destruct (Hother o' l' i) as [-> _]; eauto.
  - intros o' l' i v. rewrite lookup_insert. case_decide as E; [intros [= <-]; apply Hv|].
    intros Ho' Hi. destruct (Hother o' l' i) as [-> _]; [done..|apply ids_elem; eauto|].
    by eapply ps_vals.
  - intros o1 o2 l1 l2 i. rewrite !lookup_insert. repeat case_decide; simplify_eq; try done.
    + intros [= <-] Ho2 Hi1 Hi2. by destruct (Hother o2 l2 i) as [_ []].
    + intros Ho1 [= <-] Hi1 Hi2. by destruct (Hother o1 l1 i) as [_ []].
    + by eapply ps_disj.
Qed.

Lemma PStore_vals_insert pg L o l : PStore pg L → L !! o = Some l →
  ∀ i, i ∈ ids l → ∃ p, zget (props_ pg) i = Some p ∧ live_prop p.
Proof. intros HP Ho i Hi. destruct (ps_chain _ _ HP _ _ Ho) as [_ Hc]. by eapply dseg_elem. Qed.

Lemma PStore_live_slot pg L i : PStore pg L → 0 ≤ i < propMark_ pg → ∃ p, zget (props_ pg) i = Some p.
Proof.
  intros HP Hi. apply zget_is_Some. rewrite (ps_len _ _ HP).
  pose proof (pool_mark _ _ _ _ (ps_pool _ _ HP)). lia.
Qed.

(** Owners without properties come and go. *)
Lemma PStore_fresh pg L o : PStore pg L → L !! o = None → PStore pg (<[o := []]> L).
Proof.
  intros HP Ho. assert (∀ i, owned (<[o := []]> L) i ↔ owned L i) as Hw.
  { intros i. rewrite owned_insert. split; [intros [?|(o' & l' & ? & ? & ?)]; [set_solver|by exists o', l']|].
    intros (o' & l' & ? & ?). right. exists o', l'. split_and!; [congruence|done..]. }
  split; [apply HP| | | |].
  - eapply pool_ext; [apply HP|]. intros i. by rewrite Hw.
  - intros o' l'. rewrite lookup_insert. case_decide; [|apply HP].
    intros [= <-]. split; [constructor|apply chain_nil].
  - intros o' l' i v. rewrite lookup_insert. case_decide; [intros [= <-]; set_solver|apply HP].
  - intros o1 o2 l1 l2 i. rewrite !lookup_insert. repeat case_decide; intros ? ? ? ?; simplify_eq; try done.
    + set_solver.
    + set_solver.
    + by eapply ps_disj.
Qed.

Lemma PStore_drop pg L o : PStore pg L → L !! o = Some [] → PStore pg (delete o L).
Proof.
  intros HP Ho. split; [apply HP| | | |].
  - eapply pool_ext; [apply HP|]. intros i. split.
    + intros (o' & l' & Ho' & Hi). exists o', l'. rewrite lookup_delete_ne; [done|]. intros ->. 
      simplify_eq. set_solver.
    + intros (o' & l' & [_ ?]%lookup_delete_Some & ?). by exists o', l'.
  - intros o' l' [_ ?]%lookup_delete_Some. by eapply ps_chain.
  - intros o' l' i v [_ ?]%lookup_delete_Some. by eapply ps_vals.
  - intros o1 o2 l1 l2 i [_ ?]%lookup_delete_Some [_ ?]%lookup_delete_Some. by eapply ps_disj.
Qed.

(** ** addPropertyToChain *)

(** What the operations on property records leave alone. *)
Record same_frame (pg pg' : PropertyGraph) : Prop := {
  sf_graph : graph_ pg' = graph_ pg;
  sf_data : propData_ pg' = propData_ pg;
  sf_ncap : pg_nodeCap_ pg' = pg_nodeCap_ pg;
  sf_rcap : pg_relCap_ pg' = pg_relCap_ pg;
  sf_persists : persists_ pg' = persists_ pg;
}.

Lemma same_frame_refl pg : same_frame pg pg.
Proof. done. Qed.

Lemma same_frame_trans pg1 pg2 pg3 : same_frame pg1 pg2 → same_frame pg2 pg3 → same_frame pg1 pg3.
Proof. intros [] []. split; congruence. Qed.

Lemma allocProp_pool pg :
  allocProp pg = let* '(m, fr, id) := pool_alloc (propMark_ pg) (propCap_ pg) (freeProps_ pg) in
                 Ok (set_propAlloc pg m fr, id).
Proof. unfold allocProp, pool_alloc. destruct (freeProps_ pg); [|done]. by destruct (_ <? _). Qed.

(** Re-pointing the old head's back link, in one expression. *)
Definition link_back (ps : list PropRecord) (h id : Z) : list PropRecord :=
  match zget ps h with Some r => zset ps h (set_prevProp r id) | None => ps end.

Lemma zget_link_back ps h id i :
  zget (link_back ps h id) i = (λ r, if decide (i = h) then set_prevProp r id else r) <$> zget ps i.
Proof.
  unfold link_back. destruct (zget ps h) as [r|] eqn:Hh.
  - rewrite zget_zset. destruct (decide (h = i)) as [->|Hne].
    + rewrite Hh. simpl. by rewrite decide_True.
    + destruct (zget ps i); simpl; [|done]. rewrite decide_False by congruence. done.
  - destruct (zget ps i) eqn:Hi; simpl; [|done]. rewrite decide_False by congruence. done.
Qed.

Lemma length_link_back ps h id : length (link_back ps h id) = length ps.
Proof. unfold link_back. destruct (zget ps h); [apply length_zset|done]. Qed.

Lemma head_cases (l : list (Z * propval)) : (l = [] ∧ head l = GRAPH_NONE) ∨ head l ∈ ids l.
Proof. destruct l as [|[i v] l]; [by left|right; left]. Qed.

Lemma addPropertyToChain_exec pg L o l k t v :
  PStore pg L → L !! o = Some l → prop_room pg →
  ∃ m fr id, pool_alloc (propMark_ pg) (propCap_ pg) (freeProps_ pg) = Ok (m, fr, id) ∧
    ¬ owned L id ∧ 0 ≤ id < m ∧ pool m (propCap_ pg) fr (λ i, i = id ∨ owned L i) ∧
    addPropertyToChain pg (head l) k t v =
      Ok (set_props (set_propAlloc pg m fr)
            (link_back (zset (props_ pg) id (mkProp (head l) GRAPH_NONE k t v true)) (head l) id), id).
Proof.
  intros HP Ho Hroom.
  destruct (pool_alloc_ok _ _ _ _ (ps_pool _ _ HP) Hroom) as (m & fr & id & Ha & Hnew & Hid & _ & Hpool).
  exists m, fr, id. split_and!; [done|done|lia|lia|done|].
  unfold addPropertyToChain. rewrite allocProp_pool, Ha. cbn [res_bind props_ set_propAlloc].
  assert (∃ p, zget (props_ pg) id = Some p) as [p Hp].
  { apply zget_is_Some. rewrite (ps_len _ _ HP). pose proof (pool_mark _ _ _ _ Hpool). lia. }
  rewrite (load_Some _ _ _ Hp). cbn [res_bind set_props props_].
  destruct (Z.eqb_spec (head l) GRAPH_NONE) as [E|E]; cbn [negb].
  - unfold link_back. rewrite E. done.
  - destruct (head_cases l) as [[_ ?]|Hin]; [done|].
    destruct (PStore_vals_insert _ _ _ _ HP Ho _ Hin) as (h & Hh & _).
    assert (head l ≠ id) by (intros <-; apply Hnew; by exists o, l).
    unfold link_back, load. rewrite !zget_zset_ne by done. rewrite Hh. done.
Qed.

Lemma addPropertyToChain_store pg L o l k t v :
  PStore pg L → L !! o = Some l → prop_room pg →
  ∃ pg' id, addPropertyToChain pg (head l) k t v = Ok (pg', id) ∧ same_frame pg pg' ∧
    ¬ owned L id ∧ PStore pg' (<[o := (id, (k, t, v)) :: l]> L).
Proof.
  intros HP Ho Hroom.
  destruct (addPropertyToChain_exec pg L o l k t v HP Ho Hroom) as (m & fr & id & Ha & Hnew & Hid & Hpool & He).
  eexists _, id. split; [exact He|]. split; [done|]. split; [done|].
  destruct (ps_chain _ _ HP _ _ Ho) as [Hnd Hc].
  assert (id ∉ ids l) as Hni by (intros ?; apply Hnew; by exists o, l).
  assert (∃ p, zget (props_ pg) id = Some p) as [p0 Hp0].
  { apply zget_is_Some. rewrite (ps_len _ _ HP). pose proof (pool_mark _ _ _ _ Hpool). lia. }
  assert (id ≠ head l) as Hih.
  { destruct (head_cases l) as [[_ ->]|?]; [unfold GRAPH_NONE; lia|]. by intros ->. }
  set (r := mkProp (head l) GRAPH_NONE k t v true) in *.
  set (ps' := link_back (zset (props_ pg) id r) (head l) id) in *.
  assert (zget ps' id = Some r) as Hpid.
  { unfold ps'. rewrite zget_link_back, (zget_zset_Some _ _ _ _ Hp0). simpl. by rewrite decide_False. }
  assert (∀ i, i ≠ id → zget ps' i =
    (λ r, if decide (i = head l) then set_prevProp r id else r) <$> zget (props_ pg) i) as Hpi.
  { intros i Hi. unfold ps'. rewrite zget_link_back, zget_zset_ne by done. done. }
  eapply PStore_update; [exact HP|exact Ho|..]; simpl.
  - unfold ps'. by rewrite length_link_back, length_zset, (ps_len _ _ HP).
  - eapply pool_ext; [exact Hpool|]. intros i. rewrite elem_of_cons. 
    destruct (decide (i ∈ ids l)) as [Hi|Hi]; [|naive_solver]. split; [naive_solver|]. intros _. right. by exists o, l.
  - by constructor.
  - eapply chain_push; [done|done|exact Hc| |].
    + exists r. done.
    + intros i p Hi Hp Hl. rewrite Hpi by (intros ->; done). rewrite Hp. simpl.
      eexists. split; [done|]. by case_decide.
  - intros i w [[= -> ->]|Hi]%elem_of_cons; [by exists r|].
    destruct (ps_vals _ _ HP _ _ _ _ Ho Hi) as (p & Hp & Hv).
    rewrite Hpi, Hp by (intros ->; apply Hni, ids_elem; eauto). simpl. eexists. split; [done|]. by case_decide.
  - intros i Hi Hil. assert (i ≠ id) by (intros ->; done). split; [|set_solver].
    rewrite Hpi by done. destruct (zget (props_ pg) i); simpl; [|done]. rewrite decide_False; [done|].
    intros ->. destruct (head_cases l) as [[-> Hh]|?]; [|done].
    pose proof (pool_live _ _ _ _ (ps_pool _ _ HP) _ Hi) as Hb. unfold GRAPH_NONE in *. rewrite Hh in Hb. lia.
Qed.

Lemma addPropertyToChain_full pg h k t v :
  ¬ prop_room pg → addPropertyToChain pg h k t v = Fault AssertFailed.
Proof. intros Hr. unfold addPropertyToChain. by rewrite allocProp_pool, pool_alloc_full. Qed.

(** ** removeProperty *)

Definition link_fwd (ps : list PropRecord) (h id : Z) : list PropRecord :=
  match zget ps h with Some r => zset ps h (set_nextProp r id) | None => ps end.

Lemma zget_link_fwd ps h id i :
  zget (link_fwd ps h id) i = (λ r, if decide (i = h) then set_nextProp r id else r) <$> zget ps i.
Proof.
  unfold link_fwd. destruct (zget ps h) as [r|] eqn:Hh.
  - rewrite zget_zset. destruct (decide (h = i)) as [->|Hne].
    + rewrite Hh. simpl. by rewrite decide_True.
    + destruct (zget ps i); simpl; [|done]. rewrite decide_False by congruence. done.
  - destruct (zget ps i) eqn:Hi; simpl; [|done]. rewrite decide_False by congruence. done.
Qed.

Lemma length_link_fwd ps h id : length (link_fwd ps h id) = length ps.
Proof. unfold link_fwd. destruct (zget ps h); [apply length_zset|done]. Qed.

Lemma link_none ps id : link_back ps GRAPH_NONE id = ps ∧ link_fwd ps GRAPH_NONE id = ps.
Proof. done. Qed.

(** The three writes of [removeProperty], for a record that is not its own
    neighbour. *)
Lemma removeProperty_exec pg id h p :
  zget (props_ pg) id = Some p → p_inUse p = true → prevPropId p ≠ id → nextPropId p ≠ id →
  (∀ x, x = prevPropId p ∨ x = nextPropId p → x ≠ GRAPH_NONE → is_Some (zget (props_ pg) x)) →
  removeProperty pg id h =
    Ok (set_propAlloc
          (set_props pg (zset (link_back (link_fwd (props_ pg) (prevPropId p) (nextPropId p))
                                 (nextPropId p) (prevPropId p)) id (set_p_inUse p false)))
          (propMark_ pg) (id :: freeProps_ pg),
        if prevPropId p =? GRAPH_NONE then nextPropId p else h).
Proof.
  intros Hp Hu Hpi Hni Hn. unfold removeProperty. rewrite (load_Some _ _ _ Hp). cbn [res_bind]. rewrite Hu. cbn [res_bind assert_].
  set (ps1 := link_fwd (props_ pg) (prevPropId p) (nextPropId p)).
  set (h' := if prevPropId p =? GRAPH_NONE then nextPropId p else h).
  assert ((if negb (prevPropId p =? GRAPH_NONE)
    then let* q := load (props_ pg) (prevPropId p) in
         Ok (set_props pg (zset (props_ pg) (prevPropId p) (set_nextProp q (nextPropId p))), h)
    else Ok (pg, nextPropId p)) = Ok (set_props pg ps1, h')) as ->.
  { unfold ps1, h', link_fwd. destruct (Z.eqb_spec (prevPropId p) GRAPH_NONE) as [E|E]; simpl.
    - rewrite E. simpl. by destruct pg.
    - destruct (Hn (prevPropId p)) as [q Hq]; [auto..|]. by rewrite (load_Some _ _ _ Hq), Hq. }
  cbn [res_bind]. cbn [props_ set_props].
  assert (zget ps1 id = Some p) as Hp1.
  { unfold ps1. rewrite zget_link_fwd, Hp. simpl. by rewrite decide_False. }
  rewrite (load_Some _ _ _ Hp1). cbn [res_bind].
  set (ps2 := link_back ps1 (nextPropId p) (prevPropId p)).
  assert ((if negb (nextPropId p =? GRAPH_NONE)
    then let* q := load ps1 (nextPropId p) in
         Ok (set_props (set_props pg ps1) (zset ps1 (nextPropId p) (set_prevProp q (prevPropId p))))
    else Ok (set_props pg ps1)) = Ok (set_props pg ps2)) as ->.
  { unfold ps2, link_back. destruct (Z.eqb_spec (nextPropId p) GRAPH_NONE) as [E|E]; simpl.
    - by rewrite E.
    - assert (is_Some (zget ps1 (nextPropId p))) as [q Hq].
      { unfold ps1. rewrite zget_link_fwd, fmap_is_Some. apply Hn; auto. }
      by rewrite (load_Some _ _ _ Hq), Hq. }
  cbn [res_bind props_ set_props].
  assert (zget ps2 id = Some p) as Hp2.
  { unfold ps2. rewrite zget_link_back, Hp1. simpl. by rewrite decide_False. }
  rewrite (load_Some _ _ _ Hp2). done.
Qed.

Lemma lastd_not_in (l : list Z) i : i ∉ l → i ≠ GRAPH_NONE → lastd GRAPH_NONE l ≠ i.
Proof. intros Hi Hn <-. destruct l as [|x l]; [done|]. apply Hi, lastd_elem. done. Qed.
Lemma hdd_not_in (l : list Z) i : i ∉ l → i ≠ GRAPH_NONE → hdd GRAPH_NONE l ≠ i.
Proof. intros Hi Hn <-. destruct l; [done|]. apply Hi. left. Qed.

Lemma removeProperty_store pg L o l1 id v l2 :
  PStore pg L → L !! o = Some (l1 ++ (id, v) :: l2) →
  ∃ pg', removeProperty pg id (head (l1 ++ (id, v) :: l2)) = Ok (pg', head (l1 ++ l2)) ∧
    same_frame pg pg' ∧ PStore pg' (<[o := l1 ++ l2]> L).
Proof.
  intros HP Ho. destruct (ps_chain _ _ HP _ _ Ho) as [Hnd Hc]. rewrite ids_app in Hnd, Hc. simpl in Hnd, Hc.
  assert (owned L id) as Hown by (exists o, (l1 ++ (id, v) :: l2); rewrite ids_app; set_solver).
  assert (id ≠ GRAPH_NONE) as Hnn.
  { pose proof (pool_live _ _ _ _ (ps_pool _ _ HP) _ Hown). unfold GRAPH_NONE. lia. }
  destruct (dseg_elem _ _ _ _ _ _ _ _ id Hc) as (p & Hp & Hl); [set_solver|].
  destruct (chain_member _ _ _ _ _ _ _ _ p Hc Hp) as (_ & Hprev & Hnext).
  pose proof (proj1 (NoDup_app _ _) Hnd) as (_ & Hd1 & [Hi2 _]%NoDup_cons).
  assert (id ∉ ids l1) as Hi1 by (intros Hi; apply (Hd1 id Hi); left).
  assert (prevPropId p ≠ id) as Hpi by (rewrite Hprev; by apply lastd_not_in).
  assert (nextPropId p ≠ id) as Hni by (rewrite Hnext; by apply hdd_not_in).
  rewrite (removeProperty_exec pg id _ p Hp Hl Hpi Hni).
  2: { intros x Hx Hxn. rewrite Hprev, Hnext in Hx.
       destruct (chain_neighbour _ _ _ _ _ _ _ _ _ Hc Hx Hxn) as (r & Hr & _). eauto. }
  set (ps' := zset _ id _). eexists. split_and!.
  { do 2 f_equal. rewrite Hprev. destruct (Z.eqb_spec (lastd GRAPH_NONE (ids l1)) GRAPH_NONE) as [E|E].
    - apply (chain_is_first _ _ _ _ _ _ _ _ Hc) in E. destruct l1; [|done]. by rewrite Hnext.
    - destruct l1 as [|[j w] l1]; [done|]. done. }
  { done. }
  assert (∀ i, i ≠ id → zget ps' i = (λ r, mkProp
      (if decide (i = prevPropId p) then nextPropId p else nextPropId r)
      (if decide (i = nextPropId p) then prevPropId p else prevPropId r)
      (p_key r) (p_type r) (p_value r) (p_inUse r)) <$> zget (props_ pg) i) as Hps.
  { intros i Hi. unfold ps'. rewrite zget_zset_ne, zget_link_back, zget_link_fwd by done.
    destruct (zget (props_ pg) i) as [[]|]; simpl; [|done]. f_equal. by repeat case_decide. }
  eapply PStore_update; [exact HP|exact Ho|..]; simpl.
  - unfold ps'. by rewrite length_zset, length_link_back, length_link_fwd, (ps_len _ _ HP).
  - eapply pool_ext; [by eapply pool_release; [apply HP|]|]. intros i. cbn.
    pose proof (remove_at_elem (ids l1) (ids l2) id i Hnd) as Hrem. rewrite !ids_app. cbn [ids fmap list_fmap].
    fold (ids l2). rewrite Hrem.
    destruct (decide (i ∈ ids l1 ++ id :: ids l2)) as [Hi|Hi].
    + split; [naive_solver|]. intros [[_ ?]|[_ []]]; [|done]. split; [|done]. exists o, (l1 ++ (id, v) :: l2).
      by rewrite ids_app.
    + split; [naive_solver|]. intros [[? _]|[? _]]; [done|]. split; [done|]. intros ->. apply Hi. set_solver.
  - rewrite ids_app. apply NoDup_app in Hnd as (? & Hd & [? ?]%NoDup_cons).
    apply NoDup_app. split_and!; [done| |done]. intros i Hi ?. apply (Hd i Hi). by right.
  - rewrite ids_app. eapply chain_unlink; [exact Hnd|exact Hc| |].
    + destruct l1 as [|[j w] l1]; [by rewrite decide_True|by rewrite decide_False].
    + intros i r Hi Hr Hlr. assert (i ≠ id) as Hii by (intros ->; set_solver).
      rewrite Hps, Hr by done. eexists. split; [done|]. simpl. rewrite Hprev, Hnext.
      pose proof (dseg_nonneg _ _ _ _ _ _ _ _ Hc) as Hpos. rewrite Forall_forall in Hpos.
      assert (i ≠ GRAPH_NONE) by (specialize (Hpos i ltac:(set_solver)); unfold GRAPH_NONE; lia).
      split_and!; [done| |].
      * destruct (decide (i = lastd GRAPH_NONE (ids l1))) as [->|?]; [|by rewrite decide_False by naive_solver].
        rewrite decide_True; [done|]. split; [|done]. by intros E; rewrite E in *.
      * destruct (decide (i = hdd GRAPH_NONE (ids l2))) as [->|?]; [|by rewrite decide_False by naive_solver].
        rewrite decide_True; [done|]. split; [|done]. by intros E; rewrite E in *.
  - intros i w Hi. assert (i ≠ id) as Hii.
    { intros ->. assert (id ∈ ids (l1 ++ l2)) as Hin by (apply ids_elem; eauto). rewrite ids_app in Hin. set_solver. }
    destruct (ps_vals _ _ HP _ _ i w Ho) as (r & Hr & <-); [set_solver|].
    rewrite Hps, Hr by done. by eexists.
  - intros i Hi Hni'. rewrite ids_app in Hni'. cbn [ids fmap list_fmap] in Hni'. fold (ids l2) in Hni'.
    split; [|rewrite ids_app; set_solver]. rewrite Hps by set_solver.
    assert (i ≠ GRAPH_NONE) by (pose proof (pool_live _ _ _ _ (ps_pool _ _ HP) _ Hi); unfold GRAPH_NONE; lia).
    destruct (zget (props_ pg) i) as [[]|]; simpl; [|done].
    rewrite !decide_False; [done| |].
    + rewrite Hnext. intros E. symmetry in E. revert E. apply hdd_not_in; set_solver.
    + rewrite Hprev. intros E. symmetry in E. revert E. apply lastd_not_in; set_solver.
Qed.

(** ** The freeing loop *)

Definition free_slot (ps : list PropRecord) (i : Z) : list PropRecord :=
  match zget ps i with Some r => zset ps i (set_p_inUse r false) | None => ps end.
Definition free_slots (l : list Z) (ps : list PropRecord) : list PropRecord := foldl free_slot ps l.

Lemma zget_free_slot ps i j :
  zget (free_slot ps i) j = (λ r, if decide (j = i) then set_p_inUse r false else r) <$> zget ps j.
Proof.
  unfold free_slot. destruct (zget ps i) as [r|] eqn:Hi.
  - rewrite zget_zset. destruct (decide (i = j)) as [->|Hne].
    + rewrite Hi. simpl. by rewrite decide_True.
    + destruct (zget ps j); simpl; [|done]. rewrite decide_False by congruence. done.
  - destruct (zget ps j) eqn:Hj; simpl; [|done]. rewrite decide_False by congruence. done.
Qed.

Lemma zget_free_slots l ps j : j ∉ l → zget (free_slots l ps) j = zget ps j.
Proof.
  revert ps. induction l as [|i l IH]; intros ps Hj; [done|]. simpl.
  rewrite IH by set_solver. rewrite zget_free_slot. destruct (zget ps j); simpl; [|done].
  rewrite decide_False by set_solver. done.
Qed.

Lemma length_free_slots l ps : length (free_slots l ps) = length ps.
Proof.
  revert ps. induction l as [|i l IH]; intros ps; simpl; [done|]. rewrite IH. unfold free_slot.
  destruct (zget ps i); [apply length_zset|done].
Qed.

Lemma freeChain_exec l : ∀ fuel pg p c,
  dseg prevPropId nextPropId live_prop (props_ pg) p c l GRAPH_NONE → NoDup l → (length l < fuel)%nat →
  freeChain fuel pg c =
    Ok (set_propAlloc (set_props pg (free_slots l (props_ pg))) (propMark_ pg) (rev l ++ freeProps_ pg)).
Proof.
  induction l as [|i l IH]; intros [|fuel] pg p c Hd Hnd Hf; simpl in Hf; try lia.
  - simpl in Hd. subst c. cbn [freeChain]. rewrite (proj2 (Z.eqb_eq _ _) eq_refl). by destruct pg.
  - destruct Hd as (-> & r & Hr & Ho & Hp & Hd). apply NoDup_cons in Hnd as [Hi Hnd].
    pose proof (zget_lt _ _ _ Hr). cbn [freeChain].
    destruct (Z.eqb_spec i GRAPH_NONE); [unfold GRAPH_NONE in *; lia|].
    rewrite (load_Some _ _ _ Hr). cbn [res_bind].
    erewrite IH; [|by apply dseg_frame_ne|done|lia]. simpl.
    unfold free_slot at 1. rewrite Hr. rewrite <- app_assoc. done.
Qed.

Lemma pool_release_all mark cap fr live l :
  pool mark cap fr live → NoDup l → (∀ i, i ∈ l → live i) →
  pool mark cap (rev l ++ fr) (λ i, live i ∧ i ∉ l).
Proof.
  revert fr live. induction l as [|i l IH]; intros fr live Hp Hnd Hl; simpl.
  - eapply pool_ext; [exact Hp|]. intros i. set_solver.
  - apply NoDup_cons in Hnd as [Hi Hnd]. rewrite <- app_assoc.
    eapply pool_ext; [apply IH; [apply pool_release; [exact Hp|apply Hl; set_solver]|done|]|].
    + intros j Hj. split; [apply Hl; set_solver|]. by intros ->.
    + intros j. simpl. set_solver.
Qed.

Lemma freeChain_store pg L o l :
  PStore pg L → L !! o = Some l →
  ∃ pg', freeChain (propFuel pg) pg (head l) = Ok pg' ∧ same_frame pg pg' ∧ PStore pg' (<[o := []]> L).
Proof.
  intros HP Ho. destruct (ps_chain _ _ HP _ _ Ho) as [Hnd Hc].
  assert (∀ i, i ∈ ids l → owned L i) as Hown by (intros i ?; by exists o, l).
  eexists. split.
  { eapply freeChain_exec; [exact Hc|done|]. unfold propFuel.
    enough (length (ids l) ≤ Z.to_nat (propMark_ pg))%nat by lia.
    apply NoDup_bounded_length; [done|]. intros i Hi. by apply (pool_live _ _ _ _ (ps_pool _ _ HP)), Hown. }
  split; [done|].
  eapply PStore_update; [exact HP|exact Ho|..]; simpl.
  - by rewrite length_free_slots, (ps_len _ _ HP).
  - eapply pool_ext; [by apply pool_release_all; [apply HP|done|]|]. intros i. simpl. set_solver.
  - constructor.
  - apply chain_nil.
  - set_solver.
  - intros i _ Hi. split; [by apply zget_free_slots|set_solver].
Qed.

(** ** setPropertyValue *)

Lemma setPropertyValue_store pg L o l1 id k t v l2 v' :
  PStore pg L → L !! o = Some (l1 ++ (id, (k, t, v)) :: l2) →
  ∃ pg', setPropertyValue pg id v' = Ok pg' ∧ same_frame pg pg' ∧
    PStore pg' (<[o := l1 ++ (id, (k, t, v')) :: l2]> L).
Proof.
  intros HP Ho. destruct (ps_chain _ _ HP _ _ Ho) as [Hnd Hc].
  destruct (ps_vals _ _ HP _ _ id (k, t, v) Ho) as (p & Hp & Hv); [set_solver|].
  unfold setPropertyValue. rewrite (load_Some _ _ _ Hp). cbn [res_bind].
  eexists. split; [done|]. split; [done|].
  assert (ids (l1 ++ (id, (k, t, v')) :: l2) = ids (l1 ++ (id, (k, t, v)) :: l2)) as Hids
    by (by rewrite !ids_app).
  assert (id ∈ ids (l1 ++ (id, (k, t, v)) :: l2)) as Hid by (rewrite ids_app; set_solver).
  eapply PStore_update; [exact HP|exact Ho|..]; unfold head; rewrite ?Hids; simpl.
  - by rewrite length_zset, (ps_len _ _ HP).
  - eapply pool_ext; [apply HP|]. intros i. 
    destruct (decide (i ∈ ids (l1 ++ (id, (k, t, v)) :: l2))) as [Hi|Hi]; [|naive_solver].
    split; [by left|]. intros _. by eexists o, _.
  - done.
  - eapply dseg_frame; [|exact Hc]. intros i r Hi Hr Hl. rewrite zget_zset. case_decide; [|by eauto].
    subst i. rewrite Hr. simpl. simplify_eq. by eexists.
  - intros i w Hi. rewrite zget_zset. case_decide as E.
    + subst i. rewrite Hp. eexists. split; [done|].
      assert (w = (k, t, v')) as ->.
      { rewrite ids_app in Hnd. cbn [ids fmap list_fmap] in Hnd. fold (ids l2) in Hnd.
        apply NoDup_app in Hnd as (_ & Hd & [Hn2 _]%NoDup_cons).
        apply elem_of_app in Hi as [Hi|[[= ->]|Hi]%elem_of_cons]; [|done|].
        - destruct (Hd id); [apply ids_elem; eauto|left].
        - destruct Hn2. apply ids_elem. eauto. }
      unfold val_of in *. simpl. by simplify_eq.
    + eapply ps_vals; [exact HP|exact Ho|]. set_solver.
  - intros i Hi Hni. rewrite zget_zset_ne by (intros ->; done). done.
Qed.
