(* ===== verification/PropGraphRefine.v ===== *)
(** * Refinement of the property graph

    [PRep pg s L]: the property graph [pg] represents the multigraph [s] and
    the property lists [L].  Every operation of [PropertyGraph] is shown to
    keep the representation and to have the intended effect on [s] and [L]. *)

From S2P Require Import Prelude Dll Graph GraphSpec GraphLink GraphRefine PropData PropertyGraph PropStore.

Abbreviation spec := (SpecGraph Z Z).

(** ** Payload writes *)

Definition spec_setNode (s : spec) (i v : Z) : spec :=
  mkSpec (alter (λ sn, mkSNode v (sn_adj sn)) i (sg_nodes s)) (sg_rels s).
Definition spec_setRel (s : spec) (k v : Z) : spec :=
  mkSpec (sg_nodes s) (alter (λ r, mkSRel (sr_first r) (sr_second r) (sr_type r) v) k (sg_rels s)).

Lemma lookup_setNode s i v j :
  sg_nodes (spec_setNode s i v) !! j =
    (λ sn, mkSNode (if decide (j = i) then v else sn_payload sn) (sn_adj sn)) <$> sg_nodes s !! j.
Proof.
  simpl. destruct (decide (j = i)) as [->|Hne].
  - by rewrite lookup_alter_eq.
  - rewrite lookup_alter_ne by done. by destruct (sg_nodes s !! j) as [[]|].
Qed.

Lemma lookup_setRel s k v j :
  sg_rels (spec_setRel s k v) !! j =
    (λ r, mkSRel (sr_first r) (sr_second r) (sr_type r) (if decide (j = k) then v else sr_payload r)) <$>
      sg_rels s !! j.
Proof.
  simpl. destruct (decide (j = k)) as [->|Hne].
  - by rewrite lookup_alter_eq.
  - rewrite lookup_alter_ne by done. by destruct (sg_rels s !! j) as [[]|].
Qed.

Lemma spec_wf_setNode s i v : spec_wf s → spec_wf (spec_setNode s i v).
Proof.
  intros [Hnd Hadj Hends]. split.
  - intros j sn. rewrite lookup_setNode. intros (sn0 & Hj & ->)%fmap_Some. by apply (Hnd j sn0).
  - intros j sn k. rewrite lookup_setNode. intros (sn0 & Hj & ->)%fmap_Some. by apply (Hadj j sn0).
  - intros k r Hr. rewrite !lookup_setNode, !fmap_is_Some. by apply Hends with k.
Qed.

Lemma spec_wf_setRel s k v : spec_wf s → spec_wf (spec_setRel s k v).
Proof.
  intros [Hnd Hadj Hends]. split; [done| |].
  - intros j sn k' Hj. rewrite lookup_setRel. rewrite (Hadj j sn k' Hj). split.
    + intros (r & -> & Hi). by eexists.
    + intros (r' & (r & Hr & ->)%fmap_Some & Hi). by exists r.
  - intros k' r'. rewrite lookup_setRel. intros (r & Hr & ->)%fmap_Some. exact (Hends k' r Hr).
Qed.

Lemma rep_setNode (g : Graph Z Z) s i e v :
  Rep g s → zget (nodes_ g) i = Some e →
  Rep (set_nodes g (zset (nodes_ g) i (set_n_payload e v))) (spec_setNode s i v).
Proof.
  intros HR He.
  assert (∀ j, abs_node (set_nodes g (zset (nodes_ g) i (set_n_payload e v))) j =
    (if decide (j = i) then λ _, v else id) <$> abs_node g j) as Hab.
  { intros j. unfold abs_node; simpl. case_match; [|by case_decide]. rewrite zget_zset.
    destruct (decide (i = j)) as [->|Hne].
    - rewrite He, decide_True by done. simpl. by destruct (n_inUse e).
    - rewrite decide_False by congruence. by destruct (x ← zget (nodes_ g) j; _). }
  destruct (rep_layout _ _ HR) as [Hnl Hrl Hnp Hrp]. split.
  - split; simpl; [by rewrite length_zset|done| |exact Hrp].
    eapply pool_ext; [exact Hnp|]. intros j. by rewrite Hab, fmap_is_Some.
  - intros j. rewrite Hab, <- (rep_nodes _ _ HR), lookup_setNode, <- !option_fmap_compose.
    destruct (sg_nodes s !! j); simpl; [|done]. by case_decide.
  - apply HR.
  - intros j sn e'. rewrite lookup_setNode. intros (sn0 & Hj & ->)%fmap_Some. simpl.
    rewrite zget_zset. case_decide as E; [subst j|].
    + rewrite He. simpl. intros [= <-]. exact (rep_chain _ _ HR i sn0 e Hj He).
    + by apply (rep_chain _ _ HR).
  - apply spec_wf_setNode, HR.
Qed.

Lemma rep_setRel (g : Graph Z Z) s k r v :
  Rep g s → zget (rels_ g) k = Some r →
  Rep (set_rels g (zset (rels_ g) k (set_r_payload r v))) (spec_setRel s k v).
Proof.
  intros HR He.
  assert (∀ j, abs_rel (set_rels g (zset (rels_ g) k (set_r_payload r v))) j =
    (λ r, mkSRel (sr_first r) (sr_second r) (sr_type r) (if decide (j = k) then v else sr_payload r)) <$>
      abs_rel g j) as Hab.
  { intros j. unfold abs_rel; simpl. case_match; [|done]. rewrite zget_zset.
    destruct (decide (k = j)) as [->|Hne].
    - rewrite He. simpl. destruct (r_inUse r); simpl; [|done]. by rewrite decide_True.
    - destruct (zget (rels_ g) j) as [r'|]; simpl; [|done].
      destruct (r_inUse r'); simpl; [|done]. by rewrite decide_False by congruence. }
  destruct (rep_layout _ _ HR) as [Hnl Hrl Hnp Hrp]. split.
  - split; simpl; [done|by rewrite length_zset|exact Hnp|].
    eapply pool_ext; [exact Hrp|]. intros j. by rewrite Hab, fmap_is_Some.
  - apply HR.
  - intros j. rewrite Hab, lookup_setRel. by rewrite (rep_rels _ _ HR).
  - intros j sn e' Hj He'. pose proof (rep_chain _ _ HR j sn e' Hj He') as Hc.
    eapply dseg_frame; [|exact Hc]. intros i ri Hi Hri Ht. simpl. rewrite zget_zset.
    case_decide; [subst k|by eauto]. rewrite Hri. simpl. simplify_eq. by eexists.
  - apply spec_wf_setRel, HR.
Qed.

(** ** The representation *)

(** The payload of an owner: the head of its property chain. *)
Definition head_of (s : spec) (o : owner) : option Z :=
  match o with
  | inl i => sn_payload <$> sg_nodes s !! i
  | inr k => sr_payload <$> sg_rels s !! k
  end.

Record PRep (pg : PropertyGraph) (s : spec) (L : props_of) : Prop := {
  prep_graph : Rep (graph_ pg) s;
  prep_store : PStore pg L;
  prep_heads : ∀ o, head_of s o = head <$> L !! o;
}.

Lemma prep_node pg s L i sn :
  PRep pg s L → sg_nodes s !! i = Some sn → ∃ l, L !! inl i = Some l ∧ sn_payload sn = head l.
Proof.
  intros HP Hi. pose proof (prep_heads _ _ _ HP (inl i)) as H. simpl in H. rewrite Hi in H.
  destruct (L !! inl i) as [l|]; simplify_eq/=. eauto.
Qed.

Lemma prep_rel pg s L k r :
  PRep pg s L → sg_rels s !! k = Some r → ∃ l, L !! inr k = Some l ∧ sr_payload r = head l.
Proof.
  intros HP Hi. pose proof (prep_heads _ _ _ HP (inr k)) as H. simpl in H. rewrite Hi in H.
  destruct (L !! inr k) as [l|]; simplify_eq/=. eauto.
Qed.

(** [PStore] only looks at the fields of the property buffer. *)
Lemma PStore_set_graph pg g L : PStore pg L → PStore (set_graph pg g) L.
Proof. intros []. by split. Qed.

Lemma head_of_setNode s i v o :
  head_of (spec_setNode s i v) o = (λ h, if decide (o = inl i) then v else h) <$> head_of s o.
Proof.
  destruct o as [j|k]; unfold head_of.
  - rewrite lookup_setNode, <- !option_fmap_compose. apply option_fmap_ext. intros sn. simpl.
    repeat case_decide; naive_solver.
  - simpl. destruct (sg_rels s !! k); done.
Qed.

Lemma head_of_setRel s i v o :
  head_of (spec_setRel s i v) o = (λ h, if decide (o = inr i) then v else h) <$> head_of s o.
Proof.
  destruct o as [j|k]; unfold head_of.
  - simpl. destruct (sg_nodes s !! j); done.
  - rewrite lookup_setRel, <- !option_fmap_compose. apply option_fmap_ext. intros sn. simpl.
    repeat case_decide; naive_solver.
Qed.

(** Entering an accessor that asserts its bounds. *)
Lemma node_ok (g : Graph Z Z) s i sn :
  Rep g s → sg_nodes s !! i = Some sn →
  ∃ e, node g i = Ok e ∧ zget (nodes_ g) i = Some e ∧ n_inUse e = true ∧
    n_payload e = sn_payload sn ∧ firstRelId e = hdd GRAPH_NONE (sn_adj sn).
Proof.
  intros HR Hi. destruct (rep_node _ _ _ _ HR Hi) as (Hb & e & He & Hu & Hp & Hc).
  exists e. unfold node. destruct (Z.leb_spec 0 i), (Z.ltb_spec i (nodeMark_ g)); try lia.
  cbn [andb assert_ res_bind]. split_and!; [by apply load_Some|done..|]. by eapply dseg_hd.
Qed.

Lemma rel_ok (g : Graph Z Z) s k sr :
  Rep g s → sg_rels s !! k = Some sr →
  ∃ r, rel g k = Ok r ∧ zget (rels_ g) k = Some r ∧ r_inUse r = true ∧ srel_of r = sr.
Proof.
  intros HR Hk. destruct (rep_rel _ _ _ _ HR Hk) as (Hb & r & Hr & Hu & Hs).
  exists r. unfold rel. destruct (Z.leb_spec 0 k), (Z.ltb_spec k (relMark_ g)); try lia.
  cbn [andb assert_ res_bind]. split_and!; [by apply load_Some|done..].
Qed.

(** ** Creation, nodes and relationships *)

Lemma pg_create_rep ncap rcap pcap :
  0 ≤ ncap → 0 ≤ rcap → 0 ≤ pcap → PRep (pg_create ncap rcap pcap) spec_empty ∅.
Proof.
  intros Hn Hr Hp. split.
  - by apply newGraph_rep.
  - split; simpl; try done.
    + rewrite length_replicate. lia.
    + apply pool_empty; [done|]. intros i (o & l & ? & _). done.
  - intros [i|k]; done.
Qed.

Lemma pg_addNode_rep pg s L :
  PRep pg s L → node_room (graph_ pg) →
  ∃ pg' id, pg_addNode pg = Ok (pg', id) ∧ sg_nodes s !! id = None ∧
    PRep pg' (spec_addNode s id GRAPH_NONE) (<[inl id := []]> L).
Proof.
  intros HP Hroom. destruct (addNode_rep _ _ GRAPH_NONE (prep_graph _ _ _ HP) Hroom)
    as (g & id & Ha & Hnew & _ & HR).
  unfold pg_addNode. rewrite Ha. cbn [res_bind].
  destruct (node_ok g _ id (mkSNode GRAPH_NONE []) HR) as (e & Hn & He & Hu & _); [apply lookup_insert_eq|].
  rewrite Hn. cbn [res_bind].
  assert (set_nodes g (zset (nodes_ g) id (set_n_inUse e true)) = g) as ->.
  { assert (set_n_inUse e true = e) as -> by (destruct e; simpl in *; by subst).
    rewrite zset_id by done. by destruct g. }
  eexists _, id. split_and!; [done..|]. split; [done| |].
  - apply PStore_set_graph, PStore_fresh; [apply HP|].
    pose proof (prep_heads _ _ _ HP (inl id)) as H. simpl in H. rewrite Hnew in H. by destruct (L !! inl id).
  - intros [i|k]; simpl; rewrite !lookup_insert.
    + destruct (decide (id = i)) as [->|Hne]; [by rewrite decide_True|].
      rewrite decide_False by congruence. apply (prep_heads _ _ _ HP (inl i)).
    + apply (prep_heads _ _ _ HP (inr k)).
Qed.

Lemma pg_addRelationship_rep pg s L from to ty :
  PRep pg s L → rel_room (graph_ pg) → is_Some (sg_nodes s !! from) → is_Some (sg_nodes s !! to) →
  ∃ pg' id, pg_addRelationship pg from to ty = Ok (pg', id) ∧ sg_rels s !! id = None ∧
    PRep pg' (spec_addRel s id from to (i32 ty) GRAPH_NONE) (<[inr id := []]> L).
Proof.
  intros HP Hroom Hf Ht. destruct (addRelationship_rep _ _ from to ty GRAPH_NONE (prep_graph _ _ _ HP) Hroom Hf Ht)
    as (g & id & Ha & Hnew & _ & HR).
  unfold pg_addRelationship. rewrite Ha. cbn [res_bind]. eexists _, id. split_and!; [done..|]. split; [done| |].
  - apply PStore_set_graph, PStore_fresh; [apply HP|].
    pose proof (prep_heads _ _ _ HP (inr id)) as H. simpl in H. rewrite Hnew in H. by destruct (L !! inr id).
  - intros [i|k]; unfold head_of.
    + rewrite spec_addRel_node, <- option_fmap_compose, lookup_insert_ne by done.
      rewrite <- (prep_heads _ _ _ HP (inl i)). apply option_fmap_ext. intros sn. simpl. by case_decide.
    + simpl. rewrite !lookup_insert. destruct (decide (id = k)) as [->|Hne]; [by rewrite decide_True|].
      rewrite decide_False by congruence. apply (prep_heads _ _ _ HP (inr k)).
Qed.

Lemma pg_removeRelationship_rep pg s L k :
  PRep pg s L → is_Some (sg_rels s !! k) →
  ∃ pg', pg_removeRelationship pg k = Ok pg' ∧ PRep pg' (spec_removeRel s k) (delete (inr k) L).
Proof.
  intros HP [sr Hk]. destruct (prep_rel _ _ _ _ _ HP Hk) as (l & Hl & Hh).
  destruct (rel_ok _ _ _ _ (prep_graph _ _ _ HP) Hk) as (r & Hr & _ & _ & Hsr).
  unfold pg_removeRelationship. rewrite Hr. cbn [res_bind].
  rewrite <- Hsr in Hh. simpl in Hh. rewrite Hh.
  destruct (freeChain_store pg L (inr k) l (prep_store _ _ _ HP) Hl) as (pg1 & Hf & [Hg _ _ _ _] & HS).
  rewrite Hf. cbn [res_bind]. rewrite Hg.
  destruct (removeRelationship_rep (graph_ pg) s k (prep_graph _ _ _ HP)) as (g' & Hg' & HR & _); [by eauto|].
  rewrite Hg'. cbn [res_bind]. eexists. split; [done|]. split; [done| |].
  - apply PStore_set_graph. rewrite <- (delete_insert_eq L (inr k) []). apply PStore_drop; [done|].
    apply lookup_insert_eq.
  - intros [i|j]; unfold head_of; simpl; rewrite lookup_delete.
    + rewrite lookup_fmap, <- option_fmap_compose. rewrite decide_False by done.
      apply (prep_heads _ _ _ HP (inl i)).
    + rewrite lookup_delete. destruct (decide (k = j)) as [->|Hne]; [by rewrite decide_True|].
      rewrite decide_False by congruence. apply (prep_heads _ _ _ HP (inr j)).
Qed.

(** ** Properties *)

(** An update of one owner's list and of its chain head. *)
Lemma prep_heads_node (s : spec) (L : props_of) (i : Z) l :
  is_Some (sg_nodes s !! i) → (∀ o, head_of s o = head <$> L !! o) →
  ∀ o, head_of (spec_setNode s i (head l)) o = head <$> <[inl i := l]> L !! o.
Proof.
  intros [sn Hi] Hh o. rewrite head_of_setNode, lookup_insert. destruct (decide (o = inl i)) as [->|Hne].
  - rewrite decide_True by done. simpl. by rewrite Hi.
  - rewrite decide_False by congruence. rewrite option_fmap_id. apply Hh.
Qed.

Lemma prep_heads_rel (s : spec) (L : props_of) (k : Z) l :
  is_Some (sg_rels s !! k) → (∀ o, head_of s o = head <$> L !! o) →
  ∀ o, head_of (spec_setRel s k (head l)) o = head <$> <[inr k := l]> L !! o.
Proof.
  intros [sr Hk] Hh o. rewrite head_of_setRel, lookup_insert. destruct (decide (o = inr k)) as [->|Hne].
  - rewrite decide_True by done. simpl. by rewrite Hk.
  - rewrite decide_False by congruence. rewrite option_fmap_id. apply Hh.
Qed.

Lemma addNodeProperty_rep pg s L n l k t v :
  PRep pg s L → L !! inl n = Some l → prop_room pg →
  ∃ pg' id, addNodeProperty pg n k t v = Ok (pg', id) ∧ ¬ owned L id ∧
    PRep pg' (spec_setNode s n id) (<[inl n := (id, (k, t, v)) :: l]> L).
Proof.
  intros HP Hl Hroom. assert (∃ sn, sg_nodes s !! n = Some sn) as [sn Hn].
  { pose proof (prep_heads _ _ _ HP (inl n)) as H. simpl in H. rewrite Hl in H.
    destruct (sg_nodes s !! n); [eauto|done]. }
  destruct (prep_node _ _ _ _ _ HP Hn) as (l' & ? & Hh). simplify_eq.
  destruct (node_ok _ _ _ _ (prep_graph _ _ _ HP) Hn) as (e & Hok & He & _ & Hp & _).
  destruct (addPropertyToChain_store pg L (inl n) l k t v (prep_store _ _ _ HP) Hl Hroom)
    as (pg1 & id & Ha & [Hg _ _ _ _] & Hnew & HS).
  unfold addNodeProperty. rewrite Hok. cbn [res_bind]. rewrite Hp, Hh, Ha. cbn [res_bind].
  eexists _, id. split_and!; [done..|]. split.
  - simpl. rewrite Hg. by apply rep_setNode; [apply HP|].
  - by apply PStore_set_graph.
  - apply (prep_heads_node s L n ((id, (k, t, v)) :: l)); [eauto|apply HP].
Qed.

Lemma addRelProperty_rep pg s L r l k t v :
  PRep pg s L → L !! inr r = Some l → prop_room pg →
  ∃ pg' id, addRelProperty pg r k t v = Ok (pg', id) ∧ ¬ owned L id ∧
    PRep pg' (spec_setRel s r id) (<[inr r := (id, (k, t, v)) :: l]> L).
Proof.
  intros HP Hl Hroom. assert (∃ sr, sg_rels s !! r = Some sr) as [sr Hr].
  { pose proof (prep_heads _ _ _ HP (inr r)) as H. simpl in H. rewrite Hl in H.
    destruct (sg_rels s !! r); [eauto|done]. }
  destruct (prep_rel _ _ _ _ _ HP Hr) as (l' & ? & Hh). simplify_eq.
  destruct (rel_ok _ _ _ _ (prep_graph _ _ _ HP) Hr) as (e & Hok & He & _ & Hp). rewrite <- Hp in Hh.
  destruct (addPropertyToChain_store pg L (inr r) l k t v (prep_store _ _ _ HP) Hl Hroom)
    as (pg1 & id & Ha & [Hg _ _ _ _] & Hnew & HS).
  unfold addRelProperty. rewrite Hok. cbn [res_bind]. simpl in Hh. rewrite Hh, Ha. cbn [res_bind].
  eexists _, id. split_and!; [done..|]. split.
  - simpl. rewrite Hg. by apply rep_setRel; [apply HP|].
  - by apply PStore_set_graph.
  - apply (prep_heads_rel s L r ((id, (k, t, v)) :: l)); [eauto|apply HP].
Qed.

Lemma setPropertyValue_rep pg s L o l1 id k t v l2 v' :
  PRep pg s L → L !! o = Some (l1 ++ (id, (k, t, v)) :: l2) →
  ∃ pg', setPropertyValue pg id v' = Ok pg' ∧ PRep pg' s (<[o := l1 ++ (id, (k, t, v')) :: l2]> L).
Proof.
  intros HP Hl. destruct (setPropertyValue_store pg L o l1 id k t v l2 v' (prep_store _ _ _ HP) Hl)
    as (pg' & He & [Hg _ _ _ _] & HS).
  exists pg'. split; [done|]. split; [rewrite Hg; apply HP|done|].
  intros o'. rewrite (prep_heads _ _ _ HP), lookup_insert. case_decide; [subst o'|done].
  rewrite Hl. simpl. f_equal. by destruct l1.
Qed.

(** [removeProperty(prop, node(n).payload)]: the chain head is the node's
    payload, passed by reference. *)
Definition removeNodeProperty (pg : PropertyGraph) (n id : Z) : res PropertyGraph :=
  let* e := node (graph_ pg) n in
  let* '(pg1, h) := removeProperty pg id (n_payload e) in
  Ok (set_nodePayload pg1 n e h).
Definition removeRelProperty (pg : PropertyGraph) (k id : Z) : res PropertyGraph :=
  let* r := rel (graph_ pg) k in
  let* '(pg1, h) := removeProperty pg id (r_payload r) in
  Ok (set_relPayload pg1 k r h).

Lemma removeNodeProperty_rep pg s L n l1 id v l2 :
  PRep pg s L → L !! inl n = Some (l1 ++ (id, v) :: l2) →
  ∃ pg', removeNodeProperty pg n id = Ok pg' ∧
    PRep pg' (spec_setNode s n (head (l1 ++ l2))) (<[inl n := l1 ++ l2]> L).
Proof.
  intros HP Hl. assert (∃ sn, sg_nodes s !! n = Some sn) as [sn Hn].
  { pose proof (prep_heads _ _ _ HP (inl n)) as H. simpl in H. rewrite Hl in H.
    destruct (sg_nodes s !! n); [eauto|done]. }
  destruct (prep_node _ _ _ _ _ HP Hn) as (l' & ? & Hh). simplify_eq.
  destruct (node_ok _ _ _ _ (prep_graph _ _ _ HP) Hn) as (e & Hok & He & _ & Hp & _).
  destruct (removeProperty_store pg L (inl n) l1 id v l2 (prep_store _ _ _ HP) Hl) as (pg1 & Ha & [Hg _ _ _ _] & HS).
  unfold removeNodeProperty. rewrite Hok. cbn [res_bind]. rewrite Hp, Hh, Ha. cbn [res_bind].
  eexists. split; [done|]. split.
  - simpl. rewrite Hg. by apply rep_setNode; [apply HP|].
  - by apply PStore_set_graph.
  - apply prep_heads_node; [eauto|apply HP].
Qed.

Lemma removeRelProperty_rep pg s L k l1 id v l2 :
  PRep pg s L → L !! inr k = Some (l1 ++ (id, v) :: l2) →
  ∃ pg', removeRelProperty pg k id = Ok pg' ∧
    PRep pg' (spec_setRel s k (head (l1 ++ l2))) (<[inr k := l1 ++ l2]> L).
Proof.
  intros HP Hl. assert (∃ sr, sg_rels s !! k = Some sr) as [sr Hr].
  { pose proof (prep_heads _ _ _ HP (inr k)) as H. simpl in H. rewrite Hl in H.
    destruct (sg_rels s !! k); [eauto|done]. }
  destruct (prep_rel _ _ _ _ _ HP Hr) as (l' & ? & Hh). simplify_eq.
  destruct (rel_ok _ _ _ _ (prep_graph _ _ _ HP) Hr) as (e & Hok & He & _ & Hp). rewrite <- Hp in Hh.
  destruct (removeProperty_store pg L (inr k) l1 id v l2 (prep_store _ _ _ HP) Hl) as (pg1 & Ha & [Hg _ _ _ _] & HS).
  unfold removeRelProperty. rewrite Hok. cbn [res_bind]. simpl in Hh. rewrite Hh, Ha. cbn [res_bind].
  eexists. split; [done|]. split.
  - simpl. rewrite Hg. by apply rep_setRel; [apply HP|].
  - by apply PStore_set_graph.
  - apply prep_heads_rel; [eauto|apply HP].
Qed.

(** ** removeNode *)

(** The graph and the properties after the loop over the relationships [l]. *)
Definition clear_rels (l : list Z) (s : spec) : spec := foldl (λ s k, spec_setRel s k GRAPH_NONE) s l.
Definition empty_rels (l : list Z) (L : props_of) : props_of := foldl (λ L k, <[inr k := []]> L) L l.

Lemma freeRelProps_rep n l2 : ∀ l1 fuel pg s L sn,
  PRep pg s L → sg_nodes s !! n = Some sn → sn_adj sn = l1 ++ l2 → (length l2 < fuel)%nat →
  ∃ pg', freeRelProps fuel pg n (hdd GRAPH_NONE l2) = Ok pg' ∧ PRep pg' (clear_rels l2 s) (empty_rels l2 L).
Proof.
  induction l2 as [|k l2 IH]; intros l1 [|fuel] pg s L sn HP Hn Hadj Hf; simpl in Hf; try lia; [by exists pg|].
  cbn [hdd freeRelProps].
  assert (k ∈ sn_adj sn) as Hk by (rewrite Hadj; set_solver).
  pose proof (rep_adj_bounds _ _ _ _ _ (prep_graph _ _ _ HP) Hn Hk) as Hkb.
  destruct (Z.eqb_spec k GRAPH_NONE); [unfold GRAPH_NONE in *; lia|].
  apply (swf_adj _ (rep_wf _ _ (prep_graph _ _ _ HP)) n sn k Hn) in Hk as (sr & Hsr & _).
  destruct (rel_ok _ _ _ _ (prep_graph _ _ _ HP) Hsr) as (r & Hok & Hr & _ & Hp).
  destruct (prep_rel _ _ _ _ _ HP Hsr) as (l & Hl & Hh). rewrite <- Hp in Hh. simpl in Hh.
  destruct (rep_node _ _ _ _ (prep_graph _ _ _ HP) Hn) as (_ & e & _ & _ & _ & Hc). rewrite Hadj in Hc.
  destruct (chain_member _ _ _ _ _ l1 k l2 r Hc Hr) as (_ & _ & Hnext).
  rewrite Hok. cbn [res_bind]. rewrite Hnext, Hh.
  destruct (freeChain_store pg L (inr k) l (prep_store _ _ _ HP) Hl) as (pg1 & Hfc & [Hg _ _ _ _] & HS).
  rewrite Hfc. cbn [res_bind]. rewrite Hg, (load_Some _ _ _ Hr). cbn [res_bind].
  apply (IH (l1 ++ [k]) fuel _ (spec_setRel s k GRAPH_NONE) (<[inr k := []]> L) sn); [|done|by rewrite <- app_assoc|lia].
  split.
  - simpl. rewrite Hg. by apply rep_setRel; [apply HP|].
  - by apply PStore_set_graph.
  - apply (prep_heads_rel s L k []); [eauto|apply HP].
Qed.

Lemma clear_rels_nodes l s : sg_nodes (clear_rels l s) = sg_nodes s.
Proof. revert s. induction l as [|k l IH]; intros s; [done|]. simpl. by rewrite IH. Qed.

Lemma clear_rels_out l s k : k ∉ l → sg_rels (clear_rels l s) !! k = sg_rels s !! k.
Proof.
  revert s. induction l as [|j l IH]; intros s Hk; [done|]. simpl. rewrite IH by set_solver. simpl.
  by rewrite lookup_alter_ne by set_solver.
Qed.

(** What the loop did to the relationships does not survive the removal. *)
Lemma spec_removeNode_cleared s n sn v :
  sg_nodes s !! n = Some sn →
  spec_removeNode (spec_setNode (clear_rels (sn_adj sn) s) n v) n = spec_removeNode s n.
Proof.
  intros Hn. unfold spec_removeNode. cbn [spec_setNode sg_nodes]. rewrite clear_rels_nodes, lookup_alter_eq, Hn.
  simpl. f_equal; apply map_eq; intros i.
  - rewrite !lookup_delete. case_decide; [done|]. rewrite !removeRels_node. simpl.
    by rewrite clear_rels_nodes, lookup_alter_ne by done.
  - rewrite !removeRels_rel. simpl. case_decide; [done|]. by rewrite clear_rels_out.
Qed.

Lemma empty_rels_in l L k : k ∈ l → empty_rels l L !! inr k = Some [].
Proof.
  revert L. induction l as [|j l IH]; intros L Hk; [set_solver|]. simpl.
  destruct (decide (k ∈ l)) as [|Hn]; [by apply IH|].
  assert (k = j) as -> by set_solver. clear IH Hk.
  assert (∀ L, L !! inr j = Some [] → empty_rels l L !! inr j = Some []) as H.
  { clear L. induction l as [|i l IHl]; intros L HL; [done|]. simpl. apply IHl; [set_solver|].
    rewrite lookup_insert_ne; [done|]. intros [= ->]. set_solver. }
  apply H, lookup_insert_eq.
Qed.

Lemma empty_rels_out l L o : (∀ k, o = inr k → k ∉ l) → empty_rels l L !! o = L !! o.
Proof.
  revert L. induction l as [|j l IH]; intros L Ho; [done|]. simpl. rewrite IH by set_solver.
  rewrite lookup_insert_ne; [done|]. intros <-. specialize (Ho j eq_refl). set_solver.
Qed.

Definition drop_rels (l : list Z) (L : props_of) : props_of := foldl (λ L k, delete (inr k) L) L l.

Lemma drop_rels_lookup l L o :
  drop_rels l L !! o = match o with inr k => if decide (k ∈ l) then None else L !! o | inl _ => L !! o end.
Proof.
  revert L. induction l as [|j l IH]; intros L; [by destruct o|]. simpl. rewrite IH. destruct o as [i|k].
  - by rewrite lookup_delete_ne.
  - rewrite lookup_delete. repeat case_decide; set_solver.
Qed.

Lemma drop_rels_store pg L l :
  PStore pg L → (∀ k, k ∈ l → L !! inr k = Some [] ∨ L !! inr k = None) → PStore pg (drop_rels l L).
Proof.
  revert L. induction l as [|k l IH]; intros L HS Hl; [done|]. simpl. apply IH.
  - destruct (Hl k) as [?|Hk]; [set_solver|by apply PStore_drop|]. by rewrite delete_id.
  - intros j Hj. rewrite lookup_delete. case_decide; [by right|]. apply Hl. set_solver.
Qed.

(** The properties that remain: those of the other nodes and of the
    relationships not incident to the removed node. *)
Definition props_without (s : spec) (n : Z) (L : props_of) : props_of :=
  delete (inl n) (drop_rels (default [] (sn_adj <$> sg_nodes s !! n)) L).

Lemma props_without_eq s n sn L :
  sg_nodes s !! n = Some sn →
  props_without s n L = delete (inl n) (drop_rels (sn_adj sn) (<[inl n := []]> (empty_rels (sn_adj sn) L))).
Proof.
  intros Hn. unfold props_without. rewrite Hn. simpl. apply map_eq. intros o. rewrite !lookup_delete.
  case_decide as Ho; [done|]. rewrite !drop_rels_lookup. destruct o as [i|k].
  - rewrite lookup_insert_ne by done. by rewrite empty_rels_out.
  - case_decide; [done|]. rewrite lookup_insert_ne by done. rewrite empty_rels_out; [done|]. by intros ? [= ->].
Qed.

Lemma pg_removeNode_rep pg s L n :
  PRep pg s L → is_Some (sg_nodes s !! n) →
  ∃ pg', pg_removeNode pg n = Ok pg' ∧ PRep pg' (spec_removeNode s n) (props_without s n L).
Proof.
  intros HP [sn Hn]. destruct (node_ok _ _ _ _ (prep_graph _ _ _ HP) Hn) as (e & Hok & He & _ & Hp & Hf).
  unfold pg_removeNode. rewrite Hok. cbn [res_bind]. rewrite Hf.
  destruct (freeRelProps_rep n (sn_adj sn) [] (S (Z.to_nat (relMark_ (graph_ pg)))) pg s L sn HP Hn eq_refl)
    as (pg1 & Hpg1 & HP1).
  { pose proof (rep_adj_length _ _ _ _ (prep_graph _ _ _ HP) Hn). lia. }
  rewrite Hpg1. cbn [res_bind].
  set (s1 := clear_rels (sn_adj sn) s) in *. set (L1 := empty_rels (sn_adj sn) L) in *.
  assert (sg_nodes s1 !! n = Some sn) as Hn1 by (unfold s1; by rewrite clear_rels_nodes).
  destruct (node_ok _ _ _ _ (prep_graph _ _ _ HP1) Hn1) as (e1 & _ & He1 & _ & Hp1 & _).
  destruct (prep_node _ _ _ _ _ HP1 Hn1) as (l & Hl & Hh).
  rewrite (load_Some _ _ _ He1). cbn [res_bind]. rewrite Hp1, Hh.
  destruct (freeChain_store pg1 L1 (inl n) l (prep_store _ _ _ HP1) Hl) as (pg2 & Hfc & [Hg _ _ _ _] & HS).
  rewrite Hfc. cbn [res_bind]. rewrite Hg, (load_Some _ _ _ He1). cbn [res_bind].
  assert (Rep (graph_ (set_nodePayload pg2 n e1 GRAPH_NONE)) (spec_setNode s1 n GRAPH_NONE)) as HR2.
  { simpl. rewrite Hg. by apply rep_setNode; [apply HP1|]. }
  destruct (removeNode_rep _ _ n HR2) as (g3 & Hg3 & HR3 & _).
  { rewrite lookup_setNode, Hn1. eauto. }
  rewrite Hg3. cbn [res_bind]. eexists. split; [done|].
  rewrite <- (spec_removeNode_cleared s n sn GRAPH_NONE Hn). rewrite (props_without_eq s n sn L Hn).
  split; [done| |].
  - apply PStore_set_graph, PStore_drop.
    + apply drop_rels_store; [by apply PStore_set_graph|]. intros k Hk. left.
      rewrite lookup_insert_ne by done. by apply empty_rels_in.
    + rewrite drop_rels_lookup. apply lookup_insert_eq.
  - rewrite (spec_removeNode_cleared s n sn GRAPH_NONE Hn), <- (props_without_eq s n sn L Hn).
    unfold props_without, spec_removeNode. rewrite Hn. simpl. intros [i|k]; rewrite lookup_delete, drop_rels_lookup; simpl.
    + rewrite lookup_delete. destruct (decide (n = i)) as [->|Hne]; [by rewrite decide_True|].
      rewrite decide_False by congruence. rewrite removeRels_node, <- option_fmap_compose.
      apply (prep_heads _ _ _ HP (inl i)).
    + rewrite removeRels_rel. case_decide; [done|]. apply (prep_heads _ _ _ HP (inr k)).
Qed.
