(* ===== verification/PropGraphProps.v ===== *)
(** * What the property graph guarantees

    Operations as a step function, their abstract effect as a step relation,
    reachability, and the claims about [PropertyGraph] and [PropertyData]. *)

From S2P Require Import Prelude Dll Graph GraphSpec GraphLink GraphRefine.
From S2P Require Import PropData PropertyGraph PropStore PropGraphRefine.

(** ** Operations as steps *)

Inductive pop :=
  | PAddNode
  | PAddRel (from to ty : Z)
  | PRemoveNode (n : Z)
  | PRemoveRel (k : Z)
  | PAddProp (o : owner) (k t v : Z)
  | PSetValue (id v : Z)
  | PRemoveProp (o : owner) (id : Z).

Definition pstep (pg : PropertyGraph) (op : pop) : res PropertyGraph :=
  match op with
  | PAddNode => let* '(pg', _) := pg_addNode pg in Ok pg'
  | PAddRel from to ty => let* '(pg', _) := pg_addRelationship pg from to ty in Ok pg'
  | PRemoveNode n => pg_removeNode pg n
  | PRemoveRel k => pg_removeRelationship pg k
  | PAddProp (inl n) k t v => let* '(pg', _) := addNodeProperty pg n k t v in Ok pg'
  | PAddProp (inr r) k t v => let* '(pg', _) := addRelProperty pg r k t v in Ok pg'
  | PSetValue id v => setPropertyValue pg id v
  | PRemoveProp (inl n) id => removeNodeProperty pg n id
  | PRemoveProp (inr r) id => removeRelProperty pg r id
  end.

(** The ids an operation names are live, and a removed property belongs to
    the named owner. *)
Definition plegal (s : spec) (L : props_of) (op : pop) : Prop :=
  match op with
  | PAddNode => True
  | PAddRel from to _ => is_Some (sg_nodes s !! from) ∧ is_Some (sg_nodes s !! to)
  | PRemoveNode n => is_Some (sg_nodes s !! n)
  | PRemoveRel k => is_Some (sg_rels s !! k)
  | PAddProp o _ _ _ => is_Some (L !! o)
  | PSetValue id _ => owned L id
  | PRemoveProp o id => ∃ l, L !! o = Some l ∧ id ∈ ids l
  end.

Definition pfull (pg : PropertyGraph) (op : pop) : Prop :=
  match op with
  | PAddNode => ¬ node_room (graph_ pg)
  | PAddRel _ _ _ => ¬ rel_room (graph_ pg)
  | PAddProp _ _ _ _ => ¬ prop_room pg
  | _ => False
  end.

Definition set_head (s : spec) (o : owner) (v : Z) : spec :=
  match o with inl i => spec_setNode s i v | inr k => spec_setRel s k v end.

(** The abstract effect: multigraph and property lists. *)
Inductive pspec_step (s : spec) (L : props_of) : pop → spec → props_of → Prop :=
  | ps_addNode id : sg_nodes s !! id = None →
      pspec_step s L PAddNode (spec_addNode s id GRAPH_NONE) (<[inl id := []]> L)
  | ps_addRel id from to ty : sg_rels s !! id = None →
      pspec_step s L (PAddRel from to ty) (spec_addRel s id from to (i32 ty) GRAPH_NONE) (<[inr id := []]> L)
  | ps_removeNode n : pspec_step s L (PRemoveNode n) (spec_removeNode s n) (props_without s n L)
  | ps_removeRel k : pspec_step s L (PRemoveRel k) (spec_removeRel s k) (delete (inr k) L)
  | ps_addProp o id k t v l : L !! o = Some l → ¬ owned L id →
      pspec_step s L (PAddProp o k t v) (set_head s o id) (<[o := (id, (k, t, v)) :: l]> L)
  | ps_setValue o l1 id k t v l2 v' : L !! o = Some (l1 ++ (id, (k, t, v)) :: l2) →
      pspec_step s L (PSetValue id v') s (<[o := l1 ++ (id, (k, t, v')) :: l2]> L)
  | ps_removeProp o l1 id w l2 : L !! o = Some (l1 ++ (id, w) :: l2) →
      pspec_step s L (PRemoveProp o id) (set_head s o (head (l1 ++ l2))) (<[o := l1 ++ l2]> L).

Lemma ids_split l id : id ∈ ids l → ∃ l1 w l2, l = l1 ++ (id, w) :: l2.
Proof. intros [w Hw]%ids_elem. apply list_elem_of_split in Hw as (l1 & l2 & ->). eauto. Qed.

Lemma pg_full pg op : pfull pg op →
  (match op with PAddProp (inl n) _ _ _ => is_ok (node (graph_ pg) n)
               | PAddProp (inr r) _ _ _ => is_ok (rel (graph_ pg) r) | _ => True end) →
  pstep pg op = Fault AssertFailed.
Proof.
  destruct op as [|from to ty|n|k|[n|r] k t v|id v|o id]; simpl; try done.
  - intros ? _. unfold pg_addNode. by rewrite addNode_full.
  - intros ? _. unfold pg_addRelationship. by rewrite addRelationship_full.
  - intros ? [e He]. unfold addNodeProperty. rewrite He. cbn [res_bind]. by rewrite addPropertyToChain_full.
  - intros ? [e He]. unfold addRelProperty. rewrite He. cbn [res_bind]. by rewrite addPropertyToChain_full.
Qed.

Lemma prep_owner_ok pg s L o : PRep pg s L → is_Some (L !! o) →
  match o with inl n => is_ok (node (graph_ pg) n) | inr r => is_ok (rel (graph_ pg) r) end.
Proof.
  intros HP [l Hl]. pose proof (prep_heads _ _ _ HP o) as Hh. rewrite Hl in Hh. destruct o as [n|r]; simpl in Hh.
  - destruct (sg_nodes s !! n) as [sn|] eqn:Hn; [|done].
    destruct (node_ok _ _ _ _ (prep_graph _ _ _ HP) Hn) as (e & ? & _). by exists e.
  - destruct (sg_rels s !! r) as [sr|] eqn:Hr; [|done].
    destruct (rel_ok _ _ _ _ (prep_graph _ _ _ HP) Hr) as (e & ? & _). by exists e.
Qed.

#[global] Instance pool_room_dec mark cap fr : Decision (pool_room mark cap fr).
Proof. unfold pool_room. apply _. Defined.

Lemma pstep_addProp pg s L o k t v :
  PRep pg s L → is_Some (L !! o) → prop_room pg →
  ∃ pg' s' L', pstep pg (PAddProp o k t v) = Ok pg' ∧ pspec_step s L (PAddProp o k t v) s' L' ∧ PRep pg' s' L'.
Proof.
  intros HP [l Hl] Hr. destruct o as [n|r]; cbn [pstep].
  - destruct (addNodeProperty_rep pg s L n l k t v HP Hl Hr) as (pg' & id & -> & Hnew & HP').
    eexists pg', _, _. split_and!; [done| |exact HP']. by apply (ps_addProp s L (inl n)).
  - destruct (addRelProperty_rep pg s L r l k t v HP Hl Hr) as (pg' & id & -> & Hnew & HP').
    eexists pg', _, _. split_and!; [done| |exact HP']. by apply (ps_addProp s L (inr r)).
Qed.

Lemma pstep_removeProp pg s L o id :
  PRep pg s L → plegal s L (PRemoveProp o id) →
  ∃ pg' s' L', pstep pg (PRemoveProp o id) = Ok pg' ∧ pspec_step s L (PRemoveProp o id) s' L' ∧ PRep pg' s' L'.
Proof.
  intros HP (l & Hl & Hid). apply ids_split in Hid as (l1 & w & l2 & ->). destruct o as [n|r]; cbn [pstep].
  - destruct (removeNodeProperty_rep pg s L n l1 id w l2 HP Hl) as (pg' & -> & HP').
    eexists pg', _, _. split_and!; [done| |exact HP']. by apply (ps_removeProp s L (inl n) l1 id w l2).
  - destruct (removeRelProperty_rep pg s L r l1 id w l2 HP Hl) as (pg' & -> & HP').
    eexists pg', _, _. split_and!; [done| |exact HP']. by apply (ps_removeProp s L (inr r) l1 id w l2).
Qed.

Lemma pstep_ok pg s L op :
  PRep pg s L → plegal s L op → ¬ pfull pg op →
  ∃ pg' s' L', pstep pg op = Ok pg' ∧ pspec_step s L op s' L' ∧ PRep pg' s' L'.
Proof.
  intros HP Hl Hf. destruct op as [|from to ty|n|k|o k t v|id v|o id].
  - destruct (decide (node_room (graph_ pg))) as [Hr|]; [|by destruct Hf].
    destruct (pg_addNode_rep pg s L HP Hr) as (pg' & id & Ha & ? & ?). cbn [pstep]. rewrite Ha.
    eexists _, _, _. split_and!; [done|by constructor|done].
  - destruct (decide (rel_room (graph_ pg))) as [Hr|]; [|by destruct Hf]. destruct Hl as [Hl1 Hl2].
    destruct (pg_addRelationship_rep pg s L from to ty HP Hr Hl1 Hl2) as (pg' & id & Ha & ? & ?).
    cbn [pstep]. rewrite Ha. eexists _, _, _. split_and!; [done|by constructor|done].
  - destruct (pg_removeNode_rep pg s L n HP Hl) as (pg' & ? & ?). eexists _, _, _. split_and!; [done|constructor|done].
  - destruct (pg_removeRelationship_rep pg s L k HP Hl) as (pg' & ? & ?).
    eexists _, _, _. split_and!; [done|constructor|done].
  - destruct (decide (prop_room pg)) as [Hr|]; [|by destruct Hf]. by apply pstep_addProp.
  - destruct Hl as (o & l & Ho & Hid). apply ids_split in Hid as (l1 & [[k t] w] & l2 & ->).
    destruct (setPropertyValue_rep pg s L o l1 id k t w l2 v HP Ho) as (pg' & ? & ?).
    eexists _, _, _. split_and!; [done|by econstructor|done].
  - by apply pstep_removeProp.
Qed.

#[global] Instance pfull_dec pg op : Decision (pfull pg op).
Proof. destruct op; simpl; apply _. Defined.

Lemma pstep_simulation pg s L op :
  PRep pg s L → plegal s L op →
  (pfull pg op ∧ pstep pg op = Fault AssertFailed) ∨
  ∃ pg' s' L', pstep pg op = Ok pg' ∧ pspec_step s L op s' L' ∧ PRep pg' s' L'.
Proof.
  intros HP Hl. destruct (decide (pfull pg op)) as [Hf|Hf]; [left|right; by apply pstep_ok].
  split; [done|]. apply pg_full; [done|]. destruct op as [|?|?|?|[n|r] ? ? ?|?|?]; try done.
  - by apply (prep_owner_ok pg s L (inl n)).
  - by apply (prep_owner_ok pg s L (inr r)).
Qed.

(** ** Reading property lists *)

Lemma read_chain_ok l : ∀ fuel ps p c,
  dseg prevPropId nextPropId live_prop ps p c (ids l) GRAPH_NONE →
  (∀ i v, (i, v) ∈ l → ∃ r, zget ps i = Some r ∧ val_of r = v) → (length l < fuel)%nat →
  read_chain fuel ps c = Ok l.
Proof.
  induction l as [|[i v] l IH]; intros [|fuel] ps p c Hd Hv Hf; simpl in Hf; try lia.
  - simpl in Hd. by subst c.
  - destruct Hd as (-> & r & Hr & _ & _ & Hd). simpl in Hr. pose proof (zget_lt _ _ _ Hr). cbn [read_chain fst].
    destruct (Z.eqb_spec i GRAPH_NONE); [unfold GRAPH_NONE in *; lia|].
    rewrite (load_Some _ _ _ Hr). cbn [res_bind].
    erewrite IH; [|exact Hd|intros; apply Hv; by right|lia]. cbn [res_bind].
    destruct (Hv i v) as (r' & ? & <-); [left|]. by simplify_eq.
Qed.

Lemma store_read pg L o l :
  PStore pg L → L !! o = Some l → read_chain (propFuel pg) (props_ pg) (head l) = Ok l.
Proof.
  intros HS Ho. destruct (ps_chain _ _ HS _ _ Ho) as [Hnd Hc]. eapply read_chain_ok; [exact Hc| |].
  - intros i v. by apply (ps_vals _ _ HS o l).
  - unfold propFuel. enough (length (ids l) ≤ Z.to_nat (propMark_ pg))%nat as H.
    { unfold ids in H. rewrite length_fmap in H. lia. }
    apply NoDup_bounded_length; [done|]. intros i Hi. apply (pool_live _ _ _ _ (ps_pool _ _ HS)). by exists o, l.
Qed.

Definition properties (pg : PropertyGraph) (o : owner) : res (list (Z * propval)) :=
  match o with inl n => node_properties pg n | inr k => rel_properties pg k end.

Lemma prep_read pg s L o l : PRep pg s L → L !! o = Some l → properties pg o = Ok l.
Proof.
  intros HP Ho. pose proof (prep_heads _ _ _ HP o) as Hh. rewrite Ho in Hh. destruct o as [n|k]; simpl in *.
  - destruct (sg_nodes s !! n) as [sn|] eqn:Hn; simplify_eq/=.
    destruct (node_ok _ _ _ _ (prep_graph _ _ _ HP) Hn) as (e & He & _ & _ & Hp & _).
    unfold node_properties. rewrite He. cbn [res_bind]. rewrite Hp, Hh. eapply store_read; [apply HP|done].
  - destruct (sg_rels s !! k) as [sr|] eqn:Hn; simplify_eq/=.
    destruct (rel_ok _ _ _ _ (prep_graph _ _ _ HP) Hn) as (r & Hr & _ & _ & Hs). subst sr. simpl in Hh.
    unfold rel_properties. rewrite Hr. cbn [res_bind]. rewrite Hh. eapply store_read; [apply HP|done].
Qed.

(** ** Reachability *)

Definition owner_live (pg : PropertyGraph) (o : owner) : Prop :=
  match o with inl n => is_Some (abs_node (graph_ pg) n) | inr k => is_Some (abs_rel (graph_ pg) k) end.
Definition has_prop (pg : PropertyGraph) (o : owner) (id : Z) : Prop :=
  owner_live pg o ∧ ∃ l, properties pg o = Ok l ∧ id ∈ ids l.

(** [plegal] on the concrete state. *)
Definition legal_on (pg : PropertyGraph) (op : pop) : Prop :=
  match op with
  | PAddNode => True
  | PAddRel from to _ => owner_live pg (inl from) ∧ owner_live pg (inl to)
  | PRemoveNode n => owner_live pg (inl n)
  | PRemoveRel k => owner_live pg (inr k)
  | PAddProp o _ _ _ => owner_live pg o
  | PSetValue id _ => ∃ o, has_prop pg o id
  | PRemoveProp o id => has_prop pg o id
  end.

Lemma owner_live_rep pg s L o : PRep pg s L → owner_live pg o ↔ is_Some (head_of s o).
Proof.
  intros HP. destruct o as [n|k]; simpl; rewrite fmap_is_Some.
  - by rewrite <- (rep_nodes _ _ (prep_graph _ _ _ HP)), fmap_is_Some.
  - by rewrite <- (rep_rels _ _ (prep_graph _ _ _ HP)).
Qed.

Lemma owner_live_props pg s L o : PRep pg s L → owner_live pg o ↔ is_Some (L !! o).
Proof. intros HP. by rewrite (owner_live_rep _ _ _ _ HP), (prep_heads _ _ _ HP), fmap_is_Some. Qed.

Lemma has_prop_rep pg s L o id : PRep pg s L → has_prop pg o id ↔ ∃ l, L !! o = Some l ∧ id ∈ ids l.
Proof.
  intros HP. unfold has_prop. rewrite (owner_live_props _ _ _ _ HP). split.
  - intros [[l Hl] (l' & Hr & Hid)]. rewrite (prep_read _ _ _ _ _ HP Hl) in Hr. simplify_eq. eauto.
  - intros (l & Hl & Hid). split; [by eauto|]. exists l. by rewrite (prep_read _ _ _ _ _ HP Hl).
Qed.

Lemma legal_on_rep pg s L op : PRep pg s L → legal_on pg op → plegal s L op.
Proof.
  intros HP. destruct op; simpl; try done.
  - pose proof (owner_live_rep _ _ _ (inl from) HP) as H1. pose proof (owner_live_rep _ _ _ (inl to) HP) as H2.
    simpl in *. rewrite H1, H2, !fmap_is_Some. done.
  - pose proof (owner_live_rep _ _ _ (inl n) HP) as H. simpl in H. by rewrite H, fmap_is_Some.
  - pose proof (owner_live_rep _ _ _ (inr k) HP) as H. simpl in H. by rewrite H, fmap_is_Some.
  - by rewrite (owner_live_props _ _ _ _ HP).
  - intros [o (l & ? & ?)%(has_prop_rep _ _ _ _ _ HP)]. by exists o, l.
  - by rewrite (has_prop_rep _ _ _ _ _ HP).
Qed.

Inductive preach (ncap rcap pcap : Z) : PropertyGraph → Prop :=
  | preach_new : preach ncap rcap pcap (pg_create ncap rcap pcap)
  | preach_step pg op pg' :
      preach ncap rcap pcap pg → legal_on pg op → pstep pg op = Ok pg' → preach ncap rcap pcap pg'.

Lemma preach_rep ncap rcap pcap pg :
  0 ≤ ncap → 0 ≤ rcap → 0 ≤ pcap → preach ncap rcap pcap pg → ∃ s L, PRep pg s L.
Proof.
  intros Hn Hr Hp. induction 1 as [|pg op pg' _ (s & L & HP) Hl%(legal_on_rep _ s L) Hs]; [| |done].
  - eexists _, _. by apply pg_create_rep.
  - destruct (pstep_simulation pg s L op HP Hl) as [[_ ?]|(? & s' & L' & ? & _ & ?)]; [congruence|].
    exists s', L'. congruence.
Qed.

(** ** A sample: two nodes, a relationship between them, two node properties
    and one relationship property. *)
Fixpoint prun (pg : PropertyGraph) (ops : list pop) : res PropertyGraph :=
  match ops with [] => Ok pg | op :: ops => let* pg' := pstep pg op in prun pg' ops end.

Definition psample_ops : list pop :=
  [PAddNode; PAddNode; PAddRel 0 1 7; PAddProp (inl 0) 1 2 3; PAddProp (inl 0) 4 5 6; PAddProp (inr 0) 7 8 9].
Definition psample : PropertyGraph :=
  match prun (pg_create 4 4 4) psample_ops with Ok pg => pg | Fault _ => pg_create 0 0 0 end.

Fixpoint prun_legal (pg : PropertyGraph) (ops : list pop) : Prop :=
  match ops with
  | [] => True
  | op :: ops => legal_on pg op ∧ match pstep pg op with Ok pg' => prun_legal pg' ops | Fault _ => True end
  end.

Lemma preach_run ncap rcap pcap ops : ∀ pg pg',
  preach ncap rcap pcap pg → prun_legal pg ops → prun pg ops = Ok pg' → preach ncap rcap pcap pg'.
Proof.
  induction ops as [|op ops IH]; intros pg pg' Hp Hl Hr; cbn [prun] in Hr; [by simplify_eq|].
  destruct Hl as [Hl Hls]. apply res_bind_ok in Hr as (pg1 & Hs & Hr). rewrite Hs in Hls.
  eapply IH; [|done..]. by econstructor.
Qed.

Lemma psample_reach : preach 4 4 4 psample.
Proof.
  apply (preach_run 4 4 4 psample_ops (pg_create 4 4 4)); [constructor| |vm_compute; reflexivity].
  vm_compute. repeat split; by eexists.
Qed.

Lemma psample_rep : ∃ s L, PRep psample s L.
Proof. apply (preach_rep 4 4 4); [done..|apply psample_reach]. Qed.

(** ** Lemmas for the claims *)

Lemma properties_same pg s L pg' s' L' o :
  PRep pg s L → PRep pg' s' L' → L' !! o = L !! o → owner_live pg o → properties pg' o = properties pg o.
Proof.
  intros HP HP' He Ho. rewrite (owner_live_props _ _ _ _ HP) in Ho. destruct Ho as [l Hl].
  rewrite (prep_read _ _ _ _ _ HP Hl). rewrite Hl in He. by rewrite (prep_read _ _ _ _ _ HP' He).
Qed.

(** The owners that go away with node [n]. *)
Definition gone_with (pg : PropertyGraph) (n : Z) (o : owner) : Prop :=
  match o with
  | inl i => i = n
  | inr k => ∃ r, abs_rel (graph_ pg) k = Some r ∧ incident n r
  end.

Lemma gone_with_adj pg s L n sn o : PRep pg s L → sg_nodes s !! n = Some sn →
  gone_with pg n o ↔ match o with inl i => i = n | inr k => k ∈ sn_adj sn end.
Proof.
  intros HP Hn. destruct o as [i|k]; [done|]. simpl.
  rewrite (swf_adj _ (rep_wf _ _ (prep_graph _ _ _ HP)) n sn k Hn). 
  by setoid_rewrite (rep_rels _ _ (prep_graph _ _ _ HP) k).
Qed.

Lemma props_without_lookup pg s L n sn o : PRep pg s L → sg_nodes s !! n = Some sn →
  (gone_with pg n o ∧ props_without s n L !! o = None) ∨
  (¬ gone_with pg n o ∧ props_without s n L !! o = L !! o).
Proof.
  intros HP Hn. rewrite (gone_with_adj pg s L n sn o HP Hn). unfold props_without. rewrite Hn. simpl.
  rewrite lookup_delete, drop_rels_lookup. destruct o as [i|k].
  - destruct (decide (i = n)) as [->|Hne]; [by rewrite decide_True; auto|].
    rewrite decide_False by congruence. auto.
  - rewrite decide_False by done. case_decide; auto.
Qed.

Lemma addNodeProperty_det pg s L n l k t v pg' id :
  PRep pg s L → L !! inl n = Some l → addNodeProperty pg n k t v = Ok (pg', id) →
  ¬ owned L id ∧ PRep pg' (spec_setNode s n id) (<[inl n := (id, (k, t, v)) :: l]> L).
Proof.
  intros HP Hl Ha. destruct (decide (prop_room pg)) as [Hr|Hr].
  - destruct (addNodeProperty_rep pg s L n l k t v HP Hl Hr) as (? & ? & Ha' & ? & ?).
    by rewrite Ha in Ha'; injection Ha' as <- <-.
  - destruct (prep_owner_ok pg s L (inl n) HP) as [e He]; [by eauto|].
    unfold addNodeProperty in Ha. rewrite He in Ha. cbn [res_bind] in Ha. by rewrite addPropertyToChain_full in Ha.
Qed.

Lemma spec_setNode_back s n sn v :
  sg_nodes s !! n = Some sn → spec_setNode (spec_setNode s n v) n (sn_payload sn) = s.
Proof.
  intros Hn. destruct s as [ns rs]. unfold spec_setNode. simpl in *. f_equal. apply map_eq. intros i.
  destruct (decide (i = n)) as [->|]; [|by rewrite !lookup_alter_ne].
  rewrite !lookup_alter_eq, Hn. by destruct sn.
Qed.

(** Deleting a node also deletes nothing else: liveness afterwards. *)
Lemma live_after pg s L pg' s' L' o : PRep pg s L → PRep pg' s' L' →
  (L' !! o = L !! o → owner_live pg' o ↔ owner_live pg o) ∧ (L' !! o = None → ¬ owner_live pg' o).
Proof.
  intros HP HP'. rewrite (owner_live_props _ _ _ _ HP), (owner_live_props _ _ _ _ HP'). split.
  - by intros ->.
  - intros ->. by intros [? ?].
Qed.

(** ** Claims about the property graph *)

(** C2. Forward simulation of the property graph: where the buffers represent
    a multigraph with an ordered property list per node and relationship, an
    operation on live ids either takes the abstract step or stops at a capacity
    assertion because the buffer it needs is full.  In particular the freeing
    loops of [removeNode] and [removeRelationship] terminate. *)
Theorem property_graph_simulation pg s L op :
  PRep pg s L → legal_on pg op →
  (pfull pg op ∧ pstep pg op = Fault AssertFailed) ∨
  ∃ pg' s' L', pstep pg op = Ok pg' ∧ pspec_step s L op s' L' ∧ PRep pg' s' L'.
Proof. intros HP Hl. apply pstep_simulation; [done|]. by eapply legal_on_rep. Qed.

Lemma property_graph_simulation_witness :
  ∃ s L, (pfull psample (PRemoveNode 0) ∧ pstep psample (PRemoveNode 0) = Fault AssertFailed) ∨
  ∃ pg' s' L', pstep psample (PRemoveNode 0) = Ok pg' ∧ pspec_step s L (PRemoveNode 0) s' L' ∧ PRep pg' s' L'.
Proof.
  destruct psample_rep as (s & L & HP). exists s, L.
  apply property_graph_simulation; [exact HP|vm_compute; by eexists].
Defined.

(** C3. No property record is lost or shared: in every reachable state each
    record below the high-water mark is either in the free list and in no
    chain, or not in the free list and in the chain of exactly one live node or
    relationship; the free list has no duplicates, so nothing is freed twice. *)
Theorem property_graph_no_leak ncap rcap pcap pg :
  0 ≤ ncap → 0 ≤ rcap → 0 ≤ pcap → preach ncap rcap pcap pg →
  NoDup (freeProps_ pg) ∧
  ∀ i, 0 ≤ i < propMark_ pg →
    (i ∈ freeProps_ pg ∧ ∀ o, ¬ has_prop pg o i) ∨
    ((i ∉ freeProps_ pg) ∧ ∃ o, has_prop pg o i ∧ ∀ o', has_prop pg o' i → o' = o).
Proof.
  intros Hn Hr Hp Hreach. destruct (preach_rep _ _ _ _ Hn Hr Hp Hreach) as (s & L & HP).
  pose proof (ps_pool _ _ (prep_store _ _ _ HP)) as Hpool. split; [by eapply pool_nodup|].
  intros i Hi. destruct (decide (i ∈ freeProps_ pg)) as [Hf|Hf]; [left|right]; split; try done.
  - intros o (l & ? & ?)%(has_prop_rep _ _ _ _ _ HP).
    apply (pool_free_elem _ _ _ _ Hpool) in Hf as [_ []]. by exists o, l.
  - destruct (decide (map_Exists (λ _ l, i ∈ ids l) L)) as [(o & l & Ho & Hil)|Hno].
    + exists o. split; [apply (has_prop_rep _ _ _ _ _ HP); eauto|].
      intros o' (l' & ? & ?)%(has_prop_rep _ _ _ _ _ HP). by eapply (ps_disj _ _ (prep_store _ _ _ HP)).
    + destruct Hf. apply (pool_free_elem _ _ _ _ Hpool). split; [done|]. intros (o & l & ? & ?).
      apply Hno. by exists o, l.
Qed.

Lemma property_graph_no_leak_witness :
  NoDup (freeProps_ psample) ∧
  ∀ i, 0 ≤ i < propMark_ psample →
    (i ∈ freeProps_ psample ∧ ∀ o, ¬ has_prop psample o i) ∨
    ((i ∉ freeProps_ psample) ∧ ∃ o, has_prop psample o i ∧ ∀ o', has_prop psample o' i → o' = o).
Proof. apply (property_graph_no_leak 4 4 4); [done..|apply psample_reach]. Defined.

(** A property added to a node is read back first, with the key, type and
    value given, in front of the properties the node had; no other owner's
    properties change. *)
Theorem property_graph_add_read pg s L n l k t v pg' id :
  PRep pg s L → owner_live pg (inl n) → node_properties pg n = Ok l →
  addNodeProperty pg n k t v = Ok (pg', id) →
  node_properties pg' n = Ok ((id, (k, t, v)) :: l) ∧ (id ∉ ids l) ∧
  ∀ o, o ≠ inl n → owner_live pg o → properties pg' o = properties pg o.
Proof.
  intros HP Ho Hl Ha. pose proof Ho as [l' Hl']%(owner_live_props _ _ _ _ HP).
  change (properties pg (inl n) = Ok l) in Hl. rewrite (prep_read _ _ _ _ _ HP Hl') in Hl. simplify_eq.
  destruct (addNodeProperty_det pg s L n l k t v pg' id HP Hl' Ha) as [Hnew HP'].
  split_and!.
  - apply (prep_read _ _ _ (inl n) _ HP'), lookup_insert_eq.
  - intros Hid. apply Hnew. by exists (inl n), l.
  - intros o Hne Holive. eapply properties_same; [exact HP|exact HP'| |done]. by rewrite lookup_insert_ne.
Qed.

Lemma property_graph_add_read_witness :
  ∃ pg' id, addNodeProperty psample 0 10 11 12 = Ok (pg', id) ∧
    node_properties pg' 0 = Ok [(id, (10, 11, 12)); (1, (4, 5, 6)); (0, (1, 2, 3))].
Proof.
  destruct psample_rep as (s & L & HP).
  destruct (addNodeProperty psample 0 10 11 12) as [[pg' id]|] eqn:Ha; [|vm_compute in Ha; discriminate Ha].
  exists pg', id. split; [reflexivity|].
  refine (proj1 (property_graph_add_read psample s L 0 _ 10 11 12 pg' id HP _ _ Ha)); vm_compute; by eauto.
Defined.

(** [PropertyGraph::removeNode] removes exactly the node and the
    relationships incident to it; every other node and relationship keeps its
    properties, in order. *)
Theorem property_graph_removeNode_effect pg s L n :
  PRep pg s L → owner_live pg (inl n) →
  ∃ pg', pg_removeNode pg n = Ok pg' ∧
    ∀ o, owner_live pg o →
      (gone_with pg n o ∧ ¬ owner_live pg' o) ∨
      (¬ gone_with pg n o ∧ owner_live pg' o ∧ properties pg' o = properties pg o).
Proof.
  intros HP Hn. assert (is_Some (sg_nodes s !! n)) as [sn Hsn].
  { apply (owner_live_rep _ _ _ _ HP) in Hn. simpl in Hn. by rewrite fmap_is_Some in Hn. }
  destruct (pg_removeNode_rep pg s L n HP) as (pg' & Hpg' & HP'); [by eauto|].
  exists pg'. split; [done|]. intros o Ho. destruct (live_after _ _ _ _ _ _ o HP HP') as [Hkeep Hgone].
  destruct (props_without_lookup pg s L n sn o HP Hsn) as [[? Hl]|[? Hl]]; [left; by auto|right].
  split_and!; [done|by apply Hkeep|]. by eapply properties_same.
Qed.

Lemma property_graph_removeNode_effect_witness :
  ∃ pg', pg_removeNode psample 0 = Ok pg' ∧
    ∀ o, owner_live psample o →
      (gone_with psample 0 o ∧ ¬ owner_live pg' o) ∨
      (¬ gone_with psample 0 o ∧ owner_live pg' o ∧ properties pg' o = properties psample o).
Proof.
  destruct psample_rep as (s & L & HP).
  apply (property_graph_removeNode_effect psample s L 0); [exact HP|vm_compute; by eexists].
Defined.

(** Adding a property to a node and removing it again represents the same
    multigraph and the same property lists as before. *)
Theorem property_add_remove_roundtrip pg s L n k t v pg' id :
  PRep pg s L → owner_live pg (inl n) → addNodeProperty pg n k t v = Ok (pg', id) →
  ∃ pg'', removeNodeProperty pg' n id = Ok pg'' ∧ PRep pg'' s L.
Proof.
  intros HP Ho Ha. pose proof Ho as [l Hl]%(owner_live_props _ _ _ _ HP).
  destruct (addNodeProperty_det pg s L n l k t v pg' id HP Hl Ha) as [_ HP'].
  destruct (removeNodeProperty_rep pg' _ _ n [] id (k, t, v) l HP' (lookup_insert_eq _ _ _)) as (pg'' & Hr & HP'').
  exists pg''. split; [done|]. simpl in HP''. rewrite insert_insert_eq, (insert_id L) in HP'' by done.
  apply (owner_live_rep _ _ _ _ HP) in Ho. simpl in Ho. rewrite fmap_is_Some in Ho. destruct Ho as [sn Hn].
  destruct (prep_node _ _ _ _ _ HP Hn) as (l' & ? & Hh). simplify_eq.
  by rewrite <- Hh, (spec_setNode_back s n sn id Hn) in HP''.
Qed.

Lemma property_add_remove_roundtrip_witness :
  ∃ s L pg' id, addNodeProperty psample 0 10 11 12 = Ok (pg', id) ∧
    ∃ pg'', removeNodeProperty pg' 0 id = Ok pg'' ∧ PRep pg'' s L.
Proof.
  destruct psample_rep as (s & L & HP). exists s, L.
  destruct (addNodeProperty psample 0 10 11 12) as [[pg' id]|] eqn:Ha; [|vm_compute in Ha; discriminate Ha].
  exists pg', id. split; [reflexivity|].
  apply (property_add_remove_roundtrip psample s L 0 10 11 12 pg' id HP); [vm_compute; by eexists|exact Ha].
Defined.
