(* ===== verification/Datatypes.v ===== *)
(** * XSD datatypes

    Model of [gengodb::semantics::xsd] (include/gengodb/semantics/Datatypes.h,
    src/gengodb/semantics/Datatypes.cpp): the enumeration of datatypes, its
    persisted integer values, and the tables between types and names.  The
    enumerators carry a [T] prefix ([TString] is [Type::String]). *)

From S2P Require Import Prelude.

Inductive Type_ :=
  | TUnspecified
  | TString
  | TBoolean
  | TDecimal
  | TFloat
  | TDouble
  | TDuration
  | TDateTime
  | TTime
  | TDate
  | TGYearMonth
  | TGYear
  | TGMonthDay
  | TGDay
  | TGMonth
  | THexBinary
  | TBase64Binary
  | TAnyURI
  | TQName
  | TNotation
  | TNormalizedString
  | TToken
  | TLanguage
  | TNMTOKEN
  | TNMTOKENS
  | TName
  | TNCName
  | TID
  | TIDREF
  | TIDREFS
  | TENTITY
  | TENTITIES
  | TInteger
  | TNonPositiveInteger
  | TNegativeInteger
  | TLong
  | TInt
  | TShort
  | TByte
  | TNonNegativeInteger
  | TUnsignedLong
  | TUnsignedInt
  | TUnsignedShort
  | TUnsignedByte
  | TPositiveInteger
  | TNode
  | TLangString
  | TAnyIRI
  | TAnyLiteralNode
  | TAnyLiteralScalar
  | TEdge.

(** [to_int32]: the explicit value of each enumerator. *)
Definition to_int32 (t : Type_) : Z :=
  match t with
  | TUnspecified => 0
  | TString => 1
  | TBoolean => 2
  | TDecimal => 3
  | TFloat => 4
  | TDouble => 5
  | TDuration => 6
  | TDateTime => 7
  | TTime => 8
  | TDate => 9
  | TGYearMonth => 10
  | TGYear => 11
  | TGMonthDay => 12
  | TGDay => 13
  | TGMonth => 14
  | THexBinary => 15
  | TBase64Binary => 16
  | TAnyURI => 17
  | TQName => 18
  | TNotation => 19
  | TNormalizedString => 100
  | TToken => 101
  | TLanguage => 102
  | TNMTOKEN => 103
  | TNMTOKENS => 104
  | TName => 105
  | TNCName => 106
  | TID => 107
  | TIDREF => 108
  | TIDREFS => 109
  | TENTITY => 110
  | TENTITIES => 111
  | TInteger => 200
  | TNonPositiveInteger => 201
  | TNegativeInteger => 202
  | TLong => 203
  | TInt => 204
  | TShort => 205
  | TByte => 206
  | TNonNegativeInteger => 207
  | TUnsignedLong => 208
  | TUnsignedInt => 209
  | TUnsignedShort => 210
  | TUnsignedByte => 211
  | TPositiveInteger => 212
  | TNode => 1000
  | TLangString => 1001
  | TAnyIRI => 1002
  | TAnyLiteralNode => 1003
  | TAnyLiteralScalar => 1004
  | TEdge => 1005
  end.

Definition all_types : list Type_ :=
  [TUnspecified; TString; TBoolean; TDecimal; TFloat; TDouble; TDuration; TDateTime; TTime; TDate;
   TGYearMonth; TGYear; TGMonthDay; TGDay; TGMonth; THexBinary; TBase64Binary; TAnyURI; TQName;
   TNotation; TNormalizedString; TToken; TLanguage; TNMTOKEN; TNMTOKENS; TName; TNCName; TID;
   TIDREF; TIDREFS; TENTITY; TENTITIES; TInteger; TNonPositiveInteger; TNegativeInteger; TLong;
   TInt; TShort; TByte; TNonNegativeInteger; TUnsignedLong; TUnsignedInt; TUnsignedShort;
   TUnsignedByte; TPositiveInteger; TNode; TLangString; TAnyIRI; TAnyLiteralNode;
   TAnyLiteralScalar; TEdge].

(** The values identify the enumerators. *)
Lemma to_int32_back t : find (λ u, to_int32 u =? to_int32 t) all_types = Some t.
Proof. destruct t; vm_compute; reflexivity. Qed.

Lemma to_int32_inj t u : to_int32 t = to_int32 u → t = u.
Proof. intros H. pose proof (to_int32_back t) as Ht. rewrite H, to_int32_back in Ht. by injection Ht. Qed.

#[global] Instance Type_eq_dec : EqDecision Type_.
Proof.
  intros t u. destruct (decide (to_int32 t = to_int32 u)) as [H|H].
  - left. by apply to_int32_inj.
  - right. by intros ->.
Defined.

(** The enumerators that [from_int32] lists as cases. *)
Definition known_types : list Type_ :=
  [TUnspecified; TString; TBoolean; TDecimal; TFloat; TDouble; TDuration; TDateTime; TTime; TDate;
   TGYearMonth; TGYear; TGMonthDay; TGDay; TGMonth; THexBinary; TBase64Binary; TAnyURI; TQName;
   TNotation; TNormalizedString; TToken; TLanguage; TNMTOKEN; TNMTOKENS; TName; TNCName; TID;
   TIDREF; TIDREFS; TENTITY; TENTITIES; TInteger; TNonPositiveInteger; TNegativeInteger; TLong;
   TInt; TShort; TByte; TNonNegativeInteger; TUnsignedLong; TUnsignedInt; TUnsignedShort;
   TUnsignedByte; TPositiveInteger; TLangString; TAnyLiteralNode; TAnyLiteralScalar].

(** [switch (static_cast<Type>(value))]: a listed case, or no type. *)
Definition from_int32 (value : Z) : option Type_ :=
  find (λ t, to_int32 t =? value) known_types.

(** The static tables of [to_string] and [from_string]. *)
Definition names : list (Type_ * string) :=
  [(TUnspecified, "unspecified"); (TString, "string"); (TBoolean, "boolean");
   (TDecimal, "decimal"); (TFloat, "float"); (TDouble, "double"); (TDuration, "duration");
   (TDateTime, "dateTime"); (TTime, "time"); (TDate, "date"); (TGYearMonth, "gYearMonth");
   (TGYear, "gYear"); (TGMonthDay, "gMonthDay"); (TGDay, "gDay"); (TGMonth, "gMonth");
   (THexBinary, "hexBinary"); (TBase64Binary, "base64Binary"); (TAnyURI, "anyURI");
   (TQName, "QName"); (TNotation, "NOTATION"); (TNormalizedString, "normalizedString");
   (TToken, "token"); (TLanguage, "language"); (TNMTOKEN, "NMTOKEN"); (TNMTOKENS, "NMTOKENS");
   (TName, "Name"); (TNCName, "NCName"); (TID, "ID"); (TIDREF, "IDREF"); (TIDREFS, "IDREFS");
   (TENTITY, "ENTITY"); (TENTITIES, "ENTITIES"); (TInteger, "integer");
   (TNonPositiveInteger, "nonPositiveInteger"); (TNegativeInteger, "negativeInteger");
   (TLong, "long"); (TInt, "int"); (TShort, "short"); (TByte, "byte");
   (TNonNegativeInteger, "nonNegativeInteger"); (TUnsignedLong, "unsignedLong");
   (TUnsignedInt, "unsignedInt"); (TUnsignedShort, "unsignedShort");
   (TUnsignedByte, "unsignedByte"); (TPositiveInteger, "positiveInteger");
   (TLangString, "langString"); (TAnyLiteralNode, "anyLiteralNode");
   (TAnyLiteralScalar, "anyLiteralScalar")].
Definition lookup_table : list (string * Type_) :=
  [("unspecified", TUnspecified); ("string", TString); ("boolean", TBoolean);
   ("decimal", TDecimal); ("float", TFloat); ("double", TDouble); ("duration", TDuration);
   ("dateTime", TDateTime); ("time", TTime); ("date", TDate); ("gYearMonth", TGYearMonth);
   ("gYear", TGYear); ("gMonthDay", TGMonthDay); ("gDay", TGDay); ("gMonth", TGMonth);
   ("hexBinary", THexBinary); ("base64Binary", TBase64Binary); ("anyURI", TAnyURI);
   ("QName", TQName); ("NOTATION", TNotation); ("normalizedString", TNormalizedString);
   ("token", TToken); ("language", TLanguage); ("NMTOKEN", TNMTOKEN); ("NMTOKENS", TNMTOKENS);
   ("Name", TName); ("NCName", TNCName); ("ID", TID); ("IDREF", TIDREF); ("IDREFS", TIDREFS);
   ("ENTITY", TENTITY); ("ENTITIES", TENTITIES); ("integer", TInteger);
   ("nonPositiveInteger", TNonPositiveInteger); ("negativeInteger", TNegativeInteger);
   ("long", TLong); ("int", TInt); ("short", TShort); ("byte", TByte);
   ("nonNegativeInteger", TNonNegativeInteger); ("unsignedLong", TUnsignedLong);
   ("unsignedInt", TUnsignedInt); ("unsignedShort", TUnsignedShort);
   ("unsignedByte", TUnsignedByte); ("positiveInteger", TPositiveInteger);
   ("langString", TLangString); ("anyLiteralNode", TAnyLiteralNode);
   ("anyLiteralScalar", TAnyLiteralScalar)].

(** [names.at(t)] throws for an enumerator without a name. *)
Definition to_string (t : Type_) : res string :=
  match find (λ e, bool_decide (fst e = t)) names with
  | Some (_, s) => Ok s
  | None => Fault (Thrown "out_of_range")
  end.

Definition from_string (name : string) : option Type_ :=
  snd <$> find (λ e, String.eqb (fst e) name) lookup_table.

(** ** from_iri *)

Definition kXsdNamespace : string := "http://www.w3.org/2001/XMLSchema#".
Definition kRdfLangStringIri : string := "http://www.w3.org/1999/02/22-rdf-syntax-ns#langString".

(** [id.starts_with(p)] and [id.substr(n)] *)
Fixpoint starts_with (p s : string) : bool :=
  match p, s with
  | EmptyString, _ => true
  | String a p', String b s' => Ascii.eqb a b && starts_with p' s'
  | _, _ => false
  end.
Fixpoint str_drop (n : nat) (s : string) : string :=
  match n, s with
  | O, _ => s
  | S n', String _ s' => str_drop n' s'
  | S _, EmptyString => EmptyString
  end.

(** An IRI is null or has an identifier. *)
Definition from_iri (iri : option string) : Type_ :=
  match iri with
  | None => TUnspecified
  | Some id =>
      if String.eqb id kRdfLangStringIri then TLangString
      else if negb (starts_with kXsdNamespace id) then TAnyLiteralNode
      else
        let local_name := str_drop (String.length kXsdNamespace) id in
        if String.eqb local_name "" then TAnyLiteralNode
        else match from_string local_name with
             | Some t => t
             | None => TAnyLiteralNode
             end
  end.

(** ** Lemmas *)


Lemma all_types_complete t : t ∈ all_types.
Proof. by destruct (find_some _ _ (to_int32_back t)) as [?%list_elem_of_In _]. Qed.

(** A decidable statement about all types holds if its check evaluates to true. *)
Lemma check_types (P : Type_ → bool) : forallb P all_types = true → ∀ t, P t = true.
Proof. intros H t. rewrite forallb_forall in H. apply H, list_elem_of_In, all_types_complete. Qed.

Lemma find_Some_elem {A} (f : A → bool) l x : find f l = Some x → x ∈ l ∧ f x = true.
Proof. intros [? ?]%find_some. by rewrite list_elem_of_In. Qed.

(** ** Claims *)

(** The enumerators that no conversion from the stored value returns. *)
Definition unlisted (t : Type_) : bool :=
  match t with TNode | TAnyIRI | TEdge => true | _ => false end.

(** The checks on the tables, by evaluation. *)
Definition code_back (t : Type_) : bool :=
  bool_decide (from_int32 (to_int32 t) = if unlisted t then None else Some t).
Definition named_ok (t : Type_) : bool :=
  match to_string t with
  | Ok s => bool_decide (from_string s = Some t) && bool_decide (from_iri (Some (kXsdNamespace +:+ s)) = t) &&
            negb (unlisted t)
  | Fault f => bool_decide (f = Thrown "out_of_range") && unlisted t
  end.
Definition entry_ok (e : string * Type_) : bool :=
  match to_string (snd e) with Ok s => String.eqb s (fst e) | Fault _ => false end.

Lemma codes_back t : code_back t = true.
Proof. revert t. apply check_types. vm_compute. reflexivity. Qed.
Lemma names_ok t : named_ok t = true.
Proof. revert t. apply check_types. vm_compute. reflexivity. Qed.
Lemma entries_ok e : e ∈ lookup_table → entry_ok e = true.
Proof.
  revert e. assert (forallb entry_ok lookup_table = true) as H by (vm_compute; reflexivity).
  rewrite forallb_forall in H. intros e He. apply H, list_elem_of_In, He.
Qed.

(** C40. The persistence contract of the datatype codes: distinct enumerators
    have distinct stored values, a stored value read back as a type is that
    type's value, and every enumerator except [Node], [AnyIRI] and [Edge] is
    read back from its own value (those three are not accepted). *)
Theorem datatype_code_roundtrip :
  (∀ t u, to_int32 t = to_int32 u → t = u) ∧
  (∀ v t, from_int32 v = Some t → to_int32 t = v) ∧
  (∀ t, from_int32 (to_int32 t) = if unlisted t then None else Some t).
Proof.
  split_and!.
  - exact to_int32_inj.
  - intros v t [_ ?%Z.eqb_eq]%find_Some_elem. done.
  - intros t. exact (proj1 (bool_decide_eq_true _) (codes_back t)).
Qed.

(** Names and types round trip: the name of a type parses back to the
    type, and a name that parses is the name of the type it parses to; exactly
    [Node], [AnyIRI] and [Edge] have no name, for which [to_string] throws. *)
Theorem datatype_name_roundtrip :
  (∀ t s, to_string t = Ok s → from_string s = Some t) ∧
  (∀ s t, from_string s = Some t → to_string t = Ok s) ∧
  (∀ t, to_string t = Fault (Thrown "out_of_range") ↔ unlisted t = true).
Proof.
  split_and!.
  - intros t s Hs. pose proof (names_ok t) as H. unfold named_ok in H. rewrite Hs in H.
    apply andb_true_iff in H as [[H _]%andb_true_iff _]. by apply bool_decide_eq_true in H.
  - intros s t. unfold from_string. intros ([s' t'] & [Hin Hs%String.eqb_eq]%find_Some_elem & ->)%fmap_Some.
    simpl in Hs. subst s'. pose proof (entries_ok _ Hin) as H. unfold entry_ok in H. simpl in *.
    destruct (to_string t'); [|done]. by apply String.eqb_eq in H as ->.
  - intros t. pose proof (names_ok t) as H. unfold named_ok in H. destruct (to_string t) as [s|f].
    + apply andb_true_iff in H as [_ H%negb_true_iff]. rewrite H. done.
    + apply andb_true_iff in H as [H%bool_decide_eq_true H2]. by rewrite H, H2.
Qed.

(** [from_iri] resolves the IRI of a named XSD type, its namespace followed
    by its name, to that type; an IRI outside the namespace that is not
    rdf:langString is an opaque literal. *)
Theorem datatype_from_iri :
  (∀ t s, to_string t = Ok s → from_iri (Some (kXsdNamespace +:+ s)) = t) ∧
  (∀ id, id ≠ kRdfLangStringIri → starts_with kXsdNamespace id = false → from_iri (Some id) = TAnyLiteralNode) ∧
  from_iri (Some kRdfLangStringIri) = TLangString ∧ from_iri None = TUnspecified.
Proof.
  split_and!; [| |done..].
  - intros t s Hs. pose proof (names_ok t) as H. unfold named_ok in H. rewrite Hs in H.
    apply andb_true_iff in H as [[_ H]%andb_true_iff _]. by apply bool_decide_eq_true in H.
  - intros id Hid Hs. unfold from_iri. rewrite (proj2 (String.eqb_neq _ _) Hid), Hs. done.
Qed.
