(* ===== verification/GraphFile.v ===== *)
(** * Graphs on disk

    Model of [Neo4JGraph] and [GraphData::serialize]/[deserialize]
    (include/gengodb/runtime/GraphData.h, src/gengodb/runtime/GraphData.cpp) and
    of [GengoDBGraph] (src/gengodb/runtime/GengoDBGraph.cpp): the packed record
    format, the file layout, and flushing and loading a property graph. *)

From S2P Require Import Prelude Dll Graph Bytes PropData PropertyGraph.

(** ** The packed records *)
Module Neo.
Record PropRecord := mkPropRecord {
  np_inUse : bool; np_nextPropId : Z; np_prevPropId : Z; np_key : Z; np_type : Z; np_value : Z;
}.
Record NodeEntry := mkNodeEntry {
  nn_inUse : bool; nn_firstRelId : Z; nn_firstPropId : Z; nn_labels : list Z; nn_extra : Z;
}.
Record RelEntry := mkRelEntry {
  nr_inUse : bool; nr_firstNodeId : Z; nr_secondNodeId : Z; nr_typeId : Z;
  nr_firstPrevRelId : Z; nr_firstNextRelId : Z; nr_secondPrevRelId : Z; nr_secondNextRelId : Z;
  nr_firstPropId : Z; nr_firstInChainMarker : Z;
}.
Record Neo4JGraph := mkNeo { nodes : list NodeEntry; rels : list RelEntry; props : list PropRecord }.
End Neo.

(** ** GraphData::serialize *)

Definition ser_node (src : NodeEntry Z) : Neo.NodeEntry :=
  Neo.mkNodeEntry (n_inUse src) (firstRelId src) (u32 (n_payload src)) (take 5 (labels src)) (extra src).
Definition ser_rel (src : RelEntry Z) : Neo.RelEntry :=
  Neo.mkRelEntry (r_inUse src) (firstNodeId src) (secondNodeId src) (typeId src)
    (firstPrevRelId src) (firstNextRelId src) (secondPrevRelId src) (secondNextRelId src)
    (u32 (r_payload src)) (firstInChainMarker src).
Definition ser_prop (src : PropRecord) : Neo.PropRecord :=
  Neo.mkPropRecord (p_inUse src) (nextPropId src) (prevPropId src) (p_key src) (p_type src) (p_value src).

(** [for (i = 0; i < n; i++)] over the entries of a store, which holds at
    least as many. *)
Definition store_prefix {A} (l : list A) (n : Z) : res (list A) :=
  if n <=? Z.of_nat (length l) then Ok (take (Z.to_nat n) l) else Fault BadAccess.

Definition serialize (pg : PropertyGraph) : res Neo.Neo4JGraph :=
  let* ns := store_prefix (nodes_ (graph_ pg)) (nodeMark_ (graph_ pg)) in
  let* rs := store_prefix (rels_ (graph_ pg)) (relMark_ (graph_ pg)) in
  let* ps := store_prefix (props_ pg) (propMark_ pg) in
  Ok (Neo.mkNeo (ser_node <$> ns) (ser_rel <$> rs) (ser_prop <$> ps)).

(** ** GraphData::deserialize *)

Definition deser_node (src : Neo.NodeEntry) : NodeEntry Z :=
  mkNode (Neo.nn_firstRelId src) (Neo.nn_inUse src) (Neo.nn_labels src) (Neo.nn_extra src)
    (i32 (Neo.nn_firstPropId src)).
Definition deser_rel (src : Neo.RelEntry) : RelEntry Z :=
  mkRel (Neo.nr_firstNodeId src) (Neo.nr_secondNodeId src) (Neo.nr_typeId src)
    (Neo.nr_firstPrevRelId src) (Neo.nr_firstNextRelId src)
    (Neo.nr_secondPrevRelId src) (Neo.nr_secondNextRelId src)
    (Neo.nr_inUse src) (Neo.nr_firstInChainMarker src) (i32 (Neo.nr_firstPropId src)).
Definition deser_prop (src : Neo.PropRecord) : PropRecord :=
  mkProp (Neo.np_nextPropId src) (Neo.np_prevPropId src) (Neo.np_key src) (Neo.np_type src)
    (Neo.np_value src) (Neo.np_inUse src).

Fixpoint deser_nodes (pg : PropertyGraph) (l : list Neo.NodeEntry) : res PropertyGraph :=
  match l with
  | [] => Ok pg
  | src :: l =>
      let* '(g, i) := newNode (graph_ pg) in
      let* ns := store (nodes_ g) i (deser_node src) in
      deser_nodes (set_graph pg (set_nodes g ns)) l
  end.
Fixpoint deser_rels (pg : PropertyGraph) (l : list Neo.RelEntry) : res PropertyGraph :=
  match l with
  | [] => Ok pg
  | src :: l =>
      let* '(g, i) := newRel (graph_ pg) in
      let* rs := store (rels_ g) i (deser_rel src) in
      deser_rels (set_graph pg (set_rels g rs)) l
  end.
Fixpoint deser_props (pg : PropertyGraph) (l : list Neo.PropRecord) : res PropertyGraph :=
  match l with
  | [] => Ok pg
  | src :: l =>
      let* '(pg1, i) := newProp pg in
      let* ps := store (props_ pg1) i (deser_prop src) in
      deser_props (set_props pg1 ps) l
  end.

Definition deserialize (pg : PropertyGraph) (g : Neo.Neo4JGraph) : res PropertyGraph :=
  let* pg1 := deser_nodes (pg_clear pg) (Neo.nodes g) in
  let* pg2 := deser_rels pg1 (Neo.rels g) in
  deser_props pg2 (Neo.props g).

(** ** Bytes of the packed records: 15, 34 and 21 bytes *)

Definition put_node (n : Neo.NodeEntry) : bytes :=
  put_bool (Neo.nn_inUse n) ++ put_u32 (Neo.nn_firstRelId n) ++ put_u32 (Neo.nn_firstPropId n) ++
  concat (put_u8 <$> Neo.nn_labels n) ++ put_u8 (Neo.nn_extra n).
Definition put_rel (r : Neo.RelEntry) : bytes :=
  put_bool (Neo.nr_inUse r) ++ put_u32 (Neo.nr_firstNodeId r) ++ put_u32 (Neo.nr_secondNodeId r) ++
  put_u32 (Neo.nr_typeId r) ++ put_u32 (Neo.nr_firstPrevRelId r) ++ put_u32 (Neo.nr_firstNextRelId r) ++
  put_u32 (Neo.nr_secondPrevRelId r) ++ put_u32 (Neo.nr_secondNextRelId r) ++
  put_u32 (Neo.nr_firstPropId r) ++ put_u8 (Neo.nr_firstInChainMarker r).
Definition put_prop (p : Neo.PropRecord) : bytes :=
  put_bool (Neo.np_inUse p) ++ put_u32 (Neo.np_nextPropId p) ++ put_u32 (Neo.np_prevPropId p) ++
  put_u32 (Neo.np_key p) ++ put_u32 (Neo.np_type p) ++ put_u32 (Neo.np_value p).

Definition get_node : reader Neo.NodeEntry := λ bs,
  let* '(u, bs) := get_bool bs in let* '(f, bs) := get_i32 bs in let* '(p, bs) := get_u32 bs in
  let* '(ls, bs) := get_many get_u8 5 bs in let* '(e, bs) := get_u8 bs in
  Ok (Neo.mkNodeEntry u f p ls e, bs).
Definition get_rel : reader Neo.RelEntry := λ bs,
  let* '(u, bs) := get_bool bs in let* '(a, bs) := get_i32 bs in let* '(b, bs) := get_i32 bs in
  let* '(t, bs) := get_i32 bs in let* '(p1, bs) := get_i32 bs in let* '(n1, bs) := get_i32 bs in
  let* '(p2, bs) := get_i32 bs in let* '(n2, bs) := get_i32 bs in let* '(p, bs) := get_u32 bs in
  let* '(m, bs) := get_u8 bs in
  Ok (Neo.mkRelEntry u a b t p1 n1 p2 n2 p m, bs).
Definition get_prop : reader Neo.PropRecord := λ bs,
  let* '(u, bs) := get_bool bs in let* '(n, bs) := get_i32 bs in let* '(p, bs) := get_i32 bs in
  let* '(k, bs) := get_u32 bs in let* '(t, bs) := get_u32 bs in let* '(v, bs) := get_u32 bs in
  Ok (Neo.mkPropRecord u n p k t v, bs).

(** The zero-filled buffers of the [Neo4JGraph] constructor, which a short
    [fread] leaves in place. *)
Definition zeroNeoNode : Neo.NodeEntry := Neo.mkNodeEntry false 0 0 [0; 0; 0; 0; 0] 0.
Definition zeroNeoRel : Neo.RelEntry := Neo.mkRelEntry false 0 0 0 0 0 0 0 0 0.
Definition zeroNeoProp : Neo.PropRecord := Neo.mkPropRecord false 0 0 0 0 0.

(** ** GengoDBGraph *)

(** The file system: file contents with their modification times, the paths
    that cannot be opened, and the clock. *)
Record Fs := mkFs { fs_files : gmap string (bytes * Z); fs_denied : gset string; fs_now : Z }.

Record GengoDBGraph := mkGDB {
  storage_ : PropertyGraph;
  fileName_ : string;
  dbDir_ : string;
  loaded_ : bool;
}.

Definition gdb_create (name : string) (nodeCapacity relCapacity propCapacity : Z) : GengoDBGraph :=
  mkGDB (pg_create nodeCapacity relCapacity propCapacity) name "" false.
Definition setDBDir (g : GengoDBGraph) (dir : string) : GengoDBGraph :=
  mkGDB (storage_ g) (fileName_ g) dir (loaded_ g).

Definition graphPath (dbDir fileName : string) : string :=
  dbDir +:+ "/db.neo4j." +:+ fileName +:+ ".dat".

Definition GRAPH_FILE_MAGIC : Z := 0x47524150.

Definition file_bytes (neo : Neo.Neo4JGraph) (d : PropertyData) : bytes :=
  put_u32 GRAPH_FILE_MAGIC ++ put_u32 (Z.of_nat (length (Neo.nodes neo))) ++
  put_u32 (Z.of_nat (length (Neo.rels neo))) ++ put_u32 (Z.of_nat (length (Neo.props neo))) ++
  concat (put_node <$> Neo.nodes neo) ++ concat (put_rel <$> Neo.rels neo) ++
  concat (put_prop <$> Neo.props neo) ++ pd_flush d.

Definition unnamed (g : GengoDBGraph) : bool := String.eqb (dbDir_ g) "" || String.eqb (fileName_ g) "".

Definition gdb_flush (fs : Fs) (g : GengoDBGraph) : res Fs :=
  if unnamed g then Ok fs
  else
    let path := graphPath (dbDir_ g) (fileName_ g) in
    if bool_decide (path ∈ fs_denied fs) then Fault (Thrown "GengoDBGraph::flush: cannot open")
    else
      let* neo := serialize (storage_ g) in
      Ok (mkFs (<[path := (file_bytes neo (propData_ (storage_ g)), fs_now fs)]> (fs_files fs))
               (fs_denied fs) (fs_now fs)).

(** The part of [ensureLoaded] that reads an open file. *)
Definition load_file (pg : PropertyGraph) (bs : bytes) : res PropertyGraph :=
  let* '(magic, bs) := get_u32 bs in
  let* '(nNodes, bs) := get_u32 bs in
  let* '(nRels, bs) := get_u32 bs in
  let* '(nProps, bs) := get_u32 bs in
  if negb (magic =? GRAPH_FILE_MAGIC) then Fault (Thrown "GengoDBGraph::ensureLoaded: bad magic")
  else
    let* '(ns, bs) := get_many (fread_or zeroNeoNode get_node) (Z.to_nat nNodes) bs in
    let* '(rs, bs) := get_many (fread_or zeroNeoRel get_rel) (Z.to_nat nRels) bs in
    let* '(ps, bs) := get_many (fread_or zeroNeoProp get_prop) (Z.to_nat nProps) bs in
    let* pg1 := deserialize pg (Neo.mkNeo ns rs ps) in
    let* '(d, bs) := pd_load (propData_ pg1) bs in
    Ok (set_propData pg1 d).

Definition gdb_ensureLoaded (fs : Fs) (g : GengoDBGraph) : res GengoDBGraph :=
  if loaded_ g then Ok g
  else
    let g1 := mkGDB (storage_ g) (fileName_ g) (dbDir_ g) true in
    if 0 <? nodeMark_ (graph_ (storage_ g)) then Ok g1
    else if unnamed g then Ok g1
    else
      let path := graphPath (dbDir_ g) (fileName_ g) in
      match fs_files fs !! path with
      | None => Ok g1
      | Some (bs, _) =>
          if bool_decide (path ∈ fs_denied fs) then Fault (Thrown "GengoDBGraph::ensureLoaded: cannot open")
          else
            let* pg := load_file (storage_ g) bs in
            Ok (mkGDB pg (fileName_ g) (dbDir_ g) true)
      end.

Definition hasFreshCache (fs : Fs) (g : GengoDBGraph) (sourcePath : string) : bool :=
  if unnamed g then false
  else
    match fs_files fs !! graphPath (dbDir_ g) (fileName_ g) with
    | None => false
    | Some (_, t) =>
        if String.eqb sourcePath "" then true
        else match fs_files fs !! sourcePath with
             | None => true
             | Some (_, tsrc) => tsrc <=? t
             end
    end.
