(* ===== verification/GraphFileProofs.v ===== *)
(** * The graph file round trip

    Flushing a property graph and loading the file into a fresh graph restores
    every record, and the represented multigraph with its properties when no
    slot had been freed. *)

From S2P Require Import Prelude Dll Graph GraphSpec Bytes PropData PropDataProofs PropertyGraph.
From S2P Require Import PropStore PropGraphRefine PropGraphProps GraphFile.

(** ** Records that fit the format *)

Record node_fits (n : NodeEntry Z) : Prop := {
  nf_rel : in_s 32 (firstRelId n);
  nf_payload : in_s 32 (n_payload n);
  nf_labels : length (labels n) = 5%nat ∧ Forall (in_u 8) (labels n);
  nf_extra : in_u 8 (extra n);
}.
Record rel_fits (r : RelEntry Z) : Prop := {
  rf_ends : in_s 32 (firstNodeId r) ∧ in_s 32 (secondNodeId r) ∧ in_s 32 (typeId r);
  rf_links : in_s 32 (firstPrevRelId r) ∧ in_s 32 (firstNextRelId r) ∧
             in_s 32 (secondPrevRelId r) ∧ in_s 32 (secondNextRelId r);
  rf_payload : in_s 32 (r_payload r);
  rf_marker : in_u 8 (firstInChainMarker r);
}.
Record prop_fits (p : PropRecord) : Prop := {
  pf_links : in_s 32 (nextPropId p) ∧ in_s 32 (prevPropId p);
  pf_content : in_u 32 (p_key p) ∧ in_u 32 (p_type p) ∧ in_u 32 (p_value p);
}.

Lemma deser_ser_node n : node_fits n → deser_node (ser_node n) = n.
Proof.
  intros [_ Hp [Hl _] _]. unfold deser_node, ser_node. simpl. unfold i32, u32.
  rewrite wrap_s_u by (done || lia). rewrite take_ge by lia. by destruct n.
Qed.
Lemma deser_ser_rel r : rel_fits r → deser_rel (ser_rel r) = r.
Proof.
  intros [_ _ Hp _]. unfold deser_rel, ser_rel. simpl. unfold i32, u32.
  rewrite wrap_s_u by (done || lia). by destruct r.
Qed.
Lemma deser_ser_prop p : deser_prop (ser_prop p) = p.
Proof. by destruct p. Qed.

(** ** Bytes of one record *)

Lemma get_u8_reads : reads (in_u 8) put_u8 get_u8.
Proof. exact (get_uint_reads 1). Qed.
Lemma get_u32_reads : reads (in_u 32) put_u32 get_u32.
Proof. exact (get_uint_reads 4). Qed.
Lemma get_i32_reads : reads (in_s 32) put_u32 get_i32.
Proof. exact (get_sint_reads 4 ltac:(lia)). Qed.

Lemma get_node_reads n rest :
  node_fits n → get_node (put_node (ser_node n) ++ rest) = Ok (ser_node n, rest).
Proof.
  intros [Hr Hp [Hl Hls] He]. unfold get_node, put_node.
  cbn [ser_node Neo.nn_inUse Neo.nn_firstRelId Neo.nn_firstPropId Neo.nn_labels Neo.nn_extra]. rewrite take_ge by lia.
  rewrite <- !app_assoc. rewrite get_bool_reads by done. cbn [res_bind].
  rewrite get_i32_reads by done. cbn [res_bind].
  rewrite get_u32_reads by (apply wrap_u_range; lia). cbn [res_bind].
  rewrite <- Hl, (get_many_reads (in_u 8) put_u8) by (apply get_u8_reads || done). cbn [res_bind].
  rewrite get_u8_reads by done. cbn [res_bind]. unfold ser_node. rewrite take_ge by lia. done.
Qed.

Lemma get_rel_reads r rest :
  rel_fits r → get_rel (put_rel (ser_rel r) ++ rest) = Ok (ser_rel r, rest).
Proof.
  intros [(? & ? & ?) (? & ? & ? & ?) Hp Hm]. unfold get_rel, put_rel, ser_rel.
  cbn [Neo.nr_inUse Neo.nr_firstNodeId Neo.nr_secondNodeId Neo.nr_typeId Neo.nr_firstPrevRelId Neo.nr_firstNextRelId
    Neo.nr_secondPrevRelId Neo.nr_secondNextRelId Neo.nr_firstPropId Neo.nr_firstInChainMarker].
  rewrite <- !app_assoc.
  rewrite get_bool_reads by done. cbn [res_bind].
  do 7 (rewrite get_i32_reads by done; cbn [res_bind]).
  rewrite get_u32_reads by (apply wrap_u_range; lia). cbn [res_bind].
  rewrite get_u8_reads by done. done.
Qed.

Lemma get_prop_reads p rest :
  prop_fits p → get_prop (put_prop (ser_prop p) ++ rest) = Ok (ser_prop p, rest).
Proof.
  intros [[? ?] (? & ? & ?)]. unfold get_prop, put_prop, ser_prop.
  cbn [Neo.np_inUse Neo.np_nextPropId Neo.np_prevPropId Neo.np_key Neo.np_type Neo.np_value].
  rewrite <- !app_assoc.
  rewrite get_bool_reads by done. cbn [res_bind].
  do 2 (rewrite get_i32_reads by done; cbn [res_bind]).
  do 3 (rewrite get_u32_reads by done; cbn [res_bind]). done.
Qed.

(** A sequence of serialised records is read back record by record. *)
Lemma get_records_reads {A B} (P : A → Prop) (ser : A → B) (put : B → bytes) (get : reader B) z xs rest :
  (∀ x rest, P x → get (put (ser x) ++ rest) = Ok (ser x, rest)) → (∀ x, put x ≠ []) → Forall P xs →
  get_many (fread_or z get) (length xs) (concat (put <$> (ser <$> xs)) ++ rest) = Ok (ser <$> xs, rest).
Proof.
  intros Hr Hne Hxs. rewrite <- (length_fmap ser xs).
  apply (get_many_reads (λ y, ∃ x, P x ∧ y = ser x)).
  - apply fread_or_reads; [|by intros ? _]. intros y rest' (x & Hx & ->). by apply Hr.
  - apply Forall_fmap. eapply Forall_impl; [exact Hxs|]. simpl. eauto.
Qed.

Lemma put_node_nonempty n : put_node n ≠ [].
Proof. unfold put_node, put_bool, put_u8. simpl. done. Qed.
Lemma put_rel_nonempty n : put_rel n ≠ [].
Proof. unfold put_rel, put_bool, put_u8. simpl. done. Qed.
Lemma put_prop_nonempty n : put_prop n ≠ [].
Proof. unfold put_prop, put_bool, put_u8. simpl. done. Qed.

(** ** The three filling loops *)

Definition fill {A} (i : nat) (l xs : list A) : list A := take i l ++ xs ++ drop (i + length xs) l.

Lemma fill_cons {A} i (l : list A) x xs :
  (i < length l)%nat → fill (S i) (<[i := x]> l) xs = fill i l (x :: xs).
Proof.
  intros Hi. unfold fill. rewrite (take_S_r _ _ x) by (by apply list_lookup_insert_eq).
  rewrite take_insert_ge by lia. rewrite drop_insert_lt by lia. rewrite <- app_assoc. cbn [app length].
  by rewrite Nat.add_succ_comm.
Qed.

Lemma store_nat {A} (l : list A) (i : Z) x :
  0 ≤ i < Z.of_nat (length l) → store l i x = Ok (<[Z.to_nat i := x]> l).
Proof.
  intros Hi. destruct (proj2 (zget_is_Some l i) Hi) as [y Hy]. rewrite (store_Some _ _ _ _ Hy).
  unfold zset. destruct (Z.leb_spec 0 i); [done|lia].
Qed.

Lemma deser_nodes_ok l : ∀ pg,
  0 ≤ nodeMark_ (graph_ pg) → Z.of_nat (length (nodes_ (graph_ pg))) = nodeCap_ (graph_ pg) →
  nodeMark_ (graph_ pg) + Z.of_nat (length l) ≤ nodeCap_ (graph_ pg) →
  deser_nodes pg l = Ok (set_graph pg (set_nodes
    (set_nodeAlloc (graph_ pg) (nodeMark_ (graph_ pg) + Z.of_nat (length l)) (freeNodes_ (graph_ pg)))
    (fill (Z.to_nat (nodeMark_ (graph_ pg))) (nodes_ (graph_ pg)) (deser_node <$> l)))).
Proof.
  induction l as [|x l IH]; intros pg Hm Hc Hl.
  - simpl. unfold fill. simpl. rewrite Nat.add_0_r, take_drop, Z.add_0_r. destruct pg as [[]]. done.
  - simpl in Hl. cbn [deser_nodes]. unfold newNode.
    destruct (Z.ltb_spec (nodeMark_ (graph_ pg)) (nodeCap_ (graph_ pg))); [|lia]. cbn [assert_ res_bind].
    cbn [nodes_ set_nodeAlloc]. rewrite store_nat by lia. cbn [res_bind].
    rewrite IH; simpl; rewrite ?length_insert; try lia.
    unfold set_graph, set_nodes, set_nodeAlloc. simpl. do 3 f_equal; [|lia].
    replace (Z.to_nat (nodeMark_ (graph_ pg) + 1)) with (S (Z.to_nat (nodeMark_ (graph_ pg)))) by lia.
    apply fill_cons. lia.
Qed.

Lemma deser_rels_ok l : ∀ pg,
  0 ≤ relMark_ (graph_ pg) → Z.of_nat (length (rels_ (graph_ pg))) = relCap_ (graph_ pg) →
  relMark_ (graph_ pg) + Z.of_nat (length l) ≤ relCap_ (graph_ pg) →
  deser_rels pg l = Ok (set_graph pg (set_rels
    (set_relAlloc (graph_ pg) (relMark_ (graph_ pg) + Z.of_nat (length l)) (freeRels_ (graph_ pg)))
    (fill (Z.to_nat (relMark_ (graph_ pg))) (rels_ (graph_ pg)) (deser_rel <$> l)))).
Proof.
  induction l as [|x l IH]; intros pg Hm Hc Hl.
  - simpl. unfold fill. simpl. rewrite Nat.add_0_r, take_drop, Z.add_0_r. destruct pg as [[]]. done.
  - simpl in Hl. cbn [deser_rels]. unfold newRel.
    destruct (Z.ltb_spec (relMark_ (graph_ pg)) (relCap_ (graph_ pg))); [|lia]. cbn [assert_ res_bind].
    cbn [rels_ set_relAlloc]. rewrite store_nat by lia. cbn [res_bind].
    rewrite IH; simpl; rewrite ?length_insert; try lia.
    unfold set_graph, set_rels, set_relAlloc. simpl. do 3 f_equal; [|lia].
    replace (Z.to_nat (relMark_ (graph_ pg) + 1)) with (S (Z.to_nat (relMark_ (graph_ pg)))) by lia.
    apply fill_cons. lia.
Qed.

Lemma deser_props_ok l : ∀ pg,
  0 ≤ propMark_ pg → Z.of_nat (length (props_ pg)) = propCap_ pg →
  propMark_ pg + Z.of_nat (length l) ≤ propCap_ pg →
  deser_props pg l = Ok (set_props
    (set_propAlloc pg (propMark_ pg + Z.of_nat (length l)) (freeProps_ pg))
    (fill (Z.to_nat (propMark_ pg)) (props_ pg) (deser_prop <$> l))).
Proof.
  induction l as [|x l IH]; intros pg Hm Hc Hl.
  - simpl. unfold fill. simpl. rewrite Nat.add_0_r, take_drop, Z.add_0_r. by destruct pg.
  - simpl in Hl. cbn [deser_props]. unfold newProp.
    destruct (Z.ltb_spec (propMark_ pg) (propCap_ pg)); [|lia]. cbn [assert_ res_bind].
    cbn [props_ set_propAlloc]. rewrite store_nat by lia. cbn [res_bind].
    rewrite IH; simpl; rewrite ?length_insert; try lia.
    unfold set_props, set_propAlloc. simpl. do 2 f_equal; [|lia].
    replace (Z.to_nat (propMark_ pg + 1)) with (S (Z.to_nat (propMark_ pg))) by lia. apply fill_cons. lia.
Qed.

(** ** Loading a flushed graph *)

Record pg_fits (pg : PropertyGraph) : Prop := {
  pgf_nodes : Forall node_fits (take (Z.to_nat (nodeMark_ (graph_ pg))) (nodes_ (graph_ pg)));
  pgf_rels : Forall rel_fits (take (Z.to_nat (relMark_ (graph_ pg))) (rels_ (graph_ pg)));
  pgf_props : Forall prop_fits (take (Z.to_nat (propMark_ pg)) (props_ pg));
  pgf_nmark : 0 ≤ nodeMark_ (graph_ pg) ≤ Z.of_nat (length (nodes_ (graph_ pg))) ∧ nodeMark_ (graph_ pg) < 2 ^ 31;
  pgf_rmark : 0 ≤ relMark_ (graph_ pg) ≤ Z.of_nat (length (rels_ (graph_ pg))) ∧ relMark_ (graph_ pg) < 2 ^ 31;
  pgf_pmark : 0 ≤ propMark_ pg ≤ Z.of_nat (length (props_ pg)) ∧ propMark_ pg < 2 ^ 31;
  pgf_data : pd_storable (propData_ pg);
}.

(** [pg'] holds the records of [pg] below its marks and has empty free lists. *)
Record same_records (pg pg' : PropertyGraph) : Prop := {
  sr_nmark : nodeMark_ (graph_ pg') = nodeMark_ (graph_ pg);
  sr_rmark : relMark_ (graph_ pg') = relMark_ (graph_ pg);
  sr_pmark : propMark_ pg' = propMark_ pg;
  sr_nodes : ∀ i, i < nodeMark_ (graph_ pg) → zget (nodes_ (graph_ pg')) i = zget (nodes_ (graph_ pg)) i;
  sr_rels : ∀ i, i < relMark_ (graph_ pg) → zget (rels_ (graph_ pg')) i = zget (rels_ (graph_ pg)) i;
  sr_props : ∀ i, i < propMark_ pg → zget (props_ pg') i = zget (props_ pg) i;
  sr_free : freeNodes_ (graph_ pg') = [] ∧ freeRels_ (graph_ pg') = [] ∧ freeProps_ pg' = [];
  sr_caps : Z.of_nat (length (nodes_ (graph_ pg'))) = nodeCap_ (graph_ pg') ∧
            Z.of_nat (length (rels_ (graph_ pg'))) = relCap_ (graph_ pg') ∧
            Z.of_nat (length (props_ pg')) = propCap_ pg';
}.

Lemma store_prefix_ok {A} (l : list A) n :
  n ≤ Z.of_nat (length l) → store_prefix l n = Ok (take (Z.to_nat n) l).
Proof. intros. unfold store_prefix. destruct (Z.leb_spec n (Z.of_nat (length l))); [done|lia]. Qed.

Lemma zget_fill {A} (l xs : list A) m i :
  0 ≤ m ≤ Z.of_nat (length xs) → i < m →
  zget (fill 0 l (take (Z.to_nat m) xs)) i = zget xs i.
Proof.
  intros Hm Hi. unfold fill. simpl. rewrite zget_app_l by (rewrite length_take; lia).
  unfold zget. destruct (Z.leb_spec 0 i); [|done]. apply lookup_take_lt. lia.
Qed.

Lemma length_fill {A} (l xs : list A) : (length xs ≤ length l)%nat → length (fill 0 l xs) = length l.
Proof. intros. unfold fill. simpl. rewrite length_app, length_drop. lia. Qed.

Lemma fmap_deser_ser {A B} (f : B → A) (g : A → B) (P : A → Prop) l :
  (∀ x, P x → f (g x) = x) → Forall P l → f <$> (g <$> l) = l.
Proof.
  intros H Hl. rewrite <- list_fmap_compose. rewrite <- (list_fmap_id l) at 2.
  apply Forall_fmap_ext_1. eapply Forall_impl; [exact Hl|]. simpl. auto.
Qed.

Definition neo_of (pg : PropertyGraph) : Neo.Neo4JGraph :=
  Neo.mkNeo (ser_node <$> take (Z.to_nat (nodeMark_ (graph_ pg))) (nodes_ (graph_ pg)))
            (ser_rel <$> take (Z.to_nat (relMark_ (graph_ pg))) (rels_ (graph_ pg)))
            (ser_prop <$> take (Z.to_nat (propMark_ pg)) (props_ pg)).

Lemma serialize_ok pg : pg_fits pg → serialize pg = Ok (neo_of pg).
Proof.
  intros Hf. unfold serialize. destruct (pgf_nmark _ Hf), (pgf_rmark _ Hf), (pgf_pmark _ Hf).
  rewrite !store_prefix_ok by lia. done.
Qed.

Lemma deserialize_ok pg nc rc pc :
  pg_fits pg → nodeMark_ (graph_ pg) ≤ nc → relMark_ (graph_ pg) ≤ rc → propMark_ pg ≤ pc →
  ∃ pg', deserialize (pg_create nc rc pc) (neo_of pg) = Ok pg' ∧ same_records pg pg' ∧
    propData_ pg' = propData_ (pg_create nc rc pc) ∧
    nodeCap_ (graph_ pg') = nc ∧ relCap_ (graph_ pg') = rc ∧ propCap_ pg' = pc.
Proof.
  intros [Hn Hr Hp [Hnm ?] [Hrm ?] [Hpm ?] _] Hnc Hrc Hpc.
  unfold deserialize, neo_of. cbn [Neo.nodes Neo.rels Neo.props].
  rewrite deser_nodes_ok; simpl; rewrite ?length_replicate, ?length_fmap, ?length_take; try lia.
  rewrite deser_rels_ok; simpl; rewrite ?length_replicate, ?length_fmap, ?length_take; try lia.
  rewrite deser_props_ok; simpl; rewrite ?length_replicate, ?length_fmap, ?length_take; try lia.
  rewrite (fmap_deser_ser _ _ node_fits) by (apply deser_ser_node || done).
  rewrite (fmap_deser_ser _ _ rel_fits) by (apply deser_ser_rel || done).
  rewrite (fmap_deser_ser deser_prop ser_prop prop_fits) by (done || (intros; apply deser_ser_prop)).
  eexists. split; [done|]. split; [|done]. split; simpl; try lia; try done.
  - intros i Hi. by apply zget_fill.
  - intros i Hi. by apply zget_fill.
  - intros i Hi. by apply zget_fill.
  - rewrite !length_fill by (rewrite length_take, length_replicate; lia). rewrite !length_replicate. lia.
Qed.

Lemma load_flushed pg nc rc pc :
  pg_fits pg → nodeMark_ (graph_ pg) ≤ nc → relMark_ (graph_ pg) ≤ rc → propMark_ pg ≤ pc →
  ∃ pg', load_file (pg_create nc rc pc) (file_bytes (neo_of pg) (propData_ pg)) = Ok pg' ∧ same_records pg pg' ∧
    lst_i64_ (propData_ pg') = lst_i64_ (propData_ pg) ∧ lst_ui64_ (propData_ pg') = lst_ui64_ (propData_ pg) ∧
    lst_double_ (propData_ pg') = lst_double_ (propData_ pg) ∧
    (∀ t idx, read_blob (propData_ pg') t idx = read_blob (propData_ pg) t idx) ∧
    nodeCap_ (graph_ pg') = nc ∧ relCap_ (graph_ pg') = rc ∧ propCap_ pg' = pc ∧
    propData_ pg' = mkPropertyData (Z.max (1024 * 1024) (u64 (u64 pc * 256))) (lst_i64_ (propData_ pg)) (lst_ui64_ (propData_ pg)) (lst_double_ (propData_ pg))
      ((λ e, (fst e, restored (snd e))) <$> pd_blobs (propData_ pg)).
Proof.
  intros Hf Hnc Hrc Hpc. destruct (deserialize_ok pg nc rc pc Hf Hnc Hrc Hpc) as (pg1 & Hd & Hs & Hpd & Hcaps).
  destruct Hf as [Hn Hr Hp [Hnm ?] [Hrm ?] [Hpm ?] Hdat].
  unfold load_file, file_bytes.
  rewrite get_u32_reads by (unfold in_u, GRAPH_FILE_MAGIC; lia). cbn [res_bind].
  do 3 (rewrite get_u32_reads by (unfold in_u, neo_of; simpl; rewrite length_fmap, length_take; lia); cbn [res_bind]).
  rewrite (proj2 (Z.eqb_eq GRAPH_FILE_MAGIC _) eq_refl). cbn [negb].
  unfold neo_of at 1 2 3 4 5 6. cbn [Neo.nodes Neo.rels Neo.props]. rewrite !length_fmap, !Nat2Z.id.
  rewrite (get_records_reads node_fits) by (apply get_node_reads || apply put_node_nonempty || done). cbn [res_bind].
  rewrite (get_records_reads rel_fits) by (apply get_rel_reads || apply put_rel_nonempty || done). cbn [res_bind].
  rewrite (get_records_reads prop_fits) by (apply get_prop_reads || apply put_prop_nonempty || done). cbn [res_bind].
  unfold neo_of in Hd. rewrite Hd. cbn [res_bind]. rewrite Hpd.
  rewrite <- (app_nil_r (pd_flush (propData_ pg))).
  cbn [pg_create propData_]. unfold setBlobCapacity.
  cbn [newPropertyData lst_i64_ lst_ui64_ lst_double_ pd_blobs]. rewrite pd_load_flush by done. cbn [res_bind].
  eexists. split; [done|]. destruct Hs. split; [by split|]. split_and!; try apply Hcaps; try done.
  intros t idx. by apply restored_read_blob.
Qed.

(** ** The represented graph *)

(** A pool without free slots stays one under a different capacity. *)
Lemma pool_recap mark cap cap' live : pool mark cap [] live → mark ≤ cap' → pool mark cap' [] live.
Proof. intros [? ? ? ?] ?. split; [lia|done..]. Qed.

Lemma same_records_rep pg pg' s :
  Rep (graph_ pg) s → freeNodes_ (graph_ pg) = [] → freeRels_ (graph_ pg) = [] → same_records pg pg' →
  nodeMark_ (graph_ pg) ≤ nodeCap_ (graph_ pg') → relMark_ (graph_ pg) ≤ relCap_ (graph_ pg') →
  Rep (graph_ pg') s.
Proof.
  intros HR Hfn Hfr [Hnm Hrm _ Hn Hr _ (Hf1 & Hf2 & _) (Hc1 & Hc2 & _)] Hnc Hrc.
  assert (∀ i, abs_node (graph_ pg') i = abs_node (graph_ pg) i) as Han.
  { intros i. unfold abs_node. rewrite Hnm. destruct (0 <=? i), (Z.ltb_spec i (nodeMark_ (graph_ pg))); simpl; try done.
    by rewrite Hn. }
  assert (∀ i, abs_rel (graph_ pg') i = abs_rel (graph_ pg) i) as Har.
  { intros i. unfold abs_rel. rewrite Hrm. destruct (0 <=? i), (Z.ltb_spec i (relMark_ (graph_ pg))); simpl; try done.
    by rewrite Hr. }
  destruct (rep_layout _ _ HR) as [_ _ Hnp Hrp]. rewrite Hfn in Hnp. rewrite Hfr in Hrp. split.
  - split; [done..| |].
    + rewrite Hnm, Hf1. eapply pool_ext; [by eapply pool_recap|]. intros i. by rewrite Han.
    + rewrite Hrm, Hf2. eapply pool_ext; [by eapply pool_recap|]. intros i. by rewrite Har.
  - intros i. by rewrite Han, (rep_nodes _ _ HR).
  - intros i. by rewrite Har, (rep_rels _ _ HR).
  - intros i sn e Hi He. destruct (rep_node _ _ _ _ HR Hi) as (Hb & e' & He' & _ & _ & Hc).
    rewrite Hn in He by lia. simplify_eq. eapply dseg_frame; [|exact Hc]. intros k r Hk Hr' Ht.
    exists r. rewrite Hr by (by eapply rep_adj_bounds). auto.
  - apply HR.
Qed.

Lemma same_records_store pg pg' L :
  PStore pg L → freeProps_ pg = [] → same_records pg pg' → propMark_ pg ≤ propCap_ pg' → PStore pg' L.
Proof.
  intros HS Hf [_ _ Hpm _ _ Hp (_ & _ & Hf3) (_ & _ & Hc3)] Hcap.
  assert (∀ i, owned L i → zget (props_ pg') i = zget (props_ pg) i) as Hsame.
  { intros i Hi%(pool_live _ _ _ _ (ps_pool _ _ HS)). apply Hp. lia. }
  split; [done| | | |].
  - rewrite Hpm, Hf3. pose proof (ps_pool _ _ HS) as Hpool. rewrite Hf in Hpool. by eapply pool_recap.
  - intros o l Ho. destruct (ps_chain _ _ HS _ _ Ho) as [? Hc]. split; [done|].
    eapply dseg_frame; [|exact Hc]. intros i r Hi Hr Hl. exists r. rewrite Hsame by (by exists o, l). auto.
  - intros o l i v Ho Hi. rewrite Hsame by (exists o, l; split; [done|]; apply ids_elem; eauto). by eapply ps_vals.
  - apply HS.
Qed.

Lemma same_records_prep pg pg' s L :
  PRep pg s L → freeNodes_ (graph_ pg) = [] → freeRels_ (graph_ pg) = [] → freeProps_ pg = [] →
  same_records pg pg' →
  nodeMark_ (graph_ pg) ≤ nodeCap_ (graph_ pg') → relMark_ (graph_ pg) ≤ relCap_ (graph_ pg') →
  propMark_ pg ≤ propCap_ pg' → PRep pg' s L.
Proof.
  intros [HR HS Hh] ? ? ? ? ? ? ?. split; [by eapply same_records_rep|by eapply same_records_store|done].
Qed.

(** [flush] followed by [ensureLoaded] of a graph of the same name. *)
Lemma flush_load_ok fs g nc rc pc :
  unnamed g = false → graphPath (dbDir_ g) (fileName_ g) ∉ fs_denied fs → pg_fits (storage_ g) →
  nodeMark_ (graph_ (storage_ g)) ≤ nc → relMark_ (graph_ (storage_ g)) ≤ rc → propMark_ (storage_ g) ≤ pc →
  ∃ fs' g', gdb_flush fs g = Ok fs' ∧
    gdb_ensureLoaded fs' (setDBDir (gdb_create (fileName_ g) nc rc pc) (dbDir_ g)) = Ok g' ∧
    loaded_ g' = true ∧
    load_file (pg_create nc rc pc) (file_bytes (neo_of (storage_ g)) (propData_ (storage_ g))) = Ok (storage_ g').
Proof.
  intros Hu Hd Hf Hn Hr Hp. destruct (load_flushed _ nc rc pc Hf Hn Hr Hp) as (pg' & Hl & _).
  unfold gdb_flush. rewrite Hu, bool_decide_eq_false_2 by done. rewrite serialize_ok by done. cbn [res_bind].
  eexists _, _. split; [done|]. unfold gdb_ensureLoaded. simpl.
  unfold unnamed in *. simpl. rewrite Hu, lookup_insert_eq. simpl. rewrite bool_decide_eq_false_2 by done.
  rewrite Hl. simpl. done.
Qed.

(** ** Claims *)

(** C21. A property graph survives a restart: flushing it and loading the file
    into a new graph object with enough capacity succeeds, and the new graph has
    every record below the high-water marks as it was, labels and flags
    included, the three lists of numbers, and every blob.  When no slot was on a
    free list at the flush it represents the same multigraph and the same
    property lists; the free lists themselves are not in the file. *)
Theorem graph_file_roundtrip fs g nc rc pc :
  unnamed g = false → graphPath (dbDir_ g) (fileName_ g) ∉ fs_denied fs → pg_fits (storage_ g) →
  nodeMark_ (graph_ (storage_ g)) ≤ nc → relMark_ (graph_ (storage_ g)) ≤ rc → propMark_ (storage_ g) ≤ pc →
  ∃ fs' g', gdb_flush fs g = Ok fs' ∧
    gdb_ensureLoaded fs' (setDBDir (gdb_create (fileName_ g) nc rc pc) (dbDir_ g)) = Ok g' ∧
    same_records (storage_ g) (storage_ g') ∧
    lst_i64_ (propData_ (storage_ g')) = lst_i64_ (propData_ (storage_ g)) ∧
    lst_ui64_ (propData_ (storage_ g')) = lst_ui64_ (propData_ (storage_ g)) ∧
    lst_double_ (propData_ (storage_ g')) = lst_double_ (propData_ (storage_ g)) ∧
    (∀ t idx, read_blob (propData_ (storage_ g')) t idx = read_blob (propData_ (storage_ g)) t idx) ∧
    (∀ s L, PRep (storage_ g) s L →
      freeNodes_ (graph_ (storage_ g)) = [] → freeRels_ (graph_ (storage_ g)) = [] → freeProps_ (storage_ g) = [] →
      PRep (storage_ g') s L).
Proof.
  intros Hu Hd Hf Hn Hr Hp.
  destruct (flush_load_ok fs g nc rc pc Hu Hd Hf Hn Hr Hp) as (fs' & g' & H1 & H2 & _ & Hl).
  destruct (load_flushed _ nc rc pc Hf Hn Hr Hp) as (pg' & Hl' & Hs & Hi & Hui & Hdb & Hb & Hc1 & Hc2 & Hc3 & _).
  rewrite Hl in Hl'. injection Hl' as <-. exists fs', g'. split_and!; [done..|].
  intros s L HP Hf1 Hf2 Hf3. eapply same_records_prep; [exact HP|done..|by rewrite Hc1|by rewrite Hc2|by rewrite Hc3].
Qed.

(** What a restart loses: the free lists.  After flushing and loading, the
    records below the high-water marks are the same but all three free lists
    are empty, so a graph that had freed slots reports its high-water mark as
    its node count and never reuses those slots. *)
Theorem graph_file_loses_free_slots fs g nc rc pc :
  unnamed g = false → graphPath (dbDir_ g) (fileName_ g) ∉ fs_denied fs → pg_fits (storage_ g) →
  nodeMark_ (graph_ (storage_ g)) ≤ nc → relMark_ (graph_ (storage_ g)) ≤ rc → propMark_ (storage_ g) ≤ pc →
  ∃ fs' g', gdb_flush fs g = Ok fs' ∧
    gdb_ensureLoaded fs' (setDBDir (gdb_create (fileName_ g) nc rc pc) (dbDir_ g)) = Ok g' ∧
    same_records (storage_ g) (storage_ g') ∧
    nodeMark_ (graph_ (storage_ g')) - Z.of_nat (length (freeNodes_ (graph_ (storage_ g')))) =
      nodeMark_ (graph_ (storage_ g)).
Proof.
  intros Hu Hd Hf Hn Hr Hp.
  destruct (flush_load_ok fs g nc rc pc Hu Hd Hf Hn Hr Hp) as (fs' & g' & H1 & H2 & _ & Hl).
  destruct (load_flushed _ nc rc pc Hf Hn Hr Hp) as (pg' & Hl' & Hs & _).
  rewrite Hl in Hl'. injection Hl' as <-. exists fs', g'. split_and!; [done..|].
  destruct Hs as [Hm _ _ _ _ _ (-> & _) _]. rewrite Hm. simpl. lia.
Qed.

(** Decides the bounds of a concrete graph. *)
Definition sfits (z : Z) : bool := (- 2 ^ 31 <=? z) && (z <? 2 ^ 31).
Definition ufits (b z : Z) : bool := (0 <=? z) && (z <? 2 ^ b).
Definition node_fits_b (n : NodeEntry Z) : bool :=
  sfits (firstRelId n) && sfits (n_payload n) && (length (labels n) =? 5)%nat && forallb (ufits 8) (labels n) &&
  ufits 8 (extra n).
Definition rel_fits_b (r : RelEntry Z) : bool :=
  forallb sfits [firstNodeId r; secondNodeId r; typeId r; firstPrevRelId r; firstNextRelId r;
    secondPrevRelId r; secondNextRelId r; r_payload r] && ufits 8 (firstInChainMarker r).
Definition prop_fits_b (p : PropRecord) : bool :=
  forallb sfits [nextPropId p; prevPropId p] && forallb (ufits 32) [p_key p; p_type p; p_value p].

Lemma sfits_ok z : sfits z = true → in_s 32 z.
Proof. unfold sfits, in_s. rewrite andb_true_iff, Z.leb_le, Z.ltb_lt. simpl. lia. Qed.
Lemma ufits_ok b z : ufits b z = true → in_u b z.
Proof. unfold ufits, in_u. rewrite andb_true_iff, Z.leb_le, Z.ltb_lt. lia. Qed.

Lemma fits_all (P : Z → Prop) f l : (∀ z, f z = true → P z) → forallb f l = true → Forall P l.
Proof. intros H Hl. rewrite forallb_forall in Hl. apply Forall_forall. intros z Hz. apply H, Hl. by apply list_elem_of_In. Qed.

Lemma node_fits_ok n : node_fits_b n = true → node_fits n.
Proof.
  unfold node_fits_b. rewrite !andb_true_iff. intros [[[[H1 H2] H3] H4] H5].
  split; [by apply sfits_ok..| |by apply ufits_ok]. split; [by apply Nat.eqb_eq|].
  eapply fits_all; [apply ufits_ok|done].
Qed.
Lemma rel_fits_ok r : rel_fits_b r = true → rel_fits r.
Proof.
  unfold rel_fits_b. rewrite andb_true_iff. intros [H1 H2]. apply (fits_all _ _ _ sfits_ok) in H1.
  repeat (apply Forall_cons in H1 as [? H1]). split; [done..|by apply ufits_ok].
Qed.
Lemma prop_fits_ok p : prop_fits_b p = true → prop_fits p.
Proof.
  unfold prop_fits_b. rewrite andb_true_iff. intros [H1 H2].
  apply (fits_all _ _ _ sfits_ok) in H1. apply (fits_all _ _ _ (ufits_ok 32)) in H2.
  repeat (apply Forall_cons in H1 as [? H1]). repeat (apply Forall_cons in H2 as [? H2]). done.
Qed.

Lemma forallb_Forall {A} (P : A → Prop) f l : (∀ x, f x = true → P x) → forallb f l = true → Forall P l.
Proof. intros H Hl. rewrite forallb_forall in Hl. apply Forall_forall. intros z Hz. apply H, Hl. by apply list_elem_of_In. Qed.

Lemma no_data_storable cap : pd_storable (mkPropertyData cap [] [] [] []).
Proof. split; simpl; try constructor; lia. Qed.

Ltac pg_fits_by_computation :=
  split;
    [ eapply forallb_Forall; [apply node_fits_ok|vm_compute; reflexivity]
    | eapply forallb_Forall; [apply rel_fits_ok|vm_compute; reflexivity]
    | eapply forallb_Forall; [apply prop_fits_ok|vm_compute; reflexivity]
    | vm_compute; repeat split; congruence | vm_compute; repeat split; congruence
    | vm_compute; repeat split; congruence | apply no_data_storable ].

(** Unfold the samples last when comparing terms. *)
#[local] Strategy 1000 [psample].

Definition sample_file_graph : GengoDBGraph := mkGDB psample "g" "/db" true.
Definition sample_fs : Fs := mkFs ∅ ∅ 7.

Lemma psample_fits : pg_fits psample.
Proof. pg_fits_by_computation. Qed.

Lemma graph_file_roundtrip_witness :
  ∃ s L fs' g', PRep psample s L ∧ gdb_flush sample_fs sample_file_graph = Ok fs' ∧
    gdb_ensureLoaded fs' (setDBDir (gdb_create "g" 8 8 8) "/db") = Ok g' ∧ PRep (storage_ g') s L.
Proof.
  destruct psample_rep as (s & L & HP). exists s, L.
  destruct (graph_file_roundtrip sample_fs sample_file_graph 8 8 8 eq_refl ltac:(set_solver) psample_fits)
    as (fs' & g' & Hf & Hl & _ & _ & _ & _ & _ & Hrep); [vm_compute; congruence..|].
  exists fs', g'. split; [exact HP|]. split; [exact Hf|]. split; [exact Hl|].
  apply Hrep; [exact HP|vm_compute; reflexivity..].
Defined.

(** The sample after removing node 0: one node slot and its relationship and
    property slots are free. *)
Definition psample_removed : PropertyGraph :=
  match pg_removeNode psample 0 with Ok pg => pg | Fault _ => psample end.
#[local] Strategy 1000 [psample_removed].
Definition removed_file_graph : GengoDBGraph := mkGDB psample_removed "g" "/db" true.

Lemma graph_file_loses_free_slots_witness :
  ∃ fs' g', gdb_flush sample_fs removed_file_graph = Ok fs' ∧
    gdb_ensureLoaded fs' (setDBDir (gdb_create "g" 8 8 8) "/db") = Ok g' ∧
    length (freeNodes_ (graph_ psample_removed)) = 1%nat ∧
    nodeMark_ (graph_ (storage_ g')) - Z.of_nat (length (freeNodes_ (graph_ (storage_ g')))) = 2.
Proof.
  assert (pg_fits psample_removed) as Hf by pg_fits_by_computation.
  destruct (graph_file_loses_free_slots sample_fs removed_file_graph 8 8 8 eq_refl ltac:(set_solver) Hf)
    as (fs' & g' & ? & ? & _ & Hc); [vm_compute; congruence..|].
  exists fs', g'. split_and!; [done..|vm_compute; reflexivity|exact Hc].
Defined.
