(* ===== verification/GraphStorage.v ===== *)
(** * The registry of graph memory

    Model of [GraphStorage] (include/gengodb/runtime/Graph.h,
    src/gengodb/runtime/Graph.cpp) and of the [registerGraph] functions
    (src/gengodb/runtime/BuiltinGraphs.cpp): compiled queries hold raw pointers
    into node, relationship and property stores, and the registry maps such a
    pointer back to its graph.  Pointers are integers; graph objects live in a
    heap that says where each object's stores are. *)

From S2P Require Import Prelude Dll Graph PropData PropertyGraph.

(** [BuiltinGraph::Type] *)
Inductive BuiltinType := BUILTIN_SIMPLE_GRAPH | BUILTIN_PROPERTY_GRAPH | BUILTIN_ALIGN_8X3_8X1_GRAPH.
Definition typeId_of (t : BuiltinType) : Z :=
  match t with BUILTIN_SIMPLE_GRAPH => 0 | BUILTIN_PROPERTY_GRAPH => 1 | BUILTIN_ALIGN_8X3_8X1_GRAPH => 2 end.

Inductive AnyGraph :=
  | ASimple (g : SimpleGraph.t)
  | AProperty (pg : PropertyGraph)
  | AAlign (g : AlignmentGraph.t).

Definition graph_type (a : AnyGraph) : BuiltinType :=
  match a with
  | ASimple _ => BUILTIN_SIMPLE_GRAPH
  | AProperty _ => BUILTIN_PROPERTY_GRAPH
  | AAlign _ => BUILTIN_ALIGN_8X3_8X1_GRAPH
  end.

(** A graph object and the addresses of its stores. *)
Record Placed := mkPlaced { p_obj : AnyGraph; p_nodes : Z; p_rels : Z; p_props : Z }.

(** The registry [mem_], the heap of graph objects by address, and the states
    registered with the execution context. *)
Record Gs := mkGs { mem_ : list (Z * Z * Z); g_heap : gmap Z Placed; g_states : list Z }.

Definition set_mem (gs : Gs) m := mkGs m (g_heap gs) (g_states gs).

(** The entry sizes asserted in BuiltinGraphs.h. *)
Definition sizeof_node (a : AnyGraph) : Z :=
  match a with ASimple _ => 24 | AProperty _ => 16 | AAlign _ => 40 end.
Definition sizeof_rel (a : AnyGraph) : Z :=
  match a with ASimple _ => 40 | AProperty _ => 36 | AAlign _ => 40 end.
Definition sizeof_prop : Z := 24.

(** ** GraphStorage: ranges *)

Definition gs_add (gs : Gs) (start len graph : Z) : Gs := set_mem gs (mem_ gs ++ [(start, len, graph)]).

Definition gs_remove (gs : Gs) (graph : Z) : Gs :=
  set_mem gs (filter (λ e, snd e ≠ graph) (mem_ gs)).

(** The test of [lookupGraph] for one entry. *)
Definition covers (ref : Z) (e : Z * Z * Z) : bool :=
  let '(start, len, graph) := e in
  (graph =? ref) || ((start <=? ref) && (ref <? start + len)).

Definition lookupGraph (gs : Gs) (ref : Z) : res Z :=
  match find (covers ref) (mem_ gs) with
  | Some (_, _, graph) => Ok graph
  | None => Fault AssertFailed
  end.

Definition knowsGraph (gs : Gs) (ref : Z) : bool :=
  existsb (λ e, fst (fst e) =? ref) (mem_ gs).

Definition graphPtr (gs : Gs) (ref : Z) : res Z := lookupGraph gs ref.

(** [BuiltinGraph::type(graph)] reads the tag of the object, and the three
    instances of [lookupGraph] assert it. *)
Definition object_at (gs : Gs) (graph : Z) : res Placed :=
  match g_heap gs !! graph with Some p => Ok p | None => Fault BadAccess end.
Definition lookupObject (gs : Gs) (ref : Z) : res Placed :=
  let* graph := lookupGraph gs ref in object_at gs graph.

Definition builtin_typeId (gs : Gs) (ptr : Z) : res Z :=
  let* p := object_at gs ptr in Ok (typeId_of (graph_type (p_obj p))).

Definition lookupPropertyGraph (gs : Gs) (ref : Z) : res (PropertyGraph * Placed) :=
  let* p := lookupObject gs ref in
  match p_obj p with AProperty pg => Ok (pg, p) | _ => Fault AssertFailed end.
Definition lookupSimpleGraph (gs : Gs) (ref : Z) : res (SimpleGraph.t * Placed) :=
  let* p := lookupObject gs ref in
  match p_obj p with ASimple g => Ok (g, p) | _ => Fault AssertFailed end.
Definition lookupAlignmentGraph (gs : Gs) (ref : Z) : res (AlignmentGraph.t * Placed) :=
  let* p := lookupObject gs ref in
  match p_obj p with AAlign g => Ok (g, p) | _ => Fault AssertFailed end.

(** ** GraphStorageHelper *)
Section helper.
Context {NP RP : Type}.
Definition h_nodeCount (g : Graph NP RP) : Z := u64 (u64 (nodeMark_ g) - Z.of_nat (length (freeNodes_ g))).
Definition h_relCount (g : Graph NP RP) : Z := u64 (u64 (relMark_ g) - Z.of_nat (length (freeRels_ g))).
Definition h_propCount (g : Graph NP RP) : Z := u64 (h_nodeCount g + h_relCount g).
End helper.

(** [(ptr - base) / sizeof(Entry)]: the signed difference is converted to
    [size_t] before the division, and the quotient to int32. *)
Definition index_of (ptr base size : Z) : Z := i32 (u64 (ptr - base) / size).

(** The entry a pointer into a store points to. *)
Definition entry_at {A} (l : list A) (base size ref : Z) : res A :=
  if (ref - base) mod size =? 0 then load l ((ref - base) / size) else Fault BadAccess.

(** [base + id * sizeof(Entry)] in [size_t] arithmetic. *)
Definition address_of (base size id : Z) : Z := u64 (base + id * size).

(** ** Counting and addresses *)

Definition nodeCount (gs : Gs) (ref : Z) : res Z :=
  let* p := lookupObject gs ref in
  match p_obj p with
  | ASimple g => Ok (h_nodeCount g)
  | AProperty pg => Ok (h_nodeCount (graph_ pg))
  | AAlign g => Ok (h_nodeCount g)
  end.
Definition relCount (gs : Gs) (ref : Z) : res Z :=
  let* p := lookupObject gs ref in
  match p_obj p with
  | ASimple g => Ok (h_relCount g)
  | AProperty pg => Ok (h_relCount (graph_ pg))
  | AAlign g => Ok (h_relCount g)
  end.
Definition propCount (gs : Gs) (ref : Z) : res Z :=
  let* p := lookupObject gs ref in
  match p_obj p with
  | ASimple g => Ok (h_propCount g)
  | AProperty pg => Ok (u64 (u64 (propMark_ pg) - Z.of_nat (length (freeProps_ pg))))
  | AAlign g => Ok (h_propCount g)
  end.

Definition nodeStorePtr (gs : Gs) (ref : Z) : res Z :=
  let* p := lookupObject gs ref in Ok (p_nodes p).
Definition relStorePtr (gs : Gs) (ref : Z) : res Z :=
  let* p := lookupObject gs ref in Ok (p_rels p).
Definition propStorePtr (gs : Gs) (ref : Z) : res Z :=
  let* p := lookupObject gs ref in
  match p_obj p with AProperty _ => Ok (p_props p) | _ => Fault AssertFailed end.

Definition nodeHighWater (gs : Gs) (ref : Z) : res Z :=
  let* p := lookupObject gs ref in
  match p_obj p with
  | ASimple g => Ok (nodeMark_ g)
  | AProperty pg => Ok (nodeMark_ (graph_ pg))
  | AAlign g => Ok (nodeMark_ g)
  end.
Definition relHighWater (gs : Gs) (ref : Z) : res Z :=
  let* p := lookupObject gs ref in
  match p_obj p with
  | ASimple g => Ok (relMark_ g)
  | AProperty pg => Ok (relMark_ (graph_ pg))
  | AAlign g => Ok (relMark_ g)
  end.
Definition propHighWater (gs : Gs) (ref : Z) : res Z :=
  let* p := lookupObject gs ref in
  match p_obj p with AProperty pg => Ok (propMark_ pg) | _ => Fault AssertFailed end.

(** ** GraphTableIterator: one buffer with the whole store *)
Record GraphTableIterator := mkIter { it_entrySize : Z; it_entryCount : Z; it_ptr : Z; it_valid : bool }.
Definition it_new (entrySize entryCount ptr : Z) := mkIter entrySize entryCount ptr true.
Definition it_next (it : GraphTableIterator) : GraphTableIterator :=
  mkIter (it_entrySize it) (it_entryCount it) (it_ptr it) false.
(** The buffer: number of bytes and address. *)
Definition getCurrentBuffer (it : GraphTableIterator) : Z * Z :=
  (u64 (it_entrySize it * it_entryCount it), it_ptr it).

Definition createNodeIterator (gs : Gs) (ref : Z) : res GraphTableIterator :=
  let* p := lookupObject gs ref in
  match p_obj p with
  | ASimple g => Ok (it_new 24 (u64 (nodeMark_ g)) (p_nodes p))
  | AProperty pg => Ok (it_new 16 (u64 (nodeMark_ (graph_ pg))) (p_nodes p))
  | AAlign g => Ok (it_new 40 (u64 (nodeMark_ g)) (p_nodes p))
  end.
Definition createRelIterator (gs : Gs) (ref : Z) : res GraphTableIterator :=
  let* p := lookupObject gs ref in
  match p_obj p with
  | ASimple g => Ok (it_new 40 (u64 (relMark_ g)) (p_rels p))
  | AProperty pg => Ok (it_new 36 (u64 (relMark_ (graph_ pg))) (p_rels p))
  | AAlign g => Ok (it_new 40 (u64 (relMark_ g)) (p_rels p))
  end.
Definition createPropIterator (gs : Gs) (ref : Z) : res GraphTableIterator :=
  let* p := lookupObject gs ref in
  match p_obj p with
  | AProperty pg => Ok (it_new sizeof_prop (u64 (propMark_ pg)) (p_props p))
  | _ => Fault AssertFailed
  end.

(** ** From pointers to ids and along chains *)

Definition nodeId (gs : Gs) (node : Z) : res Z :=
  let* p := lookupObject gs node in Ok (index_of node (p_nodes p) (sizeof_node (p_obj p))).
Definition relId (gs : Gs) (rel : Z) : res Z :=
  let* p := lookupObject gs rel in Ok (index_of rel (p_rels p) (sizeof_rel (p_obj p))).
Definition propId (gs : Gs) (prop : Z) : res Z :=
  let* p := lookupObject gs prop in
  match p_obj p with
  | AProperty _ => Ok (index_of prop (p_props p) sizeof_prop)
  | _ => Fault AssertFailed
  end.

Definition firstRel_at (p : Placed) (ref : Z) : res Z :=
  match p_obj p with
  | ASimple g => let* n := entry_at (nodes_ g) (p_nodes p) 24 ref in Ok (firstRelId n)
  | AProperty pg => let* n := entry_at (nodes_ (graph_ pg)) (p_nodes p) 16 ref in Ok (firstRelId n)
  | AAlign g => let* n := entry_at (nodes_ g) (p_nodes p) 40 ref in Ok (firstRelId n)
  end.
Definition getRelationshipLListHeadOf (gs : Gs) (ref : Z) : res Z :=
  let* p := lookupObject gs ref in
  let* r := firstRel_at p ref in
  Ok (address_of (p_rels p) (sizeof_rel (p_obj p)) r).
Definition getNodePropertyLListHeadOf (gs : Gs) (ref : Z) : res Z :=
  let* p := lookupObject gs ref in
  match p_obj p with
  | AProperty pg =>
      let* n := entry_at (nodes_ (graph_ pg)) (p_nodes p) 16 ref in
      Ok (address_of (p_props p) sizeof_prop (n_payload n))
  | _ => Fault AssertFailed
  end.
Definition getRelPropertyLListHeadOf (gs : Gs) (ref : Z) : res Z :=
  let* p := lookupObject gs ref in
  match p_obj p with
  | AProperty pg =>
      let* r := entry_at (rels_ (graph_ pg)) (p_rels p) 36 ref in
      Ok (address_of (p_props p) sizeof_prop (r_payload r))
  | _ => Fault AssertFailed
  end.

(** ** registerGraph and the end of an execution context *)

Definition registerState (gs : Gs) (ptr : Z) : Gs := mkGs (mem_ gs) (g_heap gs) (g_states gs ++ [ptr]).

Definition registerSimpleGraph (gs : Gs) (this : Z) : res Gs :=
  let* p := object_at gs this in
  match p_obj p with
  | ASimple g =>
      let gs1 := gs_add gs (p_nodes p) (u64 (nodeCap_ g * 24)) this in
      let gs2 := gs_add gs1 (p_rels p) (u64 (relCap_ g * 40)) this in
      Ok (registerState gs2 this)
  | _ => Fault BadAccess
  end.
Definition registerAlignmentGraph (gs : Gs) (this : Z) : res Gs :=
  let* p := object_at gs this in
  match p_obj p with
  | AAlign g =>
      let gs1 := gs_add gs (p_nodes p) (u64 (nodeCap_ g * 40)) this in
      let gs2 := gs_add gs1 (p_rels p) (u64 (relCap_ g * 40)) this in
      Ok (registerState gs2 this)
  | _ => Fault BadAccess
  end.
Definition registerPropertyGraph (gs : Gs) (this : Z) : res Gs :=
  let* p := object_at gs this in
  match p_obj p with
  | AProperty pg =>
      if persists_ pg && knowsGraph gs this then Ok gs
      else
        let gs0 := if persists_ pg then gs else registerState gs this in
        let gs1 := gs_add gs0 (p_nodes p) (u64 (pg_nodeCap_ pg * 16)) this in
        let gs2 := gs_add gs1 (p_rels p) (u64 (pg_relCap_ pg * 36)) this in
        Ok (gs_add gs2 (p_props p) (u64 (propCap_ pg * 24)) this)
  | _ => Fault BadAccess
  end.

(** The [freeFn] of a registered graph, and the context's destructor running
    them in order. *)
Definition free_state (gs : Gs) (ptr : Z) : Gs :=
  let gs1 := gs_remove gs ptr in mkGs (mem_ gs1) (delete ptr (g_heap gs1)) (g_states gs1).
Definition end_context (gs : Gs) : Gs :=
  let gs1 := foldl free_state gs (g_states gs) in mkGs (mem_ gs1) (g_heap gs1) [].

(** ** What the registry promises *)

(** The address ranges of an object's stores. *)
Definition ranges_of (p : Placed) : list (Z * Z) :=
  match p_obj p with
  | ASimple g => [(p_nodes p, nodeCap_ g * 24); (p_rels p, relCap_ g * 40)]
  | AProperty pg => [(p_nodes p, pg_nodeCap_ pg * 16); (p_rels p, pg_relCap_ pg * 36); (p_props p, propCap_ pg * 24)]
  | AAlign g => [(p_nodes p, nodeCap_ g * 40); (p_rels p, relCap_ g * 40)]
  end.
Definition in_range (ref : Z) (r : Z * Z) : Prop := fst r ≤ ref < fst r + snd r.

(** Memory of distinct live objects does not overlap, no object lies inside a
    store, and stores lie in the 64-bit address space and below 2^31 entries. *)
Record separate (h : gmap Z Placed) : Prop := {
  sep_ranges : ∀ g p g' p' r r' ref, h !! g = Some p → h !! g' = Some p' →
    r ∈ ranges_of p → r' ∈ ranges_of p' → in_range ref r → in_range ref r' → g = g' ∧ r = r';
  sep_objects : ∀ g p g' p' r, h !! g = Some p → h !! g' = Some p' → r ∈ ranges_of p → ¬ in_range g' r;
  sep_bounds : ∀ g p r, h !! g = Some p → r ∈ ranges_of p → 0 ≤ fst r ∧ 0 ≤ snd r ∧ fst r + snd r < 2 ^ 64;
}.

Definition gs_wf (gs : Gs) : Prop :=
  ∀ start len g, (start, len, g) ∈ mem_ gs → ∃ p, g_heap gs !! g = Some p ∧ (start, len) ∈ ranges_of p.

Definition registered (gs : Gs) (g : Z) (p : Placed) : Prop :=
  g_heap gs !! g = Some p ∧ ∀ r, r ∈ ranges_of p → (fst r, snd r, g) ∈ mem_ gs.

Lemma find_is_Some {A} (f : A → bool) l x : x ∈ l → f x = true → ∃ y, find f l = Some y ∧ y ∈ l ∧ f y = true.
Proof.
  intros Hx Hf. destruct (find f l) as [y|] eqn:Hfind.
  - apply find_some in Hfind as [? ?]. exists y. by rewrite list_elem_of_In.
  - pose proof (find_none _ _ Hfind x) as Hn. rewrite <- list_elem_of_In in Hn. by rewrite Hn in Hf.
Qed.

Lemma covers_range ref start len g : covers ref (start, len, g) = true ↔ g = ref ∨ in_range ref (start, len).
Proof. unfold covers, in_range. simpl. rewrite orb_true_iff, andb_true_iff, Z.eqb_eq, Z.leb_le, Z.ltb_lt. lia. Qed.

Lemma lookup_range gs g p r ref :
  separate (g_heap gs) → gs_wf gs → registered gs g p → r ∈ ranges_of p → in_range ref r →
  lookupGraph gs ref = Ok g.
Proof.
  intros Hs Hw [Hp Hreg] Hr Hin. unfold lookupGraph.
  destruct (find_is_Some (covers ref) (mem_ gs) (fst r, snd r, g)) as ([[s' l'] g'] & -> & Hm & Hc).
  - by apply Hreg.
  - apply covers_range. right. by destruct r.
  - destruct (Hw _ _ _ Hm) as (p' & Hp' & Hr'). apply covers_range in Hc as [->|Hc].
    + by destruct (sep_objects _ Hs g p ref p' r Hp Hp' Hr).
    + f_equal. by destruct (sep_ranges _ Hs g p g' p' r (s', l') ref Hp Hp' Hr Hr' Hin Hc).
Qed.

Lemma lookup_object gs g p r ref :
  separate (g_heap gs) → gs_wf gs → registered gs g p → r ∈ ranges_of p → in_range ref r →
  lookupObject gs ref = Ok p.
Proof.
  intros Hs Hw Hreg Hr Hin. unfold lookupObject. rewrite (lookup_range gs g p r ref Hs Hw Hreg Hr Hin).
  cbn [res_bind]. unfold object_at. by rewrite (proj1 Hreg).
Qed.

(** Dividing the distance to an entry by the entry size gives its index. *)
Lemma index_of_entry base size i :
  0 < size → 0 ≤ i < 2 ^ 31 → i * size < 2 ^ 64 → index_of (base + i * size) base size = i.
Proof.
  intros Hs Hi Hb. unfold index_of. replace (base + i * size - base) with (i * size) by lia.
  unfold u64. rewrite wrap_u_id by (unfold in_u; nia). rewrite Z.div_mul by lia.
  apply wrap_s_id; [lia|]. unfold in_s. simpl. lia.
Qed.

Lemma entry_at_index {A} (l : list A) base size i : 0 < size → entry_at l base size (base + i * size) = load l i.
Proof.
  intros Hs. unfold entry_at. replace (base + i * size - base) with (i * size) by lia.
  by rewrite Z.mod_mul, Z.div_mul by lia.
Qed.

Lemma address_in_range base size cap i :
  0 < size → 0 ≤ i < cap → in_range (base + i * size) (base, cap * size).
Proof. unfold in_range. simpl. nia. Qed.

(** ** Registering and removing *)

Lemma gs_remove_mem gs g e : e ∈ mem_ (gs_remove gs g) ↔ e ∈ mem_ gs ∧ snd e ≠ g.
Proof. unfold gs_remove. simpl. rewrite list_elem_of_filter. naive_solver. Qed.

Lemma free_states_mem l gs e :
  e ∈ mem_ (foldl free_state gs l) ↔ e ∈ mem_ gs ∧ snd e ∉ l.
Proof.
  revert gs. induction l as [|g l IH]; intros gs; simpl; [set_solver|].
  rewrite IH. unfold free_state. simpl. rewrite list_elem_of_filter. set_solver.
Qed.

Lemma free_states_heap l gs g :
  g_heap (foldl free_state gs l) !! g = if decide (g ∈ l) then None else g_heap gs !! g.
Proof.
  revert gs. induction l as [|x l IH]; intros gs; simpl; [done|].
  rewrite IH. unfold free_state. simpl. rewrite lookup_delete. repeat case_decide; set_solver.
Qed.
