(* ===== verification/GraphStorageProps.v ===== *)
(** * What the registry of graph memory guarantees *)

From S2P Require Import Prelude Dll Graph GraphSpec GraphRefine PropData PropertyGraph GraphStorage.

Definition nodeCapOf (a : AnyGraph) : Z :=
  match a with ASimple g => nodeCap_ g | AProperty pg => pg_nodeCap_ pg | AAlign g => nodeCap_ g end.
Definition relCapOf (a : AnyGraph) : Z :=
  match a with ASimple g => relCap_ g | AProperty pg => pg_relCap_ pg | AAlign g => relCap_ g end.

Lemma node_range_in p : (p_nodes p, nodeCapOf (p_obj p) * sizeof_node (p_obj p)) ∈ ranges_of p.
Proof. unfold ranges_of. destruct (p_obj p); simpl; left. Qed.
Lemma rel_range_in p : (p_rels p, relCapOf (p_obj p) * sizeof_rel (p_obj p)) ∈ ranges_of p.
Proof. unfold ranges_of. destruct (p_obj p); simpl; right; left. Qed.
Lemma sizeof_node_pos a : 0 < sizeof_node a ≤ 40.
Proof. destruct a; simpl; lia. Qed.
Lemma sizeof_rel_pos a : 0 < sizeof_rel a ≤ 40.
Proof. destruct a; simpl; lia. Qed.

(** Resolving a pointer to an entry of a registered store. *)
Lemma resolve_entry gs g p base size cap i :
  separate (g_heap gs) → gs_wf gs → registered gs g p → (base, cap * size) ∈ ranges_of p →
  0 < size ≤ 40 → 0 ≤ i < cap → cap ≤ 2 ^ 31 →
  lookupObject gs (base + i * size) = Ok p ∧ index_of (base + i * size) base size = i ∧
  address_of base size i = base + i * size.
Proof.
  intros Hs Hw Hr Hin Hsz Hi Hc. split_and!.
  - eapply lookup_object; [done..|]. apply address_in_range; lia.
  - apply index_of_entry; nia.
  - destruct (sep_bounds _ Hs g p _ (proj1 Hr) Hin) as (? & ? & ?). simpl in *.
    unfold address_of, u64. apply wrap_u_id. unfold in_u. nia.
Qed.

(** ** Claims *)

(** Pointers and ids agree: for a registered graph, the pointer to node,
    relationship or property record number [i] of its stores is mapped back to
    [i] by [nodeId], [relId] and [propId]. *)
Theorem pointer_id_roundtrip gs g p :
  separate (g_heap gs) → gs_wf gs → registered gs g p →
  (∀ i, nodeCapOf (p_obj p) ≤ 2 ^ 31 → 0 ≤ i < nodeCapOf (p_obj p) →
     nodeId gs (p_nodes p + i * sizeof_node (p_obj p)) = Ok i) ∧
  (∀ i, relCapOf (p_obj p) ≤ 2 ^ 31 → 0 ≤ i < relCapOf (p_obj p) →
     relId gs (p_rels p + i * sizeof_rel (p_obj p)) = Ok i) ∧
  (∀ pg i, p_obj p = AProperty pg → propCap_ pg ≤ 2 ^ 31 → 0 ≤ i < propCap_ pg →
     propId gs (p_props p + i * sizeof_prop) = Ok i).
Proof.
  intros Hs Hw Hr. split_and!.
  - intros i Hc Hi.
    destruct (resolve_entry gs g p _ _ _ i Hs Hw Hr (node_range_in p) (sizeof_node_pos _) Hi Hc) as (Hl & Hx & _).
    unfold nodeId. rewrite Hl. cbn [res_bind]. by rewrite Hx.
  - intros i Hc Hi.
    destruct (resolve_entry gs g p _ _ _ i Hs Hw Hr (rel_range_in p) (sizeof_rel_pos _) Hi Hc) as (Hl & Hx & _).
    unfold relId. rewrite Hl. cbn [res_bind]. by rewrite Hx.
  - intros pg i Hpg Hc Hi.
    assert ((p_props p, propCap_ pg * sizeof_prop) ∈ ranges_of p) as Hin
      by (unfold ranges_of; rewrite Hpg; right; right; left).
    destruct (resolve_entry gs g p _ _ _ i Hs Hw Hr Hin) as (Hl & Hx & _); [unfold sizeof_prop; lia|lia..|].
    unfold propId. rewrite Hl. cbn [res_bind]. by rewrite Hpg, Hx.
Qed.

(** A registry with one property graph at address 100. *)
Definition reg_pg : PropertyGraph :=
  match pg_addNode (pg_create 4 4 4) with Ok (pg, _) => pg | Fault _ => pg_create 4 4 4 end.
Definition reg_placed : Placed := mkPlaced (AProperty reg_pg) 1000 2000 3000.
Definition reg_gs0 : Gs := mkGs [] {[100 := reg_placed]} [].
Definition reg_gs : Gs := match registerPropertyGraph reg_gs0 100 with Ok gs => gs | Fault _ => reg_gs0 end.

Lemma reg_mem : mem_ reg_gs = [(1000, 64, 100); (2000, 144, 100); (3000, 96, 100)].
Proof. vm_compute. reflexivity. Qed.
Lemma reg_heap : g_heap reg_gs = {[100 := reg_placed]}.
Proof. vm_compute. reflexivity. Qed.
Lemma reg_ranges : ranges_of reg_placed = [(1000, 64); (2000, 144); (3000, 96)].
Proof. vm_compute. reflexivity. Qed.

Lemma reg_separate : separate (g_heap reg_gs).
Proof.
  rewrite reg_heap. split.
  - intros g p g' p' r r' ref [<- <-]%lookup_singleton_Some [<- <-]%lookup_singleton_Some.
    rewrite reg_ranges. intros Hr Hr' H H'. split; [done|]. unfold in_range in *.
    repeat (apply elem_of_cons in Hr as [->|Hr]); try (by apply not_elem_of_nil in Hr);
    repeat (apply elem_of_cons in Hr' as [->|Hr']); try (by apply not_elem_of_nil in Hr'); simpl in *; done || lia.
  - intros g p g' p' r [<- <-]%lookup_singleton_Some [<- <-]%lookup_singleton_Some.
    rewrite reg_ranges. intros Hr H. unfold in_range in *.
    repeat (apply elem_of_cons in Hr as [->|Hr]); try (by apply not_elem_of_nil in Hr); simpl in *; lia.
  - intros g p r [<- <-]%lookup_singleton_Some. rewrite reg_ranges. intros Hr.
    repeat (apply elem_of_cons in Hr as [->|Hr]); try (by apply not_elem_of_nil in Hr); simpl in *; lia.
Qed.

Lemma reg_registered : gs_wf reg_gs ∧ registered reg_gs 100 reg_placed.
Proof.
  split.
  - intros s l g. rewrite reg_mem, reg_heap. intros Hin. exists reg_placed. rewrite reg_ranges.
    repeat (apply elem_of_cons in Hin as [[= -> -> ->]|Hin]); try (by apply not_elem_of_nil in Hin);
      (split; [by rewrite lookup_singleton_eq|set_solver]).
  - split; [by rewrite reg_heap, lookup_singleton_eq|]. rewrite reg_mem, reg_ranges. intros r Hr.
    repeat (apply elem_of_cons in Hr as [->|Hr]); try (by apply not_elem_of_nil in Hr); simpl; set_solver.
Qed.

Lemma pointer_id_roundtrip_witness : nodeId reg_gs (1000 + 3 * 16) = Ok 3 ∧ propId reg_gs (3000 + 2 * 24) = Ok 2.
Proof.
  destruct reg_registered as [Hw Hr].
  destruct (pointer_id_roundtrip reg_gs 100 reg_placed reg_separate Hw Hr) as (H1 & _ & H3).
  split; [apply (H1 3); vm_compute; repeat split; congruence|].
  apply (H3 reg_pg 2); [reflexivity|vm_compute; congruence|vm_compute; repeat split; congruence].
Defined.

(** Following a chain through the registry: for node [i] of a registered
    property graph, the pointers returned for its first relationship and its
    first property are those of the records its entry names, and map back to
    their ids. *)
Theorem property_graph_pointer_chase gs g p pg i n :
  separate (g_heap gs) → gs_wf gs → registered gs g p → p_obj p = AProperty pg →
  pg_nodeCap_ pg ≤ 2 ^ 31 → pg_relCap_ pg ≤ 2 ^ 31 → propCap_ pg ≤ 2 ^ 31 →
  0 ≤ i < pg_nodeCap_ pg → zget (nodes_ (graph_ pg)) i = Some n →
  (0 ≤ firstRelId n < pg_relCap_ pg →
     ∃ a, getRelationshipLListHeadOf gs (p_nodes p + i * 16) = Ok a ∧ relId gs a = Ok (firstRelId n)) ∧
  (0 ≤ n_payload n < propCap_ pg →
     ∃ a, getNodePropertyLListHeadOf gs (p_nodes p + i * 16) = Ok a ∧ propId gs a = Ok (n_payload n)).
Proof.
  intros Hs Hw Hr Hpg Hc1 Hc2 Hc3 Hi Hn.
  assert ((p_nodes p, pg_nodeCap_ pg * 16) ∈ ranges_of p) as Hin by (unfold ranges_of; rewrite Hpg; left).
  destruct (resolve_entry gs g p _ _ _ i Hs Hw Hr Hin) as (Hl & _); [lia..|]. split.
  - intros Hf. assert ((p_rels p, pg_relCap_ pg * 36) ∈ ranges_of p) as Hin2 by (unfold ranges_of; rewrite Hpg; right; left).
    destruct (resolve_entry gs g p _ _ _ _ Hs Hw Hr Hin2 ltac:(lia) Hf Hc2) as (Hl2 & Hx & Ha).
    eexists. unfold getRelationshipLListHeadOf, firstRel_at, relId. rewrite Hl. cbn [res_bind]. rewrite Hpg.
    rewrite entry_at_index, (load_Some _ _ _ Hn) by lia. cbn [res_bind]. split; [done|].
    unfold sizeof_rel. rewrite Ha, Hl2. cbn [res_bind]. by rewrite Hpg, Hx.
  - intros Hf. assert ((p_props p, propCap_ pg * 24) ∈ ranges_of p) as Hin2 by (unfold ranges_of; rewrite Hpg; right; right; left).
    destruct (resolve_entry gs g p _ _ _ _ Hs Hw Hr Hin2 ltac:(lia) Hf Hc3) as (Hl2 & Hx & Ha).
    eexists. unfold getNodePropertyLListHeadOf, propId, sizeof_prop. rewrite Hl. cbn [res_bind]. rewrite Hpg.
    rewrite entry_at_index, (load_Some _ _ _ Hn) by lia. cbn [res_bind]. split; [done|].
    rewrite Ha, Hl2. cbn [res_bind]. by rewrite Hpg, Hx.
Qed.

(** [separate] only depends on the ranges. *)
Lemma separate_same_ranges (g : Z) p p' :
  ranges_of p' = ranges_of p → separate {[g := p]} → separate {[g := p']}.
Proof.
  intros Hrg [S1 S2 S3]. split.
  - intros ? ? ? ? r r' ref [<- <-]%lookup_singleton_Some [<- <-]%lookup_singleton_Some. rewrite Hrg.
    by apply (S1 g p g p); apply lookup_singleton_eq.
  - intros ? ? ? ? r [<- <-]%lookup_singleton_Some [<- <-]%lookup_singleton_Some. rewrite Hrg.
    by apply (S2 g p g p); apply lookup_singleton_eq.
  - intros ? ? r [<- <-]%lookup_singleton_Some. rewrite Hrg. by apply (S3 g p), lookup_singleton_eq.
Qed.

(** The same registry around a graph with a relationship and a property. *)
Definition chase_pg : PropertyGraph :=
  match (let* '(pg, a) := pg_addNode (pg_create 4 4 4) in
         let* '(pg, b) := pg_addNode pg in
         let* '(pg, _) := pg_addRelationship pg a b 7 in
         let* '(pg, _) := addNodeProperty pg a 1 2 3 in
         let* '(pg, _) := addNodeProperty pg a 4 5 6 in Ok pg) with
  | Ok pg => pg | Fault _ => pg_create 4 4 4
  end.
Definition chase_placed : Placed := mkPlaced (AProperty chase_pg) 1000 2000 3000.
Definition chase_gs : Gs :=
  match registerPropertyGraph (mkGs [] {[100 := chase_placed]} []) 100 with Ok gs => gs | Fault _ => reg_gs0 end.

Lemma chase_same : mem_ chase_gs = mem_ reg_gs ∧ ranges_of chase_placed = ranges_of reg_placed ∧
  g_heap chase_gs = {[100 := chase_placed]}.
Proof. vm_compute. repeat split. Qed.

Lemma chase_ok : separate (g_heap chase_gs) ∧ gs_wf chase_gs ∧ registered chase_gs 100 chase_placed.
Proof.
  destruct chase_same as (Hm & Hrg & Hh). pose proof reg_separate as HS.
  destruct reg_registered as [Hw [Hp Hr]]. rewrite reg_heap in *. split_and!.
  - rewrite Hh. by eapply separate_same_ranges.
  - intros s l g. rewrite Hm, Hh. intros (p & Hl & Hin)%Hw. rewrite reg_heap in Hl.
    apply lookup_singleton_Some in Hl as [<- <-]. exists chase_placed.
    split; [apply lookup_singleton_eq|]. rewrite Hrg. exact Hin.
  - split; [by rewrite Hh, lookup_singleton_eq|]. rewrite Hrg, Hm. exact Hr.
Qed.

Lemma property_graph_pointer_chase_witness :
  (∃ a, getRelationshipLListHeadOf chase_gs (1000 + 0 * 16) = Ok a ∧ relId chase_gs a = Ok 0) ∧
  (∃ a, getNodePropertyLListHeadOf chase_gs (1000 + 0 * 16) = Ok a ∧ propId chase_gs a = Ok 1).
Proof.
  destruct chase_ok as (Hs & Hw & Hr).
  destruct (zget (nodes_ (graph_ chase_pg)) 0) as [n|] eqn:Hn; [|vm_compute in Hn; discriminate Hn].
  destruct (property_graph_pointer_chase chase_gs 100 chase_placed chase_pg 0 n Hs Hw Hr) as [H1 H2];
    [reflexivity|vm_compute; congruence..|vm_compute; split; congruence|exact Hn|].
  vm_compute in Hn. injection Hn as <-.
  split; [apply H1|apply H2]; vm_compute; split; congruence.
Defined.

(** The counts reported for a registered graph are the numbers of live
    nodes and relationships of the multigraph it represents. *)
Theorem registry_counts gs g p pg (s : SpecGraph Z Z) ref r :
  separate (g_heap gs) → gs_wf gs → registered gs g p → p_obj p = AProperty pg → Rep (graph_ pg) s →
  nodeMark_ (graph_ pg) < 2 ^ 31 → relMark_ (graph_ pg) < 2 ^ 31 →
  r ∈ ranges_of p → in_range ref r →
  nodeCount gs ref = Ok (Z.of_nat (size (sg_nodes s))) ∧ relCount gs ref = Ok (Z.of_nat (size (sg_rels s))).
Proof.
  intros Hs Hw Hr Hpg HR Hn Hrl Hin Href. destruct (rep_counts _ _ HR) as [C1 C2].
  destruct (rep_layout _ _ HR) as [_ _ Hnp Hrp].
  pose proof (pool_mark _ _ _ _ Hnp). pose proof (pool_mark _ _ _ _ Hrp).
  unfold nodeCount, relCount. rewrite (lookup_object gs g p r ref Hs Hw Hr Hin Href). cbn [res_bind]. rewrite Hpg.
  unfold h_nodeCount, h_relCount, u64. rewrite !(wrap_u_id 64 (nodeMark_ _)), !(wrap_u_id 64 (relMark_ _)) by (unfold in_u; lia).
  rewrite <- C1, <- C2. rewrite !wrap_u_id by (unfold in_u; lia). done.
Qed.

Lemma registry_counts_witness :
  ∃ s : SpecGraph Z Z, nodeCount reg_gs 1000 = Ok (Z.of_nat (size (sg_nodes s))) ∧
    relCount reg_gs 1000 = Ok (Z.of_nat (size (sg_rels s))).
Proof.
  destruct (addNode_rep (newGraph 0 0 4 4) spec_empty GRAPH_NONE (newGraph_rep 0 0 4 4 ltac:(lia) ltac:(lia)))
    as (g & id & Ha & _ & _ & HR); [right; simpl; lia|].
  exists (spec_addNode spec_empty id GRAPH_NONE). destruct reg_registered as [Hw Hr].
  apply (registry_counts reg_gs 100 reg_placed reg_pg _ 1000 (1000, 64) reg_separate Hw Hr);
    [reflexivity| |vm_compute; congruence..|rewrite reg_ranges; left|unfold in_range; simpl; lia].
  assert (graph_ reg_pg = g) as ->; [|exact HR]. vm_compute in Ha. injection Ha as <- <-. vm_compute. reflexivity.
Defined.

(** When an execution context ends, exactly the graphs registered with it
    leave the registry and the heap; the ranges of every other graph stay. *)
Theorem end_context_effect gs :
  (∀ e, e ∈ mem_ (end_context gs) ↔ e ∈ mem_ gs ∧ snd e ∉ g_states gs) ∧
  (∀ g, g_heap (end_context gs) !! g = if decide (g ∈ g_states gs) then None else g_heap gs !! g) ∧
  (gs_wf gs → gs_wf (end_context gs)).
Proof.
  assert (∀ e, e ∈ mem_ (end_context gs) ↔ e ∈ mem_ gs ∧ snd e ∉ g_states gs) as Hm by (intros; apply free_states_mem).
  assert (∀ g, g_heap (end_context gs) !! g = if decide (g ∈ g_states gs) then None else g_heap gs !! g) as Hh
    by (intros; apply free_states_heap).
  split_and!; [done..|]. intros Hw s l g [Hin Hg]%Hm. destruct (Hw s l g Hin) as (p & Hp & Hr).
  exists p. rewrite Hh, decide_False by done. done.
Qed.

Lemma end_context_effect_witness : gs_wf (end_context reg_gs).
Proof. apply (end_context_effect reg_gs), reg_registered. Defined.

(** A persistent property graph is entered into the registry again at every
    [registerGraph]: the test that should prevent it compares the graph's
    address with the starts of the registered ranges, and no store starts at a
    graph object's address, so three more entries are added each time. *)
Theorem persistent_graph_registered_again gs this p pg :
  separate (g_heap gs) → gs_wf gs → (∀ e, e ∈ mem_ gs → 0 < snd (fst e)) →
  g_heap gs !! this = Some p → p_obj p = AProperty pg → persists_ pg = true →
  knowsGraph gs this = false ∧
  ∃ gs', registerPropertyGraph gs this = Ok gs' ∧ length (mem_ gs') = (length (mem_ gs) + 3)%nat ∧
    g_states gs' = g_states gs.
Proof.
  intros Hs Hw Hpos Hp Hpg Hper. assert (knowsGraph gs this = false) as Hk.
  { apply not_true_iff_false. unfold knowsGraph. intros ([[s l] g] & Hin%list_elem_of_In & He%Z.eqb_eq)%existsb_exists.
    simpl in He. subst s. destruct (Hw _ _ _ Hin) as (p' & Hp' & Hr').
    apply (sep_objects _ Hs g p' this p (this, l) Hp' Hp Hr'). specialize (Hpos _ Hin). unfold in_range. simpl in *. lia. }
  split; [done|]. unfold registerPropertyGraph, object_at. rewrite Hp. cbn [res_bind]. rewrite Hpg, Hper, Hk. simpl.
  eexists. split; [done|]. simpl. split; [|done]. rewrite !length_app. simpl. lia.
Qed.

(** The sample registry around a persistent graph, already registered once. *)
Definition persist_placed : Placed := mkPlaced (AProperty (setPersists reg_pg true)) 1000 2000 3000.
Definition persist_gs : Gs := mkGs (mem_ reg_gs) {[100 := persist_placed]} [].

Lemma persistent_graph_registered_again_witness :
  ∃ gs', registerPropertyGraph persist_gs 100 = Ok gs' ∧ length (mem_ gs') = 6%nat.
Proof.
  assert (ranges_of persist_placed = ranges_of reg_placed) as Hrg by (vm_compute; reflexivity).
  pose proof reg_separate as HS. destruct reg_registered as [Hw _]. rewrite reg_heap in HS.
  destruct (persistent_graph_registered_again persist_gs 100 persist_placed (setPersists reg_pg true)) as (_ & gs' & ? & Hl & _).
  - by apply (separate_same_ranges 100 reg_placed).
  - intros s l g Hin. destruct (Hw s l g Hin) as (p & Hl & Hr). rewrite reg_heap in Hl.
    apply lookup_singleton_Some in Hl as [<- <-]. exists persist_placed. by rewrite Hrg.
  - intros e. change (mem_ persist_gs) with (mem_ reg_gs). rewrite reg_mem. intros He.
    repeat (apply elem_of_cons in He as [->|He]); try (by apply not_elem_of_nil in He); simpl; lia.
  - reflexivity.
  - reflexivity.
  - reflexivity.
  - exists gs'. split; [done|]. rewrite Hl. change (mem_ persist_gs) with (mem_ reg_gs). by rewrite reg_mem.
Defined.
