(* ===== verification/GraphDataOps.v ===== *)
(** * Graph data helpers

    Model of the rest of src/gengodb/runtime/GraphData.cpp: the built-in example
    graphs, allocation of graph state, lookup of string properties, and the
    textual form of properties, nodes and relationships. *)

From S2P Require Import Prelude Dll Graph Bytes PropData PropertyGraph GraphStorage Datatypes.
From stdpp Require Import pretty.
From Stdlib Require Import Strings.Byte.
#[local] Open Scope Z_scope.

(** ** allocAndPopulateBuiltinGraph *)

Fixpoint repeat_op {St} (n : nat) (f : St → res St) (s : St) : res St :=
  match n with O => Ok s | S n => let* s' := f s in repeat_op n f s' end.
Fixpoint for_each {St A} (f : St → A → res St) (l : list A) (s : St) : res St :=
  match l with [] => Ok s | x :: l => let* s' := f s x in for_each f l s' end.

Definition populateAlignment : res AlignmentGraph.t :=
  let g := AlignmentGraph.create 16 256 in
  let* g := repeat_op 5 (λ g, let* '(g, _) := AlignmentGraph.addNode g in Ok g) g in
  for_each (λ g '(a, b), let* '(g, _) := AlignmentGraph.addRelationship g a b in Ok g)
    [(0, 1); (1, 2); (2, 4); (3, 4); (4, 1); (0, 3)] g.

Definition populateProperty : res PropertyGraph :=
  let pg := pg_create 16 256 256 in
  let* pg := repeat_op 6 (λ pg, let* '(pg, _) := pg_addNode pg in Ok pg) pg in
  let* pg := for_each (λ pg '(a, b), let* '(pg, _) := pg_addRelationship pg a b 0 in Ok pg)
    [(0, 2); (1, 0); (1, 2); (1, 4); (2, 4); (2, 3)] pg in
  let* pg := for_each (λ pg '(n, k, t, v), let* '(pg, _) := addNodeProperty pg n k t v in Ok pg)
    [(0, 0, to_int32 TInt, 424); (1, 11, to_int32 TInt, 100); (1, 11, to_int32 TShort, 101);
     (1, 11, to_int32 TBoolean, 0xffffffff); (2, 22, to_int32 TInt, 200); (3, 33, to_int32 TInt, 300);
     (5, 55, to_int32 TInt, 501); (5, 55, to_int32 TInt, 502)] pg in
  for_each (λ pg '(r, k, t, v), let* '(pg, _) := addRelProperty pg r k t v in Ok pg)
    [(0, 0, 0, 4242); (1, 11, 11, 1000); (2, 22, 22, 2000); (3, 33, 33, 3000)] pg.

Definition populateSimple : res SimpleGraph.t :=
  let g := SimpleGraph.create 16 256 in
  let* g := repeat_op 6 (λ g, let* '(g, _) := SimpleGraph.addNode g 0 in Ok g) g in
  let* g := for_each (λ g '(a, b), let* '(g, _) := SimpleGraph.addRelationship g a b 0 in Ok g)
    [(0, 2); (1, 0); (1, 2); (1, 4); (2, 4); (2, 3)] g in
  let* g := for_each (λ g '(r, v), SimpleGraph.setRelValue g r v)
    [(0, 4242); (1, 111); (2, 222); (3, 333); (4, 444); (5, 555)] g in
  for_each (λ g '(n, v), SimpleGraph.setNodeValue g n v)
    [(0, 42); (1, 11); (2, 22); (3, 33); (4, 44); (5, 55)] g.

(** The object is allocated at [this] with its stores at the given addresses. *)
Definition place (gs : Gs) (this : Z) (p : Placed) : Gs :=
  mkGs (mem_ gs) (<[this := p]> (g_heap gs)) (g_states gs).

Definition allocAndPopulateBuiltinGraph (gs : Gs) (builtin this nodes rels props : Z) : res (Gs * Z) :=
  if builtin =? 1 then
    let* g := populateAlignment in
    let* gs := registerAlignmentGraph (place gs this (mkPlaced (AAlign g) nodes rels props)) this in Ok (gs, this)
  else if builtin =? 2 then
    let* pg := populateProperty in
    let* gs := registerPropertyGraph (place gs this (mkPlaced (AProperty pg) nodes rels props)) this in Ok (gs, this)
  else
    let* g := populateSimple in
    let* gs := registerSimpleGraph (place gs this (mkPlaced (ASimple g) nodes rels props)) this in Ok (gs, this).

(** [size_t] lengths are narrowed to the int32 capacities of [create]. *)
Definition allocPropertyGraphState (gs : Gs) (nodeBufLen relBufLen propBufLen this nodes rels props : Z) : res (Gs * Z) :=
  let pg := pg_create (i32 nodeBufLen) (i32 relBufLen) (i32 propBufLen) in
  let* gs := registerPropertyGraph (place gs this (mkPlaced (AProperty pg) nodes rels props)) this in Ok (gs, this).
Definition allocSimpleGraphState (gs : Gs) (nodeBufLen relBufLen this nodes rels : Z) : res (Gs * Z) :=
  let g := SimpleGraph.create (i32 nodeBufLen) (i32 relBufLen) in
  let* gs := registerSimpleGraph (place gs this (mkPlaced (ASimple g) nodes rels 0)) this in Ok (gs, this).

(** ** Strings *)

Definition string_of_bytes (bs : bytes) : string :=
  foldr (λ b s, String (Ascii.ascii_of_byte b) s) "" bs.

(** [PropertyData::lookupStr]: the text of a string property, empty for any
    other type. *)
Definition lookupStr (gs : Gs) (ref : Z) (prop : PropRecord) : res string :=
  if negb (p_type prop =? u32 (to_int32 TString)) then Ok ""
  else
    let* '(pg, _) := lookupPropertyGraph gs ref in
    let* bs := read_blob (propData_ pg) (to_int32 TString) (i32 (p_value prop)) in
    Ok (string_of_bytes bs).

(** [std::to_string] of a float: "%f" of its exact value, six decimals, ties
    to even. *)
Definition pad_left (w : nat) (s : string) : string :=
  foldr (λ _ acc, String (Ascii.Ascii false false false false true true false false) acc) s (replicate (w - String.length s) tt).
Definition round_div (a b : Z) : Z :=
  let q := a / b in let r := a mod b in
  if (2 * r <? b) || ((2 * r =? b) && Z.even q) then q else q + 1.
Definition float_micros (m e : Z) : Z :=
  if 0 <=? e then m * 2 ^ e * 10 ^ 6 else round_div (m * 10 ^ 6) (2 ^ (- e)).
Definition print_float (bits : Z) : string :=
  let neg := Z.testbit bits 31 in
  let ex := Z.land (Z.shiftr bits 23) 255 in
  let frac := Z.land bits (2 ^ 23 - 1) in
  (if neg then "-" else "") +:+
  (if ex =? 255 then (if frac =? 0 then "inf" else "nan")
   else
     let micros := if ex =? 0 then float_micros frac (-149) else float_micros (2 ^ 23 + frac) (ex - 150) in
     pretty (micros / 10 ^ 6) +:+ "." +:+ pad_left 6 (pretty (micros mod 10 ^ 6))).

(** [PropertyStringifier::from_inlined<T>] for integers: the low bits of the
    value read as [T], printed in decimal. *)
Definition from_inlined (type : Type_) (printed : string) : res string :=
  let* name := to_string type in Ok (name +:+ "(" +:+ printed +:+ ")").
Definition from_bool (value : Z) : res string :=
  let raw := wrap_u 8 value in
  if raw =? 0 then Ok "boolean(false)"
  else if raw =? 1 then Ok "boolean(true)"
  else Fault BadAccess.

(** [GraphRefString::fromProp] *)
Definition fromProp (gs : Gs) (ref : Z) (prop : PropRecord) : res string :=
  let v := p_value prop in
  match from_int32 (i32 (p_type prop)) with
  | None => Fault AssertFailed
  | Some xsdtype =>
      let* _ := graphPtr gs ref in
      match xsdtype with
      | TBoolean => from_bool v
      | TFloat => from_inlined xsdtype (print_float v)
      | TInt => from_inlined xsdtype (pretty (wrap_u 32 v))
      | TShort => from_inlined xsdtype (pretty (wrap_s 16 v))
      | TByte => from_inlined xsdtype (pretty (wrap_s 8 v))
      | TUnsignedInt => from_inlined xsdtype (pretty (wrap_s 32 v))
      | TUnsignedShort => from_inlined xsdtype (pretty (wrap_u 16 v))
      | TUnsignedByte => from_inlined xsdtype (pretty (wrap_u 8 v))
      | _ => Ok "<<UNKNOWN TYPE>>"
      end
  end.

(** The metadata's name mapping, by default "v" and the node's id. *)
Definition default_names (i : Z) : string := "v" +:+ pretty i.

Definition fromNode (gs : Gs) (names : Z → string) (node : Z) : res string :=
  let* _ := graphPtr gs node in
  let* id := nodeId gs node in Ok (names id).
Definition fromRel (gs : Gs) (names : Z → string) (ref : Z) (rel : RelEntry Z) : res string :=
  let* _ := graphPtr gs ref in Ok (names (typeId rel)).

(** ** Claims *)

Lemma wrap_s_narrow b z : 0 < b ≤ 32 → in_s b z → wrap_s b (wrap_u 32 z) = z.
Proof.
  intros Hb Hz. unfold wrap_s. rewrite <- (wrap_s_id b z) at 2 by (lia || done). unfold wrap_s, wrap_u. f_equal.
  rewrite <- Zplus_mod_idemp_l.
  rewrite Z.mod_mod_divide; [by rewrite Zplus_mod_idemp_l|].
  exists (2 ^ (32 - b)). rewrite <- Z.pow_add_r by lia. f_equal. lia.
Qed.

(** Integer properties of type short, byte, unsignedShort and unsignedByte
    print as the value that was stored. *)
Theorem fromProp_small_integers gs ref next prev key z u :
  is_ok (graphPtr gs ref) →
  (∀ z, in_s 16 z → fromProp gs ref (mkProp next prev key (to_int32 TShort) (u32 z) u) = Ok ("short(" +:+ pretty z +:+ ")")) ∧
  (∀ z, in_s 8 z → fromProp gs ref (mkProp next prev key (to_int32 TByte) (u32 z) u) = Ok ("byte(" +:+ pretty z +:+ ")")) ∧
  (in_u 16 z → fromProp gs ref (mkProp next prev key (to_int32 TUnsignedShort) z u) = Ok ("unsignedShort(" +:+ pretty z +:+ ")")) ∧
  (in_u 8 z → fromProp gs ref (mkProp next prev key (to_int32 TUnsignedByte) z u) = Ok ("unsignedByte(" +:+ pretty z +:+ ")")).
Proof.
  intros [g Hg]. split_and!; [intros w Hz|intros w Hz|intros Hz|intros Hz]; unfold fromProp; simpl; rewrite Hg; simpl.
  - unfold u32. rewrite wrap_s_narrow by (lia || done). done.
  - unfold u32. rewrite wrap_s_narrow by (lia || done). done.
  - by rewrite wrap_u_id.
  - by rewrite wrap_u_id.
Qed.

Definition one_range : Gs := mkGs [(1000, 24, 100)] ∅ [].

Lemma fromProp_small_integers_witness :
  fromProp one_range 1000 (mkProp (-1) (-1) 5 (to_int32 TShort) (u32 (-7)) true) = Ok "short(-7)".
Proof.
  destruct (fromProp_small_integers one_range 1000 (-1) (-1) 5 0 true) as (H & _); [exists 100; reflexivity|].
  rewrite (H (-7)); [vm_compute; reflexivity|unfold in_s; simpl; lia].
Defined.

(** The signedness of the two 32-bit types is swapped when they are
    printed: a negative xsd:int prints as its unsigned reinterpretation, and an
    xsd:unsignedInt of at least 2^31 prints as a negative number. *)
Theorem fromProp_int_sign_swapped gs ref next prev key z u :
  is_ok (graphPtr gs ref) →
  (in_s 32 z → z < 0 →
     fromProp gs ref (mkProp next prev key (to_int32 TInt) (u32 z) u) = Ok ("int(" +:+ pretty (z + 2 ^ 32) +:+ ")")) ∧
  (2 ^ 31 ≤ z < 2 ^ 32 →
     fromProp gs ref (mkProp next prev key (to_int32 TUnsignedInt) z u) = Ok ("unsignedInt(" +:+ pretty (z - 2 ^ 32) +:+ ")")).
Proof.
  intros [g Hg]. split.
  - intros Hz Hn. assert (wrap_u 32 (u32 z) = z + 2 ^ 32) as E.
    { unfold u32, wrap_u, in_s in *. rewrite Z.mod_mod by lia. simpl in Hz.
      symmetry. apply (Z.mod_unique_pos _ _ (-1)); lia. }
    unfold fromProp. cbn [p_value p_type]. rewrite E, Hg. done.
  - intros Hz. assert (wrap_s 32 z = z - 2 ^ 32) as E.
    { unfold wrap_s. enough ((z + 2 ^ (32 - 1)) mod 2 ^ 32 = z - 2 ^ 31) as -> by (simpl; lia).
      symmetry. apply (Z.mod_unique_pos _ _ 1); simpl; lia. }
    unfold fromProp. cbn [p_value p_type]. rewrite E, Hg. done.
Qed.

Lemma fromProp_int_sign_swapped_witness :
  fromProp one_range 1000 (mkProp (-1) (-1) 5 (to_int32 TInt) (u32 (-1)) true) = Ok "int(4294967295)" ∧
  fromProp one_range 1000 (mkProp (-1) (-1) 5 (to_int32 TUnsignedInt) 4294967295 true) = Ok "unsignedInt(-1)".
Proof.
  split.
  - destruct (fromProp_int_sign_swapped one_range 1000 (-1) (-1) 5 (-1) true) as [H _]; [exists 100; reflexivity|].
    rewrite H; [vm_compute; reflexivity|unfold in_s; simpl; lia|lia].
  - destruct (fromProp_int_sign_swapped one_range 1000 (-1) (-1) 5 4294967295 true) as [_ H]; [exists 100; reflexivity|].
    rewrite H; [vm_compute; reflexivity|lia].
Defined.

(** The edges of a graph below its mark, as (from, to) pairs. *)
Definition edges {NP RP} (g : Graph NP RP) : list (Z * Z) :=
  (λ r, (firstNodeId r, secondNodeId r)) <$> take (Z.to_nat (relMark_ g)) (rels_ g).

(** The built-in example graphs are populated without hitting an assertion
    and are registered: each has the nodes and edges the code lists, and a
    pointer into its node store resolves to it. *)
Theorem builtin_graphs_populated this :
  ∃ gs0 gs1 gs2, 
    allocAndPopulateBuiltinGraph (mkGs [] ∅ []) 0 this 10000 20000 0 = Ok (gs0, this) ∧
    allocAndPopulateBuiltinGraph (mkGs [] ∅ []) 1 this 10000 20000 0 = Ok (gs1, this) ∧
    allocAndPopulateBuiltinGraph (mkGs [] ∅ []) 2 this 10000 20000 40000 = Ok (gs2, this) ∧
    nodeCount gs0 this = Ok 6 ∧ nodeCount gs1 this = Ok 5 ∧ nodeCount gs2 this = Ok 6 ∧
    relCount gs0 this = Ok 6 ∧ relCount gs1 this = Ok 6 ∧ relCount gs2 this = Ok 6 ∧ propCount gs2 this = Ok 12 ∧
    (let* g := populateSimple in Ok (edges g)) = Ok [(0, 2); (1, 0); (1, 2); (1, 4); (2, 4); (2, 3)] ∧
    (let* pg := populateProperty in Ok (edges (graph_ pg))) = Ok [(0, 2); (1, 0); (1, 2); (1, 4); (2, 4); (2, 3)] ∧
    (let* g := populateAlignment in Ok (edges g)) = Ok [(0, 1); (1, 2); (2, 4); (3, 4); (4, 1); (0, 3)].
Proof.
  destruct populateSimple as [g0|] eqn:H0; [|vm_compute in H0; discriminate H0].
  destruct populateAlignment as [g1|] eqn:H1; [|vm_compute in H1; discriminate H1].
  destruct populateProperty as [pg|] eqn:H2; [|vm_compute in H2; discriminate H2].
  unfold allocAndPopulateBuiltinGraph. rewrite H0, H1, H2. cbn [Z.eqb Pos.eqb res_bind].
  unfold registerSimpleGraph, registerAlignmentGraph, registerPropertyGraph, object_at, place. simpl.
  rewrite !lookup_insert_eq. simpl. vm_compute in H0, H1, H2. injection H0 as <-. injection H1 as <-. injection H2 as <-.
  eexists _, _, _. split_and!; try reflexivity;
    unfold nodeCount, relCount, propCount, lookupObject, lookupGraph, object_at; simpl;
    rewrite Z.eqb_refl; simpl; rewrite lookup_insert_eq; vm_compute; reflexivity.
Qed.
