(* ===== verification/Serialization.v ===== *)
(** * The binary serialisation library

    Model of include/lingodb/utility/Serialization.h and
    src/utility/Serialization.cpp: the overloads of [Serializer::writeValue] and
    [Deserializer::read], the object and property markers, and the hexadecimal
    form.  Every overload is a writer/reader pair; [Codec] is the law that the
    reader returns what the writer wrote and leaves the rest of the input. *)

From S2P Require Import Prelude Bytes.
From Stdlib Require Import Strings.Byte Strings.Ascii.
From Stdlib Require Strings.String.
#[local] Open Scope Z_scope.
#[local] Open Scope list_scope.

(** ** Markers *)
Definition present : Z := 0xFFFC.
Definition notPresent : Z := 0xFFFD.
Definition objectStart : Z := 0xFFFE.
Definition objectEnd : Z := 0xFFFF.

(** ** Byte sources *)

(** [SimpleByteReader::read] *)
Definition read_raw (size : nat) : reader bytes := λ bs,
  if (length bs <? size)%nat then Fault (Thrown "Read past end of buffer")
  else Ok (take size bs, drop size bs).

(** [SimpleByteWriter::write] appends; a writer is the bytes it appends. *)
Definition writer A := A → bytes.

Class Codec {A} (ok : A → Prop) (wr : writer A) (rd : reader A) : Prop :=
  codec_law : ∀ x rest, ok x → rd (wr x ++ rest) = Ok (x, rest).

(** ** Scalars: the object representation, little endian *)

Definition rd_uint (n : nat) : reader Z := λ bs,
  let* '(b, bs) := read_raw n bs in Ok (le_val b, bs).
Definition rd_sint (n : nat) : reader Z := λ bs,
  let* '(z, bs) := rd_uint n bs in Ok (wrap_s (8 * Z.of_nat n) z, bs).

Definition wr_bool : writer bool := put_bool.
Definition rd_bool : reader bool := λ bs, let* '(z, bs) := rd_uint 1 bs in Ok (negb (z =? 0), bs).
Definition wr_uint8 : writer Z := put_u8.
Definition rd_uint8 : reader Z := rd_uint 1.
Definition wr_uint16 : writer Z := put_u16.
Definition rd_uint16 : reader Z := rd_uint 2.
Definition wr_int : writer Z := put_u32.
Definition rd_int : reader Z := rd_sint 4.
(** Floating-point values by their bit patterns. *)
Definition wr_float : writer Z := put_u32.
Definition rd_float : reader Z := rd_uint 4.
Definition wr_double : writer Z := put_u64.
Definition rd_double : reader Z := rd_uint 8.
Definition wr_size : writer Z := put_u64.
Definition rd_size : reader Z := rd_uint 8.
Definition wr_int64 : writer Z := put_u64.
Definition rd_int64 : reader Z := rd_sint 8.

(** ** Strings, pointers, containers *)

Definition bytes_of (s : string) : bytes := String.list_byte_of_string s.
Definition wr_string : writer string := λ s, wr_size (Z.of_nat (String.length s)) ++ bytes_of s.
Definition rd_string : reader string := λ bs,
  let* '(length, bs) := rd_size bs in
  let* '(b, bs) := read_raw (Z.to_nat length) bs in Ok (String.string_of_list_byte b, bs).

(** [unique_ptr], [shared_ptr] and [optional] share one encoding. *)
Definition wr_option {A} (wr : writer A) : writer (option A) := λ v,
  match v with Some x => wr_uint16 present ++ wr x | None => wr_uint16 notPresent end.
Definition rd_option {A} (rd : reader A) : reader (option A) := λ bs,
  let* '(m, bs) := rd_uint16 bs in
  if m =? notPresent then Ok (None, bs) else let* '(x, bs) := rd bs in Ok (Some x, bs).

Definition wr_vector {A} (wr : writer A) : writer (list A) := λ v,
  wr_size (Z.of_nat (length v)) ++ concat (wr <$> v).
Definition rd_vector {A} (rd : reader A) : reader (list A) := λ bs,
  let* '(n, bs) := rd_size bs in get_many rd (Z.to_nat n) bs.

Definition wr_pair {A B} (wa : writer A) (wb : writer B) : writer (A * B) := λ p, wa (fst p) ++ wb (snd p).
Definition rd_pair {A B} (ra : reader A) (rb : reader B) : reader (A * B) := λ bs,
  let* '(a, bs) := ra bs in let* '(b, bs) := rb bs in Ok ((a, b), bs).

(** An unordered map as the list of its entries in iteration order; [insert]
    keeps the first value of a key. *)
Fixpoint assoc_mem {K V} `{EqDecision K} (k : K) (m : list (K * V)) : bool :=
  match m with [] => false | (k', _) :: m => bool_decide (k' = k) || assoc_mem k m end.
Definition assoc_insert {K V} `{EqDecision K} (m : list (K * V)) (e : K * V) : list (K * V) :=
  if assoc_mem (fst e) m then m else m ++ [e].
Definition wr_map {K V} (wk : writer K) (wv : writer V) : writer (list (K * V)) := wr_vector (wr_pair wk wv).
Definition rd_map {K V} `{EqDecision K} (rk : reader K) (rv : reader V) : reader (list (K * V)) := λ bs,
  let* '(es, bs) := rd_vector (rd_pair rk rv) bs in Ok (foldl assoc_insert [] es, bs).

(** An enumeration with an 8-bit underlying type, by its value. *)
Definition wr_enum8 {E} (code : E → Z) : writer E := λ e, wr_uint8 (code e).
Definition rd_enum8 {E} (decode : Z → option E) : reader E := λ bs,
  let* '(z, bs) := rd_uint8 bs in
  match decode z with Some e => Ok (e, bs) | None => Fault BadAccess end.

(** ** Objects and properties *)

Definition expect (marker : Z) (msg : string) (bs : bytes) : res bytes :=
  let* '(m, bs) := rd_uint16 bs in if negb (m =? marker) then Fault (Thrown msg) else Ok bs.

(** [writeValue] of a serialisable class, and the reader that expects both
    object markers. *)
Definition wr_object {A} (body : writer A) : writer A := λ x,
  wr_uint16 objectStart ++ body x ++ wr_uint16 objectEnd.
Definition rd_object {A} (body : reader A) : reader A := λ bs,
  let* bs := expect objectStart "Expected object start marker" bs in
  let* '(x, bs) := body bs in
  let* bs := expect objectEnd "Expected object end marker" bs in Ok (x, bs).

Definition writeProperty {A} (id : Z) (wr : writer A) : writer A := λ x,
  wr_uint16 id ++ wr x ++ wr_uint16 id.
Definition readProperty {A} (id : Z) (rd : reader A) : reader A := λ bs,
  let* bs := expect id "Expected property start marker" bs in
  let* '(x, bs) := rd bs in
  let* bs := expect id "Expected property end marker" bs in Ok (x, bs).

(** ** Hexadecimal strings *)

Definition hex_digit (n : Z) : ascii :=
  default "0"%char (String.get (Z.to_nat n) "0123456789ABCDEF").
Fixpoint hex_of (bs : bytes) : string :=
  match bs with
  | [] => EmptyString
  | b :: bs => String (hex_digit (Z.shiftr (byte_val b) 4))
                 (String (hex_digit (Z.land (byte_val b) 15)) (hex_of bs))
  end.

Definition hex_val (c : ascii) : option Z :=
  let n := Z.of_nat (nat_of_ascii c) in
  if (48 <=? n) && (n <=? 57) then Some (n - 48)
  else if (65 <=? n) && (n <=? 70) then Some (n - 55)
  else if (97 <=? n) && (n <=? 102) then Some (n - 87)
  else None.

(** [std::stoi(s, nullptr, 16)] on at most two characters: leading white space,
    a sign, then as many hexadecimal digits as follow; at least one. *)
Fixpoint hex_digits (acc : Z) (s : string) : Z :=
  match s with
  | EmptyString => acc
  | String c s => match hex_val c with Some d => hex_digits (16 * acc + d) s | None => acc end
  end.
Definition hex_unsigned (s : string) : res Z :=
  match s with
  | String c s' => match hex_val c with Some d => Ok (hex_digits d s') | None => Fault (Thrown "stoi") end
  | EmptyString => Fault (Thrown "stoi")
  end.
Definition is_space (c : ascii) : bool :=
  let n := Z.of_nat (nat_of_ascii c) in (n =? 32) || ((9 <=? n) && (n <=? 13)).
Definition hex_signed (s : string) : res Z :=
  match s with
  | String "-" s' => let* z := hex_unsigned s' in Ok (- z)
  | String "+" s' => hex_unsigned s'
  | _ => hex_unsigned s
  end.
Definition stoi16 (s : string) : res Z :=
  match s with
  | String c s' => if is_space c then (match s' with
                                       | String c' s'' => if is_space c' then hex_signed s'' else hex_signed s'
                                       | EmptyString => Fault (Thrown "stoi")
                                       end)
                   else hex_signed s
  | EmptyString => Fault (Thrown "stoi")
  end.

Fixpoint unhex (s : string) : res bytes :=
  match s with
  | EmptyString => Ok []
  | String a EmptyString => let* z := stoi16 (String a EmptyString) in Ok [byte_of_Z z]
  | String a (String b s) =>
      let* z := stoi16 (String a (String b EmptyString)) in
      let* bs := unhex s in Ok (byte_of_Z z :: bs)
  end.

Definition serializeToHexString {A} (wr : writer A) (x : A) : string := hex_of (writeProperty 0 wr x).
Definition deserializeFromHexString {A} (rd : reader A) (s : string) : res A :=
  let* bs := unhex s in
  let* '(x, _) := readProperty 0 rd bs in Ok x.

(** ** The laws *)

Lemma read_raw_app bs rest n : length bs = n → read_raw n (bs ++ rest) = Ok (bs, rest).
Proof.
  intros <-. unfold read_raw. rewrite length_app.
  destruct (Nat.ltb_spec (length bs + length rest) (length bs)); [lia|].
  by rewrite take_app_length, drop_app_length.
Qed.

Lemma rd_uint_le n z rest : rd_uint n (le_bytes n z ++ rest) = Ok (wrap_u (8 * Z.of_nat n) z, rest).
Proof. unfold rd_uint. rewrite read_raw_app by apply length_le_bytes. simpl. by rewrite le_val_bytes. Qed.

#[export] Instance codec_uint n : Codec (in_u (8 * Z.of_nat n)) (le_bytes n) (rd_uint n).
Proof. intros z rest Hz. by rewrite rd_uint_le, wrap_u_id. Qed.
#[export] Instance codec_sint n : (0 < n)%nat → Codec (in_s (8 * Z.of_nat n)) (le_bytes n) (rd_sint n).
Proof. intros Hn z rest Hz. unfold rd_sint. rewrite rd_uint_le. simpl. by rewrite wrap_s_u by (done || lia). Qed.

#[export] Instance codec_bool : Codec (λ _, True) wr_bool rd_bool.
Proof. intros [] rest _; done. Qed.
#[export] Instance codec_uint8 : Codec (in_u 8) wr_uint8 rd_uint8.
Proof. exact (codec_uint 1). Qed.
#[export] Instance codec_uint16 : Codec (in_u 16) wr_uint16 rd_uint16.
Proof. exact (codec_uint 2). Qed.
#[export] Instance codec_int : Codec (in_s 32) wr_int rd_int.
Proof. exact (codec_sint 4 ltac:(lia)). Qed.
#[export] Instance codec_float : Codec (in_u 32) wr_float rd_float.
Proof. exact (codec_uint 4). Qed.
#[export] Instance codec_size : Codec (in_u 64) wr_size rd_size.
Proof. exact (codec_uint 8). Qed.
#[export] Instance codec_int64 : Codec (in_s 64) wr_int64 rd_int64.
Proof. exact (codec_sint 8 ltac:(lia)). Qed.

Definition fits_size (n : nat) : Prop := Z.of_nat n < 2 ^ 64.

Lemma length_bytes_of s : length (bytes_of s) = String.length s.
Proof.
  unfold bytes_of, String.list_byte_of_string. rewrite length_map.
  induction s as [|c s IH]; simpl; [done|]. by rewrite IH.
Qed.

#[export] Instance codec_string : Codec (λ s, fits_size (String.length s)) wr_string rd_string.
Proof.
  intros s rest Hs. unfold wr_string, rd_string. rewrite <- app_assoc.
  rewrite codec_size by (unfold in_u, fits_size in *; lia). cbn [res_bind].
  rewrite read_raw_app by (rewrite Nat2Z.id; apply length_bytes_of). cbn [res_bind].
  unfold bytes_of. by rewrite String.string_of_list_byte_of_string.
Qed.

Section combinators.
Context {A B : Type} {okA : A → Prop} {okB : B → Prop}.
Context {wa : writer A} {ra : reader A} {wb : writer B} {rb : reader B}.
Context `{!Codec okA wa ra} `{!Codec okB wb rb}.

#[export] Instance codec_option : Codec (λ v, ∀ x, v = Some x → okA x) (wr_option wa) (rd_option ra).
Proof.
  intros [x|] rest Hx; unfold wr_option, rd_option.
  - rewrite <- app_assoc, codec_uint16 by (unfold in_u, present; lia). cbn [res_bind]. simpl.
    rewrite codec_law by (by apply Hx). done.
  - rewrite codec_uint16 by (unfold in_u, notPresent; lia). done.
Qed.

#[export] Instance codec_vector : Codec (λ v, Forall okA v ∧ fits_size (length v)) (wr_vector wa) (rd_vector ra).
Proof.
  intros v rest [Hv Hn]. unfold wr_vector, rd_vector. rewrite <- app_assoc.
  rewrite codec_size by (unfold in_u, fits_size in *; lia). cbn [res_bind]. rewrite Nat2Z.id.
  apply (get_many_reads okA); [|done]. intros x rest' Hx. by apply codec_law.
Qed.

#[export] Instance codec_pair : Codec (λ p, okA (fst p) ∧ okB (snd p)) (wr_pair wa wb) (rd_pair ra rb).
Proof.
  intros [a b] rest [Ha Hb]. unfold wr_pair, rd_pair. simpl in *. rewrite <- app_assoc.
  rewrite codec_law by done. cbn [res_bind]. by rewrite codec_law by done.
Qed.

Lemma expect_marker id msg rest : in_u 16 id → expect id msg (wr_uint16 id ++ rest) = Ok rest.
Proof. intros Hid. unfold expect. rewrite codec_uint16 by done. cbn [res_bind]. by rewrite Z.eqb_refl. Qed.

#[export] Instance codec_object : Codec okA (wr_object wa) (rd_object ra).
Proof.
  intros x rest Hx. unfold wr_object, rd_object. rewrite <- !app_assoc.
  rewrite expect_marker by (unfold in_u, objectStart; lia). cbn [res_bind].
  rewrite codec_law by done. cbn [res_bind]. by rewrite expect_marker by (unfold in_u, objectEnd; lia).
Qed.

#[export] Instance codec_property id : in_u 16 id → Codec okA (writeProperty id wa) (readProperty id ra).
Proof.
  intros Hid x rest Hx. unfold writeProperty, readProperty. rewrite <- !app_assoc.
  rewrite expect_marker by done. cbn [res_bind]. rewrite codec_law by done. cbn [res_bind].
  by rewrite expect_marker by done.
Qed.
End combinators.

(** A map: its keys are distinct, so reading it back inserts every entry. *)
Section map.
Context {K V : Type} `{EqDecision K} {okK : K → Prop} {okV : V → Prop}.
Context {wk : writer K} {rk : reader K} {wv : writer V} {rv : reader V}.
Context `{!Codec okK wk rk} `{!Codec okV wv rv}.

Lemma assoc_mem_spec (k : K) (m : list (K * V)) : assoc_mem k m = true ↔ k ∈ m.*1.
Proof.
  induction m as [|[k' v] m IH]; simpl; [set_solver|].
  rewrite orb_true_iff, bool_decide_eq_true, IH, elem_of_cons. naive_solver.
Qed.

Lemma assoc_insert_all (m es : list (K * V)) : NoDup (m ++ es).*1 → foldl assoc_insert m es = m ++ es.
Proof.
  revert m. induction es as [|[k v] es IH]; intros m Hnd; simpl; [by rewrite app_nil_r|].
  assert (assoc_mem k m = false) as Hk.
  { apply not_true_iff_false. rewrite assoc_mem_spec. rewrite fmap_app in Hnd.
    apply NoDup_app in Hnd as (_ & Hd & _). intros Hin. apply (Hd k Hin). left. }
  unfold assoc_insert at 2. simpl. rewrite Hk, IH; rewrite <- app_assoc; done.
Qed.

#[export] Instance codec_map :
  Codec (λ m, Forall (λ e, okK (fst e) ∧ okV (snd e)) m ∧ fits_size (length m) ∧ NoDup m.*1)
    (wr_map wk wv) (rd_map rk rv).
Proof.
  intros m rest (Hm & Hn & Hnd). unfold wr_map, rd_map.
  rewrite (codec_vector (okA := λ e, okK (fst e) ∧ okV (snd e))) by done. cbn [res_bind].
  by rewrite assoc_insert_all.
Qed.
End map.

Lemma hex_byte b :
  stoi16 (String (hex_digit (Z.shiftr (byte_val b) 4))
            (String (hex_digit (Z.land (byte_val b) 15)) EmptyString)) = Ok (byte_val b).
Proof. destruct b; vm_compute; reflexivity. Qed.

Lemma unhex_hex bs : unhex (hex_of bs) = Ok bs.
Proof.
  induction bs as [|b bs IH]; [done|]. cbn [hex_of unhex]. rewrite hex_byte. cbn [res_bind].
  rewrite IH. cbn [res_bind]. by rewrite byte_of_Z_val.
Qed.

(** ** Claims *)

(** Hexadecimal serialisation round trips: for every writer and reader that
    satisfy the codec law, [deserializeFromHexString] returns the value
    [serializeToHexString] encoded. *)
Theorem hex_serialization_roundtrip {A} (ok : A → Prop) (wr : writer A) (rd : reader A) x :
  Codec ok wr rd → ok x → deserializeFromHexString rd (serializeToHexString wr x) = Ok x.
Proof.
  intros HC Hx. unfold deserializeFromHexString, serializeToHexString. rewrite unhex_hex. cbn [res_bind].
  pose proof (codec_property (okA := ok) 0 ltac:(unfold in_u; lia) x [] Hx) as Hp. rewrite app_nil_r in Hp.
  by rewrite Hp.
Qed.

Definition sample_record : list (string * list Z) := [("ab", [1; -2]); ("", [])]%string.

Lemma hex_serialization_roundtrip_witness :
  deserializeFromHexString (rd_map rd_string (rd_vector rd_int64))
    (serializeToHexString (wr_map wr_string (wr_vector wr_int64)) sample_record) = Ok sample_record.
Proof.
  apply (hex_serialization_roundtrip
    (λ m, Forall (λ e, fits_size (String.length (fst e)) ∧ Forall (in_s 64) (snd e) ∧ fits_size (length (snd e))) m ∧
          fits_size (length m) ∧ NoDup m.*1)).
  - exact (codec_map (okK := λ s, fits_size (String.length s)) (okV := λ v, Forall (in_s 64) v ∧ fits_size (length v))).
  - unfold sample_record, fits_size, in_s. split_and!; simpl; [repeat constructor; simpl; lia|lia|].
    apply NoDup_cons. split; [set_solver|apply NoDup_singleton].
Defined.

(** A reader notices a mismatch: reading a property under another id than
    it was written with throws, as does reading an object where no object
    starts or any scalar from fewer bytes than it needs; no such read returns a
    value. *)
Theorem deserializer_rejects {A} (wr : writer A) (rd : reader A) x id id' rest n (bs : bytes) :
  in_u 16 id → id ≠ id' →
  readProperty id' rd (writeProperty id wr x ++ rest) = Fault (Thrown "Expected property start marker") ∧
  (id ≠ objectStart → rd_object rd (writeProperty id wr x ++ rest) = Fault (Thrown "Expected object start marker")) ∧
  ((length bs < n)%nat → rd_uint n bs = Fault (Thrown "Read past end of buffer") ∧
                         rd_sint n bs = Fault (Thrown "Read past end of buffer")).
Proof.
  intros Hid Hne. split_and!.
  - unfold readProperty, writeProperty, expect. rewrite <- !app_assoc, codec_uint16 by done. cbn [res_bind].
    by rewrite (proj2 (Z.eqb_neq _ _) Hne).
  - intros Ho. unfold rd_object, writeProperty, expect. rewrite <- !app_assoc, codec_uint16 by done. cbn [res_bind].
    by rewrite (proj2 (Z.eqb_neq _ _) Ho).
  - intros Hl. unfold rd_sint, rd_uint, read_raw. destruct (Nat.ltb_spec (length bs) n); [done|lia].
Qed.

Lemma deserializer_rejects_witness :
  readProperty 2 rd_int (writeProperty 1 wr_int 7 ++ []) = Fault (Thrown "Expected property start marker").
Proof. apply (deserializer_rejects wr_int rd_int 7 1 2 [] 0 []); [unfold in_u; lia|lia]. Defined.
