(* ===== verification/RdfTypes.v ===== *)
(** * Storing literal values

    Model of [RdfDatatypeInlineHelper] and [RdfDatatypeFixedHelper]
    (include/gengodb/semantics/RdfGraph.h): which datatypes are stored inside a
    property record or as 64-bit values, and how values are encoded.  Values of
    rdf4cpp's [std::any] are the constructors of [AnyVal]. *)

From S2P Require Import Prelude Datatypes GraphDataOps.
From stdpp Require Import pretty.
#[local] Open Scope Z_scope.

(** The dynamic types a literal's value can have; floating-point values by
    their bit patterns, time points in nanoseconds, zones in minutes. *)
Inductive AnyVal :=
  | AnyBool (b : bool)
  | AnyInt8 (z : Z) | AnyInt16 (z : Z) | AnyInt32 (z : Z) | AnyInt64 (z : Z)
  | AnyUInt8 (z : Z) | AnyUInt16 (z : Z) | AnyUInt32 (z : Z) | AnyUInt64 (z : Z)
  | AnyFloat (bits : Z) | AnyDouble (bits : Z)
  | AnyDate (year month day : Z) (tz : option Z)
  | AnyDateTime (nanos : Z) (tz : option Z)
  | AnyOther.

Definition xsd_iri (name : string) : string := kXsdNamespace +:+ name.

(** ** RdfDatatypeInlineHelper *)

Definition inlinedIRIs : list string :=
  xsd_iri <$> ["boolean"; "byte"; "float"; "int"; "short"; "unsignedByte"; "unsignedInt"; "unsignedShort"].

Definition isInlined (datatype : string) : bool := existsb (String.eqb datatype) inlinedIRIs.

(** [inlineValueImpl<T>]: the bytes of the value, zero-extended to 32 bits. *)
Definition inlineValue (v : AnyVal) (datatype : string) : res Z :=
  if String.eqb datatype (xsd_iri "boolean") then
    match v with AnyBool b => Ok (Z.b2z b) | _ => Fault AssertFailed end
  else if String.eqb datatype (xsd_iri "byte") then
    match v with AnyInt8 z => Ok (wrap_u 8 z) | _ => Fault AssertFailed end
  else if String.eqb datatype (xsd_iri "float") then
    match v with AnyFloat z => Ok (wrap_u 32 z) | _ => Fault AssertFailed end
  else if String.eqb datatype (xsd_iri "int") then
    match v with AnyInt32 z => Ok (wrap_u 32 z) | _ => Fault AssertFailed end
  else if String.eqb datatype (xsd_iri "short") then
    match v with AnyInt16 z => Ok (wrap_u 16 z) | _ => Fault AssertFailed end
  else if String.eqb datatype (xsd_iri "unsignedByte") then
    match v with AnyUInt8 z => Ok (wrap_u 8 z) | _ => Fault AssertFailed end
  else if String.eqb datatype (xsd_iri "unsignedInt") then
    match v with AnyUInt32 z => Ok (wrap_u 32 z) | _ => Fault AssertFailed end
  else if String.eqb datatype (xsd_iri "unsignedShort") then
    match v with AnyUInt16 z => Ok (wrap_u 16 z) | _ => Fault AssertFailed end
  else Fault AssertFailed.

(** [toLexicalFormImpl<T>]: the low bytes read as [T]; a byte other than 0 and
    1 is no [bool]. *)
Definition toLexicalForm (bits : Z) (datatype : string) : res string :=
  if String.eqb datatype (xsd_iri "boolean") then
    (if wrap_u 8 bits =? 1 then Ok "true" else if wrap_u 8 bits =? 0 then Ok "false" else Fault BadAccess)
  else if String.eqb datatype (xsd_iri "byte") then Ok (pretty (wrap_s 8 bits))
  else if String.eqb datatype (xsd_iri "float") then Ok (print_float bits)
  else if String.eqb datatype (xsd_iri "int") then Ok (pretty (wrap_s 32 bits))
  else if String.eqb datatype (xsd_iri "short") then Ok (pretty (wrap_s 16 bits))
  else if String.eqb datatype (xsd_iri "unsignedByte") then Ok (pretty (wrap_u 8 bits))
  else if String.eqb datatype (xsd_iri "unsignedInt") then Ok (pretty (wrap_u 32 bits))
  else if String.eqb datatype (xsd_iri "unsignedShort") then Ok (pretty (wrap_u 16 bits))
  else Fault AssertFailed.

(** ** RdfDatatypeFixedHelper *)

Inductive Kind := KInt64 | KUInt64 | KDouble | KDate | KDateTime.

Definition kindOf (datatype : string) : option Kind :=
  if String.eqb datatype (xsd_iri "long") then Some KInt64
  else if String.eqb datatype (xsd_iri "unsignedLong") then Some KUInt64
  else if String.eqb datatype (xsd_iri "double") then Some KDouble
  else if String.eqb datatype (xsd_iri "date") then Some KDate
  else if String.eqb datatype (xsd_iri "dateTime") then Some KDateTime
  else None.

Definition kDateTzBias : Z := 841.

Definition pack_tz (tz : option Z) : Z :=
  match tz with Some offset => wrap_u 32 (offset + kDateTzBias) | None => 0 end.
Definition unpack_tz (bits : Z) : option Z :=
  let tz := Z.land bits 0xFFFF in
  if negb (tz =? 0) then Some (tz - kDateTzBias) else None.

Definition packDate (year month day : Z) (tz : option Z) : res Z :=
  let* _ := assert_ ((- 2 ^ 31 <=? year) && (year <=? 2 ^ 31 - 1)) in
  let y := wrap_u 32 year in
  let m := wrap_u 32 month in
  let d := wrap_u 32 day in
  let bits := Z.lor (Z.shiftl y 32) (Z.lor (Z.shiftl (Z.land m 0xFF) 24)
                (Z.lor (Z.shiftl (Z.land d 0xFF) 16) (Z.land (pack_tz tz) 0xFFFF))) in
  Ok (wrap_s 64 bits).

Definition unpackDate (packed : Z) : Z * Z * Z * option Z :=
  let bits := wrap_u 64 packed in
  (wrap_s 32 (wrap_u 32 (Z.shiftr bits 32)), Z.land (Z.shiftr bits 24) 0xFF, Z.land (Z.shiftr bits 16) 0xFF,
   unpack_tz bits).

Definition kDateTimeMillisMin : Z := - 2 ^ 47.
Definition kDateTimeMillisMax : Z := 2 ^ 47 - 1.

(** The division of nanoseconds truncates towards zero. *)
Definition packDateTime (nanos : Z) (tz : option Z) : res Z :=
  let millis := Z.quot nanos 1000000 in
  let* _ := assert_ ((kDateTimeMillisMin <=? millis) && (millis <=? kDateTimeMillisMax)) in
  let millisBits := Z.land (wrap_u 64 millis) 0xFFFFFFFFFFFF in
  let bits := Z.lor (wrap_u 64 (Z.shiftl millisBits 16)) (Z.land (pack_tz tz) 0xFFFF) in
  Ok (wrap_s 64 bits).

Definition unpackDateTime (packed : Z) : Z * option Z :=
  let bits := wrap_u 64 packed in
  let millisBits := Z.shiftr bits 16 in
  let millis := if Z.testbit millisBits 47 then wrap_s 64 (Z.lor millisBits (wrap_u 64 (Z.lnot 0xFFFFFFFFFFFF)))
                else wrap_s 64 millisBits in
  (millis * 1000000, unpack_tz bits).

(** ** Lemmas *)

(** A time zone whose offset keeps the biased value in the sixteen bits, and
    apart from the value for "no zone". *)
Definition tz_fits (tz : option Z) : Prop :=
  match tz with Some o => 0 < o + kDateTzBias < 2 ^ 16 | None => True end.

Lemma pack_tz_range tz : tz_fits tz → 0 ≤ pack_tz tz < 2 ^ 16.
Proof. destruct tz as [o|]; simpl; [|lia]. intros Ho. rewrite wrap_u_id by (unfold in_u; lia). lia. Qed.

Lemma unpack_pack_tz tz h : tz_fits tz → unpack_tz (h * 2 ^ 16 + pack_tz tz) = tz.
Proof.
  intros Htz. pose proof (pack_tz_range tz Htz). unfold unpack_tz. change 0xFFFF with (2 ^ 16 - 1).
  rewrite land_ones_mod by lia. rewrite Z.add_comm, Z.mod_add, Z.mod_small by lia.
  destruct tz as [o|]; simpl in *; [|done]. rewrite wrap_u_id by (unfold in_u; lia).
  destruct (Z.eqb_spec (o + kDateTzBias) 0); [lia|]. simpl. f_equal. lia.
Qed.

Lemma shiftr_field a b n : 0 ≤ n → 0 ≤ b < 2 ^ n → Z.shiftr (a * 2 ^ n + b) n = a.
Proof.
  intros Hn Hb. rewrite Z.shiftr_div_pow2 by lia. rewrite Z.add_comm, Z.div_add by (apply Z.pow_nonzero; lia).
  rewrite Z.div_small by lia. lia.
Qed.

Lemma land_field a b n : 0 ≤ n → 0 ≤ b < 2 ^ n → Z.land (a * 2 ^ n + b) (2 ^ n - 1) = b.
Proof.
  intros Hn Hb. rewrite land_ones_mod by lia. rewrite Z.add_comm, Z.mod_add by (apply Z.pow_nonzero; lia).
  by apply Z.mod_small.
Qed.

(** The packed date as one number. *)
Lemma packDate_value year month day tz :
  in_s 32 year → 0 ≤ month < 256 → 0 ≤ day < 256 → tz_fits tz →
  packDate year month day tz =
    Ok (wrap_s 64 (wrap_u 32 year * 2 ^ 32 + (month * 2 ^ 24 + (day * 2 ^ 16 + pack_tz tz)))).
Proof.
  intros Hy Hm Hd Htz. pose proof (pack_tz_range tz Htz). unfold packDate, in_s in *. simpl in Hy.
  destruct (Z.leb_spec (- 2 ^ 31) year), (Z.leb_spec year (2 ^ 31 - 1)); try lia. cbn [andb assert_ res_bind].
  rewrite (wrap_u_id 32 month), (wrap_u_id 32 day) by (unfold in_u; lia).
  change 0xFF with (2 ^ 8 - 1). change 0xFFFF with (2 ^ 16 - 1). rewrite !land_ones_mod by lia.
  rewrite !Z.mod_small by lia. rewrite (lor_shiftl_add day), (lor_shiftl_add month), (lor_shiftl_add (wrap_u 32 year)) by lia. done.
Qed.

(** Dates round trip through their 64-bit encoding: year, month, day and
    the optional time zone come back for every year in the int32 range, every
    month and day that fits a byte, and every zone offset from -840 minutes on
    that keeps the biased offset below 2^16. *)
Theorem date_pack_roundtrip year month day tz :
  in_s 32 year → 0 ≤ month < 256 → 0 ≤ day < 256 → tz_fits tz →
  ∃ p, packDate year month day tz = Ok p ∧ in_s 64 p ∧ unpackDate p = (year, month, day, tz).
Proof.
  intros Hy Hm Hd Htz. pose proof (pack_tz_range tz Htz) as Ht. pose proof (wrap_u_range 32 year ltac:(lia)) as Hu.
  unfold in_u in Hu. rewrite packDate_value by done. eexists. split; [done|]. split; [apply wrap_s_range; lia|].
  unfold unpackDate. rewrite wrap_u_s by (unfold in_u; lia).
  set (t := pack_tz tz) in *. set (y := wrap_u 32 year) in *.
  rewrite (shiftr_field y) by lia.
  replace (y * 2 ^ 32 + (month * 2 ^ 24 + (day * 2 ^ 16 + t))) with ((y * 2 ^ 8 + month) * 2 ^ 24 + (day * 2 ^ 16 + t)) by lia.
  rewrite (shiftr_field (y * 2 ^ 8 + month)) by lia.
  replace ((y * 2 ^ 8 + month) * 2 ^ 24 + (day * 2 ^ 16 + t)) with (((y * 2 ^ 8 + month) * 2 ^ 8 + day) * 2 ^ 16 + t) by lia.
  rewrite (shiftr_field ((y * 2 ^ 8 + month) * 2 ^ 8 + day)) by lia. change 0xFF with (2 ^ 8 - 1).
  rewrite !land_field by lia. unfold t. rewrite unpack_pack_tz by done.
  unfold y. rewrite (wrap_u_id 32 (wrap_u 32 year)) by (apply wrap_u_range; lia). by rewrite wrap_s_u by (done || lia).
Qed.

Lemma date_pack_roundtrip_witness :
  ∃ p, packDate (-44) 3 15 (Some (-60)) = Ok p ∧ in_s 64 p ∧ unpackDate p = (-44, 3, 15, Some (-60)).
Proof. apply date_pack_roundtrip; [unfold in_s; simpl; lia|lia|lia|simpl; unfold kDateTzBias; lia]. Defined.

Lemma packDateTime_value nanos tz :
  kDateTimeMillisMin ≤ Z.quot nanos 1000000 ≤ kDateTimeMillisMax → tz_fits tz →
  packDateTime nanos tz = Ok (wrap_s 64 ((Z.quot nanos 1000000 mod 2 ^ 48) * 2 ^ 16 + pack_tz tz)).
Proof.
  intros Hm Htz. pose proof (pack_tz_range tz Htz). unfold packDateTime.
  set (m := Z.quot nanos 1000000) in *.
  destruct (Z.leb_spec kDateTimeMillisMin m), (Z.leb_spec m kDateTimeMillisMax); try lia. cbn [andb assert_ res_bind].
  change 0xFFFFFFFFFFFF with (2 ^ 48 - 1). change 0xFFFF with (2 ^ 16 - 1). rewrite !land_ones_mod by lia.
  rewrite (Z.mod_small (pack_tz tz)) by lia. unfold wrap_u at 2. rewrite Z.mod_mod_divide by (by exists (2 ^ 16)).
  pose proof (Z.mod_pos_bound m (2 ^ 48) ltac:(lia)).
  rewrite (wrap_u_id 64) by (unfold in_u; rewrite Z.shiftl_mul_pow2 by lia; lia).
  by rewrite lor_shiftl_add by lia.
Qed.

(** Sign extension from 48 to 64 bits. *)
Lemma sign_extend m :
  - 2 ^ 47 ≤ m < 2 ^ 47 →
  (if Z.testbit (m mod 2 ^ 48) 47 then wrap_s 64 (Z.lor (m mod 2 ^ 48) (wrap_u 64 (Z.lnot 0xFFFFFFFFFFFF)))
   else wrap_s 64 (m mod 2 ^ 48)) = m.
Proof.
  intros Hm. destruct (Z.lt_ge_cases m 0) as [Hneg|Hpos].
  - assert (m mod 2 ^ 48 = m + 2 ^ 48) as E by (symmetry; apply (Z.mod_unique_pos _ _ (-1)); lia).
    rewrite E. assert (Z.testbit (m + 2 ^ 48) 47 = true) as ->.
    { rewrite Z.testbit_true by lia. rewrite <- (Z.div_unique_pos (m + 2 ^ 48) (2 ^ 47) 1 (m + 2 ^ 47)) by lia. done. }
    change (wrap_u 64 (Z.lnot 0xFFFFFFFFFFFF)) with (Z.shiftl (2 ^ 16 - 1) 48).
    rewrite Z.lor_comm, lor_shiftl_add by lia.
    replace ((2 ^ 16 - 1) * 2 ^ 48 + (m + 2 ^ 48)) with (m + 2 ^ 64) by lia.
    unfold wrap_s. replace (m + 2 ^ 64 + 2 ^ (64 - 1)) with (m + 2 ^ (64 - 1) + 1 * 2 ^ 64) by lia.
    rewrite Z.mod_add by lia. apply (wrap_s_id 64); [lia|]. unfold in_s. simpl. lia.
  - rewrite (Z.mod_small m) by lia. assert (Z.testbit m 47 = false) as ->.
    { rewrite <- (Z.mod_small m (2 ^ 47)) by lia. apply Z.mod_pow2_bits_high. lia. }
    apply wrap_s_id; [lia|]. unfold in_s. simpl. lia.
Qed.

(** Time points round trip through their 64-bit encoding up to the
    millisecond: the decoded time is the encoded one truncated towards zero to
    a multiple of a million nanoseconds, and the time zone comes back. *)
Theorem datetime_pack_roundtrip nanos tz :
  kDateTimeMillisMin ≤ Z.quot nanos 1000000 ≤ kDateTimeMillisMax → tz_fits tz →
  ∃ p, packDateTime nanos tz = Ok p ∧ in_s 64 p ∧ unpackDateTime p = (Z.quot nanos 1000000 * 1000000, tz).
Proof.
  intros Hm Htz. pose proof (pack_tz_range tz Htz) as Ht. rewrite packDateTime_value by done.
  eexists. split; [done|]. split; [apply wrap_s_range; lia|]. unfold unpackDateTime.
  pose proof (Z.mod_pos_bound (Z.quot nanos 1000000) (2 ^ 48) ltac:(lia)).
  rewrite wrap_u_s by (unfold in_u; lia). rewrite shiftr_field by lia. rewrite unpack_pack_tz by done.
  rewrite sign_extend by (unfold kDateTimeMillisMin, kDateTimeMillisMax in Hm; lia). done.
Qed.

Lemma datetime_pack_roundtrip_witness :
  ∃ p, packDateTime (-1234567891) None = Ok p ∧ in_s 64 p ∧ unpackDateTime p = (-1234000000, None).
Proof.
  destruct (datetime_pack_roundtrip (-1234567891) None) as (p & ? & ? & ?); [vm_compute; split; congruence|done|].
  exists p. by split_and!.
Defined.

(** The values of the integer types that are stored inside the record, with
    the name of their type. *)
Definition inline_int (v : AnyVal) : option (string * Z) :=
  match v with
  | AnyInt8 z => if decide (in_s 8 z) then Some ("byte", z) else None
  | AnyInt16 z => if decide (in_s 16 z) then Some ("short", z) else None
  | AnyInt32 z => if decide (in_s 32 z) then Some ("int", z) else None
  | AnyUInt8 z => if decide (in_u 8 z) then Some ("unsignedByte", z) else None
  | AnyUInt16 z => if decide (in_u 16 z) then Some ("unsignedShort", z) else None
  | AnyUInt32 z => if decide (in_u 32 z) then Some ("unsignedInt", z) else None
  | _ => None
  end.

Lemma wrap_u_twice b c z : 0 ≤ b ≤ c → wrap_u c (wrap_u b z) = wrap_u b z.
Proof.
  intros H. apply wrap_u_id. pose proof (wrap_u_range b z ltac:(lia)). unfold in_u in *.
  pose proof (Z.pow_le_mono_r 2 b c). lia.
Qed.

(** Values stored inside the property record: an integer of one of the
    inlined types, and a boolean, prints back from its stored bits as its
    decimal form (or true and false); the type is one that [isInlined] accepts,
    and the stored bits fit the 32-bit field. *)
Theorem inline_value_roundtrip :
  (∀ v name z, inline_int v = Some (name, z) → isInlined (xsd_iri name) = true ∧
     ∃ bits, inlineValue v (xsd_iri name) = Ok bits ∧ in_u 32 bits ∧
       toLexicalForm bits (xsd_iri name) = Ok (pretty z)) ∧
  (∀ b, ∃ bits, inlineValue (AnyBool b) (xsd_iri "boolean") = Ok bits ∧ in_u 32 bits ∧
     toLexicalForm bits (xsd_iri "boolean") = Ok (if b then "true" else "false")).
Proof.
  split.
  - intros v name z Hv. destruct v as [b|w|w|w|w|w|w|w|w|w|w|? ? ? ?|? ?|]; simpl in Hv; try discriminate Hv;
      destruct (decide _) as [Hr|]; try discriminate Hv; injection Hv as <- <-; (split; [done|]); eexists;
      (split; [reflexivity|]); (split; [unfold in_u; pose proof (wrap_u_range 8 w); pose proof (wrap_u_range 16 w);
        pose proof (wrap_u_range 32 w); unfold in_u in *; lia|]);
      unfold toLexicalForm; simpl; rewrite ?wrap_u_twice by lia; rewrite ?wrap_s_u by (done || lia); 
      rewrite ?wrap_u_id by done; reflexivity.
  - intros []; eexists; (split; [reflexivity|]); (split; [unfold in_u; simpl; lia|reflexivity]).
Qed.

Lemma inline_value_roundtrip_witness :
  ∃ bits, inlineValue (AnyInt16 (-3)) (xsd_iri "short") = Ok bits ∧ toLexicalForm bits (xsd_iri "short") = Ok "-3".
Proof.
  destruct (proj1 inline_value_roundtrip (AnyInt16 (-3)) "short" (-3)) as (_ & bits & ? & _ & ?); [reflexivity|].
  by exists bits.
Defined.
