(* ===== verification/Identifiers.v ===== *)
(** * Node identifiers

    Model of include/gengodb/semantics/Identifiers.h and
    src/gengodb/semantics/Identifiers.cpp: the dictionary between RDF nodes and
    dense local ids, the mapping between local and global ids, and the index
    over several graphs, with their serialised forms. *)

From S2P Require Import Prelude Bytes Serialization RdfTypes.
From Stdlib Require Import Strings.Ascii Strings.Byte.
#[local] Open Scope Z_scope.

(** [rdf4cpp]'s node types, with their 8-bit codes left to that library. *)
Inductive RDFNodeType := NtVariable | NtBNode | NtIRI | NtLiteral.
#[export] Instance RDFNodeType_eq_dec : EqDecision RDFNodeType.
Proof. solve_decision. Defined.

(** A literal: datatype IRI, language tag, lexical form and typed value. *)
Record Literal := mkLit { l_datatype : string; l_lang : string; l_lex : string; l_value : AnyVal }.

Inductive Node :=
  | NodeIRI (identifier : string)
  | NodeBNode (identifier : string)
  | NodeLiteral (l : Literal).

(** [NodeId]; a null IRI is [None]. *)
Record NodeId := mkNodeId { ni_type : RDFNodeType; ni_iri : option string; ni_localId : string }.

#[export] Instance NodeId_eq_dec : EqDecision NodeId.
Proof. solve_decision. Defined.
Definition type_tag (t : RDFNodeType) : nat :=
  match t with NtVariable => 0 | NtBNode => 1 | NtIRI => 2 | NtLiteral => 3 end%nat.
Definition tag_type (n : nat) : RDFNodeType :=
  match n with O => NtVariable | S O => NtBNode | S (S O) => NtIRI | _ => NtLiteral end.
#[export] Program Instance NodeId_countable : Countable NodeId :=
  inj_countable' (λ n, (type_tag (ni_type n), ni_iri n, ni_localId n))
    (λ t, mkNodeId (tag_type t.1.1) t.1.2 t.2) _.
Next Obligation. by intros [[] ? ?]. Qed.

(** ** NodeIdDict *)

Record NodeIdDict := mkDict { node_to_id : gmap NodeId Z; id_to_node : list NodeId }.

Definition node_id (node : Node) : NodeId :=
  match node with
  | NodeIRI s => mkNodeId NtIRI (Some s) ""
  | NodeBNode s => mkNodeId NtBNode None s
  | NodeLiteral _ => mkNodeId NtLiteral None ""
  end.

Definition newDict : NodeIdDict := mkDict ∅ [].

(** [emplace] keeps the id of a node that is present. *)
Definition emplace_id {K} `{Countable K} (m : gmap K Z) (k : K) (id : Z) : gmap K Z :=
  match m !! k with Some _ => m | None => <[k := id]> m end.

Definition dict_push (d : NodeIdDict) (nid : NodeId) : NodeIdDict * Z :=
  let id := i32 (Z.of_nat (length (id_to_node d))) in
  (mkDict (emplace_id (node_to_id d) nid id) (id_to_node d ++ [nid]), id).

Definition dict_insert (d : NodeIdDict) (node : Node) : NodeIdDict * Z := dict_push d (node_id node).

Definition get_or_insert (d : NodeIdDict) (node : Node) : NodeIdDict * Z :=
  let nid := node_id node in
  match node_to_id d !! nid with
  | Some id => (d, id)
  | None => dict_push d nid
  end.

Definition get_safe (d : NodeIdDict) (node : Node) : Z :=
  match node_to_id d !! node_id node with None => -1 | Some id => id end.

Definition dict_size (d : NodeIdDict) : Z := Z.of_nat (length (id_to_node d)).

(** [NodeId{}] has the enumerator of value zero as its type. *)
Definition dict_get (zero_type : RDFNodeType) (d : NodeIdDict) (id : Z) : res NodeId :=
  if dict_size d <? wrap_u 64 id then Ok (mkNodeId zero_type None "")
  else load (id_to_node d) id.

(** The constructor from an initializer list. *)
Definition dict_of (l : list Node) : NodeIdDict := foldl (λ d n, fst (dict_insert d n)) newDict l.

(** ** The stored form: shared prefixes and suffixes *)

Record NodeIdEntry := mkEntry { en_type : RDFNodeType; en_prefixId : Z; en_suffix : string }.
Record NodeIdStore := mkStore { st_prefixes : list string; st_entries : list NodeIdEntry }.

(** [find_last_of] with the two separators, and the two substrings. *)
Definition is_sep (c : ascii) : bool := Ascii.eqb c "/" || Ascii.eqb c "#".
Fixpoint has_sep (s : string) : bool :=
  match s with EmptyString => false | String c s => is_sep c || has_sep s end.
Fixpoint splitIRI (iri : string) : string * string :=
  match iri with
  | EmptyString => (EmptyString, EmptyString)
  | String c s =>
      if is_sep c || has_sep s then
        (if has_sep s then let '(p, t) := splitIRI s in (String c p, t) else (String c EmptyString, s))
      else (EmptyString, String c s)
  end.

(** One iteration of [buildStore]; the index of prefixes is part of the state. *)
Definition build_step (st : NodeIdStore * gmap string Z) (node : NodeId) : NodeIdStore * gmap string Z :=
  let '(store, prefixIndex) := st in
  match ni_type node with
  | NtIRI =>
      let '(prefix, suffix) := splitIRI (default "" (ni_iri node)) in
      match prefixIndex !! prefix with
      | None =>
          let id := i32 (Z.of_nat (length (st_prefixes store))) in
          (mkStore (st_prefixes store ++ [prefix]) (st_entries store ++ [mkEntry NtIRI id suffix]),
           <[prefix := id]> prefixIndex)
      | Some id => (mkStore (st_prefixes store) (st_entries store ++ [mkEntry NtIRI id suffix]), prefixIndex)
      end
  | NtBNode | NtVariable =>
      (mkStore (st_prefixes store) (st_entries store ++ [mkEntry (ni_type node) (-1) (ni_localId node)]), prefixIndex)
  | NtLiteral =>
      (mkStore (st_prefixes store) (st_entries store ++ [mkEntry (ni_type node) (-1) ""]), prefixIndex)
  end.
Definition buildStore (nodes : list NodeId) : NodeIdStore :=
  fst (foldl build_step (mkStore [] [], ∅) nodes).

Definition read_entry (prefixes : list string) (e : NodeIdEntry) : res NodeId :=
  match en_type e with
  | NtIRI => let* p := load prefixes (en_prefixId e) in Ok (mkNodeId NtIRI (Some (p +:+ en_suffix e)) "")
  | NtBNode | NtVariable => Ok (mkNodeId (en_type e) None (en_suffix e))
  | NtLiteral => Ok (mkNodeId (en_type e) None "")
  end.
Fixpoint read_entries (prefixes : list string) (es : list NodeIdEntry) : res (list NodeId) :=
  match es with
  | [] => Ok []
  | e :: es => let* n := read_entry prefixes e in let* ns := read_entries prefixes es in Ok (n :: ns)
  end.
Definition readStore (store : NodeIdStore) : res (list NodeId) :=
  read_entries (st_prefixes store) (st_entries store).

(** The loop that rebuilds the reverse map; the first id of a node wins. *)
Fixpoint index_nodes {K} `{Countable K} (m : gmap K Z) (id : Z) (nodes : list K) : gmap K Z :=
  match nodes with
  | [] => m
  | n :: nodes => index_nodes (emplace_id m n (i32 id)) (id + 1) nodes
  end.

Section codes.
(** The 8-bit codes of the node types in rdf4cpp. *)
Context (code : RDFNodeType → Z) (decode : Z → option RDFNodeType).

Definition wr_entry : writer NodeIdEntry := wr_object (λ e,
  writeProperty 1 (wr_enum8 code) (en_type e) ++ writeProperty 2 wr_int (en_prefixId e) ++
  writeProperty 3 wr_string (en_suffix e)).
Definition rd_entry : reader NodeIdEntry := rd_object (λ bs,
  let* '(t, bs) := readProperty 1 (rd_enum8 decode) bs in
  let* '(p, bs) := readProperty 2 rd_int bs in
  let* '(s, bs) := readProperty 3 rd_string bs in Ok (mkEntry t p s, bs)).

Definition dict_serialize (d : NodeIdDict) : bytes :=
  let store := buildStore (id_to_node d) in
  writeProperty 1 (wr_vector wr_string) (st_prefixes store) ++
  writeProperty 2 (wr_vector wr_entry) (st_entries store).
Definition dict_deserialize : reader NodeIdDict := λ bs,
  let* '(prefixes, bs) := readProperty 1 (rd_vector rd_string) bs in
  let* '(entries, bs) := readProperty 2 (rd_vector rd_entry) bs in
  let* nodes := readStore (mkStore prefixes entries) in
  Ok (mkDict (index_nodes ∅ 0 nodes) nodes, bs).
End codes.

(** ** NodeIdMapping *)

Record NodeIdMapping := mkMapping { local_to_global : list Z; global_to_local : gmap Z Z }.
Definition newMapping : NodeIdMapping := mkMapping [] ∅.

Definition mapping_insert (m : NodeIdMapping) (gid : Z) : NodeIdMapping * Z :=
  let lid := i32 (Z.of_nat (length (local_to_global m))) in
  (mkMapping (local_to_global m ++ [gid]) (emplace_id (global_to_local m) gid lid), lid).
Definition get_local_safe (m : NodeIdMapping) (gid : Z) : Z :=
  match global_to_local m !! gid with None => -1 | Some l => l end.
Definition get_local (m : NodeIdMapping) (gid : Z) : res Z :=
  match global_to_local m !! gid with None => Fault AssertFailed | Some l => Ok l end.
Definition get_global_safe (m : NodeIdMapping) (id : Z) : res Z :=
  if (id <? 0) || (Z.of_nat (length (local_to_global m)) <=? wrap_u 64 id) then Ok (-1)
  else load (local_to_global m) id.
Definition get_global (m : NodeIdMapping) (id : Z) : res Z := load (local_to_global m) id.
Definition mapping_serialize (m : NodeIdMapping) : bytes := writeProperty 1 (wr_vector wr_int64) (local_to_global m).
Definition mapping_deserialize : reader NodeIdMapping := λ bs,
  let* '(l, bs) := readProperty 1 (rd_vector rd_int64) bs in
  Ok (mkMapping l (index_nodes ∅ 0 l), bs).

(** ** GraphNodeIndex *)

(** What [build] reads of an [RdfGraph]: its IRI, its dictionary, and the key
    of each literal node ([NodeHelper::literalKeyFor]). *)
Record GraphView := mkView { gv_iri : string; gv_nodes : list NodeId; gv_literal : Z → res (bytes * Z) }.

(** The state across graphs: next global id, IRIs and literals seen. *)
Record Globals := mkGlobals {
  nextGlobalId : Z;
  iriToGlobal : gmap NodeId Z;
  literalToGlobal : gmap (bytes * Z) Z;
}.

(** First loop, for one node: the slot's new value. *)
Definition assign_named (st : Globals) (n : NodeId) : Globals * Z :=
  match ni_type n with
  | NtIRI =>
      match iriToGlobal st !! n with
      | None => (mkGlobals (nextGlobalId st + 1) (<[n := nextGlobalId st]> (iriToGlobal st)) (literalToGlobal st),
                 nextGlobalId st)
      | Some g => (st, g)
      end
  | NtBNode | NtVariable => (mkGlobals (nextGlobalId st + 1) (iriToGlobal st) (literalToGlobal st), nextGlobalId st)
  | NtLiteral => (st, -1)
  end.
Fixpoint assign_nodes (st : Globals) (nodes : list NodeId) : Globals * list Z :=
  match nodes with
  | [] => (st, [])
  | n :: nodes =>
      let '(st1, g) := assign_named st n in
      let '(st2, gs) := assign_nodes st1 nodes in (st2, g :: gs)
  end.

(** Second loop: literals, from local id [id] on. *)
Fixpoint assign_literals (gv : GraphView) (st : Globals) (gids : list Z) (id : Z) (nodes : list NodeId) : res (Globals * list Z) :=
  match nodes with
  | [] => Ok (st, gids)
  | n :: nodes =>
      match ni_type n with
      | NtLiteral =>
          let* '(data, dataType) := gv_literal gv id in
          let* datatypeGlobalId := load gids dataType in
          match literalToGlobal st !! (data, datatypeGlobalId) with
          | None =>
              let g := nextGlobalId st in
              let st1 := mkGlobals (g + 1) (iriToGlobal st) (<[(data, datatypeGlobalId) := g]> (literalToGlobal st)) in
              assign_literals gv st1 (zset gids id g) (id + 1) nodes
          | Some g => assign_literals gv st (zset gids id g) (id + 1) nodes
          end
      | _ => assign_literals gv st gids (id + 1) nodes
      end
  end.

Definition build_graph (st : Globals) (gv : GraphView) : res (Globals * NodeIdMapping) :=
  let '(st1, gids) := assign_nodes st (gv_nodes gv) in
  let* '(st2, gids) := assign_literals gv st1 gids 0 (gv_nodes gv) in
  Ok (st2, foldl (λ m g, fst (mapping_insert m g)) newMapping gids).

Definition GraphNodeIndex := gmap string NodeIdMapping.

Fixpoint build_all (st : Globals) (index : GraphNodeIndex) (graphs : list (string * GraphView)) : res (Globals * GraphNodeIndex) :=
  match graphs with
  | [] => Ok (st, index)
  | (name, gv) :: graphs =>
      let key := if String.eqb name "" then gv_iri gv else name in
      let* '(st1, mapping) := build_graph st gv in
      build_all st1 (<[key := mapping]> index) graphs
  end.
Definition build (graphs : list (string * GraphView)) : res GraphNodeIndex :=
  let* '(_, index) := build_all (mkGlobals 0 ∅ ∅) ∅ graphs in Ok index.

Definition getIndex (index : GraphNodeIndex) (name : string) : res NodeIdMapping :=
  match index !! name with Some m => Ok m | None => Fault (Thrown "out_of_range") end.
Definition hasIndex (index : GraphNodeIndex) (name : string) : bool := bool_decide (is_Some (index !! name)).

(** The index as the serialiser sees it: its entries in iteration order, each
    mapping behind a [unique_ptr]. *)
Definition wr_mapping : writer NodeIdMapping := wr_object mapping_serialize.
Definition rd_mapping : reader NodeIdMapping := rd_object mapping_deserialize.
Definition index_serialize (entries : list (string * option NodeIdMapping)) : bytes :=
  writeProperty 1 (wr_map wr_string (wr_option wr_mapping)) entries.
Definition index_deserialize : reader (list (string * option NodeIdMapping)) :=
  readProperty 1 (rd_map rd_string (rd_option rd_mapping)).
