(* ===== verification/IdentifiersProps.v ===== *)
(** * Node identifiers: theorems

    The dictionary keeps its two directions consistent and survives
    serialisation; global ids identify exactly the nodes that denote the same
    resource across graphs. *)

From S2P Require Import Prelude Bytes Serialization RdfTypes Identifiers.
From Stdlib Require Import Strings.Ascii Strings.Byte.
#[local] Open Scope Z_scope.
#[local] Open Scope list_scope.

(** ** First occurrences *)

Section index.
Context {K : Type} `{Countable K}.
Implicit Types (m : gmap K Z) (l : list K) (k : K).

(** [i] is the first position of [k] in [l]. *)
Definition first_at l k i : Prop := zget l i = Some k ∧ ∀ j, j < i → zget l j ≠ Some k.

Lemma first_at_unique l k i j : first_at l k i → first_at l k j → i = j.
Proof. intros [Hi Hi'] [Hj Hj']. destruct (Z.lt_trichotomy i j) as [?|[?|?]]; naive_solver. Qed.

Lemma first_at_exists l k : k ∈ l → ∃ i, first_at l k i.
Proof.
  induction l as [|k' l IH] using rev_ind; [set_solver|]. intros Hk.
  assert (k ∈ l → ∃ i, first_at (l ++ [k']) k i) as Hl.
  { intros Hin. destruct (IH Hin) as [i [Hi Hf]]. pose proof (zget_lt _ _ _ Hi).
    exists i. split; [by rewrite zget_app_l by lia|]. intros j ?. rewrite zget_app_l by lia. by apply Hf. }
  destruct (decide (k ∈ l)) as [|Hn]; [by apply Hl|].
  assert (k = k') as -> by set_solver. exists (Z.of_nat (length l)). split; [apply zget_app_end|].
  intros j ? Hj. rewrite zget_app_l in Hj by lia. apply Hn.
  unfold zget in Hj. destruct (0 <=? j); [|done]. by eapply list_elem_of_lookup_2.
Qed.

Lemma first_at_elem l k i : first_at l k i → k ∈ l.
Proof. intros [Hi _]. unfold zget in Hi. destruct (0 <=? i); [|done]. by eapply list_elem_of_lookup_2. Qed.

Lemma emplace_lookup m k id k' :
  emplace_id m k id !! k' = match m !! k' with Some x => Some x | None => if decide (k = k') then Some id else None end.
Proof.
  unfold emplace_id. destruct (m !! k) eqn:Hk; destruct (decide (k = k')) as [->|Hne].
  - by rewrite Hk.
  - by destruct (m !! k').
  - rewrite lookup_insert_eq, Hk. done.
  - rewrite lookup_insert_ne by done. by destruct (m !! k').
Qed.

Lemma index_nodes_app m id l1 l2 :
  index_nodes m id (l1 ++ l2) = index_nodes (index_nodes m id l1) (id + Z.of_nat (length l1)) l2.
Proof.
  revert m id. induction l1 as [|k l1 IH]; intros m id; simpl; [by rewrite Z.add_0_r|].
  rewrite IH. f_equal. lia.
Qed.

Lemma index_nodes_spec l k :
  Z.of_nat (length l) ≤ 2 ^ 31 → ∀ i, index_nodes ∅ 0 l !! k = Some i ↔ first_at l k i.
Proof.
  induction l as [|k' l IH] using rev_ind; intros Hlen i.
  { simpl. rewrite lookup_empty. split; [done|]. intros [Hi _]. by apply zget_lt in Hi as ?; simpl in *; lia. }
  rewrite length_app in Hlen. simpl in Hlen. rewrite index_nodes_app, Z.add_0_l. simpl. rewrite emplace_lookup.
  specialize (IH ltac:(lia)).
  assert (i32 (Z.of_nat (length l)) = Z.of_nat (length l)) as -> by (apply wrap_s_id; unfold in_s; lia).
  destruct (index_nodes ∅ 0 l !! k) as [x|] eqn:Hx.
  - destruct (proj1 (IH x) eq_refl) as [Hz Hf]. clear Hx. rename Hz into Hx. pose proof (zget_lt _ _ _ Hx).
    assert (first_at (l ++ [k']) k x) as Hfx.
    { split; [by rewrite zget_app_l by lia|]. intros j ?. rewrite zget_app_l by lia. by apply Hf. }
    split; [by intros [= <-]|]. intros Hi. f_equal. by eapply first_at_unique.
  - assert (k ∉ l) as Hn. { intros [j Hj]%first_at_exists. apply IH in Hj. congruence. }
    assert (∀ j, j < Z.of_nat (length l) → zget (l ++ [k']) j ≠ Some k) as Hlow.
    { intros j ? Hj. rewrite zget_app_l in Hj by lia. apply Hn.
      unfold zget in Hj. destruct (0 <=? j); [|done]. by eapply list_elem_of_lookup_2. }
    case_decide as Hk; [subst k'|].
    + split; [intros [= <-]; split; [apply zget_app_end|done]|]. intros Hi. f_equal.
      apply (first_at_unique (l ++ [k]) k); [|done]. split; [apply zget_app_end|done].
    + split; [done|]. intros Hi%first_at_elem. set_solver.
Qed.
End index.

(** ** The dictionary *)

(** Invariant: the reverse map sends each node to its first id, and every node
    is one that [node_id] produces. *)
Definition canonical (n : NodeId) : Prop :=
  match ni_type n with
  | NtIRI => is_Some (ni_iri n) ∧ ni_localId n = ""%string
  | NtBNode | NtVariable => ni_iri n = None
  | NtLiteral => ni_iri n = None ∧ ni_localId n = ""%string
  end.

Record dict_wf (d : NodeIdDict) : Prop := {
  wf_index : node_to_id d = index_nodes ∅ 0 (id_to_node d);
  wf_canonical : Forall canonical (id_to_node d);
}.

Lemma node_id_canonical n : canonical (node_id n).
Proof. destruct n; simpl; unfold canonical; simpl; eauto. Qed.

Lemma newDict_wf : dict_wf newDict.
Proof. split; [done|constructor]. Qed.

Lemma dict_push_wf d n : canonical n → dict_wf d → dict_wf (fst (dict_push d n)).
Proof.
  intros Hc [Hi Hn]. split; simpl.
  - rewrite index_nodes_app. simpl. by rewrite <- Hi.
  - apply Forall_app_2; [done|]. by constructor.
Qed.

Lemma get_or_insert_wf d n : dict_wf d → dict_wf (fst (get_or_insert d n)).
Proof.
  intros Hd. unfold get_or_insert. destruct (_ !! _); [done|]. apply dict_push_wf; [apply node_id_canonical|done].
Qed.

Lemma dict_insert_wf d n : dict_wf d → dict_wf (fst (dict_insert d n)).
Proof. intros. apply dict_push_wf; [apply node_id_canonical|done]. Qed.

Lemma dict_push_id d n : dict_size d < 2 ^ 31 → snd (dict_push d n) = dict_size d.
Proof. intros. simpl. apply wrap_s_id; unfold dict_size, in_s in *; lia. Qed.

Lemma dict_size_push d n : dict_size (fst (dict_push d n)) = dict_size d + 1.
Proof. unfold dict_size. simpl. rewrite length_app. simpl. lia. Qed.

Definition small (d : NodeIdDict) : Prop := dict_size d ≤ 2 ^ 31.

Lemma dict_lookup d n i : dict_wf d → small d → node_to_id d !! n = Some i ↔ first_at (id_to_node d) n i.
Proof. intros [-> _] Hs. by apply index_nodes_spec. Qed.

Lemma dict_get_stored z d i n : zget (id_to_node d) i = Some n → small d → dict_get z d i = Ok n.
Proof.
  intros Hi Hs. pose proof (zget_lt _ _ _ Hi). unfold dict_get, small, dict_size in *.
  rewrite wrap_u_id by (unfold in_u; lia). destruct (Z.ltb_spec (Z.of_nat (length (id_to_node d))) i); [lia|].
  by apply load_Some.
Qed.

(** What [get_or_insert] returns, on both branches. *)
Lemma get_or_insert_spec d n d' i :
  dict_wf d → dict_size d < 2 ^ 31 → get_or_insert d n = (d', i) →
  dict_wf d' ∧ first_at (id_to_node d') (node_id n) i ∧ id_to_node d `prefix_of` id_to_node d' ∧
  (node_id n ∈ id_to_node d → d' = d) ∧
  (node_id n ∉ id_to_node d → i = dict_size d ∧ id_to_node d' = id_to_node d ++ [node_id n]).
Proof.
  intros Hwf Hs Hg. pose proof (get_or_insert_wf d n Hwf) as Hwf'. rewrite Hg in Hwf'. simpl in Hwf'.
  assert (small d) by (unfold small; lia).
  unfold get_or_insert in Hg. destruct (node_to_id d !! node_id n) as [j|] eqn:Hj.
  - injection Hg as <- <-. apply dict_lookup in Hj; [|done..]. split_and!; try done.
    intros Hn. by apply first_at_elem in Hj.
  - assert (node_id n ∉ id_to_node d) as Hn.
    { intros [k Hk]%first_at_exists. apply dict_lookup in Hk; [|done..]. congruence. }
    pose proof (dict_push_id d (node_id n) Hs) as Hid. rewrite Hg in Hid. simpl in Hid.
    unfold dict_push in Hg. injection Hg as <- Hi. subst i. simpl. split_and!; try done.
    + split; [by rewrite Hid; apply zget_app_end|]. rewrite Hid. intros j Hlt Hz.
      unfold dict_size in Hlt. rewrite zget_app_l in Hz by lia. apply Hn.
      unfold zget in Hz. destruct (0 <=? j); [|done]. by eapply list_elem_of_lookup_2.
    + by eexists.
Qed.

(** ** Prefix compression *)

Lemma has_sep_false s : has_sep s = false → splitIRI s = (""%string, s).
Proof. destruct s as [|c s]; simpl; [done|]. by intros ->. Qed.

Lemma splitIRI_append s : (fst (splitIRI s) +:+ snd (splitIRI s))%string = s.
Proof.
  induction s as [|c s IH]; simpl; [done|].
  destruct (is_sep c || has_sep s); [|done]. destruct (has_sep s); [|done].
  destruct (splitIRI s) as [p t]. simpl in *.
  change (String c (p +:+ t) = String c s). by rewrite IH.
Qed.

(** State of [buildStore] after some nodes: the index finds a prefix where it
    is stored, and the entries read back as the nodes. *)
Record build_inv (st : NodeIdStore * gmap string Z) (nodes : list NodeId) : Prop := {
  bi_index : ∀ p i, snd st !! p = Some i → zget (st_prefixes (fst st)) i = Some p;
  bi_count : (length (st_prefixes (fst st)) ≤ length nodes)%nat;
  bi_reads : readStore (fst st) = Ok nodes;
  bi_entries : Forall (λ e, in_s 32 (en_prefixId e)) (st_entries (fst st));
}.

Lemma read_entries_app ps es1 es2 ns1 ns2 :
  read_entries ps es1 = Ok ns1 → read_entries ps es2 = Ok ns2 → read_entries ps (es1 ++ es2) = Ok (ns1 ++ ns2).
Proof.
  revert ns1. induction es1 as [|e es1 IH]; simpl; intros ns1 H1 H2; [by injection H1 as <-|].
  destruct (read_entry ps e); [|done]. cbn [res_bind] in *. destruct (read_entries ps es1) eqn:E; [|done].
  cbn [res_bind] in *. injection H1 as <-. by rewrite (IH _ eq_refl H2).
Qed.

Lemma read_entries_extend ps p es ns : read_entries ps es = Ok ns → read_entries (ps ++ [p]) es = Ok ns.
Proof.
  revert ns. induction es as [|e es IH]; simpl; intros ns Hr; [done|]. inv_ok.
  assert (read_entry (ps ++ [p]) e = Ok a) as ->.
  { unfold read_entry in *. destruct (en_type e); try done. inv_ok. apply load_ok in E1.
    rewrite (load_Some _ _ a1); [done|]. pose proof (zget_lt _ _ _ E1). by rewrite zget_app_l by lia. }
  cbn [res_bind]. by rewrite (IH a0 E0).
Qed.

Lemma build_step_inv st nodes n :
  canonical n → Z.of_nat (length nodes) < 2 ^ 31 → build_inv st nodes → build_inv (build_step st n) (nodes ++ [n]).
Proof.
  intros Hc Hlen [Hi Hn Hr He]. destruct st as [[ps es] ix]. unfold readStore in *. simpl in *.
  assert (∀ e, in_s 32 (en_prefixId e) → Forall (λ e, in_s 32 (en_prefixId e)) (es ++ [e])) as Hes.
  { intros. apply Forall_app_2; [done|]. by constructor. }
  assert (∀ p, zget (ps ++ [p]) (i32 (Z.of_nat (length ps))) = Some p) as Hnew.
  { intros p. unfold i32. rewrite wrap_s_id by (unfold in_s; lia). apply zget_app_end. }
  destruct n as [ty iri lid]. unfold canonical in Hc. simpl in Hc. unfold build_step. simpl.
  destruct ty; simpl.
  - subst. split; simpl; [done|rewrite length_app; lia|by eapply read_entries_app|apply Hes; unfold in_s; simpl; lia].
  - subst. split; simpl; [done|rewrite length_app; lia|by eapply read_entries_app|apply Hes; unfold in_s; simpl; lia].
  - destruct Hc as [[s ->] ->]. simpl. destruct (splitIRI s) as [p t] eqn:Hs.
    assert ((p +:+ t)%string = s) as Hpt by (rewrite <- (splitIRI_append s), Hs; done).
    destruct (ix !! p) as [id|] eqn:Hp.
    + pose proof (Hi _ _ Hp) as Hz. split; simpl; [done|rewrite length_app; lia| |].
      * unfold readStore; simpl. eapply read_entries_app; [done|]. simpl. unfold read_entry. simpl.
        rewrite (load_Some _ _ _ Hz). simpl. by rewrite Hpt.
      * apply Hes. pose proof (zget_lt _ _ _ Hz). unfold in_s. simpl. lia.
    + split; simpl; [|rewrite !length_app; simpl; lia| |].
      * intros q i. rewrite lookup_insert. case_decide; [intros [= <-]; subst; apply Hnew|].
        intros Hq%Hi. pose proof (zget_lt _ _ _ Hq). by rewrite zget_app_l by lia.
      * unfold readStore; simpl. eapply read_entries_app; [by apply read_entries_extend|]. simpl. unfold read_entry. simpl.
        rewrite (load_Some _ _ _ (Hnew p)). simpl. by rewrite Hpt.
      * apply Hes. apply wrap_s_range. lia.
  - destruct Hc as [-> ->]. split; simpl; [done|rewrite length_app; lia|by eapply read_entries_app|apply Hes; unfold in_s; simpl; lia].
Qed.

Lemma buildStore_inv nodes :
  Forall canonical nodes → Z.of_nat (length nodes) ≤ 2 ^ 31 →
  build_inv (foldl build_step (mkStore [] [], ∅) nodes) nodes.
Proof.
  induction nodes as [|n nodes IH] using rev_ind; intros Hc Hlen.
  { split; simpl; [done|lia|done|constructor]. }
  rewrite length_app in Hlen. simpl in Hlen. apply Forall_app in Hc as [Hc Hn]. rewrite foldl_app. simpl.
  apply build_step_inv; [by inversion Hn|lia|]. apply IH; [done|lia].
Qed.

(** Every string of the store is a piece of a string of the nodes. *)
Definition fits_node (n : NodeId) : Prop :=
  fits_size (String.length (default "" (ni_iri n))) ∧ fits_size (String.length (ni_localId n)).
Definition fits_store (s : NodeIdStore) : Prop :=
  Forall (λ p, fits_size (String.length p)) (st_prefixes s) ∧
  Forall (λ e, fits_size (String.length (en_suffix e))) (st_entries s).

Lemma length_string_app (a b : string) : String.length (a +:+ b) = (String.length a + String.length b)%nat.
Proof. induction a as [|c a IH]; [done|]. change (S (String.length (a +:+ b)) = S (String.length a + String.length b)). by rewrite IH. Qed.

Lemma splitIRI_fits s :
  fits_size (String.length s) →
  fits_size (String.length (fst (splitIRI s))) ∧ fits_size (String.length (snd (splitIRI s))).
Proof.
  intros Hs. rewrite <- (splitIRI_append s), length_string_app in Hs. unfold fits_size in *. lia.
Qed.

Lemma build_step_fits st n : fits_node n → fits_store (fst st) → fits_store (fst (build_step st n)).
Proof.
  intros [Hi Hl] [Hp He]. destruct st as [[ps es] ix]. unfold build_step, fits_store in *. simpl in *.
  assert (fits_size (String.length "")) by (unfold fits_size; simpl; lia).
  assert (∀ e, fits_size (String.length (en_suffix e)) →
    Forall (λ e, fits_size (String.length (en_suffix e))) (es ++ [e])).
  { intros. apply Forall_app_2; [done|]. by constructor. }
  destruct (ni_type n); simpl; eauto.
  pose proof (splitIRI_fits _ Hi) as [? ?]. destruct (splitIRI _) as [p t]. simpl in *.
  destruct (ix !! p); simpl; [eauto|]. split; [|eauto]. apply Forall_app_2; [done|]. by constructor.
Qed.

Lemma buildStore_fits nodes : Forall fits_node nodes → fits_store (buildStore nodes).
Proof.
  unfold buildStore. induction nodes as [|n nodes IH] using rev_ind; intros Hf; [by repeat constructor|].
  apply Forall_app in Hf as [Hf Hn]. rewrite foldl_app. simpl. apply build_step_fits; [by inversion Hn|by apply IH].
Qed.

Lemma length_read_entries ps es ns : read_entries ps es = Ok ns → length es = length ns.
Proof.
  revert ns. induction es as [|e es IH]; simpl; intros ns Hr; [by injection Hr as <-|]. inv_ok. simpl. by rewrite (IH _ E0).
Qed.

(** ** Claims: the dictionary *)

(** The operations that change a dictionary, and their composition. *)
Inductive DictOp := OpInsert (n : Node) | OpGetOrInsert (n : Node).
Definition dict_op (d : NodeIdDict) (o : DictOp) : NodeIdDict :=
  match o with OpInsert n => fst (dict_insert d n) | OpGetOrInsert n => fst (get_or_insert d n) end.
Definition dict_run (ops : list DictOp) : NodeIdDict := foldl dict_op newDict ops.

Lemma dict_run_wf ops : dict_wf (dict_run ops).
Proof.
  unfold dict_run. induction ops as [|o ops IH] using rev_ind; [apply newDict_wf|].
  rewrite foldl_app. simpl. destruct o; simpl; [by apply dict_insert_wf|by apply get_or_insert_wf].
Qed.

(** The two directions of a dictionary agree, whatever sequence of inserts
    built it (below 2^31 nodes): [get_or_insert] returns an id at which [get]
    finds the node's identifier, a second call returns the same id and changes
    nothing, ids given out earlier keep their nodes, [get_safe] is the inverse
    and is -1 exactly for unknown nodes, and two nodes obtain the same id
    exactly when they have the same identifier. *)
Theorem dictionary_ids (ops : list DictOp) (n : Node) (z : RDFNodeType) (d d' : NodeIdDict) (i : Z) :
  d = dict_run ops → dict_size d < 2 ^ 31 → get_or_insert d n = (d', i) →
  dict_get z d' i = Ok (node_id n) ∧
  get_or_insert d' n = (d', i) ∧
  (∀ j m, zget (id_to_node d) j = Some m → dict_get z d' j = Ok m) ∧
  get_safe d' n = i ∧
  (get_safe d n = -1 ↔ node_id n ∉ id_to_node d) ∧
  (∀ m, get_safe d' m = i ↔ node_id m = node_id n).
Proof.
  intros Hd Hs Hg. assert (dict_wf d) as Hwf by (subst; apply dict_run_wf).
  pose proof (get_or_insert_spec d n d' i Hwf Hs Hg) as (Hwf' & Hf & Hpre & Hsame & Hfresh).
  assert (small d) by (unfold small; lia).
  assert (small d') as Hs'.
  { destruct (decide (node_id n ∈ id_to_node d)) as [Hin|Hin]; [by rewrite Hsame|].
    destruct (Hfresh Hin) as [_ Hd']. unfold small, dict_size in *. rewrite Hd', length_app. simpl. lia. }
  pose proof (proj2 (dict_lookup d' (node_id n) i Hwf' Hs') Hf) as Hlk.
  pose proof (zget_lt _ _ _ (proj1 Hf)). split_and!.
  - apply dict_get_stored; [apply Hf|done].
  - unfold get_or_insert. by rewrite Hlk.
  - intros j m Hj. apply dict_get_stored; [|done]. destruct Hpre as [l ->].
    pose proof (zget_lt _ _ _ Hj). by rewrite zget_app_l by lia.
  - unfold get_safe. by rewrite Hlk.
  - unfold get_safe. destruct (node_to_id d !! node_id n) as [j|] eqn:Hj.
    + apply dict_lookup in Hj; [|done..]. pose proof (zget_lt _ _ _ (proj1 Hj)).
      split; [lia|]. intros Hn. by apply first_at_elem in Hj.
    + split; [|done]. intros _ [k Hk]%first_at_exists. apply dict_lookup in Hk; [|done..]. congruence.
  - intros m. unfold get_safe. split.
    + destruct (node_to_id d' !! node_id m) as [j|] eqn:Hj; [|lia]. intros ->.
      apply dict_lookup in Hj; [|done..]. destruct Hj as [Hj _], Hf as [Hf _]. congruence.
    + intros ->. by rewrite Hlk.
Qed.

Definition sample_ops : list DictOp :=
  [OpGetOrInsert (NodeIRI "http://a/x"); OpGetOrInsert (NodeIRI "http://a/y");
   OpInsert (NodeLiteral (mkLit "" "" "" (AnyInt32 0))); OpInsert (NodeLiteral (mkLit "" "" "" (AnyInt32 0)));
   OpGetOrInsert (NodeBNode "b"); OpGetOrInsert (NodeIRI "http://a/x")].

Lemma dictionary_ids_witness :
  dict_get NtIRI (dict_run sample_ops) 1 = Ok (node_id (NodeIRI "http://a/y")).
Proof.
  refine (proj1 (dictionary_ids sample_ops (NodeIRI "http://a/y") NtIRI (dict_run sample_ops) (dict_run sample_ops) 1 _ _ _)).
  - reflexivity.
  - vm_compute; reflexivity.
  - vm_compute; reflexivity.
Defined.

(** [get] does not protect against the id one past the end. *)
Lemma dict_get_past_end z d : small d → dict_get z d (dict_size d) = Fault BadAccess.
Proof.
  intros Hs. unfold dict_get, small in *. rewrite wrap_u_id by (unfold in_u, dict_size in *; lia).
  rewrite Z.ltb_irrefl. unfold load. by rewrite (proj2 (zget_None _ _)) by (unfold dict_size; lia).
Qed.

Section roundtrip.
Context (code : RDFNodeType → Z) (decode : Z → option RDFNodeType).
Hypothesis decode_code : ∀ t, decode (code t) = Some t.
Hypothesis code_u8 : ∀ t, in_u 8 (code t).

Lemma codec_entry :
  Codec (λ e, in_s 32 (en_prefixId e) ∧ fits_size (String.length (en_suffix e))) (wr_entry code) (rd_entry decode).
Proof.
  refine (codec_object (Codec0 := _)). unfold Codec. intros [t p s] rest [Hp Hs]. cbn beta in *. cbn [en_type en_prefixId en_suffix] in *. rewrite <- !app_assoc.
  assert (Codec (λ _, True) (wr_enum8 code) (rd_enum8 decode)) as Henum.
  { intros t' rest' _. unfold wr_enum8, rd_enum8. rewrite codec_uint8 by done. cbn [res_bind]. by rewrite decode_code. }
  rewrite (codec_property (okA := λ _, True) 1 ltac:(unfold in_u; lia)) by done. cbn [res_bind].
  rewrite (codec_property (okA := in_s 32) 2 ltac:(unfold in_u; lia)) by done. cbn [res_bind].
  by rewrite (codec_property (okA := λ s, fits_size (String.length s)) 3 ltac:(unfold in_u; lia)) by done.
Qed.

Lemma dict_reads_back d (rest : bytes) :
  dict_wf d → dict_size d ≤ 2 ^ 31 → Forall fits_node (id_to_node d) →
  dict_deserialize decode (dict_serialize code d ++ rest) = Ok (d, rest).
Proof.
  intros [Hi Hc] Hs Hf.
  pose proof (buildStore_inv (id_to_node d) Hc Hs) as [_ Hn Hr He].
  pose proof (buildStore_fits _ Hf) as [Hps Hes]. fold (buildStore (id_to_node d)) in *.
  pose proof (length_read_entries _ _ _ Hr) as Hlen. pose proof codec_entry as Hent. unfold dict_size in Hs.
  unfold dict_serialize, dict_deserialize. rewrite <- app_assoc.
  rewrite (codec_property (okA := λ v, Forall (λ s, fits_size (String.length s)) v ∧ fits_size (length v)) 1
    ltac:(unfold in_u; lia)) by (split; [done|unfold fits_size; lia]). cbn [res_bind].
  rewrite (codec_property (okA := λ v, Forall (λ e, in_s 32 (en_prefixId e) ∧ fits_size (String.length (en_suffix e))) v
    ∧ fits_size (length v)) 2 ltac:(unfold in_u; lia))
    by (split; [by apply Forall_and|unfold fits_size; lia]). cbn [res_bind].
  unfold readStore in *. simpl. rewrite Hr. cbn [res_bind]. rewrite <- Hi. by destruct d.
Qed.

(** A dictionary survives serialisation: the stored form with shared IRI
    prefixes reads back as the same dictionary, its reverse map included, and
    the rest of the input is untouched.  The codes of the node types in
    rdf4cpp are only assumed distinct and 8 bits wide. *)
Theorem dictionary_roundtrip (ops : list DictOp) (rest : bytes) :
  dict_size (dict_run ops) ≤ 2 ^ 31 → Forall fits_node (id_to_node (dict_run ops)) →
  dict_deserialize decode (dict_serialize code (dict_run ops) ++ rest) = Ok (dict_run ops, rest).
Proof. apply dict_reads_back, dict_run_wf. Qed.
End roundtrip.

Definition sample_code (t : RDFNodeType) : Z := Z.of_nat (type_tag t).
Definition sample_decode (z : Z) : option RDFNodeType := Some (tag_type (Z.to_nat z)).

Lemma dictionary_roundtrip_witness :
  dict_deserialize sample_decode (dict_serialize sample_code (dict_run sample_ops) ++ []) = Ok (dict_run sample_ops, []).
Proof.
  apply (dictionary_roundtrip sample_code sample_decode).
  - by intros [].
  - intros []; unfold in_u, sample_code; simpl; lia.
  - vm_compute; congruence.
  - change (Forall fits_node [mkNodeId NtIRI (Some "http://a/x") ""; mkNodeId NtIRI (Some "http://a/y") "";
      mkNodeId NtLiteral None ""; mkNodeId NtLiteral None ""; mkNodeId NtBNode None "b"]).
    unfold fits_node, fits_size. repeat constructor; simpl; lia.
Defined.
