(* ===== verification/IndexProps.v ===== *)
(** * Global node identifiers

    [GraphNodeIndex::build] numbers the nodes of several graphs so that two
    nodes share a global id exactly when they denote the same resource: the
    same IRI, or the same literal (stored bytes and datatype IRI); blank nodes
    and variables are never shared.  The proof follows the counter with a
    relation between resources and the ids given to them. *)

From S2P Require Import Prelude Bytes Serialization RdfTypes Identifiers IdentifiersProps.
From Stdlib Require Import Strings.Byte.
#[local] Open Scope Z_scope.
#[local] Open Scope list_scope.

(** What a node denotes.  Blank nodes and variables are local to the graph at
    position [k]. *)
Inductive Resource :=
  | ResIri (n : NodeId)
  | ResLiteral (data : bytes) (datatype : NodeId)
  | ResLocal (k : nat) (id : Z).

Definition resource (k : nat) (gv : GraphView) (id : Z) : option Resource :=
  n ← zget (gv_nodes gv) id;
  match ni_type n with
  | NtIRI => Some (ResIri n)
  | NtBNode | NtVariable => Some (ResLocal k id)
  | NtLiteral =>
      match gv_literal gv id with
      | Ok (data, dt) => d ← zget (gv_nodes gv) dt; Some (ResLiteral data d)
      | Fault _ => None
      end
  end.

(** Every literal node has a key, whose datatype is an IRI node. *)
Definition view_ok (gv : GraphView) : Prop :=
  ∀ id n, zget (gv_nodes gv) id = Some n → ni_type n = NtLiteral →
    ∃ data dt d, gv_literal gv id = Ok (data, dt) ∧ zget (gv_nodes gv) dt = Some d ∧ ni_type d = NtIRI.

(** ** Numberings *)

Definition numbering := Resource → Z → Prop.

Record numbers (next : Z) (R : numbering) : Prop := {
  num_range : ∀ t g, R t g → 0 ≤ g < next;
  num_fun : ∀ t g g', R t g → R t g' → g = g';
  num_inj : ∀ t t' g, R t g → R t' g → t = t';
}.

Definition extend (R : numbering) (t : Resource) (g : Z) : numbering := λ t' g', R t' g' ∨ (t' = t ∧ g' = g).

Lemma numbers_extend next R t : 0 ≤ next → numbers next R → (∀ g, ¬ R t g) → numbers (next + 1) (extend R t next).
Proof.
  intros Hn [Hr Hf Hi] Ht. unfold extend. split.
  - intros t' g [H|[_ ->]]; [apply Hr in H|]; lia.
  - intros t' g g' [H|[-> ->]] [H'|[E ->]]; [by eapply Hf|subst; naive_solver|naive_solver|done].
  - intros t' t'' g [H|[-> E]] [H'|[-> E']]; [by eapply Hi|subst; apply Hr in H; lia|subst; apply Hr in H'; lia|done].
Qed.

(** The locals numbered so far lie before position [id] of graph [k]. *)
Definition locals_before (R : numbering) (k : nat) (id : Z) : Prop :=
  ∀ k' i g, R (ResLocal k' i) g → (k' < k)%nat ∨ (k' = k ∧ i < id).

Definition iri_res (t : Resource) : Prop :=
  match t with ResIri n => ni_type n = NtIRI | ResLiteral _ d => ni_type d = NtIRI | ResLocal _ _ => True end.

(** The state of [build] realises a numbering. *)
Record globals_ok (st : Globals) (R : numbering) (k : nat) (id : Z) : Prop := {
  go_next : 0 ≤ nextGlobalId st;
  go_num : numbers (nextGlobalId st) R;
  go_iri : ∀ n g, iriToGlobal st !! n = Some g ↔ R (ResIri n) g;
  go_lit : ∀ data dg g, literalToGlobal st !! (data, dg) = Some g ↔ ∃ d, R (ResIri d) dg ∧ R (ResLiteral data d) g;
  go_lit_iri : ∀ data d g, R (ResLiteral data d) g → ∃ dg, R (ResIri d) dg;
  go_locals : locals_before R k id;
}.

Lemma globals_ok_start k : globals_ok (mkGlobals 0 ∅ ∅) (λ _ _, False) k 0.
Proof.
  split; simpl; [done|by split|..].
  - intros n g. rewrite lookup_empty. naive_solver.
  - intros. rewrite lookup_empty. naive_solver.
  - naive_solver.
  - intros k' i g [].
Qed.

Lemma globals_ok_advance st R k id id' : id ≤ id' → globals_ok st R k id → globals_ok st R k id'.
Proof.
  intros Hle [? ? ? ? ? Hl]. split; try done. intros k' i g H. destruct (Hl _ _ _ H) as [?|[? ?]]; [by left|right; lia].
Qed.

Lemma globals_ok_next_graph st R k id : globals_ok st R k id → globals_ok st R (S k) 0.
Proof.
  intros [? ? ? ? ? Hl]. split; try done. intros k' i g H. left. destruct (Hl _ _ _ H) as [?|[? ?]]; lia.
Qed.

(** ** The first loop *)

Lemma assign_named_ok st R k id n st' g :
  0 ≤ id → globals_ok st R k id → assign_named st n = (st', g) →
  ∃ R' : numbering, (∀ t x, R t x → R' t x) ∧ globals_ok st' R' k (id + 1) ∧
    match ni_type n with NtIRI => R' (ResIri n) g | NtBNode | NtVariable => R' (ResLocal k id) g | NtLiteral => g = -1 end.
Proof.
  intros Hid Hok. unfold assign_named.
  assert (assign_local : (mkGlobals (nextGlobalId st + 1) (iriToGlobal st) (literalToGlobal st), nextGlobalId st) = (st', g) →
    ∃ R' : numbering, (∀ t x, R t x → R' t x) ∧ globals_ok st' R' k (id + 1) ∧ R' (ResLocal k id) g).
  { intros [= <- <-]. destruct Hok as [Hn Hnum Hi Hl Hli Hloc].
    exists (extend R (ResLocal k id) (nextGlobalId st)). split; [by left|]. split; [split; simpl|by right].
    - lia.
    - apply numbers_extend; [done..|]. intros x Hx%Hloc. lia.
    - intros m x. rewrite Hi. unfold extend. naive_solver.
    - intros data dg x. rewrite Hl. unfold extend. naive_solver.
    - intros data d x [H|[? ?]]; [|done]. destruct (Hli _ _ _ H) as [dg Hdg]. exists dg. by left.
    - intros k' i x [H%Hloc|[[= -> ->] _]]; lia. }
  destruct (ni_type n) eqn:Hty; [by apply assign_local..| |].
  - clear assign_local. destruct (iriToGlobal st !! n) as [y|] eqn:Hy.
    + intros [= <- <-]. exists R. split; [done|]. split; [by eapply globals_ok_advance; [|done]; lia|].
      by apply (go_iri _ _ _ _ Hok).
    + intros [= <- <-]. destruct Hok as [Hn Hnum Hi Hl Hli Hloc].
      assert (∀ x, ¬ R (ResIri n) x) as Hfresh by (intros x Hx%Hi; congruence).
      exists (extend R (ResIri n) (nextGlobalId st)). split; [by left|]. split; [split; simpl|by right].
      * lia.
      * by apply numbers_extend.
      * intros m x. rewrite lookup_insert. unfold extend. case_decide as Hm.
        { subst m. split; [intros [= <-]; by right|]. intros [H|[_ ->]]; [by apply Hfresh in H|done]. }
        rewrite Hi. naive_solver.
      * intros data dg x. rewrite Hl. unfold extend. split; [naive_solver|].
        intros (d & [Hd|[[= ->] ->]] & [Hx|[? ?]]); try done; [by eauto|].
        destruct (Hli _ _ _ Hx) as [dg' Hdg']. by apply Hfresh in Hdg'.
      * intros data d x [H|[? ?]]; [|done]. destruct (Hli _ _ _ H) as [dg Hdg]. exists dg. by left.
      * intros k' i x [H%Hloc|[? _]]; [lia|done].
  - clear assign_local. intros [= <- <-]. exists R. split; [done|]. split; [|done]. by eapply globals_ok_advance; [|done]; lia.
Qed.

(** What the slots hold after the first loop. *)
Definition slot_ok (R : numbering) (k : nat) (id : Z) (n : NodeId) (g : Z) : Prop :=
  match ni_type n with NtIRI => R (ResIri n) g | NtBNode | NtVariable => R (ResLocal k id) g | NtLiteral => g = -1 end.

Lemma slot_ok_mono (R R' : numbering) k id n g : (∀ t x, R t x → R' t x) → slot_ok R k id n g → slot_ok R' k id n g.
Proof. unfold slot_ok. destruct (ni_type n); eauto. Qed.

Lemma assign_nodes_ok nodes : ∀ st (R : numbering) k id st' gids,
  0 ≤ id → globals_ok st R k id → assign_nodes st nodes = (st', gids) →
  ∃ R' : numbering, (∀ t x, R t x → R' t x) ∧ globals_ok st' R' k (id + Z.of_nat (length nodes)) ∧
    length gids = length nodes ∧
    ∀ j n g, nodes !! j = Some n → gids !! j = Some g → slot_ok R' k (id + Z.of_nat j) n g.
Proof.
  induction nodes as [|n nodes IH]; intros st R k id st' gids Hid Hok; cbn [assign_nodes length].
  { intros [= <- <-]. exists R. rewrite Z.add_0_r. split_and!; done. }
  destruct (assign_named st n) as [st1 g1] eqn:H1. destruct (assign_nodes st1 nodes) as [st2 gs] eqn:H2.
  intros [= <- <-]. destruct (assign_named_ok _ _ _ _ _ _ _ Hid Hok H1) as (R1 & Hm1 & Hok1 & Hs1).
  destruct (IH _ _ _ (id + 1) _ _ ltac:(lia) Hok1 H2) as (R2 & Hm2 & Hok2 & Hlen & Hs2).
  exists R2. split; [by eauto|]. split; [by replace (id + Z.of_nat (S (length nodes))) with (id + 1 + Z.of_nat (length nodes)) by lia|].
  split; [simpl; lia|]. intros [|j] m g; simpl.
  - intros [= <-] [= <-]. rewrite Z.add_0_r. by apply (slot_ok_mono R1).
  - intros Hm Hg. replace (id + Z.of_nat (S j)) with (id + 1 + Z.of_nat j) by lia. by apply Hs2.
Qed.

(** ** The second loop *)

Lemma assign_literal_ok st R k id data dg d :
  globals_ok st R k id → R (ResIri d) dg →
  literalToGlobal st !! (data, dg) = None →
  let R' := extend R (ResLiteral data d) (nextGlobalId st) in
  globals_ok (mkGlobals (nextGlobalId st + 1) (iriToGlobal st)
    (<[(data, dg) := nextGlobalId st]> (literalToGlobal st))) R' k id.
Proof.
  intros [Hn Hnum Hi Hl Hli Hloc] Hd Hnone R'.
  assert (∀ x, ¬ R (ResLiteral data d) x) as Hfresh.
  { intros x Hx. enough (literalToGlobal st !! (data, dg) = Some x) by congruence. apply Hl. eauto. }
  subst R'. split; simpl.
  - lia.
  - by apply numbers_extend.
  - intros m x. rewrite Hi. unfold extend. naive_solver.
  - intros data' dg' x. rewrite lookup_insert. unfold extend. case_decide as E.
    + injection E as <- <-. split.
      * intros [= <-]. exists d. split; [by left|by right].
      * intros (d' & [Hd'|[? _]] & Hx); [|done]. pose proof (num_inj _ _ Hnum _ _ _ Hd Hd') as [= <-].
        destruct Hx as [Hx|[_ ->]]; [by apply Hfresh in Hx|done].
    + rewrite Hl. split; [naive_solver|]. intros (d' & [Hd'|[? _]] & Hx); [|done].
      destruct Hx as [Hx|[[= -> ->] ->]]; [by eauto|]. destruct E. f_equal. by apply (num_fun _ _ Hnum (ResIri d)).
  - intros data' d' x [H|[[= -> ->] _]]; [destruct (Hli _ _ _ H) as [y Hy]; exists y; by left|exists dg; by left].
  - intros k' i x [H%Hloc|[? _]]; [done|done].
Qed.

Definition slots_ok (R : numbering) (k : nat) (gv : GraphView) (gids : list Z) (id : Z) : Prop :=
  length gids = length (gv_nodes gv) ∧
  ∀ j n t g, zget (gv_nodes gv) j = Some n → resource k gv j = Some t → zget gids j = Some g →
    (ni_type n = NtLiteral → j < id) → R t g.

Lemma slots_ok_set (R R' : numbering) k gv gids id t g :
  (∀ t x, R t x → R' t x) → slots_ok R k gv gids id → resource k gv id = Some t → R' t g →
  slots_ok R' k gv (zset gids id g) (id + 1).
Proof.
  intros Hm [Hlen Hs] Ht Hg. split; [by rewrite length_zset|]. intros j n t' g' Hn Ht' Hz Hj.
  rewrite zget_zset in Hz. case_decide as E.
  - subst j. destruct (zget gids id); [|done]. injection Hz as <-. congruence.
  - apply Hm. eapply Hs; [done..|]. intros Hty%Hj. lia.
Qed.

Lemma assign_literals_ok gv nodes : ∀ pre st R k gids L,
  gv_nodes gv = pre ++ nodes → view_ok gv → globals_ok st R k L →
  slots_ok R k gv gids (Z.of_nat (length pre)) →
  ∃ st' gids' (R' : numbering), assign_literals gv st gids (Z.of_nat (length pre)) nodes = Ok (st', gids') ∧
    (∀ t x, R t x → R' t x) ∧ globals_ok st' R' k L ∧ slots_ok R' k gv gids' (Z.of_nat (length (pre ++ nodes))).
Proof.
  induction nodes as [|n nodes IH]; intros pre st R k gids L Hgv Hview Hok Hs; cbn [assign_literals].
  { exists st, gids, R. rewrite app_nil_r. done. }
  assert (zget (gv_nodes gv) (Z.of_nat (length pre)) = Some n) as Hn.
  { rewrite Hgv. unfold zget. rewrite (proj2 (Z.leb_le 0 _)) by lia. rewrite Nat2Z.id. by apply list_lookup_middle. }
  assert (gv_nodes gv = (pre ++ [n]) ++ nodes) as Hgv' by (rewrite Hgv, <- app_assoc; done).
  assert (Z.of_nat (length (pre ++ [n])) = Z.of_nat (length pre) + 1) as Hlen1 by (rewrite length_app; simpl; lia).
  assert (length (pre ++ n :: nodes) = length ((pre ++ [n]) ++ nodes)) as Hlen2 by (rewrite <- app_assoc; done).
  rewrite Hlen2. destruct (decide (ni_type n = NtLiteral)) as [Hty|Hty].
  - rewrite Hty. destruct (Hview _ _ Hn Hty) as (data & dt & d & Hlit & Hdt & Hdty). rewrite Hlit. cbn [res_bind].
    assert (resource k gv (Z.of_nat (length pre)) = Some (ResLiteral data d)) as Hres.
    { unfold resource. rewrite Hn. simpl. rewrite Hty, Hlit, Hdt. done. }
    assert (resource k gv dt = Some (ResIri d)) as Hresd by (unfold resource; rewrite Hdt; simpl; by rewrite Hdty).
    destruct (proj2 (zget_is_Some gids dt)) as [dg Hdg].
    { rewrite (proj1 Hs). by apply (zget_lt _ _ _ Hdt). }
    assert (R (ResIri d) dg) as HRd by (eapply (proj2 Hs); [done..|congruence]).
    rewrite (load_Some _ _ _ Hdg). cbn [res_bind].
    destruct (literalToGlobal st !! (data, dg)) as [g|] eqn:Hg.
    + assert (R (ResLiteral data d) g) as HRg.
      { apply (go_lit _ _ _ _ Hok) in Hg as (d' & Hd' & Hg). 
        pose proof (num_inj _ _ (go_num _ _ _ _ Hok) _ _ _ HRd Hd') as [= <-]. done. }
      pose proof (slots_ok_set R R k gv gids _ _ g (λ _ _ H, H) Hs Hres HRg) as Hs'. rewrite <- Hlen1 in Hs' |- *.
      by apply (IH (pre ++ [n]) st R k).
    + pose proof (assign_literal_ok _ _ _ _ _ _ _ Hok HRd Hg) as Hok'. cbn zeta in Hok'.
      set (R1 := extend R (ResLiteral data d) (nextGlobalId st)) in *.
      assert (∀ t x, R t x → R1 t x) as Hm by (by left).
      assert (R1 (ResLiteral data d) (nextGlobalId st)) as HR1 by (by right).
      pose proof (slots_ok_set R R1 k gv gids _ _ _ Hm Hs Hres HR1) as Hs'. rewrite <- Hlen1 in Hs' |- *.
      destruct (IH _ _ _ _ _ _ Hgv' Hview Hok' Hs') as (st' & gids' & R' & ? & Hm' & ? & ?).
      exists st', gids', R'. split_and!; eauto.
  - assert (slots_ok R k gv gids (Z.of_nat (length (pre ++ [n])))) as Hs'.
    { destruct Hs as [Hl Hs]. split; [done|]. intros j m t g Hm Ht Hg Hj. eapply Hs; [done..|].
      intros Hty'. specialize (Hj Hty'). assert (j ≠ Z.of_nat (length pre)) by congruence. lia. }
    destruct (IH _ _ _ _ _ _ Hgv' Hview Hok Hs') as (st' & gids' & R' & Hr & Hrest).
    exists st', gids', R'. split; [|done]. rewrite Hlen1 in Hr. by destruct (ni_type n).
Qed.

(** ** One graph, then all of them *)

Lemma mapping_inserts gids m :
  local_to_global (foldl (λ m g, fst (mapping_insert m g)) m gids) = local_to_global m ++ gids.
Proof. revert m. induction gids as [|g gids IH]; intros m; simpl; [by rewrite app_nil_r|]. rewrite IH. simpl. by rewrite <- app_assoc. Qed.

(** A graph's mapping gives every node a global id of the numbering. *)
Definition mapping_ok (R : numbering) (k : nat) (gv : GraphView) (m : NodeIdMapping) : Prop :=
  length (local_to_global m) = length (gv_nodes gv) ∧
  ∀ j g, get_global m j = Ok g → ∃ t, resource k gv j = Some t ∧ R t g.

Lemma resource_total k gv j : view_ok gv → 0 ≤ j < Z.of_nat (length (gv_nodes gv)) → is_Some (resource k gv j).
Proof.
  intros Hv Hj. destruct (proj2 (zget_is_Some (gv_nodes gv) j) Hj) as [n Hn]. unfold resource. rewrite Hn. simpl.
  destruct (ni_type n) eqn:Hty; eauto. destruct (Hv _ _ Hn Hty) as (data & dt & d & -> & Hd & _). rewrite Hd. simpl. eauto.
Qed.

Lemma build_graph_ok st R k gv :
  view_ok gv → globals_ok st R k 0 →
  ∃ st' m (R' : numbering), build_graph st gv = Ok (st', m) ∧ (∀ t x, R t x → R' t x) ∧
    globals_ok st' R' (S k) 0 ∧ mapping_ok R' k gv m.
Proof.
  intros Hv Hok. unfold build_graph. destruct (assign_nodes st (gv_nodes gv)) as [st1 gids] eqn:H1.
  destruct (assign_nodes_ok _ _ _ _ _ _ _ (Z.le_refl 0) Hok H1) as (R1 & Hm1 & Hok1 & Hlen & Hs1).
  assert (slots_ok R1 k gv gids (Z.of_nat (length (@nil NodeId)))) as Hs.
  { split; [done|]. intros j n t g Hn Ht Hg Hj. pose proof (zget_lt _ _ _ Hn) as Hr. unfold resource in Ht.
    rewrite Hn in Ht. simpl in Ht. unfold zget in Hn, Hg. rewrite (proj2 (Z.leb_le 0 j)) in Hn, Hg by lia.
    specialize (Hs1 _ _ _ Hn Hg). rewrite Z2Nat.id, Z.add_0_l in Hs1 by lia. unfold slot_ok in Hs1.
    destruct (ni_type n); [by simplify_eq..|]. specialize (Hj eq_refl). simpl in Hj. lia. }
  destruct (assign_literals_ok gv (gv_nodes gv) [] st1 R1 k gids _ eq_refl Hv Hok1 Hs) as (st' & gids' & R' & Hr & Hm & Hok' & Hl' & Hs').
  change (Z.of_nat (length (@nil NodeId))) with 0 in Hr. rewrite Hr. cbn [res_bind]. eexists st', _, R'. split; [done|]. split; [by eauto|].
  split; [by eapply globals_ok_next_graph|]. split; [rewrite mapping_inserts; simpl; lia|].
  intros j g Hg. unfold get_global in Hg. apply load_ok in Hg. rewrite mapping_inserts in Hg. simpl in Hg.
  pose proof (zget_lt _ _ _ Hg) as Hj. rewrite Hl' in Hj. destruct (resource_total k gv j Hv Hj) as [t Ht]. exists t. split; [done|].
  destruct (proj2 (zget_is_Some (gv_nodes gv) j) Hj) as [n Hn]. eapply Hs'; [done..|]. intros _. simpl. lia.
Qed.

Definition graph_key (e : string * GraphView) : string := if String.eqb (fst e) "" then gv_iri (snd e) else fst e.

Lemma mapping_ok_mono (R R' : numbering) k gv m : (∀ t x, R t x → R' t x) → mapping_ok R k gv m → mapping_ok R' k gv m.
Proof. intros Hm [Hl Hs]. split; [done|]. intros j g Hg. destruct (Hs _ _ Hg) as (t & ? & ?). eauto. Qed.

Lemma build_all_ok graphs : ∀ st R k index,
  Forall (λ e, view_ok (snd e)) graphs → NoDup (graph_key <$> graphs) → globals_ok st R k 0 →
  ∃ st' index' (R' : numbering), build_all st index graphs = Ok (st', index') ∧ (∀ t x, R t x → R' t x) ∧
    globals_ok st' R' (k + length graphs) 0 ∧
    (∀ key, key ∉ (graph_key <$> graphs) → index' !! key = index !! key) ∧
    ∀ i e, graphs !! i = Some e → ∃ m, index' !! graph_key e = Some m ∧ mapping_ok R' (k + i) (snd e) m.
Proof.
  induction graphs as [|[name gv] graphs IH]; intros st R k index Hv Hnd Hok; cbn [build_all].
  { exists st, index, R. simpl. rewrite Nat.add_0_r. split_and!; done. }
  inversion Hv as [|? ? Hv1 Hv2]; subst. rewrite fmap_cons in Hnd. apply NoDup_cons in Hnd as [Hkey Hnd].
  destruct (build_graph_ok st R k gv Hv1 Hok) as (st1 & m & R1 & -> & Hm1 & Hok1 & Hmap). cbn [res_bind].
  set (key := if String.eqb name "" then gv_iri gv else name).
  destruct (IH st1 R1 (S k) (<[key:=m]> index) Hv2 Hnd Hok1) as (st' & index' & R' & Hr & Hm & Hok' & Hframe & Hall).
  exists st', index', R'. rewrite Hr. split; [done|]. split; [by eauto|].
  split; [by replace (k + length ((name, gv) :: graphs))%nat with (S k + length graphs)%nat by (simpl; lia)|]. split.
  - intros key' Hk. rewrite fmap_cons, not_elem_of_cons in Hk. destruct Hk as [Hne Hk]. rewrite Hframe by done.
    apply lookup_insert_ne. by intros E; apply Hne.
  - intros [|i] e; simpl.
    + intros [= <-]. exists m. rewrite Nat.add_0_r. split; [|by apply (mapping_ok_mono R1)].
      rewrite Hframe by done. apply lookup_insert_eq.
    + intros He. destruct (Hall _ _ He) as (m' & ? & ?). exists m'. by replace (k + S i)%nat with (S k + i)%nat by lia.
Qed.

Lemma build_identifies (graphs : list (string * GraphView)) :
  Forall (λ e, view_ok (snd e)) graphs → NoDup (graph_key <$> graphs) →
  ∃ index, build graphs = Ok index ∧
    (∀ i e, graphs !! i = Some e → ∃ m, getIndex index (graph_key e) = Ok m ∧
       ∀ id, 0 ≤ id < Z.of_nat (length (gv_nodes (snd e))) → is_ok (get_global m id)) ∧
    (∀ i1 i2 e1 e2 m1 m2 id1 id2 g1 g2,
       graphs !! i1 = Some e1 → graphs !! i2 = Some e2 →
       getIndex index (graph_key e1) = Ok m1 → getIndex index (graph_key e2) = Ok m2 →
       get_global m1 id1 = Ok g1 → get_global m2 id2 = Ok g2 →
       g1 = g2 ↔ resource i1 (snd e1) id1 = resource i2 (snd e2) id2).
Proof.
  intros Hv Hnd. unfold build.
  destruct (build_all_ok graphs _ _ 0%nat ∅ Hv Hnd (globals_ok_start 0)) as (st' & index & R & -> & _ & Hok & _ & Hall).
  cbn [res_bind]. exists index. split; [done|]. unfold getIndex. split.
  - intros i e He. destruct (Hall _ _ He) as (m & -> & [Hl _]). exists m. split; [done|]. intros id Hid.
    unfold get_global, is_ok. destruct (proj2 (zget_is_Some (local_to_global m) id)) as [g Hg]; [by rewrite Hl|].
    exists g. by apply load_Some.
  - intros i1 i2 e1 e2 m1 m2 id1 id2 g1 g2 He1 He2 Hm1 Hm2 Hg1 Hg2.
    destruct (Hall _ _ He1) as (m1' & Hk1 & [_ Hs1]). destruct (Hall _ _ He2) as (m2' & Hk2 & [_ Hs2]).
    rewrite Hk1 in Hm1. rewrite Hk2 in Hm2. injection Hm1 as ->. injection Hm2 as ->.
    destruct (Hs1 _ _ Hg1) as (t1 & Ht1 & HR1). destruct (Hs2 _ _ Hg2) as (t2 & Ht2 & HR2). simpl in Ht1, Ht2.
    rewrite Ht1, Ht2. pose proof (go_num _ _ _ _ Hok) as Hnum. split.
    + intros ->. f_equal. by eapply num_inj.
    + intros [= ->]. by eapply num_fun.
Qed.

(** ** Claims *)

(** C22. [GraphNodeIndex::build] succeeds on graphs whose literal nodes have a
    key, gives every node of every graph a global id, and two nodes, of the
    same graph or of different ones, have the same global id exactly when they
    denote the same resource: the same IRI, or literals with the same stored
    bytes and the same datatype IRI; a blank node shares its id with no other
    node. *)
Theorem global_ids_identify_resources (graphs : list (string * GraphView)) :
  Forall (λ e, view_ok (snd e)) graphs → NoDup (graph_key <$> graphs) →
  ∃ index, build graphs = Ok index ∧
    (∀ i e, graphs !! i = Some e → ∃ m, getIndex index (graph_key e) = Ok m ∧
       ∀ id, 0 ≤ id < Z.of_nat (length (gv_nodes (snd e))) → is_ok (get_global m id)) ∧
    (∀ i1 i2 e1 e2 m1 m2 id1 id2 g1 g2,
       graphs !! i1 = Some e1 → graphs !! i2 = Some e2 →
       getIndex index (graph_key e1) = Ok m1 → getIndex index (graph_key e2) = Ok m2 →
       get_global m1 id1 = Ok g1 → get_global m2 id2 = Ok g2 →
       g1 = g2 ↔ resource i1 (snd e1) id1 = resource i2 (snd e2) id2).
Proof. apply build_identifies. Qed.

(** Two graphs that share an IRI and a literal under different local ids. *)
Definition sample_iri (s : string) : NodeId := mkNodeId NtIRI (Some s) "".
Definition view_a : GraphView :=
  mkView "http://g/a" [sample_iri "http://x"; mkNodeId NtLiteral None ""; sample_iri "http://int"; mkNodeId NtBNode None "b"]
    (λ id, if id =? 1 then Ok ([x01], 2) else Fault BadAccess).
Definition view_b : GraphView :=
  mkView "http://g/b" [sample_iri "http://int"; mkNodeId NtLiteral None ""; mkNodeId NtBNode None "b"]
    (λ id, if id =? 1 then Ok ([x01], 0) else Fault BadAccess).

Lemma sample_views_ok : Forall (λ e, view_ok (snd e)) [("", view_a); ("b", view_b)]%string.
Proof.
  constructor; [|constructor; [|constructor]]; intros id n Hn Hty; pose proof (zget_lt _ _ _ Hn) as Hr; simpl in Hr.
  - assert (id = 0 ∨ id = 1 ∨ id = 2 ∨ id = 3) as [->|[->|[->| ->]]] by lia;
      (vm_compute in Hn; injection Hn as <-; try discriminate).
    exists [x01], 2, (sample_iri "http://int"). done.
  - assert (id = 0 ∨ id = 1 ∨ id = 2) as [->|[->| ->]] by lia;
      (vm_compute in Hn; injection Hn as <-; try discriminate).
    exists [x01], 0, (sample_iri "http://int"). done.
Defined.

Lemma global_ids_identify_resources_witness :
  ∃ index, build [("", view_a); ("b", view_b)]%string = Ok index ∧
    ∀ m, getIndex index "b" = Ok m → is_ok (get_global m 2).
Proof.
  destruct (global_ids_identify_resources [("", view_a); ("b", view_b)]%string) as (index & Hb & Hi & _).
  - exact sample_views_ok.
  - apply NoDup_cons. split; [set_solver|apply NoDup_singleton].
  - exists index. split; [exact Hb|]. intros m Hm. destruct (Hi 1%nat ("b"%string, view_b) eq_refl) as (m' & Hm' & Hg).
    change (graph_key ("b"%string, view_b)) with "b"%string in Hm'. rewrite Hm in Hm'. injection Hm' as <-.
    apply Hg. simpl. lia.
Defined.

(** Mappings are built by inserts; their reverse map finds first positions. *)
Definition mapping_of (gids : list Z) : NodeIdMapping := foldl (λ m g, fst (mapping_insert m g)) newMapping gids.

Lemma mapping_of_eq gids : mapping_of gids = mkMapping gids (index_nodes ∅ 0 gids).
Proof.
  unfold mapping_of. induction gids as [|g gids IH] using rev_ind; [done|].
  rewrite foldl_app, IH. simpl. by rewrite index_nodes_app.
Qed.

(** A mapping inverts itself and survives serialisation: for a mapping
    built by inserts (at most 2^31 of them), [get_local] of a node's global id
    is the first local id that has it, hence the node itself when its global id
    is not repeated; an unknown global id is reported as -1 by
    [get_local_safe]; an id outside the mapping is reported as -1 by
    [get_global_safe]; and the mapping reads back from its serialised form. *)
Theorem mapping_inverse (gids : list Z) (rest : bytes) (m : NodeIdMapping) :
  m = mapping_of gids → Z.of_nat (length gids) ≤ 2 ^ 31 → Forall (in_s 64) gids →
  (∀ i g, get_global m i = Ok g →
     ∃ j, get_local m g = Ok j ∧ get_local_safe m g = j ∧ j ≤ i ∧ get_global m j = Ok g ∧ (NoDup gids → j = i)) ∧
  (∀ g, g ∉ gids → get_local_safe m g = -1 ∧ get_local m g = Fault AssertFailed) ∧
  (∀ i, in_s 32 i → get_global_safe m i = if decide (0 ≤ i < Z.of_nat (length gids)) then get_global m i else Ok (-1)) ∧
  mapping_deserialize (mapping_serialize m ++ rest) = Ok (m, rest).
Proof.
  intros -> Hlen Hr. rewrite mapping_of_eq. unfold get_global, get_local, get_local_safe, get_global_safe.
  cbn [local_to_global global_to_local]. split_and!.
  - intros i g Hi%load_ok. assert (g ∈ gids) as Hin.
    { unfold zget in Hi. destruct (0 <=? i); [|done]. by eapply list_elem_of_lookup_2. }
    destruct (first_at_exists gids g Hin) as [j Hj]. rewrite (proj2 (index_nodes_spec gids g Hlen j) Hj).
    exists j. destruct Hj as [Hj Hmin]. split_and!; [done..| |by apply load_Some|].
    + destruct (Z.le_gt_cases j i); [done|]. by destruct (Hmin i).
    + intros Hnd. unfold zget in Hi, Hj. destruct (Z.leb_spec 0 i), (Z.leb_spec 0 j); try done.
      pose proof (NoDup_lookup _ _ _ _ Hnd Hi Hj). lia.
  - intros g Hg. destruct (index_nodes ∅ 0 gids !! g) as [j|] eqn:Hj; [|done].
    by apply index_nodes_spec, first_at_elem in Hj.
  - intros i Hi. unfold in_s in Hi. destruct (Z.ltb_spec i 0); simpl.
    { rewrite decide_False by lia. done. }
    rewrite wrap_u_id by (unfold in_u; lia). destruct (Z.leb_spec (Z.of_nat (length gids)) i); case_decide; (done || lia).
  - unfold mapping_serialize, mapping_deserialize. cbn [local_to_global].
    rewrite (codec_property (okA := λ v, Forall (in_s 64) v ∧ fits_size (length v)) 1 ltac:(unfold in_u; lia))
      by (split; [done|unfold fits_size; lia]). done.
Qed.

Lemma mapping_inverse_witness : get_local (mapping_of [7; 3; 7]) 3 = Ok 1.
Proof.
  destruct (mapping_inverse [7; 3; 7] [] (mapping_of [7; 3; 7]) eq_refl) as (H & _).
  - simpl. lia.
  - repeat constructor; unfold in_s; simpl; lia.
  - destruct (H 1 3 eq_refl) as (j & Hj & _ & Hle & Hg & _). rewrite Hj. f_equal.
    assert (j = 0 ∨ j = 1) as [->| ->] by (apply load_ok, zget_lt in Hg; simpl in Hg; lia); [discriminate Hg|reflexivity].
Defined.

(** The whole index reads back: its graph names are distinct. *)
Lemma index_roundtrip (entries : list (string * option NodeIdMapping)) (rest : bytes) :
  NoDup entries.*1 → fits_size (length entries) →
  Forall (λ e, fits_size (String.length (fst e)) ∧
    ∀ m, snd e = Some m → ∃ gids, m = mapping_of gids ∧ Z.of_nat (length gids) ≤ 2 ^ 31 ∧ Forall (in_s 64) gids) entries →
  index_deserialize (index_serialize entries ++ rest) = Ok (entries, rest).
Proof.
  intros Hnd Hn He. unfold index_deserialize, index_serialize.
  pose (okM := λ m, ∃ gids, m = mapping_of gids ∧ Z.of_nat (length gids) ≤ 2 ^ 31 ∧ Forall (in_s 64) gids).
  assert (Codec okM mapping_serialize mapping_deserialize) as HM.
  { intros m r (gids & -> & Hl & Hg). rewrite mapping_of_eq. unfold mapping_serialize, mapping_deserialize. cbn [local_to_global].
    rewrite (codec_property (okA := λ v, Forall (in_s 64) v ∧ fits_size (length v)) 1 ltac:(unfold in_u; lia))
      by (split; [done|unfold fits_size; lia]). done. }
  pose proof (codec_object (okA := okM) (wa := mapping_serialize) (ra := mapping_deserialize)) as HO.
  fold wr_mapping rd_mapping in HO.
  pose proof (codec_option (okA := okM) (wa := wr_mapping) (ra := rd_mapping)) as HP.
  pose proof (codec_map (okK := λ s, fits_size (String.length s)) (okV := λ v, ∀ x, v = Some x → okM x)
    (wk := wr_string) (rk := rd_string) (wv := wr_option wr_mapping) (rv := rd_option rd_mapping)) as HC.
  refine (codec_property (Codec0 := HC) 1 ltac:(unfold in_u; lia) entries rest _). split; [exact He|done].
Qed.
