(* ===== verification/FuzzyTurtle.v ===== *)
(** * The fuzzy Turtle reader

    Model of src/gengodb/semantics/FuzzyTurtle.cpp: a lexer and a recursive
    descent parser that read a Turtle document whose objects may carry a truth
    degree in braces, collect the degrees in the order of the triples, and
    blank the annotations so that a Turtle parser can read the rest. *)

From S2P Require Import Prelude Serialization GraphDataOps.
From stdpp Require Import pretty.
From Stdlib Require Import Strings.Ascii.
#[local] Open Scope Z_scope.
#[local] Open Scope list_scope.

(** ** Characters *)

Definition chr (n : nat) : ascii := ascii_of_nat n.
Definition code (c : ascii) : Z := Z.of_nat (nat_of_ascii c).
Definition newline : ascii := chr 10.
Definition quote2 : ascii := chr 34.
Definition backslash : ascii := chr 92.

(** [std::isspace], [std::isdigit], [std::isalnum], [std::toupper] in the C locale. *)
Definition isspace (c : ascii) : bool := let n := code c in ((9 <=? n) && (n <=? 13)) || (n =? 32).
Definition isdigit (c : ascii) : bool := let n := code c in (48 <=? n) && (n <=? 57).
Definition isalpha (c : ascii) : bool :=
  let n := code c in ((65 <=? n) && (n <=? 90)) || ((97 <=? n) && (n <=? 122)).
Definition isalnum (c : ascii) : bool := isdigit c || isalpha c.
Definition toupper (c : ascii) : ascii :=
  let n := code c in if (97 <=? n) && (n <=? 122) then chr (nat_of_ascii c - 32) else c.
Definition eqc (a c : ascii) : bool := Ascii.eqb a c.
Definition oneof (l : list ascii) (c : ascii) : bool := existsb (eqc c) l.

Definition isNameDelimiter (c : ascii) : bool :=
  oneof ["<"; ">"; quote2; "'"; "{"; "}"; "["; "]"; "("; ")"; ","; ";"; "#"; "^"; "@"]%char c || isspace c.

(** ** Decimal to binary32

    [std::from_chars] in general format: an optional minus sign, digits with an
    optional point, an optional exponent.  The result is the nearest binary32
    number, ties to even, by its bit pattern; a number out of range, or a
    non-zero one that would round to zero, is an error. *)

Fixpoint digits (acc : Z) (n : nat) (l : list ascii) : Z * nat * list ascii :=
  match l with
  | c :: l' => if isdigit c then digits (10 * acc + (code c - 48)) (S n) l' else (acc, n, l)
  | [] => (acc, n, [])
  end.
Definition exponent (l : list ascii) : Z * list ascii :=
  match l with
  | c :: l1 =>
      if oneof ["e"; "E"]%char c then
        let '(neg, l2) := match l1 with
                          | s :: l2 => if eqc s "-" then (true, l2) else if eqc s "+" then (false, l2) else (false, l1)
                          | [] => (false, [])
                          end in
        let '(v, n, l3) := digits 0 0 l2 in
        match n with O => (0, l) | _ => (if neg then - v else v, l3) end
      else (0, l)
  | [] => (0, [])
  end.

(** Nearest binary32 of the positive rational [n/d]. *)
Definition float_of_ratio (n d : Z) : option Z :=
  let k := Z.log2 n - Z.log2 d in
  let below := if 0 <=? k then n <? d * 2 ^ k else n * 2 ^ (- k) <? d in
  let e := Z.max (-149) ((if below then k - 1 else k) - 23) in
  let q := if 0 <=? e then round_div n (d * 2 ^ e) else round_div (n * 2 ^ (- e)) d in
  let bits := (e + 149) * 2 ^ 23 + q in
  if (q =? 0) || (0x7f800000 <=? bits) then None else Some bits.

Definition float_of_decimal (m e : Z) : option Z :=
  if m =? 0 then Some 0
  else if 0 <=? e then float_of_ratio (m * 10 ^ e) 1 else float_of_ratio m (10 ^ (- e)).

(** The parsed value and the rest of the text; [None] is an error code. *)
Definition from_chars (l : list ascii) : option (Z * list ascii) :=
  let '(neg, l) := match l with c :: l' => if eqc c "-" then (true, l') else (false, l) | [] => (false, []) end in
  let '(m1, n1, l1) := digits 0 0 l in
  let '(m2, n2, l2) := match l1 with
                       | c :: l1' => if eqc c "." then digits m1 0 l1' else (m1, O, l1)
                       | [] => (m1, O, [])
                       end in
  match (n1 + n2)%nat with
  | O => None
  | _ =>
      let '(e, l3) := exponent l2 in
      match float_of_decimal m2 (e - Z.of_nat n2) with
      | Some bits => Some (if neg then bits + 2 ^ 31 else bits, l3)
      | None => None
      end
  end.

(** [value >= 0.0f && value <= 1.0f] for the bits of a number. *)
Definition one_bits : Z := 0x3f800000.
Definition in_unit (bits : Z) : bool :=
  if Z.testbit bits 31 then bits =? 2 ^ 31 else bits <=? one_bits.

(** ** Tokens and the lexer *)

Inductive Tok := TokIri | TokName | TokString | TokLangTag | TokCaret2 | TokNumber | TokDirective | TokDegree | TokPunct | TokEnd.
#[export] Instance Tok_eq_dec : EqDecision Tok.
Proof. solve_decision. Defined.

Record Token := mkToken { kind : Tok; text : list ascii; begin : nat; tline : Z; degree : Z }.

(** A piece of the text as a string. *)
Definition str_of (l : list ascii) : string := foldr String EmptyString l.

Record Lexer := mkLexer { pos : nat; line : Z; lastKind : Tok }.

(** [FuzzyTurtleError]; the message carries the line. *)
Definition fuzzy_error {A} (msg : string) (line : Z) : res A :=
  Fault (Thrown ("fuzzy turtle, line " +:+ pretty line +:+ ": " +:+ msg)).

Section lexer.
Context (inp : list ascii).

Definition size : nat := length inp.
Definition rest (p : nat) : list ascii := drop p inp.
Definition substr (p n : nat) : list ascii := take n (drop p inp).

(** Number of leading characters of [l] that satisfy [p]. *)
Fixpoint span (p : ascii → bool) (l : list ascii) : nat :=
  match l with c :: l => if p c then S (span p l) else O | [] => O end.
Definition newlines (l : list ascii) : Z := Z.of_nat (length (List.filter (eqc newline) l)).

Definition advance_by (lx : Lexer) (n : nat) : Lexer := mkLexer (pos lx + n) (line lx) (lastKind lx).

Definition skipWs (lx : Lexer) : Lexer :=
  let n := span isspace (rest (pos lx)) in
  mkLexer (pos lx + n) (line lx + newlines (substr (pos lx) n)) (lastKind lx).

Fixpoint skipWsAndComments (fuel : nat) (lx : Lexer) : res Lexer :=
  match fuel with
  | O => Fault OutOfFuel
  | S fuel' =>
      let lx1 := skipWs lx in
      match rest (pos lx1) with
      | c :: _ =>
          if eqc c "#" then
            skipWsAndComments fuel' (advance_by lx1 (span (λ c, negb (eqc c newline)) (rest (pos lx1))))
          else Ok lx1
      | [] => Ok lx1
      end
  end.

(** The body of an IRI after its opening bracket: the number of characters up
    to the closing one, or a failure.  A backslash skips two characters, and
    may skip past the end. *)
Fixpoint iri_body (line : Z) (l : list ascii) : res nat :=
  match l with
  | [] => fuzzy_error "unterminated IRI" line
  | c :: l =>
      if eqc c ">" then Ok O
      else if eqc c newline then fuzzy_error "unterminated IRI" line
      else if eqc c backslash then
        match l with
        | [] => fuzzy_error "unterminated IRI" line
        | _ :: l => let* n := iri_body line l in Ok (S (S n))
        end
      else let* n := iri_body line l in Ok (S n)
  end.

Definition triple_quote (q : ascii) (l : list ascii) : bool := bool_decide (take 3 l = [q; q; q]).

(** The body of a string after its opening quotes: the characters consumed and
    the new line number.  The line of a failure is the one reached. *)
Fixpoint string_body (q : ascii) (longString : bool) (line : Z) (l : list ascii) : res (nat * Z) :=
  match l with
  | [] => fuzzy_error "unterminated string" line
  | c :: l' =>
      if eqc c backslash then
        match l' with
        | [] => fuzzy_error "unterminated string" line
        | _ :: l'' => let* '(n, line) := string_body q longString line l'' in Ok (S (S n), line)
        end
      else if eqc c newline && negb longString then fuzzy_error "unterminated string" line
      else
        let line := if eqc c newline then line + 1 else line in
        if eqc c q && negb longString then Ok (1%nat, line)
        else if eqc c q && triple_quote q l then Ok ((3 + span (eqc q) (drop 3 l))%nat, line)
        else let* '(n, line) := string_body q longString line l' in Ok (S n, line)
  end.

Definition lexString (lx : Lexer) (q : ascii) : res Lexer :=
  let longString := triple_quote q (rest (pos lx)) in
  let start := if longString then 3%nat else 1%nat in
  let* '(n, line) := string_body q longString (line lx) (rest (pos lx + start)) in
  Ok (mkLexer (pos lx + start + n) line (lastKind lx)).

(** The length of the number at the head of [l]: a sign, digits, a fraction and
    an exponent, each of them optional. *)
Definition sign_len (l : list ascii) : nat :=
  match l with c :: _ => if oneof ["+"; "-"]%char c then 1%nat else O | [] => O end.
Definition fraction_len (l : list ascii) : nat :=
  match l with
  | d :: l' => if eqc d "." && match l' with e :: _ => isdigit e | [] => false end then S (span isdigit l') else O
  | [] => O
  end.
Definition exponent_len (l : list ascii) : nat :=
  match l with
  | e :: l' => if oneof ["e"; "E"]%char e then S (sign_len l' + span isdigit (drop (sign_len l') l')) else O
  | [] => O
  end.
Definition lexNumber (l : list ascii) : nat :=
  let a := sign_len l in
  let b := (a + span isdigit (drop a l))%nat in
  let c := (b + fraction_len (drop b l))%nat in
  (c + exponent_len (drop c l))%nat.

(** Characters of a name; a backslash takes the next character along, whatever
    it is, and may step past the end. *)
Fixpoint name_body (l : list ascii) : nat :=
  match l with
  | [] => O
  | c :: l =>
      if isNameDelimiter c then O
      else if eqc c backslash then match l with [] => 2%nat | _ :: l => S (S (name_body l)) end
      else S (name_body l)
  end.

(** [in[i]] of a string view. *)
Definition at_ (i : nat) : res ascii := match inp !! i with Some c => Ok c | None => Fault BadAccess end.

(** Gives back the trailing dots of a name. *)
Fixpoint trim_dots (fuel : nat) (start p : nat) : res nat :=
  match fuel with
  | O => Fault OutOfFuel
  | S fuel' =>
      if (start + 1 <? p)%nat then
        let* a := at_ (p - 1) in
        if eqc a "." then
          let* b := at_ (p - 2) in
          if negb (eqc b backslash) then trim_dots fuel' start (p - 1) else Ok p
        else Ok p
      else Ok p
  end.

Definition make (lx : Lexer) (start : nat) (startLine : Z) (k : Tok) : Lexer * Token :=
  (mkLexer (pos lx) (line lx) k, mkToken k (substr start (pos lx - start)) start startLine one_bits).

Definition is_degree_char (c : ascii) : bool := isdigit c || oneof ["."; "e"; "E"; "+"; "-"]%char c.

(** The branch of [next] for an opening brace. *)
Definition lexDegree (lx : Lexer) : res (Lexer * Token) :=
  let start := pos lx in
  let lx1 := skipWs (advance_by lx 1) in
  let n := span is_degree_char (rest (pos lx1)) in
  let num := substr (pos lx1) n in
  let lx2 := skipWs (advance_by lx1 n) in
  match num, rest (pos lx2) with
  | _ :: _, c :: _ =>
      if negb (eqc c "}") then fuzzy_error "expected a truth degree like {0.5} (graph blocks are not supported)" (line lx2)
      else
        match from_chars num with
        | Some (value, []) =>
            if negb (in_unit value) then fuzzy_error ("truth degree " +:+ str_of num +:+ " is outside [0,1]") (line lx2)
            else
              let p := S (pos lx2) in
              Ok (mkLexer p (line lx2) TokDegree, mkToken TokDegree (substr start (p - start)) start (line lx) value)
        | _ => fuzzy_error ("invalid truth degree '" +:+ str_of num +:+ "'") (line lx2)
        end
  | _, _ => fuzzy_error "expected a truth degree like {0.5} (graph blocks are not supported)" (line lx2)
  end.

Definition next (lx0 : Lexer) : res (Lexer * Token) :=
  let* lx := skipWsAndComments (S size) lx0 in
  let start := pos lx in
  let finish lx' k := Ok (make lx' start (line lx) k) in
  match rest start with
  | [] => Ok (lx, mkToken TokEnd [] start (line lx) one_bits)
  | c :: l =>
      if eqc c "<" then
        let* n := iri_body (line lx) l in finish (advance_by lx (S (S n))) TokIri
      else if eqc c quote2 || eqc c "'" then
        let* lx1 := lexString lx c in finish lx1 TokString
      else if eqc c "{" then lexDegree lx
      else if eqc c "^" && match l with d :: _ => eqc d "^" | [] => false end then finish (advance_by lx 2) TokCaret2
      else if eqc c "@" then
        finish (advance_by lx (S (span (λ c, isalnum c || eqc c "-") l)))
          (if decide (lastKind lx = TokString) then TokLangTag else TokDirective)
      else if eqc c "}" then fuzzy_error "unexpected '}'" (line lx)
      else if oneof ["["; "]"; "("; ")"; ","; ";"]%char c then finish (advance_by lx 1) TokPunct
      else if eqc c "." && negb match l with d :: _ => isdigit d | [] => false end then finish (advance_by lx 1) TokPunct
      else if isdigit c || oneof ["+"; "-"; "."]%char c then finish (advance_by lx (lexNumber (c :: l))) TokNumber
      else
        let* p := trim_dots (S (S size)) start (start + name_body (c :: l)) in
        if (p =? start)%nat then fuzzy_error ("unexpected character '" +:+ str_of [c] +:+ "'") (line lx)
        else finish (mkLexer p (line lx) (lastKind lx)) TokName
  end.
End lexer.

(** ** The parser *)

Record Parser := mkParser {
  lexer : Lexer;
  out : list ascii;
  degrees : list Z;
  cur : Token;
  collectionDepth : Z;
}.

Section parser.
Context (inp : list ascii).

Definition advance (p : Parser) : res Parser :=
  let* '(lx, t) := next inp (lexer p) in
  Ok (mkParser lx (out p) (degrees p) t (collectionDepth p)).

Definition isPunct (p : Parser) (c : ascii) : bool :=
  bool_decide (kind (cur p) = TokPunct) && match text (cur p) with d :: _ => eqc d c | [] => false end.
Definition fail {A} (p : Parser) (msg : string) : res A := fuzzy_error msg (tline (cur p)).
Definition expectPunct (p : Parser) (c : ascii) : res Parser :=
  if negb (isPunct p c) then fail p ("expected '" +:+ str_of [c] +:+ "'") else advance p.
Definition isKeyword (p : Parser) (kw : string) : bool :=
  bool_decide (kind (cur p) = TokName) &&
  String.eqb (str_of (toupper <$> text (cur p))) kw.
Definition isTerm (p : Parser) : bool :=
  bool_decide (kind (cur p) = TokIri) || bool_decide (kind (cur p) = TokName).
Definition expectTerm (p : Parser) : res Parser :=
  if negb (isTerm p) then fail p "expected an IRI or prefixed name" else advance p.
Definition parseVerb := expectTerm.

Definition push_degree (p : Parser) : Parser :=
  mkParser (lexer p) (out p) (degrees p ++ [one_bits]) (cur p) (collectionDepth p).

(** The loop that overwrites [out[i..i+n)], line breaks excepted. *)
Fixpoint blank (i n : nat) (o : list ascii) : res (list ascii) :=
  match n with
  | O => Ok o
  | S n' =>
      match o !! i with
      | None => Fault BadAccess
      | Some c => blank (S i) n' (if eqc c newline then o else <[i := " "%char]> o)
      end
  end.

(** The end of [parseObject]: a degree after the object of index [idx]. *)
Definition parseDegree (p : Parser) (idx : nat) : res Parser :=
  if decide (kind (cur p) = TokDegree) then
    if 0 <? collectionDepth p then fail p "truth degrees inside RDF collections are not supported"
    else
      let* ds := store (degrees p) (Z.of_nat idx) (degree (cur p)) in
      let* o := blank (begin (cur p)) (length (text (cur p))) (out p) in
      advance (mkParser (lexer p) o ds (cur p) (collectionDepth p))
  else Ok p.

(** An object that is a single term. *)
Definition parseTermObject (p : Parser) : res Parser :=
  if decide (kind (cur p) = TokString) then
    let* p := advance p in
    if decide (kind (cur p) = TokLangTag) then advance p
    else if decide (kind (cur p) = TokCaret2) then let* p := advance p in expectTerm p
    else Ok p
  else if isTerm p || bool_decide (kind (cur p) = TokNumber) then advance p
  else fail p "expected an object".

Definition set_depth (p : Parser) (d : Z) : Parser := mkParser (lexer p) (out p) (degrees p) (cur p) d.

(** [while (isPunct(';')) advance()] *)
Fixpoint skipSemicolons (fuel : nat) (p : Parser) : res Parser :=
  match fuel with
  | O => Fault OutOfFuel
  | S fuel' => if isPunct p ";" then let* p := advance p in skipSemicolons fuel' p else Ok p
  end.

(** The mutually recursive procedures; a call and a loop iteration cost one
    unit of fuel each. *)
Fixpoint parsePredicateObjectList (fuel : nat) (p : Parser) {struct fuel} : res Parser :=
  match fuel with
  | O => Fault OutOfFuel
  | S f => let* p := parseVerb p in let* p := parseObjectList f p in predicateLoop f p
  end
with predicateLoop (fuel : nat) (p : Parser) {struct fuel} : res Parser :=
  match fuel with
  | O => Fault OutOfFuel
  | S f =>
      if isPunct p ";" then
        let* p := skipSemicolons f p in
        if isPunct p "." || isPunct p "]" || bool_decide (kind (cur p) = TokEnd) then Ok p
        else let* p := parseVerb p in let* p := parseObjectList f p in predicateLoop f p
      else Ok p
  end
with parseObjectList (fuel : nat) (p : Parser) {struct fuel} : res Parser :=
  match fuel with
  | O => Fault OutOfFuel
  | S f => let* p := parseObject f p in objectLoop f p
  end
with objectLoop (fuel : nat) (p : Parser) {struct fuel} : res Parser :=
  match fuel with
  | O => Fault OutOfFuel
  | S f =>
      if isPunct p "," then let* p := advance p in let* p := parseObject f p in objectLoop f p
      else Ok p
  end
with parseObject (fuel : nat) (p : Parser) {struct fuel} : res Parser :=
  match fuel with
  | O => Fault OutOfFuel
  | S f =>
      let idx := length (degrees p) in
      let p := push_degree p in
      let* p :=
        if isPunct p "[" then
          let* p := advance p in
          let* p := if negb (isPunct p "]") then parsePredicateObjectList f p else Ok p in
          expectPunct p "]"
        else if isPunct p "(" then let* p := advance p in parseCollectionItems f p
        else parseTermObject p in
      parseDegree p idx
  end
with parseCollectionItems (fuel : nat) (p : Parser) {struct fuel} : res Parser :=
  match fuel with
  | O => Fault OutOfFuel
  | S f =>
      let* p := collectionLoop f (set_depth p (collectionDepth p + 1)) in
      let* p := advance p in
      Ok (set_depth p (collectionDepth p - 1))
  end
with collectionLoop (fuel : nat) (p : Parser) {struct fuel} : res Parser :=
  match fuel with
  | O => Fault OutOfFuel
  | S f =>
      if negb (isPunct p ")") then
        if decide (kind (cur p) = TokEnd) then fail p "unterminated collection"
        else let* p := parseObject f p in collectionLoop f (push_degree p)
      else Ok p
  end.

Definition parseTriples (fuel : nat) (p : Parser) : res Parser :=
  if isPunct p "[" then
    let* p := advance p in
    let empty := isPunct p "]" in
    let* p := if negb empty then parsePredicateObjectList fuel p else Ok p in
    let* p := expectPunct p "]" in
    if empty || negb (isPunct p ".") then parsePredicateObjectList fuel p else Ok p
  else
    let* p := if isPunct p "(" then let* p := advance p in parseCollectionItems fuel p else expectTerm p in
    parsePredicateObjectList fuel p.

Definition parseStatement (fuel : nat) (p : Parser) : res Parser :=
  if decide (kind (cur p) = TokDirective) then
    let isPrefix := String.eqb (str_of (text (cur p))) "@prefix" in
    if negb isPrefix && negb (String.eqb (str_of (text (cur p))) "@base") then
      fail p ("unknown directive '" +:+ str_of (text (cur p)) +:+ "'")
    else
      let* p := advance p in
      let* p := if isPrefix then expectTerm p else Ok p in
      let* p := expectTerm p in
      expectPunct p "."
  else if isKeyword p "PREFIX" || isKeyword p "BASE" then
    let isPrefix := isKeyword p "PREFIX" in
    let* p := advance p in
    let* p := if isPrefix then expectTerm p else Ok p in
    expectTerm p
  else
    let* p := parseTriples fuel p in
    expectPunct p ".".

(** [parseDocument]; the statements of a document are bounded by its length. *)
Fixpoint parseDocument (n fuel : nat) (p : Parser) : res Parser :=
  match n with
  | O => Fault OutOfFuel
  | S n' =>
      if decide (kind (cur p) = TokEnd) then Ok p
      else let* p := parseStatement fuel p in parseDocument n' fuel p
  end.

Definition newParser : res Parser :=
  advance (mkParser (mkLexer 0 1 TokEnd) inp [] (mkToken TokEnd [] 0 0 one_bits) 0).
End parser.

(** Enough for the recursion of any document: see [loadFuzzyTTL_terminates]. *)
Definition parse_fuel (inp : list ascii) : nat := 6 * (length inp + 2).

(** The blanked text and the degrees; [Parser] borrows both from the caller. *)
Definition loadFuzzyTTL (input : list ascii) : res (list ascii * list Z) :=
  let* p := newParser input in
  let* p := parseDocument input (S (S (length input))) (parse_fuel input) p in
  Ok (out p, degrees p).
