(* ===== verification/FuzzyTurtleSafe.v ===== *)
(** * The fuzzy Turtle reader: termination and safety

    Every procedure of the lexer and of the parser, given fuel proportional to
    the text that is left, returns or throws a [FuzzyTurtleError]; the only
    out-of-range read is the one of a name that ends in a backslash at the end
    of the text.  [wp] carries these facts together with an invariant of the
    parser's state. *)

From S2P Require Import Prelude Serialization GraphDataOps FuzzyTurtle.
From Stdlib Require Import Strings.Ascii.
#[local] Open Scope Z_scope.
#[local] Open Scope list_scope.

Section safety.
Context (inp : list ascii).
#[local] Abbreviation size := (FuzzyTurtle.size inp).
#[local] Arguments FuzzyTurtle.size : simpl never.

(** The computation returns a result in [Q], throws, or reads past the end of
    a text that ends in a backslash. *)
Definition wp {A} (m : res A) (Q : A → Prop) : Prop :=
  match m with
  | Ok a => Q a
  | Fault (Thrown _) => True
  | Fault BadAccess => last inp = Some backslash
  | Fault _ => False
  end.

Lemma wp_bind {A B} (m : res A) (k : A → res B) (Q : B → Prop) :
  wp m (λ a, wp (k a) Q) → wp (res_bind m k) Q.
Proof. by destruct m as [a|[]]. Qed.

Lemma wp_mono {A} (m : res A) (P Q : A → Prop) : wp m P → (∀ a, P a → Q a) → wp m Q.
Proof. destruct m as [a|[]]; simpl; eauto. Qed.

Lemma wp_error {A} msg l (Q : A → Prop) : wp (fuzzy_error msg l) Q.
Proof. done. Qed.

(** ** Scanning *)

Lemma span_le p l : (span p l ≤ length l)%nat.
Proof. induction l as [|c l IH]; simpl; [lia|]. destruct (p c); lia. Qed.

Lemma length_rest p : length (rest inp p) = (size - p)%nat.
Proof. apply length_drop. Qed.

Lemma rest_cons p c l : rest inp p = c :: l → (p < size)%nat ∧ length l = (size - p - 1)%nat.
Proof. intros H. pose proof (length_rest p) as Hl. rewrite H in Hl. simpl in Hl. lia. Qed.

Lemma skipWs_pos lx : (pos lx ≤ size)%nat → (pos lx ≤ pos (skipWs inp lx) ≤ size)%nat.
Proof. intros H. simpl. pose proof (span_le isspace (rest inp (pos lx))). rewrite length_rest in *. lia. Qed.

Lemma skip_wp fuel : ∀ lx, (pos lx ≤ size)%nat → (size - pos lx < fuel)%nat →
  wp (skipWsAndComments inp fuel lx) (λ lx', (pos lx ≤ pos lx' ≤ size)%nat).
Proof.
  induction fuel as [|fuel IH]; intros lx Hp Hf; [lia|]. cbn [skipWsAndComments].
  pose proof (skipWs_pos lx Hp) as Hs. set (lx1 := skipWs inp lx) in *. clearbody lx1.
  destruct (rest inp (pos lx1)) as [|c l] eqn:Hr; [done|]. destruct (eqc c "#") eqn:Hc; [|done].
  apply rest_cons in Hr as [Hlt Hl].
  assert (eqc c newline = false) as Hn by (apply Ascii.eqb_eq in Hc as ->; done).
  pose proof (span_le (λ c, negb (eqc c newline)) l) as Hsp. cbn [span]. rewrite Hn. cbn [negb].
  eapply wp_mono; [apply IH; simpl; lia|]. simpl. intros lx' ?. lia.
Qed.

Lemma iri_body_wp ln l : wp (iri_body ln l) (λ n, (S n ≤ length l)%nat).
Proof.
  enough (∀ k, (length l ≤ k)%nat → wp (iri_body ln l) (λ n, (S n ≤ length l)%nat)) by eauto.
  intros k. revert l. induction k as [|k IH]; intros [|c l] Hk; simpl in *; try done; try lia.
  destruct (eqc c ">"); [simpl; lia|]. destruct (eqc c newline); [done|]. destruct (eqc c backslash).
  - destruct l as [|d l]; [done|]. apply wp_bind. simpl in *. eapply wp_mono; [apply IH; lia|]. simpl. lia.
  - apply wp_bind. eapply wp_mono; [apply IH; lia|]. simpl. lia.
Qed.

Lemma string_body_wp q b l : ∀ ln, wp (string_body q b ln l) (λ r, (fst r ≤ length l)%nat).
Proof.
  enough (∀ k, (length l ≤ k)%nat → ∀ ln, wp (string_body q b ln l) (λ r, (fst r ≤ length l)%nat)) by eauto.
  intros k. revert l. induction k as [|k IH]; intros [|c l] Hk ln; cbn [string_body length] in *; try done; try lia.
  destruct (eqc c backslash).
  { destruct l as [|d l]; [done|]. apply wp_bind. simpl in *. eapply wp_mono; [apply IH; lia|]. intros [n ln'] Hn. simpl in *. lia. }
  destruct (eqc c newline && negb b); [done|]. destruct (eqc c q && negb b); [simpl; lia|].
  destruct (eqc c q && triple_quote q (c :: l)) eqn:Ht.
  - apply andb_true_iff in Ht as [_ Ht%bool_decide_eq_true]. destruct l as [|d [|e l]]; try discriminate. simpl.
    pose proof (span_le (eqc q) (drop 0 l)) as H. rewrite drop_0 in *. lia.
  - apply wp_bind. eapply wp_mono; [apply IH; lia|]. intros [n ln'] Hn. simpl in *. lia.
Qed.

Lemma sign_len_le l : (sign_len l ≤ length l)%nat.
Proof. unfold sign_len. destruct l as [|c l]; simpl; [lia|]. case_match; lia. Qed.

Lemma fraction_len_le l : (fraction_len l ≤ length l)%nat.
Proof. unfold fraction_len. destruct l as [|c l]; simpl; [lia|]. pose proof (span_le isdigit l). case_match; lia. Qed.

Lemma exponent_len_le l : (exponent_len l ≤ length l)%nat.
Proof.
  unfold exponent_len. destruct l as [|c l]; cbn [length]; [lia|]. pose proof (sign_len_le l).
  pose proof (span_le isdigit (drop (sign_len l) l)) as H1. rewrite length_drop in H1. case_match; lia.
Qed.

Lemma lexNumber_le l : (lexNumber l ≤ length l)%nat.
Proof.
  unfold lexNumber. set (a := sign_len l). set (b := (a + span isdigit (drop a l))%nat).
  set (c := (b + fraction_len (drop b l))%nat).
  pose proof (sign_len_le l : a ≤ length l)%nat.
  pose proof (span_le isdigit (drop a l)) as H1. rewrite length_drop in H1. assert (b ≤ length l)%nat by (unfold b; lia).
  pose proof (fraction_len_le (drop b l)) as H2. rewrite length_drop in H2. assert (c ≤ length l)%nat by (unfold c; lia).
  pose proof (exponent_len_le (drop c l)) as HE. rewrite length_drop in HE. lia.
Qed.

(** The branch of [next] for numbers consumes something. *)
Lemma lexNumber_pos c l :
  isdigit c || oneof ["+"; "-"; "."]%char c = true →
  (eqc c "." && negb match l with d :: _ => isdigit d | [] => false end) = false →
  (1 ≤ lexNumber (c :: l))%nat.
Proof.
  intros Hc Hdot. unfold lexNumber. cbv zeta. unfold sign_len.
  destruct (oneof ["+"; "-"]%char c) eqn:Hpm; [lia|]. cbn [drop span].
  destruct (isdigit c) eqn:Hd; [lia|]. cbn [Nat.add drop]. unfold fraction_len at 1.
  unfold oneof in Hc, Hpm. simpl in Hc, Hpm. rewrite orb_false_r in Hc, Hpm. 
  apply orb_false_iff in Hpm as [Hp Hm]. rewrite Hp, Hm in Hc. simpl in Hc. rewrite Hc in Hdot |- *.
  apply negb_false_iff in Hdot. rewrite Hdot. simpl. lia.
Qed.

Lemma name_body_le l : (name_body l ≤ length l)%nat ∨ (name_body l = S (length l) ∧ last l = Some backslash).
Proof.
  enough (∀ k, (length l ≤ k)%nat → (name_body l ≤ length l)%nat ∨ (name_body l = S (length l) ∧ last l = Some backslash)) by eauto.
  intros k. revert l. induction k as [|k IH]; intros [|c l] Hk; simpl in Hk; try lia; [by left|by left|].
  cbn [name_body]. destruct (isNameDelimiter c); [left; simpl; lia|]. destruct (eqc c backslash) eqn:Hc.
  - destruct l as [|d l].
    + right. apply Ascii.eqb_eq in Hc as ->. done.
    + destruct (IH l) as [H|[H1 H2]]; [simpl in Hk; lia|left; simpl; lia|right]. split; [simpl; lia|].
      destruct l; [done|]. done.
  - destruct (IH l) as [H|[H1 H2]]; [lia|left; simpl; lia|right]. split; [simpl; lia|]. by destruct l.
Qed.

Lemma name_body_pos c l : isNameDelimiter c = false → (1 ≤ name_body (c :: l))%nat.
Proof. intros H. cbn [name_body]. rewrite H. destruct (eqc c backslash); [destruct l|]; lia. Qed.

Lemma last_rest p : last (rest inp p) = Some backslash → last inp = Some backslash.
Proof.
  intros H. rewrite <- (take_drop p inp). fold (rest inp p). rewrite last_app, H. done.
Qed.

Lemma at_wp i : (i < size)%nat ∨ last inp = Some backslash → wp (at_ inp i) (λ _, True).
Proof.
  unfold at_. destruct (inp !! i) eqn:Hi; [done|]. apply lookup_ge_None in Hi. unfold FuzzyTurtle.size.
  intros [?|?]; [lia|done].
Qed.

Lemma trim_dots_wp fuel start : ∀ p,
  (start < size)%nat → (p - start < fuel)%nat → (start + 1 ≤ p)%nat →
  (p ≤ size)%nat ∨ (p = S size ∧ last inp = Some backslash) →
  wp (trim_dots inp fuel start p) (λ p', (start + 1 ≤ p' ≤ size)%nat).
Proof.
  induction fuel as [|fuel IH]; intros p Hs Hf Hp Hsz; [lia|]. cbn [trim_dots].
  destruct (Nat.ltb_spec (start + 1) p) as [Hlt|Hge]; [|simpl; lia]. apply wp_bind.
  unfold at_ at 1. destruct (inp !! (p - 1)%nat) as [a|] eqn:Ha.
  - apply lookup_lt_Some in Ha. fold size in Ha. cbn [wp]. assert (p ≤ size)%nat by lia.
    destruct (eqc a "."); [|simpl; lia]. apply wp_bind. eapply wp_mono; [apply at_wp; lia|]. intros b _.
    destruct (eqc b backslash); simpl; [lia|]. apply IH; lia.
  - apply lookup_ge_None in Ha. fold size in Ha. cbn [wp]. destruct Hsz as [|[_ ?]]; [lia|done].
Qed.

(** ** Tokens *)

Record token_ok (lx lx' : Lexer) (t : Token) : Prop := {
  tk_begin : (pos lx ≤ begin t)%nat;
  tk_end : (begin t + length (text t) ≤ pos lx')%nat;
  tk_size : (pos lx' ≤ size)%nat;
  tk_progress : kind t = TokEnd ∨ (pos lx < pos lx')%nat;
  tk_degree : in_unit (degree t) = true;
}.

Lemma length_substr p n : (length (substr inp p n) ≤ n)%nat.
Proof. unfold substr. rewrite length_take. lia. Qed.

Lemma make_ok lx0 lx start ln k :
  (pos lx0 ≤ start)%nat → (start < pos lx ≤ size)%nat → 
  token_ok lx0 (fst (make inp lx start ln k)) (snd (make inp lx start ln k)).
Proof. intros H1 H2. pose proof (length_substr start (pos lx - start)). split; simpl; [lia|lia|lia|lia|done]. Qed.

Lemma lexDegree_wp lx c l :
  rest inp (pos lx) = c :: l → wp (lexDegree inp lx) (λ r, token_ok lx (fst r) (snd r)).
Proof.
  intros Hr. apply rest_cons in Hr as [Hlt _]. unfold lexDegree.
  pose proof (skipWs_pos (advance_by lx 1)) as H1. cbn [pos advance_by] in H1. specialize (H1 ltac:(lia)).
  set (lx1 := skipWs inp (advance_by lx 1)) in *. clearbody lx1. cbv zeta.
  pose proof (span_le is_degree_char (rest inp (pos lx1))) as Hn. rewrite length_rest in Hn.
  set (n := span is_degree_char (rest inp (pos lx1))) in *. clearbody n.
  pose proof (skipWs_pos (advance_by lx1 n)) as H2. cbn [pos advance_by] in H2. specialize (H2 ltac:(lia)).
  set (lx2 := skipWs inp (advance_by lx1 n)) in *. clearbody lx2.
  destruct (substr inp (pos lx1) n) as [|d ds]; [done|].
  destruct (rest inp (pos lx2)) as [|c2 l2] eqn:Hr2; [done|]. apply rest_cons in Hr2 as [Hlt2 _].
  destruct (negb (eqc c2 "}")); [done|]. destruct (from_chars (d :: ds)) as [[v [|]]|]; try done.
  destruct (in_unit v) eqn:Hv; [|done]. cbn [negb wp fst snd].
  pose proof (length_substr (pos lx) (S (pos lx2) - pos lx)). split; cbn [begin text pos kind degree]; [lia|lia|lia|right; lia|done].
Qed.

Lemma next_wp lx : (pos lx ≤ size)%nat → wp (next inp lx) (λ r, token_ok lx (fst r) (snd r)).
Proof.
  intros Hp. unfold next. apply wp_bind. eapply wp_mono; [apply (skip_wp (S size)); lia|]. intros lx1 Hp1. cbv beta zeta in *.
  destruct (rest inp (pos lx1)) as [|c l] eqn:Hr.
  { apply (f_equal length) in Hr. rewrite length_rest in Hr. simpl in Hr. cbn [wp fst snd]. split; simpl; [lia|lia|lia|by left|done]. }
  pose proof (rest_cons _ _ _ Hr) as [Hlt Hl].
  assert (∀ lx' ln k, (pos lx1 < pos lx' ≤ size)%nat → wp (Ok (make inp lx' (pos lx1) ln k)) (λ r, token_ok lx (fst r) (snd r))) as Hmake.
  { intros. apply make_ok; [lia|done]. }
  destruct (eqc c "<").
  { apply wp_bind. eapply wp_mono; [apply iri_body_wp|]. intros n Hn. cbv beta in Hn. apply Hmake. cbn [pos advance_by]. lia. }
  destruct (eqc c quote2 || eqc c "'").
  { apply wp_bind. unfold lexString. apply wp_bind. eapply wp_mono; [apply string_body_wp|]. intros [n ln] Hn. simpl in Hn.
    rewrite length_rest in Hn. apply Hmake. cbn [pos]. destruct (triple_quote c (rest inp (pos lx1))) eqn:Ht in Hn |- *; [|lia].
    apply bool_decide_eq_true in Ht. apply (f_equal length) in Ht. rewrite length_take, length_rest in Ht. cbn [length] in Ht. lia. }
  destruct (eqc c "{").
  { eapply wp_mono; [by eapply lexDegree_wp|]. intros [lx2 t] [? ? ? ? ?]. split; [lia|done..|naive_solver lia|done]. }
  destruct (eqc c "^" && _) eqn:Hcar.
  { apply Hmake. apply andb_true_iff in Hcar as [_ Hcar]. destruct l; [done|]. simpl in *. lia. }
  destruct (eqc c "@").
  { apply Hmake. pose proof (span_le (λ c, isalnum c || eqc c "-") l). simpl. lia. }
  destruct (eqc c "}"); [done|]. destruct (oneof _ c); [apply Hmake; simpl; lia|].
  destruct (eqc c "." && _) eqn:Hdot; [apply Hmake; simpl; lia|].
  destruct (isdigit c || _) eqn:Hnum.
  { pose proof (lexNumber_pos c l Hnum Hdot). pose proof (lexNumber_le (c :: l)). cbn [length] in *. apply Hmake. simpl. lia. }
  destruct (isNameDelimiter c) eqn:Hdel.
  { cbn [name_body]. rewrite Hdel. cbn [trim_dots]. rewrite (proj2 (Nat.ltb_ge _ _)) by lia. cbn [res_bind].
    rewrite Nat.add_0_r, Nat.eqb_refl. done. }
  pose proof (name_body_pos c l Hdel). apply wp_bind.
  eapply wp_mono; [apply trim_dots_wp; [done| |lia|]|].
  - destruct (name_body_le (c :: l)) as [Hn|[Hn _]]; cbn [length] in Hn; lia.
  - destruct (name_body_le (c :: l)) as [Hn|[Hn Hb]]; cbn [length] in Hn; [left; lia|right]. split; [lia|].
    apply (last_rest (pos lx1)). by rewrite Hr.
  - intros p Hpr. cbv beta in Hpr. destruct (Nat.eqb_spec p (pos lx1)); [lia|]. apply Hmake. simpl. lia.
Qed.

(** ** The parser *)

(** The output is the input with some characters, no line breaks, blanked. *)
Definition blanked (o : list ascii) : Prop :=
  length o = size ∧ ∀ i c, inp !! i = Some c → o !! i = Some c ∨ (o !! i = Some " "%char ∧ c ≠ newline).

Lemma blank_ok n : ∀ i o, blanked o → (i + n ≤ size)%nat → ∃ o', blank i n o = Ok o' ∧ blanked o'.
Proof.
  induction n as [|n IH]; intros i o Ho Hi; cbn [blank]; [by exists o|].
  destruct Ho as [Hl Hb]. destruct (lookup_lt_is_Some_2 o i) as [c Hc]; [lia|]. rewrite Hc.
  apply IH; [|lia]. destruct (eqc c newline) eqn:Hn; [done|]. apply Ascii.eqb_neq in Hn.
  split; [by rewrite length_insert|]. intros j d Hd. destruct (decide (i = j)) as [->|Hne].
  - right. rewrite list_lookup_insert_eq by lia. split; [done|]. intros ->.
    destruct (Hb _ _ Hd) as [H|[H ?]]; congruence.
  - rewrite list_lookup_insert_ne by done. by apply Hb.
Qed.

Record PInv (p : Parser) : Prop := {
  pi_pos : (pos (lexer p) ≤ size)%nat;
  pi_tok : (begin (cur p) + length (text (cur p)) ≤ size)%nat;
  pi_unit : in_unit (degree (cur p)) = true;
  pi_out : blanked (out p);
  pi_degrees : Forall (λ d, in_unit d = true) (degrees p);
}.

(** Text and token that are left. *)
Definition mu (p : Parser) : nat :=
  (size - pos (lexer p) + (if decide (kind (cur p) = TokEnd) then 0 else 1))%nat.

Record step (p p' : Parser) : Prop := {
  st_inv : PInv p';
  st_mu : (mu p' ≤ mu p)%nat;
  st_depth : collectionDepth p' = collectionDepth p;
  st_degrees : degrees p `prefix_of` degrees p';
}.
(** [step] that consumes at least one token. *)
Definition sstep (p p' : Parser) : Prop := step p p' ∧ (mu p' < mu p)%nat.

Lemma step_refl p : PInv p → step p p.
Proof. by split. Qed.
Lemma step_trans p1 p2 p3 : step p1 p2 → step p2 p3 → step p1 p3.
Proof. intros [? ? ? ?] [? ? ? ?]. split; [done|lia|congruence|by etrans]. Qed.
Lemma sstep_step p1 p2 p3 : sstep p1 p2 → step p2 p3 → sstep p1 p3.
Proof. intros [H1 ?] H2. split; [by eapply step_trans|]. destruct H2. lia. Qed.
Lemma step_sstep p1 p2 p3 : step p1 p2 → sstep p2 p3 → sstep p1 p3.
Proof. intros H1 [H2 ?]. split; [by eapply step_trans|]. destruct H1. lia. Qed.

Lemma advance_wp p : PInv p → kind (cur p) ≠ TokEnd → wp (advance inp p) (sstep p).
Proof.
  intros [Hp Ht Hu Ho Hd] Hk. unfold advance. apply wp_bind. eapply wp_mono; [by apply next_wp|].
  intros [lx t] [H1 H2 H3 H4 H5]. cbn [fst snd wp] in *. unfold sstep, mu. cbn [lexer cur].
  rewrite (decide_False (P := kind (cur p) = TokEnd)) by done.
  assert (size - pos lx + (if decide (kind t = TokEnd) then 0 else 1) < size - pos (lexer p) + 1)%nat.
  { case_decide; [lia|]. destruct H4; [done|]. lia. }
  split; [|done]. split; [split; simpl; try done; lia|unfold mu; cbn [lexer cur]|done|done].
  rewrite (decide_False (P := kind (cur p) = TokEnd)) by done. lia.
Qed.

Lemma isPunct_kind p c : isPunct p c = true → kind (cur p) ≠ TokEnd.
Proof. intros [H%bool_decide_eq_true _]%andb_true_iff. by rewrite H. Qed.
Lemma isTerm_kind p : isTerm p = true → kind (cur p) ≠ TokEnd.
Proof. intros [H%bool_decide_eq_true|H%bool_decide_eq_true]%orb_true_iff; by rewrite H. Qed.

Lemma expectPunct_wp p c : PInv p → wp (expectPunct inp p c) (sstep p).
Proof.
  intros Hp. unfold expectPunct. destruct (isPunct p c) eqn:Hc; [|done]. apply advance_wp; [done|by eapply isPunct_kind].
Qed.
Lemma expectTerm_wp p : PInv p → wp (expectTerm inp p) (sstep p).
Proof.
  intros Hp. unfold expectTerm. destruct (isTerm p) eqn:Hc; [|done]. apply advance_wp; [done|by apply isTerm_kind].
Qed.

Lemma parseTermObject_wp p : PInv p → wp (parseTermObject inp p) (sstep p).
Proof.
  intros Hp. unfold parseTermObject. case_decide as Hs.
  - apply wp_bind. eapply wp_mono; [apply advance_wp; [done|by rewrite Hs]|]. intros p1 H1. pose proof (st_inv _ _ (proj1 H1)).
    case_decide as Hl; [eapply wp_mono; [apply advance_wp; [done|by rewrite Hl]|]; intros p2 [? ?]; by eapply sstep_step|].
    case_decide as Hc; [|done]. apply wp_bind. eapply wp_mono; [apply advance_wp; [done|by rewrite Hc]|]. intros p2 [H2 ?].
    pose proof (st_inv _ _ H2). eapply wp_mono; [by apply expectTerm_wp|]. intros p3 [? ?].
    eapply sstep_step; [done|]. by eapply step_trans.
  - destruct (isTerm p || bool_decide (kind (cur p) = TokNumber)) eqn:Hc; [|done]. apply advance_wp; [done|].
    apply orb_true_iff in Hc as [Hc|Hc%bool_decide_eq_true]; [by apply isTerm_kind|by rewrite Hc].
Qed.

Lemma push_degree_step p : PInv p → step p (push_degree p).
Proof.
  intros [? ? ? ? Hd]. split; [split; simpl; try done|done|done|by eexists].
  apply Forall_app_2; [done|]. by repeat constructor.
Qed.

Lemma set_depth_inv p d : PInv p → PInv (set_depth p d).
Proof. intros [? ? ? ? ?]. by split. Qed.

(** Recording a degree for an object whose slot exists. *)
Lemma parseDegree_wp p idx : PInv p → (idx < length (degrees p))%nat →
  wp (parseDegree inp p idx) (λ p', PInv p' ∧ (mu p' ≤ mu p)%nat ∧ collectionDepth p' = collectionDepth p ∧
    take idx (degrees p') = take idx (degrees p) ∧ (idx < length (degrees p'))%nat).
Proof.
  intros Hp Hi. unfold parseDegree. case_decide as Hk; [|done]. destruct (0 <? collectionDepth p); [done|].
  pose proof Hp as [Hpos Htok Hu Ho Hd].
  destruct (proj2 (zget_is_Some (degrees p) (Z.of_nat idx))) as [d0 Hd0]; [lia|].
  rewrite (store_Some _ _ _ _ Hd0). cbn [res_bind].
  destruct (blank_ok (length (text (cur p))) (begin (cur p)) (out p) Ho Htok) as (o & -> & Ho'). cbn [res_bind].
  set (p1 := mkParser _ _ _ _ _).
  assert (zset (degrees p) (Z.of_nat idx) (degree (cur p)) = <[idx := degree (cur p)]> (degrees p)) as Hz.
  { unfold zset. rewrite (proj2 (Z.leb_le 0 _)) by lia. by rewrite Nat2Z.id. }
  assert (PInv p1) as Hp1.
  { subst p1. split; simpl; try done. rewrite Hz. apply Forall_insert; done. }
  eapply wp_mono; [apply advance_wp; [done|by simpl; rewrite Hk]|]. intros p2 [[H1 H2 H3 [l H4]] H5].
  split_and!; [done|by etrans|done| |].
  - rewrite H4. subst p1. simpl. rewrite Hz. rewrite take_app_le by (rewrite length_insert; lia).
    rewrite take_insert_ge by lia. done.
  - rewrite H4. subst p1. simpl. rewrite Hz, length_app, length_insert. lia.
Qed.

Lemma skipSemicolons_wp fuel : ∀ p, PInv p → (mu p < fuel)%nat → wp (skipSemicolons inp fuel p) (step p).
Proof.
  induction fuel as [|fuel IH]; intros p Hp Hf; [lia|]. cbn [skipSemicolons].
  destruct (isPunct p ";") eqn:Hc; [|by apply step_refl]. apply wp_bind.
  eapply wp_mono; [apply advance_wp; [done|by eapply isPunct_kind]|]. intros p1 [H1 ?].
  eapply wp_mono; [apply IH; [apply H1|lia]|]. intros p2 H2. by eapply step_trans.
Qed.

(** ** The recursive procedures

    With [m] the text that is left, four units of fuel per character and a
    constant are enough. *)

Definition fuel_ok (f : nat) : Prop := ∀ p, PInv p →
  ((4 * mu p + 1 ≤ f)%nat → wp (parsePredicateObjectList inp f p) (sstep p)) ∧
  ((4 * mu p + 2 ≤ f)%nat → wp (predicateLoop inp f p) (step p)) ∧
  ((4 * mu p + 2 ≤ f)%nat → wp (parseObjectList inp f p) (sstep p)) ∧
  ((4 * mu p + 2 ≤ f)%nat → wp (objectLoop inp f p) (step p)) ∧
  ((4 * mu p + 1 ≤ f)%nat → wp (parseObject inp f p) (sstep p)) ∧
  ((4 * mu p + 3 ≤ f)%nat → wp (parseCollectionItems inp f p) (sstep p)) ∧
  ((4 * mu p + 2 ≤ f)%nat → wp (collectionLoop inp f p) (λ p', step p p' ∧ isPunct p' ")" = true)).

(** A verb, its objects and what follows. *)
Lemma verb_objects_wp f p :
  fuel_ok f → PInv p → (4 * mu p ≤ f + 1)%nat →
  wp (let* p := parseVerb inp p in let* p := parseObjectList inp f p in predicateLoop inp f p) (sstep p).
Proof.
  intros IH Hp Hf. apply wp_bind. eapply wp_mono; [by apply expectTerm_wp|]. intros p1 [H1 L1].
  destruct (IH p1 (st_inv _ _ H1)) as (_ & _ & IHol & _). apply wp_bind. eapply wp_mono; [apply IHol; lia|]. intros p2 [H2 L2].
  destruct (IH p2 (st_inv _ _ H2)) as (_ & IHpl & _). eapply wp_mono; [apply IHpl; lia|]. intros p3 H3.
  eapply sstep_step; [by split|]. by eapply step_trans.
Qed.

Lemma predicateLoop_step f p : fuel_ok f → PInv p → (4 * mu p + 1 ≤ f)%nat → wp (predicateLoop inp (S f) p) (step p).
Proof.
  intros IH Hp Hf. cbn [predicateLoop]. destruct (isPunct p ";") eqn:Hc; [|by apply step_refl].
  apply wp_bind. eapply wp_mono; [apply skipSemicolons_wp; [done|lia]|]. intros p1 H1.
  destruct (isPunct p1 "." || isPunct p1 "]" || bool_decide (kind (cur p1) = TokEnd)); [done|].
  pose proof (st_mu _ _ H1). eapply wp_mono; [apply verb_objects_wp; [done|apply H1|lia]|]. intros p2 [H2 _]. by eapply step_trans.
Qed.

Lemma objectLoop_step f p : fuel_ok f → PInv p → (4 * mu p + 1 ≤ f)%nat → wp (objectLoop inp (S f) p) (step p).
Proof.
  intros IH Hp Hf. cbn [objectLoop]. destruct (isPunct p ",") eqn:Hc; [|by apply step_refl].
  apply wp_bind. eapply wp_mono; [apply advance_wp; [done|by eapply isPunct_kind]|]. intros p1 [H1 L1].
  destruct (IH p1 (st_inv _ _ H1)) as (_ & _ & _ & _ & IHo & _). apply wp_bind. eapply wp_mono; [apply IHo; lia|]. intros p2 [H2 L2].
  destruct (IH p2 (st_inv _ _ H2)) as (_ & _ & _ & IHl & _). eapply wp_mono; [apply IHl; lia|]. intros p3 H3.
  eapply step_trans; [done|]. by eapply step_trans.
Qed.

Lemma parseObject_step f p : fuel_ok f → PInv p → (4 * mu p ≤ f)%nat → wp (parseObject inp (S f) p) (sstep p).
Proof.
  intros IH Hp Hf. cbn [parseObject]. cbv zeta. pose proof (push_degree_step p Hp) as H0. set (p0 := push_degree p) in *.
  assert (mu p0 = mu p) as Hmu by done. assert (degrees p0 = degrees p ++ [one_bits]) as Hdeg by done.
  assert (PInv p0) as Hp0 by apply H0. clearbody p0.
  apply wp_bind. apply (wp_mono _ (sstep p0)).
  - destruct (isPunct p0 "[") eqn:Hb.
    + apply wp_bind. eapply wp_mono; [apply advance_wp; [done|by eapply isPunct_kind]|]. intros p1 [H1 L1].
      destruct (IH p1 (st_inv _ _ H1)) as (IHp & _). apply wp_bind. apply (wp_mono _ (step p1)).
      * destruct (negb (isPunct p1 "]")); [|apply step_refl, H1]. eapply wp_mono; [apply IHp; lia|]. by intros p2 [? _].
      * intros p2 H2. eapply wp_mono; [apply expectPunct_wp, H2|]. intros p3 [H3 _].
        eapply sstep_step; [by split|]. by eapply step_trans.
    + destruct (isPunct p0 "(") eqn:Hc; [|by apply parseTermObject_wp].
      apply wp_bind. eapply wp_mono; [apply advance_wp; [done|by eapply isPunct_kind]|]. intros p1 [H1 L1].
      destruct (IH p1 (st_inv _ _ H1)) as (_ & _ & _ & _ & _ & IHc & _). eapply wp_mono; [apply IHc; lia|]. intros p2 [H2 _].
      by eapply sstep_step; [split|].
  - intros p1 [H1 L1]. pose proof (st_degrees _ _ H1) as [l1 Hd1]. rewrite Hdeg, <- app_assoc in Hd1. simpl in Hd1.
    assert (length (degrees p) < length (degrees p1))%nat by (rewrite Hd1, length_app; simpl; lia).
    eapply wp_mono; [apply parseDegree_wp; [apply H1|done]|]. intros p2 (H2 & M2 & D2 & T2 & _).
    split; [|lia]. destruct H1 as [_ ? ? _], H0 as [_ ? ? _]. split; [done|lia|congruence|].
    rewrite Hd1, take_app_length in T2. exists (drop (length (degrees p)) (degrees p2)). rewrite <- T2 at 1. symmetry. apply take_drop.
Qed.

Lemma collectionLoop_step f p : fuel_ok f → PInv p → (4 * mu p + 1 ≤ f)%nat →
  wp (collectionLoop inp (S f) p) (λ p', step p p' ∧ isPunct p' ")" = true).
Proof.
  intros IH Hp Hf. cbn [collectionLoop]. destruct (isPunct p ")") eqn:Hc; cbn [negb]; [split; [by apply step_refl|done]|].
  case_decide; [done|]. destruct (IH p Hp) as (_ & _ & _ & _ & IHo & _). apply wp_bind. eapply wp_mono; [apply IHo; lia|]. intros p1 [H1 L1].
  pose proof (push_degree_step p1 (st_inv _ _ H1)) as H2. assert (mu (push_degree p1) = mu p1) as Hmu by done.
  destruct (IH (push_degree p1) (st_inv _ _ H2)) as (_ & _ & _ & _ & _ & _ & IHl). eapply wp_mono; [apply IHl; lia|].
  intros p2 [H3 ?]. split; [|done]. eapply step_trans; [done|]. by eapply step_trans.
Qed.

Lemma parseCollectionItems_step f p : fuel_ok f → PInv p → (4 * mu p + 2 ≤ f)%nat → wp (parseCollectionItems inp (S f) p) (sstep p).
Proof.
  intros IH Hp Hf. cbn [parseCollectionItems]. set (p0 := set_depth p (collectionDepth p + 1)).
  assert (PInv p0) as Hp0 by by apply set_depth_inv. assert (mu p0 = mu p) as Hmu by done.
  destruct (IH p0 Hp0) as (_ & _ & _ & _ & _ & _ & IHl). apply wp_bind. eapply wp_mono; [apply IHl; lia|]. intros p1 [H1 Hc].
  apply wp_bind. eapply wp_mono; [apply advance_wp; [apply H1|by eapply isPunct_kind]|]. intros p2 [H2 L2].
  destruct H1 as [_ M1 D1 G1], H2 as [I2 M2 D2 G2]. assert (mu (set_depth p2 (collectionDepth p2 - 1)) = mu p2) as Hmu2 by done.
  assert (collectionDepth p0 = collectionDepth p + 1) as E0 by done. cbn [wp].
  split; [split; [by apply set_depth_inv|lia|simpl; lia|by etrans]|lia].
Qed.

Lemma recursion_ok f : fuel_ok f.
Proof.
  induction f as [|f IH]; intros p Hp; split_and!; intros Hf; try lia.
  - cbn [parsePredicateObjectList]. apply verb_objects_wp; [done..|lia].
  - apply predicateLoop_step; [done..|lia].
  - cbn [parseObjectList]. destruct (IH p Hp) as (_ & _ & _ & _ & IHo & _).
    apply wp_bind. eapply wp_mono; [apply IHo; lia|]. intros p1 [H1 L1].
    destruct (IH p1 (st_inv _ _ H1)) as (_ & _ & _ & IHl & _). eapply wp_mono; [apply IHl; lia|]. intros p2 H2.
    by eapply sstep_step; [split|].
  - apply objectLoop_step; [done..|lia].
  - apply parseObject_step; [done..|lia].
  - apply parseCollectionItems_step; [done..|lia].
  - apply collectionLoop_step; [done..|lia].
Qed.

Lemma mu_bound p : PInv p → (mu p ≤ size + 1)%nat.
Proof. intros [? _ _ _ _]. unfold mu. case_decide; lia. Qed.

Lemma parseTriples_wp p : PInv p → wp (parseTriples inp (parse_fuel inp) p) (sstep p).
Proof.
  intros Hp. unfold parseTriples.
  assert (∀ p, PInv p → wp (parsePredicateObjectList inp (parse_fuel inp) p) (sstep p)) as Hpol.
  { intros q Hq. pose proof (mu_bound q Hq). apply (recursion_ok _ q Hq). unfold parse_fuel. fold size. lia. }
  destruct (isPunct p "[") eqn:Hb.
  - apply wp_bind. eapply wp_mono; [apply advance_wp; [done|by eapply isPunct_kind]|]. intros p1 H1. cbv zeta.
    apply wp_bind. apply (wp_mono _ (step p1)).
    { destruct (negb (isPunct p1 "]")); [|apply step_refl, H1]. eapply wp_mono; [apply Hpol, H1|]. by intros p2 [? _]. }
    intros p2 H2. apply wp_bind. eapply wp_mono; [apply expectPunct_wp, H2|]. intros p3 [H3 _].
    assert (sstep p p3) as H4 by (eapply sstep_step; [done|by eapply step_trans]).
    destruct (isPunct p1 "]" || negb (isPunct p3 ".")); [|done].
    eapply wp_mono; [apply Hpol, H3|]. intros p4 [? _]. by eapply sstep_step.
  - apply wp_bind. apply (wp_mono _ (sstep p)).
    { destruct (isPunct p "(") eqn:Hc; [|by apply expectTerm_wp].
      apply wp_bind. eapply wp_mono; [apply advance_wp; [done|by eapply isPunct_kind]|]. intros p1 [H1 L1].
      pose proof (mu_bound p1 (st_inv _ _ H1)). eapply wp_mono.
      - apply (recursion_ok (parse_fuel inp) p1 (st_inv _ _ H1)). unfold parse_fuel. fold size. lia.
      - intros p2 [? _]. by eapply sstep_step; [split|]. }
    intros p1 H1. eapply wp_mono; [apply Hpol, H1|]. intros p2 [? _]. by eapply sstep_step.
Qed.

Lemma isKeyword_kind p kw : isKeyword p kw = true → kind (cur p) ≠ TokEnd.
Proof. intros [H%bool_decide_eq_true _]%andb_true_iff. by rewrite H. Qed.

(** An optional term, a term: the tail of a directive. *)
Lemma prefix_terms_wp p (b : bool) : PInv p →
  wp (let* p := if b then expectTerm inp p else Ok p in expectTerm inp p) (step p).
Proof.
  intros Hp. apply wp_bind. apply (wp_mono _ (step p)).
  - destruct b; [|by apply step_refl]. eapply wp_mono; [by apply expectTerm_wp|]. by intros ? [? _].
  - intros p1 H1. eapply wp_mono; [apply expectTerm_wp, H1|]. intros p2 [? _]. by eapply step_trans.
Qed.

Lemma parseStatement_wp p : PInv p → wp (parseStatement inp (parse_fuel inp) p) (sstep p).
Proof.
  intros Hp. unfold parseStatement. case_decide as Hd.
  - cbv zeta. destruct (negb _ && negb _); [done|]. apply wp_bind.
    eapply wp_mono; [apply advance_wp; [done|by rewrite Hd]|]. intros p1 H1. rewrite <- res_bind_assoc. apply wp_bind.
    eapply wp_mono; [apply prefix_terms_wp, H1|]. intros p2 H2. eapply wp_mono; [apply expectPunct_wp, H2|]. intros p3 [? _].
    eapply sstep_step; [done|]. by eapply step_trans.
  - destruct (isKeyword p "PREFIX" || isKeyword p "BASE") eqn:Hk.
    + cbv zeta. apply wp_bind. eapply wp_mono; [apply advance_wp; [done|]|].
      { apply orb_true_iff in Hk as [Hk|Hk]; by eapply isKeyword_kind. }
      intros p1 H1. eapply wp_mono; [apply prefix_terms_wp, H1|]. intros p2 H2. by eapply sstep_step.
    + apply wp_bind. eapply wp_mono; [by apply parseTriples_wp|]. intros p1 [H1 L1].
      eapply wp_mono; [apply expectPunct_wp, H1|]. intros p2 [? _]. by eapply sstep_step; [split|].
Qed.

Lemma parseDocument_wp n : ∀ p, PInv p → (mu p < n)%nat →
  wp (parseDocument inp n (parse_fuel inp) p) (λ p', step p p' ∧ kind (cur p') = TokEnd).
Proof.
  induction n as [|n IH]; intros p Hp Hn; [lia|]. cbn [parseDocument].
  case_decide; [split; [by apply step_refl|done]|]. apply wp_bind. eapply wp_mono; [by apply parseStatement_wp|]. intros p1 [H1 L1].
  eapply wp_mono; [apply IH; [apply H1|lia]|]. intros p2 [? ?]. split; [by eapply step_trans|done].
Qed.

Lemma newParser_wp : wp (newParser inp) PInv.
Proof.
  unfold newParser, advance. apply wp_bind. eapply wp_mono; [apply next_wp; simpl; lia|]. intros [lx t] [H1 H2 H3 H4 H5].
  cbn [fst snd wp] in *. split; simpl; [done|lia|done| |constructor]. split; [done|]. intros i c Hc. by left.
Qed.

Lemma loadFuzzyTTL_wp :
  wp (loadFuzzyTTL inp) (λ r, blanked (fst r) ∧ Forall (λ d, in_unit d = true) (snd r)).
Proof.
  unfold loadFuzzyTTL. apply wp_bind. eapply wp_mono; [apply newParser_wp|]. intros p Hp. apply wp_bind.
  pose proof (mu_bound p Hp). eapply wp_mono; [apply parseDocument_wp; [done|fold size; lia]|]. intros p' [[[? ? ? ? ?] _ _ _] _]. done.
Qed.
End safety.

(** ** Claims *)

(** C31. [loadFuzzyTTL] terminates on every text, by returning or by throwing a
    [FuzzyTurtleError]; the fuel of the model, six units per character, never
    runs out.  The only other outcome is a read one past the end, and it needs
    a text that ends in a backslash. *)
Theorem loadFuzzyTTL_terminates (inp : list ascii) :
  (∃ r, loadFuzzyTTL inp = Ok r) ∨ (∃ msg, loadFuzzyTTL inp = Fault (Thrown msg)) ∨
  (loadFuzzyTTL inp = Fault BadAccess ∧ last inp = Some backslash).
Proof. pose proof (loadFuzzyTTL_wp inp) as H. destruct (loadFuzzyTTL inp) as [r|[]]; simpl in H; naive_solver. Qed.

(** C32. What [loadFuzzyTTL] returns: the text has the length of the input, every
    line break is where it was and no other character changes except into a
    space, so that positions and line numbers of later errors stay those of the
    source; and every degree is a number between 0 and 1. *)
Theorem loadFuzzyTTL_preserves_layout (inp : list ascii) o ds :
  loadFuzzyTTL inp = Ok (o, ds) →
  length o = length inp ∧
  (∀ i, o !! i = Some newline ↔ inp !! i = Some newline) ∧
  (∀ i c, inp !! i = Some c → o !! i = Some c ∨ o !! i = Some " "%char) ∧
  Forall (λ d, in_unit d = true) ds.
Proof.
  intros Hl. pose proof (loadFuzzyTTL_wp inp) as H. rewrite Hl in H. destruct H as [[Hlen Hb] Hd]. simpl in *.
  assert (newline ≠ " "%char) as Hnl by (vm_compute; congruence).
  split_and!; [done| | |done].
  - intros i. split; intros Hi.
    + destruct (inp !! i) as [c|] eqn:Hc; [destruct (Hb _ _ Hc) as [?|[? ?]]; congruence|].
      apply lookup_ge_None in Hc. apply lookup_lt_Some in Hi. unfold FuzzyTurtle.size in Hlen. lia.
    + destruct (Hb _ _ Hi) as [?|[? ?]]; congruence.
  - intros i c Hc. destruct (Hb _ _ Hc) as [?|[? ?]]; eauto.
Qed.

Definition text_of (s : string) : list ascii := String.list_ascii_of_string s.
Definition sample_fuzzy : list ascii := text_of "a:s a:p a:o {0.5}, a:q .".
Definition sample_blank : list ascii := text_of "a:s a:p a:o      , a:q .".

Lemma loadFuzzyTTL_preserves_layout_witness :
  length sample_blank = length sample_fuzzy ∧ Forall (λ d, in_unit d = true) [0x3f000000; one_bits].
Proof.
  destruct (loadFuzzyTTL_preserves_layout sample_fuzzy sample_blank [0x3f000000; one_bits]) as (H1 & _ & _ & H2).
  - vm_compute; reflexivity.
  - split; [exact H1|exact H2].
Defined.

(** A name that ends the text in a backslash makes the lexer read one past the
    end. *)
Lemma trailing_backslash_reads_past_end : loadFuzzyTTL (text_of "a:s a:p a:o" ++ [backslash]) = Fault BadAccess.
Proof. vm_compute. reflexivity. Qed.
