(* ===== verification/RdfGraph.v ===== *)
(** * RDF graphs

    Model of include/gengodb/semantics/RdfGraph.h, RdfFileFormat.h and
    src/gengodb/semantics/RdfGraph.cpp: an RDF graph is a property graph plus a
    dictionary of its nodes.  The id of a node in the dictionary is its id in
    the storage; a literal node carries one property with its datatype and
    value; a triple is a relationship whose type is the predicate's node and
    whose payload is its truth degree. *)

From S2P Require Import Prelude Bytes Graph PropData PropertyGraph Datatypes GraphFile GraphDataOps.
From S2P Require Import Serialization RdfTypes Identifiers FuzzyTurtle.
From stdpp Require Import pretty.
From Stdlib Require Import Strings.Ascii Strings.Byte.
#[local] Open Scope Z_scope.
#[local] Open Scope list_scope.

(** ** File formats *)

Inductive RDFFileFormat := FDEFAULT | FBINARY | FTURTLE | FNTRIPLES | FNQUADS | FRDFXML | FFUZZY_TURTLE.

(** [rdf4cpp::parser::ParsingFlag] by its value; [Turtle] is that library's. *)
Section formats.
Context (Turtle : Z).
Definition getRDFParseFlags (format : RDFFileFormat) : Z :=
  match format with FTURTLE | FFUZZY_TURTLE => Turtle | _ => 0 end.
Definition flagExtension (flag : Z) : string := if flag =? Turtle then ".ttl" else ".rdf".
Definition formatExtension (format : RDFFileFormat) : string :=
  match format with FFUZZY_TURTLE => ".fttl" | _ => flagExtension (getRDFParseFlags format) end.
End formats.

(** ** State *)

(** [literalNodes] is keyed by the bytes a [LiteralKey] points to; the deque
    that owns those bytes is not kept apart. *)
Record RdfGraph := mkRdf {
  rg_iri : string;
  rg_storage : GengoDBGraph;
  rg_nodes : NodeIdDict;
  literalNodes : gmap (bytes * Z) Z;
  rg_persist : bool;
  rg_fileName : string;
  sourceFileName : string;
  rg_dbDir : string;
  loadedFromRdfFile : bool;
  rdfParseFlags : Z;
  fuzzy : bool;
  rg_loaded : bool;
}.

Definition set_storage (g : RdfGraph) (s : GengoDBGraph) : RdfGraph :=
  mkRdf (rg_iri g) s (rg_nodes g) (literalNodes g) (rg_persist g) (rg_fileName g) (sourceFileName g) (rg_dbDir g)
    (loadedFromRdfFile g) (rdfParseFlags g) (fuzzy g) (rg_loaded g).
Definition set_dict (g : RdfGraph) (d : NodeIdDict) : RdfGraph :=
  mkRdf (rg_iri g) (rg_storage g) d (literalNodes g) (rg_persist g) (rg_fileName g) (sourceFileName g) (rg_dbDir g)
    (loadedFromRdfFile g) (rdfParseFlags g) (fuzzy g) (rg_loaded g).
Definition set_literals (g : RdfGraph) (m : gmap (bytes * Z) Z) : RdfGraph :=
  mkRdf (rg_iri g) (rg_storage g) (rg_nodes g) m (rg_persist g) (rg_fileName g) (sourceFileName g) (rg_dbDir g)
    (loadedFromRdfFile g) (rdfParseFlags g) (fuzzy g) (rg_loaded g).
Definition set_loaded (g : RdfGraph) : RdfGraph :=
  mkRdf (rg_iri g) (rg_storage g) (rg_nodes g) (literalNodes g) (rg_persist g) (rg_fileName g) (sourceFileName g) (rg_dbDir g)
    (loadedFromRdfFile g) (rdfParseFlags g) (fuzzy g) true.

(** The property graph inside. *)
Definition pgraph (g : RdfGraph) : PropertyGraph := storage_ (rg_storage g).
Definition set_pgraph (g : RdfGraph) (pg : PropertyGraph) : RdfGraph :=
  let s := rg_storage g in set_storage g (mkGDB pg (fileName_ s) (dbDir_ s) (loaded_ s)).

Definition addLiteralNode (g : RdfGraph) (key : bytes * Z) (id : Z) : RdfGraph :=
  set_literals g (emplace_id (literalNodes g) key id).

(** The constructor and [create]; a null IRI is [None]. *)
Definition GENGODB_NS : string := "https://github.com/Neroware/LingoDB#".
Definition newRdfGraph (Turtle : Z) (iri : string) (storage : GengoDBGraph) (fileName source : string) : RdfGraph :=
  mkRdf iri storage newDict ∅ false fileName (if String.eqb source "" then fileName else source) "" false Turtle false false.
Definition rdf_create (Turtle : Z) (name : string) (iri : option string) (source : string)
    (nodeCapacity relCapacity propCapacity : Z) : RdfGraph :=
  newRdfGraph Turtle (default (GENGODB_NS +:+ name) iri) (gdb_create name nodeCapacity relCapacity propCapacity) name source.

Definition rdf_setDBDir (g : RdfGraph) (dir : string) : RdfGraph :=
  mkRdf (rg_iri g) (setDBDir (rg_storage g) dir) (rg_nodes g) (literalNodes g) (rg_persist g) (rg_fileName g) (sourceFileName g) dir
    (loadedFromRdfFile g) (rdfParseFlags g) (fuzzy g) (rg_loaded g).

(** ** NodeHelper *)

Definition ensureNode (g : RdfGraph) : res RdfGraph :=
  if u64 (nodeMark_ (graph_ (pgraph g))) <? dict_size (rg_nodes g) then
    let* '(pg, _) := pg_addNode (pgraph g) in Ok (set_pgraph g pg)
  else Ok g.

(** [resolve] of an IRI or a blank node. *)
Definition resolve_named (g : RdfGraph) (n : Node) : res (RdfGraph * Z) :=
  let '(d, id) := get_or_insert (rg_nodes g) n in
  let* g1 := ensureNode (set_dict g d) in Ok (g1, id).

(** What [resolve] of a literal computes before it looks the literal up: the
    bits it will store. *)
Inductive LiteralValue :=
  | LvInline (bits : Z)
  | LvInt64 (v : Z)
  | LvUInt64 (v : Z)
  | LvDouble (bits : Z)
  | LvText (data : bytes).

Definition encode_literal (l : Literal) : res LiteralValue :=
  if isInlined (l_datatype l) then let* b := inlineValue (l_value l) (l_datatype l) in Ok (LvInline b)
  else
    match kindOf (l_datatype l) with
    | Some KInt64 => match l_value l with AnyInt64 z => Ok (LvInt64 z) | _ => Fault AssertFailed end
    | Some KUInt64 => match l_value l with AnyUInt64 z => Ok (LvUInt64 z) | _ => Fault AssertFailed end
    | Some KDouble => match l_value l with AnyDouble z => Ok (LvDouble z) | _ => Fault AssertFailed end
    | Some KDate =>
        match l_value l with
        | AnyDate y m d tz => let* p := packDate y m d tz in Ok (LvInt64 p)
        | _ => Fault AssertFailed
        end
    | Some KDateTime =>
        match l_value l with
        | AnyDateTime n tz => let* p := packDateTime n tz in Ok (LvInt64 p)
        | _ => Fault AssertFailed
        end
    | None =>
        let n := Z.of_nat (String.length (l_lang l)) in
        let* _ := assert_ (n <=? 0xff) in
        Ok (LvText (put_u8 n ++ bytes_of (l_lang l) ++ bytes_of (l_lex l)))
    end.

(** The bytes of the lookup key. *)
Definition literal_data (v : LiteralValue) : bytes :=
  match v with
  | LvInline b => put_u32 b
  | LvInt64 z | LvUInt64 z | LvDouble z => put_u64 z
  | LvText data => data
  end.

Definition String_code : Z := to_int32 TString.

(** Moves the value into the storage; the result is the property's value. *)
Definition store_literal (d : PropertyData) (v : LiteralValue) : res (PropertyData * Z) :=
  match v with
  | LvInline b => Ok (d, b)
  | LvInt64 z => let '(d, i) := add_i64 d z in Ok (d, u32 i)
  | LvUInt64 z => let '(d, i) := add_ui64 d z in Ok (d, u32 i)
  | LvDouble z => let '(d, i) := add_double d z in Ok (d, u32 i)
  | LvText data =>
      let* '(d, (ptr, idx)) := add_blob d String_code (Z.of_nat (length data)) in
      let* d := write_blob d String_code ptr data in Ok (d, u32 idx)
  end.

Definition resolve_literal (g : RdfGraph) (l : Literal) : res (RdfGraph * Z) :=
  let* v := encode_literal l in
  let* '(g1, datatypeNode) := resolve_named g (NodeIRI (l_datatype l)) in
  match literalNodes g1 !! (literal_data v, datatypeNode) with
  | Some id => Ok (g1, id)
  | None =>
      let '(d, id) := dict_insert (rg_nodes g1) (NodeLiteral l) in
      let* g2 := ensureNode (set_dict g1 d) in
      let xsdType := u32 (to_int32 (from_iri (Some (l_datatype l)))) in
      let* '(pd, value) := store_literal (propData_ (pgraph g2)) v in
      let* '(pg, _) := addNodeProperty (set_propData (pgraph g2) pd) id (u32 datatypeNode) xsdType value in
      Ok (addLiteralNode (set_pgraph g2 pg) (literal_data v, datatypeNode) id, id)
  end.

Definition resolve (g : RdfGraph) (n : Node) : res (RdfGraph * Z) :=
  match n with NodeLiteral l => resolve_literal g l | _ => resolve_named g n end.

Section graph.
(** The enumerator of value zero of rdf4cpp's node types. *)
Context (zero_type : RDFNodeType).

Definition getNodeId (g : RdfGraph) (id : Z) : res NodeId := dict_get zero_type (rg_nodes g) id.
Definition getIri (g : RdfGraph) (id : Z) : res string := let* n := getNodeId g id in Ok (default "" (ni_iri n)).

(** [literalKeyFor]: the bytes stored for literal node [id] and its datatype. *)
Definition literalKeyFor (g : RdfGraph) (id : Z) : res (bytes * Z) :=
  let pg := pgraph g in
  let* n := node (graph_ pg) id in
  let* _ := assert_ (0 <=? n_payload n) in
  let* p := pg_prop pg (n_payload n) in
  let datatypeNode := i32 (p_key p) in
  let* datatype := getIri g datatypeNode in
  let* data :=
    if isInlined datatype then Ok (put_u32 (p_value p))
    else
      let idx := i32 (p_value p) in
      match kindOf datatype with
      | Some KInt64 | Some KDate | Some KDateTime => let* z := get_i64_at (propData_ pg) idx in Ok (put_u64 z)
      | Some KUInt64 => let* z := get_ui64_at (propData_ pg) idx in Ok (put_u64 z)
      | Some KDouble => let* z := get_double_at (propData_ pg) idx in Ok (put_u64 z)
      | None => read_blob (propData_ pg) String_code idx
      end in
  Ok (data, datatypeNode).

(** ** Triples *)

(** [addRelationship(resolve(s), resolve(o), resolve(p))]: C++ leaves the order
    of the three calls open. *)
Inductive Order := SOP | SPO | OSP | OPS | PSO | POS.

Definition resolve3 (ord : Order) (g : RdfGraph) (s o p : Node) : res (RdfGraph * (Z * Z * Z)) :=
  match ord with
  | SOP => let* '(g, s) := resolve g s in let* '(g, o) := resolve g o in let* '(g, p) := resolve g p in Ok (g, (s, o, p))
  | SPO => let* '(g, s) := resolve g s in let* '(g, p) := resolve g p in let* '(g, o) := resolve g o in Ok (g, (s, o, p))
  | OSP => let* '(g, o) := resolve g o in let* '(g, s) := resolve g s in let* '(g, p) := resolve g p in Ok (g, (s, o, p))
  | OPS => let* '(g, o) := resolve g o in let* '(g, p) := resolve g p in let* '(g, s) := resolve g s in Ok (g, (s, o, p))
  | PSO => let* '(g, p) := resolve g p in let* '(g, s) := resolve g s in let* '(g, o) := resolve g o in Ok (g, (s, o, p))
  | POS => let* '(g, p) := resolve g p in let* '(g, o) := resolve g o in let* '(g, s) := resolve g s in Ok (g, (s, o, p))
  end.

Definition link_triple (ord : Order) (g : RdfGraph) (s p o : Node) : res (RdfGraph * Z) :=
  let* '(g, (si, oi, pi)) := resolve3 ord g s o p in
  let* '(pg, rel) := pg_addRelationship (pgraph g) si oi pi in
  Ok (set_pgraph g pg, rel).

(** The bits of a degree become the payload of the relationship. *)
Definition setTruth (g : RdfGraph) (relId bits : Z) : res RdfGraph :=
  let* r := rel (graph_ (pgraph g)) relId in
  Ok (set_pgraph g (set_relPayload (pgraph g) relId r (i32 bits))).

Definition isIri (n : Node) : bool := match n with NodeIRI _ => true | _ => false end.
Definition isLit (n : Node) : bool := match n with NodeLiteral _ => true | _ => false end.

Definition addTriple (ord : Order) (g : RdfGraph) (s p o : Node) (truth : Z) : res RdfGraph :=
  let* _ := assert_ (isIri p) in
  let* _ := assert_ (negb (isLit s)) in
  let* '(g, rel) := link_triple ord g s p o in
  setTruth g rel (if fuzzy g then truth else one_bits).

(** ** Reading literals back *)

(** The arguments of rdf4cpp's [make_typed] and [make_lang_tagged]. *)
Inductive LiteralText := Typed (lex datatype : string) | LangTagged (lex lang : string).

(** [printf]'s "%.17g" of a double: seventeen significant digits of its exact
    value, ties to even, without trailing zeros. *)
Definition scaled (m e x : Z) : Z :=
  let a := m * (if 0 <=? e then 2 ^ e else 1) * (if 0 <=? 16 - x then 10 ^ (16 - x) else 1) in
  let b := (if 0 <=? e then 1 else 2 ^ (- e)) * (if 0 <=? 16 - x then 1 else 10 ^ (x - 16)) in
  round_div a b.
Definition digits17 (m e : Z) : Z * Z :=
  let x := (e + Z.log2 m) * 30103 / 100000 in
  let fix try (n : nat) (x : Z) : Z * Z :=
    let d := scaled m e x in
    match n with
    | O => (d, x)
    | S n => if 10 ^ 17 <=? d then try n (x + 1) else if d <? 10 ^ 16 then try n (x - 1) else (d, x)
    end in
  try 3%nat x.
Fixpoint strip_zeros (n : nat) (d : Z) : Z * nat :=
  match n with
  | O => (d, O)
  | S n' => if d mod 10 =? 0 then strip_zeros n' (d / 10) else (d, n)
  end.
(** [d] has [1 + n] digits: the point after the first. *)
Definition point_after_first (d : Z) (n : nat) : string :=
  pretty (d / 10 ^ Z.of_nat n) +:+ match n with O => "" | _ => "." +:+ pad_left n (pretty (d mod 10 ^ Z.of_nat n)) end.
Definition print_g17 (bits : Z) : string :=
  let neg := Z.testbit bits 63 in
  let ex := Z.land (Z.shiftr bits 52) 2047 in
  let frac := Z.land bits (2 ^ 52 - 1) in
  (if neg then "-" else "") +:+
  (if ex =? 2047 then (if frac =? 0 then "inf" else "nan")
   else if (ex =? 0) && (frac =? 0) then "0"
   else
     let '(d, x) := if ex =? 0 then digits17 frac (-1074) else digits17 (2 ^ 52 + frac) (ex - 1075) in
     let '(d, n) := strip_zeros 16 d in
     if (x <? -4) || (17 <=? x) then
       point_after_first d n +:+ "e" +:+ (if x <? 0 then "-" else "+") +:+ pad_left 2 (pretty (Z.abs x))
     else if x <? 0 then "0." +:+ pad_left (Z.to_nat (- x) + n)%nat (pretty d)
     else if Z.of_nat n <=? x then pretty (d * 10 ^ (x - Z.of_nat n))
     else let k := Z.of_nat n - x in pretty (d / 10 ^ k) +:+ "." +:+ pad_left (Z.to_nat k) (pretty (d mod 10 ^ k))).

(** rdf4cpp's lexical forms of dates. *)
Context (date_lex : Z * Z * Z * option Z → string) (dateTime_lex : Z * option Z → string).

Definition getLiteral (g : RdfGraph) (id : Z) : res LiteralText :=
  let pg := pgraph g in
  let* n := node (graph_ pg) id in
  let* _ := assert_ (0 <=? n_payload n) in
  let* p := pg_prop pg (n_payload n) in
  let* datatype := getIri g (i32 (p_key p)) in
  let idx := i32 (p_value p) in
  if isInlined datatype then let* lex := toLexicalForm (p_value p) datatype in Ok (Typed lex datatype)
  else
    match kindOf datatype with
    | Some KInt64 => let* z := get_i64_at (propData_ pg) idx in Ok (Typed (pretty z) datatype)
    | Some KUInt64 => let* z := get_ui64_at (propData_ pg) idx in Ok (Typed (pretty z) datatype)
    | Some KDouble => let* z := get_double_at (propData_ pg) idx in Ok (Typed (print_g17 z) datatype)
    | Some KDate => let* z := get_i64_at (propData_ pg) idx in Ok (Typed (date_lex (unpackDate z)) datatype)
    | Some KDateTime => let* z := get_i64_at (propData_ pg) idx in Ok (Typed (dateTime_lex (unpackDateTime z)) datatype)
    | None =>
        let* raw := read_blob (propData_ pg) String_code idx in
        let* langLen := load raw 0 in
        let k := Z.to_nat (byte_val langLen) in
        let lang := String.string_of_list_byte (take k (drop 1 raw)) in
        let lex := String.string_of_list_byte (drop (1 + k) raw) in
        if negb (String.eqb lang "") then Ok (LangTagged lex lang) else Ok (Typed lex datatype)
    end.

(** ** Loading *)

(** Parsers of rdf4cpp: the triples a file, or a text, yields; an error is
    [None]. *)
Context (Turtle : Z) (RDFFileParser : Fs → string → Z → list (option (Node * Node * Node)))
  (IStreamQuadIterator : list ascii → Z → list (option (Node * Node * Node))) (ord : Order).

Fixpoint add_parsed (g : RdfGraph) (quads : list (option (Node * Node * Node))) : res RdfGraph :=
  match quads with
  | Some (s, p, o) :: quads => let* g := addTriple ord g s p o one_bits in add_parsed g quads
  | _ => Ok g
  end.

Fixpoint add_fuzzy (g : RdfGraph) (quads : list (option (Node * Node * Node))) (degrees : list Z) : res RdfGraph :=
  match quads, degrees with
  | None :: _, _ => Fault (Thrown "syntax error")
  | Some (s, p, o) :: quads, d :: degrees => let* g := addTriple ord g s p o d in add_fuzzy g quads degrees
  | [], [] => Ok g
  | _, _ => Fault (Thrown "parsed triple count does not match the truth degree annotations")
  end.

Definition fuzzyPath (g : RdfGraph) : string :=
  rg_dbDir g +:+ sourceFileName g +:+ formatExtension Turtle FFUZZY_TURTLE.

Definition loadFuzzyTriples (fs : Fs) (g : RdfGraph) : res RdfGraph :=
  let path := fuzzyPath g in
  match fs_files fs !! path with
  | None => Fault (Thrown "cannot open fuzzy turtle file")
  | Some (content, _) =>
      if bool_decide (path ∈ fs_denied fs) then Fault (Thrown "cannot open fuzzy turtle file")
      else
        let* '(turtle, degrees) := loadFuzzyTTL (String.list_ascii_of_string (String.string_of_list_byte content)) in
        add_fuzzy g (IStreamQuadIterator turtle (rdfParseFlags g)) degrees
  end.

Definition loadTriples (fs : Fs) (g : RdfGraph) : res RdfGraph :=
  if negb (loadedFromRdfFile g) then Ok g
  else if fuzzy g then loadFuzzyTriples fs g
  else add_parsed g (RDFFileParser fs (rg_dbDir g +:+ sourceFileName g +:+ flagExtension Turtle (rdfParseFlags g)) (rdfParseFlags g)).

Fixpoint rebuild_from (g : RdfGraph) (id : Z) (nodes : list NodeId) : res RdfGraph :=
  match nodes with
  | [] => Ok g
  | n :: nodes =>
      if negb (bool_decide (ni_type n = NtLiteral)) then rebuild_from g (id + 1) nodes
      else
        let* e := node (graph_ (pgraph g)) id in
        if n_payload e <? 0 then rebuild_from g (id + 1) nodes
        else let* key := literalKeyFor g id in rebuild_from (addLiteralNode g key id) (id + 1) nodes
  end.
Definition rebuildLiteralNodeCache (g : RdfGraph) : res RdfGraph := rebuild_from g 0 (id_to_node (rg_nodes g)).

Definition sourcePath (g : RdfGraph) : string := rg_dbDir g +:+ sourceFileName g +:+ flagExtension Turtle (rdfParseFlags g).

(** [ensureLoaded]; the call-backs it installs afterwards are [node_name],
    [node_type], [node_from_iri] and [node_from_rdf_literal] below; the string
    forms of IRIs and literals are rdf4cpp's. *)
Definition rdf_ensureLoaded (fs : Fs) (g : RdfGraph) : res RdfGraph :=
  if rg_loaded g then Ok g
  else
    let g := set_loaded g in
    let fresh := hasFreshCache fs (rg_storage g) (sourcePath g) in
    let* g :=
      if loadedFromRdfFile g && negb fresh then
        let pg := pgraph g in
        let s := setDBDir (gdb_create (rg_fileName g) (pg_nodeCap_ pg) (pg_relCap_ pg) (propCap_ pg)) (rg_dbDir g) in
        loadTriples fs (set_literals (set_dict (set_storage g s) newDict) ∅)
      else Ok g in
    let* s := gdb_ensureLoaded fs (rg_storage g) in
    let g := set_storage g s in
    if loadedFromRdfFile g && fresh then rebuildLiteralNodeCache g else Ok g.

Definition node_name (iri_string : string → string) (literal_string : LiteralText → string) (g : RdfGraph) (id : Z) : res string :=
  let* n := getNodeId g id in
  match ni_type n with
  | NtIRI => Ok (iri_string (default "" (ni_iri n)))
  | NtBNode => Ok ("_:" +:+ ni_localId n)
  | NtLiteral => let* l := getLiteral g id in Ok (literal_string l)
  | NtVariable => Ok ""
  end.
Definition node_type (g : RdfGraph) (id : Z) : res RDFNodeType := let* n := getNodeId g id in Ok (ni_type n).
Definition node_from_iri (g : RdfGraph) (iri : string) : Z := get_safe (rg_nodes g) (NodeIRI iri).
Definition node_from_rdf_literal (g : RdfGraph) (datatype : string) (data : bytes) : Z :=
  let dt := get_safe (rg_nodes g) (NodeIRI datatype) in
  if dt <? 0 then -1 else default (-1) (literalNodes g !! (data, dt)).

Definition rdf_flush (fs : Fs) (g : RdfGraph) : res Fs := gdb_flush fs (rg_storage g).
Definition rdf_setPersist (fs : Fs) (g : RdfGraph) (persist : bool) : res (Fs * RdfGraph) :=
  let g := mkRdf (rg_iri g) (rg_storage g) (rg_nodes g) (literalNodes g) persist (rg_fileName g) (sourceFileName g) (rg_dbDir g)
    (loadedFromRdfFile g) (rdfParseFlags g) (fuzzy g) (rg_loaded g) in
  if persist then let* fs := rdf_flush fs g in Ok (fs, g) else Ok (fs, g).
End graph.

(** ** Catalog entry *)

Definition gdb_serialize (g : GengoDBGraph) : bytes :=
  writeProperty 1 wr_string (fileName_ g) ++ writeProperty 2 wr_int (pg_nodeCap_ (storage_ g)) ++
  writeProperty 3 wr_int (pg_relCap_ (storage_ g)) ++ writeProperty 4 wr_int (propCap_ (storage_ g)).
Definition gdb_deserialize : reader GengoDBGraph := λ bs,
  let* '(fileName, bs) := readProperty 1 rd_string bs in
  let* '(nodeCapacity, bs) := readProperty 2 rd_int bs in
  let* '(relCapacity, bs) := readProperty 3 rd_int bs in
  let* '(propCapacity, bs) := readProperty 4 rd_int bs in
  Ok (gdb_create fileName nodeCapacity relCapacity propCapacity, bs).

Section catalog.
Context (Turtle : Z) (code : RDFNodeType → Z) (decode : Z → option RDFNodeType).

Definition rdf_serialize (g : RdfGraph) : bytes :=
  writeProperty 1 wr_string (rg_iri g) ++
  writeProperty 2 (wr_option (wr_object gdb_serialize)) (Some (rg_storage g)) ++
  writeProperty 3 wr_string (rg_fileName g) ++
  writeProperty 4 (wr_option (wr_object (dict_serialize code))) (Some (rg_nodes g)) ++
  writeProperty 5 wr_string (sourceFileName g).
(** A null pointer, which is never written, would be dereferenced later. *)
Definition rdf_deserialize : reader RdfGraph := λ bs,
  let* '(iri, bs) := readProperty 1 rd_string bs in
  let* '(storage, bs) := readProperty 2 (rd_option (rd_object gdb_deserialize)) bs in
  let* '(fileName, bs) := readProperty 3 rd_string bs in
  let* '(nodes, bs) := readProperty 4 (rd_option (rd_object (dict_deserialize decode))) bs in
  let* '(source, bs) := readProperty 5 rd_string bs in
  match storage, nodes with
  | Some storage, Some nodes => Ok (set_dict (newRdfGraph Turtle iri storage fileName source) nodes, bs)
  | _, _ => Fault BadAccess
  end.
End catalog.
