(* ===== verification/RdfGraphInv.v ===== *)
(** * RDF graphs: the invariant

    Dictionary ids and storage ids coincide, every literal node carries its key
    in the storage, and the literal cache is exactly the inverse of the stored
    keys. *)

From S2P Require Import Prelude Bytes Dll Graph GraphSpec GraphLink GraphRefine PropData PropDataProofs PropertyGraph.
From S2P Require Import PropStore PropGraphRefine Datatypes GraphFile GraphDataOps Serialization RdfTypes Identifiers IdentifiersProps.
From S2P Require Import IndexProps FuzzyTurtle RdfGraph.
From Stdlib Require Import Strings.Byte.
#[local] Open Scope Z_scope.
#[local] Open Scope list_scope.

(** ** Extensions: what later steps may change *)

(** The stored values stay readable. *)
Record data_ext (d d' : PropertyData) : Prop := {
  de_i64 : lst_i64_ d `prefix_of` lst_i64_ d';
  de_ui64 : lst_ui64_ d `prefix_of` lst_ui64_ d';
  de_double : lst_double_ d `prefix_of` lst_double_ d';
  de_blob : ∀ t i, is_ok (read_blob d t i) → read_blob d' t i = read_blob d t i;
}.

Lemma data_ext_refl d : data_ext d d.
Proof. by split. Qed.
Lemma data_ext_trans d1 d2 d3 : data_ext d1 d2 → data_ext d2 d3 → data_ext d1 d3.
Proof.
  intros [? ? ? H1] [? ? ? H2]. split; [by etrans..|]. intros t i Hi. rewrite H2; [by apply H1|]. by rewrite H1.
Qed.

Lemma load_prefix {A} (l l' : list A) i x : l `prefix_of` l' → load l i = Ok x → load l' i = Ok x.
Proof. intros [k ->] H%load_ok. apply load_Some. pose proof (zget_lt _ _ _ H). by rewrite zget_app_l by lia. Qed.

Record ext (g g' : RdfGraph) : Prop := {
  ex_dict : id_to_node (rg_nodes g) `prefix_of` id_to_node (rg_nodes g');
  ex_mark : nodeMark_ (graph_ (pgraph g)) ≤ nodeMark_ (graph_ (pgraph g'));
  ex_payload : ∀ i e, 0 ≤ i < nodeMark_ (graph_ (pgraph g)) → zget (nodes_ (graph_ (pgraph g))) i = Some e →
    0 ≤ n_payload e → ∃ e', zget (nodes_ (graph_ (pgraph g'))) i = Some e' ∧ n_payload e' = n_payload e;
  ex_pmark : propMark_ (pgraph g) ≤ propMark_ (pgraph g');
  ex_props : ∀ i, i < propMark_ (pgraph g) → zget (props_ (pgraph g')) i = zget (props_ (pgraph g)) i;
  ex_data : data_ext (propData_ (pgraph g)) (propData_ (pgraph g'));
  ex_pcap : propCap_ (pgraph g') = propCap_ (pgraph g);
}.

Lemma ext_refl g : ext g g.
Proof. split; try done; eauto using data_ext_refl. Qed.

Lemma ext_trans g1 g2 g3 : ext g1 g2 → ext g2 g3 → ext g1 g3.
Proof.
  intros [A1 B1 C1 D1 E1 F1 P1] [A2 B2 C2 D2 E2 F2 P2]. split; [by etrans|lia| |lia| |by eapply data_ext_trans|congruence].
  - intros i e Hi He Hp. destruct (C1 i e Hi He Hp) as (e1 & He1 & Hp1).
    destruct (C2 i e1 ltac:(lia) He1 ltac:(lia)) as (e2 & He2 & Hp2). exists e2. split; [done|congruence].
  - intros i Hi. rewrite E2 by lia. by apply E1.
Qed.

Lemma ext_node g g' i n : ext g g' → zget (id_to_node (rg_nodes g)) i = Some n → zget (id_to_node (rg_nodes g')) i = Some n.
Proof. intros [[l Hl] _ _ _ _ _ _] Hi. rewrite Hl. pose proof (zget_lt _ _ _ Hi). by rewrite zget_app_l by lia. Qed.

(** ** Keys survive extensions *)

Section inv.
Context (z : RDFNodeType).
#[local] Abbreviation literalKeyFor := (literalKeyFor z).

Lemma node_accessor (g : Graph Z Z) i e : node g i = Ok e ↔ 0 ≤ i < nodeMark_ g ∧ zget (nodes_ g) i = Some e.
Proof.
  unfold node. destruct (Z.leb_spec 0 i), (Z.ltb_spec i (nodeMark_ g)); simpl; rewrite ?load_ok; naive_solver lia.
Qed.
Lemma prop_accessor pg i p : pg_prop pg i = Ok p ↔ 0 ≤ i < propMark_ pg ∧ zget (props_ pg) i = Some p.
Proof.
  unfold pg_prop. destruct (Z.leb_spec 0 i), (Z.ltb_spec i (propMark_ pg)); simpl; rewrite ?load_ok; naive_solver lia.
Qed.

(** A key whose datatype is a stored node. *)
Definition has_key (g : RdfGraph) (id : Z) (k : bytes * Z) : Prop :=
  literalKeyFor g id = Ok k ∧ 0 ≤ snd k < dict_size (rg_nodes g).

Lemma getIri_ext g g' id : ext g g' → small (rg_nodes g') → 0 ≤ id < dict_size (rg_nodes g) → getIri z g' id = getIri z g id.
Proof.
  intros He Hs Hid. destruct (proj2 (zget_is_Some (id_to_node (rg_nodes g)) id) Hid) as [n Hn].
  assert (small (rg_nodes g)) as Hs0.
  { destruct He as [[l Hl] _ _ _ _ _ _]. unfold small, dict_size in *. rewrite Hl, length_app in Hs. lia. }
  unfold getIri, getNodeId. rewrite (dict_get_stored z (rg_nodes g) id n), (dict_get_stored z (rg_nodes g') id n); [done| |done..].
  by eapply ext_node.
Qed.

Lemma has_key_ext g g' id k : ext g g' → small (rg_nodes g') → has_key g id k → has_key g' id k.
Proof.
  intros He Hs [Hk Hr]. pose proof He as [[l Hl] Hm Hp Hpm Hpr [D1 D2 D3 D4] _]. split.
  2:{ unfold dict_size in *. rewrite Hl, length_app. lia. }
  unfold literalKeyFor, RdfGraph.literalKeyFor in *.
  apply res_bind_ok in Hk as (e & Hn & Hk). apply node_accessor in Hn as [Hi Hn].
  apply res_bind_ok in Hk as (u & Hu & Hk). unfold assert_ in Hu. destruct (Z.leb_spec 0 (n_payload e)); [|done].
  apply res_bind_ok in Hk as (p & Hpp & Hk). apply prop_accessor in Hpp as [Hpi Hpp].
  apply res_bind_ok in Hk as (dt & Hdt & Hk). apply res_bind_ok in Hk as (data & Hdata & Hk). injection Hk as <-. simpl in Hr.
  destruct (Hp _ _ Hi Hn ltac:(lia)) as (e' & Hn' & Hpe').
  rewrite (proj2 (node_accessor _ id e')) by (split; [lia|done]). cbn [res_bind]. rewrite Hpe'.
  destruct (Z.leb_spec 0 (n_payload e)); [|lia]. cbn [assert_ res_bind].
  rewrite (proj2 (prop_accessor _ (n_payload e) p)) by (split; [lia|by rewrite Hpr by lia]). cbn [res_bind].
  rewrite (getIri_ext g g') by done. rewrite Hdt. cbn [res_bind].
  assert (∀ r' : res bytes, r' = Ok data → (let* data := r' in Ok (data, i32 (p_key p))) = Ok (data, i32 (p_key p))) as Hfin by (by intros r' ->).
  apply Hfin. clear Hfin. destruct (isInlined dt); [done|]. unfold get_i64_at, get_ui64_at, get_double_at in *.
  destruct (kindOf dt) as [[]|]; try (apply res_bind_ok in Hdata as (v & Hv & Hdata); by erewrite load_prefix by done).
  rewrite D4; [done|]. by exists data.
Qed.

(** ** The invariant *)

Definition literal_node : NodeId := mkNodeId NtLiteral None "".
Definition iri_node (s : string) : NodeId := mkNodeId NtIRI (Some s) "".

Record RdfInv (g : RdfGraph) (s : SpecGraph Z Z) : Prop := {
  ri_rep : Rep (graph_ (pgraph g)) s;
  ri_dict : dict_wf (rg_nodes g);
  ri_mark : nodeMark_ (graph_ (pgraph g)) = dict_size (rg_nodes g);
  ri_free : freeNodes_ (graph_ (pgraph g)) = [];
  ri_cap : nodeCap_ (graph_ (pgraph g)) < 2 ^ 31;
  ri_plen : Z.of_nat (length (props_ (pgraph g))) = propCap_ (pgraph g);
  ri_pmark : 0 ≤ propMark_ (pgraph g) ≤ propCap_ (pgraph g) ∧ propCap_ (pgraph g) < 2 ^ 31;
  ri_pfree : freeProps_ (pgraph g) = [];
  ri_pd : pd_wf (propData_ (pgraph g));
  ri_lists : Z.of_nat (length (lst_i64_ (propData_ (pgraph g)))) ≤ propMark_ (pgraph g) ∧
    Z.of_nat (length (lst_ui64_ (propData_ (pgraph g)))) ≤ propMark_ (pgraph g) ∧
    Z.of_nat (length (lst_double_ (propData_ (pgraph g)))) ≤ propMark_ (pgraph g);
  ri_payload : ∀ i e, 0 ≤ i < nodeMark_ (graph_ (pgraph g)) → zget (nodes_ (graph_ (pgraph g))) i = Some e →
    0 ≤ n_payload e → zget (id_to_node (rg_nodes g)) i = Some literal_node;
  ri_cache : ∀ k id, literalNodes g !! k = Some id ↔
    zget (id_to_node (rg_nodes g)) id = Some literal_node ∧ has_key g id k;
  ri_keys : ∀ id, zget (id_to_node (rg_nodes g)) id = Some literal_node →
    ∃ data dt iri, has_key g id (data, dt) ∧ zget (id_to_node (rg_nodes g)) dt = Some (iri_node iri);
  ri_unique : ∀ i j n, zget (id_to_node (rg_nodes g)) i = Some n → zget (id_to_node (rg_nodes g)) j = Some n →
    n ≠ literal_node → i = j;
}.

(** Appending a node that is new, or a literal, keeps the others unique. *)
Lemma unique_app (l : list NodeId) n :
  (∀ i j m, zget l i = Some m → zget l j = Some m → m ≠ literal_node → i = j) → n = literal_node ∨ n ∉ l →
  ∀ i j m, zget (l ++ [n]) i = Some m → zget (l ++ [n]) j = Some m → m ≠ literal_node → i = j.
Proof.
  intros Hu Hn i j m Hi Hj Hm.
  assert (∀ k, zget (l ++ [n]) k = Some m → (k = Z.of_nat (length l) ∧ m = n) ∨ (zget l k = Some m ∧ m ∈ l)) as Hcase.
  { intros k Hk. pose proof (zget_lt _ _ _ Hk) as Hr. rewrite length_app in Hr. simpl in Hr.
    destruct (decide (k = Z.of_nat (length l))) as [->|]; [left; rewrite zget_app_end in Hk; naive_solver|right].
    rewrite zget_app_l in Hk by lia. split; [done|]. unfold zget in Hk. destruct (0 <=? k); [|done]. by eapply list_elem_of_lookup_2. }
  destruct (Hcase i Hi) as [[-> ->]|[Hi' Hin]], (Hcase j Hj) as [[-> Ej]|[Hj' Hjn]]; [done| | |by eapply Hu].
  - destruct Hn; [done|]. done.
  - subst. destruct Hn; [done|]. done.
Qed.

Lemma ri_small g s : RdfInv g s → small (rg_nodes g).
Proof.
  intros H. unfold small. rewrite <- (ri_mark _ _ H). pose proof (ri_cap _ _ H).
  destruct (lay_npool _ (rep_layout _ _ (ri_rep _ _ H))) as [Hb _ _ _]. lia.
Qed.

Lemma ri_live g s i : RdfInv g s → 0 ≤ i < dict_size (rg_nodes g) → is_Some (sg_nodes s !! i).
Proof.
  intros H Hi. pose proof (ri_rep _ _ H) as HR. destruct (rep_layout _ _ HR) as [_ _ Hp _].
  rewrite <- (fmap_is_Some sn_payload), (rep_nodes _ _ HR). rewrite <- (ri_mark _ _ H) in Hi.
  destruct (abs_node (graph_ (pgraph g)) i) eqn:Ha; [done|]. pose proof (pool_free_elem _ _ _ _ Hp i) as Hf.
  rewrite (ri_free _ _ H), Ha in Hf. assert (i ∈ []) by (apply Hf; split; [done|by intros [? ?]]). set_solver.
Qed.
End inv.

(** ** Adding a storage node *)

Record grown (g g' : Graph Z Z) : Prop := {
  gr_mark : nodeMark_ g' = nodeMark_ g + 1;
  gr_cap : nodeCap_ g' = nodeCap_ g;
  gr_free : freeNodes_ g' = [];
  gr_rels : rels_ g' = rels_ g ∧ relMark_ g' = relMark_ g ∧ relCap_ g' = relCap_ g ∧ freeRels_ g' = freeRels_ g;
  gr_old : ∀ i, i ≠ nodeMark_ g → zget (nodes_ g') i = zget (nodes_ g) i;
  gr_new : ∃ e, zget (nodes_ g') (nodeMark_ g) = Some e ∧ n_payload e = GRAPH_NONE;
}.

Lemma pg_addNode_exec pg s :
  Rep (graph_ pg) s → freeNodes_ (graph_ pg) = [] → nodeMark_ (graph_ pg) < nodeCap_ (graph_ pg) →
  ∃ g', pg_addNode pg = Ok (set_graph pg g', nodeMark_ (graph_ pg)) ∧
    Rep g' (spec_addNode s (nodeMark_ (graph_ pg)) GRAPH_NONE) ∧ grown (graph_ pg) g'.
Proof.
  intros HR Hf Hm. set (g := graph_ pg) in *.
  destruct (addNode_rep g s GRAPH_NONE HR) as (g1 & id & Ha & Hnew & Hid & HR1); [by right|].
  pose proof (rep_layout _ _ HR) as [Hl _ Hp _]. pose proof (pool_mark _ _ _ _ Hp).
  destruct (proj2 (zget_is_Some (nodes_ g) (nodeMark_ g))) as [e0 He0]; [lia|].
  pose proof Ha as Hex. unfold addNode, allocNode in Hex. rewrite Hf in Hex.
  rewrite (proj2 (Z.ltb_lt _ _) Hm) in Hex. cbn [assert_ res_bind] in Hex. simpl in Hex.
  rewrite (load_Some _ _ _ He0) in Hex. cbn [res_bind] in Hex. injection Hex as Hg1 Hidm. subst id.
  unfold pg_addNode. fold g. rewrite Ha. cbn [res_bind].
  destruct (node_ok g1 _ (nodeMark_ g) (mkSNode GRAPH_NONE []) HR1) as (e & Hn & He & Hu & Hpay & _); [apply lookup_insert_eq|].
  rewrite Hn. cbn [res_bind].
  assert (set_nodes g1 (zset (nodes_ g1) (nodeMark_ g) (set_n_inUse e true)) = g1) as ->.
  { assert (set_n_inUse e true = e) as -> by (destruct e; simpl in *; by subst). rewrite zset_id by done. by destruct g1. }
  exists g1. split; [done|]. split; [done|]. split; [by rewrite <- Hg1..| | |by exists e].
  - by rewrite <- Hg1.
  - intros i Hi. rewrite <- Hg1. simpl. by rewrite zget_zset_ne by congruence.
Qed.

(** ** Resolving nodes *)

Section steps.
Context (z : RDFNodeType).

(** Old literal nodes keep exactly their key. *)
Lemma key_stable g s g' id k :
  RdfInv z g s → ext g g' → small (rg_nodes g') → zget (id_to_node (rg_nodes g)) id = Some literal_node →
  has_key z g' id k ↔ has_key z g id k.
Proof.
  intros HI He Hs Hid. split; [|by apply has_key_ext]. intros Hk'.
  destruct (ri_keys _ _ _ HI id Hid) as (data & dt & iri & Hk & _).
  pose proof (has_key_ext _ _ _ _ _ He Hs Hk) as [E1 _]. destruct Hk' as [E2 _]. congruence.
Qed.

(** Adding a node that is no literal to both sides. *)
Lemma grow_inv g s g1 d n :
  RdfInv z g s → dict_wf d → id_to_node d = id_to_node (rg_nodes g) ++ [n] → n ≠ literal_node → n ∉ id_to_node (rg_nodes g) →
  grown (graph_ (pgraph g)) g1 → nodeMark_ (graph_ (pgraph g)) < nodeCap_ (graph_ (pgraph g)) →
  Rep g1 (spec_addNode s (nodeMark_ (graph_ (pgraph g))) GRAPH_NONE) →
  let g' := set_pgraph (set_dict g d) (set_graph (pgraph g) g1) in
  ext g g' ∧ RdfInv z g' (spec_addNode s (nodeMark_ (graph_ (pgraph g))) GRAPH_NONE).
Proof.
  intros HI Hd Hnodes Hn Hnin [G1 G2 G3 G4 G5 G6] Hroom HR g'.
  assert (ext g g') as He.
  { split; simpl; [rewrite Hnodes; by eexists|lia| |done|done|apply data_ext_refl|done].
    intros i e Hi Hz Hp. exists e. rewrite G5 by lia. done. }
  assert (dict_size d = dict_size (rg_nodes g) + 1) as Hsz by (unfold dict_size; rewrite Hnodes, length_app; simpl; lia).
  pose proof (ri_cap _ _ _ HI). pose proof (ri_mark _ _ _ HI) as Hmark.
  assert (small (rg_nodes g')) as Hs by (unfold small; simpl; lia).
  assert (∀ id, zget (id_to_node d) id = Some literal_node → zget (id_to_node (rg_nodes g)) id = Some literal_node) as Hold.
  { intros id Hid. rewrite Hnodes in Hid. pose proof (zget_lt _ _ _ Hid) as Hr. rewrite length_app in Hr. simpl in Hr.
    destruct (decide (id = Z.of_nat (length (id_to_node (rg_nodes g))))) as [->|]; [rewrite zget_app_end in Hid; by injection Hid|].
    by rewrite zget_app_l in Hid by lia. }
  split; [done|]. destruct HI as [? ? ? ? ? ? ? ? ? ? Hpay Hcache Hkeys Huniq]. split; simpl; try done; try lia.
  - intros i e Hi Hz Hp. destruct (decide (i = nodeMark_ (graph_ (pgraph g)))) as [->|Hne].
    + destruct G6 as (e' & He' & Hp'). rewrite He' in Hz. injection Hz as ->. unfold GRAPH_NONE in *. lia.
    + rewrite G5 in Hz by done. apply (ext_node g g' i); [done|]. by apply (Hpay i e); [lia| |].
  - intros k id. rewrite Hcache. split; intros [Hid Hk].
    + split; [by apply (ext_node g g' id)|]. by apply (has_key_ext z g).
    + pose proof (Hold _ Hid) as Hid'. split; [done|].
      destruct (Hkeys id Hid') as (data & dt & iri & Hk0 & _). pose proof (has_key_ext _ _ _ _ _ He Hs Hk0) as [E1 _].
      destruct Hk as [E2 _]. congruence.
  - intros id Hid%Hold. destruct (Hkeys id Hid) as (data & dt & iri & Hk & Hdt). exists data, dt, iri. split.
    + by apply (has_key_ext z g).
    + by apply (ext_node g g' dt).
  - rewrite Hnodes. apply unique_app; [done|by right].
Qed.

Definition named (n : Node) : Prop := isLit n = false.

Lemma named_not_literal n : named n → node_id n ≠ literal_node.
Proof. by destruct n. Qed.

Lemma resolve_named_ok g s n :
  RdfInv z g s → named n → node_id n ∈ id_to_node (rg_nodes g) ∨ dict_size (rg_nodes g) < nodeCap_ (graph_ (pgraph g)) →
  ∃ g' s' id, resolve_named g n = Ok (g', id) ∧ RdfInv z g' s' ∧ ext g g' ∧
    zget (id_to_node (rg_nodes g')) id = Some (node_id n) ∧ sg_rels s' = sg_rels s ∧
    dict_size (rg_nodes g') ≤ dict_size (rg_nodes g) + 1 ∧
    literalNodes g' = literalNodes g ∧ propMark_ (pgraph g') = propMark_ (pgraph g) ∧
    propData_ (pgraph g') = propData_ (pgraph g) ∧ propCap_ (pgraph g') = propCap_ (pgraph g) ∧
    nodeCap_ (graph_ (pgraph g')) = nodeCap_ (graph_ (pgraph g)) ∧
    (rel_room (graph_ (pgraph g)) → rel_room (graph_ (pgraph g'))) ∧ fuzzy g' = fuzzy g.
Proof.
  intros HI Hn Hroom. unfold resolve_named. destruct (get_or_insert (rg_nodes g) n) as [d id] eqn:Hg.
  pose proof (ri_mark _ _ _ HI) as Hmark. pose proof (ri_cap _ _ _ HI) as Hcap.
  pose proof (pool_mark _ _ _ _ (lay_npool _ (rep_layout _ _ (ri_rep _ _ _ HI)))) as Hpm.
  assert (node_to_id (rg_nodes g) !! node_id n = None → node_id n ∉ id_to_node (rg_nodes g)) as Hmiss.
  { intros Hl [k Hk]%first_at_exists. apply dict_lookup in Hk; [congruence|apply HI|by eapply ri_small]. }
  destruct (decide (node_id n ∈ id_to_node (rg_nodes g))) as [Hin|Hin].
  - pose proof (get_or_insert_spec (rg_nodes g) n d id (ri_dict _ _ _ HI) ltac:(lia) Hg) as (_ & Hf & _ & Hsame & _).
    specialize (Hsame Hin). subst d. replace (set_dict g (rg_nodes g)) with g by (by destruct g).
    unfold ensureNode. unfold u64. rewrite wrap_u_id by (unfold in_u; lia). rewrite Hmark, Z.ltb_irrefl. cbn [res_bind].
    exists g, s, id. split_and!; try done; [apply ext_refl|apply Hf|lia].
  - destruct Hroom as [|Hroom]; [done|].
    pose proof (get_or_insert_spec (rg_nodes g) n d id (ri_dict _ _ _ HI) ltac:(lia) Hg) as (Hwf & Hf & _ & _ & Hfresh).
    destruct (Hfresh Hin) as [Hid Hd].
    unfold ensureNode. change (pgraph (set_dict g d)) with (pgraph g). change (rg_nodes (set_dict g d)) with d.
    assert (dict_size d = dict_size (rg_nodes g) + 1) as Hsz by (unfold dict_size; rewrite Hd, length_app; simpl; lia).
    unfold u64. rewrite wrap_u_id by (unfold in_u; lia). rewrite (proj2 (Z.ltb_lt _ _)) by lia.
    destruct (pg_addNode_exec (pgraph g) s (ri_rep _ _ _ HI) (ri_free _ _ _ HI) ltac:(lia)) as (g1 & Ha & HR1 & Hgr).
    rewrite Ha. cbn [res_bind].
    destruct (grow_inv g s g1 d (node_id n) HI Hwf Hd (named_not_literal n Hn) Hin Hgr ltac:(lia) HR1) as [He HI'].
    eexists _, _, id. split; [done|]. split; [exact HI'|]. split; [exact He|].
    destruct Hgr as [G1 G2 G3 (R1 & R2 & R3 & R4) G5 G6].
    split_and!; simpl; try done; [apply Hf|lia|]. unfold rel_room. by rewrite R2, R3, R4.
Qed.

(** ** Storing literal values *)

(** [x] is the property value under which [d] holds [v]. *)
Definition stored (d : PropertyData) (v : LiteralValue) (x : Z) : Prop :=
  match v with
  | LvInline b => x = b
  | LvInt64 n => get_i64_at d (i32 x) = Ok n
  | LvUInt64 n => get_ui64_at d (i32 x) = Ok n
  | LvDouble n => get_double_at d (i32 x) = Ok n
  | LvText data => read_blob d String_code (i32 x) = Ok data
  end.

Definition lists_below (d : PropertyData) (n : Z) : Prop :=
  Z.of_nat (length (lst_i64_ d)) ≤ n ∧ Z.of_nat (length (lst_ui64_ d)) ≤ n ∧ Z.of_nat (length (lst_double_ d)) ≤ n.

Lemma add_blob_index d t len d1 off idx : add_blob d t len = Ok (d1, (off, idx)) →
  0 ≤ idx < 2 ^ 31 ∧ lst_i64_ d1 = lst_i64_ d ∧ lst_ui64_ d1 = lst_ui64_ d ∧ lst_double_ d1 = lst_double_ d.
Proof.
  intros H. unfold add_blob in H. apply res_bind_ok in H as (b & _ & H). apply res_bind_ok in H as ([b' r] & Hb & H).
  injection H as <- ->. unfold bt_alloc in Hb. apply res_bind_ok in Hb as (u1 & _ & Hb). apply res_bind_ok in Hb as (u2 & Hu & Hb).
  injection Hb as _ _ Hi. unfold assert_ in Hu. case_match eqn:Hle; [|done]. apply Z.leb_le in Hle.
  rewrite length_app in *. simpl in *. split; [lia|]. by destruct (tbl_find t (pd_blobs d)).
Qed.

Lemma write_blob_lists d t off bs d' : write_blob d t off bs = Ok d' →
  lst_i64_ d' = lst_i64_ d ∧ lst_ui64_ d' = lst_ui64_ d ∧ lst_double_ d' = lst_double_ d.
Proof. intros H. unfold write_blob in H. inv_ok. done. Qed.

Lemma i32_u32 x : 0 ≤ x < 2 ^ 31 → i32 (u32 (i32 x)) = x ∧ i32 (u32 x) = x ∧ i32 x = x.
Proof.
  intros Hx. unfold i32, u32. rewrite (wrap_s_id 32 x) by (unfold in_s; lia). rewrite wrap_s_u by (unfold in_s; lia). done.
Qed.

Lemma store_literal_ok d v d' x n :
  pd_wf d → lists_below d n → n < 2 ^ 31 → Z.of_nat (length (literal_data v)) < 2 ^ 63 →
  store_literal d v = Ok (d', x) →
  pd_wf d' ∧ data_ext d d' ∧ lists_below d' (n + 1) ∧ stored d' v x.
Proof.
  intros Hw [L1 [L2 L3]] Hn Hlen Hs. unfold lists_below.
  assert (∀ l : list Z, Z.of_nat (length l) ≤ n → ∀ y, load (l ++ [y]) (i32 (u32 (i32 (Z.of_nat (length l))))) = Ok y) as Hload.
  { intros l Hl y. destruct (i32_u32 (Z.of_nat (length l))) as (-> & _); [lia|]. apply load_Some, zget_app_end. }
  assert (∀ d0 : PropertyData, data_ext d d0 → blobCapacity_ d0 = blobCapacity_ d → pd_blobs d0 = pd_blobs d → pd_wf d0) as Hkeep.
  { intros d0 _ Hc Hb. destruct Hw as [? Ht]. split; [by rewrite Hc|]. by rewrite Hb. }
  destruct v as [b|y|y|y|data]; simpl in *.
  - injection Hs as <- <-. split_and!; try done; try lia; apply data_ext_refl.
  - injection Hs as <- <-. simpl. rewrite length_app. simpl. split_and!; try lia; [by destruct Hw as [? ?]| |by apply Hload].
    split; simpl; try done; by eexists.
  - injection Hs as <- <-. simpl. rewrite length_app. simpl. split_and!; try lia; [by destruct Hw as [? ?]| |by apply Hload].
    split; simpl; try done; by eexists.
  - injection Hs as <- <-. simpl. rewrite length_app. simpl. split_and!; try lia; [by destruct Hw as [? ?]| |by apply Hload].
    split; simpl; try done; by eexists.
  - apply res_bind_ok in Hs as ([d1 [off idx]] & Ha & Hs). apply res_bind_ok in Hs as (d2 & Hwr & Hs). injection Hs as <- <-.
    destruct (add_blob_index _ _ _ _ _ _ Ha) as (Hidx & A1 & A2 & A3). destruct (write_blob_lists _ _ _ _ _ Hwr) as (W1 & W2 & W3).
    destruct (append_blob d String_code data d1 off idx Hw Hlen Ha) as (d2' & Hwr' & Hw2 & Hr & Hfr).
    rewrite Hwr in Hwr'. injection Hwr' as <-. destruct (i32_u32 idx Hidx) as (_ & -> & _).
    split_and!; try done; [|rewrite W1, A1; lia|rewrite W2, A2; lia|rewrite W3, A3; lia].
    split; [by rewrite W1, A1|by rewrite W2, A2|by rewrite W3, A3|done].
Qed.

(** Reading the stored value by the datatype gives the bytes of the key. *)
Lemma stored_data l v d x :
  encode_literal l = Ok v → stored d v x →
  (if isInlined (l_datatype l) then Ok (put_u32 x)
   else match kindOf (l_datatype l) with
        | Some KInt64 | Some KDate | Some KDateTime => let* n := get_i64_at d (i32 x) in Ok (put_u64 n)
        | Some KUInt64 => let* n := get_ui64_at d (i32 x) in Ok (put_u64 n)
        | Some KDouble => let* n := get_double_at d (i32 x) in Ok (put_u64 n)
        | None => read_blob d String_code (i32 x)
        end) = Ok (literal_data v).
Proof.
  intros He Hs. unfold encode_literal in He. destruct (isInlined (l_datatype l)).
  - inv_ok. simpl in *. by subst.
  - destruct (kindOf (l_datatype l)) as [[]|]; [destruct (l_value l); try done; inv_ok; simpl in *; rewrite Hs; done..|].
    inv_ok. done.
Qed.

(** ** Attaching the one property of a literal node *)

Lemma addNodeProperty_exec pg id e k t x :
  freeProps_ pg = [] → 0 ≤ propMark_ pg < propCap_ pg → Z.of_nat (length (props_ pg)) = propCap_ pg →
  node (graph_ pg) id = Ok e → n_payload e = GRAPH_NONE →
  addNodeProperty pg id k t x =
    Ok (set_nodePayload (set_props (set_propAlloc pg (propMark_ pg + 1) [])
          (zset (props_ pg) (propMark_ pg) (mkProp GRAPH_NONE GRAPH_NONE k t x true))) id e (propMark_ pg), propMark_ pg).
Proof.
  intros Hf Hm Hl Hn Hp. unfold addNodeProperty. rewrite Hn. cbn [res_bind]. rewrite Hp.
  unfold addPropertyToChain, allocProp. rewrite Hf. rewrite (proj2 (Z.ltb_lt _ _)) by lia. cbn [assert_ res_bind].
  destruct (proj2 (zget_is_Some (props_ pg) (propMark_ pg))) as [p0 Hp0]; [lia|]. simpl. rewrite (load_Some _ _ _ Hp0). done.
Qed.

(** ** A new literal node *)

(** What the branch of [resolve] for an unknown literal does. *)
Definition new_literal (g : RdfGraph) (l : Literal) (v : LiteralValue) (dt : Z) : res (RdfGraph * Z) :=
  let '(d, id) := dict_insert (rg_nodes g) (NodeLiteral l) in
  let* g2 := ensureNode (set_dict g d) in
  let* '(pd, value) := store_literal (propData_ (pgraph g2)) v in
  let* '(pg, _) := addNodeProperty (set_propData (pgraph g2) pd) id (u32 dt) (u32 (to_int32 (from_iri (Some (l_datatype l))))) value in
  Ok (addLiteralNode (set_pgraph g2 pg) (literal_data v, dt) id, id).

(** The state it builds, from the grown graph and the extended tables. *)
Definition with_literal (g : RdfGraph) (d : NodeIdDict) (g1 : Graph Z Z) (e : NodeEntry Z) (pd : PropertyData) (k t x : Z)
    (key : bytes * Z) : RdfGraph :=
  let pg := set_propData (set_graph (pgraph g) g1) pd in
  let id := nodeMark_ (graph_ (pgraph g)) in
  addLiteralNode (set_pgraph (set_dict g d)
    (set_nodePayload (set_props (set_propAlloc pg (propMark_ pg + 1) [])
      (zset (props_ pg) (propMark_ pg) (mkProp GRAPH_NONE GRAPH_NONE k t x true))) id e (propMark_ pg))) key id.

Lemma new_literal_exec g s l v dt pd x :
  RdfInv z g s → dict_size (rg_nodes g) < nodeCap_ (graph_ (pgraph g)) → propMark_ (pgraph g) < propCap_ (pgraph g) →
  store_literal (propData_ (pgraph g)) v = Ok (pd, x) →
  ∃ d g1 e, new_literal g l v dt =
      Ok (with_literal g d g1 e pd (u32 dt) (u32 (to_int32 (from_iri (Some (l_datatype l))))) x (literal_data v, dt),
          dict_size (rg_nodes g)) ∧
    dict_wf d ∧ id_to_node d = id_to_node (rg_nodes g) ++ [literal_node] ∧
    grown (graph_ (pgraph g)) g1 ∧ zget (nodes_ g1) (dict_size (rg_nodes g)) = Some e ∧
    Rep g1 (spec_addNode s (dict_size (rg_nodes g)) GRAPH_NONE).
Proof.
  intros HI Hroom Hproom Hst. unfold new_literal.
  pose proof (ri_mark _ _ _ HI) as Hmark. pose proof (ri_cap _ _ _ HI) as Hcap. pose proof (ri_pmark _ _ _ HI) as Hpm.
  pose proof (pool_mark _ _ _ _ (lay_npool _ (rep_layout _ _ (ri_rep _ _ _ HI)))) as Hnm.
  pose proof (dict_insert_wf (rg_nodes g) (NodeLiteral l) (ri_dict _ _ _ HI)) as Hwf.
  pose proof (dict_push_id (rg_nodes g) literal_node ltac:(lia)) as Hid. fold (dict_insert (rg_nodes g) (NodeLiteral l)) in Hid.
  assert (id_to_node (fst (dict_insert (rg_nodes g) (NodeLiteral l))) = id_to_node (rg_nodes g) ++ [literal_node]) as Hnodes by done.
  change (dict_push (rg_nodes g) literal_node) with (dict_insert (rg_nodes g) (NodeLiteral l)) in Hid.
  destruct (dict_insert (rg_nodes g) (NodeLiteral l)) as [d id]. simpl in Hid, Hwf, Hnodes. subst id.
  assert (dict_size d = dict_size (rg_nodes g) + 1) as Hsz by (unfold dict_size; rewrite Hnodes, length_app; simpl; lia).
  unfold ensureNode. change (pgraph (set_dict g d)) with (pgraph g). change (rg_nodes (set_dict g d)) with d.
  unfold u64 at 1. rewrite wrap_u_id by (unfold in_u; lia). rewrite (proj2 (Z.ltb_lt _ _)) by lia.
  destruct (pg_addNode_exec (pgraph g) s (ri_rep _ _ _ HI) (ri_free _ _ _ HI) ltac:(lia)) as (g1 & Ha & HR1 & Hgr).
  rewrite Ha. cbn [res_bind]. pose proof Hgr as [G1 G2 G3 G4 G5 (e & He & Hpay)].
  set (g2 := set_pgraph (set_dict g d) (set_graph (pgraph g) g1)).
  change (propData_ (pgraph g2)) with (propData_ (pgraph g)). rewrite Hst. cbn [res_bind].
  change (pgraph g2) with (set_graph (pgraph g) g1).
  rewrite (addNodeProperty_exec _ _ e); simpl.
  - exists d, g1, e. split; [unfold with_literal; by rewrite Hmark|]. rewrite <- Hmark. done.
  - apply HI.
  - lia.
  - apply HI.
  - apply node_accessor. rewrite <- Hmark. split; [lia|done].
  - done.
Qed.

Lemma with_literal_ext g s d g1 e pd k t x key :
  RdfInv z g s → id_to_node d = id_to_node (rg_nodes g) ++ [literal_node] → grown (graph_ (pgraph g)) g1 →
  data_ext (propData_ (pgraph g)) pd → ext g (with_literal g d g1 e pd k t x key).
Proof.
  intros HI Hd [G1 G2 G3 G4 G5 G6] Hpd. pose proof (ri_pmark _ _ _ HI). split; simpl; [rewrite Hd; by eexists|lia| |lia| |done|done].
  - intros i ei Hi Hei Hp. exists ei. rewrite zget_zset_ne by lia. rewrite G5 by lia. done.
  - intros i Hi. rewrite zget_zset_ne by lia. done.
Qed.

(** The new node has the key it was created for. *)
Lemma with_literal_key g s d g1 e l v pd x dt t :
  RdfInv z g s → dict_size (rg_nodes g) < nodeCap_ (graph_ (pgraph g)) → propMark_ (pgraph g) < propCap_ (pgraph g) →
  id_to_node d = id_to_node (rg_nodes g) ++ [literal_node] → grown (graph_ (pgraph g)) g1 →
  zget (nodes_ g1) (dict_size (rg_nodes g)) = Some e →
  encode_literal l = Ok v → stored pd v x → zget (id_to_node (rg_nodes g)) dt = Some (iri_node (l_datatype l)) →
  has_key z (with_literal g d g1 e pd (u32 dt) t x (literal_data v, dt)) (dict_size (rg_nodes g)) (literal_data v, dt).
Proof.
  intros HI Hroom Hproom Hd Hgr He Henc Hst Hdt. set (g' := with_literal _ _ _ _ _ _ _ _ _).
  pose proof (ri_mark _ _ _ HI) as Hmark. pose proof (ri_cap _ _ _ HI) as Hcap. pose proof (ri_pmark _ _ _ HI) as Hpm.
  pose proof (zget_lt _ _ _ Hdt) as Hdtr. fold (dict_size (rg_nodes g)) in Hdtr.
  assert (dict_size d = dict_size (rg_nodes g) + 1) as Hsz by (unfold dict_size; rewrite Hd, length_app; simpl; lia).
  destruct Hgr as [G1 G2 G3 G4 G5 G6]. split; [|simpl; lia].
  destruct (i32_u32 dt) as (_ & Edt & _); [lia|]. unfold literalKeyFor.
  rewrite (proj2 (node_accessor _ _ (set_n_payload e (propMark_ (pgraph g))))).
  2:{ simpl. split; [lia|]. rewrite Hmark. by eapply zget_zset_Some. }
  cbn [res_bind]. cbn [n_payload set_n_payload]. rewrite (proj2 (Z.leb_le 0 _)) by lia. cbn [assert_ res_bind].
  rewrite (proj2 (prop_accessor _ _ (mkProp GRAPH_NONE GRAPH_NONE (u32 dt) t x true))).
  2:{ simpl. split; [lia|]. apply zget_zset_eq. rewrite (ri_plen _ _ _ HI). lia. }
  cbn [res_bind p_key p_value]. rewrite Edt.
  assert (getIri z g' dt = Ok (l_datatype l)) as ->.
  { unfold getIri, getNodeId. change (rg_nodes g') with d. rewrite (dict_get_stored z d dt (iri_node (l_datatype l))); [done| |unfold small; lia].
    rewrite Hd, zget_app_l by (unfold dict_size in Hdtr; lia). done. }
  cbn [res_bind]. change (propData_ (pgraph g')) with pd. rewrite (stored_data l v pd x Henc Hst). done.
Qed.

Lemma with_literal_inv g s d g1 e l v pd x dt t :
  RdfInv z g s → dict_size (rg_nodes g) < nodeCap_ (graph_ (pgraph g)) → propMark_ (pgraph g) < propCap_ (pgraph g) →
  dict_wf d → id_to_node d = id_to_node (rg_nodes g) ++ [literal_node] → grown (graph_ (pgraph g)) g1 →
  zget (nodes_ g1) (dict_size (rg_nodes g)) = Some e → Rep g1 (spec_addNode s (dict_size (rg_nodes g)) GRAPH_NONE) →
  encode_literal l = Ok v → stored pd v x → pd_wf pd → data_ext (propData_ (pgraph g)) pd →
  lists_below pd (propMark_ (pgraph g) + 1) → zget (id_to_node (rg_nodes g)) dt = Some (iri_node (l_datatype l)) →
  literalNodes g !! (literal_data v, dt) = None →
  RdfInv z (with_literal g d g1 e pd (u32 dt) t x (literal_data v, dt))
    (spec_setNode (spec_addNode s (dict_size (rg_nodes g)) GRAPH_NONE) (dict_size (rg_nodes g)) (propMark_ (pgraph g))).
Proof.
  intros HI Hroom Hproom Hwf Hd Hgr He HR Henc Hst Hpd Hext Hlists Hdt Hmiss.
  pose proof (with_literal_key g s d g1 e l v pd x dt t HI Hroom Hproom Hd Hgr He Henc Hst Hdt) as Hkey.
  pose proof (with_literal_ext g s d g1 e pd (u32 dt) t x (literal_data v, dt) HI Hd Hgr Hext) as He'.
  set (g' := with_literal _ _ _ _ _ _ _ _ _) in *.
  pose proof (ri_mark _ _ _ HI) as Hmark. pose proof (ri_cap _ _ _ HI) as Hcap. pose proof (ri_pmark _ _ _ HI) as Hpm.
  assert (dict_size d = dict_size (rg_nodes g) + 1) as Hsz by (unfold dict_size; rewrite Hd, length_app; simpl; lia).
  assert (small (rg_nodes g')) as Hs by (unfold small; simpl; lia).
  assert (zget (id_to_node d) (dict_size (rg_nodes g)) = Some literal_node) as Hnew by (rewrite Hd; apply zget_app_end).
  assert (∀ id, zget (id_to_node d) id = Some literal_node →
    id = dict_size (rg_nodes g) ∨ zget (id_to_node (rg_nodes g)) id = Some literal_node) as Hold.
  { intros id Hid. pose proof (zget_lt _ _ _ Hid) as Hr. fold (dict_size d) in Hr.
    destruct (decide (id = dict_size (rg_nodes g))) as [->|]; [by left|right].
    by rewrite Hd, zget_app_l in Hid by (unfold dict_size in *; lia). }
  destruct Hgr as [G1 G2 G3 G4 G5 G6]. pose proof HI as [I1 I2 I3 I4 I5 I6 I7 I8 I9 I10 I11 Hcache Hkeys Huniq].
  split; simpl; try done; try lia.
  - rewrite Hmark. by apply rep_setNode.
  - rewrite length_zset. apply I6.
  - intros i ei Hi Hz Hp. destruct (decide (i = nodeMark_ (graph_ (pgraph g)))) as [->|Hne]; [by rewrite Hmark|].
    rewrite zget_zset_ne, G5 in Hz by done. apply (ext_node g g' i); [done|]. by apply (I11 i ei); [lia| |].
  - intros k id. rewrite emplace_lookup.
    assert (zget (id_to_node d) id = Some literal_node ∧ has_key z g' id k ↔
      (id = nodeMark_ (graph_ (pgraph g)) ∧ k = (literal_data v, dt)) ∨ literalNodes g !! k = Some id) as ->.
    { rewrite Hcache. split.
      - intros [Hid Hk]. destruct (Hold id Hid) as [->|Hid'].
        + left. split; [done|]. destruct Hk as [Ek _], Hkey as [Ek' _]. congruence.
        + right. split; [done|]. by apply (key_stable g s g').
      - intros [[-> ->]|[Hid Hk]]; [by rewrite Hmark|].
        split; [by apply (ext_node g g' id)|]. by apply (has_key_ext z g). }
    destruct (literalNodes g !! k) as [id0|] eqn:Hk0.
    + split; [by right|]. intros [[-> ->]|?]; congruence.
    + case_decide as Ek; [subst k; naive_solver|]. naive_solver.
  - intros id [->|Hid]%Hold.
    + exists (literal_data v), dt, (l_datatype l). split; [done|]. by apply (ext_node g g' dt).
    + destruct (Hkeys id Hid) as (data & dt0 & iri & Hk & Hdt0). exists data, dt0, iri. split.
      * by apply (has_key_ext z g).
      * by apply (ext_node g g' dt0).
  - rewrite Hd. apply unique_app; [done|by left].
Qed.
End steps.
