(* ===== verification/RdfGraphProps.v ===== *)
(** * RDF graphs: theorems

    What a triple stores, that ids identify terms, that literals read back, and
    two places where the graph and its storage disagree. *)

From S2P Require Import Prelude Bytes Dll Graph GraphSpec GraphRefine PropData PropDataProofs PropertyGraph.
From S2P Require Import PropGraphRefine Datatypes GraphFile GraphDataOps Serialization RdfTypes Identifiers IdentifiersProps.
From S2P Require Import IndexProps FuzzyTurtle RdfGraph RdfGraphInv.
From stdpp Require Import pretty.
From Stdlib Require Import Strings.Byte.
#[local] Open Scope Z_scope.
#[local] Open Scope list_scope.

Section props.
Context (z : RDFNodeType).

(** Node [id] of the graph stands for the RDF term [n]. *)
Definition denotes (g : RdfGraph) (id : Z) (n : Node) : Prop :=
  match n with
  | NodeLiteral l => zget (id_to_node (rg_nodes g)) id = Some literal_node ∧
      ∃ v dt, encode_literal l = Ok v ∧ has_key z g id (literal_data v, dt) ∧
        zget (id_to_node (rg_nodes g)) dt = Some (iri_node (l_datatype l))
  | _ => zget (id_to_node (rg_nodes g)) id = Some (node_id n)
  end.

Lemma denotes_ext g g' id n : ext g g' → small (rg_nodes g') → denotes g id n → denotes g' id n.
Proof.
  intros He Hs. destruct n as [iri|b|l]; simpl; [by apply ext_node..|]. intros [Hid (v & dt & Henc & Hk & Hdt)].
  split; [by eapply ext_node|]. exists v, dt. split; [done|]. split; [by eapply has_key_ext|by eapply ext_node].
Qed.

Lemma denotes_range g id n : denotes g id n → 0 ≤ id < dict_size (rg_nodes g).
Proof. destruct n as [iri|b|l]; simpl; [apply zget_lt..|]. intros [H _]. by apply zget_lt in H. Qed.

(** The storage can take the value of a literal. *)
Definition literal_fits (g : RdfGraph) (n : Node) : Prop :=
  match n with
  | NodeLiteral l => ∃ v, encode_literal l = Ok v ∧ Z.of_nat (length (literal_data v)) < 2 ^ 63 ∧
      propMark_ (pgraph g) < propCap_ (pgraph g) ∧ is_ok (store_literal (propData_ (pgraph g)) v)
  | _ => True
  end.

(** What a call of [resolve] leaves for the next ones. *)
Record resolved (g : RdfGraph) (s : SpecGraph Z Z) (n : Node) (g' : RdfGraph) (s' : SpecGraph Z Z) (id : Z) : Prop := {
  rs_inv : RdfInv z g' s';
  rs_ext : ext g g';
  rs_denotes : denotes g' id n;
  rs_rels : sg_rels s' = sg_rels s;
  rs_size : dict_size (rg_nodes g') ≤ dict_size (rg_nodes g) + 2;
  rs_cap : nodeCap_ (graph_ (pgraph g')) = nodeCap_ (graph_ (pgraph g));
  rs_room : rel_room (graph_ (pgraph g)) → rel_room (graph_ (pgraph g'));
  rs_fuzzy : fuzzy g' = fuzzy g;
  rs_fits : named n → ∀ m, literal_fits g m → literal_fits g' m;
}.

Lemma resolve_ok g s n :
  RdfInv z g s → literal_fits g n → dict_size (rg_nodes g) + 2 ≤ nodeCap_ (graph_ (pgraph g)) →
  ∃ g' s' id, resolve g n = Ok (g', id) ∧ resolved g s n g' s' id.
Proof.
  intros HI Hfit Hroom.
  assert (∀ n, named n → ∃ g' s' id, resolve_named g n = Ok (g', id) ∧ resolved g s n g' s' id ∧
    dict_size (rg_nodes g') ≤ dict_size (rg_nodes g) + 1 ∧ literalNodes g' = literalNodes g) as Hnamed.
  { intros m Hm. destruct (resolve_named_ok z g s m HI Hm ltac:(right; lia))
      as (g' & s' & id & Hr & HI' & He & Hd & Hrels & Hsz & Hlit & Hpm & Hpd & Hpc & Hcap & Hrr & Hfz).
    exists g', s', id. split; [done|]. split; [|done]. split; try done; [by destruct m|lia|].
    intros _ q. unfold literal_fits. destruct q; [done..|]. by rewrite Hpm, Hpd, Hpc. }
  destruct n as [iri|b|l]; [by destruct (Hnamed (NodeIRI iri) eq_refl) as (g' & s' & id & ? & ? & _); eauto|
    by destruct (Hnamed (NodeBNode b) eq_refl) as (g' & s' & id & ? & ? & _); eauto|].
  destruct Hfit as (v & Henc & Hlen & Hpm & [[pd x] Hst]). simpl. unfold resolve_literal. rewrite Henc. cbn [res_bind].
  destruct (Hnamed (NodeIRI (l_datatype l)) eq_refl) as (g1 & s1 & dt & -> & [HI1 He1 Hd1 Hr1 Hs1 Hc1 Hrr1 Hfz1 Hf1] & Hsz1 & Hlit1).
  cbn [res_bind]. simpl in Hd1. fold (iri_node (l_datatype l)) in Hd1.
  assert (literal_fits g1 (NodeLiteral l)) as (v' & Henc' & _ & Hpm1 & Hst1).
  { apply Hf1; [done|]. exists v. split_and!; try done. by exists (pd, x). }
  rewrite Henc in Henc'. injection Henc' as <-. destruct Hst1 as [[pd1 x1] Hst1].
  destruct (literalNodes g1 !! (literal_data v, dt)) as [id|] eqn:Hc.
  - apply (ri_cache _ _ _ HI1) in Hc as [Hid Hk]. exists g1, s1, id. split; [done|]. split; try done.
    split; [done|]. by exists v, dt.
  - destruct (new_literal_exec z g1 s1 l v dt pd1 x1 HI1 ltac:(lia) Hpm1 Hst1) as (d & gg & e & Hnew & Hwf & Hd & Hgr & He & HR).
    unfold new_literal in Hnew. rewrite Hnew.
    pose proof (ri_pmark _ _ _ HI1). destruct (store_literal_ok _ v pd1 x1 (propMark_ (pgraph g1)) (ri_pd _ _ _ HI1) (ri_lists _ _ _ HI1) ltac:(lia) Hlen Hst1)
      as (Hpdw & Hpde & Hpdl & Hstored).
    set (t := u32 (to_int32 (from_iri (Some (l_datatype l))))).
    pose proof (with_literal_inv z g1 s1 d gg e l v pd1 x1 dt t HI1 ltac:(lia) Hpm1 Hwf Hd Hgr He HR Henc Hstored Hpdw Hpde Hpdl Hd1 Hc) as HI2.
    pose proof (with_literal_ext z g1 s1 d gg e pd1 (u32 dt) t x1 (literal_data v, dt) HI1 Hd Hgr Hpde) as He2.
    pose proof (with_literal_key z g1 s1 d gg e l v pd1 x1 dt t HI1 ltac:(lia) Hpm1 Hd Hgr He Henc Hstored Hd1) as Hk2.
    eexists _, _, _. split; [done|]. destruct Hgr as [G1 G2 G3 (R1 & R2 & R3 & R4) G5 G6].
    split; [exact HI2|by eapply ext_trans| | | | | | |done]; simpl.
    + split; [rewrite Hd; apply zget_app_end|]. exists v, dt. split; [done|]. split; [done|]. exact (ext_node g1 _ dt _ He2 Hd1).
    + done.
    + unfold dict_size in *. simpl. rewrite Hd, length_app. simpl. lia.
    + congruence.
    + intros Hrr%Hrr1. unfold rel_room in *. simpl. by rewrite R2, R3, R4.
    + done.
Qed.

(** ** Triples *)

(** Resolving the three terms in any order. *)
Lemma resolve3_ok ord g s (sn on pn : Node) :
  RdfInv z g s → named sn → named pn → literal_fits g on →
  dict_size (rg_nodes g) + 6 ≤ nodeCap_ (graph_ (pgraph g)) →
  ∃ g' s' si oi pi, resolve3 ord g sn on pn = Ok (g', (si, oi, pi)) ∧ RdfInv z g' s' ∧ ext g g' ∧
    denotes g' si sn ∧ denotes g' oi on ∧ denotes g' pi pn ∧ sg_rels s' = sg_rels s ∧
    (rel_room (graph_ (pgraph g)) → rel_room (graph_ (pgraph g'))) ∧ fuzzy g' = fuzzy g.
Proof.
  intros HI Hs Hp Ho Hroom.
  assert (∀ n1 n2 n3, literal_fits g n1 → (∀ g1, (named n1 → ∀ m, literal_fits g m → literal_fits g1 m) → literal_fits g1 n2) →
    (∀ g1 g2, (named n1 → ∀ m, literal_fits g m → literal_fits g1 m) → (named n2 → ∀ m, literal_fits g1 m → literal_fits g2 m) → literal_fits g2 n3) →
    ∃ g1 g2 g3 s3 i1 i2 i3, resolve g n1 = Ok (g1, i1) ∧ resolve g1 n2 = Ok (g2, i2) ∧ resolve g2 n3 = Ok (g3, i3) ∧
      RdfInv z g3 s3 ∧ ext g g3 ∧ denotes g3 i1 n1 ∧ denotes g3 i2 n2 ∧ denotes g3 i3 n3 ∧ sg_rels s3 = sg_rels s ∧
      (rel_room (graph_ (pgraph g)) → rel_room (graph_ (pgraph g3))) ∧ fuzzy g3 = fuzzy g) as H3.
  { intros n1 n2 n3 F1 F2 F3. destruct (resolve_ok g s n1 HI F1 ltac:(lia)) as (g1 & s1 & i1 & -> & [A1 B1 C1 D1 E1 K1 L1 M1 N1]).
    destruct (resolve_ok g1 s1 n2 A1 (F2 g1 N1) ltac:(lia)) as (g2 & s2 & i2 & H2 & [A2 B2 C2 D2 E2 K2 L2 M2 N2]).
    destruct (resolve_ok g2 s2 n3 A2 (F3 g1 g2 N1 N2) ltac:(lia)) as (g3 & s3 & i3 & H3 & [A3 B3 C3 D3 E3 K3 L3 M3 N3]).
    pose proof (ri_small _ _ _ A3). pose proof (ri_small _ _ _ A2).
    exists g1, g2, g3, s3, i1, i2, i3. split_and!; try done; [|by eapply denotes_ext; [|done|eapply denotes_ext]|by eapply denotes_ext|congruence|eauto|congruence].
    eapply ext_trans; [done|]. by eapply ext_trans. }
  assert (literal_fits g sn) by (by destruct sn). assert (literal_fits g pn) by (by destruct pn).
  assert (∀ g1, literal_fits g1 sn) as Hsf by (by destruct sn). assert (∀ g1, literal_fits g1 pn) as Hpf by (by destruct pn).
  destruct ord; simpl.
  - destruct (H3 sn on pn) as (g1 & g2 & g3 & s3 & i1 & i2 & i3 & -> & H2 & H4 & Hrest); [eauto..|].
    cbn [res_bind]. rewrite H2. cbn [res_bind]. rewrite H4. cbn [res_bind]. exists g3, s3, i1, i2, i3. naive_solver.
  - destruct (H3 sn pn on) as (g1 & g2 & g3 & s3 & i1 & i2 & i3 & -> & H2 & H4 & Hrest); [eauto..|].
    cbn [res_bind]. rewrite H2. cbn [res_bind]. rewrite H4. cbn [res_bind]. exists g3, s3, i1, i3, i2. naive_solver.
  - destruct (H3 on sn pn) as (g1 & g2 & g3 & s3 & i1 & i2 & i3 & -> & H2 & H4 & Hrest); [eauto..|].
    cbn [res_bind]. rewrite H2. cbn [res_bind]. rewrite H4. cbn [res_bind]. exists g3, s3, i2, i1, i3. naive_solver.
  - destruct (H3 on pn sn) as (g1 & g2 & g3 & s3 & i1 & i2 & i3 & -> & H2 & H4 & Hrest); [eauto..|].
    cbn [res_bind]. rewrite H2. cbn [res_bind]. rewrite H4. cbn [res_bind]. exists g3, s3, i3, i1, i2. naive_solver.
  - destruct (H3 pn sn on) as (g1 & g2 & g3 & s3 & i1 & i2 & i3 & -> & H2 & H4 & Hrest); [eauto..|].
    cbn [res_bind]. rewrite H2. cbn [res_bind]. rewrite H4. cbn [res_bind]. exists g3, s3, i2, i3, i1. naive_solver.
  - destruct (H3 pn on sn) as (g1 & g2 & g3 & s3 & i1 & i2 & i3 & -> & H2 & H4 & Hrest); [eauto..|].
    cbn [res_bind]. rewrite H2. cbn [res_bind]. rewrite H4. cbn [res_bind]. exists g3, s3, i3, i2, i1. naive_solver.
Qed.

(** Writing relationships leaves the node pool alone. *)
Lemma link_frame (g g' : Graph Z Z) relId nodeId flag : linkRelToNode g relId nodeId flag = Ok g' →
  nodeMark_ g' = nodeMark_ g ∧ nodeCap_ g' = nodeCap_ g ∧ freeNodes_ g' = freeNodes_ g.
Proof.
  unfold linkRelToNode. intros H. repeat (apply res_bind_ok in H as (? & ? & H)).
  repeat (case_match; inv_ok); by simplify_eq/=.
Qed.

Lemma addRelationship_frame (g g' : Graph Z Z) from to ty p id : addRelationship g from to ty p = Ok (g', id) →
  nodeMark_ g' = nodeMark_ g ∧ nodeCap_ g' = nodeCap_ g ∧ freeNodes_ g' = freeNodes_ g.
Proof.
  unfold addRelationship. intros H. apply res_bind_ok in H as ([g1 i] & Ha & H). apply res_bind_ok in H as (r & _ & H).
  apply res_bind_ok in H as (g3 & H3 & H). apply link_frame in H3. simpl in H3.
  assert (nodeMark_ g1 = nodeMark_ g ∧ nodeCap_ g1 = nodeCap_ g ∧ freeNodes_ g1 = freeNodes_ g) as Hg1.
  { unfold allocRel in Ha. destruct (freeRels_ g); inv_ok; by simplify_eq/=. }
  destruct (from =? to); simpl in H.
  - injection H as <- <-. intuition congruence.
  - apply res_bind_ok in H as (g4 & H4 & H). apply link_frame in H4. injection H as <- <-. intuition congruence.
Qed.

(** A change of relationships keeps the invariant. *)
Lemma relink_inv g s gg s' :
  RdfInv z g s → Rep gg s' → nodeMark_ gg = nodeMark_ (graph_ (pgraph g)) → nodeCap_ gg = nodeCap_ (graph_ (pgraph g)) →
  freeNodes_ gg = freeNodes_ (graph_ (pgraph g)) →
  (∀ i, sn_payload <$> sg_nodes s' !! i = sn_payload <$> sg_nodes s !! i) →
  let g' := set_pgraph g (set_graph (pgraph g) gg) in ext g g' ∧ RdfInv z g' s'.
Proof.
  intros HI HR Hm Hc Hf Hpay g'.
  assert (∀ i e e', 0 ≤ i < nodeMark_ (graph_ (pgraph g)) → zget (nodes_ (graph_ (pgraph g))) i = Some e →
    zget (nodes_ gg) i = Some e' → n_payload e' = n_payload e) as Hsame.
  { intros i e e' Hi He He'. destruct (ri_live z g s i HI ltac:(rewrite <- (ri_mark _ _ _ HI); lia)) as [sn Hsn].
    destruct (rep_node _ _ _ _ (ri_rep _ _ _ HI) Hsn) as (_ & e0 & He0 & _ & Hp0 & _).
    pose proof (Hpay i) as Hp. rewrite Hsn in Hp. destruct (sg_nodes s' !! i) as [sn'|] eqn:Hsn'; [|done]. injection Hp as Hp.
    destruct (rep_node _ _ _ _ HR Hsn') as (_ & e1 & He1 & _ & Hp1 & _). simplify_eq. congruence. }
  pose proof (lay_nlen _ (rep_layout _ _ HR)) as Hl. pose proof (lay_nlen _ (rep_layout _ _ (ri_rep _ _ _ HI))) as Hl0.
  assert (ext g g') as He.
  { split; simpl; try done; try lia; try apply data_ext_refl. intros i e Hi Hz Hp.
    destruct (proj2 (zget_is_Some (nodes_ gg) i)) as [e' He']; [apply zget_lt in Hz; lia|]. exists e'. split; [done|by eapply Hsame]. }
  split; [done|]. assert (small (rg_nodes g')) as Hs by exact (ri_small _ _ _ HI).
  assert (∀ id k, zget (id_to_node (rg_nodes g)) id = Some literal_node → has_key z g' id k ↔ has_key z g id k) as Hk
    by (intros; by eapply key_stable).
  pose proof HI as [I1 I2 I3 I4 I5 I6 I7 I8 I9 I10 I11 I12 I13 I14]. split; simpl; try done; try congruence; try lia.
  - intros i e' Hi He' Hp. destruct (proj2 (zget_is_Some (nodes_ (graph_ (pgraph g))) i)) as [e Hz]; [apply zget_lt in He'; lia|].
    apply (I11 i e); [lia|done|]. rewrite <- (Hsame i e e') by (done || lia). done.
  - intros k id. rewrite I12. split; intros [Hid Hkk]; (split; [done|]); by apply Hk.
  - intros id Hid. destruct (I13 id Hid) as (data & dt & iri & Hkk & Hdt). exists data, dt, iri. split; [by apply Hk|done].
Qed.

(** Where [addTriple] has room: four ids at most are new. *)
Definition triple_room (g : RdfGraph) (o : Node) : Prop :=
  literal_fits g o ∧ dict_size (rg_nodes g) + 6 ≤ nodeCap_ (graph_ (pgraph g)) ∧ rel_room (graph_ (pgraph g)).

Lemma addTriple_ok ord g s (sn pn on : Node) truth :
  RdfInv z g s → named sn → isIri pn = true → triple_room g on →
  ∃ g' s' rel si pi oi, addTriple ord g sn pn on truth = Ok g' ∧ RdfInv z g' s' ∧ ext g g' ∧
    denotes g' si sn ∧ denotes g' pi pn ∧ denotes g' oi on ∧ sg_rels s !! rel = None ∧
    sg_rels s' = <[rel := mkSRel si oi pi (i32 (if fuzzy g then truth else one_bits))]> (sg_rels s) ∧ fuzzy g' = fuzzy g.
Proof.
  intros HI Hs Hp (Hfit & Hroom & Hrr). assert (named pn) as Hpn by (by destruct pn).
  unfold addTriple. rewrite Hp. unfold named in Hs. rewrite Hs. cbn [negb assert_ res_bind]. unfold link_triple.
  destruct (resolve3_ok ord g s sn on pn HI Hs Hpn Hfit Hroom) as (g1 & s1 & si & oi & pi & -> & HI1 & He1 & Ds & Do & Dp & Hr1 & Hrr1 & Hfz).
  cbn [res_bind]. pose proof (denotes_range _ _ _ Ds) as Rs. pose proof (denotes_range _ _ _ Do) as Ro. pose proof (denotes_range _ _ _ Dp) as Rp.
  destruct (addRelationship_rep (graph_ (pgraph g1)) s1 si oi pi GRAPH_NONE (ri_rep _ _ _ HI1) (Hrr1 Hrr)
    (ri_live z g1 s1 si HI1 Rs) (ri_live z g1 s1 oi HI1 Ro)) as (gg & rel0 & Ha & Hnew & Hrel & HR).
  pose proof (addRelationship_frame _ _ _ _ _ _ _ Ha) as (M1 & M2 & M3).
  unfold pg_addRelationship. rewrite Ha. cbn [res_bind].
  pose proof (ri_small _ _ _ HI1) as Hsm. unfold small in Hsm.
  assert (i32 pi = pi) as Epi by (apply wrap_s_id; unfold in_s; lia). rewrite Epi in HR.
  unfold setTruth. destruct (rel_ok gg _ rel0 (mkSRel si oi pi GRAPH_NONE) HR) as (r & Hrk & Hrz & _); [apply lookup_insert_eq|].
  change (pgraph (set_pgraph g1 (set_graph (pgraph g1) gg))) with (set_graph (pgraph g1) gg). cbn [graph_ set_graph]. rewrite Hrk. cbn [res_bind].
  set (truth' := i32 _). pose proof (rep_setRel gg _ rel0 r truth' HR Hrz) as HR'.
  set (gg' := set_rels gg (zset (rels_ gg) rel0 (set_r_payload r truth'))) in *.
  set (s2 := spec_setRel _ rel0 truth') in HR'.
  destruct (relink_inv g1 s1 gg' s2 HI1 HR' M1 M2 M3) as [He2 HI2].
  { intros i. unfold s2, spec_setRel. cbn [sg_nodes]. rewrite spec_addRel_node. destruct (sg_nodes s1 !! i); [|done]. simpl. by case_decide. }
  exists (set_pgraph g1 (set_graph (pgraph g1) gg')), s2, rel0, si, pi, oi.
  pose proof (ri_small _ _ _ HI2). split_and!; [done|exact HI2|by eapply ext_trans|by eapply denotes_ext..|congruence| |done].
  unfold s2, spec_setRel, spec_addRel. cbn [sg_rels]. rewrite Hr1. apply map_eq. intros k.
  rewrite lookup_alter. case_decide as E; [subst k; rewrite !lookup_insert_eq; simpl; unfold truth'; by rewrite <- Hfz|].
  by rewrite !lookup_insert_ne by done.
Qed.

(** ** The empty graph *)

Lemma rdf_create_inv Turtle name iri source ncap rcap pcap :
  0 ≤ ncap < 2 ^ 31 → 0 ≤ rcap → 0 ≤ pcap < 2 ^ 31 →
  RdfInv z (rdf_create Turtle name iri source ncap rcap pcap) spec_empty.
Proof.
  intros Hn Hr Hp. assert (Z.max (1024 * 1024) (u64 (u64 pcap * 256)) < 2 ^ 63) as Hcap.
  { unfold u64. rewrite (wrap_u_id 64 pcap) by (unfold in_u; lia). rewrite wrap_u_id by (unfold in_u; lia). lia. }
  split; cbn -[Z.mul Z.max Z.pow u64]; try done; try lia.
  - apply newGraph_rep; lia.
  - rewrite length_replicate. lia.
  - split; cbn -[Z.mul Z.max Z.pow u64]; [lia|done].
  - intros k id. rewrite lookup_empty. split; [done|]. intros [Hid _]. apply zget_lt in Hid. simpl in Hid. lia.
  - intros id Hid. apply zget_lt in Hid. simpl in Hid. lia.
  - intros i j n Hi. apply zget_lt in Hi. simpl in Hi. lia.
Qed.
End props.

(** ** Claims *)

(** What makes two RDF terms the same: the string of an IRI, the label of a
    blank node, and for a literal the datatype with its value.  A value of a
    type that the store keeps as a number is that number, a [xsd:dateTime] is a
    time in milliseconds with its zone, and a literal of any other type is its
    language tag and lexical form. *)
Inductive TermValue :=
  | TvAny (v : AnyVal)
  | TvMillis (millis : Z) (tz : option Z)
  | TvText (lang lex : string).
Definition literal_value (l : Literal) : TermValue :=
  if isInlined (l_datatype l) then TvAny (l_value l)
  else
    match kindOf (l_datatype l), l_value l with
    | Some _, AnyDateTime nanos tz => TvMillis (Z.quot nanos 1000000) tz
    | Some _, v => TvAny v
    | None, _ => TvText (l_lang l) (l_lex l)
    end.
Definition same_term (n m : Node) : Prop :=
  match n, m with
  | NodeIRI a, NodeIRI b | NodeBNode a, NodeBNode b => a = b
  | NodeLiteral l, NodeLiteral l' => l_datatype l = l_datatype l' ∧ literal_value l = literal_value l'
  | _, _ => False
  end.

(** The values the C++ types can hold; a month and a day are bytes. *)
Definition any_fits (v : AnyVal) : Prop :=
  match v with
  | AnyInt8 x => in_s 8 x | AnyInt16 x => in_s 16 x | AnyInt32 x => in_s 32 x | AnyInt64 x => in_s 64 x
  | AnyUInt8 x => in_u 8 x | AnyUInt16 x => in_u 16 x | AnyUInt32 x => in_u 32 x | AnyUInt64 x => in_u 64 x
  | AnyFloat x => in_u 32 x | AnyDouble x => in_u 64 x
  | AnyDate y m d tz => in_s 32 y ∧ 0 ≤ m < 256 ∧ 0 ≤ d < 256 ∧ tz_fits tz
  | AnyDateTime n tz => tz_fits tz
  | AnyBool _ | AnyOther => True
  end.
Definition term_fits (n : Node) : Prop := match n with NodeLiteral l => any_fits (l_value l) | _ => True end.

Lemma le_bytes_inj n x y : le_bytes n x = le_bytes n y → wrap_u (8 * Z.of_nat n) x = wrap_u (8 * Z.of_nat n) y.
Proof. intros E. by rewrite <- !le_val_bytes, E. Qed.

Lemma bytes_of_inj a b : bytes_of a = bytes_of b → a = b.
Proof.
  intros E. unfold bytes_of in E. rewrite <- (String.string_of_list_byte_of_string a), <- (String.string_of_list_byte_of_string b). by rewrite E.
Qed.

Lemma wrap_u_s_inj b x y : 0 < b → in_s b x → in_s b y → wrap_u b x = wrap_u b y → x = y.
Proof. intros Hb Hx Hy E. rewrite <- (wrap_s_u b x), <- (wrap_s_u b y) by done. by rewrite E. Qed.
Lemma wrap_u_u_inj b x y : in_u b x → in_u b y → wrap_u b x = wrap_u b y → x = y.
Proof. intros Hx Hy. by rewrite !wrap_u_id. Qed.

(** The bits stored inside a record tell the values of one type apart. *)
Lemma inlineValue_inj v v' dt b b' : any_fits v → any_fits v' → inlineValue v dt = Ok b → inlineValue v' dt = Ok b' →
  put_u32 b = put_u32 b' → v = v'.
Proof.
  intros Hv Hv' E E' Eq. apply (le_bytes_inj 4) in Eq. change (8 * Z.of_nat 4) with 32 in Eq.
  unfold inlineValue in E, E'.
  repeat match type of E with (if ?c then _ else _) = _ => destruct c;
    [destruct v; try discriminate E; destruct v'; try discriminate E'; injection E as <-; injection E' as <-;
     cbn [any_fits] in Hv, Hv'; rewrite ?wrap_u_twice in Eq by lia|] end; [..|discriminate E];
    [by destruct b0, b1|f_equal..];
    first [eapply (wrap_u_s_inj 8); by first [exact Eq|done]|eapply (wrap_u_s_inj 16); by first [exact Eq|done]
          |eapply (wrap_u_s_inj 32); by first [exact Eq|done]|eapply (wrap_u_u_inj 8); by first [exact Eq|done]
          |eapply (wrap_u_u_inj 16); by first [exact Eq|done]|eapply (wrap_u_u_inj 32); by first [exact Eq|done]].
Qed.

Lemma put_u64_s_inj x y : in_s 64 x → in_s 64 y → put_u64 x = put_u64 y → x = y.
Proof. intros Hx Hy E. apply (le_bytes_inj 8) in E. by eapply (wrap_u_s_inj 64). Qed.
Lemma put_u64_u_inj x y : in_u 64 x → in_u 64 y → put_u64 x = put_u64 y → x = y.
Proof. intros Hx Hy E. apply (le_bytes_inj 8) in E. by eapply (wrap_u_u_inj 64). Qed.

Lemma packDate_inj y m d tz y' m' d' tz' p p' :
  any_fits (AnyDate y m d tz) → any_fits (AnyDate y' m' d' tz') → packDate y m d tz = Ok p → packDate y' m' d' tz' = Ok p' →
  put_u64 p = put_u64 p' → AnyDate y m d tz = AnyDate y' m' d' tz'.
Proof.
  intros (H1 & H2 & H3 & H4) (H1' & H2' & H3' & H4') E E' Eq.
  destruct (date_pack_roundtrip y m d tz H1 H2 H3 H4) as (q & Eq1 & Hq & Hu).
  destruct (date_pack_roundtrip y' m' d' tz' H1' H2' H3' H4') as (q' & Eq1' & Hq' & Hu').
  rewrite E in Eq1. rewrite E' in Eq1'. injection Eq1 as <-. injection Eq1' as <-.
  apply put_u64_s_inj in Eq; [|done..]. subst p'. rewrite Hu in Hu'. by injection Hu' as -> -> -> ->.
Qed.

Lemma packDateTime_millis n tz p : packDateTime n tz = Ok p → kDateTimeMillisMin ≤ Z.quot n 1000000 ≤ kDateTimeMillisMax.
Proof. unfold packDateTime. intros H. inv_ok. unfold assert_ in *. case_match; [|done]. apply andb_prop in H as [??]. lia. Qed.

Lemma packDateTime_inj n tz n' tz' p p' :
  tz_fits tz → tz_fits tz' → packDateTime n tz = Ok p → packDateTime n' tz' = Ok p' →
  put_u64 p = put_u64 p' → Z.quot n 1000000 = Z.quot n' 1000000 ∧ tz = tz'.
Proof.
  intros H H' E E' Eq. destruct (datetime_pack_roundtrip n tz (packDateTime_millis _ _ _ E) H) as (q & Eq1 & Hq & Hu).
  destruct (datetime_pack_roundtrip n' tz' (packDateTime_millis _ _ _ E') H') as (q' & Eq1' & Hq' & Hu').
  rewrite E in Eq1. rewrite E' in Eq1'. injection Eq1 as <-. injection Eq1' as <-.
  apply put_u64_s_inj in Eq; [|done..]. subst p'. rewrite Hu in Hu'. injection Hu' as Em ->. split; [lia|done].
Qed.

(** The same for the packed time: it depends on the milliseconds only. *)
Lemma packDateTime_congr n n' tz : Z.quot n 1000000 = Z.quot n' 1000000 → packDateTime n tz = packDateTime n' tz.
Proof. intros E. unfold packDateTime. by rewrite E. Qed.

(** The bytes of the lookup key tell the literals of one datatype apart, and
    nothing else. *)
Lemma encode_literal_inj l l' v v' : any_fits (l_value l) → any_fits (l_value l') → l_datatype l = l_datatype l' →
  encode_literal l = Ok v → encode_literal l' = Ok v' → literal_data v = literal_data v' ↔ literal_value l = literal_value l'.
Proof.
  intros Hf Hf' Ed He He'. unfold encode_literal in He, He'. unfold literal_value. rewrite <- Ed in He' |- *.
  destruct (isInlined (l_datatype l)).
  { apply res_bind_ok in He as (b & Eb & [= <-]), He' as (b' & Eb' & [= <-]). cbn [literal_data]. split.
    - intros E. f_equal. by apply (inlineValue_inj _ _ _ b b' Hf Hf' Eb Eb').
    - intros [= E]. rewrite E in Eb. congruence. }
  destruct (kindOf (l_datatype l)) as [k|].
  - destruct k; destruct (l_value l); try discriminate He; destruct (l_value l'); try discriminate He'.
    + injection He as <-. injection He' as <-. cbn [literal_data]. split; [intros E%put_u64_s_inj; [by subst|done..]|by intros [= ->]].
    + injection He as <-. injection He' as <-. cbn [literal_data]. split; [intros E%put_u64_u_inj; [by subst|done..]|by intros [= ->]].
    + injection He as <-. injection He' as <-. cbn [literal_data]. split; [intros E%put_u64_u_inj; [by subst|done..]|by intros [= ->]].
    + apply res_bind_ok in He as (b & Eb & [= <-]), He' as (b' & Eb' & [= <-]). cbn [literal_data]. split.
      * intros E. f_equal. by eapply packDate_inj.
      * intros [= -> -> -> ->]. congruence.
    + apply res_bind_ok in He as (b & Eb & [= <-]), He' as (b' & Eb' & [= <-]). cbn [literal_data]. split.
      * intros E. destruct (packDateTime_inj _ _ _ _ _ _ Hf Hf' Eb Eb' E) as [-> ->]. done.
      * intros [= E ->]. rewrite (packDateTime_congr _ _ _ E) in Eb. congruence.
  - apply res_bind_ok in He as (? & Eb & [= <-]), He' as (? & Eb' & [= <-]). cbn [literal_data].
    unfold assert_ in *. do 2 (case_match; [|done]). split; [|by intros [= -> ->]].
    intros E. injection E as E1 E2. apply (f_equal byte_val) in E1. rewrite !byte_val_of_Z, !Z.mod_small in E1 by lia.
    apply app_inj_1 in E2 as [E2 E3]; [|rewrite !length_bytes_of; lia]. apply bytes_of_inj in E2, E3. by rewrite E2, E3.
Qed.


(** Under the invariant ids tell terms apart. *)
Lemma denotes_identify (z : RDFNodeType) g s i j (n m : Node) :
  RdfInv z g s → term_fits n → term_fits m → denotes z g i n → denotes z g j m → i = j ↔ same_term n m.
Proof.
  intros HI Fn Fm Hn Hm.
  assert (∀ n m, named n → named m → denotes z g i n → denotes z g j m → i = j ↔ node_id n = node_id m) as Hnn.
  { intros n' m' Nn Nm Dn Dm. assert (zget (id_to_node (rg_nodes g)) i = Some (node_id n')) as Zi by (by destruct n').
    assert (zget (id_to_node (rg_nodes g)) j = Some (node_id m')) as Zj by (by destruct m'). split; [congruence|]. intros E.
    rewrite <- E in Zj. eapply (ri_unique _ _ _ HI); [done..|]. by apply named_not_literal. }
  assert (∀ n l, named n → denotes z g i n → denotes z g j (NodeLiteral l) → i ≠ j) as Hnl.
  { intros n' l Nn Dn [Dl _] ->. assert (zget (id_to_node (rg_nodes g)) j = Some (node_id n')) as Zi by (by destruct n').
    apply (named_not_literal n' Nn). congruence. }
  assert (∀ n l, named n → denotes z g j n → denotes z g i (NodeLiteral l) → i ≠ j) as Hln.
  { intros n' l Nn Dn [Dl _] ->. assert (zget (id_to_node (rg_nodes g)) j = Some (node_id n')) as Zi by (by destruct n').
    apply (named_not_literal n' Nn). congruence. }
  assert (∀ P : Prop, i ≠ j → ¬ P → i = j ↔ P) as Hno by naive_solver.
  destruct n as [a|a|l], m as [b|b|l']; cbn [same_term].
  1: rewrite (Hnn (NodeIRI a) (NodeIRI b)) by done; by split; [intros [= ->]|intros ->].
  1: apply Hno; [by rewrite (Hnn (NodeIRI a) (NodeBNode b)) by done|by intros []].
  1: apply Hno; [by apply (Hnl (NodeIRI a) l')|by intros []].
  1: apply Hno; [by rewrite (Hnn (NodeBNode a) (NodeIRI b)) by done|by intros []].
  1: rewrite (Hnn (NodeBNode a) (NodeBNode b)) by done; by split; [intros [= ->]|intros ->].
  1: apply Hno; [by apply (Hnl (NodeBNode a) l')|by intros []].
  1: apply Hno; [by apply (Hln (NodeIRI b) l)|by intros []].
  1: apply Hno; [by apply (Hln (NodeBNode b) l)|by intros []].
  destruct Hn as [Zi (v & dt & He & Hk & Hdt)], Hm as [Zj (v' & dt' & He' & Hk' & Hdt')]. split.
  - intros <-. destruct Hk as [Ek _], Hk' as [Ek' _]. rewrite Ek in Ek'. injection Ek' as E1 <-. rewrite Hdt in Hdt'.
    injection Hdt' as Ed. split; [done|]. by apply (encode_literal_inj l l' v v').
  - intros [Ed E2]. apply (encode_literal_inj l l' v v') in E2; [|done..].
    assert (dt = dt') as <-. { eapply (ri_unique _ _ _ HI); [exact Hdt|by rewrite Ed|done]. }
    pose proof (proj2 (ri_cache _ _ _ HI (literal_data v, dt) i) (conj Zi Hk)) as C1. rewrite E2 in C1.
    pose proof (proj2 (ri_cache _ _ _ HI (literal_data v', dt) j) (conj Zj Hk')) as C2. congruence.
Qed.

(** Terms resolved one after the other, and where the graph has room for each. *)
Fixpoint resolve_all (g : RdfGraph) (ns : list Node) : res (RdfGraph * list Z) :=
  match ns with
  | [] => Ok (g, [])
  | n :: ns => let* '(g, i) := resolve g n in let* '(g, ids) := resolve_all g ns in Ok (g, i :: ids)
  end.
Definition literal_room (g : RdfGraph) (n : Node) : bool :=
  match n with
  | NodeLiteral l =>
      match encode_literal l with
      | Ok v => (Z.of_nat (length (literal_data v)) <? 2 ^ 63) && (propMark_ (pgraph g) <? propCap_ (pgraph g)) &&
          match store_literal (propData_ (pgraph g)) v with Ok _ => true | Fault _ => false end
      | Fault _ => false
      end
  | _ => true
  end.
Fixpoint room_for (g : RdfGraph) (ns : list Node) : bool :=
  match ns with
  | [] => true
  | n :: ns => literal_room g n && (dict_size (rg_nodes g) + 2 <=? nodeCap_ (graph_ (pgraph g))) &&
      match resolve g n with Ok (g', _) => room_for g' ns | Fault _ => false end
  end.

Lemma literal_room_fits g n : literal_room g n = true → literal_fits g n.
Proof.
  destruct n as [| |l]; [done..|]. simpl. destruct (encode_literal l) as [v|]; [|done].
  intros ((?%Z.ltb_lt & ?%Z.ltb_lt)%andb_prop & Hs)%andb_prop. exists v. split_and!; try done.
  destruct (store_literal _ v) as [x|]; [by exists x|done].
Qed.

Lemma resolve_all_ok z g s ns : RdfInv z g s → room_for g ns = true →
  ∃ g' s' ids, resolve_all g ns = Ok (g', ids) ∧ RdfInv z g' s' ∧ ext g g' ∧ Forall2 (denotes z g') ids ns.
Proof.
  revert g s. induction ns as [|n ns IH]; intros g s HI Hroom; simpl.
  { exists g, s, []. split_and!; [done|done|apply ext_refl|constructor]. }
  apply andb_prop in Hroom as [[Hfit%literal_room_fits Hsz%Z.leb_le]%andb_prop Hrest]. destruct (resolve_ok z g s n HI Hfit Hsz) as (g1 & s1 & i & E & [HI1 He1 Hd1 _ _ _ _ _ _]).
  rewrite E in Hrest |- *. cbn [res_bind]. destruct (IH g1 s1 HI1 Hrest) as (g2 & s2 & ids & -> & HI2 & He2 & Hds). cbn [res_bind].
  exists g2, s2, (i :: ids). split_and!; [done|done|by eapply ext_trans|]. constructor; [|done].
  eapply denotes_ext; [done|by eapply ri_small|done].
Qed.


(** C19. Adding a triple: with room for its terms, [addTriple] returns, in
    whatever order the compiler resolves the three terms; the graph gets one
    new relationship from the subject's node to the object's node, typed with
    the predicate's node and carrying the truth degree (1.0 unless the graph is
    fuzzy); every node keeps the term it stood for, and the invariant holds
    again. *)
Theorem rdf_addTriple_effect (z : RDFNodeType) ord g s (sn pn on : Node) truth :
  RdfInv z g s → named sn → isIri pn = true → triple_room g on →
  ∃ g' s' rel si pi oi, addTriple ord g sn pn on truth = Ok g' ∧ RdfInv z g' s' ∧
    denotes z g' si sn ∧ denotes z g' pi pn ∧ denotes z g' oi on ∧
    sg_rels s !! rel = None ∧
    sg_rels s' = <[rel := mkSRel si oi pi (i32 (if fuzzy g then truth else one_bits))]> (sg_rels s) ∧
    (∀ id n, denotes z g id n → denotes z g' id n).
Proof.
  intros HI Hs Hp Hr. destruct (addTriple_ok z ord g s sn pn on truth HI Hs Hp Hr)
    as (g' & s' & rel & si & pi & oi & Ha & HI' & He & Ds & Dp & Do & Hn & Hrels & _).
  exists g', s', rel, si, pi, oi. split_and!; try done. intros id n. apply denotes_ext; [done|by eapply ri_small].
Qed.

(** Triples that can be added one after the other. *)
Inductive loads (z : RDFNodeType) (ord : Order) : RdfGraph → list (Node * Node * Node) → list Z → Prop :=
  | loads_nil g : loads z ord g [] []
  | loads_cons g s p o d ts ds :
      named s → isIri p = true → triple_room g o →
      (∀ g', addTriple ord g s p o d = Ok g' → loads z ord g' ts ds) →
      loads z ord g ((s, p, o) :: ts) (d :: ds).

Lemma add_fuzzy_ok z ord g s ts ds :
  RdfInv z g s → fuzzy g = true → loads z ord g ts ds →
  ∃ g' s', add_fuzzy ord g (Some <$> ts) ds = Ok g' ∧ RdfInv z g' s' ∧ ext g g' ∧
    size (sg_rels s') = (size (sg_rels s) + length ts)%nat ∧ sg_rels s ⊆ sg_rels s' ∧
    ∀ k t p o d, ts !! k = Some (t, p, o) → ds !! k = Some d →
      ∃ rel si pi oi, sg_rels s' !! rel = Some (mkSRel si oi pi (i32 d)) ∧
        denotes z g' si t ∧ denotes z g' pi p ∧ denotes z g' oi o.
Proof.
  intros HI Hf HL. revert s HI Hf. induction HL as [g|g sn pn on d ts ds Hs Hp Hr HL IH]; intros s HI Hf.
  { exists g, s. simpl. split_and!; try done; try lia; apply ext_refl. }
  destruct (addTriple_ok z ord g s sn pn on d HI Hs Hp Hr) as (g1 & s1 & rel & si & pi & oi & Ha & HI1 & He1 & Ds & Dp & Do & Hn & Hrels & Hf1).
  rewrite Hf in Hrels.
  destruct (IH g1 Ha s1 HI1 ltac:(congruence)) as (g2 & s2 & Hb & HI2 & He2 & Hsz & Hsub & Hall).
  exists g2, s2. cbn [fmap list_fmap add_fuzzy]. rewrite Ha. cbn [res_bind]. pose proof (ri_small _ _ _ HI2).
  assert (sg_rels s ⊆ sg_rels s1) as Hsub1 by (rewrite Hrels; by apply insert_subseteq).
  split_and!; [done|done|by eapply ext_trans| |by etrans|].
  - rewrite Hsz, Hrels, map_size_insert_None by done. simpl. lia.
  - intros [|k] t p o d'; simpl.
    + intros [= <- <- <-] [= <-]. exists rel, si, pi, oi. split_and!; [|by eapply denotes_ext..].
      eapply lookup_weaken; [|done]. rewrite Hrels. apply lookup_insert_eq.
    + intros Hk Hd. by apply (Hall k).
Qed.

(** C4. Loading a fuzzy graph: when the Turtle parser yields as many triples as
    there are truth degrees and the store has room, [loadFuzzyTriples]' loop
    returns a graph in which every triple of the file is a relationship between
    the nodes that stand for its terms, with its own degree as payload, and the
    number of relationships grew by exactly the number of triples; relationships
    that were there are unchanged. *)
Theorem rdf_load_exact (z : RDFNodeType) ord g s ts ds :
  RdfInv z g s → fuzzy g = true → loads z ord g ts ds →
  ∃ g' s', add_fuzzy ord g (Some <$> ts) ds = Ok g' ∧ RdfInv z g' s' ∧
    size (sg_rels s') = (size (sg_rels s) + length ts)%nat ∧ sg_rels s ⊆ sg_rels s' ∧
    ∀ k t p o d, ts !! k = Some (t, p, o) → ds !! k = Some d →
      ∃ rel si pi oi, sg_rels s' !! rel = Some (mkSRel si oi pi (i32 d)) ∧
        denotes z g' si t ∧ denotes z g' pi p ∧ denotes z g' oi o.
Proof.
  intros HI Hf HL. destruct (add_fuzzy_ok z ord g s ts ds HI Hf HL) as (g' & s' & ? & ? & _ & ? & ? & ?). by exists g', s'.
Qed.

(** The invariant is about the storage, the dictionary and the literals only. *)
Lemma RdfInv_same (z : RDFNodeType) g g' s : pgraph g' = pgraph g → rg_nodes g' = rg_nodes g → literalNodes g' = literalNodes g → RdfInv z g s → RdfInv z g' s.
Proof.
  intros E1 E2 E3 HI. assert (∀ id k, has_key z g' id k ↔ has_key z g id k) as Hk by (intros id k; unfold has_key, literalKeyFor, getIri, getNodeId; by rewrite E1, E2).
  destruct HI; split; rewrite ?E1, ?E2; try done.
  - intros k id. by rewrite E3, Hk.
  - intros id Hid. destruct (ri_keys id Hid) as (data & dt & iri & H & Hdt). exists data, dt, iri. by rewrite Hk.
Qed.
Lemma denotes_same (z : RDFNodeType) g g' id n : pgraph g' = pgraph g → rg_nodes g' = rg_nodes g → denotes z g id n → denotes z g' id n.
Proof.
  intros E1 E2. assert (∀ k, has_key z g' id k ↔ has_key z g id k) as Hk by (intros k; unfold has_key, literalKeyFor, getIri, getNodeId; by rewrite E1, E2).
  destruct n; simpl; rewrite E2; [done..|]. intros [H (v & dt & H1 & H2 & H3)]. split; [done|]. exists v, dt. by rewrite Hk.
Qed.

(** ** Reading literals *)

Lemma take_bytes_of s rest : String.string_of_list_byte (take (String.length s) (bytes_of s ++ rest)) = s.
Proof. rewrite take_app_length' by (symmetry; apply length_bytes_of). unfold bytes_of. apply String.string_of_list_byte_of_string. Qed.

(** Text literals read back exactly: a literal whose datatype is stored as
    text, with its language tag of up to 255 bytes, is returned by [getLiteral]
    with the same lexical form and the same tag, or with its datatype when it
    has no tag. *)
Theorem rdf_text_literal_roundtrip (z : RDFNodeType) date_lex dateTime_lex g s id (l : Literal) :
  RdfInv z g s → denotes z g id (NodeLiteral l) →
  isInlined (l_datatype l) = false → kindOf (l_datatype l) = None →
  getLiteral z date_lex dateTime_lex g id =
    Ok (if String.eqb (l_lang l) "" then Typed (l_lex l) (l_datatype l) else LangTagged (l_lex l) (l_lang l)).
Proof.
  intros HI [Hid (v & dt & He & [Hk Hr] & Hdt)] Hin Hkind.
  unfold encode_literal in He. rewrite Hin, Hkind in He. apply res_bind_ok in He as (u & Hu & He). injection He as <-.
  unfold assert_ in Hu. destruct (Z.leb_spec (Z.of_nat (String.length (l_lang l))) 255) as [Hlang|]; [|done].
  unfold literalKeyFor in Hk. unfold getLiteral.
  destruct (node (graph_ (pgraph g)) id) as [e|]; [|done]. cbn [res_bind] in *.
  destruct (assert_ (0 <=? n_payload e)); [|done]. cbn [res_bind] in *.
  destruct (pg_prop (pgraph g) (n_payload e)) as [p|]; [|done]. cbn [res_bind] in *.
  apply res_bind_ok in Hk as (dtype & Hiri & Hk). apply res_bind_ok in Hk as (data & Hdata & Hk). injection Hk as -> Ek. cbn [fst snd literal_data] in *.
  assert (dtype = l_datatype l) as ->.
  { rewrite Ek in Hiri. unfold getIri, getNodeId in Hiri.
    rewrite (dict_get_stored z (rg_nodes g) dt _ Hdt (ri_small _ _ _ HI)) in Hiri. by injection Hiri. }
  rewrite Hiri. cbn [res_bind]. rewrite Hin, Hkind in *. rewrite Hdata. cbn [res_bind].
  set (n := String.length (l_lang l)) in *.
  cbn [app].
  rewrite (load_Some _ 0 (byte_of_Z (Z.of_nat n))) by done. cbn [res_bind].
  assert (Z.to_nat (byte_val (byte_of_Z (Z.of_nat n))) = n) as ->.
  { rewrite byte_val_of_Z, Z.mod_small by lia. apply Nat2Z.id. }
  cbn [drop Nat.add]. rewrite !drop_0. rewrite drop_app_length' by (symmetry; apply length_bytes_of).
  subst n. rewrite !take_bytes_of. unfold bytes_of. rewrite !String.string_of_list_byte_of_string. by destruct (String.eqb (l_lang l) "").
Qed.

(** ** Where graph and storage disagree *)

(** A triple of a graph that is not fuzzy cannot be removed through the
    property graph: [setTruth] stores the bits of 1.0 in the payload of the
    relationship, which [PropertyGraph] takes for the head of a property chain;
    [removeRelationship] then follows it out of the property buffer, whatever
    its capacity up to 2^30 - 2^23. *)
Theorem rdf_triple_removal_faults (z : RDFNodeType) ord g s (sn pn on : Node) truth :
  RdfInv z g s → named sn → isIri pn = true → triple_room g on →
  fuzzy g = false → propCap_ (pgraph g) ≤ one_bits →
  ∃ g' s' rel, addTriple ord g sn pn on truth = Ok g' ∧ RdfInv z g' s' ∧ is_Some (sg_rels s' !! rel) ∧
    pg_removeRelationship (pgraph g') rel = Fault BadAccess.
Proof.
  intros HI Hs Hp Hr Hf Hcap. destruct (addTriple_ok z ord g s sn pn on truth HI Hs Hp Hr)
    as (g' & s' & rel & si & pi & oi & Ha & HI' & He & _ & _ & _ & Hn & Hrels & _).
  exists g', s', rel. rewrite Hf in Hrels. split; [done|]. split; [done|].
  assert (sg_rels s' !! rel = Some (mkSRel si oi pi one_bits)) as Hlk by (rewrite Hrels; apply lookup_insert_eq).
  split; [by rewrite Hlk|]. pose proof (ex_pcap _ _ He) as Hc. destruct (rel_ok _ _ _ _ (ri_rep _ _ _ HI') Hlk) as (r & Hrk & _ & _ & Hsr).
  unfold pg_removeRelationship. rewrite Hrk. cbn [res_bind].
  assert (r_payload r = one_bits) as ->. { unfold srel_of in Hsr. by injection Hsr. }
  unfold propFuel. cbn [freeChain]. replace (one_bits =? GRAPH_NONE) with false by done.
  unfold load. rewrite (proj2 (zget_None _ _)); [done|]. rewrite (ri_plen _ _ _ HI'). lia.
Qed.

(** A fresh storage object reads the file that is there. *)
Lemma gdb_load_exec fs name dir a b c bs t pg :
  dir ≠ ""%string → name ≠ ""%string → fs_files fs !! graphPath dir name = Some (bs, t) → graphPath dir name ∉ fs_denied fs →
  load_file (pg_create a b c) bs = Ok pg →
  gdb_ensureLoaded fs (setDBDir (gdb_create name a b c) dir) = Ok (mkGDB pg name dir true).
Proof.
  intros Hdir Hname Hfile Hden Hload. unfold gdb_ensureLoaded, unnamed. cbn [setDBDir gdb_create loaded_ storage_ fileName_ dbDir_].
  change (0 <? nodeMark_ (graph_ (pg_create a b c))) with false. cbn [loaded_ storage_ fileName_ dbDir_].
  apply String.eqb_neq in Hdir, Hname. rewrite Hdir, Hname. cbn [orb]. rewrite Hfile. rewrite bool_decide_eq_false_2 by done.
  by rewrite Hload.
Qed.

(** An emptied source leaves a graph without dictionary: when the source
    file of a graph is newer than its stored form and yields no triples,
    [ensureLoaded] rebuilds an empty dictionary but, because the fresh storage
    has no nodes, then loads the stale stored graph into it. *)
Theorem rdf_emptied_source_loads_stale_graph (z : RDFNodeType) (Turtle : Z) RDFFileParser IStreamQuadIterator ord fs g bs t pg :
  rg_loaded g = false → loadedFromRdfFile g = true → fuzzy g = false →
  hasFreshCache fs (rg_storage g) (sourcePath Turtle g) = false →
  RDFFileParser fs (sourcePath Turtle g) (rdfParseFlags g) = [] →
  rg_dbDir g ≠ ""%string → rg_fileName g ≠ ""%string →
  fs_files fs !! graphPath (rg_dbDir g) (rg_fileName g) = Some (bs, t) →
  graphPath (rg_dbDir g) (rg_fileName g) ∉ fs_denied fs →
  load_file (pg_create (pg_nodeCap_ (pgraph g)) (pg_relCap_ (pgraph g)) (propCap_ (pgraph g))) bs = Ok pg →
  ∃ g', rdf_ensureLoaded z Turtle RDFFileParser IStreamQuadIterator ord fs g = Ok g' ∧
    pgraph g' = pg ∧ rg_nodes g' = newDict ∧ literalNodes g' = ∅.
Proof.
  intros Hl Hr Hf Hfresh Hparse Hdir Hname Hfile Hden Hload. unfold rdf_ensureLoaded. rewrite Hl.
  change (rg_storage (set_loaded g)) with (rg_storage g). change (sourcePath Turtle (set_loaded g)) with (sourcePath Turtle g).
  rewrite Hfresh. change (loadedFromRdfFile (set_loaded g)) with (loadedFromRdfFile g). rewrite Hr. cbn [andb negb].
  unfold loadTriples. cbn [loadedFromRdfFile set_literals set_dict set_storage set_loaded]. rewrite Hr. cbn [negb].
  cbn [fuzzy set_literals set_dict set_storage set_loaded]. rewrite Hf.
  cbn [rg_dbDir sourceFileName rdfParseFlags set_literals set_dict set_storage set_loaded].
  change (rg_dbDir g +:+ sourceFileName g +:+ flagExtension Turtle (rdfParseFlags g)) with (sourcePath Turtle g).
  rewrite Hparse. cbn [add_parsed res_bind]. cbn [rg_storage set_literals set_dict set_storage].
  change (rg_fileName (set_loaded g)) with (rg_fileName g). change (pgraph (set_loaded g)) with (pgraph g).
  rewrite (gdb_load_exec _ _ _ _ _ _ _ _ _ Hdir Hname Hfile Hden Hload). cbn [res_bind].
  cbn [loadedFromRdfFile set_storage set_literals set_dict set_loaded]. rewrite Hr. cbn [andb]. eexists. split; [done|]. done.
Qed.

(** ** Witnesses *)

(** A small graph, with small text tables. *)
Definition with_blobs (g : RdfGraph) (cap : Z) : RdfGraph :=
  set_pgraph g (set_propData (pgraph g) (setBlobCapacity (propData_ (pgraph g)) cap)).
Definition sample_rdf : RdfGraph := with_blobs (rdf_create 0 "g" None "" 16 8 8) 64.
Definition sample_rdf_fuzzy : RdfGraph :=
  mkRdf (rg_iri sample_rdf) (rg_storage sample_rdf) newDict ∅ false "g" "g" "" false 0 true false.
Definition sample_lit : Literal := mkLit "http://x/t" "en" "hi" AnyOther.

Lemma sample_rdf_inv (f : bool) : RdfInv NtIRI (if f then sample_rdf_fuzzy else sample_rdf) spec_empty.
Proof.
  destruct f; (split; cbn -[Z.pow];
    [apply newGraph_rep; lia|apply newDict_wf|done|done|lia|done|lia|done|split; [cbn -[Z.pow]; lia|done]|lia|lia| | |]);
  try (intros k id; rewrite lookup_empty; split; [done|]; intros [Hid _]; apply zget_lt in Hid; simpl in Hid; lia);
  try (intros id Hid; apply zget_lt in Hid; simpl in Hid; lia);
  (intros i j n Hi; apply zget_lt in Hi; simpl in Hi; lia).
Qed.

Lemma sample_room (f : bool) : triple_room (if f then sample_rdf_fuzzy else sample_rdf) (NodeLiteral sample_lit).
Proof.
  destruct f; (split; [|split; [vm_compute; congruence|right; vm_compute; reflexivity]]);
    (exists (LvText [x02; x65; x6e; x68; x69]); split; [vm_compute; reflexivity|]; split; [vm_compute; reflexivity|];
     split; [vm_compute; reflexivity|]; eexists; vm_compute; reflexivity).
Qed.

Definition sample_s : Node := NodeIRI "http://x/s".
Definition sample_p : Node := NodeIRI "http://x/p".

Lemma rdf_addTriple_effect_witness :
  ∃ g', addTriple OPS sample_rdf sample_s sample_p (NodeLiteral sample_lit) 0 = Ok g' ∧ ∃ id, denotes NtIRI g' id sample_s.
Proof.
  destruct (rdf_addTriple_effect NtIRI OPS sample_rdf spec_empty sample_s sample_p (NodeLiteral sample_lit) 0)
    as (g' & s' & rel & si & pi & oi & Ha & _ & Ds & _).
  - exact (sample_rdf_inv false).
  - reflexivity.
  - reflexivity.
  - exact (sample_room false).
  - exists g'. split; [exact Ha|]. exists si. exact Ds.
Defined.



Lemma rdf_load_exact_witness :
  ∃ g', add_fuzzy SPO sample_rdf_fuzzy [Some (sample_s, sample_p, NodeLiteral sample_lit)] [0x3f000000] = Ok g'.
Proof.
  destruct (rdf_load_exact NtIRI SPO sample_rdf_fuzzy spec_empty [(sample_s, sample_p, NodeLiteral sample_lit)] [0x3f000000])
    as (g' & s' & Ha & _).
  - exact (sample_rdf_inv true).
  - reflexivity.
  - apply loads_cons; [reflexivity|reflexivity|exact (sample_room true)|]. intros. apply loads_nil.
  - exists g'. exact Ha.
Defined.

Lemma rdf_text_literal_roundtrip_witness :
  ∃ g id, denotes NtIRI g id (NodeLiteral sample_lit) ∧
    getLiteral NtIRI (λ _, "") (λ _, "") g id = Ok (LangTagged "hi" "en").
Proof.
  destruct (addTriple_ok NtIRI SOP sample_rdf spec_empty sample_s sample_p (NodeLiteral sample_lit) 0
    (sample_rdf_inv false) eq_refl eq_refl (sample_room false)) as (g & s & rel & si & pi & oi & _ & HI & _ & _ & _ & Do & _).
  exists g, oi. split; [exact Do|].
  exact (rdf_text_literal_roundtrip NtIRI (λ _, ""%string) (λ _, ""%string) g s oi sample_lit HI Do eq_refl eq_refl).
Defined.

Lemma rdf_triple_removal_faults_witness :
  ∃ g' rel, addTriple SOP sample_rdf sample_s sample_p sample_s 0 = Ok g' ∧
    pg_removeRelationship (pgraph g') rel = Fault BadAccess.
Proof.
  destruct (rdf_triple_removal_faults NtIRI SOP sample_rdf spec_empty sample_s sample_p sample_s 0) as (g' & s' & rel & Ha & _ & _ & Hf).
  - exact (sample_rdf_inv false).
  - reflexivity.
  - reflexivity.
  - split; [exact I|]. split; [vm_compute; congruence|right; vm_compute; reflexivity].
  - reflexivity.
  - vm_compute; congruence.
  - exists g', rel. split; [exact Ha|exact Hf].
Defined.

(** A stored graph of one node, and a newer empty source. *)
Definition stale_storage : GengoDBGraph :=
  match pg_addNode (pg_create 2 1 1) with Ok (pg, _) => mkGDB pg "g" "d" true | Fault _ => gdb_create "g" 2 1 1 end.
Definition stale_fs : Fs :=
  match gdb_flush (mkFs {[ "dg.ttl"%string := ([], 2) ]} ∅ 1) stale_storage with Ok fs => fs | Fault _ => mkFs ∅ ∅ 0 end.
Definition stale_bytes : bytes := default [] (fst <$> fs_files stale_fs !! graphPath "d" "g").
Definition stale_pg : PropertyGraph :=
  match load_file (pg_create 2 1 1) stale_bytes with Ok pg => pg | Fault _ => pg_create 0 0 0 end.
Definition stale_rdf : RdfGraph :=
  mkRdf "i" (setDBDir (gdb_create "g" 2 1 1) "d") newDict ∅ false "g" "g" "d" true 0 false false.

Lemma rdf_emptied_source_loads_stale_graph_witness :
  ∃ g', rdf_ensureLoaded NtIRI 0 (λ _ _ _, []) (λ _ _, []) SOP stale_fs stale_rdf = Ok g' ∧
    nodeMark_ (graph_ (pgraph g')) = 1 ∧ rg_nodes g' = newDict.
Proof.
  destruct (rdf_emptied_source_loads_stale_graph NtIRI 0 (λ _ _ _, []) (λ _ _, []) SOP stale_fs stale_rdf stale_bytes 1 stale_pg)
    as (g' & Hl & Hpg & Hd & _); try reflexivity; try discriminate; try (vm_compute; reflexivity).
  exists g'. rewrite Hpg. split; [exact Hl|]. split; [vm_compute; reflexivity|exact Hd].
Defined.

(** ** RDF graphs and the global index *)

(** What [GraphNodeIndex::build] reads of a graph. *)
Definition view_of (z : RDFNodeType) (g : RdfGraph) : GraphView :=
  mkView (rg_iri g) (id_to_node (rg_nodes g)) (literalKeyFor z g).

Lemma view_of_ok z g s : RdfInv z g s → view_ok (view_of z g).
Proof.
  intros HI id n Hn Hty. simpl in *.
  assert (n = literal_node) as ->.
  { pose proof (wf_canonical _ (ri_dict _ _ _ HI)) as Hc. unfold zget in Hn. destruct (0 <=? id); [|done].
    rewrite Forall_lookup in Hc. apply Hc in Hn. destruct n as [t i l]. simpl in Hty. subst t. destruct Hn as [E1 E2]. simpl in E1, E2. by subst. }
  destruct (ri_keys _ _ _ HI id Hn) as (data & dt & iri & [Hk _] & Hdt). exists data, dt, (iri_node iri). done.
Qed.

(** Terms of two graphs, the [k1]-th and the [k2]-th: blank nodes are local to
    their graph. *)
Definition same_resource (k1 k2 : nat) (n m : Node) : Prop :=
  match n, m with NodeBNode a, NodeBNode b => k1 = k2 ∧ a = b | _, _ => same_term n m end.

(** A node that denotes a term denotes its resource. *)
Definition term_resource (k : nat) (id : Z) (n : Node) (r : Resource) : Prop :=
  match n with
  | NodeIRI a => r = ResIri (node_id (NodeIRI a))
  | NodeBNode _ => r = ResLocal k id
  | NodeLiteral l => ∃ v, encode_literal l = Ok v ∧ r = ResLiteral (literal_data v) (iri_node (l_datatype l))
  end.
Lemma denotes_resource z g k id n : denotes z g id n → ∃ r, resource k (view_of z g) id = Some r ∧ term_resource k id n r.
Proof.
  unfold resource. destruct n as [a|a|l]; simpl.
  - intros ->. by eexists.
  - intros ->. by eexists.
  - intros [-> (v & dt & He & [-> _] & Hdt)]. simpl. rewrite Hdt. eexists. split; [done|]. by exists v.
Qed.

Lemma same_resource_iff z g1 g2 s1 s2 k1 k2 i j n m r1 r2 : (k1 = k2 → g1 = g2) →
  RdfInv z g1 s1 → RdfInv z g2 s2 → term_fits n → term_fits m → denotes z g1 i n → denotes z g2 j m →
  term_resource k1 i n r1 → term_resource k2 j m r2 → r1 = r2 ↔ same_resource k1 k2 n m.
Proof.
  intros Hk HI1 HI2 Fn Fm Dn Dm Rn Rm. destruct n as [a|a|l], m as [b|b|l']; simpl in Rn, Rm |- *;
    try (destruct Rn as (v & He & ->)); try (destruct Rm as (v' & He' & ->)); subst; try (by split; [intros [=]|intros []]).
  - split.
    + intros [= <- <-]. split; [done|]. specialize (Hk eq_refl) as <-. by apply (denotes_identify z g1 s1 i i (NodeBNode a) (NodeBNode b)).
    + intros [<- <-]. specialize (Hk eq_refl) as <-. f_equal. by apply (denotes_identify z g1 s1 i j (NodeBNode a) (NodeBNode a)).
  - split.
    + intros [= E1 E2]. split; [done|]. by apply (encode_literal_inj l l' v v').
    + intros [E2 E1]. apply (encode_literal_inj l l' v v') in E1; [|done..]. by rewrite E1, E2.
Qed.

(** C23. The index over loaded RDF graphs: for graphs that satisfy the invariant
    and have distinct names, [GraphNodeIndex::build] succeeds and gives every
    node that stands for a term a global id.  The nodes of any two terms, of one
    graph or of two, have the same global id exactly when the terms are the
    same, a blank node only within its graph. *)
Theorem rdf_index_identifies_terms (z : RDFNodeType) (gs : list (string * RdfGraph)) :
  Forall (λ e, ∃ s, RdfInv z (snd e) s) gs →
  NoDup (graph_key <$> ((λ e, (fst e, view_of z (snd e))) <$> gs)) →
  ∃ index, build ((λ e, (fst e, view_of z (snd e))) <$> gs) = Ok index ∧
    ∀ k1 k2 e1 e2 i j n m, gs !! k1 = Some e1 → gs !! k2 = Some e2 → term_fits n → term_fits m →
      denotes z (snd e1) i n → denotes z (snd e2) j m →
      ∃ m1 m2 x y, getIndex index (graph_key (fst e1, view_of z (snd e1))) = Ok m1 ∧
        getIndex index (graph_key (fst e2, view_of z (snd e2))) = Ok m2 ∧
        get_global m1 i = Ok x ∧ get_global m2 j = Ok y ∧ (x = y ↔ same_resource k1 k2 n m).
Proof.
  intros Hinv Hnd.
  assert (Forall (λ e, view_ok (snd e)) ((λ e, (fst e, view_of z (snd e))) <$> gs)) as Hv.
  { apply Forall_fmap. eapply Forall_impl; [exact Hinv|]. intros e [s HI]. by apply (view_of_ok z (snd e) s). }
  destruct (build_identifies _ Hv Hnd) as (index & Hb & Hget & Hid).
  exists index. split; [done|]. intros k1 k2 e1 e2 i j n m H1 H2 Fn Fm Dn Dm.
  assert (∀ k e id t, gs !! k = Some e → denotes z (snd e) id t → ∃ mp x, getIndex index (graph_key (fst e, view_of z (snd e))) = Ok mp ∧ get_global mp id = Ok x) as Hat.
  { intros k e id t Hk Hd. destruct (Hget k (fst e, view_of z (snd e))) as (mp & Hm & Hg); [by rewrite list_lookup_fmap, Hk|].
    destruct (Hg id) as [x Hx]; [by apply (denotes_range z _ _ t)|]. by exists mp, x. }
  destruct (Hat k1 e1 i n H1 Dn) as (m1 & x & Hm1 & Hx), (Hat k2 e2 j m H2 Dm) as (m2 & y & Hm2 & Hy). exists m1, m2, x, y. split_and!; try done.
  rewrite (Hid k1 k2 (fst e1, view_of z (snd e1)) (fst e2, view_of z (snd e2)) m1 m2 i j x y); rewrite ?list_lookup_fmap, ?H1, ?H2; try done.
  destruct (denotes_resource z (snd e1) k1 i n Dn) as (r1 & R1 & T1), (denotes_resource z (snd e2) k2 j m Dm) as (r2 & R2 & T2). cbn [snd].
  rewrite R1, R2. rewrite Forall_lookup in Hinv. destruct (Hinv _ _ H1) as [s1 HI1], (Hinv _ _ H2) as [s2 HI2].
  rewrite <- (same_resource_iff z (snd e1) (snd e2) s1 s2 k1 k2 i j n m r1 r2); try done; [split; [by intros [= ->]|by intros ->]|].
  intros <-. congruence.
Qed.

(** Two graphs with the terms of [sample_terms], the second in another order. *)
Definition resolved_sample (ns : list Node) : RdfGraph := match resolve_all sample_rdf ns with Ok (g, _) => g | Fault _ => sample_rdf end.
Definition sample_a : RdfGraph := resolved_sample [sample_s; NodeLiteral sample_lit; NodeBNode "b"].
Definition sample_b : RdfGraph := resolved_sample [NodeBNode "b"; NodeLiteral sample_lit; sample_s].

Definition resolved_ids (ns : list Node) : list Z := match resolve_all sample_rdf ns with Ok (_, ids) => ids | Fault _ => [] end.

Lemma resolved_sample_ok ns ids : room_for sample_rdf ns = true → resolved_ids ns = ids →
  (∃ s, RdfInv NtIRI (resolved_sample ns) s) ∧ Forall2 (denotes NtIRI (resolved_sample ns)) ids ns.
Proof.
  intros Hr <-. destruct (resolve_all_ok NtIRI sample_rdf spec_empty ns (sample_rdf_inv false) Hr) as (g & s & ids & E & HI & _ & Hd).
  unfold resolved_sample, resolved_ids. rewrite E. split; [by exists s|done].
Qed.

(** The literal of [a] and that of [b] share a global id; the blank nodes do not. *)
Lemma rdf_index_identifies_terms_witness :
  ∃ index ia ib ja jb, build [("a", view_of NtIRI sample_a); ("b", view_of NtIRI sample_b)]%string = Ok index ∧
    getIndex index "a" = Ok ia ∧ getIndex index "b" = Ok ib ∧
    (∃ x, get_global ia ja = Ok x ∧ get_global ib jb = Ok x) ∧
    (∃ x y, get_global ia 3 = Ok x ∧ get_global ib 0 = Ok y ∧ x ≠ y).
Proof.
  destruct (resolved_sample_ok [sample_s; NodeLiteral sample_lit; NodeBNode "b"] [0; 2; 3]) as (HIa & Da); [vm_compute; reflexivity..|].
  destruct (resolved_sample_ok [NodeBNode "b"; NodeLiteral sample_lit; sample_s] [0; 2; 3]) as (HIb & Db); [vm_compute; reflexivity..|].
  apply Forall2_cons in Da as [_ Da]. apply Forall2_cons in Da as [Da1 Da]. apply Forall2_cons in Da as [Da2 _].
  apply Forall2_cons in Db as [Db0 Db]. apply Forall2_cons in Db as [Db1 _].
  destruct (rdf_index_identifies_terms NtIRI [("a", sample_a); ("b", sample_b)]%string) as (index & Hb & Hid).
  - constructor; [exact HIa|]. constructor; [exact HIb|]. constructor.
  - apply NoDup_cons. split; [|apply NoDup_singleton]. intros H. apply list_elem_of_singleton in H. discriminate H.
  - destruct (Hid 0%nat 1%nat ("a"%string, sample_a) ("b"%string, sample_b) 2 2 (NodeLiteral sample_lit) (NodeLiteral sample_lit) eq_refl eq_refl I I Da1 Db1)
      as (ia & ib & x & y & Hia & Hib & Hx & Hy & Hxy).
    destruct (Hid 0%nat 1%nat ("a"%string, sample_a) ("b"%string, sample_b) 3 0 (NodeBNode "b") (NodeBNode "b") eq_refl eq_refl I I Da2 Db0)
      as (ia' & ib' & x' & y' & Hia' & Hib' & Hx' & Hy' & Hxy').
    rewrite Hia in Hia'. rewrite Hib in Hib'. injection Hia' as <-. injection Hib' as <-.
    exists index, ia, ib, 2, 2. split; [exact Hb|]. split; [exact Hia|]. split; [exact Hib|]. split.
    + exists x. split; [exact Hx|]. rewrite Hy. f_equal. symmetry. apply Hxy. split; reflexivity.
    + exists x', y'. split; [exact Hx'|]. split; [exact Hy'|]. intros E. apply Hxy' in E as [E _]. discriminate E.
Defined.
