(* ===== verification/Helpers.v ===== *)
(** * Strings and arenas of the query runtime

    Model of [VarLen32], [read8PadZero] and the pointer tags of
    include/lingodb/runtime/helpers.h and of [Arena] and [AlignedArena] of
    include/lingodb/runtime/ExecutionContext.h.  Memory is a partial map from
    addresses to bytes; a load of an unmapped byte faults.  [malloc] is a
    parameter: the address it returns. *)

From S2P Require Import Prelude Bytes.
From Stdlib Require Import Strings.Byte.
#[local] Open Scope Z_scope.

(** ** Memory *)

Definition Mem := Z → option byte.

Fixpoint mem_read (m : Mem) (p : Z) (n : nat) : res bytes :=
  match n with
  | O => Ok []
  | S n =>
      match m p with
      | Some b => let* bs := mem_read m (p + 1) n in Ok (b :: bs)
      | None => Fault BadAccess
      end
  end.

(** [memcpy] of [bs] to [p], when the target is mapped. *)
Definition mem_set (m : Mem) (p : Z) (bs : bytes) : Mem := λ a,
  if (p <=? a) && (a <? p + Z.of_nat (length bs)) then bs !! Z.to_nat (a - p) else m a.
Definition mem_write (m : Mem) (p : Z) (bs : bytes) : res Mem :=
  let* _ := mem_read m p (length bs) in Ok (mem_set m p bs).

Definition unalignedLoad64 (m : Mem) (p : Z) : res Z := let* bs := mem_read m p 8 in Ok (le_val bs).
Definition unalignedLoad32 (m : Mem) (p : Z) : res Z := let* bs := mem_read m p 4 in Ok (le_val bs).

(** ** Short reads *)

Definition cachelineRemains8 (p : Z) : bool := Z.land p 63 <=? 56.

(** The branch without ASAN. *)
Definition read8PadZero (m : Mem) (p len : Z) : res Z :=
  if len =? 0 then Ok 0
  else if 8 <=? len then unalignedLoad64 m p
  else if cachelineRemains8 p then
    let* bytes := unalignedLoad64 m p in
    let shift := len * 8 in
    let mask := wrap_u 64 (Z.lnot (wrap_u 64 (Z.shiftl (2 ^ 64 - 1) shift))) in
    Ok (Z.land bytes mask)
  else
    let* x := unalignedLoad64 m (p + len - 8) in
    Ok (Z.shiftr x (64 - len * 8)).

(** ** VarLen32 *)

(** The sixteen bytes: the length, the first four bytes of the text, and either
    the next eight bytes of a short text or the address of a long one. *)
Record VarLen32 := mkVarLen { vl_len : Z; first4 : Z; last8 : Z }.
Definition shortLen : Z := 12.

Definition emptyVarLen32 : VarLen32 := mkVarLen 0 0xffffffff 0.

Definition storePtr (v : VarLen32) (ptr : Z) : VarLen32 := mkVarLen (vl_len v) (first4 v) ptr.

Definition newVarLen32 (m : Mem) (ptr len : Z) : res VarLen32 :=
  if shortLen <? len then
    let* f := unalignedLoad32 m ptr in Ok (storePtr (mkVarLen len f 0) ptr)
  else if 8 <? len then
    let* f := unalignedLoad32 m ptr in
    let* l := unalignedLoad64 m (ptr + len - 8) in
    let duplicate := 12 - len in
    Ok (mkVarLen len f (Z.shiftr l (duplicate * 8)))
  else
    let* bytes := read8PadZero m ptr len in
    Ok (mkVarLen len (u32 bytes) (Z.shiftr bytes 32)).

Definition isInvalid (v : VarLen32) : bool := (first4 v =? 0xffffffff) && (vl_len v =? 0).
Definition isShort (v : VarLen32) : bool := vl_len v <=? shortLen.
Definition asI128 (v : VarLen32) : Z := wrap_s 128 (vl_len v + 2 ^ 32 * first4 v + 2 ^ 64 * last8 v).

(** [str]: the bytes at [getPtr], which is the object itself for a short text. *)
Definition vl_str (m : Mem) (v : VarLen32) : res bytes :=
  if isShort v then Ok (take (Z.to_nat (vl_len v)) (le_bytes 4 (first4 v) ++ le_bytes 8 (last8 v)))
  else mem_read m (last8 v) (Z.to_nat (vl_len v)).

(** ** Arenas *)

Record Arena := mkArena { allocations : list Z; remainingBytes : Z; currentChunkStart : Z }.
Definition newArena : Arena := mkArena [] 0 0.
Definition thresholdDirectAlloc : Z := 16 * 1024.
Definition chunkSize : Z := 1024 * 1024.
Definition allocAlignment : Z := 16.

(** The size of the block [alloc] asks [malloc] for, if it does. *)
Definition mallocs (round : Z → Z) (a : Arena) (bytes : Z) : option Z :=
  if thresholdDirectAlloc <=? bytes then Some bytes
  else if remainingBytes a <? round bytes then Some chunkSize
  else None.

(** [alloc] of the two arenas; [round] is what a request takes from the chunk,
    [fresh] what [malloc] returns. *)
Definition alloc_with (round : Z → Z) (a : Arena) (bytes fresh : Z) : Arena * Z :=
  if thresholdDirectAlloc <=? bytes then
    (mkArena (allocations a ++ [fresh]) (remainingBytes a) (currentChunkStart a), fresh)
  else
    let a := if remainingBytes a <? round bytes
             then mkArena (allocations a ++ [fresh]) chunkSize fresh else a in
    (mkArena (allocations a) (remainingBytes a - round bytes) (currentChunkStart a + round bytes),
     currentChunkStart a).

Definition Arena_alloc (a : Arena) (bytes fresh : Z) : Arena * Z := alloc_with (λ n, n) a bytes fresh.

Definition alignedBytes (bytes : Z) : Z :=
  Z.land (u64 (bytes + allocAlignment - 1)) (u64 (Z.lnot (allocAlignment - 1))).
Definition AlignedArena_alloc (a : Arena) (bytes fresh : Z) : Arena * Z := alloc_with alignedBytes a bytes fresh.

(** [VarLen32::fromString] of the text [str] whose bytes are at [data]; the
    arena is the worker's string arena. *)
Definition fromString (m : Mem) (a : Arena) (data : Z) (str : bytes) (fresh : Z) : res (Mem * Arena * VarLen32) :=
  let size := Z.of_nat (length str) in
  if size <=? shortLen then let* v := newVarLen32 m data size in Ok (m, a, v)
  else
    let '(a, ptr) := Arena_alloc a size fresh in
    let* m := mem_write m ptr str in
    let* v := newVarLen32 m ptr (u32 size) in Ok (m, a, v).

(** ** Pointer tags *)

Section tags.
(** The table of 2048 masks in src/runtime/helpers.cpp. *)
Context (bloomMasks : Z → Z).

Definition tag_mask (hash : Z) : Z := wrap_u 16 (bloomMasks (Z.shiftr hash (64 - 11))).

Definition tag (ptr previousPtr hash : Z) : Z :=
  let previousTag := wrap_u 16 previousPtr in
  let currentTag := tag_mask hash in
  u64 (Z.lor (u64 (Z.shiftl ptr 16)) (Z.lor currentTag previousTag)).

Definition matchesTag (ptr hash : Z) : bool :=
  let entry := wrap_u 16 ptr in
  Z.land (tag_mask hash) (Z.lnot entry) =? 0.

Definition untag (ptr : Z) : Z := Z.shiftr ptr 16.

Definition filterTagged (ptr hash : Z) : Z := if matchesTag ptr hash then untag ptr else 0.
End tags.
