(* ===== verification/HelpersProps.v ===== *)
(** * Correctness of the runtime's strings, arenas and tags

    Theorems about Helpers.v: short reads never see the bytes around a string,
    string values read back and compare by their sixteen bytes, arenas hand out
    disjoint ranges, and pointer tags have no false negatives. *)

From S2P Require Import Prelude Bytes Helpers.
From Stdlib Require Import Strings.Byte.
#[local] Open Scope Z_scope.

(** ** Reading and writing memory *)

Lemma mem_read_ok m p n (bs : list byte) :
  mem_read m p n = Ok bs ↔ length bs = n ∧ ∀ i, (i < n)%nat → m (p + Z.of_nat i) = bs !! i.
Proof.
  revert p bs. induction n as [|n IH]; intros p bs; simpl.
  { split; [intros [= <-]; split; [done|lia]|]. intros [Hl _]. by rewrite (nil_length_inv bs). }
  split.
  - destruct (m p) as [b|] eqn:Eb; [|done]. intros H. apply res_bind_ok in H as (bs' & H & [= <-]).
    apply IH in H as [<- H]. split; [done|]. intros [|i] Hi; simpl.
    + by rewrite Z.add_0_r.
    + etrans; [|exact (H i ltac:(lia))]. f_equal. lia.
  - intros [Hl H]. destruct bs as [|b bs]; [done|]. injection Hl as Hl.
    pose proof (H 0%nat ltac:(lia)) as H0. rewrite Z.add_0_r in H0. rewrite H0. simpl.
    rewrite (proj2 (IH (p + 1) bs)); [done|]. split; [done|]. intros i Hi.
    etrans; [|exact (H (S i) ltac:(lia))]. f_equal. lia.
Qed.

Lemma mem_read_app m p n1 n2 (bs : list byte) :
  mem_read m p (n1 + n2) = Ok bs ↔
  mem_read m p n1 = Ok (take n1 bs) ∧ mem_read m (p + Z.of_nat n1) n2 = Ok (drop n1 bs).
Proof.
  rewrite !mem_read_ok, length_take, length_drop. split.
  - intros [Hl H]. split_and!; [lia| |lia|].
    + intros i Hi. rewrite lookup_take_lt by lia. apply H. lia.
    + intros i Hi. rewrite lookup_drop, <- H by lia. f_equal. lia.
  - intros [[H1 Ha] [H2 Hb]]. split; [lia|]. intros i Hi.
    destruct (Nat.lt_ge_cases i n1) as [Hlt|Hge].
    + rewrite Ha, lookup_take_lt by lia. done.
    + specialize (Hb (i - n1)%nat ltac:(lia)). rewrite lookup_drop in Hb.
      replace (n1 + (i - n1))%nat with i in Hb by lia. rewrite <- Hb. f_equal. lia.
Qed.

Lemma mem_read_mapped m p n :
  (∀ i, (i < n)%nat → is_Some (m (p + Z.of_nat i))) → ∃ bs, mem_read m p n = Ok bs ∧ length bs = n.
Proof.
  revert p. induction n as [|n IH]; intros p H; simpl; [by exists []|].
  destruct (H 0%nat ltac:(lia)) as [b Hb]. rewrite Z.add_0_r in Hb. rewrite Hb.
  destruct (IH (p + 1)) as (bs & -> & Hl).
  { intros i Hi. replace (p + 1 + Z.of_nat i) with (p + Z.of_nat (S i)) by lia. apply H. lia. }
  exists (b :: bs). simpl. split; [done|lia].
Qed.

(** The text [bs] is at [p]. *)
Abbreviation holds m p bs := (mem_read m p (length bs%list) = Ok bs%list).

Lemma mem_set_holds m p (bs : list byte) : holds (mem_set m p bs) p bs.
Proof.
  apply mem_read_ok. split; [done|]. intros i Hi. unfold mem_set.
  destruct (Z.leb_spec p (p + Z.of_nat i)); [|lia].
  destruct (Z.ltb_spec (p + Z.of_nat i) (p + Z.of_nat (length bs))); [|lia]. simpl.
  f_equal. lia.
Qed.

Lemma mem_set_frame m p bs q n :
  (∀ i, (i < n)%nat → ¬ (p ≤ q + Z.of_nat i < p + Z.of_nat (length bs))) →
  mem_read (mem_set m p bs) q n = mem_read m q n.
Proof.
  revert q. induction n as [|n IH]; intros q H; simpl; [done|].
  pose proof (H 0%nat ltac:(lia)) as H0. unfold mem_set at 1.
  destruct (Z.leb_spec p q), (Z.ltb_spec q (p + Z.of_nat (length bs))); simpl;
    try (exfalso; apply H0; lia);
    (rewrite IH; [done|]; intros i Hi; specialize (H (S i) ltac:(lia)); lia).
Qed.

(** ** Little-endian numbers of parts *)

Lemma le_val_app a b : le_val (a ++ b) = le_val a + 2 ^ (8 * Z.of_nat (length a)) * le_val b.
Proof.
  induction a as [|x a IH]; [simpl length; simpl app; rewrite Z.mul_1_l; done|].
  simpl app. cbn [le_val length]. rewrite IH, pow256_S. lia.
Qed.

Lemma le_val_low a b : le_val (a ++ b) mod 2 ^ (8 * Z.of_nat (length a)) = le_val a.
Proof.
  rewrite le_val_app, Z.mul_comm, Z.mod_add by (apply Z.pow_nonzero; lia).
  apply Z.mod_small, le_val_range.
Qed.

Lemma le_val_high a b : Z.shiftr (le_val (a ++ b)) (8 * Z.of_nat (length a)) = le_val b.
Proof.
  rewrite le_val_app, Z.shiftr_div_pow2 by lia. rewrite Z.mul_comm, Z.div_add by (apply Z.pow_nonzero; lia).
  rewrite Z.div_small by apply le_val_range. lia.
Qed.

Lemma le_val_inj a b : length a = length b → le_val a = le_val b → a = b.
Proof. intros Hl Hv. rewrite <- (le_bytes_val a), <- (le_bytes_val b). by rewrite Hl, Hv. Qed.

(** ** Short reads *)

(** Memory is mapped in whole cache lines, as pages are. *)
Definition lines_mapped (m : Mem) : Prop := ∀ a b, a / 64 = b / 64 → is_Some (m a) → is_Some (m b).

Lemma low_mask n : (0 < n < 8)%nat →
  wrap_u 64 (Z.lnot (wrap_u 64 (Z.shiftl (2 ^ 64 - 1) (Z.of_nat n * 8)))) = 2 ^ (8 * Z.of_nat n) - 1.
Proof. intros Hn. do 8 (destruct n as [|n]; [first [lia|reflexivity]|]). lia. Qed.

Lemma land_63 p : Z.land p 63 = p mod 64.
Proof. change 63 with (2 ^ 6 - 1). by rewrite land_ones_mod. Qed.

(** The bytes of a text with what a full load sees behind or before it. *)
Lemma load64_padded m p (bs : list byte) :
  lines_mapped m → holds m p bs → (0 < length bs < 8)%nat →
  if cachelineRemains8 p
  then ∃ rest, mem_read m p 8 = Ok (bs ++ rest)
  else ∃ pre, mem_read m (p + Z.of_nat (length bs) - 8) 8 = Ok (pre ++ bs) ∧ length pre = (8 - length bs)%nat.
Proof.
  intros Hm Hb Hn. pose proof (proj1 (mem_read_ok _ _ _ _) Hb) as [_ Hbs].
  assert (is_Some (m p)) as Hp.
  { specialize (Hbs 0%nat ltac:(lia)). rewrite Z.add_0_r in Hbs. rewrite Hbs. apply lookup_lt_is_Some. lia. }
  pose proof (Z.div_mod p 64 ltac:(lia)) as Hdm. pose proof (Z.mod_pos_bound p 64 ltac:(lia)) as Hr.
  unfold cachelineRemains8. rewrite land_63. destruct (Z.leb_spec (p mod 64) 56) as [Hle|Hgt].
  - destruct (mem_read_mapped m (p + Z.of_nat (length bs)) (8 - length bs)) as (rest & Hrest & Hlen).
    { intros i Hi. apply (Hm p); [|done].
      apply (Z.div_unique_pos _ _ _ (p mod 64 + Z.of_nat (length bs + i))); lia. }
    exists rest. replace 8%nat with (length bs + (8 - length bs))%nat by lia.
    apply mem_read_app. by rewrite take_app_length, drop_app_length.
  - destruct (mem_read_mapped m (p + Z.of_nat (length bs) - 8) (8 - length bs)) as (pre & Hpre & Hlen).
    { intros i Hi. apply (Hm p); [|done].
      apply (Z.div_unique_pos _ _ _ (p mod 64 + Z.of_nat (length bs + i) - 8)); lia. }
    exists pre. split; [|done].
    pose proof (proj2 (mem_read_app m (p + Z.of_nat (length bs) - 8) (8 - length bs) (length bs) (pre ++ bs))) as H.
    rewrite take_app_length', drop_app_length' in H by done.
    replace (p + Z.of_nat (length bs) - 8 + Z.of_nat (8 - length bs)) with p in H by lia.
    replace (8 - length bs + length bs)%nat with 8%nat in H by lia. by apply H.
Qed.

Lemma read8PadZero_value m p bs :
  lines_mapped m → holds m p bs → (length bs ≤ 8)%nat →
  read8PadZero m p (Z.of_nat (length bs)) = Ok (le_val bs).
Proof.
  intros Hm Hb Hn. unfold read8PadZero.
  destruct (Z.eqb_spec (Z.of_nat (length bs)) 0); [by rewrite (nil_length_inv bs) by lia|].
  destruct (Z.leb_spec 8 (Z.of_nat (length bs))).
  { assert (length bs = 8%nat) as E by lia. rewrite E in Hb. unfold unalignedLoad64. by rewrite Hb. }
  pose proof (load64_padded m p bs Hm Hb ltac:(lia)) as Hld. unfold unalignedLoad64.
  destruct (cachelineRemains8 p).
  - destruct Hld as [rest ->]. cbn [res_bind]. rewrite low_mask by lia. rewrite land_ones_mod by lia.
    by rewrite le_val_low.
  - destruct Hld as (pre & -> & Hpre). cbn [res_bind].
    replace (64 - Z.of_nat (length bs) * 8) with (8 * Z.of_nat (length pre)) by lia. by rewrite le_val_high.
Qed.

(** ** Values of VarLen32 *)

Lemma le_bytes_zero n : le_bytes n 0 = replicate n Byte.x00.
Proof. induction n as [|n IH]; [done|]. cbn [le_bytes]. change (0 / 256) with 0. by rewrite IH. Qed.

Lemma le_bytes_pad n (a : list byte) :
  (length a ≤ n)%nat → le_bytes n (le_val a) = a ++ replicate (n - length a) Byte.x00.
Proof.
  revert n. induction a as [|x a IH]; intros n Hn; cbn [le_val].
  { by rewrite le_bytes_zero, Nat.sub_0_r. }
  destruct n as [|n]; [simpl in Hn; lia|]. cbn [le_bytes].
  pose proof (le_bytes_val (x :: a)) as H. cbn [le_val length le_bytes] in H. injection H as Hx Ha. rewrite Hx.
  assert ((byte_val x + 256 * le_val a) / 256 = le_val a) as ->.
  { pose proof (byte_val_range x). rewrite Z.mul_comm, Z.div_add, Z.div_small by lia. lia. }
  rewrite IH by (simpl in Hn; lia). done.
Qed.

Lemma le_val_take4 (bs : list byte) : u32 (le_val bs) = le_val (take 4 bs).
Proof.
  destruct (Nat.le_gt_cases 4 (length bs)) as [H|H].
  - rewrite <- (take_drop 4 bs) at 1. pose proof (le_val_low (take 4 bs) (drop 4 bs)) as E.
    rewrite length_take, Nat.min_l in E by lia. exact E.
  - rewrite take_ge by lia. apply wrap_u_id. pose proof (le_val_range bs) as Hr. unfold in_u.
    pose proof (Z.pow_le_mono_r 2 (8 * Z.of_nat (length bs)) 32 ltac:(lia) ltac:(lia)). lia.
Qed.

Lemma le_val_drop4 (bs : list byte) : Z.shiftr (le_val bs) 32 = le_val (drop 4 bs).
Proof.
  destruct (Nat.le_gt_cases 4 (length bs)) as [H|H].
  - rewrite <- (take_drop 4 bs) at 1. pose proof (le_val_high (take 4 bs) (drop 4 bs)) as E.
    rewrite length_take, Nat.min_l in E by lia. exact E.
  - rewrite drop_ge by lia. rewrite Z.shiftr_div_pow2 by lia. pose proof (le_val_range bs).
    pose proof (Z.pow_le_mono_r 2 (8 * Z.of_nat (length bs)) 32 ltac:(lia) ltac:(lia)). apply Z.div_small. lia.
Qed.

(** A short text is stored as its bytes, padded with zeros. *)
Lemma newVarLen32_short m p (bs : list byte) :
  lines_mapped m → holds m p bs → (length bs ≤ 12)%nat →
  newVarLen32 m p (Z.of_nat (length bs)) =
    Ok (mkVarLen (Z.of_nat (length bs)) (le_val (take 4 bs)) (le_val (drop 4 bs))).
Proof.
  intros Hm Hb Hn. unfold newVarLen32, shortLen. destruct (Z.ltb_spec 12 (Z.of_nat (length bs))); [lia|].
  destruct (Z.ltb_spec 8 (Z.of_nat (length bs))).
  - unfold unalignedLoad32, unalignedLoad64. set (n := length bs) in *.
    pose proof (proj1 (mem_read_app m p 4 (n - 4) bs)) as H4.
    replace (4 + (n - 4))%nat with n in H4 by lia. destruct (H4 Hb) as [-> _]. cbn [res_bind].
    pose proof (proj1 (mem_read_app m p (n - 8) 8 bs)) as H8.
    replace (n - 8 + 8)%nat with n in H8 by lia. destruct (H8 Hb) as [_ H8']. clear H8.
    replace (p + Z.of_nat (n - 8)) with (p + Z.of_nat n - 8) in H8' by lia. rewrite H8'. cbn [res_bind].
    do 2 f_equal. rewrite <- (take_drop (12 - n) (drop (n - 8) bs)).
    replace ((12 - Z.of_nat n) * 8) with (8 * Z.of_nat (length (take (12 - n) (drop (n - 8) bs)))).
    { rewrite le_val_high, drop_drop. do 2 f_equal. lia. }
    rewrite length_take, length_drop. fold n. lia.
  - rewrite read8PadZero_value by (done || lia). cbn [res_bind]. by rewrite le_val_take4, le_val_drop4.
Qed.

Lemma short_bytes (bs : list byte) :
  (length bs ≤ 12)%nat →
  take (length bs) (le_bytes 4 (le_val (take 4 bs)) ++ le_bytes 8 (le_val (drop 4 bs))) = bs.
Proof.
  intros Hn. rewrite !le_bytes_pad by (rewrite ?length_take, ?length_drop; lia).
  destruct (Nat.le_gt_cases 4 (length bs)) as [H|H].
  - rewrite length_take, Nat.min_l, Nat.sub_diag by lia. rewrite app_nil_r, app_assoc, take_drop.
    apply take_app_length.
  - rewrite (take_ge bs) by lia. rewrite <- app_assoc. apply take_app_length.
Qed.

(** What a string value says about the text it was made from. *)
Record represents (m : Mem) (p : Z) (bs : list byte) (v : VarLen32) : Prop := {
  rep_len : vl_len v = Z.of_nat (length bs);
  rep_str : vl_str m v = Ok bs;
  rep_first : first4 v = le_val (take 4 bs);
  rep_last : last8 v = if isShort v then le_val (drop 4 bs) else p;
}.

Lemma newVarLen32_ok m p (bs : list byte) :
  lines_mapped m → holds m p bs →
  ∃ v, newVarLen32 m p (Z.of_nat (length bs)) = Ok v ∧ represents m p bs v.
Proof.
  intros Hm Hb. destruct (Nat.le_gt_cases (length bs) 12) as [Hs|Hl].
  - rewrite newVarLen32_short by done. eexists. split; [done|].
    assert ((Z.of_nat (length bs) <=? 12) = true) as E by (apply Z.leb_le; lia).
    split; unfold vl_str, isShort, shortLen; simpl; rewrite ?E; [done| |done|done].
    rewrite Nat2Z.id. f_equal. by apply short_bytes.
  - unfold newVarLen32, shortLen. destruct (Z.ltb_spec 12 (Z.of_nat (length bs))); [|lia].
    pose proof (proj1 (mem_read_app m p 4 (length bs - 4) bs)) as H4.
    replace (4 + (length bs - 4))%nat with (length bs) in H4 by lia. destruct (H4 Hb) as [E4 _].
    unfold unalignedLoad32. rewrite E4. cbn [res_bind]. eexists. split; [done|].
    assert ((Z.of_nat (length bs) <=? 12) = false) as E by (apply Z.leb_gt; lia).
    split; unfold vl_str, isShort, shortLen; simpl; rewrite ?E; try done. by rewrite Nat2Z.id.
Qed.

(** The sixteen bytes as a number determine the three parts. *)
Lemma asI128_inj v1 v2 :
  in_u 32 (vl_len v1) → in_u 32 (first4 v1) → in_u 64 (last8 v1) →
  in_u 32 (vl_len v2) → in_u 32 (first4 v2) → in_u 64 (last8 v2) →
  asI128 v1 = asI128 v2 → v1 = v2.
Proof.
  destruct v1 as [n1 f1 l1], v2 as [n2 f2 l2]. unfold asI128, in_u. simpl. intros H1 H2 H3 H4 H5 H6 H.
  apply (f_equal (wrap_u 128)) in H. rewrite !wrap_u_s in H by (unfold in_u; lia).
  assert (n1 = n2 ∧ f1 = f2 ∧ l1 = l2) as (-> & -> & ->) by lia. done.
Qed.

Lemma represents_range m p (bs : list byte) v :
  represents m p bs v → in_u 64 p → (Z.of_nat (length bs) < 2 ^ 32) →
  in_u 32 (vl_len v) ∧ in_u 32 (first4 v) ∧ in_u 64 (last8 v).
Proof.
  intros [Hl Hs Hf Hla] Hp Hn. rewrite Hl, Hf, Hla. unfold in_u in *.
  pose proof (le_val_range (take 4 bs)) as H4. pose proof (le_val_range (drop 4 bs)) as H8.
  rewrite length_take in H4. rewrite length_drop in H8.
  pose proof (Z.pow_le_mono_r 2 (8 * Z.of_nat (4 `min` length bs)) 32 ltac:(lia) ltac:(lia)).
  split_and!; try lia.
  - destruct (isShort v); lia.
  - unfold isShort. rewrite Hl. unfold shortLen. destruct (Z.leb_spec (Z.of_nat (length bs)) 12); [|lia].
    pose proof (Z.pow_le_mono_r 2 (8 * Z.of_nat (length bs - 4)) 64 ltac:(lia) ltac:(lia)). lia.
Qed.

(** Comparing strings: a short string and any other string, wherever their
    texts lie in memory and whatever surrounds them, are equal exactly when
    their sixteen-byte values are equal as 128-bit integers. *)
Theorem varlen_equality m1 p1 (s1 : list byte) m2 p2 (s2 : list byte) :
  lines_mapped m1 → holds m1 p1 s1 → in_u 64 p1 → (length s1 ≤ 12)%nat →
  lines_mapped m2 → holds m2 p2 s2 → in_u 64 p2 → Z.of_nat (length s2) < 2 ^ 32 →
  ∃ v1 v2, newVarLen32 m1 p1 (Z.of_nat (length s1)) = Ok v1 ∧
    newVarLen32 m2 p2 (Z.of_nat (length s2)) = Ok v2 ∧ (asI128 v1 = asI128 v2 ↔ s1 = s2).
Proof.
  intros Hm1 Hb1 Hp1 Hn1 Hm2 Hb2 Hp2 Hn2.
  destruct (newVarLen32_ok m1 p1 s1 Hm1 Hb1) as (v1 & E1 & R1).
  destruct (newVarLen32_ok m2 p2 s2 Hm2 Hb2) as (v2 & E2 & R2). exists v1, v2. split_and!; [done..|].
  split.
  - intros H. destruct (represents_range _ _ _ _ R1 Hp1 ltac:(lia)) as (? & ? & ?).
    destruct (represents_range _ _ _ _ R2 Hp2 ltac:(lia)) as (? & ? & ?).
    assert (v1 = v2) as E by (by apply asI128_inj). pose proof (rep_str _ _ _ _ R1) as S1.
    pose proof (rep_str _ _ _ _ R2) as S2. rewrite <- E in S2. unfold vl_str in S1, S2.
    assert (isShort v1 = true) as Es.
    { unfold isShort, shortLen. rewrite (rep_len _ _ _ _ R1). apply Z.leb_le. lia. }
    rewrite Es in S1, S2. congruence.
  - intros <-. destruct v1 as [n1 f1 l1], v2 as [n2 f2 l2].
    pose proof (rep_len _ _ _ _ R1). pose proof (rep_len _ _ _ _ R2). pose proof (rep_first _ _ _ _ R1).
    pose proof (rep_first _ _ _ _ R2). pose proof (rep_last _ _ _ _ R1) as L1. pose proof (rep_last _ _ _ _ R2) as L2.
    unfold isShort, shortLen in *. simpl in *. subst.
    destruct (Z.leb_spec (Z.of_nat (length s1)) 12); [|lia]. by subst.
Qed.

Definition sample_memory : Mem := λ a, Some (byte_of_Z (a / 3)).
Lemma sample_mapped : lines_mapped sample_memory.
Proof. intros a b _ _. by eexists. Qed.

Lemma varlen_equality_witness :
  ∃ v1 v2, newVarLen32 sample_memory 62 4 = Ok v1 ∧ newVarLen32 (λ a, sample_memory (a - 60)) 122 4 = Ok v2 ∧
    (asI128 v1 = asI128 v2 ↔ [Byte.x14; Byte.x15; Byte.x15; Byte.x15] = [Byte.x14; Byte.x15; Byte.x15; Byte.x15]).
Proof.
  apply (varlen_equality sample_memory 62 [Byte.x14; Byte.x15; Byte.x15; Byte.x15]
           (λ a, sample_memory (a - 60)) 122 [Byte.x14; Byte.x15; Byte.x15; Byte.x15]);
    [apply sample_mapped|reflexivity|unfold in_u; lia|simpl; lia| |reflexivity|unfold in_u; lia|simpl; lia].
  intros a b _ _. by eexists.
Defined.

(** ** Arenas *)

Definition in_blk (x : Z) (r : Z * Z) : Prop := fst r ≤ x < fst r + snd r.
Definition apart (r1 r2 : Z * Z) : Prop := ∀ x, in_blk x r1 → in_blk x r2 → False.
Definition within (r b : Z * Z) : Prop := ∀ x, in_blk x r → in_blk x b.
(** An empty range lies anywhere. *)
Definition covered (blocks : list (Z * Z)) (r : Z * Z) : Prop := snd r ≤ 0 ∨ ∃ b, b ∈ blocks ∧ within r b.

Lemma covered_cons b blocks r : covered blocks r → covered (b :: blocks) r.
Proof. intros [?|(c & ? & ?)]; [by left|right]. exists c. set_solver. Qed.

Lemma covered_apart blocks r b : covered blocks r → Forall (apart b) blocks → apart b r.
Proof.
  intros [He|(c & Hc & Hw)] Hf x Hb Hr; [unfold in_blk in Hr; lia|].
  rewrite Forall_forall in Hf. by apply (Hf c Hc x Hb), Hw.
Qed.

Section arena.
Context (round : Z → Z) (align : Z).
Hypothesis align_pos : 0 < align.
Hypothesis round_spec : ∀ n, 0 ≤ n < thresholdDirectAlloc → n ≤ round n ≤ chunkSize ∧ (align | round n).

Definition add_block (blocks : list (Z * Z)) (fresh : Z) (size : option Z) : list (Z * Z) :=
  match size with Some size => (fresh, size) :: blocks | None => blocks end.

(** Sequences of allocations: the arena, the blocks [malloc] returned, and the
    ranges handed out.  Each new block is apart from the earlier ones. *)
Inductive arena_run : Arena → list (Z * Z) → list (Z * Z) → Prop :=
  | run_new : arena_run newArena [] []
  | run_alloc a blocks given bytes fresh :
      arena_run a blocks given →
      0 ≤ bytes → (align | fresh) →
      (∀ size, mallocs round a bytes = Some size → Forall (apart (fresh, size)) blocks) →
      arena_run (fst (alloc_with round a bytes fresh)) (add_block blocks fresh (mallocs round a bytes))
        ((snd (alloc_with round a bytes fresh), bytes) :: given).

Record arena_inv (a : Arena) (blocks given : list (Z * Z)) : Prop := {
  ai_rest : 0 ≤ remainingBytes a ∧ (align | currentChunkStart a) ∧ covered blocks (currentChunkStart a, remainingBytes a);
  ai_free : Forall (apart (currentChunkStart a, remainingBytes a)) given;
  ai_given : ForallOrdPairs apart given;
  ai_covered : Forall (λ r, covered blocks r ∧ (align | fst r)) given;
}.

(** Taking [n] of the [k] bytes the chunk's rest takes. *)
Lemma take_chunk a blocks given bytes k :
  arena_inv a blocks given → 0 ≤ bytes ≤ k → k ≤ remainingBytes a → (align | k) →
  arena_inv (mkArena (allocations a) (remainingBytes a - k) (currentChunkStart a + k)) blocks
    ((currentChunkStart a, bytes) :: given).
Proof.
  intros [(Hr & Ha & Hc) Hf Hg Hcov] Hb Hk Hd.
  assert (∀ n off, 0 ≤ off → off + n ≤ remainingBytes a → covered blocks (currentChunkStart a + off, n)) as Hsub.
  { intros n off ? ?. destruct Hc as [?|(b & Hin & Hw)]; [left; simpl in *; lia|].
    right. exists b. split; [done|]. intros x Hx. apply Hw. unfold in_blk in *; simpl in *; lia. }
  split; simpl.
  - split_and!; [lia|by apply Z.divide_add_r|apply Hsub; lia].
  - constructor; [intros x; unfold in_blk; simpl; lia|]. eapply Forall_impl; [exact Hf|].
    intros r Hap x Hx. apply Hap. unfold in_blk in *; simpl in *; lia.
  - constructor; [|done]. eapply Forall_impl; [exact Hf|].
    intros r Hap x Hx. apply Hap. unfold in_blk in *; simpl in *; lia.
  - constructor; [|done]. split; [|done]. specialize (Hsub bytes 0). rewrite Z.add_0_r in Hsub. apply Hsub; lia.
Qed.

Lemma add_block_inv a blocks given b :
  arena_inv a blocks given → arena_inv a (b :: blocks) given.
Proof.
  intros [(Hr & Ha & Hc) Hf Hg Hcov]. split; [|done|done|].
  - split_and!; [done|done|by apply covered_cons].
  - eapply Forall_impl; [exact Hcov|]. intros r [? ?]. split; [by apply covered_cons|done].
Qed.

Lemma arena_run_inv a blocks given : arena_run a blocks given → arena_inv a blocks given.
Proof.
  induction 1 as [|a blocks given bytes fresh Hrun IH Hb Hfr Hap].
  { split; simpl; [|constructor..]. split_and!; [lia|apply Z.divide_0_r|by left]. }
  pose proof IH as [(Hr & Ha & Hc) Hf Hg Hcov].
  assert (∀ size, Forall (apart (fresh, size)) blocks → Forall (apart (fresh, size)) given) as Hnew.
  { intros size Hs. eapply Forall_impl; [exact Hcov|]. intros r [? _]. by eapply covered_apart. }
  unfold alloc_with, mallocs in *. destruct (Z.leb_spec thresholdDirectAlloc bytes) as [Hbig|Hsmall]; simpl.
  - specialize (Hap bytes eq_refl). pose proof (add_block_inv _ _ _ (fresh, bytes) IH) as [H1 H2 H3 H4].
    split; simpl; [done| | |].
    + constructor; [|done]. intros x H H'. by apply (covered_apart _ _ _ Hc Hap x H').
    + constructor; [by apply Hnew|done].
    + constructor; [|done]. split; [|done]. right. exists (fresh, bytes). split; [set_solver|by intros x Hx].
  - pose proof (round_spec bytes ltac:(lia)) as [Hround Hdiv]. destruct (Z.ltb_spec (remainingBytes a) (round bytes)); simpl.
    + specialize (Hap chunkSize eq_refl).
      apply (take_chunk (mkArena (allocations a ++ [fresh]) chunkSize fresh)); simpl; [|lia|lia|done].
      destruct (add_block_inv _ _ _ (fresh, chunkSize) IH) as [_ _ H3 H4]. split; simpl; [|by apply Hnew|done|done].
      split_and!; [done|done|]. right. exists (fresh, chunkSize). split; [set_solver|by intros x Hx].
    + by apply take_chunk; [|lia|lia|].
Qed.
End arena.

Lemma alignedBytes_spec n :
  0 ≤ n < thresholdDirectAlloc → n ≤ alignedBytes n ≤ chunkSize ∧ (allocAlignment | alignedBytes n).
Proof.
  unfold thresholdDirectAlloc, chunkSize, allocAlignment. intros Hn.
  assert (alignedBytes n = (n + 15) / 16 * 16) as ->.
  { unfold alignedBytes, allocAlignment. rewrite <- Z.add_sub_assoc. change (16 - 1) with 15.
    unfold u64. rewrite (wrap_u_id 64 (n + 15)) by (unfold in_u; lia).
    unfold wrap_u. rewrite <- (Z.land_ones (Z.lnot 15)) by lia. rewrite Z.land_assoc. change 15 with (Z.ones 4) at 2.
    rewrite <- Z.ldiff_land, Z.ldiff_ones_r by lia. rewrite Z.shiftr_div_pow2, Z.shiftl_mul_pow2 by lia.
    rewrite Z.land_ones by lia. change (2 ^ 4) with 16.
    pose proof (Z.div_mod (n + 15) 16 ltac:(lia)). pose proof (Z.mod_pos_bound (n + 15) 16 ltac:(lia)).
    apply Z.mod_small. lia. }
  pose proof (Z.div_mod (n + 15) 16 ltac:(lia)). pose proof (Z.mod_pos_bound (n + 15) 16 ltac:(lia)).
  split; [lia|apply Z.divide_factor_r].
Qed.

(** The arena of literals: after any sequence of allocations, all ranges
    handed out are pairwise disjoint, lie inside blocks obtained from [malloc],
    and start at a multiple of the alignment. *)
Theorem aligned_arena_disjoint a blocks given :
  arena_run alignedBytes allocAlignment a blocks given →
  ForallOrdPairs apart given ∧ Forall (λ r, covered blocks r ∧ (allocAlignment | fst r)) given.
Proof.
  intros H. apply arena_run_inv in H; [|done|apply alignedBytes_spec]. by destruct H.
Qed.

Lemma aligned_arena_disjoint_witness :
  ForallOrdPairs apart [(4128, 10000); (4096, 17)] ∧
  Forall (λ r, covered [(4096, chunkSize)] r ∧ (allocAlignment | fst r)) [(4128, 10000); (4096, 17)].
Proof.
  assert (arena_run alignedBytes allocAlignment (fst (AlignedArena_alloc newArena 17 4096)) [(4096, chunkSize)] [(4096, 17)]) as H1.
  { apply (run_alloc alignedBytes allocAlignment newArena [] [] 17 4096); [constructor|lia|by exists 256|].
    intros ? _. constructor. }
  assert (arena_run alignedBytes allocAlignment
            (fst (AlignedArena_alloc (fst (AlignedArena_alloc newArena 17 4096)) 10000 0))
            [(4096, chunkSize)] [(4128, 10000); (4096, 17)]) as H2.
  { apply (run_alloc alignedBytes allocAlignment _ _ _ 10000 0 H1); [lia|by exists 0|]. intros ? [=]. }
  exact (aligned_arena_disjoint _ _ _ H2).
Defined.

Lemma plain_round_spec n : 0 ≤ n < thresholdDirectAlloc → n ≤ n ≤ chunkSize ∧ (1 | n).
Proof. unfold thresholdDirectAlloc, chunkSize. intros. split; [lia|apply Z.divide_1_l]. Qed.

(** ** Strings over time *)

(** What a query does with its worker's string arena: texts become string
    values, and between these calls memory changes outside the ranges that
    belong to earlier strings. *)
Inductive string_run : Mem → Arena → list (Z * Z) → list (Z * Z) → list (list byte * VarLen32) → Prop :=
  | srun_new m : lines_mapped m → string_run m newArena [] [] []
  | srun_other m m' a blocks given strs :
      string_run m a blocks given strs → lines_mapped m' →
      Forall (λ r, ∀ x, in_blk x r → m' x = m x) given →
      string_run m' a blocks given strs
  | srun_string m a blocks given strs data (str : list byte) fresh m' a' v :
      string_run m a blocks given strs →
      fromString m a data str fresh = Ok (m', a', v) →
      holds m data str → Z.of_nat (length str) < 2 ^ 32 →
      (∀ size, mallocs (λ n, n) a (Z.of_nat (length str)) = Some size → Forall (apart (fresh, size)) blocks) →
      string_run m' a'
        (if Z.of_nat (length str) <=? shortLen then blocks
         else add_block blocks fresh (mallocs (λ n, n) a (Z.of_nat (length str))))
        (if Z.of_nat (length str) <=? shortLen then given
         else (snd (Arena_alloc a (Z.of_nat (length str)) fresh), Z.of_nat (length str)) :: given)
        ((str, v) :: strs).

(** A string value is short, or its text is in its own range. *)
Definition owns (given : list (Z * Z)) (m : Mem) (sv : list byte * VarLen32) : Prop :=
  vl_str m (snd sv) = Ok (fst sv) ∧
  (isShort (snd sv) = true ∨
   (vl_len (snd sv) = Z.of_nat (length (fst sv)) ∧ (last8 (snd sv), vl_len (snd sv)) ∈ given)).

Lemma mem_read_ext m m' p n : (∀ x, p ≤ x < p + Z.of_nat n → m' x = m x) → mem_read m' p n = mem_read m p n.
Proof.
  revert p. induction n as [|n IH]; intros p H; simpl; [done|].
  rewrite H, IH by (intros; try apply H; lia). done.
Qed.

Lemma owns_keep given given' m m' sv :
  owns given m sv → given ⊆ given' → Forall (λ r, ∀ x, in_blk x r → m' x = m x) given → owns given' m' sv.
Proof.
  intros [Hs Ho] Hsub Hk. split.
  - destruct Ho as [Hshort|[Hl Hin]]; [unfold vl_str in *; by rewrite Hshort in *|].
    unfold vl_str in *. destruct (isShort (snd sv)); [done|]. rewrite <- Hs. apply mem_read_ext.
    rewrite Forall_forall in Hk. intros x Hx. apply (Hk _ Hin). unfold in_blk. simpl. lia.
  - destruct Ho as [?|[? ?]]; [by left|right]. set_solver.
Qed.

Lemma fromString_long m a data (str : list byte) fresh m' a' v :
  fromString m a data str fresh = Ok (m', a', v) → shortLen < Z.of_nat (length str) < 2 ^ 32 →
  let '(a1, ptr) := Arena_alloc a (Z.of_nat (length str)) fresh in
  a' = a1 ∧ m' = mem_set m ptr str ∧ is_ok (mem_read m ptr (length str)) ∧
  newVarLen32 m' ptr (Z.of_nat (length str)) = Ok v.
Proof.
  unfold fromString. intros H Hn. destruct (Z.leb_spec (Z.of_nat (length str)) shortLen); [lia|].
  destruct (Arena_alloc a (Z.of_nat (length str)) fresh) as [a1 ptr]. unfold mem_write in H. inv_ok.
  unfold u32 in *. rewrite wrap_u_id in * by (unfold in_u; unfold shortLen in *; lia). split_and!; try done. by eexists.
Qed.

Lemma mem_set_lines m p (bs : list byte) : lines_mapped m → is_ok (mem_read m p (length bs)) → lines_mapped (mem_set m p bs).
Proof.
  intros Hm [cs Hcs] x y Hxy Hx. apply mem_read_ok in Hcs as [Hl Hcs].
  assert (∀ z, is_Some (mem_set m p bs z) ↔ is_Some (m z)) as E; [|by apply E, (Hm x); [|apply E]].
  intros z. unfold mem_set. destruct (Z.leb_spec p z), (Z.ltb_spec z (p + Z.of_nat (length bs))); simpl; [|done..].
  specialize (Hcs (Z.to_nat (z - p)) ltac:(lia)). replace (p + Z.of_nat (Z.to_nat (z - p))) with z in Hcs by lia.
  rewrite Hcs. rewrite !lookup_lt_is_Some. lia.
Qed.

Lemma string_run_inv m a blocks given strs :
  string_run m a blocks given strs →
  lines_mapped m ∧ arena_run (λ n, n) 1 a blocks given ∧ Forall (owns given m) strs.
Proof.
  induction 1 as [m Hm|m m' a blocks given strs Hrun (Hm & Ha & Ho) Hm' Hk
                 |m a blocks given strs data str fresh m' a' v Hrun (Hm & Ha & Ho) Hf Hb Hn Hfr].
  - split_and!; [done|constructor|constructor].
  - split_and!; [done|done|]. eapply Forall_impl; [exact Ho|]. intros sv Hsv. by eapply owns_keep.
  - destruct (Z.leb_spec (Z.of_nat (length str)) shortLen) as [Hs|Hl].
    { unfold fromString in Hf. destruct (Z.leb_spec (Z.of_nat (length str)) shortLen); [|lia]. inv_ok.
      destruct (newVarLen32_ok m' data str Hm Hb) as (v' & Hv & Hr). rewrite Hv in E. injection E as ->.
      split_and!; [done..|].
      constructor; [|done]. split; [by apply Hr|]. left. unfold isShort. simpl. rewrite (rep_len _ _ _ _ Hr). by apply Z.leb_le. }
    pose proof (fromString_long _ _ _ _ _ _ _ _ Hf ltac:(lia)) as Hlong.
    pose proof (run_alloc (λ n, n) 1 a blocks given (Z.of_nat (length str)) fresh Ha ltac:(lia) (Z.divide_1_l _) Hfr) as Hrun'.
    fold (Arena_alloc a (Z.of_nat (length str)) fresh) in Hrun'.
    destruct (Arena_alloc a (Z.of_nat (length str)) fresh) as [a1 ptr]. destruct Hlong as (-> & -> & Hok & Hv).
    pose proof (mem_set_lines _ _ _ Hm Hok) as Hm'. split_and!; [done|exact Hrun'|].
    destruct (newVarLen32_ok _ ptr str Hm' (mem_set_holds m ptr str)) as (v' & Hv' & Hr). rewrite Hv' in Hv. injection Hv as ->.
    constructor.
    + split; [by apply Hr|right]. pose proof (rep_len _ _ _ _ Hr) as El. simpl. split; [done|].
      rewrite (rep_last _ _ _ _ Hr). unfold isShort. rewrite El. destruct (Z.leb_spec (Z.of_nat (length str)) shortLen); [lia|].
      set_solver.
    + eapply Forall_impl; [exact Ho|]. intros sv Hsv. eapply owns_keep; [exact Hsv|set_solver|].
      apply arena_run_inv in Hrun' as [_ _ Hg _]; [|done|apply plain_round_spec]. inversion_clear Hg as [|? ? Hap _].
      eapply Forall_impl; [exact Hap|]. intros r Hr' x Hx. unfold mem_set.
      destruct (Z.leb_spec ptr x), (Z.ltb_spec x (ptr + Z.of_nat (length str))); simpl; try done.
      exfalso. apply (Hr' x); [unfold in_blk; simpl; lia|done].
Qed.

(** Strings stay what they were: over any sequence of conversions of texts
    to string values with one worker's arena, in which [malloc] returns blocks
    apart from the earlier ones and nobody else writes into the arena's ranges,
    every string value made so far still reads as its text. *)
Theorem strings_stable m a blocks given strs :
  string_run m a blocks given strs → Forall (λ sv, vl_str m (snd sv) = Ok (fst sv)) strs.
Proof.
  intros (_ & _ & Ho)%string_run_inv. eapply Forall_impl; [exact Ho|]. by intros sv [? _].
Qed.

(** The texts of the witness: one that takes the arena's first chunk, one short. *)
Definition long_text : list byte := replicate 20 Byte.x15.
Definition text_memory : Mem := λ _, Some Byte.x15.

Lemma strings_stable_witness :
  ∃ m v w, Forall (λ sv, vl_str m (snd sv) = Ok (fst sv)) [([Byte.x15], w); (long_text, v)].
Proof.
  assert (string_run text_memory newArena [] [] []) as H0 by (constructor; intros ? ? _ _; by eexists).
  epose proof (srun_string _ _ _ _ _ 64 long_text 4096 _ _ _ H0 eq_refl eq_refl ltac:(done)) as H1.
  specialize (H1 (λ _ _, Forall_nil_2 _)).
  epose proof (srun_string _ _ _ _ _ 64 [Byte.x15] 0 _ _ _ H1 eq_refl eq_refl ltac:(done)) as H2.
  specialize (H2 ltac:(intros ? E; vm_compute in E; discriminate E)). do 3 eexists. exact (strings_stable _ _ _ _ _ H2).
Defined.

(** A text becomes a string value without fault, and the value reads as the
    text: when the text is at [data] and the arena's target is mapped memory,
    [fromString] returns, whatever the length below 2^32. *)
Theorem fromString_reads m a data (str : list byte) fresh :
  lines_mapped m → holds m data str → Z.of_nat (length str) < 2 ^ 32 →
  is_ok (mem_read m (snd (Arena_alloc a (Z.of_nat (length str)) fresh)) (length str)) →
  ∃ m' a' v, fromString m a data str fresh = Ok (m', a', v) ∧ vl_str m' v = Ok str ∧ isInvalid v = false.
Proof.
  intros Hm Hb Hn Hok.
  assert (∀ m1 p v, represents m1 p str v → isInvalid v = false) as Hinv.
  { intros m1 p v R. unfold isInvalid. rewrite (rep_len _ _ _ _ R), (rep_first _ _ _ _ R).
    destruct str; [done|]. simpl length. rewrite andb_comm. destruct (Z.eqb_spec (Z.of_nat (S (length str))) 0); [lia|done]. }
  unfold fromString. destruct (Z.leb_spec (Z.of_nat (length str)) shortLen) as [Hs|Hl].
  - destruct (newVarLen32_ok m data str Hm Hb) as (v & Hv & R). rewrite Hv. cbn [res_bind].
    exists m, a, v. split_and!; [done|by apply R|by eapply Hinv].
  - destruct (Arena_alloc a (Z.of_nat (length str)) fresh) as [a1 ptr]. simpl in Hok. unfold mem_write.
    pose proof (mem_set_lines _ _ _ Hm Hok) as Hm'. destruct Hok as [cs ->]. cbn [res_bind].
    unfold u32. rewrite wrap_u_id by (unfold in_u; lia).
    destruct (newVarLen32_ok _ ptr str Hm' (mem_set_holds m ptr str)) as (v & Hv & R). rewrite Hv. cbn [res_bind].
    do 3 eexists. split_and!; [done|by apply R|by eapply Hinv].
Qed.

Lemma fromString_reads_witness :
  ∃ m' a' v, fromString text_memory newArena 64 long_text 4096 = Ok (m', a', v) ∧
    vl_str m' v = Ok long_text ∧ isInvalid v = false.
Proof.
  apply fromString_reads; [intros ? ? _ _; by eexists|reflexivity|done|]. eexists. vm_compute. reflexivity.
Defined.

(** ** Pointer tags *)

Section tag_props.
Context (bloomMasks : Z → Z).

(** Entries are put at the head of a bucket one after the other. *)
Definition bucket (entries : list (Z * Z)) : Z := foldl (λ head e, tag bloomMasks (fst e) head (snd e)) 0 entries.

Lemma tag_mask_range h : 0 ≤ tag_mask bloomMasks h < 2 ^ 16.
Proof. apply wrap_u_range. lia. Qed.

Lemma lor_below a b n : 0 ≤ n → 0 ≤ a < 2 ^ n → 0 ≤ b < 2 ^ n → 0 ≤ Z.lor a b < 2 ^ n.
Proof.
  intros Hn Ha Hb. rewrite <- (Z.mod_small a (2 ^ n)), <- (Z.mod_small b (2 ^ n)) by lia.
  rewrite <- !Z.land_ones, <- Z.land_lor_distr_l, Z.land_ones by lia. apply Z.mod_pos_bound. lia.
Qed.

Lemma tag_value ptr prev h :
  0 ≤ ptr < 2 ^ 48 →
  tag bloomMasks ptr prev h = ptr * 2 ^ 16 + Z.lor (tag_mask bloomMasks h) (wrap_u 16 prev) ∧
  0 ≤ Z.lor (tag_mask bloomMasks h) (wrap_u 16 prev) < 2 ^ 16.
Proof.
  intros Hp. pose proof (wrap_u_range 16 prev ltac:(lia)) as Hw.
  pose proof (lor_below (tag_mask bloomMasks h) (wrap_u 16 prev) 16 ltac:(lia) (tag_mask_range h) Hw) as Hl.
  split; [|done]. unfold tag. unfold u64 at 2. rewrite wrap_u_id by (unfold in_u; rewrite Z.shiftl_mul_pow2 by lia; lia).
  rewrite lor_shiftl_add by lia. apply wrap_u_id. unfold in_u. lia.
Qed.

Lemma low_tag ptr prev h :
  0 ≤ ptr < 2 ^ 48 → wrap_u 16 (tag bloomMasks ptr prev h) = Z.lor (tag_mask bloomMasks h) (wrap_u 16 prev).
Proof.
  intros Hp. destruct (tag_value ptr prev h Hp) as [-> Hl]. unfold wrap_u at 1.
  rewrite Z.add_comm, Z.mod_add by lia. by apply Z.mod_small.
Qed.

(** A mask is in the tag. *)
Definition in_tag (entry h : Z) : Prop := Z.lor (tag_mask bloomMasks h) (wrap_u 16 entry) = wrap_u 16 entry.

Lemma in_tag_matches entry h : in_tag entry h → matchesTag bloomMasks entry h = true.
Proof.
  unfold in_tag, matchesTag. intros <-. apply Z.eqb_eq. rewrite <- Z.ldiff_land. apply Z.bits_inj'. intros n Hn.
  rewrite Z.ldiff_spec, Z.lor_spec, Z.bits_0. by destruct (Z.testbit (tag_mask bloomMasks h) n).
Qed.

Lemma in_tag_here ptr prev h : 0 ≤ ptr < 2 ^ 48 → in_tag (tag bloomMasks ptr prev h) h.
Proof. intros Hp. unfold in_tag. rewrite low_tag by done. by rewrite Z.lor_assoc, Z.lor_diag. Qed.

Lemma in_tag_later ptr prev h h' : 0 ≤ ptr < 2 ^ 48 → in_tag prev h' → in_tag (tag bloomMasks ptr prev h) h'.
Proof.
  unfold in_tag. intros Hp Hin. rewrite low_tag by done.
  rewrite Z.lor_assoc, (Z.lor_comm (tag_mask bloomMasks h')), <- Z.lor_assoc. by rewrite Hin.
Qed.

(** Tagged pointers: however many entries were put at the head of a bucket,
    the head pointer comes back from under its tag, and the filter lets every
    hash that was inserted through to it (no false negatives). *)
Theorem tagged_bucket entries ptr h h' :
  Forall (λ e, 0 ≤ fst e < 2 ^ 48) (entries ++ [(ptr, h)]) → h' ∈ (snd <$> entries ++ [(ptr, h)]) →
  filterTagged bloomMasks (bucket (entries ++ [(ptr, h)])) h' = ptr.
Proof.
  intros Hr Hh. unfold bucket. rewrite foldl_app. simpl. fold (bucket entries).
  apply Forall_app in Hr as [Hr Hp]. apply Forall_cons in Hp as [Hp _]. simpl in Hp. unfold filterTagged.
  rewrite in_tag_matches.
  { destruct (tag_value ptr (bucket entries) h Hp) as [-> Hl]. unfold untag. rewrite Z.shiftr_div_pow2 by lia.
    rewrite Z.add_comm, Z.div_add, Z.div_small by lia. lia. }
  rewrite fmap_app, elem_of_app in Hh. destruct Hh as [Hh| ->%list_elem_of_singleton]; [|by apply in_tag_here].
  apply in_tag_later; [done|]. clear Hp. induction entries as [|[p k] entries IH] using rev_ind; [set_solver|].
  unfold bucket. rewrite foldl_app. simpl. fold (bucket entries). apply Forall_app in Hr as [Hr Hk]. apply Forall_cons in Hk as [Hk _].
  rewrite fmap_app, elem_of_app in Hh. destruct Hh as [Hh| ->%list_elem_of_singleton]; [|by apply in_tag_here].
  apply in_tag_later; [done|]. by apply IH.
Qed.
End tag_props.

Lemma tagged_bucket_witness :
  filterTagged (λ i, 2 ^ (i mod 16)) (bucket (λ i, 2 ^ (i mod 16)) ([(4096, 2 ^ 60); (8192, 7 * 2 ^ 58)] ++ [(64, 0)])) (7 * 2 ^ 58) = 64.
Proof. apply (tagged_bucket _ _ _ 0); [repeat constructor; simpl; lia|set_solver]. Defined.
