(* ===== verification/Variant.v ===== *)
(** * SPARQL values at run time

    Model of src/gengodb/runtime/Variant.cpp and of [PropertyGraph::Metadata]
    (include/gengodb/runtime/BuiltinGraphs.h).  A variant is a datatype tag and
    a 64-bit payload: the value itself, the address of a string value, or the
    address of a node or relationship entry.  Literals are rdf4cpp objects; the
    library's operations on them are the class [Rdf4cpp]. *)

From S2P Require Import Prelude Bytes Graph PropData PropertyGraph Datatypes GraphStorage.
From S2P Require Import GraphDataOps Serialization RdfTypes Identifiers RdfGraph Helpers.
From Stdlib Require Import Strings.Ascii Strings.Byte.
#[local] Open Scope Z_scope.
#[local] Open Scope list_scope.

Inductive TriBool := TbErr | TbFalse | TbTrue.

(** What the code uses of rdf4cpp.  Constructors and operators that may throw
    return [res]; [value<T>] throws when the literal has another datatype. *)
Class Rdf4cpp (Lit : Type) := {
  make_null : Lit;
  lit_null : Lit → bool;
  make_typed_from_value : AnyVal → Lit;
  make_typed : string → string → res Lit;
  make_lang_tagged : string → string → res Lit;
  lit_value : Lit → AnyVal;
  lit_datatype : Lit → string;
  lexical_form : Lit → string;
  language_tag : Lit → string;
  print_literal : Lit → string;
  lit_eq : Lit → Lit → TriBool;
  lit_ne : Lit → Lit → TriBool;
  lit_lt : Lit → Lit → TriBool;
  lit_le : Lit → Lit → TriBool;
  lit_gt : Lit → Lit → TriBool;
  lit_ge : Lit → Lit → TriBool;
  lit_order : Lit → Lit → comparison;
  lit_add : Lit → Lit → res Lit;
  lit_sub : Lit → Lit → res Lit;
  lit_mul : Lit → Lit → res Lit;
  lit_div : Lit → Lit → res Lit;
  lit_cast : Lit → string → Lit;
  cast_to_double : Lit → option Z;
  lang_matches : string → string → bool;
  make_iri : string → res string;
}.

(** ** PropertyGraph::Metadata *)

Record Metadata := mkMetadata {
  md_uid : Z → res Z;
  get_node_name : Z → res string;
  type_id : Z → res Z;
  md_node_from_iri : string → Z;
  md_node_from_rdf_literal : string → bytes → Z;
}.

(** The mappings of a graph that nobody has set. *)
Definition defaultMetadata : Metadata :=
  mkMetadata (λ _, Fault AssertFailed) (λ i, Ok ("v" +:+ pretty.pretty i)) (λ _, Ok (-1)) (λ _, -1) (λ _ _, -1).

(** The mappings installed by [RdfGraph::ensureLoaded]; the index sets [uid]. *)
Section rdf_metadata.
Context (zero_type : RDFNodeType) (code : RDFNodeType → Z).
Context (date_lex : Z * Z * Z * option Z → string) (dateTime_lex : Z * option Z → string).
Context (iri_string : string → string) (literal_string : LiteralText → string).
Definition rdfMetadata (uid : Z → res Z) (g : RdfGraph) : Metadata :=
  mkMetadata uid (node_name zero_type date_lex dateTime_lex iri_string literal_string g)
    (λ id, let* t := node_type zero_type g id in Ok (code t)) (node_from_iri g) (node_from_rdf_literal g).
End rdf_metadata.

(** ** Predicates *)

Definition triBoolToInt8 (b : TriBool) : Z := match b with TbErr => -1 | TbTrue => 1 | TbFalse => 0 end.
Definition triNot (b : TriBool) : TriBool := match b with TbErr => TbErr | TbTrue => TbFalse | TbFalse => TbTrue end.

(** The switch over predicates 0 to 5 for values with a three-way comparison. *)
Definition compare_switch (c : comparison) (predicate : Z) : Z :=
  match predicate with
  | 0 => Z.b2z (bool_decide (c = Eq))
  | 1 => Z.b2z (negb (bool_decide (c = Eq)))
  | 2 => Z.b2z (bool_decide (c = Lt))
  | 3 => Z.b2z (negb (bool_decide (c = Gt)))
  | 4 => Z.b2z (bool_decide (c = Gt))
  | 5 => Z.b2z (negb (bool_decide (c = Lt)))
  | _ => -1
  end.

(** ** Storage of the datatypes *)

Inductive StorageShape := Inline32 | Int64 | UInt64 | Double | Blob.
#[export] Instance StorageShape_eq_dec : EqDecision StorageShape.
Proof. solve_decision. Defined.
Record StorageInfo := mkInfo { shape : StorageShape; width : Z }.

Definition classifyStorage (t : Type_) : StorageInfo :=
  match t with
  | TBoolean => mkInfo Inline32 1
  | TByte => mkInfo Inline32 1
  | TShort => mkInfo Inline32 2
  | TInt => mkInfo Inline32 4
  | TUnsignedByte => mkInfo Inline32 1
  | TUnsignedShort => mkInfo Inline32 2
  | TUnsignedInt => mkInfo Inline32 4
  | TFloat => mkInfo Inline32 4
  | TLong => mkInfo Int64 8
  | TDate => mkInfo Int64 8
  | TDateTime => mkInfo Int64 8
  | TUnsignedLong => mkInfo UInt64 8
  | TDouble => mkInfo Double 8
  | _ => mkInfo Blob 0
  end.

Definition isCustomDatatypeTag (tag : Z) : bool :=
  match from_int32 tag with
  | Some t => bool_decide (t = TAnyLiteralNode) || bool_decide (t = TAnyLiteralScalar)
  | None => false
  end.

Definition text_of (bs : bytes) : string := String.string_of_list_byte bs.

(** [<name>] without its brackets. *)
Definition trim_brackets (name : string) : string :=
  let n := String.length name in
  if (2 <=? n)%nat && bool_decide (String.get 0 name = Some "<"%char) && bool_decide (String.get (n - 1) name = Some ">"%char)
  then String.substring 1 (n - 2) name else name.

(** A blob: length of the language tag, the tag, the lexical form. *)
Definition split_blob (raw : bytes) : res (string * string) :=
  let* b := load raw 0 in
  let langLen := Z.to_nat (byte_val b) in
  if (length raw <? 1 + langLen)%nat then Fault BadAccess
  else Ok (text_of (take langLen (drop 1 raw)), text_of (drop (1 + langLen) raw)).

(** A scalar of a custom datatype: length of the datatype IRI, the IRI, the
    lexical form. *)
Definition split_scalar (raw : bytes) : res (string * string) :=
  let* '(dtLen, rest) := get_u32 raw in
  if Z.of_nat (length rest) <? dtLen then Fault BadAccess
  else Ok (text_of (take (Z.to_nat dtLen) rest), text_of (drop (Z.to_nat dtLen) rest)).

Section variant.
Context {Lit : Type} `{Rdf4cpp Lit}.
(** rdf4cpp's node type codes; the registry of graphs, the metadata of the
    graph at an address, and memory. *)
Context (code : RDFNodeType → Z) (gs : Gs) (meta : Z → Metadata) (mem : Mem).

Definition applyPredicate (lhs rhs : Lit) (predicate : Z) : TriBool :=
  match predicate with
  | 0 => lit_eq lhs rhs
  | 1 => lit_ne lhs rhs
  | 2 => lit_lt lhs rhs
  | 3 => lit_le lhs rhs
  | 4 => lit_gt lhs rhs
  | 5 => lit_ge lhs rhs
  | _ => TbErr
  end.

(** [catch (...)] *)
Definition or_null (m : res Lit) : res Lit :=
  match m with Fault (Thrown _) => Ok make_null | m => m end.
Definition applyArith (lhs rhs : Lit) (predicate : Z) : res Lit :=
  or_null match predicate with
          | 0 => lit_add lhs rhs
          | 1 => lit_sub lhs rhs
          | 2 => lit_mul lhs rhs
          | 3 => lit_div lhs rhs
          | _ => Ok make_null
          end.

Definition termEq (lhs rhs : Lit) : TriBool :=
  if lit_null lhs || lit_null rhs then TbErr
  else if String.eqb (lit_datatype lhs) (lit_datatype rhs) && String.eqb (lexical_form lhs) (lexical_form rhs)
  then TbTrue else TbFalse.

Definition toDatatypeIri (t : Type_) : res string :=
  let* name := to_string t in make_iri (kXsdNamespace +:+ name).

(** ** Fixed-width values *)

(** [buf] is the memory at [ptr]; a byte other than 0 and 1 is no [bool]. *)
Definition getLiteralFromNumeric (buf : bytes) (tag : Z) : res Lit :=
  match from_int32 tag with
  | None => Ok make_null
  | Some t =>
      match t with
      | TBoolean =>
          let* '(v, _) := get_u8 buf in
          if v =? 0 then Ok (make_typed_from_value (AnyBool false))
          else if v =? 1 then Ok (make_typed_from_value (AnyBool true)) else Fault BadAccess
      | TByte => let* '(v, _) := get_sint 1 buf in Ok (make_typed_from_value (AnyInt8 v))
      | TShort => let* '(v, _) := get_sint 2 buf in Ok (make_typed_from_value (AnyInt16 v))
      | TInt => let* '(v, _) := get_sint 4 buf in Ok (make_typed_from_value (AnyInt32 v))
      | TLong => let* '(v, _) := get_sint 8 buf in Ok (make_typed_from_value (AnyInt64 v))
      | TUnsignedByte => let* '(v, _) := get_uint 1 buf in Ok (make_typed_from_value (AnyUInt8 v))
      | TUnsignedShort => let* '(v, _) := get_uint 2 buf in Ok (make_typed_from_value (AnyUInt16 v))
      | TUnsignedInt => let* '(v, _) := get_uint 4 buf in Ok (make_typed_from_value (AnyUInt32 v))
      | TUnsignedLong => let* '(v, _) := get_uint 8 buf in Ok (make_typed_from_value (AnyUInt64 v))
      | TFloat => let* '(v, _) := get_uint 4 buf in Ok (make_typed_from_value (AnyFloat v))
      | TDouble => let* '(v, _) := get_uint 8 buf in Ok (make_typed_from_value (AnyDouble v))
      | TDate =>
          let* '(packed, _) := get_sint 8 buf in
          let '(y, m, d, tz) := unpackDate packed in Ok (make_typed_from_value (AnyDate y m d tz))
      | TDateTime =>
          let* '(packed, _) := get_sint 8 buf in
          let '(nanos, tz) := unpackDateTime packed in Ok (make_typed_from_value (AnyDateTime nanos tz))
      | _ => Ok make_null
      end
  end.

Definition bad_value {A} : res A := Fault (Thrown "invalid value retrieval").

(** The bytes written to [outPtr]; [None] when the function returns false. *)
Definition extractNumericByTag (lit : Lit) (tag : Z) : res (option bytes) :=
  match from_int32 tag with
  | None => Ok None
  | Some t =>
      match t with
      | TBoolean => match lit_value lit with AnyBool v => Ok (Some (put_bool v)) | _ => bad_value end
      | TByte => match lit_value lit with AnyInt8 v => Ok (Some (le_bytes 1 v)) | _ => bad_value end
      | TShort => match lit_value lit with AnyInt16 v => Ok (Some (le_bytes 2 v)) | _ => bad_value end
      | TInt => match lit_value lit with AnyInt32 v => Ok (Some (le_bytes 4 v)) | _ => bad_value end
      | TLong => match lit_value lit with AnyInt64 v => Ok (Some (le_bytes 8 v)) | _ => bad_value end
      | TUnsignedByte => match lit_value lit with AnyUInt8 v => Ok (Some (le_bytes 1 v)) | _ => bad_value end
      | TUnsignedShort => match lit_value lit with AnyUInt16 v => Ok (Some (le_bytes 2 v)) | _ => bad_value end
      | TUnsignedInt => match lit_value lit with AnyUInt32 v => Ok (Some (le_bytes 4 v)) | _ => bad_value end
      | TUnsignedLong => match lit_value lit with AnyUInt64 v => Ok (Some (le_bytes 8 v)) | _ => bad_value end
      | TFloat => match lit_value lit with AnyFloat v => Ok (Some (le_bytes 4 v)) | _ => bad_value end
      | TDouble => match lit_value lit with AnyDouble v => Ok (Some (le_bytes 8 v)) | _ => bad_value end
      | TDate =>
          match lit_value lit with
          | AnyDate y m d tz => let* packed := packDate y m d tz in Ok (Some (le_bytes 8 packed))
          | _ => bad_value
          end
      | TDateTime =>
          match lit_value lit with
          | AnyDateTime nanos tz => let* packed := packDateTime nanos tz in Ok (Some (le_bytes 8 packed))
          | _ => bad_value
          end
      | _ => Ok None
      end
  end.

(** ** References *)

(** The entry a node pointer points to, in whatever property graph it lies. *)
Definition node_in (ref : Z) (p : Placed) : option (NodeEntry Z) :=
  match p_obj p with
  | AProperty pg =>
      if (p_nodes p <=? ref) && (ref <? p_nodes p + pg_nodeCap_ pg * 16) then
        match entry_at (nodes_ (graph_ pg)) (p_nodes p) 16 ref with Ok n => Some n | Fault _ => None end
      else None
  | _ => None
  end.
Definition deref_node (ref : Z) : res (NodeEntry Z) :=
  match omap (λ e, node_in ref (snd e)) (map_to_list (g_heap gs)) with
  | n :: _ => Ok n
  | [] => Fault BadAccess
  end.

(** A cast to [PropertyGraph*]: the graph's address and the graph. *)
Definition property_graph_at (graph : Z) : res (Z * PropertyGraph) :=
  let* p := object_at gs graph in
  match p_obj p with AProperty pg => Ok (graph, pg) | _ => Fault BadAccess end.
Definition propertyGraphOf (ref : Z) : res (Z * PropertyGraph) :=
  let* graph := graphPtr gs ref in property_graph_at graph.

(** The string value at an address, and its text. *)
Definition varlen_at (payload : Z) : res VarLen32 :=
  let* bs := mem_read mem (u64 payload) 16 in
  Ok (mkVarLen (le_val (take 4 bs)) (le_val (take 4 (drop 4 bs))) (le_val (drop 8 bs))).
Definition varlen_text (payload : Z) : res bytes := let* sv := varlen_at payload in vl_str mem sv.

Definition resolveRefTag (ref : Z) : res Z :=
  let* n := deref_node ref in
  if n_payload n <? 0 then Ok (to_int32 TNode)
  else
    let* '(_, pg) := propertyGraphOf ref in
    let* prop := pg_prop pg (n_payload n) in Ok (i32 (p_type prop)).

Definition resolveNodeRef (ref : Z) : res Z :=
  let* '(g, _) := propertyGraphOf ref in
  let* localId := nodeId gs ref in
  let* uid := md_uid (meta g) localId in Ok (wrap_s 64 uid).

(** The bytes written to [outPtr]; [None] when nothing is written. *)
Definition extractNumericLiteral (ref tag : Z) : res (option bytes) :=
  let* n := deref_node ref in
  if n_payload n <? 0 then Ok None
  else
    match from_int32 tag with
    | None => Ok None
    | Some t =>
        let* '(_, pg) := propertyGraphOf ref in
        let* prop := pg_prop pg (n_payload n) in
        let info := classifyStorage t in
        let w := Z.to_nat (width info) in
        match shape info with
        | Inline32 => Ok (Some (take w (put_u32 (p_value prop))))
        | Int64 => let* v := get_i64_at (propData_ pg) (i32 (p_value prop)) in Ok (Some (take w (put_u64 v)))
        | UInt64 => let* v := get_ui64_at (propData_ pg) (i32 (p_value prop)) in Ok (Some (take w (put_u64 v)))
        | Double => let* v := get_double_at (propData_ pg) (i32 (p_value prop)) in Ok (Some (take w (put_u64 v)))
        | Blob => Ok None
        end
    end.

(** Functions that return a string value: [Some] text for [fromString], [None]
    for the empty value. *)
Definition extractBlobLiteral (ref : Z) : res (option string) :=
  let* n := deref_node ref in
  if n_payload n <? 0 then Ok None
  else
    let* '(_, pg) := propertyGraphOf ref in
    let* prop := pg_prop pg (n_payload n) in
    let* raw := read_blob (propData_ pg) String_code (i32 (p_value prop)) in
    let* '(_, lex) := split_blob raw in Ok (Some lex).

Definition extractScalarLexical (payload : Z) : res (option string) :=
  let* raw := varlen_text payload in
  let* '(_, lex) := split_scalar raw in Ok (Some lex).

(** ** Literals of references and payloads *)

Definition reconstructBlobLiteral (ref : Z) : res (option Lit) :=
  let* n := deref_node ref in
  if n_payload n <? 0 then Ok None
  else
    let* '(g, pg) := propertyGraphOf ref in
    let* prop := pg_prop pg (n_payload n) in
    match from_int32 (i32 (p_type prop)) with
    | None => Ok None
    | Some t =>
        let* raw := read_blob (propData_ pg) String_code (i32 (p_value prop)) in
        let* '(lang, lex) := split_blob raw in
        if negb (String.eqb lang "") then let* l := make_lang_tagged lex lang in Ok (Some l)
        else if bool_decide (t = TAnyLiteralNode) then
          let* nodeName := get_node_name (meta g) (i32 (p_key prop)) in
          let* iri := make_iri (trim_brackets nodeName) in
          let* l := make_typed lex iri in Ok (Some l)
        else
          let* iri := toDatatypeIri t in
          let* l := make_typed lex iri in Ok (Some l)
    end.

Definition reconstructVarLenLiteral (payload : Z) (t : Type_) : res (option Lit) :=
  let* raw := varlen_text payload in
  let* iri := toDatatypeIri t in
  let* l := make_typed (text_of raw) iri in Ok (Some l).

Definition reconstructScalarLiteral (payload : Z) : res (option Lit) :=
  let* raw := varlen_text payload in
  let* '(dtIri, lex) := split_scalar raw in
  let* iri := make_iri dtIri in
  let* l := make_typed lex iri in Ok (Some l).

Definition is_text_type (t : Type_) : bool := match t with TString | TInteger | TDecimal => true | _ => false end.

Definition reconstructLiteral (payload tag : Z) : res (option Lit) :=
  match from_int32 tag with
  | None | Some TUnspecified => Ok None
  | Some t =>
      if is_text_type t then reconstructVarLenLiteral payload t
      else if bool_decide (t = TAnyLiteralScalar) then reconstructScalarLiteral payload
      else if bool_decide (shape (classifyStorage t) = Blob) then reconstructBlobLiteral (u64 payload)
      else
        let* lit := getLiteralFromNumeric (put_u64 payload) tag in
        if lit_null lit then Ok None else Ok (Some lit)
  end.

(** ** Text *)

Definition toStringNumeric (payload tag : Z) : res (option string) :=
  let* lit := getLiteralFromNumeric (put_u64 payload) tag in
  if lit_null lit then Ok None else Ok (Some (lexical_form lit)).

Definition toStringFullNodeRef (ref : Z) : res (option string) :=
  let* '(g, _) := propertyGraphOf ref in
  let* localId := nodeId gs ref in
  let* name := get_node_name (meta g) localId in Ok (Some name).

Definition toStringNodeRef (ref : Z) : res (option string) :=
  let* '(g, _) := propertyGraphOf ref in
  let* localId := nodeId gs ref in
  let* name := get_node_name (meta g) localId in Ok (Some (trim_brackets name)).

Definition toStringBlobLiteral (ref : Z) : res (option string) :=
  let* lit := reconstructBlobLiteral ref in Ok (lexical_form <$> lit).

Definition toStringFull (payload tag : Z) : res (option string) :=
  let* lit := reconstructLiteral payload tag in Ok (print_literal <$> lit).

Definition langTag (payload tag : Z) : res (option string) :=
  let* lit := reconstructLiteral payload tag in Ok (language_tag <$> lit).

Definition langMatches (payload tag : Z) (langRange : string) : res Z :=
  let* lit := reconstructLiteral payload tag in
  match lit with
  | None => Ok (-1)
  | Some lit => Ok (Z.b2z (lang_matches (lexical_form lit) langRange))
  end.

Definition toStringEdgeRef (ref : Z) : res (option string) :=
  let* '(g, pg) := propertyGraphOf ref in
  let* p := object_at gs g in
  let* rel := entry_at (rels_ (graph_ pg)) (p_rels p) 36 ref in
  let* s := get_node_name (meta g) (firstNodeId rel) in
  let* t := get_node_name (meta g) (typeId rel) in
  let* o := get_node_name (meta g) (secondNodeId rel) in
  Ok (Some (s +:+ " " +:+ t +:+ " " +:+ o)).

(** ** Comparison *)

Definition compareNodeRefRef (lhs rhs predicate : Z) : res Z :=
  let* lhsUid := resolveNodeRef lhs in
  let* rhsUid := resolveNodeRef rhs in
  Ok (compare_switch (lhsUid ?= rhsUid) predicate).

Definition compareEdgeRefRef (lhs rhs predicate : Z) : Z := compare_switch (lhs ?= rhs) predicate.

(** The answer for a node that is no IRI. *)
Definition unequal (predicate : Z) : Z := if predicate =? 0 then 0 else if predicate =? 1 then 1 else -1.

Definition compareIriNodeRef (iri : string) (ref predicate : Z) : res Z :=
  let* n := deref_node ref in
  if 0 <=? n_payload n then Ok (unequal predicate)
  else
    let* '(g, _) := propertyGraphOf ref in
    let* localId := nodeId gs ref in
    let* ty := type_id (meta g) localId in
    if negb (ty =? code NtIRI) then Ok (unequal predicate)
    else
      let* nodeName := get_node_name (meta g) localId in
      Ok (compare_switch (String.compare ("<" +:+ iri +:+ ">") nodeName) predicate).

Definition compareBlobLiteral (lhsPayload lhsTag rhsPayload rhsTag predicate : Z) : res Z :=
  let* lhsLit := reconstructLiteral lhsPayload lhsTag in
  let* rhsLit := reconstructLiteral rhsPayload rhsTag in
  match lhsLit, rhsLit with
  | Some lhs, Some rhs =>
      if ((predicate =? 0) || (predicate =? 1)) && (isCustomDatatypeTag lhsTag || isCustomDatatypeTag rhsTag) then
        let eq := termEq lhs rhs in Ok (triBoolToInt8 (if predicate =? 0 then eq else triNot eq))
      else Ok (triBoolToInt8 (applyPredicate lhs rhs predicate))
  | _, _ => Ok (-1)
  end.

Definition compareNumericCross (lhsPayload lhsTag rhsPayload rhsTag predicate : Z) : res Z :=
  let* lhs := getLiteralFromNumeric (put_u64 lhsPayload) lhsTag in
  let* rhs := getLiteralFromNumeric (put_u64 rhsPayload) rhsTag in
  if lit_null lhs || lit_null rhs then Ok (-1) else Ok (triBoolToInt8 (applyPredicate lhs rhs predicate)).

Definition hashNumeric (payload tag : Z) : res Z :=
  match from_int32 tag with
  | None => Ok 0
  | Some t =>
      if bool_decide (t = TDate) || bool_decide (t = TDateTime) then Ok payload
      else
        let* lit := getLiteralFromNumeric (put_u64 payload) tag in
        if lit_null lit then Ok 0
        else match cast_to_double lit with None => Ok 0 | Some bits => Ok (wrap_s 64 bits) end
  end.

(** Blank nodes before IRIs before literals. *)
Definition rankOf (isNode : bool) (payload : Z) : res Z :=
  if negb isNode then Ok 2
  else
    let* '(g, _) := propertyGraphOf (u64 payload) in
    let* localId := nodeId gs (u64 payload) in
    let* ty := type_id (meta g) localId in
    Ok (if ty =? code NtBNode then 0 else 1).

Definition node_ref_name (payload : Z) : res string :=
  let* '(g, _) := propertyGraphOf (u64 payload) in
  let* localId := nodeId gs (u64 payload) in
  get_node_name (meta g) localId.

Definition sign (c : comparison) : Z := match c with Lt => -1 | Eq => 0 | Gt => 1 end.

Definition compareOrder (lhsPayload lhsTag rhsPayload rhsTag : Z) : res Z :=
  let lhsIsEdge := lhsTag =? to_int32 TEdge in
  let rhsIsEdge := rhsTag =? to_int32 TEdge in
  if lhsIsEdge || rhsIsEdge then
    if negb (bool_decide (lhsIsEdge = rhsIsEdge)) then Ok (if lhsIsEdge then 1 else -1)
    else Ok (sign (lhsPayload ?= rhsPayload))
  else
    let* lhsRank := rankOf (lhsTag =? to_int32 TNode) lhsPayload in
    let* rhsRank := rankOf (rhsTag =? to_int32 TNode) rhsPayload in
    if negb (lhsRank =? rhsRank) then Ok (if lhsRank <? rhsRank then -1 else 1)
    else if negb (lhsRank =? 2) then
      let* lhsName := node_ref_name lhsPayload in
      let* rhsName := node_ref_name rhsPayload in
      Ok (sign (String.compare lhsName rhsName))
    else
      let* lhsLit := reconstructLiteral lhsPayload lhsTag in
      let* rhsLit := reconstructLiteral rhsPayload rhsTag in
      match lhsLit, rhsLit with
      | Some lhs, Some rhs => Ok (sign (lit_order lhs rhs))
      | _, _ => Ok 0
      end.

(** ** Casts and arithmetic: the result's tag and what is written *)

Definition castLiteral (payload srcTag targetTag : Z) : res (Z * option bytes) :=
  let* srcLit := reconstructLiteral payload srcTag in
  match srcLit, from_int32 targetTag with
  | Some src, Some targetT =>
      let* iri := toDatatypeIri targetT in
      let casted := lit_cast src iri in
      if lit_null casted then Ok (to_int32 TUnspecified, None)
      else
        let resultTag := to_int32 (from_iri (Some (lit_datatype casted))) in
        let* out := extractNumericByTag casted resultTag in
        match out with Some bs => Ok (resultTag, Some bs) | None => Ok (to_int32 TUnspecified, None) end
  | _, _ => Ok (to_int32 TUnspecified, None)
  end.

Definition arithBlobNumeric (lhsPayload lhsTag rhsPayload rhsTag predicate : Z) : res (Z * option bytes * option string) :=
  let* lhsLit := reconstructLiteral lhsPayload lhsTag in
  let* rhsLit := reconstructLiteral rhsPayload rhsTag in
  match lhsLit, rhsLit with
  | Some lhs, Some rhs =>
      let* result := applyArith lhs rhs predicate in
      if lit_null result then Ok (to_int32 TUnspecified, None, None)
      else
        let resultTag := to_int32 (from_iri (Some (lit_datatype result))) in
        match from_int32 resultTag with
        | None => Ok (to_int32 TUnspecified, None, None)
        | Some TInteger | Some TDecimal => Ok (resultTag, None, Some (lexical_form result))
        | Some _ =>
            let* out := extractNumericByTag result resultTag in
            match out with
            | Some bs => Ok (resultTag, Some bs, None)
            | None => Ok (to_int32 TUnspecified, None, None)
            end
        end
  | _, _ => Ok (to_int32 TUnspecified, None, None)
  end.

(** ** From values to nodes *)

Definition resolveEdge (graph tag payload : Z) : res Z :=
  if negb (tag =? to_int32 TEdge) then Fault (Thrown "unsupported: variant must be a reference to an edge")
  else
    let ref := u64 payload in
    let* g1 := graphPtr gs ref in
    let* g2 := graphPtr gs graph in
    if negb (g1 =? g2) then Fault (Thrown "unsupported: cross graph edge resolving from variant")
    else relId gs ref.

Definition hasNodePayload (t : Type_) : bool :=
  match t with
  | TUnspecified | TString | TInteger | TDecimal | TAnyLiteralScalar => false
  | _ => bool_decide (shape (classifyStorage t) = Blob)
  end.

Definition resolveNode (graph tag payload : Z) : res Z :=
  let* g := graphPtr gs graph in
  let md := meta g in
  let resolve :=
    let ref := u64 payload in
    let* '(other, _) := propertyGraphOf ref in
    let* localId := nodeId gs ref in
    if other =? g then Ok localId else Fault (Thrown "unsupported: cross graph node resolving from variant") in
  if tag =? to_int32 TNode then resolve
  else if tag =? to_int32 TAnyIRI then
    let* text := varlen_text payload in
    let* iri := make_iri (text_of text) in Ok (md_node_from_iri md iri)
  else
    match from_int32 tag with
    | None | Some TUnspecified => Ok (-1)
    | Some t =>
        if hasNodePayload t then resolve
        else if is_text_type t then
          let* text := varlen_text payload in
          let* iri := toDatatypeIri t in
          Ok (md_node_from_rdf_literal md iri (Byte.x00 :: text))
        else if bool_decide (t = TAnyLiteralScalar) then
          let* raw := varlen_text payload in
          let* '(dtLen, rest) := get_u32 raw in
          if Z.of_nat (length rest) <? dtLen then Fault (Thrown "out_of_range")
          else
            let* iri := make_iri (text_of (take (Z.to_nat dtLen) rest)) in
            Ok (md_node_from_rdf_literal md iri (Byte.x00 :: drop (Z.to_nat dtLen) rest))
        else
          let info := classifyStorage t in
          let* iri := toDatatypeIri t in
          if bool_decide (shape info = Inline32) then
            let bits := le_val (take (Z.to_nat (width info)) (put_u64 payload)) in
            Ok (md_node_from_rdf_literal md iri (put_u32 bits))
          else Ok (md_node_from_rdf_literal md iri (put_u64 payload))
    end.
End variant.
