(* ===== verification/VariantProps.v ===== *)
(** * SPARQL values: theorems

    The storage table of the run-time values agrees with the one the RDF loader
    uses, fixed-width values survive the way through rdf4cpp, a value resolves
    to the node that stores it and only to that, and the order of values is
    total on the values that denote something. *)

From S2P Require Import Prelude Bytes Dll Graph GraphSpec GraphRefine PropData PropDataProofs PropertyGraph Datatypes.
From S2P Require Import GraphFile GraphStorage GraphStorageProps GraphDataOps Serialization RdfTypes Identifiers IdentifiersProps.
From S2P Require Import RdfGraph RdfGraphInv RdfGraphProps Helpers HelpersProps Variant.
From Stdlib Require Import Strings.Ascii Strings.Byte.
#[local] Open Scope Z_scope.
#[local] Open Scope list_scope.

(** ** What the development assumes of rdf4cpp *)

(** A literal made from a value is not null and has that value. *)
Class Rdf4cppValues (Lit : Type) `{Rdf4cpp Lit} := {
  made_value : ∀ v, lit_value (make_typed_from_value v) = v;
  made_not_null : ∀ v, lit_null (make_typed_from_value v) = false;
}.

(** The order of literals is a strong ordering. *)
Class Rdf4cppOrder (Lit : Type) `{Rdf4cpp Lit} := {
  order_antisym : ∀ a b, lit_order a b = CompOpp (lit_order b a);
  order_trans : ∀ a b c, lit_order a b ≠ Gt → lit_order b c ≠ Gt → lit_order a c ≠ Gt;
}.

(** The IRIs of the XSD datatypes are valid. *)
Definition xsd_iris_valid (Lit : Type) `{Rdf4cpp Lit} : Prop :=
  ∀ t name, to_string t = Ok name → make_iri (kXsdNamespace +:+ name) = Ok (kXsdNamespace +:+ name).

(** A library for the examples: literals are values with their texts; the null
    literal is [None]; the order compares lexical forms. *)
Definition SampleLit : Type := option (AnyVal * string * string).
Definition sample_text (l : SampleLit) : string := match l with Some (_, lex, _) => lex | None => "" end.
Definition sample_double (l : SampleLit) : Z := match l with Some (AnyDouble b, _, _) => b | _ => 0 end.
(** Equality of doubles: the zeros are equal. *)
Definition sample_eq (l m : SampleLit) : TriBool :=
  let a := sample_double l in let b := sample_double m in
  if (a =? b) || ((wrap_u 63 a =? 0) && (wrap_u 63 b =? 0)) then TbTrue else TbFalse.
#[export] Instance sample_rdf4cpp : Rdf4cpp SampleLit := {
  make_null := None;
  lit_null l := match l with None => true | Some _ => false end;
  make_typed_from_value v := Some (v, "", "");
  make_typed lex iri := Ok (Some (AnyOther, lex, iri));
  make_lang_tagged lex lang := Ok (Some (AnyOther, lex, lang));
  lit_value l := match l with Some (v, _, _) => v | None => AnyOther end;
  lit_datatype l := match l with Some (_, _, iri) => iri | None => "" end;
  lexical_form := sample_text;
  language_tag l := "";
  print_literal := sample_text;
  lit_eq := sample_eq;
  lit_ne a b := triNot (sample_eq a b);
  lit_lt a b := TbErr;
  lit_le a b := TbErr;
  lit_gt a b := TbErr;
  lit_ge a b := TbErr;
  lit_order a b := String.compare (sample_text a) (sample_text b);
  lit_add a b := Ok a;
  lit_sub a b := Ok a;
  lit_mul a b := Ok a;
  lit_div a b := Ok a;
  lit_cast l iri := l;
  cast_to_double l := Some (sample_double l);
  lang_matches a b := String.eqb a b;
  make_iri s := Ok s;
}.

#[export] Instance sample_values : Rdf4cppValues SampleLit.
Proof. by split. Qed.

(** ** Byte strings of integers *)

Lemma le_bytes_mod n a b : wrap_u (8 * Z.of_nat n) a = wrap_u (8 * Z.of_nat n) b → le_bytes n a = le_bytes n b.
Proof. intros E. apply le_val_inj; [by rewrite !length_le_bytes|]. by rewrite !le_val_bytes. Qed.

Lemma wrap_u_wrap_s b z : 0 < b → wrap_u b (wrap_s b z) = wrap_u b z.
Proof. intros Hb. unfold wrap_u, wrap_s. rewrite Zminus_mod_idemp_l. f_equal. lia. Qed.

Lemma take_le_bytes n k z : (n ≤ k)%nat → take n (le_bytes k z) = le_bytes n z.
Proof.
  revert k z. induction n as [|n IH]; intros k z Hk; [done|]. destruct k as [|k]; [lia|].
  cbn [le_bytes take]. by rewrite IH by lia.
Qed.

(** Reading [n] bytes of a payload and writing them again. *)
Lemma get_uint_payload n z : (n ≤ 8)%nat →
  get_uint n (put_u64 z) = Ok (wrap_u (8 * Z.of_nat n) z, drop n (put_u64 z)) ∧
  le_bytes n (wrap_u (8 * Z.of_nat n) z) = take n (put_u64 z).
Proof.
  intros Hn. unfold get_uint, take_bytes, put_u64. rewrite length_le_bytes. destruct (Nat.ltb_spec 8 n); [lia|].
  cbn [res_bind]. rewrite take_le_bytes, le_val_bytes by done. split; [done|].
  apply le_bytes_mod. unfold wrap_u. by rewrite Z.mod_mod by (apply Z.pow_nonzero; lia).
Qed.

Lemma get_sint_payload n z : (0 < n ≤ 8)%nat →
  get_sint n (put_u64 z) = Ok (wrap_s (8 * Z.of_nat n) (wrap_u (8 * Z.of_nat n) z), drop n (put_u64 z)) ∧
  le_bytes n (wrap_s (8 * Z.of_nat n) (wrap_u (8 * Z.of_nat n) z)) = take n (put_u64 z).
Proof.
  intros Hn. destruct (get_uint_payload n z ltac:(lia)) as [E1 E2]. unfold get_sint. rewrite E1. cbn [res_bind].
  split; [done|]. rewrite <- E2. apply le_bytes_mod. by rewrite wrap_u_wrap_s by lia.
Qed.

Lemma get_i64_payload z : in_s 64 z → get_sint 8 (put_u64 z) = Ok (z, []).
Proof.
  intros Hz. destruct (get_sint_payload 8 z ltac:(lia)) as [E _]. rewrite E. change (8 * Z.of_nat 8) with 64.
  by rewrite wrap_s_u by (done || lia).
Qed.

(** ** Unpacking and packing again *)

Lemma pack_unpack_tz bits : tz_fits (unpack_tz bits) ∧ pack_tz (unpack_tz bits) = bits mod 2 ^ 16.
Proof.
  unfold unpack_tz. change 0xFFFF with (2 ^ 16 - 1). rewrite land_ones_mod by lia.
  pose proof (Z.mod_pos_bound bits (2 ^ 16) ltac:(lia)) as Hr. destruct (Z.eqb_spec (bits mod 2 ^ 16) 0) as [E|E]; simpl.
  - by rewrite E.
  - unfold kDateTzBias. split; [lia|]. rewrite wrap_u_id by (unfold in_u; lia). lia.
Qed.

Lemma pack_unpack_date p : in_s 64 p →
  let '(y, m, d, tz) := unpackDate p in packDate y m d tz = Ok p.
Proof.
  intros Hp. unfold unpackDate. set (bits := wrap_u 64 p). pose proof (wrap_u_range 64 p ltac:(lia)) as Hb.
  fold bits in Hb. unfold in_u in Hb. destruct (pack_unpack_tz bits) as [Hf Ht].
  change 0xFF with (2 ^ 8 - 1). rewrite !Z.shiftr_div_pow2, !land_ones_mod by lia.
  assert (0 ≤ bits / 2 ^ 32 < 2 ^ 32) as Hy by (Z.to_euclidean_division_equations; lia).
  rewrite (wrap_u_id 32 (bits / 2 ^ 32)) by done.
  rewrite packDate_value; [|apply wrap_s_range; lia|apply Z.mod_pos_bound; lia|apply Z.mod_pos_bound; lia|done].
  rewrite wrap_u_s by (unfold in_u; lia). rewrite Ht. f_equal. rewrite <- (wrap_s_u 64 p) by (done || lia). fold bits. f_equal.
  clear -Hb. Z.to_euclidean_division_equations. lia.
Qed.

Lemma pack_unpack_datetime p : in_s 64 p →
  let '(nanos, tz) := unpackDateTime p in packDateTime nanos tz = Ok p.
Proof.
  intros Hp. unfold unpackDateTime. set (bits := wrap_u 64 p). pose proof (wrap_u_range 64 p ltac:(lia)) as Hb.
  fold bits in Hb. unfold in_u in Hb. destruct (pack_unpack_tz bits) as [Hf Ht]. rewrite Z.shiftr_div_pow2 by lia.
  set (h := bits / 2 ^ 16). assert (0 ≤ h < 2 ^ 48) as Hh by (unfold h; Z.to_euclidean_division_equations; lia).
  pose proof (wrap_s_range 48 h ltac:(lia)) as Hm. unfold in_s in Hm. simpl in Hm.
  pose proof (wrap_u_s 48 h ltac:(lia) Hh) as E. unfold wrap_u in E. set (m := wrap_s 48 h) in *.
  rewrite <- E, sign_extend by lia.
  rewrite packDateTime_value; [|rewrite Z.quot_mul by lia; unfold kDateTimeMillisMin, kDateTimeMillisMax; lia|done].
  rewrite Z.quot_mul by lia. rewrite E, Ht. f_equal. rewrite <- (wrap_s_u 64 p) by (done || lia). fold bits. f_equal.
  unfold h. pose proof (Z.div_mod bits (2 ^ 16) ltac:(lia)). lia.
Qed.

(** ** Claims on values *)

(** The two tables of storage shapes agree: for every datatype with a name,
    the shape the run-time functions use is the one the loader uses for the
    datatype's IRI, inside the property record, in one of the vectors of 64-bit
    values, or as a blob. *)
Theorem storage_shapes_agree t name :
  to_string t = Ok name →
  shape (classifyStorage t) =
    if isInlined (kXsdNamespace +:+ name) then Inline32
    else match kindOf (kXsdNamespace +:+ name) with
         | Some KUInt64 => UInt64
         | Some KDouble => Double
         | Some _ => Int64
         | None => Blob
         end.
Proof.
  intros Hn. destruct t; vm_compute in Hn; try discriminate Hn; injection Hn as <-; vm_compute; reflexivity.
Qed.

Lemma storage_shapes_agree_witness : shape (classifyStorage TDate) = Int64.
Proof. exact (storage_shapes_agree TDate "date" eq_refl). Defined.

Section values.
Context {Lit : Type} `{Rdf4cppValues Lit}.

(** Integers and floating-point values: the bytes read are written again. *)
Ltac numeric_case payload :=
  let n := match goal with |- context [get_sint ?n] => n | |- context [get_uint ?n] => n end in
  let E1 := fresh in let E2 := fresh in
  first [destruct (get_sint_payload n payload ltac:(lia)) as [E1 E2]; rewrite E1
        |destruct (get_uint_payload n payload ltac:(lia)) as [E1 E2]; rewrite E1];
  cbn [res_bind]; eexists; split; [done|]; rewrite made_not_null, made_value; split; [done|]; do 2 f_equal; exact E2.

(** Dates: unpacked and packed again. *)
Ltac packed_case payload Hp :=
  rewrite get_i64_payload by done; cbn [res_bind];
  let E1 := fresh in let E2 := fresh in
  pose proof (pack_unpack_date payload Hp) as E1; pose proof (pack_unpack_datetime payload Hp) as E2;
  destruct (unpackDate payload) as [[[??]?]?], (unpackDateTime payload) as [??];
  eexists; split; [done|]; rewrite made_not_null, made_value; split; [done|]; rewrite ?E1, ?E2; done.

(** Fixed-width values keep their bits through rdf4cpp: for every tag of a
    fixed-width datatype (dates and times included) and every payload, the
    literal built from the payload exists and writing its value back gives the
    payload's bytes; for booleans the payload's first byte has to be 0 or 1. *)
Theorem numeric_value_roundtrip tag t payload :
  from_int32 tag = Some t → shape (classifyStorage t) ≠ Blob → in_s 64 payload →
  (t = TBoolean → wrap_u 8 payload = 0 ∨ wrap_u 8 payload = 1) →
  ∃ lit, getLiteralFromNumeric (Lit := Lit) (put_u64 payload) tag = Ok lit ∧ lit_null lit = false ∧
    extractNumericByTag lit tag = Ok (Some (take (Z.to_nat (width (classifyStorage t))) (put_u64 payload))).
Proof.
  intros Ht Hs Hp Hb. unfold getLiteralFromNumeric, extractNumericByTag. rewrite Ht.
  destruct t; simpl in Hs; try done; cbn [classifyStorage width]; first [numeric_case payload|packed_case payload Hp|idtac].
  destruct (get_uint_payload 1 payload ltac:(lia)) as [E1 E2]. unfold get_u8. rewrite E1. cbn [res_bind].
  change (8 * Z.of_nat 1) with 8 in *. destruct (Hb eq_refl) as [E|E]; rewrite E in *; simpl; eexists; (split; [done|]);
    rewrite made_not_null, made_value; (split; [done|]); do 2 f_equal; exact E2.
Qed.

End values.

Lemma numeric_value_roundtrip_witness :
  ∃ lit, getLiteralFromNumeric (Lit := SampleLit) (put_u64 (-300)) 205 = Ok lit ∧ lit_null lit = false ∧
    extractNumericByTag lit 205 = Ok (Some (take 2 (put_u64 (-300)))).
Proof. apply (numeric_value_roundtrip 205 TShort); [reflexivity|done|unfold in_s; simpl; lia|done]. Defined.

(** ** From literals to the datatypes' tags *)

(** The loader's encoding fits the shape of the type. *)
Definition fits_shape (t : Type_) (v : LiteralValue) : Prop :=
  match v with
  | LvInline b => shape (classifyStorage t) = Inline32 ∧ 0 ≤ b < 2 ^ (8 * width (classifyStorage t))
  | LvInt64 _ => shape (classifyStorage t) = Int64
  | LvUInt64 _ => shape (classifyStorage t) = UInt64
  | LvDouble _ => shape (classifyStorage t) = Double
  | LvText _ => shape (classifyStorage t) = Blob
  end.

Lemma b2z_range b : 0 ≤ Z.b2z b < 256.
Proof. destruct b; simpl; lia. Qed.

Lemma inline_bits t name val b :
  to_string t = Ok name → inlineValue val (kXsdNamespace +:+ name) = Ok b → 0 ≤ b < 2 ^ (8 * width (classifyStorage t)).
Proof.
  intros Hn Hb. destruct t; vm_compute in Hn; try discriminate Hn; injection Hn as <-; unfold inlineValue in Hb;
    repeat match type of Hb with context [String.eqb ?a ?b] =>
      let r := eval vm_compute in (String.eqb a b) in change (String.eqb a b) with r in Hb end; cbv iota in Hb; try done;
    destruct val; try done; injection Hb as <-; first [apply (wrap_u_range 8); lia|apply (wrap_u_range 16); lia
      |apply (wrap_u_range 32); lia|apply b2z_range].
Qed.

Lemma encode_fits t name l v :
  to_string t = Ok name → l_datatype l = kXsdNamespace +:+ name → encode_literal l = Ok v → fits_shape t v.
Proof.
  intros Hn Hd He.
  assert (shape (classifyStorage t) = if isInlined (l_datatype l) then Inline32
    else match kindOf (l_datatype l) with Some KUInt64 => UInt64 | Some KDouble => Double | Some _ => Int64 | None => Blob end) as Hs.
  { rewrite Hd. clear -Hn. destruct t; vm_compute in Hn; try discriminate Hn; injection Hn as <-; vm_compute; reflexivity. }
  unfold encode_literal in He. destruct (isInlined (l_datatype l)).
  - apply res_bind_ok in He as (b & Hb & He). injection He as <-. split; [done|].
    rewrite Hd in Hb. by eapply inline_bits.
  - destruct (kindOf (l_datatype l)) as [[]|]; destruct (l_value l); try done; inv_ok; done.
Qed.

(** ** Nodes of literals *)

Section nodes.
Context (z : RDFNodeType).

Lemma iri_lookup g s iri dt :
  RdfInv z g s → node_to_id (rg_nodes g) !! iri_node iri = Some dt ↔ zget (id_to_node (rg_nodes g)) dt = Some (iri_node iri).
Proof.
  intros HI. rewrite (dict_lookup _ _ _ (ri_dict _ _ _ HI) (ri_small _ _ _ HI)). split.
  - intros Hf. by apply Hf.
  - intros Hz. destruct (first_at_exists (id_to_node (rg_nodes g)) (iri_node iri)) as [k Hk].
    { unfold zget in Hz. destruct (0 <=? dt); [|done]. by eapply list_elem_of_lookup_2. }
    assert (k = dt) as <-; [|done]. eapply (ri_unique _ _ _ HI); [by apply Hk|done|done].
Qed.

(** Looking a literal up by its bytes finds the node that stands for it. *)
Lemma literal_lookup g s l v :
  RdfInv z g s → encode_literal l = Ok v →
  let r := node_from_rdf_literal g (l_datatype l) (literal_data v) in
  (denotes z g r (NodeLiteral l)) ∨ (r = -1 ∧ ∀ id, ¬ denotes z g id (NodeLiteral l)).
Proof.
  intros HI He r.
  assert (∀ id, denotes z g id (NodeLiteral l) → ∃ dt, node_to_id (rg_nodes g) !! iri_node (l_datatype l) = Some dt ∧
    literalNodes g !! (literal_data v, dt) = Some id) as Hden.
  { intros id [Hid (v' & dt & He' & Hk & Hdt)]. rewrite He in He'. injection He' as <-. exists dt.
    split; [by apply (iri_lookup _ _ _ _ HI)|]. by apply (ri_cache _ _ _ HI). }
  unfold r, node_from_rdf_literal, get_safe. simpl node_id. fold (iri_node (l_datatype l)).
  destruct (node_to_id (rg_nodes g) !! iri_node (l_datatype l)) as [dt|] eqn:Edt.
  - pose proof (proj1 (iri_lookup _ _ _ _ HI) Edt) as Hz. pose proof (zget_lt _ _ _ Hz).
    destruct (Z.ltb_spec dt 0); [lia|]. destruct (literalNodes g !! (literal_data v, dt)) as [id|] eqn:El; simpl.
    + left. apply (ri_cache _ _ _ HI) in El as [Hid Hk]. split; [done|]. by exists v, dt.
    + right. split; [done|]. intros id Hd. destruct (Hden id Hd) as (dt' & E1 & E2). congruence.
  - right. split; [done|]. intros id Hd. destruct (Hden id Hd) as (dt' & E1 & _). congruence.
Qed.
End nodes.

Section resolving.
Context {Lit : Type} `{Rdf4cppValues Lit} (valid : xsd_iris_valid Lit).
Context (z : RDFNodeType) (code : RDFNodeType → Z) (gs : Gs) (meta : Z → Metadata) (mem : Mem).
Context (date_lex : Z * Z * Z * option Z → string) (dateTime_lex : Z * option Z → string).
Context (iri_string : string → string) (literal_string : LiteralText → string) (uid : Z → res Z).

(** The variant's payload carries the value. *)
Definition carries (t : Type_) (v : LiteralValue) (payload : Z) : Prop :=
  match v with
  | LvInline b => let w := Z.to_nat (width (classifyStorage t)) in take w (put_u64 payload) = take w (put_u32 b)
  | LvInt64 x | LvUInt64 x | LvDouble x => put_u64 payload = put_u64 x
  | LvText data => is_text_type t = true ∧ ∃ text, varlen_text mem payload = Ok text ∧ data = Byte.x00 :: text
  end.

Lemma resolveNode_exec graph ga g t name l v payload :
  graphPtr gs graph = Ok ga → meta ga = rdfMetadata z code date_lex dateTime_lex iri_string literal_string uid g →
  to_string t = Ok name → l_datatype l = kXsdNamespace +:+ name → encode_literal l = Ok v → carries t v payload →
  resolveNode (Lit := Lit) gs meta mem graph (to_int32 t) payload = Ok (node_from_rdf_literal g (l_datatype l) (literal_data v)).
Proof.
  intros Hg Hm Hn Hd He Hc. pose proof (encode_fits t name l v Hn Hd He) as Hf. pose proof (valid t name Hn) as Hi.
  assert (unlisted t = false) as Hu.
  { pose proof (names_ok t) as Ho. unfold named_ok in Ho. rewrite Hn in Ho. by apply andb_true_iff in Ho as [_ ?%negb_true_iff]. }
  assert (from_int32 (to_int32 t) = Some t) as Hb.
  { pose proof (proj1 (bool_decide_eq_true _) (codes_back t)) as Ho. by rewrite Hu in Ho. }
  unfold resolveNode. rewrite Hg. cbn [res_bind]. rewrite Hm, Hb. unfold rdfMetadata. cbn [md_node_from_rdf_literal].
  assert ((to_int32 t =? to_int32 TNode) = false ∧ (to_int32 t =? to_int32 TAnyIRI) = false) as [-> ->] by (by destruct t).
  unfold toDatatypeIri. rewrite Hn. cbn [res_bind]. rewrite Hi. cbn [res_bind]. rewrite <- Hd.
  destruct v as [b|x|x|x|data]; simpl in Hf, Hc.
  - destruct Hf as [Hs Hr]. unfold put_u32 in Hc. rewrite Hc, take_le_bytes, le_val_bytes by (clear -Hs; destruct t; simpl in Hs |- *; first [discriminate Hs|lia]).
    assert (0 < width (classifyStorage t)) by (destruct t; simpl in Hs |- *; try done; lia).
    rewrite wrap_u_id by (unfold in_u; rewrite Z2Nat.id by lia; done). by destruct t.
  - rewrite Hc. by destruct t.
  - rewrite Hc. by destruct t.
  - rewrite Hc. by destruct t.
  - destruct Hc as (Ht & text & Htx & ->). rewrite Htx. cbn [res_bind]. by destruct t.
Qed.

(** From a value to its node: for a literal of a datatype the query engine
    keeps as a value (a fixed-width type, string, integer or decimal), resolving
    the variant in a loaded RDF graph gives the node that stands for exactly
    this literal, or -1 when the graph has no such node. *)
Theorem resolveNode_literal graph ga g s t name l v payload :
  graphPtr gs graph = Ok ga → meta ga = rdfMetadata z code date_lex dateTime_lex iri_string literal_string uid g →
  RdfInv z g s → to_string t = Ok name → l_datatype l = kXsdNamespace +:+ name → encode_literal l = Ok v →
  carries t v payload →
  ∃ r, resolveNode (Lit := Lit) gs meta mem graph (to_int32 t) payload = Ok r ∧
    (denotes z g r (NodeLiteral l) ∨ (r = -1 ∧ ∀ id, ¬ denotes z g id (NodeLiteral l))).
Proof.
  intros Hg Hm HI Hn Hd He Hc. eexists. split; [by eapply resolveNode_exec|]. by eapply literal_lookup.
Qed.
End resolving.

(** A graph with the triple (s, p, "-5"^^xsd:int), and the registry around it. *)
Definition int_lit : Literal := mkLit (kXsdNamespace +:+ "int") "" "-5" (AnyInt32 (-5)).
Definition one_graph : Gs := mkGs [(1000, 160, 100)] ∅ [].

Lemma int_room : triple_room sample_rdf (NodeLiteral int_lit).
Proof.
  split; [|split; [vm_compute; congruence|right; vm_compute; reflexivity]].
  exists (LvInline (2 ^ 32 - 5)). split; [vm_compute; reflexivity|]. split; [vm_compute; reflexivity|].
  split; [vm_compute; reflexivity|]. eexists. vm_compute. reflexivity.
Qed.

Lemma sample_valid : xsd_iris_valid SampleLit.
Proof. by intros t name _. Qed.

Lemma resolveNode_literal_witness :
  ∃ g r, resolveNode (Lit := SampleLit) one_graph
      (λ _, rdfMetadata NtIRI (λ _, 0) (λ _, "") (λ _, "") (λ s, s) (λ _, "") (λ _, Fault AssertFailed) g) text_memory
      1016 204 (-5) = Ok r ∧ denotes NtIRI g r (NodeLiteral int_lit).
Proof.
  destruct (addTriple_ok NtIRI OPS sample_rdf spec_empty sample_s sample_p (NodeLiteral int_lit) 0
              (sample_rdf_inv false) eq_refl eq_refl int_room)
    as (g & s & rel & si & pi & oi & _ & HI & _ & _ & _ & Do & _).
  exists g. destruct (resolveNode_literal (Lit := SampleLit) sample_valid NtIRI (λ _, 0) one_graph
    (λ _, rdfMetadata NtIRI (λ _, 0) (λ _, "") (λ _, "") (λ s, s) (λ _, "") (λ _, Fault AssertFailed) g) text_memory
    (λ _, "") (λ _, "") (λ s, s) (λ _, "") (λ _, Fault AssertFailed) 1016 100 g s TInt "int" int_lit
    (LvInline (2 ^ 32 - 5)) (-5)) as (r & Hr & [Hd|[_ Hno]]); try reflexivity; [exact HI| |].
  - exists r. split; [exact Hr|exact Hd].
  - by destruct (Hno oi).
Defined.

(** ** The order of values *)

Lemma str_le_trans a b c : String.compare a b ≠ Gt → String.compare b c ≠ Gt → String.compare a c ≠ Gt.
Proof.
  revert b c. induction a as [|x a IH]; intros [|y b] [|w c]; simpl; try done. unfold Ascii.compare.
  destruct (N.compare_spec (N_of_ascii x) (N_of_ascii y)), (N.compare_spec (N_of_ascii y) (N_of_ascii w)),
    (N.compare_spec (N_of_ascii x) (N_of_ascii w)); try done; try lia. apply IH.
Qed.

#[export] Instance sample_order : Rdf4cppOrder SampleLit.
Proof. split; [intros a b; apply String.compare_antisym|intros a b c; apply str_le_trans]. Qed.

Section order.
Context {Lit : Type} `{Rdf4cppOrder Lit}.
Context (code : RDFNodeType → Z) (gs : Gs) (meta : Z → Metadata) (mem : Mem).

(** What a variant is ordered by. *)
Inductive Key := KNode (rank : Z) (name : string) | KLit (l : Lit) | KEdge (payload : Z).

Definition key_compare (k1 k2 : Key) : comparison :=
  match k1, k2 with
  | KNode r1 n1, KNode r2 n2 => match r1 ?= r2 with Eq => String.compare n1 n2 | c => c end
  | KLit l1, KLit l2 => lit_order l1 l2
  | KEdge p1, KEdge p2 => p1 ?= p2
  | KNode _ _, _ | KLit _, KEdge _ => Lt
  | _, _ => Gt
  end.

Inductive has_key_of : Z → Z → Key → Prop :=
  | key_edge payload : has_key_of payload (to_int32 TEdge) (KEdge payload)
  | key_node payload rank name :
      rankOf code gs meta true payload = Ok rank → node_ref_name gs meta payload = Ok name →
      has_key_of payload (to_int32 TNode) (KNode rank name)
  | key_literal payload tag l :
      tag ≠ to_int32 TEdge → tag ≠ to_int32 TNode → reconstructLiteral gs meta mem payload tag = Ok (Some l) →
      has_key_of payload tag (KLit l).

Lemma rank_range payload rank : rankOf code gs meta true payload = Ok rank → 0 ≤ rank < 2.
Proof. unfold rankOf. simpl. intros H1. inv_ok. destruct a as [g pg]. inv_ok. by case_match. Qed.

Lemma compareOrder_key p1 t1 k1 p2 t2 k2 :
  has_key_of p1 t1 k1 → has_key_of p2 t2 k2 →
  compareOrder code gs meta mem p1 t1 p2 t2 = Ok (sign (key_compare k1 k2)).
Proof.
  intros [q1|q1 r1 n1 R1 N1|q1 u1 l1 E1 M1 L1] [q2|q2 r2 n2 R2 N2|q2 u2 l2 E2 M2 L2]; unfold compareOrder;
    rewrite ?(proj2 (Z.eqb_neq _ _) E1), ?(proj2 (Z.eqb_neq _ _) E2), ?(proj2 (Z.eqb_neq _ _) M1), ?(proj2 (Z.eqb_neq _ _) M2);
    try done; change (to_int32 TNode =? to_int32 TEdge) with false; change (to_int32 TNode =? to_int32 TNode) with true;
    cbn [orb]; rewrite ?R1, ?R2; cbn [rankOf negb res_bind];
    try (pose proof (rank_range _ _ R1)); try (pose proof (rank_range _ _ R2)).
  - cbn [key_compare]. destruct (Z.compare_spec r1 r2) as [<-| |].
    + rewrite Z.eqb_refl. simpl. destruct (Z.eqb_spec r1 2); [lia|]. simpl. by rewrite N1, N2.
    + destruct (Z.eqb_spec r1 r2); [lia|]. simpl. by destruct (Z.ltb_spec r1 r2); [|lia].
    + destruct (Z.eqb_spec r1 r2); [lia|]. simpl. by destruct (Z.ltb_spec r1 r2); [lia|].
  - destruct (Z.eqb_spec r1 2); [lia|]. simpl. by destruct (Z.ltb_spec r1 2); [|lia].
  - destruct (Z.eqb_spec 2 r2); [lia|]. simpl. by destruct (Z.ltb_spec 2 r2); [lia|].
  - simpl. by rewrite L1, L2.
Qed.

Lemma key_antisym k1 k2 : key_compare k1 k2 = CompOpp (key_compare k2 k1).
Proof.
  destruct k1 as [r1 n1|l1|p1], k2 as [r2 n2|l2|p2]; simpl; try done.
  - rewrite (Z.compare_antisym r2 r1), (String.compare_antisym n1 n2). by destruct (r2 ?= r1).
  - apply order_antisym.
  - apply Z.compare_antisym.
Qed.

Lemma key_trans k1 k2 k3 : key_compare k1 k2 ≠ Gt → key_compare k2 k3 ≠ Gt → key_compare k1 k3 ≠ Gt.
Proof.
  destruct k1 as [r1 n1|l1|p1], k2 as [r2 n2|l2|p2], k3 as [r3 n3|l3|p3]; simpl; try done.
  - destruct (Z.compare_spec r1 r2), (Z.compare_spec r2 r3), (Z.compare_spec r1 r3); try done; try lia. apply str_le_trans.
  - apply order_trans.
  - destruct (Z.compare_spec p1 p2), (Z.compare_spec p2 p3), (Z.compare_spec p1 p3); try done; lia.
Qed.

Lemma sign_opp c : sign (CompOpp c) = - sign c.
Proof. by destruct c. Qed.
Lemma sign_le c : sign c ≤ 0 ↔ c ≠ Gt.
Proof. destruct c; simpl; split; intros; try done; lia. Qed.

(** The order of values: on edges, on nodes the graph can name and on
    variants that denote a literal, [compareOrder] returns, swapping the operands
    negates the answer, and the order is transitive: blank nodes, then IRIs,
    then literals in rdf4cpp's order, then edges. *)
Theorem variant_order_total p1 t1 k1 p2 t2 k2 p3 t3 k3 :
  has_key_of p1 t1 k1 → has_key_of p2 t2 k2 → has_key_of p3 t3 k3 →
  ∃ x y w, compareOrder code gs meta mem p1 t1 p2 t2 = Ok x ∧ compareOrder code gs meta mem p2 t2 p1 t1 = Ok (- x) ∧
    compareOrder code gs meta mem p2 t2 p3 t3 = Ok y ∧ compareOrder code gs meta mem p1 t1 p3 t3 = Ok w ∧
    (x ≤ 0 → y ≤ 0 → w ≤ 0).
Proof.
  intros H1 H2 H3. exists (sign (key_compare k1 k2)), (sign (key_compare k2 k3)), (sign (key_compare k1 k3)).
  split_and!; try (by apply compareOrder_key).
  - rewrite <- sign_opp, <- key_antisym. by apply compareOrder_key.
  - rewrite !sign_le. apply key_trans.
Qed.

(** The order is not one on all variants: a variant of the tag for no type
    (or of a tag the code does not know) compares equal to every literal, so of
    two literals in strict order both equal it. *)
Theorem variant_order_unspecified p1 t1 l1 p2 t2 l2 payload :
  has_key_of p1 t1 (KLit l1) → has_key_of p2 t2 (KLit l2) → lit_order l1 l2 = Lt →
  compareOrder code gs meta mem p1 t1 p2 t2 = Ok (-1) ∧
  compareOrder code gs meta mem p1 t1 payload 0 = Ok 0 ∧ compareOrder code gs meta mem payload 0 p2 t2 = Ok 0.
Proof.
  intros H1 H2 HL. split; [rewrite (compareOrder_key _ _ _ _ _ _ H1 H2); simpl; by rewrite HL|].
  inversion H1 as [| |? ? ? E1 M1 L1]; subst. inversion H2 as [| |? ? ? E2 M2 L2]; subst. unfold compareOrder.
  rewrite (proj2 (Z.eqb_neq _ _) E1), (proj2 (Z.eqb_neq _ _) E2), (proj2 (Z.eqb_neq _ _) M1), (proj2 (Z.eqb_neq _ _) M2).
  simpl. rewrite L1, L2. by split.
Qed.
End order.

Lemma sample_int_key meta payload : in_s 64 payload →
  has_key_of (Lit := SampleLit) (λ _, 0) one_graph meta text_memory payload 203 (KLit (Some (AnyInt64 payload, "", ""))).
Proof.
  intros Hp. constructor; [done|done|]. unfold reconstructLiteral, getLiteralFromNumeric.
  change (from_int32 203) with (Some TLong). cbn [is_text_type]. cbv beta iota. simpl bool_decide. cbv iota.
  by rewrite get_i64_payload.
Qed.

Lemma variant_order_total_witness :
  ∃ x y w,
    compareOrder (Lit := SampleLit) (λ _, 0) one_graph (λ _, defaultMetadata) text_memory 7 203 8 1005 = Ok x ∧
    compareOrder (Lit := SampleLit) (λ _, 0) one_graph (λ _, defaultMetadata) text_memory 8 1005 7 203 = Ok (- x) ∧
    compareOrder (Lit := SampleLit) (λ _, 0) one_graph (λ _, defaultMetadata) text_memory 8 1005 9 1005 = Ok y ∧
    compareOrder (Lit := SampleLit) (λ _, 0) one_graph (λ _, defaultMetadata) text_memory 7 203 9 1005 = Ok w ∧
    (x ≤ 0 → y ≤ 0 → w ≤ 0).
Proof.
  apply (variant_order_total _ _ _ _ 7 203 (KLit (Some (AnyInt64 7, "", ""))) 8 1005 (KEdge 8) 9 1005 (KEdge 9)).
  - apply sample_int_key. unfold in_s. simpl. lia.
  - constructor.
  - constructor.
Defined.

(** Memory with the string values "a" at 0 and "b" at 16. *)
Definition two_strings : bytes := put_u32 1 ++ [Byte.x61] ++ replicate 11 Byte.x00 ++ put_u32 1 ++ [Byte.x62] ++ replicate 11 Byte.x00.
Definition strings_memory : Mem := λ a, zget two_strings a.

Lemma variant_order_unspecified_witness :
  compareOrder (Lit := SampleLit) (λ _, 0) one_graph (λ _, defaultMetadata) strings_memory 0 1 16 1 = Ok (-1) ∧
  compareOrder (Lit := SampleLit) (λ _, 0) one_graph (λ _, defaultMetadata) strings_memory 0 1 99 0 = Ok 0 ∧
  compareOrder (Lit := SampleLit) (λ _, 0) one_graph (λ _, defaultMetadata) strings_memory 99 0 16 1 = Ok 0.
Proof.
  apply (variant_order_unspecified _ _ _ _ 0 1 (Some (AnyOther, "a", kXsdNamespace +:+ "string"))
           16 1 (Some (AnyOther, "b", kXsdNamespace +:+ "string"))); [constructor; [done|done|vm_compute; reflexivity]..|reflexivity].
Defined.

Section hash.
Context {Lit : Type} `{Rdf4cppValues Lit}.

(** The hash of numbers does not follow their equality: the doubles 0 and
    -0 compare equal, but hash to different values, because the hash is the bit
    pattern of the double. *)
Theorem hashNumeric_signed_zero :
  (∀ bits, cast_to_double (make_typed_from_value (Lit := Lit) (AnyDouble bits)) = Some bits) →
  lit_eq (make_typed_from_value (Lit := Lit) (AnyDouble 0)) (make_typed_from_value (AnyDouble (2 ^ 63))) = TbTrue →
  compareNumericCross (Lit := Lit) 0 (to_int32 TDouble) (- 2 ^ 63) (to_int32 TDouble) 0 = Ok 1 ∧
  hashNumeric (Lit := Lit) 0 (to_int32 TDouble) = Ok 0 ∧
  hashNumeric (Lit := Lit) (- 2 ^ 63) (to_int32 TDouble) = Ok (- 2 ^ 63).
Proof.
  intros Hc He.
  assert (∀ p, getLiteralFromNumeric (Lit := Lit) (put_u64 p) (to_int32 TDouble) = Ok (make_typed_from_value (AnyDouble (wrap_u 64 p)))) as Hg.
  { intros p. unfold getLiteralFromNumeric. change (from_int32 (to_int32 TDouble)) with (Some TDouble).
    by destruct (get_uint_payload 8 p ltac:(lia)) as [-> _]. }
  unfold compareNumericCross, hashNumeric. rewrite !Hg. cbn [res_bind]. rewrite !made_not_null, !Hc.
  change (wrap_u 64 0) with 0. change (wrap_u 64 (- 2 ^ 63)) with (2 ^ 63). cbn [orb applyPredicate]. rewrite He. by vm_compute.
Qed.
End hash.

Lemma hashNumeric_signed_zero_witness :
  compareNumericCross (Lit := SampleLit) 0 5 (- 2 ^ 63) 5 0 = Ok 1 ∧
  hashNumeric (Lit := SampleLit) 0 5 = Ok 0 ∧ hashNumeric (Lit := SampleLit) (- 2 ^ 63) 5 = Ok (- 2 ^ 63).
Proof. apply (hashNumeric_signed_zero (Lit := SampleLit)); reflexivity. Defined.

(** ** Values of nodes *)

(** An RDF graph registered with the run time: its property graph is the object
    at [ga], which lies in memory as [p] says. *)
Record placed_rdf (gs : Gs) (ga : Z) (p : Placed) (g : RdfGraph) : Prop := {
  pl_separate : separate (g_heap gs);
  pl_wf : gs_wf gs;
  pl_registered : registered gs ga p;
  pl_obj : p_obj p = AProperty (pgraph g);
  pl_cap : pg_nodeCap_ (pgraph g) = nodeCap_ (graph_ (pgraph g)) ∧ nodeCap_ (graph_ (pgraph g)) ≤ 2 ^ 31;
}.

Definition node_ref (p : Placed) (id : Z) : Z := p_nodes p + id * 16.

Section pointers.
Context (z : RDFNodeType) (gs : Gs) (ga : Z) (p : Placed) (g : RdfGraph) (Hpl : placed_rdf gs ga p g).

Lemma node_range : (p_nodes p, pg_nodeCap_ (pgraph g) * 16) ∈ ranges_of p.
Proof. unfold ranges_of. rewrite (pl_obj _ _ _ _ Hpl). left. Qed.

Lemma node_in_ref id n :
  0 ≤ id < pg_nodeCap_ (pgraph g) → zget (nodes_ (graph_ (pgraph g))) id = Some n → node_in (node_ref p id) p = Some n.
Proof.
  intros Hi Hn. unfold node_in, node_ref. rewrite (pl_obj _ _ _ _ Hpl).
  rewrite entry_at_index, (load_Some _ _ _ Hn) by lia.
  destruct (Z.leb_spec (p_nodes p) (p_nodes p + id * 16)), (Z.ltb_spec (p_nodes p + id * 16) (p_nodes p + pg_nodeCap_ (pgraph g) * 16));
    simpl; try done; lia.
Qed.

Lemma deref_node_ref id n :
  0 ≤ id < pg_nodeCap_ (pgraph g) → zget (nodes_ (graph_ (pgraph g))) id = Some n → deref_node gs (node_ref p id) = Ok n.
Proof.
  intros Hi Hn. pose proof (node_in_ref id n Hi Hn) as Hin. unfold deref_node.
  set (f := λ e : Z * Placed, node_in (node_ref p id) (snd e)).
  assert (n ∈ omap f (map_to_list (g_heap gs))) as Hel.
  { apply list_elem_of_omap. exists (ga, p). split; [by apply elem_of_map_to_list, (pl_registered _ _ _ _ Hpl)|done]. }
  destruct (omap f (map_to_list (g_heap gs))) as [|n' l] eqn:El; [set_solver|]. f_equal.
  assert (n' ∈ omap f (map_to_list (g_heap gs))) as ((ga' & p') & Hm & Hf)%list_elem_of_omap by (rewrite El; left).
  apply elem_of_map_to_list in Hm. unfold f in Hf. simpl in Hf.
  assert (ga = ga') as <-.
  { unfold node_in in Hf. destruct (p_obj p') as [|pg'|] eqn:Ep; try done. case_match eqn:Eb; [|done].
    apply andb_true_iff in Eb as [E1%Z.leb_le E2%Z.ltb_lt].
    eapply (sep_ranges _ (pl_separate _ _ _ _ Hpl) ga p ga' p' _ (p_nodes p', pg_nodeCap_ pg' * 16) (node_ref p id));
      [by apply (pl_registered _ _ _ _ Hpl)|done|exact node_range|unfold ranges_of; rewrite Ep; left| |done].
    apply address_in_range; lia. }
  rewrite (proj1 (pl_registered _ _ _ _ Hpl)) in Hm. injection Hm as <-. rewrite Hin in Hf. congruence.
Qed.

Lemma property_graph_of_ref id :
  0 ≤ id < pg_nodeCap_ (pgraph g) →
  propertyGraphOf gs (node_ref p id) = Ok (ga, pgraph g) ∧ nodeId gs (node_ref p id) = Ok id.
Proof.
  intros Hi. destruct (pl_cap _ _ _ _ Hpl) as [Hc1 Hc2].
  destruct (resolve_entry gs ga p _ _ _ id (pl_separate _ _ _ _ Hpl) (pl_wf _ _ _ _ Hpl) (pl_registered _ _ _ _ Hpl) node_range)
    as (Hl & Hx & _); [lia..|]. split.
  - unfold propertyGraphOf, graphPtr.
    rewrite (lookup_range gs ga p _ _ (pl_separate _ _ _ _ Hpl) (pl_wf _ _ _ _ Hpl) (pl_registered _ _ _ _ Hpl) node_range)
      by (apply address_in_range; lia).
    cbn [res_bind]. unfold property_graph_at, object_at. rewrite (proj1 (pl_registered _ _ _ _ Hpl)). cbn [res_bind].
    by rewrite (pl_obj _ _ _ _ Hpl).
  - unfold nodeId, node_ref. rewrite Hl. cbn [res_bind]. unfold sizeof_node. rewrite (pl_obj _ _ _ _ Hpl). by rewrite Hx.
Qed.

Lemma id_below_cap s id : RdfInv z g s → 0 ≤ id < dict_size (rg_nodes g) → 0 ≤ id < pg_nodeCap_ (pgraph g).
Proof.
  intros HI Hi. rewrite (proj1 (pl_cap _ _ _ _ Hpl)). rewrite <- (ri_mark _ _ _ HI) in Hi.
  destruct (lay_npool _ (rep_layout _ _ (ri_rep _ _ _ HI))) as [Hb _ _ _]. lia.
Qed.

(** What the run time reads of a literal node of a fixed-width type. *)
Lemma extract_literal s id t name l v :
  RdfInv z g s → denotes z g id (NodeLiteral l) → to_string t = Ok name → l_datatype l = kXsdNamespace +:+ name →
  encode_literal l = Ok v → shape (classifyStorage t) ≠ Blob →
  extractNumericLiteral gs (node_ref p id) (to_int32 t) = Ok (Some (take (Z.to_nat (width (classifyStorage t))) (literal_data v))).
Proof.
  intros HI Hd Hn Hdt He Hs. pose proof (denotes_range _ _ _ _ Hd) as Hr. pose proof (id_below_cap s id HI Hr) as Hcap.
  destruct Hd as [Hid (v' & dt & He' & [Hk _] & Hz)]. rewrite He in He'. injection He' as <-.
  assert (from_int32 (to_int32 t) = Some t) as Hb by (clear -Hn; by destruct t).
  unfold literalKeyFor in Hk. apply res_bind_ok in Hk as (e & Hnode & Hk). apply node_accessor in Hnode as [_ Hnode].
  apply res_bind_ok in Hk as (u & Hu & Hk). unfold assert_ in Hu. destruct (Z.leb_spec 0 (n_payload e)); [|done].
  apply res_bind_ok in Hk as (pr & Hpr & Hk). apply res_bind_ok in Hk as (iri & Hiri & Hk).
  apply res_bind_ok in Hk as (data & Hdata & Hk). injection Hk as -> Edt. rewrite Edt in Hiri.
  unfold getIri, getNodeId in Hiri. rewrite (dict_get_stored z _ _ _ Hz (ri_small _ _ _ HI)) in Hiri. simpl in Hiri. injection Hiri as <-.
  unfold extractNumericLiteral. rewrite (deref_node_ref id e Hcap Hnode). cbn [res_bind].
  destruct (Z.ltb_spec (n_payload e) 0); [lia|]. rewrite Hb. destruct (property_graph_of_ref id Hcap) as [-> _]. cbn [res_bind].
  rewrite Hpr. cbn [res_bind].
  rewrite Hdt in Hdata. clear -Hn Hs Hdata. destruct t; vm_compute in Hn; try discriminate Hn; injection Hn as <-;
    try done; vm_compute isInlined in Hdata; vm_compute kindOf in Hdata; cbn [classifyStorage shape width];
    first [injection Hdata as <-; done|apply res_bind_ok in Hdata as (x & -> & Hdata); injection Hdata as <-; done].
Qed.
End pointers.

Lemma string_app_cancel a b c : a +:+ c = b +:+ c → a = b.
Proof.
  revert b. induction a as [|x a IH]; intros [|y b] E; [done| | |].
  - exfalso. apply (f_equal String.length) in E. rewrite !length_string_app in E. simpl in E. lia.
  - exfalso. apply (f_equal String.length) in E. rewrite !length_string_app in E. simpl in E. lia.
  - injection E as -> E. by rewrite (IH b).
Qed.

Lemma str_compare_refl s : String.compare s s = Eq.
Proof. pose proof (String.compare_antisym s s) as H. by destruct (String.compare s s). Qed.

Section node_values.
Context {Lit : Type} `{Rdf4cppValues Lit} (valid : xsd_iris_valid Lit).
Context (z : RDFNodeType) (code : RDFNodeType → Z) (gs : Gs) (meta : Z → Metadata) (mem : Mem).
Context (date_lex : Z * Z * Z * option Z → string) (dateTime_lex : Z * option Z → string).
Context (iri_string : string → string) (literal_string : LiteralText → string) (uid : Z → res Z).

(** C38. From a node to its value and back: for a literal node of a fixed-width
    XSD type in a loaded and registered RDF graph, the run time reads as many
    bytes as the type has, and a variant whose payload starts with these bytes
    resolves to the very node they were read from. *)
Theorem literal_value_resolves_back graph ga p g s id t name l v :
  placed_rdf gs ga p g → graphPtr gs graph = Ok ga →
  meta ga = rdfMetadata z code date_lex dateTime_lex iri_string literal_string uid g → RdfInv z g s →
  denotes z g id (NodeLiteral l) → encode_literal l = Ok v → to_string t = Ok name → l_datatype l = kXsdNamespace +:+ name →
  shape (classifyStorage t) ≠ Blob →
  ∃ bs, extractNumericLiteral gs (node_ref p id) (to_int32 t) = Ok (Some bs) ∧
    Z.of_nat (length bs) = width (classifyStorage t) ∧
    ∀ payload, take (length bs) (put_u64 payload) = bs →
      resolveNode (Lit := Lit) gs meta mem graph (to_int32 t) payload = Ok id.
Proof.
  intros Hpl Hg Hm HI Hd He Hn Hdt Hs.
  rewrite (extract_literal z gs ga p g Hpl s id t name l v HI Hd Hn Hdt He Hs). eexists. split; [done|].
  pose proof (encode_fits t name l v Hn Hdt He) as Hf.
  assert (Z.to_nat (width (classifyStorage t)) ≤ length (literal_data v))%nat as Hw.
  { clear -Hf Hs. destruct v as [b|x|x|x|data]; simpl in Hf |- *; [destruct Hf as [Hf _]|..]; destruct t; simpl in *; try done; lia. }
  rewrite length_take, Nat.min_l by lia. assert (0 ≤ width (classifyStorage t)) by (clear; destruct t; simpl; lia).
  split; [lia|]. intros payload Hp.
  assert (carries mem t v payload) as Hc.
  { destruct v as [b|x|x|x|data]; simpl in Hf, Hp |- *; [done|..|by destruct t];
      (assert (width (classifyStorage t) = 8) as E by (clear -Hf; by destruct t)); rewrite E in Hp;
      unfold put_u64 in *; by rewrite !take_le_bytes in Hp by (simpl; lia). }
  erewrite resolveNode_exec by done. f_equal.
  destruct (literal_lookup z g s l v HI He) as [Hr|[_ Hno]]; [|by destruct (Hno id)].
  destruct Hr as [Zr (v1 & dt1 & E1 & K1 & D1)], Hd as [Zi (v2 & dt2 & E2 & K2 & D2)].
  rewrite He in E1, E2. injection E1 as <-. injection E2 as <-.
  assert (dt1 = dt2) as <- by (by eapply (ri_unique _ _ _ HI)).
  pose proof (proj2 (ri_cache _ _ _ HI _ _) (conj Zr K1)) as C1. pose proof (proj2 (ri_cache _ _ _ HI _ _) (conj Zi K2)) as C2.
  congruence.
Qed.

(** Comparing a node with a constant IRI: for every node of a loaded and
    registered RDF graph the test for equality answers 1 exactly when the node
    stands for that IRI, and 0 for every other node, blank nodes and literals
    included. *)
Theorem compareIriNodeRef_exact ga p g s id iri :
  placed_rdf gs ga p g → meta ga = rdfMetadata z code date_lex dateTime_lex iri_string literal_string uid g →
  RdfInv z g s → 0 ≤ id < dict_size (rg_nodes g) →
  (∀ a b, code a = code b → a = b) → (∀ i, iri_string i = "<" +:+ i +:+ ">") →
  ∃ r, compareIriNodeRef code gs meta iri (node_ref p id) 0 = Ok r ∧
    (r = 0 ∨ r = 1) ∧ (r = 1 ↔ denotes z g id (NodeIRI iri)).
Proof.
  intros Hpl Hm HI Hid Hcode Hstr. pose proof (id_below_cap z gs ga p g Hpl s id HI Hid) as Hcap.
  pose proof (ri_mark _ _ _ HI) as Hmark. pose proof (lay_nlen _ (rep_layout _ _ (ri_rep _ _ _ HI))) as Hlen.
  destruct (proj2 (zget_is_Some (id_to_node (rg_nodes g)) id) Hid) as [n Hz].
  destruct (proj2 (zget_is_Some (nodes_ (graph_ (pgraph g))) id)) as [e He].
  { rewrite Hlen. rewrite <- (proj1 (pl_cap _ _ _ _ Hpl)). done. }
  unfold compareIriNodeRef. rewrite (deref_node_ref gs ga p g Hpl id e Hcap He). cbn [res_bind].
  destruct (Z.leb_spec 0 (n_payload e)) as [Hlit|Hneg].
  { exists 0. split; [done|]. split; [by left|]. simpl. split; [done|]. intros E.
    pose proof (ri_payload _ _ _ HI id e ltac:(lia) He Hlit) as Hl. rewrite E in Hl. discriminate Hl. }
  destruct (property_graph_of_ref gs ga p g Hpl id Hcap) as [-> ->]. cbn [res_bind]. rewrite Hm. unfold rdfMetadata.
  cbn [type_id get_node_name]. unfold node_type, node_name, getNodeId.
  rewrite (dict_get_stored z _ _ _ Hz (ri_small _ _ _ HI)). cbn [res_bind].
  destruct (Z.eqb_spec (code (ni_type n)) (code NtIRI)) as [E|E]; simpl.
  - apply Hcode in E. rewrite E. cbn [res_bind]. rewrite Hstr. eexists. split; [done|].
    assert (∃ i, n = iri_node i) as [i ->].
    { pose proof (wf_canonical _ (ri_dict _ _ _ HI)) as Hc. rewrite Forall_forall in Hc.
      assert (canonical n) as Hn; [|unfold canonical in Hn; destruct n as [ty io lo]; simpl in *; subst ty; destruct Hn as [[i ->] ->]; by exists i].
      apply Hc. unfold zget in Hz. destruct (0 <=? id); [|done]. by eapply list_elem_of_lookup_2. }
    simpl. case_bool_decide as Ec; simpl; (split; [naive_solver|]).
    + apply String.compare_eq_iff in Ec. rewrite Hz. unfold iri_node. split; [|done]. intros _. do 3 f_equal.
      symmetry. apply (string_app_cancel iri i ">"). exact Ec.
    + split; [done|]. intros E1. rewrite Hz in E1. injection E1 as ->. destruct Ec. apply str_compare_refl.
  - exists 0. split; [done|]. split; [by left|]. split; [done|]. rewrite Hz. intros [= ->]. done.
Qed.
End node_values.

(** ** A registered graph with one literal *)

Definition int_rdf : RdfGraph :=
  match addTriple OPS sample_rdf sample_s sample_p (NodeLiteral int_lit) 0 with Ok g => g | Fault _ => sample_rdf end.
Definition int_placed : Placed := mkPlaced (AProperty (pgraph int_rdf)) 1000 2000 3000.
Definition int_gs : Gs := mkGs [(1000, 256, 100); (2000, 288, 100); (3000, 192, 100)] {[100 := int_placed]} [].
Definition int_metadata : Metadata :=
  rdfMetadata NtIRI (λ t, Z.of_nat (type_tag t)) (λ _, "") (λ _, "") (λ s, "<" +:+ s +:+ ">") (λ _, "") (λ _, Fault AssertFailed) int_rdf.

Lemma int_ranges : ranges_of int_placed = [(1000, 256); (2000, 288); (3000, 192)].
Proof. vm_compute. reflexivity. Qed.

Lemma int_heap : g_heap int_gs = {[100 := int_placed]}.
Proof. reflexivity. Qed.

Ltac in_three H := repeat (apply elem_of_cons in H as [->|H]); try (by apply not_elem_of_nil in H).

Lemma int_placed_ok : placed_rdf int_gs 100 int_placed int_rdf.
Proof.
  split; [split| | |done|vm_compute; split; congruence].
  - rewrite int_heap. intros g p g' p' r r' ref [<- <-]%lookup_singleton_Some [<- <-]%lookup_singleton_Some. rewrite int_ranges.
    intros Hr Hr' H H'. split; [done|]. unfold in_range in *. in_three Hr; in_three Hr'; simpl in *; done || lia.
  - rewrite int_heap. intros g p g' p' r [<- <-]%lookup_singleton_Some [<- <-]%lookup_singleton_Some. rewrite int_ranges.
    intros Hr H. unfold in_range in *. in_three Hr; simpl in *; lia.
  - rewrite int_heap. intros g p r [<- <-]%lookup_singleton_Some. rewrite int_ranges. intros Hr. in_three Hr; simpl in *; lia.
  - intros s l g Hin. exists int_placed. rewrite int_ranges. simpl in Hin.
    repeat (apply elem_of_cons in Hin as [[= -> -> ->]|Hin]); try (by apply not_elem_of_nil in Hin);
      (split; [by apply lookup_singleton_eq|set_solver]).
  - split; [by apply lookup_singleton_eq|]. rewrite int_ranges. intros r Hr. in_three Hr; simpl; set_solver.
Qed.

Lemma int_rdf_inv : ∃ s id, RdfInv NtIRI int_rdf s ∧ denotes NtIRI int_rdf id (NodeLiteral int_lit).
Proof.
  destruct (addTriple_ok NtIRI OPS sample_rdf spec_empty sample_s sample_p (NodeLiteral int_lit) 0
              (sample_rdf_inv false) eq_refl eq_refl int_room)
    as (g & s & rel & si & pi & oi & Ha & HI & _ & _ & _ & Do & _).
  exists s, oi. unfold int_rdf. rewrite Ha. by split.
Qed.

Lemma literal_value_resolves_back_witness :
  ∃ id bs, denotes NtIRI int_rdf id (NodeLiteral int_lit) ∧
    extractNumericLiteral int_gs (node_ref int_placed id) 204 = Ok (Some bs) ∧
    (take (length bs) (put_u64 (-5)) = bs →
     resolveNode (Lit := SampleLit) int_gs (λ _, int_metadata) text_memory 1016 204 (-5) = Ok id).
Proof.
  destruct int_rdf_inv as (s & id & HI & Hd).
  destruct (literal_value_resolves_back (Lit := SampleLit) sample_valid NtIRI (λ t, Z.of_nat (type_tag t)) int_gs (λ _, int_metadata)
    text_memory (λ _, "") (λ _, "") (λ s, "<" +:+ s +:+ ">") (λ _, "") (λ _, Fault AssertFailed) 1016 100 int_placed int_rdf s id
    TInt "int" int_lit (LvInline (2 ^ 32 - 5)) int_placed_ok eq_refl eq_refl HI Hd eq_refl eq_refl eq_refl ltac:(done))
    as (bs & He & _ & Hr).
  exists id, bs. split; [exact Hd|]. split; [exact He|]. exact (Hr (-5)).
Defined.

Lemma compareIriNodeRef_exact_witness :
  ∃ r, compareIriNodeRef (λ t, Z.of_nat (type_tag t)) int_gs (λ _, int_metadata) "http://x/p" (node_ref int_placed 2) 0 = Ok r ∧
    (r = 0 ∨ r = 1) ∧ (r = 1 ↔ denotes NtIRI int_rdf 2 (NodeIRI "http://x/p")).
Proof.
  destruct int_rdf_inv as (s & id & HI & Hd).
  apply (compareIriNodeRef_exact NtIRI (λ t, Z.of_nat (type_tag t)) int_gs (λ _, int_metadata)
    (λ _, "") (λ _, "") (λ s, "<" +:+ s +:+ ">") (λ _, "") (λ _, Fault AssertFailed) 100 int_placed int_rdf s 2 "http://x/p" int_placed_ok);
    [reflexivity|exact HI|vm_compute; split; congruence|intros [] []; done|reflexivity].
Defined.
