(* ===== verification/Heap.v ===== *)
(** * The heap of ORDER BY ... LIMIT

    Model of include/lingodb/runtime/Heap.h and src/runtime/Heap.cpp.  The
    heap keeps the [maxElements] smallest of the elements given to it, the
    largest of them at index 1; [getBuffer] sorts them in place.  Elements are
    values of an arbitrary type, [cmpFn] is the generated comparison.  The
    counters are [size_t] and never wrap (the array has as many elements); the
    loop of [buildHeap] counts in [int], so that a LIMIT of 2^31 is not sorted. *)

From S2P Require Import Prelude.
From stdpp Require Import sorting.
#[local] Open Scope Z_scope.

Section heap.
Context {A : Type} (cmpFn : A → A → bool).

(** [data] has [maxElements + 1] slots, the first of which is unused; a slot
    that was never written holds some value. *)
Record Heap := mkHeap { maxElements : Z; currElements : Z; hp_data : list A }.

Definition newHeap (max : Z) (garbage : A) : Heap := mkHeap max 0 (replicate (Z.to_nat (max + 1)) garbage).

Definition isLt (d : list A) (l r : Z) : res bool :=
  let* x := load d l in
  let* y := load d r in Ok (cmpFn x y).

Definition heap_swap (d : list A) (l r : Z) : res (list A) :=
  let* x := load d l in
  let* y := load d r in
  Ok (zset (zset d l y) r x).

Fixpoint bubbleDown (fuel : nat) (d : list A) (idx end_ : Z) : res (list A) :=
  match fuel with
  | O => Fault OutOfFuel
  | S fuel' =>
      let leftChild := idx * 2 in
      if end_ <? leftChild then Ok d
      else
        let rightChild := idx * 2 + 1 in
        let* maxChild :=
          if rightChild <=? end_ then
            let* b := isLt d leftChild rightChild in Ok (if b then rightChild else leftChild)
          else Ok leftChild in
        let* b := isLt d idx maxChild in
        if b then
          let* d' := heap_swap d idx maxChild in bubbleDown fuel' d' maxChild end_
        else Ok d
  end.

(** The index at least doubles. *)
Definition heapFuel (end_ : Z) : nat := S (Z.to_nat end_).

(** The body of the loop for [i], [i - 1], ..., 1. *)
Fixpoint buildFrom (i : nat) (d : list A) (end_ : Z) : res (list A) :=
  match i with
  | O => Ok d
  | S i' => let* d' := bubbleDown (heapFuel end_) d (Z.of_nat i) end_ in buildFrom i' d' end_
  end.
(** [for (int i = currElements; i > 0; i--)]: the counter is narrowed to [int]. *)
Definition buildHeap (d : list A) (currElements : Z) : res (list A) := buildFrom (Z.to_nat (i32 currElements)) d currElements.

Definition heap_insert (h : Heap) (x : A) : res Heap :=
  if currElements h <? maxElements h then
    let* d := store (hp_data h) (currElements h + 1) x in
    let n := currElements h + 1 in
    let* d := if n =? maxElements h then buildHeap d n else Ok d in
    Ok (mkHeap (maxElements h) n d)
  else
    let* last := load (hp_data h) 1 in
    if cmpFn x last then
      let* d := store (hp_data h) 1 x in
      let* d := bubbleDown (heapFuel (currElements h)) d 1 (currElements h) in
      Ok (mkHeap (maxElements h) (currElements h) d)
    else Ok h.

(** The loop of [getBuffer] with [n] elements still in the heap. *)
Fixpoint sortFrom (n : nat) (d : list A) : res (list A) :=
  match n with
  | O => Ok d
  | S n' =>
      let* d := heap_swap d 1 (Z.of_nat n) in
      let* d := bubbleDown (heapFuel (Z.of_nat n')) d 1 (Z.of_nat n') in
      sortFrom n' d
  end.

(** The elements of the returned buffer. *)
Definition getBuffer (h : Heap) : res (list A) :=
  let n := currElements h in
  let* d := if n <? maxElements h then buildHeap (hp_data h) n else Ok (hp_data h) in
  let* d := sortFrom (Z.to_nat n) d in
  Ok (take (Z.to_nat n) (drop 1 d)).

Fixpoint insert_all (h : Heap) (xs : list A) : res Heap :=
  match xs with
  | [] => Ok h
  | x :: xs => let* h := heap_insert h x in insert_all h xs
  end.

(** [mergeWithOther] and [merge] over the heaps of the workers. *)
Definition mergeWithOther (h other : Heap) : res Heap :=
  insert_all h (take (Z.to_nat (currElements other)) (drop 1 (hp_data other))).
Fixpoint merge_into (first : Heap) (others : list (option Heap)) : res Heap :=
  match others with
  | [] => Ok first
  | None :: others => merge_into first others
  | Some h :: others => let* first := mergeWithOther first h in merge_into first others
  end.
Fixpoint heap_merge (values : list (option Heap)) : res (option Heap) :=
  match values with
  | [] => Ok None
  | None :: values => heap_merge values
  | Some h :: values => let* h := merge_into h values in Ok (Some h)
  end.
End heap.
Arguments Heap : clear implicits.

(** ** The heap keeps and sorts the smallest elements

    Theorems about Heap.v, for a comparison that is a strict weak order. *)

(** ** Swapping two slots *)

Lemma swap_perm {A} (l : list A) i j x y :
  zget l i = Some x → zget l j = Some y → zset (zset l i y) j x ≡ₚ l.
Proof.
  intros Hi Hj. pose proof (zget_lt _ _ _ Hi). pose proof (zget_lt _ _ _ Hj).
  set (f := λ k : nat, if decide (k = Z.to_nat i) then Z.to_nat j else if decide (k = Z.to_nat j) then Z.to_nat i else k).
  apply Permutation_inj. split; [by rewrite !length_zset|]. exists f. split.
  - intros a b. unfold f. repeat case_decide; lia.
  - intros k. unfold zget, zset in *. destruct (Z.leb_spec 0 i), (Z.leb_spec 0 j); try lia. unfold f.
    destruct (decide (k = Z.to_nat j)) as [->|Hkj].
    + rewrite list_lookup_insert_eq by (rewrite length_insert; lia).
      repeat case_decide; congruence.
    + rewrite list_lookup_insert_ne by done. case_decide as E; [subst k; rewrite list_lookup_insert_eq by lia; done|].
      by rewrite list_lookup_insert_ne.
Qed.

Lemma filter_none {A} (P : A → Prop) `{∀ x, Decision (P x)} (l : list A) : (∀ x, P x → x ∉ l) → filter P l = [].
Proof.
  induction l as [|x l IH]; intros Hn; [done|]. rewrite filter_cons_False.
  - apply IH. intros y Hy Hin. apply (Hn y Hy). by right.
  - intros HP. apply (Hn x HP). by left.
Qed.

Lemma filter_all {A} (P : A → Prop) `{∀ x, Decision (P x)} (l : list A) : Forall P l → filter P l = l.
Proof. induction 1 as [|x l Hx Hl IH]; [done|]. by rewrite filter_cons_True, IH. Qed.

(** The slots from 1 to [n]. *)
Definition slots {A} (l : list A) (n : Z) : list A := take (Z.to_nat n) (drop 1 l).

Lemma slots_split {A} (l : list A) n : 0 ≤ n < Z.of_nat (length l) → l = take 1 l ++ slots l n ++ drop (Z.to_nat n) (drop 1 l).
Proof. intros Hn. unfold slots. by rewrite !take_drop. Qed.

Lemma zget_slots {A} (l : list A) n (i : nat) :
  (i < Z.to_nat n)%nat → slots l n !! i = zget l (Z.of_nat i + 1).
Proof.
  intros Hi. unfold slots. rewrite lookup_take_lt, lookup_drop by done. unfold zget.
  destruct (Z.leb_spec 0 (Z.of_nat i + 1)); [|lia]. f_equal. lia.
Qed.

(** A permutation that changes slots 1 to [n] only permutes them. *)
Lemma slots_perm {A} (l l' : list A) n :
  0 ≤ n < Z.of_nat (length l) → l' ≡ₚ l → (∀ i, ¬ (1 ≤ i ≤ n) → zget l' i = zget l i) → slots l' n ≡ₚ slots l n.
Proof.
  intros Hn Hp Hout. pose proof (Permutation_length Hp) as Hlen.
  assert (take 1 l' = take 1 l) as E1.
  { apply list_eq. intros [|i]; [|by rewrite !lookup_take_ge by lia]. rewrite !lookup_take_lt by lia. apply (Hout 0). lia. }
  assert (drop (Z.to_nat n) (drop 1 l') = drop (Z.to_nat n) (drop 1 l)) as E2.
  { apply list_eq. intros i. rewrite !lookup_drop. pose proof (Hout (Z.of_nat (1 + (Z.to_nat n + i)))) as E. unfold zget in E.
    destruct (Z.leb_spec 0 (Z.of_nat (1 + (Z.to_nat n + i)))); [|lia]. rewrite Nat2Z.id in E. apply E. lia. }
  rewrite (slots_split l n Hn) in Hp at 1. rewrite (slots_split l' n ltac:(lia)) in Hp. rewrite E1, E2 in Hp.
  apply Permutation_app_inv_l in Hp. by apply Permutation_app_inv_r in Hp.
Qed.

Section props.
Context {A : Type} (cmpFn : A → A → bool).

(** [cmpFn] is a strict weak order: "not before" is total and transitive. *)
Record strict_weak : Prop := {
  sw_asym : ∀ x y, cmpFn x y = true → cmpFn y x = false;
  sw_trans : ∀ x y z, cmpFn x y = false → cmpFn y z = false → cmpFn x z = false;
}.
Hypothesis Hsw : strict_weak.

(** [x] is not before [y]. *)
Definition ge_ (x y : A) : Prop := cmpFn x y = false.

(** Node [j] is not before its children up to [e]. *)
Definition node_ok (l : list A) (e j : Z) : Prop :=
  ∀ c x y, (c = 2 * j ∨ c = 2 * j + 1) → c ≤ e → zget l j = Some x → zget l c = Some y → ge_ x y.

Definition heap_from (l : list A) (i e : Z) : Prop := ∀ j, i ≤ j → node_ok l e j.

(** All nodes from [i] on are in order but [idx], whose children are below its
    parent. *)
Record almost (l : list A) (i idx e : Z) : Prop := {
  al_nodes : ∀ j, i ≤ j → j ≠ idx → node_ok l e j;
  al_grand : ∀ c x y, i ≤ idx / 2 → 1 < idx → (c = 2 * idx ∨ c = 2 * idx + 1) → c ≤ e →
    zget l (idx / 2) = Some x → zget l c = Some y → ge_ x y;
}.

(** What a pass over slots 1 to [e] leaves. *)
Record within_slots (l l' : list A) (e : Z) : Prop := {
  ws_perm : l' ≡ₚ l;
  ws_out : ∀ i, ¬ (1 ≤ i ≤ e) → zget l' i = zget l i;
}.

Lemma within_refl l e : within_slots l l e.
Proof. by split. Qed.
Lemma within_trans l1 l2 l3 e : within_slots l1 l2 e → within_slots l2 l3 e → within_slots l1 l3 e.
Proof. intros [P1 O1] [P2 O2]. split; [by etrans|]. intros i Hi. by rewrite O2, O1. Qed.

Lemma slot_some (l : list A) e j : 0 ≤ e < Z.of_nat (length l) → 1 ≤ j ≤ e → ∃ x, zget l j = Some x.
Proof. intros He Hj. apply zget_is_Some. lia. Qed.

Lemma swap_within l i j e x y :
  zget l i = Some x → zget l j = Some y → 1 ≤ i ≤ e → 1 ≤ j ≤ e → within_slots l (zset (zset l i y) j x) e.
Proof.
  intros Hi Hj ? ?. split; [by apply swap_perm|]. intros k Hk. rewrite !zget_zset_ne by lia. done.
Qed.

(** The child [bubbleDown] compares with. *)
Lemma max_child l idx e x :
  0 ≤ e < Z.of_nat (length l) → 1 ≤ idx → 2 * idx ≤ e → zget l idx = Some x →
  ∃ m y, (m = 2 * idx ∨ m = 2 * idx + 1) ∧ m ≤ e ∧ zget l m = Some y ∧
    (if idx * 2 + 1 <=? e then let* b := isLt cmpFn l (idx * 2) (idx * 2 + 1) in Ok (if b then idx * 2 + 1 else idx * 2) else Ok (idx * 2)) = Ok m ∧
    (∀ c z, (c = 2 * idx ∨ c = 2 * idx + 1) → c ≤ e → zget l c = Some z → ge_ y z).
Proof.
  intros He Hidx Hl Hx. destruct (slot_some l e (2 * idx) He ltac:(lia)) as [u Hu].
  assert (∀ v, ge_ v v) as Hrefl by (intros v; unfold ge_; destruct (cmpFn v v) eqn:E; [|done]; rewrite <- E; by apply (sw_asym Hsw)).
  rewrite (Z.mul_comm idx 2). destruct (Z.leb_spec (2 * idx + 1) e) as [Hr|Hr].
  - destruct (slot_some l e (2 * idx + 1) He ltac:(lia)) as [w Hw]. unfold isLt.
    rewrite (load_Some _ _ _ Hu), (load_Some _ _ _ Hw). cbn [res_bind]. destruct (cmpFn u w) eqn:Euw.
    + exists (2 * idx + 1), w. split_and!; try done; [by right|]. intros c v [->| ->] _ Hc; simplify_eq; [|done].
      by apply (sw_asym Hsw).
    + exists (2 * idx), u. split_and!; try done; [by left|]. intros c v [->| ->] _ Hc; by simplify_eq.
  - exists (2 * idx), u. split_and!; try done; [by left|]. intros c v [->| ->] ? Hc; [by simplify_eq|lia].
Qed.

(** After the swap everything is in order but the child. *)
Lemma swap_almost l i idx e m x y :
  0 ≤ e < Z.of_nat (length l) → 1 ≤ i → i ≤ idx → almost l i idx e → (m = 2 * idx ∨ m = 2 * idx + 1) → m ≤ e →
  zget l idx = Some x → zget l m = Some y → cmpFn x y = true →
  (∀ c z, (c = 2 * idx ∨ c = 2 * idx + 1) → c ≤ e → zget l c = Some z → ge_ y z) →
  almost (zset (zset l idx y) m x) i m e.
Proof.
  intros He Hi Hidx [Hn Hg] Hm Hme Hx Hy Hlt Hmax.
  assert (∀ k z, zget (zset (zset l idx y) m x) k = Some z →
    (k = m ∧ z = x) ∨ (k = idx ∧ z = y) ∨ (k ≠ m ∧ k ≠ idx ∧ zget l k = Some z)) as Hget.
  { intros k z Hk. rewrite zget_zset in Hk. destruct (decide (m = k)) as [<-|Nm].
    - apply fmap_Some in Hk as (? & _ & ->). by left.
    - right. rewrite zget_zset in Hk. destruct (decide (idx = k)) as [<-|Ni]; [|by right].
      apply fmap_Some in Hk as (? & _ & ->). by left. }
  split.
  - intros j Hj Hjm c u v Hc Hce Hu Hv. destruct (Hget j u Hu) as [[? ?]|[[-> ->]|(_ & Hji & Hu')]]; [done| |].
    + destruct (Hget c v Hv) as [[-> ->]|[[? ?]|(_ & _ & Hv')]]; [by apply (sw_asym Hsw)|lia|by eapply Hmax].
    + destruct (Hget c v Hv) as [[-> ->]|[[-> ->]|(_ & _ & Hv')]]; [exfalso; lia| |by eapply (Hn j); eauto].
      (* [j] is the parent of [idx] *)
      assert (j = idx / 2) as -> by (Z.to_euclidean_division_equations; lia).
      eapply (Hg m); eauto; Z.to_euclidean_division_equations; lia.
  - intros c u v Hi2 _ Hc Hce Hu Hv. assert (m / 2 = idx) as E by (Z.to_euclidean_division_equations; lia). rewrite E in Hu.
    destruct (Hget idx u Hu) as [[? ?]|[[_ ->]|(_ & ? & _)]]; [lia| |done].
    destruct (Hget c v Hv) as [[? ?]|[[? ?]|(_ & _ & Hv')]]; [lia|lia|]. eapply (Hn m ltac:(lia) ltac:(lia)); eauto.
Qed.

Lemma bubbleDown_ok fuel l i idx e :
  0 ≤ e < Z.of_nat (length l) → 1 ≤ i → i ≤ idx → (e < idx + Z.of_nat fuel) → almost l i idx e →
  idx ≤ e →
  ∃ l', bubbleDown cmpFn fuel l idx e = Ok l' ∧ within_slots l l' e ∧ heap_from l' i e.
Proof.
  revert l idx. induction fuel as [|fuel IH]; intros l idx He Hi Hidx Hf Hal Hin; [lia|]. cbn [bubbleDown].
  destruct (Z.ltb_spec e (idx * 2)) as [Hleaf|Hinner].
  - exists l. split; [done|]. split; [apply within_refl|]. intros j Hj. destruct (decide (j = idx)) as [->|]; [|by apply Hal].
    intros c x y Hc Hce. lia.
  - destruct (slot_some l e idx He ltac:(lia)) as [x Hx].
    destruct (max_child l idx e x He ltac:(lia) ltac:(lia) Hx) as (m & y & Hm & Hme & Hy & -> & Hmax). cbn [res_bind].
    unfold isLt. rewrite (load_Some _ _ _ Hx), (load_Some _ _ _ Hy). cbn [res_bind]. destruct (cmpFn x y) eqn:Exy.
    + unfold heap_swap. rewrite (load_Some _ _ _ Hx), (load_Some _ _ _ Hy). cbn [res_bind].
      destruct (IH (zset (zset l idx y) m x) m) as (l' & -> & Hw & Hh); [by rewrite !length_zset|done|lia|lia| |done|].
      { eapply swap_almost; eauto. }
      exists l'. split; [done|]. split; [|done]. eapply within_trans; [|done]. apply swap_within; [done|done|lia|lia].
    + exists l. split; [done|]. split; [apply within_refl|]. intros j Hj. destruct (decide (j = idx)) as [->|]; [|by apply Hal].
      intros c u v Hc Hce Hu Hv. simplify_eq. eapply (sw_trans Hsw); [exact Exy|]. by eapply Hmax.
Qed.

(** ** Building and the root *)

Lemma heap_almost l i e : 1 ≤ i → heap_from l (i + 1) e → almost l i i e.
Proof.
  intros Hi Hh. split.
  - intros j Hj Hji. apply Hh. lia.
  - intros c x y H2 H1. exfalso. Z.to_euclidean_division_equations. lia.
Qed.

Lemma buildFrom_ok i l e :
  0 ≤ e < Z.of_nat (length l) → Z.of_nat i ≤ e → heap_from l (Z.of_nat i + 1) e →
  ∃ l', buildFrom cmpFn i l e = Ok l' ∧ within_slots l l' e ∧ heap_from l' 1 e.
Proof.
  revert l. induction i as [|i IH]; intros l He Hi Hh.
  { exists l. split; [done|]. split; [apply within_refl|exact Hh]. }
  cbn [buildFrom].
  destruct (bubbleDown_ok (heapFuel e) l (Z.of_nat (S i)) (Z.of_nat (S i)) e) as (l1 & -> & Hw & Hh1);
    [done|lia|lia|unfold heapFuel; lia|apply heap_almost; [lia|done]|lia|]. cbn [res_bind].
  destruct (IH l1) as (l2 & -> & Hw2 & Hh2); [by rewrite (Permutation_length (ws_perm _ _ _ Hw))|lia|
    by replace (Z.of_nat i + 1) with (Z.of_nat (S i)) by lia|].
  exists l2. split; [done|]. split; [by eapply within_trans|done].
Qed.

Lemma buildHeap_ok l e :
  0 ≤ e < Z.of_nat (length l) → e < 2 ^ 31 →
  ∃ l', buildHeap cmpFn l e = Ok l' ∧ within_slots l l' e ∧ heap_from l' 1 e.
Proof.
  intros He H31. unfold buildHeap, i32. rewrite wrap_s_id by (unfold in_s; lia). apply buildFrom_ok; [done|lia|]. intros j Hj c x y Hc Hce. lia.
Qed.

Lemma ge_refl x : ge_ x x.
Proof. unfold ge_. destruct (cmpFn x x) eqn:E; [|done]. rewrite <- E. by apply (sw_asym Hsw). Qed.

Lemma root_max l e x : 0 ≤ e < Z.of_nat (length l) → heap_from l 1 e → zget l 1 = Some x →
  ∀ j y, 1 ≤ j ≤ e → zget l j = Some y → ge_ x y.
Proof.
  intros He Hh Hx j. induction j as [j IH] using (well_founded_induction (Z.lt_wf 0)). intros y Hj Hy.
  destruct (decide (j = 1)) as [->|Hne]; [simplify_eq; apply ge_refl|].
  assert (1 ≤ j / 2 < j ∧ (j = 2 * (j / 2) ∨ j = 2 * (j / 2) + 1)) as [Hp Hc] by (Z.to_euclidean_division_equations; lia).
  destruct (slot_some l e (j / 2) He ltac:(lia)) as [w Hw]. eapply (sw_trans Hsw); [apply (IH (j / 2)); [lia|lia|exact Hw]|].
  eapply (Hh (j / 2)); eauto; lia.
Qed.

(** A new root: everything else stays in order. *)
Lemma root_almost l e x : heap_from l 1 e → almost (zset l 1 x) 1 1 e.
Proof.
  intros Hh. split.
  - intros j Hj Hj1 c u v Hc Hce Hu Hv. rewrite zget_zset_ne in Hu, Hv by lia. eapply (Hh j); eauto.
  - intros c u v H2. exfalso. Z.to_euclidean_division_equations. lia.
Qed.

Lemma bubble_root l e x :
  1 ≤ e < Z.of_nat (length l) → heap_from l 1 e →
  ∃ l', bubbleDown cmpFn (heapFuel e) (zset l 1 x) 1 e = Ok l' ∧ within_slots (zset l 1 x) l' e ∧ heap_from l' 1 e.
Proof.
  intros He Hh. apply bubbleDown_ok; [rewrite length_zset; lia|lia|lia|unfold heapFuel; lia|by apply root_almost|lia].
Qed.

(** ** Which elements are kept *)

Definition contents (h : Heap A) : list A := slots (hp_data h) (currElements h).

Record top_inv (h : Heap A) (dropped inserted : list A) : Prop := {
  ti_len : Z.of_nat (length (hp_data h)) = maxElements h + 1;
  ti_curr : 0 ≤ currElements h ≤ maxElements h;
  ti_all : contents h ++ dropped ≡ₚ inserted;
  ti_room : currElements h < maxElements h → dropped = [];
  ti_heap : currElements h = maxElements h → heap_from (hp_data h) 1 (currElements h);
  ti_top : ∀ d k, d ∈ dropped → k ∈ contents h → ge_ d k;
  ti_fits : maxElements h < 2 ^ 31;
}.

Lemma newHeap_inv max garbage : 1 ≤ max < 2 ^ 31 → top_inv (newHeap max garbage) [] [].
Proof.
  intros Hm. split; simpl; try done; try lia; [rewrite length_replicate; lia|]. set_solver.
Qed.

Lemma contents_elem h k : k ∈ contents h → ∃ j, 1 ≤ j ≤ currElements h ∧ zget (hp_data h) j = Some k.
Proof.
  unfold contents. intros (i & Hi)%list_elem_of_lookup. pose proof (lookup_lt_Some _ _ _ Hi) as Hl. unfold slots in Hl.
  rewrite length_take in Hl. exists (Z.of_nat i + 1). rewrite <- (zget_slots _ (currElements h)) by lia. split; [lia|done].
Qed.

Lemma length_contents h : Z.of_nat (length (hp_data h)) = maxElements h + 1 → 0 ≤ currElements h ≤ maxElements h →
  Z.of_nat (length (contents h)) = currElements h.
Proof. intros Hl Hc. unfold contents, slots. rewrite length_take, length_drop. lia. Qed.

Lemma slots_snoc (l : list A) n x : 0 ≤ n → n + 1 < Z.of_nat (length l) → slots (zset l (n + 1) x) (n + 1) = slots l n ++ [x].
Proof.
  intros Hn Hl. apply list_eq. intros i. destruct (Nat.lt_trichotomy i (Z.to_nat n)) as [Hi|[->|Hi]].
  - rewrite zget_slots by lia. rewrite lookup_app_l by (unfold slots; rewrite length_take, length_drop; lia).
    rewrite zget_slots by done. by rewrite zget_zset_ne by lia.
  - rewrite zget_slots by lia. rewrite Z2Nat.id, zget_zset_eq by lia.
    rewrite lookup_app_r by (unfold slots; rewrite length_take, length_drop; lia).
    unfold slots. rewrite length_take, length_drop. by replace (_ - _)%nat with 0%nat by lia.
  - rewrite !lookup_ge_None_2; [done|rewrite length_app; simpl|]; unfold slots; rewrite length_take, length_drop, ?length_zset; lia.
Qed.

Lemma slots_root (l : list A) n r : 1 ≤ n → n < Z.of_nat (length l) → zget l 1 = Some r →
  ∃ t, slots l n = r :: t ∧ ∀ x, slots (zset l 1 x) n = x :: t.
Proof.
  intros Hn Hl Hr. destruct l as [|a [|b l]]; [simpl in Hl; lia|simpl in Hl; lia|].
  exists (take (Z.to_nat n - 1) l). unfold slots. destruct (Z.to_nat n) as [|m] eqn:Em; [lia|]. simpl in Hr. injection Hr as ->.
  simpl. rewrite Nat.sub_0_r. split; [done|]. intros x. unfold zset. simpl. rewrite ?drop_0. done.
Qed.

Lemma within_contents l l' n : 0 ≤ n < Z.of_nat (length l) → within_slots l l' n → slots l' n ≡ₚ slots l n.
Proof. intros Hn [Hp Ho]. by apply slots_perm. Qed.

(** Room left: the element is kept. *)
Lemma insert_room h dropped inserted x :
  top_inv h dropped inserted → currElements h < maxElements h →
  ∃ h', heap_insert cmpFn h x = Ok h' ∧ maxElements h' = maxElements h ∧ top_inv h' [] (x :: inserted).
Proof.
  intros [Hlen Hc Hall Hroom Hheap _] Hlt. rewrite (Hroom Hlt), app_nil_r in Hall. unfold heap_insert.
  rewrite (proj2 (Z.ltb_lt _ _) Hlt). unfold store. destruct (proj2 (zget_is_Some (hp_data h) (currElements h + 1)) ltac:(lia)) as [u Hu].
  rewrite Hu. cbn [res_bind]. set (d := zset (hp_data h) (currElements h + 1) x).
  assert (length d = length (hp_data h)) as Hd by apply length_zset.
  assert (slots d (currElements h + 1) ≡ₚ x :: inserted) as Hs.
  { unfold d. rewrite slots_snoc by lia. rewrite <- Hall. by rewrite Permutation_app_comm. }
  destruct (Z.eqb_spec (currElements h + 1) (maxElements h)) as [E|E].
  - destruct (buildHeap_ok d (currElements h + 1) ltac:(lia) ltac:(lia)) as (d' & -> & Hw & Hh). cbn [res_bind].
    eexists. split_and!; [done|done|]. split; simpl; try done; try lia.
    + rewrite (Permutation_length (ws_perm _ _ _ Hw)). lia.
    + rewrite app_nil_r. unfold contents. simpl. rewrite (within_contents d d') by (done || lia). done.
    + intros ?? H. by apply elem_of_nil in H.
  - cbn [res_bind]. eexists. split_and!; [done|done|]. split; simpl; try done; try lia.
    + rewrite app_nil_r. done.
    + intros ?? H. by apply elem_of_nil in H.
Qed.

(** No room: the largest element goes, or the new one does. *)
Lemma insert_full h dropped inserted x :
  top_inv h dropped inserted → 1 ≤ maxElements h → currElements h = maxElements h →
  ∃ h' dropped', heap_insert cmpFn h x = Ok h' ∧ maxElements h' = maxElements h ∧ top_inv h' dropped' (x :: inserted).
Proof.
  intros [Hlen Hc Hall Hroom Hheap Htop] Hm Heq. unfold heap_insert. rewrite (proj2 (Z.ltb_ge _ _)) by lia.
  destruct (proj2 (zget_is_Some (hp_data h) 1) ltac:(lia)) as [r Hr]. rewrite (load_Some _ _ _ Hr). cbn [res_bind].
  specialize (Hheap Heq). destruct (slots_root (hp_data h) (currElements h) r) as (t & Et & Hset); [lia|lia|done|].
  assert (∀ k, k ∈ contents h → ge_ r k) as Hmax.
  { intros k (j & Hj & Hk)%contents_elem. eapply (root_max (hp_data h) (currElements h)); [lia|done|done|exact Hj|done]. }
  destruct (cmpFn x r) eqn:Exr.
  - unfold store. rewrite Hr. cbn [res_bind].
    destruct (bubble_root (hp_data h) (currElements h) x ltac:(lia) Hheap) as (d' & -> & Hw & Hh). cbn [res_bind].
    assert (slots d' (currElements h) ≡ₚ x :: t) as Hs.
    { rewrite (within_contents (zset (hp_data h) 1 x) d' (currElements h)), Hset; [done| |done]. rewrite length_zset. lia. }
    assert (∀ k, k ∈ x :: t → ge_ r k) as Hr'.
    { intros k [->|Hk]%elem_of_cons; [by apply (sw_asym Hsw)|]. apply Hmax. unfold contents. rewrite Et. by right. }
    eexists _, (r :: dropped). split_and!; [done|done|]. split; simpl; try done; try lia.
    + rewrite (Permutation_length (ws_perm _ _ _ Hw)), length_zset. lia.
    + unfold contents. simpl. rewrite Hs. rewrite <- Hall. unfold contents. rewrite Et. simpl. f_equiv. by rewrite Permutation_middle.
    + intros d k Hd Hk. unfold contents in Hk. simpl in Hk. rewrite Hs in Hk. apply elem_of_cons in Hd as [->|Hd]; [by apply Hr'|].
      eapply (sw_trans Hsw); [|by apply Hr']. apply Htop; [done|]. unfold contents. rewrite Et. by left.
  - eexists _, (x :: dropped). split_and!; [done|done|]. split; try done; try lia.
    + rewrite <- Hall. by rewrite Permutation_middle.
    + intros d k Hd Hk. apply elem_of_cons in Hd as [->|Hd]; [|by apply Htop]. eapply (sw_trans Hsw); [exact Exr|by apply Hmax].
Qed.

Lemma insert_ok h dropped inserted x :
  top_inv h dropped inserted → 1 ≤ maxElements h →
  ∃ h' dropped', heap_insert cmpFn h x = Ok h' ∧ maxElements h' = maxElements h ∧ top_inv h' dropped' (x :: inserted).
Proof.
  intros Hi Hm. destruct (decide (currElements h < maxElements h)) as [Hlt|Hge].
  - destruct (insert_room h dropped inserted x Hi Hlt) as (h' & ? & ? & ?). by exists h', [].
  - eapply insert_full; eauto. pose proof (ti_curr _ _ _ Hi). lia.
Qed.

Lemma top_inv_perm h dropped l1 l2 : l1 ≡ₚ l2 → top_inv h dropped l1 → top_inv h dropped l2.
Proof. intros Hp []. split; try done. by rewrite <- Hp. Qed.

Lemma insert_all_ok xs h dropped inserted :
  top_inv h dropped inserted → 1 ≤ maxElements h →
  ∃ h' dropped', insert_all cmpFn h xs = Ok h' ∧ maxElements h' = maxElements h ∧ top_inv h' dropped' (xs ++ inserted).
Proof.
  revert h dropped inserted. induction xs as [|x xs IH]; intros h dropped inserted Hi Hm; [by eauto|].
  cbn [insert_all]. destruct (insert_ok h dropped inserted x Hi Hm) as (h1 & d1 & -> & E & H1). cbn [res_bind].
  destruct (IH h1 d1 _ H1 ltac:(lia)) as (h2 & d2 & -> & E2 & H2). exists h2, d2. split_and!; [done|lia|].
  eapply top_inv_perm; [|exact H2]. simpl. by rewrite Permutation_middle.
Qed.

(** ** Sorting in place *)

(** The first [n] slots are a heap, the others up to [N] are in order and not
    before any slot on their left. *)
Record sort_inv (l : list A) (n N : Z) : Prop := {
  si_n : 0 ≤ n ≤ N;
  si_N : N < Z.of_nat (length l);
  si_heap : heap_from l 1 n;
  si_sorted : ∀ i j x y, 1 ≤ i → i < j → n < j ≤ N → zget l i = Some x → zget l j = Some y → ge_ y x;
}.

Lemma within_slot l l' e i x : 0 ≤ e < Z.of_nat (length l) → within_slots l l' e → 1 ≤ i ≤ e → zget l' i = Some x →
  ∃ i', 1 ≤ i' ≤ e ∧ zget l i' = Some x.
Proof.
  intros He Hw Hi Hx. pose proof (within_contents _ _ _ He Hw) as Hp.
  assert (x ∈ slots l' e) as Hin.
  { apply (list_elem_of_lookup_2 _ (Z.to_nat (i - 1))). rewrite zget_slots by lia. rewrite Z2Nat.id by lia.
    by replace (i - 1 + 1) with i by lia. }
  rewrite Hp in Hin. apply (contents_elem (mkHeap e e l) x Hin).
Qed.

(** The root goes behind the heap and the last slot takes its place. *)
Lemma bubble_swapped l e u : 0 ≤ e < Z.of_nat (length l) → heap_from l 1 (e + 1) → zget l (e + 1) = Some u →
  ∃ r d, zget l 1 = Some r ∧ heap_swap l 1 (e + 1) = Ok d ∧ within_slots l d (e + 1) ∧ zget d (e + 1) = Some r ∧
  ∃ d', bubbleDown cmpFn (heapFuel e) d 1 e = Ok d' ∧ within_slots d d' e ∧ heap_from d' 1 e.
Proof.
  intros He Hh Hu. pose proof (zget_lt _ _ _ Hu) as Hb. destruct (slot_some l (e + 1) 1 ltac:(lia) ltac:(lia)) as [r Hr].
  exists r, (zset (zset l 1 u) (e + 1) r). unfold heap_swap. rewrite (load_Some _ _ _ Hr), (load_Some _ _ _ Hu). cbn [res_bind].
  split_and!; [done|done|apply swap_within; (done || lia)|apply zget_zset_eq; rewrite length_zset; lia|].
  destruct (decide (e = 0)) as [->|Hne].
  - exists (zset (zset l 1 u) (0 + 1) r). split_and!; [done|apply within_refl|]. intros j Hj c x y Hc Hce. lia.
  - apply bubbleDown_ok; [rewrite !length_zset; lia|lia|lia|unfold heapFuel; lia| |lia]. split.
    + intros j Hj Hj1 c x y Hc Hce Hx Hy. rewrite !zget_zset_ne in Hx by lia. rewrite !zget_zset_ne in Hy by lia.
      eapply (Hh j); eauto; lia.
    + intros c x y H2. exfalso. Z.to_euclidean_division_equations. lia.
Qed.

Lemma sort_step l n N : sort_inv l (n + 1) N → 0 ≤ n →
  ∃ d d', heap_swap l 1 (n + 1) = Ok d ∧ bubbleDown cmpFn (heapFuel n) d 1 n = Ok d' ∧ within_slots l d' N ∧ sort_inv d' n N.
Proof.
  intros [Hn HN Hh Hs] H0. destruct (slot_some l N (n + 1) ltac:(lia) ltac:(lia)) as [u Hu].
  destruct (bubble_swapped l n u ltac:(lia) Hh Hu) as (r & d & Hr & E1 & Hw1 & Hd & d' & E2 & Hw2 & Hh').
  pose proof (Permutation_length (ws_perm _ _ _ Hw1)) as L1. pose proof (Permutation_length (ws_perm _ _ _ Hw2)) as L2.
  exists d, d'. split_and!; [done|done| |].
  - destruct Hw1 as [P1 O1], Hw2 as [P2 O2]. split; [by etrans|]. intros i Hi. rewrite O2 by lia. apply O1. lia.
  - split; [lia|lia|done|]. intros i j x y Hi Hij Hj Hx Hy. rewrite (ws_out _ _ _ Hw2) in Hy by lia.
    (* the element at [i] was at some slot left of [j] *)
    assert (∃ i', 1 ≤ i' < j ∧ zget d i' = Some x) as (i' & Hi' & Hx').
    { destruct (decide (i ≤ n)) as [Hin|]; [|exists i; split; [lia|]; by rewrite <- (ws_out _ _ _ Hw2) by lia].
      destruct (within_slot d d' n i x ltac:(lia) Hw2 ltac:(lia) Hx) as (i' & ? & ?). exists i'. split; [lia|done]. }
    assert (∃ k, 1 ≤ k ∧ (k ≤ n + 1 ∨ k < j) ∧ zget l k = Some x) as (k & Hk1 & Hk2 & Hk).
    { destruct (decide (i' ≤ n + 1)) as [Hin|]; [|exists i'; split_and!; [lia|lia|]; by rewrite <- (ws_out _ _ _ Hw1) by lia].
      destruct (within_slot l d (n + 1) i' x ltac:(lia) Hw1 ltac:(lia) Hx') as (k & ? & ?). exists k. split_and!; [lia|lia|done]. }
    destruct (decide (j = n + 1)) as [->|Hne].
    + rewrite Hd in Hy. injection Hy as <-. eapply (root_max l (n + 1)); [lia|done|done| |exact Hk]. lia.
    + rewrite (ws_out _ _ _ Hw1) in Hy by lia. eapply (Hs k j); [lia| |lia|done|done]. lia.
Qed.

Lemma sortFrom_ok n l N : sort_inv l (Z.of_nat n) N →
  ∃ l', sortFrom cmpFn n l = Ok l' ∧ within_slots l l' N ∧ sort_inv l' 0 N.
Proof.
  revert l. induction n as [|n IH]; intros l Hi.
  { exists l. split_and!; [done|apply within_refl|done]. }
  cbn [sortFrom]. destruct (sort_step l (Z.of_nat n) N) as (d & d' & E1 & E2 & Hw & Hi'); [|lia|].
  { by replace (Z.of_nat n + 1) with (Z.of_nat (S n)) by lia. }
  replace (Z.of_nat (S n)) with (Z.of_nat n + 1) by lia. rewrite E1. cbn [res_bind]. rewrite E2. cbn [res_bind].
  destruct (IH d' Hi') as (l' & -> & Hw' & Hi''). exists l'. split_and!; [done|by eapply within_trans|done].
Qed.

(** No element is before one on its left. *)
Definition in_order (out : list A) : Prop := ∀ (i j : nat) x y, (i < j)%nat → out !! i = Some x → out !! j = Some y → ge_ y x.

Lemma getBuffer_ok h dropped inserted :
  top_inv h dropped inserted → ∃ out, getBuffer cmpFn h = Ok out ∧ in_order out ∧ out ≡ₚ contents h.
Proof.
  intros [Hlen Hc _ _ Hheap _]. unfold getBuffer. set (n := currElements h) in *.
  assert (∃ d, (if n <? maxElements h then buildHeap cmpFn (hp_data h) n else Ok (hp_data h)) = Ok d ∧
    within_slots (hp_data h) d n ∧ heap_from d 1 n) as (d & -> & Hw & Hh).
  { destruct (Z.ltb_spec n (maxElements h)); [apply buildHeap_ok; lia|]. exists (hp_data h).
    split_and!; [done|apply within_refl|apply Hheap; lia]. }
  cbn [res_bind]. pose proof (Permutation_length (ws_perm _ _ _ Hw)) as L1.
  destruct (sortFrom_ok (Z.to_nat n) d n) as (d' & -> & Hw' & Hs).
  { rewrite Z2Nat.id by lia. split; [lia|lia|done|lia]. }
  cbn [res_bind]. pose proof (Permutation_length (ws_perm _ _ _ Hw')) as L2. eexists. split; [done|]. fold (slots d' n). split.
  - intros i j x y Hij Hx Hy. pose proof (lookup_lt_Some _ _ _ Hy) as Hl. unfold slots in Hl. rewrite length_take in Hl.
    rewrite zget_slots in Hx, Hy by lia. eapply (si_sorted _ _ _ Hs); [| | |exact Hx|exact Hy]; lia.
  - unfold contents. fold n. rewrite (within_contents d d') by (done || lia). by apply within_contents; [lia|].
Qed.

(** ** Merging the heaps of the workers *)

Lemma full_or_nothing_dropped h dropped inserted : top_inv h dropped inserted → dropped ≠ [] → currElements h = maxElements h.
Proof. intros [? Hc ? Hroom ? ?] Hd. destruct (decide (currElements h < maxElements h)) as [Hlt|]; [by destruct Hd; apply Hroom|lia]. Qed.

(** What one heap dropped is not before what is kept after its elements went
    into the other: as many elements as fit are before it. *)
Lemma dropped_elsewhere h other dropped d' d2 xs1 xs2 d m :
  maxElements other = maxElements h → top_inv other d2 xs2 → top_inv h d' (contents other ++ xs1) →
  dropped = d2 → d ∈ dropped → m ∈ contents h → ge_ d m.
Proof.
  intros Emax Ho Hh -> Hd Hm. unfold ge_. destruct (cmpFn d m) eqn:Edm; [exfalso|done].
  assert (currElements other = maxElements other) as Hfull.
  { eapply full_or_nothing_dropped; [done|]. by intros ->; apply elem_of_nil in Hd. }
  set (P := λ x, cmpFn d x = false).
  assert (filter P d' = []) as Hnone.
  { apply filter_none. intros e HPe He. pose proof (ti_top _ _ _ Hh e m He Hm) as Hem. unfold ge_ in Hem.
    assert (cmpFn d m = false) as E by (by eapply (sw_trans Hsw)). congruence. }
  assert (filter P (contents other) = contents other) as Hall.
  { apply filter_all. apply Forall_forall. intros k Hk. by apply (ti_top _ _ _ Ho). }
  assert (length (filter P (contents h)) < length (contents h))%nat as Hless.
  { apply (length_filter_lt P _ m Hm). unfold P. by rewrite Edm. }
  pose proof (ti_all _ _ _ Hh) as Hp. apply (filter_Permutation P) in Hp. apply Permutation_length in Hp.
  rewrite !filter_app, Hnone, Hall, !length_app in Hp. simpl in Hp.
  pose proof (length_contents h (ti_len _ _ _ Hh) (ti_curr _ _ _ Hh)).
  pose proof (length_contents other (ti_len _ _ _ Ho) (ti_curr _ _ _ Ho)). pose proof (ti_curr _ _ _ Hh). lia.
Qed.

Lemma mergeWithOther_ok h other d1 d2 xs1 xs2 :
  1 ≤ maxElements h → maxElements other = maxElements h → top_inv h d1 xs1 → top_inv other d2 xs2 →
  ∃ h' d', mergeWithOther cmpFn h other = Ok h' ∧ maxElements h' = maxElements h ∧ top_inv h' d' (xs2 ++ xs1).
Proof.
  intros Hm Emax H1 H2. unfold mergeWithOther. fold (slots (hp_data other) (currElements other)). fold (contents other).
  destruct (insert_all_ok (contents other) h d1 xs1 H1 Hm) as (h' & d' & E & Em & Hi). exists h', (d' ++ d2).
  split_and!; [done|done|]. split; try apply Hi.
  - rewrite <- (ti_all _ _ _ H2), app_assoc, (ti_all _ _ _ Hi). rewrite <- !app_assoc. f_equiv. apply Permutation_app_comm.
  - intros Hlt. rewrite (ti_room _ _ _ Hi Hlt). destruct d2 as [|d d2]; [done|exfalso].
    pose proof (full_or_nothing_dropped _ _ _ H2 ltac:(done)). pose proof (ti_all _ _ _ Hi) as Hp.
    rewrite (ti_room _ _ _ Hi Hlt) in Hp. apply Permutation_length in Hp. rewrite !length_app in Hp. simpl in Hp.
    pose proof (length_contents h' (ti_len _ _ _ Hi) (ti_curr _ _ _ Hi)).
    pose proof (length_contents other (ti_len _ _ _ H2) (ti_curr _ _ _ H2)). lia.
  - intros d k [Hd|Hd]%elem_of_app Hk; [by apply (ti_top _ _ _ Hi)|]. eapply (dropped_elsewhere h' other d2); eauto. lia.
Qed.

(** [out] is the sorted prefix of length [max] of [xs]. *)
Record top_of (max : Z) (xs out : list A) : Prop := {
  to_order : in_order out;
  to_length : length out = Nat.min (Z.to_nat max) (length xs);
  to_rest : ∃ rest, out ++ rest ≡ₚ xs ∧ ∀ r o, r ∈ rest → o ∈ out → ge_ r o;
}.

Lemma top_inv_top_of h dropped xs : top_inv h dropped xs →
  ∃ out, getBuffer cmpFn h = Ok out ∧ top_of (maxElements h) xs out.
Proof.
  intros Hi. destruct (getBuffer_ok h dropped xs Hi) as (out & E & Ho & Hp). exists out. split; [done|].
  pose proof (ti_all _ _ _ Hi) as Hall. split; [done| |].
  - pose proof (Permutation_length Hall) as Hl. rewrite length_app in Hl. rewrite (Permutation_length Hp).
    pose proof (length_contents h (ti_len _ _ _ Hi) (ti_curr _ _ _ Hi)). pose proof (ti_curr _ _ _ Hi).
    destruct (decide (currElements h < maxElements h)) as [Hlt|]; [|lia]. rewrite (ti_room _ _ _ Hi Hlt) in Hl. simpl in Hl. lia.
  - exists dropped. rewrite Hp. split; [done|]. intros r o Hr Hin. rewrite Hp in Hin. by apply (ti_top _ _ _ Hi).
Qed.

(** The heap of a worker that saw [xs], if it has one. *)
Definition worker (max : Z) (garbage : A) (v : option (Heap A)) (xs : list A) : Prop :=
  match v with
  | None => xs = []
  | Some h => insert_all cmpFn (newHeap max garbage) xs = Ok h
  end.

Lemma worker_inv max garbage h xs : 1 ≤ max < 2 ^ 31 → worker max garbage (Some h) xs →
  maxElements h = max ∧ ∃ d, top_inv h d xs.
Proof.
  intros Hm E. destruct (insert_all_ok xs (newHeap max garbage) [] []) as (h' & d & E' & Em & Hi); [by apply newHeap_inv|simpl; lia|].
  rewrite app_nil_r in Hi. simpl in E. rewrite E in E'. injection E' as <-. eauto.
Qed.

Lemma merge_into_ok max garbage values inputs : 1 ≤ max < 2 ^ 31 → Forall2 (worker max garbage) values inputs →
  ∀ first d xs, maxElements first = max → top_inv first d xs →
  ∃ h d', merge_into cmpFn first values = Ok h ∧ maxElements h = max ∧ top_inv h d' (xs ++ mjoin inputs).
Proof.
  intros Hm HF. induction HF as [|v ys values inputs Hv HF IH]; intros first d xs Em Hi.
  { simpl. rewrite app_nil_r. eauto. }
  destruct v as [h|]; [|simpl in Hv; subst ys; simpl; by eapply IH]. cbn [merge_into].
  destruct (worker_inv _ _ _ _ Hm Hv) as (Eh & dh & Hh).
  destruct (mergeWithOther_ok first h d dh xs ys) as (first' & d' & -> & Em' & Hi'); [lia|lia|done|done|]. cbn [res_bind].
  destruct (IH first' d' _ ltac:(lia) Hi') as (h2 & d2 & E2 & Em2 & Hi2). exists h2, d2. split_and!; [done|done|].
  eapply top_inv_perm; [|exact Hi2]. simpl. rewrite (app_assoc xs). f_equiv. apply Permutation_app_comm.
Qed.

Lemma heap_merge_ok max garbage values inputs : 1 ≤ max < 2 ^ 31 → Forall2 (worker max garbage) values inputs →
  (heap_merge cmpFn values = Ok None ∧ mjoin inputs = []) ∨
  ∃ h d, heap_merge cmpFn values = Ok (Some h) ∧ maxElements h = max ∧ top_inv h d (mjoin inputs).
Proof.
  intros Hm HF. induction HF as [|v ys values inputs Hv HF IH]; [by left|].
  destruct v as [h|]; [|simpl in Hv; subst ys; exact IH]. right. destruct (worker_inv _ _ _ _ Hm Hv) as (Eh & dh & Hh).
  destruct (merge_into_ok max garbage values inputs Hm HF h dh ys Eh Hh) as (h' & d' & E & Em & Hi). exists h', d'.
  cbn [heap_merge]. rewrite E. done.
Qed.
End props.

(** ** Claims *)

(** C25. A heap for [max] elements, at least one and fewer than 2^31, that is
    given the elements [xs] one after the other returns, in order, the [max]
    smallest of them (all of them when they are fewer): nothing is lost, and no
    element left out is before one that is returned.  No access leaves the
    array, and the [int] that counts the loop of [buildHeap] does not wrap. *)
Theorem heap_top_k {A} (cmpFn : A → A → bool) (max : Z) (garbage : A) (xs : list A) :
  strict_weak cmpFn → 1 ≤ max < 2 ^ 31 →
  ∃ h out, insert_all cmpFn (newHeap max garbage) xs = Ok h ∧ getBuffer cmpFn h = Ok out ∧ top_of cmpFn max xs out.
Proof.
  intros Hsw Hm. destruct (insert_all_ok cmpFn Hsw xs (newHeap max garbage) [] []) as (h & d & E & Em & Hi);
    [by apply newHeap_inv|simpl; lia|]. rewrite app_nil_r in Hi.
  destruct (top_inv_top_of cmpFn Hsw h d xs Hi) as (out & Eo & Ht). rewrite Em in Ht. by exists h, out.
Qed.

(** The heaps the workers filled are merged into one that returns the [max]
    smallest of all the elements the workers saw; there is none exactly when
    no worker made one. *)
Theorem heap_merge_top_k {A} (cmpFn : A → A → bool) (max : Z) (garbage : A) values inputs :
  strict_weak cmpFn → 1 ≤ max < 2 ^ 31 → Forall2 (worker cmpFn max garbage) values inputs →
  ∃ r, heap_merge cmpFn values = Ok r ∧
    match r with
    | None => mjoin inputs = []
    | Some h => ∃ out, getBuffer cmpFn h = Ok out ∧ top_of cmpFn max (mjoin inputs) out
    end.
Proof.
  intros Hsw Hm HF. destruct (heap_merge_ok cmpFn Hsw max garbage values inputs Hm HF) as [[E Hn]|(h & d & E & Em & Hi)].
  - by exists None.
  - exists (Some h). split; [done|]. destruct (top_inv_top_of cmpFn Hsw h d _ Hi) as (out & Eo & Ht).
    rewrite Em in Ht. by exists out.
Qed.

(** A heap for no element (a LIMIT of 0) has one slot; the first insertion
    compares with the slot behind it, outside the allocation. *)
Theorem heap_limit_zero {A} (cmpFn : A → A → bool) (garbage x : A) :
  heap_insert cmpFn (newHeap 0 garbage) x = Fault BadAccess.
Proof. reflexivity. Qed.

(** With 2^31 elements that [int] is negative, and nothing is put in order. *)
Theorem heap_not_built_from_2_31 {A} (cmpFn : A → A → bool) (d : list A) : buildHeap cmpFn d (2 ^ 31) = Ok d.
Proof. reflexivity. Qed.

Lemma ltb_strict_weak : strict_weak Z.ltb.
Proof. split; intros *; rewrite ?Z.ltb_lt, ?Z.ltb_ge; lia. Qed.

Lemma heap_top_k_witness : ∃ h out, insert_all Z.ltb (newHeap 3 0) [5; 1; 4; 1; 9; 2] = Ok h ∧ getBuffer Z.ltb h = Ok out ∧
  top_of Z.ltb 3 [5; 1; 4; 1; 9; 2] out.
Proof. apply heap_top_k; [apply ltb_strict_weak|lia]. Defined.

Lemma heap_merge_top_k_witness :
  let h1 := mkHeap 2 2 [0; 4; 3] in
  let h2 := mkHeap 2 1 [0; 1; 0] in
  ∃ r, heap_merge Z.ltb [None; Some h1; Some h2] = Ok r ∧
    match r with
    | None => mjoin [[]; [5; 3; 4]; [1]] = []
    | Some h => ∃ out, getBuffer Z.ltb h = Ok out ∧ top_of Z.ltb 2 (mjoin [[]; [5; 3; 4]; [1]]) out
    end.
Proof.
  intros h1 h2. apply (heap_merge_top_k Z.ltb 2 0); [apply ltb_strict_weak|lia|].
  repeat apply Forall2_cons_2; try apply Forall2_nil_2; reflexivity.
Defined.
