(* ===== verification/BufferTask.v ===== *)
(** * Parallel iteration over buffers

    Model of [FlexibleBufferIteratorTask] (src/runtime/Buffer.cpp), which splits
    a list of buffers into units that the scheduler's workers run together and
    lets idle workers steal units.

    A worker calls [allocateWork] and, when it returns true, [performWork],
    until [allocateWork] returns false.  The state of a worker is its program
    counter and its reservation; [step w s] is the next access of worker [w] to
    shared memory, [None] when it waits for a mutex or has finished.  Any
    sequence of such steps is an execution: a critical section that touches
    only what its mutex protects is one step, the section of [fetchAndNextOwn]
    that also touches [startIndex] is up to three.  [ran] records the units the
    callback was called with.  Unit ids are unbounded here; the code returns
    them as [int], which matters from 2^31 units (2^45 rows) of one buffer on. *)

From S2P Require Import Prelude.
#[local] Open Scope Z_scope.

Definition splitSize : Z := 20000.

(** ** FlexibleBufferIteratorTask *)

Inductive pc :=
  | Idle                (* about to load [workExhausted] *)
  | OwnStart            (* about to enter [fetchAndNextOwn] *)
  | OwnFetch            (* inside, mutex held: no unit left in the own buffer *)
  | OwnFill (idx : nat) (* inside, mutex held: got buffer [idx] *)
  | OwnDone             (* [fetchAndNextOwn] returned -1 *)
  | StealTake (v : nat) (* [v], robbed last time, has more work *)
  | Probe (i : nat)     (* the loop over the other workers *)
  | Take (i : nat)      (* the worker [i] places further has more work *)
  | Perform             (* [allocateWork] returned true *)
  | Finished.           (* [allocateWork] returned false *)

#[global] Instance pc_eq_dec : EqDecision pc.
Proof. solve_decision. Defined.

(** [FlexibleBufferWorkerResvState]; [make_unique] zeroes the members without
    an initializer, [SIZE_MAX] in [stealWorkerId] is [None]. *)
Record Resv := mkResv {
  w_pc : pc;
  bufferId : nat;
  resvCursor : Z;
  resvId : Z;
  unitAmount : Z;
  stealWorkerId : option nat;
}.
Definition newResv : Resv := mkResv Idle 0 0 0 0 None.

Record St := mkSt { startIndex : nat; workExhausted : bool; resvs : list Resv; ran : list (nat * Z) }.
Definition initSt (numWorkers : nat) : St := mkSt 0 false (replicate numWorkers newResv) [].

Definition goto (p : pc) (r : Resv) : Resv := mkResv p (bufferId r) (resvCursor r) (resvId r) (unitAmount r) (stealWorkerId r).
Definition set_steal (v : option nat) (r : Resv) : Resv := mkResv (w_pc r) (bufferId r) (resvCursor r) (resvId r) (unitAmount r) v.
Definition set_resvId (u : Z) (r : Resv) : Resv := mkResv (w_pc r) (bufferId r) (resvCursor r) u (unitAmount r) (stealWorkerId r).
Definition bump (r : Resv) : Resv := mkResv (w_pc r) (bufferId r) (resvCursor r + 1) (resvId r) (unitAmount r) (stealWorkerId r).

(** The mutex is held across steps exactly inside [fetchAndNextOwn]. *)
Definition locked (r : Resv) : bool :=
  match w_pc r with OwnFetch | OwnFill _ => true | _ => false end.

Definition hasMoreWork (r : Resv) : bool := resvCursor r <? unitAmount r.

(** [-1] is [None]. *)
Definition fetchAndNext (r : Resv) : Resv * option Z :=
  (bump r, if unitAmount r <=? resvCursor r then None else Some (resvCursor r)).

Definition unitsOf (numElements : Z) : Z := (numElements + splitSize - 1) / splitSize.

Section flexible.
(** The numbers of elements of the buffers. *)
Context (buffers : list Z).

Definition upd (s : St) (w : nat) (r : Resv) : St := mkSt (startIndex s) (workExhausted s) (<[w := r]> (resvs s)) (ran s).
Definition upd2 (s : St) (v : nat) (o : Resv) (w : nat) (r : Resv) : St :=
  mkSt (startIndex s) (workExhausted s) (<[w := r]> (<[v := o]> (resvs s))) (ran s).

(** [fetchAndNextOwn], in steps. *)
Definition ownStart (s : St) (w : nat) (me : Resv) : St :=
  let cur := resvCursor me in
  let me := bump me in
  if cur <? unitAmount me then upd s w (goto Perform (set_resvId cur me)) else upd s w (goto OwnFetch me).
Definition ownFetch (s : St) (w : nat) (me : Resv) : St :=
  let localStartIndex := startIndex s in
  let s := mkSt (S localStartIndex) (workExhausted s) (resvs s) (ran s) in
  if bool_decide (localStartIndex < length buffers)%nat then upd s w (goto (OwnFill localStartIndex) me)
  else upd s w (goto OwnDone me).
Definition ownFill (s : St) (w : nat) (me : Resv) (idx : nat) : option St :=
  numElements ← buffers !! idx;
  Some (upd s w (mkResv Perform idx 1 0 (unitsOf numElements) (stealWorkerId me))).

(** The unit goes to [w], or [w] goes on with the loop. *)
Definition steal (s : St) (w : nat) (me : Resv) (v : nat) (other : Resv) (got lost : Resv → Resv) : St :=
  let '(other, id) := fetchAndNext other in
  match id with
  | Some u => upd2 s v other w (goto Perform (set_resvId u (got me)))
  | None => upd2 s v other w (lost me)
  end.

Definition victim (s : St) (w i : nat) : nat := (w + i) mod length (resvs s).

(** [unitRun]: the callback is called with the unit's elements. *)
Definition performWork (s : St) (w : nat) (me : Resv) : option St :=
  bid ← match stealWorkerId me with
        | Some v => bufferId <$> resvs s !! v
        | None => Some (bufferId me)
        end;
  Some (mkSt (startIndex s) (workExhausted s) (<[w := goto Idle me]> (resvs s)) (ran s ++ [(bid, resvId me)])).

Definition step (w : nat) (s : St) : option St :=
  me ← resvs s !! w;
  match w_pc me with
  | Idle => Some (upd s w (goto (if workExhausted s then Finished else OwnStart) me))
  | OwnStart => Some (ownStart s w me)
  | OwnFetch => Some (ownFetch s w me)
  | OwnFill idx => ownFill s w me idx
  | OwnDone =>
      match stealWorkerId me with
      | None => Some (upd s w (goto (Probe 1) me))
      | Some v =>
          other ← resvs s !! v;
          if locked other then None
          else if hasMoreWork other then Some (upd s w (goto (StealTake v) me))
          else Some (upd s w (goto (Probe 1) (set_steal None me)))
      end
  | StealTake v =>
      other ← resvs s !! v;
      if locked other then None else Some (steal s w me v other id (λ r, goto (Probe 1) (set_steal None r)))
  | Probe i =>
      if bool_decide (i < length (resvs s))%nat then
        let v := victim s w i in
        other ← resvs s !! v;
        if locked other then None
        else Some (upd s w (goto (if hasMoreWork other then Take i else Probe (S i)) me))
      else Some (mkSt (startIndex s) true (<[w := goto Finished me]> (resvs s)) (ran s))
  | Take i =>
      let v := victim s w i in
      other ← resvs s !! v;
      if locked other then None else Some (steal s w me v other (set_steal (Some v)) (goto (Probe (S i))))
  | Perform => performWork s w me
  | Finished => None
  end.

(** An execution: any worker that can go on does. *)
Inductive steps : nat → St → St → Prop :=
  | steps_refl s : steps 0 s s
  | steps_next k s1 s2 s3 w : steps k s1 s2 → step w s2 = Some s3 → steps (S k) s1 s3.

(** Runs the workers in the order of a schedule, skipping those that wait. *)
Fixpoint run_schedule (ws : list nat) (s : St) : St :=
  match ws with
  | [] => s
  | w :: ws => run_schedule ws (default s (step w s))
  end.

(** An empty buffer is one empty unit. *)
Definition units (b : nat) : Z := match buffers !! b with Some n => Z.max 1 (unitsOf n) | None => 0 end.
Definition all_units : list (nat * Z) := b ← seq 0 (length buffers); (λ u, (b, u)) <$> seqZ 0 (units b).

(** The elements of a unit: [begin] and [len] of [unitRun]. *)
Definition unitRange (numElements u : Z) : Z * Z :=
  let begin := splitSize * u in (begin, Z.min (begin + splitSize) numElements - begin).
End flexible.

Example two_workers : 
  ran (run_schedule [45000; 10] (concat (replicate 60 [0; 1]%nat)) (initSt 2)) = [(0%nat, 0); (1%nat, 0); (0%nat, 1); (0%nat, 2)].
Proof. vm_compute. reflexivity. Qed.
