(* ===== verification/BufferTaskProps.v ===== *)
(** * Every unit runs exactly once

    Theorems about BufferTask.v, for every number of workers, every list of
    buffers and every interleaving. *)

From S2P Require Import Prelude BufferTask.
#[local] Open Scope Z_scope.

Section flexible.
Context (buffers : list Z).
#[local] Abbreviation n := (length buffers).
#[local] Abbreviation units := (units buffers).
#[local] Abbreviation step := (step buffers).

(** ** What a state says about a unit *)

(** Still to be taken from the reservation of [v]. *)
Definition live (s : St) (v b : nat) (u : Z) : Prop :=
  ∃ r, resvs s !! v = Some r ∧ bufferId r = b ∧ resvCursor r ≤ u < unitAmount r.
(** [v] is about to take over buffer [b]. *)
Definition filling (s : St) (v b : nat) : Prop := ∃ r, resvs s !! v = Some r ∧ w_pc r = OwnFill b.
(** [v] is about to call the callback with the unit. *)
Definition pend (l : list Resv) (r : Resv) : option (nat * Z) :=
  match w_pc r with
  | Perform =>
      bid ← match stealWorkerId r with Some v => bufferId <$> l !! v | None => Some (bufferId r) end;
      Some (bid, resvId r)
  | _ => None
  end.
Definition pends (s : St) (v : nat) (x : nat * Z) : Prop := ∃ r, resvs s !! v = Some r ∧ pend (resvs s) r = Some x.

Definition valid (x : nat * Z) : Prop := (x.1 < n)%nat ∧ 0 ≤ x.2 < units x.1.

Record core (s : St) : Prop := {
  c_nodup : NoDup (ran s);
  c_new : ∀ v x, pends s v x → x ∉ ran s;
  c_once : ∀ v v' x, pends s v x → pends s v' x → v = v';
  c_all : ∀ x, (x ∈ ran s ∨ ∃ v, pends s v x) ↔
    valid x ∧ (x.1 < startIndex s)%nat ∧ (∀ v, ¬ live s v x.1 x.2) ∧ (∀ v, ¬ filling s v x.1);
  c_live : ∀ v b u, live s v b u → valid (b, u) ∧ (b < startIndex s)%nat ∧
    (∀ v', live s v' b u → v' = v) ∧ (∀ v', ¬ filling s v' b);
  c_fill : ∀ v b, filling s v b → (b < n)%nat ∧ (b < startIndex s)%nat ∧ (∀ v', filling s v' b → v' = v);
}.

(** The effects a step can have on a unit. *)
Lemma core_quiet s s' :
  (∀ v b u, live s' v b u ↔ live s v b u) → (∀ v b, filling s' v b ↔ filling s v b) → (∀ v x, pends s' v x ↔ pends s v x) →
  startIndex s' = startIndex s → ran s' = ran s → core s → core s'.
Proof.
  intros Hl Hf Hp Es Er [? ? ? Ha ? ?]. split; rewrite ?Er, ?Es; try done.
  - setoid_rewrite Hp. done.
  - setoid_rewrite Hp. done.
  - setoid_rewrite Hp. setoid_rewrite Hl. setoid_rewrite Hf. done.
  - setoid_rewrite Hl. setoid_rewrite Hf. done.
  - setoid_rewrite Hf. done.
Qed.

Lemma core_take s s' v0 w b u :
  live s v0 b u → (∀ v b' u', live s' v b' u' ↔ live s v b' u' ∧ (b', u') ≠ (b, u)) →
  (∀ v b, filling s' v b ↔ filling s v b) → (∀ v x, pends s' v x ↔ (v ≠ w ∧ pends s v x) ∨ (v = w ∧ x = (b, u))) → (∀ x, ¬ pends s w x) →
  startIndex s' = startIndex s → ran s' = ran s → core s → core s'.
Proof.
  intros Hlv Hl Hf Hp Hw Es Er [Hnd Hnew Honce Hall Hlive Hfill].
  destruct (Hlive _ _ _ Hlv) as (Hval & Hst & Huniq & Hnf).
  assert (¬ ((b, u) ∈ ran s ∨ ∃ v, pends s v (b, u))) as Hfresh.
  { rewrite Hall. intros (_ & _ & H & _). by apply (H v0). }
  split; rewrite ?Er, ?Es; [done| | | | |].
  - intros v x [[? ?]|[-> ->]]%Hp; [by eapply Hnew|]. naive_solver.
  - intros v v' x [[? ?]|[-> ->]]%Hp [[? ?]|[-> ?]]%Hp; subst; try done; [by eapply Honce| |]; exfalso; naive_solver.
  - intros x. setoid_rewrite Hp. setoid_rewrite Hf. destruct (decide (x = (b, u))) as [->|Hne].
    + split; [intros _|naive_solver]. split_and!; try done. setoid_rewrite Hl. naive_solver.
    + assert ((x ∈ ran s ∨ ∃ v, (v ≠ w ∧ pends s v x) ∨ v = w ∧ x = (b, u)) ↔ (x ∈ ran s ∨ ∃ v, pends s v x)) as ->.
      { split; [naive_solver|]. intros [?|[v Hv]]; [by left|]. right. exists v. left. split; [|done]. intros ->. by eapply Hw. }
      rewrite Hall. setoid_rewrite Hl. destruct x as [b' u']. naive_solver.
  - intros v b' u' [Hlv' Hne]%Hl. destruct (Hlive _ _ _ Hlv') as (? & ? & Hu & ?). split_and!; [done|done| |].
    + intros v' [? _]%Hl. by apply Hu.
    + by setoid_rewrite Hf.
  - setoid_rewrite Hf. done.
Qed.

Lemma core_fetch s s' w :
  (∀ v b u, live s' v b u ↔ live s v b u) → (∀ v x, pends s' v x ↔ pends s v x) →
  (∀ v b, filling s' v b ↔ filling s v b ∨ (v = w ∧ b = startIndex s ∧ (b < n)%nat)) →
  startIndex s' = S (startIndex s) → ran s' = ran s → core s → core s'.
Proof.
  intros Hl Hp Hf Es Er [Hnd Hnew Honce Hall Hlive Hfill].
  split; rewrite ?Er, ?Es; try setoid_rewrite Hp; [done|done|done| | |].
  - intros x. rewrite Hall. setoid_rewrite Hl. setoid_rewrite Hf. split.
    + intros (? & ? & ? & Hnf). split_and!; [done|lia|done|]. intros v [?|(? & ? & ?)]; [naive_solver|lia].
    + intros (Hv & Hlt & ? & Hnf). assert (x.1 ≠ startIndex s).
      { intros E. destruct Hv as [? _]. eapply (Hnf w). right. done. }
      split_and!; [done|lia|done|]. intros v ?. eapply Hnf. by left.
  - intros v b u Hlv%Hl. destruct (Hlive _ _ _ Hlv) as (? & ? & ? & ?). split_and!; [done|lia|setoid_rewrite Hl; done|].
    intros v' [?|(? & ? & ?)]%Hf; [naive_solver|lia].
  - intros v b [Hfl|(-> & -> & ?)]%Hf.
    + destruct (Hfill _ _ Hfl) as (? & ? & ?). split_and!; [done|lia|]. intros v' [?|(? & ? & ?)]%Hf; [naive_solver|lia].
    + split_and!; [done|lia|]. intros v' [Hfl|(? & ? & ?)]%Hf; [|done]. destruct (Hfill _ _ Hfl) as (? & ? & ?). lia.
Qed.

Lemma core_fill s s' w b :
  filling s w b → (∀ x, ¬ pends s w x) → (∀ b' u', ¬ live s w b' u') →
  (∀ v b', filling s' v b' ↔ filling s v b' ∧ v ≠ w) →
  (∀ v b' u', live s' v b' u' ↔ live s v b' u' ∨ (v = w ∧ b' = b ∧ 1 ≤ u' < units b)) →
  (∀ v x, pends s' v x ↔ pends s v x ∨ (v = w ∧ x = (b, 0))) → 1 ≤ units b →
  startIndex s' = startIndex s → ran s' = ran s → core s → core s'.
Proof.
  intros Hfw Hpw Hlw Hf Hl Hp Hun Es Er [Hnd Hnew Honce Hall Hlive Hfill].
  destruct (Hfill _ _ Hfw) as (Hbn & Hbs & Huf).
  assert (∀ u, ¬ ((b, u) ∈ ran s ∨ ∃ v, pends s v (b, u))) as Hfresh.
  { intros u. rewrite Hall. intros (_ & _ & _ & H). by apply (H w). }
  assert (∀ v u, ¬ live s v b u) as Hnl.
  { intros v u Hlv. destruct (Hlive _ _ _ Hlv) as (_ & _ & _ & H). by apply (H w). }
  split; rewrite ?Er, ?Es; [done| | | | |].
  - intros v x [?|[-> ->]]%Hp; [by eapply Hnew|]. intros ?. apply (Hfresh 0). by left.
  - intros v v' x [H1|[-> ->]]%Hp [H2|[-> E]]%Hp; [by eapply Honce| | |done]; exfalso; [subst x|]; apply (Hfresh 0); right; eauto.
  - intros [b' u']. setoid_rewrite Hp. setoid_rewrite Hl. setoid_rewrite Hf. simpl. destruct (decide (b' = b)) as [->|Hne].
    + split.
      * intros [?|(v & [?|[-> E]])]; [exfalso; apply (Hfresh u'); by left|exfalso; apply (Hfresh u'); right; by exists v|].
        injection E as ->. split_and!; [split; simpl; [done|lia]|done|intros v [?|?]; [by eapply Hnl|lia]|].
        intros v [? Hv]. apply Hv. by apply Huf.
      * intros ([_ Hu] & _ & Hn & _). simpl in Hu. right. exists w. right. split; [done|]. f_equal.
        destruct (decide (1 ≤ u')); [exfalso; apply (Hn w); right; split_and!; (done || lia)|lia].
    + assert (((b', u') ∈ ran s ∨ ∃ v, pends s v (b', u') ∨ v = w ∧ (b', u') = (b, 0)) ↔ ((b', u') ∈ ran s ∨ ∃ v, pends s v (b', u'))) as ->
        by naive_solver.
      rewrite Hall. simpl. split.
      * intros (? & ? & ? & ?). split_and!; [done|done|naive_solver|naive_solver].
      * intros (? & ? & Hn & Hnf). split_and!; [done|done|naive_solver|]. intros v Hfv. apply (Hnf v). split; [done|]. intros ->.
        destruct Hfw as (r & Hr & E). destruct Hfv as (r' & Hr' & E'). congruence.
  - intros v b' u' [Hlv|(-> & -> & Hu)]%Hl.
    + destruct (Hlive _ _ _ Hlv) as (? & ? & Hu & Hnf). split_and!; [done|done| |].
      * intros v' [?|(-> & -> & ?)]%Hl; [by apply Hu|]. exfalso. by eapply Hnl.
      * intros v' [? ?]%Hf. by eapply Hnf.
    + split_and!; [split; simpl; [done|lia]|done| |].
      * intros v' [?|(-> & _ & ?)]%Hl; [|done]. exfalso. by eapply Hnl.
      * intros v' [? Hv]%Hf. apply Hv. by apply Huf.
  - intros v b' [Hfv Hv]%Hf. destruct (Hfill _ _ Hfv) as (? & ? & Hu). split_and!; [done|done|].
    intros v' [? ?]%Hf. by apply Hu.
Qed.

Lemma core_perform s s' w x :
  pends s w x → (∀ v b u, live s' v b u ↔ live s v b u) → (∀ v b, filling s' v b ↔ filling s v b) →
  (∀ v y, pends s' v y ↔ pends s v y ∧ v ≠ w) → startIndex s' = startIndex s → ran s' = ran s ++ [x] → core s → core s'.
Proof.
  intros Hpw Hl Hf Hp Es Er [Hnd Hnew Honce Hall Hlive Hfill].
  split; rewrite ?Er, ?Es; try setoid_rewrite Hl; try setoid_rewrite Hf; try done.
  - apply NoDup_app. split_and!; [done|intros y Hy ->%list_elem_of_singleton; by eapply Hnew|apply NoDup_singleton].
  - intros v y [Hpv Hne]%Hp. rewrite elem_of_app, list_elem_of_singleton. intros [?| ->]; [by eapply Hnew|].
    apply Hne. by eapply Honce.
  - intros v v' y [? _]%Hp [? _]%Hp. by eapply Honce.
  - intros y. rewrite <- Hall. setoid_rewrite Hp. rewrite elem_of_app, list_elem_of_singleton. split.
    + intros [[?| ->]|(v & ? & ?)]; eauto.
    + intros [?|[v Hv]]; [by left; left|]. destruct (decide (v = w)) as [->|]; [|right; by exists v]. left. right.
      destruct Hpw as (r & Hr & E), Hv as (r' & Hr' & E'). congruence.
Qed.

(** ** What one update does to the view *)

Definition not_filling (r : Resv) : Prop := ∀ b, w_pc r ≠ OwnFill b.

Section update.
Context (s s' : St) (w : nat) (me me' : Resv).
Hypothesis Hme : resvs s !! w = Some me.
Hypothesis Es : resvs s' = <[w := me']> (resvs s).

Lemma upd_lookup v r : resvs s' !! v = Some r ↔ (v ≠ w ∧ resvs s !! v = Some r) ∨ (v = w ∧ r = me').
Proof using Hme Es.
  rewrite Es. by apply insert_lookup_iff with me.
Qed.

Lemma upd_live v b u : live s' v b u ↔ (v ≠ w ∧ live s v b u) ∨ (v = w ∧ bufferId me' = b ∧ resvCursor me' ≤ u < unitAmount me').
Proof using Hme Es. unfold live. setoid_rewrite upd_lookup. naive_solver. Qed.

Lemma upd_filling v b : filling s' v b ↔ (v ≠ w ∧ filling s v b) ∨ (v = w ∧ w_pc me' = OwnFill b).
Proof using Hme Es. unfold filling. setoid_rewrite upd_lookup. naive_solver. Qed.

Lemma upd_pend r : (bufferId me' = bufferId me ∨ stealWorkerId r ≠ Some w) → pend (resvs s') r = pend (resvs s) r.
Proof using Hme Es.
  intros H. unfold pend. destruct (w_pc r); try done. destruct (stealWorkerId r) as [v|]; [|done]. f_equal. rewrite Es.
  destruct (decide (v = w)) as [->|Hne]; [|by rewrite list_lookup_insert_ne].
  rewrite list_lookup_insert_eq by (by eapply lookup_lt_Some). rewrite Hme. simpl. naive_solver.
Qed.

Lemma upd_pends v x :
  (bufferId me' = bufferId me ∨ ∀ v r, resvs s !! v = Some r → stealWorkerId r ≠ Some w) →
  (bufferId me' = bufferId me ∨ stealWorkerId me' ≠ Some w) →
  pends s' v x ↔ (v ≠ w ∧ pends s v x) ∨ (v = w ∧ pend (resvs s) me' = Some x).
Proof using Hme Es.
  intros H1 H2. unfold pends. setoid_rewrite upd_lookup. split.
  - intros (r & [[? Hr]|[-> ->]] & E).
    + left. split; [done|]. exists r. split; [done|]. rewrite <- E. symmetry. apply upd_pend. naive_solver.
    + right. split; [done|]. rewrite <- E. symmetry. by apply upd_pend.
  - intros [[? (r & Hr & E)]|[-> E]].
    + exists r. split; [by left|]. rewrite <- E. apply upd_pend. naive_solver.
    + exists me'. split; [by right|]. rewrite <- E. by apply upd_pend.
Qed.
End update.

(** ** Where the workers are *)

Definition searching (p : pc) : Prop :=
  match p with OwnDone | StealTake _ | Probe _ | Take _ => True | _ => False end.
Definition spent (r : Resv) : Prop := unitAmount r ≤ resvCursor r.
(** Nothing can be taken from [v] any more, once all buffers are given out. *)
Definition drained (s : St) (v : nat) : Prop := ∀ r, resvs s !! v = Some r → spent r ∧ not_filling r.

Record local (s : St) (w : nat) (r : Resv) : Prop := {
  lo_cursor : 0 ≤ resvCursor r;
  lo_held : locked r = true → spent r;
  lo_own : searching (w_pc r) ∨ stealWorkerId r ≠ None → (n ≤ startIndex s)%nat ∧ spent r ∧ not_filling r;
  lo_steal : ∀ v, stealWorkerId r = Some v → v ≠ w ∧ ∃ o, resvs s !! v = Some o ∧ not_filling o;
  lo_take : ∀ v, w_pc r = StealTake v → stealWorkerId r = Some v;
  lo_probe : ∀ i, w_pc r = Probe i ∨ w_pc r = Take i → (1 ≤ i)%nat ∧ ∀ j, (1 ≤ j < i)%nat → drained s (victim s w j);
  lo_range : ∀ i, w_pc r = Take i → (i < length (resvs s))%nat;
  lo_nosteal : ∀ i, w_pc r = Probe i ∨ w_pc r = Take i → stealWorkerId r = None;
  lo_finished : w_pc r = Finished → workExhausted s = true;
}.

Record inv (s : St) : Prop := {
  i_core : core s;
  i_local : ∀ w r, resvs s !! w = Some r → local s w r;
  i_exhausted : workExhausted s = true → (n ≤ startIndex s)%nat ∧ ∀ v, drained s v;
}.

(** What a step leaves as it is for the workers that do not take it. *)
Record later (s s' : St) : Prop := {
  la_start : (startIndex s ≤ startIndex s')%nat;
  la_len : length (resvs s') = length (resvs s);
  la_exhausted : workExhausted s = true → workExhausted s' = true;
  la_keep : (n ≤ startIndex s)%nat → ∀ v r, resvs s !! v = Some r → not_filling r →
    ∃ r', resvs s' !! v = Some r' ∧ not_filling r' ∧ (spent r → spent r');
}.

Lemma later_drained s s' v : later s s' → (n ≤ startIndex s)%nat → drained s v → drained s' v.
Proof.
  intros [_ Hlen _ Hk] Hn Hd r' Hr'. destruct (lookup_lt_is_Some_2 (resvs s) v) as [r Hr].
  { rewrite <- Hlen. by eapply lookup_lt_Some. }
  destruct (Hd r Hr) as [Hs Hf]. destruct (Hk Hn v r Hr Hf) as (r'' & E & ? & ?). naive_solver.
Qed.

Lemma later_local s s' w r : later s s' → local s w r → local s' w r.
Proof.
  intros Hl [Hc Hh Ho Hst Hta Hp Hr Hns Hf]. pose proof (later_drained s s') as Hd. destruct Hl as [Hle Hlen Hex Hk].
  split; try done.
  - intros H. destruct (Ho H) as (? & ? & ?). split_and!; (done || lia).
  - intros v E. destruct (Hst v E) as (? & o & Eo & Hnf). destruct Ho as (Hn & _); [right; by rewrite E|].
    destruct (Hk Hn v o Eo Hnf) as (o' & ? & ? & _). eauto.
  - intros i Hi. destruct (Hp i Hi) as (? & Hj). split; [done|]. intros j Hj'. unfold victim in *. rewrite Hlen.
    destruct Ho as (Hn & _); [left; destruct Hi as [-> | ->]; done|]. apply Hd; [split; done|done|by apply Hj].
  - rewrite Hlen. done.
  - naive_solver.
Qed.

Lemma later_upd s s' w me me' :
  resvs s !! w = Some me → resvs s' = <[w := me']> (resvs s) → (startIndex s ≤ startIndex s')%nat →
  (workExhausted s = true → workExhausted s' = true) →
  ((n ≤ startIndex s)%nat → not_filling me → not_filling me' ∧ (spent me → spent me')) → later s s'.
Proof.
  intros Hme Es Hs He Hk. split; [done|by rewrite Es, length_insert|done|]. intros Hn v r Hr Hnf.
  destruct (decide (v = w)) as [->|Hne].
  - exists me'. rewrite Es, list_lookup_insert_eq by (by eapply lookup_lt_Some). naive_solver.
  - exists r. rewrite Es, list_lookup_insert_ne by done. done.
Qed.

Lemma later_trans s1 s2 s3 : later s1 s2 → later s2 s3 → later s1 s3.
Proof.
  intros [? ? ? H1] [? ? ? H2]. split; [lia|congruence|naive_solver|]. intros Hn v r Hr Hnf.
  destruct (H1 Hn v r Hr Hnf) as (r' & ? & ? & ?). destruct (H2 ltac:(lia) v r') as (r'' & ? & ? & ?); naive_solver.
Qed.

(** A step of [w] that leaves the other reservations as they are. *)
Lemma inv_upd s s' w me me' :
  inv s → resvs s !! w = Some me → resvs s' = <[w := me']> (resvs s) → later s s' →
  core s' → local s' w me' → (workExhausted s' = true → (n ≤ startIndex s')%nat ∧ ∀ v, drained s' v) → inv s'.
Proof.
  intros [_ Hloc _] Hme Es Hl Hc Hw He. split; [done| |done]. intros v r Hr.
  apply (upd_lookup s s' w me me' Hme Es) in Hr as [[? Hr]|[-> ->]]; [|done]. eapply later_local; eauto.
Qed.

Lemma still_exhausted s s' : inv s → later s s' → workExhausted s' = workExhausted s →
  workExhausted s' = true → (n ≤ startIndex s')%nat ∧ ∀ v, drained s' v.
Proof.
  intros [_ _ He] Hl E H. rewrite E in H. destruct (He H) as [Hn Hd]. split; [pose proof (la_start _ _ Hl); lia|].
  intros v. eapply later_drained; eauto.
Qed.

(** ** The steps *)

Lemma not_perform_pend l r : w_pc r ≠ Perform → pend l r = None.
Proof. unfold pend. by destruct (w_pc r). Qed.

Lemma pends_not_perform s w r x : resvs s !! w = Some r → w_pc r ≠ Perform → ¬ pends s w x.
Proof. intros Hr Hp (r' & Hr' & E). simplify_eq. by rewrite not_perform_pend in E. Qed.

(** The program counters with nothing to say about the search. *)
Definition plain (p : pc) : Prop := match p with Idle | OwnStart | Perform => True | _ => False end.

Lemma local_plain s w r :
  0 ≤ resvCursor r → plain (w_pc r) → (stealWorkerId r ≠ None → (n ≤ startIndex s)%nat ∧ spent r) →
  (∀ v, stealWorkerId r = Some v → v ≠ w ∧ ∃ o, resvs s !! v = Some o ∧ not_filling o) → local s w r.
Proof.
  intros Hc Hp Ho Hs. unfold plain in Hp. split; try done; unfold locked, not_filling; destruct (w_pc r); try done;
    try (intros ? [E|E]; discriminate E).
  all: intros [[]|Hn]; destruct (Ho Hn); done.
Qed.

(** The reservations offer the same units. *)
Record same_offer (me me' : Resv) : Prop := {
  so_buffer : bufferId me' = bufferId me;
  so_amount : unitAmount me' = unitAmount me;
  so_cursor : resvCursor me' = resvCursor me ∨ (spent me ∧ resvCursor me ≤ resvCursor me');
}.

Lemma same_spent me me' : same_offer me me' → spent me → spent me'.
Proof. unfold spent. intros [? ? ?] ?. lia. Qed.

Lemma same_live me me' b u : same_offer me me' →
  (bufferId me' = b ∧ resvCursor me' ≤ u < unitAmount me') ↔ (bufferId me = b ∧ resvCursor me ≤ u < unitAmount me).
Proof. intros [? ? Hc]. unfold spent in Hc. split; intros []; split; lia || congruence. Qed.

(** Neither gives out a unit nor calls the callback. *)
Record quiet (me me' : Resv) : Prop := {
  q_offer : same_offer me me';
  q_pend : ∀ l, pend l me' = pend l me;
  q_filling : not_filling me ∧ not_filling me';
}.

Lemma quiet_goto me me' : same_offer me me' → w_pc me ≠ Perform → w_pc me' ≠ Perform → not_filling me → not_filling me' → quiet me me'.
Proof. intros. split; try done. intros l. by rewrite !not_perform_pend. Qed.

Lemma core_quiet_upd s s' w me me' :
  resvs s !! w = Some me → resvs s' = <[w := me']> (resvs s) → startIndex s' = startIndex s → ran s' = ran s →
  quiet me me' → core s → core s'.
Proof.
  intros Hme Es Ei Er [Ho Hp [Hf Hf']]. apply core_quiet; try done.
  - intros v b u. rewrite (upd_live s s' w me me' Hme Es), (same_live me me' b u Ho). unfold live. split; [naive_solver|].
    intros (r & Hr & Hu). destruct (decide (v = w)) as [->|]; naive_solver.
  - intros v b. rewrite (upd_filling s s' w me me' Hme Es). unfold filling, not_filling in *. split; [naive_solver|].
    intros (r & Hr & Hu). destruct (decide (v = w)) as [->|]; naive_solver.
  - intros v x. rewrite (upd_pends s s' w me me' Hme Es) by (left; apply Ho). rewrite Hp. unfold pends.
    split; [naive_solver|]. intros (r & ? & ?). destruct (decide (v = w)) as [->|]; naive_solver.
Qed.

Lemma quiet_later s s' w me me' :
  resvs s !! w = Some me → resvs s' = <[w := me']> (resvs s) → startIndex s' = startIndex s →
  (workExhausted s = true → workExhausted s' = true) → quiet me me' → later s s'.
Proof.
  intros Hme Es Ei Hx [Ho _ [_ Hf]]. eapply later_upd; eauto; [lia|]. intros _ _. split; [done|by apply same_spent].
Qed.

Lemma inv_quiet s w me me' :
  inv s → resvs s !! w = Some me → quiet me me' → local (upd s w me') w me' → inv (upd s w me').
Proof.
  intros Hi Hme Hq Hloc. assert (later s (upd s w me')) as Hl by (by eapply quiet_later).
  eapply (inv_upd s _ w me me'); try done.
  - eapply core_quiet_upd; try done. apply Hi.
  - eapply still_exhausted; try done.
Qed.

(** [w] takes the unit at the cursor of its own buffer. *)
Lemma inv_own s w me :
  inv s → resvs s !! w = Some me → w_pc me = OwnStart → resvCursor me < unitAmount me →
  inv (upd s w (goto Perform (set_resvId (resvCursor me) (bump me)))).
Proof.
  intros Hi Hme Hpc Hlt. set (me' := goto Perform _). set (s' := upd s w me').
  destruct (i_local s Hi w me Hme) as [Hc Hh Ho Hst Hta Hp Hr Hns Hf].
  assert (stealWorkerId me = None) as Hnone.
  { destruct (stealWorkerId me) eqn:E; [|done]. destruct Ho as (_ & Hs & _); [by right|]. unfold spent in Hs. lia. }
  assert (not_filling me) as Hnf by (intros b; congruence).
  assert (later s s') as Hl.
  { eapply later_upd; try done. intros _ _. split; [done|]. unfold spent. simpl. lia. }
  eapply (inv_upd s s' w me me'); try done.
  - eapply (core_take s s' w w (bufferId me) (resvCursor me)); try done.
    + exists me. split_and!; (done || lia).
    + intros v b u. rewrite (upd_live s s' w me me' Hme eq_refl). simpl. split.
      * intros [[Hne Hlv]|(-> & <- & Hu)]; [|split; [exists me; split_and!; (done || lia)|intros [= ?]; lia]].
        split; [done|]. intros [= -> ->]. apply Hne.
        assert (live s w (bufferId me) (resvCursor me)) as Hlw by (exists me; split_and!; (done || lia)).
        by apply (c_live _ (i_core _ Hi) _ _ _ Hlw).
      * intros [Hlv Hne]. destruct (decide (v = w)) as [->|]; [|by left]. right. destruct Hlv as (r & Er & <- & Hu). simplify_eq.
        split_and!; try done; [|lia]. assert (u ≠ resvCursor me) by congruence. lia.
    + intros v b. rewrite (upd_filling s s' w me me' Hme eq_refl). split; [naive_solver|]. intros Hv. left. split; [|done].
      intros ->. destruct Hv as (r & ? & ?). simplify_eq. by eapply Hnf.
    + intros v x. rewrite (upd_pends s s' w me me' Hme eq_refl) by (by left). unfold pend. simpl. rewrite Hnone. simpl. naive_solver.
    + intros x. eapply pends_not_perform; [done|congruence].
    + apply Hi.
  - apply local_plain; simpl; rewrite ?Hnone; (done || lia).
  - eapply still_exhausted; try done.
Qed.

Lemma inv_fetch s w me :
  inv s → resvs s !! w = Some me → w_pc me = OwnFetch → inv (ownFetch buffers s w me).
Proof.
  intros Hi Hme Hpc. destruct (i_local s Hi w me Hme) as [Hc Hh Ho Hst Hta Hp Hr Hns Hf].
  assert (spent me) as Hsp by (apply Hh; unfold locked; by rewrite Hpc).
  assert (not_filling me) as Hnf by (intros b; congruence). unfold ownFetch.
  set (p := if bool_decide (startIndex s < n)%nat then OwnFill (startIndex s) else OwnDone).
  set (s' := upd (mkSt (S (startIndex s)) (workExhausted s) (resvs s) (ran s)) w (goto p me)).
  assert (inv s') as Hgoal; [|unfold s', p in Hgoal; case_bool_decide; done].
  assert (later s s') as Hl.
  { eapply (later_upd s s' w me); try done; [simpl; lia|]. intros Hn _. split; [|done]. intros b. simpl. unfold p.
    rewrite bool_decide_eq_false_2 by lia. done. }
  eapply (inv_upd s s' w me (goto p me)); try done.
  - eapply (core_fetch s s' w); try done; [| | |apply Hi].
    + intros v b u. rewrite (upd_live s s' w me _ Hme eq_refl). simpl. unfold live. split; [naive_solver|].
      intros (r & ? & ?). destruct (decide (v = w)) as [->|]; naive_solver.
    + intros v x. rewrite (upd_pends s s' w me _ Hme eq_refl) by (by left).
      rewrite not_perform_pend by (simpl; unfold p; by case_bool_decide). split; [naive_solver|]. intros H. left. split; [|done].
      intros ->. eapply pends_not_perform; [exact Hme| |done]. congruence.
    + intros v b. rewrite (upd_filling s s' w me _ Hme eq_refl). simpl. unfold p. split.
      * intros [[? ?]|[-> H]]; [by left|]. case_bool_decide; [|done]. right. injection H as <-. done.
      * intros [Hv|(-> & -> & Hlt)]; [|right; by rewrite bool_decide_eq_true_2]. left. split; [|done]. intros ->.
        destruct Hv as (r & ? & ?). simplify_eq. by eapply Hnf.
  - assert (p = OwnDone ∧ (n ≤ startIndex s)%nat ∨ p = OwnFill (startIndex s) ∧ (startIndex s < n)%nat) as Hcase.
    { unfold p. case_bool_decide; [right|left]; split; (done || lia). }
    split; try done; try (simpl; intros ?; destruct Hcase as [[-> _]|[-> _]]; try intros [E|E]; discriminate).
    + simpl. destruct Hcase as [[-> ?]|[-> Hlt]].
      * intros _. split_and!; [lia|done|done].
      * intros [[]|Hne]. exfalso. destruct Ho as (? & _); [by right|]. lia.
    + simpl. intros v E. destruct (Hst v E) as (? & o & Eo & Hfo). split; [done|]. exists o. split; [|done].
      rewrite list_lookup_insert_ne; done.
  - eapply still_exhausted; try done.
Qed.

Lemma units_of b m : buffers !! b = Some m → units b = Z.max 1 (unitsOf m).
Proof. intros E. unfold BufferTask.units. by rewrite E. Qed.

Lemma inv_fill s w me b s' :
  inv s → resvs s !! w = Some me → w_pc me = OwnFill b → ownFill buffers s w me b = Some s' → inv s'.
Proof.
  intros Hi Hme Hpc. destruct (i_local s Hi w me Hme) as [Hc Hh Ho Hst Hta Hp Hr Hns Hf].
  assert (spent me) as Hsp by (apply Hh; unfold locked; by rewrite Hpc).
  assert (stealWorkerId me = None) as Hnone.
  { destruct (stealWorkerId me) eqn:E; [|done]. destruct Ho as (_ & _ & Hn); [by right|]. by destruct (Hn b). }
  unfold ownFill. destruct (buffers !! b) as [m|] eqn:Em; [|done]. simpl. intros [= <-]. set (me' := mkResv _ _ _ _ _ _). set (s' := upd s w me').
  pose proof (units_of b m Em) as Eu.
  assert (later s s') as Hl.
  { eapply later_upd; try done. intros _ Hn. exfalso. by eapply Hn. }
  assert (∀ v r, resvs s !! v = Some r → stealWorkerId r ≠ Some w) as Hnobody.
  { intros v r Hv Hs. destruct (lo_steal _ _ _ (i_local s Hi v r Hv) w Hs) as (_ & o & Hw & Hnf). simplify_eq. by eapply Hnf. }
  eapply (inv_upd s s' w me me'); try done.
  - eapply (core_fill s s' w b); try done; [| | | | | |rewrite Eu; lia|apply Hi].
    + by exists me.
    + intros x. eapply pends_not_perform; [done|congruence].
    + intros b' u' (r & ? & _ & Hu). simplify_eq. unfold spent in Hsp. lia.
    + intros v b'. rewrite (upd_filling s s' w me me' Hme eq_refl). simpl. naive_solver.
    + intros v b' u'. rewrite (upd_live s s' w me me' Hme eq_refl). simpl. rewrite Eu. split.
      * intros [[? ?]|(-> & -> & ?)]; [by left|]. right. split_and!; (done || lia).
      * intros [Hlv|(-> & -> & ?)]; [|right; split_and!; (done || lia)]. left. split; [|done]. intros ->.
        destruct Hlv as (r & ? & _ & Hu). simplify_eq. unfold spent in Hsp. lia.
    + intros v x. rewrite (upd_pends s s' w me me' Hme eq_refl); [|by right|right; simpl; by rewrite Hnone]. unfold pend. simpl. rewrite Hnone.
      simpl. split; [naive_solver|]. intros [H|[-> ->]]; [|by right]. left. split; [|done]. intros ->.
      eapply pends_not_perform; [exact Hme| |done]. congruence.
  - apply local_plain; simpl; rewrite ?Hnone; done.
  - eapply still_exhausted; try done.
Qed.

Lemma pends_perform s w me :
  inv s → resvs s !! w = Some me → w_pc me = Perform → ∃ x, pend (resvs s) me = Some x.
Proof.
  intros Hi Hme Hpc. unfold pend. rewrite Hpc. destruct (stealWorkerId me) as [v|] eqn:E; [|by eexists].
  destruct (lo_steal _ _ _ (i_local s Hi w me Hme) v E) as (_ & o & -> & _). by eexists.
Qed.

Lemma inv_perform s w me s' :
  inv s → resvs s !! w = Some me → w_pc me = Perform → performWork s w me = Some s' → inv s' ∧ length (ran s') = S (length (ran s)).
Proof.
  intros Hi Hme Hpc Es'. destruct (i_local s Hi w me Hme) as [Hc Hh Ho Hst Hta Hp Hr Hns Hf].
  assert (not_filling me) as Hnf by (intros b; congruence).
  assert (∃ x, pend (resvs s) me = Some x ∧ s' = mkSt (startIndex s) (workExhausted s) (<[w := goto Idle me]> (resvs s)) (ran s ++ [x])) as (x & Hx & ->).
  { unfold performWork in Es'. unfold pend. rewrite Hpc. destruct (match stealWorkerId me with Some _ => _ | None => _ end) as [bid|]; [|done].
    simpl in *. injection Es' as <-. by eexists. }
  set (s' := mkSt _ _ _ _). split; [|simpl; rewrite length_app; simpl; lia].
  assert (later s s') as Hl by (by eapply later_upd).
  eapply (inv_upd s s' w me (goto Idle me)); try done.
  - eapply (core_perform s s' w x); try done; [| | | |apply Hi].
    + by exists me.
    + intros v b u. rewrite (upd_live s s' w me _ Hme eq_refl). simpl. unfold live. split; [naive_solver|].
      intros (r & ? & ?). destruct (decide (v = w)) as [->|]; naive_solver.
    + intros v b. rewrite (upd_filling s s' w me _ Hme eq_refl). simpl. unfold filling. split; [naive_solver|].
      intros (r & ? & ?). destruct (decide (v = w)) as [->|]; [simplify_eq; by destruct (Hnf b)|naive_solver].
    + intros v y. rewrite (upd_pends s s' w me _ Hme eq_refl) by (by left). rewrite not_perform_pend by done. naive_solver.
  - apply (later_local s); [done|]. apply local_plain; simpl; try done. intros Hn. destruct Ho as (? & ? & _); [by right|done].
  - eapply still_exhausted; try done.
Qed.

(** ** Stealing *)

Lemma local_bump s v o : local s v o → local s v (bump o).
Proof.
  intros [Hc Hh Ho Hst Hta Hp Hr Hns Hf]. assert (spent o → spent (bump o)) as Hs by (unfold spent; simpl; lia).
  split; try done; simpl; [lia|intros H; by apply Hs, Hh|]. intros H. destruct (Ho H) as (? & ? & ?). split_and!; try done. by apply Hs.
Qed.

Lemma quiet_bump o : spent o → not_filling o → quiet o (bump o).
Proof. intros Hs Hf. split; [|done|done]. split; [done|done|]. right. split; [done|]. simpl. lia. Qed.

Lemma inv_bump s v o : inv s → resvs s !! v = Some o → spent o → not_filling o → inv (upd s v (bump o)).
Proof.
  intros Hi Ho Hs Hf. pose proof (quiet_bump o Hs Hf) as Hq. eapply inv_quiet; try done.
  apply (later_local s); [by eapply quiet_later|]. apply local_bump. by apply Hi.
Qed.

(** The victim gives up a unit. *)
Lemma core_steal s w me me' v o :
  inv s → resvs s !! w = Some me → resvs s !! v = Some o → v ≠ w → not_filling o → not_filling me → w_pc me ≠ Perform →
  resvCursor o < unitAmount o → same_offer me me' → w_pc me' = Perform → stealWorkerId me' = Some v → resvId me' = resvCursor o →
  core (upd2 s v (bump o) w me').
Proof.
  intros Hi Hme Ho Hvw Hfo Hfm Hpm Hlt Hsame Hpc Hst Hid. set (s1 := upd s v (bump o)). set (s' := upd s1 w me').
  change (core s'). assert (resvs s1 !! w = Some me) as Hme1 by (unfold s1, upd; simpl; by rewrite list_lookup_insert_ne).
  assert (live s v (bufferId o) (resvCursor o)) as Hlv by (exists o; split_and!; (done || lia)).
  eapply (core_take s s' v w (bufferId o) (resvCursor o)); try done; [| | | |apply Hi].
  - intros x b u. rewrite (upd_live s1 s' w me me' Hme1 eq_refl), (same_live me me' b u Hsame), (upd_live s s1 v o (bump o) Ho eq_refl). simpl.
    split.
    + intros [[Hx [[Hxv Hl]|(-> & <- & Hu)]]|(-> & <- & Hu)].
      * split; [done|]. intros [= -> ->]. apply Hxv. by apply (c_live _ (i_core _ Hi) _ _ _ Hlv).
      * split; [exists o; split_and!; (done || lia)|]. intros [= ?]. lia.
      * split; [by exists me|]. intros [= E1 E2]. apply Hvw. symmetry. apply (c_live _ (i_core _ Hi) _ _ _ Hlv).
        exists me. split_and!; [done|done|lia|lia].
    + intros [Hl Hne]. destruct (decide (x = w)) as [->|Hx]; [right; destruct Hl as (r & ? & ?); naive_solver|].
      left. split; [done|]. destruct (decide (x = v)) as [->|]; [|by left]. right. destruct Hl as (r & ? & <- & Hu). simplify_eq.
      split_and!; try done; [|lia]. assert (u ≠ resvCursor o) by congruence. lia.
  - intros x b. rewrite (upd_filling s1 s' w me me' Hme1 eq_refl), (upd_filling s s1 v o (bump o) Ho eq_refl), Hpc. simpl. split.
    { intros [[_ [[_ ?]|[-> ?]]]|[_ ?]]; [done|by exists o|done]. }
    intros Hx. left. split; [intros ->; destruct Hx as (r & ? & ?); simplify_eq; by eapply Hfm|].
    left. split; [|done]. intros ->. destruct Hx as (r & ? & ?). simplify_eq. by eapply Hfo.
  - intros x y. rewrite (upd_pends s1 s' w me me' Hme1 eq_refl) by (left; apply Hsame).
    rewrite (upd_pends s s1 v o (bump o) Ho eq_refl) by (by left).
    assert (pend (resvs s1) me' = Some (bufferId o, resvCursor o)) as Ep.
    { unfold pend. rewrite Hpc, Hst. unfold s1, upd. simpl. rewrite list_lookup_insert_eq by (by eapply lookup_lt_Some).
      simpl. by rewrite Hid. }
    rewrite Ep. change (pend (resvs s) (bump o)) with (pend (resvs s) o). unfold pends. split.
    + intros [[? [[? ?]|[-> ?]]]|[-> ?]]; [left; naive_solver|left; naive_solver|right; naive_solver].
    + intros [[? (r & Hr & E)]|[-> ->]]; [|by right]. left. split; [done|]. destruct (decide (x = v)) as [->|]; naive_solver.
  - intros x. by eapply pends_not_perform.
Qed.

Lemma inv_steal s w me v o got lost :
  inv s → resvs s !! w = Some me → resvs s !! v = Some o → v ≠ w → locked o = false → searching (w_pc me) →
  same_offer me (got me) → stealWorkerId (got me) = Some v →
  (spent o → quiet me (lost me) ∧ ∀ s', later s s' → (∃ o', resvs s' !! v = Some o' ∧ spent o' ∧ not_filling o') → local s' w (lost me)) →
  inv (steal s w me v o got lost).
Proof.
  intros Hi Hme Ho Hvw Hlk Hse Hg1 Hg2 Hlost. unfold steal, fetchAndNext.
  assert (not_filling o) as Hfo by (intros b E; unfold locked in Hlk; by rewrite E in Hlk).
  destruct (i_local s Hi w me Hme) as [Hc Hh Hown Hst Hta Hp Hr Hns Hf].
  destruct Hown as (Hn & Hsp & Hfm); [by left|]. assert (w_pc me ≠ Perform) as Hpm by (intros E; by rewrite E in Hse).
  destruct (Z.leb_spec (unitAmount o) (resvCursor o)) as [Hle|Hlt].
  - (* nothing left *)
    destruct (Hlost Hle) as [Hq Hloc]. set (s1 := upd s v (bump o)). change (inv (upd s1 w (lost me))).
    assert (inv s1) as Hi1 by (by apply inv_bump).
    assert (resvs s1 !! w = Some me) as Hme1 by (unfold s1, upd; simpl; by rewrite list_lookup_insert_ne).
    eapply inv_quiet; try done. apply Hloc.
    + eapply (later_trans s s1); [by eapply quiet_later; [..|apply quiet_bump]|by eapply quiet_later].
    + exists (bump o). unfold upd, s1. simpl. rewrite list_lookup_insert_ne by done.
      rewrite list_lookup_insert_eq by (by eapply lookup_lt_Some). split_and!; try done. unfold spent. simpl. lia.
  - set (me' := goto Perform _). set (s1 := upd s v (bump o)). set (s' := upd2 s v (bump o) w me').
    assert (resvs s1 !! w = Some me) as Hme1 by (unfold s1, upd; simpl; by rewrite list_lookup_insert_ne).
    assert (same_offer me me') as Hsame by (destruct Hg1; split; done).
    assert (later s s1) as Hl1.
    { eapply later_upd; try done. intros _ _. split; [done|]. unfold spent. simpl. lia. }
    assert (later s s') as Hl.
    { eapply (later_trans s s1); [done|]. eapply (later_upd s1 s' w me me'); try done. intros _ _. split; [done|by apply same_spent]. }
    split; [by eapply core_steal| |by eapply still_exhausted].
    intros x r Hx. change (resvs s') with (resvs (upd s1 w me')) in Hx. apply (upd_lookup s1 (upd s1 w me') w me me' Hme1 eq_refl) in Hx as [[Hne Hx]|[-> ->]].
    + eapply later_local; [exact Hl|]. apply (upd_lookup s s1 v o (bump o) Ho eq_refl) in Hx as [[? Hx]|[-> ->]]; [by apply Hi|].
      apply local_bump. by apply Hi.
    + apply local_plain; simpl; [destruct (so_cursor _ _ Hg1) as [-> |[? ?]]; lia|done| |].
      * intros _. split; [done|]. by apply (same_spent me).
      * rewrite Hg2. intros v' [= <-]. split; [done|]. exists (bump o). rewrite list_lookup_insert_ne by done.
        rewrite list_lookup_insert_eq by (by eapply lookup_lt_Some). done.
Qed.

(** ** The invariant *)

(** What [local] asks at each program counter. *)
Definition at_pc (s : St) (w : nat) (r : Resv) : Prop :=
  match w_pc r with
  | Idle | OwnStart | Perform => True
  | OwnFetch => spent r
  | OwnFill _ => spent r ∧ stealWorkerId r = None
  | OwnDone => (n ≤ startIndex s)%nat ∧ spent r
  | StealTake v => (n ≤ startIndex s)%nat ∧ spent r ∧ stealWorkerId r = Some v
  | Probe i => (n ≤ startIndex s)%nat ∧ spent r ∧ stealWorkerId r = None ∧ (1 ≤ i)%nat ∧
      ∀ j, (1 ≤ j < i)%nat → drained s (victim s w j)
  | Take i => (n ≤ startIndex s)%nat ∧ spent r ∧ stealWorkerId r = None ∧ (1 ≤ i < length (resvs s))%nat ∧
      ∀ j, (1 ≤ j < i)%nat → drained s (victim s w j)
  | Finished => workExhausted s = true
  end.

Lemma local_intro s w r :
  0 ≤ resvCursor r → (stealWorkerId r ≠ None → (n ≤ startIndex s)%nat ∧ spent r) →
  (∀ v, stealWorkerId r = Some v → v ≠ w ∧ ∃ o, resvs s !! v = Some o ∧ not_filling o) → at_pc s w r → local s w r.
Proof.
  intros Hc Ho Hs Hat. unfold at_pc in Hat. split; try done; unfold locked, not_filling; destruct (w_pc r) eqn:E; try done;
    try (by intros _; apply Hat); try (intros ? [E'|E']; simplify_eq); try (intros ? E'; simplify_eq); naive_solver lia.
Qed.

(** What a worker knows about its last victim. *)
Record thief (s : St) (w : nat) (r : Resv) : Prop := {
  th_cursor : 0 ≤ resvCursor r;
  th_spent : stealWorkerId r ≠ None → (n ≤ startIndex s)%nat ∧ spent r;
  th_victim : ∀ v, stealWorkerId r = Some v → v ≠ w ∧ ∃ o, resvs s !! v = Some o ∧ not_filling o;
}.

Lemma local_thief s w r : local s w r → thief s w r.
Proof. intros [? _ Ho ? _ _ _ _ _]. split; try done. intros H. destruct Ho as (? & ? & _); [by right|done]. Qed.

Lemma local_thief_intro s s' w r r' :
  local s w r → later s s' → same_offer r r' → (stealWorkerId r' = stealWorkerId r ∨ stealWorkerId r' = None) → at_pc s' w r' → local s' w r'.
Proof.
  intros Hl Hlt Ho Hst Hat. apply (later_local s s') in Hl; [|done]. destruct (local_thief _ _ _ Hl) as [Hc Hs Hv].
  apply local_intro; try done.
  - destruct (so_cursor _ _ Ho) as [-> |[? ?]]; lia.
  - destruct Hst as [-> | ->]; [|done]. intros H. destruct (Hs H). split; [done|by apply (same_spent r)].
  - destruct Hst as [-> | ->]; done.
Qed.

Lemma goto_offer p r : same_offer r (goto p r).
Proof. split; try done. by left. Qed.

Lemma victim_spec s w i : (1 ≤ i < length (resvs s))%nat → (w < length (resvs s))%nat → victim s w i ≠ w.
Proof.
  intros Hi Hw E. unfold victim in E. destruct (decide (w + i < length (resvs s))%nat).
  - rewrite Nat.mod_small in E; lia.
  - rewrite (Nat.Div0.mod_eq) in E. assert ((w + i) / length (resvs s) = 1)%nat as E1.
    { symmetry. apply Nat.div_unique with (w + i - length (resvs s))%nat; lia. }
    rewrite E1 in E. lia.
Qed.

Lemma victim_all s w v : (w < length (resvs s))%nat → (v < length (resvs s))%nat → v ≠ w →
  ∃ i, (1 ≤ i < length (resvs s))%nat ∧ victim s w i = v.
Proof.
  intros Hw Hv Hne. unfold victim. destruct (decide (w < v)%nat).
  - exists (v - w)%nat. split; [lia|]. rewrite Nat.mod_small; lia.
  - exists (v + length (resvs s) - w)%nat. split; [lia|]. replace (w + (v + length (resvs s) - w))%nat with (v + 1 * length (resvs s))%nat by lia.
    rewrite Nat.Div0.mod_add. by apply Nat.mod_small.
Qed.

(** A step that only moves the program counter, and possibly forgets the victim. *)
Lemma inv_move s w me me' :
  inv s → resvs s !! w = Some me → same_offer me me' → (stealWorkerId me' = stealWorkerId me ∨ stealWorkerId me' = None) →
  w_pc me ≠ Perform → w_pc me' ≠ Perform → not_filling me → not_filling me' → at_pc (upd s w me') w me' → inv (upd s w me').
Proof.
  intros Hi Hme Ho Hst Hp Hp' Hf Hf' Hat. assert (quiet me me') as Hq by (by apply quiet_goto). eapply inv_quiet; try done.
  eapply local_thief_intro; try done; [by apply Hi|by eapply quiet_later].
Qed.

Lemma drained_later s s' w j me' : later s s' → resvs s' = resvs (upd s w me') → (n ≤ startIndex s)%nat → drained s (victim s w j) → drained s' (victim s' w j).
Proof. intros Hl E Hn Hd. unfold victim in *. rewrite (la_len _ _ Hl). by eapply later_drained. Qed.

Lemma unlocked_filling o : locked o = false → not_filling o.
Proof. unfold locked. intros Hl b E. by rewrite E in Hl. Qed.

Lemma inv_owndone s w me s' : inv s → resvs s !! w = Some me → w_pc me = OwnDone → step w s = Some s' → inv s'.
Proof.
  intros Hi Hme Hpc. unfold BufferTask.step. rewrite Hme. simpl. rewrite Hpc.
  destruct (lo_own _ _ _ (i_local s Hi w me Hme)) as (Hn & Hsp & Hf); [left; by rewrite Hpc|].
  assert (∀ r', same_offer me r' → stealWorkerId r' = None → w_pc r' = Probe 1 → inv (upd s w r')) as Hprobe.
  { intros r' Ho Hst Hp. apply (inv_move s w me r'); try done; try congruence; [by right|].
    unfold at_pc. rewrite Hp. split_and!; try done; [by apply (same_spent me)|lia]. }
  destruct (stealWorkerId me) as [v|] eqn:Est; [|intros [= <-]; by apply Hprobe; [apply goto_offer|..]].
  destruct (resvs s !! v) as [o|] eqn:Ev; [|done]. simpl. destruct (locked o) eqn:El; [done|]. destruct (hasMoreWork o) eqn:Em; intros [= <-].
  - apply (inv_move s w me); try done; try congruence; [apply goto_offer|by left].
  - apply Hprobe; try done. split; try done. by left.
Qed.

Lemma probe_at s s' w i r : (n ≤ startIndex s)%nat → later s s' → resvs s' !! w = Some r →
  (∀ j, (1 ≤ j < i)%nat → drained s (victim s w j)) → drained s' (victim s' w i) →
  ∀ j, (1 ≤ j < S i)%nat → drained s' (victim s' w j).
Proof.
  intros Hn Hl Hr Hj Hi j ?. destruct (decide (j = i)) as [->|]; [done|]. unfold victim in *. rewrite (la_len _ _ Hl) in *.
  eapply later_drained; try done. apply Hj. lia.
Qed.

(** The loop over the others has seen them all. *)
Lemma inv_exhaust s w me i :
  inv s → resvs s !! w = Some me → w_pc me = Probe i → ¬ (i < length (resvs s))%nat →
  inv (mkSt (startIndex s) true (<[w := goto Finished me]> (resvs s)) (ran s)).
Proof.
  intros Hi Hme Hpc Hlt. set (s' := mkSt _ _ _ _). pose proof (i_local s Hi w me Hme) as Hloc.
  destruct (lo_own _ _ _ Hloc) as (Hn & Hsp & Hf); [left; by rewrite Hpc|].
  destruct (lo_probe _ _ _ Hloc i (or_introl Hpc)) as (_ & Hdr).
  assert (quiet me (goto Finished me)) as Hq by (apply quiet_goto; try done; try congruence; apply goto_offer).
  assert (later s s') as Hl by (by eapply quiet_later).
  eapply (inv_upd s s' w me); try done.
  - eapply core_quiet_upd; try done. apply Hi.
  - eapply local_thief_intro; try done; [apply goto_offer|by left].
  - intros _. split; [done|]. intros v. apply (later_drained s); [done|done|]. intros r Hr.
    destruct (decide (v = w)) as [->|Hne]; [by simplify_eq|].
    destruct (victim_all s w v) as (j & Hj & Ej); [by eapply lookup_lt_Some|by eapply lookup_lt_Some|done|]. apply (Hdr j); [lia|by rewrite Ej].
Qed.

Lemma inv_probe s w me i s' : inv s → resvs s !! w = Some me → w_pc me = Probe i → step w s = Some s' → inv s'.
Proof.
  intros Hi Hme Hpc. unfold BufferTask.step. rewrite Hme. simpl. rewrite Hpc. pose proof (i_local s Hi w me Hme) as Hloc.
  destruct (lo_own _ _ _ Hloc) as (Hn & Hsp & Hf); [left; by rewrite Hpc|].
  destruct (lo_probe _ _ _ Hloc i (or_introl Hpc)) as (H1 & Hdr). pose proof (lo_nosteal _ _ _ Hloc i (or_introl Hpc)) as Hst.
  case_bool_decide as Hlt; [|intros [= <-]; by eapply inv_exhaust].
  destruct (resvs s !! victim s w i) as [o|] eqn:Ev; [|done]. simpl. destruct (locked o) eqn:El; [done|].
  set (p := if hasMoreWork o then Take i else Probe (S i)). intros [= <-].
  assert (w_pc (goto p me) ≠ Perform ∧ not_filling (goto p me)) as [Hp1 Hp2].
  { unfold p, not_filling. simpl. destruct (hasMoreWork o); done. }
  assert (later s (upd s w (goto p me))) as Hl.
  { eapply (quiet_later s _ w me); try done. apply quiet_goto; try done; [apply goto_offer|congruence]. }
  apply (inv_move s w me); try done; [apply goto_offer|by left|congruence|]. unfold at_pc. simpl. unfold p.
  destruct (hasMoreWork o) eqn:Em; rewrite ?length_insert.
  - split_and!; try done. intros j Hj. eapply drained_later; try done. by apply Hdr.
  - split_and!; try done; [lia|]. eapply probe_at; try done.
    + unfold upd. simpl. by rewrite list_lookup_insert_eq by (by eapply lookup_lt_Some).
    + eapply drained_later; try done. intros r Hr. simplify_eq. split; [|by apply unlocked_filling].
      unfold hasMoreWork in Em. apply Z.ltb_ge in Em. done.
Qed.

Lemma inv_take s w me s' :
  inv s → resvs s !! w = Some me → (∃ v, w_pc me = StealTake v) ∨ (∃ i, w_pc me = Take i) → step w s = Some s' → inv s'.
Proof.
  intros Hi Hme Hpc. unfold BufferTask.step. rewrite Hme. simpl. pose proof (i_local s Hi w me Hme) as Hloc.
  assert (searching (w_pc me)) as Hse by (by destruct Hpc as [[? ->]|[? ->]]).
  destruct (lo_own _ _ _ Hloc) as (Hn & Hsp & Hf); [by left|].
  assert (w_pc me ≠ Perform) as Hpm by (by destruct Hpc as [[? ->]|[? ->]]).
  destruct Hpc as [[v Hpc]|[i Hpc]]; rewrite Hpc.
  - pose proof (lo_take _ _ _ Hloc v Hpc) as Hst. destruct (lo_steal _ _ _ Hloc v Hst) as (Hvw & _).
    destruct (resvs s !! v) as [o|] eqn:Ev; [|done]. simpl. destruct (locked o) eqn:El; [done|]. intros [= <-].
    apply inv_steal; try done; [split; try done; by left|]. intros Hso. split; [apply quiet_goto; try done; split; try done; by left|].
    intros s' Hl _. eapply local_thief_intro; try done; [split; try done; by left|by right|]. unfold at_pc. simpl.
    pose proof (la_start _ _ Hl). split_and!; try done; lia.
  - pose proof (lo_range _ _ _ Hloc i Hpc) as Hlt. destruct (lo_probe _ _ _ Hloc i (or_intror Hpc)) as (H1 & Hdr).
    pose proof (lo_nosteal _ _ _ Hloc i (or_intror Hpc)) as Hst.
    assert (victim s w i ≠ w) as Hvw by (apply victim_spec; [lia|by eapply lookup_lt_Some]).
    destruct (resvs s !! victim s w i) as [o|] eqn:Ev; [|done]. simpl. destruct (locked o) eqn:El; [done|]. intros [= <-].
    apply inv_steal; try done; [split; try done; by left|]. intros Hso. split; [apply quiet_goto; try done; apply goto_offer|].
    intros s' Hl (o' & Ho' & Hso' & Hfo'). pose proof (la_start _ _ Hl). pose proof (la_len _ _ Hl) as Hlen.
    eapply local_thief_intro; try done; [apply goto_offer|by left|]. unfold at_pc. simpl. split_and!; try done; [lia|lia|].
    destruct (lookup_lt_is_Some_2 (resvs s') w) as [r Hr]; [rewrite Hlen; by eapply lookup_lt_Some|].
    eapply (probe_at s s'); try done. intros r' Hr'. unfold victim in *. rewrite Hlen in Hr'. by simplify_eq.
Qed.

Lemma inv_step w s s' : inv s → step w s = Some s' → inv s'.
Proof.
  intros Hi Hstep. pose proof Hstep as Hs. unfold BufferTask.step in Hs. destruct (resvs s !! w) as [me|] eqn:Hme; [|done]. simpl in Hs.
  pose proof (i_local s Hi w me Hme) as Hloc.
  destruct (w_pc me) eqn:Hpc; [| | |by eapply inv_fill|by eapply inv_owndone|eapply inv_take; eauto|by eapply inv_probe|eapply inv_take; eauto|
    by eapply inv_perform|done]; injection Hs as <-.
  - apply (inv_move s w me); try congruence; [apply goto_offer|by left|by destruct (workExhausted s)|intros b; by destruct (workExhausted s)|].
    unfold at_pc. simpl. by destruct (workExhausted s) eqn:E.
  - unfold ownStart. simpl. destruct (Z.ltb_spec (resvCursor me) (unitAmount me)) as [Hlt|Hge]; [by apply inv_own|].
    assert (same_offer me (goto OwnFetch (bump me))) as Ho by (split; try done; right; split; [done|simpl; lia]).
    apply (inv_move s w me); try done; try congruence; [by left|]. unfold at_pc. simpl. by apply (same_spent me).
  - by apply inv_fetch.
Qed.

Lemma inv_init k : inv (initSt k).
Proof.
  assert (∀ w r, resvs (initSt k) !! w = Some r → r = newResv) as Hr by (intros w r Hw; simpl in Hw; by apply lookup_replicate_1 in Hw as [-> _]).
  split; [|intros w r ->%Hr; by apply local_plain|done].
  assert (∀ v b u, ¬ live (initSt k) v b u) as Hl by (intros v b u (r & ->%Hr & ? & ?); simpl in *; lia).
  assert (∀ v b, ¬ filling (initSt k) v b) as Hf by (intros v b (r & ->%Hr & ?); done).
  assert (∀ v x, ¬ pends (initSt k) v x) as Hp by (intros v x (r & ->%Hr & ?); done).
  split; simpl; try (intros; exfalso; naive_solver).
  - apply NoDup_nil_2.
  - intros x. split; [|lia]. intros [?%elem_of_nil|[v ?]]; [done|]. by destruct (Hp v x).
Qed.

Lemma inv_steps k s s' : inv s → steps buffers k s s' → inv s'.
Proof. intros Hi Hs. induction Hs; [done|]. eapply inv_step; [|done]. by apply IHHs. Qed.

(** ** Units and elements *)

Lemma elem_of_all_units x : x ∈ all_units buffers ↔ valid x.
Proof.
  unfold all_units, valid. destruct x as [b u]. rewrite list_elem_of_bind. simpl. split.
  - intros (b' & Hin & Hb). apply list_elem_of_fmap in Hin as (u' & [= -> ->] & Hu). apply elem_of_seqZ in Hu. apply elem_of_seq in Hb. lia.
  - intros [Hb Hu]. exists b. split; [|apply elem_of_seq; lia]. apply list_elem_of_fmap. exists u. split; [done|]. apply elem_of_seqZ. lia.
Qed.

Lemma NoDup_tagged (f : nat → Z) l : NoDup l → NoDup (b ← l; (λ u, (b, u)) <$> seqZ 0 (f b)).
Proof.
  induction 1 as [|b l Hb Hl IH]; [apply NoDup_nil_2|]. simpl. apply NoDup_app. split_and!; [|
    |done].
  - apply NoDup_fmap_2; [|apply NoDup_seqZ]. intros ?? [= ?]. done.
  - intros x (u & -> & _)%list_elem_of_fmap Hin. apply list_elem_of_bind in Hin as (b' & Hin & Hb').
    apply list_elem_of_fmap in Hin as (? & [= -> ->] & _). done.
Qed.

Lemma NoDup_all_units : NoDup (all_units buffers).
Proof. apply NoDup_tagged, NoDup_seq. Qed.

Lemma ran_units s : inv s → ∀ x, x ∈ ran s → x ∈ all_units buffers.
Proof. intros Hi x Hx. apply elem_of_all_units. apply (c_all _ (i_core _ Hi)). by left. Qed.

Lemma ran_length s : inv s → (length (ran s) ≤ length (all_units buffers))%nat.
Proof. intros Hi. apply submseteq_length, NoDup_submseteq; [apply Hi|by apply ran_units]. Qed.

Definition all_finished (s : St) : Prop := ∀ w r, resvs s !! w = Some r → w_pc r = Finished.

Lemma finished_all s : inv s → all_finished s → resvs s ≠ [] → ran s ≡ₚ all_units buffers.
Proof.
  intros Hi Hfin Hne. apply NoDup_Permutation; [apply Hi|apply NoDup_all_units|]. intros x. split; [by apply ran_units|].
  intros [Hb Hu]%elem_of_all_units. assert (workExhausted s = true) as He.
  { destruct (resvs s) as [|r l] eqn:E; [done|]. assert (resvs s !! 0%nat = Some r) as Hr by (by rewrite E).
    apply (lo_finished _ _ _ (i_local s Hi 0%nat r Hr)). by eapply Hfin. }
  destruct (i_exhausted s Hi He) as [Hn Hd].
  destruct (proj2 (c_all _ (i_core _ Hi) x)) as [?|(v & r & Hr & Ep)]; [|done|].
  - split_and!; [done|lia| |].
    + intros v (r & Hr & _ & ?). destruct (Hd v r Hr) as [Hs _]. unfold spent in Hs. lia.
    + intros v (r & Hr & ?). destruct (Hd v r Hr) as [_ Hf]. by destruct (Hf x.1).
  - exfalso. unfold pend in Ep. by rewrite (Hfin v r Hr) in Ep.
Qed.

(** ** Progress and termination *)

Lemma step_locked s v o : inv s → resvs s !! v = Some o → locked o = true → is_Some (step v s).
Proof.
  intros Hi Ho Hl. unfold BufferTask.step. rewrite Ho. simpl. unfold locked in Hl. destruct (w_pc o) eqn:Hpc; try done.
  destruct (c_fill _ (i_core _ Hi) v idx) as (Hlt & _); [by exists o|]. unfold ownFill.
  destruct (lookup_lt_is_Some_2 buffers idx Hlt) as [m ->]. done.
Qed.

Lemma step_progress s w r : inv s → resvs s !! w = Some r → w_pc r ≠ Finished → ∃ v, is_Some (step v s).
Proof.
  intros Hi Hr Hnf. pose proof (i_local s Hi w r Hr) as Hloc. destruct (locked r) eqn:El; [exists w; by eapply step_locked|].
  assert (∀ v o f, resvs s !! v = Some o → step w s = (if locked o then None else f) → is_Some f → ∃ v, is_Some (step v s)) as Hwait.
  { intros v o f Ho E Hf. destruct (locked o) eqn:Elo; [exists v; by eapply step_locked|]. exists w. by rewrite E. }
  assert (∀ i, (i < length (resvs s))%nat → is_Some (resvs s !! victim s w i)) as Hvic.
  { intros i Hi'. apply lookup_lt_is_Some_2. unfold victim. apply Nat.mod_upper_bound. lia. }
  destruct (w_pc r) eqn:Hpc; try done; try (unfold locked in El; by rewrite Hpc in El).
  - exists w. unfold BufferTask.step. rewrite Hr. simpl. by rewrite Hpc.
  - exists w. unfold BufferTask.step. rewrite Hr. simpl. by rewrite Hpc.
  - destruct (stealWorkerId r) as [v|] eqn:Est; [|exists w; unfold BufferTask.step; rewrite Hr; simpl; by rewrite Hpc, Est].
    destruct (lo_steal _ _ _ Hloc v Est) as (_ & o & Ho & _). eapply (Hwait v o); [done| |].
    + unfold BufferTask.step. rewrite Hr. simpl. rewrite Hpc, Est, Ho. done.
    + by destruct (hasMoreWork o).
  - destruct (lo_steal _ _ _ Hloc v (lo_take _ _ _ Hloc v Hpc)) as (_ & o & Ho & _). eapply (Hwait v o); [done| |].
    + unfold BufferTask.step. rewrite Hr. simpl. rewrite Hpc, Ho. done.
    + done.
  - destruct (decide (i < length (resvs s))%nat) as [Hlt|Hge].
    + destruct (Hvic i Hlt) as [o Ho]. eapply (Hwait _ o); [exact Ho| |].
      * unfold BufferTask.step. rewrite Hr. simpl. rewrite Hpc, bool_decide_eq_true_2 by done. rewrite Ho. done.
      * done.
    + exists w. unfold BufferTask.step. rewrite Hr. simpl. rewrite Hpc, bool_decide_eq_false_2 by done. done.
  - destruct (Hvic i (lo_range _ _ _ Hloc i Hpc)) as [o Ho]. eapply (Hwait _ o); [exact Ho| |].
    + unfold BufferTask.step. rewrite Hr. simpl. rewrite Hpc, Ho. done.
    + done.
  - exists w. unfold BufferTask.step. rewrite Hr. simpl. rewrite Hpc. destruct (pends_perform s w r Hi Hr Hpc) as [x Hx].
    unfold pend in Hx. rewrite Hpc in Hx. unfold performWork. destruct (match stealWorkerId r with Some _ => _ | None => _ end); done.
Qed.

(** How far a worker is from the end of its call. *)
Definition rank (N : nat) (p : pc) : nat :=
  match p with
  | Finished => 0
  | Perform => 1
  | Take i => 2 + 2 * (N - i)
  | Probe i => 3 + 2 * (N - i)
  | StealTake _ => 4 + 2 * N
  | OwnDone => 5 + 2 * N
  | OwnFill _ => 6 + 2 * N
  | OwnFetch => 7 + 2 * N
  | OwnStart => 8 + 2 * N
  | Idle => 9 + 2 * N
  end.
Definition ranks (N : nat) (s : St) : nat := sum_list_with (λ r, rank N (w_pc r)) (resvs s).
Definition measure (s : St) : nat :=
  let N := length (resvs s) in
  ((9 + 2 * N) * (length (all_units buffers) - length (ran s)) + ranks N s)%nat.

Lemma ranks_upd s w me me' N : resvs s !! w = Some me → (rank N (w_pc me') < rank N (w_pc me))%nat →
  (sum_list_with (λ r, rank N (w_pc r)) (<[w := me']> (resvs s)) < ranks N s)%nat.
Proof. intros Hme Hlt. pose proof (sum_insert (λ r, rank N (w_pc r)) (resvs s) w me me' Hme) as E. simpl in E. unfold ranks. lia. Qed.

Lemma ranks_upd2 s v o w me me' N : resvs s !! w = Some me → resvs s !! v = Some o → v ≠ w → (rank N (w_pc me') < rank N (w_pc me))%nat →
  (sum_list_with (λ r, rank N (w_pc r)) (<[w := me']> (<[v := bump o]> (resvs s))) < ranks N s)%nat.
Proof.
  intros Hme Ho Hne Hlt. pose proof (sum_insert (λ r, rank N (w_pc r)) (resvs s) v o (bump o) Ho) as E1.
  pose proof (sum_insert (λ r, rank N (w_pc r)) (<[v := bump o]> (resvs s)) w me me') as E2. rewrite list_lookup_insert_ne in E2 by done.
  specialize (E2 Hme). simpl in E1, E2. unfold ranks. lia.
Qed.

(** Every step but [performWork] brings its worker closer to the end. *)
Lemma step_rank s s' w me : inv s → step w s = Some s' → resvs s !! w = Some me → w_pc me ≠ Perform →
  ran s' = ran s ∧ length (resvs s') = length (resvs s) ∧ (ranks (length (resvs s)) s' < ranks (length (resvs s)) s)%nat.
Proof.
  intros Hi Hs Hme Hnp. unfold BufferTask.step in Hs. rewrite Hme in Hs. simpl in Hs. pose proof (i_local s Hi w me Hme) as Hloc.
  assert (∀ me', (rank (length (resvs s)) (w_pc me') < rank (length (resvs s)) (w_pc me))%nat → ran (upd s w me') = ran s ∧
    length (resvs (upd s w me')) = length (resvs s) ∧ (ranks (length (resvs s)) (upd s w me') < ranks (length (resvs s)) s)%nat) as Hup.
  { intros me' Hlt. split_and!; [done|apply length_insert|by eapply ranks_upd]. }
  assert (∀ v o got lost, resvs s !! v = Some o → v ≠ w → (1 < rank (length (resvs s)) (w_pc me))%nat →
    (rank (length (resvs s)) (w_pc (lost me)) < rank (length (resvs s)) (w_pc me))%nat → let s' := steal s w me v o got lost in
    ran s' = ran s ∧ length (resvs s') = length (resvs s) ∧ (ranks (length (resvs s)) s' < ranks (length (resvs s)) s)%nat) as Hst.
  { intros v o got lost Ho Hne H1 H2. unfold steal, fetchAndNext. destruct (unitAmount o <=? resvCursor o);
      (split_and!; [done|by simpl; rewrite !length_insert|by eapply ranks_upd2]). }
  destruct (w_pc me) eqn:Hpc; try done; simplify_eq/=.
  - apply Hup. simpl. destruct (workExhausted s); simpl; lia.
  - unfold ownStart. simpl. destruct (resvCursor me <? unitAmount me); apply Hup; simpl; lia.
  - unfold ownFetch. case_bool_decide; apply Hup; simpl; lia.
  - unfold ownFill in Hs. destruct (buffers !! idx); simplify_eq/=. apply Hup. simpl. lia.
  - destruct (stealWorkerId me) as [v|]; [|simplify_eq/=; apply Hup; simpl; lia].
    destruct (resvs s !! v) as [o|]; simplify_eq/=. destruct (locked o); [done|]. destruct (hasMoreWork o); simplify_eq/=; apply Hup; simpl; lia.
  - pose proof (lo_take _ _ _ Hloc v Hpc) as E. destruct (lo_steal _ _ _ Hloc v E) as (Hne & o & Ho & _). rewrite Ho in Hs. simpl in Hs.
    destruct (locked o); [done|]. simplify_eq/=. apply Hst; simpl; (done || lia).
  - case_bool_decide as Hlt; simplify_eq/=.
    + destruct (resvs s !! victim s w i) as [o|]; simplify_eq/=. destruct (locked o); [done|]. simplify_eq/=. apply Hup. simpl.
      destruct (hasMoreWork o); simpl; lia.
    + split_and!; [done|apply length_insert|]. eapply ranks_upd; [done|]. simpl. rewrite Hpc. simpl. lia.
  - pose proof (lo_range _ _ _ Hloc i Hpc) as Hlt. destruct (lo_probe _ _ _ Hloc i (or_intror Hpc)) as (H1 & _).
    destruct (resvs s !! victim s w i) as [o|] eqn:Ev; simplify_eq/=. destruct (locked o); [done|]. simplify_eq/=.
    apply Hst; simpl; try done; try lia. apply victim_spec; [lia|by eapply lookup_lt_Some].
Qed.

Lemma step_measure s s' w : inv s → step w s = Some s' → (measure s' < measure s)%nat.
Proof.
  intros Hi Hs. destruct (resvs s !! w) as [me|] eqn:Hme; [|unfold BufferTask.step in Hs; by rewrite Hme in Hs].
  unfold measure. destruct (decide (w_pc me = Perform)) as [Hpc|Hnp].
  - pose proof Hs as Hs'. unfold BufferTask.step in Hs. rewrite Hme in Hs. simpl in Hs. rewrite Hpc in Hs.
    destruct (inv_perform s w me s' Hi Hme Hpc Hs) as [Hi' Hlen]. pose proof (ran_length s' Hi') as Hmax.
    unfold performWork in Hs. destruct (match stealWorkerId me with Some _ => _ | None => _ end); simplify_eq/=.
    rewrite length_insert. rewrite Hlen in *.
    pose proof (sum_insert (λ r, rank (length (resvs s)) (w_pc r)) (resvs s) w me (goto Idle me) Hme) as E. simpl in E. rewrite Hpc in E. simpl in E.
    unfold ranks. simpl. nia.
  - destruct (step_rank s s' w me Hi Hs Hme Hnp) as (-> & -> & Hlt). lia.
Qed.

Lemma steps_measure k s s' : inv s → steps buffers k s s' → (measure s' + k ≤ measure s)%nat.
Proof.
  intros Hi Hs. induction Hs as [|k s1 s2 s3 w Hs IH Hst]; [lia|]. specialize (IH Hi).
  pose proof (step_measure s2 s3 w (inv_steps _ _ _ Hi Hs) Hst). lia.
Qed.
End flexible.

(** ** Claims *)

(** The elements a unit passes to the callback. *)
Definition unit_elements (buffers : list Z) (x : nat * Z) : list (nat * Z) :=
  let '(begin, len) := unitRange (default 0 (buffers !! x.1)) x.2 in (λ i, (x.1, i)) <$> seqZ begin len.
Definition all_elements (buffers : list Z) : list (nat * Z) :=
  b ← seq 0 (length buffers); (λ i, (b, i)) <$> seqZ 0 (default 0 (buffers !! b)).

Lemma tile_prefix (m : Z) (k : nat) : 0 ≤ m → Z.of_nat k ≤ Z.max 1 (unitsOf m) →
  (u ← seqZ 0 (Z.of_nat k); let '(begin, len) := unitRange m u in seqZ begin len) = seqZ 0 (Z.min (splitSize * Z.of_nat k) m).
Proof.
  intros Hm. unfold unitsOf. induction k as [|k IH]; intros Hk.
  { rewrite seqZ_nil by lia. rewrite seqZ_nil by lia. done. }
  replace (Z.of_nat (S k)) with (Z.of_nat k + 1) by lia. rewrite seqZ_app by lia. rewrite bind_app, IH by lia. simpl.
  rewrite app_nil_r. replace (splitSize * (Z.of_nat k + 1)) with (splitSize * Z.of_nat k + splitSize) by lia.
  assert (splitSize * Z.of_nat k ≤ m) as Hle.
  { destruct k as [|k]; [lia|]. unfold splitSize in *. revert Hk. Z.to_euclidean_division_equations. lia. }
  rewrite Z.min_l by done. set (a := splitSize * Z.of_nat k) in *. set (e := Z.min (a + splitSize) m).
  pose proof (seqZ_app 0 a (e - a)) as E. rewrite Z.add_0_l in E. replace (a + (e - a)) with e in E by lia. rewrite E; [done|..];
    unfold e, a, splitSize in *; lia.
Qed.

Lemma unit_ranges_tile (m : Z) : 0 ≤ m →
  (u ← seqZ 0 (Z.max 1 (unitsOf m)); let '(begin, len) := unitRange m u in seqZ begin len) = seqZ 0 m.
Proof.
  intros Hm. pose proof (tile_prefix m (Z.to_nat (Z.max 1 (unitsOf m))) Hm) as E. rewrite Z2Nat.id in E by lia. rewrite E by lia. f_equal.
  apply Z.min_r. unfold unitsOf, splitSize. Z.to_euclidean_division_equations. lia.
Qed.

Lemma fmap_bind_list {A B C} (f : A → list B) (g : B → C) (l : list A) : g <$> (l ≫= f) = l ≫= λ x, g <$> f x.
Proof. induction l as [|x l IH]; [done|]. rewrite !bind_cons, fmap_app, IH. done. Qed.

Lemma bind_bind_list {A B C} (f : A → list B) (g : B → list C) (l : list A) : (l ≫= f) ≫= g = l ≫= λ x, f x ≫= g.
Proof. induction l as [|x l IH]; [done|]. rewrite !bind_cons, bind_app, IH. done. Qed.

Lemma bind_ext_list {A B} (f g : A → list B) (l : list A) : (∀ x, x ∈ l → f x = g x) → l ≫= f = l ≫= g.
Proof. induction l as [|x l IH]; intros H; [done|]. rewrite !bind_cons, H by set_solver. f_equal. apply IH. set_solver. Qed.

Lemma units_elements buffers : Forall (λ m, 0 ≤ m) buffers → all_units buffers ≫= unit_elements buffers = all_elements buffers.
Proof.
  intros HF. unfold all_units, all_elements. rewrite bind_bind_list. apply bind_ext_list. intros b Hb. apply elem_of_seq in Hb.
  destruct (lookup_lt_is_Some_2 buffers b) as [m Hm]; [lia|]. rewrite Hm. simpl.
  rewrite <- (unit_ranges_tile m) by (by eapply (Forall_lookup_1 (λ m, 0 ≤ m) buffers b)).
  rewrite fmap_bind_list. unfold units. rewrite Hm. rewrite list_fmap_bind. apply bind_ext_list. intros u _.
  unfold unit_elements. simpl. rewrite Hm. done.
Qed.

(** C11. Whatever order the workers run in, the callback of a parallel iteration
    over a list of buffers never sees a unit twice, and once every worker has
    been told that there is no work left it has seen every element of every
    buffer exactly once: stealing neither loses nor repeats one. *)
Theorem flexible_buffer_exactly_once (buffers : list Z) (numWorkers k : nat) (s : St) :
  Forall (λ m, 0 ≤ m) buffers → (1 ≤ numWorkers)%nat → steps buffers k (initSt numWorkers) s →
  NoDup (ran s) ∧ (∀ x, x ∈ ran s → x ∈ all_units buffers) ∧
  (all_finished s → ran s ≫= unit_elements buffers ≡ₚ all_elements buffers).
Proof.
  intros HF Hn Hs. pose proof (inv_steps buffers k _ s (inv_init buffers numWorkers) Hs) as Hi. split_and!; [apply Hi|by apply ran_units|].
  intros Hfin. rewrite <- units_elements by done. apply bind_Permutation, finished_all; [done|done|].
  assert (length (resvs s) = numWorkers) as Hlen; [|destruct (resvs s); simpl in *; [lia|done]].
  clear Hi Hfin. remember (initSt numWorkers) as s0 eqn:E. induction Hs as [s0|k s1 s2 s3 w Hs IH Hst]; [subst; apply length_replicate|].
  rewrite <- (IH E). subst s1. destruct (resvs s2 !! w) as [me|] eqn:Hme; [|unfold step in Hst; by rewrite Hme in Hst].
  pose proof (inv_steps buffers k _ s2 (inv_init buffers numWorkers) Hs) as Hi.
  destruct (decide (w_pc me = Perform)) as [Hpc|Hnp]; [|by eapply step_rank].
  unfold step in Hst. rewrite Hme in Hst. simpl in Hst. rewrite Hpc in Hst. unfold performWork in Hst.
  destruct (match stealWorkerId me with Some _ => _ | None => _ end); simplify_eq/=. apply length_insert.
Qed.

(** C39. The iteration cannot deadlock or run forever: while a worker has not
    finished some worker can go on, and every execution ends after at most
    (9 + 2 workers) * (units + workers) steps. *)
Theorem flexible_buffer_terminates (buffers : list Z) (numWorkers k : nat) (s : St) :
  steps buffers k (initSt numWorkers) s →
  (k ≤ (9 + 2 * numWorkers) * (length (all_units buffers) + numWorkers))%nat ∧
  (∀ w r, resvs s !! w = Some r → w_pc r ≠ Finished → ∃ v, is_Some (step buffers v s)).
Proof.
  intros Hs. pose proof (inv_init buffers numWorkers) as H0. split; [|intros w r; apply step_progress; by eapply inv_steps].
  pose proof (steps_measure buffers k _ s H0 Hs) as Hm. unfold measure at 2 in Hm. unfold ranks in Hm. simpl in Hm. rewrite length_replicate in Hm.
  rewrite sum_replicate in Hm. simpl in Hm. nia.
Qed.

Lemma run_schedule_steps buffers ws s : ∃ k, steps buffers k s (run_schedule buffers ws s).
Proof.
  assert (∀ ws k s0 s, steps buffers k s0 s → ∃ k', steps buffers k' s0 (run_schedule buffers ws s)) as H.
  { clear. intros ws. induction ws as [|w ws IH]; intros k s0 s Hs; simpl; [eauto|]. destruct (step buffers w s) as [s'|] eqn:E; simpl; [|eauto].
    eapply IH. by eapply steps_next. }
  eapply H, steps_refl.
Qed.

Lemma flexible_buffer_exactly_once_witness :
  let s := run_schedule [45000; 10] (concat (replicate 60 [0; 1]%nat)) (initSt 2) in
  NoDup (ran s) ∧ (∀ x, x ∈ ran s → x ∈ all_units [45000; 10]) ∧
  (all_finished s → ran s ≫= unit_elements [45000; 10] ≡ₚ all_elements [45000; 10]).
Proof.
  intros s. destruct (run_schedule_steps [45000; 10] (concat (replicate 60 [0; 1]%nat)) (initSt 2)) as [k Hs].
  apply (flexible_buffer_exactly_once [45000; 10] 2 k s); [repeat constructor; lia|lia|exact Hs].
Defined.

Lemma flexible_buffer_terminates_witness : ∃ k,
  let s := run_schedule [45000; 10] [0; 1; 0; 1; 0; 1]%nat (initSt 2) in
  (k ≤ (9 + 2 * 2) * (length (all_units [45000; 10]%Z) + 2))%nat ∧
  (∀ w r, resvs s !! w = Some r → w_pc r ≠ Finished → ∃ v, is_Some (step [45000; 10] v s)).
Proof.
  destruct (run_schedule_steps [45000; 10] [0; 1; 0; 1; 0; 1]%nat (initSt 2)) as [k Hs]. exists k.
  apply (flexible_buffer_terminates [45000; 10] 2 k _ Hs).
Defined.
