(* ===== verification/Scheduler.v ===== *)
(** * The scheduler

    Model of src/scheduler/Scheduler.cpp and of [Task] and [SimpleTask] of
    include/lingodb/scheduler.  Three views of it:

    - [Queue]: the linked list of active tasks, [enqueueTask],
      [dequeueTaskLocked] and [getTask], which run under [taskQueueMutex];
    - [Life]: one task from its first deployment to [onFinalize], with the
      counters of its [TaskWrapper], under every interleaving of the workers
      that hold it;
    - [Sleep]: how workers go to sleep and are woken, under every interleaving.

    and the fiber slots of a worker. *)

From S2P Require Import Prelude.
#[local] Open Scope Z_scope.

(** ** The queue of active tasks *)

Module Queue.

(** The members of [TaskWrapper] the queue uses; [hasWork] is
    [task->hasWork()]. *)
Record TaskWrapper := mkWrapper {
  hasWork : bool;
  coolingDown : bool;
  next : option nat;
  prev : option nat;
  yieldedFibers : Z;
  deployedOnWorkers : Z;
}.
Definition newWrapper (work : bool) : TaskWrapper := mkWrapper work false None None 0 0.

(** The wrappers by address. *)
Record Sched := mkSched { taskHead : option nat; taskTail : option nat; tasks : gmap nat TaskWrapper }.
Definition emptySched : Sched := mkSched None None ∅.

Definition set_next (x : option nat) (t : TaskWrapper) : TaskWrapper :=
  mkWrapper (hasWork t) (coolingDown t) x (prev t) (yieldedFibers t) (deployedOnWorkers t).
Definition set_prev (x : option nat) (t : TaskWrapper) : TaskWrapper :=
  mkWrapper (hasWork t) (coolingDown t) (next t) x (yieldedFibers t) (deployedOnWorkers t).
Definition set_cooling (t : TaskWrapper) : TaskWrapper :=
  mkWrapper (hasWork t) true (next t) (prev t) (yieldedFibers t) (deployedOnWorkers t).
Definition deploy (t : TaskWrapper) : TaskWrapper :=
  mkWrapper (hasWork t) (coolingDown t) (next t) (prev t) (yieldedFibers t) (deployedOnWorkers t + 1).
(** [p->...] with [f]. *)
Definition modify (s : Sched) (p : nat) (f : TaskWrapper → TaskWrapper) : Sched :=
  mkSched (taskHead s) (taskTail s) (alter f p (tasks s)).

(** The part of [enqueueTask] on the queue; waking the sleepers is in [Sleep]. *)
Definition enqueueTask (s : Sched) (p : nat) : Sched :=
  match taskTail s with
  | Some tail =>
      let s := modify s tail (set_next (Some p)) in
      let s := modify s p (set_prev (Some tail)) in
      mkSched (taskHead s) (Some p) (tasks s)
  | None => mkSched (Some p) (Some p) (tasks s)
  end.

Definition dequeueTaskLocked (s : Sched) (p : nat) : res Sched :=
  match tasks s !! p with
  | None => Fault BadAccess
  | Some t =>
      let s := match prev t with
               | Some q => modify s q (set_next (next t))
               | None => mkSched (next t) (taskTail s) (tasks s)
               end in
      let s := match next t with
               | Some q => modify s q (set_prev (prev t))
               | None => mkSched (taskHead s) (prev t) (tasks s)
               end in
      Ok (modify s p (λ t, set_next None (set_prev None t)))
  end.

(** The loop of [getTask]; [best] is [minYieldTask] with [minYieldCount]. *)
Fixpoint scan (fuel : nat) (s : Sched) (p : option nat) (minYieldCount : Z) (best : option nat) : res (Sched * option nat) :=
  match p with
  | None =>
      match best with
      | Some b => Ok (modify s b deploy, Some b)
      | None => Ok (s, None)
      end
  | Some a =>
      match fuel with
      | O => Fault OutOfFuel
      | S fuel =>
          match tasks s !! a with
          | None => Fault BadAccess
          | Some t =>
              if negb (hasWork t) then
                let* s' := dequeueTaskLocked s a in
                scan fuel (modify s' a set_cooling) (next t) minYieldCount best
              else if yieldedFibers t =? 0 then Ok (modify s a deploy, Some a)
              else if (yieldedFibers t <? 0) || (u64 (yieldedFibers t) <? minYieldCount)
              then scan fuel s (next t) (u64 (yieldedFibers t)) (Some a)
              else scan fuel s (next t) minYieldCount best
          end
      end
  end.
Definition getTask (s : Sched) : res (Sched * option nat) := scan (size (tasks s)) s (taskHead s) (2 ^ 64 - 1) None.
End Queue.

(** ** One task *)

Module Life.

(** Where a deployment of the task on a worker is.  A worker that got the task
    from [getTask] is a deployment; so is every fiber of the task that yielded,
    as its worker goes on without returning the task. *)
Inductive dpc :=
  | Held             (* the worker holds the task and is about to start a fiber *)
  | Running          (* [performWork], not yielded yet *)
  | Yielded          (* [performWork] waits for a child task *)
  | Resumed          (* [performWork] goes on after a yield *)
  | Returning        (* about to call [returnTask] *)
  | Counted (num : nat)   (* in [returnTask], after the [fetch_add] *)
  | Locking (num : nat)   (* [hasWork] was false *)
  | Comparing (num : nat) (* the task is cooling down *)
  | Done (num : nat).

Record TaskSt := mkTask {
  queued : bool;
  workExhausted : bool;
  coolingDown : bool;
  deployedOnWorkers : nat;
  returnedFromWorkers : nat;
  finalized : nat; (* how often [onFinalize] was called *)
  deployments : list dpc;
}.
Definition initTask : TaskSt := mkTask true false false 0 0 0 [].

Inductive action :=
  | GetTask                                    (* some worker's [getTask] comes to the task *)
  | Allocate (i : nat) (got exhausts : bool)   (* [startFiber] *)
  | CheckHeld (i : nat)                        (* [if (currTask && !currTask->task->hasWork())] *)
  | Exhaust (i : nat)                          (* [performWork] sets [workExhausted] *)
  | Finish (i : nat)                           (* the fiber's function returns *)
  | Yield (i : nat)
  | Resume (i : nat)
  | Return (i : nat).                          (* the next step of [returnTask] *)

Definition at_ (s : TaskSt) (i : nat) (p : dpc) : TaskSt :=
  mkTask (queued s) (workExhausted s) (coolingDown s) (deployedOnWorkers s) (returnedFromWorkers s) (finalized s) (<[i := p]> (deployments s)).
Definition set_exhausted (b : bool) (s : TaskSt) : TaskSt :=
  mkTask (queued s) (b || workExhausted s) (coolingDown s) (deployedOnWorkers s) (returnedFromWorkers s) (finalized s) (deployments s).
(** [dequeueTaskLocked] and [coolingDown = true]. *)
Definition cool (s : TaskSt) : TaskSt :=
  mkTask false (workExhausted s) true (deployedOnWorkers s) (returnedFromWorkers s) (finalized s) (deployments s).

Definition getTask (s : TaskSt) : option TaskSt :=
  if queued s then
    if workExhausted s then Some (cool s)
    else Some (mkTask (queued s) (workExhausted s) (coolingDown s) (S (deployedOnWorkers s)) (returnedFromWorkers s) (finalized s) (deployments s ++ [Held]))
  else None.

(** [returnTask], in steps; [None] is the failure of [assert(!task->finalized)]. *)
Definition returnTask (s : TaskSt) (i : nat) (p : dpc) : option TaskSt :=
  match p with
  | Returning =>
      let n := S (returnedFromWorkers s) in
      Some (mkTask (queued s) (workExhausted s) (coolingDown s) (deployedOnWorkers s) n (finalized s) (<[i := Counted n]> (deployments s)))
  | Counted n => Some (at_ s i (if workExhausted s then Locking n else Done n))
  | Locking n => Some (at_ (if coolingDown s then s else cool s) i (Comparing n))
  | Comparing n =>
      if bool_decide (deployedOnWorkers s = n) then
        if bool_decide (finalized s = 0%nat) then
          Some (mkTask (queued s) (workExhausted s) (coolingDown s) (deployedOnWorkers s) (returnedFromWorkers s) 1 (<[i := Done n]> (deployments s)))
        else None
      else Some (at_ s i (Done n))
  | _ => None
  end.

(** An implementation of [allocateWork] returns false only when it has set
    [workExhausted] or found it set. *)
Definition act (a : action) (s : TaskSt) : option TaskSt :=
  match a with
  | GetTask => getTask s
  | Allocate i got exhausts =>
      p ← deployments s !! i;
      match p with
      | Held =>
          let s := set_exhausted exhausts s in
          if got then Some (at_ s i Running)
          else if workExhausted s then Some (at_ s i Returning) else None
      | _ => None
      end
  | CheckHeld i =>
      p ← deployments s !! i;
      match p with
      | Held => if workExhausted s then Some (at_ s i Returning) else Some s
      | _ => None
      end
  | Exhaust i =>
      p ← deployments s !! i;
      match p with Running | Resumed => Some (set_exhausted true s) | _ => None end
  | Finish i =>
      p ← deployments s !! i;
      match p with
      | Running => Some (at_ s i (if workExhausted s then Returning else Held))
      | Resumed => Some (at_ s i Returning)
      | _ => None
      end
  | Yield i =>
      p ← deployments s !! i;
      match p with Running | Resumed => Some (at_ s i Yielded) | _ => None end
  | Resume i =>
      p ← deployments s !! i;
      match p with Yielded => Some (at_ s i Resumed) | _ => None end
  | Return i => p ← deployments s !! i; returnTask s i p
  end.

Inductive reach : TaskSt → Prop :=
  | reach_init : reach initTask
  | reach_act a s s' : reach s → act a s = Some s' → reach s'.

Fixpoint acts (l : list action) (s : TaskSt) : option TaskSt :=
  match l with
  | [] => Some s
  | a :: l => s' ← act a s; acts l s'
  end.
End Life.

(** ** Sleeping workers *)

Module Sleep.

Inductive wpc :=
  | Loop       (* about to look for a runnable fiber *)
  | Look       (* about to call [getTask] *)
  | Park       (* [getTask] returned nothing: about to call [putWorkerToSleep] *)
  | Sleeping   (* in [cv.wait] *)
  | Busy.      (* runs a fiber *)

#[global] Instance wpc_eq_dec : EqDecision wpc.
Proof. solve_decision. Defined.

Record Worker := mkWorker {
  w_pc : wpc;
  runnableFibers : nat;
  wakeups : nat; (* finalizers between [runnableFibers.push_back] and [wakeupWorker] *)
  isInIdleList : bool;
  allowedToSleep : bool;
  shouldSleep : bool;
}.
Definition newWorker : Worker := mkWorker Loop 0 0 false true true.

(** [queue] counts the active tasks with work. *)
Record Pool := mkPool { queue : nat; idleWorkers : list nat; workers : list Worker }.
Definition initPool (n : nat) : Pool := mkPool 0 [] (replicate n newWorker).

Definition goto (p : wpc) (w : Worker) : Worker :=
  mkWorker p (runnableFibers w) (wakeups w) (isInIdleList w) (allowedToSleep w) (shouldSleep w).
Definition set_worker (s : Pool) (i : nat) (w : Worker) : Pool := mkPool (queue s) (idleWorkers s) (<[i := w]> (workers s)).

(** [putWorkerToSleep] up to [cv.wait], under both mutexes. *)
Definition putWorkerToSleep (s : Pool) (i : nat) (w : Worker) : Pool :=
  if allowedToSleep w then
    let idle := if isInIdleList w then idleWorkers s else i :: idleWorkers s in
    mkPool (queue s) idle (<[i := mkWorker Sleeping (runnableFibers w) (wakeups w) true (allowedToSleep w) true]> (workers s))
  else set_worker s i (mkWorker Loop (runnableFibers w) (wakeups w) (isInIdleList w) true (shouldSleep w)).

(** One worker woken by [enqueueTask]. *)
Definition wake_idle (w : Worker) : Worker :=
  mkWorker (w_pc w) (runnableFibers w) (wakeups w) false (allowedToSleep w) false.
Definition enqueueTask (s : Pool) : Pool :=
  mkPool (S (queue s)) [] (foldr (alter wake_idle) (workers s) (idleWorkers s)).

Definition wakeupWorker (w : Worker) : Worker :=
  mkWorker (w_pc w) (runnableFibers w) (pred (wakeups w)) (isInIdleList w) false false.

Inductive action :=
  | Step (i : nat)          (* worker [i] goes on *)
  | Enqueue                 (* someone calls [enqueueTask] *)
  | Push (i : nat)          (* [onFinalize] makes a fiber of worker [i] runnable *)
  | Wakeup (i : nat).       (* [onFinalize] calls [wakeupWorker] *)

Definition act (a : action) (s : Pool) : option Pool :=
  match a with
  | Enqueue => Some (enqueueTask s)
  | Step i =>
      w ← workers s !! i;
      match w_pc w with
      | Loop =>
          match runnableFibers w with
          | S n => Some (set_worker s i (mkWorker Busy n (wakeups w) (isInIdleList w) (allowedToSleep w) (shouldSleep w)))
          | O => Some (set_worker s i (goto Look w))
          end
      | Look =>
          match queue s with
          | S n => Some (mkPool n (idleWorkers s) (<[i := goto Busy w]> (workers s)))
          | O => Some (set_worker s i (goto Park w))
          end
      | Park => Some (putWorkerToSleep s i w)
      | Sleeping => if shouldSleep w then None else Some (set_worker s i (goto Loop w))
      | Busy => Some (set_worker s i (goto Loop w))
      end
  | Push i =>
      w ← workers s !! i;
      Some (set_worker s i (mkWorker (w_pc w) (S (runnableFibers w)) (S (wakeups w)) (isInIdleList w) (allowedToSleep w) (shouldSleep w)))
  | Wakeup i =>
      w ← workers s !! i;
      match wakeups w with
      | O => None
      | S _ => Some (set_worker s i (wakeupWorker w))
      end
  end.

Inductive reach (n : nat) : Pool → Prop :=
  | reach_init : reach n (initPool n)
  | reach_act a s s' : reach n s → act a s = Some s' → reach n s'.

Fixpoint acts (l : list action) (s : Pool) : option Pool :=
  match l with
  | [] => Some s
  | a :: l => s' ← act a s; acts l s'
  end.
End Sleep.

(** ** The fiber slots of a worker *)

Module Fibers.
Definition initiallyAllocated : Z := 2.
Definition maxFibersPerWorker : Z := 64.
Definition stackSize : Z := 2 ^ 20.
Definition workerMainStackSize : Z := 2 * 1024 * 1024.

(** [slotStackBase] with the guard page size of the system. *)
Definition slotStackBase (guard region k : Z) : Z := region + k * (stackSize + guard) + guard.

Record FiberAllocator := mkFibers { numAllocated : Z; available : list Z }.
(** Fibers are the addresses of their stacks. *)
Definition newFiberAllocator (guard region : Z) : FiberAllocator :=
  mkFibers initiallyAllocated (slotStackBase guard region <$> seqZ 0 initiallyAllocated).
Definition canAllocate (f : FiberAllocator) : bool :=
  (numAllocated f <? maxFibersPerWorker) || negb (bool_decide (available f = [])).
Definition allocate (guard region : Z) (f : FiberAllocator) : option (FiberAllocator * Z) :=
  match last (available f) with
  | None =>
      if numAllocated f <? maxFibersPerWorker
      then Some (mkFibers (numAllocated f + 1) [], slotStackBase guard region (numAllocated f))
      else None
  | Some x => Some (mkFibers (numAllocated f) (removelast (available f)), x)
  end.
Definition deallocate (f : FiberAllocator) (x : Z) : FiberAllocator := mkFibers (numAllocated f) (available f ++ [x]).
(** The size of the region [Scheduler::start] maps for a worker. *)
Definition totalSize (guard : Z) : Z := maxFibersPerWorker * (stackSize + guard) + guard + workerMainStackSize.
End Fibers.
