(* ===== verification/SchedulerProps.v ===== *)
(** * The scheduler finalizes a task once and loses no fiber

    Theorems about Scheduler.v, for every interleaving of the workers. *)

From S2P Require Import Prelude Scheduler.
#[local] Open Scope Z_scope.

(** ** One task *)

Section life.
Import Life.

(** The number a deployment got in [returnTask]. *)
Definition num (p : dpc) : option nat :=
  match p with Counted n | Locking n | Comparing n | Done n => Some n | _ => None end.
Definition counted (p : dpc) : nat := match num p with Some _ => 1 | None => 0 end.
(** In [returnTask], with the comparison still to come. *)
Definition undecided (p : dpc) (n : nat) : Prop := p = Counted n ∨ p = Locking n ∨ p = Comparing n.

Record inv (s : TaskSt) : Prop := {
  i_deployed : deployedOnWorkers s = length (deployments s);
  i_returned : returnedFromWorkers s = sum_list_with counted (deployments s);
  i_range : ∀ i p n, deployments s !! i = Some p → num p = Some n → (1 ≤ n ≤ returnedFromWorkers s)%nat;
  i_distinct : ∀ i j p q n, deployments s !! i = Some p → deployments s !! j = Some q → num p = Some n → num q = Some n → i = j;
  i_cooling : coolingDown s = negb (queued s);
  i_cool : coolingDown s = true → workExhausted s = true;
  i_locking : ∀ i n, deployments s !! i = Some (Locking n) ∨ deployments s !! i = Some (Comparing n) → workExhausted s = true;
  i_comparing : ∀ i n, deployments s !! i = Some (Comparing n) → coolingDown s = true;
  i_once : (finalized s ≤ 1)%nat;
  i_final : finalized s = 1%nat → workExhausted s = true ∧ coolingDown s = true ∧ returnedFromWorkers s = deployedOnWorkers s ∧
    ∃ i, deployments s !! i = Some (Done (deployedOnWorkers s));
  i_last : workExhausted s = true → returnedFromWorkers s = deployedOnWorkers s → (1 ≤ deployedOnWorkers s)%nat ∧
    (finalized s = 1%nat ∨ ∃ i p, deployments s !! i = Some p ∧ undecided p (deployedOnWorkers s));
}.

Lemma sum_counted_le (l : list dpc) : (sum_list_with counted l ≤ length l)%nat.
Proof. induction l as [|p l IH]; [done|]. simpl. unfold counted at 1. destruct (num p); lia. Qed.

Lemma sum_counted_lt (l : list dpc) i p : l !! i = Some p → num p = None → (sum_list_with counted l < length l)%nat.
Proof.
  intros Hi Hp. pose proof (sum_insert counted l i p (Done 0) Hi) as E. pose proof (sum_counted_le (<[i := Done 0]> l)) as Hle.
  rewrite length_insert in Hle. unfold counted at 2 4 in E. rewrite Hp in E. simpl in E. lia.
Qed.

Lemma life_inv_init : inv initTask.
Proof. split; simpl; try done; try lia; intros *; rewrite ?lookup_nil; naive_solver. Qed.

(** A deployment that is not in [returnTask] moves to another such place;
    [workExhausted] may become true. *)
Lemma life_inv_move s s' i p p' :
  inv s → deployments s !! i = Some p → num p = None → num p' = None → deployments s' = <[i := p']> (deployments s) →
  queued s' = queued s → coolingDown s' = coolingDown s → deployedOnWorkers s' = deployedOnWorkers s →
  returnedFromWorkers s' = returnedFromWorkers s → finalized s' = finalized s →
  (workExhausted s = true → workExhausted s' = true) → inv s'.
Proof.
  intros [] Hp Hn Hn' Ed Eq Ec Edep Eret Ef Hex.
  pose proof (sum_insert counted _ i p p' Hp) as Hsum. unfold counted at 2 4 in Hsum. rewrite Hn, Hn' in Hsum.
  pose proof (sum_counted_lt _ _ _ Hp Hn) as Hlt.
  assert (∀ j q n, deployments s' !! j = Some q → num q = Some n → deployments s !! j = Some q) as Hj.
  { intros j q n. rewrite Ed. destruct (decide (i = j)) as [->|Hne]; [|by rewrite list_lookup_insert_ne].
    rewrite list_lookup_insert_eq by (by eapply lookup_lt_Some). naive_solver. }
  split; rewrite ?Eq, ?Ec, ?Edep, ?Eret, ?Ef; try done.
  - by rewrite Ed, length_insert.
  - rewrite Ed. lia.
  - intros j q n Hq En. eapply i_range0; [|done]. by eapply Hj.
  - intros j k q r n Hq Hr En En'. eapply i_distinct0; [by eapply Hj|by eapply Hj|done|done].
  - naive_solver.
  - intros j n [Hq|Hq]; apply Hex; eapply (i_locking0 j n); [left|right]; by eapply Hj.
  - intros j n Hq. eapply i_comparing0. by eapply Hj.
  - intros H. destruct (i_final0 H) as (? & ? & ? & _). lia.
  - lia.
Qed.

(** A step inside [returnTask] that keeps the number. *)
Lemma inv_decide s s' i p p' n :
  inv s → deployments s !! i = Some p → num p = Some n → num p' = Some n → deployments s' = <[i := p']> (deployments s) →
  queued s' = negb (coolingDown s') → (coolingDown s = true → coolingDown s' = true) → (coolingDown s' = true → workExhausted s = true) →
  deployedOnWorkers s' = deployedOnWorkers s → returnedFromWorkers s' = returnedFromWorkers s → workExhausted s' = workExhausted s →
  ((∃ m, p' = Locking m ∨ p' = Comparing m) → workExhausted s = true) → ((∃ m, p' = Comparing m) → coolingDown s' = true) →
  (finalized s' = finalized s ∧ (∀ m, p ≠ Done m) ∧ (workExhausted s = true → deployedOnWorkers s = n → undecided p' n) ∨
   finalized s = 0%nat ∧ finalized s' = 1%nat ∧ workExhausted s = true ∧ coolingDown s' = true ∧ n = deployedOnWorkers s ∧ p' = Done n) → inv s'.
Proof.
  intros [] Hp Hn Hn' Ed Eq Hc1 Hc2 Edep Eret Eex Hl Hcmp Hfin.
  pose proof (sum_insert counted _ i p p' Hp) as Hsum. unfold counted at 2 4 in Hsum. rewrite Hn, Hn' in Hsum.
  pose proof (i_range0 i p n Hp Hn) as Hrange. pose proof (sum_counted_le (deployments s)) as Hle.
  assert (∀ j q, deployments s' !! j = Some q ↔ (j ≠ i ∧ deployments s !! j = Some q) ∨ (j = i ∧ q = p')) as Hj.
  { intros j q. rewrite Ed. by apply insert_lookup_iff with p. }
  assert (∀ j q m, deployments s' !! j = Some q → num q = Some m → ∃ q', deployments s !! j = Some q' ∧ num q' = Some m) as Hback.
  { intros j q m [[? ?]|[-> ->]]%Hj Hm; [by eauto|]. exists p. split; [done|congruence]. }
  split; rewrite ?Edep, ?Eret, ?Eex; try done.
  - by rewrite Ed, length_insert.
  - rewrite Ed. lia.
  - intros j q m Hq Em. destruct (Hback j q m Hq Em) as (q' & ? & ?). by eapply i_range0.
  - intros j k q r m Hq Hr Em Em'. destruct (Hback j q m Hq Em) as (? & ? & ?), (Hback k r m Hr Em') as (? & ? & ?). by eapply i_distinct0.
  - rewrite Eq. by destruct (coolingDown s').
  - intros j m [[[? ?]|[-> E]]%Hj|[[? ?]|[-> E]]%Hj]; [by eapply i_locking0; left|apply Hl; naive_solver|by eapply i_locking0; right|apply Hl; naive_solver].
  - intros j m [[? ?]|[-> E]]%Hj; [by eapply Hc1, i_comparing0|apply Hcmp; naive_solver].
  - destruct Hfin as [(-> & _)|(_ & -> & _)]; [done|lia].
  - destruct Hfin as [(-> & Hnd & _)|(_ & -> & Hex & Hc & -> & ->)].
    + intros H. destruct (i_final0 H) as (? & ? & ? & j & Hdj). split_and!; try done; [by apply Hc1|]. exists j. apply Hj. left. split; [|done].
      intros ->. rewrite Hp in Hdj. injection Hdj as ->. by eapply Hnd.
    + intros _. split_and!; try done; [lia|]. exists i. apply Hj. by right.
  - intros Hex Hr. destruct (i_last0 Hex Hr) as (? & Hor). split; [done|].
    destruct Hfin as [(-> & _ & Hund)|(_ & -> & _)]; [|by left].
    destruct Hor as [?|(j & q & Hq & Hu)]; [by left|]. right. destruct (decide (j = i)) as [->|Hne].
    + exists i, p'. split; [apply Hj; by right|]. rewrite Hp in Hq. injection Hq as <-.
      assert (n = deployedOnWorkers s) as -> by (destruct Hu as [-> |[-> | ->]]; simpl in Hn; congruence). by apply Hund.
    + exists j, q. split; [apply Hj; by left|done].
Qed.

Lemma inv_get s s' : inv s → getTask s = Some s' → inv s'.
Proof.
  intros [] Hg. unfold getTask in Hg. destruct (queued s) eqn:Eq; [|done]. destruct (workExhausted s) eqn:Ex; injection Hg as <-.
  - split; simpl; try done; naive_solver.
  - assert (∀ i p, (deployments s ++ [Held]) !! i = Some p → num p ≠ None → deployments s !! i = Some p) as Hi.
    { intros i p Hp Hn. apply lookup_app_Some in Hp as [?|[_ Hp]]; [done|]. apply list_lookup_singleton_Some in Hp as [_ <-]. done. }
    pose proof (sum_counted_le (deployments s)) as Hle.
    split; simpl; rewrite ?length_app, ?sum_list_with_app; simpl; try done; try lia.
    + intros i p n Hp Hn. eapply i_range0; [apply Hi; [done|congruence]|done].
    + intros i j p q n Hp Hq Hn Hn'. eapply i_distinct0; [apply Hi; [done|congruence]|apply Hi; [done|congruence]|done|done].
    + intros i n [H|H]; exfalso; enough (false = true) by done; eapply (i_locking0 i n); [left|right]; by apply Hi.
    + intros i n H. eapply i_comparing0. by apply Hi.
Qed.

Lemma inv_return s s' i p : inv s → deployments s !! i = Some p → returnTask s i p = Some s' → inv s'.
Proof.
  intros Hi Hp Hr. destruct p as [| | | | |n|n|n|n]; try done; simpl in Hr.
  - (* the [fetch_add] *)
    injection Hr as <-. destruct Hi. pose proof (sum_counted_lt _ _ _ Hp eq_refl) as Hlt.
    pose proof (sum_insert counted _ i Returning (Counted (S (returnedFromWorkers s))) Hp) as Hsum. unfold counted at 2 4 in Hsum. simpl in Hsum.
    assert (∀ j q, <[i := Counted (S (returnedFromWorkers s))]> (deployments s) !! j = Some q →
      (j ≠ i ∧ deployments s !! j = Some q) ∨ (j = i ∧ q = Counted (S (returnedFromWorkers s)))) as Hj.
    { intros j q. by apply insert_lookup_iff with Returning. }
    split; simpl; rewrite ?length_insert; try done; try lia.
    + intros j q n [[? Hq]|[-> ->]]%Hj Hn; [pose proof (i_range0 j q n Hq Hn); lia|]. simpl in Hn. simplify_eq. lia.
    + intros j k q r n [[Hne Hq]|[-> ->]]%Hj [[Hne' Hr]|[-> ->]]%Hj Hn Hn'; simpl in *; simplify_eq; try done; [by eapply i_distinct0| |].
      * pose proof (i_range0 j q _ Hq Hn). lia.
      * pose proof (i_range0 k r _ Hr Hn'). lia.
    + intros j n [[[? ?]|[_ [=]]]%Hj|[[? ?]|[_ [=]]]%Hj]; eapply (i_locking0 j n); [by left|by right].
    + intros j n [[? ?]|[_ [=]]]%Hj. by eapply i_comparing0.
    + intros Hex Hret. split; [lia|]. right. exists i, (Counted (S (returnedFromWorkers s))).
      rewrite list_lookup_insert_eq by (by eapply lookup_lt_Some). split; [done|]. left. by f_equal.
  - injection Hr as <-. eapply (inv_decide s _ i (Counted n) _ n); try done; simpl.
    + by destruct (workExhausted s).
    + by rewrite (i_cooling _ Hi), negb_involutive.
    + apply Hi.
    + intros [m [H|H]]; by destruct (workExhausted s).
    + intros [m H]; by destruct (workExhausted s).
    + left. split_and!; [done|done|]. intros -> _. right. by left.
  - injection Hr as <-. assert (workExhausted s = true) as Hex by (eapply (i_locking _ Hi i n); by left).
    eapply (inv_decide s _ i (Locking n) _ n); try done; simpl; destruct (coolingDown s) eqn:Ec; try done; simpl.
    + done.
    + done.
    + by rewrite (i_cooling _ Hi), negb_involutive.
    + left. split_and!; [done|done|]. intros _ _. by right; right.
    + left. split_and!; [done|done|]. intros _ _. by right; right.
  - assert (workExhausted s = true) as Hex by (eapply (i_locking _ Hi i n); by right).
    pose proof (i_comparing _ Hi i n Hp) as Hc. pose proof (i_cooling _ Hi) as Ecool.
    case_bool_decide as En; [case_bool_decide as Ef; [|done]|]; injection Hr as <-;
      eapply (inv_decide s _ i (Comparing n) _ n); try done; simpl; try (by rewrite Ecool, negb_involutive); try naive_solver.
Qed.

Lemma inv_act a s s' : inv s → act a s = Some s' → inv s'.
Proof.
  intros Hi Ha. destruct a as [|i got ex|i|i|i|i|i|i]; simpl in Ha; [by eapply inv_get|..];
    (destruct (deployments s !! i) as [p|] eqn:Hp; [|done]); simpl in Ha; [| | | | | |by eapply inv_return].
  - destruct p; try done. destruct got; [|destruct (ex || workExhausted s) eqn:Ex; [|done]]; injection Ha as <-.
    + eapply (life_inv_move s _ i Held Running); simpl; try done. intros ->. by rewrite orb_true_r.
    + by eapply (life_inv_move s _ i Held Returning).
  - destruct p; try done. destruct (workExhausted s) eqn:Ex; injection Ha as <-; [|done]. by eapply (life_inv_move s _ i Held Returning).
  - destruct p; try done; injection Ha as <-.
    + eapply (life_inv_move s _ i Running Running); try done. simpl. by rewrite list_insert_id.
    + eapply (life_inv_move s _ i Resumed Resumed); try done. simpl. by rewrite list_insert_id.
  - destruct p; try done; injection Ha as <-; [|by eapply (life_inv_move s _ i Resumed Returning)].
    eapply (life_inv_move s _ i Running (if workExhausted s then Returning else Held)); try done. by destruct (workExhausted s).
  - destruct p; try done; injection Ha as <-; [by eapply (life_inv_move s _ i Running Yielded)|by eapply (life_inv_move s _ i Resumed Yielded)].
  - destruct p; try done. injection Ha as <-. by eapply (life_inv_move s _ i Yielded Resumed).
Qed.

Lemma reach_inv s : reach s → inv s.
Proof. induction 1; [apply life_inv_init|by eapply inv_act]. Qed.

Lemma acts_reach l s s' : reach s → acts l s = Some s' → reach s'.
Proof.
  revert s. induction l as [|a l IH]; intros s Hr Ha; simpl in Ha; [by simplify_eq|].
  destruct (act a s) as [s1|] eqn:E; [|done]. eapply IH; [|done]. by eapply reach_act.
Qed.

Lemma life_run l : reach (default initTask (acts l initTask)).
Proof. destruct (acts l initTask) as [s|] eqn:E; [|apply reach_init]. eapply acts_reach; [apply reach_init|exact E]. Qed.

(** The actions after which a deployment, or the queue, is nearer to the end. *)
Definition progress (a : action) : bool := match a with Exhaust _ | Yield _ => false | _ => true end.
Definition yields (a : action) : bool := match a with Yield _ => true | _ => false end.
Definition done_dpc (p : dpc) : Prop := ∃ n, p = Done n.
(** The steps a deployment has left when it does not yield. *)
Definition left_dpc (p : dpc) : nat :=
  match p with
  | Done _ => 0 | Comparing _ => 1 | Locking _ => 2 | Counted _ => 3 | Returning => 4
  | Running | Resumed => 5 | Held | Yielded => 6
  end.
Definition work_left (s : TaskSt) : nat := (if queued s then 1 else 0) + sum_list_with left_dpc (deployments s).
Definition countb (f : action → bool) (l : list action) : nat := length (List.filter f l).

#[local] Instance done_dpc_dec p : Decision (done_dpc p).
Proof. destruct p; first [left; by eexists|right; by intros [? [=]]]. Defined.

Lemma all_done_finalized s : reach s → workExhausted s = true → Forall done_dpc (deployments s) → finalized s = 1%nat.
Proof.
  intros Hr Hex Hdone. pose proof (reach_inv s Hr) as Hi.
  assert (returnedFromWorkers s = deployedOnWorkers s) as Hret.
  { rewrite (i_returned _ Hi), (i_deployed _ Hi). clear -Hdone. induction Hdone as [|p l [n ->] _ IH]; [done|]. simpl. by rewrite IH. }
  destruct (i_last _ Hi Hex Hret) as (_ & [?|(i & p & Hp & Hu)]); [done|].
  destruct (proj1 (Forall_lookup _ _) Hdone i p Hp) as [n ->]. by destruct Hu as [?|[?|?]].
Qed.

(** After the work is used up a step that is neither a yield nor a store of
    [workExhausted] brings the task nearer to its end. *)
Lemma act_left a s s' : workExhausted s = true → act a s = Some s' →
  workExhausted s' = true ∧ (work_left s' + (if progress a then 1 else 0) ≤ work_left s + (if yields a then 1 else 0))%nat.
Proof.
  intros Hex Ha.
  assert (∀ i p q, deployments s !! i = Some p →
    (sum_list_with left_dpc (<[i := q]> (deployments s)) + left_dpc p = sum_list_with left_dpc (deployments s) + left_dpc q)%nat) as Hsum.
  { intros i p q Hp. pose proof (sum_insert left_dpc _ i p q Hp). lia. }
  destruct a as [|i got ex|i|i|i|i|i|i]; simpl in Ha.
  1: { unfold getTask in Ha. rewrite Hex in Ha. destruct (queued s) eqn:Eq; [|done]. injection Ha as <-.
       unfold work_left; simpl. rewrite Eq. split; [done|lia]. }
  all: destruct (deployments s !! i) as [p|] eqn:Hp; [|done]; simpl in Ha.
  all: pose proof (λ q, Hsum i p q Hp) as Hq; clear Hsum; unfold returnTask in Ha.
  all: rewrite ?Hex, ?orb_true_r in Ha; destruct p; try done; repeat (case_match; try done); simplify_eq;
    unfold work_left; simpl; rewrite ?Hex, ?orb_true_r; (split; [done|]);
    try match goal with |- context [<[?j := ?q]> _] => specialize (Hq q); simpl in Hq end;
    try destruct (queued s); lia.
Qed.

Lemma act_bound l s s' : workExhausted s = true → acts l s = Some s' →
  workExhausted s' = true ∧ (work_left s' + countb progress l ≤ work_left s + countb yields l)%nat.
Proof.
  revert s. induction l as [|a l IH]; intros s Hex Ha; simpl in Ha; [simplify_eq; unfold countb; simpl; split; [done|lia]|].
  destruct (act a s) as [s1|] eqn:E; [|done]. destruct (act_left a s s1 Hex E) as [Hex1 Hle].
  destruct (IH s1 Hex1 Ha) as [? ?]. split; [done|]. unfold countb in *. simpl. destruct (progress a), (yields a); simpl; lia.
Qed.

(** Until the task is finalized some deployment can go on. *)
Lemma act_enabled s : reach s → workExhausted s = true → finalized s ≠ 1%nat → ∃ a, progress a = true ∧ is_Some (act a s).
Proof.
  intros Hr Hex Hf. destruct (decide (Forall done_dpc (deployments s))) as [Hd|Hd].
  { destruct Hf. by apply all_done_finalized. }
  apply not_Forall_Exists, Exists_exists in Hd as (p & [i Hp]%list_elem_of_lookup & Hn); [|apply _].
  pose proof (reach_inv s Hr) as Hi.
  destruct p as [| | | | |n|n|n|n]; [exists (CheckHeld i)|exists (Finish i)|exists (Resume i)|exists (Finish i)|exists (Return i)..];
    (split; [done|]); simpl; rewrite Hp; simpl; rewrite ?Hex; try done.
  - case_bool_decide as En; [|done]. case_bool_decide as Ef; [done|]. exfalso. pose proof (i_once _ Hi). lia.
  - destruct Hn. by exists n.
Qed.

Lemma acts_app l l' s s1 : acts l s = Some s1 → acts (l ++ l') s = acts l' s1.
Proof. revert s. induction l as [|a l IH]; intros s E; simpl in *; [by simplify_eq|]. destruct (act a s); [|done]. simpl in *. by apply IH. Qed.

(** A task with work can be asked for it by one more worker. *)
Lemma act_exhaust s : reach s → ∃ l s', acts l s = Some s' ∧ workExhausted s' = true.
Proof.
  intros Hr. destruct (workExhausted s) eqn:Ex; [by exists [], s|]. pose proof (reach_inv s Hr) as Hi.
  assert (queued s = true) as Hq.
  { pose proof (i_cooling _ Hi) as E. destruct (queued s); [done|]. by rewrite (i_cool _ Hi E) in Ex. }
  eexists [GetTask; Allocate (length (deployments s)) true true], _. simpl. unfold getTask. rewrite Hq, Ex. simpl.
  rewrite list_lookup_middle by done. simpl. done.
Qed.

Lemma act_to_end n s : (work_left s ≤ n)%nat → reach s → workExhausted s = true → ∃ l s', acts l s = Some s' ∧ finalized s' = 1%nat.
Proof.
  revert s. induction n as [|n IH]; intros s Hn Hr Hex;
    (destruct (decide (finalized s = 1%nat)) as [?|Hf]; [by exists [], s|]);
    destruct (act_enabled s Hr Hex Hf) as (a & Hp & [s1 E]); destruct (act_left a s s1 Hex E) as [Hex1 Hle];
    rewrite Hp in Hle; destruct (yields a) eqn:Ey; try (by destruct a); [lia|].
  destruct (IH s1) as (l & s' & ? & ?); [lia|by eapply reach_act|done|]. exists (a :: l), s'. simpl. by rewrite E.
Qed.
End life.

(** C24. [onFinalize] is called at most once, and when it is called the task has no
    work left, is out of the queue, and every deployment of it has been
    returned: no fiber of the task is running or waiting. *)
Theorem task_finalized_once s : Life.reach s →
  (Life.finalized s ≤ 1)%nat ∧
  (Life.finalized s = 1%nat → Life.workExhausted s = true ∧ Life.queued s = false ∧
    ∀ i p, Life.deployments s !! i = Some p → is_Some (num p)).
Proof.
  intros Hr. pose proof (reach_inv s Hr) as Hi. split; [apply Hi|]. intros H.
  destruct (i_final _ Hi H) as (? & Hc & Hret & _). split_and!; [done| |].
  - pose proof (i_cooling _ Hi) as E. rewrite Hc in E. by destruct (Life.queued s).
  - intros i p Hp. destruct (num p) eqn:En; [done|]. pose proof (sum_counted_lt _ _ _ Hp En).
    rewrite <- (i_returned _ Hi), <- (i_deployed _ Hi) in *. lia.
Qed.

(** [assert(!task->finalized)] never fails. *)
Theorem task_return_never_stuck s i n : Life.reach s → Life.deployments s !! i = Some (Life.Comparing n) →
  is_Some (Life.act (Life.Return i) s).
Proof.
  intros Hr Hp. pose proof (reach_inv s Hr) as Hi. simpl. rewrite Hp. simpl.
  case_bool_decide as En; [|done]. case_bool_decide as Ef; [done|]. exfalso.
  pose proof (i_once _ Hi). destruct (i_final _ Hi ltac:(lia)) as (_ & _ & _ & j & Hj).
  assert (i = j) as ->; [|by rewrite Hp in Hj]. eapply (i_distinct _ Hi); [exact Hp|exact Hj|done|by rewrite <- En].
Qed.

(** C12. From every reachable state of a task some schedule of its workers ends
    with [onFinalize] called.  Once [workExhausted] is set no schedule can avoid
    it: until [onFinalize] is called some worker can take a step that is neither
    a yield nor a store of [workExhausted], every schedule takes at most
    [work_left] such steps and one more for each time a fiber yields, and when
    every deployment is through [returnTask], [onFinalize] has been called. *)
Theorem task_finalized_eventually s : Life.reach s →
  (∃ l s', Life.acts l s = Some s' ∧ Life.finalized s' = 1%nat) ∧
  (Life.workExhausted s = true →
    (Life.finalized s ≠ 1%nat → ∃ a, progress a = true ∧ is_Some (Life.act a s)) ∧
    (∀ l s', Life.acts l s = Some s' → (countb progress l ≤ work_left s + countb yields l)%nat) ∧
    ((∀ i p, Life.deployments s !! i = Some p → ∃ n, p = Life.Done n) → Life.finalized s = 1%nat)).
Proof.
  intros Hr. split.
  - destruct (act_exhaust s Hr) as (l & s1 & E & Hex). pose proof (acts_reach l s s1 Hr E) as Hr1.
    destruct (act_to_end _ s1 (Nat.le_refl _) Hr1 Hex) as (l' & s' & E' & ?). exists (l ++ l'), s'.
    by rewrite (acts_app l l' s s1 E).
  - intros Hex. split_and!.
    + by apply act_enabled.
    + intros l s' Ha. destruct (act_bound l s s' Hex Ha). lia.
    + intros Hd. by apply all_done_finalized, Forall_lookup.
Qed.

Lemma task_finalized_once_witness :
  let s := default Life.initTask (Life.acts [Life.GetTask; Life.Allocate 0 true true; Life.GetTask; Life.Yield 0; Life.Resume 0;
    Life.Finish 0; Life.Return 0; Life.Return 0; Life.Return 0; Life.Return 0] Life.initTask) in
  Life.finalized s = 1%nat ∧ Life.workExhausted s = true ∧ Life.queued s = false ∧
    ∀ i p, Life.deployments s !! i = Some p → is_Some (num p).
Proof.
  intros s. split; [reflexivity|]. apply (task_finalized_once s); [|reflexivity].
  apply life_run.
Defined.

Lemma task_return_never_stuck_witness :
  let s := default Life.initTask (Life.acts [Life.GetTask; Life.Allocate 0 true true; Life.Finish 0; Life.Return 0; Life.Return 0;
    Life.Return 0] Life.initTask) in
  is_Some (Life.act (Life.Return 0) s).
Proof.
  intros s. apply (task_return_never_stuck s 0 1); [|reflexivity]. apply life_run.
Defined.

(** A state in which one fiber waits and another worker holds the task. *)
Lemma task_finalized_eventually_witness :
  let s := default Life.initTask (Life.acts [Life.GetTask; Life.Allocate 0 true false; Life.Yield 0; Life.GetTask; Life.Allocate 1 true true]
    Life.initTask) in
  Life.finalized s = 0%nat ∧ work_left s = 12%nat ∧ ∃ l s', Life.acts l s = Some s' ∧ Life.finalized s' = 1%nat.
Proof.
  intros s. split; [reflexivity|]. split; [reflexivity|]. apply (task_finalized_eventually s). apply life_run.
Defined.

(** ** Sleeping workers *)

Section sleep.
Import Sleep.

(** A worker with a runnable fiber that it has been told about will see it. *)
Definition attends (w : Worker) : Prop :=
  runnableFibers w ≠ 0%nat → wakeups w = 0%nat →
  match w_pc w with
  | Loop | Busy => True
  | Look | Park => allowedToSleep w = false
  | Sleeping => shouldSleep w = false
  end.

(** A sleeping worker is in the list of idle workers or has been woken. *)
Record idle_ok (s : Pool) (i : nat) (w : Worker) : Prop := {
  io_sleep : w_pc w = Sleeping → shouldSleep w = true → i ∈ idleWorkers s;
  io_list : isInIdleList w = true ↔ i ∈ idleWorkers s;
}.

Record pool_inv (s : Pool) : Prop := {
  pi_attends : ∀ i w, workers s !! i = Some w → attends w;
  pi_idle : ∀ i w, workers s !! i = Some w → idle_ok s i w;
}.

Lemma woken_lookup (idle : list nat) (l : list Worker) (i : nat) : ∃ k, foldr (alter wake_idle) l idle !! i = Nat.iter k wake_idle <$> l !! i ∧ (i ∈ idle → k ≠ 0%nat).
Proof.
  induction idle as [|j idle (k & E & Hk)]; simpl.
  - exists 0%nat. split; [by destruct (l !! i)|]. by intros ?%elem_of_nil.
  - destruct (decide (i = j)) as [->|Hne].
    + exists (S k). rewrite list_lookup_alter_eq, E. split; [by destruct (l !! j)|done].
    + exists k. rewrite list_lookup_alter_ne by done. split; [done|]. intros [?|?]%elem_of_cons; [done|by apply Hk].
Qed.

Lemma iter_wake k w : Nat.iter k wake_idle w =
  match k with 0%nat => w | S _ => mkWorker (w_pc w) (runnableFibers w) (wakeups w) false (allowedToSleep w) false end.
Proof. induction k as [|k IH]; [done|]. simpl. rewrite IH. by destruct k. Qed.

(** One worker changes and the list of idle workers does not. *)
Lemma inv_worker s s' i w w' :
  pool_inv s → workers s !! i = Some w → workers s' = <[i := w']> (workers s) → idleWorkers s' = idleWorkers s →
  attends w' → isInIdleList w' = isInIdleList w → (w_pc w' = Sleeping → w_pc w = Sleeping ∧ (shouldSleep w' = true → shouldSleep w = true)) → pool_inv s'.
Proof.
  intros [Ha Hi] Hw Es Ei Hat Hin Hsl. split; intros j v; rewrite Es, (insert_lookup_iff _ _ _ _ _ _ Hw); intros [[? Hv]|[-> ->]].
  - by eapply Ha.
  - done.
  - destruct (Hi j v Hv) as [H1 H2]. split; by rewrite Ei.
  - destruct (Hi i w Hw) as [H1 H2]. split; rewrite Ei; [|by rewrite Hin]. intros E Hs. destruct (Hsl E) as [? ?]. by apply H1; [|auto].
Qed.

Lemma inv_enqueue s : pool_inv s → pool_inv (enqueueTask s).
Proof.
  intros [Ha Hi]. split; intros i v; simpl; destruct (woken_lookup (idleWorkers s) (workers s) i) as (k & -> & Hk);
    intros (w & Hw & ->)%fmap_Some; rewrite iter_wake.
  - pose proof (Ha i w Hw) as H. destruct k; [done|]. unfold attends in *. simpl. intros Hr Hwk. specialize (H Hr Hwk). by destruct (w_pc w).
  - destruct (Hi i w Hw) as [H1 H2]. destruct k.
    + assert (i ∉ idleWorkers s) as Hn by (intros H; by apply Hk in H). split; simpl; [intros; by destruct Hn; apply H1|].
      split; [intros H; by destruct Hn; apply H2|]. by intros ?%elem_of_nil.
    + split; simpl; [done|]. split; [done|]. by intros ?%elem_of_nil.
Qed.

Lemma inv_sleep s i w : pool_inv s → workers s !! i = Some w → w_pc w = Park → pool_inv (putWorkerToSleep s i w).
Proof.
  intros Hi Hw Hpc. unfold putWorkerToSleep. destruct (allowedToSleep w) eqn:Eal; [|by eapply (inv_worker s _ i w)].
  destruct Hi as [Ha Hi]. pose proof (Ha i w Hw) as Haw. destruct (Hi i w Hw) as [_ Hin].
  set (idle := if isInIdleList w then idleWorkers s else i :: idleWorkers s).
  assert (i ∈ idle ∧ ∀ j, j ≠ i → j ∈ idle ↔ j ∈ idleWorkers s) as [Hidle Hothers].
  { unfold idle. destruct (isInIdleList w); [split; [by apply Hin|done]|]. split; [by left|]. intros j Hj. rewrite elem_of_cons. naive_solver. }
  split; intros j v; simpl; rewrite (insert_lookup_iff _ _ _ _ _ _ Hw); intros [[Hne Hv]|[-> ->]].
  - by eapply Ha.
  - unfold attends in *. simpl. intros Hr Hwk. rewrite Hpc in Haw. rewrite (Haw Hr Hwk) in Eal. done.
  - destruct (Hi j v Hv) as [H1 H2]. split; simpl; fold idle; by rewrite Hothers.
  - split; simpl; by fold idle.
Qed.

Lemma pool_inv_act a s s' : pool_inv s → act a s = Some s' → pool_inv s'.
Proof.
  intros Hi Ha. destruct a as [i| |i|i]; simpl in Ha; [|simplify_eq; by apply inv_enqueue|..];
    (destruct (workers s !! i) as [w|] eqn:Hw; [|done]); simpl in Ha; pose proof (pi_attends _ Hi i w Hw) as Hat.
  - destruct (w_pc w) eqn:Hpc.
    + destruct (runnableFibers w) eqn:Er; simplify_eq; (eapply (inv_worker s _ i w); try done); unfold attends in *; simpl; congruence || done.
    + destruct (queue s) eqn:Eq; simplify_eq; (eapply (inv_worker s _ i w); try done); unfold attends in *; simpl; rewrite ?Hpc in Hat; done.
    + simplify_eq. by apply inv_sleep.
    + destruct (shouldSleep w); [done|]. simplify_eq. by eapply (inv_worker s _ i w).
    + simplify_eq. by eapply (inv_worker s _ i w).
  - simplify_eq. by eapply (inv_worker s _ i w).
  - destruct (wakeups w) eqn:Ewk; [done|]. simplify_eq. eapply (inv_worker s _ i w); try done. unfold attends. simpl. by destruct (w_pc w).
Qed.

Lemma pool_reach_inv n s : reach n s → pool_inv s.
Proof.
  induction 1; [|by eapply pool_inv_act]. split; intros i w Hw; simpl in Hw; apply lookup_replicate_1 in Hw as [-> _]; [done|].
  split; [done|]. simpl. split; [done|]. by intros ?%elem_of_nil.
Qed.

Definition busy_within (i k : nat) (s : Pool) : Prop :=
  ∃ s' w', acts (replicate k (Step i)) s = Some s' ∧ workers s' !! i = Some w' ∧ w_pc w' = Busy.

Lemma busy_next i k s s1 : act (Step i) s = Some s1 → busy_within i k s1 → busy_within i (S k) s.
Proof. intros E (s' & w' & H). exists s', w'. cbn [replicate acts]. by rewrite E. Qed.

Lemma set_lookup s i w w' : workers s !! i = Some w → workers (set_worker s i w') !! i = Some w'.
Proof. intros H. apply list_lookup_insert_eq. by eapply lookup_lt_Some. Qed.

Lemma loop_busy s i w : workers s !! i = Some w → w_pc w = Loop → runnableFibers w ≠ 0%nat → busy_within i 1 s.
Proof.
  intros Hw Hpc Hr. destruct (runnableFibers w) as [|r] eqn:E; [done|]. eapply busy_next; [simpl; rewrite Hw; simpl; by rewrite Hpc, E|].
  eexists _, _. split_and!; [done|by eapply set_lookup|done].
Qed.

Lemma park_busy s i w : workers s !! i = Some w → w_pc w = Park → runnableFibers w ≠ 0%nat → allowedToSleep w = false → busy_within i 2 s.
Proof.
  intros Hw Hpc Hr Hal. eapply busy_next; [simpl; rewrite Hw; simpl; by rewrite Hpc|]. unfold putWorkerToSleep. rewrite Hal.
  eapply loop_busy; [by eapply set_lookup|done|done].
Qed.

Lemma look_busy s i w : workers s !! i = Some w → w_pc w = Look → runnableFibers w ≠ 0%nat → allowedToSleep w = false →
  busy_within i 1 s ∨ busy_within i 3 s.
Proof.
  intros Hw Hpc Hr Hal. destruct (queue s) eqn:Eq.
  - right. eapply busy_next; [simpl; rewrite Hw; simpl; by rewrite Hpc, Eq|]. eapply park_busy; [by eapply set_lookup|done|done|done].
  - left. eapply busy_next; [simpl; rewrite Hw; simpl; by rewrite Hpc, Eq|]. eexists _, _.
    split_and!; [done|apply list_lookup_insert_eq; by eapply lookup_lt_Some|done].
Qed.

Lemma pool_acts_reach n l s s' : reach n s → acts l s = Some s' → reach n s'.
Proof.
  revert s. induction l as [|a l IH]; intros s Hr Ha; simpl in Ha; [by simplify_eq|].
  destruct (act a s) as [s1|] eqn:E; [|done]. eapply IH; [|done]. by eapply reach_act.
Qed.
End sleep.

(** A fiber whose child task is finalized is resumed: when [wakeupWorker] has
    been called for it, its worker does not sleep, and after at most three steps
    of its own it runs a fiber or a task. *)
Theorem finalized_fiber_resumes n s i w : Sleep.reach n s → Sleep.workers s !! i = Some w →
  Sleep.runnableFibers w ≠ 0%nat → Sleep.wakeups w = 0%nat → ∃ k, (k ≤ 3)%nat ∧ busy_within i k s.
Proof.
  intros Hr Hw Hrun Hwk. pose proof (pi_attends _ (pool_reach_inv n s Hr) i w Hw Hrun Hwk) as Hat.
  destruct (Sleep.w_pc w) eqn:Hpc.
  - exists 1%nat. split; [lia|]. by eapply loop_busy.
  - destruct (look_busy s i w Hw Hpc Hrun Hat); [exists 1%nat|exists 3%nat]; split; (done || lia).
  - exists 2%nat. split; [lia|]. by eapply park_busy.
  - exists 2%nat. split; [lia|]. eapply busy_next; [simpl; rewrite Hw; simpl; by rewrite Hpc, Hat|].
    eapply loop_busy; [by eapply set_lookup|done|done].
  - exists 0%nat. split; [lia|]. by exists s, w.
Qed.

(** [enqueueTask] wakes every worker that is asleep: afterwards each can go on. *)
Theorem enqueue_wakes_sleepers n s i w : Sleep.reach n s → Sleep.workers (Sleep.enqueueTask s) !! i = Some w →
  is_Some (Sleep.act (Sleep.Step i) (Sleep.enqueueTask s)).
Proof.
  intros Hr Hw. pose proof (pi_idle _ (inv_enqueue s (pool_reach_inv n s Hr)) i w Hw) as [Hs _]. cbn [Sleep.act]. rewrite Hw. simpl.
  destruct (Sleep.w_pc w) eqn:Hpc; try done.
  - by destruct (Sleep.runnableFibers w).
  - destruct (Sleep.shouldSleep w) eqn:E; [|done]. exfalso. specialize (Hs eq_refl eq_refl). by apply elem_of_nil in Hs.
Qed.

(** A worker between [getTask] and [putWorkerToSleep] is not in the list of
    idle workers yet, and [putWorkerToSleep] does not look at the queue again:
    with one worker there is an execution in which a task is enqueued in this
    window, the worker goes to sleep, and nothing but another [enqueueTask] or
    the end of another task of its fibers can wake it. *)
Theorem enqueue_can_be_missed :
  ∃ s w, Sleep.reach 1 s ∧ Sleep.queue s = 1%nat ∧ Sleep.workers s = [w] ∧ Sleep.runnableFibers w = 0%nat ∧
    ∀ a s', Sleep.act a s = Some s' → a = Sleep.Enqueue ∨ a = Sleep.Push 0.
Proof.
  set (s := default (Sleep.initPool 1) (Sleep.acts [Sleep.Step 0; Sleep.Step 0; Sleep.Enqueue; Sleep.Step 0] (Sleep.initPool 1))).
  exists s. eexists. split_and!; [|reflexivity|reflexivity|reflexivity|].
  - eapply (pool_acts_reach 1 [Sleep.Step 0; Sleep.Step 0; Sleep.Enqueue; Sleep.Step 0]); [apply Sleep.reach_init|reflexivity].
  - intros [[|i]| |[|i]|[|i]] s' Ha; vm_compute in Ha; try discriminate Ha; [by left|by right].
Qed.

Lemma finalized_fiber_resumes_witness :
  let s := default (Sleep.initPool 1) (Sleep.acts [Sleep.Step 0; Sleep.Step 0; Sleep.Push 0; Sleep.Wakeup 0] (Sleep.initPool 1)) in
  ∃ k, (k ≤ 3)%nat ∧ busy_within 0 k s.
Proof.
  intros s. eapply (finalized_fiber_resumes 1 s 0); [|reflexivity|discriminate|reflexivity].
  eapply (pool_acts_reach 1 [Sleep.Step 0; Sleep.Step 0; Sleep.Push 0; Sleep.Wakeup 0]); [apply Sleep.reach_init|reflexivity].
Defined.

Lemma enqueue_wakes_sleepers_witness :
  let s := default (Sleep.initPool 2) (Sleep.acts [Sleep.Step 1; Sleep.Step 1; Sleep.Step 1] (Sleep.initPool 2)) in
  is_Some (Sleep.act (Sleep.Step 1) (Sleep.enqueueTask s)).
Proof.
  intros s. eapply (enqueue_wakes_sleepers 2 s 1); [|reflexivity].
  eapply (pool_acts_reach 2 [Sleep.Step 1; Sleep.Step 1; Sleep.Step 1]); [apply Sleep.reach_init|reflexivity].
Defined.
