(* ===== verification/SchedulerQueue.v ===== *)
(** * The queue of active tasks and the fiber slots

    The linked list of Scheduler.v's [Queue] refines a list of tasks, and the
    stacks of a worker's fibers do not overlap. *)

From S2P Require Import Prelude Scheduler.
#[local] Open Scope Z_scope.

Section queue.
Import Queue.

Definition before (q : list nat) (k : nat) : option nat := match k with O => None | S k => q !! k end.

(** The queue holds the tasks [q], in this order. *)
Record qrep (s : Sched) (q : list nat) : Prop := {
  qr_nodup : NoDup q;
  qr_head : taskHead s = q !! 0%nat;
  qr_tail : taskTail s = last q;
  qr_links : ∀ k a, q !! k = Some a → ∃ t, tasks s !! a = Some t ∧ next t = q !! S k ∧ prev t = before q k;
}.

Lemma alter_lookup (f : TaskWrapper → TaskWrapper) p (m : gmap nat TaskWrapper) a :
  alter f p m !! a = if decide (a = p) then f <$> m !! a else m !! a.
Proof. case_decide; [subst; by rewrite lookup_alter_eq|by rewrite lookup_alter_ne]. Qed.

Lemma last_lookup_pred {A} (q : list A) : last q = q !! pred (length q).
Proof. apply last_lookup. Qed.

(** Appending a wrapper that is not linked. *)
Lemma enqueue_rep s q p t :
  qrep s q → p ∉ q → tasks s !! p = Some t → next t = None → prev t = None → qrep (enqueueTask s p) (q ++ [p]).
Proof.
  intros [Hnd Hh Ht Hl] Hp Htp Hn Hpr. assert (NoDup (q ++ [p])) as Hnd'.
  { apply NoDup_app. split_and!; [done|by intros x Hx ->%list_elem_of_singleton|apply NoDup_singleton]. }
  unfold enqueueTask. destruct (taskTail s) as [tail|] eqn:Et.
  - symmetry in Ht. assert (q ≠ []) as Hne by (by intros ->). rewrite last_lookup_pred in Ht.
    assert (tail ≠ p) as Htp' by (intros ->; apply Hp; by eapply list_elem_of_lookup_2).
    pose proof (lookup_lt_Some _ _ _ Ht) as Hlt. split; simpl; [done| | |].
    + rewrite Hh. by destruct q.
    + by rewrite last_snoc.
    + intros k a Hka. rewrite alter_lookup. apply lookup_snoc_Some in Hka as [[Hk Hka]|[-> <-]].
      * assert (a ≠ p) as Hap by (intros ->; apply Hp; by eapply list_elem_of_lookup_2). rewrite decide_False by done. rewrite alter_lookup.
        destruct (Hl k a Hka) as (ta & Ea & Hna & Hpa). rewrite Ea.
        assert (before (q ++ [p]) k = before q k) as Eb by (destruct k; [done|]; simpl; rewrite lookup_app_l by lia; done).
        case_decide as Hat.
        -- subst a. exists (set_next (Some p) ta). split; [done|]. simpl. rewrite Eb. split; [|done].
           assert (k = pred (length q)) as -> by (eapply (NoDup_lookup q); eauto).
           rewrite lookup_app_r by lia. replace (S (pred (length q)) - length q)%nat with 0%nat by lia. done.
        -- exists ta. split; [done|]. rewrite Eb. split; [|done]. rewrite Hna. destruct (decide (S k < length q)%nat) as [Hk'|Hk'].
           ++ by rewrite lookup_app_l.
           ++ exfalso. apply Hat. assert (k = pred (length q)) as -> by lia. congruence.
      * rewrite decide_True by done. rewrite alter_lookup, decide_False by done. rewrite Htp. simpl. eexists. split; [done|]. simpl. split.
        -- rewrite lookup_ge_None_2; [done|]. rewrite length_app. simpl. lia.
        -- rewrite <- Ht. destruct (length q) as [|m] eqn:Em; [lia|]. simpl. by rewrite lookup_app_l by lia.
  - assert (q = []) as -> by (destruct q using rev_ind; [done|]; rewrite last_snoc in Ht; done). split; simpl; [done|done|done|].
    intros [|k] a Ha; simplify_eq/=. exists t. rewrite Hn, Hpr. done.
Qed.

Lemma middle_lookup {A} (l1 l2 : list A) p k : (l1 ++ p :: l2) !! k =
  if decide (k < length l1)%nat then l1 !! k else if decide (k = length l1) then Some p else l2 !! (k - length l1 - 1)%nat.
Proof.
  case_decide; [by rewrite lookup_app_l|]. rewrite lookup_app_r by lia. case_decide.
  - subst k. by rewrite Nat.sub_diag.
  - destruct (k - length l1)%nat as [|j] eqn:E; [lia|]. simpl. by rewrite Nat.sub_0_r.
Qed.

Lemma lookup_app_if {A} (l1 l2 : list A) k : (l1 ++ l2) !! k = if decide (k < length l1)%nat then l1 !! k else l2 !! (k - length l1)%nat.
Proof. case_decide; [by rewrite lookup_app_l|]. by rewrite lookup_app_r by lia. Qed.

(** The neighbours of a task in the middle of the queue. *)
Lemma qrep_middle s l1 p l2 : qrep s (l1 ++ p :: l2) →
  ∃ t, tasks s !! p = Some t ∧ next t = l2 !! 0%nat ∧ prev t = last l1.
Proof.
  intros [_ _ _ Hl]. destruct (Hl (length l1) p) as (t & Et & Hn & Hp).
  { rewrite middle_lookup. by repeat case_decide; try lia. }
  exists t. split_and!; [done| |].
  - rewrite Hn, middle_lookup. repeat case_decide; try lia. by replace (S (length l1) - length l1 - 1)%nat with 0%nat by lia.
  - rewrite Hp, last_lookup_pred. destruct l1 as [|x l1]; [done|]. simpl.
    change (x :: l1 ++ p :: l2) with ((x :: l1) ++ p :: l2). rewrite lookup_app_l by (simpl; lia). done.
Qed.

(** What a task knows besides its place in the queue. *)
Definition info (t : TaskWrapper) : bool * bool * Z * Z := (hasWork t, coolingDown t, yieldedFibers t, deployedOnWorkers t).

Definition relink (t : TaskWrapper) (a : nat) (ta : TaskWrapper) : TaskWrapper :=
  mkWrapper (hasWork ta) (coolingDown ta) (if decide (prev t = Some a) then next t else next ta)
    (if decide (next t = Some a) then prev t else prev ta) (yieldedFibers ta) (deployedOnWorkers ta).

Lemma dequeue_value s p t : tasks s !! p = Some t → prev t ≠ Some p → next t ≠ Some p →
  ∃ s', dequeueTaskLocked s p = Ok s' ∧
    taskHead s' = match prev t with Some _ => taskHead s | None => next t end ∧
    taskTail s' = match next t with Some _ => taskTail s | None => prev t end ∧
    tasks s' !! p = Some (set_next None (set_prev None t)) ∧ (∀ a, a ≠ p → tasks s' !! a = relink t a <$> tasks s !! a).
Proof.
  intros Ht Hp Hn. unfold dequeueTaskLocked. rewrite Ht. eexists. split; [done|]. destruct t as [hw cd nx pv yf dp]; simpl in *.
  split_and!; [by destruct pv, nx|by destruct pv, nx| |].
  - destruct pv as [b|], nx as [c|]; simpl; rewrite !alter_lookup, ?decide_True by done; rewrite ?decide_False by congruence; by rewrite Ht.
  - intros a Ha. destruct pv as [b|], nx as [c|]; simpl; rewrite !alter_lookup; destruct (tasks s !! a) as [[]|]; unfold relink; simpl;
      repeat case_decide; simplify_eq; done.
Qed.

Lemma dequeue_rep s l1 p l2 : qrep s (l1 ++ p :: l2) →
  ∃ s', dequeueTaskLocked s p = Ok s' ∧ qrep s' (l1 ++ l2) ∧ (∀ a, info <$> tasks s' !! a = info <$> tasks s !! a) ∧
    ∃ t, tasks s' !! p = Some t ∧ next t = None ∧ prev t = None.
Proof.
  intros Hq. destruct (qrep_middle s l1 p l2 Hq) as (t & Et & Hn & Hp). destruct Hq as [Hnd Hh Htl Hl].
  assert ((p ∉ l1) ∧ (p ∉ l2)) as [Hp1 Hp2].
  { apply NoDup_app in Hnd as (_ & Hd & Hnd2). apply NoDup_cons in Hnd2 as [? _]. split; [|done]. intros Hin. apply (Hd p Hin). by left. }
  assert (∀ a, a ∈ l1 → a ∉ l2) as Hdisj.
  { intros a H1 H2. apply NoDup_app in Hnd as (_ & Hd & _). apply (Hd a H1). by right. }
  assert (NoDup l1 ∧ NoDup l2) as [Hnd1 Hnd2].
  { apply NoDup_app in Hnd as (? & _ & Hc). apply NoDup_cons in Hc as [_ ?]. done. }
  assert (prev t ≠ Some p) as Hpp by (rewrite Hp; intros E; apply Hp1; by eapply last_Some_elem_of).
  assert (next t ≠ Some p) as Hnp by (rewrite Hn; intros E; apply Hp2; by eapply list_elem_of_lookup_2).
  destruct (dequeue_value s p t Et Hpp Hnp) as (s' & Es & Eh & Etl & Ep & Eo). exists s'. split; [done|]. split_and!.
  - split.
    + apply NoDup_app. split_and!; [done|done|done].
    + rewrite Eh, Hp, Hn, Hh. destruct l1 as [|x l1]; [done|]. destruct (last (x :: l1)) eqn:E; [done|]. by rewrite last_None in E.
    + rewrite Etl, Hp, Hn, Htl. destruct l2 as [|x l2]; simpl; [by rewrite app_nil_r|]. rewrite !last_app. simpl. by destruct (last l2).
    + intros k a Hka. rewrite lookup_app_if in Hka. case_decide as Hk.
      * (* left of the removed task *)
        assert (a ∈ l1) as Ha by (by eapply list_elem_of_lookup_2). assert (a ≠ p) as Hap by (by intros ->).
        destruct (Hl k a) as (ta & Ea & Hna & Hpa); [by rewrite lookup_app_l|]. exists (relink t a ta). rewrite Eo, Ea by done.
        split; [done|]. simpl. rewrite (decide_False (P := next t = Some a)) by (rewrite Hn; intros E; eapply Hdisj; [done|by eapply list_elem_of_lookup_2]).
        split.
        -- rewrite Hna, Hp, Hn, last_lookup_pred, middle_lookup, lookup_app_if. case_decide as Hlast.
           ++ assert (k = pred (length l1)) as -> by (by eapply (NoDup_lookup l1)). rewrite decide_False by lia.
              by replace (S (pred (length l1)) - length l1)%nat with 0%nat by lia.
           ++ rewrite !decide_True; [done|..]; (destruct (decide (k = pred (length l1))) as [->|]; [congruence|lia]).
        -- rewrite Hpa. destruct k; [done|]. simpl. by rewrite !lookup_app_l by lia.
      * (* right of it *)
        assert (a ∈ l2) as Ha by (by eapply list_elem_of_lookup_2). assert (a ≠ p) as Hap by (by intros ->).
        destruct (Hl (S k) a) as (ta & Ea & Hna & Hpa).
        { rewrite middle_lookup, !decide_False by lia. by replace (S k - length l1 - 1)%nat with (k - length l1)%nat by lia. }
        exists (relink t a ta). rewrite Eo, Ea by done. split; [done|]. simpl.
        rewrite (decide_False (P := prev t = Some a)) by (rewrite Hp; intros E; eapply Hdisj; [by eapply last_Some_elem_of|done]). split.
        -- rewrite Hna, middle_lookup, lookup_app_if, !decide_False by lia. f_equal. lia.
        -- rewrite Hpa, Hn. simpl. rewrite middle_lookup, (decide_False (P := (k < length l1)%nat)) by done. case_decide as Hfirst.
           ++ assert (k - length l1 = 0)%nat as E by (by eapply (NoDup_lookup l2)). rewrite Hp, last_lookup_pred. destruct k as [|k].
              { by destruct l1; [|simpl in Hk; lia]. }
              simpl. rewrite lookup_app_l by lia. f_equal. lia.
           ++ case_decide as Hk0; [subst k; rewrite Nat.sub_diag in Hka; congruence|]. destruct k as [|k]; [lia|]. simpl.
              rewrite lookup_app_r by lia. f_equal. lia.
  - intros a. destruct (decide (a = p)) as [->|Hap]; [by rewrite Ep, Et|]. rewrite Eo by done. by destruct (tasks s !! a).
  - eexists. split; [exact Ep|done].
Qed.

Definition alive (s : Sched) (a : nat) : bool := match tasks s !! a with Some t => hasWork t | None => false end.
Definition yields (s : Sched) (a : nat) : Z := match tasks s !! a with Some t => yieldedFibers t | None => 0 end.
Definition deploys (s : Sched) (a : nat) : Z := match tasks s !! a with Some t => deployedOnWorkers t | None => 0 end.

(** The first of the tasks with the fewest yielded fibers. *)
Definition chosen (s : Sched) (l : list nat) (r : option nat) : Prop :=
  match r with
  | None => l = []
  | Some a => ∃ l1 l2, l = l1 ++ a :: l2 ∧ (∀ b, b ∈ l1 → yields s a < yields s b) ∧ (∀ b, b ∈ l2 → yields s a ≤ yields s b)
  end.

Record same_tasks (s s' : Sched) : Prop := {
  st_alive : ∀ a, alive s' a = alive s a;
  st_yields : ∀ a, yields s' a = yields s a;
  st_deploys : ∀ a, deploys s' a = deploys s a;
}.

Lemma same_trans s1 s2 s3 : same_tasks s1 s2 → same_tasks s2 s3 → same_tasks s1 s3.
Proof. intros [] []. split; intros; etrans; eauto. Qed.

Lemma info_same s s' : (∀ a, info <$> tasks s' !! a = info <$> tasks s !! a) → same_tasks s s'.
Proof.
  intros H. split; intros a; specialize (H a); unfold alive, yields, deploys, info in *;
    destruct (tasks s' !! a), (tasks s !! a); simplify_eq/=; congruence.
Qed.

Lemma cooling_same s a : same_tasks s (modify s a set_cooling).
Proof.
  split; intros b; unfold alive, yields, deploys, modify; simpl; rewrite alter_lookup; case_decide; try done; by destruct (tasks s !! b).
Qed.

(** Changing other members keeps the links. *)
Lemma modify_rep s q a f : (∀ t, next (f t) = next t ∧ prev (f t) = prev t) → qrep s q → qrep (modify s a f) q.
Proof.
  intros Hf [Hnd Hh Ht Hl]. split; try done. intros k b Hb. destruct (Hl k b Hb) as (t & Et & Hn & Hp). unfold modify. simpl.
  rewrite alter_lookup, Et. destruct (Hf t) as [Hfn Hfp]. case_decide; simpl; [exists (f t)|exists t]; split_and!; congruence.
Qed.

Lemma deploy_same s a : is_Some (tasks s !! a) → let s' := modify s a deploy in
  (∀ b, alive s' b = alive s b) ∧ (∀ b, yields s' b = yields s b) ∧ (∀ b, deploys s' b = deploys s b + (if decide (b = a) then 1 else 0)).
Proof.
  intros [t Ht]. simpl. split_and!; intros b; unfold alive, yields, deploys, modify; simpl; rewrite alter_lookup; case_decide; subst;
    rewrite ?Ht; simpl; try done; try lia; destruct (tasks s !! b); simpl; done || lia.
Qed.

Lemma filter_same s s' (l : list nat) : same_tasks s s' → filter (alive s') l = filter (alive s) l.
Proof. intros [H _ _]. apply list_filter_iff. intros x. by rewrite H. Qed.

Lemma chosen_same s s' l r : same_tasks s s' → chosen s' l r → chosen s l r.
Proof.
  intros [_ H _]. destruct r as [a|]; [|done]. simpl. intros (l1 & l2 & E & H1 & H2). exists l1, l2. split; [done|].
  split; intros b Hb; rewrite <- !H; auto.
Qed.

(** What [getTask] promises. *)
Record got (s : Sched) (q : list nat) (s' : Sched) (q' : list nat) (r : option nat) : Prop := {
  g_rep : qrep s' q';
  g_keeps : filter (alive s) q' = filter (alive s) q;
  g_alive : ∀ a, alive s' a = alive s a;
  g_yields : ∀ a, yields s' a = yields s a;
  g_deploys : ∀ a, deploys s' a = deploys s a + (if decide (r = Some a) then 1 else 0);
  g_chosen : chosen s (filter (alive s) q) r;
}.

Lemma got_same s s1 q q1 s' q' r : same_tasks s s1 → filter (alive s) q1 = filter (alive s) q → got s1 q1 s' q' r → got s q s' q' r.
Proof.
  intros Hs Hq [H1 H2 H3 H4 H5 H6]. pose proof (filter_same s s1 q' Hs) as Eq'. pose proof (filter_same s s1 q1 Hs) as Eq1.
  split; try done.
  - by rewrite <- Eq', H2, Eq1.
  - intros a. by rewrite H3, (st_alive _ _ Hs).
  - intros a. by rewrite H4, (st_yields _ _ Hs).
  - intros a. by rewrite H5, (st_deploys _ _ Hs).
  - rewrite Eq1, Hq in H6. by eapply chosen_same.
Qed.

Lemma got_deploy s q a : qrep s q → is_Some (tasks s !! a) → chosen s (filter (alive s) q) (Some a) → got s q (modify s a deploy) q (Some a).
Proof.
  intros Hq Ha Hc. destruct (deploy_same s a Ha) as (H1 & H2 & H3). split; try done; [by apply modify_rep|].
  intros b. rewrite H3. f_equal. repeat case_decide; congruence.
Qed.

Lemma u64_small y : 0 ≤ y < 2 ^ 63 → u64 y = y.
Proof. intros H. unfold u64, wrap_u. apply Z.mod_small. lia. Qed.

(** What the scan knows about the tasks it has passed. *)
Record passed (s : Sched) (kept : list nat) (m : Z) (best : option nat) : Prop := {
  ps_alive : ∀ a, a ∈ kept → alive s a = true;
  ps_yields : ∀ a, a ∈ kept → 0 < yields s a < 2 ^ 63;
  ps_best : chosen s kept best;
  ps_min : m = match best with Some b => yields s b | None => 2 ^ 64 - 1 end;
}.

Lemma passed_same s s' kept m best : same_tasks s s' → passed s kept m best → passed s' kept m best.
Proof.
  intros Hs [H1 H2 H3 H4]. split.
  - intros a Ha. rewrite (st_alive _ _ Hs). auto.
  - intros a Ha. rewrite (st_yields _ _ Hs). auto.
  - eapply chosen_same; [|done]. destruct Hs. by split.
  - rewrite H4. destruct best; [|done]. by rewrite (st_yields _ _ Hs).
Qed.

Lemma passed_snoc s kept m best a :
  passed s kept m best → alive s a = true → 0 < yields s a < 2 ^ 63 →
  if yields s a <? m then passed s (kept ++ [a]) (yields s a) (Some a) else passed s (kept ++ [a]) m best.
Proof.
  intros [H1 H2 H3 H4] Ha Hy.
  assert (∀ b, b ∈ kept ++ [a] → alive s b = true) as HA by (intros b [?| ->%list_elem_of_singleton]%elem_of_app; auto).
  assert (∀ b, b ∈ kept ++ [a] → 0 < yields s b < 2 ^ 63) as HY by (intros b [?| ->%list_elem_of_singleton]%elem_of_app; auto).
  destruct (Z.ltb_spec (yields s a) m) as [Hlt|Hge].
  - split; try done. exists kept, []. split; [done|]. split; [|by intros b ?%elem_of_nil]. intros b Hb.
    destruct best as [c|]; simpl in H3; [|subst kept; by apply elem_of_nil in Hb]. destruct H3 as (l1 & l2 & -> & Hl1 & Hl2).
    apply elem_of_app in Hb as [Hb|[-> |Hb]%elem_of_cons]; [specialize (Hl1 b Hb)| |specialize (Hl2 b Hb)]; lia.
  - split; try done. destruct best as [c|]; [|lia]. simpl in *. destruct H3 as (l1 & l2 & -> & Hl1 & Hl2). exists l1, (l2 ++ [a]).
    split; [by rewrite <- app_assoc|]. split; [done|]. intros b [Hb| ->%list_elem_of_singleton]%elem_of_app; [auto|lia].
Qed.

Lemma filter_alive_all s (kept : list nat) : (∀ a, a ∈ kept → alive s a = true) → filter (alive s) kept = kept.
Proof.
  induction kept as [|a l IH]; intros H; [done|]. rewrite filter_cons_True by (apply Is_true_true, H; by left). f_equal. apply IH. intros b Hb. apply H. by right.
Qed.

Lemma scan_ok fuel s kept rest m best :
  qrep s (kept ++ rest) → (length rest ≤ fuel)%nat → (∀ a, a ∈ rest → 0 ≤ yields s a < 2 ^ 63) → passed s kept m best →
  ∃ s' q' r, scan fuel s (rest !! 0%nat) m best = Ok (s', r) ∧ got s (kept ++ rest) s' q' r.
Proof.
  revert s kept rest m best. induction fuel as [|fuel IH]; intros s kept rest m best Hq Hfuel Hy Hp; destruct rest as [|a rest]; try (simpl in Hfuel; lia).
  1, 2: simpl; rewrite app_nil_r in *; pose proof (filter_alive_all s kept (ps_alive _ _ _ _ Hp)) as Ef; pose proof (ps_best _ _ _ _ Hp) as Hb.
  1, 2: destruct best as [b|]; eexists _, _, _; (split; [reflexivity|]).
  1, 3: apply got_deploy; [done| |by rewrite Ef]; destruct Hb as (l1 & l2 & -> & _); destruct (qrep_middle s l1 b l2 Hq) as (t & -> & _); done.
  1, 2: split; try done; [intros a; rewrite decide_False by done; lia|by rewrite Ef].
  destruct (qrep_middle s kept a rest Hq) as (t & Ht & Hn & _). cbn [scan lookup list_lookup]. rewrite Ht.
  assert (alive s a = hasWork t) as Ea by (unfold alive; by rewrite Ht). assert (yields s a = yieldedFibers t) as Ey by (unfold yields; by rewrite Ht).
  pose proof (Hy a ltac:(by left)) as Hya. destruct (hasWork t) eqn:Ew; cbn [negb].
  - destruct (Z.eqb_spec (yieldedFibers t) 0) as [E0|E0].
    + (* nobody yielded *)
      eexists _, _, _. split; [reflexivity|]. apply got_deploy; [done|by rewrite Ht|]. exists kept, (filter (alive s) rest).
      rewrite filter_app, filter_alive_all by apply Hp. rewrite filter_cons_True by (by rewrite Ea). split; [done|]. split.
      * intros b Hb. pose proof (ps_yields _ _ _ _ Hp b Hb). lia.
      * intros b Hb. apply list_elem_of_filter in Hb as [_ Hb]. pose proof (Hy b ltac:(by right)). lia.
    + pose proof (passed_snoc s kept m best a Hp Ea ltac:(lia)) as Hp'. rewrite (proj2 (Z.ltb_ge _ _)) by lia. cbn [orb].
      rewrite u64_small, <- Ey by lia. rewrite Hn.
      assert (∀ m best, passed s (kept ++ [a]) m best → ∃ s' q' r, scan fuel s (rest !! 0%nat) m best = Ok (s', r) ∧ got s (kept ++ a :: rest) s' q' r) as Hgo.
      { intros m' best' Hp''. destruct (IH s (kept ++ [a]) rest m' best') as (s' & q' & r & E & Hg).
        - by rewrite <- app_assoc.
        - simpl in Hfuel. lia.
        - intros b Hb. apply Hy. by right.
        - done.
        - rewrite <- app_assoc in Hg. by exists s', q', r. }
      destruct (yields s a <? m); by apply Hgo.
  - (* no work left: out of the queue *)
    destruct (dequeue_rep s kept a rest Hq) as (s1 & -> & Hq1 & Hinfo & _). cbn [res_bind]. set (s2 := modify s1 a set_cooling).
    assert (same_tasks s s2) as Hs by (eapply same_trans; [by apply info_same|apply cooling_same]).
    destruct (IH s2 kept rest m best) as (s' & q' & r & E & Hg).
    + by apply modify_rep.
    + simpl in Hfuel. lia.
    + intros b Hb. rewrite (st_yields _ _ Hs). apply Hy. by right.
    + by eapply passed_same.
    + exists s', q', r. rewrite Hn. split; [done|]. eapply got_same; [exact Hs| |exact Hg].
      rewrite !filter_app. f_equal. rewrite filter_cons_False; [done|]. rewrite Ea. by intros [].
Qed.

Lemma queue_size s q : qrep s q → (length q ≤ size (tasks s))%nat.
Proof.
  intros [Hnd _ _ Hl]. rewrite <- (size_list_to_set (C := gset nat)) by done. rewrite <- size_dom. apply subseteq_size. intros a Ha.
  apply elem_of_list_to_set, list_elem_of_lookup in Ha as [k Hk]. destruct (Hl k a Hk) as (t & Ht & _). by apply elem_of_dom.
Qed.
End queue.

(** [getTask] returns, of the tasks in the queue that have work, the first one
    with the fewest yielded fibers and counts the deployment; it returns none
    exactly when no task has work.  It takes tasks without work out of the
    queue and loses none with work, and the links of the queue stay right. *)
Theorem getTask_correct s q : qrep s q → (∀ a, a ∈ q → 0 ≤ yields s a < 2 ^ 63) →
  ∃ s' q' r, Queue.getTask s = Ok (s', r) ∧ got s q s' q' r.
Proof.
  intros Hq Hy. unfold Queue.getTask. rewrite (qr_head _ _ Hq).
  apply (scan_ok _ s [] q); [done|by apply queue_size|done|]. split; try done; intros a Ha; by apply elem_of_nil in Ha.
Qed.

(** Appending and removing a task are what they are on lists. *)
Theorem queue_enqueue_dequeue s l1 p l2 a t :
  qrep s (l1 ++ p :: l2) → a ∉ l1 ++ p :: l2 → Queue.tasks s !! a = Some t → Queue.next t = None → Queue.prev t = None →
  qrep (Queue.enqueueTask s a) (l1 ++ p :: l2 ++ [a]) ∧
  ∃ s', Queue.dequeueTaskLocked (Queue.enqueueTask s a) p = Ok s' ∧ qrep s' (l1 ++ l2 ++ [a]) ∧
    ∃ t', Queue.tasks s' !! p = Some t' ∧ Queue.next t' = None ∧ Queue.prev t' = None.
Proof.
  intros Hq Ha Ht Hn Hp. pose proof (enqueue_rep s _ a t Hq Ha Ht Hn Hp) as Hq'. rewrite <- app_assoc in Hq'. split; [done|].
  destruct (dequeue_rep _ l1 p (l2 ++ [a]) Hq') as (s' & E & Hr & _ & Hl). by exists s'.
Qed.

(** ** Fibers *)

Section fibers.
Import Fibers.
Context (guard region : Z).
Hypothesis Hguard : 0 ≤ guard.

(** The stacks in use and the free ones. *)
Record fibers_inv (f : FiberAllocator) (used : list Z) : Prop := {
  fi_num : initiallyAllocated ≤ numAllocated f ≤ maxFibersPerWorker;
  fi_slots : used ++ available f ≡ₚ slotStackBase guard region <$> seqZ 0 (numAllocated f);
}.

Inductive fiber_run : FiberAllocator → list Z → Prop :=
  | fr_new : fiber_run (newFiberAllocator guard region) []
  | fr_alloc f used f' x : fiber_run f used → canAllocate f = true → allocate guard region f = Some (f', x) → fiber_run f' (x :: used)
  | fr_free f l1 x l2 : fiber_run f (l1 ++ x :: l2) → fiber_run (deallocate f x) (l1 ++ l2).

Lemma removelast_snoc {A} (l : list A) x : removelast (l ++ [x]) = l.
Proof. induction l as [|y l IH]; [done|]. simpl. rewrite IH. by destruct l. Qed.

Lemma allocate_inv f used : fibers_inv f used → canAllocate f = true →
  ∃ f' x, allocate guard region f = Some (f', x) ∧ fibers_inv f' (x :: used).
Proof.
  intros [Hn Hs] Hc. unfold canAllocate in Hc. unfold allocate. destruct (available f) as [|y l _] eqn:Ea using rev_ind.
  - simpl. rewrite orb_false_r in Hc. rewrite Hc. apply Z.ltb_lt in Hc. eexists _, _. split; [done|]. split; simpl; [lia|].
    unfold initiallyAllocated in *. rewrite app_nil_r in *. rewrite seqZ_app by lia. rewrite fmap_app, <- Hs. simpl. by rewrite Permutation_app_comm.
  - rewrite last_snoc, removelast_snoc. eexists _, _. split; [done|]. split; [done|]. simpl. rewrite <- Hs.
    rewrite (Permutation_app_comm l [y]). simpl. by rewrite Permutation_middle.
Qed.

Lemma fiber_run_inv f used : fiber_run f used → fibers_inv f used.
Proof.
  induction 1 as [|f used f' x Hr IH Hc Ha|f l1 x l2 Hr [Hn Hs]].
  - split; [done|]. by simpl.
  - destruct (allocate_inv f used IH Hc) as (f1 & x1 & E & Hi). rewrite Ha in E. injection E as <- <-. done.
  - split; [done|]. simpl. rewrite <- Hs. rewrite <- !app_assoc. f_equiv. rewrite app_assoc, Permutation_app_comm. done.
Qed.
End fibers.

(** Whenever [canAllocate] says so a worker gets a fiber; the stacks of its
    fibers lie in the region mapped for the worker and do not overlap, with a
    guard page below each of them. *)
Theorem fiber_stacks_disjoint guard region f used :
  0 ≤ guard → fiber_run guard region f used →
  (Fibers.canAllocate f = true → is_Some (Fibers.allocate guard region f)) ∧
  (∀ x, x ∈ used → region + guard ≤ x ∧ x + Fibers.stackSize + guard + Fibers.workerMainStackSize ≤ region + Fibers.totalSize guard) ∧
  (∀ (i j : nat) x y, used !! i = Some x → used !! j = Some y → i ≠ j → x + Fibers.stackSize + guard ≤ y ∨ y + Fibers.stackSize + guard ≤ x).
Proof.
  intros Hg Hr. pose proof (fiber_run_inv guard region f used Hr) as Hi. split_and!.
  - intros Hc. destruct (allocate_inv guard region f used Hi Hc) as (f' & x & -> & _). done.
  - intros x Hx. assert (x ∈ Fibers.slotStackBase guard region <$> seqZ 0 (Fibers.numAllocated f)) as Hin.
    { rewrite <- (fi_slots _ _ _ _ Hi). apply elem_of_app. by left. }
    apply list_elem_of_fmap in Hin as (k & -> & Hk%elem_of_seqZ). pose proof (fi_num _ _ _ _ Hi) as Hn.
    unfold Fibers.slotStackBase, Fibers.totalSize, Fibers.maxFibersPerWorker, Fibers.stackSize, Fibers.workerMainStackSize in *. nia.
  - intros i j x y Hx Hy Hij.
    assert (NoDup (used ++ Fibers.available f)) as Hnd.
    { rewrite (fi_slots _ _ _ _ Hi). apply NoDup_fmap_2; [|apply NoDup_seqZ]. intros a b. unfold Fibers.slotStackBase, Fibers.stackSize. nia. }
    assert (x ≠ y) as Hne.
    { intros ->. apply Hij. apply NoDup_app in Hnd as [Hnd _]. by eapply (NoDup_lookup used). }
    assert (∀ z, z ∈ used → ∃ k, z = Fibers.slotStackBase guard region k) as Hk.
    { intros z Hz. assert (z ∈ Fibers.slotStackBase guard region <$> seqZ 0 (Fibers.numAllocated f)) as Hin.
      { rewrite <- (fi_slots _ _ _ _ Hi). apply elem_of_app. by left. }
      apply list_elem_of_fmap in Hin as (k & -> & _). by exists k. }
    destruct (Hk x) as [k ->]; [by eapply list_elem_of_lookup_2|]. destruct (Hk y) as [k' ->]; [by eapply list_elem_of_lookup_2|].
    assert (k ≠ k') by (by intros ->). unfold Fibers.slotStackBase, Fibers.stackSize in *. nia.
Qed.

(** Three tasks, the first without work, the second with a yielded fiber. *)
Definition sample_queue : Queue.Sched :=
  let w b y := Queue.mkWrapper b false None None y 0 in
  let s := Queue.mkSched None None (list_to_map [(1%nat, w false 0); (2%nat, w true 1); (3%nat, w true 0); (4%nat, w true 0)]) in
  Queue.enqueueTask (Queue.enqueueTask (Queue.enqueueTask s 1) 2) 3.

Lemma sample_queue_rep : qrep sample_queue [1; 2; 3]%nat.
Proof.
  apply (enqueue_rep _ [1; 2]%nat 3 (Queue.mkWrapper true false None None 0 0)); [|set_solver|reflexivity|reflexivity|reflexivity].
  apply (enqueue_rep _ [1]%nat 2 (Queue.mkWrapper true false None None 1 0)); [|set_solver|reflexivity|reflexivity|reflexivity].
  apply (enqueue_rep _ [] 1 (Queue.mkWrapper false false None None 0 0)); [|set_solver|reflexivity|reflexivity|reflexivity].
  split; [apply NoDup_nil_2|done|done|done].
Qed.

Lemma getTask_correct_witness : ∃ s' q' r, Queue.getTask sample_queue = Ok (s', r) ∧ got sample_queue [1; 2; 3]%nat s' q' r.
Proof.
  apply (getTask_correct sample_queue [1; 2; 3]%nat sample_queue_rep). intros a Ha.
  repeat (apply elem_of_cons in Ha as [-> |Ha]; [vm_compute; split; congruence|]). by apply elem_of_nil in Ha.
Defined.

Lemma queue_enqueue_dequeue_witness :
  qrep (Queue.enqueueTask sample_queue 4) [1; 2; 3; 4]%nat ∧
  ∃ s', Queue.dequeueTaskLocked (Queue.enqueueTask sample_queue 4) 2 = Ok s' ∧ qrep s' [1; 3; 4]%nat ∧
    ∃ t', Queue.tasks s' !! 2%nat = Some t' ∧ Queue.next t' = None ∧ Queue.prev t' = None.
Proof.
  apply (queue_enqueue_dequeue sample_queue [1]%nat 2 [3]%nat 4 (Queue.mkWrapper true false None None 0 0));
    [apply sample_queue_rep|set_solver|reflexivity|reflexivity|reflexivity].
Defined.

Lemma fiber_stacks_disjoint_witness :
  let f := Fibers.newFiberAllocator 4096 0 in
  (Fibers.canAllocate f = true → is_Some (Fibers.allocate 4096 0 f)) ∧
  (∀ x, x ∈ [] → 0 + 4096 ≤ x ∧ x + Fibers.stackSize + 4096 + Fibers.workerMainStackSize ≤ 0 + Fibers.totalSize 4096) ∧
  (∀ (i j : nat) x y, [] !! i = Some x → [] !! j = Some y → i ≠ j → x + Fibers.stackSize + 4096 ≤ y ∨ y + Fibers.stackSize + 4096 ≤ x).
Proof. intros f. apply (fiber_stacks_disjoint 4096 0 f []); [lia|apply fr_new]. Defined.
