(* ===== verification/FlexBuffer.v ===== *)
(** * Growing buffers

    Model of [FlexibleBuffer] (include/lingodb/runtime/Buffer.h) and of
    [GrowingBuffer] (src/runtime/GrowingBuffer.cpp), which wraps it.  A buffer
    is a list of blocks obtained from [malloc], whose result is a parameter of
    the operations that allocate; elements are their addresses. *)

From S2P Require Import Prelude.
#[local] Open Scope Z_scope.

Record Buffer := mkBuffer { numElements : Z; buf_ptr : Z }.

Record FlexibleBuffer := mkFlex {
  totalLen : Z;
  currCapacity : Z;
  fb_buffers : list Buffer;
  fb_typeSize : Z;
}.

Definition newFlexibleBuffer (initialCapacity typeSize fresh : Z) : FlexibleBuffer :=
  mkFlex 0 initialCapacity [mkBuffer 0 fresh] typeSize.

(** The positive integer [m] rounded to 53 significant bits, ties to even: a
    positive double is such a number times a power of two. *)
Definition round53 (m : Z) : Z :=
  let d := Z.log2 m - 52 in
  if d <=? 0 then m
  else
    let u := 2 ^ d in
    let q := m / u in
    let r := m mod u in
    (if (2 * r <? u) || ((2 * r =? u) && Z.even q) then q else q + 1) * u.

(** 1.2 as a double, times 2^52. *)
Definition growth : Z := 5404319552844595.

(** [std::ceil(currCapacity * 1.2)]: the capacity as a double, times 1.2,
    rounded, and rounded up. *)
Definition nextCapacity (c : Z) : Z := (round53 (round53 c * growth) + 2 ^ 52 - 1) / 2 ^ 52.

Definition nextBuffer (f : FlexibleBuffer) (fresh : Z) : FlexibleBuffer :=
  let c := nextCapacity (currCapacity f) in
  mkFlex (totalLen f) c (fb_buffers f ++ [mkBuffer 0 fresh]) (fb_typeSize f).

(** [buffers.back()] of an empty vector is undefined. *)
Definition flex_insert (f : FlexibleBuffer) (fresh : Z) : res (FlexibleBuffer * Z) :=
  match last (fb_buffers f) with
  | None => Fault BadAccess
  | Some b =>
      let f := if numElements b =? currCapacity f then nextBuffer f fresh else f in
      match last (fb_buffers f) with
      | None => Fault BadAccess
      | Some b =>
          Ok (mkFlex (totalLen f + 1) (currCapacity f) (removelast (fb_buffers f) ++ [mkBuffer (numElements b + 1) (buf_ptr b)]) (fb_typeSize f),
              buf_ptr b + fb_typeSize f * numElements b)
      end
  end.

(** The bytes asked from [malloc] by the next [insert], if it asks. *)
Definition flex_mallocs (f : FlexibleBuffer) : option Z :=
  match last (fb_buffers f) with
  | Some b => if numElements b =? currCapacity f then Some (nextCapacity (currCapacity f) * fb_typeSize f) else None
  | None => None
  end.

(** The addresses [iterate] calls its function with. *)
Definition buffer_addrs (typeSize : Z) (b : Buffer) : list Z := (λ i, buf_ptr b + i * typeSize) <$> seqZ 0 (numElements b).
Definition flex_iterate (f : FlexibleBuffer) : list Z := fb_buffers f ≫= buffer_addrs (fb_typeSize f).

(** [merge]: this buffer and the emptied other one. *)
Definition flex_merge (f other : FlexibleBuffer) : FlexibleBuffer * FlexibleBuffer :=
  (mkFlex (totalLen f + totalLen other) (currCapacity f) (fb_buffers other ++ fb_buffers f) (fb_typeSize f),
   mkFlex 0 0 [] (fb_typeSize other)).

(** [GrowingBuffer::merge] over the buffers of the workers. *)
Fixpoint growing_merge_into (first : FlexibleBuffer) (others : list (option FlexibleBuffer)) : FlexibleBuffer :=
  match others with
  | [] => first
  | None :: others => growing_merge_into first others
  | Some b :: others => growing_merge_into (fst (flex_merge first b)) others
  end.
Fixpoint growing_merge (values : list (option FlexibleBuffer)) : option FlexibleBuffer :=
  match values with
  | [] => None
  | None :: values => growing_merge values
  | Some b :: values => Some (growing_merge_into b values)
  end.

(** ** What a hash table relies on *)

(** A store of entries that hands out addresses and keeps them. *)
Class EntryStore (S : Type) := {
  es_insert : S → Z → res (S * Z);
  es_addrs : S → list Z;
  es_len : S → Z;
  es_ok : S → Prop;
  (** what the next [insert] expects of the result of [malloc] *)
  es_fresh : S → Z → Prop;
  es_insert_ok s fresh : es_ok s → es_fresh s fresh →
    ∃ s' a, es_insert s fresh = Ok (s', a) ∧ es_ok s' ∧ es_addrs s' = es_addrs s ++ [a] ∧ es_len s' = es_len s + 1 ∧
      (a ∉ es_addrs s) ∧ 0 < a < 2 ^ 48;
  es_len_ok s : es_ok s → es_len s = Z.of_nat (length (es_addrs s));
}.

(** ** Growing buffers hand out disjoint elements and keep them *)

(** ** The capacity grows *)

Lemma round53_error m : 0 < m → 2 ^ 53 * (m - round53 m) ≤ m ∧ 2 ^ 53 * (round53 m - m) ≤ m.
Proof.
  intros Hm. unfold round53. set (d := Z.log2 m - 52). destruct (Z.leb_spec d 0) as [|Hd]; [lia|]. set (u := 2 ^ d).
  assert (2 ^ 52 * u ≤ m) as Hu.
  { unfold u. rewrite <- Z.pow_add_r by lia. replace (52 + d) with (Z.log2 m) by lia. by apply Z.log2_spec. }
  assert (0 < u) as Hpos by (apply Z.pow_pos_nonneg; lia).
  pose proof (Z.div_mod m u ltac:(lia)) as E. pose proof (Z.mod_pos_bound m u Hpos) as Hr.
  set (q := m / u) in *. set (r := m mod u) in *.
  destruct (Z.ltb_spec (2 * r) u); cbn [orb]; [nia|]. destruct (Z.eqb_spec (2 * r) u); cbn [andb]; [|nia].
  destruct (Z.even q); nia.
Qed.

Lemma round53_small m : 0 ≤ m < 2 ^ 53 → round53 m = m.
Proof.
  intros Hm. unfold round53. destruct (Z.leb_spec (Z.log2 m - 52) 0) as [|H]; [done|]. exfalso.
  assert (Z.log2 m < 53); [|lia]. destruct (decide (m = 0)) as [->|]; [done|]. apply Z.log2_lt_pow2; lia.
Qed.

Lemma nextCapacity_grows c : 0 < c → c < nextCapacity c.
Proof.
  intros Hc. unfold nextCapacity, growth. destruct (round53_error c Hc) as [E1 _]. set (x := round53 c) in *.
  assert (0 < x) as Hx by lia. destruct (round53_error (x * 5404319552844595) ltac:(lia)) as [E2 _]. set (y := round53 (x * 5404319552844595)) in *.
  change (2 ^ 53) with 9007199254740992 in *. change (2 ^ 52) with 4503599627370496. assert (4503599627370496 * c < y) as Hy by lia.
  Z.to_euclidean_division_equations. lia.
Qed.

Example capacities : nextCapacity <$> [1; 5; 256; 1024; 2 ^ 60] = [2; 6; 308; 1229; 1383505805528216320].
Proof. vm_compute. reflexivity. Qed.

(** ** Blocks and elements *)

Lemma NoDup_bind_index {A B} (f : A → list B) (l : list A) :
  (∀ x, x ∈ l → NoDup (f x)) → (∀ i j x y a, l !! i = Some x → l !! j = Some y → i ≠ j → a ∈ f x → a ∉ f y) → NoDup (l ≫= f).
Proof.
  induction l as [|x l IH]; intros Hnd Hd; [apply NoDup_nil_2|]. rewrite bind_cons. apply NoDup_app. split_and!.
  - apply Hnd. by left.
  - intros a Ha Hin. apply list_elem_of_bind in Hin as (y & Hay & Hy). apply list_elem_of_lookup in Hy as [j Hj].
    by eapply (Hd 0%nat (S j) x y a).
  - apply IH; [intros y Hy; apply Hnd; by right|]. intros i j y z a Hy Hz Hij. by eapply (Hd (S i) (S j)); [..|lia].
Qed.

(** Two ranges of [n] and [m] bytes at [p] and [q] do not meet. *)
Definition separate (p n q m : Z) : Prop := p + n ≤ q ∨ q + m ≤ p.

(** A buffer and the capacities its blocks were allocated with. *)
Record flex_inv (f : FlexibleBuffer) (caps : list Z) : Prop := {
  fi_size : 0 < fb_typeSize f;
  fi_fill : Forall2 (λ b c, 0 ≤ numElements b ≤ c ∧ 0 < buf_ptr b ∧ buf_ptr b + c * fb_typeSize f ≤ 2 ^ 48) (fb_buffers f) caps;
  fi_last : last caps = Some (currCapacity f) ∧ 0 < currCapacity f;
  fi_blocks : ∀ i j b b' c c', fb_buffers f !! i = Some b → caps !! i = Some c → fb_buffers f !! j = Some b' → caps !! j = Some c' → i ≠ j →
    separate (buf_ptr b) (c * fb_typeSize f) (buf_ptr b') (c' * fb_typeSize f);
  fi_len : totalLen f = Z.of_nat (length (flex_iterate f));
}.

Lemma elem_of_buffer ts b a : a ∈ buffer_addrs ts b ↔ ∃ i, 0 ≤ i < numElements b ∧ a = buf_ptr b + i * ts.
Proof. unfold buffer_addrs. rewrite list_elem_of_fmap. setoid_rewrite elem_of_seqZ. naive_solver lia. Qed.

(** Every element lies in the block of its buffer. *)
Lemma elem_of_flex f caps a : flex_inv f caps → a ∈ flex_iterate f →
  ∃ k b c i, fb_buffers f !! k = Some b ∧ caps !! k = Some c ∧ 0 ≤ i < numElements b ∧ numElements b ≤ c ∧ a = buf_ptr b + i * fb_typeSize f.
Proof.
  intros Hi Ha. unfold flex_iterate in Ha. apply list_elem_of_bind in Ha as (b & Hab & Hb).
  apply elem_of_buffer in Hab as (i & Hr & ->). apply list_elem_of_lookup in Hb as [k Hk].
  destruct (Forall2_lookup_l _ _ _ _ _ (fi_fill _ _ Hi) Hk) as (c & Hc & Hn & _). exists k, b, c, i. split_and!; (done || lia).
Qed.

Lemma flex_separate f caps a a' : flex_inv f caps → a ∈ flex_iterate f → a' ∈ flex_iterate f → a ≠ a' →
  separate a (fb_typeSize f) a' (fb_typeSize f).
Proof.
  intros Hi Ha Ha' Hne. destruct (elem_of_flex f caps a Hi Ha) as (k & b & c & i & Hb & Hc & Hr & Hnc & ->).
  destruct (elem_of_flex f caps a' Hi Ha') as (k' & b' & c' & i' & Hb' & Hc' & Hr' & Hnc' & ->). pose proof (fi_size _ _ Hi) as Hs.
  unfold separate. destruct (decide (k = k')) as [->|Hk].
  - simplify_eq. assert (i ≠ i') by congruence. destruct (decide (i < i')); [left|right]; nia.
  - destruct (fi_blocks _ _ Hi k k' b b' c c' Hb Hc Hb' Hc' Hk) as [H|H]; [left|right]; nia.
Qed.

Lemma flex_nodup f caps : flex_inv f caps → NoDup (flex_iterate f).
Proof.
  intros Hi. pose proof (fi_size _ _ Hi) as Hs. apply NoDup_bind_index.
  - intros b _. apply NoDup_fmap_2; [|apply NoDup_seqZ]. intros x y. nia.
  - intros i j b b' a Hb Hb' Hij (k & Hk & ->)%elem_of_buffer (k' & Hk' & E)%elem_of_buffer.
    destruct (Forall2_lookup_l _ _ _ _ _ (fi_fill _ _ Hi) Hb) as (c & Hc & Hn & _).
    destruct (Forall2_lookup_l _ _ _ _ _ (fi_fill _ _ Hi) Hb') as (c' & Hc' & Hn' & _).
    destruct (fi_blocks _ _ Hi i j b b' c c' Hb Hc Hb' Hc' Hij) as [H|H]; nia.
Qed.

Lemma new_flex_inv cap ts fresh : 0 < cap → 0 < ts → 0 < fresh → fresh + cap * ts ≤ 2 ^ 48 → flex_inv (newFlexibleBuffer cap ts fresh) [cap].
Proof.
  intros. split; simpl; try done.
  - repeat constructor; simpl; (done || lia).
  - intros [|i] [|j]; simpl; try done.
Qed.

(** The block [malloc] returns for the next buffer, when one is needed. *)
Definition malloc_ok (f : FlexibleBuffer) (caps : list Z) (fresh : Z) : Prop :=
  ∀ size, flex_mallocs f = Some size → 0 < fresh ∧ fresh + size ≤ 2 ^ 48 ∧
    ∀ b c i, fb_buffers f !! i = Some b → caps !! i = Some c → separate fresh size (buf_ptr b) (c * fb_typeSize f).

Definition next_caps (f : FlexibleBuffer) (caps : list Z) : list Z :=
  match flex_mallocs f with Some _ => caps ++ [nextCapacity (currCapacity f)] | None => caps end.

(** A new empty block. *)
Lemma nextBuffer_inv f caps fresh : flex_inv f caps → is_Some (flex_mallocs f) → malloc_ok f caps fresh →
  flex_inv (nextBuffer f fresh) (caps ++ [nextCapacity (currCapacity f)]).
Proof.
  intros Hi [size Hm] Hok. destruct (Hok size Hm) as (Hf & Hend & Hsep). destruct Hi as [Hs Hfill [Hl Hc] Hb Hlen].
  assert (size = nextCapacity (currCapacity f) * fb_typeSize f) as ->.
  { unfold flex_mallocs in Hm. destruct (last (fb_buffers f)); [|done]. case_match; by simplify_eq. }
  pose proof (nextCapacity_grows _ Hc) as Hg. pose proof (Forall2_length _ _ _ Hfill) as Hlen2. split; simpl; try done.
  - apply Forall2_app; [done|]. repeat constructor; simpl; (done || lia).
  - split; [apply last_snoc|lia].
  - intros i j b b' c c' Hi1 Hi2 Hj1 Hj2 Hij. apply lookup_snoc_Some in Hi1 as [[? Hi1]|[-> <-]], Hj1 as [[? Hj1]|[-> <-]].
    + rewrite lookup_app_l in Hi2, Hj2 by lia. by eapply Hb.
    + rewrite lookup_app_l in Hi2 by lia. rewrite Hlen2 in Hj2. rewrite lookup_app_r, Nat.sub_diag in Hj2 by lia. simplify_eq/=.
      destruct (Hsep b c i Hi1 Hi2); [right|left]; done.
    + rewrite lookup_app_l in Hj2 by lia. rewrite Hlen2 in Hi2. rewrite lookup_app_r, Nat.sub_diag in Hi2 by lia. simplify_eq/=.
      by apply (Hsep b' c' j).
    + done.
  - rewrite Hlen. unfold flex_iterate. simpl. rewrite bind_app. simpl. by rewrite app_nil_r.
Qed.

Lemma removelast_app_last {A} (l : list A) x : last l = Some x → l = removelast l ++ [x].
Proof. intros H. destruct l as [|y l _] using rev_ind; [done|]. rewrite last_snoc in H. injection H as ->. by rewrite removelast_last. Qed.

(** One more element in the last block. *)
Definition fill (f : FlexibleBuffer) (l : list Buffer) (b : Buffer) : FlexibleBuffer :=
  mkFlex (totalLen f + 1) (currCapacity f) (l ++ [mkBuffer (numElements b + 1) (buf_ptr b)]) (fb_typeSize f).

Lemma fill_inv f caps l b : flex_inv f caps → fb_buffers f = l ++ [b] → numElements b < currCapacity f →
  flex_inv (fill f l b) caps ∧ flex_iterate (fill f l b) = flex_iterate f ++ [buf_ptr b + fb_typeSize f * numElements b].
Proof.
  intros [Hs Hfill [Hl Hc] Hb Hlen] El Hlt.
  destruct caps as [|c caps _] using rev_ind; [done|]. rewrite last_snoc in Hl. injection Hl as ->. rewrite El in Hfill.
  apply Forall2_app_inv in Hfill as [Hf1 Hf2]; [|apply Forall2_length in Hfill; rewrite !length_app in Hfill; simpl in Hfill; lia].
  apply Forall2_cons in Hf2 as [Hfb _]. pose proof (Forall2_length _ _ _ Hf1) as Hlen1.
  assert (flex_iterate (fill f l b) = flex_iterate f ++ [buf_ptr b + fb_typeSize f * numElements b]) as Hit.
  { unfold flex_iterate. rewrite El. simpl. rewrite !bind_app, <- app_assoc. f_equal. simpl. rewrite !app_nil_r. unfold buffer_addrs. simpl.
    rewrite seqZ_app by lia. rewrite fmap_app. simpl. f_equal. f_equal. lia. }
  split; [|done]. split; try done.
  - simpl. apply Forall2_app; [done|]. repeat constructor; simpl; (done || lia).
  - simpl. split; [apply last_snoc|done].
  - intros i j b1 b2 c1 c2 H1 Hc1 H2 Hc2 Hij. simpl in H1, H2.
    assert (∀ k b', (l ++ [mkBuffer (numElements b + 1) (buf_ptr b)]) !! k = Some b' → ∃ b'', fb_buffers f !! k = Some b'' ∧ buf_ptr b'' = buf_ptr b') as Hsame.
    { intros k b' Hk. rewrite El. apply lookup_snoc_Some in Hk as [[? Hk]|[-> <-]]; [exists b'; by rewrite lookup_app_l|].
      exists b. rewrite lookup_app_r, Nat.sub_diag by lia. done. }
    destruct (Hsame i b1 H1) as (d1 & Hd1 & <-), (Hsame j b2 H2) as (d2 & Hd2 & <-). by eapply Hb.
  - rewrite Hit, length_app. simpl. lia.
Qed.

Lemma flex_last_cap f caps b : flex_inv f caps → last (fb_buffers f) = Some b → 0 ≤ numElements b ≤ currCapacity f.
Proof.
  intros [_ Hfill [Hl _] _ _] Hb. rewrite last_lookup in Hl. rewrite last_lookup in Hb. rewrite (Forall2_length _ _ _ Hfill) in Hb.
  destruct (Forall2_lookup_l _ _ _ _ _ Hfill Hb) as (c & Hc & Hn & _). simplify_eq. done.
Qed.

Lemma flex_insert_inv f caps fresh : flex_inv f caps → malloc_ok f caps fresh →
  ∃ f' a, flex_insert f fresh = Ok (f', a) ∧ flex_inv f' (next_caps f caps) ∧ flex_iterate f' = flex_iterate f ++ [a] ∧
    totalLen f' = totalLen f + 1 ∧ fb_typeSize f' = fb_typeSize f.
Proof.
  intros Hi Hok. unfold flex_insert. destruct (last (fb_buffers f)) as [b|] eqn:Eb.
  2:{ exfalso. destruct (fi_last _ _ Hi) as [Hl _]. apply last_None in Eb. pose proof (fi_fill _ _ Hi) as Hf. rewrite Eb in Hf.
      apply Forall2_nil_inv_l in Hf. by subst. }
  assert (∃ f1, (if numElements b =? currCapacity f then nextBuffer f fresh else f) = f1 ∧ flex_inv f1 (next_caps f caps) ∧
    flex_iterate f1 = flex_iterate f ∧ totalLen f1 = totalLen f ∧ fb_typeSize f1 = fb_typeSize f ∧
    ∃ b1, last (fb_buffers f1) = Some b1 ∧ numElements b1 < currCapacity f1) as (f1 & -> & Hi1 & Eit & Elen & Ets & b1 & Eb1 & Hlt).
  { unfold next_caps, flex_mallocs. rewrite Eb. destruct (Z.eqb_spec (numElements b) (currCapacity f)) as [E|E].
    - exists (nextBuffer f fresh). split; [done|]. split_and!; try done.
      + apply nextBuffer_inv; try done. unfold flex_mallocs. rewrite Eb. by rewrite (proj2 (Z.eqb_eq _ _) E).
      + unfold flex_iterate. simpl. rewrite bind_app. simpl. by rewrite app_nil_r.
      + exists (mkBuffer 0 fresh). split; [apply last_snoc|]. simpl. pose proof (fi_last _ _ Hi) as [_ Hc]. pose proof (nextCapacity_grows _ Hc). lia.
    - exists f. split; [done|]. split_and!; try done. exists b. split; [done|]. pose proof (flex_last_cap f caps b Hi Eb). lia. }
  rewrite Eb1. destruct (fill_inv f1 (next_caps f caps) (removelast (fb_buffers f1)) b1 Hi1) as [Hi2 Eit2]; [by apply removelast_app_last|done|].
  exists (fill f1 (removelast (fb_buffers f1)) b1). eexists. split; [reflexivity|]. split_and!; [exact Hi2|by rewrite Eit2, Eit|simpl; lia|done].
Qed.

(** ** Claims *)

#[global] Instance flex_store : EntryStore (FlexibleBuffer * list Z).
Proof.
  refine {|
    es_insert := λ s fresh, let* '(f, a) := flex_insert (fst s) fresh in Ok ((f, next_caps (fst s) (snd s)), a);
    es_addrs := λ s, flex_iterate (fst s);
    es_len := λ s, totalLen (fst s);
    es_ok := λ s, flex_inv (fst s) (snd s);
    es_fresh := λ s fresh, malloc_ok (fst s) (snd s) fresh;
  |}.
  - intros [f caps] fresh Hi Hok. simpl in *. destruct (flex_insert_inv f caps fresh Hi Hok) as (f' & a & -> & Hi' & Hit & Hlen & _).
    simpl. exists (f', next_caps f caps), a. simpl. split_and!; try done.
    + pose proof (flex_nodup _ _ Hi') as Hnd. rewrite Hit in Hnd. apply NoDup_app in Hnd as (_ & Hd & _). intros Hin. apply (Hd a Hin). by left.
    + destruct (elem_of_flex f' _ a Hi') as (k & b & c & i & Hb & Hc & Hr & Hn & ->); [rewrite Hit; set_solver|].
      destruct (Forall2_lookup_lr _ _ _ _ _ _ (fi_fill _ _ Hi') Hb Hc) as (? & ? & ?). pose proof (fi_size _ _ Hi'). nia.
    + destruct (elem_of_flex f' _ a Hi') as (k & b & c & i & Hb & Hc & Hr & Hn & ->); [rewrite Hit; set_solver|].
      destruct (Forall2_lookup_lr _ _ _ _ _ _ (fi_fill _ _ Hi') Hb Hc) as (? & ? & ?). pose proof (fi_size _ _ Hi'). nia.
  - intros [f caps] Hi. apply (fi_len _ _ Hi).
Defined.

(** An insertion into a growing buffer returns the address of an element that
    lies in one of its blocks and does not meet an element handed out before;
    the earlier addresses stay valid, [iterate] visits all of them in the order
    of insertion, and [getLen] counts them. *)
Theorem growing_buffer_insert f caps fresh : flex_inv f caps → malloc_ok f caps fresh →
  ∃ f' a, flex_insert f fresh = Ok (f', a) ∧ flex_inv f' (next_caps f caps) ∧ flex_iterate f' = flex_iterate f ++ [a] ∧
    totalLen f' = totalLen f + 1 ∧ (∀ a', a' ∈ flex_iterate f → separate a (fb_typeSize f) a' (fb_typeSize f)) ∧
    ∃ k b c, fb_buffers f' !! k = Some b ∧ next_caps f caps !! k = Some c ∧
      buf_ptr b ≤ a ∧ a + fb_typeSize f ≤ buf_ptr b + c * fb_typeSize f.
Proof.
  intros Hi Hok. destruct (flex_insert_inv f caps fresh Hi Hok) as (f' & a & E & Hi' & Hit & Hlen & Hts). exists f', a.
  assert (a ∈ flex_iterate f') as Ha by (rewrite Hit; set_solver). split_and!; try done.
  - intros a' Ha'. rewrite <- Hts. apply (flex_separate f' (next_caps f caps)); [done|done|rewrite Hit; set_solver|]. intros ->.
    pose proof (flex_nodup _ _ Hi') as Hnd. rewrite Hit in Hnd. apply NoDup_app in Hnd as (_ & Hd & _). apply (Hd a' Ha'). by left.
  - destruct (elem_of_flex f' _ a Hi' Ha) as (k & b & c & i & Hb & Hc & Hr & Hn & ->). exists k, b, c. rewrite <- Hts.
    pose proof (fi_size _ _ Hi'). split_and!; [done|done|nia|nia].
Qed.

(** A buffer created with capacity 0 never gets room: the element its first
    insertion returns lies outside the block of 0 bytes allocated for it. *)
Theorem zero_capacity_overruns typeSize p fresh : 0 < typeSize →
  flex_mallocs (newFlexibleBuffer 0 typeSize p) = Some 0 ∧
  ∃ f, flex_insert (newFlexibleBuffer 0 typeSize p) fresh = Ok (f, fresh) ∧ fresh + 0 < fresh + typeSize.
Proof. intros H. split; [done|]. eexists. split; [|lia]. unfold flex_insert. simpl. do 2 f_equal. lia. Qed.

(** A buffer that was merged into another one cannot be inserted into. *)
Theorem merged_away_insert f other fresh : flex_insert (snd (flex_merge f other)) fresh = Fault BadAccess.
Proof. done. Qed.

Lemma merge_iterate f g : fb_typeSize f = fb_typeSize g → flex_iterate (fst (flex_merge f g)) = flex_iterate g ++ flex_iterate f.
Proof. intros E. unfold flex_iterate. simpl. by rewrite bind_app, E. Qed.

(** Merging moves the elements without copying: the result iterates over the
    elements of all workers' buffers, each at the address it had. *)
Theorem growing_merge_elements (values : list (option FlexibleBuffer)) ts :
  (∀ f, Some f ∈ values → fb_typeSize f = ts) →
  match growing_merge values with
  | None => ∀ f, Some f ∉ values
  | Some r => flex_iterate r ≡ₚ omap id values ≫= flex_iterate ∧ totalLen r = foldr Z.add 0 (totalLen <$> omap id values) ∧ fb_typeSize r = ts
  end.
Proof.
  assert (∀ values first, fb_typeSize first = ts → (∀ f, Some f ∈ values → fb_typeSize f = ts) →
    flex_iterate (growing_merge_into first values) ≡ₚ flex_iterate first ++ (omap id values ≫= flex_iterate) ∧
    totalLen (growing_merge_into first values) = totalLen first + foldr Z.add 0 (totalLen <$> omap id values) ∧
    fb_typeSize (growing_merge_into first values) = ts) as Hinto.
  { clear values. induction values as [|[b|] values IH]; intros first Hf Hts; simpl.
    - rewrite app_nil_r. split_and!; [done|lia|done].
    - destruct (IH (fst (flex_merge first b))) as (IH1 & IH2 & IH3); [done|intros f Hin; apply Hts; by right|]. split_and!; [|etrans; [exact IH2|]; simpl; apply eq_sym, Z.add_assoc|done].
      etrans; [exact IH1|]. rewrite merge_iterate by (rewrite Hf, Hts; [done|by left]). etrans; [|by rewrite app_assoc]. apply Permutation_app; [apply Permutation_app_comm|done].
    - apply IH; [done|]. intros f Hin. apply Hts. by right. }
  induction values as [|[b|] values IH]; intros Hts; simpl.
  - intros f ?%elem_of_nil. done.
  - destruct (Hinto values b) as (H1 & H2 & H3); [apply Hts; by left|intros f Hin; apply Hts; by right|]. done.
  - destruct (growing_merge values) as [r|]; [apply IH; intros f Hin; apply Hts; by right|].
    intros f [?|Hin]%elem_of_cons; [done|]. apply IH in Hin; [done|]. intros g Hg. apply Hts. by right.
Qed.

Lemma growing_buffer_insert_witness :
  let f := newFlexibleBuffer 1 8 4096 in
  let f1 := mkFlex 1 1 [mkBuffer 1 4096] 8 in
  ∃ f' a, flex_insert f1 8192 = Ok (f', a) ∧ flex_inv f' (next_caps f1 [1]) ∧ flex_iterate f' = flex_iterate f1 ++ [a] ∧
    totalLen f' = totalLen f1 + 1 ∧ (∀ a', a' ∈ flex_iterate f1 → separate a (fb_typeSize f1) a' (fb_typeSize f1)) ∧
    ∃ k b c, fb_buffers f' !! k = Some b ∧ next_caps f1 [1] !! k = Some c ∧
      buf_ptr b ≤ a ∧ a + fb_typeSize f1 ≤ buf_ptr b + c * fb_typeSize f1.
Proof.
  intros f f1. apply (growing_buffer_insert f1 [1] 8192).
  - split; simpl; try done; [repeat constructor; simpl; lia|]. intros [|i] [|j]; done.
  - intros size [= <-]. split_and!; [lia|simpl; vm_compute; congruence|]. intros b c [|i] [= <-] [= <-]. right. simpl. lia.
Defined.

Lemma zero_capacity_overruns_witness :
  flex_mallocs (newFlexibleBuffer 0 8 4096) = Some 0 ∧
  ∃ f, flex_insert (newFlexibleBuffer 0 8 4096) 4112 = Ok (f, 4112) ∧ 4112 + 0 < 4112 + 8.
Proof. apply (zero_capacity_overruns 8 4096 4112). lia. Defined.

Lemma growing_merge_elements_witness :
  let fs := [None; Some (newFlexibleBuffer 4 8 4096); Some (mkFlex 1 1 [mkBuffer 1 8192] 8)] in
  match growing_merge fs with
  | None => ∀ f, Some f ∉ fs
  | Some r => flex_iterate r ≡ₚ omap id fs ≫= flex_iterate ∧ totalLen r = foldr Z.add 0 (totalLen <$> omap id fs) ∧ fb_typeSize r = 8
  end.
Proof.
  intros fs. apply (growing_merge_elements fs 8). intros f Hf. unfold fs in Hf.
  repeat (apply elem_of_cons in Hf as [Hf|Hf]; [first [discriminate Hf|by injection Hf as ->]|]). by apply elem_of_nil in Hf.
Defined.
