(* ===== verification/Hashtable.v ===== *)
(** * The chained hash table of the query runtime

    Model of include/lingodb/runtime/Hashtable.h and src/runtime/Hashtable.cpp.
    Entries live in a store of addresses (a [FlexibleBuffer]); a bucket is a
    tagged pointer to a chain of entries.  The content of an entry is a value of
    an arbitrary type, [isEq] is the generated comparison.  Memory that an
    operation allocates is a parameter: the address [malloc] returns when the
    store grows, and what the fresh bytes of an entry hold. *)

From S2P Require Import Prelude Helpers FlexBuffer.
#[local] Open Scope Z_scope.

Record Entry (C : Type) := mkEntry { e_next : Z; hashValue : Z; content : C }.
Arguments mkEntry {C}.
Arguments e_next {C}.
Arguments hashValue {C}.
Arguments content {C}.

Section hashtable.
Context {S C : Type} `{!EntryStore S} (bloomMasks : Z → Z).

Record Hashtable := mkHashtable { ht : list Z; hashMask : Z; values : S; entries : gmap Z (Entry C) }.

Definition newHashtable (initialCapacity : Z) (store : S) : Hashtable :=
  mkHashtable (replicate (Z.to_nat (initialCapacity * 2)) 0) (initialCapacity * 2 - 1) store ∅.

Definition entry_at (m : gmap Z (Entry C)) (a : Z) : res (Entry C) :=
  match m !! a with Some e => Ok e | None => Fault BadAccess end.
Definition set_next (p : Z) (e : Entry C) : Entry C := mkEntry p (hashValue e) (content e).
Definition set_content (c : C) (e : Entry C) : Entry C := mkEntry (e_next e) (hashValue e) c.

(** The body of the loop of [resize]: [entry] goes to the front of its bucket. *)
Definition relink (mask : Z) (tm : list Z * gmap Z (Entry C)) (a : Z) : res (list Z * gmap Z (Entry C)) :=
  let '(t, m) := tm in
  let* e := entry_at m a in
  let pos := Z.land (hashValue e) mask in
  let* previousPtr := load t pos in
  Ok (zset t pos (tag bloomMasks a previousPtr (hashValue e)), <[a := set_next (untag previousPtr) e]> m).
Fixpoint relink_all (mask : Z) (tm : list Z * gmap Z (Entry C)) (addrs : list Z) : res (list Z * gmap Z (Entry C)) :=
  match addrs with
  | [] => Ok tm
  | a :: addrs => let* tm := relink mask tm a in relink_all mask tm addrs
  end.
Definition resize (h : Hashtable) : res Hashtable :=
  let oldHtSize := hashMask h + 1 in
  let newHtSize := oldHtSize * 2 in
  let mask := newHtSize - 1 in
  let* '(t, m) := relink_all mask (replicate (Z.to_nat newHtSize) 0, entries h) (es_addrs (values h)) in
  Ok (mkHashtable t mask (values h) m).

(** [insert], with the address of the new entry. *)
Definition ht_insert (h : Hashtable) (hash fresh : Z) (garbage : C) : res (Hashtable * Z) :=
  let* h := if hashMask h / 2 <? es_len (values h) then resize h else Ok h in
  let* '(s, a) := es_insert (values h) fresh in
  let pos := Z.land hash (hashMask h) in
  let* previousPtr := load (ht h) pos in
  Ok (mkHashtable (zset (ht h) pos (tag bloomMasks a previousPtr hash)) (hashMask h) s
        (<[a := mkEntry (untag previousPtr) hash garbage]> (entries h)), a).

(** The walk along a chain that [contains], [lookup], [lookUpOrInsert] and
    [mergeEntries] share. *)
Fixpoint walk (isEq : C → C → bool) (fuel : nat) (m : gmap Z (Entry C)) (candidate hash : Z) (keyVal : C) : res (option Z) :=
  if candidate =? 0 then Ok None
  else
    match fuel with
    | O => Fault OutOfFuel
    | Datatypes.S fuel =>
        let* e := entry_at m candidate in
        if (hashValue e =? hash) && isEq (content e) keyVal then Ok (Some candidate)
        else walk isEq fuel m (e_next e) hash keyVal
    end.
Definition find_entry (isEq : C → C → bool) (h : Hashtable) (hash : Z) (keyVal : C) : res (option Z) :=
  let* p := load (ht h) (Z.land hash (hashMask h)) in
  walk isEq (size (entries h)) (entries h) (filterTagged bloomMasks p hash) hash keyVal.

Definition contains (isEq : C → C → bool) (h : Hashtable) (hash : Z) (keyVal : C) : res bool :=
  let* r := find_entry isEq h hash keyVal in Ok (bool_decide (is_Some r)).

Definition ht_lookup (isEq : C → C → bool) (h : Hashtable) (hash : Z) (keyVal : C) : res Z :=
  let* r := find_entry isEq h hash keyVal in
  match r with
  | Some a => Ok a
  | None => Fault (Thrown "Hashtable: lookup failed, no entry found for hash")
  end.

Definition lookUpOrInsert (isEq : C → C → bool) (h : Hashtable) (hash : Z) (keyVal : C) (fresh : Z) (garbage : C) : res (Hashtable * Z) :=
  let* r := find_entry isEq h hash keyVal in
  match r with
  | Some a => Ok (h, a)
  | None => ht_insert h hash fresh garbage
  end.

Definition ht_size (h : Hashtable) : Z := es_len (values h).

(** The caller writes the content of the entry at [a]. *)
Definition write_content (h : Hashtable) (a : Z) (c : C) : Hashtable :=
  mkHashtable (ht h) (hashMask h) (values h) (alter (set_content c) a (entries h)).

(** [mergeEntries] with one entry of the other table, and with all of them;
    [fresh] is what [malloc] returns next to a table of the given state. *)
Definition mergeEntry (isEq : C → C → bool) (combine : C → C → C) (fresh : Hashtable → Z) (h : Hashtable) (other : Entry C) : res Hashtable :=
  let* r := find_entry isEq h (hashValue other) (content other) in
  match r with
  | Some a =>
      let* e := entry_at (entries h) a in
      Ok (write_content h a (combine (content e) (content other)))
  | None =>
      let* '(h, a) := ht_insert h (hashValue other) (fresh h) (content other) in
      Ok (write_content h a (content other))
  end.
Fixpoint merge_all (isEq : C → C → bool) (combine : C → C → C) (fresh : Hashtable → Z) (h : Hashtable) (m : gmap Z (Entry C)) (addrs : list Z) : res Hashtable :=
  match addrs with
  | [] => Ok h
  | a :: addrs =>
      let* e := entry_at m a in
      let* h := mergeEntry isEq combine fresh h e in
      merge_all isEq combine fresh h m addrs
  end.
Definition mergeEntries (isEq : C → C → bool) (combine : C → C → C) (fresh : Hashtable → Z) (h other : Hashtable) : res Hashtable :=
  merge_all isEq combine fresh h (entries other) (es_addrs (values other)).

(** [Hashtable::merge] over the tables of the workers. *)
Fixpoint ht_merge_into (isEq : C → C → bool) (combine : C → C → C) (fresh : Hashtable → Z) (first : Hashtable) (others : list (option Hashtable)) : res Hashtable :=
  match others with
  | [] => Ok first
  | None :: others => ht_merge_into isEq combine fresh first others
  | Some current :: others =>
      let* first := mergeEntries isEq combine fresh first current in
      ht_merge_into isEq combine fresh first others
  end.
Fixpoint ht_merge (isEq : C → C → bool) (combine : C → C → C) (fresh : Hashtable → Z) (tables : list (option Hashtable)) : res (option Hashtable) :=
  match tables with
  | [] => Ok None
  | None :: tables => ht_merge isEq combine fresh tables
  | Some current :: tables =>
      let* first := ht_merge_into isEq combine fresh current tables in
      Ok (Some first)
  end.
End hashtable.
Arguments Hashtable : clear implicits.
