(* ===== verification/HashtableProps.v ===== *)
(** * The hash table finds every entry it holds

    Theorems about Hashtable.v, for every store that keeps the promises of
    [EntryStore]. *)

From S2P Require Import Prelude Helpers HelpersProps FlexBuffer Hashtable.
#[local] Open Scope Z_scope.

Section props.
Context {S C : Type} `{!EntryStore S} (bloomMasks : Z → Z).
#[local] Abbreviation in_tag := (in_tag bloomMasks).

(** ** Chains *)

Fixpoint chain (m : gmap Z (Entry C)) (p : Z) (l : list Z) : Prop :=
  match l with
  | [] => p = 0
  | a :: l => p = a ∧ a ≠ 0 ∧ ∃ e, m !! a = Some e ∧ chain m (e_next e) l
  end.

Lemma chain_ext m m' p l : (∀ a, a ∈ l → e_next <$> m' !! a = e_next <$> m !! a) → chain m p l → chain m' p l.
Proof.
  revert p. induction l as [|a l IH]; intros p Hm Hc; [done|]. destruct Hc as (-> & Ha & e & He & Hc). simpl. split; [done|]. split; [done|].
  pose proof (Hm a ltac:(by left)) as E. rewrite He in E. destruct (m' !! a) as [e'|]; [|done]. simpl in E. injection E as E. exists e'. split; [done|].
  rewrite E. apply IH; [|done]. intros b Hb. apply Hm. by right.
Qed.

Definition hash_of (m : gmap Z (Entry C)) (a : Z) : Z := match m !! a with Some e => hashValue e | None => 0 end.
(** The bucket of an entry. *)
Definition slot (m : gmap Z (Entry C)) (mask a : Z) : Z := Z.land (hash_of m a) mask.

(** The entries [done] are in their buckets, the last one linked first;
    [bucketOf] is the bucket of a hash. *)
Definition linked_by (bucketOf : Z → Z) (t : list Z) (m : gmap Z (Entry C)) (done : list Z) : Prop :=
  ∀ pos, 0 ≤ pos < Z.of_nat (length t) → ∃ p, zget t pos = Some p ∧
    chain m (untag p) (reverse (filter (λ a, bucketOf (hash_of m a) = pos) done)) ∧
    ∀ a, a ∈ done → bucketOf (hash_of m a) = pos → in_tag p (hash_of m a).
Definition linked (t : list Z) (mask : Z) (m : gmap Z (Entry C)) (done : list Z) : Prop :=
  ∀ pos, 0 ≤ pos < Z.of_nat (length t) → ∃ p, zget t pos = Some p ∧
    chain m (untag p) (reverse (filter (λ a, slot m mask a = pos) done)) ∧
    ∀ a, a ∈ done → slot m mask a = pos → in_tag p (hash_of m a).

Lemma untag_tag a prev h : 0 ≤ a < 2 ^ 48 → untag (tag bloomMasks a prev h) = a.
Proof.
  intros Ha. destruct (tag_value bloomMasks a prev h Ha) as [-> Hl]. unfold untag. rewrite Z.shiftr_div_pow2 by lia.
  rewrite Z.add_comm, Z.div_add, Z.div_small by lia. lia.
Qed.

Lemma filter_ext_in {A} (P Q : A → Prop) `{∀ x, Decision (P x), ∀ x, Decision (Q x)} (l : list A) :
  (∀ x, x ∈ l → P x ↔ Q x) → filter P l = filter Q l.
Proof.
  induction l as [|x l IH]; intros HPQ; [done|]. specialize (IH ltac:(intros y Hy; apply HPQ; by right)).
  rewrite !filter_cons, IH. pose proof (HPQ x ltac:(by left)). repeat case_decide; tauto.
Qed.

(** Putting an entry at the front of its bucket. *)
Lemma link_front_by bucketOf t m l a e p :
  linked_by bucketOf t m l → a ∉ l → 0 < a < 2 ^ 48 → zget t (bucketOf (hashValue e)) = Some p → e_next e = untag p →
  linked_by bucketOf (zset t (bucketOf (hashValue e)) (tag bloomMasks a p (hashValue e))) (<[a := e]> m) (l ++ [a]).
Proof.
  intros Hl Ha Hr Hp Hn. set (m' := <[a := e]> m). set (pos0 := bucketOf (hashValue e)).
  assert (∀ b, b ∈ l → m' !! b = m !! b) as Hm by (intros b Hb; unfold m'; rewrite lookup_insert_ne; [done|by intros ->]).
  assert (hash_of m' a = hashValue e) as Eh by (unfold hash_of, m'; by rewrite lookup_insert_eq).
  assert (∀ b, b ∈ l → hash_of m' b = hash_of m b) as Ehb by (intros b Hb; unfold hash_of; by rewrite Hm).
  intros pos Hpos. rewrite length_zset in Hpos. destruct (Hl pos Hpos) as (q & Hq & Hch & Htag).
  assert (filter (λ b, bucketOf (hash_of m' b) = pos) l = filter (λ b, bucketOf (hash_of m b) = pos) l) as Ef.
  { apply filter_ext_in. intros b Hb. by rewrite Ehb. }
  assert (chain m' (untag q) (reverse (filter (λ b, bucketOf (hash_of m' b) = pos) l))) as Hch'.
  { rewrite Ef. eapply chain_ext; [|exact Hch]. intros b Hb. rewrite elem_of_reverse, list_elem_of_filter in Hb. destruct Hb as [_ Hb]. by rewrite Hm. }
  destruct (decide (pos = pos0)) as [->|Hne].
  - assert (q = p) as -> by (unfold pos0 in Hq; congruence). eexists. rewrite zget_zset_eq by done. split; [done|].
    assert (bucketOf (hash_of m' a) = pos0) as Ea by (by rewrite Eh). split.
    + rewrite untag_tag by lia. rewrite filter_app, filter_cons_True, filter_nil by done. rewrite reverse_app. simpl.
      split; [done|]. split; [lia|]. exists e. split; [unfold m'; by rewrite lookup_insert_eq|]. by rewrite Hn.
    + intros b Hb Eslot. rewrite elem_of_app, list_elem_of_singleton in Hb. destruct Hb as [Hb| ->].
      * apply in_tag_later; [lia|]. rewrite Ehb by done. apply Htag; [done|]. by rewrite <- Ehb.
      * rewrite Eh. apply in_tag_here. lia.
  - exists q. rewrite zget_zset_ne by done. split; [done|]. split.
    + rewrite filter_app, filter_cons_False, filter_nil, app_nil_r; [done|]. rewrite Eh. done.
    + intros b Hb Eslot. rewrite elem_of_app, list_elem_of_singleton in Hb. destruct Hb as [Hb| ->].
      * rewrite Ehb by done. apply Htag; [done|]. by rewrite <- Ehb.
      * exfalso. apply Hne. rewrite <- Eslot. by rewrite Eh.
Qed.

Lemma link_front t mask m l a e p :
  linked t mask m l → a ∉ l → 0 < a < 2 ^ 48 → zget t (Z.land (hashValue e) mask) = Some p → e_next e = untag p →
  linked (zset t (Z.land (hashValue e) mask) (tag bloomMasks a p (hashValue e))) mask (<[a := e]> m) (l ++ [a]).
Proof. apply (link_front_by (λ h, Z.land h mask)). Qed.

Lemma linked_by_empty bucketOf n m : linked_by bucketOf (replicate n 0) m [].
Proof.
  intros pos Hpos. rewrite length_replicate in Hpos. exists 0. rewrite zget_replicate by done. split; [done|]. split; [done|].
  by intros a ?%elem_of_nil.
Qed.

Lemma linked_empty n mask m : linked (replicate n 0) mask m [].
Proof. apply (linked_by_empty (λ h, Z.land h mask)). Qed.

(** ** Resizing *)

(** Nothing but the links changes. *)
Definition same_entries (m m' : gmap Z (Entry C)) : Prop :=
  ∀ a, (λ e, (hashValue e, content e)) <$> m' !! a = (λ e, (hashValue e, content e)) <$> m !! a.

Lemma same_hash m m' a : same_entries m m' → hash_of m' a = hash_of m a.
Proof. intros H. specialize (H a). unfold hash_of. destruct (m !! a), (m' !! a); simplify_eq/=; congruence. Qed.

Lemma same_refl m : same_entries m m.
Proof. done. Qed.

Lemma land_mask_range x k : 0 ≤ k → 0 ≤ Z.land x (2 ^ k - 1) < 2 ^ k.
Proof. intros Hk. rewrite land_ones_mod by done. apply Z.mod_pos_bound. by apply Z.pow_pos_nonneg. Qed.

Lemma relink_all_ok k t m l rest :
  0 ≤ k → Z.of_nat (length t) = 2 ^ k → linked t (2 ^ k - 1) m l → NoDup (l ++ rest) →
  (∀ a, a ∈ rest → 0 < a < 2 ^ 48 ∧ is_Some (m !! a)) →
  ∃ t' m', relink_all bloomMasks (2 ^ k - 1) (t, m) rest = Ok (t', m') ∧ length t' = length t ∧ same_entries m m' ∧
    linked t' (2 ^ k - 1) m' (l ++ rest).
Proof.
  intros Hk Hlen. revert t m l Hlen. induction rest as [|a rest IH]; intros t m l Hlen Hl Hnd Hr.
  { exists t, m. rewrite app_nil_r. done. }
  cbn [relink_all relink]. destruct (Hr a ltac:(by left)) as [Ha [e He]]. unfold entry_at. rewrite He. cbn [res_bind].
  destruct (Hl (Z.land (hashValue e) (2 ^ k - 1))) as (p & Hp & _ & _); [rewrite Hlen; by apply land_mask_range|].
  rewrite (load_Some _ _ _ Hp). cbn [res_bind].
  assert (a ∉ l) as Hal by (apply NoDup_app in Hnd as (_ & Hd & _); intros Hin; apply (Hd a Hin); by left).
  pose proof (link_front t (2 ^ k - 1) m l a (set_next (untag p) e) p Hl Hal Ha Hp eq_refl) as Hl'. cbn [set_next hashValue] in Hl'.
  edestruct (IH _ _ _ ltac:(by rewrite length_zset) Hl') as (t' & m' & E & Elen & Hs & Hlk).
  - by rewrite <- app_assoc.
  - intros b Hb. destruct (Hr b ltac:(by right)) as [Hbr Hbs]. split; [done|]. by apply lookup_insert_is_Some'; right.
  - exists t', m'. split_and!; [exact E|by rewrite Elen, length_zset| |by rewrite <- app_assoc in Hlk].
    intros b. rewrite Hs. destruct (decide (a = b)) as [->|]; [|by rewrite lookup_insert_ne]. by rewrite lookup_insert_eq, He.
Qed.

(** ** The invariant *)

Record tab_inv (h : Hashtable S C) : Prop := {
  tv_size : ∃ k, 1 ≤ k ∧ hashMask h = 2 ^ k - 1 ∧ Z.of_nat (length (ht h)) = 2 ^ k;
  tv_store : es_ok (values h);
  tv_addrs : NoDup (es_addrs (values h)) ∧ ∀ a, a ∈ es_addrs (values h) → 0 < a < 2 ^ 48;
  tv_dom : ∀ a, is_Some (entries h !! a) ↔ a ∈ es_addrs (values h);
  tv_linked : linked (ht h) (hashMask h) (entries h) (es_addrs (values h));
}.

Lemma new_inv cap k store : 0 ≤ k → cap = 2 ^ k → es_ok store → es_addrs store = [] → tab_inv (newHashtable cap store : Hashtable S C).
Proof.
  intros Hk -> Hok Hempty. split; simpl; rewrite ?Hempty.
  - exists (k + 1). rewrite length_replicate, Z2Nat.id by (pose proof (Z.pow_nonneg 2 k); lia). rewrite Z.pow_add_r by lia. split_and!; lia.
  - done.
  - split; [apply NoDup_nil_2|by intros a ?%elem_of_nil].
  - intros a. rewrite lookup_empty. split; [by intros []|by intros ?%elem_of_nil].
  - apply linked_empty.
Qed.

Lemma resize_inv h : tab_inv h →
  ∃ h', resize bloomMasks h = Ok h' ∧ tab_inv h' ∧ values h' = values h ∧ same_entries (entries h) (entries h').
Proof.
  intros [(k & Hk & Hm & Hlen) Hs [Hnd Hr] Hd Hl]. unfold resize.
  assert ((hashMask h + 1) * 2 = 2 ^ (k + 1)) as Esize by (rewrite Hm, Z.pow_add_r by lia; lia). rewrite Esize.
  pose proof (Z.pow_nonneg 2 (k + 1) ltac:(lia)) as Hpos.
  destruct (relink_all_ok (k + 1) (replicate (Z.to_nat (2 ^ (k + 1))) 0) (entries h) [] (es_addrs (values h))) as (t & m & -> & Elen & Hsame & Hlk);
    [lia|rewrite length_replicate; lia|apply linked_empty|done|intros a Ha; split; [by apply Hr|by apply Hd]|]. cbn [res_bind].
  rewrite length_replicate in Elen. eexists. split; [done|]. split_and!; try done. split; simpl; try done.
  - exists (k + 1). rewrite Elen. split_and!; lia.
  - intros a. rewrite <- Hd. specialize (Hsame a). destruct (m !! a), (entries h !! a); simplify_eq/=; done.
Qed.

(** An entry other than [a] is what it was, up to its link. *)
Definition others_kept (a : Z) (m m' : gmap Z (Entry C)) : Prop :=
  ∀ b, b ≠ a → (λ e, (hashValue e, content e)) <$> m' !! b = (λ e, (hashValue e, content e)) <$> m !! b.

Lemma insert_inv h hash fresh garbage : tab_inv h → es_fresh (values h) fresh →
  ∃ h' a, ht_insert bloomMasks h hash fresh garbage = Ok (h', a) ∧ tab_inv h' ∧ es_addrs (values h') = es_addrs (values h) ++ [a] ∧
    (a ∉ es_addrs (values h)) ∧ (∃ p, entries h' !! a = Some (mkEntry p hash garbage)) ∧ others_kept a (entries h) (entries h').
Proof.
  intros Hi Hf. unfold ht_insert.
  assert (∃ h1, (if hashMask h / 2 <? es_len (values h) then resize bloomMasks h else Ok h) = Ok h1 ∧ tab_inv h1 ∧ values h1 = values h ∧
    same_entries (entries h) (entries h1)) as (h1 & -> & [(k & Hk & Hm & Hlen) Hs [Hnd Hr] Hd Hl] & Ev & Hsame).
  { destruct (hashMask h / 2 <? es_len (values h)); [by apply resize_inv|]. by exists h. }
  cbn [res_bind]. rewrite Ev in *. destruct (es_insert_ok (values h) fresh Hs Hf) as (s & a & -> & Hs' & Ea & _ & Hna & Hra). cbn [res_bind].
  destruct (Hl (Z.land hash (hashMask h1))) as (p & Hp & _ & _); [rewrite Hlen, Hm; apply land_mask_range; lia|].
  rewrite (load_Some _ _ _ Hp). cbn [res_bind].
  pose proof (link_front (ht h1) (hashMask h1) (entries h1) _ a (mkEntry (untag p) hash garbage) p Hl Hna Hra Hp eq_refl) as Hl'. cbn [hashValue] in Hl'.
  eexists _, a. split; [done|]. split_and!.
  - split; simpl; rewrite ?Ea; try done.
    + exists k. by rewrite length_zset.
    + split.
      * apply NoDup_app. split_and!; [done|by intros x Hx ->%list_elem_of_singleton|apply NoDup_singleton].
      * intros b [Hb| ->%list_elem_of_singleton]%elem_of_app; [by apply Hr|done].
    + intros b. rewrite elem_of_app, list_elem_of_singleton, <- Hd. rewrite lookup_insert_is_Some. naive_solver.
  - done.
  - done.
  - exists (untag p). simpl. by rewrite lookup_insert_eq.
  - intros b Hb. simpl. rewrite lookup_insert_ne by done. apply Hsame.
Qed.

(** ** Finding *)

Definition matching (isEq : C → C → bool) (m : gmap Z (Entry C)) (hash : Z) (key : C) (a : Z) : Prop :=
  match m !! a with Some e => hashValue e = hash ∧ isEq (content e) key = true | None => False end.
#[global] Instance matching_dec isEq m hash key a : Decision (matching isEq m hash key a).
Proof. unfold matching. destruct (m !! a); apply _. Defined.

Lemma walk_ok isEq fuel m p l hash key : chain m p l → (length l ≤ fuel)%nat →
  walk isEq fuel m p hash key = Ok (head (filter (matching isEq m hash key) l)).
Proof.
  revert p l. induction fuel as [|fuel IH]; intros p [|a l] Hc Hl; simpl in Hc, Hl; try lia.
  1, 2: subst p; done.
  destruct Hc as (-> & Ha & e & He & Hc). cbn [walk]. rewrite (proj2 (Z.eqb_neq _ _) Ha). unfold entry_at. rewrite He. cbn [res_bind].
  destruct (decide (matching isEq m hash key a)) as [Hm|Hm].
  - rewrite filter_cons_True by done. unfold matching in Hm. rewrite He in Hm. destruct Hm as [-> ->]. by rewrite Z.eqb_refl.
  - rewrite filter_cons_False by done. unfold matching in Hm. rewrite He in Hm.
    destruct (Z.eqb_spec (hashValue e) hash), (isEq (content e) key) eqn:Eq; cbn [andb]; try (by destruct Hm); apply IH; (done || lia).
Qed.

Lemma head_reverse {A} (l : list A) : head (reverse l) = last l.
Proof. destruct l as [|x l _] using rev_ind; [done|]. by rewrite reverse_app, last_snoc. Qed.

Lemma addrs_size h : tab_inv h → (length (es_addrs (values h)) ≤ size (entries h))%nat.
Proof.
  intros [_ _ [Hnd _] Hd _]. rewrite <- (size_list_to_set (C := gset Z)) by done. rewrite <- size_dom. apply subseteq_size. intros a Ha.
  apply elem_of_list_to_set, Hd in Ha. by apply elem_of_dom.
Qed.

(** The lookup finds the entry inserted last among those with the hash and an
    equal key. *)
Lemma find_ok isEq h hash key : tab_inv h →
  find_entry bloomMasks isEq h hash key = Ok (last (filter (matching isEq (entries h) hash key) (es_addrs (values h)))).
Proof.
  intros Hi. pose proof (addrs_size h Hi) as Hsz. destruct Hi as [(k & Hk & Hm & Hlen) Hs [Hnd Hr] Hd Hl]. unfold find_entry. set (pos := Z.land hash (hashMask h)).
  destruct (Hl pos) as (p & Hp & Hc & Ht); [unfold pos; rewrite Hlen, Hm; apply land_mask_range; lia|]. rewrite (load_Some _ _ _ Hp). cbn [res_bind].
  set (L := reverse (filter (λ a, slot (entries h) (hashMask h) a = pos) (es_addrs (values h)))) in *.
  assert (∀ a, matching isEq (entries h) hash key a → slot (entries h) (hashMask h) a = pos ∧ hash_of (entries h) a = hash) as Hslot.
  { intros a Ha. unfold matching, slot, hash_of in *. destruct (entries h !! a); [|done]. destruct Ha as [-> _]. done. }
  assert (filter (matching isEq (entries h) hash key) L = reverse (filter (matching isEq (entries h) hash key) (es_addrs (values h)))) as Ef.
  { unfold L. rewrite filter_reverse, list_filter_filter. f_equal. apply filter_ext_in. intros a _. split; [tauto|]. intros Ha. split; [done|by apply Hslot]. }
  rewrite <- head_reverse, <- Ef. unfold filterTagged. destruct (matchesTag bloomMasks p hash) eqn:Em.
  - apply walk_ok; [done|]. unfold L. rewrite length_reverse. etrans; [apply length_filter|done].
  - (* the tag excludes the hash *)
    assert (filter (matching isEq (entries h) hash key) L = []) as ->.
    { rewrite Ef. destruct (filter (matching isEq (entries h) hash key) (es_addrs (values h))) as [|a l] eqn:E; [done|]. exfalso.
      assert (a ∈ filter (matching isEq (entries h) hash key) (es_addrs (values h))) as Ha by (rewrite E; by left).
      apply list_elem_of_filter in Ha as [Ham Ha]. destruct (Hslot a Ham) as [Hsl Hh].
      pose proof (in_tag_matches _ _ _ (Ht a Ha Hsl)) as Hmt. rewrite Hh in Hmt. congruence. }
    by destruct (size (entries h)).
Qed.

(** ** Grouping

    What a query does with the table: each key is looked up, and written into
    the entry when the entry is new. *)

Definition upsert (isEq : C → C → bool) (hashFn : C → Z) (fresh : Z) (garbage : C) (h : Hashtable S C) (key : C) : res (Hashtable S C) :=
  let* r := find_entry bloomMasks isEq h (hashFn key) key in
  let* '(h', a) := lookUpOrInsert bloomMasks isEq h (hashFn key) key fresh garbage in
  Ok (match r with Some _ => h' | None => write_content h' a key end).

(** A sequence of keys, with what [malloc] returns on the way. *)
Inductive group_run (isEq : C → C → bool) (hashFn : C → Z) (garbage : C) : Hashtable S C → list C → Hashtable S C → Prop :=
  | gr_nil h : group_run isEq hashFn garbage h [] h
  | gr_cons h fresh key h1 keys h2 :
      es_fresh (values h) fresh → upsert isEq hashFn fresh garbage h key = Ok h1 → group_run isEq hashFn garbage h1 keys h2 →
      group_run isEq hashFn garbage h (key :: keys) h2.

(** The contents in the order of insertion. *)
Definition contents (h : Hashtable S C) : list C := omap (λ a, content <$> entries h !! a) (es_addrs (values h)).

Lemma contents_kept (h h' : Hashtable S C) a : others_kept a (entries h) (entries h') → a ∉ es_addrs (values h) →
  omap (λ b, content <$> entries h' !! b) (es_addrs (values h)) = contents h.
Proof.
  intros Hk Ha. unfold contents. induction (es_addrs (values h)) as [|b l IH]; [done|]. simpl.
  assert (content <$> entries h' !! b = content <$> entries h !! b) as E.
  { specialize (Hk b ltac:(intros ->; apply Ha; by left)). destruct (entries h' !! b), (entries h !! b); simplify_eq/=; congruence. }
  destruct (entries h' !! b), (entries h !! b); simplify_eq/=; rewrite ?IH; try (by apply not_elem_of_cons in Ha as [_ ?]); congruence.
Qed.

Lemma write_inv h a c : tab_inv h → tab_inv (write_content h a c).
Proof.
  intros [Hsz Hs Ha Hd Hl]. split; simpl; try done.
  - intros b. rewrite <- Hd. destruct (decide (a = b)) as [->|]; [rewrite lookup_alter_eq, fmap_is_Some; done|by rewrite lookup_alter_ne].
  - assert (∀ b, hash_of (alter (set_content c) a (entries h)) b = hash_of (entries h) b) as Hh.
    { intros b. unfold hash_of. destruct (decide (a = b)) as [->|]; [rewrite lookup_alter_eq; by destruct (entries h !! b)|by rewrite lookup_alter_ne]. }
    intros pos Hpos. destruct (Hl pos Hpos) as (p & Hp & Hc & Ht). exists p. split; [done|]. split.
    + assert (∀ l, filter (λ b, slot (alter (set_content c) a (entries h)) (hashMask h) b = pos) l = filter (λ b, slot (entries h) (hashMask h) b = pos) l) as ->
        by (intros l; apply filter_ext_in; intros b _; unfold slot; by rewrite Hh).
      eapply chain_ext; [|exact Hc]. intros b _.
      destruct (decide (a = b)) as [->|]; [rewrite lookup_alter_eq; by destruct (entries h !! b)|by rewrite lookup_alter_ne].
    + intros b Hb. unfold slot. rewrite Hh. by apply Ht.
Qed.

Lemma write_contents (h : Hashtable S C) a c : contents (write_content h a c) = omap (λ b, if decide (b = a) then const c <$> entries h !! b else content <$> entries h !! b) (es_addrs (values h)).
Proof.
  unfold contents. simpl.
  induction (es_addrs (values h)) as [|b l IH]; [done|]. csimpl. rewrite IH.
  destruct (decide (b = a)) as [->|]; [rewrite lookup_alter_eq|rewrite lookup_alter_ne by done]; by destruct (entries h !! _).
Qed.

Lemma insert_contents (h h' : Hashtable S C) a hash p garbage c :
  es_addrs (values h') = es_addrs (values h) ++ [a] → a ∉ es_addrs (values h) → entries h' !! a = Some (mkEntry p hash garbage) →
  others_kept a (entries h) (entries h') → contents (write_content h' a c) = contents h ++ [c].
Proof.
  intros Ea Hna He Hk. rewrite write_contents, Ea, omap_app. simpl. rewrite decide_True by done. rewrite He. simpl. f_equal.
  rewrite <- (contents_kept h h' a Hk Hna). clear -Hna. induction (es_addrs (values h)) as [|b l IH]; [done|].
  apply not_elem_of_cons in Hna as [Hb Hl]. csimpl. rewrite decide_False by done. by rewrite IH.
Qed.

(** The keys without repetitions, in the order of their first occurrence. *)
Definition add_key `{!EqDecision C} (seen : list C) (key : C) : list C := if decide (key ∈ seen) then seen else seen ++ [key].

(** Every entry holds the hash of its content. *)
Definition hashed (hashFn : C → Z) (h : Hashtable S C) : Prop := ∀ a e, entries h !! a = Some e → hashValue e = hashFn (content e).

Section group.
Context `{!EqDecision C} (hashFn : C → Z) (garbage : C).
#[local] Abbreviation eqb := (λ x y : C, bool_decide (x = y)).

Lemma elem_of_contents (h : Hashtable S C) key : key ∈ contents h ↔ ∃ a e, a ∈ es_addrs (values h) ∧ entries h !! a = Some e ∧ content e = key.
Proof.
  unfold contents. rewrite list_elem_of_omap. split.
  - intros (a & Ha & E). destruct (entries h !! a) as [e|] eqn:He; [|done]. exists a, e. simplify_eq/=. done.
  - intros (a & e & Ha & He & <-). exists a. by rewrite He.
Qed.

Lemma matching_key (h : Hashtable S C) key a : hashed hashFn h → matching eqb (entries h) (hashFn key) key a ↔ ∃ e, entries h !! a = Some e ∧ content e = key.
Proof.
  intros Hh. unfold matching. destruct (entries h !! a) as [e|] eqn:He; [|naive_solver]. rewrite bool_decide_eq_true. pose proof (Hh a e He). naive_solver.
Qed.

Lemma find_key h key : tab_inv h → hashed hashFn h →
  ∃ r, find_entry bloomMasks eqb h (hashFn key) key = Ok r ∧
    match r with Some a => key ∈ contents h ∧ (∃ e, entries h !! a = Some e ∧ content e = key) | None => key ∉ contents h end.
Proof.
  intros Hi Hh. eexists. split; [by apply find_ok|]. destruct (last _) as [a|] eqn:E.
  - apply last_Some_elem_of, list_elem_of_filter in E as [(e & He & Hk)%matching_key Ha]; [|done]. split; [|by exists e].
    apply elem_of_contents. by exists a, e.
  - apply last_None in E. intros (a & e & Ha & He & Hk)%elem_of_contents.
    assert (a ∈ filter (matching eqb (entries h) (hashFn key) key) (es_addrs (values h))) as Hin.
    { apply list_elem_of_filter. split; [|done]. apply matching_key; [done|]. by exists e. }
    rewrite E in Hin. by apply elem_of_nil in Hin.
Qed.

Lemma write_hashed (h h' : Hashtable S C) a p c :
  hashed hashFn h → entries h' !! a = Some (mkEntry p (hashFn c) garbage) → others_kept a (entries h) (entries h') → hashed hashFn (write_content h' a c).
Proof.
  intros Hh He Hk b e Hb. simpl in Hb. destruct (decide (a = b)) as [->|Hne].
  - rewrite lookup_alter_eq, He in Hb. simplify_eq/=. done.
  - rewrite lookup_alter_ne in Hb by done. specialize (Hk b ltac:(done)). rewrite Hb in Hk.
    destruct (entries h !! b) as [e'|] eqn:E; [|done]. simpl in Hk. injection Hk as -> ->. by apply (Hh b).
Qed.

Lemma upsert_ok h fresh key : tab_inv h → hashed hashFn h → es_fresh (values h) fresh →
  ∃ h', upsert eqb hashFn fresh garbage h key = Ok h' ∧ tab_inv h' ∧ hashed hashFn h' ∧ contents h' = add_key (contents h) key.
Proof.
  intros Hi Hh Hf. destruct (find_key h key Hi Hh) as (r & Er & Hr). unfold upsert, lookUpOrInsert. rewrite Er. cbn [res_bind]. unfold add_key.
  destruct r as [a|]; cbn [res_bind].
  - destruct Hr as [Hin _]. exists h. rewrite decide_True by done. done.
  - destruct (insert_inv h (hashFn key) fresh garbage Hi Hf) as (h' & a & -> & Hi' & Ea & Hna & (p & He) & Hk). cbn [res_bind].
    eexists. split; [done|]. rewrite decide_False by done. split_and!; [by apply write_inv|by eapply write_hashed|by eapply insert_contents].
Qed.

Lemma group_run_inv h keys h' : group_run eqb hashFn garbage h keys h' → tab_inv h → hashed hashFn h →
  tab_inv h' ∧ hashed hashFn h' ∧ contents h' = foldl add_key (contents h) keys.
Proof.
  induction 1 as [|h fresh key h1 keys h2 Hf E Hr IH]; intros Hi Hh; [done|].
  destruct (upsert_ok h fresh key Hi Hh Hf) as (h1' & E' & Hi1 & Hh1 & Ec). rewrite E in E'. injection E' as <-.
  destruct (IH Hi1 Hh1) as (? & ? & Ec2). split_and!; try done. by rewrite Ec2, Ec.
Qed.
End group.
End props.

Lemma add_keys {C} `{!EqDecision C} (l keys : list C) :
  NoDup l → NoDup (foldl add_key l keys) ∧ ∀ key, key ∈ foldl add_key l keys ↔ key ∈ l ∨ key ∈ keys.
Proof.
  revert l. induction keys as [|key keys IH]; intros l Hl; simpl; [split; [done|set_solver]|]. destruct (IH (add_key l key)) as [H1 H2].
  - unfold add_key. case_decide; [done|]. apply NoDup_app. split_and!; [done|by intros x Hx ->%list_elem_of_singleton|apply NoDup_singleton].
  - split; [done|]. intros x. rewrite H2. unfold add_key. case_decide; set_solver.
Qed.

(** ** Claims *)

(** In a table of any size and history, [contains] says whether an entry with
    the hash and an equal key is there, and [lookup] returns one, the one
    inserted last, or throws when there is none; the walk along the bucket ends
    and the tags in the bucket never hide an entry. *)
Theorem hashtable_lookup {S C} `{!EntryStore S} bloomMasks (isEq : C → C → bool) (h : Hashtable S C) hash key : tab_inv bloomMasks h →
  contains bloomMasks isEq h hash key = Ok (bool_decide (Exists (matching isEq (entries h) hash key) (es_addrs (values h)))) ∧
  match ht_lookup bloomMasks isEq h hash key with
  | Ok a => ∃ l1 l2, es_addrs (values h) = l1 ++ a :: l2 ∧ matching isEq (entries h) hash key a ∧ ∀ b, b ∈ l2 → ¬ matching isEq (entries h) hash key b
  | Fault f => f = Thrown "Hashtable: lookup failed, no entry found for hash" ∧ ∀ a, a ∈ es_addrs (values h) → ¬ matching isEq (entries h) hash key a
  end.
Proof.
  intros Hi. unfold contains, ht_lookup. rewrite (find_ok bloomMasks isEq h hash key Hi). cbn [res_bind].
  set (M := matching isEq (entries h) hash key). destruct (last (filter M (es_addrs (values h)))) as [a|] eqn:E.
  - pose proof (last_Some_elem_of _ _ E) as Ha. apply list_elem_of_filter in Ha as [Hm Ha]. split.
    + f_equal. rewrite !bool_decide_eq_true_2; [done| |done]. apply Exists_exists. by exists a.
    + clear Hi. induction (es_addrs (values h)) as [|b l IH] using rev_ind; [done|]. rewrite filter_app in E. destruct (decide (M b)) as [Hb|Hb].
      * rewrite filter_cons_True, filter_nil, last_snoc in E by done. injection E as ->. exists l, []. split_and!; [done|done|]. by intros b ?%elem_of_nil.
      * rewrite filter_cons_False, filter_nil, app_nil_r in E by done.
        destruct IH as (l1 & l2 & -> & _ & H2); [done|by apply last_Some_elem_of, list_elem_of_filter in E as [_ ?]|].
        exists l1, (l2 ++ [b]). split_and!; [by rewrite <- app_assoc|done|]. intros c [Hc| ->%list_elem_of_singleton]%elem_of_app; auto.
  - apply last_None in E. assert (∀ a, a ∈ es_addrs (values h) → ¬ M a) as Hno.
    { intros a Ha HM. assert (a ∈ filter M (es_addrs (values h))) as Hin by (by apply list_elem_of_filter). rewrite E in Hin. by apply elem_of_nil in Hin. }
    split; [|done]. f_equal. rewrite !bool_decide_eq_false_2; [done| |by intros []]. intros (a & Ha & HM)%Exists_exists. by eapply Hno.
Qed.

(** An insertion never fails, whether or not it doubles the table: the new
    entry is there under its hash, and every entry inserted before keeps its
    address, hash and content and can still be found. *)
Theorem hashtable_insert {S C} `{!EntryStore S} bloomMasks (h : Hashtable S C) hash fresh (garbage : C) :
  tab_inv bloomMasks h → es_fresh (values h) fresh →
  ∃ h' a, ht_insert bloomMasks h hash fresh garbage = Ok (h', a) ∧ tab_inv bloomMasks h' ∧ es_addrs (values h') = es_addrs (values h) ++ [a] ∧
    ht_size h' = ht_size h + 1 ∧ (∃ p, entries h' !! a = Some (mkEntry p hash garbage)) ∧ others_kept a (entries h) (entries h').
Proof.
  intros Hi Hf. destruct (insert_inv bloomMasks h hash fresh garbage Hi Hf) as (h' & a & E & Hi' & Ea & _ & He & Hk). exists h', a.
  split_and!; try done. unfold ht_size. rewrite !es_len_ok by (by apply tv_store with bloomMasks). rewrite Ea, length_app. simpl. lia.
Qed.

(** C26. Grouping: after any sequence of keys that were looked up or inserted, the
    table holds each distinct key once, in the order of first occurrence,
    whatever the hash function. *)
Theorem hashtable_groups {S C} `{!EntryStore S, !EqDecision C} bloomMasks (hashFn : C → Z) (garbage : C) (k : Z) (store : S) keys h :
  0 ≤ k → es_ok store → es_addrs store = [] →
  group_run bloomMasks (λ x y, bool_decide (x = y)) hashFn garbage (newHashtable (2 ^ k) store) keys h →
  tab_inv bloomMasks h ∧ contents h = foldl add_key [] keys ∧ NoDup (contents h) ∧ (∀ key, key ∈ contents h ↔ key ∈ keys) ∧
  ∀ fresh key, es_fresh (values h) fresh → is_ok (upsert bloomMasks (λ x y, bool_decide (x = y)) hashFn fresh garbage h key).
Proof.
  intros Hk Hok Hempty Hr. destruct (group_run_inv bloomMasks hashFn garbage _ _ _ Hr) as (Hi & Hh & Ec).
  { by eapply new_inv. }
  { intros a e He. simpl in He. by rewrite lookup_empty in He. }
  unfold contents at 2 in Ec. simpl in Ec. rewrite Hempty in Ec. simpl in Ec.
  destruct (add_keys [] keys NoDup_nil_2) as [H1 H2]. split_and!; [done|done|by rewrite Ec|intros key; rewrite Ec, H2; set_solver|].
  intros fresh key Hf. destruct (upsert_ok bloomMasks hashFn garbage h fresh key Hi Hh Hf) as (h' & E & _). by exists h'.
Qed.

(** A table over a growing buffer of four elements of 24 bytes. *)
Definition sample_masks (i : Z) : Z := 2 ^ (i mod 16).
Definition sample_table : Hashtable (FlexibleBuffer * list Z) Z := newHashtable 4 (newFlexibleBuffer 4 24 4096, [4]).

Lemma sample_table_inv : tab_inv sample_masks sample_table.
Proof. apply (new_inv _ 4 2); [lia|done|apply new_flex_inv; lia|done]. Qed.

Lemma hashtable_insert_witness : ∃ h' a, ht_insert sample_masks sample_table 77 0 5 = Ok (h', a) ∧ tab_inv sample_masks h' ∧
  es_addrs (values h') = es_addrs (values sample_table) ++ [a] ∧ ht_size h' = ht_size sample_table + 1 ∧
  (∃ p, entries h' !! a = Some (mkEntry p 77 5)) ∧ others_kept a (entries sample_table) (entries h').
Proof. apply (hashtable_insert sample_masks sample_table 77 0 5 sample_table_inv). intros ? [=]. Defined.

Lemma hashtable_lookup_witness :
  contains sample_masks Z.eqb sample_table 3 4 = Ok (bool_decide (Exists (matching Z.eqb (entries sample_table) 3 4) (es_addrs (values sample_table)))).
Proof. apply (hashtable_lookup sample_masks Z.eqb sample_table 3 4 sample_table_inv). Defined.

Lemma hashtable_groups_witness : ∃ h : Hashtable (FlexibleBuffer * list Z) Z,
  tab_inv sample_masks h ∧ contents h = foldl add_key [] [7; 7; 9] ∧ NoDup (contents h) ∧ (∀ key, key ∈ contents h ↔ key ∈ [7; 7; 9]) ∧
  ∀ fresh key, es_fresh (values h) fresh → is_ok (upsert sample_masks (λ x y, bool_decide (x = y)) (λ x, x) fresh 0 h key).
Proof.
  eexists. eapply (hashtable_groups sample_masks (λ x, x) 0 2 (newFlexibleBuffer 4 24 4096, [4]) [7; 7; 9]);
    [lia|apply new_flex_inv; lia|done|].
  eapply (gr_cons _ _ _ _ _ 0); [intros ? [=]|vm_compute; reflexivity|]. eapply (gr_cons _ _ _ _ _ 0); [intros ? [=]|vm_compute; reflexivity|].
  eapply (gr_cons _ _ _ _ _ 0); [intros ? [=]|vm_compute; reflexivity|]. apply gr_nil.
Defined.
