(* ===== verification/HashMerge.v ===== *)
(** * Merging the hash tables of an aggregation

    Every worker aggregates its rows into a table of its own, whose entries are
    pairs of a key and a state; [Hashtable::merge] combines them.  A table is
    seen as the map from keys to states, and merging as the union of maps that
    combines the states of keys in both. *)

From S2P Require Import Prelude Helpers FlexBuffer Hashtable HashtableProps.
#[local] Open Scope Z_scope.

Section merge.
Context {S K A : Type} `{!EntryStore S, !EqDecision K, !Countable K}.
Context (bloomMasks : Z → Z) (hashFn : K → Z) (comb : A → A → A) (fresh : Hashtable S (K * A) → Z).
#[local] Abbreviation table := (Hashtable S (K * A)).

(** The generated functions of an aggregation: keys are compared, and merging
    keeps the key. *)
Definition same_key (x y : K * A) : bool := bool_decide (x.1 = y.1).
Definition combine_states (x y : K * A) : K * A := (x.1, comb x.2 y.2).

(** The table as a map. *)
Definition groups (h : table) : gmap K A := list_to_map (contents h).

(** What the workers' tables satisfy: the invariant of the table, the stored
    hashes are those of the keys, and no key occurs twice. *)
Record agg_inv (h : table) : Prop := {
  ag_tab : tab_inv bloomMasks h;
  ag_hash : hashed (λ c, hashFn c.1) h;
  ag_key : ∀ a b e f, entries h !! a = Some e → entries h !! b = Some f → (content e).1 = (content f).1 → a = b;
}.

Lemma contents_keys_nodup h : agg_inv h → NoDup (contents h).*1.
Proof using Type.
  intros [Ht _ Hk]. destruct (tv_addrs _ _ Ht) as [Hnd _]. unfold contents. induction (es_addrs (values h)) as [|a l IH]; [apply NoDup_nil_2|].
  apply NoDup_cons in Hnd as [Ha Hl]. csimpl. specialize (IH Hl). destruct (entries h !! a) as [e|] eqn:He; [|done]. csimpl. apply NoDup_cons. split; [|done].
  intros (c & Ec & Hc)%list_elem_of_fmap. apply list_elem_of_omap in Hc as (b & Hb & E). destruct (entries h !! b) as [f|] eqn:Hf; [|done]. simplify_eq/=.
  apply Ha. by rewrite (Hk a b e f He Hf Ec).
Qed.

Lemma groups_spec h k x : agg_inv h → groups h !! k = Some x ↔ ∃ a e, entries h !! a = Some e ∧ content e = (k, x).
Proof using Type.
  intros Hi. unfold groups. rewrite <- elem_of_list_to_map by (by apply contents_keys_nodup). rewrite elem_of_contents. split; [intros (a & e & _ & He & Ec); by exists a, e|].
  intros (a & e & He & Ec). exists a, e. split_and!; try done. apply (tv_dom _ _ (ag_tab _ Hi)). by exists e.
Qed.

Lemma groups_None h k : agg_inv h → (∀ a e, entries h !! a = Some e → (content e).1 ≠ k) → groups h !! k = None.
Proof using Type.
  intros Hi Hk. destruct (groups h !! k) as [x|] eqn:E; [|done]. apply (groups_spec _ _ _ Hi) in E as (a & e & He & Ec).
  destruct (Hk a e He). by rewrite Ec.
Qed.

(** ** One entry *)

Lemma find_group h k x : agg_inv h →
  (∃ a e, find_entry bloomMasks same_key h (hashFn k) (k, x) = Ok (Some a) ∧ entries h !! a = Some e ∧ (content e).1 = k) ∨
  (find_entry bloomMasks same_key h (hashFn k) (k, x) = Ok None ∧ ∀ a e, entries h !! a = Some e → (content e).1 ≠ k).
Proof using Type.
  intros [Ht Hh Hk]. rewrite (find_ok bloomMasks same_key h (hashFn k) (k, x) Ht). destruct (last _) as [a|] eqn:E.
  - left. apply last_Some_elem_of, list_elem_of_filter in E as [Hm Ha]. unfold matching in Hm. destruct (entries h !! a) as [e|] eqn:He; [|done].
    exists a, e. split_and!; try done. destruct Hm as [_ Hm]. by apply bool_decide_eq_true in Hm.
  - right. split; [done|]. intros a e He Ek. apply last_None in E.
    assert (a ∈ filter (matching same_key (entries h) (hashFn k) (k, x)) (es_addrs (values h))) as Hin.
    { apply list_elem_of_filter. split; [|apply (tv_dom _ _ Ht); by exists e]. unfold matching. rewrite He. split; [by rewrite (Hh a e He), Ek|].
      by apply bool_decide_eq_true. }
    rewrite E in Hin. by apply elem_of_nil in Hin.
Qed.

(** A key with a state joins the map. *)
Definition merge1 (m : gmap K A) (c : K * A) : gmap K A :=
  <[c.1 := match m !! c.1 with Some y => comb y c.2 | None => c.2 end]> m.

Lemma write_content_lookup (h : table) a c b e : entries (write_content h a c) !! b = Some e ↔
  ∃ e', entries h !! b = Some e' ∧ e = if decide (b = a) then set_content c e' else e'.
Proof using Type.
  simpl. destruct (decide (b = a)) as [->|Hne].
  - rewrite lookup_alter_eq, fmap_Some. done.
  - rewrite lookup_alter_ne by done. split; [intros He; by exists e|by intros (e' & He & ->)].
Qed.

(** The state of an existing key is replaced. *)
Lemma write_group h a e y : agg_inv h → entries h !! a = Some e →
  agg_inv (write_content h a ((content e).1, y)) ∧ groups (write_content h a ((content e).1, y)) = <[(content e).1 := y]> (groups h).
Proof using Type.
  intros Hi He. assert (agg_inv (write_content h a ((content e).1, y))) as Hi'.
  { split.
    - apply write_inv, Hi.
    - intros b f Hf. apply write_content_lookup in Hf as (f' & Hf & ->). case_decide; [subst b; rewrite He in Hf; injection Hf as <-; exact (ag_hash _ Hi a e He)|exact (ag_hash _ Hi b f' Hf)].
    - intros b c f g Hf Hg. apply write_content_lookup in Hf as (f' & Hf & ->). apply write_content_lookup in Hg as (g' & Hg & ->).
      intros E. apply (ag_key _ Hi b c f' g' Hf Hg). repeat case_decide; simplify_eq/=; congruence. }
  split; [done|]. apply map_eq. intros k. apply option_eq. intros z. rewrite (groups_spec _ _ _ Hi'). setoid_rewrite write_content_lookup.
  destruct (decide ((content e).1 = k)) as [<-|Hne].
  - rewrite lookup_insert_eq. split.
    + intros (b & f & (f' & Hf & ->) & Ec). case_decide; [by simplify_eq/=|]. destruct H. apply (ag_key _ Hi b a f' e Hf He). by rewrite Ec.
    + intros [= <-]. exists a. eexists. split; [by exists e|]. by rewrite decide_True.
  - rewrite lookup_insert_ne by done. rewrite (groups_spec _ _ _ Hi). split.
    + intros (b & f & (f' & Hf & ->) & Ec). case_decide; [by simplify_eq/=|]. by exists b, f'.
    + intros (b & f & Hf & Ec). exists b. eexists. split; [by exists f|]. rewrite decide_False; [done|]. intros ->. simplify_eq/=. by rewrite Ec in Hne.
Qed.

(** A new key is added. *)
Lemma insert_group h h' a k x p : agg_inv h → tab_inv bloomMasks h' → (∀ a e, entries h !! a = Some e → (content e).1 ≠ k) → a ∉ es_addrs (values h) →
  entries h' !! a = Some (mkEntry p (hashFn k) (k, x)) → others_kept a (entries h) (entries h') →
  agg_inv h' ∧ groups h' = <[k := x]> (groups h).
Proof using Type.
  intros Hi Ht Hnew Hna Ha Hk.
  assert (∀ b c, b ≠ a → (∃ e, entries h' !! b = Some e ∧ (hashValue e, content e) = c) ↔ (∃ e, entries h !! b = Some e ∧ (hashValue e, content e) = c)) as Hko.
  { intros b c Hb. specialize (Hk b Hb). destruct (entries h' !! b) as [e1|], (entries h !! b) as [e2|]; simpl in Hk; [injection Hk as E1 E2|done|done|split; by intros (? & ? & _)].
    split; intros (e0 & [= <-] & <-); (eexists; split; [done|congruence]). }
  assert (entries h !! a = None) as Hn by (destruct (entries h !! a) eqn:E; [|done]; destruct Hna; apply (tv_dom _ _ (ag_tab _ Hi)); by eexists).
  assert (∀ b e, entries h' !! b = Some e → b = a ∧ e = mkEntry p (hashFn k) (k, x) ∨ b ≠ a ∧ ∃ e', entries h !! b = Some e' ∧ hashValue e = hashValue e' ∧ content e = content e') as Hcase.
  { intros b e Hb. destruct (decide (b = a)) as [->|Hne]; [left; by simplify_eq|]. right. split; [done|].
    destruct (proj1 (Hko b _ Hne) (ex_intro _ e (conj Hb eq_refl))) as (e' & He' & E). exists e'. by simplify_eq. }
  assert (agg_inv h') as Hi'.
  { split; [done| |].
    - intros b e Hb. destruct (Hcase b e Hb) as [[-> ->]|(_ & e' & He' & -> & ->)]; [done|]. by apply (ag_hash _ Hi b).
    - intros b c e f He Hf Ek. destruct (Hcase b e He) as [[-> ->]|(Hb & e' & He' & _ & E1)], (Hcase c f Hf) as [[-> ->]|(Hc & f' & Hf' & _ & E2)]; [done| | |].
      + destruct (Hnew c f' Hf'). by rewrite <- E2.
      + destruct (Hnew b e' He'). by rewrite <- E1.
      + apply (ag_key _ Hi b c e' f' He' Hf'). congruence. }
  split; [done|]. apply map_eq. intros k'. apply option_eq. intros z. rewrite (groups_spec _ _ _ Hi'). destruct (decide (k = k')) as [<-|Hne].
  - rewrite lookup_insert_eq. split.
    + intros (b & e & He & Ec). destruct (Hcase b e He) as [[-> ->]|(Hb & e' & He' & _ & E1)]; [by simplify_eq/=|]. destruct (Hnew b e' He'). by rewrite <- E1, Ec.
    + intros [= <-]. eexists _, _. done.
  - rewrite lookup_insert_ne by done. rewrite (groups_spec _ _ _ Hi). split.
    + intros (b & e & He & Ec). destruct (Hcase b e He) as [[-> ->]|(Hb & e' & He' & _ & E1)]; [by simplify_eq/=|]. exists b, e'. by rewrite <- E1.
    + intros (b & e & He & Ec). assert (b ≠ a) as Hb by (intros ->; congruence).
      destruct (proj2 (Hko b _ Hb) (ex_intro _ e (conj He eq_refl))) as (e' & He' & E). exists b, e'. split; [done|]. congruence.
Qed.

Lemma mergeEntry_ok h c nx : agg_inv h → es_fresh (values h) (fresh h) →
  ∃ h', mergeEntry bloomMasks same_key combine_states fresh h (mkEntry nx (hashFn c.1) c) = Ok h' ∧ agg_inv h' ∧ groups h' = merge1 (groups h) c.
Proof.
  intros Hi Hf. destruct c as [k x]. unfold mergeEntry, merge1. cbn [hashValue content fst snd].
  destruct (find_group h k x Hi) as [(a & e & -> & He & <-)|[-> Hnew]]; cbn [res_bind].
  - unfold entry_at. rewrite He. cbn [res_bind]. eexists. split; [done|]. unfold combine_states. cbn [snd].
    destruct (write_group h a e (comb (content e).2 x) Hi He) as [Hi' ->]. split; [done|].
    rewrite (proj2 (groups_spec h (content e).1 (content e).2 Hi)); [done|]. exists a, e. split; [done|]. by destruct (content e).
  - destruct (insert_inv bloomMasks h (hashFn k) (fresh h) (k, x) (ag_tab _ Hi) Hf) as (h' & a & -> & Ht & Ea & Hna & (p & Ha) & Hk). cbn [res_bind].
    destruct (insert_group h h' a k x p Hi Ht Hnew Hna Ha Hk) as [Hi' Hg]. eexists. split; [done|].
    destruct (write_group h' a _ x Hi' Ha) as [Hi2 Hg2]. cbn [content fst] in *. split; [done|]. rewrite Hg2, Hg, (groups_None h k Hi Hnew).
    by rewrite insert_insert_eq.
Qed.

(** ** A table *)

(** [malloc] answers as it should along a merge. *)
Fixpoint fresh_along (h : table) (l : list (Entry (K * A))) : Prop :=
  match l with
  | [] => True
  | e :: l => es_fresh (values h) (fresh h) ∧ ∀ h', mergeEntry bloomMasks same_key combine_states fresh h e = Ok h' → fresh_along h' l
  end.
(** The entries of a table in the order of [iterate]. *)
Definition entry_list (h : table) : list (Entry (K * A)) := omap (λ a, entries h !! a) (es_addrs (values h)).

Lemma merge_all_ok m addrs h : agg_inv h → (∀ a, a ∈ addrs → ∃ e, m !! a = Some e ∧ hashValue e = hashFn (content e).1) →
  fresh_along h (omap (λ a, m !! a) addrs) →
  ∃ h', merge_all bloomMasks same_key combine_states fresh h m addrs = Ok h' ∧ agg_inv h' ∧
    groups h' = foldl merge1 (groups h) (omap (λ a, content <$> m !! a) addrs).
Proof.
  revert h. induction addrs as [|a addrs IH]; intros h Hi Hm Hf; [by exists h|]. cbn [merge_all].
  destruct (Hm a ltac:(by left)) as (e & He & Eh). unfold entry_at. csimpl in Hf. rewrite He in Hf |- *. cbn [res_bind]. destruct Hf as [Hf Hfs].
  destruct e as [nx hv c]. simpl in Eh. subst hv. destruct (mergeEntry_ok h c nx Hi Hf) as (h1 & E1 & Hi1 & Eg). rewrite E1. cbn [res_bind].
  destruct (IH h1 Hi1) as (h2 & -> & Hi2 & Eg2); [intros b Hb; apply Hm; by right|by apply Hfs|]. exists h2. split_and!; try done.
  rewrite Eg2, Eg. csimpl. rewrite He. done.
Qed.

Lemma foldl_merge1 l m : NoDup l.*1 → foldl merge1 m l = union_with (λ x y, Some (comb x y)) m (list_to_map l).
Proof.
  revert m. induction l as [|[k x] l IH]; intros m Hnd; csimpl.
  - apply map_eq. intros k. rewrite lookup_union_with, lookup_empty. by destruct (m !! k).
  - apply NoDup_cons in Hnd as [Hk Hl]. rewrite IH by done. apply map_eq. intros k'. rewrite !lookup_union_with. unfold merge1. cbn [fst snd].
    destruct (decide (k = k')) as [<-|Hne].
    + rewrite !lookup_insert_eq, (not_elem_of_list_to_map_1 _ _ Hk). by destruct (m !! k).
    + by rewrite !lookup_insert_ne.
Qed.

Lemma mergeEntries_ok h other : agg_inv h → agg_inv other → fresh_along h (entry_list other) →
  ∃ h', mergeEntries bloomMasks same_key combine_states fresh h other = Ok h' ∧ agg_inv h' ∧
    groups h' = union_with (λ x y, Some (comb x y)) (groups h) (groups other).
Proof.
  intros Hi Ho Hf. destruct (merge_all_ok (entries other) (es_addrs (values other)) h Hi) as (h' & E & Hi' & Eg); [|done|].
  - intros a Ha. apply (tv_dom _ _ (ag_tab _ Ho)) in Ha as [e He]. exists e. split; [done|]. by apply (ag_hash _ Ho a).
  - exists h'. split_and!; try done. rewrite Eg. apply foldl_merge1. by apply contents_keys_nodup.
Qed.

(** ** All workers *)

Fixpoint fresh_merge (h : table) (others : list (option table)) : Prop :=
  match others with
  | [] => True
  | None :: others => fresh_merge h others
  | Some o :: others => fresh_along h (entry_list o) ∧
      ∀ h', mergeEntries bloomMasks same_key combine_states fresh h o = Ok h' → fresh_merge h' others
  end.

Lemma ht_merge_into_ok h others : agg_inv h → (∀ o, Some o ∈ others → agg_inv o) → fresh_merge h others →
  ∃ h', ht_merge_into bloomMasks same_key combine_states fresh h others = Ok h' ∧ agg_inv h' ∧
    groups h' = foldl (union_with (λ x y, Some (comb x y))) (groups h) (groups <$> omap id others).
Proof.
  revert h. induction others as [|[o|] others IH]; intros h Hi Ho Hf; csimpl.
  - by exists h.
  - destruct Hf as [Hf Hfs]. destruct (mergeEntries_ok h o Hi (Ho o ltac:(by left)) Hf) as (h1 & E1 & Hi1 & Eg). rewrite E1. cbn [res_bind].
    destruct (IH h1 Hi1) as (h2 & E2 & Hi2 & Eg2); [intros o' ?; apply Ho; by right|by apply Hfs|]. exists h2. rewrite E2, Eg2, Eg. done.
  - apply IH; [done|intros o ?; apply Ho; by right|done].
Qed.
End merge.

(** ** Claim *)

(** C13. Merging the tables of the workers returns, the result satisfies the
    invariant of an aggregation again (so it can be merged further), and the
    state of every key is what the states the workers have for it combine to,
    in the order of the workers; workers without a table are skipped. *)
Theorem hashtable_merge {S K A} `{!EntryStore S, !EqDecision K, !Countable K} bloomMasks (hashFn : K → Z) (comb : A → A → A)
    (fresh : Hashtable S (K * A) → Z) (h : Hashtable S (K * A)) (others : list (option (Hashtable S (K * A)))) :
  agg_inv bloomMasks hashFn h → (∀ o, Some o ∈ others → agg_inv bloomMasks hashFn o) → fresh_merge bloomMasks comb fresh h others →
  ∃ h', ht_merge bloomMasks same_key (combine_states comb) fresh (None :: Some h :: others) = Ok (Some h') ∧ agg_inv bloomMasks hashFn h' ∧
    ∀ k, groups h' !! k = foldl (union_with (λ x y, Some (comb x y))) (groups h !! k) ((λ o, groups o !! k) <$> omap id others).
Proof.
  intros Hi Ho Hf. destruct (ht_merge_into_ok bloomMasks hashFn comb fresh h others Hi Ho Hf) as (h' & E & Hi' & Eg).
  exists h'. cbn [ht_merge]. rewrite E. split_and!; try done. intros k. rewrite Eg. generalize (groups h). clear.
  induction (omap id others) as [|o l IH]; intros m; [done|]. csimpl. by rewrite IH, lookup_union_with.
Qed.

(** A table with one group. *)
Definition sample_empty : Hashtable (FlexibleBuffer * list Z) (Z * Z) := newHashtable 4 (newFlexibleBuffer 4 32 4096, [4]).
Definition sample_one (k x : Z) : Hashtable (FlexibleBuffer * list Z) (Z * Z) :=
  match ht_insert sample_masks sample_empty k 0 (k, x) with Ok (h, _) => h | Fault _ => sample_empty end.

Lemma sample_one_inv k x : agg_inv sample_masks (λ k, k) (sample_one k x).
Proof.
  assert (tab_inv sample_masks sample_empty) as Ht by (apply (new_inv _ 4 2); [lia|done|apply new_flex_inv; lia|done]).
  assert (agg_inv sample_masks (λ k, k) sample_empty) as Hi by (split; [done|..]; repeat intro; simplify_map_eq).
  unfold sample_one. destruct (insert_inv sample_masks sample_empty k 0 (k, x) Ht ltac:(intros ? [=])) as (h & a & -> & Hi' & _ & Hna & (p & Ha) & Hk).
  eapply (insert_group sample_masks (λ k, k) sample_empty h a k x p Hi); try done; intros ? ? ?; simplify_map_eq.
Qed.

(** Three workers; two have the key 7. *)
Lemma hashtable_merge_witness :
  ∃ h', ht_merge sample_masks same_key (combine_states Z.add) (λ _, 0) [None; Some (sample_one 7 5); Some (sample_one 7 2); None; Some (sample_one 9 1)] = Ok (Some h') ∧
    groups h' !! 7 = Some 7 ∧ groups h' !! 9 = Some 1.
Proof.
  destruct (hashtable_merge sample_masks (λ k, k) Z.add (λ _, 0) (sample_one 7 5) [Some (sample_one 7 2); None; Some (sample_one 9 1)]) as (h' & E & _ & Hg).
  - apply sample_one_inv.
  - intros o Ho. repeat (apply elem_of_cons in Ho as [E|Ho]; [try discriminate E; injection E as ->; apply sample_one_inv|]). by apply elem_of_nil in Ho.
  - cbn [fresh_merge]. split.
    + replace (entry_list (sample_one 7 2)) with [mkEntry 0 7 (7, 2)] by (vm_compute; reflexivity).
      split; [intros n E; vm_compute in E; discriminate E|intros h' _; exact I].
    + intros h1 E1. vm_compute in E1. injection E1 as <-. split; [|done].
      replace (entry_list (sample_one 9 1)) with [mkEntry 0 9 (9, 1)] by (vm_compute; reflexivity).
      split; [intros n E; vm_compute in E; discriminate E|intros h' _; exact I].
  - exists h'. split; [done|]. rewrite !Hg. split; vm_compute; reflexivity.
Defined.
