(* ===== verification/HashView.v ===== *)
(** * The hash index over a buffer

    Model of src/runtime/LazyJoinHashtable.cpp: [HashIndexedView::build] links
    the entries of a buffer into buckets, all workers at once and without
    locks.  Every entry of the buffer is linked by one call of the callback; a
    state holds the table, the entries and where each call is.  [step i] is the
    next access of call [i] to shared memory. *)

From S2P Require Import Prelude Helpers FlexBuffer Hashtable.
#[local] Open Scope Z_scope.

(** [nextPow2] of LazyJoinHashtable.h, PreAggregationHashtable.cpp and
    LingoDBHashIndex.cpp, on 64 bits. *)
Definition smear (v k : Z) : Z := Z.lor v (Z.shiftr v k).
Definition nextPow2 (v : Z) : Z :=
  let v := u64 (v - 1) in
  let v := smear v 1 in
  let v := smear v 2 in
  let v := smear v 4 in
  let v := smear v 8 in
  let v := smear v 16 in
  let v := smear v 32 in
  u64 (v + 1).

(** [std::max(nextPow2(len * 1.25), 1)]; the product is a double, truncated. *)
Definition htSizeFor (len : Z) : Z := Z.max (nextPow2 (round53 (round53 len * 5) / 4)) 1.

Inductive pc :=
  | Start                       (* about to load the slot *)
  | Loaded (current : Z)        (* about to write [entry->next] *)
  | Linked (current new : Z)    (* about to exchange *)
  | Done.

Record View := mkView { vw_ht : list Z; vw_entries : gmap Z (Entry unit); calls : list (Z * pc) }.

Section view.
Context (bloomMasks : Z → Z) (htMask : Z).

Definition set_pc (i : nat) (a : Z) (p : pc) (s : View) : View := mkView (vw_ht s) (vw_entries s) (<[i := (a, p)]> (calls s)).

(** [spurious]: [compare_exchange_weak] may fail although the slot holds the
    expected value. *)
Definition step (spurious : bool) (i : nat) (s : View) : option View :=
  '(a, p) ← calls s !! i;
  e ← vw_entries s !! a;
  let pos := Z.land (hashValue e) htMask in
  slot ← zget (vw_ht s) pos;
  match p with
  | Start => Some (set_pc i a (Loaded slot) s)
  | Loaded current =>
      Some (mkView (vw_ht s) (<[a := set_next (untag current) e]> (vw_entries s))
              (<[i := (a, Linked current (tag bloomMasks a current (hashValue e)))]> (calls s)))
  | Linked current new =>
      if (slot =? current) && negb spurious
      then Some (mkView (zset (vw_ht s) pos new) (vw_entries s) (<[i := (a, Done)]> (calls s)))
      else Some (set_pc i a (Loaded slot) s)
  | Done => None
  end.

Inductive steps : nat → View → View → Prop :=
  | steps_refl s : steps 0 s s
  | steps_next k b s1 s2 s3 i : steps k s1 s2 → step b i s2 = Some s3 → steps (S k) s1 s3.
End view.

(** The state in which the callbacks start: the entries of the buffer with
    their hashes, their links not written yet. *)
Definition initView (entries : list (Z * Z)) : View :=
  let size := htSizeFor (Z.of_nat (length entries)) in
  mkView (replicate (Z.to_nat size) 0) (list_to_map ((λ e, (fst e, mkEntry 0 (snd e) tt)) <$> entries))
    ((λ e, (fst e, Start)) <$> entries).
Definition htMaskFor (entries : list (Z * Z)) : Z := htSizeFor (Z.of_nat (length entries)) - 1.

(** What the compiled code starts a lookup with. *)
Definition view_lookup (bloomMasks : Z → Z) (htMask : Z) (s : View) (hash : Z) : res Z :=
  let* p := load (vw_ht s) (Z.land hash htMask) in Ok (filterTagged bloomMasks p hash).
