(* ===== verification/HashViewProps.v ===== *)
(** * The hash index holds every entry, whatever the interleaving *)

From S2P Require Import Prelude Helpers HelpersProps FlexBuffer Hashtable HashtableProps HashView.
#[local] Open Scope Z_scope.

(** ** The next power of two *)

(** [y] has a bit set where [x] has one within the next [n] places. *)
Definition spread (x n y : Z) : Prop := 0 ≤ y ∧ ∀ i, 0 ≤ i → Z.testbit y i = true ↔ ∃ o, 0 ≤ o < n ∧ Z.testbit x (i + o) = true.

Lemma spread_smear x n y : 0 < n → spread x n y → spread x (2 * n) (smear y n).
Proof.
  intros Hn [Hy Hs]. unfold smear. split; [apply Z.lor_nonneg; split; [done|by apply Z.shiftr_nonneg]|]. intros i Hi.
  rewrite Z.lor_spec, Z.shiftr_spec, orb_true_iff, Hs, Hs by lia. split.
  - intros [(o & Ho & Hb)|(o & Ho & Hb)]; [exists o; split; [lia|done]|]. exists (n + o). split; [lia|]. by replace (i + (n + o)) with (i + n + o) by lia.
  - intros (o & Ho & Hb). destruct (Z.lt_ge_cases o n); [left; exists o; split; [lia|done]|]. right. exists (o - n). split; [lia|].
    by replace (i + n + (o - n)) with (i + o) by lia.
Qed.

Lemma smear_all x : 0 < x < 2 ^ 64 → smear (smear (smear (smear (smear (smear x 1) 2) 4) 8) 16) 32 = Z.ones (Z.log2 x + 1).
Proof.
  intros Hx. assert (spread x 1 x) as H0.
  { split; [lia|]. intros i Hi. split; [intros Hb; exists 0; by rewrite Z.add_0_r|]. intros (o & Ho & Hb). by replace (i + o) with i in Hb by lia. }
  do 5 (apply spread_smear in H0; [|lia]; cbn [Z.mul Pos.mul] in H0). apply spread_smear in H0; [|lia]. cbn [Z.mul Pos.mul] in H0. destruct H0 as [Hpos Hs].
  assert (Z.log2 x < 64) as Hlog by (apply Z.log2_lt_pow2; lia). pose proof (Z.log2_nonneg x).
  apply Z.bits_inj'. intros i Hi. apply Bool.eq_iff_eq_true. rewrite Hs, Z.testbit_ones_nonneg, Z.ltb_lt by lia. split.
  - intros (o & Ho & Hb). destruct (Z.lt_ge_cases (Z.log2 x) (i + o)) as [Hlt|]; [|lia]. assert (Z.testbit x (i + o) = false) by (apply Z.bits_above_log2; lia). congruence.
  - intros Hle. exists (Z.log2 x - i). split; [lia|]. replace (i + (Z.log2 x - i)) with (Z.log2 x) by lia. apply Z.bit_log2; lia.
Qed.

Lemma nextPow2_spec v : 1 ≤ v ≤ 2 ^ 63 → ∃ k, 0 ≤ k ≤ 63 ∧ nextPow2 v = 2 ^ k ∧ v ≤ 2 ^ k ∧ (1 < v → 2 ^ (k - 1) < v).
Proof.
  intros Hv. unfold nextPow2, u64. rewrite (wrap_u_id 64 (v - 1)) by (unfold in_u; lia). destruct (decide (v = 1)) as [->|Hne].
  { exists 0. split_and!; [lia|lia|reflexivity|lia|lia]. }
  rewrite smear_all by lia. set (k := Z.log2 (v - 1) + 1). pose proof (Z.log2_nonneg (v - 1)).
  assert (Z.log2 (v - 1) < 63) as Hlog by (apply Z.log2_lt_pow2; lia).
  pose proof (Z.log2_spec (v - 1) ltac:(lia)) as [Hlo Hhi]. replace (Z.succ (Z.log2 (v - 1))) with k in Hhi by lia.
  assert (2 ^ k ≤ 2 ^ 63) as Hk by (apply Z.pow_le_mono_r; lia).
  exists k. rewrite Z.ones_equiv, Z.add_1_r, Z.succ_pred. split_and!; [lia|lia|apply wrap_u_id; unfold in_u; lia|lia|].
  intros _. replace (k - 1) with (Z.log2 (v - 1)) by lia. lia.
Qed.

(** The table of a buffer of [len] entries has a power of two of slots, at
    least as many as there are entries. *)
Lemma htSizeFor_spec len : 0 ≤ len < 2 ^ 50 → ∃ k, 0 ≤ k ≤ 63 ∧ htSizeFor len = 2 ^ k ∧ len ≤ 2 ^ k.
Proof.
  intros Hl. unfold htSizeFor. rewrite (round53_small len) by lia. rewrite round53_small by lia.
  destruct (decide (len = 0)) as [->|Hne]; [exists 0; split_and!; (done || lia)|].
  assert (1 ≤ len ≤ len * 5 / 4) as Hq by (Z.to_euclidean_division_equations; lia).
  assert (len * 5 / 4 ≤ 2 ^ 63) by (Z.to_euclidean_division_equations; lia).
  destruct (nextPow2_spec (len * 5 / 4) ltac:(lia)) as (k & Hk & -> & Hle & _). exists k. split_and!; [lia|lia|lia|lia].
Qed.

(** ** The interleavings *)

Section view.
Context (bloomMasks : Z → Z) (k : Z) (Hk : 0 ≤ k).
#[local] Abbreviation mask := (2 ^ k - 1).

(** [D]: the entries linked so far, in this order. *)
Record vinv (s : View) (D : list Z) : Prop := {
  v_size : Z.of_nat (length (vw_ht s)) = 2 ^ k;
  v_nodup : NoDup ((calls s).*1);
  v_entry : ∀ i a p, calls s !! i = Some (a, p) → 0 < a < 2 ^ 48 ∧ is_Some (vw_entries s !! a);
  v_linked : linked bloomMasks (vw_ht s) mask (vw_entries s) D;
  v_done : NoDup D ∧ ∀ a, a ∈ D ↔ ∃ i, calls s !! i = Some (a, Done);
  v_ready : ∀ i a cur new, calls s !! i = Some (a, Linked cur new) →
    ∃ e, vw_entries s !! a = Some e ∧ e_next e = untag cur ∧ new = tag bloomMasks a cur (hashValue e);
}.

Lemma same_call s D i j a p q : vinv s D → calls s !! i = Some (a, p) → calls s !! j = Some (a, q) → i = j.
Proof.
  intros Hi H1 H2. eapply (NoDup_lookup ((calls s).*1)); [apply Hi| |]; rewrite list_lookup_fmap; [by rewrite H1|by rewrite H2].
Qed.

Lemma not_linked s D i a p : vinv s D → calls s !! i = Some (a, p) → p ≠ Done → a ∉ D.
Proof.
  intros Hi Hc Hp Ha. apply (v_done _ _ Hi) in Ha as (j & Hj). assert (i = j) as -> by (by eapply same_call). congruence.
Qed.

(** Entries outside [D] may change. *)
Lemma linked_frame t (m m' : gmap Z (Entry unit)) D : (∀ a, a ∈ D → m' !! a = m !! a) → linked bloomMasks t mask m D → linked bloomMasks t mask m' D.
Proof.
  intros Hm Hl pos Hpos. destruct (Hl pos Hpos) as (p & Hp & Hc & Ht). exists p. split; [done|].
  assert (∀ a, a ∈ D → hash_of m' a = hash_of m a) as Hh by (intros a Ha; unfold hash_of; by rewrite Hm). split.
  - assert (filter (λ a, slot m' mask a = pos) D = filter (λ a, slot m mask a = pos) D) as ->.
    { apply filter_ext_in. intros a Ha. unfold slot. by rewrite Hh. }
    eapply chain_ext; [|exact Hc]. intros a Ha. rewrite elem_of_reverse, list_elem_of_filter in Ha. destruct Ha as [_ Ha]. by rewrite Hm.
  - intros a Ha. unfold slot. rewrite Hh by done. by apply Ht.
Qed.

Lemma calls_insert s i a p p' : calls s !! i = Some (a, p) → (<[i := (a, p')]> (calls s)).*1 = (calls s).*1.
Proof. intros H. rewrite list_fmap_insert. simpl. apply list_insert_id. by rewrite list_lookup_fmap, H. Qed.

(** A call moves to a place other than the end; only its own entry changes. *)
Lemma vinv_move s D i a p p' m' :
  vinv s D → calls s !! i = Some (a, p) → p ≠ Done → p' ≠ Done →
  (∀ b, b ≠ a → m' !! b = vw_entries s !! b) → is_Some (m' !! a) →
  (∀ cur new, p' = Linked cur new → ∃ e, m' !! a = Some e ∧ e_next e = untag cur ∧ new = tag bloomMasks a cur (hashValue e)) →
  vinv (mkView (vw_ht s) m' (<[i := (a, p')]> (calls s))) D.
Proof.
  intros Hi Hc Hp Hp' Hm Ha Hr. pose proof (not_linked s D i a p Hi Hc Hp) as HaD.
  assert (∀ j b q, <[i := (a, p')]> (calls s) !! j = Some (b, q) → (j ≠ i ∧ calls s !! j = Some (b, q) ∧ b ≠ a) ∨ (j = i ∧ b = a ∧ q = p')) as Hj.
  { intros j b q [[Hne Hj]|[-> [= -> ->]]]%(insert_lookup_iff _ _ _ _ _ _ Hc); [left|by right]. split_and!; try done. intros ->. apply Hne. by eapply same_call. }
  split; simpl.
  - apply Hi.
  - rewrite (calls_insert s i a p p' Hc). apply Hi.
  - intros j b q [(? & Hjb & Hb)|(-> & -> & ->)]%Hj; [|split; [by eapply Hi|done]]. destruct (v_entry _ _ Hi j b q Hjb). split; [done|]. by rewrite Hm.
  - eapply linked_frame; [|apply Hi]. intros b Hb. apply Hm. by intros ->.
  - split; [apply Hi|]. intros b. rewrite (proj2 (v_done _ _ Hi) b). split.
    + intros (j & Hjb). exists j. apply (insert_lookup_iff _ _ _ _ _ _ Hc). left. split; [|done]. intros ->. congruence.
    + intros (j & [(? & Hjb & _)|(_ & _ & E)]%Hj); [by exists j|congruence].
  - intros j b cur new [(? & Hjb & Hb)|(-> & -> & E)]%Hj; [|by apply Hr]. rewrite Hm by done. by eapply Hi.
Qed.

Lemma vinv_exchange s D i a cur new e :
  vinv s D → calls s !! i = Some (a, Linked cur new) → vw_entries s !! a = Some e → zget (vw_ht s) (Z.land (hashValue e) mask) = Some cur →
  vinv (mkView (zset (vw_ht s) (Z.land (hashValue e) mask) new) (vw_entries s) (<[i := (a, Done)]> (calls s))) (D ++ [a]).
Proof.
  intros Hi Hc He Hslot. pose proof (not_linked s D i a _ Hi Hc ltac:(done)) as HaD.
  destruct (v_ready _ _ Hi i a cur new Hc) as (e' & He' & Hn & ->). rewrite He in He'. injection He' as <-. destruct (v_entry _ _ Hi i a _ Hc) as [Hr _].
  pose proof (link_front bloomMasks (vw_ht s) mask (vw_entries s) D a e cur (v_linked _ _ Hi) HaD Hr Hslot Hn) as Hl. rewrite insert_id in Hl by done.
  split; simpl.
  - rewrite length_zset. apply Hi.
  - rewrite (calls_insert s i a _ Done Hc). apply Hi.
  - intros j b q [[_ Hj]|[-> [= -> ->]]]%(insert_lookup_iff _ _ _ _ _ _ Hc); by eapply Hi.
  - done.
  - split; [apply NoDup_app; split_and!; [apply Hi|by intros x Hx ->%list_elem_of_singleton|apply NoDup_singleton]|].
    intros b. rewrite elem_of_app, list_elem_of_singleton, (proj2 (v_done _ _ Hi) b). split.
    + intros [(j & Hj)| ->].
      * exists j. apply (insert_lookup_iff _ _ _ _ _ _ Hc). left. split; [|done]. intros ->. congruence.
      * exists i. apply (insert_lookup_iff _ _ _ _ _ _ Hc). by right.
    + intros (j & [[_ Hj]|[-> [= ->]]]%(insert_lookup_iff _ _ _ _ _ _ Hc)); [left; by exists j|by right].
  - intros j b cur' new' [[_ Hj]|[_ [=]]]%(insert_lookup_iff _ _ _ _ _ _ Hc). by eapply Hi.
Qed.

(** Hashes do not change. *)
Definition same_hashes (s s' : View) : Prop := ∀ a, hash_of (vw_entries s') a = hash_of (vw_entries s) a.

Lemma vinv_step b i s s' D : vinv s D → step bloomMasks mask b i s = Some s' → (∃ D', vinv s' D') ∧ same_hashes s s'.
Proof.
  intros Hi Hs. unfold step in Hs. destruct (calls s !! i) as [[a p]|] eqn:Hc; [|done]. simpl in Hs.
  destruct (vw_entries s !! a) as [e|] eqn:He; [|done]. simpl in Hs. destruct (zget (vw_ht s) _) as [slot|] eqn:Hslot; [|done]. simpl in Hs.
  assert (∀ q, p ≠ Done → vinv (set_pc i a (Loaded q) s) D) as Hmove.
  { intros q Hp. eapply (vinv_move s D i a p); try done. }
  destruct p as [|current|current new|]; simplify_eq/=.
  - split; [exists D; by apply Hmove|done].
  - split.
    + exists D. eapply (vinv_move s D i a); try done.
      * intros b' Hb. by rewrite lookup_insert_ne.
      * by rewrite lookup_insert_eq.
      * intros cur new [= <- <-]. exists (set_next (untag current) e). by rewrite lookup_insert_eq.
    + intros c. unfold hash_of. simpl. destruct (decide (a = c)) as [->|]; [by rewrite lookup_insert_eq, He|by rewrite lookup_insert_ne].
  - destruct (Z.eqb_spec slot current) as [->|]; cbn [andb] in Hs; [destruct b; cbn [negb] in Hs|]; simplify_eq;
      [split; [exists D; by apply Hmove|done]| |split; [exists D; by apply Hmove|done]].
    split; [|done]. exists (D ++ [a]). by eapply vinv_exchange.
Qed.

Lemma vinv_steps n s s' : (∃ D, vinv s D) → steps bloomMasks mask n s s' → (∃ D, vinv s' D) ∧ same_hashes s s' ∧ (calls s').*1 = (calls s).*1.
Proof.
  intros Hi Hs. induction Hs as [s|n b s1 s2 s3 i Hs IH Hst]; [done|]. destruct (IH Hi) as ((D & HD) & Hh & Ec).
  destruct (vinv_step b i s2 s3 D HD Hst) as (HD' & Hh'). split_and!; [done|intros a; by rewrite Hh'|]. rewrite <- Ec.
  unfold step in Hst. destruct (calls s2 !! i) as [[a p]|] eqn:Hc; [|done]. simpl in Hst.
  destruct (vw_entries s2 !! a); [|done]. simpl in Hst. destruct (zget (vw_ht s2) _); [|done]. simpl in Hst.
  destruct p; simplify_eq/=; try (by eapply calls_insert). case_match; simplify_eq/=; by eapply calls_insert.
Qed.

(** ** Termination *)

(** How much is left of a call; more when its slot has changed meanwhile. *)
Definition rank (s : View) (c : Z * pc) : nat :=
  let stale cur := match zget (vw_ht s) (Z.land (hash_of (vw_entries s) c.1) mask) with
                   | Some q => if q =? cur then 0%nat else 2%nat
                   | None => 0%nat
                   end in
  match c.2 with
  | Start => 6
  | Loaded cur => 3 + stale cur
  | Linked cur _ => 2 + stale cur
  | Done => 0
  end.
Definition undone (c : Z * pc) : nat := match c.2 with Done => 0 | _ => 1 end.
Definition measure (s : View) : nat :=
  (2 * length (calls s) * sum_list_with undone (calls s) + sum_list_with (rank s) (calls s))%nat.

Lemma rank_slots s s' c : same_hashes s s' → (rank s' c ≤ rank s c + 2)%nat.
Proof.
  intros Hh. unfold rank. rewrite Hh. destruct c.2; try lia; repeat (case_match; try lia).
Qed.

Lemma sum_ranks s s' l : same_hashes s s' → (sum_list_with (rank s') l ≤ sum_list_with (rank s) l + 2 * length l)%nat.
Proof. intros Hh. induction l as [|c l IH]; [done|]. simpl. pose proof (rank_slots s s' c Hh). lia. Qed.

Lemma sum_rank_ext s s' l : same_hashes s s' → vw_ht s' = vw_ht s → sum_list_with (rank s') l = sum_list_with (rank s) l.
Proof.
  intros Hh Ht. induction l as [|c l IH]; [done|]. simpl. rewrite IH. f_equal. unfold rank. by rewrite Hh, Ht.
Qed.

(** A step that does not exchange brings its own call closer to the end. *)
Lemma move_measure s s' i a p p' : same_hashes s s' → vw_ht s' = vw_ht s → calls s !! i = Some (a, p) → calls s' = <[i := (a, p')]> (calls s) →
  undone (a, p') = undone (a, p) → (rank s (a, p') < rank s (a, p))%nat → (measure s' < measure s)%nat.
Proof.
  intros Hh Ht Hc Ec Hu Hr. unfold measure. rewrite Ec, length_insert. rewrite (sum_rank_ext s s') by done.
  pose proof (sum_insert undone _ i _ (a, p') Hc) as E1. pose proof (sum_insert (rank s) _ i _ (a, p') Hc) as E2.
  assert (sum_list_with undone (<[i := (a, p')]> (calls s)) = sum_list_with undone (calls s)) as -> by lia. lia.
Qed.

Lemma view_step_measure i s s' D : vinv s D → step bloomMasks mask false i s = Some s' → (measure s' < measure s)%nat.
Proof.
  intros Hi Hs. destruct (vinv_step false i s s' D Hi Hs) as (_ & Hh). unfold step in Hs.
  destruct (calls s !! i) as [[a p]|] eqn:Hc; [|done]. simpl in Hs. destruct (vw_entries s !! a) as [e|] eqn:He; [|done]. simpl in Hs.
  destruct (zget (vw_ht s) _) as [q|] eqn:Hq; [|done]. simpl in Hs. assert (hash_of (vw_entries s) a = hashValue e) as Eh by (unfold hash_of; by rewrite He).
  destruct p as [|current|current new|]; simplify_eq/=.
  - eapply (move_measure s _ i a Start (Loaded q)); try done. unfold rank. simpl. rewrite Eh, Hq, Z.eqb_refl. lia.
  - eapply (move_measure s _ i a (Loaded current) (Linked current (tag bloomMasks a current (hashValue e)))); try done.
    unfold rank. simpl. rewrite Eh, Hq. destruct (q =? current); lia.
  - rewrite andb_true_r in Hs. destruct (Z.eqb_spec q current) as [->|Hne]; simplify_eq.
    + (* the exchange: the others may have to repeat *)
      unfold measure. cbn [calls]. rewrite length_insert.
      pose proof (sum_insert undone _ i _ (a, Done) Hc) as E1. pose proof (sum_insert (rank s) _ i _ (a, Done) Hc) as E2. unfold undone at 2 4 in E1. simpl in E1.
      pose proof (sum_ranks s _ (<[i := (a, Done)]> (calls s)) Hh) as E3. rewrite length_insert in E3.
      assert (rank s (a, Linked current new) = 2%nat) as Er by (unfold rank; simpl; rewrite Eh, Hq, Z.eqb_refl; lia). rewrite Er in E2.
      change (rank s (a, Done)) with 0%nat in E2.
      assert (sum_list_with undone (calls s) = S (sum_list_with undone (<[i := (a, Done)]> (calls s)))) as -> by lia.
      rewrite Nat.mul_succ_r. lia.
    + eapply (move_measure s _ i a (Linked current new) (Loaded q)); try done. unfold rank. simpl. rewrite Eh, Hq, Z.eqb_refl.
      rewrite (proj2 (Z.eqb_neq _ _) Hne). lia.
Qed.
End view.

(** ** Claims *)

Lemma init_calls entries : calls (initView entries) = (λ e, (e.1, Start)) <$> entries.
Proof. done. Qed.
Lemma init_entries entries : vw_entries (initView entries) = list_to_map ((λ e, (e.1, mkEntry 0 e.2 tt)) <$> entries).
Proof. done. Qed.

Lemma init_addrs entries : (calls (initView entries)).*1 = entries.*1.
Proof. rewrite init_calls, <- list_fmap_compose. by apply list_fmap_ext. Qed.

Lemma view_init_entry entries a h : NoDup (entries.*1) → (a, h) ∈ entries → vw_entries (initView entries) !! a = Some (mkEntry 0 h tt).
Proof.
  intros Hnd Hin. rewrite init_entries. apply elem_of_list_to_map_1.
  - rewrite <- list_fmap_compose. rewrite (list_fmap_ext _ fst); [done|]. intros ? [] ?. done.
  - apply list_elem_of_fmap. by exists (a, h).
Qed.

Lemma view_init_inv bloomMasks k entries : 0 ≤ k → htSizeFor (Z.of_nat (length entries)) = 2 ^ k → NoDup (entries.*1) → Forall (λ e, 0 < e.1 < 2 ^ 48) entries →
  vinv bloomMasks k (initView entries) [].
Proof.
  intros Hk Hs Hnd Hr. split.
  - unfold initView. cbn [vw_ht]. rewrite length_replicate, Hs. pose proof (Z.pow_nonneg 2 k). lia.
  - by rewrite init_addrs.
  - intros i a p Hc. rewrite init_calls, list_lookup_fmap in Hc. destruct (entries !! i) as [[a' h]|] eqn:Ei; [|done]. injection Hc as <- <-.
    split; [by apply (Forall_lookup_1 _ _ _ _ Hr Ei)|]. rewrite (view_init_entry entries a' h); [done|done|]. by eapply list_elem_of_lookup_2.
  - unfold initView. cbn [vw_ht vw_entries]. apply linked_empty.
  - split; [apply NoDup_nil_2|]. intros a. split; [by intros ?%elem_of_nil|]. intros (i & Hi). rewrite init_calls, list_lookup_fmap in Hi.
    by destruct (entries !! i).
  - intros i a cur new Hi. rewrite init_calls, list_lookup_fmap in Hi. by destruct (entries !! i).
Qed.

Lemma view_init_hash entries a h : NoDup (entries.*1) → (a, h) ∈ entries → hash_of (vw_entries (initView entries)) a = h.
Proof.
  intros Hnd Hin. unfold hash_of. by rewrite (view_init_entry entries a h).
Qed.

Lemma view_done_addrs bloomMasks k (entries : list (Z * Z)) s D :
  vinv bloomMasks k s D → (calls s).*1 = entries.*1 → Forall (λ c, c.2 = Done) (calls s) → ∀ a, a ∈ D ↔ a ∈ entries.*1.
Proof.
  intros Hi Ec Hdone a. rewrite (proj2 (v_done _ _ _ _ Hi) a), <- Ec, list_elem_of_fmap. split.
  - intros (i & Hc). exists (a, Done). split; [done|]. by eapply list_elem_of_lookup_2.
  - intros ([a' p] & -> & Hin). apply list_elem_of_lookup in Hin as [i Hc]. exists i. pose proof (Forall_lookup_1 _ _ _ _ Hdone Hc) as E. simpl in E. by subst p.
Qed.

(** What a lookup sees in a finished table. *)
Lemma view_lookup_ok bloomMasks k s D hash : 0 ≤ k → vinv bloomMasks k s D →
  ∃ p L, view_lookup bloomMasks (2 ^ k - 1) s hash = Ok p ∧ chain (vw_entries s) p L ∧ NoDup L ∧
    (∀ a, a ∈ D → hash_of (vw_entries s) a = hash → a ∈ L) ∧
    (∀ a, a ∈ L → a ∈ D ∧ Z.land (hash_of (vw_entries s) a) (2 ^ k - 1) = Z.land hash (2 ^ k - 1)).
Proof.
  intros Hk Hi. set (pos := Z.land hash (2 ^ k - 1)). unfold view_lookup. fold pos.
  destruct (v_linked _ _ _ _ Hi pos) as (q & Hq & Hc & Ht); [rewrite (v_size _ _ _ _ Hi); apply land_mask_range; lia|].
  rewrite (load_Some _ _ _ Hq). cbn [res_bind]. unfold filterTagged. destruct (matchesTag bloomMasks q hash) eqn:Em.
  - eexists _, _. split; [done|]. split_and!; [exact Hc|rewrite reverse_Permutation; apply NoDup_filter, Hi| |].
    + intros a Ha Eh. rewrite elem_of_reverse, list_elem_of_filter. split; [|done]. unfold slot. by rewrite Eh.
    + intros a. rewrite elem_of_reverse, list_elem_of_filter. intros [Hsl Ha]. done.
  - exists 0, []. split; [done|]. split_and!; [done|apply NoDup_nil_2| |by intros a ?%elem_of_nil]. intros a Ha Eh. exfalso.
    assert (in_tag bloomMasks q hash) as Hin; [|apply in_tag_matches in Hin; congruence]. rewrite <- Eh at 1. apply Ht; [done|unfold slot; by rewrite Eh].
Qed.

Lemma view_complete_at bloomMasks k (entries : list (Z * Z)) n s hash :
  0 ≤ k → htSizeFor (Z.of_nat (length entries)) = 2 ^ k → NoDup (entries.*1) → Forall (λ e, 0 < e.1 < 2 ^ 48) entries →
  steps bloomMasks (2 ^ k - 1) n (initView entries) s → Forall (λ c, c.2 = Done) (calls s) →
  ∃ p L, view_lookup bloomMasks (2 ^ k - 1) s hash = Ok p ∧ chain (vw_entries s) p L ∧ NoDup L ∧
    (∀ a, (a, hash) ∈ entries → a ∈ L) ∧ (∀ a, a ∈ L → ∃ h, (a, h) ∈ entries ∧ Z.land h (2 ^ k - 1) = Z.land hash (2 ^ k - 1)).
Proof.
  intros Hk Esize Hnd Hr Hs Hdone. pose proof (view_init_inv bloomMasks k entries Hk Esize Hnd Hr) as H0.
  destruct (vinv_steps bloomMasks k n _ s (ex_intro _ _ H0) Hs) as ((D & Hi) & Hh & Ec).
  rewrite init_addrs in Ec. pose proof (view_done_addrs bloomMasks k entries s D Hi Ec Hdone) as HD.
  destruct (view_lookup_ok bloomMasks k s D hash Hk Hi) as (p & L & Ep & Hc & HL & Hall & Honly). exists p, L.
  split; [exact Ep|]. split; [exact Hc|]. split; [exact HL|]. split.
  - intros a Ha. apply Hall; [apply HD, list_elem_of_fmap; by exists (a, hash)|]. rewrite Hh. by apply view_init_hash.
  - intros a Ha. destruct (Honly a Ha) as [Hd Hsl]. apply HD, list_elem_of_fmap in Hd as ([a' h] & -> & Hin). exists h. cbn [fst] in *.
    split; [exact Hin|]. rewrite Hh in Hsl. by rewrite (view_init_hash entries a' h Hnd Hin) in Hsl.
Qed.

Lemma htMaskFor_spec entries : Z.of_nat (length entries) < 2 ^ 50 →
  ∃ k, 0 ≤ k ∧ htSizeFor (Z.of_nat (length entries)) = 2 ^ k ∧ htMaskFor entries = 2 ^ k - 1.
Proof.
  intros Hlen. destruct (htSizeFor_spec (Z.of_nat (length entries)) (conj (Nat2Z.is_nonneg _) Hlen)) as (k & Hk & Esize & _).
  exists k. split; [lia|]. split; [exact Esize|]. unfold htMaskFor. by rewrite Esize.
Qed.

(** C17. When every callback has returned, the bucket a lookup starts at holds
    every entry with the hash, each exactly once, and only entries of its slot;
    no interleaving of the lock-free insertions loses one.  A lookup the tags
    cut short misses nothing. *)
Theorem hash_view_complete bloomMasks (entries : list (Z * Z)) n s hash :
  NoDup (entries.*1) → Forall (λ e, 0 < e.1 < 2 ^ 48) entries → Z.of_nat (length entries) < 2 ^ 50 →
  steps bloomMasks (htMaskFor entries) n (initView entries) s → Forall (λ c, c.2 = Done) (calls s) →
  ∃ p L, view_lookup bloomMasks (htMaskFor entries) s hash = Ok p ∧ chain (vw_entries s) p L ∧ NoDup L ∧
    (∀ a, (a, hash) ∈ entries → a ∈ L) ∧ (∀ a, a ∈ L → ∃ h, (a, h) ∈ entries ∧ Z.land h (htMaskFor entries) = Z.land hash (htMaskFor entries)).
Proof.
  intros Hnd Hr Hlen Hs Hdone. destruct (htMaskFor_spec entries Hlen) as (k & Hk & Esize & Em). rewrite Em in *.
  exact (view_complete_at bloomMasks k entries n s hash Hk Esize Hnd Hr Hs Hdone).
Qed.

(** The insertions are lock-free: while exchanges fail only because the slot
    changed, all callbacks together return after at most 2 n (n + 3) steps for
    n entries. *)
Theorem hash_view_terminates bloomMasks (entries : list (Z * Z)) (sched : list nat) s :
  NoDup (entries.*1) → Forall (λ e, 0 < e.1 < 2 ^ 48) entries → Z.of_nat (length entries) < 2 ^ 50 →
  foldl (λ s i, s ≫= step bloomMasks (htMaskFor entries) false i) (Some (initView entries)) sched = Some s →
  (length sched ≤ 2 * length entries * (length entries + 3))%nat.
Proof.
  intros Hnd Hr Hlen. destruct (htMaskFor_spec entries Hlen) as (k & Hk & Esize & Em). rewrite Em.
  pose proof (view_init_inv bloomMasks k entries Hk Esize Hnd Hr) as H0.
  assert (measure k (initView entries) ≤ 2 * length entries * (length entries + 3))%nat as Hm.
  { unfold measure. rewrite init_calls, length_fmap.
    assert (∀ f (l : list (Z * Z)) c, (∀ x : Z * Z, f (x.1, Start) = c) → sum_list_with f ((λ e : Z * Z, (e.1, Start)) <$> l) = (length l * c)%nat) as Hsum.
    { intros f l c Hf. induction l as [|x l IH]; [done|]. simpl. rewrite Hf. f_equal. exact IH. }
    rewrite (Hsum undone entries 1%nat) by done. rewrite (Hsum _ entries 6%nat) by done. nia. }
  intros Hf. enough (length sched + measure k s ≤ measure k (initView entries))%nat by lia. clear Hm.
  revert Hf H0. generalize (initView entries) as s0. generalize (@nil Z) as D. induction sched as [|i sched IH]; intros D s0 Hf H0; simpl in Hf; [simplify_eq; simpl; lia|].
  destruct (step bloomMasks (2 ^ k - 1) false i s0) as [s1|] eqn:E.
  - destruct (vinv_step bloomMasks k false i s0 s1 D H0 E) as ((D' & H1) & _). pose proof (view_step_measure bloomMasks k Hk i s0 s1 D H0 E).
    specialize (IH D' s1 Hf H1). simpl. lia.
  - exfalso. clear -Hf. induction sched as [|j sched IH]; [done|by apply IH].
Qed.

Lemma schedule_steps bloomMasks mask sched n s0 s1 s :
  steps bloomMasks mask n s0 s1 → foldl (λ s i, s ≫= step bloomMasks mask false i) (Some s1) sched = Some s → ∃ n, steps bloomMasks mask n s0 s.
Proof.
  revert n s1. induction sched as [|i sched IH]; intros n s1 Hs Hf; simpl in Hf; [simplify_eq; by exists n|].
  destruct (step bloomMasks mask false i s1) as [s2|] eqn:E; [eapply IH; [by eapply steps_next|done]|].
  exfalso. clear -Hf. induction sched as [|j sched IH]; [done|by apply IH].
Qed.

(** Two entries with the same slot, linked in an interleaving where the second
    has to repeat its exchange. *)
Definition sample_entries : list (Z * Z) := [(4096, 5); (8192, 13)].
Definition sample_schedule : list nat := [0; 1; 0; 1; 0; 1; 1; 1]%nat.
Definition sample_view : View :=
  default (initView sample_entries) (foldl (λ s i, s ≫= step sample_masks (htMaskFor sample_entries) false i) (Some (initView sample_entries)) sample_schedule).

Lemma sample_run :
  foldl (λ s i, s ≫= step sample_masks (htMaskFor sample_entries) false i) (Some (initView sample_entries)) sample_schedule = Some sample_view.
Proof. vm_compute. reflexivity. Qed.
Lemma sample_nodup : NoDup (sample_entries.*1).
Proof. apply NoDup_cons. split; [set_solver|apply NoDup_singleton]. Qed.
Lemma sample_range : Forall (λ e, 0 < e.1 < 2 ^ 48) sample_entries.
Proof. repeat constructor; simpl; lia. Qed.

Lemma hash_view_complete_witness :
  ∃ p L, view_lookup sample_masks (htMaskFor sample_entries) sample_view 5 = Ok p ∧ chain (vw_entries sample_view) p L ∧ NoDup L ∧
    (∀ a, (a, 5) ∈ sample_entries → a ∈ L) ∧
    (∀ a, a ∈ L → ∃ h, (a, h) ∈ sample_entries ∧ Z.land h (htMaskFor sample_entries) = Z.land 5 (htMaskFor sample_entries)).
Proof.
  destruct (schedule_steps sample_masks (htMaskFor sample_entries) sample_schedule 0 _ _ _ (steps_refl _ _ _) sample_run) as [n Hs].
  apply (hash_view_complete sample_masks sample_entries n sample_view 5 sample_nodup sample_range); [done|exact Hs|].
  vm_compute. repeat constructor.
Defined.

Lemma hash_view_terminates_witness : (length sample_schedule ≤ 2 * length sample_entries * (length sample_entries + 3))%nat.
Proof. apply (hash_view_terminates sample_masks sample_entries sample_schedule sample_view sample_nodup sample_range); [done|exact sample_run]. Defined.
