(* ===== verification/PreAgg.v ===== *)
(** * Pre-aggregation and the merge of its partitions

    Model of src/runtime/PreAggregationHashtable.cpp and of the code that the
    lowering of the lookup in a fragment emits.  Every worker aggregates its rows into a fragment: entries
    are spread over 64 buffers by the low bits of their hash, and a cache of
    1024 pointers remembers the entry used last; an entry that is displaced
    from the cache stays in its buffer, so a fragment may hold a key several
    times.  [merge] combines the entries of each partition in a chained table.
    Entries live in one memory that all workers share. *)

From S2P Require Import Prelude Helpers FlexBuffer Hashtable HashMerge HashView.
#[local] Open Scope Z_scope.

(** ** Fragments *)

Definition numOutputs : Z := 64.
Definition hashtableSize : Z := 1024.
Definition htShift : Z := 6.

Section preagg.
Context {S C : Type} `{!EntryStore S} (bloomMasks : Z → Z).
#[local] Abbreviation memory := (gmap Z (Entry C)).

(** [outputs]: the buffers that exist; [frag_ht] holds the null pointer where
    nothing was inserted. *)
Record Fragment := mkFragment { frag_ht : list Z; frag_len : Z; outputs : list (option S) }.

Definition newFragment : Fragment :=
  mkFragment (replicate (Z.to_nat hashtableSize) 0) 0 (replicate (Z.to_nat numOutputs) None).

(** [newOut] is the buffer [new FlexibleBuffer(256, typeSize)] gives when the
    output does not exist yet. *)
Definition frag_insert (f : Fragment) (m : memory) (hash : Z) (newOut : S) (fresh : Z) (garbage : C) : res (Fragment * memory * Z) :=
  let outputIdx := Z.land hash (numOutputs - 1) in
  let* o := load (outputs f) outputIdx in
  let out := match o with Some s => s | None => newOut end in
  let* '(s, newEntry) := es_insert out fresh in
  Ok (mkFragment (zset (frag_ht f) (Z.land (Z.shiftr hash htShift) (hashtableSize - 1)) newEntry) (u64 (frag_len f + 1)) (zset (outputs f) outputIdx (Some s)),
      <[newEntry := mkEntry 0 hash garbage]> m, newEntry).

(** What the compiled code does with a row: the entry in the cache is used if
    it is one of the row's key, and a new entry with the initial state is
    inserted otherwise. *)
Definition lookupOrInsert (isEq : C → C → bool) (f : Fragment) (m : memory) (hash : Z) (initial : C) (newOut : S) (fresh : Z) (garbage : C) : res (Fragment * memory * Z) :=
  let* currEntryPtr := load (frag_ht f) (Z.land (Z.shiftr hash htShift) (hashtableSize - 1)) in
  let* keyMatches :=
    if currEntryPtr =? 0 then Ok false
    else
      let* e := entry_at m currEntryPtr in
      Ok ((hashValue e =? hash) && isEq (content e) initial) in
  if keyMatches : bool then Ok (f, m, currEntryPtr)
  else
    let* '(f, m, entryRef) := frag_insert f m hash newOut fresh garbage in
    Ok (f, alter (set_content initial) entryRef m, entryRef).

(** ** Merging *)

Record PartitionHt := mkPartitionHt { p_ht : option (list Z); p_mask : Z }.

(** The bucket of a hash in the table of a partition. *)
Definition bucketOf (htMask hash : Z) : Z := Z.land (Z.shiftr hash htShift) htMask.

(** The local buffer of pointers is the list of the pointers written to it. *)
Definition mergeOne (isEq : C → C → bool) (combine : C → C → C) (htMask : Z) (st : list Z * memory * list Z) (curr : Z) : res (list Z * memory * list Z) :=
  let '(t, m, localBuffer) := st in
  let* e := entry_at m curr in
  let pos := bucketOf htMask (hashValue e) in
  let* previousPtr := load t pos in
  let* r := walk isEq (size m) m (untag previousPtr) (hashValue e) (content e) in
  match r with
  | Some currCandidate =>
      let* c := entry_at m currCandidate in
      Ok (t, <[currCandidate := set_content (combine (content c) (content e)) c]> m, localBuffer)
  | None =>
      Ok (zset t pos (tag bloomMasks curr previousPtr (hashValue e)), <[curr := set_next (untag previousPtr) e]> m, localBuffer ++ [curr])
  end.
Fixpoint mergeEach (isEq : C → C → bool) (combine : C → C → C) (htMask : Z) (st : list Z * memory * list Z) (addrs : list Z) : res (list Z * memory * list Z) :=
  match addrs with
  | [] => Ok st
  | a :: addrs => let* st := mergeOne isEq combine htMask st a in mergeEach isEq combine htMask st addrs
  end.

Record PreAggregationHashtable := mkPreAgg { pa_ht : list PartitionHt; pa_buffer : list Z }.
Definition newPreAgg : PreAggregationHashtable := mkPreAgg (replicate (Z.to_nat numOutputs) (mkPartitionHt None 0)) [].

(** The outputs of the fragments for a partition, in the order of the workers. *)
Definition gather (fragments : list (option Fragment)) (id : Z) : list S :=
  omap (λ o : option Fragment, f ← o; mjoin (zget (outputs f) id)) fragments.

Definition totalValues (input : list S) : Z := foldl (λ t o, u64 (t + es_len o)) 0 input.

(** [handleMerge]: the blocks of the local buffer go before those of the
    buffer of the result. *)
Definition handleMerge (isEq : C → C → bool) (combine : C → C → C) (fragments : list (option Fragment)) (pm : PreAggregationHashtable * memory) (id : Z) : res (PreAggregationHashtable * memory) :=
  let '(p, m) := pm in
  let input := gather fragments id in
  let htSize := htSizeFor (totalValues input) in
  let htMask := htSize - 1 in
  let* '(t, m, localBuffer) := mergeEach isEq combine htMask (replicate (Z.to_nat htSize) 0, m, []) (input ≫= es_addrs) in
  let* parts := store (pa_ht p) id (mkPartitionHt (Some t) htMask) in
  Ok (mkPreAgg parts (localBuffer ++ pa_buffer p), m).
Fixpoint mergePartitions (isEq : C → C → bool) (combine : C → C → C) (fragments : list (option Fragment)) (pm : PreAggregationHashtable * memory) (ids : list Z) : res (PreAggregationHashtable * memory) :=
  match ids with
  | [] => Ok pm
  | id :: ids => let* pm := handleMerge isEq combine fragments pm id in mergePartitions isEq combine fragments pm ids
  end.

(** [allocateWork]: the next value of [startIndex], and the partition that the
    worker is to merge; [allocations n] are the partitions [n] calls hand out. *)
Definition allocateWork (startIndex : Z) : Z * option Z :=
  (startIndex + 1, if numOutputs <=? startIndex then None else Some startIndex).
Fixpoint allocations (n : nat) (startIndex : Z) : list Z :=
  match n with
  | O => []
  | Datatypes.S n =>
      let '(next, r) := allocateWork startIndex in
      match r with Some id => id :: allocations n next | None => allocations n next end
  end.

(** [merge]; the tasks of the partitions, which touch different entries and
    different tables, take the lock in the order [ids]. *)
Definition preagg_merge (isEq : C → C → bool) (combine : C → C → C) (fragments : list (option Fragment)) (ids : list Z) (m : memory) : res (PreAggregationHashtable * memory) :=
  mergePartitions isEq combine fragments (newPreAgg, m) ids.

(** [lookup]: the chain to search. *)
Definition preagg_lookup (p : PreAggregationHashtable) (hash : Z) : res Z :=
  let* part := load (pa_ht p) (Z.land hash (numOutputs - 1)) in
  match p_ht part with
  | None => Ok 0
  | Some t => let* q := load t (Z.land (p_mask part) (Z.shiftr hash htShift)) in Ok (filterTagged bloomMasks q hash)
  end.

(** The lookup that the compiled code does itself, with the entry of the key. *)
Definition preagg_find (isEq : C → C → bool) (p : PreAggregationHashtable) (m : memory) (hash : Z) (key : C) : res (option Z) :=
  let* partitionHt := load (pa_ht p) (Z.land hash (numOutputs - 1)) in
  match p_ht partitionHt with
  | None => Fault BadAccess
  | Some t =>
      let* ptr := load t (Z.land (p_mask partitionHt) (Z.shiftr hash htShift)) in
      if matchesTag bloomMasks ptr hash then walk isEq (size m) m (untag ptr) hash key else Ok None
  end.
End preagg.
Arguments Fragment : clear implicits.

(** ** Aggregating rows

    Workers take rows in any order; the state of a row's entry is reduced with
    the row.  A fragment is created when its worker first needs it. *)

Section aggregate.
Context {S K A V : Type} `{!EntryStore S, !EqDecision K, !Countable K}.
Context (bloomMasks : Z → Z) (hashFn : K → Z) (init : A) (reduce : A → V → A) (comb : A → A → A).
#[local] Abbreviation memory := (gmap Z (Entry (K * A))).
#[local] Abbreviation fragments := (list (option (Fragment S))).

Record Row := mkRow { r_worker : Z; r_key : K; r_value : V }.
(** What the allocator answers when a row is consumed. *)
Record Alloc := mkAlloc { al_out : S; al_fresh : Z; al_garbage : K * A }.

Definition fragmentOf (o : option (Fragment S)) : Fragment S := default newFragment o.

Definition reduce_entry (v : V) (c : K * A) : K * A := (c.1, reduce c.2 v).

Definition consume (st : fragments * memory) (r : Row) (al : Alloc) : res (fragments * memory) :=
  let '(fs, m) := st in
  let* o := load fs (r_worker r) in
  let* '(f, m, a) := lookupOrInsert same_key (fragmentOf o) m (hashFn (r_key r)) (r_key r, init) (al_out al) (al_fresh al) (al_garbage al) in
  Ok (zset fs (r_worker r) (Some f), alter (λ e, set_content (reduce_entry (r_value r) (content e)) e) a m).

(** What a row needs of the allocator: the buffer of a new output is empty and
    intact, and the address of a new entry is not in use. *)
Definition out_of (o : option (Fragment S)) (p : Z) : option S := mjoin (zget (outputs (fragmentOf o)) p).
Definition alloc_ok (st : fragments * memory) (r : Row) (al : Alloc) : Prop :=
  let '(fs, m) := st in
  let o := zget fs (r_worker r) ≫= λ o, out_of o (Z.land (hashFn (r_key r)) (numOutputs - 1)) in
  let s := default (al_out al) o in
  (o = None → es_ok s ∧ es_addrs s = []) ∧ es_fresh s (al_fresh al) ∧
  ∀ s' a, es_insert s (al_fresh al) = Ok (s', a) → m !! a = None.

Inductive agg_run : fragments * memory → list Row → fragments * memory → Prop :=
  | ar_nil st : agg_run st [] st
  | ar_snoc st rows st1 r al st2 : agg_run st rows st1 → 0 ≤ r_worker r < Z.of_nat (length st1.1) → alloc_ok st1 r al →
      consume st1 r al = Ok st2 → agg_run st (rows ++ [r]) st2.

(** ** The reference: a sequential group-by *)

(** The rows in the order of the workers, and the state of a key. *)
Definition workerRows (rows : list Row) (w : Z) : list Row := filter (λ r, r_worker r = w) rows.
Definition byWorker (n : nat) (rows : list Row) : list Row := seqZ 0 (Z.of_nat n) ≫= workerRows rows.
Definition valuesOf (k : K) (rows : list Row) : list V := r_value <$> filter (λ r, r_key r = k) rows.
Definition aggregate (vs : list V) : option A :=
  match vs with [] => None | _ => Some (foldl reduce init vs) end.
Definition group_by (rows : list Row) (k : K) : option A := aggregate (valuesOf k rows).

(** Combining states. *)
Definition combined (l : list A) : option A :=
  match l with [] => None | x :: l => Some (foldl comb x l) end.
Definition statesOf (m : memory) (k : K) (addrs : list Z) : list A :=
  omap (λ a, e ← m !! a; if decide ((content e).1 = k) then Some (content e).2 else None) addrs.
End aggregate.
