(* ===== verification/PreAggProps.v ===== *)
(** * Two-phase aggregation is a group-by

    The invariant that rows keep while they are aggregated (PreAgg.v), what the
    merge of a partition leaves, and the whole: the result is that of a
    sequential group-by over the rows of all workers. *)

From S2P Require Import Prelude Helpers HelpersProps FlexBuffer Hashtable HashtableProps HashMerge HashView HashViewProps PreAgg.
#[local] Open Scope Z_scope.

(** ** The invariant of the aggregation *)

Section invariant.
Context {S K A V : Type} `{!EntryStore S, !EqDecision K, !Countable K}.
Context (hashFn : K → Z) (init : A) (reduce : A → V → A) (comb : A → A → A).
#[local] Abbreviation memory := (gmap Z (Entry (K * A))).
#[local] Abbreviation fragments := (list (option (Fragment S))).
#[local] Abbreviation grouped := (group_by (K := K) init reduce).
#[local] Abbreviation combined := (combined comb).

(** The aggregate can be computed in parts: the initial state is neutral on
    the right, and a row joins the right part. *)
Context (comb_init : ∀ x, comb x init = x) (comb_reduce : ∀ x s v, comb x (reduce s v) = reduce (comb x s) v).

Definition partOf (k : K) : Z := Z.land (hashFn k) (numOutputs - 1).
Definition cacheOf (k : K) : Z := Z.land (Z.shiftr (hashFn k) htShift) (hashtableSize - 1).

Definition outAddrs (o : option (Fragment S)) (p : Z) : list Z := from_option es_addrs [] (out_of o p).
Definition allAddrs (fs : fragments) (p : Z) : list Z := fs ≫= λ o, outAddrs o p.

(** States that rows lead to. *)
Definition state (x : A) : Prop := ∃ vs, x = foldl reduce init vs.

(** An entry holds the hash of its key, and a state, and is in the partition of its key. *)
Definition agg_entry_ok (m : memory) (p a : Z) : Prop :=
  0 < a < 2 ^ 48 ∧ ∃ e, m !! a = Some e ∧ hashValue e = hashFn (content e).1 ∧ partOf (content e).1 = p ∧ state (content e).2.

Record frag_ok (m : memory) (f : Fragment S) : Prop := {
  fo_ht : length (frag_ht f) = Z.to_nat hashtableSize;
  fo_outputs : length (outputs f) = Z.to_nat numOutputs;
  fo_store : ∀ p s, zget (outputs f) p = Some (Some s) → es_ok s;
  (** a cached entry is the last one of its key *)
  fo_cache : ∀ i c, zget (frag_ht f) i = Some c → c ≠ 0 → ∃ e l1 l2, m !! c = Some e ∧ cacheOf (content e).1 = i ∧
    outAddrs (Some f) (partOf (content e).1) = l1 ++ c :: l2 ∧ statesOf m (content e).1 l2 = [];
}.

Record agg_ok (st : fragments * memory) (rows : list (Row (K := K) (V := V))) : Prop := {
  ao_frag : ∀ f, Some f ∈ st.1 → frag_ok st.2 f;
  ao_addr : ∀ p a, a ∈ allAddrs st.1 p → agg_entry_ok st.2 p a;
  ao_nodup : ∀ p, NoDup (allAddrs st.1 p);
  ao_states : ∀ w o k, zget st.1 w = Some o → combined (statesOf st.2 k (outAddrs o (partOf k))) = grouped (workerRows rows w) k;
}.

(** *** States of a key *)

Lemma statesOf_app (m : memory) k l1 l2 : statesOf m k (l1 ++ l2) = statesOf m k l1 ++ statesOf m k l2.
Proof. apply omap_app. Qed.

Lemma statesOf_ext (m m' : memory) k l : (∀ a, a ∈ l → content <$> m' !! a = content <$> m !! a) → statesOf m' k l = statesOf m k l.
Proof.
  intros H. unfold statesOf. induction l as [|a l IH]; [done|]. csimpl. rewrite IH by (intros b Hb; apply H; by right).
  pose proof (H a ltac:(by left)) as E. destruct (m !! a) as [e|], (m' !! a) as [e'|]; simplify_eq/=; [|done]. by rewrite E.
Qed.

Lemma statesOf_one (m : memory) k a e : m !! a = Some e → statesOf m k [a] = if decide ((content e).1 = k) then [(content e).2] else [].
Proof. intros He. unfold statesOf. csimpl. rewrite He. simpl. by case_decide. Qed.

Lemma statesOf_other (m m' : memory) k c e e' l : m !! c = Some e → m' = <[c := e']> m → (content e).1 ≠ k → (content e').1 ≠ k → statesOf m' k l = statesOf m k l.
Proof using Type.
  intros He -> Hk Hk'. unfold statesOf. induction l as [|a l IH]; [done|]. csimpl. rewrite IH.
  destruct (decide (a = c)) as [->|]; [|by rewrite lookup_insert_ne]. rewrite lookup_insert_eq, He. simpl. by rewrite !decide_False.
Qed.

Lemma combined_snoc l x : combined (l ++ [x]) = Some (match combined l with Some y => comb y x | None => x end).
Proof. destruct l as [|y l]; [done|]. simpl. by rewrite foldl_app. Qed.

Lemma foldl_comb x i vs : comb x (foldl reduce i vs) = foldl reduce (comb x i) vs.
Proof using comb_reduce. revert i. induction vs as [|v vs IH]; intros i; [done|]. simpl. by rewrite IH, comb_reduce. Qed.

Lemma comb_state x y z : state z → comb x (comb y z) = comb (comb x y) z.
Proof using comb_init comb_reduce. intros [vs ->]. by rewrite !foldl_comb, !comb_init. Qed.

Lemma combined_app l1 l2 : Forall state l2 → combined (l1 ++ l2) = union_with (λ x y, Some (comb x y)) (combined l1) (combined l2).
Proof using comb_init comb_reduce.
  induction l2 as [|x l2 IH] using rev_ind; [rewrite app_nil_r; by destruct (combined l1)|]. intros [H1 [H2 _]%Forall_cons]%Forall_app.
  rewrite app_assoc, !combined_snoc, IH by done. destruct (combined l1), (combined l2); simpl; by rewrite ?comb_state.
Qed.

(** The last state of a key takes a row. *)
Lemma combined_reduce l s v : combined (l ++ [reduce s v]) = (λ x, reduce x v) <$> combined (l ++ [s]).
Proof using comb_reduce. rewrite !combined_snoc. simpl. destruct (combined l); [by rewrite comb_reduce|done]. Qed.
Lemma combined_first l v : combined (l ++ [reduce init v]) = Some (reduce (default init (combined l)) v).
Proof using comb_init comb_reduce. rewrite combined_snoc. destruct (combined l); simpl; [by rewrite comb_reduce, comb_init|done]. Qed.

(** *** Rows *)

Lemma aggregate_snoc vs v : aggregate init reduce (vs ++ [v]) = Some (reduce (default init (aggregate init reduce vs)) v).
Proof. unfold aggregate. destruct vs as [|x vs]; [done|]. simpl. by rewrite foldl_app. Qed.

Lemma group_by_snoc rows r w k : grouped (workerRows (rows ++ [r]) w) k =
  if decide (r_worker r = w ∧ r_key r = k) then Some (reduce (default init (grouped (workerRows rows w) k)) (r_value r))
  else grouped (workerRows rows w) k.
Proof.
  unfold group_by, valuesOf, workerRows. rewrite filter_app. destruct (decide (r_worker r = w)) as [Hw|Hw].
  - rewrite filter_cons_True by done; rewrite filter_nil, filter_app, fmap_app. destruct (decide (r_key r = k)) as [Hk|Hk].
    + rewrite decide_True by done. rewrite filter_cons_True by done; rewrite filter_nil. apply aggregate_snoc.
    + rewrite decide_False by tauto. rewrite filter_cons_False by done; rewrite filter_nil. csimpl. by rewrite app_nil_r.
  - rewrite decide_False by tauto. rewrite filter_cons_False by done. by rewrite filter_nil, app_nil_r.
Qed.

(** *** One row *)

Lemma zget_split {X} (l : list X) i x : zget l i = Some x → ∃ l1 l2, l = l1 ++ x :: l2 ∧ ∀ y, zset l i y = l1 ++ y :: l2.
Proof.
  intros Hx. pose proof (zget_lt _ _ _ Hx) as Hi. unfold zget, zset in *. rewrite (proj2 (Z.leb_le 0 i)) in * by lia.
  exists (take (Z.to_nat i) l), (drop (Datatypes.S (Z.to_nat i)) l). split; [by rewrite take_drop_middle|]. intros y. apply insert_take_drop. lia.
Qed.

Lemma new_frag_ok m : frag_ok m newFragment.
Proof.
  split; [done|done|..].
  - intros p s Hs. pose proof (zget_lt _ _ _ Hs) as Hp. unfold newFragment, outputs in Hs, Hp. rewrite length_replicate in Hp. by rewrite zget_replicate in Hs.
  - intros i c Hc Hne. pose proof (zget_lt _ _ _ Hc) as Hp. unfold newFragment, frag_ht in Hc, Hp. rewrite length_replicate in Hp. rewrite zget_replicate in Hc; congruence.
Qed.

Lemma fragmentOf_ok st rows w o : agg_ok st rows → zget st.1 w = Some o → frag_ok st.2 (fragmentOf o).
Proof using Type.
  intros Hi Ho. destruct o as [f|]; [|apply new_frag_ok]. apply (ao_frag _ _ Hi). destruct (zget_split _ _ _ Ho) as (l1 & l2 & -> & _). apply elem_of_app. right. by left.
Qed.

Lemma part_range k : 0 ≤ partOf k < 64.
Proof. apply (land_mask_range _ 6). lia. Qed.
Lemma cache_range k : 0 ≤ cacheOf k < 1024.
Proof. apply (land_mask_range _ 10). lia. Qed.

#[local] Abbreviation consume := (consume hashFn init reduce).
#[local] Abbreviation alloc_ok := (alloc_ok hashFn).

(** The row reduces the state of the cached entry, or gets an entry of its own. *)
Definition hits (fs : fragments) (m : memory) (r : Row) (st : fragments * memory) : Prop :=
  ∃ f c e, zget fs (r_worker r) = Some (Some f) ∧ zget (frag_ht f) (cacheOf (r_key r)) = Some c ∧ c ≠ 0 ∧ m !! c = Some e ∧ (content e).1 = r_key r ∧
    st = (fs, <[c := set_content (r_key r, reduce (content e).2 (r_value r)) e]> m).
Definition frag_grown (f : Fragment S) (k : K) (s : S) (a : Z) : Fragment S :=
  mkFragment (zset (frag_ht f) (cacheOf k) a) (u64 (frag_len f + 1)) (zset (outputs f) (partOf k) (Some s)).
Definition misses (fs : fragments) (m : memory) (r : Row) (st : fragments * memory) : Prop :=
  ∃ o s a, zget fs (r_worker r) = Some o ∧ es_ok s ∧ es_addrs s = outAddrs o (partOf (r_key r)) ++ [a] ∧ 0 < a < 2 ^ 48 ∧ m !! a = None ∧
    st = (zset fs (r_worker r) (Some (frag_grown (fragmentOf o) (r_key r) s a)), <[a := mkEntry 0 (hashFn (r_key r)) (r_key r, reduce init (r_value r))]> m).

Lemma consume_cases fs m rows r al : agg_ok (fs, m) rows → 0 ≤ r_worker r < Z.of_nat (length fs) → alloc_ok (fs, m) r al →
  ∃ st, consume (fs, m) r al = Ok st ∧ (hits fs m r st ∨ misses fs m r st).
Proof using Type.
  destruct r as [w k v]. cbn [r_worker r_key r_value]. intros Hi Hw Hal. apply zget_is_Some in Hw as [o Ho]. pose proof (fragmentOf_ok _ _ _ _ Hi Ho) as Hf. simpl in Hf.
  unfold alloc_ok in Hal. cbn [r_worker r_key r_value] in Hal. rewrite Ho in Hal. simpl in Hal. fold (partOf k) in Hal.
  unfold consume. cbn [r_worker r_key r_value]. rewrite (load_Some _ _ _ Ho). cbn [res_bind]. unfold lookupOrInsert. fold (cacheOf k).
  destruct (proj2 (zget_is_Some (frag_ht (fragmentOf o)) (cacheOf k))) as [c Hc].
  { rewrite (fo_ht _ _ Hf). apply cache_range. }
  rewrite (load_Some _ _ _ Hc). cbn [res_bind].
  assert (∃ b, (if c =? 0 then Ok false else let* e := entry_at m c in Ok ((hashValue e =? hashFn k) && same_key (content e) (k, init))) = Ok b ∧
    (b = true → c ≠ 0 ∧ ∃ e, m !! c = Some e ∧ (content e).1 = k)) as (b & -> & Hb).
  { destruct (Z.eqb_spec c 0) as [->|Hne]; [by exists false|]. destruct (fo_cache _ _ Hf _ _ Hc Hne) as (e & _ & _ & He & _). unfold entry_at. rewrite He.
    cbn [res_bind]. eexists. split; [done|]. intros [_ Hk]%andb_true_iff. apply bool_decide_eq_true in Hk. eauto. }
  cbn [res_bind]. destruct b.
  - destruct (Hb eq_refl) as (Hne & e & He & Hk). cbn [res_bind]. destruct o as [f|].
    2: { unfold fragmentOf, newFragment in Hc. cbn [default frag_ht] in Hc. rewrite zget_replicate in Hc by apply cache_range. congruence. }
    simpl. rewrite (zset_id _ _ _ Ho). eexists. split; [done|]. left. exists f, c, e. split_and!; try done. f_equal.
    apply map_eq. intros b. destruct (decide (b = c)) as [->|]; [|by rewrite lookup_alter_ne, lookup_insert_ne].
    rewrite lookup_alter_eq, lookup_insert_eq, He. unfold reduce_entry. simpl. by rewrite Hk.
  - unfold frag_insert. fold (partOf k). destruct (proj2 (zget_is_Some (outputs (fragmentOf o)) (partOf k))) as [os Hos].
    { rewrite (fo_outputs _ _ Hf). apply part_range. }
    rewrite (load_Some _ _ _ Hos). cbn [res_bind]. unfold out_of in Hal. rewrite Hos in Hal. simpl in Hal. destruct Hal as (Hnew & Hfr & Hfresh).
    assert (es_ok (default (al_out al) os) ∧ es_addrs (default (al_out al) os) = from_option es_addrs [] os) as [Hok Ea].
    { destruct os as [s|]; [|by apply Hnew]. split; [by apply (fo_store _ _ Hf (partOf k))|done]. }
    destruct (es_insert_ok _ _ Hok Hfr) as (s' & a & E & Hok' & Ea' & _ & _ & Ha). change (match os with Some s => s | None => al_out al end) with (default (al_out al) os).
    rewrite E. cbn [res_bind]. eexists. split; [done|]. right. exists o, s', a. unfold outAddrs, out_of. cbn [r_worker r_key r_value]. rewrite Hos. simpl. rewrite Ea', Ea. split_and!; try done; try lia; [by eapply Hfresh|].
    unfold frag_grown. f_equal. apply map_eq. intros b. destruct (decide (b = a)) as [->|]; [|by rewrite !lookup_alter_ne, !lookup_insert_ne].
    by rewrite !lookup_alter_eq, !lookup_insert_eq.
Qed.

Lemma bind_disjoint {X Y} (f : X → list Y) (l : list X) i j x y a : NoDup (l ≫= f) → l !! i = Some x → l !! j = Some y → a ∈ f x → a ∈ f y → i = j.
Proof.
  revert i j. induction l as [|z l IH]; intros i j Hn Hi Hj Hx Hy; [done|]. csimpl in Hn. apply NoDup_app in Hn as (_ & Hd & Hn).
  assert (∀ k w, l !! k = Some w → a ∈ f w → a ∈ l ≫= f) as Hin by (intros k w Hk Ha; apply list_elem_of_bind; exists w; split; [done|by eapply list_elem_of_lookup_2]).
  destruct i as [|i], j as [|j]; simplify_eq/=; [done| | |].
  - destruct (Hd a Hx). by eapply Hin.
  - destruct (Hd a Hy). by eapply Hin.
  - f_equal. by eapply IH.
Qed.

Lemma allAddrs_disjoint fs p w w' o o' a : NoDup (allAddrs fs p) → zget fs w = Some o → zget fs w' = Some o' → a ∈ outAddrs o p → a ∈ outAddrs o' p → w = w'.
Proof.
  intros Hn Ho Ho' Ha Ha'. pose proof (zget_lt _ _ _ Ho). pose proof (zget_lt _ _ _ Ho'). unfold zget in *.
  rewrite (proj2 (Z.leb_le 0 w)) in Ho by lia. rewrite (proj2 (Z.leb_le 0 w')) in Ho' by lia.
  pose proof (bind_disjoint _ _ _ _ _ _ a Hn Ho Ho' Ha Ha'). lia.
Qed.

Lemma allAddrs_in fs p w o a : zget fs w = Some o → a ∈ outAddrs o p → a ∈ allAddrs fs p.
Proof.
  intros Ho Ha. destruct (zget_split _ _ _ Ho) as (l1 & l2 & -> & _). apply list_elem_of_bind. exists o. split; [done|]. apply elem_of_app. right. by left.
Qed.

Lemma statesOf_nil (m : memory) k l : statesOf m k l = [] ↔ ∀ a e, a ∈ l → m !! a = Some e → (content e).1 ≠ k.
Proof.
  unfold statesOf. induction l as [|a l IH]; [split; [by intros _ ? ? ?%elem_of_nil|done]|]. csimpl. destruct (m !! a) as [e|] eqn:He; simpl.
  - case_decide as Hk; [split; [done|]; intros H; by destruct (H a e ltac:(by left) He)|]. rewrite IH. split; [|intros H b f Hb; apply H; by right].
    intros H b f [->|Hb]%elem_of_cons Hf; [by simplify_eq|by eapply H].
  - rewrite IH. split; [|intros H b f Hb; apply H; by right]. intros H b f [->|Hb]%elem_of_cons Hf; [by simplify_eq|by eapply H].
Qed.

Lemma list_elem_zget {X} (l : list X) x : x ∈ l → ∃ i, zget l i = Some x.
Proof. intros [i Hi]%list_elem_of_lookup_1. exists (Z.of_nat i). unfold zget. rewrite (proj2 (Z.leb_le 0 _)) by lia. by rewrite Nat2Z.id. Qed.

Lemma hits_ok fs m rows r st : agg_ok (fs, m) rows → hits fs m r st → agg_ok st (rows ++ [r]).
Proof using comb_reduce.
  destruct r as [w k v]. intros Hi (f & c & e & Ho & Hc & Hne & He & Hk & ->). cbn [r_worker r_key r_value] in *.
  set (e' := set_content (k, reduce (content e).2 v) e).
  assert (frag_ok m f) as Hf by exact (fragmentOf_ok _ _ _ _ Hi Ho).
  destruct (fo_cache _ _ Hf _ _ Hc Hne) as (e0 & l1 & l2 & He0 & _ & El & Hl2). rewrite He in He0. injection He0 as <-. rewrite Hk in El, Hl2.
  assert (c ∈ outAddrs (Some f) (partOf k)) as Hcin by (rewrite El; apply elem_of_app; right; by left).
  assert (∀ a g, <[c := e']> m !! a = Some g → ∃ g', m !! a = Some g' ∧ (content g').1 = (content g).1) as Hkeys.
  { intros a g. destruct (decide (a = c)) as [->|]; [rewrite lookup_insert_eq|rewrite lookup_insert_ne by done; eauto]. intros [= <-]. by exists e. }
  split; cbn [fst snd].
  - intros g Hg. destruct (ao_frag _ _ Hi g Hg) as [H1 H2 H3 H4]. split; [done..|]. intros i a Ha Hna. destruct (H4 i a Ha Hna) as (ea & m1 & m2 & Hea & Hi' & Em & Hm2).
    cbn [snd] in *. destruct (decide (a = c)) as [->|Hac].
    + assert (ea = e) as -> by congruence. exists e', m1, m2. rewrite lookup_insert_eq. cbn [content e' set_content fst]. rewrite Hk in Hi', Em, Hm2. split_and!; try done.
      apply statesOf_nil. intros b h Hb Hh. destruct (Hkeys b h Hh) as (h' & Hh' & <-). by eapply (proj1 (statesOf_nil m _ _) Hm2).
    + exists ea, m1, m2. rewrite lookup_insert_ne by done. split_and!; try done.
      apply statesOf_nil. intros b h Hb Hh. destruct (Hkeys b h Hh) as (h' & Hh' & <-). by eapply (proj1 (statesOf_nil m _ _) Hm2).
  - intros p a Ha. destruct (ao_addr _ _ Hi p a Ha) as (Hr & ea & Hea & Hh & Hp & Hs). cbn [snd] in *. split; [done|]. destruct (decide (a = c)) as [->|].
    + assert (ea = e) as -> by congruence. exists e'. rewrite lookup_insert_eq. cbn [content hashValue e' set_content fst snd]. rewrite Hk in Hh, Hp. split_and!; try done.
      destruct Hs as [vs ->]. exists (vs ++ [v]). by rewrite foldl_app.
    + exists ea. by rewrite lookup_insert_ne.
  - apply (ao_nodup _ _ Hi).
  - intros w' o' k' Ho'. pose proof (ao_states _ _ Hi w' o' k' Ho') as Es. cbn [fst snd] in *. rewrite group_by_snoc. cbn [r_worker r_key r_value].
    destruct (decide (k = k')) as [<-|Hk'].
    2: { rewrite decide_False by tauto. rewrite (statesOf_other m (<[c := e']> m) k' c e e' _ He eq_refl); [done|congruence|done]. }
    destruct (decide (w = w')) as [<-|Hw].
    2: { rewrite decide_False by tauto. rewrite (statesOf_ext m); [done|]. intros a Ha. rewrite lookup_insert_ne; [done|]. intros <-.
         apply Hw. by eapply (allAddrs_disjoint fs (partOf k) w w' _ _ c (ao_nodup _ _ Hi _) Ho Ho'). }
    rewrite decide_True by done. rewrite Ho in Ho'. injection Ho' as <-. rewrite <- Es, El.
    assert (NoDup (outAddrs (Some f) (partOf k))) as Hnd.
    { pose proof (ao_nodup _ _ Hi (partOf k)) as Hn. destruct (zget_split _ _ _ Ho) as (f1 & f2 & -> & _). unfold allAddrs in Hn. cbn [fst] in Hn. rewrite bind_app in Hn. csimpl in Hn.
      apply NoDup_app in Hn as (_ & _ & Hn). by apply NoDup_app in Hn as (Hn & _). }
    rewrite El in Hnd. apply NoDup_app in Hnd as (_ & Hd & Hn2). apply NoDup_cons in Hn2 as [Hc2 _].
    rewrite (cons_middle c), !statesOf_app.
    rewrite (statesOf_ext m (<[c := e']> m) k l1) by (intros a Ha; rewrite lookup_insert_ne; [done|]; intros <-; apply (Hd _ Ha); by left).
    rewrite (statesOf_ext m (<[c := e']> m) k l2) by (intros a Ha; rewrite lookup_insert_ne; [done|]; by intros <-).
    rewrite (statesOf_one _ k c e') by apply lookup_insert_eq. rewrite (statesOf_one m k c e) by done. rewrite Hl2, !app_nil_r.
    rewrite !decide_True by done. cbn [e' content set_content snd]. rewrite combined_reduce, !combined_snoc. done.
Qed.

Lemma out_frag_grown o k s a p : length (outputs (fragmentOf o)) = Z.to_nat numOutputs → es_addrs s = outAddrs o (partOf k) ++ [a] →
  outAddrs (Some (frag_grown (fragmentOf o) k s a)) p = if decide (p = partOf k) then outAddrs o p ++ [a] else outAddrs o p.
Proof.
  intros Hl Es. assert (out_of (Some (frag_grown (fragmentOf o) k s a)) p = if decide (p = partOf k) then Some s else out_of o p) as E.
  { change (mjoin (zget (zset (outputs (fragmentOf o)) (partOf k) (Some s)) p) = if decide (p = partOf k) then Some s else out_of o p).
    case_decide as Hp; [subst p|by rewrite zget_zset_ne]. rewrite zget_zset_eq; [done|]. rewrite Hl. apply part_range. }
  unfold outAddrs at 1. rewrite E. case_decide; [subst p; exact Es|done].
Qed.

Lemma frag_frame (m : memory) g a e : frag_ok m g → m !! a = None → (∀ p, a ∉ outAddrs (Some g) p) → frag_ok (<[a := e]> m) g.
Proof.
  intros [H1 H2 H3 H4] Hm Ha. split; [done..|]. intros i c Hc Hne. destruct (H4 i c Hc Hne) as (ec & l1 & l2 & Hec & Hi & El & Hs).
  exists ec, l1, l2. rewrite lookup_insert_ne by congruence. split_and!; try done. rewrite (statesOf_ext m); [done|]. intros b Hb. rewrite lookup_insert_ne; [done|].
  intros <-. apply (Ha (partOf (content ec).1)). rewrite El. apply elem_of_app. right. by right.
Qed.

Lemma frag_grown_ok (m : memory) o k s a x : frag_ok m (fragmentOf o) → es_ok s → es_addrs s = outAddrs o (partOf k) ++ [a] → m !! a = None →
  (∀ p, a ∉ outAddrs o p) → a ≠ 0 → frag_ok (<[a := mkEntry 0 (hashFn k) (k, x)]> m) (frag_grown (fragmentOf o) k s a).
Proof.
  intros Hf Hs Es Hm Ha Ha0. pose proof (frag_frame m _ a (mkEntry 0 (hashFn k) (k, x)) Hf Hm Ha) as [H1 H2 H3 H4].
  pose proof (λ p, out_frag_grown o k s a p H2 Es) as Eo. split; cbn [frag_grown frag_ht outputs]; rewrite ?length_zset; [done|done|..].
  - intros p t. destruct (decide (p = partOf k)) as [->|]; [rewrite zget_zset_eq by (rewrite H2; apply part_range); by intros [= <-]|].
    rewrite zget_zset_ne by done. apply H3.
  - intros i c. destruct (decide (i = cacheOf k)) as [->|Hi].
    + rewrite zget_zset_eq by (rewrite H1; apply cache_range). intros [= <-] _. eexists _, (outAddrs o (partOf k)), []. rewrite lookup_insert_eq. split_and!; [done|done| |done].
      cbn [content fst]. by rewrite Eo, decide_True.
    + rewrite zget_zset_ne by done. intros Hc Hne. destruct (H4 i c Hc Hne) as (e & l1 & l2 & He & Hci & El & Hl).
      change (outAddrs (Some (fragmentOf o))) with (outAddrs o) in El. exists e, l1. rewrite Eo. destruct (decide (partOf (content e).1 = partOf k)) as [Hp|]; [|by exists l2].
      exists (l2 ++ [a]). rewrite El, statesOf_app, Hl. split_and!; try done; [by rewrite <- app_assoc|].
      rewrite (statesOf_one _ _ a _ (lookup_insert_eq _ _ _)). cbn [content fst]. rewrite decide_False; [done|]. intros E. apply Hi. by rewrite <- Hci, E.
Qed.

Lemma allAddrs_set fs w o o' p : zget fs w = Some o → ∃ l1 l2, allAddrs fs p = l1 ++ outAddrs o p ++ l2 ∧ allAddrs (zset fs w o') p = l1 ++ outAddrs o' p ++ l2.
Proof.
  intros Ho. destruct (zget_split _ _ _ Ho) as (f1 & f2 & -> & ->). exists (allAddrs f1 p), (allAddrs f2 p). unfold allAddrs. by rewrite !bind_app.
Qed.

Lemma misses_ok fs m rows r st : agg_ok (fs, m) rows → misses fs m r st → agg_ok st (rows ++ [r]).
Proof using comb_init comb_reduce.
  destruct r as [w k v]. intros Hi (o & s & a & Ho & Hs & Es & Ha & Hm & ->). cbn [r_worker r_key r_value] in *.
  pose proof (fragmentOf_ok _ _ _ _ Hi Ho) as Hf. cbn [fst snd] in Hf.
  assert (∀ p, a ∉ allAddrs fs p) as Hna by (intros p Hin; destruct (ao_addr _ _ Hi p a Hin) as (_ & e & He & _); cbn [snd] in He; congruence).
  assert (∀ w' o' p, zget fs w' = Some o' → a ∉ outAddrs o' p) as Hno by (intros w' o' p Ho' Hin; by apply (Hna p), (allAddrs_in fs p w' o')).
  pose proof (λ p, out_frag_grown o k s a p (fo_outputs _ _ Hf) Es) as Eo. set (e0 := mkEntry 0 (hashFn k) (k, reduce init v)). set (f' := frag_grown (fragmentOf o) k s a) in *.
  assert (∀ p b, b ∈ allAddrs (zset fs w (Some f')) p → b ∈ allAddrs fs p ∨ b = a ∧ p = partOf k) as Hall.
  { intros p b. destruct (allAddrs_set fs w o (Some f') p Ho) as (l1 & l2 & -> & ->). rewrite Eo, !elem_of_app. destruct (decide (p = partOf k)) as [->|]; rewrite ?elem_of_app, ?list_elem_of_singleton; tauto. }
  split; cbn [fst snd].
  - intros g Hg. destruct (list_elem_zget _ _ Hg) as [w' Hg']. destruct (decide (w' = w)) as [->|Hw'].
    + rewrite (zget_zset_Some _ _ _ _ Ho) in Hg'. injection Hg' as <-. apply frag_grown_ok; try done; [intros p; by eapply Hno|lia].
    + rewrite zget_zset_ne in Hg' by done. apply frag_frame; [|done|intros p; by eapply Hno]. exact (fragmentOf_ok _ _ _ (Some g) Hi Hg').
  - intros p b [Hb|[-> ->]]%Hall.
    + destruct (ao_addr _ _ Hi p b Hb) as (Hr & e & He & Hx). split; [done|]. exists e. rewrite lookup_insert_ne; [done|]. intros <-. by apply (Hna p).
    + split; [done|]. exists e0. rewrite lookup_insert_eq. split_and!; try done. by exists [v].
  - intros p. pose proof (ao_nodup _ _ Hi p) as Hn. specialize (Hna p). cbn [fst] in Hn. destruct (allAddrs_set fs w o (Some f') p Ho) as (l1 & l2 & E & ->). rewrite E in Hn, Hna. rewrite Eo.
    destruct (decide (p = partOf k)); [|done].
    assert (l1 ++ (outAddrs o p ++ [a]) ++ l2 ≡ₚ a :: (l1 ++ outAddrs o p ++ l2)) as -> by solve_Permutation. by apply NoDup_cons.
  - intros w' o' k' Ho'. rewrite group_by_snoc. cbn [r_worker r_key r_value].
    assert (∀ o1 p, zget fs w' = Some o1 → statesOf (<[a := e0]> m) k' (outAddrs o1 p) = statesOf m k' (outAddrs o1 p)) as Hext.
    { intros o1 p Ho1. apply statesOf_ext. intros b Hb. rewrite lookup_insert_ne; [done|]. intros <-. by eapply Hno. }
    destruct (decide (w' = w)) as [->|Hw'].
    2: { rewrite zget_zset_ne in Ho' by done. rewrite decide_False by (intros [? _]; congruence). rewrite Hext by done. exact (ao_states _ _ Hi w' o' k' Ho'). }
    rewrite (zget_zset_Some _ _ _ _ Ho) in Ho'. injection Ho' as <-. rewrite Eo. pose proof (ao_states _ _ Hi w o k' Ho) as E. cbn [fst snd] in E. rewrite <- E.
    destruct (decide (partOf k' = partOf k)) as [Hp|Hp].
    2: { rewrite Hext by done. rewrite decide_False; [done|]. intros [_ ->]. done. }
    rewrite statesOf_app, Hext, (statesOf_one _ k' a e0) by (done || apply lookup_insert_eq). cbn [e0 content fst snd].
    destruct (decide (k = k')) as [->|]; [|rewrite decide_False by tauto; by rewrite app_nil_r]. rewrite decide_True by done. apply combined_first.
Qed.

Lemma out_None p : out_of (S := S) None p = None.
Proof.
  unfold out_of. change (outputs (fragmentOf (@None (Fragment S)))) with (replicate (Z.to_nat numOutputs) (@None S)).
  destruct (zget _ p) as [o|] eqn:Ho; [|done]. pose proof (zget_lt _ _ _ Ho) as Hp. change (0 ≤ p < 64) in Hp.
  assert (zget (replicate (Z.to_nat numOutputs) (@None S)) p = Some None) as E0 by (apply zget_replicate; exact Hp). assert (o = None) as -> by congruence. done.
Qed.

Lemma start_addrs n p : allAddrs (replicate n None) p = [].
Proof. induction n as [|n IH]; [done|]. unfold allAddrs in *. csimpl. rewrite IH, app_nil_r. unfold outAddrs. by rewrite out_None. Qed.

Lemma start_ok n m : agg_ok (replicate n None, m) [].
Proof.
  pose proof (start_addrs n) as E.
  split; cbn [fst snd].
  - intros f [[=] _]%elem_of_replicate.
  - intros p a. rewrite E. by intros ?%elem_of_nil.
  - intros p. rewrite E. apply NoDup_nil_2.
  - intros w o k Ho. assert (outAddrs o (partOf k) = []) as ->; [|done]. destruct (outAddrs o (partOf k)) as [|a l] eqn:Eo; [done|].
    pose proof (allAddrs_in _ (partOf k) w o a Ho) as Hin. rewrite E, Eo in Hin. destruct (proj1 (elem_of_nil a) (Hin ltac:(by left))).
Qed.

Lemma gather_addrs fs p : gather fs p ≫= es_addrs = allAddrs fs p.
Proof.
  induction fs as [|[f|] fs IH]; [done| |].
  - unfold allAddrs, gather in *. csimpl. rewrite <- IH. unfold outAddrs, out_of. cbn [fragmentOf default]. change (id f) with f.
    by destruct (mjoin (zget (outputs f) p)).
  - unfold allAddrs, gather in *. csimpl. rewrite IH. unfold outAddrs. by rewrite out_None.
Qed.

Lemma gather_store st rows p s : agg_ok st rows → s ∈ gather st.1 p → es_ok s.
Proof using Type.
  intros Hi Hs. unfold gather in Hs. apply list_elem_of_omap in Hs as ([f|] & Hf & Hs); [|done]. cbn in Hs.
  destruct (zget (outputs f) p) as [[s'|]|] eqn:E; simplify_eq/=. by apply (fo_store _ _ (ao_frag _ _ Hi f Hf) p).
Qed.

Lemma totalValues_ok (l : list S) : (∀ s, s ∈ l → es_ok s) → Z.of_nat (length (l ≫= es_addrs)) < 2 ^ 64 → totalValues l = Z.of_nat (length (l ≫= es_addrs)).
Proof using Type.
  unfold totalValues. intros Hok Hlt. replace (Z.of_nat (length (l ≫= es_addrs))) with (0 + Z.of_nat (length (l ≫= es_addrs))) in Hlt |- * by lia.
  assert (0 ≤ 0) as H0 by lia. revert H0 Hlt. generalize 0 at 2 3 4 5. induction l as [|s l IH]; intros t Ht Hlt; csimpl; [lia|]. csimpl in Hlt. rewrite length_app in Hlt |- *.
  rewrite (es_len_ok s) by (apply Hok; by left). unfold u64 at 2. rewrite wrap_u_id by (unfold in_u; lia). rewrite IH; [lia|intros s' Hs; apply Hok; by right|lia|lia].
Qed.

(** *** The rows of all workers *)

Lemma group_by_app rows1 rows2 k : grouped (rows1 ++ rows2) k = union_with (λ x y, Some (comb x y)) (grouped rows1 k) (grouped rows2 k).
Proof using comb_init comb_reduce.
  unfold group_by, valuesOf. rewrite filter_app, fmap_app. generalize (r_value <$> filter (λ r, r_key r = k) rows1), (r_value <$> filter (λ r, r_key r = k) rows2).
  intros vs1 vs2. unfold aggregate. destruct vs1 as [|v1 vs1]; [by destruct vs2|]. destruct vs2 as [|v2 vs2]; [by rewrite app_nil_r|]. cbn [app union_with option_union_with].
  by rewrite foldl_comb, comb_init, <- foldl_app.
Qed.

Lemma states_all st rows p k : agg_ok st rows → Forall state (statesOf st.2 k (allAddrs st.1 p)).
Proof using Type.
  intros Hi. apply Forall_forall. intros x Hx. unfold statesOf in Hx. apply list_elem_of_omap in Hx as (a & Ha & Hx).
  destruct (ao_addr _ _ Hi p a Ha) as (_ & e & He & _ & _ & Hs). rewrite He in Hx. simpl in Hx. case_decide; simplify_eq. done.
Qed.

Lemma all_states st rows k : agg_ok st rows → combined (statesOf st.2 k (allAddrs st.1 (partOf k))) = grouped (byWorker (length st.1) rows) k.
Proof using comb_init comb_reduce.
  intros Hi. assert (∀ i, (i ≤ length st.1)%nat → combined (statesOf st.2 k (allAddrs (take i st.1) (partOf k))) = grouped (byWorker i rows) k) as H.
  2: { rewrite <- (H (length st.1)) by done. by rewrite firstn_all. }
  induction i as [|i IH]; intros Hle; [done|]. destruct (lookup_lt_is_Some_2 st.1 i) as [o Ho]; [lia|].
  assert (zget st.1 (Z.of_nat i) = Some o) as Hz by (unfold zget; rewrite (proj2 (Z.leb_le 0 _)) by lia; by rewrite Nat2Z.id).
  rewrite (take_S_r _ _ _ Ho). unfold allAddrs, byWorker in *. rewrite bind_app, statesOf_app, seqZ_S, bind_app. csimpl. rewrite !app_nil_r, Z.add_0_l.
  rewrite group_by_app, <- (ao_states _ _ Hi _ o k Hz), <- IH by lia. apply combined_app. apply Forall_forall. intros x Hx.
  eapply (proj1 (Forall_forall _ _) (states_all st rows (partOf k) k Hi)). unfold statesOf in *. apply list_elem_of_omap in Hx as (a & Ha & Hx). apply list_elem_of_omap. exists a. split; [|done].
  by eapply allAddrs_in.
Qed.

Lemma run_ok n m rows st : agg_run hashFn init reduce (replicate n None, m) rows st → agg_ok st rows ∧ length st.1 = n ∧ ∀ p, (length (allAddrs st.1 p) ≤ length rows)%nat.
Proof using comb_init comb_reduce.
  remember (replicate n None, m) as s0 eqn:E0. induction 1 as [|s rows [fs m1] r al st2 Hrun IH Hw Hal Hc]; subst.
  - split_and!; [apply start_ok|apply length_replicate|intros p; cbn [fst]; by rewrite start_addrs].
  - destruct (IH eq_refl) as (Hi & Hlen & Hle). cbn [fst] in *. destruct (consume_cases fs m1 rows r al Hi Hw Hal) as (st & Ec & Hcase). rewrite Ec in Hc. injection Hc as <-.
    split_and!; [destruct Hcase; [by eapply hits_ok|by eapply misses_ok]|..]; destruct Hcase as [(f & c & e & _ & _ & _ & _ & _ & ->)|(o & s' & a & Ho & _ & Es & _ & _ & ->)]; cbn [fst].
    + done.
    + by rewrite length_zset.
    + intros p. rewrite length_app. specialize (Hle p). simpl. lia.
    + intros p. specialize (Hle p). rewrite length_app. simpl. destruct (allAddrs_set fs (r_worker r) o (Some (frag_grown (fragmentOf o) (r_key r) s' a)) p Ho) as (l1 & l2 & E & ->). rewrite E in Hle.
      rewrite (out_frag_grown o _ s' a p (fo_outputs _ _ (fragmentOf_ok _ _ _ _ Hi Ho)) Es). case_decide; repeat rewrite length_app in *; simpl; lia.
Qed.
End invariant.

(** ** One partition *)

Section partition.
Context {S K A V : Type} `{!EntryStore S, !EqDecision K, !Countable K}.
Context (bloomMasks : Z → Z) (hashFn : K → Z) (init : A) (reduce : A → V → A) (comb : A → A → A).
#[local] Abbreviation memory := (gmap Z (Entry (K * A))).
#[local] Abbreviation combined := (combined comb).
#[local] Abbreviation mergeEach := (mergeEach bloomMasks same_key (combine_states comb)).
#[local] Abbreviation agg_entry_ok := (agg_entry_ok hashFn init reduce).

Definition keyOf (m : memory) (a : Z) : option (Z * K) := (λ e, (hashValue e, (content e).1)) <$> m !! a.

(** The entries [done], read in the memory [m0], have been merged: [buf] are
    those that were linked, one for each key, with the combined state. *)
Record part_ok (j : Z) (m0 : memory) (t : list Z) (m : memory) (buf done : list Z) : Prop := {
  pk_len : Z.of_nat (length t) = 2 ^ j;
  pk_linked : linked_by bloomMasks (bucketOf (2 ^ j - 1)) t m buf;
  pk_nodup : NoDup buf;
  pk_sub : ∀ a, a ∈ buf → a ∈ done;
  pk_keys : ∀ a, a ∈ done → keyOf m a = keyOf m0 a;
  pk_distinct : ∀ a b e f, a ∈ buf → b ∈ buf → m !! a = Some e → m !! b = Some f → (content e).1 = (content f).1 → a = b;
  pk_groups : ∀ k s, combined (statesOf m0 k done) = Some s ↔ ∃ a e, a ∈ buf ∧ m !! a = Some e ∧ content e = (k, s);
}.

Lemma linked_by_ext f t (m m' : memory) l : (∀ a, a ∈ l → (λ e, (e_next e, hashValue e)) <$> m' !! a = (λ e, (e_next e, hashValue e)) <$> m !! a) →
  linked_by bloomMasks f t m l → linked_by bloomMasks f t m' l.
Proof.
  intros Hm Hl pos Hpos. destruct (Hl pos Hpos) as (p & Hp & Hc & Ht). exists p. split; [done|].
  assert (∀ a, a ∈ l → hash_of m' a = hash_of m a ∧ e_next <$> m' !! a = e_next <$> m !! a) as Hh.
  { intros a Ha. specialize (Hm a Ha). unfold hash_of. destruct (m !! a), (m' !! a); simplify_eq/=; [|done]. split; congruence. }
  split.
  - rewrite (filter_ext_in (λ a, f (hash_of m' a) = pos) (λ a, f (hash_of m a) = pos)) by (intros a Ha; by rewrite (proj1 (Hh a Ha))).
    eapply chain_ext; [|exact Hc]. intros a Ha. rewrite elem_of_reverse, list_elem_of_filter in Ha. apply Hh, Ha.
  - intros a Ha. rewrite (proj1 (Hh a Ha)). by apply Ht.
Qed.

(** Memory outside of the entries may change. *)
Lemma part_frame j m0 t m m' buf done : (∀ a, a ∈ done → m' !! a = m !! a) → part_ok j m0 t m buf done → part_ok j m0 t m' buf done.
Proof.
  intros Hm [H1 H2 H3 H4 H5 H6 H7]. assert (∀ a, a ∈ buf → m' !! a = m !! a) as Hb by (intros a Ha; by apply Hm, H4). split; try done.
  - eapply linked_by_ext; [|done]. intros a Ha. by rewrite Hb.
  - intros a Ha. rewrite <- (H5 a Ha). unfold keyOf. by rewrite Hm.
  - intros a b e f Ha Hb'. rewrite !Hb by done. by apply H6.
  - intros k s. rewrite H7. split; intros (a & e & Ha & He & E); exists a, e; rewrite ?Hb in * by done; done.
Qed.

Lemma part_empty j m0 m : 0 ≤ j → part_ok j m0 (replicate (Z.to_nat (2 ^ j)) 0) m [] [].
Proof.
  intros Hj. split.
  - rewrite length_replicate. pose proof (Z.pow_nonneg 2 j). lia.
  - apply linked_by_empty.
  - apply NoDup_nil_2.
  - done.
  - by intros a ?%elem_of_nil.
  - by intros a b e f ?%elem_of_nil.
  - intros k s. split; [done|]. by intros (a & e & ?%elem_of_nil & _).
Qed.

(** The entry a key has already. *)
Lemma walk_part j m0 p0 t m buf done e pos p : part_ok j m0 t m buf done → (∀ a, a ∈ done → agg_entry_ok m0 p0 a) →
  pos = bucketOf (2 ^ j - 1) (hashFn (content e).1) → zget t pos = Some p →
  ∃ r, walk same_key (size m) m (untag p) (hashFn (content e).1) (content e) = Ok r ∧
    match r with
    | Some c => c ∈ buf ∧ ∃ ec, m !! c = Some ec ∧ (content ec).1 = (content e).1
    | None => ∀ c ec, c ∈ buf → m !! c = Some ec → (content ec).1 ≠ (content e).1
    end.
Proof.
  intros Hpk Hok -> Hp. destruct (pk_linked _ _ _ _ _ _ Hpk _ (zget_lt _ _ _ Hp)) as (q & Hq & Hch & _). rewrite Hp in Hq. injection Hq as <-.
  assert (∀ c, c ∈ buf → ∃ ec, m !! c = Some ec ∧ hashValue ec = hashFn (content ec).1) as Hbuf.
  { intros c Hc. apply (pk_sub _ _ _ _ _ _ Hpk) in Hc. pose proof (pk_keys _ _ _ _ _ _ Hpk c Hc) as Ek. destruct (Hok c Hc) as (_ & e0 & He0 & Hh & _).
    unfold keyOf in Ek. rewrite He0 in Ek. destruct (m !! c) as [ec|]; simplify_eq/=. exists ec. split; congruence. }
  eexists. split.
  { apply (walk_ok _ _ _ _ _ _ _ Hch). rewrite length_reverse. etrans; [apply length_filter|].
    rewrite <- (size_list_to_set (C := gset Z)) by apply Hpk. rewrite <- size_dom. apply subseteq_size. intros c Hc%elem_of_list_to_set.
    destruct (Hbuf c Hc) as (ec & Hec & _). apply elem_of_dom. by exists ec. }
  destruct (head _) as [c|] eqn:Eh.
  - apply head_Some_elem_of, list_elem_of_filter in Eh as [Hm Hc]. rewrite elem_of_reverse, list_elem_of_filter in Hc. split; [apply Hc|].
    unfold matching in Hm. destruct (m !! c) as [ec|]; [|done]. exists ec. split; [done|]. destruct Hm as [_ Hm]. by apply bool_decide_eq_true in Hm.
  - intros c ec Hc Hec Ek. destruct (Hbuf c Hc) as (ec' & Hec' & Hh). rewrite Hec in Hec'. injection Hec' as <-. apply head_None in Eh.
    assert (c ∈ filter (matching same_key m (hashFn (content e).1) (content e)) (reverse (filter (λ a, bucketOf (2 ^ j - 1) (hash_of m a) = bucketOf (2 ^ j - 1) (hashFn (content e).1)) buf))) as Hin.
    { apply list_elem_of_filter. split.
      - unfold matching. rewrite Hec. split; [congruence|]. by apply bool_decide_eq_true.
      - rewrite elem_of_reverse, list_elem_of_filter. split; [|done]. unfold hash_of. rewrite Hec. by rewrite Hh, Ek. }
    rewrite Eh in Hin. by apply elem_of_nil in Hin.
Qed.

(** A key has one combined state. *)
Lemma part_None j m0 t m buf done k : part_ok j m0 t m buf done → (∀ c ec, c ∈ buf → m !! c = Some ec → (content ec).1 ≠ k) → combined (statesOf m0 k done) = None.
Proof.
  intros Hpk Hno. destruct (combined (statesOf m0 k done)) as [s|] eqn:E; [|done]. apply (pk_groups _ _ _ _ _ _ Hpk) in E as (a & e & Ha & He & Ec).
  destruct (Hno a e Ha He). by rewrite Ec.
Qed.

(** The state joins that of the entry [c]. *)
Lemma part_combine j m0 t m buf done a e c ec : part_ok j m0 t m buf done → m0 !! a = Some e → m !! a = Some e → a ∉ done → c ∈ buf → m !! c = Some ec →
  (content ec).1 = (content e).1 → part_ok j m0 t (<[c := set_content (combine_states comb (content ec) (content e)) ec]> m) buf (done ++ [a]).
Proof.
  intros Hpk Hea Hea' Ha Hc Hec Hk. set (ec' := set_content _ ec). pose proof Hpk as [H1 H2 H3 H4 H5 H6 H7].
  assert (∀ b f, <[c := ec']> m !! b = Some f → ∃ f', m !! b = Some f' ∧ (content f').1 = (content f).1 ∧ (b ≠ c → f = f')) as Hold.
  { intros b f. destruct (decide (b = c)) as [->|]; [rewrite lookup_insert_eq; intros [= <-]; by exists ec|rewrite lookup_insert_ne by done; intros Hf; by exists f]. }
  split; try done.
  - eapply linked_by_ext; [|done]. intros b Hb. destruct (decide (b = c)) as [->|]; [by rewrite lookup_insert_eq, Hec|by rewrite lookup_insert_ne].
  - intros b Hb. apply elem_of_app. left. by apply H4.
  - intros b [Hb| ->%list_elem_of_singleton]%elem_of_app.
    + rewrite <- (H5 b Hb). unfold keyOf. destruct (decide (b = c)) as [->|]; [by rewrite lookup_insert_eq, Hec|by rewrite lookup_insert_ne].
    + unfold keyOf. rewrite lookup_insert_ne by (intros <-; by apply Ha, H4). by rewrite Hea, Hea'.
  - intros b d f g Hb Hd Hf Hg E. destruct (Hold b f Hf) as (f' & Hf' & Ef & _). destruct (Hold d g Hg) as (g' & Hg' & Eg & _). apply (H6 b d f' g'); congruence.
  - assert (∃ s, combined (statesOf m0 (content e).1 done) = Some s ∧ s = (content ec).2) as (s & Es & ->).
    { exists (content ec).2. split; [|done]. apply H7. exists c, ec. split_and!; [done|done|]. rewrite <- Hk. by destruct (content ec). }
    intros k s. rewrite statesOf_app, (statesOf_one m0 k a e Hea). destruct (decide ((content e).1 = k)) as [<-|Hne].
    + rewrite combined_snoc, Es. split.
      * intros [= <-]. exists c, ec'. rewrite lookup_insert_eq. split_and!; try done. by rewrite <- Hk.
      * intros (b & f & Hb & Hf & Ef). destruct (Hold b f Hf) as (f' & Hf' & Ef' & _). assert (b = c) as -> by (apply (H6 b c f' ec Hb Hc Hf' Hec); by rewrite Ef', Ef, Hk).
        rewrite lookup_insert_eq in Hf. injection Hf as <-. cbn [ec' content set_content combine_states] in Ef. injection Ef as _ <-. done.
    + rewrite app_nil_r, H7. split; intros (b & f & Hb & Hf & Ef); exists b, f; split_and!; try done.
      * rewrite lookup_insert_ne; [done|]. intros <-. rewrite Hec in Hf. injection Hf as <-. apply Hne. by rewrite <- Hk, Ef.
      * destruct (Hold b f Hf) as (f' & Hf' & Ef' & E). rewrite E; [done|]. intros ->. apply Hne. assert (f' = ec) as -> by congruence. by rewrite <- Hk, Ef', Ef.
Qed.

(** The entry is the first of its key. *)
Lemma part_link j m0 t m buf done a e p : part_ok j m0 t m buf done → m0 !! a = Some e → m !! a = Some e → a ∉ done → 0 < a < 2 ^ 48 →
  zget t (bucketOf (2 ^ j - 1) (hashValue e)) = Some p → (∀ c ec, c ∈ buf → m !! c = Some ec → (content ec).1 ≠ (content e).1) →
  part_ok j m0 (zset t (bucketOf (2 ^ j - 1) (hashValue e)) (tag bloomMasks a p (hashValue e))) (<[a := set_next (untag p) e]> m) (buf ++ [a]) (done ++ [a]).
Proof.
  intros Hpk Hea Hea' Ha Hr Hp Hno. pose proof Hpk as [H1 H2 H3 H4 H5 H6 H7]. assert (a ∉ buf) as Hab by (intros Hin; by apply Ha, H4).
  assert (∀ b, b ∈ buf → <[a := set_next (untag p) e]> m !! b = m !! b) as Hm by (intros b Hb; rewrite lookup_insert_ne; [done|by intros <-]). split.
  - by rewrite length_zset.
  - by apply (link_front_by bloomMasks (bucketOf (2 ^ j - 1)) t m buf a (set_next (untag p) e) p).
  - apply NoDup_app. split_and!; [done|by intros x Hx ->%list_elem_of_singleton|apply NoDup_singleton].
  - intros b. rewrite !elem_of_app. intros [Hb|Hb]; [left; by apply H4|by right].
  - intros b [Hb| ->%list_elem_of_singleton]%elem_of_app.
    + rewrite <- (H5 b Hb). unfold keyOf. rewrite lookup_insert_ne; [done|]. by intros <-.
    + unfold keyOf. by rewrite lookup_insert_eq, Hea.
  - intros b d f g [Hb| ->%list_elem_of_singleton]%elem_of_app [Hd| ->%list_elem_of_singleton]%elem_of_app; [| | |done].
    + rewrite !Hm by done. by apply H6.
    + rewrite lookup_insert_eq, Hm by done. intros Hf [= <-] E. by destruct (Hno b f Hb Hf).
    + rewrite lookup_insert_eq, Hm by done. intros [= <-] Hg E. by destruct (Hno d g Hd Hg).
  - intros k s. rewrite statesOf_app, (statesOf_one m0 k a e Hea). destruct (decide ((content e).1 = k)) as [<-|Hne].
    + rewrite combined_snoc, (part_None _ _ _ _ _ _ _ Hpk Hno). split.
      * intros [= <-]. exists a. eexists. rewrite lookup_insert_eq. split_and!; [apply elem_of_app; right; by left|done|]. cbn [content set_next]. by destruct (content e).
      * intros (b & f & [Hb| ->%list_elem_of_singleton]%elem_of_app & Hf & Ef).
        -- rewrite Hm in Hf by done. destruct (Hno b f Hb Hf). by rewrite Ef.
        -- rewrite lookup_insert_eq in Hf. injection Hf as <-. cbn [content set_next] in Ef. by rewrite Ef.
    + rewrite app_nil_r, H7. split.
      * intros (b & f & Hb & Hf & Ef). exists b, f. rewrite Hm by done. split_and!; [apply elem_of_app; by left|done..].
      * intros (b & f & [Hb| ->%list_elem_of_singleton]%elem_of_app & Hf & Ef); [rewrite Hm in Hf by done; by exists b, f|].
        rewrite lookup_insert_eq in Hf. injection Hf as <-. cbn [content set_next] in Ef. destruct Hne. by rewrite Ef.
Qed.

Lemma mergeEach_ok j m0 p0 rest t m buf done : 0 ≤ j → part_ok j m0 t m buf done → NoDup (done ++ rest) → (∀ a, a ∈ done ++ rest → agg_entry_ok m0 p0 a) →
  (∀ a, a ∈ rest → m !! a = m0 !! a) →
  ∃ t' m' buf', mergeEach (2 ^ j - 1) (t, m, buf) rest = Ok (t', m', buf') ∧ part_ok j m0 t' m' buf' (done ++ rest) ∧ ∀ a, a ∉ done ++ rest → m' !! a = m !! a.
Proof.
  intros Hj. revert t m buf done. induction rest as [|a rest IH]; intros t m buf done Hpk Hnd Hok Hm.
  { exists t, m, buf. rewrite app_nil_r. done. }
  assert (a ∉ done) as Ha by (apply NoDup_app in Hnd as (_ & Hd & _); intros Hin; apply (Hd a Hin); by left).
  destruct (Hok a) as (Hr & e & He & Hh & _); [apply elem_of_app; right; by left|]. pose proof (Hm a ltac:(by left)) as Hea. rewrite He in Hea.
  cbn [PreAgg.mergeEach mergeOne]. unfold entry_at at 1. rewrite Hea. cbn [res_bind].
  destruct (proj2 (zget_is_Some t (bucketOf (2 ^ j - 1) (hashValue e)))) as [p Hp]; [rewrite (pk_len _ _ _ _ _ _ Hpk); by apply land_mask_range|].
  rewrite (load_Some _ _ _ Hp). cbn [res_bind].
  destruct (walk_part j m0 p0 t m buf done e (bucketOf (2 ^ j - 1) (hashValue e)) p Hpk) as (r & Ew & Hw); [intros b Hb; apply Hok, elem_of_app; by left|by rewrite Hh|done|].
  rewrite Hh, Ew. cbn [res_bind]. rewrite <- Hh.
  assert (∀ t1 m1 b1, part_ok j m0 t1 m1 b1 (done ++ [a]) → (∀ b, b ∉ done ++ [a] → m1 !! b = m !! b) →
    ∃ t' m' buf', mergeEach (2 ^ j - 1) (t1, m1, b1) rest = Ok (t', m', buf') ∧ part_ok j m0 t' m' buf' (done ++ a :: rest) ∧ ∀ b, b ∉ done ++ a :: rest → m' !! b = m !! b) as Hgo.
  { intros t1 m1 b1 Hpk1 Hm1. rewrite (cons_middle a) in Hnd, Hok |- *. rewrite (app_assoc done) in Hnd, Hok |- *. destruct (IH t1 m1 b1 (done ++ [a]) Hpk1 Hnd Hok) as (t' & m' & buf' & E & Hpk' & Hm').
    - intros b Hb. rewrite Hm1; [apply Hm; by right|]. intros Hin. apply NoDup_app in Hnd as (_ & Hd & _). by apply (Hd b Hin).
    - exists t', m', buf'. split_and!; [done..|]. intros b Hb. rewrite Hm' by done. apply Hm1. intros Hin. apply Hb, elem_of_app. by left. }
  destruct r as [c|].
  - destruct Hw as (Hc & ec & Hec & Hk). unfold entry_at. rewrite Hec. cbn [res_bind]. apply Hgo; [by eapply part_combine|].
    intros b Hb. rewrite lookup_insert_ne; [done|]. intros <-. apply Hb, elem_of_app. left. by apply (pk_sub _ _ _ _ _ _ Hpk).
  - cbn [res_bind]. apply Hgo; [by eapply part_link|]. intros b Hb. rewrite lookup_insert_ne; [done|]. intros <-. apply Hb, elem_of_app. right. by left.
Qed.

(** The lookup in the table of the partition. *)
Lemma lookup_part j m0 p0 t m buf done k x p : part_ok j m0 t m buf done → (∀ a, a ∈ done → agg_entry_ok m0 p0 a) →
  zget t (bucketOf (2 ^ j - 1) (hashFn k)) = Some p →
  ∃ r, walk same_key (size m) m (filterTagged bloomMasks p (hashFn k)) (hashFn k) (k, x) = Ok r ∧
    combined (statesOf m0 k done) = (r ≫= λ a, m !! a) ≫= λ e, Some (content e).2.
Proof.
  intros Hpk Hok Hp. destruct (walk_part j m0 p0 t m buf done (mkEntry 0 (hashFn k) (k, x)) _ p Hpk Hok eq_refl Hp) as (r & Ew & Hr). cbn [content fst] in Ew, Hr.
  assert (∀ c ec, c ∈ buf → m !! c = Some ec → (content ec).1 = k → combined (statesOf m0 k done) = Some (content ec).2) as Hin.
  { intros c ec Hc Hec Hk. apply (pk_groups _ _ _ _ _ _ Hpk). exists c, ec. split_and!; [done..|]. rewrite <- Hk. by destruct (content ec). }
  unfold filterTagged. destruct (matchesTag bloomMasks p (hashFn k)) eqn:Em.
  - exists r. split; [done|]. destruct r as [c|]; [|by apply (part_None _ _ _ _ _ _ _ Hpk)]. destruct Hr as (Hc & ec & Hec & Hk). simpl. rewrite Hec. by apply (Hin c).
  - exists None. split; [by destruct (size m)|]. simpl. apply (part_None _ _ _ _ _ _ _ Hpk). intros c ec Hc Hec Hk.
    pose proof (pk_sub _ _ _ _ _ _ Hpk c Hc) as Hd. pose proof (pk_keys _ _ _ _ _ _ Hpk c Hd) as Ek. destruct (Hok c Hd) as (_ & e0 & He0 & Hh & _).
    unfold keyOf in Ek. rewrite He0, Hec in Ek. injection Ek as E1 E2.
    destruct (pk_linked _ _ _ _ _ _ Hpk _ (zget_lt _ _ _ Hp)) as (q & Hq & _ & Ht). rewrite Hp in Hq. injection Hq as <-.
    assert (hash_of m c = hashFn k) as Eh by (unfold hash_of; rewrite Hec; congruence).
    specialize (Ht c Hc). rewrite Eh in Ht. apply in_tag_matches in Ht; [congruence|done].
Qed.
End partition.

(** ** All partitions *)

Section partitions.
Context {S K A V : Type} `{!EntryStore S, !EqDecision K, !Countable K}.
Context (bloomMasks : Z → Z) (hashFn : K → Z) (init : A) (reduce : A → V → A) (comb : A → A → A).
#[local] Abbreviation memory := (gmap Z (Entry (K * A))).
#[local] Abbreviation fragments := (list (option (Fragment S))).
#[local] Abbreviation handleMerge := (handleMerge bloomMasks same_key (combine_states comb)).
#[local] Abbreviation mergePartitions := (mergePartitions bloomMasks same_key (combine_states comb)).
#[local] Abbreviation part_ok := (part_ok (K := K) bloomMasks comb).

Context (fs : fragments) (m0 : memory) (rows : list (Row (K := K) (V := V))).
Context (Hagg : agg_ok hashFn init reduce comb (fs, m0) rows) (Hlen : ∀ p, Z.of_nat (length (allAddrs fs p)) < 2 ^ 50).

(** The partitions [D] have been merged; [bufs p] is the local buffer of the
    partition [p]. *)
Record merged_ok (D : list Z) (pa : PreAggregationHashtable) (m : memory) (bufs : Z → list Z) : Prop := {
  mo_len : length (pa_ht pa) = Z.to_nat numOutputs;
  mo_rest : ∀ p a, p ∉ D → a ∈ allAddrs fs p → m !! a = m0 !! a;
  mo_done : ∀ p, p ∈ D → ∃ j t, 0 ≤ j ∧ zget (pa_ht pa) p = Some (mkPartitionHt (Some t) (2 ^ j - 1)) ∧ part_ok j m0 t m (bufs p) (allAddrs fs p);
  mo_buffer : pa_buffer pa = reverse D ≫= bufs;
}.

Lemma partition_unique p q a : a ∈ allAddrs fs p → a ∈ allAddrs fs q → p = q.
Proof using Hagg.
  intros Hp Hq. destruct (ao_addr _ _ _ _ _ _ Hagg p a Hp) as (_ & e & He & _ & <- & _). destruct (ao_addr _ _ _ _ _ _ Hagg q a Hq) as (_ & e' & He' & _ & <- & _).
  cbn [snd] in *. congruence.
Qed.

Lemma handleMerge_ok D pa m bufs id : merged_ok D pa m bufs → id ∉ D → 0 ≤ id < numOutputs →
  ∃ pa' m' bufs', handleMerge fs (pa, m) id = Ok (pa', m') ∧ merged_ok (D ++ [id]) pa' m' bufs'.
Proof using Hagg Hlen.
  intros [H1 H2 H3 H4] Hid Hr. unfold PreAgg.handleMerge. rewrite gather_addrs.
  assert (totalValues (gather fs id) = Z.of_nat (length (allAddrs fs id))) as ->.
  { rewrite <- gather_addrs. specialize (Hlen id). rewrite <- gather_addrs in Hlen. apply totalValues_ok; [|lia]. intros s. by apply (gather_store _ _ _ _ _ _ id s Hagg). }
  destruct (htSizeFor_spec (Z.of_nat (length (allAddrs fs id)))) as (j & Hj & -> & _); [split; [lia|apply Hlen]|].
  destruct (mergeEach_ok bloomMasks hashFn init reduce comb j m0 id (allAddrs fs id) (replicate (Z.to_nat (2 ^ j)) 0) m [] []) as (t & m' & buf & E & Hpk & Hm');
    [lia|apply part_empty; lia|exact (ao_nodup _ _ _ _ _ _ Hagg id)|exact (ao_addr _ _ _ _ _ _ Hagg id)|intros a; by apply H2|].
  rewrite E. cbn [res_bind]. destruct (proj2 (zget_is_Some (pa_ht pa) id)) as [x Hx]; [by rewrite H1|]. rewrite (store_Some _ _ _ _ Hx). cbn [res_bind].
  eexists _, m', (λ p, if decide (p = id) then buf else bufs p). split; [done|].
  assert (∀ p a, p ≠ id → a ∈ allAddrs fs p → m' !! a = m !! a) as Hframe.
  { intros p a Hp Ha. apply Hm'. intros Hin. apply Hp. by eapply partition_unique. }
  split; cbn [pa_ht pa_buffer].
  - by rewrite length_zset.
  - intros p a. rewrite elem_of_app, list_elem_of_singleton. intros Hp Ha. rewrite (Hframe p a) by tauto. apply (H2 p); tauto.
  - intros p Hp. destruct (decide (p = id)) as [->|Hne]; [exists j, t; split_and!; [lia|by apply zget_zset_Some with x|done]|].
    destruct (H3 p) as (j' & t' & Hj' & Ht' & Hpk'); [apply elem_of_app in Hp as [Hp|Hp%list_elem_of_singleton]; done|].
    exists j', t'. rewrite zget_zset_ne by done. split_and!; [done..|]. eapply part_frame; [|done]. intros a. by apply Hframe.
  - rewrite reverse_app. csimpl. rewrite decide_True by done. f_equal. rewrite H4.
    assert (∀ p, p ∈ reverse D → p ≠ id) as Hne by (intros p; rewrite elem_of_reverse; by intros ? ->). clear -Hne. induction (reverse D) as [|p l IH]; [done|].
    csimpl. rewrite decide_False by (apply Hne; by left). f_equal. apply IH. intros q Hq. apply Hne. by right.
Qed.

Lemma mergePartitions_ok ids D pa m bufs : merged_ok D pa m bufs → NoDup (D ++ ids) → (∀ p, p ∈ ids → 0 ≤ p < numOutputs) →
  ∃ pa' m' bufs', mergePartitions fs (pa, m) ids = Ok (pa', m') ∧ merged_ok (D ++ ids) pa' m' bufs'.
Proof using Hagg Hlen.
  revert D pa m bufs. induction ids as [|id ids IH]; intros D pa m bufs Hi Hnd Hr; [exists pa, m, bufs; by rewrite app_nil_r|].
  assert (id ∉ D) as Hid by (apply NoDup_app in Hnd as (_ & Hd & _); intros Hin; apply (Hd id Hin); by left).
  cbn [PreAgg.mergePartitions]. destruct (handleMerge_ok D pa m bufs id Hi Hid) as (pa1 & m1 & bufs1 & -> & Hi1); [apply Hr; by left|]. cbn [res_bind].
  rewrite (cons_middle id) in Hnd |- *. rewrite (app_assoc D) in Hnd |- *. apply (IH _ _ _ _ Hi1 Hnd). intros p Hp. apply Hr. by right.
Qed.

Lemma merge_partitions_ok ids : ids ≡ₚ seqZ 0 numOutputs → ∃ pa m bufs, preagg_merge bloomMasks same_key (combine_states comb) fs ids m0 = Ok (pa, m) ∧ merged_ok ids pa m bufs.
Proof using Hagg Hlen.
  intros Hp. apply (mergePartitions_ok ids [] newPreAgg m0 (λ _, [])).
  - split; try done. by intros p ?%elem_of_nil.
  - rewrite Hp. apply NoDup_seqZ.
  - intros p. rewrite Hp, elem_of_seqZ. lia.
Qed.

(** The tasks hand out every partition once, in order, and no other. *)
Lemma partitions_allocated n : (64 ≤ n)%nat → allocations n 0 = seqZ 0 numOutputs.
Proof using Type.
  intros Hn. assert (∀ n i, 0 ≤ i → allocations n i = seqZ i (Z.min (Z.of_nat n) (64 - i))) as H.
  { clear. induction n as [|n IH]; intros i Hi; cbn [allocations allocateWork].
    - by rewrite (seqZ_nil i) by lia.
    - destruct (Z.leb_spec numOutputs i) as [H|H]; unfold numOutputs in H; rewrite IH by lia.
      + by rewrite !seqZ_nil by lia.
      + rewrite (seqZ_cons i) by lia. f_equal. f_equal; lia. }
  rewrite H by lia. f_equal. unfold numOutputs. lia.
Qed.

(** *** The result *)

Definition results (pa : PreAggregationHashtable) (m : memory) : list (K * A) := omap (λ a, content <$> m !! a) (pa_buffer pa).

Lemma in_results ids pa m bufs k s : ids ≡ₚ seqZ 0 numOutputs → merged_ok ids pa m bufs →
  (k, s) ∈ results pa m ↔ PreAgg.combined comb (statesOf m0 k (allAddrs fs (partOf hashFn k))) = Some s.
Proof using Hagg.
  intros Hp Hi. unfold results. rewrite list_elem_of_omap, (mo_buffer _ _ _ _ Hi). setoid_rewrite list_elem_of_bind. setoid_rewrite elem_of_reverse.
  destruct (mo_done _ _ _ _ Hi (partOf hashFn k)) as (j & t & Hj & Ht & Hpk); [rewrite Hp, elem_of_seqZ; apply part_range|]. rewrite (pk_groups _ _ _ _ _ _ _ _ Hpk). split.
  - intros (a & (p & Ha & Hpin) & Hc). destruct (m !! a) as [e|] eqn:He; [|done]. simpl in Hc. injection Hc as Hc. exists a, e. split_and!; [|done..].
    destruct (mo_done _ _ _ _ Hi p Hpin) as (j' & t' & _ & _ & Hpk'). pose proof (pk_sub _ _ _ _ _ _ _ _ Hpk' a Ha) as Hall.
    destruct (ao_addr _ _ _ _ _ _ Hagg p a Hall) as (_ & e0 & He0 & _ & Hpart & _). cbn [snd] in He0.
    pose proof (pk_keys _ _ _ _ _ _ _ _ Hpk' a Hall) as Ek. unfold keyOf in Ek. rewrite He, He0 in Ek. simpl in Ek. injection Ek as _ Ek. by rewrite <- Ek, Hc in Hpart; subst p.
  - intros (a & e & Ha & He & Hc). exists a. rewrite He. simpl. split; [|by rewrite Hc]. exists (partOf hashFn k). split; [done|]. rewrite Hp, elem_of_seqZ. apply part_range.
Qed.

Lemma results_nodup ids pa m bufs : ids ≡ₚ seqZ 0 numOutputs → merged_ok ids pa m bufs → NoDup (results pa m).*1.
Proof using Hagg.
  intros Hp Hi. unfold results. rewrite (mo_buffer _ _ _ _ Hi).
  assert (NoDup (reverse ids)) as Hids by (rewrite reverse_Permutation, Hp; apply NoDup_seqZ).
  assert (∀ p, p ∈ reverse ids → p ∈ ids) as Hin by (intros p; by rewrite elem_of_reverse). revert Hids Hin. generalize (reverse ids). intros l Hids Hin.
  assert (∀ p a, p ∈ ids → a ∈ bufs p → ∃ e, m !! a = Some e ∧ partOf hashFn (content e).1 = p) as Hpart.
  { intros p a Hpi Ha. destruct (mo_done _ _ _ _ Hi p Hpi) as (j & t & _ & _ & Hpk). pose proof (pk_sub _ _ _ _ _ _ _ _ Hpk a Ha) as Hall.
    destruct (ao_addr _ _ _ _ _ _ Hagg p a Hall) as (_ & e0 & He0 & _ & Hpart & _). cbn [snd] in He0.
    pose proof (pk_keys _ _ _ _ _ _ _ _ Hpk a Hall) as Ek. unfold keyOf in Ek. rewrite He0 in Ek. destruct (m !! a) as [e|]; simplify_eq/=. exists e. by rewrite H0. }
  assert (∀ p k, p ∈ ids → k ∈ (omap (λ a, content <$> m !! a) (bufs p)).*1 → partOf hashFn k = p) as Hk.
  { intros p k Hpi (c & -> & Hc)%list_elem_of_fmap. apply list_elem_of_omap in Hc as (a & Ha & Hc). destruct (Hpart p a Hpi Ha) as (e & He & Ee). rewrite He in Hc. by simplify_eq/=. }
  induction l as [|p l IH]; [apply NoDup_nil_2|]. apply NoDup_cons in Hids as [Hpl Hl]. csimpl. rewrite omap_app, fmap_app. apply NoDup_app. split_and!.
  - destruct (mo_done _ _ _ _ Hi p) as (j & t & _ & _ & Hpk); [apply Hin; by left|]. pose proof (pk_nodup _ _ _ _ _ _ _ _ Hpk) as Hnd. pose proof (pk_distinct _ _ _ _ _ _ _ _ Hpk) as Hd.
    clear -Hnd Hd. induction (bufs p) as [|a b IHb]; [apply NoDup_nil_2|]. apply NoDup_cons in Hnd as [Ha Hb]. csimpl. specialize (IHb Hb ltac:(intros x y e f Hx Hy; apply Hd; by right)).
    destruct (m !! a) as [e|] eqn:He; [|done]. csimpl. apply NoDup_cons. split; [|done]. intros (c & Ec & Hc)%list_elem_of_fmap. apply list_elem_of_omap in Hc as (b' & Hb' & E).
    destruct (m !! b') as [f|] eqn:Hf; [|done]. simplify_eq/=. apply Ha. by rewrite (Hd a b' e f ltac:(by left) ltac:(by right) He Hf Ec).
  - intros k Hkp (c & -> & Hc)%list_elem_of_fmap. apply list_elem_of_omap in Hc as (a & Ha & Hc). apply list_elem_of_bind in Ha as (q & Ha & Hq).
    assert (p = q) as ->; [|done]. rewrite <- (Hk p _ (Hin p ltac:(by left)) Hkp). apply Hk; [apply Hin; by right|]. apply list_elem_of_fmap. exists c. split; [done|]. apply list_elem_of_omap. by exists a.
  - apply IH; [done|]. intros q Hq. apply Hin. by right.
Qed.

Lemma lookup_merged ids pa m bufs k x : ids ≡ₚ seqZ 0 numOutputs → merged_ok ids pa m bufs →
  ∃ q r, preagg_lookup bloomMasks pa (hashFn k) = Ok q ∧ walk same_key (size m) m q (hashFn k) (k, x) = Ok r ∧ preagg_find bloomMasks same_key pa m (hashFn k) (k, x) = Ok r ∧
    PreAgg.combined comb (statesOf m0 k (allAddrs fs (partOf hashFn k))) = (r ≫= λ a, m !! a) ≫= λ e, Some (content e).2.
Proof using Hagg.
  intros Hp Hi. destruct (mo_done _ _ _ _ Hi (partOf hashFn k)) as (j & t & Hj & Ht & Hpk); [rewrite Hp, elem_of_seqZ; apply part_range|].
  unfold preagg_lookup, preagg_find. fold (partOf hashFn k). rewrite (load_Some _ _ _ Ht). cbn [res_bind p_ht p_mask]. rewrite Z.land_comm. fold (bucketOf (2 ^ j - 1) (hashFn k)).
  destruct (proj2 (zget_is_Some t (bucketOf (2 ^ j - 1) (hashFn k)))) as [p Hp']; [rewrite (pk_len _ _ _ _ _ _ _ _ Hpk); by apply land_mask_range|].
  rewrite (load_Some _ _ _ Hp'). cbn [res_bind].
  destruct (lookup_part bloomMasks hashFn init reduce comb j m0 (partOf hashFn k) t m (bufs (partOf hashFn k)) _ k x p Hpk) as (r & Er & Eg); [exact (ao_addr _ _ _ _ _ _ Hagg _)|done|].
  eexists _, r. split_and!; [done|done| |done]. unfold filterTagged in Er. destruct (matchesTag bloomMasks p (hashFn k)); [done|]. by destruct (size m).
Qed.
End partitions.

(** ** Claim *)

(** C7. Two-phase parallel aggregation is the sequential group-by.  Workers
    aggregate rows into their fragments in any interleaving, entries may fall
    out of the caches; the partitions are merged in any order.  Nothing fails,
    the result holds every key that occurs once, with the state a sequential
    run over the rows in the order of the workers leads to, and the lookup of a
    key finds the entry with that state, or nothing for a key without rows.
    The laws say that the aggregate can be computed in parts. *)
Theorem preaggregation_group_by {S K A V} `{!EntryStore S, !EqDecision K, !Countable K} bloomMasks (hashFn : K → Z) (init : A) (reduce : A → V → A) (comb : A → A → A)
    n m rows (fs : list (option (Fragment S))) m0 ids :
  (∀ x, comb x init = x) → (∀ x s v, comb x (reduce s v) = reduce (comb x s) v) →
  agg_run hashFn init reduce (replicate n None, m) rows (fs, m0) → Z.of_nat (length rows) < 2 ^ 50 → ids ≡ₚ seqZ 0 numOutputs →
  (∀ r al, 0 ≤ r_worker r < Z.of_nat n → alloc_ok hashFn (fs, m0) r al → is_ok (consume hashFn init reduce (fs, m0) r al)) ∧
  ∃ pa m', preagg_merge bloomMasks same_key (combine_states comb) fs ids m0 = Ok (pa, m') ∧ NoDup (results pa m').*1 ∧
    (∀ k s, (k, s) ∈ results pa m' ↔ group_by init reduce (byWorker n rows) k = Some s) ∧
    ∀ k x, ∃ q r, preagg_lookup bloomMasks pa (hashFn k) = Ok q ∧ walk same_key (size m') m' q (hashFn k) (k, x) = Ok r ∧
      preagg_find bloomMasks same_key pa m' (hashFn k) (k, x) = Ok r ∧
      group_by init reduce (byWorker n rows) k = (r ≫= λ a, m' !! a) ≫= λ e, Some (content e).2.
Proof.
  intros Hci Hcr Hrun Hlen Hids. destruct (run_ok hashFn init reduce comb Hci Hcr n m rows _ Hrun) as (Hi & En & Hle). cbn [fst] in *.
  split. { intros r al Hw Hal. destruct (consume_cases hashFn init reduce comb fs m0 rows r al Hi ltac:(by rewrite En) Hal) as (st & -> & _). by exists st. }
  assert (∀ p, Z.of_nat (length (allAddrs fs p)) < 2 ^ 50) as Hlen' by (intros p; specialize (Hle p); lia).
  destruct (merge_partitions_ok bloomMasks hashFn init reduce comb fs m0 rows Hi Hlen' ids Hids) as (pa & m' & bufs & E & Hm).
  assert (∀ k, combined comb (statesOf m0 k (allAddrs fs (partOf hashFn k))) = group_by init reduce (byWorker n rows) k) as Hg.
  { intros k. rewrite <- En. exact (all_states hashFn init reduce comb Hci Hcr _ _ k Hi). }
  exists pa, m'. split_and!; [done|by eapply results_nodup| |].
  - intros k s. rewrite <- Hg. by eapply in_results.
  - intros k x. setoid_rewrite <- Hg. by eapply lookup_merged.
Qed.

(** Two workers sum; on the first, the keys 7 and 65543 displace each other. *)
Definition sample_alloc (fresh : Z) : Alloc := mkAlloc (S := FlexibleBuffer * list Z) (K := Z) (A := Z) (newFlexibleBuffer 256 32 fresh, [256]) 0 (0, 0).
Definition sample_state : Type := list (option (Fragment (FlexibleBuffer * list Z))) * gmap Z (Entry (Z * Z)).


(** Running rows with the addresses of the allocator. *)
Definition sample_fresh (st : sample_state) (r : Row (K := Z) (V := Z)) (fresh : Z) : bool :=
  match zget st.1 (r_worker r) ≫= λ o, out_of o (Z.land (r_key r) 63) with Some s => bool_decide (flex_mallocs s.1 = None) | None => true end &&
  match es_insert (default (al_out (sample_alloc fresh)) (zget st.1 (r_worker r) ≫= λ o, out_of o (Z.land (r_key r) 63))) 0 with Ok (_, a) => bool_decide (st.2 !! a = None) | Fault _ => false end.
Fixpoint sample_agg_run (st : sample_state) (l : list (Row * Z)) : option sample_state :=
  match l with
  | [] => Some st
  | (r, fresh) :: l =>
      if (0 <=? r_worker r) && (r_worker r <? Z.of_nat (length st.1)) && (0 <? fresh) && (fresh <? 2 ^ 40) && sample_fresh st r fresh then
        match consume (λ k, k) 0 Z.add st r (sample_alloc fresh) with Ok st => sample_agg_run st l | Fault _ => None end
      else None
  end.

Lemma sample_alloc_ok st r fresh : 0 < fresh < 2 ^ 40 → sample_fresh st r fresh = true → alloc_ok (λ k, k) st r (sample_alloc fresh).
Proof.
  unfold sample_fresh. intros Hf [H1 H2]%andb_true_iff. destruct st as [fs m]. unfold alloc_ok. cbn [fst snd] in *. change (numOutputs - 1) with 63.
  destruct (zget fs (r_worker r) ≫= _) as [s|]; cbn [default] in *; split_and!.
  - done.
  - intros size E. apply bool_decide_eq_true in H1. simpl in E. congruence.
  - intros s' a E. replace (es_insert _ _) with (@Ok (FlexibleBuffer * list Z * Z) (s', a)) in H2 by (symmetry; exact E). by apply bool_decide_eq_true in H2.
  - intros _. split; [apply new_flex_inv; lia|done].
  - intros size E. discriminate E.
  - intros s' a E. replace (es_insert _ _) with (@Ok (FlexibleBuffer * list Z * Z) (s', a)) in H2 by (symmetry; exact E). by apply bool_decide_eq_true in H2.
Qed.

Lemma sample_agg_run_ok st0 rows st l st' : agg_run (λ k, k) 0 Z.add st0 rows st → sample_agg_run st l = Some st' → agg_run (λ k, k) 0 Z.add st0 (rows ++ l.*1) st'.
Proof.
  revert rows st. induction l as [|[r fresh] l IH]; intros rows st Hr Hs; cbn [sample_agg_run] in Hs; csimpl; [rewrite app_nil_r; by simplify_eq|].
  destruct (_ && _) eqn:E in Hs; [|done]. rewrite !andb_true_iff, !Z.leb_le, !Z.ltb_lt in E. destruct E as ((((? & ?) & ?) & ?) & Hf).
  destruct (consume _ _ _ st r _) as [st1|] eqn:Ec; [|done]. rewrite (cons_middle r), app_assoc. eapply IH; [|exact Hs].
  eapply (ar_snoc _ _ _ _ _ _ _ (sample_alloc fresh)); [exact Hr|split; assumption|apply sample_alloc_ok; [lia|exact Hf]|exact Ec].
Qed.

Definition sample_rows : list (Row * Z) := [(mkRow 0 7 5, 4096); (mkRow 0 65543 1, 4096); (mkRow 2 7 2, 16384); (mkRow 0 7 3, 4096)].
Definition sample_final : sample_state := default ([], ∅) (sample_agg_run (replicate 3 None, ∅) sample_rows).

Lemma preaggregation_group_by_witness : ∃ pa m',
  length (allAddrs sample_final.1 7) = 4%nat ∧ preagg_merge sample_masks same_key (combine_states Z.add) sample_final.1 (reverse (seqZ 0 64)) sample_final.2 = Ok (pa, m') ∧
  (7, 10) ∈ results pa m' ∧ (65543, 1) ∈ results pa m'.
Proof.
  assert (agg_run (λ k, k) 0 Z.add (replicate 3 None, ∅) ([] ++ sample_rows.*1) (sample_final.1, sample_final.2)) as Hrun.
  { apply (sample_agg_run_ok _ _ (replicate 3 None, ∅)); [apply ar_nil|vm_compute; reflexivity]. }
  destruct (preaggregation_group_by sample_masks (λ k, k) 0 Z.add Z.add 3 ∅ _ _ _ (reverse (seqZ 0 64)) Z.add_0_r ltac:(intros; lia) Hrun ltac:(vm_compute; reflexivity)
    (reverse_Permutation _)) as (_ & pa & m' & E & _ & Hres & _).
  exists pa, m'. split_and!; [vm_compute; reflexivity|exact E|..]; apply Hres; vm_compute; reflexivity.
Defined.
