(* ===== verification/HashIndex.v ===== *)
(** * Multi-maps and the hash index of tables

    Models of src/runtime/HashMultiMap.cpp, of src/runtime/Hash.cpp, which
    hashes the columns of a batch, and of src/runtime/LingoDBHashIndex.cpp: the
    index of a primary key, which maps the hash of a row to its row id and
    keeps its entries in a file. *)

From S2P Require Import Prelude Bytes Helpers FlexBuffer Hashtable HashtableProps HashView HashViewProps.
From Stdlib Require Import Strings.Byte.
#[local] Open Scope Z_scope.

(** ** HashMultiMap

    The table of entries is the one of [Hashtable] (the same condition doubles
    it, the same loop links it); an entry holds the list of its values next to
    its key. *)

Module MultiMap.
Section multimap.
Context {S K V : Type} `{!EntryStore S} (bloomMasks : Z → Z).

Record Value := mkValue { nextValue : Z; valueContent : V }.
Record Content := mkContent { valueList : Z; keyContent : K }.
Record HashMultiMap := mkMultiMap { mm_table : Hashtable S Content; mm_values : S; mm_valmem : gmap Z Value }.

Definition newHashMultiMap (initialCapacity : Z) (entries values : S) : HashMultiMap :=
  mkMultiMap (newHashtable initialCapacity entries) values ∅.

Definition insertEntry (h : HashMultiMap) (hash fresh : Z) (garbage : K) : res (HashMultiMap * Z) :=
  let* '(t, a) := ht_insert bloomMasks (mm_table h) hash fresh (mkContent 0 garbage) in
  Ok (mkMultiMap t (mm_values h) (mm_valmem h), a).

(** [entry] is the address of an entry. *)
Definition insertValue (h : HashMultiMap) (entry fresh : Z) (garbage : V) : res (HashMultiMap * Z) :=
  let* '(s, a) := es_insert (mm_values h) fresh in
  let* e := entry_at (entries (mm_table h)) entry in
  Ok (mkMultiMap (write_content (mm_table h) entry (mkContent a (keyContent (content e)))) s
        (<[a := mkValue (valueList (content e)) garbage]> (mm_valmem h)), a).
End multimap.
Arguments Value : clear implicits.
Arguments Content : clear implicits.
Arguments HashMultiMap : clear implicits.

Section multimap_props.
Context {S K V : Type} `{!EntryStore S} (bloomMasks : Z → Z).
#[local] Abbreviation table := (HashMultiMap S K V).

(** The addresses of the values of an entry. *)
Fixpoint valueChain (m : gmap Z (Value V)) (p : Z) (l : list Z) : Prop :=
  match l with
  | [] => p = 0
  | a :: l => p = a ∧ a ≠ 0 ∧ ∃ v, m !! a = Some v ∧ valueChain m (nextValue v) l
  end.

Lemma valueChain_ext m a v p l : m !! a = None → valueChain m p l → valueChain (<[a := v]> m) p l.
Proof.
  intros Ha. revert p. induction l as [|b l IH]; intros p Hc; [done|]. destruct Hc as (-> & Hb & w & Hw & Hc). simpl. split; [done|]. split; [done|].
  exists w. rewrite lookup_insert_ne by congruence. split; [done|by apply IH].
Qed.

(** [G] gives the values of every entry, the newest first. *)
Record mm_inv (h : table) (G : Z → list Z) : Prop := {
  mi_table : tab_inv bloomMasks (mm_table h);
  mi_store : es_ok (mm_values h);
  mi_range : ∀ a, is_Some (mm_valmem h !! a) → a ∈ es_addrs (mm_values h);
  mi_lists : ∀ a e, entries (mm_table h) !! a = Some e → valueChain (mm_valmem h) (valueList (content e)) (G a);
}.

Lemma new_multimap_inv cap k entries values : 0 ≤ k → cap = 2 ^ k → es_ok entries → es_addrs entries = [] → es_ok values →
  mm_inv (newHashMultiMap cap entries values) (λ _, []).
Proof.
  intros Hk Hc Ho He Hv. split; [by eapply new_inv|done| |]; cbn [newHashMultiMap mm_valmem mm_table newHashtable Hashtable.entries].
  - intros a [v Ha]. by rewrite lookup_empty in Ha.
  - intros a e Ha. by rewrite lookup_empty in Ha.
Qed.

(** A new entry has no values; the lists of the others stay, although the table
    may be rebuilt. *)
Theorem insertEntry_ok (h : table) G hash fresh (garbage : K) : mm_inv h G → es_fresh (Hashtable.values (mm_table h)) fresh →
  ∃ h' a, insertEntry bloomMasks h hash fresh garbage = Ok (h', a) ∧ mm_inv h' (λ b, if decide (b = a) then [] else G b) ∧
    es_addrs (Hashtable.values (mm_table h')) = es_addrs (Hashtable.values (mm_table h)) ++ [a] ∧
    others_kept a (entries (mm_table h)) (entries (mm_table h')).
Proof.
  intros [H1 H2 H3 H4] Hf. unfold insertEntry. destruct (insert_inv bloomMasks (mm_table h) hash fresh (mkContent 0 garbage) H1 Hf) as (t & a & -> & Ht & Ea & Hna & (p & He) & Hk). cbn [res_bind].
  eexists _, a. split; [done|]. split_and!; try done. split; try done. cbn [mm_table mm_valmem]. intros b e Hb. case_decide as Hba.
  - subst b. rewrite He in Hb. injection Hb as <-. done.
  - specialize (Hk b Hba). rewrite Hb in Hk. destruct (entries (mm_table h) !! b) as [e'|] eqn:He'; simplify_eq/=. rewrite H0. by apply H4.
Qed.

(** A value goes to the front of the list of its entry. *)
Theorem insertValue_ok (h : table) G entry fresh (garbage : V) : mm_inv h G → entry ∈ es_addrs (Hashtable.values (mm_table h)) → es_fresh (mm_values h) fresh →
  ∃ h' a, insertValue h entry fresh garbage = Ok (h', a) ∧ mm_inv h' (λ b, if decide (b = entry) then a :: G entry else G b) ∧
    (∃ next, mm_valmem h' !! a = Some (mkValue next garbage)) ∧ ∀ b, b ≠ a → mm_valmem h' !! b = mm_valmem h !! b.
Proof.
  intros [H1 H2 H3 H4] Hin Hf. unfold insertValue. destruct (es_insert_ok _ _ H2 Hf) as (s & a & -> & Hs & Ea & _ & Hna & Hr). cbn [res_bind].
  destruct (proj2 (tv_dom _ _ H1 entry) Hin) as [e He]. unfold entry_at. rewrite He. cbn [res_bind].
  assert (mm_valmem h !! a = None) as Hn by (destruct (mm_valmem h !! a) eqn:E; [|done]; destruct Hna; apply H3; by eexists).
  eexists _, a. split; [done|]. split_and!.
  - split; cbn [mm_table mm_values mm_valmem]; [by apply write_inv|done| |].
    + intros b. rewrite lookup_insert_is_Some, Ea, elem_of_app, list_elem_of_singleton. intros [->|[_ Hb]]; [by right|left; by apply H3].
    + intros b f Hb. cbn [write_content Hashtable.entries] in Hb. destruct (decide (b = entry)) as [->|Hne].
      * rewrite lookup_alter_eq, He in Hb. injection Hb as <-. cbn [content set_content valueList]. simpl. split; [done|]. split; [lia|].
        eexists. rewrite lookup_insert_eq. split; [done|]. cbn [nextValue]. apply valueChain_ext; [done|]. by apply H4.
      * rewrite lookup_alter_ne in Hb by done. apply valueChain_ext; [done|]. by apply H4.
  - eexists. cbn [mm_valmem]. by rewrite lookup_insert_eq.
  - intros b Hb. cbn [mm_valmem]. by rewrite lookup_insert_ne.
Qed.
End multimap_props.
End MultiMap.

(** ** Hashes of columns *)

Module Hash.

Definition byteSwap64 (x : Z) : Z := le_val (rev (le_bytes 8 x)).

Definition dbHash64 (v : Z) : Z :=
  let m1 := u64 (11400714819323198549 * u64 v) in
  Z.lxor m1 (byteSwap64 m1).

Definition dbHashFoldPiece (acc piece : Z) : Z := Z.lxor (byteSwap64 acc) piece.

Inductive TimeUnit := SECOND | MILLI | MICRO | NANO.
Definition multiplier (unit : TimeUnit) : Z :=
  match unit with SECOND => 1000000000 | MILLI => 1000000 | MICRO => 1000 | NANO => 1 end.

(** The arrays of Arrow that are distinguished.  An integer array holds the
    values as the accessor returns them; floats and doubles are the integers
    with their bits; a decimal has its high and low 64 bits; a text is the
    address and the length of its bytes. *)
Inductive Column :=
  | BOOL (l : list (option bool))
  | INT (l : list (option Z))
  | FLOAT (bits : list (option Z))
  | DOUBLE (bits : list (option Z))
  | DECIMAL128 (precision : Z) (l : list (option (Z * Z)))
  | DATE32 (l : list (option Z))
  | DATE64 (l : list (option Z))
  | TIMESTAMP (unit : TimeUnit) (l : list (option Z))
  | INTERVAL_MONTHS (l : list (option Z))
  | INTERVAL_DAY_TIME (l : list (option (Z * Z)))
  | FIXED_SIZE_BINARY (byte_width : Z) (l : list (option bytes))
  | STRING (l : list (option (Z * Z)))
  | UNSUPPORTED (length : nat).

Definition kNanosPerDay : Z := 86400000000000.
Definition kNanosPerMilli : Z := 1000000.

(** A signed product or sum that does not fit is undefined. *)
Definition s64_or_fault (z : Z) : res Z := if bool_decide (in_s 64 z) then Ok z else Fault BadAccess.

Section hash.
(** The memory of the texts, and [llvm::xxHash64]. *)
Context (m : Mem) (xxHash64 : bytes → Z).

Definition hashVarLenData (v : VarLen32) : res Z := let* s := vl_str m v in Ok (xxHash64 s).

Definition dbHashVarLen32 (v : VarLen32) : res Z :=
  let raw := asI128 v in
  let first64 := wrap_u 64 raw in
  let last64 := Z.shiftr (wrap_u 128 raw) 64 in
  let len := Z.land first64 0xFFFFFFFF in
  if 12 <? len then hashVarLenData v
  else
    let fHash := dbHash64 (wrap_s 64 first64) in
    let lHash := dbHash64 (wrap_s 64 last64) in
    Ok (Z.lxor fHash (byteSwap64 lHash)).

(** The loop over the rows: [piece] of the values that are there. *)
Fixpoint foldColumn {A} (piece : A → res (list Z)) (null : res (list Z)) (running : list Z) (l : list (option A)) : res (list Z) :=
  match running, l with
  | acc :: running, v :: l =>
      let* ps := match v with Some x => piece x | None => null end in
      let* rest := foldColumn piece null running l in
      Ok (foldl dbHashFoldPiece acc ps :: rest)
  | _, _ => Ok running
  end.
Definition intPiece (v : Z) : res (list Z) := Ok [dbHash64 v].

Definition hashColumnPieceBatchRuntime (array : Column) (running : list Z) : res (list Z) :=
  match array with
  | BOOL l => foldColumn (λ b : bool, intPiece (if b then -1 else 0)) (Ok []) running l
  | INT l | FLOAT l | DOUBLE l | INTERVAL_MONTHS l => foldColumn intPiece (Ok []) running l
  | DECIMAL128 precision l =>
      if precision <=? 18 then foldColumn (λ d : Z * Z, intPiece (snd d)) (Ok []) running l
      else foldColumn (λ d : Z * Z, Ok [dbHash64 (fst d); dbHash64 (snd d)]) (Ok []) running l
  | DATE32 l => foldColumn (λ v, let* nanos := s64_or_fault (v * kNanosPerDay) in intPiece nanos) (Ok []) running l
  | DATE64 l => foldColumn (λ v, let* nanos := s64_or_fault (v * kNanosPerMilli) in intPiece nanos) (Ok []) running l
  | TIMESTAMP unit l => foldColumn (λ v, let* nanos := s64_or_fault (v * multiplier unit) in intPiece nanos) (Ok []) running l
  | INTERVAL_DAY_TIME l =>
      foldColumn (λ v : Z * Z,
        let* days := s64_or_fault (fst v * kNanosPerDay) in
        let* millis := s64_or_fault (snd v * kNanosPerMilli) in
        let* nanos := s64_or_fault (days + millis) in intPiece nanos) (Ok []) running l
  | FIXED_SIZE_BINARY byte_width l =>
      if byte_width =? 4 then foldColumn (λ b, intPiece (wrap_s 32 (le_val (take 4 b)))) (Ok []) running l else Fault AssertFailed
  | STRING l =>
      foldColumn (λ s : Z * Z, let* vl := newVarLen32 m (fst s) (u32 (snd s)) in let* h := dbHashVarLen32 vl in Ok [h])
        (let* h := dbHashVarLen32 emptyVarLen32 in Ok [h]) running l
  | UNSUPPORTED _ => Fault (Thrown "hashColumnPieceBatchRuntime: unsupported arrow type for hash index")
  end.

Definition column_length (array : Column) : nat :=
  match array with
  | BOOL l => length l
  | INT l | FLOAT l | DOUBLE l | INTERVAL_MONTHS l | DATE32 l | DATE64 l | TIMESTAMP _ l => length l
  | DECIMAL128 _ l | INTERVAL_DAY_TIME l | STRING l => length l
  | FIXED_SIZE_BINARY _ l => length l
  | UNSUPPORTED n => n
  end.

Definition dbHashApplyColumn (running : list Z) (arr : Column) : res (list Z) :=
  if decide (length running = column_length arr) then hashColumnPieceBatchRuntime arr running else Fault AssertFailed.
End hash.
End Hash.

(** ** LingoDBHashIndex *)

Module Index.
Import Hash.
Section index.
Context {S : Type} `{!EntryStore S}.

(** The content of an entry is its row id.  [ht] is null until the table is
    built. *)
Record LingoDBHashIndex := mkIndex {
  ix_ht : option (list Z); mask : Z; buffer : S; ix_entries : gmap Z (Entry Z);
  persist : bool; indexedColumns : list string; loaded : bool;
}.

(** A new index, with its buffer; [persist] has no initial value. *)
Definition newIndex (columns : list string) (store : S) (uninit : bool) : LingoDBHashIndex :=
  mkIndex None 0 store ∅ uninit columns false.

(** [rawBuild]: the entries in the order of the buffer go to the front of their
    chains. *)
Definition linkEntry (mask : Z) (tm : list Z * gmap Z (Entry Z)) (e : Z) : res (list Z * gmap Z (Entry Z)) :=
  let '(t, m) := tm in
  let* entry := entry_at m e in
  let idx := Z.land (hashValue entry) mask in
  let* next := load t idx in
  Ok (zset t idx e, <[e := set_next next entry]> m).
Fixpoint linkEntries (mask : Z) (tm : list Z * gmap Z (Entry Z)) (addrs : list Z) : res (list Z * gmap Z (Entry Z)) :=
  match addrs with
  | [] => Ok tm
  | a :: addrs => let* tm := linkEntry mask tm a in linkEntries mask tm addrs
  end.
Definition rawBuild (ix : LingoDBHashIndex) : res LingoDBHashIndex :=
  let numRows := es_len (buffer ix) in
  let htSize := nextPow2 (Z.max 1 numRows) in
  let mask := htSize - 1 in
  let* '(t, m) := linkEntries mask (replicate (Z.to_nat htSize) 0, ix_entries ix) (es_addrs (buffer ix)) in
  Ok (mkIndex (Some t) mask (buffer ix) m (persist ix) (indexedColumns ix) (loaded ix)).

(** Entries with hashes and row ids; [fresh] is what [malloc] returns next to a
    buffer of the given state. *)
Fixpoint insertAll (fresh : S → Z) (s : S) (m : gmap Z (Entry Z)) (rows : list (Z * Z)) : res (S * gmap Z (Entry Z)) :=
  match rows with
  | [] => Ok (s, m)
  | (hash, rowId) :: rows =>
      let* '(s, a) := es_insert s (fresh s) in
      insertAll fresh s (<[a := mkEntry 0 hash rowId]> m) rows
  end.
Definition withRows (fresh : S → Z) (ix : LingoDBHashIndex) (rows : list (Z * Z)) : res LingoDBHashIndex :=
  let* '(s, m) := insertAll fresh (buffer ix) (ix_entries ix) rows in
  Ok (mkIndex (ix_ht ix) (mask ix) s m (persist ix) (indexedColumns ix) (loaded ix)).

(** A batch: the columns by name.  The pointer to a column that does not exist
    is null. *)
Record Batch := mkBatch { num_rows : nat; columns : list (string * Column) }.
Definition GetColumnByName (b : Batch) (colName : string) : option Column :=
  snd <$> find (λ c, bool_decide (fst c = colName)) (columns b).

Section hashing.
Context (mem : Mem) (xxHash64 : bytes → Z).

Fixpoint hashColumns (b : Batch) (totalHash : list Z) (cols : list string) : res (list Z) :=
  match cols with
  | [] => Ok totalHash
  | colName :: cols =>
      match GetColumnByName b colName with
      | None => Fault BadAccess
      | Some arr =>
          if decide (column_length arr = num_rows b) then
            let* totalHash := dbHashApplyColumn mem xxHash64 totalHash arr in
            hashColumns b totalHash cols
          else Fault AssertFailed
      end
  end.
(** The hashes of the rows of a batch. *)
Definition rowHashes (b : Batch) (cols : list string) : res (list Z) := hashColumns b (replicate (num_rows b) 0) cols.

(** The row ids from [startRowId]. *)
Definition rowIds (startRowId : Z) (hashes : list Z) : list (Z * Z) :=
  imap (λ row h, (h, u64 (Z.of_nat row + startRowId))) hashes.

Definition rawInsert (fresh : S → Z) (ix : LingoDBHashIndex) (startRowId : Z) (t : Batch) : res LingoDBHashIndex :=
  if decide (num_rows t = O) then Fault (Thrown "empty table")
  else
    let* totalHash := rowHashes t (indexedColumns ix) in
    withRows fresh ix (rowIds startRowId totalHash).
End hashing.

(** *** The file *)

Definition get_row : reader (Z * Z) := λ bs,
  let* '(hash, bs) := get_u64 bs in
  let* '(rowId, bs) := get_u64 bs in Ok ((hash, rowId), bs).
Definition put_row (r : Z * Z) : bytes := put_u64 (fst r) ++ put_u64 (snd r).

(** [ensureLoaded], with the bytes of the data file if it exists.  What a short
    read leaves in an entry is not determined. *)
Definition ensureLoaded (fresh : S → Z) (ix : LingoDBHashIndex) (dataFile : option bytes) : res LingoDBHashIndex :=
  if loaded ix then Ok ix
  else
    let* ix :=
      match dataFile with
      | None => Ok ix
      | Some bs =>
          let* '(numEntries, bs) := get_u64 bs in
          let* '(rows, _) := get_many get_row (Z.to_nat numEntries) bs in
          let* ix := withRows fresh ix rows in
          rawBuild ix
      end in
    Ok (mkIndex (ix_ht ix) (mask ix) (buffer ix) (ix_entries ix) (persist ix) (indexedColumns ix) true).

Definition rowAt (m : gmap Z (Entry Z)) (a : Z) : option (Z * Z) := (λ e, (hashValue e, content e)) <$> m !! a.
(** The rows in the order of the buffer. *)
Definition rows (ix : LingoDBHashIndex) : list (Z * Z) := omap (rowAt (ix_entries ix)) (es_addrs (buffer ix)).

Definition fileOf (ix : LingoDBHashIndex) : bytes := put_u64 (es_len (buffer ix)) ++ concat (put_row <$> rows ix).

(** [flush]; [writable]: the file can be opened. *)
Definition flush (fresh : S → Z) (writable : bool) (ix : LingoDBHashIndex) (dataFile : option bytes) : res (LingoDBHashIndex * option bytes) :=
  if persist ix then
    let* ix := ensureLoaded fresh ix dataFile in
    if writable then Ok (ix, Some (fileOf ix)) else Fault (Thrown "could not open file")
  else Ok (ix, dataFile).

(** [bulkInsert], and [appendRows], which makes a table of its batch first. *)
Definition bulkInsert (mem : Mem) (xxHash64 : bytes → Z) (fresh : S → Z) (writable : bool) (ix : LingoDBHashIndex) (dataFile : option bytes) (startRowId : Z) (newRows : Batch) : res (LingoDBHashIndex * option bytes) :=
  let* ix := rawInsert mem xxHash64 fresh ix startRowId newRows in
  let* ix := rawBuild ix in
  flush fresh writable ix dataFile.

Definition setPersist (fresh : S → Z) (writable : bool) (ix : LingoDBHashIndex) (dataFile : option bytes) (value : bool) : res (LingoDBHashIndex * option bytes) :=
  let ix := mkIndex (ix_ht ix) (mask ix) (buffer ix) (ix_entries ix) value (indexedColumns ix) (loaded ix) in
  if value then flush fresh writable ix dataFile else Ok (ix, dataFile).

(** *** Lookups *)

(** [HashIndexAccess::lookup]: the hash and where the iteration starts. *)
Definition lookup (ix : LingoDBHashIndex) (hash : Z) : res (Z * Z) :=
  match ix_ht ix with
  | None => Fault BadAccess
  | Some t => let* current := load t (Z.land hash (mask ix)) in Ok (hash, current)
  end.

(** [hasNext], with the entry it stops at; every round follows a link. *)
Fixpoint hasNext (fuel : nat) (m : gmap Z (Entry Z)) (hash current : Z) : res (option Z) :=
  if current =? 0 then Ok None
  else
    match fuel with
    | O => Fault OutOfFuel
    | Datatypes.S fuel =>
        let* e := entry_at m current in
        if hashValue e =? hash then Ok (Some current) else hasNext fuel m hash (e_next e)
    end.

(** The loop of the compiled code: the row ids that [consumeRecordBatch] reads. *)
Fixpoint scan (fuel : nat) (m : gmap Z (Entry Z)) (hash current : Z) : res (list Z) :=
  match fuel with
  | O => Fault OutOfFuel
  | Datatypes.S fuel =>
      let* n := hasNext (size m) m hash current in
      match n with
      | None => Ok []
      | Some current =>
          let* e := entry_at m current in
          let* ids := scan fuel m hash (e_next e) in
          Ok (content e :: ids)
      end
  end.
Definition lookupRows (ix : LingoDBHashIndex) (hash : Z) : res (list Z) :=
  let* '(hash, current) := lookup ix hash in
  scan (Datatypes.S (size (ix_entries ix))) (ix_entries ix) hash current.
End index.
Arguments LingoDBHashIndex : clear implicits.

(** *** Building *)

Section build.
Context {S : Type} `{!EntryStore S}.
#[local] Abbreviation memory := (gmap Z (Entry Z)).

(** The entries [done] are in their chains, the last one first. *)
Definition chained (t : list Z) (mask : Z) (m : memory) (done : list Z) : Prop :=
  ∀ pos, 0 ≤ pos < Z.of_nat (length t) → ∃ p, zget t pos = Some p ∧ chain m p (reverse (filter (λ a, slot m mask a = pos) done)).

Definition same_rows (m m' : memory) : Prop := ∀ a, rowAt m' a = rowAt m a.

Lemma same_rows_hash m m' a : same_rows m m' → hash_of m' a = hash_of m a.
Proof. intros H. specialize (H a). unfold rowAt, hash_of in *. destruct (m !! a), (m' !! a); simplify_eq/=; congruence. Qed.

Lemma linkEntries_ok j rest t m done : 0 ≤ j → Z.of_nat (length t) = 2 ^ j → chained t (2 ^ j - 1) m done → NoDup (done ++ rest) →
  (∀ a, a ∈ rest → a ≠ 0 ∧ is_Some (m !! a)) →
  ∃ t' m', linkEntries (2 ^ j - 1) (t, m) rest = Ok (t', m') ∧ length t' = length t ∧ same_rows m m' ∧ chained t' (2 ^ j - 1) m' (done ++ rest).
Proof.
  intros Hj. revert t m done. induction rest as [|a rest IH]; intros t m done Hlen Hc Hnd Hr; [exists t, m; by rewrite app_nil_r|].
  cbn [linkEntries linkEntry]. destruct (Hr a ltac:(by left)) as (Ha & e & He). unfold entry_at. rewrite He. cbn [res_bind].
  destruct (Hc (Z.land (hashValue e) (2 ^ j - 1))) as (p & Hp & _); [rewrite Hlen; by apply land_mask_range|]. rewrite (load_Some _ _ _ Hp). cbn [res_bind].
  assert (a ∉ done) as Hna by (apply NoDup_app in Hnd as (_ & Hd & _); intros Hin; apply (Hd a Hin); by left).
  set (m1 := <[a := set_next p e]> m).
  assert (same_rows m m1) as Hs1 by (intros b; unfold rowAt, m1; destruct (decide (b = a)) as [->|]; [by rewrite lookup_insert_eq, He|by rewrite lookup_insert_ne]).
  rewrite (cons_middle a), (app_assoc done) in Hnd |- *.
  destruct (IH (zset t (Z.land (hashValue e) (2 ^ j - 1)) a) m1 (done ++ [a])) as (t' & m' & E & El & Hs & Hc').
  - by rewrite length_zset.
  - intros pos Hpos. rewrite length_zset in Hpos. destruct (Hc pos Hpos) as (q & Hq & Hch).
    assert (filter (λ b, slot m1 (2 ^ j - 1) b = pos) done = filter (λ b, slot m (2 ^ j - 1) b = pos) done) as Ef.
    { apply filter_ext_in. intros b _. unfold slot. by rewrite (same_rows_hash m m1). }
    assert (chain m1 q (reverse (filter (λ b, slot m1 (2 ^ j - 1) b = pos) done))) as Hch1.
    { rewrite Ef. eapply chain_ext; [|exact Hch]. intros b Hb. rewrite elem_of_reverse, list_elem_of_filter in Hb. unfold m1. rewrite lookup_insert_ne; [done|]. intros <-. tauto. }
    assert (slot m1 (2 ^ j - 1) a = Z.land (hashValue e) (2 ^ j - 1)) as Esl by (unfold slot, hash_of, m1; by rewrite lookup_insert_eq).
    rewrite filter_app. destruct (decide (pos = Z.land (hashValue e) (2 ^ j - 1))) as [->|Hne].
    + exists a. rewrite zget_zset_eq by done. split; [done|]. rewrite filter_cons_True, filter_nil, reverse_app by done. split; [done|]. split; [done|].
      exists (set_next p e). unfold m1 at 1. rewrite lookup_insert_eq. split; [done|]. cbn [set_next e_next]. assert (p = q) as -> by congruence. done.
    + exists q. rewrite zget_zset_ne by done. split; [done|]. rewrite filter_cons_False, filter_nil, app_nil_r; [done|]. by rewrite Esl.
  - done.
  - intros b Hb. destruct (Hr b ltac:(by right)) as (? & Hs). split; [done|]. unfold m1. apply lookup_insert_is_Some'. by right.
  - exists t', m'. split_and!; [done|by rewrite El, length_zset| |done]. intros b. by rewrite Hs, Hs1.
Qed.

(** A buffer whose entries are in the memory. *)
Record store_ok (s : S) (m : memory) : Prop := {
  so_ok : es_ok s;
  so_nodup : NoDup (es_addrs s);
  so_range : ∀ a, a ∈ es_addrs s → 0 < a < 2 ^ 48;
  so_dom : ∀ a, is_Some (m !! a) ↔ a ∈ es_addrs s;
}.

Lemma store_len s m : store_ok s m → 0 ≤ es_len s < 2 ^ 49.
Proof.
  intros [H1 H2 H3 _]. rewrite es_len_ok by done. assert (es_addrs s ⊆+ seqZ 0 (2 ^ 48)) as Hsub.
  { apply NoDup_submseteq; [done|]. intros a Ha. apply elem_of_seqZ. specialize (H3 a Ha). lia. }
  apply submseteq_length in Hsub. rewrite length_seqZ in Hsub. lia.
Qed.

Definition built (ix : LingoDBHashIndex S) : Prop :=
  ∀ t, ix_ht ix = Some t → ∃ j, 0 ≤ j ∧ mask ix = 2 ^ j - 1 ∧ Z.of_nat (length t) = 2 ^ j ∧ chained t (mask ix) (ix_entries ix) (es_addrs (buffer ix)).

Lemma rawBuild_ok ix : store_ok (buffer ix) (ix_entries ix) →
  ∃ t mask m, rawBuild ix = Ok (mkIndex (Some t) mask (buffer ix) m (persist ix) (indexedColumns ix) (loaded ix)) ∧ store_ok (buffer ix) m ∧ same_rows (ix_entries ix) m ∧
    built (mkIndex (Some t) mask (buffer ix) m (persist ix) (indexedColumns ix) (loaded ix)).
Proof.
  intros Hs. pose proof (store_len _ _ Hs) as Hlen. assert (1 ≤ Z.max 1 (es_len (buffer ix)) ≤ 2 ^ 63) as Hmax by lia. unfold rawBuild. destruct (nextPow2_spec _ Hmax) as (j & Hj & -> & _).
  assert (Z.of_nat (Z.to_nat (2 ^ j)) = 2 ^ j) as Ej by (pose proof (Z.pow_nonneg 2 j); lia).
  destruct (linkEntries_ok j (es_addrs (buffer ix)) (replicate (Z.to_nat (2 ^ j)) 0) (ix_entries ix) []) as (t & m & E & El & Hsr & Hc).
  - lia.
  - by rewrite length_replicate.
  - intros pos Hpos. rewrite length_replicate in Hpos. exists 0. by rewrite zget_replicate.
  - apply Hs.
  - intros a Ha. split; [apply (so_range _ _ Hs) in Ha; lia|]. by apply (so_dom _ _ Hs).
  - rewrite E. cbn [res_bind]. exists t, (2 ^ j - 1), m. split; [done|].
    rewrite length_replicate in El. split_and!; [|done|].
    + destruct Hs as [H1 H2 H3 H4]. split; try done. intros a. rewrite <- H4. specialize (Hsr a). unfold rowAt in Hsr. destruct (m !! a), (ix_entries ix !! a); simplify_eq/=; done.
    + intros t' [= <-]. exists j. cbn [mask ix_entries buffer]. split_and!; [lia|done|by rewrite El|done].
Qed.

(** *** Looking up *)

Lemma hasNext_ok fuel m hash p l : chain m p l → (length l ≤ fuel)%nat →
  (hasNext fuel m hash p = Ok None ∧ ∀ a, a ∈ l → hash_of m a ≠ hash) ∨
  ∃ l1 a l2 e, l = l1 ++ a :: l2 ∧ hasNext fuel m hash p = Ok (Some a) ∧ (∀ b, b ∈ l1 → hash_of m b ≠ hash) ∧ m !! a = Some e ∧ hashValue e = hash ∧ chain m (e_next e) l2.
Proof.
  revert p l. induction fuel as [|fuel IH]; intros p [|a l] Hc Hl; simpl in Hc, Hl; try lia.
  1, 2: left; subst p; split; [done|by intros a ?%elem_of_nil].
  destruct Hc as (-> & Ha & e & He & Hc). cbn [hasNext]. rewrite (proj2 (Z.eqb_neq _ _) Ha). unfold entry_at. rewrite He. cbn [res_bind].
  assert (hash_of m a = hashValue e) as Eh by (unfold hash_of; by rewrite He).
  destruct (Z.eqb_spec (hashValue e) hash) as [E|E]; [right; exists [], a, l, e; split_and!; try done; by intros b ?%elem_of_nil|].
  destruct (IH (e_next e) l Hc ltac:(lia)) as [[E1 H1]|(l1 & b & l2 & f & -> & E1 & H1 & Hf & Hh & Hc2)].
  - left. split; [done|]. intros b [->|Hb]%elem_of_cons; [by rewrite Eh|by apply H1].
  - right. exists (a :: l1), b, l2, f. split_and!; try done. intros c [->|Hb]%elem_of_cons; [by rewrite Eh|by apply H1].
Qed.

Definition idsOf (hash : Z) (rows : list (Z * Z)) : list Z := snd <$> filter (λ r, fst r = hash) rows.

Lemma idsOf_skip m hash l : (∀ a, a ∈ l → hash_of m a ≠ hash) → idsOf hash (omap (rowAt m) l) = [].
Proof.
  unfold idsOf. induction l as [|a l IH]; intros H; [done|]. csimpl. pose proof (H a ltac:(by left)) as Ha. unfold hash_of in Ha. unfold rowAt at 1.
  destruct (m !! a) as [e|]; simpl; [rewrite filter_cons_False by done|]; apply IH; intros b Hb; apply H; by right.
Qed.

Lemma idx_scan_ok fuel m hash p l : chain m p l → (length l < fuel)%nat → (length l ≤ size m)%nat → scan fuel m hash p = Ok (idsOf hash (omap (rowAt m) l)).
Proof.
  revert p l. induction fuel as [|fuel IH]; intros p l Hc Hl Hs; [lia|]. cbn [scan]. destruct (hasNext_ok (size m) m hash p l Hc Hs) as [[-> H]|(l1 & a & l2 & e & -> & -> & H & He & Hh & Hc2)]; cbn [res_bind].
  - by rewrite idsOf_skip.
  - unfold entry_at. rewrite He. cbn [res_bind]. rewrite length_app in Hl, Hs. simpl in Hl, Hs. rewrite (IH _ _ Hc2) by lia. cbn [res_bind]. f_equal.
    rewrite omap_app. unfold idsOf. rewrite filter_app, fmap_app. fold (idsOf hash (omap (rowAt m) l1)). rewrite idsOf_skip by done. csimpl. unfold rowAt at 2. rewrite He. simpl.
    by rewrite filter_cons_True.
Qed.

(** A lookup in a built index gives the row ids of the hash, the last first. *)
Lemma lookupRows_ok ix t hash : store_ok (buffer ix) (ix_entries ix) → built ix → ix_ht ix = Some t →
  lookupRows ix hash = Ok (reverse (idsOf hash (rows ix))).
Proof.
  intros Hs Hb Ht. destruct (Hb t Ht) as (j & Hj & Em & El & Hc). unfold lookupRows, lookup. rewrite Ht.
  destruct (Hc (Z.land hash (mask ix))) as (p & Hp & Hch); [rewrite El, Em; by apply land_mask_range|]. rewrite (load_Some _ _ _ Hp). cbn [res_bind].
  set (L := filter (λ a, slot (ix_entries ix) (mask ix) a = Z.land hash (mask ix)) (es_addrs (buffer ix))) in *.
  assert (length L ≤ size (ix_entries ix))%nat as Hsz.
  { etrans; [apply length_filter|]. rewrite <- (size_list_to_set (C := gset Z)) by apply Hs. rewrite <- size_dom. apply subseteq_size. intros a Ha%elem_of_list_to_set%(so_dom _ _ Hs). by apply elem_of_dom. }
  rewrite (idx_scan_ok _ _ _ _ _ Hch) by (rewrite length_reverse; lia). f_equal. unfold rows, L, idsOf. clear.
  assert (∀ l, omap (rowAt (ix_entries ix)) (reverse l) = reverse (omap (rowAt (ix_entries ix)) l)) as Hrev.
  { intros l. induction l as [|a l IH]; [done|]. rewrite reverse_cons, omap_app, IH. csimpl. destruct (rowAt _ a); simpl; by rewrite ?reverse_cons, ?app_nil_r. }
  rewrite Hrev, filter_reverse, fmap_reverse. do 2 f_equal. induction (es_addrs (buffer ix)) as [|a l IH]; [done|]. csimpl.
  destruct (decide (slot (ix_entries ix) (mask ix) a = Z.land hash (mask ix))) as [Ha|Ha].
  - rewrite filter_cons_True by done. csimpl. destruct (rowAt (ix_entries ix) a) as [r|]; simpl; [|done]. rewrite !filter_cons. case_decide; [by rewrite IH|done].
  - rewrite filter_cons_False by done. rewrite IH. unfold rowAt at 2. destruct (ix_entries ix !! a) as [e|] eqn:He; simpl; [|done]. rewrite filter_cons_False; [done|].
    intros E. simpl in E. apply Ha. unfold slot, hash_of. by rewrite He, E.
Qed.
End build.

(** *** The hashes are of 64 bits *)

Lemma in_u_lxor x y : in_u 64 x → in_u 64 y → in_u 64 (Z.lxor x y).
Proof.
  unfold in_u. intros Hx Hy. assert (0 ≤ Z.lxor x y) as H0 by (apply Z.lxor_nonneg; lia). split; [done|].
  apply (Z.bounded_iff_bits_nonneg 64); [lia|done|]. intros l Hl. rewrite Z.lxor_spec.
  rewrite (proj1 (Z.bounded_iff_bits_nonneg 64 x ltac:(lia) ltac:(lia)) ltac:(lia) l Hl).
  by rewrite (proj1 (Z.bounded_iff_bits_nonneg 64 y ltac:(lia) ltac:(lia)) ltac:(lia) l Hl).
Qed.

Lemma byteSwap64_range x : in_u 64 (byteSwap64 x).
Proof. unfold byteSwap64, in_u. pose proof (le_val_range (rev (le_bytes 8 x))) as H. rewrite length_rev, length_le_bytes in H. exact H. Qed.

Lemma dbHash64_range v : in_u 64 (dbHash64 v).
Proof. apply in_u_lxor; [apply wrap_u_range; lia|apply byteSwap64_range]. Qed.

Lemma fold_pieces acc ps : in_u 64 acc → Forall (in_u 64) ps → in_u 64 (foldl dbHashFoldPiece acc ps).
Proof. intros Ha Hp. revert acc Ha. induction Hp as [|p ps Hp _ IH]; intros acc Ha; [done|]. apply IH, in_u_lxor; [apply byteSwap64_range|done]. Qed.

Lemma foldColumn_range {A} (piece : A → res (list Z)) null running l running' :
  (∀ x ps, piece x = Ok ps → Forall (in_u 64) ps) → (∀ ps, null = Ok ps → Forall (in_u 64) ps) → Forall (in_u 64) running →
  foldColumn piece null running l = Ok running' → Forall (in_u 64) running' ∧ length running' = length running.
Proof.
  intros Hp Hn Hr. revert l running'. induction Hr as [|acc running Ha Hr IH]; intros [|v l] running' E; cbn [foldColumn] in E; simplify_eq/=; try (by split; [constructor|]).
  destruct (match v with Some x => piece x | None => null end) as [ps|] eqn:Ev; [|done]. cbn [res_bind] in E.
  destruct (foldColumn piece null running l) as [rest|] eqn:Er; [|done]. cbn [res_bind] in E. injection E as <-. destruct (IH _ _ Er) as [H1 H2]. split; [|simpl; by rewrite H2].
  constructor; [|done]. apply fold_pieces; [done|]. destruct v as [x|]; [by apply (Hp x)|by apply Hn].
Qed.

Lemma intPiece_range v ps : intPiece v = Ok ps → Forall (in_u 64) ps.
Proof. intros [= <-]. repeat constructor; apply dbHash64_range. Qed.

Section range.
Context (mem : Mem) (xxHash64 : bytes → Z) (xx_range : ∀ s, in_u 64 (xxHash64 s)).

Lemma dbHashVarLen32_range v h : dbHashVarLen32 mem xxHash64 v = Ok h → in_u 64 h.
Proof using xx_range.
  unfold dbHashVarLen32. destruct (12 <? _).
  - unfold hashVarLenData. destruct (vl_str mem v); [|done]. by intros [= <-].
  - intros [= <-]. apply in_u_lxor; [apply dbHash64_range|apply byteSwap64_range].
Qed.

Lemma column_range arr running running' : Forall (in_u 64) running → hashColumnPieceBatchRuntime mem xxHash64 arr running = Ok running' →
  Forall (in_u 64) running' ∧ length running' = length running.
Proof using xx_range.
  assert (∀ ps, Ok (A := list Z) [] = Ok ps → Forall (in_u 64) ps) as Hnull by (intros ps [= <-]; constructor).
  intros Hr. destruct arr; cbn [hashColumnPieceBatchRuntime]; try discriminate.
  1-4, 6-9: apply foldColumn_range; try done; intros x ps; first [apply intPiece_range|destruct (s64_or_fault _); [apply intPiece_range|done]].
  - destruct (_ <=? _); apply foldColumn_range; try done; intros [hi lo] ps; [apply intPiece_range|]. intros [= <-]. repeat constructor; apply dbHash64_range.
  - apply foldColumn_range; try done. intros [d ms] ps. destruct (s64_or_fault _); [|done]. cbn [res_bind]. destruct (s64_or_fault _); [|done]. cbn [res_bind].
    destruct (s64_or_fault _); [apply intPiece_range|done].
  - destruct (_ =? _); [|done]. apply foldColumn_range; try done. intros x ps. apply intPiece_range.
  - apply foldColumn_range; try done.
    + intros [p n] ps. destruct (newVarLen32 mem _ _) as [vl|]; [|done]. cbn [res_bind]. destruct (dbHashVarLen32 mem xxHash64 vl) as [h|] eqn:E; [|done]. intros [= <-].
      constructor; [by eapply dbHashVarLen32_range|constructor].
    + intros ps. destruct (dbHashVarLen32 mem xxHash64 emptyVarLen32) as [h|] eqn:E; [|done]. intros [= <-]. constructor; [by eapply dbHashVarLen32_range|constructor].
Qed.

Lemma rowHashes_range b cols hashes : rowHashes mem xxHash64 b cols = Ok hashes → Forall (in_u 64) hashes ∧ length hashes = num_rows b.
Proof using xx_range.
  unfold rowHashes. assert (Forall (in_u 64) (replicate (num_rows b) 0)) as H0 by (apply Forall_replicate; unfold in_u; lia).
  assert (∀ run hs, Forall (in_u 64) run → hashColumns mem xxHash64 b run cols = Ok hs → Forall (in_u 64) hs ∧ length hs = length run) as H.
  { clear H0 hashes. induction cols as [|c cols IH]; intros run hs Hr E; cbn [hashColumns] in E; [by simplify_eq|]. destruct (GetColumnByName b c) as [arr|]; [|done].
    case_decide; [|done]. unfold dbHashApplyColumn in E. case_decide; [|done]. destruct (hashColumnPieceBatchRuntime _ _ _ _) as [run'|] eqn:Er; [|done]. cbn [res_bind] in E.
    destruct (column_range _ _ _ Hr Er) as [H1 H2]. destruct (IH _ _ H1 E) as [H3 H4]. split; [done|congruence]. }
  intros E. destruct (H _ _ H0 E) as [H1 H2]. by rewrite length_replicate in H2.
Qed.
End range.

(** *** The life of an index *)

Section life.
Context {S : Type} `{!EntryStore S}.
Context (mem : Mem) (xxHash64 : bytes → Z) (fresh : S → Z) (cols : list string).

(** The rows in the data file. *)
Definition rowsIn (dataFile : option bytes) : list (Z * Z) :=
  match dataFile with
  | None => []
  | Some bs =>
      match (let* '(numEntries, bs) := get_u64 bs in get_many get_row (Z.to_nat numEntries) bs) with Ok (rs, _) => rs | Fault _ => [] end
  end.
(** Those an index has still to load. *)
Definition pending (ix : LingoDBHashIndex S) (dataFile : option bytes) : list (Z * Z) := if loaded ix then [] else rowsIn dataFile.

(** [malloc] gives fresh blocks while the entries are inserted. *)
Fixpoint fresh_for (s : S) (rs : list (Z * Z)) : Prop :=
  match rs with
  | [] => True
  | _ :: rs => es_fresh s (fresh s) ∧ ∀ s' a, es_insert s (fresh s) = Ok (s', a) → fresh_for s' rs
  end.

(** What happens to an index and its file.  [L] are the rows the index stands
    for and [F] those of them that its file has; inserting writes the file when
    [persist] is set.  A process that ends leaves the file, and the next one
    starts with an empty index: rows that were not written are gone. *)
Inductive life : LingoDBHashIndex S → option bytes → list (Z * Z) → list (Z * Z) → Prop :=
  | life_create store uninit v ix file : es_ok store → es_addrs store = [] → setPersist fresh true (newIndex cols store uninit) None v = Ok (ix, file) → life ix file [] []
  | life_setPersist ix file L F v ix' file' : life ix file L F → fresh_for (buffer ix) (pending ix file) → setPersist fresh true ix file v = Ok (ix', file') →
      life ix' file' L (if v then L else F)
  | life_load ix file L F ix' : life ix file L F → fresh_for (buffer ix) (pending ix file) → ensureLoaded fresh ix file = Ok ix' → life ix' file L F
  | life_insert ix file L F startRowId b hashes ix' file' : life ix file L F → rowHashes mem xxHash64 b (indexedColumns ix) = Ok hashes →
      fresh_for (buffer ix) (rowIds startRowId hashes ++ pending ix file) → bulkInsert mem xxHash64 fresh true ix file startRowId b = Ok (ix', file') →
      life ix' file' (L ++ rowIds startRowId hashes) (if persist ix then L ++ rowIds startRowId hashes else F)
  | life_reopen ix file L F store uninit : life ix file L F → es_ok store → es_addrs store = [] → life (newIndex cols store uninit) file F F.

Definition row_ok (r : Z * Z) : Prop := in_u 64 r.1 ∧ in_u 64 r.2.
Definition encode (rs : list (Z * Z)) : bytes := put_u64 (Z.of_nat (length rs)) ++ concat (put_row <$> rs).

Record life_ok (ix : LingoDBHashIndex S) (file : option bytes) (L F : list (Z * Z)) : Prop := {
  lf_store : store_ok (buffer ix) (ix_entries ix);
  lf_built : built ix;
  lf_null : ix_ht ix = None → rows ix = [];
  lf_rows : rows ix ++ pending ix file ≡ₚ L;
  lf_ok : Forall row_ok L;
  lf_file : file = None ∨ ∃ Lf, file = Some (encode Lf) ∧ Forall row_ok Lf ∧ in_u 64 (Z.of_nat (length Lf));
  lf_disk : rowsIn file ≡ₚ F;
  lf_persist : persist ix = true → F ≡ₚ L;
}.

(** **** Files *)

Lemma get_row_reads : reads row_ok put_row get_row.
Proof.
  intros [h r] rest [Hh Hr]. unfold put_row, get_row. cbn [fst snd]. rewrite <- app_assoc. unfold put_u64, get_u64.
  rewrite (get_uint_reads 8 h) by exact Hh. cbn [res_bind]. rewrite (get_uint_reads 8 r) by exact Hr. done.
Qed.

Lemma read_encode rs : Forall row_ok rs → in_u 64 (Z.of_nat (length rs)) →
  get_u64 (encode rs) = Ok (Z.of_nat (length rs), concat (put_row <$> rs)) ∧ get_many get_row (length rs) (concat (put_row <$> rs)) = Ok (rs, []).
Proof.
  intros Hr Hl. split; [by apply (get_uint_reads 8)|]. rewrite <- (app_nil_r (concat _)). by apply (get_many_reads row_ok put_row get_row rs [] get_row_reads).
Qed.

Lemma rowsIn_encode rs : Forall row_ok rs → in_u 64 (Z.of_nat (length rs)) → rowsIn (Some (encode rs)) = rs.
Proof. intros Hr Hl. destruct (read_encode rs Hr Hl) as [E1 E2]. unfold rowsIn. rewrite E1. cbn [res_bind]. by rewrite Nat2Z.id, E2. Qed.

Lemma length_rows ix : store_ok (buffer ix) (ix_entries ix) → Z.of_nat (length (rows ix)) = es_len (buffer ix).
Proof.
  intros Hs. rewrite es_len_ok by apply Hs. f_equal. unfold rows. assert (∀ a, a ∈ es_addrs (buffer ix) → is_Some (ix_entries ix !! a)) as H by (intros a; apply Hs).
  induction (es_addrs (buffer ix)) as [|a l IH]; [done|]. csimpl. destruct (H a ltac:(by left)) as [e He]. unfold rowAt at 1. rewrite He. simpl. f_equal. apply IH. intros b Hb. apply H. by right.
Qed.

Lemma fileOf_encode ix : store_ok (buffer ix) (ix_entries ix) → fileOf ix = encode (rows ix) ∧ in_u 64 (Z.of_nat (length (rows ix))).
Proof. intros Hs. pose proof (store_len _ _ Hs). unfold fileOf, encode. rewrite (length_rows ix Hs). split; [done|]. unfold in_u. lia. Qed.

(** **** Rows join the buffer *)

Lemma insertAll_ok rs s m : store_ok s m → fresh_for s rs →
  ∃ s' m', insertAll fresh s m rs = Ok (s', m') ∧ store_ok s' m' ∧ omap (rowAt m') (es_addrs s') = omap (rowAt m) (es_addrs s) ++ rs.
Proof.
  revert s m. induction rs as [|[h r] rs IH]; intros s m Hs Hf; [exists s, m; by rewrite app_nil_r|]. destruct Hf as [Hf Hfs]. cbn [insertAll].
  destruct (es_insert_ok s (fresh s) (so_ok _ _ Hs) Hf) as (s1 & a & E & Hok & Ea & _ & Hna & Hra). rewrite E. cbn [res_bind].
  assert (∀ b, b ∈ es_addrs s → rowAt (<[a := mkEntry 0 h r]> m) b = rowAt m b) as Hold by (intros b Hb; unfold rowAt; rewrite lookup_insert_ne; [done|by intros ->]).
  destruct (IH s1 (<[a := mkEntry 0 h r]> m)) as (s' & m' & E' & Hs' & Er); [|by eapply Hfs|].
  - destruct Hs as [H1 H2 H3 H4]. split; [done|..]; rewrite Ea.
    + apply NoDup_app. split_and!; [done|by intros x Hx ->%list_elem_of_singleton|apply NoDup_singleton].
    + intros b [Hb| ->%list_elem_of_singleton]%elem_of_app; [by apply H3|done].
    + intros b. rewrite elem_of_app, list_elem_of_singleton, <- H4, lookup_insert_is_Some. naive_solver.
  - exists s', m'. split_and!; [done..|]. rewrite Er, Ea, omap_app. csimpl. unfold rowAt at 2. rewrite lookup_insert_eq. simpl. rewrite <- app_assoc. f_equal.
    revert Hold. clear. induction (es_addrs s) as [|b l IH]; intros Hold; [done|]. csimpl. rewrite IH by (intros c Hc; apply Hold; by right). by rewrite Hold by (by left).
Qed.

Lemma fresh_for_app s m rs1 rs2 : fresh_for s (rs1 ++ rs2) → fresh_for s rs1 ∧ ∀ s' m', insertAll fresh s m rs1 = Ok (s', m') → fresh_for s' rs2.
Proof.
  revert s m. induction rs1 as [|[h r] rs1 IH]; intros s m Hf; [split; [done|]; by intros s' m' [= <- _]|]. destruct Hf as [Hf Hfs]. split.
  - split; [done|]. intros s' a E. exact (proj1 (IH s' m (Hfs s' a E))).
  - intros s' m' E. cbn [insertAll] in E. destruct (es_insert s (fresh s)) as [[s1 a]|] eqn:Ei; [|done]. cbn [res_bind] in E. exact (proj2 (IH s1 _ (Hfs s1 a eq_refl)) s' m' E).
Qed.

(** Inserting and building. *)
Lemma build_rows ix rs rest : store_ok (buffer ix) (ix_entries ix) → fresh_for (buffer ix) (rs ++ rest) →
  ∃ ix', (let* ix := withRows fresh ix rs in rawBuild ix) = Ok ix' ∧ store_ok (buffer ix') (ix_entries ix') ∧ built ix' ∧ is_Some (ix_ht ix') ∧ rows ix' = rows ix ++ rs ∧
    persist ix' = persist ix ∧ loaded ix' = loaded ix ∧ indexedColumns ix' = indexedColumns ix ∧ fresh_for (buffer ix') rest.
Proof.
  intros Hs Hf. destruct (fresh_for_app (buffer ix) (ix_entries ix) rs rest Hf) as [Hf1 Hf2]. unfold withRows.
  destruct (insertAll_ok rs _ _ Hs Hf1) as (s & m & E & Hs' & Er). specialize (Hf2 s m E). rewrite E. cbn [res_bind].
  destruct (rawBuild_ok (mkIndex (ix_ht ix) (mask ix) s m (persist ix) (indexedColumns ix) (loaded ix)) Hs') as (t & mk & m' & -> & Hs2 & Hsr & Hb). cbn [buffer ix_entries persist indexedColumns loaded] in *.
  eexists. split; [done|]. split_and!; try done. unfold rows. cbn [buffer ix_entries]. etrans; [|exact Er]. revert Hsr. clear. intros Hsr.
  induction (es_addrs s) as [|a l IH]; [done|]. csimpl. by rewrite Hsr, IH.
Qed.

(** **** Each operation *)

Definition same_setup (ix ix' : LingoDBHashIndex S) : Prop := persist ix' = persist ix ∧ indexedColumns ix' = indexedColumns ix.

Lemma ensureLoaded_ok ix file L : store_ok (buffer ix) (ix_entries ix) → built ix → (ix_ht ix = None → rows ix = []) → rows ix ++ pending ix file ≡ₚ L →
  (file = None ∨ ∃ Lf, file = Some (encode Lf) ∧ Forall row_ok Lf ∧ in_u 64 (Z.of_nat (length Lf))) → fresh_for (buffer ix) (pending ix file) →
  ∃ ix', ensureLoaded fresh ix file = Ok ix' ∧ store_ok (buffer ix') (ix_entries ix') ∧ built ix' ∧ (ix_ht ix' = None → rows ix' = []) ∧ rows ix' ≡ₚ L ∧ loaded ix' = true ∧ same_setup ix ix'.
Proof.
  intros Hs Hb Hn Hp Hfile Hf. unfold ensureLoaded. unfold pending in Hp, Hf. destruct (loaded ix) eqn:El.
  { exists ix. rewrite app_nil_r in Hp. split_and!; done. }
  destruct Hfile as [->|(Lf & -> & Hok & Hlen)].
  - cbn [res_bind]. rewrite app_nil_r in Hp. eexists. split; [done|]. split_and!; done.
  - rewrite (rowsIn_encode Lf Hok Hlen) in Hp, Hf. destruct (read_encode Lf Hok Hlen) as [E1 E2]. rewrite E1. cbn [res_bind]. rewrite Nat2Z.id, E2. cbn [res_bind].
    destruct (build_rows ix Lf [] Hs) as (ix' & E & Hs' & Hb' & [t Ht] & Er & Epp & _ & Ec & _); [by rewrite app_nil_r|]. rewrite E. cbn [res_bind]. eexists. split; [done|].
    split_and!; try done; cbn [ix_ht]; [congruence|]. change (rows (mkIndex _ _ _ _ _ _ _)) with (rows ix'). by rewrite Er.
Qed.

Lemma flush_ok ix file L F : life_ok (mkIndex (ix_ht ix) (mask ix) (buffer ix) (ix_entries ix) false (indexedColumns ix) (loaded ix)) file L F → fresh_for (buffer ix) (pending ix file) →
  ∃ ix' file', flush fresh true ix file = Ok (ix', file') ∧ life_ok ix' file' L (if persist ix then L else F).
Proof.
  intros [H1 H2 H3 H4 H5 H6 H7 _] Hf. unfold flush. destruct (persist ix) eqn:Ep.
  - destruct (ensureLoaded_ok ix file L H1 H2 H3 H4 H6 Hf) as (ix' & -> & Hs' & Hb' & Hn' & Hr' & Hl' & Hpp & Hc). cbn [res_bind]. eexists _, _. split; [done|].
    destruct (fileOf_encode ix' Hs') as [-> Hlen]. assert (Forall row_ok (rows ix')) as Hok by (by rewrite Hr').
    split; try done.
    + unfold pending. by rewrite Hl', app_nil_r.
    + right. by exists (rows ix').
    + by rewrite rowsIn_encode.
  - eexists _, _. split; [done|]. split; try done. congruence.
Qed.

Lemma setPersist_ok ix file L F v : life_ok ix file L F → fresh_for (buffer ix) (pending ix file) →
  ∃ ix' file', setPersist fresh true ix file v = Ok (ix', file') ∧ life_ok ix' file' L (if v then L else F).
Proof.
  intros [H1 H2 H3 H4 H5 H6 H7 H8] Hf. unfold setPersist. destruct v; [|eexists _, _; by split].
  by apply (flush_ok (mkIndex (ix_ht ix) (mask ix) (buffer ix) (ix_entries ix) true (indexedColumns ix) (loaded ix)) file L F).
Qed.

Lemma rows_of_file file : (file = None ∨ ∃ Lf, file = Some (encode Lf) ∧ Forall row_ok Lf ∧ in_u 64 (Z.of_nat (length Lf))) → Forall row_ok (rowsIn file).
Proof. intros [->|(Lf & -> & Hok & Hlen)]; [apply Forall_nil_2|]. by rewrite rowsIn_encode. Qed.

(** A process starts with what the file has. *)
Lemma new_ok store uninit file F : es_ok store → es_addrs store = [] → rowsIn file ≡ₚ F →
  (file = None ∨ ∃ Lf, file = Some (encode Lf) ∧ Forall row_ok Lf ∧ in_u 64 (Z.of_nat (length Lf))) → life_ok (newIndex cols store uninit) file F F.
Proof.
  intros Hok He Hr Hfile. assert (rows (newIndex cols store uninit) = []) as E by (unfold rows; cbn [newIndex buffer ix_entries]; by rewrite He).
  split; [|done|done| | |done|done|done].
  - split; cbn [newIndex buffer ix_entries]; rewrite ?He; [done|apply NoDup_nil_2|by intros a ?%elem_of_nil|]. intros a. rewrite lookup_empty.
    split; [by intros []|by intros ?%elem_of_nil].
  - by rewrite E.
  - rewrite <- Hr. by apply rows_of_file.
Qed.

Section operations.
Context (xx_range : ∀ s, in_u 64 (xxHash64 s)).

Lemma rowIds_ok start hashes : Forall (in_u 64) hashes → Forall row_ok (rowIds start hashes).
Proof.
  intros H. apply Forall_forall. intros r Hr. unfold rowIds in Hr. apply list_elem_of_lookup_1 in Hr as [i Hi]. rewrite list_lookup_imap in Hi.
  destruct (hashes !! i) as [h|] eqn:Eh; simplify_eq/=. split; cbn [fst snd]; [by eapply Forall_lookup_1|apply wrap_u_range; lia].
Qed.

Lemma idx_insert_ok ix file L F start b hashes : life_ok ix file L F → rowHashes mem xxHash64 b (indexedColumns ix) = Ok hashes → num_rows b ≠ O →
  fresh_for (buffer ix) (rowIds start hashes ++ pending ix file) →
  ∃ ix' file', bulkInsert mem xxHash64 fresh true ix file start b = Ok (ix', file') ∧
    life_ok ix' file' (L ++ rowIds start hashes) (if persist ix then L ++ rowIds start hashes else F).
Proof using xx_range.
  intros [H1 H2 H3 H4 H5 H6 H7 H8] Eh Hb Hf. unfold bulkInsert, rawInsert. rewrite decide_False by done. rewrite Eh. cbn [res_bind].
  destruct (build_rows ix (rowIds start hashes) _ H1 Hf) as (ix1 & E & Hs1 & Hb1 & [t Ht] & Er & Ep & El & Ec & Hf1).
  destruct (withRows fresh ix (rowIds start hashes)) as [ix0|]; [|done]. cbn [res_bind] in E |- *. rewrite E. cbn [res_bind].
  assert (pending ix1 file = pending ix file) as Epend by (unfold pending; by rewrite El). rewrite <- Ep.
  apply flush_ok; [|by rewrite Epend]. split; try done; cbn [ix_ht]; [congruence| |].
  - change (rows (mkIndex _ _ _ _ _ _ _)) with (rows ix1). change (pending (mkIndex _ _ _ _ _ _ _) file) with (pending ix1 file).
    rewrite Er, Epend, <- H4. solve_Permutation.
  - apply Forall_app. split; [done|]. apply rowIds_ok. by eapply rowHashes_range.
Qed.

Lemma life_inv ix file L F : life ix file L F → life_ok ix file L F.
Proof using xx_range.
  induction 1 as [store uninit v ix file Hok He E|ix file L F v ix' file' _ IH Hf E|ix file L F ix' _ IH Hf E|ix file L F start b hashes ix' file' _ IH Eh Hf E|ix file L F store uninit _ IH Hok He].
  - destruct (setPersist_ok (newIndex cols store uninit) None [] [] v) as (ix1 & file1 & E1 & H1); [by apply new_ok; auto|done|]. rewrite E in E1. injection E1 as -> ->. by destruct v.
  - destruct (setPersist_ok ix file L F v IH Hf) as (ix1 & file1 & E1 & H1). rewrite E in E1. by injection E1 as -> ->.
  - destruct IH as [H1 H2 H3 H4 H5 H6 H7 H8]. destruct (ensureLoaded_ok ix file L H1 H2 H3 H4 H6 Hf) as (ix1 & E1 & Hs & Hb & Hn & Hr & Hl & Hpp & Hc). rewrite E in E1. injection E1 as <-.
    split; try done; [unfold pending; by rewrite Hl, app_nil_r|]. by rewrite Hpp.
  - assert (num_rows b ≠ O) as Hb. { intros Hb. unfold bulkInsert, rawInsert in E. by rewrite decide_True in E. }
    destruct (idx_insert_ok ix file L F start b hashes IH Eh Hb Hf) as (ix1 & file1 & E1 & H1). rewrite E in E1. by injection E1 as -> ->.
  - apply new_ok; try done; apply IH.
Qed.
End operations.

End life.

(** *** Claim *)

(** C16. Rows of the index of a table.  After any life of the index (batches
    inserted with its file loaded or not, [persist] set and unset, processes
    that end and start again) loading it succeeds, and unless it is empty a
    lookup gives exactly the row ids of the rows with that hash: those that were
    inserted, without the ones inserted while [persist] was unset before a
    process ended.  An empty index may have no table, and then the lookup reads
    a null pointer.  The file has exactly the rows a restart keeps, all of them
    while [persist] is set, and the next batch that is not empty can be
    inserted. *)
Theorem index_keeps_rows {S} `{!EntryStore S} mem xxHash64 fresh cols (ix : LingoDBHashIndex S) file L F :
  (∀ s, in_u 64 (xxHash64 s)) → life mem xxHash64 fresh cols ix file L F → fresh_for fresh (buffer ix) (pending ix file) →
  (∃ ix', ensureLoaded fresh ix file = Ok ix' ∧
    ∀ hash, match ix_ht ix' with
      | Some _ => ∃ ids, lookupRows ix' hash = Ok ids ∧ ids ≡ₚ idsOf hash L
      | None => L = [] ∧ lookupRows ix' hash = Fault BadAccess
      end) ∧
  (rowsIn file ≡ₚ F ∧ (persist ix = true → F ≡ₚ L)) ∧
  ∀ startRowId b hashes, rowHashes mem xxHash64 b (indexedColumns ix) = Ok hashes → num_rows b ≠ O →
    fresh_for fresh (buffer ix) (rowIds startRowId hashes ++ pending ix file) → is_ok (bulkInsert mem xxHash64 fresh true ix file startRowId b).
Proof.
  intros Hxx Hlife Hf. pose proof (life_inv mem xxHash64 fresh cols Hxx ix file L F Hlife) as Hi. split_and!; [|apply Hi|apply Hi|].
  - destruct Hi as [H1 H2 H3 H4 H5 H6 H7 H8]. destruct (ensureLoaded_ok fresh ix file L H1 H2 H3 H4 H6 Hf) as (ix' & E & Hs & Hb & Hn & Hr & _). exists ix'. split; [done|].
    intros hash. destruct (ix_ht ix') as [t|] eqn:Ht.
    + eexists. split; [by eapply lookupRows_ok|]. rewrite reverse_Permutation. unfold idsOf. by rewrite Hr.
    + split; [|unfold lookupRows, lookup; by rewrite Ht]. rewrite (Hn eq_refl) in Hr. by apply Permutation_nil_l in Hr.
  - intros start b hashes Eh Hb Hf'. destruct (idx_insert_ok mem xxHash64 fresh Hxx ix file L F start b hashes Hi Eh Hb Hf') as (ix' & file' & E & _). by eexists.
Qed.

(** A process indexes the ids 5 and 7, unsets [persist] and indexes another 7;
    the next one has lost that row and indexes a second row with the id 5. *)
Definition sample_store (ptr : Z) : FlexibleBuffer * list Z := (newFlexibleBuffer 16 24 ptr, [16]).
Definition no_texts : Mem := λ _, None.
Definition sample_world : Type := LingoDBHashIndex (FlexibleBuffer * list Z) * option bytes.
Definition sample_new (ptr : Z) : LingoDBHashIndex (FlexibleBuffer * list Z) := newIndex ["id"%string] (sample_store ptr) true.
Definition from_res (r : res sample_world) : sample_world := match r with Ok w => w | Fault _ => (sample_new 0, None) end.
Definition sample_insert (w : sample_world) (start : Z) (b : Batch) : res sample_world := bulkInsert no_texts (λ _, 0) (λ _, 0) true w.1 w.2 start b.
Definition sample_ids (l : list Z) : Batch := mkBatch (length l) [("id"%string, INT (Some <$> l))].
Definition sample_w0 : sample_world := from_res (setPersist (λ _, 0) true (sample_new 4096) None true).
Definition sample_w1 : sample_world := from_res (sample_insert sample_w0 0 (sample_ids [5; 7])).
Definition sample_w1u : sample_world := from_res (setPersist (λ _, 0) true sample_w1.1 sample_w1.2 false).
Definition sample_w1v : sample_world := from_res (sample_insert sample_w1u 2 (sample_ids [7])).
Definition sample_w2 : sample_world := (sample_new 8192, sample_w1v.2).
Definition sample_w3 : sample_world := from_res (sample_insert sample_w2 2 (sample_ids [5])).

Fixpoint roomy (s : FlexibleBuffer * list Z) (n : nat) : bool :=
  match n with
  | O => true
  | S n => bool_decide (flex_mallocs s.1 = None) && match es_insert s 0 with Ok (s', _) => roomy s' n | Fault _ => false end
  end.
Lemma roomy_fresh s rs : roomy s (length rs) = true → fresh_for (λ _, 0) s rs.
Proof.
  revert s. induction rs as [|r rs IH]; intros s H; [done|]. cbn [length roomy] in H. apply andb_true_iff in H as [H1%bool_decide_eq_true H2]. split.
  - intros size E. congruence.
  - intros s' a E. rewrite E in H2. by apply IH.
Qed.

Lemma index_keeps_rows_witness : ∃ ix' ids ids7, ensureLoaded (λ _, 0) sample_w3.1 sample_w3.2 = Ok ix' ∧
  lookupRows ix' (dbHash64 5) = Ok ids ∧ ids ≡ₚ [0; 2] ∧ lookupRows ix' (dbHash64 7) = Ok ids7 ∧ ids7 ≡ₚ [1].
Proof.
  pose (L1 := rowIds 0 [dbHash64 5; dbHash64 7]). pose (life_ := life no_texts (λ _, 0) (λ _, 0) ["id"%string]).
  assert (life_ sample_w0.1 sample_w0.2 [] []) as H0.
  { apply (life_create _ _ _ _ (sample_store 4096) true true); [apply new_flex_inv; lia|done|vm_compute; reflexivity]. }
  assert (life_ sample_w1.1 sample_w1.2 ([] ++ L1) ([] ++ L1)) as H1.
  { apply (life_insert _ _ _ _ sample_w0.1 sample_w0.2 [] [] 0 (sample_ids [5; 7]) _ _ _ H0); [vm_compute; reflexivity|apply roomy_fresh; vm_compute; reflexivity|vm_compute; reflexivity]. }
  assert (life_ sample_w1u.1 sample_w1u.2 L1 L1) as H1u.
  { apply (life_setPersist _ _ _ _ sample_w1.1 sample_w1.2 L1 L1 false _ _ H1); [apply roomy_fresh; vm_compute; reflexivity|vm_compute; reflexivity]. }
  assert (life_ sample_w1v.1 sample_w1v.2 (L1 ++ rowIds 2 [dbHash64 7]) L1) as H1v.
  { apply (life_insert _ _ _ _ sample_w1u.1 sample_w1u.2 L1 L1 2 (sample_ids [7]) _ _ _ H1u); [vm_compute; reflexivity|apply roomy_fresh; vm_compute; reflexivity|vm_compute; reflexivity]. }
  assert (life_ sample_w2.1 sample_w2.2 L1 L1) as H2.
  { apply (life_reopen _ _ _ _ sample_w1v.1 sample_w1v.2 _ _ (sample_store 8192) true H1v); [apply new_flex_inv; lia|done]. }
  assert (life_ sample_w3.1 sample_w3.2 (L1 ++ rowIds 2 [dbHash64 5]) (L1 ++ rowIds 2 [dbHash64 5])) as H3.
  { apply (life_insert _ _ _ _ sample_w2.1 sample_w2.2 _ _ 2 (sample_ids [5]) _ _ _ H2); [vm_compute; reflexivity|apply roomy_fresh; vm_compute; reflexivity|vm_compute; reflexivity]. }
  destruct (index_keeps_rows no_texts (λ _, 0) (λ _, 0) ["id"%string] sample_w3.1 sample_w3.2 _ _ ltac:(intros s; split; lia) H3) as [(ix' & E & Hl) _]; [apply roomy_fresh; vm_compute; reflexivity|].
  pose proof (Hl (dbHash64 7)) as Hl7. specialize (Hl (dbHash64 5)). assert (is_Some (ix_ht ix')) as [t Ht]. { vm_compute in E. injection E as <-. by eexists. }
  rewrite Ht in Hl, Hl7. destruct Hl as (ids & El & Hids), Hl7 as (ids7 & El7 & Hids7). exists ix', ids, ids7.
  split_and!; [exact E|exact El| |exact El7|]; [rewrite Hids|rewrite Hids7]; vm_compute; reflexivity.
Defined.

(** The index of a table without rows has no table of chains in the process
    that created it: the first lookup reads a null pointer. *)
Theorem empty_index_lookup_faults hash : is_ok (setPersist (λ _, 0) true (sample_new 4096) None true) ∧ lookupRows sample_w0.1 hash = Fault BadAccess.
Proof. split; [|reflexivity]. eexists. vm_compute. reflexivity. Qed.
End Index.
