(* ===== verification/SegmentTree.v ===== *)
(** * Segment trees of window functions

    Model of src/runtime/SegmentTreeView.cpp.  The states of the nodes are
    values of an arbitrary type, [createInitialState] and [combineStates] are
    the generated functions.  Nodes are taken from a storage of [numEntries]
    slots one after the other and not changed after they are built, so a node
    is a tree together with the index of its slot. *)

From S2P Require Import Prelude.
#[local] Open Scope Z_scope.

Section tree.
Context {E A : Type} (createInitialState : E → A) (combineStates : A → A → A).

(** [nullNode] is the null pointer. *)
Inductive TreeNode :=
  | nullNode
  | mkNode (index leftMin rightMax : Z) (left right : TreeNode) (state : A).

Definition node_state (t : TreeNode) : res A := match t with nullNode => Fault BadAccess | mkNode _ _ _ _ _ s => Ok s end.

Definition isNull (t : TreeNode) : bool := match t with nullNode => true | _ => false end.

(** The two counters of [allocate] and [allocateState] move together. *)
Definition allocate (numEntries cntr : Z) : res (Z * Z) :=
  let* _ := assert_ (cntr <? numEntries) in Ok (cntr, cntr + 1).

(** [from] and [to] are inclusive.  The code also copies the first eight bytes
    of the state of a leaf to a variable that it does not use; states are padded
    to a multiple of eight bytes, so this reads no other memory unless a state
    has no bytes at all. *)
Fixpoint buildRecursively (fuel : nat) (numEntries : Z) (entries : list E) (from to cntr : Z) : res (TreeNode * Z) :=
  match fuel with
  | O => Fault OutOfFuel
  | S fuel =>
      if from =? to then
        let* '(i, cntr) := allocate numEntries cntr in
        let* e := load entries from in
        Ok (mkNode i from to nullNode nullNode (createInitialState e), cntr)
      else
        let mid := from + (to - from) / 2 in
        let* '(l, cntr) := buildRecursively fuel numEntries entries from mid cntr in
        let* '(r, cntr) := buildRecursively fuel numEntries entries (mid + 1) to cntr in
        let* '(i, cntr) := allocate numEntries cntr in
        let* sl := node_state l in
        let* sr := node_state r in
        Ok (mkNode i from to l r (combineStates sl sr), cntr)
  end.

(** [result] and [first] of [lookup]. *)
Fixpoint lookupRecursively (t : TreeNode) (result : A) (from to : Z) (first : bool) : res (A * bool) :=
  match t with
  | nullNode => Fault BadAccess
  | mkNode _ leftMin rightMax l r state =>
      if (from <=? leftMin) && (rightMax <=? to) then
        Ok (if first then state else combineStates result state, false)
      else if (from <=? rightMax) && (leftMin <=? to) then
        let* '(result, first) := lookupRecursively l result from to first in
        lookupRecursively r result from to first
      else Ok (result, first)
  end.

(** [sizeof(TreeNode)]. *)
Definition sizeofTreeNode : Z := 40.

(** [createZeroed]: [malloc] gives no more than PTRDIFF_MAX bytes, and zeroing
    the null pointer it returns otherwise is an invalid access. *)
Definition createZeroed (elements size : Z) : res unit :=
  if 2 ^ 63 <=? u64 (elements * size) then Fault BadAccess else Ok tt.

Record SegmentTreeView := mkTreeView { numEntries : Z; root : TreeNode }.

Definition build (entries : list E) (stateTypeSize : Z) : res SegmentTreeView :=
  let n := Z.of_nat (length entries) in
  let stateTypeSize := if stateTypeSize mod 8 =? 0 then stateTypeSize else stateTypeSize + (8 - stateTypeSize mod 8) in
  let numEntries := u64 (n * 2 - 1) in
  let* _ := createZeroed numEntries sizeofTreeNode in
  let* _ := createZeroed (u64 (numEntries * stateTypeSize)) 1 in
  if n =? 0 then Ok (mkTreeView numEntries nullNode)
  else
    let* '(r, _) := buildRecursively (length entries) numEntries entries 0 (n - 1) 0 in
    Ok (mkTreeView numEntries r).

Definition lookup (v : SegmentTreeView) (result : A) (from to : Z) : res A :=
  if to <? from then Fault (Thrown "from must be <= to")
  else
    if isNull (root v) then Fault (Thrown "can not perform lookup on empty segment tree")
    else
      let* '(result, _) := lookupRecursively (root v) result from to true in
      Ok result.
End tree.
Arguments TreeNode : clear implicits.
Arguments nullNode {A}.
Arguments mkNode {A}.
Arguments SegmentTreeView : clear implicits.
Arguments mkTreeView {A}.
Arguments numEntries {A}.
Arguments root {A}.

(** ** A segment tree computes the fold of a range *)

Section props.
Context {E A : Type} (init : E → A) (combine : A → A → A).
Hypothesis combine_assoc : ∀ x y z, combine x (combine y z) = combine (combine x y) z.

(** The fold of a range that is not empty. *)
Definition fold1 (l : list A) : option A := match l with [] => None | x :: l => Some (foldl combine x l) end.

Lemma foldl_combine x y l : foldl combine (combine x y) l = combine x (foldl combine y l).
Proof using combine_assoc.
  revert y. induction l as [|z l IH]; intros y; [done|]. simpl. rewrite <- combine_assoc. apply IH.
Qed.

Lemma fold1_app l1 l2 a b : fold1 l1 = Some a → fold1 l2 = Some b → fold1 (l1 ++ l2) = Some (combine a b).
Proof using combine_assoc.
  destruct l1 as [|x l1]; [done|]. destruct l2 as [|y l2]; [done|]. simpl. intros [= <-] [= <-]. f_equal. rewrite foldl_app. simpl. apply foldl_combine.
Qed.

Section entries.
Context (entries : list E).

(** The initial states of the entries [a] to [b]. *)
Definition slice (a b : Z) : list A := omap (λ i, init <$> zget entries i) (seqZ a (b - a + 1)).

Lemma slice_empty a b : b < a → slice a b = [].
Proof. intros H. unfold slice. by rewrite seqZ_nil by lia. Qed.

Lemma slice_app a m b : a ≤ m + 1 → m ≤ b → slice a b = slice a m ++ slice (m + 1) b.
Proof.
  intros H1 H2. unfold slice. replace (b - a + 1) with ((m - a + 1) + (b - (m + 1) + 1)) by lia. rewrite seqZ_app by lia. rewrite omap_app.
  by replace (a + (m - a + 1)) with (m + 1) by lia.
Qed.

Lemma slice_one a e : zget entries a = Some e → slice a a = [init e].
Proof. intros He. unfold slice. replace (a - a + 1) with 1 by lia. rewrite seqZ_cons, seqZ_nil by lia. cbn [omap list_omap]. by rewrite He. Qed.

Lemma slice_nonempty a b : 0 ≤ a ≤ b → b < Z.of_nat (length entries) → slice a b ≠ [].
Proof.
  intros Ha Hb. destruct (proj2 (zget_is_Some entries a) ltac:(lia)) as [e He]. rewrite (slice_app a a b) by lia. by rewrite (slice_one a e).
Qed.

(** A frame over the range of an inner node. *)
Lemma slice_split lo mid hi from to : lo ≤ mid → mid < hi →
  slice (Z.max lo from) (Z.min hi to) = slice (Z.max lo from) (Z.min mid to) ++ slice (Z.max (mid + 1) from) (Z.min hi to).
Proof.
  intros H1 H2. destruct (Z.le_gt_cases from (mid + 1)), (Z.le_gt_cases mid to).
  - replace (Z.min mid to) with mid by lia. replace (Z.max (mid + 1) from) with (mid + 1) by lia. apply slice_app; lia.
  - rewrite (slice_empty (Z.max (mid + 1) from)), app_nil_r by lia. f_equal. lia.
  - rewrite (slice_empty (Z.max lo from) (Z.min mid to)) by lia. cbn [app]. f_equal. lia.
  - by rewrite !slice_empty by lia.
Qed.

Lemma slice_take_drop a b : 0 ≤ a → b < Z.of_nat (length entries) → slice a b = init <$> take (Z.to_nat (b - a + 1)) (drop (Z.to_nat a) entries).
Proof.
  intros Ha Hb. unfold slice. destruct (Z.le_gt_cases (b - a + 1) 0) as [Hm|Hm]; [rewrite seqZ_nil by lia; by replace (Z.to_nat (b - a + 1)) with 0%nat by lia|].
  assert (a + Z.of_nat (Z.to_nat (b - a + 1)) ≤ Z.of_nat (length entries)) as Hk by lia. rewrite <- (Z2Nat.id (b - a + 1)) at 1 by lia.
  generalize dependent (Z.to_nat (b - a + 1)). intros k. clear Hb Hm. revert a Ha. induction k as [|k IH]; intros a Ha Hk; [done|].
  destruct (proj2 (zget_is_Some entries a) ltac:(lia)) as [e He].
  rewrite seqZ_cons by lia. cbn [omap list_omap]. rewrite He. cbn [fmap option_fmap option_map].
  assert (entries !! Z.to_nat a = Some e) as He' by (unfold zget in He; by rewrite (proj2 (Z.leb_le _ _)) in He by lia).
  rewrite (drop_S _ _ _ He'). cbn [take fmap list_fmap]. f_equal.
  replace (Z.pred (Z.of_nat (S k))) with (Z.of_nat k) by lia. rewrite IH by lia. by replace (Z.to_nat (Z.succ a)) with (S (Z.to_nat a)) by lia.
Qed.

(** The tree of the entries [lo] to [hi]. *)
Inductive tree_of : TreeNode A → Z → Z → Prop :=
  | to_leaf i lo e : zget entries lo = Some e → tree_of (mkNode i lo lo nullNode nullNode (init e)) lo lo
  | to_inner i lo mid hi l r sl sr : lo ≤ mid → mid < hi → tree_of l lo mid → tree_of r (mid + 1) hi →
      node_state l = Ok sl → node_state r = Ok sr → tree_of (mkNode i lo hi l r (combine sl sr)) lo hi.

Lemma tree_state t lo hi : tree_of t lo hi → lo ≤ hi ∧ ∃ s, node_state t = Ok s ∧ fold1 (slice lo hi) = Some s.
Proof using combine_assoc.
  induction 1 as [i lo e He|i lo mid hi l r sl sr H1 H2 Hl [_ (sl' & El & IHl)] Hr [_ (sr' & Er & IHr)] Hsl Hsr]; simplify_eq.
  - split; [lia|]. eexists. split; [done|]. by rewrite (slice_one lo e).
  - split; [lia|]. eexists. split; [done|]. rewrite (slice_app lo mid hi) by lia. apply fold1_app; congruence.
Qed.

(** ** Building *)

Lemma half_bounds from to : from < to → from ≤ from + (to - from) / 2 < to.
Proof. intros H. Z.to_euclidean_division_equations. lia. Qed.

Lemma build_ok fuel n from to cntr :
  0 ≤ from ≤ to → to < Z.of_nat (length entries) → to - from < Z.of_nat fuel → 0 ≤ cntr → cntr + 2 * (to - from) + 1 ≤ n →
  ∃ t, buildRecursively init combine fuel n entries from to cntr = Ok (t, cntr + 2 * (to - from) + 1) ∧ tree_of t from to.
Proof using combine_assoc.
  revert from to cntr. induction fuel as [|fuel IH]; intros from to cntr Hft Hlen Hfuel Hc Hn; [lia|]. cbn [buildRecursively].
  destruct (Z.eqb_spec from to) as [->|Hne].
  - unfold allocate. rewrite (proj2 (Z.ltb_lt _ _)) by lia. cbn [assert_ res_bind]. destruct (proj2 (zget_is_Some entries to) ltac:(lia)) as [e He].
    rewrite (load_Some _ _ _ He). cbn [res_bind]. eexists. split; [do 2 f_equal; lia|]. by apply to_leaf.
  - pose proof (half_bounds from to ltac:(lia)) as Hm. set (mid := from + (to - from) / 2) in *.
    destruct (IH from mid cntr) as (l & -> & Hl); [lia..|]. cbn [res_bind].
    destruct (IH (mid + 1) to (cntr + 2 * (mid - from) + 1)) as (r & -> & Hr); [lia..|]. cbn [res_bind].
    unfold allocate. rewrite (proj2 (Z.ltb_lt _ _)) by lia. cbn [assert_ res_bind].
    destruct (tree_state _ _ _ Hl) as (_ & sl & El & _), (tree_state _ _ _ Hr) as (_ & sr & Er & _). rewrite El, Er. cbn [res_bind].
    eexists. split; [do 2 f_equal; lia|]. by apply to_inner with mid; [lia|lia|..].
Qed.

(** ** Lookups *)

(** The states combined so far are [l]. *)
Definition collected (l : list A) (result : A) (first : bool) : Prop :=
  match l with [] => first = true | _ => first = false ∧ fold1 l = Some result end.

Lemma collected_app l l' result first s : collected l result first → fold1 l' = Some s →
  collected (l ++ l') (if first then s else combine result s) false.
Proof using combine_assoc.
  intros Hc Hs. destruct l as [|x l].
  - simpl in Hc. subst first. simpl. destruct l' as [|y l']; [done|]. split; [done|exact Hs].
  - destruct Hc as [-> Hl]. simpl app. split; [done|]. apply (fold1_app (x :: l) l'); done.
Qed.

Lemma lookup_ok t lo hi from to : tree_of t lo hi → ∀ l result first, collected l result first →
  ∃ result' first', lookupRecursively combine t result from to first = Ok (result', first') ∧
    collected (l ++ slice (Z.max lo from) (Z.min hi to)) result' first' ∧
    (slice (Z.max lo from) (Z.min hi to) = [] → result' = result).
Proof using combine_assoc.
  induction 1 as [i lo e He|i lo mid hi lt rt sl sr H1 H2 Hl IHl Hr IHr Hsl Hsr]; intros l result first Hc; cbn [lookupRecursively].
  - destruct (Z.leb_spec from lo), (Z.leb_spec lo to); cbn [andb].
    + eexists _, _. split; [done|]. replace (Z.max lo from) with lo by lia. replace (Z.min lo to) with lo by lia. rewrite (slice_one lo e He).
      split; [|done]. by apply collected_app.
    + eexists _, _. split; [done|]. rewrite slice_empty by lia. rewrite app_nil_r. done.
    + eexists _, _. split; [done|]. rewrite slice_empty by lia. rewrite app_nil_r. done.
    + eexists _, _. split; [done|]. rewrite slice_empty by lia. rewrite app_nil_r. done.
  - destruct (tree_state _ _ _ (to_inner i lo mid hi lt rt sl sr H1 H2 Hl Hr Hsl Hsr)) as (_ & s & [= <-] & Hfold).
    destruct (Z.leb_spec from lo), (Z.leb_spec hi to); cbn [andb].
    1: { eexists _, _. split; [done|]. replace (Z.max lo from) with lo by lia. replace (Z.min hi to) with hi by lia.
         split; [by apply collected_app|]. intros E0. rewrite E0 in Hfold. done. }
    all: destruct (Z.leb_spec from hi), (Z.leb_spec lo to); cbn [andb];
      try (eexists _, _; split; [done|]; rewrite slice_empty by lia; rewrite app_nil_r; done).
    all: destruct (IHl l result first Hc) as (r1 & f1 & -> & Hc1 & Hk1); cbn [res_bind];
      destruct (IHr _ r1 f1 Hc1) as (r2 & f2 & -> & Hc2 & Hk2); exists r2, f2; (split; [done|]);
      rewrite (slice_split lo mid hi from to) by lia;
      rewrite app_assoc; (split; [done|]); intros [E3 E4]%app_eq_nil; rewrite (Hk2 E4); by apply Hk1.
Qed.
End entries.
End props.

(** ** Claims *)

(** C27. A window frame: the tree over [entries] combines, in order, the states of
    the entries from [from] to [to] (clipped to the last entry).  The nodes fit
    the storage, and no leaf is entered deeper.  When the frame lies behind the
    last entry the result is what the caller passed. *)
Theorem segment_tree_lookup {E A} (init : E → A) (combine : A → A → A) (entries : list E) (stateTypeSize from to : Z) (result : A) :
  (∀ x y z, combine x (combine y z) = combine (combine x y) z) →
  entries ≠ [] → Z.of_nat (length entries) < 2 ^ 40 → 0 ≤ stateTypeSize ≤ 2 ^ 16 → 0 ≤ from ≤ to →
  ∃ v, build init combine entries stateTypeSize = Ok v ∧
    lookup combine v result from to =
      Ok (default result (fold1 combine (init <$> take (Z.to_nat (Z.min to (Z.of_nat (length entries) - 1) - from + 1)) (drop (Z.to_nat from) entries)))).
Proof.
  intros Hassoc Hne Hlen Hts Hft. set (n := Z.of_nat (length entries)) in *. assert (1 ≤ n) as Hn by (unfold n; destruct entries; [done|simpl; lia]).
  unfold build. fold n. set (sts := if stateTypeSize mod 8 =? 0 then _ else _).
  assert (0 ≤ sts ≤ 2 ^ 17) as Hsts by (unfold sts; pose proof (Z.mod_pos_bound stateTypeSize 8 ltac:(lia)); destruct (stateTypeSize mod 8 =? 0); lia).
  assert (u64 (n * 2 - 1) = n * 2 - 1) as -> by (apply wrap_u_id; unfold in_u; lia).
  assert (u64 ((n * 2 - 1) * sts) = (n * 2 - 1) * sts) as -> by (apply wrap_u_id; unfold in_u; nia).
  unfold createZeroed, sizeofTreeNode. unfold u64. rewrite !wrap_u_id by (unfold in_u; nia).
  rewrite !(proj2 (Z.leb_gt _ _)) by nia. cbn [res_bind]. rewrite (proj2 (Z.eqb_neq _ _)) by lia.
  destruct (build_ok init combine Hassoc entries (length entries) (n * 2 - 1) 0 (n - 1) 0) as (t & -> & Ht); [lia..|]. cbn [res_bind].
  eexists. split; [done|]. unfold lookup. rewrite (proj2 (Z.ltb_ge _ _)) by lia. cbn [root].
  assert (isNull t = false) as -> by (by inversion Ht).
  destruct (lookup_ok init combine Hassoc entries t 0 (n - 1) from to Ht [] result true eq_refl) as (r & f & -> & Hc & Hk). cbn [res_bind]. f_equal.
  replace (Z.max 0 from) with from in * by lia. rewrite (Z.min_comm (n - 1) to) in *.
  assert (slice init entries from (Z.min to (n - 1)) = init <$> take (Z.to_nat (Z.min to (n - 1) - from + 1)) (drop (Z.to_nat from) entries)) as Es.
  { apply slice_take_drop; unfold n in *; lia. }
  rewrite <- Es. destruct (slice init entries from (Z.min to (n - 1))) as [|x l] eqn:Esl; simpl in Hc |- *; [by apply Hk|]. destruct Hc as [_ [= ->]]. done.
Qed.

(** Sums over the frames of a window: the middle of the rows, a frame that ends
    behind the last row and one that starts there. *)
Lemma segment_tree_lookup_witness :
  ∃ v, build (λ z : Z, z) Z.add [1; 2; 3; 4; 5] 4 = Ok v ∧ lookup Z.add v 0 1 3 = Ok 9.
Proof. apply (segment_tree_lookup (λ z : Z, z) Z.add [1; 2; 3; 4; 5] 4 1 3 0); [intros; lia|done|done|done|lia]. Defined.

Example segment_tree_clipped :
  (let* v := build (λ z : Z, z) Z.add [1; 2; 3; 4; 5] 4 in
   let* a := lookup Z.add v 0 3 9 in let* b := lookup Z.add v 7 5 5 in Ok (a, b)) = Ok (9, 7).
Proof. vm_compute. reflexivity. Qed.

(** The errors of [lookup]: an inverted frame, and a view without rows. *)
Theorem segment_tree_lookup_errors {A} (combine : A → A → A) (v : SegmentTreeView A) (result : A) (from to : Z) :
  0 ≤ from → 0 ≤ to →
  (to < from → lookup combine v result from to = Fault (Thrown "from must be <= to")) ∧
  (from ≤ to → root v = nullNode → lookup combine v result from to = Fault (Thrown "can not perform lookup on empty segment tree")).
Proof.
  intros H1 H2. unfold lookup. split.
  - intros H. by rewrite (proj2 (Z.ltb_lt _ _)).
  - intros H ->. by rewrite (proj2 (Z.ltb_ge _ _)).
Qed.

(** Building a view without rows: twice zero less one wraps around to the
    largest size, the allocation fails and its null pointer is zeroed, so the
    error [lookup] has for such a view is never reached. *)
Theorem segment_tree_empty {E A} (init : E → A) (combine : A → A → A) (stateTypeSize : Z) :
  build init combine [] stateTypeSize = Fault BadAccess.
Proof. reflexivity. Qed.
