(* ===== verification/BufferScan.v ===== *)
(** * Scans over buffers

    Model of [BufferIteratorTask] and [FlexibleBufferIterator]
    (src/runtime/Buffer.cpp) and of [HashtableIterator]
    (src/runtime/Hashtable.cpp). *)

From S2P Require Import Prelude BufferTask FlexBuffer.
#[local] Open Scope Z_scope.

(** ** One buffer, split among the workers *)

(** The workers call [allocateWork] and [performWork] in turns; [Chunks.step]
    is one access to shared memory.  [workerResvs[w]] is only accessed by worker
    [w], so it is part of the worker's state.  [startIndex] exceeds the number
    of chunks by at most the number of workers, so its products stay far below
    2^64 for a buffer that fits into memory. *)
Module Chunks.
Inductive pc :=
  | Idle
  | Exhausting                     (* about to store [workExhausted] *)
  | Perform (localStartIndex : Z)
  | Finished.

Record Scan := mkScan { startIndex : Z; workExhausted : bool; workers : list pc; ran : list (Z * Z) }.
Definition initScan (numWorkers : nat) : Scan := mkScan 0 false (replicate numWorkers Idle) [].

(** [begin] and [end] of [performWork]. *)
Definition chunk (bufferLen i : Z) : Z * Z :=
  let begin := i * splitSize in
  let end_ := (i + 1) * splitSize in
  (begin, if bufferLen <? end_ then bufferLen else end_).

Definition allocateWork (bufferLen : Z) (w : nat) (s : Scan) : Scan :=
  let localStartIndex := startIndex s in
  let p := if bufferLen <=? localStartIndex * splitSize then Exhausting else Perform localStartIndex in
  mkScan (startIndex s + 1) (workExhausted s) (<[w := p]> (workers s)) (ran s).

Definition performWork (bufferLen : Z) (w : nat) (i : Z) (s : Scan) : Scan :=
  mkScan (startIndex s) (workExhausted s) (<[w := Idle]> (workers s)) (ran s ++ [chunk bufferLen i]).

(** A worker that finds the task exhausted returns it; [look] says whether it
    looks before it calls [allocateWork]. *)
Definition step (bufferLen : Z) (look : bool) (w : nat) (s : Scan) : option Scan :=
  p ← workers s !! w;
  match p with
  | Idle =>
      if look && workExhausted s
      then Some (mkScan (startIndex s) (workExhausted s) (<[w := Finished]> (workers s)) (ran s))
      else Some (allocateWork bufferLen w s)
  | Exhausting => Some (mkScan (startIndex s) true (<[w := Finished]> (workers s)) (ran s))
  | Perform i => Some (performWork bufferLen w i s)
  | Finished => None
  end.

Inductive steps (bufferLen : Z) : nat → Scan → Scan → Prop :=
  | steps_refl s : steps bufferLen 0 s s
  | steps_next k b s1 s2 s3 w : steps bufferLen k s1 s2 → step bufferLen b w s2 = Some s3 → steps bufferLen (S k) s1 s3.

Fixpoint run_schedule (bufferLen : Z) (ws : list nat) (s : Scan) : Scan :=
  match ws with
  | [] => s
  | w :: ws => run_schedule bufferLen ws (default s (step bufferLen true w s))
  end.
End Chunks.

(** [Buffer::iterate] without the scheduler: one chunk.  A division by zero is
    undefined. *)
Definition bufferLen (b : Buffer) (typeSize : Z) : res Z :=
  if typeSize =? 0 then Fault BadAccess else Ok (numElements b / typeSize).
Definition iterate_sequential (b : Buffer) (typeSize : Z) : res (list (Z * Z)) :=
  let* n := bufferLen b typeSize in Ok [(0, n)].

(** ** Iterators over a growing buffer *)

(** [FlexibleBufferIterator]: the index of the current block. *)
Definition isValid (f : FlexibleBuffer) (currBuffer : nat) : bool := bool_decide (currBuffer < length (fb_buffers f))%nat.
(** Its length is in bytes. *)
Definition getCurrentBuffer (f : FlexibleBuffer) (currBuffer : nat) : res Buffer :=
  match fb_buffers f !! currBuffer with
  | Some orig => Ok (mkBuffer (numElements orig * Z.max 1 (fb_typeSize f)) (buf_ptr orig))
  | None => Fault (Thrown "vector::at")
  end.

(** [iterateEfficient] without the scheduler. *)
Definition iterateEfficient (f : FlexibleBuffer) : list Buffer :=
  (λ b, mkBuffer (numElements b * Z.max 1 (fb_typeSize f)) (buf_ptr b)) <$> fb_buffers f.

(** [HashtableIterator], whose [bufferIt] is an iterator over [f]. *)
Record HashtableIterator := mkHtIterator { bufferIt : nat; currPosInBuffer : Z; currBuffer : Buffer; valid : bool }.

(** The offset of [content] in an entry. *)
Definition contentOffset : Z := 16.

Definition enter_buffer (f : FlexibleBuffer) (it : nat) (pos : Z) (cur : Buffer) : res HashtableIterator :=
  if isValid f it then
    let* b := getCurrentBuffer f it in
    Ok (mkHtIterator it 0 b (0 * fb_typeSize f <? numElements b))
  else Ok (mkHtIterator it pos cur false).

Definition newHtIterator (f : FlexibleBuffer) : res HashtableIterator := enter_buffer f 0 0 (mkBuffer 0 0).

Definition htNext (f : FlexibleBuffer) (it : HashtableIterator) : res HashtableIterator :=
  if negb (valid it) then Fault (Thrown "HashtableIterator: next called on invalid iterator")
  else
    let pos := currPosInBuffer it + 1 in
    if numElements (currBuffer it) <=? pos * fb_typeSize f
    then enter_buffer f (S (bufferIt it)) pos (currBuffer it)
    else Ok (mkHtIterator (bufferIt it) pos (currBuffer it) true).

Definition getCurrent (f : FlexibleBuffer) (it : HashtableIterator) : res Z :=
  if negb (valid it) then Fault (Thrown "HashtableIterator: getCurrent called on invalid iterator")
  else Ok (buf_ptr (currBuffer it) + currPosInBuffer it * fb_typeSize f + contentOffset).

(** The loop of a client: [while (it->isValid()) { ... it->getCurrent() ...; it->next(); }]. *)
Fixpoint drain (fuel : nat) (f : FlexibleBuffer) (it : HashtableIterator) : res (list Z) :=
  if valid it then
    match fuel with
    | O => Fault OutOfFuel
    | S fuel =>
        let* a := getCurrent f it in
        let* it := htNext f it in
        let* l := drain fuel f it in
        Ok (a :: l)
    end
  else Ok [].
Definition iterate_entries (f : FlexibleBuffer) : res (list Z) :=
  let* it := newHtIterator f in drain (length (flex_iterate f)) f it.

Example scan_by_two : Chunks.ran (Chunks.run_schedule 45000 (concat (replicate 6 [0; 1]%nat)) (Chunks.initScan 2)) = [(0, 20000); (20000, 40000); (40000, 45000)].
Proof. vm_compute. reflexivity. Qed.

(** ** Scans visit every element once *)

(** ** One buffer, split among the workers *)

(** What an element of a list contributes, at the front. *)
Lemma omap_update {A B} (f : A → option B) l i x y : l !! i = Some x →
  ∃ r, omap f l ≡ₚ option_list (f x) ++ r ∧ omap f (<[i := y]> l) ≡ₚ option_list (f y) ++ r.
Proof.
  intros Hx. exists (omap f (take i l) ++ omap f (drop (S i) l)). pose proof (lookup_lt_Some _ _ _ Hx) as Hlt.
  rewrite insert_take_drop by done. rewrite <- (take_drop_middle _ _ _ Hx) at 1. rewrite !omap_app. csimpl.
  destruct (f x), (f y); simpl; split; by rewrite <- ?Permutation_middle.
Qed.

Section chunks.
Context (len : Z) (Hlen : 0 ≤ len).
Import Chunks.

Definition reserved (p : pc) : option Z := match p with Perform i => Some i | _ => None end.
(** The number of chunks. *)
Definition chunks : Z := (len + splitSize - 1) / splitSize.

Lemma chunks_bound i : 0 ≤ i → len ≤ i * splitSize ↔ chunks ≤ i.
Proof. intros Hi. unfold chunks, splitSize. Z.to_euclidean_division_equations. lia. Qed.

Record scan_inv (s : Scan) : Prop := {
  sc_start : 0 ≤ startIndex s;
  sc_work : ran s ++ (chunk len <$> omap reserved (workers s)) ≡ₚ chunk len <$> seqZ 0 (Z.min (startIndex s) chunks);
  sc_done : workExhausted s = true ∨ Exhausting ∈ workers s ∨ Finished ∈ workers s → chunks < startIndex s;
}.

Lemma init_scan_inv n : scan_inv (initScan n).
Proof.
  assert (0 ≤ chunks) as Hc by (unfold chunks, splitSize; Z.to_euclidean_division_equations; lia).
  split; simpl; [lia| |].
  - rewrite Z.min_l by done. replace (omap reserved (replicate n Idle)) with (@nil Z) by (by induction n). done.
  - intros [?|[H|H]]; [done|..]; by apply elem_of_replicate in H as [? _].
Qed.

Lemma elem_of_insert_inv {A} (x y : A) (l : list A) i : x ∈ <[i := y]> l → x = y ∨ x ∈ l.
Proof.
  intros [j Hj]%list_elem_of_lookup. apply list_lookup_insert_Some in Hj as [(-> & -> & _)|[_ Hj]]; [by left|]. right. by eapply list_elem_of_lookup_2.
Qed.

Lemma step_scan_inv b w s s' : scan_inv s → step len b w s = Some s' → scan_inv s'.
Proof using Hlen.
  intros [Hs Hw Hd] E. unfold step in E. destruct (workers s !! w) as [p|] eqn:Hp; [|done]. simpl in E.
  assert (∀ q, p = Idle ∨ p = Exhausting → reserved q = None → omap reserved (<[w := q]> (workers s)) ≡ₚ omap reserved (workers s)) as Hsame.
  { intros q Hpq Hq. destruct (omap_update reserved (workers s) w p q Hp) as (r & -> & ->). rewrite Hq. by destruct Hpq; subst p. }
  destruct p as [| |i|].
  - destruct (b && workExhausted s) eqn:Eb; injection E as <-.
    + apply andb_true_iff in Eb as [_ Eb]. split; simpl; [done|by rewrite (Hsame Finished) by auto|auto].
    + unfold allocateWork. destruct (Z.leb_spec len (startIndex s * splitSize)) as [Hl|Hl].
      * apply chunks_bound in Hl; [|done]. split; simpl; [lia| |lia]. rewrite (Hsame Exhausting) by auto. rewrite Hw. by rewrite !Z.min_r by lia.
      * assert (startIndex s < chunks) as Hc by (destruct (Z.lt_ge_cases (startIndex s) chunks) as [|Hge]; [done|]; apply chunks_bound in Hge; lia).
        split; simpl; [lia| |].
        -- destruct (omap_update reserved (workers s) w Idle (Perform (startIndex s)) Hp) as (r & E1 & E2). rewrite E2. rewrite E1 in Hw. simpl in Hw |- *.
           rewrite <- Permutation_middle. rewrite Hw. rewrite !Z.min_l by lia. rewrite seqZ_app by lia. rewrite fmap_app. simpl. symmetry. rewrite Permutation_app_comm. done.
        -- intros H. enough (chunks < startIndex s) by lia. apply Hd. destruct H as [?|[[?|?]%elem_of_insert_inv|[?|?]%elem_of_insert_inv]]; auto; done.
  - injection E as <-. assert (chunks < startIndex s) by (apply Hd; right; left; by eapply list_elem_of_lookup_2).
    split; simpl; [done|by rewrite (Hsame Finished) by auto|done].
  - injection E as <-. unfold performWork. split; simpl; [done| |].
    + destruct (omap_update reserved (workers s) w (Perform i) Idle Hp) as (r & E1 & E2). rewrite E2. rewrite E1 in Hw. simpl in Hw |- *.
      rewrite <- Hw, <- app_assoc. done.
    + intros H. apply Hd. destruct H as [?|[[?|?]%elem_of_insert_inv|[?|?]%elem_of_insert_inv]]; auto; done.
  - done.
Qed.

Lemma steps_scan_inv k s s' : steps len k s s' → scan_inv s → scan_inv s'.
Proof using Hlen. induction 1; eauto using step_scan_inv. Qed.

Lemma seqZ_split a b : 0 ≤ a ≤ b → seqZ 0 b = seqZ 0 a ++ seqZ a (b - a).
Proof. intros H. rewrite <- (Z.add_0_l a) at 2. rewrite <- seqZ_app by lia. f_equal. lia. Qed.

(** The chunks partition the elements. *)
Lemma chunks_cover n : 0 ≤ n → n ≤ chunks → (seqZ 0 n ≫= λ i, let '(b, e) := chunk len i in seqZ b (e - b)) = seqZ 0 (Z.min len (n * splitSize)).
Proof using Hlen.
  intros Hn. pattern n. apply natlike_ind; [|clear n Hn; intros n Hn IH Hle|done].
  - intros _. simpl. by rewrite Z.min_r by lia.
  - rewrite <- Z.add_1_r in *. rewrite seqZ_app by lia. rewrite bind_app, IH by lia. simpl. rewrite app_nil_r. replace (Z.of_nat 0 + (0 + n)) with n by lia.
    assert (n * splitSize < len) as Hlt by (destruct (Z.lt_ge_cases (n * splitSize) len) as [|Hge]; [done|]; apply chunks_bound in Hge; lia).
    unfold splitSize in *. rewrite (Z.min_r len (n * 20000)) by lia. destruct (Z.ltb_spec len ((n + 1) * 20000)).
    + rewrite (Z.min_l len) by lia. by rewrite (seqZ_split (n * 20000) len) by lia.
    + rewrite (Z.min_r len) by lia. by rewrite (seqZ_split (n * 20000) ((n + 1) * 20000)) by lia.
Qed.
End chunks.

(** Work left over all workers: the potential that every step takes from. *)
Section chunks_termination.
Context (len : Z) (Hlen : 0 ≤ len).
Import Chunks.

Definition pc_weight (p : pc) : nat := match p with Idle => 2 | Exhausting => 1 | Perform _ => 3 | Finished => 0 end.
Definition scan_weight (s : Scan) : nat := 2 * Z.to_nat (chunks len - startIndex s) + sum_list (pc_weight <$> workers s).

Lemma weight_update l w p q : l !! w = Some p → (sum_list (pc_weight <$> <[w := q]> l) + pc_weight p = sum_list (pc_weight <$> l) + pc_weight q)%nat.
Proof.
  revert w. induction l as [|x l IH]; intros [|w] Hp; simplify_eq/=; [lia|]. specialize (IH w Hp). lia.
Qed.

Lemma step_scan_weight b w s s' : scan_inv len s → step len b w s = Some s' → (scan_weight s' < scan_weight s)%nat.
Proof using Hlen.
  intros [Hs _ _] E. unfold step in E. destruct (workers s !! w) as [p|] eqn:Hp; [|done]. simpl in E. unfold scan_weight.
  pose proof (λ q, weight_update (workers s) w p q Hp) as Hw. destruct p as [| |i|]; [destruct (b && workExhausted s)|..]; try discriminate E; injection E as <-;
    unfold allocateWork, performWork; simpl startIndex; simpl workers.
  - specialize (Hw Finished). simpl in Hw. lia.
  - destruct (Z.leb_spec len (startIndex s * splitSize)) as [Hl|Hl].
    + specialize (Hw Exhausting). simpl in Hw. lia.
    + specialize (Hw (Perform (startIndex s))). simpl in Hw.
      assert (startIndex s < chunks len); [|lia]. destruct (Z.lt_ge_cases (startIndex s) (chunks len)) as [|Hge]; [done|]. apply chunks_bound in Hge; lia.
  - specialize (Hw Finished). simpl in Hw. lia.
  - specialize (Hw Idle). simpl in Hw. lia.
Qed.

Lemma steps_scan_weight k s s' : steps len k s s' → scan_inv len s → (k + scan_weight s' ≤ scan_weight s)%nat.
Proof using Hlen.
  induction 1 as [|k b s1 s2 s3 w H IH E]; intros Hi; [lia|]. specialize (IH Hi). pose proof (step_scan_weight b w s2 s3) as Hw.
  specialize (Hw (steps_scan_inv _ Hlen _ _ _ H Hi) E). lia.
Qed.

Lemma init_weight n : scan_weight (initScan n) = (2 * Z.to_nat (chunks len) + 2 * n)%nat.
Proof.
  unfold scan_weight. cbn [startIndex workers initScan]. rewrite Z.sub_0_r. f_equal.
  induction n as [|n IH]; [done|]. change (2 + sum_list (pc_weight <$> replicate n Idle) = 2 * S n)%nat. lia.
Qed.
End chunks_termination.

(** Scanning one buffer of [len] elements on [n] workers: in every execution in
    which all workers have returned, the callback was called once with each
    chunk, and every element is in exactly one chunk. *)
Theorem buffer_scan_exactly_once (len : Z) (n k : nat) (s : Chunks.Scan) :
  0 ≤ len → (0 < n)%nat → Chunks.steps len k (Chunks.initScan n) s → Forall (λ p, p = Chunks.Finished) (Chunks.workers s) → length (Chunks.workers s) = n →
  (Chunks.ran s ≫= λ '(b, e), seqZ b (e - b)) ≡ₚ seqZ 0 len.
Proof.
  intros Hlen Hn Hs Hf Hw. destruct (steps_scan_inv len Hlen k _ _ Hs (init_scan_inv len Hlen n)) as [H0 Hwork Hd].
  assert (chunks len < Chunks.startIndex s) as Hlt.
  { apply Hd. right. right. destruct (Chunks.workers s) as [|p l]; [simpl in Hw; lia|]. apply Forall_cons in Hf as [-> _]. by left. }
  replace (omap reserved (Chunks.workers s)) with (@nil Z) in Hwork by (clear -Hf; induction Hf as [|p l -> _ IH]; [done|by csimpl]).
  rewrite app_nil_r, Z.min_r in Hwork by lia. rewrite Hwork.
  assert (0 ≤ chunks len) as Hc by (unfold chunks, splitSize; Z.to_euclidean_division_equations; lia).
  replace (seqZ 0 len) with (seqZ 0 (Z.min len (chunks len * splitSize))) by (f_equal; pose proof (proj2 (chunks_bound len (chunks len) Hc)); lia).
  rewrite <- (chunks_cover len Hlen) by lia. rewrite list_fmap_bind. by apply reflexive_eq, list_bind_ext; [|done]; intros i; simpl; destruct (Chunks.chunk len i).
Qed.

(** ... and every execution ends: it has at most as many steps as two per chunk
    and two per worker, and as long as a worker has not returned it can go on. *)
Theorem buffer_scan_terminates (len : Z) (n k : nat) (s : Chunks.Scan) :
  0 ≤ len → Chunks.steps len k (Chunks.initScan n) s →
  (k ≤ 2 * Z.to_nat (chunks len) + 2 * n)%nat ∧
  ∀ w p, Chunks.workers s !! w = Some p → p ≠ Chunks.Finished → ∀ b, is_Some (Chunks.step len b w s).
Proof.
  intros Hlen Hs. split.
  - pose proof (steps_scan_weight len Hlen k _ _ Hs (init_scan_inv len Hlen n)) as H. rewrite init_weight in H. lia.
  - intros w p Hp Hne b. unfold Chunks.step. rewrite Hp. simpl. destruct p; [case_match; eauto|eauto|eauto|done].
Qed.

(** ** The iterator of a hash table *)

(** A block that is in use has an element, unless nothing was inserted. *)
Definition all_filled (f : FlexibleBuffer) : Prop := Forall (λ b, 0 < numElements b) (fb_buffers f).
Definition tight (f : FlexibleBuffer) : Prop := all_filled f ∨ ∃ b, fb_buffers f = [b] ∧ numElements b = 0.

Lemma insert_filled f caps fresh f' a : flex_inv f caps → tight f → flex_insert f fresh = Ok (f', a) → all_filled f'.
Proof.
  intros Hi Ht E. unfold flex_insert in E. destruct (last (fb_buffers f)) as [b|] eqn:Eb; [|done].
  pose proof (flex_last_cap f caps b Hi Eb) as Hb. destruct (fi_last _ _ Hi) as [_ Hc].
  assert (∀ l, fb_buffers f = l ++ [b] → Forall (λ b, 0 < numElements b) l) as Hfront.
  { intros l El. destruct Ht as [Hall|(b' & Eb' & _)].
    - unfold all_filled in Hall. rewrite El in Hall. by apply Forall_app in Hall as [? _].
    - rewrite Eb' in El. destruct l as [|? [|]]; [constructor|done..]. }
  destruct (Z.eqb_spec (numElements b) (currCapacity f)) as [Ec|Ec].
  - simpl in E. rewrite last_snoc, removelast_last in E. injection E as <- _. unfold all_filled. simpl.
    apply Forall_app. split; [|repeat constructor; simpl; lia]. rewrite (removelast_app_last _ _ Eb). apply Forall_app. split; [|repeat constructor; lia].
    by apply Hfront, removelast_app_last.
  - rewrite Eb in E. injection E as <- _. unfold all_filled. simpl. apply Forall_app. split; [|repeat constructor; simpl; lia].
    by apply Hfront, removelast_app_last.
Qed.

(** What is left to visit at position [p] of block [k]. *)
Definition remaining (f : FlexibleBuffer) (k : nat) (b : Buffer) (p : Z) : list Z :=
  ((λ i, buf_ptr b + i * fb_typeSize f) <$> seqZ p (numElements b - p)) ++ (drop (S k) (fb_buffers f) ≫= buffer_addrs (fb_typeSize f)).
(** The iterator there. *)
Definition iterator_at (f : FlexibleBuffer) (k : nat) (b : Buffer) (p : Z) : HashtableIterator :=
  mkHtIterator k p (mkBuffer (numElements b * Z.max 1 (fb_typeSize f)) (buf_ptr b)) true.

Lemma enter_next f k pos cur : 0 < fb_typeSize f → all_filled f →
  match fb_buffers f !! k with
  | Some b => enter_buffer f k pos cur = Ok (iterator_at f k b 0)
  | None => enter_buffer f k pos cur = Ok (mkHtIterator k pos cur false)
  end.
Proof.
  intros Hts Hf. unfold enter_buffer, isValid, getCurrentBuffer. destruct (fb_buffers f !! k) as [b|] eqn:Hb.
  - rewrite bool_decide_eq_true_2 by (by eapply lookup_lt_Some). cbn [res_bind]. unfold iterator_at. do 2 f_equal. apply Z.ltb_lt. cbn [numElements].
    unfold all_filled in Hf. rewrite Forall_lookup in Hf. specialize (Hf k b Hb). nia.
  - apply lookup_ge_None in Hb. by rewrite bool_decide_eq_false_2 by lia.
Qed.

Lemma next_ok f k b p : 0 < fb_typeSize f → all_filled f → fb_buffers f !! k = Some b → 0 ≤ p < numElements b →
  ∃ it, htNext f (iterator_at f k b p) = Ok it ∧
    (if p + 1 <? numElements b then it = iterator_at f k b (p + 1)
     else match fb_buffers f !! S k with Some b' => it = iterator_at f (S k) b' 0 | None => valid it = false end).
Proof.
  intros Hts Hf Hb Hp. unfold htNext. cbn [iterator_at valid negb currPosInBuffer currBuffer bufferIt numElements].
  destruct (Z.ltb_spec (p + 1) (numElements b)) as [Hlt|Hge].
  - rewrite (proj2 (Z.leb_gt _ _)) by nia. eexists. by split.
  - rewrite (proj2 (Z.leb_le _ _)) by nia. match goal with |- context [enter_buffer f _ ?x ?y] => pose proof (enter_next f (S k) x y Hts Hf) as He end.
    destruct (fb_buffers f !! S k); rewrite He; eauto.
Qed.

Lemma drain_ok f : 0 < fb_typeSize f → all_filled f → ∀ fuel k b p, fb_buffers f !! k = Some b → 0 ≤ p < numElements b →
  (length (remaining f k b p) ≤ fuel)%nat → drain fuel f (iterator_at f k b p) = Ok ((λ a, a + contentOffset) <$> remaining f k b p).
Proof.
  intros Hts Hf. induction fuel as [|fuel IH]; intros k b p Hb Hp Hlen.
  - exfalso. unfold remaining in Hlen. rewrite length_app, length_fmap, length_seqZ in Hlen. lia.
  - destruct (next_ok f k b p Hts Hf Hb Hp) as (it & En & Hit).
    assert (remaining f k b p = (buf_ptr b + p * fb_typeSize f) :: tail (remaining f k b p)) as Er by (unfold remaining; by rewrite seqZ_cons by lia).
    rewrite Er. cbn [drain]. rewrite En. cbn [valid iterator_at res_bind]. unfold getCurrent. cbn [valid negb iterator_at res_bind currBuffer buf_ptr currPosInBuffer].
    rewrite Er in Hlen. simpl in Hlen. enough (drain fuel f it = Ok ((λ a, a + contentOffset) <$> tail (remaining f k b p))) as -> by done.
    assert (tail (remaining f k b p) = ((λ i, buf_ptr b + i * fb_typeSize f) <$> seqZ (p + 1) (numElements b - (p + 1))) ++ (drop (S k) (fb_buffers f) ≫= buffer_addrs (fb_typeSize f))) as Et.
    { unfold remaining. rewrite seqZ_cons by lia. simpl. do 3 f_equal; lia. }
    destruct (Z.ltb_spec (p + 1) (numElements b)) as [Hlt|Hge].
    + subst it. rewrite Et in Hlen |- *. apply IH; [done|lia|]. unfold remaining. lia.
    + rewrite seqZ_nil in Et by lia. simpl in Et. destruct (fb_buffers f !! S k) as [b'|] eqn:Hb'.
      * subst it. rewrite (drop_S _ _ _ Hb') in Et. rewrite bind_cons in Et. unfold buffer_addrs in Et at 1.
        assert (tail (remaining f k b p) = remaining f (S k) b' 0) as E by (rewrite Et; unfold remaining; by rewrite Z.sub_0_r).
        rewrite E in Hlen |- *. apply IH; [done| |lia]. unfold all_filled in Hf. rewrite Forall_lookup in Hf. specialize (Hf _ _ Hb'). lia.
      * apply lookup_ge_None in Hb'. rewrite drop_ge in Et by lia. rewrite Et. destruct fuel; simpl; by rewrite Hit.
Qed.

(** Insertions, with what [malloc] returns on the way. *)
Inductive insert_run : FlexibleBuffer → list Z → FlexibleBuffer → list Z → list Z → Prop :=
  | ir_nil f caps : insert_run f caps f caps []
  | ir_cons f caps fresh f1 a f2 caps2 addrs :
      malloc_ok f caps fresh → flex_insert f fresh = Ok (f1, a) → insert_run f1 (next_caps f caps) f2 caps2 addrs →
      insert_run f caps f2 caps2 (a :: addrs).

Lemma insert_run_inv f caps f' caps' addrs : insert_run f caps f' caps' addrs → flex_inv f caps → tight f →
  flex_inv f' caps' ∧ tight f' ∧ flex_iterate f' = flex_iterate f ++ addrs.
Proof.
  induction 1 as [|f caps fresh f1 a f2 caps2 addrs Hm E Hr IH]; intros Hi Ht; [by rewrite app_nil_r|].
  destruct (flex_insert_inv f caps fresh Hi Hm) as (f1' & a' & E' & Hi1 & Hit & _). rewrite E in E'. injection E' as <- <-.
  destruct (IH Hi1) as (Hi2 & Ht2 & Hit2); [left; exact (insert_filled f caps fresh f1 a Hi Ht E)|]. split_and!; try done. by rewrite Hit2, Hit, <- app_assoc.
Qed.

(** The entries of a hash table, whatever was inserted and however often the
    store grew: the iterator ends without an error and has visited every entry
    once, in the order of insertion. *)
Theorem hashtable_iterator_visits_all cap typeSize block f caps addrs :
  0 < cap → 0 < typeSize → 0 < block → block + cap * typeSize ≤ 2 ^ 48 →
  insert_run (newFlexibleBuffer cap typeSize block) [cap] f caps addrs →
  iterate_entries f = Ok ((λ a, a + contentOffset) <$> addrs) ∧ NoDup addrs.
Proof.
  intros Hc Ht Hb He Hr. destruct (insert_run_inv _ _ _ _ _ Hr) as (Hi & Htight & Hit); [by apply new_flex_inv|right; by eexists|].
  simpl in Hit. pose proof (flex_nodup _ _ Hi) as Hnd. rewrite Hit in Hnd. split; [|done]. pose proof (fi_size _ _ Hi) as Hts.
  unfold iterate_entries, newHtIterator. destruct Htight as [Hf|(b & Eb & Hn)].
  - pose proof (enter_next f 0 0 (mkBuffer 0 0) Hts Hf) as H. destruct (fb_buffers f) as [|b l] eqn:El; simpl in H; rewrite H; cbn [res_bind].
    + unfold flex_iterate in Hit |- *. rewrite El in Hit |- *. simpl in Hit. by subst addrs.
    + assert (remaining f 0 b 0 = flex_iterate f) as Er by (unfold remaining, flex_iterate; rewrite El; simpl; by rewrite drop_0, Z.sub_0_r).
      rewrite (drain_ok f Hts Hf); [by rewrite Er, Hit|by rewrite El| |by rewrite Er]. unfold all_filled in Hf. rewrite El in Hf. apply Forall_cons in Hf as [? _]. lia.
  - unfold flex_iterate in Hit. rewrite Eb in Hit. simpl in Hit. unfold buffer_addrs in Hit. rewrite Hn in Hit. simpl in Hit. subst addrs.
    unfold enter_buffer, isValid, getCurrentBuffer. rewrite Eb. cbn. rewrite Hn. cbn. by destruct (flex_iterate f).
Qed.

(** ** Witnesses *)

Lemma scan_schedule_steps len ws s k s0 : Chunks.steps len k s0 s → ∃ k', Chunks.steps len k' s0 (Chunks.run_schedule len ws s).
Proof.
  revert s k. induction ws as [|w ws IH]; intros s k H; [by exists k|]. cbn [Chunks.run_schedule].
  destruct (Chunks.step len true w s) as [s'|] eqn:E; simpl; [|by eapply IH]. eapply (IH s' (S k)). by econstructor.
Qed.

(** Two workers take the chunks of a buffer of 45000 elements in turns. *)
Definition scanned : Chunks.Scan := Chunks.run_schedule 45000 (concat (replicate 6 [0; 1]%nat)) (Chunks.initScan 2).

Lemma buffer_scan_exactly_once_witness : (Chunks.ran scanned ≫= λ '(b, e), seqZ b (e - b)) ≡ₚ seqZ 0 45000.
Proof.
  destruct (scan_schedule_steps 45000 (concat (replicate 6 [0; 1]%nat)) _ _ _ (Chunks.steps_refl 45000 (Chunks.initScan 2))) as [k H].
  apply (buffer_scan_exactly_once 45000 2 k scanned); [lia|lia|exact H| |reflexivity]. repeat constructor.
Defined.

Lemma buffer_scan_terminates_witness : ∀ w p, Chunks.workers (Chunks.initScan 2) !! w = Some p → p ≠ Chunks.Finished →
  ∀ b, is_Some (Chunks.step 45000 b w (Chunks.initScan 2)).
Proof. apply (buffer_scan_terminates 45000 2 0 (Chunks.initScan 2)); [lia|constructor]. Defined.

(** Three entries of 32 bytes in a store of capacity 1: the second and third
    insertions allocate. *)
Lemma hashtable_iterator_visits_all_witness : ∃ f, iterate_entries f = Ok [4096 + 16; 8192 + 16; 8224 + 16].
Proof.
  eexists. refine (proj1 (hashtable_iterator_visits_all 1 32 4096 _ _ [4096; 8192; 8224] _ _ _ _ _)); [lia|lia|lia|vm_compute; congruence|].
  eapply (ir_cons _ _ 0); [by intros ?|reflexivity|].
  eapply (ir_cons _ _ 8192); [|reflexivity|].
  { intros size [= <-]. split_and!; [lia|vm_compute; congruence|]. intros b c [|i] [= <-] [= <-]. right. simpl. lia. }
  eapply (ir_cons _ _ 0); [by intros ?|reflexivity|constructor].
Defined.
