(* ===== verification/Utf8.v ===== *)
(** * Characters of texts

    The string functions treat a text as a sequence of UTF-8 characters: a byte
    that is not of the form 10xxxxxx and the bytes of that form behind it. *)

From S2P Require Import Prelude Bytes.
From Stdlib Require Import Strings.Byte.
#[local] Open Scope Z_scope.

(** [(c >> 6) == 2]. *)
Definition isContinuation (b : byte) : bool := Z.shiftr (byte_val b) 6 =? 2.

(** A character: its first byte and its continuation bytes. *)
Record char := mkChar { lead : byte; rest : bytes }.
#[global] Instance char_eq_dec : EqDecision char.
Proof. solve_decision. Defined.

Definition wf_char (c : char) : Prop := isContinuation (lead c) = false ∧ Forall (λ b, isContinuation b = true) (rest c).
Definition encode_char (c : char) : bytes := lead c :: rest c.
(** The bytes of a text. *)
Definition encode (cs : list char) : bytes := cs ≫= encode_char.

(** A text that starts with a character. *)
Definition head_wf (l : bytes) : Prop := match l with [] => True | b :: _ => isContinuation b = false end.

Lemma encode_head_wf cs : Forall wf_char cs → head_wf (encode cs).
Proof. intros H. destruct H as [|c cs [Hl _] _]; done. Qed.

Lemma encode_cons c cs : encode (c :: cs) = lead c :: rest c ++ encode cs.
Proof. done. Qed.

Lemma encode_app cs1 cs2 : encode (cs1 ++ cs2) = encode cs1 ++ encode cs2.
Proof. apply bind_app. Qed.

Lemma encode_nil cs : encode cs = [] ↔ cs = [].
Proof. destruct cs; [done|]. rewrite encode_cons. done. Qed.

Lemma length_encode_ge cs : (length cs ≤ length (encode cs))%nat.
Proof. induction cs as [|c cs IH]; [done|]. rewrite encode_cons. simpl. rewrite length_app. lia. Qed.

(** Every text is a sequence of characters, up to continuation bytes at its
    start. *)
Fixpoint decode (l : bytes) : list char :=
  match l with
  | [] => []
  | b :: l =>
      match l with
      | [] => [mkChar b []]
      | b' :: _ =>
          if isContinuation b' then
            match decode l with
            | c :: cs => mkChar b (lead c :: rest c) :: cs
            | [] => [mkChar b []]
            end
          else mkChar b [] :: decode l
      end
  end.

Lemma decode_spec l : encode (decode l) = l.
Proof.
  induction l as [|b l IH]; [done|]. cbn [decode]. destruct l as [|b' l']; [done|]. destruct (isContinuation b').
  - destruct (decode (b' :: l')) as [|c cs]; [done|]. rewrite encode_cons. rewrite encode_cons in IH. by rewrite <- IH.
  - rewrite encode_cons, IH. done.
Qed.

Lemma decode_rest l : Forall (λ c, Forall (λ b, isContinuation b = true) (rest c)) (decode l) ∧
  Forall (λ c, isContinuation (lead c) = false) (tail (decode l)) ∧
  ∀ b, head l = Some b → ∃ c cs, decode l = c :: cs ∧ lead c = b.
Proof.
  induction l as [|b l (IH1 & IH2 & IH3)]; [split_and!; [constructor|constructor|done]|]. cbn [decode].
  destruct l as [|b' l']; [split_and!; [repeat constructor|constructor|intros x [= <-]; by eexists _, _]|].
  destruct (IH3 b' eq_refl) as (c & cs & E & Ec). destruct (isContinuation b') eqn:Hb; rewrite E in *.
  - apply Forall_cons in IH1 as [Hc Hcs]. simpl in IH2. split_and!; [|done|intros x [= <-]; by eexists _, _].
    constructor; [|done]. simpl. constructor; [by rewrite Ec|done].
  - split_and!; [by constructor| |intros x [= <-]; by eexists _, _]. simpl. constructor; [by rewrite Ec|done].
Qed.

Lemma decode_wf l : head_wf l → Forall wf_char (decode l).
Proof.
  intros Hh. destruct (decode_rest l) as (H1 & H2 & H3). destruct l as [|b l]; [constructor|].
  destruct (H3 b eq_refl) as (c & cs & E & Ec). rewrite E in *. apply Forall_cons in H1 as [Hc H1]. simpl in H2. constructor.
  - split; [|done]. by rewrite Ec.
  - apply Forall_forall. intros d Hd. split; [by apply (proj1 (Forall_forall _ _) H2)|by apply (proj1 (Forall_forall _ _) H1)].
Qed.
