(* ===== verification/Like.v ===== *)
(** * The LIKE predicate

    Model of [iterativeLike] in src/runtime/StringRuntime.cpp.  A pair of a
    pointer and a length is the list of the bytes it spans. *)

From S2P Require Import Prelude Bytes Utf8.
From Stdlib Require Import Strings.Byte.
#[local] Open Scope Z_scope.

Definition percent : byte := "%"%byte.
Definition underscore : byte := "_"%byte.
Definition backslash : byte := "\"%byte.

(** [nextChar]: steps over the first byte and the continuation bytes. *)
Fixpoint skip_continuations (l : bytes) : bytes :=
  match l with
  | b :: l' => if isContinuation b then skip_continuations l' else l
  | [] => []
  end.
Definition nextChar (l : bytes) : bytes := skip_continuations (tail l).

(** The loop behind a [%]: the rest of the text and of the pattern, or [None]
    when the text is too short for the [_]s. *)
Fixpoint skip_wildcards (fuel : nat) (s p : bytes) : res (option (bytes * bytes)) :=
  match p with
  | [] => Ok (Some (s, p))
  | c :: _ =>
      match fuel with
      | O => Fault OutOfFuel
      | S fuel =>
          if decide (c = percent) then skip_wildcards fuel s (nextChar p)
          else if decide (c = underscore) then
            match s with
            | [] => Ok None
            | _ => skip_wildcards fuel (nextChar s) (nextChar p)
            end
          else Ok (Some (s, p))
      end
  end.

(** The loop behind the main one. *)
Fixpoint strip_percents (fuel : nat) (p : bytes) : res bytes :=
  match p with
  | [] => Ok p
  | c :: _ =>
      match fuel with
      | O => Fault OutOfFuel
      | S fuel => if decide (c = percent) then strip_percents fuel (nextChar p) else Ok p
      end
  end.

(** [while (slen > 0) { if (f(s)) return true; nextChar(s, slen); } return false;] *)
Fixpoint any_suffix (fuel : nat) (f : bytes → res bool) (s : bytes) : res bool :=
  match s with
  | [] => Ok false
  | _ =>
      match fuel with
      | O => Fault OutOfFuel
      | S fuel => let* b := f s in if b then Ok true else any_suffix fuel f (nextChar s)
      end
  end.

Fixpoint iterativeLike (fuel : nat) (s p : bytes) (escape : byte) : res bool :=
  match p, s with
  | c :: _, d :: _ =>
      match fuel with
      | O => Fault OutOfFuel
      | S fuel =>
          if decide (c = escape) then
            let p := nextChar p in
            match p with
            | [] => Ok false
            | c :: _ => if decide (c = d) then iterativeLike fuel (nextChar s) (nextChar p) escape else Ok false
            end
          else if decide (c = percent) then
            let p := nextChar p in
            let* r := skip_wildcards (length p) s p in
            match r with
            | None => Ok false
            | Some (s, p) =>
                match p with
                | [] => Ok true
                | c :: _ =>
                    let p := if decide (c = escape) then nextChar p else p in
                    match p with
                    | [] => Ok false
                    | _ => any_suffix (length s) (λ s, iterativeLike fuel s p escape) s
                    end
                end
            end
          else if decide (c = underscore) then iterativeLike fuel (nextChar s) (nextChar p) escape
          else if decide (c = d) then iterativeLike fuel (nextChar s) (nextChar p) escape
          else Ok false
      end
  | _, _ =>
      let* p' := strip_percents (length p) p in
      Ok (bool_decide (s = [] ∧ p' = []))
  end.

(** Every pass over the main loop shortens the pattern. *)
Definition like (str pattern : bytes) : res bool := iterativeLike (S (length pattern)) str pattern backslash.

(** ** What LIKE accepts *)

(** ** The predicate of SQL *)

Inductive token := Any | One | Lit (c : byte).

(** A pattern of ASCII characters; [None] when it ends in an escape. *)
Fixpoint parse (p : bytes) : option (list token) :=
  match p with
  | [] => Some []
  | c :: r =>
      if decide (c = backslash) then
        match r with
        | [] => None
        | c :: r => cons (Lit c) <$> parse r
        end
      else if decide (c = percent) then cons Any <$> parse r
      else if decide (c = underscore) then cons One <$> parse r
      else cons (Lit c) <$> parse r
  end.

Inductive Matches : list token → list char → Prop :=
  | m_nil : Matches [] []
  | m_any ts l cs : Matches ts cs → Matches (Any :: ts) (l ++ cs)
  | m_one ts x cs : Matches ts cs → Matches (One :: ts) (x :: cs)
  | m_lit ts c cs : Matches ts cs → Matches (Lit c :: ts) (mkChar c [] :: cs).

Definition Accepts (p : bytes) (cs : list char) : Prop := ∃ ts, parse p = Some ts ∧ Matches ts cs.

Definition special (c : byte) : Prop := c = percent ∨ c = underscore ∨ c = backslash.
#[global] Instance special_dec c : Decision (special c).
Proof. unfold special. apply _. Defined.

(** No escaped wildcard or escaped escape behind a [%], directly or with only
    wildcards between. *)
Fixpoint safe (after_any : bool) (p : bytes) : Prop :=
  match p with
  | [] => True
  | c :: r =>
      if decide (c = backslash) then
        match r with
        | [] => True
        | c :: r => ¬ (after_any = true ∧ special c) ∧ safe false r
        end
      else if decide (c = percent) then safe true r
      else if decide (c = underscore) then safe after_any r
      else safe false r
  end.

Definition ascii (b : byte) : Prop := byte_val b < 128.
(** A character of valid UTF-8: ASCII characters have one byte. *)
Definition utf8_char (c : char) : Prop := wf_char c ∧ (ascii (lead c) → rest c = []).

(** ** The cases of the predicate *)

Lemma accepts_nil cs : Accepts [] cs ↔ cs = [].
Proof. unfold Accepts. simpl. split; [intros (ts & [= <-] & H); by inversion H|intros ->; exists []; split; [done|constructor]]. Qed.

Lemma accepts_lit p r c cs : parse p = cons (Lit c) <$> parse r → Accepts p cs ↔ ∃ cs', cs = mkChar c [] :: cs' ∧ Accepts r cs'.
Proof.
  intros E. unfold Accepts. rewrite E. split.
  - intros (ts & E2 & H). apply fmap_Some in E2 as (ts' & Er & ->). inversion H; subst. eexists. split; [done|]. by exists ts'.
  - intros (cs' & -> & ts & -> & H). eexists. split; [done|]. by constructor.
Qed.

Lemma accepts_escape_end cs : ¬ Accepts [backslash] cs.
Proof. by intros (ts & [=] & _). Qed.

Lemma accepts_escaped c r cs : Accepts (backslash :: c :: r) cs ↔ ∃ cs', cs = mkChar c [] :: cs' ∧ Accepts r cs'.
Proof. by apply accepts_lit. Qed.

Lemma accepts_plain c r cs : ¬ special c → Accepts (c :: r) cs ↔ ∃ cs', cs = mkChar c [] :: cs' ∧ Accepts r cs'.
Proof. unfold special. intros Hc. apply accepts_lit. cbn [parse]. by rewrite !decide_False by tauto. Qed.

(** Behind a [%]. *)
Definition AnyAccepts (p : bytes) (cs : list char) : Prop := ∃ l cs', cs = l ++ cs' ∧ Accepts p cs'.

Lemma accepts_any r cs : Accepts (percent :: r) cs ↔ AnyAccepts r cs.
Proof.
  unfold AnyAccepts, Accepts. cbn [parse]. rewrite decide_False, decide_True by done. split.
  - intros (ts & E & H). apply fmap_Some in E as (ts' & Er & ->). inversion H; subst. eexists _, _. split; [done|]. by exists ts'.
  - intros (l & cs' & -> & ts & -> & H). eexists. split; [done|]. by constructor.
Qed.

Lemma accepts_one r cs : Accepts (underscore :: r) cs ↔ ∃ x cs', cs = x :: cs' ∧ Accepts r cs'.
Proof.
  unfold Accepts. cbn [parse]. rewrite decide_False, decide_False, decide_True by done. split.
  - intros (ts & E & H). apply fmap_Some in E as (ts' & Er & ->). inversion H; subst. eexists _, _. split; [done|]. by exists ts'.
  - intros (x & cs' & -> & ts & -> & H). eexists. split; [done|]. by constructor.
Qed.

Lemma any_any r cs : AnyAccepts (percent :: r) cs ↔ AnyAccepts r cs.
Proof.
  unfold AnyAccepts at 1. setoid_rewrite accepts_any. split.
  - intros (l & cs' & -> & l' & cs'' & -> & H). exists (l ++ l'), cs''. by rewrite app_assoc.
  - intros (l & cs' & -> & H). exists [], (l ++ cs'). split; [done|]. by exists l, cs'.
Qed.

Lemma any_one_nil r : ¬ AnyAccepts (underscore :: r) [].
Proof. intros (l & cs' & E & H). apply accepts_one in H as (x & cs'' & -> & _). by destruct l. Qed.

Lemma any_one_cons r x cs : AnyAccepts (underscore :: r) (x :: cs) ↔ AnyAccepts r cs.
Proof.
  split.
  - intros (l & cs' & E & H). apply accepts_one in H as (y & cs'' & -> & H). destruct l as [|z l]; simplify_eq/=.
    + by exists [], cs''.
    + exists (l ++ [y]), cs''. by rewrite <- app_assoc.
  - intros (l & cs' & -> & H). destruct l as [|z l _] using rev_ind.
    + exists [], (x :: cs'). split; [done|]. apply accepts_one. by exists x, cs'.
    + exists (x :: l), (z :: cs'). split; [by rewrite <- app_assoc|]. apply accepts_one. by exists z, cs'.
Qed.

(** ** Characters *)

Lemma skip_continuations_app l1 l2 : Forall (λ b, isContinuation b = true) l1 → head_wf l2 → skip_continuations (l1 ++ l2) = l2.
Proof. intros H1 H2. induction H1 as [|b l1 Hb _ IH]; simpl; [|by rewrite Hb]. destruct l2 as [|b l2]; simpl in *; [done|by rewrite H2]. Qed.

Lemma nextChar_encode c cs : wf_char c → Forall wf_char cs → nextChar (encode (c :: cs)) = encode cs.
Proof. intros [_ Hr] Hcs. unfold nextChar. rewrite encode_cons. simpl. apply skip_continuations_app; [done|by apply encode_head_wf]. Qed.

Lemma ascii_not_continuation b : ascii b → isContinuation b = false.
Proof.
  unfold ascii, isContinuation. intros H. pose proof (byte_val_range b). apply Z.eqb_neq. rewrite Z.shiftr_div_pow2 by lia.
  Z.to_euclidean_division_equations. lia.
Qed.

Lemma nextChar_ascii c p : Forall ascii p → nextChar (c :: p) = p.
Proof. intros H. unfold nextChar. simpl. apply (skip_continuations_app [] p); [constructor|]. destruct H; [done|]. by apply ascii_not_continuation. Qed.

(** ** The loops *)

Lemma strip_ok fuel p : Forall ascii p → (length p ≤ fuel)%nat →
  ∃ p', strip_percents fuel p = Ok p' ∧ (p' = [] ↔ Accepts p []).
Proof.
  revert p. induction fuel as [|fuel IH]; intros p Ha Hf; (destruct Ha as [|c r Hc Hr]; [exists []; split; [done|]; by rewrite accepts_nil|simpl in Hf]); [lia|].
  cbn [strip_percents]. destruct (decide (c = percent)) as [->|Hp].
  - rewrite nextChar_ascii by done. destruct (IH r Hr ltac:(lia)) as (p' & -> & E). exists p'. split; [done|]. rewrite E, accepts_any. split.
    + intros H. by exists [], [].
    + intros (l & cs' & E2 & H). symmetry in E2. by apply app_eq_nil in E2 as [_ ->].
  - eexists. split; [done|]. split; [done|]. intros H. exfalso. destruct (decide (c = underscore)) as [->|Hu]; [by apply accepts_one in H as (? & ? & ? & _)|].
    destruct (decide (c = backslash)) as [->|Hb]; [destruct r as [|c2 r]; [by apply accepts_escape_end in H|by apply accepts_escaped in H as (? & ? & _)]|].
    apply accepts_plain in H as (? & ? & _); [done|]. unfold special. tauto.
Qed.

Lemma wildcards_ok fuel p cs : Forall ascii p → Forall wf_char cs → (length p ≤ fuel)%nat → safe true p →
  ∃ r, skip_wildcards fuel (encode cs) p = Ok r ∧
    match r with
    | None => ¬ AnyAccepts p cs
    | Some (s', p') => ∃ cs' n, s' = encode cs' ∧ cs' = drop n cs ∧ (∃ q, p = q ++ p') ∧ head p' ≠ Some percent ∧ head p' ≠ Some underscore ∧ safe true p' ∧
        (AnyAccepts p cs ↔ AnyAccepts p' cs')
    end.
Proof.
  revert p cs. induction fuel as [|fuel IH]; intros p cs Ha Hw Hf Hs; (destruct Ha as [|c r Hc Hr]; [eexists; split; [done|]; simpl; exists cs, 0%nat; split_and!; try done; by exists []|simpl in Hf]); [lia|].
  cbn [skip_wildcards]. destruct (decide (c = percent)) as [->|Hp].
  - rewrite nextChar_ascii by done. destruct (IH r cs Hr Hw ltac:(lia)) as (x & E & Hx); [by cbn in Hs|]. exists x. split; [done|].
    destruct x as [[s' p']|]; [|by rewrite any_any]. destruct Hx as (cs' & n & ? & ? & [q Hq] & ? & ? & ? & HA). exists cs', n. split_and!; try done; [exists (percent :: q); by rewrite Hq|].
    by rewrite any_any.
  - destruct (decide (c = underscore)) as [->|Hu].
    + destruct cs as [|y cs]; [simpl; eexists; split; [done|]; apply any_one_nil|].
      apply Forall_cons in Hw as [Hy Hw]. rewrite encode_cons. rewrite <- encode_cons, nextChar_encode, nextChar_ascii by done.
      destruct (IH r cs Hr Hw ltac:(lia)) as (x & E & Hx); [by cbn in Hs|]. exists x. split; [done|].
      destruct x as [[s' p']|]; [|by rewrite any_one_cons]. destruct Hx as (cs' & n & ? & ? & [q Hq] & ? & ? & ? & HA). exists cs', (S n). split_and!; try done; [exists (underscore :: q); by rewrite Hq|].
      by rewrite any_one_cons.
    + eexists. split; [done|]. exists cs, 0%nat. split_and!; try done; [by exists []|simpl; congruence|simpl; congruence].
Qed.

Lemma suffixes_ok fuel (f : bytes → res bool) (Q : list char → Prop) cs :
  Forall wf_char cs → (length (encode cs) ≤ fuel)%nat →
  (∀ n, drop n cs ≠ [] → ∃ b, f (encode (drop n cs)) = Ok b ∧ (b = true ↔ Q (drop n cs))) →
  ∃ b, any_suffix fuel f (encode cs) = Ok b ∧ (b = true ↔ ∃ n, drop n cs ≠ [] ∧ Q (drop n cs)).
Proof.
  revert cs. induction fuel as [|fuel IH]; intros cs Hw Hf Hq;
    (destruct cs as [|c cs]; [exists false; split; [done|]; split; [done|intros (n & Hn & _); by rewrite drop_nil in Hn]|rewrite encode_cons in Hf; simpl in Hf]); [lia|].
  rewrite length_app in Hf. apply Forall_cons in Hw as [Hc Hw]. destruct (Hq 0%nat ltac:(done)) as (b & E & Hb). rewrite drop_0 in E, Hb.
  rewrite encode_cons. cbn [any_suffix]. rewrite <- encode_cons, E. cbn [res_bind]. destruct b.
  - exists true. split; [done|]. split; [|done]. intros _. exists 0%nat. rewrite drop_0. split; [done|]. by apply Hb.
  - rewrite nextChar_encode by done. destruct (IH cs Hw ltac:(lia)) as (b & E2 & Hb2); [intros n; apply (Hq (S n))|]. exists b. split; [done|]. rewrite Hb2. split.
    + intros (n & Hn). by exists (S n).
    + intros ([|n] & Hn & HQ); [rewrite drop_0 in HQ; by apply Hb in HQ|by exists n].
Qed.

Lemma any_accepts_drop p cs : ¬ Accepts p [] → AnyAccepts p cs ↔ ∃ n, drop n cs ≠ [] ∧ Accepts p (drop n cs).
Proof.
  intros Hn. split.
  - intros (l & cs' & -> & H). exists (length l). rewrite drop_app_length. split; [|done]. by intros ->.
  - intros (n & _ & H). exists (take n cs), (drop n cs). by rewrite take_drop.
Qed.

(** One character of the text against a literal of the pattern. *)
Lemma lit_test c x cs (P : list char → Prop) : ascii c → utf8_char x →
  (∃ cs', x :: cs = mkChar c [] :: cs' ∧ P cs') ↔ c = lead x ∧ P cs.
Proof.
  intros Hc [_ Hx]. split.
  - intros (cs' & [= -> ->] & H). done.
  - intros [-> H]. exists cs. split; [|done]. f_equal. destruct x as [b l]. simpl in *. by rewrite (Hx Hc).
Qed.

(** The branch for a [%], over what the induction gives for shorter patterns. *)
Definition like_any (fuel : nat) (s p : bytes) : res bool :=
  let* r := skip_wildcards (length p) s p in
  match r with
  | None => Ok false
  | Some (s, p) =>
      match p with
      | [] => Ok true
      | c :: _ =>
          let p := if decide (c = backslash) then nextChar p else p in
          match p with
          | [] => Ok false
          | _ => any_suffix (length s) (λ s, iterativeLike fuel s p backslash) s
          end
      end
  end.

Lemma like_any_ok fuel r cs :
  (∀ p cs, Forall ascii p → Forall utf8_char cs → (length p ≤ fuel)%nat → safe false p →
    ∃ b, iterativeLike fuel (encode cs) p backslash = Ok b ∧ (b = true ↔ Accepts p cs)) →
  Forall ascii r → Forall utf8_char cs → (length r ≤ fuel)%nat → safe true r →
  ∃ b, like_any fuel (encode cs) r = Ok b ∧ (b = true ↔ Accepts (percent :: r) cs).
Proof.
  intros IH Ha Hu Hf Hs. assert (Forall wf_char cs) as Hw by (eapply Forall_impl; [exact Hu|by intros x [? _]]). setoid_rewrite accepts_any. unfold like_any.
  destruct (wildcards_ok (length r) r cs Ha Hw ltac:(lia) Hs) as (o & -> & Ho). cbn [res_bind].
  destruct o as [[s' p']|]; [|by exists false]. destruct Ho as (cs' & n & -> & -> & [q Hq] & Hnp & Hnu & Hs' & HA). setoid_rewrite HA. clear HA.
  assert (Forall ascii p') as Ha' by (rewrite Hq in Ha; by apply Forall_app in Ha as [_ ?]). assert (length p' ≤ length r)%nat as Hlen by (rewrite Hq, length_app; lia).
  destruct p' as [|c p']; [exists true; split; [done|]; split; [intros _|done]; exists (drop n cs), []; by rewrite app_nil_r, accepts_nil|].
  assert (∀ p, p ≠ [] → Forall ascii p → (length p ≤ fuel)%nat → safe false p → (∀ cs, Accepts p cs ↔ Accepts (c :: p') cs) → ¬ Accepts p [] →
    ∃ b, any_suffix (length (encode (drop n cs))) (λ s, iterativeLike fuel s p backslash) (encode (drop n cs)) = Ok b ∧ (b = true ↔ AnyAccepts (c :: p') (drop n cs))) as Hany.
  { intros p Hp Hap Hfp Hsp Heq Hnil. destruct (suffixes_ok (length (encode (drop n cs))) (λ s, iterativeLike fuel s p backslash) (Accepts p) (drop n cs)) as (b & E & Hb); [by apply Forall_drop|done| |].
    - intros m _. apply IH; try done. by do 2 apply Forall_drop.
    - exists b. split; [done|]. rewrite Hb, any_accepts_drop by (by rewrite <- Heq). split; intros (m & Hm & H); exists m; (split; [done|]); by apply Heq. }
  apply Forall_cons in Ha' as [Hc Ha']. simpl in Hlen. destruct (decide (c = backslash)) as [->|Hb].
  - rewrite nextChar_ascii by done. destruct p' as [|c2 p2]; [exists false; split; [done|]; split; [done|intros (l & ? & _ & ?%accepts_escape_end); done]|].
    destruct Hs' as [Hsp Hs']. assert (¬ special c2) as Hns by tauto. simpl in Hlen. apply Hany; [done|done|simpl; lia| | |].
    + cbn [safe]. unfold special in Hns. by rewrite !decide_False by tauto.
    + intros cs0. by rewrite accepts_escaped, accepts_plain.
    + rewrite accepts_plain by done. by intros (? & ? & _).
  - assert (¬ special c) as Hns by (unfold special; simpl in Hnp, Hnu; naive_solver). apply Hany; [done|by constructor|simpl; lia| |done|].
    + cbn [safe] in *. unfold special in Hns. by rewrite !decide_False in * by tauto.
    + rewrite accepts_plain by done. by intros (? & ? & _).
Qed.

Lemma iterativeLike_ok fuel p cs : Forall ascii p → Forall utf8_char cs → (length p ≤ fuel)%nat → safe false p →
  ∃ b, iterativeLike fuel (encode cs) p backslash = Ok b ∧ (b = true ↔ Accepts p cs).
Proof.
  revert p cs. induction fuel as [|fuel IH]; intros p cs Ha Hu Hf Hs.
  all: assert (Forall wf_char cs) as Hw by (eapply Forall_impl; [exact Hu|by intros x [? _]]).
  all: destruct p as [|c r]; [destruct cs; eexists; (split; [done|]); rewrite accepts_nil, bool_decide_eq_true; naive_solver|].
  all: destruct cs as [|x cs]; [destruct (strip_ok (length (c :: r)) (c :: r) Ha ltac:(lia)) as (p' & E & Hp');
    eexists; (split; [change (encode []) with (@nil byte); unfold iterativeLike; rewrite E; done|]); rewrite bool_decide_eq_true, <- Hp'; tauto|].
  { simpl in Hf. lia. }
  apply Forall_cons in Ha as [Hc Ha], Hu as [Hx Hu], Hw as [Hwx Hw]. simpl in Hf. rewrite encode_cons. cbn [iterativeLike].
  rewrite <- encode_cons, (nextChar_encode x cs Hwx Hw), (nextChar_ascii c r Ha). destruct (decide (c = backslash)) as [->|Hb].
  { destruct r as [|c2 r]; [exists false; split; [done|]; split; [done|by intros ?%accepts_escape_end]|].
    apply Forall_cons in Ha as [Hc2 Ha]. rewrite (nextChar_ascii c2 r Ha). simpl in Hf. setoid_rewrite accepts_escaped. setoid_rewrite (lit_test c2 x cs (Accepts r) Hc2 Hx).
    case_decide as E; [|exists false; split; [done|]; split; [done|by intros [? _]]]. destruct (IH r cs Ha Hu ltac:(lia)) as (b & Eb & Hb); [by destruct Hs|].
    exists b. split; [done|]. rewrite Hb. tauto. }
  destruct (decide (c = percent)) as [->|Hp].
  { cbn in Hs. apply (like_any_ok fuel r (x :: cs)); try done; [by constructor|lia]. }
  destruct (decide (c = underscore)) as [->|Hus].
  { destruct (IH r cs Ha Hu ltac:(lia)) as (b & Eb & Hb2); [by cbn in Hs|]. exists b. split; [done|]. rewrite Hb2, accepts_one. naive_solver. }
  setoid_rewrite (accepts_plain c r); [|by unfold special; tauto]. setoid_rewrite (lit_test c x cs (Accepts r) Hc Hx).
  case_decide as E; [|exists false; split; [done|]; split; [done|by intros [? _]]].
  destruct (IH r cs Ha Hu ltac:(lia)) as (b & Eb & Hb2); [cbn in Hs; by rewrite !decide_False in Hs|]. exists b. split; [done|]. rewrite Hb2. tauto.
Qed.

(** ** Termination on all texts *)

Lemma skip_continuations_length l : (length (skip_continuations l) ≤ length l)%nat.
Proof. induction l as [|b l IH]; simpl; [done|]. case_match; simpl; lia. Qed.

Lemma nextChar_length c l : (length (nextChar (c :: l)) < length (c :: l))%nat.
Proof. unfold nextChar. simpl. pose proof (skip_continuations_length l). lia. Qed.

Lemma strip_total fuel p : (length p ≤ fuel)%nat → is_ok (strip_percents fuel p).
Proof.
  revert p. induction fuel as [|fuel IH]; intros [|c p] Hf; simpl in Hf; try (eexists; reflexivity); try (eexists; split; [reflexivity|simpl; lia]); try lia.
  cbn [strip_percents]. case_decide; [|by eexists]. apply IH. pose proof (nextChar_length c p) as H1. simpl in H1. lia.
Qed.

Lemma wildcards_total fuel s p : (length p ≤ fuel)%nat →
  ∃ r, skip_wildcards fuel s p = Ok r ∧ match r with Some (_, p') => (length p' ≤ length p)%nat | None => True end.
Proof.
  revert s p. induction fuel as [|fuel IH]; intros s [|c p] Hf; simpl in Hf; try (eexists; reflexivity); try (eexists; split; [reflexivity|simpl; lia]); try lia.
  cbn [skip_wildcards]. pose proof (nextChar_length c p) as Hn. simpl in Hn. destruct (decide (c = percent)) as [->|].
  - destruct (IH s (nextChar (percent :: p))) as (r & -> & Hr); [lia|]. exists r. split; [done|]. destruct r as [[? ?]|]; simpl; lia.
  - case_decide; [|eexists; split; [reflexivity|simpl; lia]]. destruct s as [|d s]; [eexists; split; [reflexivity|done]|]. destruct (IH (nextChar (d :: s)) (nextChar (c :: p))) as (r & -> & Hr); [lia|].
    exists r. split; [done|]. destruct r as [[? ?]|]; simpl; lia.
Qed.

Lemma suffixes_total fuel f s : (length s ≤ fuel)%nat → (∀ s, is_ok (f s)) → is_ok (any_suffix fuel f s).
Proof.
  intros Hf Ht. revert s Hf. induction fuel as [|fuel IH]; intros [|d s] Hf; simpl in Hf; try (eexists; reflexivity); try (eexists; split; [reflexivity|simpl; lia]); try lia.
  cbn [any_suffix]. destruct (Ht (d :: s)) as [b ->]. cbn [res_bind]. destruct b; [by eexists|]. apply IH. pose proof (nextChar_length d s) as H. simpl in H. lia.
Qed.

Lemma iterativeLike_total fuel s p escape : (length p ≤ fuel)%nat → is_ok (iterativeLike fuel s p escape).
Proof.
  revert s p. induction fuel as [|fuel IH]; intros s [|c p] Hf; simpl in Hf.
  all: try (destruct s; by eexists).
  all: destruct s as [|d s]; [destruct (strip_total (length (c :: p)) (c :: p) ltac:(lia)) as [p' E]; unfold iterativeLike; rewrite E; by eexists|].
  { lia. }
  cbn [iterativeLike]. pose proof (nextChar_length c p) as Hn. simpl in Hn. destruct (decide (c = escape)).
  - destruct (nextChar (c :: p)) as [|c2 p2] eqn:E; [by eexists|]. case_decide; [|by eexists]. apply IH. pose proof (nextChar_length c2 p2) as H2. simpl in *. lia.
  - destruct (decide (c = percent)).
    + destruct (wildcards_total (length (nextChar (c :: p))) (d :: s) (nextChar (c :: p)) ltac:(lia)) as (r & -> & Hr). cbn [res_bind].
      destruct r as [[s' [|c2 p2]]|]; [by eexists| |by eexists]. set (p3 := if decide (c2 = escape) then _ else _).
      assert (length p3 ≤ fuel)%nat as H3 by (unfold p3; pose proof (nextChar_length c2 p2) as H2; case_decide; simpl in *; lia).
      destruct p3 as [|c4 p4]; [by eexists|]. apply suffixes_total; [lia|]. intros s2. by apply IH.
    + destruct (decide (c = underscore)); [apply IH; lia|]. case_decide; [apply IH; lia|by eexists].
Qed.

(** ** Claims *)

(** C18. LIKE on a text of valid UTF-8 and a pattern of ASCII characters ends with
    the answer of SQL: [%] stands for any characters, [_] for one character
    (not byte), every other character and every escaped one for itself; a
    pattern that ends in an escape accepts nothing.  The pattern must be [safe]:
    no escaped [%], [_] or backslash comes behind a [%], neither directly nor
    with only further [%] and [_] between. *)
Theorem like_correct (pattern : bytes) (text : list char) :
  Forall ascii pattern → Forall utf8_char text → safe false pattern →
  ∃ b, like (encode text) pattern = Ok b ∧ (b = true ↔ Accepts pattern text).
Proof. intros Ha Hu Hs. apply iterativeLike_ok; try done. lia. Qed.

(** LIKE ends on all byte sequences. *)
Theorem like_terminates (text pattern : bytes) : is_ok (like text pattern).
Proof. apply iterativeLike_total. lia. Qed.

(** An escaped [%] behind a [%] is a wildcard again: the pattern [%\%], for the
    texts that end in a percent sign, accepts every text that is not empty. *)
Theorem like_escape_after_percent (x : char) (text : list char) : Forall wf_char (x :: text) →
  like (encode (x :: text)) [percent; backslash; percent] = Ok true ∧
  (Accepts [percent; backslash; percent] (x :: text) ↔ last (x :: text) = Some (mkChar percent [])).
Proof.
  intros Hw. split.
  - unfold like. rewrite encode_cons. reflexivity.
  - rewrite accepts_any. split.
    + intros (l & cs' & -> & H). apply accepts_escaped in H as (cs'' & -> & ->%accepts_nil). by rewrite last_snoc.
    + intros [l ->]%last_Some. exists l, [mkChar percent []]. split; [done|]. apply accepts_escaped. exists []. split; [done|]. by apply accepts_nil.
Qed.

(** Characters of several bytes are compared by their first byte only: a
    pattern of one such character accepts every character that starts alike. *)
Theorem like_compares_first_bytes (x y : char) : wf_char x → wf_char y → ¬ special (lead x) → lead x = lead y →
  like (encode_char x) (encode_char y) = Ok true.
Proof.
  assert (∀ b l, wf_char (mkChar b l) → nextChar (b :: l) = []) as Hn.
  { intros b l Hc. pose proof (nextChar_encode (mkChar b l) [] Hc ltac:(constructor)) as H. by rewrite encode_cons, app_nil_r in H. }
  destruct x as [b l], y as [b' l']. unfold encode_char. simpl. intros Hx Hy Hs <-. unfold like. cbn [iterativeLike].
  rewrite (Hn b l Hx), (Hn b l' Hy). unfold special in Hs. rewrite !decide_False by tauto. rewrite decide_True by done. done.
Qed.

(** ** Witnesses *)

Definition e_acute : char := mkChar (byte_of_Z 195) [byte_of_Z 169].
Definition e_grave : char := mkChar (byte_of_Z 195) [byte_of_Z 168].
Definition ascii_char (b : byte) : char := mkChar b [].

(** One [_] for the two bytes of an accented letter. *)
Lemma like_correct_witness :
  ∃ b, like (encode [ascii_char "c"; e_acute; ascii_char "%"]%byte) ["c"; "_"; "\"; "%"]%byte = Ok b ∧
    (b = true ↔ Accepts ["c"; "_"; "\"; "%"]%byte [ascii_char "c"; e_acute; ascii_char "%"]%byte).
Proof.
  apply (like_correct ["c"; "_"; "\"; "%"]%byte [ascii_char "c"; e_acute; ascii_char "%"]%byte).
  - repeat constructor.
  - repeat constructor; intros H; vm_compute in H; discriminate H.
  - split; [intros [? _]; done|done].
Defined.

Lemma like_escape_after_percent_witness :
  like (encode [ascii_char "a"]%byte) [percent; backslash; percent] = Ok true.
Proof. apply (like_escape_after_percent (ascii_char "a"%byte) []). repeat constructor. Defined.

Lemma like_compares_first_bytes_witness : like (encode_char e_acute) (encode_char e_grave) = Ok true.
Proof. apply (like_compares_first_bytes e_acute e_grave); [repeat constructor|repeat constructor| |done]. unfold special. by intros [?|[?|?]]. Defined.
