(* ===== verification/StringFuncs.v ===== *)
(** * String functions

    Model of the functions of src/runtime/StringRuntime.cpp on the texts of
    their arguments ([VarLen32] itself is in [Helpers]): characters and
    substrings, searching, replacing, splitting, and code points. *)

From S2P Require Import Prelude Bytes Utf8 Like.
From Stdlib Require Import Strings.Byte.
#[local] Open Scope Z_scope.

#[local] Abbreviation len_of s := (Z.of_nat (length s)).

(** ** Characters *)

(** [StringRuntime::len], on 32 bits. *)
Definition len (s : bytes) : Z :=
  foldl (λ charLen b, u32 (charLen - (if isContinuation b then 1 else 0))) (u32 (len_of s)) s.

(** [StringRuntime::nextChar] with the position after [position]. *)
Fixpoint skip_from (l : bytes) (position : Z) : Z :=
  match l with
  | b :: l => if isContinuation b then skip_from l (position + 1) else position
  | [] => position
  end.
Definition nextCharAt (s : bytes) (position : Z) : Z := skip_from (drop (Z.to_nat (position + 1)) s) (position + 1).

(** The loop of [charIndexToByteIndex] over the bytes from [knownByteIndex]. *)
Fixpoint char_index (l : bytes) (charIndex knownByteIndex knownCharIndex : Z) : Z :=
  match l with
  | [] => knownByteIndex
  | b :: l =>
      if isContinuation b then char_index l charIndex (knownByteIndex + 1) knownCharIndex
      else if knownCharIndex =? charIndex then knownByteIndex
      else char_index l charIndex (knownByteIndex + 1) (knownCharIndex + 1)
  end.
Definition charIndexToByteIndex (s : bytes) (charIndex knownByteIndex knownCharIndex : Z) : Z :=
  char_index (drop (Z.to_nat knownByteIndex) s) charIndex knownByteIndex knownCharIndex.

(** [std::string::substr] throws when [pos] lies behind the text. *)
Definition std_substr (s : bytes) (pos n : Z) : res bytes :=
  if len_of s <? pos then Fault (Thrown "basic_string::substr") else Ok (take (Z.to_nat n) (drop (Z.to_nat pos) s)).

(** [from + legalizedLength] is a signed addition: out of range it is
    undefined. *)
Definition substr (s : bytes) (from len : Z) : res bytes :=
  let legalizedLength := Z.max 0 len in
  let legalizedFrom := Z.max from 1 in
  let* _ := assert_ (from + legalizedLength <? 2 ^ 63) in
  let legalizedTo := Z.max (from + legalizedLength) legalizedFrom in
  let legalizedFrom := legalizedFrom - 1 in
  let legalizedTo := legalizedTo - 1 in
  let byteFrom := charIndexToByteIndex s legalizedFrom 0 0 in
  let byteTo := charIndexToByteIndex s legalizedTo byteFrom legalizedFrom in
  std_substr s byteFrom (byteTo - byteFrom).

(** ** Searching *)

(** [std::string_view::starts_with]. *)
Fixpoint is_prefix (p s : bytes) : bool :=
  match p, s with
  | [], _ => true
  | a :: p, b :: s => bool_decide (a = b) && is_prefix p s
  | _ :: _, [] => false
  end.

(** [std::string::find]; [None] is npos. *)
Fixpoint find_at (s sub : bytes) (i : Z) : option Z :=
  if is_prefix sub s then Some i
  else match s with [] => None | _ :: s => find_at s sub (i + 1) end.
Definition std_find (s sub : bytes) (pos : Z) : option Z :=
  if len_of s <? pos then None else find_at (drop (Z.to_nat pos) s) sub pos.

(** [std::string::rfind]: the last occurrence that starts at [pos] or before. *)
Fixpoint rfind_down (s sub : bytes) (i : nat) : option Z :=
  if is_prefix sub (drop i s) then Some (Z.of_nat i)
  else match i with O => None | S i => rfind_down s sub i end.
Definition std_rfind (s sub : bytes) (pos : Z) : option Z :=
  if len_of s <? len_of sub then None
  else rfind_down s sub (Z.to_nat (Z.min pos (len_of s - len_of sub))).

Definition startsWith (s sub : bytes) : bool := if len_of s <? len_of sub then false else is_prefix sub s.
Definition endsWith (s sub : bytes) : bool :=
  if len_of s <? len_of sub then false else bool_decide (drop (length s - length sub) s = sub).
Definition str_contains (s sub : bytes) : bool :=
  if len_of s <? len_of sub then false else bool_decide (is_Some (std_find s sub 0)).

Definition invalidPos : Z := 2 ^ 63.
Definition findMatch (s needle : bytes) (start end_ : Z) : Z :=
  if invalidPos <=? start then invalidPos
  else if end_ <? u64 (start + len_of needle) then invalidPos
  else
    match std_find s needle start with
    | None => invalidPos
    | Some found => if end_ <? found + len_of needle then invalidPos else found + len_of needle
    end.
Definition findNext (s needle : bytes) (start : Z) : Z :=
  if invalidPos <=? start then invalidPos
  else match std_find s needle start with None => invalidPos | Some found => found end.

(** [pyFind] and [pyRFind], through the helpers [find] and [rfind]. *)
Definition find (s sub : bytes) (start end_ : Z) : Z :=
  match std_find s sub (u64 start) with
  | None => -1
  | Some pos => if u64 end_ <? pos + len_of sub then -1 else pos
  end.
Definition rfind (s sub : bytes) (start end_ : Z) : Z :=
  let end_ := i64 (end_ - len_of sub) in
  let end_ := if end_ <? 0 then 0 else end_ in
  match std_rfind s sub end_ with
  | None => -1
  | Some pos => if pos <? u64 start then -1 else pos
  end.

(** ** Replacing and splitting *)

(** [replace]: the search starts over in the changed text. *)
Fixpoint replace (fuel : nat) (output oldVal newVal : bytes) : res bytes :=
  match std_find output oldVal 0 with
  | None => Ok output
  | Some pos =>
      match fuel with
      | O => Fault OutOfFuel
      | S fuel => replace fuel (take (Z.to_nat pos) output ++ newVal ++ drop (Z.to_nat pos + length oldVal) output) oldVal newVal
      end
  end.

(** The loop of [split]; the list of the parts found so far is the result. *)
Fixpoint split_loop (fuel : nat) (s needle : bytes) (maxSplits start end_ splits : Z) : res (list bytes) :=
  if end_ <? len_of s then
    match fuel with
    | O => Fault OutOfFuel
    | S fuel =>
        let end_ := find s needle start (len_of s) in
        let end_ := if end_ =? -1 then len_of s else end_ in
        let end_ := if maxSplits <=? splits then len_of s else end_ in
        let part := take (Z.to_nat (end_ - start)) (drop (Z.to_nat start) s) in
        let* parts := split_loop fuel s needle maxSplits (end_ + len_of needle) end_ (splits + 1) in
        Ok (part :: parts)
    end
  else Ok [].
Definition split (s needle : bytes) (maxSplits : Z) : res (list bytes) :=
  if len_of needle =? 0 then Fault (Thrown "Cannot split by empty string")
  else split_loop (S (length s)) s needle maxSplits 0 0 0.

Definition concat2 (a b : bytes) : bytes := a ++ b.

(** ** Code points *)

(** [static_cast<int32_t>(data[i])]: [char] is signed. *)
Definition signed (b : byte) : Z := if byte_val b <? 128 then byte_val b else byte_val b - 256.

Definition ord (s : bytes) : res Z :=
  match s with
  | [] => Fault (Thrown "Cannot get ord of empty string")
  | [a] => Ok (signed a)
  | [a; b] => Ok (Z.lor (Z.shiftl (Z.land (signed a) 0x1F) 6) (Z.land (signed b) 0x3F))
  | [a; b; c] =>
      Ok (Z.lor (Z.lor (Z.shiftl (Z.land (signed a) 0x0F) 12) (Z.shiftl (Z.land (signed b) 0x3F) 6)) (Z.land (signed c) 0x3F))
  | [a; b; c; d] =>
      Ok (Z.lor (Z.lor (Z.lor (Z.shiftl (Z.land (signed a) 0x07) 18) (Z.shiftl (Z.land (signed b) 0x3F) 12)) (Z.shiftl (Z.land (signed c) 0x3F) 6)) (Z.land (signed d) 0x3F))
  | _ => Fault (Thrown "Cannot get ord of string")
  end.

(** A character packed into 32 bits. *)
Definition fromChar (val : Z) : bytes :=
  let n := if Z.land val (2 ^ 7) =? 0 then 1%nat else if Z.land val (2 ^ 5) =? 0 then 2%nat else if Z.land val (2 ^ 4) =? 0 then 3%nat else 4%nat in
  take n (le_bytes 4 val).
Definition toChar (s : bytes) : res Z :=
  let* _ := assert_ (len_of s <=? 4) in Ok (le_val s).

(** ** String functions do what SQL and Python say *)


(** ** Characters *)

Lemma len_fold cs n : Forall wf_char cs → len_of cs ≤ n - len_of (encode cs) + len_of cs → n < 2 ^ 32 →
  foldl (λ charLen b, u32 (charLen - (if isContinuation b then 1 else 0))) n (encode cs) = n - len_of (encode cs) + len_of cs.
Proof.
  revert n. induction cs as [|c cs IH]; intros n Hw Hn Hn2; [simpl; lia|]. apply Forall_cons in Hw as [[Hl Hr] Hw].
  rewrite encode_cons in *. simpl foldl. simpl length in *. rewrite length_app in *. rewrite Hl, foldl_app.
  assert (∀ l n, Forall (λ b, isContinuation b = true) l → len_of l ≤ n < 2 ^ 32 →
    foldl (λ charLen b, u32 (charLen - (if isContinuation b then 1 else 0))) n l = n - len_of l) as Hcont.
  { clear. induction l as [|b l IH]; intros n Hl Hn; [simpl; lia|]. apply Forall_cons in Hl as [Hb Hl]. simpl in *. rewrite Hb.
    assert (u32 (n - 1) = n - 1) as -> by (apply wrap_u_id; unfold in_u; lia). rewrite IH by (done || lia). lia. }
  assert (u32 (n - 0) = n) as -> by (rewrite Z.sub_0_r; apply wrap_u_id; unfold in_u; lia). rewrite (Hcont (rest c) n) by (done || lia). rewrite IH by (done || lia). lia.
Qed.

(** The index of a character among the bytes. *)
Definition byte_index (cs : list char) (i : nat) : Z := len_of (encode (take i cs)).

Lemma char_index_conts l1 l2 ci bi ki : Forall (λ b, isContinuation b = true) l1 → char_index (l1 ++ l2) ci bi ki = char_index l2 ci (bi + len_of l1) ki.
Proof. intros H. revert bi. induction H as [|b l1 Hb _ IH]; intros bi; [simpl; f_equal; lia|]. simpl app. cbn [char_index]. rewrite Hb, IH. f_equal. simpl. lia. Qed.

Lemma char_index_ok cs (i : nat) bi ki : Forall wf_char cs → char_index (encode cs) (ki + Z.of_nat i) bi ki = bi + byte_index cs i.
Proof.
  intros Hw. revert i bi ki. induction Hw as [|c cs [Hl Hr] Hw IH]; intros i bi ki; [unfold byte_index; rewrite take_nil; simpl; lia|].
  rewrite encode_cons. cbn [char_index]. rewrite Hl. destruct i as [|i].
  - rewrite (proj2 (Z.eqb_eq _ _)) by lia. unfold byte_index. simpl. lia.
  - rewrite (proj2 (Z.eqb_neq _ _)) by lia. rewrite char_index_conts by done. replace (ki + Z.of_nat (S i)) with (ki + 1 + Z.of_nat i) by lia.
    rewrite IH. unfold byte_index. simpl take. rewrite encode_cons. simpl length. rewrite length_app. lia.
Qed.

Lemma charIndex_ok cs (i : nat) : Forall wf_char cs → charIndexToByteIndex (encode cs) (Z.of_nat i) 0 0 = byte_index cs i.
Proof. intros Hw. unfold charIndexToByteIndex. rewrite drop_0. pose proof (char_index_ok cs i 0 0 Hw) as H. by rewrite !Z.add_0_l in H. Qed.

Lemma drop_encode cs i : drop (Z.to_nat (byte_index cs i)) (encode cs) = encode (drop i cs).
Proof.
  unfold byte_index. rewrite Nat2Z.id. rewrite <- (take_drop i cs) at 2. by rewrite encode_app, drop_app_length.
Qed.

Lemma charIndex_from cs (i j : nat) : Forall wf_char cs → (i ≤ j)%nat →
  charIndexToByteIndex (encode cs) (Z.of_nat j) (byte_index cs i) (Z.of_nat i) = byte_index cs j.
Proof.
  intros Hw Hij. unfold charIndexToByteIndex. rewrite drop_encode. replace (Z.of_nat j) with (Z.of_nat i + Z.of_nat (j - i)) by lia.
  rewrite char_index_ok by (by apply Forall_drop). unfold byte_index. rewrite take_drop_commute. replace (i + (j - i))%nat with j by lia.
  assert (take j cs = take i cs ++ drop i (take j cs)) as E by (rewrite <- (take_drop i (take j cs)) at 1; f_equal; rewrite take_take; f_equal; lia).
  rewrite E at 2. rewrite encode_app, length_app. lia.
Qed.

(** ** Claims: characters *)

(** [len] counts characters. *)
Theorem len_counts_chars (cs : list char) : Forall wf_char cs → len_of (encode cs) < 2 ^ 32 → len (encode cs) = len_of cs.
Proof.
  intros Hw Hl. unfold len. assert (u32 (len_of (encode cs)) = len_of (encode cs)) as -> by (apply wrap_u_id; unfold in_u; lia).
  rewrite len_fold by (done || lia). lia.
Qed.

(** [substr] by characters, as in SQL: the characters at the positions from
    [from] (counted from 1) up to, not including, [from + len]; positions
    before the text count.  It never fails and cuts no character. *)
Theorem substr_correct (cs : list char) (from len : Z) :
  Forall wf_char cs → - 2 ^ 63 ≤ from → from + Z.max 0 len < 2 ^ 63 →
  substr (encode cs) from len =
    Ok (encode (take (Z.to_nat (Z.max (from + Z.max 0 len) (Z.max from 1) - Z.max from 1)) (drop (Z.to_nat (Z.max from 1 - 1)) cs))).
Proof.
  intros Hw Hf Ht. unfold substr. rewrite (proj2 (Z.ltb_lt _ _) Ht). cbn [assert_ res_bind].
  set (F := Z.max from 1). set (T := Z.max (from + Z.max 0 len) F). assert (1 ≤ F ≤ T) as HFT by lia.
  rewrite <- (Z2Nat.id (F - 1)) at 1 2 3 4 5 by lia. rewrite <- (Z2Nat.id (T - 1)) by lia. set (i := Z.to_nat (F - 1)). set (j := Z.to_nat (T - 1)).
  rewrite charIndex_ok, charIndex_from by (done || lia). unfold std_substr.
  assert (∀ a b, (a ≤ b)%nat → encode (take b cs) = encode (take a cs) ++ encode (take (b - a) (drop a cs))) as Hsplit.
  { intros a b Hab. rewrite <- encode_app. f_equal. rewrite <- (take_drop a (take b cs)). f_equal; [rewrite take_take; f_equal; lia|]. rewrite take_drop_commute. f_equal. f_equal. lia. }
  rewrite (proj2 (Z.ltb_ge _ _)).
  2:{ pose proof (f_equal length (encode_app (take i cs) (drop i cs))) as E. rewrite take_drop, length_app in E. unfold byte_index. lia. }
  rewrite drop_encode. f_equal. unfold byte_index. rewrite (Hsplit i j) by lia. rewrite length_app.
  replace (Z.to_nat (T - F)) with (j - i)%nat by lia. assert (encode (drop i cs) = encode (take (j - i) (drop i cs)) ++ encode (drop (j - i) (drop i cs))) as -> by (by rewrite <- encode_app, take_drop).
  rewrite Nat2Z.id. replace (Z.to_nat _) with (length (encode (take (j - i) (drop i cs)))) by lia. by rewrite take_app_length.
Qed.

(** ** Searching *)

(** [sub] stands at [i] in [s]. *)
Definition occurs (s sub : bytes) (i : Z) : Prop := ∃ l r, s = l ++ sub ++ r ∧ len_of l = i.

Lemma occurs_bound s sub i : occurs s sub i → 0 ≤ i ∧ i + len_of sub ≤ len_of s.
Proof. intros (l & r & -> & <-). rewrite !length_app. lia. Qed.

Lemma is_prefix_spec p s : is_prefix p s = true ↔ ∃ r, s = p ++ r.
Proof.
  revert s. induction p as [|a p IH]; intros [|b s]; simpl; try (split; [by eexists|done]).
  - split; [done|by intros [r ?]].
  - rewrite andb_true_iff, bool_decide_eq_true, IH. split; [intros [-> [r ->]]; by exists r|intros [r [= -> ->]]; split; [done|by exists r]].
Qed.

Lemma find_at_spec s sub i :
  match find_at s sub i with
  | Some k => i ≤ k ∧ occurs s sub (k - i) ∧ ∀ j, i ≤ j < k → ¬ occurs s sub (j - i)
  | None => ∀ j, ¬ occurs s sub j
  end.
Proof.
  revert i. induction s as [|b s IH]; intros i; cbn [find_at]; destruct (is_prefix sub _) eqn:E.
  1, 3: apply is_prefix_spec in E as [r Hr]; split_and!; [lia|exists [], r; split; [done|simpl; lia]|lia].
  - intros j (l & r & Hr & _). apply not_true_iff_false in E. apply E, is_prefix_spec. destruct l; [by exists r|done].
  - assert (∀ j, occurs (b :: s) sub j → ∃ j', j = j' + 1 ∧ occurs s sub j') as Hstep.
    { intros j (l & r & Hr & Hl). destruct l as [|b' l]; [exfalso; apply not_true_iff_false in E; apply E, is_prefix_spec; by exists r|].
      simplify_eq/=. eexists. split; [|by exists l, r]. lia. }
    specialize (IH (i + 1)). destruct (find_at s sub (i + 1)) as [k|].
    + destruct IH as (H1 & (l & r & -> & Hl) & H3). split_and!; [lia|exists (b :: l), r; split; [done|simpl; lia]|].
      intros j Hj (j' & Ej & Ho)%Hstep. pose proof (proj1 (occurs_bound _ _ _ Ho)). apply (H3 (j' + i + 1)); [lia|]. by replace (j' + i + 1 - (i + 1)) with j' by lia.
    + intros j (j' & _ & Ho)%Hstep. by apply (IH j').
Qed.

Lemma occurs_drop s sub i n : 0 ≤ n → occurs (drop (Z.to_nat n) s) sub i ↔ occurs s sub (n + i) ∧ 0 ≤ i ∧ n ≤ len_of s ∨ len_of s < n ∧ sub = [] ∧ i = 0.
Proof.
  intros Hn. split.
  - intros (l & r & E & Hl). destruct (Z.le_gt_cases n (len_of s)) as [Hle|Hgt].
    + left. split_and!; [|lia|done]. exists (take (Z.to_nat n) s ++ l), r. split; [by rewrite <- app_assoc, <- E, take_drop|]. rewrite length_app, length_take. lia.
    + right. rewrite drop_ge in E by lia. symmetry in E. apply app_eq_nil in E as [-> [-> ->]%app_eq_nil]. simpl in Hl. done.
  - intros [((l & r & -> & Hl) & Hi & Hle)|(Hgt & -> & ->)].
    + exists (drop (Z.to_nat n) l), r. rewrite length_drop. split; [|lia]. rewrite drop_app_le by lia. done.
    + exists [], []. rewrite drop_ge by lia. done.
Qed.

(** [std::string::find]: the first occurrence at or behind [pos]. *)
Lemma std_find_spec s sub pos : 0 ≤ pos →
  match std_find s sub pos with
  | Some k => pos ≤ k ∧ occurs s sub k ∧ ∀ j, pos ≤ j < k → ¬ occurs s sub j
  | None => ∀ j, pos ≤ j → ¬ occurs s sub j
  end.
Proof.
  intros Hp. unfold std_find. destruct (Z.ltb_spec (len_of s) pos) as [Hlt|Hge].
  - intros j Hj (l & r & -> & Hl). rewrite length_app in Hlt. lia.
  - pose proof (find_at_spec (drop (Z.to_nat pos) s) sub pos) as H. destruct (find_at _ _ _) as [k|].
    + destruct H as (H1 & H2 & H3). apply occurs_drop in H2 as [[H2 _]|[? _]]; [|lia|lia]. split_and!; [done|by replace (pos + (k - pos)) with k in H2 by lia|].
      intros j Hj Ho. apply (H3 j Hj). apply occurs_drop; [done|]. left. split_and!; [by replace (pos + (j - pos)) with j by lia|lia|done].
    + intros j Hj Ho. apply (H (j - pos)). apply occurs_drop; [done|]. left. split_and!; [by replace (pos + (j - pos)) with j by lia|lia|done].
Qed.

(** ** Claims: searching *)

(** [findMatch], with which the compiled code runs the constant parts of a
    LIKE pattern: the end of the first occurrence of the needle that starts at
    [start] or behind it, if it ends at [end_] or before; the invalid position
    otherwise, also when [start] is already invalid. *)
Theorem findMatch_correct (s needle : bytes) (start end_ : Z) :
  0 ≤ start < 2 ^ 64 → 0 ≤ end_ ≤ len_of s → len_of s < 2 ^ 32 → len_of needle < 2 ^ 32 →
  (invalidPos ≤ start → findMatch s needle start end_ = invalidPos) ∧
  (start < invalidPos → findMatch s needle start end_ = invalidPos → ∀ i, start ≤ i → i + len_of needle ≤ end_ → ¬ occurs s needle i) ∧
  (start < invalidPos → findMatch s needle start end_ ≠ invalidPos →
    ∃ i, findMatch s needle start end_ = i + len_of needle ∧ start ≤ i ∧ i + len_of needle ≤ end_ ∧ occurs s needle i ∧
      ∀ j, start ≤ j < i → ¬ occurs s needle j).
Proof.
  intros Hs He Hls Hln. unfold findMatch. split; [intros H; by rewrite (proj2 (Z.leb_le _ _) H)|]. unfold invalidPos in *.
  assert (∀ P : Prop, (2 ^ 63 ≤ start → P) → (start < 2 ^ 63 → P) → P) as Hcase by (intros P H1 H2; destruct (Z.le_gt_cases (2 ^ 63) start); auto).
  apply Hcase; [lia|]. intros Hlt. rewrite (proj2 (Z.leb_gt _ _) Hlt).
  assert (u64 (start + len_of needle) = start + len_of needle) as -> by (apply wrap_u_id; unfold in_u; lia).
  destruct (Z.ltb_spec end_ (start + len_of needle)) as [Hend|Hend]; [split; [intros _ _ i Hi Hi2; lia|done]|].
  pose proof (std_find_spec s needle start ltac:(lia)) as Hf. destruct (std_find s needle start) as [k|].
  - destruct Hf as (H1 & H2 & H3). destruct (Z.ltb_spec end_ (k + len_of needle)) as [Hk|Hk].
    + split; [|done]. intros _ _ i Hi Hie Ho. destruct (Z.lt_ge_cases i k); [by apply (H3 i)|lia].
    + split; [intros _ E; apply occurs_bound in H2; lia|]. intros _ _. exists k. done.
  - split; [|done]. intros _ _ i Hi _. by apply Hf.
Qed.

(** [pyRFind] with an end before the needle fits: a text that starts with the
    needle is said to contain it at 0, although the occurrence reaches behind
    the end. *)
Theorem rfind_beyond_end (sub r : bytes) (end_ : Z) : len_of sub < 2 ^ 32 → 0 ≤ end_ < len_of sub → rfind (sub ++ r) sub 0 end_ = 0.
Proof.
  intros Hl He. unfold rfind. assert (i64 (end_ - len_of sub) = end_ - len_of sub) as -> by (apply wrap_s_id; [lia|unfold in_s; lia]).
  rewrite (proj2 (Z.ltb_lt _ _)) by lia. unfold std_rfind. rewrite (proj2 (Z.ltb_ge _ _)) by (rewrite length_app; lia).
  rewrite Z.min_l by (rewrite length_app; lia). change (rfind_down (sub ++ r) sub (Z.to_nat 0)) with (if is_prefix sub (sub ++ r) then Some 0 else None).
  rewrite (proj2 (is_prefix_spec sub (sub ++ r))) by eauto. done.
Qed.

(** ** Replacing *)

Lemma occurs_replaced s sub new pos : occurs s sub pos → ∃ l r, s = l ++ sub ++ r ∧
  take (Z.to_nat pos) s ++ new ++ drop (Z.to_nat pos + length sub) s = l ++ new ++ r.
Proof.
  intros (l & r & -> & <-). exists l, r. split; [done|]. rewrite Nat2Z.id, take_app_length. do 2 f_equal.
  rewrite app_assoc, <- length_app. by rewrite drop_app_length.
Qed.

(** Replacing a text by one that contains it never ends, as the search starts
    over in the result. *)
Theorem replace_diverges (s oldVal newVal : bytes) (fuel : nat) :
  (∃ i, occurs s oldVal i) → (∃ i, occurs newVal oldVal i) → replace fuel s oldVal newVal = Fault OutOfFuel.
Proof.
  intros Hs Hn. revert s Hs. induction fuel as [|fuel IH]; intros s [i Hi]; cbn [replace];
    pose proof (std_find_spec s oldVal 0 ltac:(lia)) as Hf; (destruct (std_find s oldVal 0) as [k|]; [|by destruct (Hf i); [apply occurs_bound in Hi as [? _]|]]); [done|].
  destruct Hf as (_ & Hk & _). apply IH. destruct (occurs_replaced s oldVal newVal k Hk) as (l & r & _ & ->). destruct Hn as (j & l2 & r2 & -> & _).
  exists (len_of (l ++ l2)), (l ++ l2), (r2 ++ r). split; [|done]. by rewrite <- !app_assoc.
Qed.

(** Replacing by a shorter text ends, and the result does not contain the old
    text any more. *)
Theorem replace_shrinking (s oldVal newVal : bytes) :
  (length newVal < length oldVal)%nat →
  ∃ r, replace (length s) s oldVal newVal = Ok r ∧ (∀ i, ¬ occurs r oldVal i) ∧ (length r ≤ length s)%nat ∧
    ((∀ i, ¬ occurs s oldVal i) → r = s).
Proof.
  intros Hlen. enough (∀ fuel s, (length s ≤ fuel)%nat → ∃ r, replace fuel s oldVal newVal = Ok r ∧ (∀ i, ¬ occurs r oldVal i) ∧ (length r ≤ length s)%nat ∧
    ((∀ i, ¬ occurs s oldVal i) → r = s)) as H by (by apply H).
  clear s. induction fuel as [|fuel IH]; intros s Hs; cbn [replace]; pose proof (std_find_spec s oldVal 0 ltac:(lia)) as Hf.
  all: destruct (std_find s oldVal 0) as [k|]; [|exists s; split_and!; try done; intros i Hi; apply (Hf i); [by apply occurs_bound in Hi as [? _]|done]].
  all: destruct Hf as (_ & Hk & _).
  - apply occurs_bound in Hk. lia.
  - destruct (occurs_replaced s oldVal newVal k Hk) as (l & r & E & ->). rewrite E, !length_app in Hs.
    destruct (IH (l ++ newVal ++ r)) as (x & Ex & H1 & H2 & _); [rewrite !length_app; lia|]. exists x. split_and!; [done|done| |].
    + rewrite E. rewrite !length_app in *. lia.
    + intros Hno. by destruct (Hno k).
Qed.

(** ** Splitting *)

Fixpoint join (sep : bytes) (parts : list bytes) : bytes :=
  match parts with
  | [] => []
  | [p] => p
  | p :: parts => p ++ sep ++ join sep parts
  end.

(** The part before a separator has none. *)
Definition separated (needle : bytes) (full : bool) (parts : list bytes) : Prop :=
  ∀ l p, parts = l ++ [p] → Forall (λ q, ∀ i, ¬ occurs q needle i) l ∧ (full = true → ∀ i, ¬ occurs p needle i).

Lemma find_in s needle start : 0 ≤ start ≤ len_of s → len_of s < 2 ^ 32 →
  find s needle start (len_of s) = match std_find s needle start with Some k => k | None => -1 end.
Proof.
  intros Hs Hl. unfold find. assert (u64 start = start) as -> by (apply wrap_u_id; unfold in_u; lia).
  assert (u64 (len_of s) = len_of s) as -> by (apply wrap_u_id; unfold in_u; lia).
  pose proof (std_find_spec s needle start ltac:(lia)) as H. destruct (std_find s needle start) as [k|]; [|done].
  destruct H as (_ & Hk%occurs_bound & _). by rewrite (proj2 (Z.ltb_ge _ _)) by lia.
Qed.

Lemma occurs_slice s sub a b i : 0 ≤ a ≤ b → b ≤ len_of s → occurs (take (Z.to_nat (b - a)) (drop (Z.to_nat a) s)) sub i →
  occurs s sub (a + i) ∧ a + i + len_of sub ≤ b.
Proof.
  intros Ha Hb (l & r & E & Hl). split.
  - exists (take (Z.to_nat a) s ++ l), (r ++ drop (Z.to_nat (b - a)) (drop (Z.to_nat a) s)). split.
    + rewrite <- (take_drop (Z.to_nat a) s) at 1. rewrite <- (take_drop (Z.to_nat (b - a)) (drop (Z.to_nat a) s)) at 1. rewrite E. by rewrite <- !app_assoc.
    + rewrite length_app, length_take. lia.
  - apply (f_equal length) in E. rewrite length_take, length_drop, !length_app in E. lia.
Qed.

Lemma split_loop_ok s needle m fuel start end_ k :
  needle ≠ [] → len_of s < 2 ^ 32 → 0 ≤ start ≤ len_of s → end_ < len_of s → len_of s - start < Z.of_nat fuel →
  ∃ parts, split_loop fuel s needle m start end_ k = Ok parts ∧ parts ≠ [] ∧ join needle parts = drop (Z.to_nat start) s ∧
    (k ≤ m → k + len_of parts ≤ m + 1) ∧ separated needle (bool_decide (k + len_of parts < m + 1)) parts.
Proof.
  intros Hne Hls. assert (0 < len_of needle) as Hn by (destruct needle; [done|simpl; lia]).
  revert start end_ k. induction fuel as [|fuel IH]; intros start end_ k Hs He Hf; [lia|]. cbn [split_loop]. rewrite (proj2 (Z.ltb_lt _ _) He).
  rewrite find_in by done. pose proof (std_find_spec s needle start ltac:(lia)) as Hfind.
  assert (∀ part, part = take (Z.to_nat (len_of s - start)) (drop (Z.to_nat start) s) → part = drop (Z.to_nat start) s) as Hlast.
  { intros part ->. apply take_ge. rewrite length_drop. lia. }
  assert (∀ e, len_of s ≤ e → ∀ a b, split_loop fuel s needle m a e b = Ok []) as Hend.
  { intros e Hle a b. destruct fuel; cbn [split_loop]; by rewrite (proj2 (Z.ltb_ge _ _)). }
  destruct (Z.leb_spec m k) as [Hm|Hm].
  - rewrite (Hend (len_of s)) by lia. cbn [res_bind].
    eexists. split; [done|]. split_and!; [done|by apply Hlast|simpl; lia|]. intros l p E. destruct l as [|? [|]]; simplify_eq. split; [constructor|].
    rewrite bool_decide_eq_true. simpl. lia.
  - destruct (std_find s needle start) as [pos|].
    + destruct Hfind as (H1 & Hocc & Hmin). pose proof (occurs_bound _ _ _ Hocc) as Hb. rewrite (proj2 (Z.eqb_neq pos (-1))) by lia.
      destruct (IH (pos + len_of needle) pos (k + 1)) as (parts & -> & Hp & Hj & Hk & Hsep); [lia..|]. cbn [res_bind]. eexists. split; [done|].
      set (part := take (Z.to_nat (pos - start)) (drop (Z.to_nat start) s)). split_and!; [done| | |].
      * destruct parts as [|q parts]; [done|]. change (join needle (part :: q :: parts)) with (part ++ needle ++ join needle (q :: parts)). rewrite Hj. unfold part.
        destruct Hocc as (l & r & -> & Hl). rewrite (drop_app_le l) by lia. rewrite take_app_length' by (rewrite length_drop; lia). do 1 f_equal.
        rewrite app_assoc, drop_app_length' by (rewrite length_app; lia). done.
      * intros _. simpl. lia.
      * intros l p E. destruct l as [|q l]; [injection E as _ ->; done|]. injection E as <- E. destruct (Hsep l p E) as [Hl2 Hlast2]. split.
        -- constructor; [|done]. intros i Hi. unfold part in Hi. destruct (occurs_slice s needle start pos i) as [Ho Hbd]; [lia|lia|done|].
           apply occurs_bound in Hi as [Hi0 _]. apply (Hmin (start + i)); [lia|done].
        -- intros Hb2. apply Hlast2. rewrite bool_decide_eq_true in *. simpl in Hb2. lia.
    + simpl Z.eqb. cbv iota. rewrite (Hend (len_of s)) by lia. cbn [res_bind]. eexists. split; [done|]. split_and!; [done|by apply Hlast|simpl; lia|].
      intros l p E. destruct l as [|? [|]]; simplify_eq. split; [constructor|]. intros _ i Hi. destruct (occurs_slice s needle start (len_of s) i) as [Ho _]; [lia|lia|by injection E as ->|].
      apply occurs_bound in Hi as [Hi _]. apply (Hfind (start + i)); [lia|done].
Qed.

(** [split] ends for every text and separator, and joining the parts with the
    separator gives the text back; there are at most [maxSplits + 1] parts, no
    part but the last contains the separator, and the last one only when all
    splits were used up.  The empty text has no part, an empty separator is an
    error. *)
Theorem split_join (s needle : bytes) (maxSplits : Z) : len_of s < 2 ^ 32 → 0 ≤ maxSplits →
  (needle = [] → split s needle maxSplits = Fault (Thrown "Cannot split by empty string")) ∧
  (needle ≠ [] → ∃ parts, split s needle maxSplits = Ok parts ∧ join needle parts = s ∧ len_of parts ≤ maxSplits + 1 ∧
    separated needle (bool_decide (len_of parts < maxSplits + 1)) parts ∧ (parts = [] ↔ s = [])).
Proof.
  intros Hl Hm. unfold split. split; [by intros ->|]. intros Hne. rewrite (proj2 (Z.eqb_neq _ _)) by (destruct needle; [done|simpl; lia]).
  destruct s as [|b s]; [exists []; split_and!; try done; [simpl; lia|intros l p E; by destruct l]|].
  destruct (split_loop_ok (b :: s) needle maxSplits (S (length (b :: s))) 0 0 0) as (parts & -> & Hp & Hj & Hk & Hs); [done|done|lia|simpl; lia|lia|].
  exists parts. split_and!; [done|done|lia|done|]. split; [done|]. by destruct parts.
Qed.

(** ** Code points *)

(** The UTF-8 encoding of a code point. *)
Definition utf8 (cp : Z) : bytes :=
  byte_of_Z <$>
    (if cp <? 0x80 then [cp]
     else if cp <? 0x800 then [0xC0 + cp / 64; 0x80 + cp mod 64]
     else if cp <? 0x10000 then [0xE0 + cp / 4096; 0x80 + cp / 64 mod 64; 0x80 + cp mod 64]
     else [0xF0 + cp / 262144; 0x80 + cp / 4096 mod 64; 0x80 + cp / 64 mod 64; 0x80 + cp mod 64]).

Lemma signed_land z k : 0 ≤ z < 256 → 0 ≤ k ≤ 7 → Z.land (signed (byte_of_Z z)) (2 ^ k - 1) = z mod 2 ^ k.
Proof.
  intros Hz Hk. rewrite land_ones_mod by lia. unfold signed. rewrite byte_val_of_Z, (Z.mod_small z 256) by lia.
  destruct (Z.ltb_spec z 128); [done|]. replace (z - 256) with (z + (- 2 ^ (8 - k)) * 2 ^ k); [by rewrite Z.mod_add by (apply Z.pow_nonzero; lia)|].
  rewrite Z.mul_opp_l, <- Z.pow_add_r by lia. replace (8 - k + k) with 8 by lia. lia.
Qed.

(** [ord] inverts the encoding of every code point. *)
Theorem ord_utf8 (cp : Z) : 0 ≤ cp < 0x110000 → ord (utf8 cp) = Ok cp.
Proof.
  intros Hcp. unfold utf8. destruct (Z.ltb_spec cp 0x80); [|destruct (Z.ltb_spec cp 0x800); [|destruct (Z.ltb_spec cp 0x10000)]];
    cbn [fmap list_fmap ord]; f_equal.
  - unfold signed. rewrite byte_val_of_Z, Z.mod_small by lia. by rewrite (proj2 (Z.ltb_lt _ _)) by lia.
  - change 0x1F with (2 ^ 5 - 1). change 0x3F with (2 ^ 6 - 1).
    rewrite !signed_land by (Z.to_euclidean_division_equations; lia). rewrite lor_shiftl_add by (lia || (apply Z.mod_pos_bound; lia)).
    change (2 ^ 5) with 32. change (2 ^ 6) with 64. Z.to_euclidean_division_equations. lia.
  - change 0x0F with (2 ^ 4 - 1). change 0x3F with (2 ^ 6 - 1).
    rewrite !signed_land by (Z.to_euclidean_division_equations; lia). rewrite <- (Z.shiftl_shiftl _ 6 6), <- Z.shiftl_lor by lia.
    rewrite !lor_shiftl_add by (lia || (apply Z.mod_pos_bound; lia)).
    change (2 ^ 4) with 16. change (2 ^ 6) with 64. Z.to_euclidean_division_equations. lia.
  - change 0x07 with (2 ^ 3 - 1). change 0x3F with (2 ^ 6 - 1).
    rewrite !signed_land by (Z.to_euclidean_division_equations; lia). rewrite <- (Z.shiftl_shiftl _ 6 6), <- (Z.shiftl_shiftl _ 12 6), <- (Z.shiftl_shiftl _ 6 6), <- !Z.shiftl_lor by lia.
    rewrite !lor_shiftl_add by (lia || (apply Z.mod_pos_bound; lia)).
    change (2 ^ 3) with 8. change (2 ^ 6) with 64. Z.to_euclidean_division_equations. lia.
Qed.

Lemma take_le_bytes_low n m z : take n (le_bytes (n + m) z) = le_bytes n z.
Proof. revert z. induction n as [|n IH]; intros z; [done|]. cbn [Nat.add le_bytes take]. by rewrite IH. Qed.

Lemma land_pow2 v k : 0 ≤ k → (Z.land v (2 ^ k) =? 0) = (v / 2 ^ k mod 2 =? 0).
Proof.
  intros Hk. rewrite <- Z.testbit_spec' by done. destruct (Z.testbit v k) eqn:E; simpl.
  - apply Z.eqb_neq. intros H. apply (f_equal (λ x, Z.testbit x k)) in H. rewrite Z.land_spec, E, Z.pow2_bits_true, Z.bits_0 in H by done. done.
  - apply Z.eqb_eq. apply Z.bits_inj'. intros n Hn. rewrite Z.land_spec, Z.bits_0. destruct (decide (n = k)) as [->|]; [by rewrite E|].
    rewrite Z.pow2_bits_false by done. apply andb_false_r.
Qed.

(** The number of bytes, from the first one. *)
Definition lead_length (b : Z) (n : nat) : Prop :=
  0 ≤ b < 128 ∧ n = 1%nat ∨ 192 ≤ b < 224 ∧ n = 2%nat ∨ 224 ≤ b < 240 ∧ n = 3%nat ∨ 240 ≤ b < 248 ∧ n = 4%nat.

Lemma low_bit b r k : 0 ≤ k < 8 → (b + 256 * r) / 2 ^ k mod 2 = b / 2 ^ k mod 2.
Proof.
  intros Hk. replace (256 * r) with (r * 2 ^ (7 - k) * 2 * 2 ^ k).
  - rewrite Z.div_add by (apply Z.pow_nonzero; lia). by rewrite Z.mod_add.
  - rewrite <- !Z.mul_assoc. rewrite <- (Z.pow_succ_r 2 k) by lia. rewrite <- Z.pow_add_r by lia. replace (7 - k + Z.succ k) with 8 by lia. lia.
Qed.

Lemma fromChar_lead b r n : lead_length b n → fromChar (b + 256 * r) = take n (le_bytes 4 (b + 256 * r)).
Proof.
  intros H. unfold fromChar. rewrite !land_pow2, !low_bit by lia. change (2 ^ 7) with 128. change (2 ^ 5) with 32. change (2 ^ 4) with 16.
  assert (b / 128 mod 2 = 0 ∧ n = 1%nat ∨ b / 128 mod 2 = 1 ∧ (b / 32 mod 2 = 0 ∧ n = 2%nat ∨ b / 32 mod 2 = 1 ∧ (b / 16 mod 2 = 0 ∧ n = 3%nat ∨ b / 16 mod 2 = 1 ∧ n = 4%nat))) as Hb.
  { destruct H as [[H ->]|[[H ->]|[[H ->]|[H ->]]]].
    - left. split; [|done]. Z.to_euclidean_division_equations. lia.
    - right. split; [Z.to_euclidean_division_equations; lia|]. left. split; [|done]. Z.to_euclidean_division_equations. lia.
    - right. split; [Z.to_euclidean_division_equations; lia|]. right. split; [Z.to_euclidean_division_equations; lia|]. left. split; [|done]. Z.to_euclidean_division_equations. lia.
    - right. split; [Z.to_euclidean_division_equations; lia|]. right. split; [Z.to_euclidean_division_equations; lia|]. right. split; [|done]. Z.to_euclidean_division_equations. lia. }
  destruct Hb as [[-> ->]|[-> [[-> ->]|[-> [[-> ->]|[-> ->]]]]]]; done.
Qed.

Lemma utf8_lead cp : 0 ≤ cp < 0x110000 → ∃ b l, utf8 cp = b :: l ∧ lead_length (byte_val b) (length (utf8 cp)).
Proof.
  intros Hcp. unfold utf8. destruct (Z.ltb_spec cp 0x80); [|destruct (Z.ltb_spec cp 0x800); [|destruct (Z.ltb_spec cp 0x10000)]];
    cbn [fmap list_fmap length]; eexists _, _; (split; [done|]); unfold lead_length; rewrite byte_val_of_Z, Z.mod_small by (Z.to_euclidean_division_equations; lia).
  - left. lia.
  - right. left. split; [|done]. Z.to_euclidean_division_equations. lia.
  - right. right. left. split; [|done]. Z.to_euclidean_division_equations. lia.
  - right. right. right. split; [|done]. Z.to_euclidean_division_equations. lia.
Qed.

(** A character packed into 32 bits is unpacked to its bytes again. *)
Theorem char_pack_roundtrip (cp : Z) : 0 ≤ cp < 0x110000 → ∃ v, toChar (utf8 cp) = Ok v ∧ 0 ≤ v < 2 ^ 32 ∧ fromChar v = utf8 cp.
Proof.
  intros Hcp. destruct (utf8_lead cp Hcp) as (b & l & E & Hlead). pose proof (le_val_range (utf8 cp)) as Hr.
  assert (length (utf8 cp) ≤ 4)%nat as Hlen by (unfold lead_length in Hlead; lia).
  exists (le_val (utf8 cp)). unfold toChar. rewrite (proj2 (Z.leb_le _ _)) by lia. split; [done|]. split.
  - assert (2 ^ (8 * len_of (utf8 cp)) ≤ 2 ^ 32) by (apply Z.pow_le_mono_r; lia). lia.
  - pose proof (fromChar_lead (byte_val b) (le_val l) _ Hlead) as Hf. change (byte_val b + 256 * le_val l) with (le_val (b :: l)) in Hf. rewrite <- E in Hf.
    rewrite Hf. replace 4%nat with (length (utf8 cp) + (4 - length (utf8 cp)))%nat by lia. rewrite take_le_bytes_low. apply le_bytes_val.
Qed.

(** ** Witnesses *)

Lemma len_counts_chars_witness : len (encode [mkChar (byte_of_Z 195) [byte_of_Z 169]; mkChar "a"%byte []]) = 2.
Proof. apply (len_counts_chars [mkChar (byte_of_Z 195) [byte_of_Z 169]; mkChar "a"%byte []]); [repeat constructor|done]. Defined.

(** The example of the comment in the source: from -1 with length 3. *)
Lemma substr_correct_witness : substr (encode [mkChar (byte_of_Z 195) [byte_of_Z 169]; mkChar "a"%byte []]) (-1) 3 = Ok [byte_of_Z 195; byte_of_Z 169].
Proof. apply (substr_correct [mkChar (byte_of_Z 195) [byte_of_Z 169]; mkChar "a"%byte []] (-1) 3); [repeat constructor|lia|lia]. Defined.

Lemma findMatch_correct_witness :
  (invalidPos ≤ invalidPos → findMatch ["a"; "b"; "a"; "b"]%byte ["a"; "b"]%byte invalidPos 4 = invalidPos) ∧
  ∃ i, findMatch ["a"; "b"; "a"; "b"]%byte ["a"; "b"]%byte 1 4 = i + 2 ∧ 1 ≤ i.
Proof.
  split; [apply (findMatch_correct ["a"; "b"; "a"; "b"]%byte ["a"; "b"]%byte invalidPos 4); unfold invalidPos; simpl; lia|].
  destruct (proj2 (proj2 (findMatch_correct ["a"; "b"; "a"; "b"]%byte ["a"; "b"]%byte 1 4 ltac:(lia) ltac:(simpl; lia) ltac:(simpl; lia) ltac:(simpl; lia)))) as (i & E & Hi & _);
    [unfold invalidPos; lia|vm_compute; discriminate|]. exists i. done.
Defined.

Lemma rfind_beyond_end_witness : rfind ["a"; "b"; "c"]%byte ["a"; "b"]%byte 0 1 = 0.
Proof. apply (rfind_beyond_end ["a"; "b"]%byte ["c"]%byte 1); simpl; lia. Defined.

Lemma replace_diverges_witness : replace 1000 ["x"; "a"]%byte ["a"]%byte ["a"; "a"]%byte = Fault OutOfFuel.
Proof. apply (replace_diverges ["x"; "a"]%byte ["a"]%byte ["a"; "a"]%byte 1000); [exists 1, ["x"]%byte, []|exists 0, [], ["a"]%byte]; done. Defined.

Lemma replace_shrinking_witness :
  ∃ r, replace 5 ["a"; "a"; "b"; "b"; "c"]%byte ["a"; "b"]%byte [] = Ok r ∧ (∀ i, ¬ occurs r ["a"; "b"]%byte i) ∧ (length r ≤ 5)%nat ∧
    ((∀ i, ¬ occurs ["a"; "a"; "b"; "b"; "c"]%byte ["a"; "b"]%byte i) → r = ["a"; "a"; "b"; "b"; "c"]%byte).
Proof. apply (replace_shrinking ["a"; "a"; "b"; "b"; "c"]%byte ["a"; "b"]%byte []). simpl. lia. Defined.

Lemma split_join_witness : ∃ parts, split ["a"; ","; ","; "b"]%byte [","]%byte 5 = Ok parts ∧ join [","]%byte parts = ["a"; ","; ","; "b"]%byte ∧ len_of parts ≤ 6.
Proof.
  destruct (proj2 (split_join ["a"; ","; ","; "b"]%byte [","]%byte 5 ltac:(simpl; lia) ltac:(lia))) as (parts & E & Hj & Hl & _); [done|].
  exists parts. done.
Defined.

Lemma ord_utf8_witness : ord (utf8 0x20AC) = Ok 0x20AC.
Proof. apply (ord_utf8 0x20AC). lia. Defined.

Lemma char_pack_roundtrip_witness : ∃ v, toChar (utf8 0x20AC) = Ok v ∧ 0 ≤ v < 2 ^ 32 ∧ fromChar v = utf8 0x20AC.
Proof. apply (char_pack_roundtrip 0x20AC). lia. Defined.
