(* ===== verification/Sorting.v ===== *)
(** * Parallel sorting

    Model of src/runtime/Sorting.cpp.  Rows are pointers, values of an arbitrary
    type.  Sorting is four tasks one after the other; each is a number of pieces
    of work that the workers fetch with a counter and perform, a piece exactly
    once (the protocol of [BufferScan.Chunks]) and in any order.  The orders are
    arguments of the model.  [std_sort] is std::sort, whose order of equal
    elements the language leaves open. *)

From S2P Require Import Prelude FlexBuffer.
#[local] Open Scope Z_scope.

#[local] Abbreviation len_of l := (Z.of_nat (length l)).

(** The elements from [b] to, not including, [e]. *)
Definition subrange {A} (l : list A) (b e : Z) : list A := take (Z.to_nat (e - b)) (drop (Z.to_nat b) l).
Definition write_at {A} (l : list A) (pos : Z) (xs : list A) : res (list A) :=
  if len_of l <? pos + len_of xs then Fault BadAccess
  else Ok (take (Z.to_nat pos) l ++ xs ++ drop (Z.to_nat pos + length xs) l).

(** The pieces of a task, in the order in which they are performed. *)
Fixpoint perform_all {S} (perform : nat → S → res S) (order : list nat) (s : S) : res S :=
  match order with
  | [] => Ok s
  | i :: order => let* s := perform i s in perform_all perform order s
  end.

Fixpoint mapR {A B} (f : A → res B) (l : list A) : res (list B) :=
  match l with
  | [] => Ok []
  | x :: l => let* y := f x in let* ys := mapR f l in Ok (y :: ys)
  end.

Definition minSplitSize : Z := 512.
Definition canParallelSort (valueSize : Z) : bool := minSplitSize <? valueSize.

(** [normalizeSepCnt]. *)
Definition normalizeSepCnt (inputSize splitCnt seperatorCnt : Z) : Z :=
  let sizePerSplit := inputSize / splitCnt in
  let minSepSegment := 8 in
  if sizePerSplit <? minSepSegment * seperatorCnt then sizePerSplit / minSepSegment else seperatorCnt.
(** The numbers of splits and of separators. *)
Definition calcSplitSeperator (inputSize workerNum : Z) : Z * Z :=
  let sizePerWorker := inputSize / workerNum in
  let result splitCnt seperatorCnt := (splitCnt, normalizeSepCnt inputSize splitCnt seperatorCnt) in
  if sizePerWorker <? minSplitSize * 4 then result (inputSize / minSplitSize) workerNum
  else if 32768 * 4 <? sizePerWorker then
    let splitSize := if 32768 * 16 <? sizePerWorker then 32768 * 4 else 32768 * 2 in
    result (inputSize / splitSize) (workerNum * 4)
  else result (if 65536 <? sizePerWorker then workerNum * 4 else workerNum * 2) (workerNum * 2).

(** ** Doubles *)

(** The double [a / b] times 2^101; the last bit says whether the quotient is
    rounded, so that ties are exact. *)
Definition fdiv (a b : Z) : Z :=
  let y := a * 2 ^ 100 in round53 (2 * (y / b) + (if y mod b =? 0 then 0 else 1)).
(** [base + i * range / seperatorCnt], with [i] and therefore the quotient and
    the sum doubles, truncated. *)
Definition sepIndex (base range seperatorCnt i : Z) : Z :=
  round53 (round53 base * 2 ^ 101 + fdiv (round53 (i * range)) seperatorCnt) / 2 ^ 101.

Section sorting.
Context {A : Type} (compareFn : A → A → bool) (std_sort : ∀ {B : Type}, (B → B → bool) → list B → list B).

Record SortSplitState := mkSplit { sp_begin : Z; sp_end : Z; localSeperators : list Z; globalSeperators : list Z }.
Definition emptySplit : SortSplitState := mkSplit 0 0 [] [].

(** ** Copying the pointers *)

Definition bufferOffset (buffers : list (list A)) (i : nat) : Z := len_of (concat (take i buffers)).
Definition copy_perform (buffers : list (list A)) (i : nat) (copy : list A) : res (list A) :=
  match buffers !! i with
  | None => Fault BadAccess
  | Some buffer => write_at copy (bufferOffset buffers i) buffer
  end.

(** ** Sorting the splits *)

Definition splitSizeFor (n splitCnt : Z) : Z := (n + splitCnt - 1) / splitCnt.
Definition local_perform (splitCnt seperatorCnt : Z) (i : nat) (s : list A * list SortSplitState) : res (list A * list SortSplitState) :=
  let '(input, states) := s in
  let n := len_of input in
  let splitSize := splitSizeFor n splitCnt in
  let begin := Z.of_nat i * splitSize in
  let end_ := (Z.of_nat i + 1) * splitSize in
  let end_ := if n <? end_ then n else end_ in
  if end_ <? begin then Fault BadAccess
  else
    let* input := write_at input begin (std_sort _ compareFn (subrange input begin end_)) in
    let range := end_ - begin in
    if seperatorCnt =? 0 then Fault BadAccess
    else
      let startOffset := range / seperatorCnt / 2 in
      let* _ := assert_ (range <? 2000000000) in
      let* _ := assert_ (seperatorCnt <? 2000000) in
      let seps := sepIndex (begin + startOffset) range seperatorCnt <$> seqZ 0 seperatorCnt in
      match states !! i with
      | None => Fault BadAccess
      | Some st => Ok (input, <[i := mkSplit begin end_ seps (globalSeperators st)]> states)
      end.

(** ** Global separators *)

Definition less_at (input : list A) (l r : Z) : bool :=
  match zget input l, zget input r with Some x, Some y => compareFn x y | _, _ => false end.

(** std::lower_bound on a sorted range: the number of elements before [v]. *)
Fixpoint lower_bound (l : list A) (v : A) : Z :=
  match l with
  | [] => 0
  | x :: l => if compareFn x v then 1 + lower_bound l v else 0
  end.

Definition set_global (j : nat) (p : Z) (st : SortSplitState) : SortSplitState :=
  mkSplit (sp_begin st) (sp_end st) (localSeperators st) (<[j := p]> (globalSeperators st)).

Definition search_perform (input : list A) (j : nat) (states : list SortSplitState) : res (list SortSplitState) :=
  let* samePosSeps := mapR (λ st, match localSeperators st !! j with Some p => Ok p | None => Fault BadAccess end) states in
  let* _ := mapR (load input) samePosSeps in
  let sorted := std_sort _ (less_at input) samePosSeps in
  match sorted !! (length sorted / 2)%nat with
  | None => Fault BadAccess
  | Some globalSepIdx =>
      let* globalSepVal := load input globalSepIdx in
      Ok ((λ st, set_global j (lower_bound (subrange input (sp_begin st) (sp_end st)) globalSepVal + sp_begin st) st) <$> states)
  end.

(** ** Merging *)

(** The part of a split that belongs to segment [j]. *)
Definition segment (seperatorCnt : Z) (j : nat) (st : SortSplitState) : res (Z * Z) :=
  let* b :=
    match j with
    | O => Ok (sp_begin st)
    | S j' => match globalSeperators st !! j' with Some p => Ok p | None => Fault BadAccess end
    end in
  let* e :=
    if Z.of_nat j =? seperatorCnt then Ok (sp_end st)
    else match globalSeperators st !! j with Some p => Ok p | None => Fault BadAccess end in
  Ok (b, e).

(** [cnt] of a segment, on 64 bits. *)
Definition segment_size (ranges : list (Z * Z)) : Z := foldl (λ acc '(b, e), u64 (acc + (e - b))) 0 ranges.

(** [outputRanges] behind its first element; the last one is [n] once more. *)
Fixpoint outputRanges_from (seperatorCnt : Z) (states : list SortSplitState) (js : list nat) (growingSpan : Z) : res (list Z) :=
  match js with
  | [] => Ok []
  | j :: js =>
      let* ranges := mapR (segment seperatorCnt j) states in
      let span := foldl (λ acc '(b, e), u64 (acc + (e - b))) growingSpan ranges in
      let* l := outputRanges_from seperatorCnt states js span in
      Ok (span :: l)
  end.
Definition outputRanges (n seperatorCnt : Z) (states : list SortSplitState) : res (list Z) :=
  let* l := outputRanges_from seperatorCnt states (seq 0 (Z.to_nat (seperatorCnt + 1))) 0 in Ok (0 :: l ++ [n]).

(** A datum of the priority queue and its source.  [pop_min] is [top] and
    [pop]: a datum that no other one is less than. *)
Fixpoint pop_min (h : list (A * nat)) : option ((A * nat) * list (A * nat)) :=
  match h with
  | [] => None
  | x :: h =>
      match pop_min h with
      | None => Some (x, [])
      | Some (m, r) => if compareFn (fst m) (fst x) then Some (m, x :: r) else Some (x, h)
      end
  end.

(** [hasNext] and [next] of a source, a cursor and its end. *)
Definition src_next (input : list A) (src : Z * Z) : res (option (A * (Z * Z))) :=
  let '(cursor, end_) := src in
  if cursor <? end_ then let* x := load input cursor in Ok (Some (x, (cursor + 1, end_))) else Ok None.

(** The first elements of the sources. *)
Fixpoint fill_heap (input : list A) (i : nat) (srcs : list (Z * Z)) : res (list (A * nat) * list (Z * Z)) :=
  match srcs with
  | [] => Ok ([], [])
  | src :: srcs =>
      let* r := src_next input src in
      let* '(h, rest) := fill_heap input (S i) srcs in
      match r with
      | Some (x, src') => Ok ((x, i) :: h, src' :: rest)
      | None => Ok (h, src :: rest)
      end
  end.

(** The loop of [SortMergeTask::performWork]: what it writes, in order. *)
Fixpoint merge_loop (fuel : nat) (input : list A) (h : list (A * nat)) (srcs : list (Z * Z)) : res (list A) :=
  match pop_min h with
  | None => Ok []
  | Some ((x, i), h) =>
      match fuel with
      | O => Fault OutOfFuel
      | S fuel =>
          match srcs !! i with
          | None => Fault BadAccess
          | Some src =>
              let* r := src_next input src in
              let* l :=
                match r with
                | Some (y, src') => merge_loop fuel input ((y, i) :: h) (<[i := src']> srcs)
                | None => merge_loop fuel input h srcs
                end in
              Ok (x :: l)
          end
      end
  end.

Definition merge_perform (input : list A) (seperatorCnt : Z) (states : list SortSplitState) (ranges : list Z) (j : nat) (output : list A) : res (list A) :=
  let* srcs := mapR (segment seperatorCnt j) states in
  let cnt := segment_size srcs in
  let* '(h, srcs) := fill_heap input 0 srcs in
  let* r0 := load ranges (Z.of_nat j) in
  let* r1 := load ranges (Z.of_nat j + 1) in
  let* _ := assert_ (cnt =? u64 (r1 - r0)) in
  let* merged := merge_loop (length input) input h srcs in
  write_at output r0 merged.

(** ** [parallelSort] *)

Record orders := mkOrders { copyOrder : list nat; localOrder : list nat; searchOrder : list nat; mergeOrder : list nat }.

(** [null] fills the vector of pointers, [garbage] the output. *)
Definition parallelSort (workerNum : Z) (o : orders) (null garbage : A) (buffers : list (list A)) : res (list A) :=
  let n := len_of (concat buffers) in
  let* toSort := perform_all (copy_perform buffers) (copyOrder o) (replicate (Z.to_nat n) null) in
  let '(splitCnt, seperatorCnt) := calcSplitSeperator n workerNum in
  let* '(input, states) := perform_all (local_perform splitCnt seperatorCnt) (localOrder o) (toSort, replicate (Z.to_nat splitCnt) emptySplit) in
  let states := (λ st, mkSplit (sp_begin st) (sp_end st) (localSeperators st) (replicate (Z.to_nat seperatorCnt) 0)) <$> states in
  let* states := perform_all (search_perform input) (searchOrder o) states in
  let* ranges := outputRanges n seperatorCnt states in
  perform_all (merge_perform input seperatorCnt states ranges) (mergeOrder o) (replicate (Z.to_nat n) garbage).
End sorting.
