(* ===== verification/SortingMerge.v ===== *)
(** * The pieces of parallel sorting: blocks, double arithmetic, merging *)

From S2P Require Import Prelude FlexBuffer Heap SchedulerQueue Sorting.
From stdpp Require Import sorting.
#[local] Open Scope Z_scope.
#[local] Abbreviation len_of l := (Z.of_nat (length l)).

(** ** Pieces performed in any order *)

(** A state is seen as a list of cells, and piece [i] changes cell [i] only. *)
Lemma perform_cells {X St} (R : list X → St → Prop) (g : nat → X → X) (perform : nat → St → res St) :
  (∀ i cells s x, R cells s → cells !! i = Some x → ∃ s', perform i s = Ok s' ∧ R (<[i := g i x]> cells) s') →
  ∀ order cells s, R cells s → order ≡ₚ seq 0 (length cells) → ∃ s', perform_all perform order s = Ok s' ∧ R (imap g cells) s'.
Proof.
  intros Hp order cells s Hs Ho.
  enough (∀ order cells s, R cells s → (∀ i, i ∈ order → (i < length cells)%nat) →
    ∃ s', perform_all perform order s = Ok s' ∧ R (foldl (λ c i, alter (g i) i c) cells order) s') as H.
  { destruct (H order cells s Hs) as (s' & E & HR); [intros i Hi; rewrite Ho in Hi; apply elem_of_seq in Hi; lia|]. exists s'. split; [done|].
    replace (imap g cells) with (foldl (λ c i, alter (g i) i c) cells order); [done|]. clear -Ho.
    assert (NoDup order) as Hnd by (rewrite Ho; apply NoDup_seq).
    apply list_eq. intros k. rewrite list_lookup_imap. transitivity (if decide (k ∈ order) then g k <$> cells !! k else cells !! k).
    - clear Ho. revert cells. induction order as [|i order IH]; intros cells; [case_decide as E; [by apply elem_of_nil in E|done]|].
      apply NoDup_cons in Hnd as [Hi Hnd]. simpl. rewrite (IH Hnd). destruct (decide (k = i)) as [->|Hne].
      + rewrite decide_False, decide_True by (done || by left). apply list_lookup_alter_eq.
      + rewrite list_lookup_alter_ne by done. repeat case_decide; try done; set_solver.
    - destruct (decide (k < length cells)%nat) as [Hk|Hk]; [rewrite decide_True; [done|rewrite Ho; apply elem_of_seq; lia]|].
      rewrite lookup_ge_None_2 by lia. by case_decide. }
  clear order cells s Hs Ho. induction order as [|i order IH]; intros cells s Hs Hi; [by exists s|].
  destruct (lookup_lt_is_Some_2 cells i) as [x Hx]; [apply Hi; by left|]. destruct (Hp i cells s x Hs Hx) as (s1 & E1 & H1).
  simpl. rewrite E1. cbn [res_bind]. replace (alter (g i) i cells) with (<[i := g i x]> cells).
  - apply IH; [done|]. intros k Hk. rewrite length_insert. apply Hi. by right.
  - apply list_eq. intros k. destruct (decide (k = i)) as [->|].
    + rewrite list_lookup_insert_eq by (by eapply lookup_lt_Some). by rewrite list_lookup_alter_eq, Hx.
    + by rewrite list_lookup_insert_ne, list_lookup_alter_ne.
Qed.

(** ** Blocks of an array *)

(** The place of block [i]. *)
Definition offset {A} (parts : list (list A)) (i : nat) : Z := len_of (concat (take i parts)).

Lemma concat_split {A} (parts : list (list A)) i l : parts !! i = Some l → concat parts = concat (take i parts) ++ l ++ concat (drop (S i) parts).
Proof. intros H. rewrite <- (take_drop_middle _ _ _ H) at 1. by rewrite concat_app. Qed.

Lemma concat_length_ext {A} (parts parts' : list (list A)) : length <$> parts = length <$> parts' → length (concat parts) = length (concat parts').
Proof. revert parts'. induction parts as [|p parts IH]; intros [|p' parts'] E; simplify_eq/=; try done. rewrite !length_app. f_equal; [done|by apply IH]. Qed.

Lemma offset_ext {A} (parts parts' : list (list A)) i : length <$> parts = length <$> parts' → offset parts i = offset parts' i.
Proof.
  unfold offset. intros E. f_equal. revert parts' i E. induction parts as [|p parts IH]; intros [|p' parts'] [|i] E; simplify_eq/=; try done.
  rewrite !length_app. f_equal; [done|by apply IH].
Qed.

Lemma subrange_block {A} (parts : list (list A)) i l : parts !! i = Some l → subrange (concat parts) (offset parts i) (offset parts i + len_of l) = l.
Proof.
  intros H. unfold subrange, offset. rewrite (concat_split parts i l H) at 1. rewrite Nat2Z.id, drop_app_length.
  replace (Z.to_nat _) with (length l) by lia. apply take_app_length.
Qed.

Lemma write_block {A} (parts : list (list A)) i l xs : parts !! i = Some l → length xs = length l →
  write_at (concat parts) (offset parts i) xs = Ok (concat (<[i := xs]> parts)).
Proof.
  intros H Hlen. unfold write_at, offset. rewrite (concat_split parts i l H). rewrite !length_app, (proj2 (Z.ltb_ge _ _)) by lia. f_equal.
  rewrite Nat2Z.id, take_app_length. rewrite insert_take_drop by (by eapply lookup_lt_Some). rewrite concat_app. simpl. do 2 f_equal.
  rewrite Hlen, <- length_app, app_assoc. by rewrite drop_app_length.
Qed.

Lemma zget_concat {A} (parts : list (list A)) i l k : parts !! i = Some l → 0 ≤ k < len_of l → zget (concat parts) (offset parts i + k) = zget l k.
Proof.
  intros H Hk. unfold offset. rewrite (concat_split parts i l H). unfold zget. rewrite !(proj2 (Z.leb_le _ _)) by lia.
  rewrite lookup_app_r by lia. rewrite lookup_app_l by lia. f_equal. lia.
Qed.

Lemma subrange_concat {A} (parts : list (list A)) i l a b : parts !! i = Some l → 0 ≤ a → b ≤ len_of l →
  subrange (concat parts) (offset parts i + a) (offset parts i + b) = subrange l a b.
Proof.
  intros H Ha Hb. unfold subrange, offset. rewrite (concat_split parts i l H) at 1. replace (offset parts i + b - (offset parts i + a)) with (b - a) by lia.
  replace (len_of (concat (take i parts)) + b - (len_of (concat (take i parts)) + a)) with (b - a) by lia.
  rewrite Z2Nat.inj_add, Nat2Z.id by lia. rewrite <- drop_drop, drop_app_length. destruct (decide (a ≤ b)); [|by replace (Z.to_nat (b - a)) with 0%nat by lia].
  rewrite drop_app_le by lia. apply take_app_le. rewrite length_drop. lia.
Qed.

Lemma length_subrange {A} (l : list A) a b : 0 ≤ a → a ≤ b → b ≤ len_of l → len_of (subrange l a b) = b - a.
Proof. intros Ha Hab Hb. unfold subrange. rewrite length_take, length_drop. lia. Qed.

Lemma subrange_app {A} (l : list A) a b : 0 ≤ a ≤ b → take (Z.to_nat a) l ++ subrange l a b = take (Z.to_nat b) l.
Proof. intros H. unfold subrange. rewrite take_take_drop. f_equal. lia. Qed.

Lemma mapR_ok {X Y} (f : X → res Y) l ys : Forall2 (λ x y, f x = Ok y) l ys → mapR f l = Ok ys.
Proof. induction 1 as [|x y l ys E _ IH]; [done|]. simpl. by rewrite E, IH. Qed.
Lemma mapR_is_ok {X Y} (f : X → res Y) l : (∀ x, x ∈ l → is_ok (f x)) → is_ok (mapR f l).
Proof.
  induction l as [|x l IH]; intros H; [by eexists|]. destruct (H x) as [y E]; [by left|]. destruct IH as [ys Es]; [intros z Hz; apply H; by right|].
  simpl. rewrite E, Es. by eexists.
Qed.

Lemma bind_concat {X Y} (f : X → list Y) l : l ≫= f = concat (f <$> l).
Proof. induction l as [|x l IH]; [done|]. csimpl. by rewrite IH. Qed.
Lemma bind_app_perm {X Y} (f g : X → list Y) l : l ≫= (λ x, f x ++ g x) ≡ₚ (l ≫= f) ++ (l ≫= g).
Proof. induction l as [|x l IH]; [done|]. csimpl. rewrite IH. rewrite <- !app_assoc. apply Permutation_app_head. rewrite !app_assoc. apply Permutation_app_tail, Permutation_app_comm. Qed.
Lemma bind_swap {X Y Z} (f : X → Y → list Z) xs ys : xs ≫= (λ x, ys ≫= f x) ≡ₚ ys ≫= (λ y, xs ≫= (λ x, f x y)).
Proof. induction ys as [|y ys IH]; [by induction xs|]. csimpl. rewrite bind_app_perm. by rewrite IH. Qed.

Lemma StronglySorted_subrange {A} (R : A → A → Prop) l a b : StronglySorted R l → StronglySorted R (subrange l a b).
Proof.
  intros H. unfold subrange. rewrite <- (take_drop (Z.to_nat a) l) in H. apply StronglySorted_app_1_r in H.
  rewrite <- (take_drop (Z.to_nat (b - a)) (drop (Z.to_nat a) l)) in H. by apply StronglySorted_app_1_l in H.
Qed.

Lemma StronglySorted_concat {A} (R : A → A → Prop) parts : Forall (StronglySorted R) parts →
  (∀ i j l r x y, (i < j)%nat → parts !! i = Some l → parts !! j = Some r → x ∈ l → y ∈ r → R x y) → StronglySorted R (concat parts).
Proof.
  induction parts as [|p parts IH]; intros Hs Hlt; [constructor|]. apply Forall_cons in Hs as [Hp Hs]. simpl. apply StronglySorted_app_2; [|done|].
  - intros x y Hx Hy. apply list_elem_of_In, in_concat in Hy as (r & Hr & Hy). apply list_elem_of_In, list_elem_of_lookup in Hr as [j Hj].
    apply (Hlt 0%nat (S j) p r); [lia|done|done|done|]. by apply list_elem_of_In.
  - apply IH; [done|]. intros i j l r x y Hij. apply (Hlt (S i) (S j)). lia.
Qed.

(** The pieces of a list of [c] elements each, the last one shorter. *)
Definition chop {A} (c : Z) (k : nat) (l : list A) : list (list A) :=
  (λ i, subrange l (Z.of_nat i * c) (Z.min ((Z.of_nat i + 1) * c) (len_of l))) <$> seq 0 k.

Lemma concat_chop {A} (c : Z) (k : nat) (l : list A) : 0 ≤ c → (Z.of_nat k - 1) * c ≤ len_of l →
  concat (chop c k l) = take (Z.to_nat (Z.min (Z.of_nat k * c) (len_of l))) l.
Proof.
  intros Hc. induction k as [|k IH]; intros Hk; [simpl; by rewrite Z.min_l by lia|]. unfold chop. rewrite seq_S, fmap_app, concat_app. fold (chop c k l). rewrite IH by lia. simpl.
  rewrite app_nil_r. unfold subrange. replace (Z.min (Z.of_nat k * c) (len_of l)) with (Z.of_nat k * c) by lia.
  replace (Z.to_nat (Z.min (Z.of_nat (S k) * c) (len_of l))) with (Z.to_nat (Z.of_nat k * c) + Z.to_nat (Z.min ((Z.of_nat k + 1) * c) (len_of l) - Z.of_nat k * c))%nat by lia.
  by rewrite take_take_drop.
Qed.

Lemma offset_chop {A} (c : Z) (k i : nat) (l : list A) : 0 ≤ c → (Z.of_nat k - 1) * c ≤ len_of l → (i < k)%nat → offset (chop c k l) i = Z.of_nat i * c.
Proof.
  intros Hc Hk Hi. unfold offset. assert (take i (chop c k l) = chop c i l) as ->.
  { unfold chop. rewrite <- fmap_take. f_equal. rewrite take_seq. f_equal. lia. }
  rewrite concat_chop by nia. rewrite length_take. nia.
Qed.

(** ** Double arithmetic *)

Lemma round53_binade m : 0 < m → 2 ^ Z.log2 m ≤ round53 m ≤ 2 ^ (Z.log2 m + 1).
Proof.
  intros Hm. pose proof (Z.log2_spec m Hm) as [H1 H2]. rewrite <- Z.add_1_r in H2. unfold round53. set (d := Z.log2 m - 52) in *.
  destruct (Z.leb_spec d 0) as [|Hd]; [lia|]. set (u := 2 ^ d). assert (0 < u) as Hu by (apply Z.pow_pos_nonneg; lia).
  assert (2 ^ Z.log2 m = 2 ^ 52 * u) as E1 by (unfold u; rewrite <- Z.pow_add_r by lia; f_equal; lia).
  assert (2 ^ (Z.log2 m + 1) = 2 ^ 53 * u) as E2 by (unfold u; rewrite <- Z.pow_add_r by lia; f_equal; lia).
  rewrite E1, E2 in *. pose proof (Z.div_mod m u ltac:(lia)) as E. pose proof (Z.mod_pos_bound m u Hu) as Hr.
  set (q := m / u) in *. set (r := m mod u) in *. assert (2 ^ 52 ≤ q) by nia. assert (q + 1 ≤ 2 ^ 53) by nia.
  destruct ((2 * r <? u) || ((2 * r =? u) && Z.even q)); nia.
Qed.

Lemma round53_mono a b : 0 ≤ a ≤ b → round53 a ≤ round53 b.
Proof.
  intros [Ha Hab]. destruct (decide (a = 0)) as [->|]; [destruct (decide (b = 0)) as [->|]; [done|]; pose proof (round53_binade b ltac:(lia)); change (round53 0) with 0; pose proof (Z.pow_nonneg 2 (Z.log2 b)); lia|].
  pose proof (round53_binade a ltac:(lia)) as [Ha1 Ha2]. pose proof (round53_binade b ltac:(lia)) as [Hb1 Hb2]. pose proof (Z.log2_le_mono a b Hab) as Hlog.
  destruct (Z.eq_dec (Z.log2 a) (Z.log2 b)) as [E|Hne].
  2:{ assert (2 ^ (Z.log2 a + 1) ≤ 2 ^ Z.log2 b) by (apply Z.pow_le_mono_r; lia). lia. }
  unfold round53. rewrite E. set (d := Z.log2 b - 52). destruct (Z.leb_spec d 0) as [|Hd]; [lia|]. set (u := 2 ^ d).
  assert (0 < u) as Hu by (apply Z.pow_pos_nonneg; lia). apply Z.mul_le_mono_nonneg_r; [lia|].
  pose proof (Z.div_mod a u ltac:(lia)) as Ea. pose proof (Z.mod_pos_bound a u Hu) as Hra.
  pose proof (Z.div_mod b u ltac:(lia)) as Eb. pose proof (Z.mod_pos_bound b u Hu) as Hrb.
  pose proof (Z.div_le_mono a b u Hu Hab) as Hq. destruct (Z.eq_dec (a / u) (b / u)) as [Eq|Hq2].
  2:{ destruct ((2 * (a mod u) <? u) || _), ((2 * (b mod u) <? u) || _); lia. }
  rewrite Eq in *. set (q := b / u) in *. assert (a mod u ≤ b mod u) as Hr by lia.
  destruct (Z.ltb_spec (2 * (a mod u)) u), (Z.ltb_spec (2 * (b mod u)) u), (Z.eqb_spec (2 * (a mod u)) u), (Z.eqb_spec (2 * (b mod u)) u), (Z.even q); simpl; lia.
Qed.

(** The scaled quotient before it is rounded. *)
Definition fquot (a b : Z) : Z := 2 * (a * 2 ^ 100 / b) + (if a * 2 ^ 100 mod b =? 0 then 0 else 1).

Lemma fquot_spec a b : 0 ≤ a → 0 < b → 0 ≤ fquot a b ∧ b * fquot a b ≤ a * 2 ^ 101 + b.
Proof.
  intros Ha Hb. unfold fquot. set (y := a * 2 ^ 100). assert (a * 2 ^ 101 = 2 * y) as -> by (unfold y; change (2 ^ 101) with (2 * 2 ^ 100); lia).
  assert (0 ≤ y) as Hy by (unfold y; lia). clearbody y. pose proof (Z.div_pos y b Hy Hb). pose proof (Z.div_mod y b ltac:(lia)) as E.
  pose proof (Z.mod_pos_bound y b Hb). destruct (Z.eqb_spec (y mod b) 0); nia.
Qed.

Lemma fquot_mono a a' b : 0 ≤ a ≤ a' → 0 < b → fquot a b ≤ fquot a' b.
Proof.
  intros Ha Hb. unfold fquot. set (y := a * 2 ^ 100). set (y' := a' * 2 ^ 100). assert (y ≤ y') as Hy by (unfold y, y'; lia). clearbody y y'.
  pose proof (Z.div_le_mono y y' b Hb Hy) as Hd. destruct (Z.eq_dec (y / b) (y' / b)) as [E|].
  - rewrite E. pose proof (Z.div_mod y b ltac:(lia)). pose proof (Z.div_mod y' b ltac:(lia)). pose proof (Z.mod_pos_bound y b Hb). pose proof (Z.mod_pos_bound y' b Hb).
    destruct (Z.eqb_spec (y mod b) 0), (Z.eqb_spec (y' mod b) 0); nia.
  - destruct (y mod b =? 0), (y' mod b =? 0); lia.
Qed.

Lemma round53_shift a : 0 ≤ a < 2 ^ 53 → round53 (a * 2 ^ 101) = a * 2 ^ 101.
Proof.
  intros Ha. destruct (decide (a = 0)) as [->|]; [done|]. unfold round53. rewrite Z.log2_mul_pow2 by lia. set (L := Z.log2 a).
  assert (0 ≤ L < 53) as HL by (split; [apply Z.log2_nonneg|apply Z.log2_lt_pow2; lia]). rewrite (proj2 (Z.leb_gt _ _)) by lia.
  assert (a * 2 ^ 101 = a * 2 ^ (52 - L) * 2 ^ (101 + L - 52)) as E by (rewrite <- Z.mul_assoc, <- Z.pow_add_r by lia; do 2 f_equal; lia).
  rewrite E. pose proof (Z.pow_pos_nonneg 2 (101 + L - 52) ltac:(lia) ltac:(lia)) as Hu. rewrite Z.div_mul, Z.mod_mul by lia.
  rewrite (proj2 (Z.ltb_lt _ _)) by lia. done.
Qed.

(** The separators of a split lie in it, in order. *)
Lemma sepIndex_bounds begin range cnt i : 0 ≤ begin → 1 ≤ range → begin + range < 2 ^ 40 → 1 ≤ cnt ≤ 512 → 0 ≤ i < cnt → 
  begin ≤ sepIndex (begin + range / cnt / 2) range cnt i < begin + range.
Proof.
  intros Hb Hr He Hc Hi. set (base := begin + range / cnt / 2).
  assert (2 * cnt * (base - begin) ≤ range ∧ begin ≤ base) as [Hbase Hbase0].
  { unfold base. set (o := range / cnt). assert (cnt * o ≤ range) by (apply Z.mul_div_le; lia). assert (0 ≤ o) by (apply Z.div_pos; lia).
    assert (2 * (o / 2) ≤ o) by (apply Z.mul_div_le; lia). assert (0 ≤ o / 2) by (apply Z.div_pos; lia). split; [nia|lia]. }
  assert (i * range < 2 ^ 50) as Hprod by nia. assert (base < 2 ^ 41) as Hb41 by nia.
  unfold sepIndex. rewrite (round53_small base), (round53_small (i * range)) by nia. unfold fdiv. fold (fquot (i * range) cnt).
  destruct (fquot_spec (i * range) cnt ltac:(nia) ltac:(lia)) as [Hq0 Hq]. set (q := fquot (i * range) cnt) in *. set (P := 2 ^ 101) in *. assert (P = 2 ^ 101) as EP by done.
  assert (0 ≤ round53 q ∧ 2 ^ 53 * (round53 q - q) ≤ q) as [Hf0 Hf].
  { destruct (decide (q = 0)) as [->|]; [done|]. pose proof (round53_binade q ltac:(lia)) as [H _]. pose proof (Z.pow_nonneg 2 (Z.log2 q)). destruct (round53_error q ltac:(lia)). lia. }
  set (T := base * P + round53 q). assert (base * P ≤ T) as HT0 by (unfold T; lia).
  assert (round53 (base * P) ≤ round53 T) as Hlow by (apply round53_mono; unfold P in *; lia). unfold P in Hlow at 1. rewrite round53_shift in Hlow by lia. fold P in Hlow. split.
  - apply Z.div_le_lower_bound; [lia|]. nia.
  - apply Z.div_lt_upper_bound; [lia|].
    assert (0 < T ∨ T = 0) as [HT|HT] by lia; [|rewrite HT; change (round53 0) with 0; nia].
    destruct (round53_error T HT) as [_ HTe]. clear Hlow. clearbody P.
    set (E := (begin + range) * P). assert (E < 2 ^ 40 * P) as HE by (unfold E; nia). set (X := base * P + q).
    assert (2 * cnt * X ≤ 2 * cnt * E - range * P + 2 * cnt) as HX.
    { unfold X, E. assert (i * range * P ≤ (cnt - 1) * range * P) by (do 2 (apply Z.mul_le_mono_nonneg_r; [lia|]); lia). assert (2 * cnt * (base - begin) * P ≤ range * P) by (apply Z.mul_le_mono_nonneg_r; lia). lia. }
    assert (1 * P ≤ range * P) by (apply Z.mul_le_mono_nonneg_r; lia). assert (P ≤ 2 * cnt * (E - X + 1)) as HD by lia.
    assert (0 ≤ E - X + 1) as HD0 by (destruct (Z.le_gt_cases 0 (E - X + 1)); [done|]; assert (2 * cnt * (E - X + 1) ≤ 0) by (apply Z.mul_nonneg_nonpos; lia); lia).
    assert (P ≤ 1024 * (E - X + 1)) as HD2 by (etrans; [exact HD|]; apply Z.mul_le_mono_nonneg_r; lia). clear HX HD HD0.
    assert (T = X + (round53 q - q)) as ET by (unfold T, X; lia). assert (0 ≤ base * P) by (apply Z.mul_nonneg_nonneg; lia). assert (q ≤ X) as HqX by (unfold X; lia). replace (P * (begin + range)) with E by (unfold E; lia). lia.
Qed.

Lemma sepIndex_mono base range cnt i j : 0 ≤ base → 0 ≤ range → 0 < cnt → 0 ≤ i ≤ j → sepIndex base range cnt i ≤ sepIndex base range cnt j.
Proof.
  intros Hb Hr Hc Hij. unfold sepIndex. apply Z.div_le_mono; [lia|].
  assert (∀ a, 0 ≤ a → 0 ≤ round53 a) as Hpos by (intros a Ha; pose proof (round53_mono 0 a ltac:(lia)) as H; exact H).
  apply round53_mono. unfold fdiv. fold (fquot (round53 (i * range)) cnt) (fquot (round53 (j * range)) cnt).
  assert (0 ≤ round53 (i * range) ≤ round53 (j * range)) as Hp by (split; [apply Hpos, Z.mul_nonneg_nonneg; lia|apply round53_mono; split; [apply Z.mul_nonneg_nonneg; lia|apply Z.mul_le_mono_nonneg_r; lia]]).
  destruct (fquot_spec (round53 (i * range)) cnt ltac:(lia) Hc) as [Hq _]. pose proof (fquot_mono _ _ cnt Hp Hc) as Hm.
  split; [|apply Z.add_le_mono_l, round53_mono; lia]. apply Z.add_nonneg_nonneg; [apply Z.mul_nonneg_nonneg; [by apply Hpos|lia]|by apply Hpos].
Qed.

(** ** Orders *)

Section order.
Context {A : Type} (compareFn : A → A → bool) (Hsw : strict_weak compareFn).

(** [x] may stand before [y]. *)
Definition ordle (x y : A) : Prop := compareFn y x = false.

Lemma ordle_refl x : ordle x x.
Proof using Hsw. unfold ordle. destruct (compareFn x x) eqn:E; [|done]. by rewrite (sw_asym _ Hsw _ _ E) in E. Qed.
Lemma ordle_trans x y z : ordle x y → ordle y z → ordle x z.
Proof using Hsw. unfold ordle. intros H1 H2. by apply (sw_trans _ Hsw z y x). Qed.
Lemma ordlt_le x y : compareFn x y = true → ordle x y.
Proof using Hsw. apply (sw_asym _ Hsw). Qed.
Lemma ordle_lt_trans x y z : ordle x y → compareFn y z = true → compareFn x z = true.
Proof using Hsw. unfold ordle. intros H1 H2. destruct (compareFn x z) eqn:E; [done|]. rewrite (sw_trans _ Hsw y x z H1 E) in H2. done. Qed.
Lemma ordlt_le_trans x y z : compareFn x y = true → ordle y z → compareFn x z = true.
Proof using Hsw. unfold ordle. intros H1 H2. destruct (compareFn x z) eqn:E; [done|]. rewrite (sw_trans _ Hsw x z y E H2) in H1. done. Qed.

Lemma StronglySorted_lookups (R : A → A → Prop) l i j x y : StronglySorted R l → (i < j)%nat → l !! i = Some x → l !! j = Some y → R x y.
Proof.
  revert i j. induction l as [|z l IH]; intros i j Hs Hij Hx Hy; [done|]. apply StronglySorted_inv in Hs as [Hs Hz]. destruct j as [|j]; [lia|]. destruct i as [|i].
  - injection Hx as ->. by eapply (proj1 (Forall_lookup _ _) Hz j).
  - apply (IH i j); [done|lia|done|done].
Qed.

Lemma sorted_le l i j x y : StronglySorted ordle l → (i ≤ j)%nat → l !! i = Some x → l !! j = Some y → ordle x y.
Proof using Hsw.
  intros Hs Hij Hx Hy. destruct (decide (i = j)) as [->|]; [simplify_eq; apply ordle_refl|]. eapply StronglySorted_lookups; [exact Hs| |exact Hx|exact Hy]. lia.
Qed.

(** How many elements are before [v]. *)
Definition count_lt (v : A) (l : list A) : nat := length (filter (λ x, compareFn x v = true) l).

Lemma count_lt_perm v l l' : l ≡ₚ l' → count_lt v l = count_lt v l'.
Proof. intros H. unfold count_lt. by rewrite H. Qed.
Lemma count_lt_app v l l' : count_lt v (l ++ l') = (count_lt v l + count_lt v l')%nat.
Proof. unfold count_lt. by rewrite filter_app, length_app. Qed.
Lemma count_lt_le v l : (count_lt v l ≤ length l)%nat.
Proof. apply length_filter. Qed.
Lemma count_lt_pointwise v xs ys : Forall2 ordle xs ys → (count_lt v ys ≤ count_lt v xs)%nat.
Proof using Hsw.
  unfold count_lt. induction 1 as [|x y xs ys Hxy _ IH]; [done|]. rewrite !filter_cons. destruct (decide (compareFn y v = true)) as [Hy|].
  - rewrite decide_True by (by eapply ordle_lt_trans). simpl. lia.
  - case_decide; simpl; lia.
Qed.
Lemma count_lt_all v l : Forall (λ x, compareFn x v = true) l → count_lt v l = length l.
Proof. intros H. unfold count_lt. induction H as [|x l Hx _ IH]; [done|]. rewrite filter_cons_True by done. simpl. by rewrite IH. Qed.
Lemma count_lt_none v l : Forall (ordle v) l → count_lt v l = 0%nat.
Proof.
  intros H. unfold count_lt. induction H as [|x l Hx _ IH]; [done|]. rewrite filter_cons_False; [done|]. unfold ordle in Hx. by rewrite Hx.
Qed.

(** The [k]-th smallest element grows when every element grows. *)
Lemma kth_mono xs ys xs' ys' k x y : Forall2 ordle xs ys → xs' ≡ₚ xs → ys' ≡ₚ ys → StronglySorted ordle xs' → StronglySorted ordle ys' →
  xs' !! k = Some x → ys' !! k = Some y → ordle x y.
Proof using Hsw.
  intros Hxy Px Py Hx Hy Ex Ey. destruct (compareFn y x) eqn:E; [|done]. exfalso. pose proof (count_lt_pointwise x xs ys Hxy) as Hc.
  rewrite <- (count_lt_perm x _ _ Px), <- (count_lt_perm x _ _ Py) in Hc. rewrite <- (take_drop k xs'), <- (take_drop (S k) ys') in Hc. rewrite !count_lt_app in Hc.
  rewrite (count_lt_all x (take (S k) ys')) in Hc.
  - rewrite (count_lt_none x (drop k xs')) in Hc.
    + pose proof (count_lt_le x (take k xs')). rewrite length_take in *. apply lookup_lt_Some in Ex, Ey. lia.
    + apply Forall_lookup. intros i z Hz. rewrite lookup_drop in Hz. eapply sorted_le; [exact Hx| |exact Ex|exact Hz]. lia.
  - apply Forall_lookup. intros i z Hz. apply lookup_take_Some in Hz as [Hz Hi]. eapply ordle_lt_trans; [|exact E]. eapply sorted_le; [exact Hy| |exact Hz|exact Ey]. lia.
Qed.

(** Where [v] belongs in a sorted list. *)
Lemma lower_bound_spec l v : StronglySorted ordle l → 0 ≤ lower_bound compareFn l v ≤ len_of l ∧
  Forall (λ x, compareFn x v = true) (take (Z.to_nat (lower_bound compareFn l v)) l) ∧ Forall (ordle v) (drop (Z.to_nat (lower_bound compareFn l v)) l).
Proof using Hsw.
  induction 1 as [|x l Hs IH Hx]; simpl; [done|]. destruct (compareFn x v) eqn:E.
  - destruct IH as (H1 & H2 & H3). split; [lia|]. replace (Z.to_nat (1 + lower_bound compareFn l v)) with (S (Z.to_nat (lower_bound compareFn l v))) by lia. simpl. by repeat constructor.
  - split; [lia|]. split; [constructor|]. constructor; [done|]. eapply Forall_impl; [exact Hx|]. intros y Hy. by apply ordle_trans with x.
Qed.

Lemma lower_bound_mono l v w : ordle v w → lower_bound compareFn l v ≤ lower_bound compareFn l w.
Proof using Hsw.
  intros Hvw. assert (∀ l u, 0 ≤ lower_bound compareFn l u) as Hpos by (clear; induction l as [|x l IH]; intros u; simpl; [lia|]; destruct (compareFn x u); [specialize (IH u)|]; lia).
  induction l as [|x l IH]; simpl; [lia|]. destruct (compareFn x v) eqn:E.
  - rewrite (ordlt_le_trans x v w E Hvw). lia.
  - destruct (compareFn x w); [specialize (Hpos l w)|]; lia.
Qed.

(** ** Merging the sources of a segment *)

Lemma pop_min_spec h : match pop_min compareFn h with
  | None => h = []
  | Some (m, r) => h ≡ₚ m :: r ∧ ∀ x, x ∈ h → ordle m.1 x.1
  end.
Proof using Hsw.
  induction h as [|x h IH]; [done|]. cbn [pop_min]. destruct (pop_min compareFn h) as [[m r]|].
  - destruct IH as [Hp Hm]. destruct (compareFn m.1 x.1) eqn:E.
    + split; [rewrite Hp; by constructor|]. intros y [->|Hy]%elem_of_cons; [by apply ordlt_le|by apply Hm].
    + split; [done|]. intros y [->|Hy]%elem_of_cons; [apply ordle_refl|]. apply ordle_trans with m.1; [done|by apply Hm].
  - subst h. split; [done|]. intros y [->|?%elem_of_nil]%elem_of_cons; [apply ordle_refl|done].
Qed.

Context (input : list A).

(** What is left of a source. *)
Definition left_of (src : Z * Z) : list A := subrange input src.1 src.2.

Lemma left_cons c e : 0 ≤ c < e → e ≤ len_of input → ∃ x, load input c = Ok x ∧ left_of (c, e) = x :: left_of (c + 1, e).
Proof.
  intros Hc He. destruct (proj2 (zget_is_Some input c) ltac:(lia)) as [x Hx]. exists x. split; [by apply load_Some|]. unfold left_of, subrange. simpl.
  unfold zget in Hx. rewrite (proj2 (Z.leb_le _ _)) in Hx by lia. rewrite (drop_S _ _ _ Hx). replace (Z.to_nat (e - c)) with (S (Z.to_nat (e - (c + 1)))) by lia.
  simpl. by replace (Z.to_nat (c + 1)) with (S (Z.to_nat c)) by lia.
Qed.

Lemma left_nil c e : e ≤ c → left_of (c, e) = [].
Proof. intros H. unfold left_of, subrange. simpl. by replace (Z.to_nat (e - c)) with 0%nat by lia. Qed.

Definition src_ok (src : Z * Z) : Prop := 0 ≤ src.1 ∧ src.2 ≤ len_of input ∧ StronglySorted ordle (left_of src).

Lemma src_next_ok src : src_ok src → ∃ r, src_next input src = Ok r ∧
  match r with
  | Some (x, src') => left_of src = x :: left_of src' ∧ src_ok src' ∧ Forall (ordle x) (left_of src')
  | None => left_of src = []
  end.
Proof.
  destruct src as [c e]. intros (Hc & He & Hs). simpl in Hc, He. unfold src_next. destruct (Z.ltb_spec c e).
  - destruct (left_cons c e) as (x & -> & El); [lia|done|]. cbn [res_bind]. eexists. split; [done|]. simpl. rewrite El in Hs. apply StronglySorted_inv in Hs as [Hs Hx].
    split; [done|]. split; [|done]. unfold src_ok. simpl. split_and!; [lia|done|done].
  - eexists. split; [done|]. by apply left_nil.
Qed.

(** The heap holds, for every source that is not used up, an element no later
    than what is left of it. *)
Definition heap_ok (h : list (A * nat)) (srcs : list (Z * Z)) : Prop :=
  (∀ i src, srcs !! i = Some src → src_ok src ∧ (left_of src ≠ [] → ∃ x, (x, i) ∈ h ∧ Forall (ordle x) (left_of src))) ∧
  ∀ x i, (x, i) ∈ h → (i < length srcs)%nat ∧ ∀ src, srcs !! i = Some src → Forall (ordle x) (left_of src).

Lemma fill_heap_ok srcs k : Forall src_ok srcs → ∃ h srcs', fill_heap input k srcs = Ok (h, srcs') ∧ length srcs' = length srcs ∧
  h.*1 ++ (srcs' ≫= left_of) ≡ₚ srcs ≫= left_of ∧
  (∀ i src, srcs' !! i = Some src → src_ok src ∧ (left_of src ≠ [] → ∃ x, (x, (k + i)%nat) ∈ h ∧ Forall (ordle x) (left_of src))) ∧
  ∀ x i, (x, i) ∈ h → (k ≤ i < k + length srcs)%nat ∧ ∀ src, srcs' !! (i - k)%nat = Some src → Forall (ordle x) (left_of src).
Proof.
  revert k. induction srcs as [|src srcs IH]; intros k Hs; cbn [fill_heap].
  { exists [], []. split_and!; try done; intros ? ? ?%elem_of_nil; done. }
  apply Forall_cons in Hs as [Hsrc Hs]. destruct (src_next_ok src Hsrc) as (r & -> & Hr). cbn [res_bind].
  destruct (IH (S k) Hs) as (h & rest & -> & Hlen & Hp & H1 & H2). cbn [res_bind].
  assert (∀ x i, (x, i) ∈ h → (S k ≤ i)%nat) as Hge by (intros x i Hi; destruct (H2 x i Hi); lia).
  destruct r as [[x src']|].
  - destruct Hr as (El & Hok & Hle). exists ((x, k) :: h), (src' :: rest). split; [done|]. split_and!; [simpl; lia| | |].
    + rewrite !bind_cons, El. simpl. constructor. rewrite <- Hp. rewrite !app_assoc. apply Permutation_app; [apply Permutation_app_comm|done].
    + intros [|i] s Hi; simpl in Hi.
      * injection Hi as <-. split; [done|]. intros _. exists x. rewrite Nat.add_0_r. split; [by left|done].
      * destruct (H1 i s Hi) as [Hok2 Hn]. split; [done|]. intros Hne. destruct (Hn Hne) as (y & Hy & Hyl). exists y. split; [right; by replace (k + S i)%nat with (S k + i)%nat by lia|done].
    + intros y i [[= -> ->]|Hi]%elem_of_cons; [split; [simpl; lia|rewrite Nat.sub_diag; intros s [= <-]; done]|].
      destruct (H2 y i Hi) as [Hb Hf]. split; [simpl; lia|]. intros s Hsi. apply Hf. replace (i - k)%nat with (S (i - S k)) in Hsi by lia. done.
  - exists h, (src :: rest). split; [done|]. split_and!; [simpl; lia| | |].
    + rewrite !bind_cons, Hr. done.
    + intros [|i] s Hi; simpl in Hi.
      * injection Hi as <-. split; [done|]. by rewrite Hr.
      * destruct (H1 i s Hi) as [Hok2 Hn]. split; [done|]. intros Hne. destruct (Hn Hne) as (y & Hy & Hyl). exists y. split; [by replace (k + S i)%nat with (S k + i)%nat by lia|done].
    + intros y i Hi. destruct (H2 y i Hi) as [Hb Hf]. split; [simpl; lia|]. intros s Hsi. apply Hf. replace (i - k)%nat with (S (i - S k)) in Hsi by lia. done.
Qed.

(** Spans are added up without wrapping around. *)
Lemma span_ok rs acc : Forall (λ r : Z * Z, 0 ≤ r.1 ≤ r.2 ∧ r.2 ≤ len_of input) rs → 0 ≤ acc → acc + len_of (rs ≫= left_of) < 2 ^ 63 →
  foldl (λ acc '(b, e), u64 (acc + (e - b))) acc rs = acc + len_of (rs ≫= left_of).
Proof.
  revert acc. induction rs as [|[b e] rs IH]; intros acc Hr Ha Hs; [simpl; lia|]. apply Forall_cons in Hr as [Hbe Hr]. simpl in Hbe. rewrite bind_cons in Hs |- *. rewrite length_app in Hs |- *.
  assert (len_of (left_of (b, e)) = e - b) as El by (unfold left_of; apply length_subrange; simpl; lia). simpl. rewrite u64_small by lia. rewrite IH by (done || lia). lia.
Qed.

Lemma bind_insert {X Y} (f : X → list Y) l i x y : l !! i = Some x → ∃ r, l ≫= f ≡ₚ f x ++ r ∧ <[i := y]> l ≫= f ≡ₚ f y ++ r.
Proof.
  intros Hx. exists ((take i l ≫= f) ++ (drop (S i) l ≫= f)). pose proof (lookup_lt_Some _ _ _ Hx) as Hlt. rewrite insert_take_drop by done.
  rewrite <- (take_drop_middle _ _ _ Hx) at 1. rewrite !bind_app, !bind_cons. rewrite !app_assoc. split; (apply Permutation_app; [apply Permutation_app_comm|done]).
Qed.

Lemma heap_ok_nil srcs : heap_ok [] srcs → srcs ≫= left_of = [].
Proof.
  intros [Hsrc _]. induction srcs as [|s srcs IH]; [done|]. rewrite bind_cons. destruct (Hsrc 0%nat s eq_refl) as [_ Hs].
  destruct (left_of s); [|by destruct Hs as (? & ?%elem_of_nil & _)]. apply IH. intros j t Hj. destruct (Hsrc (S j) t Hj) as [? Hn].
  split; [done|]. intros Ht. by destruct (Hn Ht) as (? & ?%elem_of_nil & _).
Qed.

Lemma merge_loop_ok fuel h srcs : heap_ok h srcs → (length h + length (srcs ≫= left_of) ≤ fuel)%nat →
  ∃ out, merge_loop compareFn fuel input h srcs = Ok out ∧ out ≡ₚ h.*1 ++ (srcs ≫= left_of) ∧ StronglySorted ordle out.
Proof using Hsw.
  revert h srcs. induction fuel as [|fuel IH]; intros h srcs [Hsrc Hheap] Hf; cbn [merge_loop]; pose proof (pop_min_spec h) as Hpop;
    (destruct (pop_min compareFn h) as [[[x i] h']|];
    [|subst h; exists []; split; [done|]; split; [by rewrite (heap_ok_nil srcs (conj Hsrc Hheap))|apply SSorted_nil]]).
  { destruct Hpop as [Hp _]. apply Permutation_length in Hp. simpl in Hp. lia. }
  destruct Hpop as [Hp Hmin]. simpl in Hmin. destruct (Hheap x i) as [Hi Hx]; [rewrite Hp; by left|].
  destruct (lookup_lt_is_Some_2 srcs i Hi) as [src Hs]. rewrite Hs. destruct (Hsrc i src Hs) as [Hok _]. destruct (src_next_ok src Hok) as (r & -> & Hr). cbn [res_bind].
  assert (∀ y, y ∈ srcs ≫= left_of → ordle x y) as Hrest.
  { intros y (t & Hy & Ht)%list_elem_of_bind. apply list_elem_of_lookup in Ht as [k Hk]. destruct (Hsrc k t Hk) as [_ Hn].
    destruct Hn as (z & Hz & Hzl); [intros E; rewrite E in Hy; by apply elem_of_nil in Hy|]. apply ordle_trans with z; [by apply (Hmin _ Hz)|]. by apply (proj1 (Forall_forall _ _) Hzl). }
  assert (Forall (ordle x) (h'.*1 ++ (srcs ≫= left_of))) as Hall.
  { apply Forall_app. split; [|by apply Forall_forall]. apply Forall_forall. intros y (d & -> & Hd)%list_elem_of_fmap. apply Hmin. rewrite Hp. by right. }
  assert (∀ out r', out ≡ₚ r' → r' ≡ₚ h'.*1 ++ (srcs ≫= left_of) → StronglySorted ordle out → x :: out ≡ₚ h.*1 ++ (srcs ≫= left_of) ∧ StronglySorted ordle (x :: out)) as Hdone.
  { intros out r' E1 E2 Hs2. split; [rewrite E1, E2; rewrite Hp; done|]. constructor; [done|]. rewrite E1, E2. done. }
  apply Permutation_length in Hp as Hplen. simpl in Hplen.
  destruct r as [[y src']|].
  - destruct Hr as (El & Hok' & Hle). destruct (bind_insert left_of srcs i src src' Hs) as (q & Eq1 & Eq2).
    destruct (IH ((y, i) :: h') (<[i := src']> srcs)) as (out & E & Hperm & Hsort).
    + split.
      * intros k t Hk. apply list_lookup_insert_Some in Hk as [(<- & <- & _)|[Hne Hk]]; [split; [done|]; intros _; exists y; split; [by left|done]|].
        destruct (Hsrc k t Hk) as [Hok2 Hn]. split; [done|]. intros Ht. destruct (Hn Ht) as (z & Hz & Hzl). exists z. split; [|done]. rewrite Hp in Hz.
        apply elem_of_cons in Hz as [[= -> ->]|Hz]; [done|by right].
      * intros z k Hz. rewrite length_insert. apply elem_of_cons in Hz as [[= -> ->]|Hz].
        -- split; [done|]. intros t Ht. rewrite list_lookup_insert_eq in Ht by done. by injection Ht as <-.
        -- destruct (Hheap z k) as [Hk Hzl]; [rewrite Hp; by right|]. split; [done|]. intros t Ht. apply list_lookup_insert_Some in Ht as [(<- & <- & _)|[Hne Ht]]; [|by apply Hzl].
           specialize (Hzl src Hs). rewrite El in Hzl. by apply Forall_cons in Hzl as [_ ?].
    + apply Permutation_length in Eq1, Eq2. rewrite El in Eq1. rewrite length_app in Eq1, Eq2. simpl in *. lia.
    + rewrite E. cbn [res_bind]. eexists. split; [done|]. eapply Hdone; [exact Hperm| |done]. rewrite Eq1, Eq2, El. simpl. rewrite <- !Permutation_middle. done.
  - destruct (IH h' srcs) as (out & E & Hperm & Hsort).
    + split.
      * intros k t Hk. destruct (Hsrc k t Hk) as [Hok2 Hn]. split; [done|]. intros Ht. destruct (Hn Ht) as (z & Hz & Hzl). exists z. split; [|done]. rewrite Hp in Hz.
        apply elem_of_cons in Hz as [[= -> ->]|Hz]; [|done]. rewrite Hs in Hk. injection Hk as <-. done.
      * intros z k Hz. apply Hheap. rewrite Hp. by right.
    + lia.
    + rewrite E. cbn [res_bind]. eexists. split; [done|]. by eapply Hdone.
Qed.
End order.
