(* ===== verification/SortingProps.v ===== *)
(** * Parallel sorting: the result is a sorted permutation of the input *)

From S2P Require Import Prelude FlexBuffer Heap SchedulerQueue Sorting SortingMerge.
From stdpp Require Import sorting.
#[local] Open Scope Z_scope.
#[local] Abbreviation len_of l := (Z.of_nat (length l)).

(** What std::sort promises for a comparator that is a strict weak order of the
    elements it is given. *)
Definition std_sort_spec (std_sort : ∀ B : Type, (B → B → bool) → list B → list B) : Prop :=
  ∀ (B : Type) (f : B → B → bool) (l : list B),
    (∀ x y, x ∈ l → y ∈ l → f x y = true → f y x = false) →
    (∀ x y z, x ∈ l → y ∈ l → z ∈ l → f x y = false → f y z = false → f x z = false) →
    std_sort B f l ≡ₚ l ∧ StronglySorted (λ x y, f y x = false) (std_sort B f l).

(** ** The numbers of splits and separators *)

(** Every split has elements, and the asserted bounds hold. *)
Definition split_ok (n k m : Z) : Prop :=
  1 ≤ k ∧ 1 ≤ m ≤ 512 ∧ n ≤ k * splitSizeFor n k ∧ (k - 1) * splitSizeFor n k < n ∧ 1 ≤ splitSizeFor n k < 2000000000.

Lemma splitSize_ok n k : 1 ≤ k → 1 ≤ n → (k - 1) * (k - 1) < n → n < 1000000000 * k → 
  n ≤ k * splitSizeFor n k ∧ (k - 1) * splitSizeFor n k < n ∧ 1 ≤ splitSizeFor n k < 2000000000.
Proof.
  intros Hk Hn Hq Hm. unfold splitSizeFor. set (c := (n + k - 1) / k). pose proof (Z.mul_div_le (n + k - 1) k ltac:(lia)) as Hle. pose proof (Z.mul_succ_div_gt (n + k - 1) k ltac:(lia)) as Hgt.
  fold c in Hle, Hgt. assert (n ≤ k * c) as H1 by lia. split; [done|].
  assert (1 ≤ c) as Hc by (destruct (Z.le_gt_cases 1 c); [done|]; assert (k * c ≤ 0) by (apply Z.mul_nonneg_nonpos; lia); lia).
  split; [|split; [done|]; destruct (Z.lt_ge_cases c 2000000000); [done|]; assert (k * 2000000000 ≤ k * c) by (apply Z.mul_le_mono_nonneg_l; lia); lia].
  destruct (Z.lt_ge_cases ((k - 1) * c) n) as [|Hbad]; [done|]. exfalso.
  assert (k * n ≤ k * ((k - 1) * c)) by (apply Z.mul_le_mono_nonneg_l; lia). assert ((k - 1) * (k * c) ≤ (k - 1) * (n + k - 1)) by (apply Z.mul_le_mono_nonneg_l; lia). lia.
Qed.

Lemma div_sandwich a b : 0 < b → b * (a / b) ≤ a < b * (a / b) + b.
Proof. intros Hb. pose proof (Z.div_mod a b ltac:(lia)). pose proof (Z.mod_pos_bound a b Hb). lia. Qed.

Lemma normalizeSepCnt_ok n k m : 1 ≤ k → 64 * k ≤ n → 1 ≤ m ≤ 512 → 1 ≤ normalizeSepCnt n k m ≤ 512.
Proof.
  intros Hk Hn Hm. unfold normalizeSepCnt. assert (64 ≤ n / k) by (apply Z.div_le_lower_bound; lia).
  destruct (Z.ltb_spec (n / k) (8 * m)); [|done]. pose proof (div_sandwich (n / k) 8 ltac:(lia)). lia.
Qed.

Lemma calcSplitSeperator_ok n w : 1 ≤ w ≤ 128 → 512 < n < 2 ^ 34 → split_ok n (calcSplitSeperator n w).1 (calcSplitSeperator n w).2.
Proof.
  intros Hw Hn. unfold calcSplitSeperator, minSplitSize. pose proof (div_sandwich n w ltac:(lia)) as Hs. set (s := n / w) in *.
  assert (∀ b, s ≤ b → n ≤ w * b + w) as Hup by (intros b Hb; assert (w * s ≤ w * b) by (apply Z.mul_le_mono_nonneg_l; lia); lia).
  assert (∀ b, b ≤ s → w * b ≤ n) as Hlo by (intros b Hb; assert (w * b ≤ w * s) by (apply Z.mul_le_mono_nonneg_l; lia); lia).
  assert (∀ k m, 1 ≤ k → 64 * k ≤ n → (k - 1) * (k - 1) < n → n < 1000000000 * k → 1 ≤ m ≤ 512 → split_ok n k (normalizeSepCnt n k m)) as Hok.
  { intros k m H1 H2 H3 H4 H5. split; [done|]. split; [by apply normalizeSepCnt_ok|]. apply splitSize_ok; lia. }
  assert (∀ k b, 1 ≤ k ≤ b → b * k ≤ n → (k - 1) * (k - 1) < n) as Hsq.
  { intros k b Hk Hb. destruct (decide (k = 1)) as [->|]; [lia|]. assert ((k - 1) * k ≤ b * k) by (apply Z.mul_le_mono_nonneg_r; lia). lia. }
  destruct (Z.ltb_spec s (512 * 4)).
  - simpl. specialize (Hup 2047 ltac:(lia)). pose proof (div_sandwich n 512 ltac:(lia)). apply Hok; try lia. apply Hsq with 512; lia.
  - destruct (Z.ltb_spec (32768 * 4) s); simpl.
    + destruct (Z.ltb_spec (32768 * 16) s).
      * specialize (Hlo (32768 * 16 + 1) ltac:(lia)). pose proof (div_sandwich n (32768 * 4) ltac:(lia)). apply Hok; try lia. apply Hsq with 131072; lia.
      * specialize (Hup (32768 * 16) ltac:(lia)). specialize (Hlo (32768 * 4 + 1) ltac:(lia)). pose proof (div_sandwich n (32768 * 2) ltac:(lia)). apply Hok; try lia. apply Hsq with 65536; lia.
    + specialize (Hup (32768 * 4) ltac:(lia)). destruct (Z.ltb_spec 65536 s).
      * specialize (Hlo 65537 ltac:(lia)). apply Hok; try lia. apply Hsq with 512; lia.
      * specialize (Hlo 2048 ltac:(lia)). apply Hok; try lia. apply Hsq with 256; lia.
Qed.

Section sort.
Context {A : Type} (compareFn : A → A → bool) (Hsw : strict_weak compareFn).
Context (std_sort : ∀ B : Type, (B → B → bool) → list B → list B) (Hsort : std_sort_spec std_sort).

(** ** Copying *)

Lemma copy_ok buffers order (null : A) : order ≡ₚ seq 0 (length buffers) →
  perform_all (copy_perform buffers) order (replicate (Z.to_nat (len_of (concat buffers))) null) = Ok (concat buffers).
Proof.
  intros Ho. set (cells := (λ b : list A, replicate (length b) null) <$> buffers).
  destruct (perform_cells (λ cells s, s = concat cells ∧ length <$> cells = length <$> buffers) (λ i _, default [] (buffers !! i)) (copy_perform buffers)) with (order := order) (cells := cells) (s := concat cells) as (s & E & -> & _).
  - intros i c s x [-> Hlen] Hx. assert (∃ b, buffers !! i = Some b ∧ length x = length b) as (b & Hb & Hxb).
    { pose proof (f_equal (.!! i) Hlen) as Hi. rewrite !list_lookup_fmap, Hx in Hi. destruct (buffers !! i) as [b|]; [|done]. injection Hi as Hi. by exists b. }
    unfold copy_perform. rewrite Hb. simpl. fold (offset buffers i). change (bufferOffset buffers i) with (offset buffers i). rewrite <- (offset_ext c buffers i Hlen), (write_block c i x b Hx) by done.
    eexists. split; [done|]. split; [done|]. rewrite list_fmap_insert, Hlen. apply list_insert_id. by rewrite list_lookup_fmap, Hb.
  - split; [done|]. unfold cells. rewrite <- list_fmap_compose. apply list_fmap_ext. intros ? b _. simpl. apply length_replicate.
  - unfold cells. by rewrite length_fmap.
  - assert (concat cells = replicate (Z.to_nat (len_of (concat buffers))) null) as <-.
    { rewrite Nat2Z.id. unfold cells. clear. induction buffers as [|b bs IH]; [done|]. csimpl. rewrite IH, length_app. by rewrite replicate_add. }
    rewrite E. do 2 f_equal. apply list_eq. intros i. rewrite list_lookup_imap. unfold cells. rewrite list_lookup_fmap. by destruct (buffers !! i).
Qed.

(** ** Sorting the splits *)

Lemma std_sort_ok l : std_sort A compareFn l ≡ₚ l ∧ StronglySorted (ordle compareFn) (std_sort A compareFn l).
Proof using Hsort Hsw. apply Hsort; intros *; intros; [by apply (sw_asym _ Hsw)|by eapply (sw_trans _ Hsw)]. Qed.

Lemma chop_length {B} c k (l : list B) : length (chop c k l) = k.
Proof. unfold chop. by rewrite length_fmap, length_seq. Qed.

Lemma chop_block {B} (l : list B) k m i x : let c := splitSizeFor (len_of l) k in split_ok (len_of l) k m → chop c (Z.to_nat k) l !! i = Some x →
  (i < Z.to_nat k)%nat ∧ offset (chop c (Z.to_nat k) l) i = Z.of_nat i * c ∧ 1 ≤ len_of x ≤ c ∧
  Z.of_nat i * c + len_of x = Z.min ((Z.of_nat i + 1) * c) (len_of l).
Proof.
  intros c (Hk & Hm & H1 & H2 & H3) Hx. fold c in H1, H2, H3. apply lookup_lt_Some in Hx as Hi. rewrite chop_length in Hi. split; [done|].
  assert (Z.of_nat i * c ≤ (k - 1) * c) by (apply Z.mul_le_mono_nonneg_r; lia).
  split; [apply offset_chop; lia|]. unfold chop in Hx. rewrite list_lookup_fmap, lookup_seq_lt in Hx by done. injection Hx as <-. simpl.
  unfold subrange. rewrite length_take, length_drop. lia.
Qed.

(** What is known of a split that is sorted. *)
Definition localSplit (c m : Z) (i : nat) (l : list A) : SortSplitState :=
  mkSplit (Z.of_nat i * c) (Z.of_nat i * c + len_of l) (sepIndex (Z.of_nat i * c + len_of l / m / 2) (len_of l) m <$> seqZ 0 m) [].

Lemma local_ok input k m order : let c := splitSizeFor (len_of input) k in let sorted := std_sort A compareFn <$> chop c (Z.to_nat k) input in
  split_ok (len_of input) k m → order ≡ₚ seq 0 (Z.to_nat k) →
  perform_all (local_perform compareFn std_sort k m) order (input, replicate (Z.to_nat k) emptySplit) = Ok (concat sorted, imap (localSplit c m) sorted).
Proof using Hsort Hsw.
  intros c sorted Hok Ho. set (blocks := chop c (Z.to_nat k) input) in *. pose proof Hok as (Hk & Hm & H1 & H2 & H3). fold c in H1, H2, H3.
  assert (concat blocks = input) as Econ by (unfold blocks; rewrite concat_chop by lia; rewrite Z.min_r by lia; rewrite Nat2Z.id; apply take_ge; lia).
  set (cells := (λ b, (b, emptySplit)) <$> blocks).
  destruct (perform_cells (λ cells s, s = (concat cells.*1, cells.*2) ∧ length <$> cells.*1 = length <$> blocks ∧ Forall (λ x, globalSeperators x.2 = []) cells)
    (λ i x, (std_sort A compareFn x.1, localSplit c m i x.1)) (local_perform compareFn std_sort k m)) with (order := order) (cells := cells) (s := (input, replicate (Z.to_nat k) emptySplit)) as (s & E & -> & _).
  - intros i cs s [x st] (-> & Hlen & Hg) Hx. assert (∃ b, blocks !! i = Some b ∧ length x = length b) as (b & Hb & Hxb).
    { pose proof (f_equal (.!! i) Hlen) as Hi. rewrite !list_lookup_fmap, Hx in Hi. destruct (blocks !! i) as [b|]; [|done]. injection Hi as Hi. by exists b. }
    destruct (chop_block input k m i b Hok Hb) as (Hi & Eo & Hb1 & Hb2). fold c blocks in Eo, Hb1, Hb2. assert (length (concat cs.*1) = length input) as Eni.
    { rewrite <- Econ. by apply concat_length_ext. }
    unfold local_perform. rewrite Eni. fold c.
    replace (if len_of input <? (Z.of_nat i + 1) * c then len_of input else (Z.of_nat i + 1) * c) with (Z.of_nat i * c + len_of x) by (destruct (Z.ltb_spec (len_of input) ((Z.of_nat i + 1) * c)); lia).
    rewrite (proj2 (Z.ltb_ge _ _)) by lia. assert (cs.*1 !! i = Some x) as Hx1 by (by rewrite list_lookup_fmap, Hx). assert (offset cs.*1 i = Z.of_nat i * c) as Eof by (rewrite <- Eo; by apply offset_ext).
    rewrite <- Eof, (subrange_block _ _ _ Hx1). destruct (std_sort_ok x) as [Hp _]. rewrite (write_block _ _ _ _ Hx1) by (by rewrite Hp). cbn [res_bind].
    rewrite (proj2 (Z.eqb_neq _ _)) by lia. replace (offset cs.*1 i + len_of x - offset cs.*1 i) with (len_of x) by lia. rewrite !(proj2 (Z.ltb_lt _ _)) by lia. cbn [assert_ res_bind].
    rewrite list_lookup_fmap, Hx. cbn [fmap option_fmap option_map snd]. eexists. split; [done|]. rewrite Eof. pose proof (proj1 (Forall_lookup _ _) Hg i _ Hx) as Hst. cbn [snd] in Hst. rewrite Hst.
    split_and!; [by rewrite !list_fmap_insert| |apply Forall_insert; done].
    rewrite !list_fmap_insert, Hlen. apply list_insert_id. rewrite list_lookup_fmap, Hb. simpl. by rewrite Hp, Hxb.
  - unfold cells. rewrite <- !list_fmap_compose. split_and!.
    + f_equal; [rewrite <- Econ at 1; f_equal; symmetry; by apply list_fmap_id|]. apply list_eq. intros i. rewrite list_lookup_fmap. destruct (blocks !! i) as [b|] eqn:Eb.
      * apply lookup_replicate_2. apply lookup_lt_Some in Eb. unfold blocks in Eb. by rewrite chop_length in Eb.
      * apply lookup_replicate_None. apply lookup_ge_None in Eb. unfold blocks in Eb. by rewrite chop_length in Eb.
    + apply list_fmap_ext. done.
    + apply Forall_fmap, Forall_true. done.
  - unfold cells, blocks. by rewrite length_fmap, chop_length.
  - rewrite E. do 2 f_equal.
    + f_equal. apply list_eq. intros i. unfold sorted, cells. rewrite !list_lookup_fmap, list_lookup_imap, list_lookup_fmap. fold blocks. by destruct (blocks !! i).
    + apply list_eq. intros i. unfold sorted, cells. rewrite !list_lookup_fmap, !list_lookup_imap, !list_lookup_fmap. fold blocks. destruct (blocks !! i) as [b|]; [|done]. simpl. f_equal. unfold localSplit.
      destruct (std_sort_ok b) as [Hp _]. by rewrite Hp.
Qed.

(** ** Global separators *)

Section search.
Context (blocks : list (list A)) (c m : Z).
#[local] Abbreviation input := (concat blocks).
Context (Hm : 1 ≤ m ≤ 512) (Hne : blocks ≠ []).
Context (Hblock : ∀ i l, blocks !! i = Some l →
  StronglySorted (ordle compareFn) l ∧ 1 ≤ len_of l ∧ offset blocks i = Z.of_nat i * c ∧ 0 ≤ Z.of_nat i * c ∧ Z.of_nat i * c + len_of l < 2 ^ 40).

Definition localSep (j i : nat) (l : list A) : Z := sepIndex (Z.of_nat i * c + len_of l / m / 2) (len_of l) m (Z.of_nat j).
Definition samePos (j : nat) : list Z := imap (localSep j) blocks.

Lemma localSep_ok i l j : blocks !! i = Some l → (j < Z.to_nat m)%nat →
  let q := localSep j i l - Z.of_nat i * c in 0 ≤ q < len_of l ∧ zget input (localSep j i l) = l !! Z.to_nat q ∧ is_Some (zget input (localSep j i l)).
Proof using Hm Hblock.
  intros Hl Hj q. destruct (Hblock i l Hl) as (_ & Hlen & Ho & H0 & Hb). pose proof (sepIndex_bounds (Z.of_nat i * c) (len_of l) m (Z.of_nat j)) as Hs. fold (localSep j i l) in Hs.
  assert (0 ≤ q < len_of l) as Hq by (unfold q; lia). assert (zget input (localSep j i l) = l !! Z.to_nat q) as E.
  { replace (localSep j i l) with (offset blocks i + q) by (unfold q; lia). rewrite (zget_concat blocks i l q Hl Hq). unfold zget. by rewrite (proj2 (Z.leb_le _ _)) by lia. }
  split_and!; [lia..|done|]. rewrite E. apply lookup_lt_is_Some_2. lia.
Qed.

Lemma samePos_valid j p : (j < Z.to_nat m)%nat → p ∈ samePos j → is_Some (zget input p).
Proof using Hm Hblock.
  intros Hj Hp. apply list_elem_of_lookup in Hp as [i Hi]. unfold samePos in Hi. rewrite list_lookup_imap in Hi. destruct (blocks !! i) as [l|] eqn:El; [|done]. injection Hi as <-.
  by destruct (localSep_ok i l j El Hj) as (_ & _ & ?).
Qed.

(** The values at a list of valid positions. *)
Lemma omap_values_lookup (ps : list Z) (k : nat) : (∀ p, p ∈ ps → is_Some (zget input p)) → omap (zget input) ps !! k = ps !! k ≫= zget input.
Proof.
  revert k. induction ps as [|p ps IH]; intros k Hp; [done|]. destruct (Hp p) as [v Hv]; [by left|]. csimpl. rewrite Hv. destruct k as [|k]; [by simpl|].
  apply IH. intros q Hq. apply Hp. by right.
Qed.

Lemma omap_values_sorted (ps : list Z) : (∀ p, p ∈ ps → is_Some (zget input p)) → StronglySorted (λ x y, less_at compareFn input y x = false) ps →
  StronglySorted (ordle compareFn) (omap (zget input) ps).
Proof.
  intros Hp Hs. induction Hs as [|p ps _ IH Hall]; [constructor|]. destruct (Hp p) as [v Hv]; [by left|]. csimpl. rewrite Hv. constructor.
  - apply IH. intros q Hq. apply Hp. by right.
  - apply Forall_forall. intros w Hw. apply list_elem_of_omap in Hw as (q & Hq & Ew). pose proof (proj1 (Forall_forall _ _) Hall q Hq) as H. unfold less_at in H. by rewrite Ew, Hv in H.
Qed.

Definition sortedPos (j : nat) : list Z := std_sort Z (less_at compareFn input) (samePos j).
(** The value of global separator [j]. *)
Definition sepVal (j : nat) : option A := sortedPos j !! (length (sortedPos j) / 2)%nat ≫= zget input.

Lemma sortedPos_ok j : (j < Z.to_nat m)%nat → sortedPos j ≡ₚ samePos j ∧ StronglySorted (λ x y, less_at compareFn input y x = false) (sortedPos j).
Proof using Hm Hblock Hsort Hsw.
  intros Hj. apply Hsort.
  - intros x y _ _. unfold less_at. destruct (zget input x), (zget input y); try done. apply (sw_asym _ Hsw).
  - intros x y z [? Hx]%samePos_valid [? Hy]%samePos_valid [? Hz]%samePos_valid; [|done..]. unfold less_at. rewrite Hx, Hy, Hz. apply (sw_trans _ Hsw).
Qed.

Lemma sortedPos_valid j p : (j < Z.to_nat m)%nat → p ∈ sortedPos j → is_Some (zget input p).
Proof using Hm Hblock Hsort Hsw. intros Hj Hp. rewrite (proj1 (sortedPos_ok j Hj)) in Hp. by eapply samePos_valid. Qed.

Lemma sortedPos_length j : (j < Z.to_nat m)%nat → length (sortedPos j) = length blocks.
Proof using Hm Hblock Hsort Hsw. intros Hj. rewrite (proj1 (sortedPos_ok j Hj)). unfold samePos. apply length_imap. Qed.

Lemma sepVal_Some j : (j < Z.to_nat m)%nat → ∃ p v, sortedPos j !! (length (sortedPos j) / 2)%nat = Some p ∧ load input p = Ok v ∧ sepVal j = Some v.
Proof using Hm Hne Hblock Hsort Hsw.
  intros Hj. destruct (lookup_lt_is_Some_2 (sortedPos j) (length (sortedPos j) / 2)) as [p Hp].
  { rewrite sortedPos_length by done. apply Nat.div_lt; [|lia]. destruct blocks; [done|simpl; lia]. }
  destruct (sortedPos_valid j p Hj) as [v Hv]; [by eapply list_elem_of_lookup_2|]. exists p, v. split_and!; [done|by apply load_Some|]. unfold sepVal. by rewrite Hp.
Qed.

Lemma sepVal_mono j j' v v' : (j ≤ j' < Z.to_nat m)%nat → sepVal j = Some v → sepVal j' = Some v' → ordle compareFn v v'.
Proof using Hm Hblock Hsort Hsw.
  intros Hj Hv Hv'. unfold sepVal in Hv, Hv'. rewrite sortedPos_length in Hv, Hv' by lia.
  assert (∀ p, p ∈ samePos j → is_Some (zget input p)) as V1 by (intros; eapply (samePos_valid j); [lia|done]).
  assert (∀ p, p ∈ samePos j' → is_Some (zget input p)) as V2 by (intros; eapply (samePos_valid j'); [lia|done]).
  rewrite <- omap_values_lookup in Hv, Hv' by (intros; eapply sortedPos_valid; [|done]; lia).
  destruct (sortedPos_ok j ltac:(lia)) as [P1 S1]. destruct (sortedPos_ok j' ltac:(lia)) as [P2 S2].
  eapply (kth_mono compareFn Hsw (omap (zget input) (samePos j)) (omap (zget input) (samePos j')) (omap (zget input) (sortedPos j)) (omap (zget input) (sortedPos j'))); [|by rewrite P1|by rewrite P2| | |exact Hv|exact Hv'].
  2-3: apply omap_values_sorted; [intros; eapply sortedPos_valid; [|done]; lia|done].
  apply Forall2_same_length_lookup. split.
  - enough (∀ ps : list Z, (∀ p, p ∈ ps → is_Some (zget input p)) → length (omap (zget input) ps) = length ps) as H by (rewrite !H by done; unfold samePos; by rewrite !length_imap).
    induction ps as [|p ps IH]; intros Hp; [done|]. destruct (Hp p) as [w Hw]; [by left|]. csimpl. rewrite Hw. simpl. f_equal. apply IH. intros q Hq. apply Hp. by right.
  - intros i x y Hx Hy. rewrite omap_values_lookup in Hx, Hy by done. unfold samePos in Hx, Hy. rewrite list_lookup_imap in Hx, Hy. destruct (blocks !! i) as [l|] eqn:El; [|done]. simpl in Hx, Hy.
    destruct (localSep_ok i l j El ltac:(lia)) as (B1 & E1 & _). destruct (localSep_ok i l j' El ltac:(lia)) as (B2 & E2 & _). rewrite E1 in Hx. rewrite E2 in Hy.
    destruct (Hblock i l El) as (Hs & ? & ? & ? & ?). eapply (sorted_le compareFn Hsw l); [exact Hs| |exact Hx|exact Hy].
    assert (localSep j i l ≤ localSep j' i l); [|lia]. apply sepIndex_mono; [|lia..]. pose proof (Z.div_pos (len_of l / m) 2). pose proof (Z.div_pos (len_of l) m). lia.
Qed.

(** The place of a separator in a split. *)
Definition posn (i : nat) (l : list A) (v : option A) : Z :=
  match v with Some v => lower_bound compareFn l v + Z.of_nat i * c | None => 0 end.
Definition splitWith (vs : list (option A)) (i : nat) (l : list A) : SortSplitState :=
  mkSplit (Z.of_nat i * c) (Z.of_nat i * c + len_of l) (localSeperators (localSplit c m i l)) (posn i l <$> vs).
Definition sepVals : list (option A) := sepVal <$> seq 0 (Z.to_nat m).

Lemma search_step j cells : (j < Z.to_nat m)%nat → length cells = Z.to_nat m →
  search_perform compareFn std_sort input j (imap (splitWith cells) blocks) = Ok (imap (splitWith (<[j := sepVal j]> cells)) blocks).
Proof using Hm Hne Hblock Hsort Hsw.
  intros Hj Hlen. unfold search_perform. rewrite (mapR_ok _ _ (samePos j)).
  2:{ apply Forall2_same_length_lookup. split; [unfold samePos; by rewrite !length_imap|]. intros i st p Hst Hp. unfold samePos in Hp. rewrite list_lookup_imap in Hst; rewrite list_lookup_imap in Hp.
      destruct (blocks !! i) as [l|]; [|done]. injection Hst as <-. injection Hp as <-. simpl. rewrite list_lookup_fmap, lookup_seqZ_lt by lia. done. }
  cbn [res_bind]. destruct (mapR_is_ok (load input) (samePos j)) as [vs ->].
  { intros p [v Hv]%samePos_valid; [|done]. exists v. by apply load_Some. }
  cbn [res_bind]. fold (sortedPos j). destruct (sepVal_Some j Hj) as (p & v & Hp & Hv & Ev). rewrite Hp, Hv. cbn [res_bind]. f_equal.
  apply list_eq. intros i. rewrite list_lookup_fmap, !list_lookup_imap. destruct (blocks !! i) as [l|] eqn:El; [|done]. destruct (Hblock i l El) as (_ & _ & Ho & _). simpl. f_equal.
  unfold set_global, splitWith. simpl. f_equal. rewrite list_fmap_insert. f_equal. rewrite Ev. simpl. do 2 f_equal. rewrite <- Ho. by apply subrange_block.
Qed.

Lemma search_ok order : order ≡ₚ seq 0 (Z.to_nat m) →
  perform_all (search_perform compareFn std_sort input) order (imap (splitWith (replicate (Z.to_nat m) None)) blocks) = Ok (imap (splitWith sepVals) blocks).
Proof using Hm Hne Hblock Hsort Hsw.
  intros Ho. destruct (perform_cells (λ cells s, s = imap (splitWith cells) blocks ∧ length cells = Z.to_nat m) (λ j _, sepVal j) (search_perform compareFn std_sort input))
    with (order := order) (cells := replicate (Z.to_nat m) (@None A)) (s := imap (splitWith (replicate (Z.to_nat m) None)) blocks) as (s & E & -> & _).
  - intros j cells s x [-> Hlen] Hx. apply lookup_lt_Some in Hx. rewrite search_step by lia. eexists. split; [done|]. split; [done|]. by rewrite length_insert.
  - by rewrite length_replicate.
  - by rewrite length_replicate.
  - rewrite E. do 2 f_equal. f_equal. apply list_eq. intros j. rewrite list_lookup_imap. unfold sepVals. rewrite list_lookup_fmap. destruct (decide (j < Z.to_nat m)%nat).
    + by rewrite lookup_replicate_2, lookup_seq_lt by done.
    + rewrite (lookup_ge_None_2 (replicate _ _)) by (rewrite length_replicate; lia). by rewrite lookup_seq_ge by lia.
Qed.

(** ** Segments *)

(** Where segment [t] of a sorted split begins. *)
Definition rcut (l : list A) (t : nat) : Z :=
  match t with
  | O => 0
  | S j => if decide (j < Z.to_nat m)%nat then match sepVal j with Some v => lower_bound compareFn l v | None => 0 end else len_of l
  end.
Definition piece (l : list A) (t : nat) : list A := subrange l (rcut l t) (rcut l (S t)).
Definition srcs (t : nat) : list (Z * Z) := imap (λ i l, (Z.of_nat i * c + rcut l t, Z.of_nat i * c + rcut l (S t))) blocks.
Definition seg (t : nat) : list A := blocks ≫= (λ l, piece l t).

Lemma rcut_ok i l t : blocks !! i = Some l → (t ≤ Z.to_nat m)%nat → 0 ≤ rcut l t ≤ rcut l (S t) ∧ rcut l (S t) ≤ len_of l.
Proof using Hm Hne Hblock Hsort Hsw.
  intros Hl Ht. destruct (Hblock i l Hl) as (Hs & _). pose proof (λ v, proj1 (lower_bound_spec compareFn Hsw l v Hs)) as Hlb.
  destruct t as [|t]; simpl.
  - destruct (decide _); [|lia]. destruct (sepVal 0) as [v|]; [specialize (Hlb v)|]; lia.
  - rewrite (decide_True (P := (t < _)%nat)) by lia. destruct (sepVal_Some t ltac:(lia)) as (_ & v & _ & _ & Ev). rewrite Ev. pose proof (Hlb v). destruct (decide _) as [Hlt|]; [|lia].
    destruct (sepVal_Some (S t) Hlt) as (_ & w & _ & _ & Ew). rewrite Ew. pose proof (Hlb w). pose proof (lower_bound_mono compareFn Hsw l v w (sepVal_mono t (S t) v w ltac:(lia) Ev Ew)). lia.
Qed.

Lemma segment_ok t : (t ≤ Z.to_nat m)%nat → mapR (segment m t) (imap (splitWith sepVals) blocks) = Ok (srcs t).
Proof using Hm Hne Hblock Hsort Hsw.
  intros Ht. apply mapR_ok, Forall2_same_length_lookup. unfold srcs. split; [by rewrite !length_imap|]. intros i st r Hst Hr. rewrite list_lookup_imap in Hst; rewrite list_lookup_imap in Hr.
  destruct (blocks !! i) as [l|] eqn:El; [|done]. injection Hst as <-. injection Hr as <-. unfold segment. 
  assert (∀ j, (j < Z.to_nat m)%nat → globalSeperators (splitWith sepVals i l) !! j = Some (Z.of_nat i * c + rcut l (S j))) as Hg.
  { intros j Hj. simpl. unfold sepVals. rewrite !list_lookup_fmap, lookup_seq_lt by done. simpl. rewrite decide_True by done. destruct (sepVal_Some j Hj) as (_ & v & _ & _ & ->). simpl. f_equal. lia. }
  destruct t as [|t].
  - cbn [res_bind]. rewrite (proj2 (Z.eqb_neq _ _)) by lia. rewrite Hg by lia. cbn [res_bind]. simpl. do 2 f_equal. lia.
  - rewrite Hg by lia. cbn [res_bind]. destruct (Z.eqb_spec (Z.of_nat (S t)) m).
    + cbn [res_bind]. do 2 f_equal. simpl. rewrite decide_False by lia. done.
    + rewrite Hg by lia. done.
Qed.

Lemma left_srcs t : (t ≤ Z.to_nat m)%nat → left_of input <$> srcs t = (λ l, piece l t) <$> blocks.
Proof using Hm Hne Hblock Hsort Hsw.
  intros Ht. apply list_eq. intros i. unfold srcs. rewrite !list_lookup_fmap, list_lookup_imap. destruct (blocks !! i) as [l|] eqn:El; [|done]. destruct (Hblock i l El) as (_ & _ & Ho & _). simpl. f_equal.
  pose proof (rcut_ok i l t El Ht). unfold left_of. cbn [fst snd]. rewrite <- Ho. apply subrange_concat; [done|lia|lia].
Qed.
Lemma seg_srcs t : (t ≤ Z.to_nat m)%nat → srcs t ≫= left_of input = seg t.
Proof using Hm Hne Hblock Hsort Hsw. intros Ht. unfold seg. by rewrite !bind_concat, left_srcs. Qed.

Lemma srcs_ok t : (t ≤ Z.to_nat m)%nat → Forall (λ r : Z * Z, 0 ≤ r.1 ≤ r.2 ∧ r.2 ≤ len_of input) (srcs t) ∧ Forall (src_ok compareFn input) (srcs t).
Proof using Hm Hne Hblock Hsort Hsw.
  intros Ht. rewrite <- Forall_and. apply Forall_lookup. intros i r Hr. unfold srcs in Hr. rewrite list_lookup_imap in Hr. destruct (blocks !! i) as [l|] eqn:El; [|done]. apply (inj Some) in Hr as <-.
  destruct (Hblock i l El) as (Hs & _ & Ho & H0 & _). pose proof (rcut_ok i l t El Ht) as Hc. assert (offset blocks i + len_of l ≤ len_of input) as Hb by (unfold offset; rewrite (concat_split blocks i l El), !length_app; lia).
  unfold src_ok. cbn [fst snd]. split; [lia|]. split; [lia|]. split; [lia|]. unfold left_of. cbn [fst snd]. rewrite <- Ho, (subrange_concat blocks i l) by (done || lia). by apply StronglySorted_subrange.
Qed.

Lemma pieces_concat i l t : blocks !! i = Some l → (t ≤ S (Z.to_nat m))%nat → concat (piece l <$> seq 0 t) = take (Z.to_nat (rcut l t)) l.
Proof using Hm Hne Hblock Hsort Hsw.
  intros Hl. induction t as [|t IH]; intros Ht; [done|]. rewrite seq_S, fmap_app, concat_app, IH by lia. rewrite Nat.add_0_l. cbn [fmap list_fmap concat]. rewrite app_nil_r.
  unfold piece. pose proof (rcut_ok i l t Hl ltac:(lia)). apply subrange_app. lia.
Qed.

(** The segments together have the elements of the splits. *)
Definition segs : list (list A) := seg <$> seq 0 (S (Z.to_nat m)).
Lemma segs_perm : concat segs ≡ₚ input.
Proof using Hm Hne Hblock Hsort Hsw.
  unfold segs. rewrite <- bind_concat. unfold seg. rewrite (bind_swap (λ t l, piece l t)). rewrite bind_concat. assert ((λ l, seq 0 (S (Z.to_nat m)) ≫= (λ t, piece l t)) <$> blocks = blocks) as ->; [|done].
  apply list_eq. intros i. rewrite list_lookup_fmap. destruct (blocks !! i) as [l|] eqn:El; [|done]. cbn [fmap option_fmap option_map]. f_equal. rewrite bind_concat. etrans; [apply (pieces_concat i l); [done|lia]|].
  apply take_ge. cbn [rcut]. rewrite decide_False by lia. lia.
Qed.

Lemma seg_take t : (t ≤ S (Z.to_nat m))%nat → take t segs = seg <$> seq 0 t.
Proof. intros Ht. unfold segs. rewrite <- fmap_take, take_seq. do 2 f_equal. lia. Qed.
Lemma segs_lookup t : (t ≤ Z.to_nat m)%nat → segs !! t = Some (seg t).
Proof. intros Ht. unfold segs. by rewrite list_lookup_fmap, lookup_seq_lt by lia. Qed.
Lemma offset_S t : (t ≤ Z.to_nat m)%nat → offset segs (S t) = offset segs t + len_of (seg t).
Proof. intros Ht. unfold offset. rewrite !seg_take by lia. rewrite seq_S, fmap_app, concat_app, length_app. simpl. rewrite app_nil_r. lia. Qed.
Lemma offset_le t : offset segs t ≤ len_of input.
Proof using Hm Hne Hblock Hsort Hsw. rewrite <- segs_perm. unfold offset. rewrite <- (take_drop t segs) at 2. rewrite concat_app, length_app. lia. Qed.

(** ** Output ranges *)

Context (Hn : len_of input < 2 ^ 40).
#[local] Abbreviation states := (imap (splitWith sepVals) blocks).

Lemma outputRanges_from_ok k t : (t + k = S (Z.to_nat m))%nat →
  outputRanges_from m states (seq t k) (offset segs t) = Ok ((λ t, offset segs (S t)) <$> seq t k).
Proof using Hm Hne Hblock Hsort Hsw Hn.
  revert t. induction k as [|k IH]; intros t Ht; [done|]. cbn [seq outputRanges_from]. rewrite segment_ok by lia. cbn [res_bind]. pose proof (offset_S t ltac:(lia)) as Eo. pose proof (offset_le (S t)).
  rewrite (span_ok input) by (rewrite ?seg_srcs by lia; first [apply srcs_ok; lia|unfold offset in *; lia]). rewrite seg_srcs, <- Eo by lia. rewrite IH by lia. done.
Qed.

Definition ranges : list Z := 0 :: ((λ t, offset segs (S t)) <$> seq 0 (S (Z.to_nat m))) ++ [len_of input].
Lemma outputRanges_ok : outputRanges (len_of input) m states = Ok ranges.
Proof using Hm Hne Hblock Hsort Hsw Hn.
  unfold outputRanges. replace (Z.to_nat (m + 1)) with (S (Z.to_nat m)) by lia. pose proof (outputRanges_from_ok (S (Z.to_nat m)) 0 ltac:(lia)) as E. change (offset segs 0) with 0 in E. by rewrite E.
Qed.

Lemma ranges_lookup t : (t ≤ S (Z.to_nat m))%nat → load ranges (Z.of_nat t) = Ok (offset segs t).
Proof.
  intros Ht. apply load_Some. unfold zget. rewrite (proj2 (Z.leb_le _ _)) by lia. rewrite Nat2Z.id. unfold ranges. destruct t as [|t]; [done|].
  change ((0 :: ?l) !! S t) with (l !! t). rewrite lookup_app_l by (rewrite length_fmap, length_seq; lia). by rewrite list_lookup_fmap, lookup_seq_lt by lia.
Qed.

(** ** Merging *)

Lemma merge_segment t : (t ≤ Z.to_nat m)%nat → ∃ out, out ≡ₚ seg t ∧ StronglySorted (ordle compareFn) out ∧
  ∀ cells, length <$> cells = length <$> segs → merge_perform compareFn input m states ranges t (concat cells) = Ok (concat (<[t := out]> cells)).
Proof using Hm Hne Hblock Hsort Hsw Hn.
  intros Ht. destruct (srcs_ok t Ht) as [Hr Hs]. destruct (fill_heap_ok compareFn input (srcs t) 0 Hs) as (h & rest & Ef & Hlen & Hperm & H1 & H2). rewrite seg_srcs in Hperm by done.
  pose proof (offset_S t Ht) as Eo. pose proof (offset_le (S t)) as Hle. pose proof (Permutation_length Hperm) as Hpl. rewrite length_app, length_fmap in Hpl.
  assert (0 ≤ offset segs t) as H0 by (unfold offset; lia).
  destruct (merge_loop_ok compareFn Hsw input (length input) h rest) as (out & Em & Hp & Hso).
  { split; [done|]. intros x i Hx. destruct (H2 x i Hx) as [Hi Hf]. rewrite Nat.sub_0_r in Hf. split; [lia|done]. }
  { lia. }
  rewrite Hperm in Hp. exists out. split_and!; [done|done|]. intros cells Hcl. unfold merge_perform. rewrite segment_ok by done. cbn [res_bind]. rewrite Ef. cbn [res_bind].
  rewrite ranges_lookup by lia. cbn [res_bind]. replace (Z.of_nat t + 1) with (Z.of_nat (S t)) by lia. rewrite ranges_lookup by lia. cbn [res_bind].
  unfold segment_size. rewrite (span_ok input) by (rewrite ?seg_srcs by lia; first [done|lia]). rewrite seg_srcs, u64_small, (proj2 (Z.eqb_eq _ _)) by lia. cbn [assert_ res_bind]. rewrite Em. cbn [res_bind].
  assert (∃ x, cells !! t = Some x ∧ length x = length (seg t)) as (x & Hx & Hxl).
  { pose proof (f_equal (.!! t) Hcl) as Hi. rewrite !list_lookup_fmap, segs_lookup in Hi by done. destruct (cells !! t) as [x|]; [|done]. injection Hi as Hi. by exists x. }
  rewrite <- (offset_ext cells segs t Hcl). apply (write_block cells t x out Hx). by rewrite Hp, Hxl.
Qed.

(** The elements of a segment are before the next separator and not before the
    last one. *)
Lemma seg_before t v x : (t < Z.to_nat m)%nat → sepVal t = Some v → x ∈ seg t → compareFn x v = true.
Proof using Hm Hne Hblock Hsort Hsw.
  intros Ht Hv Hx. unfold seg in Hx. apply list_elem_of_bind in Hx as (l & Hx & Hl). apply list_elem_of_lookup in Hl as [i Hl]. destruct (Hblock i l Hl) as (Hs & _).
  destruct (lower_bound_spec compareFn Hsw l v Hs) as (_ & Hlt & _). unfold piece in Hx. pose proof (rcut_ok i l t Hl ltac:(lia)) as Hc.
  assert (rcut l (S t) = lower_bound compareFn l v) as Ec by (cbn [rcut]; by rewrite decide_True, Hv by done). rewrite <- Ec in Hlt.
  rewrite <- (subrange_app l (rcut l t)) in Hlt by lia. apply Forall_app in Hlt as [_ Hlt]. by apply (proj1 (Forall_forall _ _) Hlt).
Qed.
Lemma seg_after t v x : (t < Z.to_nat m)%nat → sepVal t = Some v → x ∈ seg (S t) → ordle compareFn v x.
Proof using Hm Hne Hblock Hsort Hsw.
  intros Ht Hv Hx. unfold seg in Hx. apply list_elem_of_bind in Hx as (l & Hx & Hl). apply list_elem_of_lookup in Hl as [i Hl]. destruct (Hblock i l Hl) as (Hs & _).
  destruct (lower_bound_spec compareFn Hsw l v Hs) as (_ & _ & Hge). unfold piece, subrange in Hx.
  assert (rcut l (S t) = lower_bound compareFn l v) as Ec by (cbn [rcut]; by rewrite decide_True, Hv by done). rewrite Ec in Hx.
  apply (proj1 (Forall_forall _ _) Hge). apply list_elem_of_lookup in Hx as [k Hk]. apply lookup_take_Some in Hk as [Hk _]. by eapply list_elem_of_lookup_2.
Qed.

Lemma merge_ok order (garbage : A) : order ≡ₚ seq 0 (S (Z.to_nat m)) →
  ∃ out, perform_all (merge_perform compareFn input m states ranges) order (replicate (length input) garbage) = Ok out ∧ out ≡ₚ input ∧ StronglySorted (ordle compareFn) out.
Proof using Hm Hne Hblock Hsort Hsw Hn.
  intros Ho. assert (∀ k, (k ≤ S (Z.to_nat m))%nat → ∃ outs, length outs = k ∧ ∀ t out, outs !! t = Some out → out ≡ₚ seg t ∧ StronglySorted (ordle compareFn) out ∧
    ∀ cells, length <$> cells = length <$> segs → merge_perform compareFn input m states ranges t (concat cells) = Ok (concat (<[t := out]> cells))) as Hex.
  { induction k as [|k IH]; intros Hk; [by exists []|]. destruct IH as (outs & Hlen & Houts); [lia|]. destruct (merge_segment k ltac:(lia)) as (out & Hout). exists (outs ++ [out]).
    split; [rewrite length_app; simpl; lia|]. intros t o [Hl|[Hge Hl]]%lookup_app_Some; [by apply Houts|]. apply list_lookup_singleton_Some in Hl as [Ht <-]. by replace t with k by lia. }
  destruct (Hex (S (Z.to_nat m)) ltac:(lia)) as (outs & Hlen & Houts). clear Hex. set (cells := (λ l : list A, replicate (length l) garbage) <$> segs).
  assert (length segs = S (Z.to_nat m)) as Hsl by (unfold segs; by rewrite length_fmap, length_seq). assert (Forall2 Permutation outs segs) as Hpp.
  { apply Forall2_same_length_lookup. split; [lia|]. intros t o sg Hot Hst. rewrite segs_lookup in Hst by (apply lookup_lt_Some in Hot; lia). injection Hst as <-. by apply Houts. }
  destruct (perform_cells (λ cells s, s = concat cells ∧ length <$> cells = length <$> segs) (λ t _, default [] (outs !! t)) (merge_perform compareFn input m states ranges))
    with (order := order) (cells := cells) (s := concat cells) as (s & E & -> & _).
  - intros t cs s x [-> Hcl] Hx. destruct (lookup_lt_is_Some_2 outs t) as [o Hot].
    { apply lookup_lt_Some in Hx. apply (f_equal length) in Hcl. rewrite !length_fmap in Hcl. lia. }
    rewrite Hot. destruct (Houts t o Hot) as (Hp & _ & Hmp). rewrite Hmp by done. eexists. split; [done|]. split; [done|].
    rewrite list_fmap_insert, Hcl. apply list_insert_id. rewrite list_lookup_fmap. apply lookup_lt_Some in Hot. rewrite segs_lookup by lia. simpl. by rewrite Hp.
  - split; [done|]. unfold cells. rewrite <- list_fmap_compose. apply list_fmap_ext. intros ? b _. simpl. apply length_replicate.
  - unfold cells. by rewrite length_fmap, Hsl.
  - assert (imap (λ t _, default [] (outs !! t)) cells = outs) as Eout.
    { apply list_eq. intros t. rewrite list_lookup_imap. destruct (decide (t < length outs)%nat) as [Hlt|Hge].
      - destruct (lookup_lt_is_Some_2 cells t) as [x ->]; [unfold cells; rewrite length_fmap; lia|]. simpl. by destruct (lookup_lt_is_Some_2 outs t Hlt) as [o ->].
      - rewrite (lookup_ge_None_2 outs) by lia. by rewrite (lookup_ge_None_2 cells) by (unfold cells; rewrite length_fmap; lia). }
    rewrite Eout in E. exists (concat outs). split; [|split].
    + rewrite <- E. f_equal. rewrite <- (Permutation_length segs_perm). unfold cells. clear. induction segs as [|b bs IH]; [done|]. csimpl. rewrite length_app, replicate_add. by rewrite IH.
    + rewrite <- segs_perm. clear -Hpp. induction Hpp as [|o sg outs sgs Ho _ IH]; [done|]. simpl. by rewrite Ho, IH.
    + apply StronglySorted_concat; [apply Forall_lookup; intros t o Ht; by destruct (Houts t o Ht) as (_ & ? & _)|]. intros i j l r x y Hij Hl Hr Hx Hy.
      destruct (Houts i l Hl) as (Hpl & _). destruct (Houts j r Hr) as (Hpr & _). rewrite Hpl in Hx. rewrite Hpr in Hy. apply lookup_lt_Some in Hr. destruct j as [|j]; [lia|].
      destruct (sepVal_Some i ltac:(lia)) as (_ & v & _ & _ & Ev). destruct (sepVal_Some j ltac:(lia)) as (_ & w & _ & _ & Ew).
      apply (ordle_trans compareFn Hsw) with w; [|by apply (seg_after j w y ltac:(lia) Ew)]. apply (ordle_trans compareFn Hsw) with v; [|by apply (sepVal_mono i j); [lia|..]].
      apply (ordlt_le compareFn Hsw). by apply (seg_before i v x ltac:(lia) Ev).
Qed.
End search.

Lemma sorted_blocks l k m : let c := splitSizeFor (len_of l) k in let blocks := std_sort A compareFn <$> chop c (Z.to_nat k) l in
  split_ok (len_of l) k m → len_of l < 2 ^ 34 → concat blocks ≡ₚ l ∧ blocks ≠ [] ∧ ∀ i b, blocks !! i = Some b →
    StronglySorted (ordle compareFn) b ∧ 1 ≤ len_of b ∧ offset blocks i = Z.of_nat i * c ∧ 0 ≤ Z.of_nat i * c ∧ Z.of_nat i * c + len_of b < 2 ^ 40.
Proof using Hsort Hsw.
  intros c blocks Hok Hn. pose proof Hok as (Hk & Hm & H1 & H2 & H3). fold c in H1, H2, H3. set (raw := chop c (Z.to_nat k) l) in *.
  assert (length <$> blocks = length <$> raw) as Hlen by (unfold blocks; rewrite <- list_fmap_compose; apply list_fmap_ext; intros ? b _; simpl; by rewrite (proj1 (std_sort_ok b))).
  split_and!.
  - transitivity (concat raw); [|unfold raw; rewrite concat_chop by lia; rewrite Z.min_r by lia; rewrite Nat2Z.id, take_ge by lia; done].
    unfold blocks. clearbody raw. clear -Hsort Hsw. induction raw as [|b bs IH]; [done|]. csimpl. by rewrite (proj1 (std_sort_ok b)), IH.
  - intros E. apply (f_equal length) in E. unfold blocks, raw in E. rewrite length_fmap, chop_length in E. simpl in E. lia.
  - intros i b Hb. unfold blocks in Hb. rewrite list_lookup_fmap in Hb. destruct (raw !! i) as [r|] eqn:Er; [|done]. injection Hb as <-.
    destruct (chop_block l k m i r Hok Er) as (Hi & Ho & Hl1 & Hl2). fold c raw in Ho, Hl1, Hl2. destruct (std_sort_ok r) as [Hp Hs]. apply Permutation_length in Hp. rewrite Hp. split_and!; [done|lia| |apply Z.mul_nonneg_nonneg; lia|lia].
    by rewrite (offset_ext blocks raw i Hlen).
Qed.
End sort.

(** The pieces of a task are performed once each, in any order. *)
Definition orders_ok (o : orders) (buffers splits separators : nat) : Prop :=
  copyOrder o ≡ₚ seq 0 buffers ∧ localOrder o ≡ₚ seq 0 splits ∧ searchOrder o ≡ₚ seq 0 separators ∧ mergeOrder o ≡ₚ seq 0 (S separators).

(** C6. Parallel sorting returns a sorted permutation of all rows, without fault or
    failed assertion, whatever the order in which the workers take the pieces of
    each task; up to 128 workers and 2^34 rows. *)
Theorem parallel_sort_correct {A} (compareFn : A → A → bool) std_sort w o (null garbage : A) buffers :
  let n := len_of (concat buffers) in
  let '(splitCnt, seperatorCnt) := calcSplitSeperator n w in
  strict_weak compareFn → std_sort_spec std_sort → 1 ≤ w ≤ 128 → canParallelSort n = true → n < 2 ^ 34 →
  orders_ok o (length buffers) (Z.to_nat splitCnt) (Z.to_nat seperatorCnt) →
  ∃ out, parallelSort compareFn std_sort w o null garbage buffers = Ok out ∧ out ≡ₚ concat buffers ∧ StronglySorted (ordle compareFn) out.
Proof.
  intros n. destruct (calcSplitSeperator n w) as [k m] eqn:Ec. intros Hsw Hsort Hw Hcan Hn (Ho1 & Ho2 & Ho3 & Ho4). apply Z.ltb_lt in Hcan. unfold minSplitSize in Hcan.
  pose proof (calcSplitSeperator_ok n w Hw ltac:(lia)) as Hok. rewrite Ec in Hok. cbn [fst snd] in Hok.
  unfold parallelSort. fold n. pose proof (copy_ok buffers (copyOrder o) null Ho1) as E1. fold n in E1. rewrite E1. cbn [res_bind]. rewrite Ec.
  rewrite (local_ok compareFn Hsw std_sort Hsort (concat buffers) k m) by done. cbn [res_bind]. fold n. set (c := splitSizeFor n k).
  destruct (sorted_blocks compareFn Hsw std_sort Hsort (concat buffers) k m Hok Hn) as (Hp & Hne & Hb). fold n c in Hp, Hne, Hb. set (blocks := std_sort A compareFn <$> chop c (Z.to_nat k) (concat buffers)) in *.
  assert (len_of (concat blocks) = n) as En by (unfold n; by rewrite Hp). destruct Hok as (Hk & Hm & _).
  assert ((λ st, mkSplit (sp_begin st) (sp_end st) (localSeperators st) (replicate (Z.to_nat m) 0)) <$> imap (localSplit c m) blocks = imap (splitWith compareFn c m (replicate (Z.to_nat m) None)) blocks) as ->.
  { apply list_eq. intros i. rewrite list_lookup_fmap, !list_lookup_imap. destruct (blocks !! i); [|done]. simpl. f_equal. unfold splitWith. f_equal. by rewrite fmap_replicate. }
  rewrite (search_ok compareFn Hsw std_sort Hsort blocks c m Hm Hne Hb) by done. cbn [res_bind]. rewrite <- En.
  rewrite (outputRanges_ok compareFn Hsw std_sort Hsort blocks c m Hm Hne Hb) by lia. cbn [res_bind]. rewrite Nat2Z.id.
  destruct (merge_ok compareFn Hsw std_sort Hsort blocks c m Hm Hne Hb ltac:(lia) (mergeOrder o) garbage Ho4) as (out & -> & Hperm & Hs). exists out. split_and!; [done|by rewrite Hperm|done].
Qed.

(** C37. The splits are non-empty ranges of the input and its separators lie in their
    split, for 1 to 128 workers and more than 512 but fewer than 2^34 rows: no index of the local phase is
    out of range, the assertions on [range] and [seperatorCnt] hold, and the
    double arithmetic of the separators does not leave the split. *)
Theorem split_bounds n w i j :
  let '(splitCnt, seperatorCnt) := calcSplitSeperator n w in
  let splitSize := splitSizeFor n splitCnt in
  let begin := i * splitSize in let end_ := Z.min ((i + 1) * splitSize) n in let range := end_ - begin in
  1 ≤ w ≤ 128 → canParallelSort n = true → n < 2 ^ 34 → 0 ≤ i < splitCnt → 0 ≤ j < seperatorCnt →
  0 ≤ begin < end_ ∧ end_ ≤ n ∧ range < 2000000000 ∧ seperatorCnt < 2000000 ∧
  begin ≤ sepIndex (begin + range / seperatorCnt / 2) range seperatorCnt j < end_.
Proof.
  destruct (calcSplitSeperator n w) as [k m] eqn:Ec. intros c begin end_ range Hw Hcan Hn Hi Hj. apply Z.ltb_lt in Hcan. unfold minSplitSize in Hcan.
  pose proof (calcSplitSeperator_ok n w Hw ltac:(lia)) as Hok. rewrite Ec in Hok. cbn [fst snd] in Hok. destruct Hok as (Hk & Hm & Hc1 & Hc2 & Hc3). fold c in Hc1, Hc2, Hc3.
  assert (0 ≤ begin) as H0 by (apply Z.mul_nonneg_nonneg; lia). assert (begin ≤ (k - 1) * c) as H1 by (apply Z.mul_le_mono_nonneg_r; lia).
  assert (begin < end_ ∧ end_ ≤ n ∧ range ≤ c) as (H2 & H3 & H4) by (unfold range, end_, begin in *; lia). split_and!; try lia.
  all: pose proof (sepIndex_bounds begin range m j H0 ltac:(unfold range; lia) ltac:(unfold range; lia) Hm Hj); unfold range in *; lia.
Qed.
Lemma split_bounds_witness : 700 < 1400 ∧ 700 ≤ sepIndex (700 + (1400 - 700) / 2 / 2) (1400 - 700) 2 1 < 1400.
Proof.
  pose proof (split_bounds 1400 2 1 1) as H. change (calcSplitSeperator 1400 2) with (2, 2) in H. cbv beta iota zeta in H. change (splitSizeFor 1400 2) with 700 in H.
  destruct H as ((_ & H1) & _ & _ & _ & H2); [lia|reflexivity|lia|lia|lia|]. split; [exact H1|exact H2].
Defined.

(** ** Instances *)

Fixpoint ins {B} (f : B → B → bool) (x : B) (l : list B) : list B :=
  match l with
  | [] => [x]
  | y :: l' => if f y x then y :: ins f x l' else x :: l
  end.
Definition ins_sort (B : Type) (f : B → B → bool) (l : list B) : list B := foldr (ins f) [] l.

Lemma ins_perm {B} (f : B → B → bool) x l : ins f x l ≡ₚ x :: l.
Proof. induction l as [|y l IH]; [done|]. simpl. destruct (f y x); [rewrite IH; apply Permutation_swap|done]. Qed.

Lemma ins_sort_spec : std_sort_spec ins_sort.
Proof.
  intros B f l Hasym Htrans. induction l as [|x l IH]; [split; [done|constructor]|]. destruct IH as [Hp Hs]; [intros y z Hy Hz; apply Hasym; by right|intros y z u Hy Hz Hu; apply Htrans; by right|].
  split; [simpl; by rewrite ins_perm, Hp|]. simpl. unfold ins_sort in *. set (s := foldr (ins f) [] l) in *. assert (∀ y, y ∈ s → y ∈ x :: l) as Hin by (intros y Hy; right; rewrite <- Hp; done).
  clearbody s. clear Hp. revert Hin. induction Hs as [|y s' Hs IH Hy]; intros Hin; [apply SSorted_cons; constructor|]. simpl. assert (y ∈ x :: l) as Hyl by (apply Hin; by left). destruct (f y x) eqn:E.
  - constructor; [apply IH; intros z Hz; apply Hin; by right|]. rewrite ins_perm. constructor; [|done]. apply Hasym; [done|by left|done].
  - constructor; [by constructor|]. constructor; [done|]. apply Forall_forall. intros z Hz. eapply (Htrans z y x); [apply Hin; by right|done|by left| |done]. by apply (proj1 (Forall_forall _ _) Hy).
Qed.

Lemma parallel_sort_correct_witness :
  let buffers := [(λ i, i * 7919 mod 1009) <$> seqZ 0 900; (λ i, i * i mod 97) <$> seqZ 0 500] in
  ∃ out, parallelSort Z.ltb ins_sort 2 (mkOrders [1; 0] [1; 0] [0; 1] [2; 0; 1])%nat 0 (-1) buffers = Ok out ∧ out ≡ₚ concat buffers ∧ StronglySorted (ordle Z.ltb) out.
Proof.
  intros buffers. pose proof (parallel_sort_correct Z.ltb ins_sort 2 (mkOrders [1; 0] [1; 0] [0; 1] [2; 0; 1])%nat 0 (-1) buffers) as H. cbv zeta in H.
  assert (len_of (concat buffers) = 1400) as E by (vm_compute; reflexivity). rewrite E in H. change (calcSplitSeperator 1400 2) with (2, 2) in H.
  apply H; [apply ltb_strict_weak|apply ins_sort_spec|lia|done|done|]. change (length buffers) with 2%nat. split_and!; simpl; [apply Permutation_swap|apply Permutation_swap|done|].
  transitivity [0; 2; 1]%nat; [apply Permutation_swap|apply Permutation_skip, Permutation_swap].
Defined.

(** With 256 workers and 524032 rows there are 1023 splits of 513 rows: the last
    one begins behind the end of the input. *)
Theorem last_split_out_of_range {A} (compareFn : A → A → bool) std_sort input states :
  len_of input = 524032 → calcSplitSeperator 524032 256 = (1023, 64) ∧ local_perform compareFn std_sort 1023 64 1022 (input, states) = Fault BadAccess.
Proof. intros Hn. split; [done|]. unfold local_perform. rewrite Hn. done. Qed.
