(* ===== verification/SparqlText.v ===== *)
(** * Texts of SPARQL statements

    Model of [trim] and [StatementAccumulator] of
    src/gengodb/execution/SparqlEngine.cpp: input comes in chunks and is cut into
    statements at the semicolons outside of braces, IRIs and strings. *)

From S2P Require Import Prelude Serialization GraphDataOps FuzzyTurtle.
From Stdlib Require Import Strings.Ascii.
From Stdlib Require Strings.String.
#[local] Open Scope Z_scope.
#[local] Open Scope list_scope.

#[global] Abbreviation text := (list ascii).

(** The blanks of [find_first_not_of] and [find_last_not_of]. *)
Definition isBlank (c : ascii) : bool := oneof [" "%char; chr 9; chr 13; newline] c.

Fixpoint ltrim (s : text) : text :=
  match s with
  | c :: s' => if isBlank c then ltrim s' else s
  | [] => []
  end.
(** Without the blanks at both ends. *)
Definition trim (s : text) : text :=
  match ltrim s with
  | [] => []
  | l => rev (ltrim (rev l))
  end.

Record StatementAccumulator := mkAcc { buf : text; depth : Z; inIri : bool; inStr : bool; strDelim : ascii }.
Definition newAccumulator : StatementAccumulator := mkAcc [] 0 false false (chr 0).

Definition push (a : StatementAccumulator) (c : ascii) : StatementAccumulator := mkAcc (buf a ++ [c]) (depth a) (inIri a) (inStr a) (strDelim a).
Definition set_iri (a : StatementAccumulator) (b : bool) : StatementAccumulator := mkAcc (buf a) (depth a) b (inStr a) (strDelim a).
Definition set_str (a : StatementAccumulator) (b : bool) (d : ascii) : StatementAccumulator := mkAcc (buf a) (depth a) (inIri a) b d.
Definition add_depth (a : StatementAccumulator) (d : Z) : StatementAccumulator := mkAcc (buf a) (depth a + d) (inIri a) (inStr a) (strDelim a).
Definition clear_buf (a : StatementAccumulator) : StatementAccumulator := mkAcc [] (depth a) (inIri a) (inStr a) (strDelim a).

(** [feed]; [comment] says that the loop over a comment is running.  The result
    is the list of statements and the accumulator afterwards. *)
Fixpoint feed_loop (comment : bool) (a : StatementAccumulator) (chunk : text) : list text * StatementAccumulator :=
  match chunk with
  | [] => ([], a)
  | c :: rest =>
      if comment then
        if eqc c newline then feed_loop false (push a newline) rest else feed_loop true a rest
      else if inIri a then
        let a := push a c in
        feed_loop false (if eqc c ">" then set_iri a false else a) rest
      else if inStr a then
        let a := push a c in
        match rest with
        | c' :: rest' =>
            if eqc c backslash then feed_loop false (push a c') rest'
            else feed_loop false (if eqc c (strDelim a) then set_str a false (strDelim a) else a) rest
        | [] => ([], if eqc c (strDelim a) then set_str a false (strDelim a) else a)
        end
      else if eqc c "#" then feed_loop true a rest
      else if eqc c "<" then feed_loop false (push (set_iri a true) c) rest
      else if eqc c quote2 || eqc c "'" then feed_loop false (push (set_str a true c) c) rest
      else if eqc c "{" then feed_loop false (push (add_depth a 1) c) rest
      else if eqc c "}" then feed_loop false (push (add_depth a (-1)) c) rest
      else if eqc c ";" && (depth a <=? 0) then
        let '(out, a') := feed_loop false (clear_buf a) rest in (buf a :: out, a')
      else feed_loop false (push a c) rest
  end.
Definition feed (a : StatementAccumulator) (chunk : text) : list text * StatementAccumulator := feed_loop false a chunk.

Definition hasPending (a : StatementAccumulator) : bool := existsb (λ c, negb (isBlank c)) (buf a).
Definition atTopLevel (a : StatementAccumulator) : bool := (depth a <=? 0) && negb (inIri a) && negb (inStr a).

(** The loop of the shell over its lines: the statements it executes. *)
Fixpoint feed_lines (a : StatementAccumulator) (lines : list text) : list text * StatementAccumulator :=
  match lines with
  | [] => ([], a)
  | line :: lines =>
      if atTopLevel a && bool_decide (trim line = String.list_ascii_of_string "exit") then ([], a)
      else
        let '(out, a) := feed a (line ++ [newline]) in
        let '(out', a) := feed_lines a lines in
        (out ++ out', a)
  end.
