(* ===== verification/SparqlTextProps.v ===== *)
(** * Texts of SPARQL statements: what the accumulator cuts *)

From S2P Require Import Prelude Serialization GraphDataOps FuzzyTurtle SparqlText.
From Stdlib Require Import Strings.Ascii.
From Stdlib Require Strings.String.
#[local] Open Scope Z_scope.
#[local] Open Scope list_scope.

(** ** Trimming *)

Lemma ltrim_spec s : ∃ b, s = b ++ ltrim s ∧ Forall (λ c, isBlank c = true) b ∧ (∀ c r, ltrim s = c :: r → isBlank c = false).
Proof.
  induction s as [|c s (b & E & Hb & Hc)]; [by exists []|]. simpl. destruct (isBlank c) eqn:Ec.
  - exists (c :: b). split_and!; [by rewrite E at 1|by constructor|done].
  - exists []. split_and!; [done|constructor|]. by intros c' r [= -> ->].
Qed.

(** [trim] removes blanks only, and all of them at both ends. *)
Lemma trim_spec s : ∃ b e, s = b ++ trim s ++ e ∧ Forall (λ c, isBlank c = true) (b ++ e) ∧
  (∀ c r, trim s = c :: r → isBlank c = false) ∧ (∀ c r, trim s = r ++ [c] → isBlank c = false).
Proof.
  destruct (ltrim_spec s) as (b & E & Hb & Hc). unfold trim. destruct (ltrim s) as [|x l] eqn:El.
  - exists b, []. rewrite app_nil_r in E. split_and!; [by rewrite !app_nil_r|by rewrite app_nil_r|done|]. intros c r H. by destruct r.
  - destruct (ltrim_spec (rev (x :: l))) as (e & E2 & He & Hc2). exists b, (rev e).
    assert (x :: l = rev (ltrim (rev (x :: l))) ++ rev e) as E3 by (rewrite <- rev_app_distr, <- E2; by rewrite rev_involutive).
    split_and!; [by rewrite <- E3|apply Forall_app; split; [done|by apply Forall_rev]| |].
    + intros c r H. rewrite H in E3. injection E3 as -> _. by eapply Hc.
    + intros c r H. apply (Hc2 c (rev r)). rewrite <- (rev_involutive (ltrim _)), H. by rewrite rev_app_distr.
Qed.

(** ** Lexical items

    The items of SPARQL's grammar that matter for cutting a text: short strings,
    IRIs, comments, braces, semicolons and any other character.  An [Iri] is an
    IRIREF of that grammar, without blanks, quotes or braces inside.  A "<" that
    is not the beginning of one, a less-than, is not an item: the accumulator
    takes it for an IRI ([less_than_swallows_statements]). *)

(** A character of a string, plain or escaped. *)
Inductive strChar := Raw (c : ascii) | Escaped (c : ascii).
Inductive item := Plain (c : ascii) | Iri (body : text) | Str (delim : ascii) (body : list strChar) | Comment (body : text) | Open | Close | Semi.

Definition strChar_text (c : strChar) : text := match c with Raw c => [c] | Escaped c => [backslash; c] end.
Definition item_text (i : item) : text :=
  match i with
  | Plain c => [c]
  | Iri body => ["<"%char] ++ body ++ [">"%char]
  | Str d body => [d] ++ concat (strChar_text <$> body) ++ [d]
  | Comment body => ["#"%char] ++ body ++ [newline]
  | Open => ["{"%char]
  | Close => ["}"%char]
  | Semi => [";"%char]
  end.
(** The characters of an IRIREF. *)
Definition iri_char (c : ascii) : bool :=
  negb (oneof (["<"; ">"; quote2; "{"; "}"; "|"; "^"; backslash]%char ++ [chr 96]) c) && (32 <? nat_of_ascii c)%nat.
(** What is left of an item: a comment becomes its newline. *)
Definition kept (i : item) : text := match i with Comment _ => [newline] | _ => item_text i end.
Definition item_ok (i : item) : Prop :=
  match i with
  | Plain c => oneof ["#"; "<"; quote2; "'"; "{"; "}"; ";"]%char c = false
  | Iri body => Forall (λ c, iri_char c = true) body
  | Str d body => (d = quote2 ∨ d = "'"%char) ∧ Forall (λ c, match c with Raw c => eqc c d = false ∧ eqc c backslash = false | Escaped _ => True end) body
  | Comment body => Forall (λ c, eqc c newline = false) body
  | _ => True
  end.
Definition items_text (l : list item) : text := concat (item_text <$> l).
Definition items_kept (l : list item) : text := concat (kept <$> l).

(** The depth behind the items, when no semicolon among them is at depth 0. *)
Fixpoint inside (d : Z) (l : list item) : option Z :=
  match l with
  | [] => Some d
  | Open :: l => inside (d + 1) l
  | Close :: l => inside (d - 1) l
  | Semi :: l => if d <=? 0 then None else inside d l
  | _ :: l => inside d l
  end.
Definition statement_ok (l : list item) : Prop := Forall item_ok l ∧ inside 0 l = Some 0.

Lemma eqc_true a c : eqc a c = true → a = c.
Proof. apply Ascii.eqb_eq. Qed.
Lemma eqc_refl c : eqc c c = true.
Proof. apply Ascii.eqb_refl. Qed.

(** An accumulator between items. *)
#[local] Abbreviation idle b d sd := (mkAcc b d false false sd).

Lemma feed_iri body b d sd rest : Forall (λ c, eqc c ">" = false) body →
  feed_loop false (mkAcc b d true false sd) (body ++ ">"%char :: rest) = feed_loop false (idle (b ++ body ++ [">"%char]) d sd) rest.
Proof.
  intros H. revert b. induction H as [|c body Hc _ IH]; intros b; [done|]. simpl. rewrite Hc. unfold push. simpl. rewrite IH. by rewrite <- app_assoc.
Qed.
Lemma feed_comment body a rest : Forall (λ c, eqc c newline = false) body → feed_loop true a (body ++ newline :: rest) = feed_loop false (push a newline) rest.
Proof. induction 1 as [|c body Hc _ IH]; [done|]. simpl. by rewrite Hc. Qed.
Lemma feed_str body b d sd rest : Forall (λ c, match c with Raw c => eqc c sd = false ∧ eqc c backslash = false | Escaped _ => True end) body → eqc sd backslash = false →
  feed_loop false (mkAcc b d false true sd) (concat (strChar_text <$> body) ++ sd :: rest) = feed_loop false (idle (b ++ concat (strChar_text <$> body) ++ [sd]) d sd) rest.
Proof.
  intros H Hsd. revert b. induction H as [|[c|c] body Hc _ IH]; intros b.
  - simpl. destruct rest as [|c' rest]; [by rewrite eqc_refl|]. by rewrite Hsd, eqc_refl.
  - destruct Hc as [H1 H2]. csimpl. destruct (concat (strChar_text <$> body) ++ sd :: rest) as [|x l] eqn:E; [by destruct (concat _)|]. rewrite H2, H1. unfold push. cbn [buf depth inIri inStr strDelim]. rewrite IH. by rewrite <- app_assoc.
  - csimpl. unfold push. cbn [buf depth inIri inStr strDelim]. rewrite IH. by rewrite <- !app_assoc.
Qed.

Lemma iri_chars_end body : Forall (λ c, iri_char c = true) body → Forall (λ c, eqc c ">" = false) body.
Proof.
  intros H. eapply Forall_impl; [exact H|]. intros c Hc. destruct (eqc c ">") eqn:E; [|done]. apply eqc_true in E as ->. discriminate Hc.
Qed.

(** An item that is not a semicolon at depth 0 goes to the buffer. *)
Lemma feed_item i b d sd rest d' : item_ok i → inside d [i] = Some d' →
  ∃ sd', feed_loop false (idle b d sd) (item_text i ++ rest) = feed_loop false (idle (b ++ kept i) d' sd') rest.
Proof.
  intros Hi Hd. destruct i as [c|body|dl body|body| | |]; simpl in Hd.
  - injection Hd as <-. exists sd. cbn [item_ok oneof existsb] in Hi. rewrite !orb_false_iff in Hi. destruct Hi as (H1 & H2 & H3 & H4 & H5 & H6 & H7 & _).
    simpl. by rewrite H1, H2, H3, H4, H5, H6, H7.
  - injection Hd as <-. exists sd. simpl. rewrite <- app_assoc. simpl. unfold push, set_iri. simpl. rewrite feed_iri by (by apply iri_chars_end). by rewrite <- app_assoc.
  - injection Hd as <-. destruct Hi as [Hdl Hb]. exists dl. assert (eqc dl "#" = false ∧ eqc dl "<" = false ∧ eqc dl backslash = false ∧ eqc dl quote2 || eqc dl "'" = true) as (E1 & E2 & E3 & E4) by (by destruct Hdl as [-> | ->]).
    simpl. rewrite E1, E2, E4. rewrite <- app_assoc. simpl. unfold push, set_str. simpl. rewrite feed_str by done. by rewrite <- app_assoc.
  - injection Hd as <-. exists sd. simpl. rewrite <- app_assoc. simpl. by rewrite feed_comment.
  - injection Hd as <-. by exists sd.
  - injection Hd as <-. by exists sd.
  - exists sd. simpl. destruct (Z.leb_spec d 0); [done|]. by injection Hd as <-.
Qed.

Lemma inside_cons i l d d' : inside d (i :: l) = Some d' ↔ ∃ d1, inside d [i] = Some d1 ∧ inside d1 l = Some d'.
Proof. destruct i; simpl; try (destruct (d <=? 0)); split; try naive_solver. Qed.

Lemma feed_items l b d sd rest d' : Forall item_ok l → inside d l = Some d' →
  ∃ sd', feed_loop false (idle b d sd) (items_text l ++ rest) = feed_loop false (idle (b ++ items_kept l) d' sd') rest.
Proof.
  intros Hl. revert b d sd. induction Hl as [|i l Hi _ IH]; intros b d sd Hd; [injection Hd as <-; exists sd; by rewrite app_nil_r|].
  apply inside_cons in Hd as (d1 & H1 & H2). destruct (feed_item i b d sd (items_text l ++ rest) d1 Hi H1) as (sd1 & E1). destruct (IH (b ++ kept i) d1 sd1 H2) as (sd2 & E2).
  exists sd2. unfold items_text, items_kept. csimpl. rewrite <- app_assoc. fold (items_text l) (items_kept l). by rewrite E1, E2, <- app_assoc.
Qed.

(** ** Lines *)

(** A newline is a safe place to cut the input. *)
Lemma feed_newline x comment a y :
  feed_loop comment a (x ++ newline :: y) =
  let '(o1, a1) := feed_loop comment a (x ++ [newline]) in
  let '(o2, a2) := feed_loop false a1 y in (o1 ++ o2, a2).
Proof.
  remember (length x) as n eqn:Hn. revert x comment a Hn. induction (lt_wf n) as [n _ IH]. intros x comment a ->.
  assert (∀ x' comment a, (length x' < length x)%nat → feed_loop comment a (x' ++ newline :: y) =
    let '(o1, a1) := feed_loop comment a (x' ++ [newline]) in let '(o2, a2) := feed_loop false a1 y in (o1 ++ o2, a2)) as IH' by (intros; by eapply IH).
  clear IH. destruct x as [|c x].
  - simpl. destruct comment; [by destruct (feed_loop false (push a newline) y)|]. destruct (inIri a); [by destruct (feed_loop false (push a newline) y)|].
    destruct (inStr a); [|by destruct (feed_loop false (push a newline) y)]. destruct y as [|c' y]; [done|]. by destruct (feed_loop false _ (c' :: y)).
  - simpl. destruct comment; [destruct (eqc c newline); apply IH'; simpl; lia|]. destruct (inIri a); [apply IH'; simpl; lia|]. destruct (inStr a).
    + destruct x as [|c' x].
      * simpl. destruct (eqc c backslash); [by destruct (feed_loop false _ y)|]. pose proof (IH' [] false (if eqc c (strDelim a) then set_str (push a c) false (strDelim a) else push a c) ltac:(simpl; lia)) as H. exact H.
      * simpl. destruct (eqc c backslash); [apply IH'; simpl; lia|]. pose proof (IH' (c' :: x) false (if eqc c (strDelim a) then set_str (push a c) false (strDelim a) else push a c) ltac:(simpl; lia)) as H. exact H.
    + repeat (case_match; [apply IH'; simpl; lia|]). case_match; [|apply IH'; simpl; lia]. rewrite IH' by (simpl; lia).
      destruct (feed_loop false (clear_buf a) (x ++ [newline])) as [o1 a1]. by destruct (feed_loop false a1 y).
Qed.

Lemma feed_lines_feed lines a : Forall (λ l, trim l ≠ String.list_ascii_of_string "exit") lines → feed_lines a lines = feed a (concat ((λ l, l ++ [newline]) <$> lines)).
Proof.
  intros H. revert a. induction H as [|l lines Hl _ IH]; intros a; [done|]. csimpl. rewrite bool_decide_false, andb_false_r by done. rewrite <- app_assoc. unfold feed at 2. simpl. rewrite feed_newline. fold (feed a (l ++ [newline])).
  destruct (feed a (l ++ [newline])) as [o1 a1]. rewrite IH. unfold feed. done.
Qed.

Lemma feed_statements stmts tail d sd : Forall statement_ok stmts → Forall item_ok tail → inside 0 tail = Some d →
  ∃ sd', feed (idle [] 0 sd) (concat ((λ s, items_text s ++ [";"%char]) <$> stmts) ++ items_text tail) = (items_kept <$> stmts, idle (items_kept tail) d sd').
Proof.
  intros Hs Ht Hd. revert sd. induction Hs as [|s stmts [Hs Hs0] _ IH]; intros sd.
  - destruct (feed_items tail [] 0 sd [] d Ht Hd) as (sd' & E). exists sd'. rewrite app_nil_r in E. exact E.
  - csimpl. rewrite <- !app_assoc. destruct (feed_items s [] 0 sd ([";"%char] ++ concat ((λ s, items_text s ++ [";"%char]) <$> stmts) ++ items_text tail) 0 Hs Hs0) as (sd1 & E1).
    destruct (IH sd1) as (sd2 & E2). exists sd2. unfold feed in *. rewrite E1. simpl. unfold clear_buf. simpl. by rewrite E2.
Qed.

(** C33. The shell cuts an input of lexical items, in which the braces of every
    statement balance and every "<" outside of strings and comments begins an
    IRIREF, into statements exactly at the semicolons outside of braces, IRIs,
    strings and comments, however the input is broken into lines (none of them
    "exit"); comments become newlines and everything else is kept. *)
Theorem shell_statements lines stmts tail d : Forall (λ l, trim l ≠ String.list_ascii_of_string "exit") lines →
  Forall statement_ok stmts → Forall item_ok tail → inside 0 tail = Some d →
  concat ((λ l, l ++ [newline]) <$> lines) = concat ((λ s, items_text s ++ [";"%char]) <$> stmts) ++ items_text tail →
  let '(out, a) := feed_lines newAccumulator lines in out = items_kept <$> stmts ∧ buf a = items_kept tail ∧ atTopLevel a = (d <=? 0).
Proof.
  intros Hl Hs Ht Hd E. rewrite feed_lines_feed by done. rewrite E. unfold newAccumulator. destruct (feed_statements stmts tail d (chr 0) Hs Ht Hd) as (sd & ->). split_and!; [done..|]. unfold atTopLevel. simpl. by rewrite !andb_true_r.
Qed.

(** Behind a "<" that no ">" follows, no statement ends any more. *)
Lemma feed_open_iri rest a : Forall (λ c, eqc c ">" = false) rest → inIri a = true → (feed_loop false a rest).1 = [].
Proof. intros H. revert a. induction H as [|c rest Hc _ IH]; intros a Ha; [done|]. simpl. rewrite Ha, Hc. apply IH. done. Qed.

(** A comparison with "<" is taken for the beginning of an IRI: the semicolon
    behind the query does not end it, nor does that of any later query without a
    ">". *)
Theorem less_than_swallows_statements later : Forall (λ c, eqc c ">" = false) later →
  (feed newAccumulator (String.list_ascii_of_string "SELECT ?s { ?s ?p ?o FILTER(?o < 5) };" ++ later)).1 = [].
Proof. intros H. change (feed _ _) with (feed_loop false (mkAcc (String.list_ascii_of_string "SELECT ?s { ?s ?p ?o FILTER(?o <") 1 true false (chr 0)) (String.list_ascii_of_string " 5) };" ++ later)). apply feed_open_iri; [|done]. apply Forall_app. split; [|done]. repeat constructor. Qed.

Lemma shell_statements_witness :
  let '(out, a) := feed_lines newAccumulator (String.list_ascii_of_string <$> ["SELECT * { ?s ?p ';' ; # a; comment"; "?q ?r };LOAD <a;b>"; " INTO GRAPH <g> ; x"]) in
  out = String.list_ascii_of_string <$> ["SELECT * { ?s ?p ';' ; " +:+ String.String newline "?q ?r }"; "LOAD <a;b>" +:+ String.String newline " INTO GRAPH <g> "] ∧
  buf a = String.list_ascii_of_string (" x" +:+ String.String newline "") ∧ atTopLevel a = true.
Proof.
  pose (plain s := Plain <$> String.list_ascii_of_string s).
  apply (shell_statements _ [plain "SELECT * " ++ [Open] ++ plain " ?s ?p " ++ [Str "'" [Raw ";"%char]] ++ plain " " ++ [Semi] ++ plain " " ++ [Comment (String.list_ascii_of_string " a; comment")] ++ plain "?q ?r " ++ [Close];
    plain "LOAD " ++ [Iri (String.list_ascii_of_string "a;b"); Plain newline] ++ plain " INTO GRAPH " ++ [Iri (String.list_ascii_of_string "g"); Plain " "]] (plain " x" ++ [Plain newline]) 0).
  - repeat (constructor; [by vm_compute|]). constructor.
  - repeat first [apply Forall_nil_2|apply Forall_cons_2|split|done|by right].
  - repeat constructor.
  - done.
  - by vm_compute.
Defined.

Lemma less_than_swallows_statements_witness : (feed newAccumulator (String.list_ascii_of_string ("SELECT ?s { ?s ?p ?o FILTER(?o < 5) };" +:+ "SELECT * { ?s ?p ?o };"))).1 = [].
Proof. apply (less_than_swallows_statements (String.list_ascii_of_string "SELECT * { ?s ?p ?o };")). repeat constructor. Defined.
