(* ===== verification/Endpoint.v ===== *)
(** * The SPARQL endpoint

    Model of src/tools/sparql-endpoint.cpp: decoding of forms, extraction of the
    rows of a result, negotiation of its format, the CSV, TSV, XML and JSON
    writers, and the routes.  The engine is behind the class [Engine]; the text
    of a JSON value is the business of the JSON library, the argument [dump]. *)

From S2P Require Import Prelude Serialization GraphDataOps FuzzyTurtle SparqlText.
From Stdlib Require Import Strings.Ascii.
From Stdlib Require Strings.String.
#[local] Open Scope Z_scope.
#[local] Open Scope list_scope.

(** A literal of the source. *)
Definition T (s : string) : text := String.list_ascii_of_string s.

(** [rfind(p, 0) == 0] and [find(p) != npos]. *)
Fixpoint starts_with (p s : text) : bool :=
  match p, s with
  | [], _ => true
  | a :: p, c :: s => eqc a c && starts_with p s
  | _ :: _, [] => false
  end.
Fixpoint has_text (p s : text) : bool :=
  starts_with p s || match s with [] => false | _ :: s => has_text p s end.
(** What stands before and behind the first [c]. *)
Fixpoint cut_at (c : ascii) (s : text) : option (text * text) :=
  match s with
  | [] => None
  | x :: s => if eqc x c then Some ([], s) else '(a, b) ← cut_at c s; Some (x :: a, b)
  end.

(** ** Forms *)

Definition isxdigit (c : ascii) : bool :=
  let n := code c in isdigit c || ((65 <=? n) && (n <=? 70)) || ((97 <=? n) && (n <=? 102)).
Definition hexval (c : ascii) : nat :=
  let n := nat_of_ascii c in if (n <=? 57)%nat then n - 48 else if (n <=? 70)%nat then n - 55 else n - 87.

Fixpoint urlDecode (s : text) : text :=
  match s with
  | [] => []
  | c :: s' =>
      if eqc c "+" then " "%char :: urlDecode s'
      else
        match s' with
        | h1 :: h2 :: s'' =>
            if eqc c "%" && isxdigit h1 && isxdigit h2 then chr (16 * hexval h1 + hexval h2) :: urlDecode s''
            else c :: urlDecode s'
        | _ => c :: urlDecode s'
        end
  end.

Definition add_pair (result : gmap text text) (kv : text) : gmap text text :=
  match kv with
  | [] => result
  | _ =>
      let '(key, value) := match cut_at "=" kv with None => (urlDecode kv, []) | Some (k, v) => (urlDecode k, urlDecode v) end in
      match key with [] => result | _ => <[key := value]> result end
  end.
(** The loop over the pairs; [fuel] is more than the number of separators. *)
Fixpoint form_loop (fuel : nat) (body : text) (result : gmap text text) : gmap text text :=
  match fuel with
  | O => result
  | S fuel =>
      match cut_at "&" body with
      | None => add_pair result body
      | Some (kv, rest) => form_loop fuel rest (add_pair result kv)
      end
  end.
Definition parseFormEncoded (body : text) : gmap text text := form_loop (S (length body)) body ∅.

(** ** Rows *)

(** A chunk of a column; only chunks of strings have texts. *)
Record Chunk := mkChunk { isStringArray : bool; ch_vals : list (option text) }.
Record Table := mkTable { tb_names : list text; tb_columns : list (list Chunk); tb_rows : nat }.
Record TableRows := mkRows { vars : list text; rows : list (list (option text)) }.

Definition arrowStringAt (chunk : Chunk) (idx : nat) : option text :=
  match ch_vals chunk !! idx with
  | Some (Some s) => if isStringArray chunk then Some s else None
  | _ => None
  end.

(** The loop that moves a cursor (chunk, place in the chunk) to a chunk with a
    value at its place. *)
Fixpoint skip_chunks (fuel : nat) (chunks : list Chunk) (cursor : nat * nat) : nat * nat :=
  match fuel with
  | O => cursor
  | S fuel =>
      let '(ci, wi) := cursor in
      match chunks !! ci with
      | Some chunk => if (length (ch_vals chunk) <=? wi)%nat then skip_chunks fuel chunks (S ci, 0%nat) else cursor
      | None => cursor
      end
  end.
Definition next_value (chunks : list Chunk) (cursor : nat * nat) : option text * (nat * nat) :=
  let '(ci, wi) := skip_chunks (length chunks) chunks cursor in
  match chunks !! ci with
  | None => (None, (ci, wi))
  | Some chunk => (arrowStringAt chunk wi, (ci, S wi))
  end.
Fixpoint next_row (cols : list (list Chunk)) (cursors : list (nat * nat)) : list (option text) * list (nat * nat) :=
  match cols, cursors with
  | col :: cols, cur :: cursors =>
      let '(v, cur) := next_value col cur in
      let '(vs, cursors) := next_row cols cursors in
      (v :: vs, cur :: cursors)
  | _, _ => ([], [])
  end.
Fixpoint all_rows (n : nat) (cols : list (list Chunk)) (cursors : list (nat * nat)) : list (list (option text)) :=
  match n with
  | O => []
  | S n => let '(r, cursors) := next_row cols cursors in r :: all_rows n cols cursors
  end.
Definition extractRows (table : option Table) : TableRows :=
  match table with
  | None => mkRows [] []
  | Some t =>
      match tb_columns t with
      | [] => mkRows (tb_names t) []
      | cols => mkRows (tb_names t) (all_rows (tb_rows t) cols (replicate (length cols) (0, 0)%nat))
      end
  end.

(** ** Formats *)

Inductive ResultFormat := Csv | Tsv | SparqlJson | SparqlXml.
Definition negotiateFormat (accept : text) : ResultFormat :=
  if has_text (T "text/csv") accept then Csv
  else if has_text (T "text/tab-separated-values") accept then Tsv
  else if has_text (T "application/sparql-results+xml") accept then SparqlXml
  else if has_text (T "application/sparql-results+json") accept then SparqlJson
  else SparqlJson.
Definition contentTypeFor (fmt : ResultFormat) : text :=
  match fmt with
  | Csv => T "text/csv; charset=utf-8"
  | Tsv => T "text/tab-separated-values; charset=utf-8"
  | SparqlJson => T "application/sparql-results+json; charset=utf-8"
  | SparqlXml => T "application/sparql-results+xml; charset=utf-8"
  end.

Definition cr : ascii := chr 13.
Definition tab : ascii := chr 9.
Definition crlf : text := [cr; newline].

(** [sep] between the elements. *)
Fixpoint join (sep : text) (l : list text) : text :=
  match l with
  | [] => []
  | [x] => x
  | x :: l => x ++ sep ++ join sep l
  end.

Definition csvEscape (v : text) : text :=
  if existsb (oneof [","%char; quote2; newline; cr]) v then
    [quote2] ++ (v ≫= λ c, if eqc c quote2 then [quote2; quote2] else [c]) ++ [quote2]
  else v.
Definition cell (escape : text → text) (v : option text) : text := match v with Some v => escape v | None => [] end.
Definition toCsv (t : TableRows) : text :=
  join [","%char] (csvEscape <$> vars t) ++ crlf ++ (rows t ≫= λ row, join [","%char] (cell csvEscape <$> row) ++ crlf).

Definition tsvEscape (v : text) : text :=
  v ≫= λ c, if eqc c tab then T "\t" else if eqc c newline then T "\n" else if eqc c cr then [] else [c].
Definition toTsv (t : TableRows) : text :=
  join [tab] ((λ v, "?"%char :: v) <$> vars t) ++ [newline] ++ (rows t ≫= λ row, join [tab] (cell tsvEscape <$> row) ++ [newline]).

(** ** Terms *)

Record TermInfo := mkTerm { ti_type : string; ti_value : text; ti_datatype : option text; ti_lang : option text }.

Fixpoint unescapeLexicalForm (s : text) : text :=
  match s with
  | [] => []
  | c :: s' =>
      match s' with
      | [] => [c]
      | e :: s'' =>
          if eqc c backslash then
            if eqc e quote2 then quote2 :: unescapeLexicalForm s''
            else if eqc e backslash then backslash :: unescapeLexicalForm s''
            else if eqc e "n" then newline :: unescapeLexicalForm s''
            else if eqc e "r" then cr :: unescapeLexicalForm s''
            else c :: unescapeLexicalForm s'
          else c :: unescapeLexicalForm s'
      end
  end.

(** What stands before and behind the next quote that is not escaped. *)
Fixpoint scan_quote (s : text) : option (text * text) :=
  match s with
  | [] => None
  | c :: s' =>
      if eqc c quote2 then Some ([], s')
      else
        match s' with
        | e :: s'' =>
            if eqc c backslash then '(a, b) ← scan_quote s''; Some (c :: e :: a, b)
            else '(a, b) ← scan_quote s'; Some (c :: a, b)
        | [] => None
        end
  end.

Definition front_is (c : ascii) (s : text) : bool := match s with x :: _ => eqc x c | [] => false end.
Definition back_is (c : ascii) (s : text) : bool := match last s with Some x => eqc x c | None => false end.
(** [substr(n, size - n - 1)]. *)
Definition inner (n : nat) (s : text) : text := take (length s - n - 1) (drop n s).

Definition classifyTerm (lexical : text) : TermInfo :=
  if (2 <=? length lexical)%nat && front_is "<" lexical && back_is ">" lexical then mkTerm "uri" (inner 1 lexical) None None
  else if starts_with (T "_:") lexical then mkTerm "bnode" (drop 2 lexical) None None
  else
    match (if front_is quote2 lexical then scan_quote (drop 1 lexical) else None) with
    | None => mkTerm "literal" lexical None None
    | Some (v, suffix) =>
        let value := unescapeLexicalForm v in
        if front_is "@" suffix then mkTerm "literal" value None (Some (drop 1 suffix))
        else if (4 <=? length suffix)%nat && starts_with (T "^^<") suffix && back_is ">" suffix then
          mkTerm "literal" value (Some (inner 3 suffix)) None
        else mkTerm "literal" value None None
    end.

(** ** XML *)

Definition xmlEscape (v : text) : text :=
  v ≫= λ c, if eqc c "&" then T "&amp;" else if eqc c "<" then T "&lt;" else if eqc c ">" then T "&gt;"
            else if eqc c quote2 then T "&quot;" else [c].

(** The name and the text of each variable that is bound in a row. *)
Definition bindings (vars : list text) (row : list (option text)) : list (text * text) :=
  omap (λ '(n, v), pair n <$> v) (zip vars row).

Definition attribute (name : string) (v : option text) : text :=
  match v with Some v => T " " ++ T name ++ T "=" ++ [quote2] ++ xmlEscape v ++ [quote2] | None => [] end.
Definition xml_term (term : TermInfo) : text :=
  if String.eqb (ti_type term) "uri" then T "<uri>" ++ xmlEscape (ti_value term) ++ T "</uri>"
  else if String.eqb (ti_type term) "bnode" then T "<bnode>" ++ xmlEscape (ti_value term) ++ T "</bnode>"
  else T "<literal" ++ attribute "datatype" (ti_datatype term) ++ attribute "xml:lang" (ti_lang term) ++ T ">" ++ xmlEscape (ti_value term) ++ T "</literal>".
Definition xml_binding (b : text * text) : text :=
  T "      <binding name=" ++ [quote2] ++ xmlEscape (fst b) ++ [quote2] ++ T ">" ++ xml_term (classifyTerm (snd b)) ++ T "</binding>" ++ [newline].
Definition xml_result (vars : list text) (row : list (option text)) : text :=
  T "    <result>" ++ [newline] ++ (bindings vars row ≫= xml_binding) ++ T "    </result>" ++ [newline].
Definition quoted (s : string) : text := [quote2] ++ T s ++ [quote2].
Definition toSparqlXml (t : TableRows) : text :=
  T "<?xml version=" ++ quoted "1.0" ++ T " encoding=" ++ quoted "utf-8" ++ T "?>" ++ [newline] ++
  T "<sparql xmlns=" ++ quoted "http://www.w3.org/2005/sparql-results#" ++ T ">" ++ [newline] ++
  T "  <head>" ++ [newline] ++
  (vars t ≫= λ v, T "    <variable name=" ++ [quote2] ++ xmlEscape v ++ [quote2] ++ T "/>" ++ [newline]) ++
  T "  </head>" ++ [newline] ++ T "  <results>" ++ [newline] ++ (rows t ≫= xml_result (vars t)) ++
  T "  </results>" ++ [newline] ++ T "</sparql>" ++ [newline].

(** ** JSON *)

Inductive json := JString (s : text) | JArray (l : list json) | JObject (l : list (text * json)).
(** [object[key] = value]. *)
Fixpoint set_field (key : text) (value : json) (l : list (text * json)) : list (text * json) :=
  match l with
  | [] => [(key, value)]
  | (k, v) :: l => if bool_decide (k = key) then (k, value) :: l else (k, v) :: set_field key value l
  end.
Definition opt_field (key : string) (v : option text) (l : list (text * json)) : list (text * json) :=
  match v with Some v => set_field (T key) (JString v) l | None => l end.
Definition json_term (term : TermInfo) : json :=
  JObject (opt_field "xml:lang" (ti_lang term) (opt_field "datatype" (ti_datatype term)
    (set_field (T "value") (JString (ti_value term)) (set_field (T "type") (JString (T (ti_type term))) [])))).
Definition json_binding (vars : list text) (row : list (option text)) : json :=
  JObject (foldl (λ o '(n, v), set_field n (json_term (classifyTerm v)) o) [] (bindings vars row)).
Definition sparqlJson (t : TableRows) : json :=
  JObject [(T "head", JObject [(T "vars", JArray (JString <$> vars t))]);
           (T "results", JObject [(T "bindings", JArray (json_binding (vars t) <$> rows t))])].

(** ** Routes *)

Inductive StatementKind := Load | Settings | Query.
#[global] Instance StatementKind_eq_dec : EqDecision StatementKind.
Proof. solve_decision. Defined.

(** What the engine does with a statement: it answers, perhaps with a table, or
    throws.  A failed assertion ends the program: [Fault]. *)
Inductive outcome := Done (t : option Table) | Unsupported (what : text) | Failed (what : text).

Class Engine (St : Type) := {
  classifyStatement : text → StatementKind + text;
  handleStatement : St → text → option text → res (St * outcome);
}.

Record Request := mkRequest { rq_method : string; rq_target : text; rq_contentType : text; rq_accept : text; rq_body : text }.
Record Response := mkResponse { rs_status : Z; rs_contentType : text; rs_body : text }.
Definition plain (status : Z) (s : string) : Response := mkResponse status (T "text/plain") (T s ++ [newline]).
Definition error_response (status : Z) (pre : string) (what : text) : Response := mkResponse status (T "text/plain") (T pre ++ what ++ [newline]).

Section routes.
Context {St : Type} `{Engine St} (dump : json → text).

Definition serialize (fmt : ResultFormat) (table : option Table) : text :=
  let rows := extractRows table in
  match fmt with
  | Csv => toCsv rows
  | Tsv => toTsv rows
  | SparqlJson => dump (sparqlJson rows)
  | SparqlXml => toSparqlXml rows
  end.

(** The loop over the statements of an update: the state, the number of
    statements executed, and the error that stopped it. *)
Fixpoint run_updates (st : St) (statements : list text) (executed : nat) : res (St * nat * option text) :=
  match statements with
  | [] => Ok (st, executed, None)
  | raw :: statements =>
      match trim raw with
      | [] => run_updates st statements executed
      | stmt =>
          match classifyStatement stmt with
          | inr what => Ok (st, executed, Some what)
          | inl Query => Ok (st, executed, Some (T "statement is not a LOAD or settings directive; SELECT queries must go to /sparql"))
          | inl _ =>
              let* '(st, o) := handleStatement st stmt None in
              match o with
              | Done _ => run_updates st statements (S executed)
              | Unsupported what | Failed what => Ok (st, executed, Some what)
              end
          end
      end
  end.

Definition handleUpdate (st : St) (req : Request) : res (St * Response) :=
  if negb (String.eqb (rq_method req) "POST") then Ok (st, plain 405 "Only POST is allowed on /sparql-update")
  else
    let body :=
      if has_text (T "application/x-www-form-urlencoded") (rq_contentType req) then parseFormEncoded (rq_body req) !! T "update"
      else Some (rq_body req) in
    match body with
    | None => Ok (st, plain 400 "Missing required 'update' field")
    | Some body =>
        let statements := fst (feed newAccumulator (body ++ [newline; ";"%char])) in
        let* '(st, executed, error) := run_updates st statements 0 in
        match error with
        | Some what => Ok (st, error_response 400 "Error: " what)
        | None =>
            if (executed =? 0)%nat then Ok (st, plain 400 "No statements found in request body")
            else Ok (st, mkResponse 200 (T "text/plain") (concat (replicate executed (T "OK" ++ [newline]))))
        end
    end.

Definition handleQueryRoute (st : St) (req : Request) (queryString : text) : res (St * Response) :=
  let get := String.eqb (rq_method req) "GET" in
  if negb get && negb (String.eqb (rq_method req) "POST") then Ok (st, plain 405 "Only GET or POST is allowed on /sparql")
  else
    let urlParams := parseFormEncoded queryString in
    let queryText :=
      if get then urlParams !! T "query"
      else if has_text (T "application/sparql-query") (rq_contentType req) then Some (rq_body req)
      else parseFormEncoded (rq_body req) !! T "query" in
    match trim <$> queryText with
    | None | Some [] => Ok (st, plain 400 "Missing required 'query' parameter")
    | Some stmt =>
        let defaultGraphOverride := match urlParams !! T "default-graph-uri" with Some (c :: g) => Some (c :: g) | _ => None end in
        match classifyStatement stmt with
        | inr what => Ok (st, error_response 400 "Error: " what)
        | inl kind =>
            let* '(st, o) := handleStatement st stmt defaultGraphOverride in
            match o with
            | Unsupported what => Ok (st, error_response 501 "Not implemented: " what)
            | Failed what => Ok (st, error_response 400 "Error: " what)
            | Done table =>
                if bool_decide (kind = Query) then
                  let fmt := negotiateFormat (rq_accept req) in
                  Ok (st, mkResponse 200 (contentTypeFor fmt) (serialize fmt table))
                else Ok (st, mkResponse 200 (T "text/plain") (T "OK" ++ [newline]))
            end
        end
    end.

Definition route (st : St) (req : Request) : res (St * Response) :=
  let '(path, queryString) := default (rq_target req, []) (cut_at "?" (rq_target req)) in
  if bool_decide (path = T "/sparql-update") then handleUpdate st req
  else if bool_decide (path = T "/sparql") then handleQueryRoute st req queryString
  else Ok (st, plain 404 "Not found").
End routes.
