(* ===== verification/EndpointProps.v ===== *)
(** * The SPARQL endpoint: round trips of its encodings, and its routes *)

From S2P Require Import Prelude Serialization GraphDataOps FuzzyTurtle SparqlText SparqlTextProps Endpoint.
From Stdlib Require Import Strings.Ascii.
From Stdlib Require Strings.String.
#[local] Open Scope Z_scope.
#[local] Open Scope list_scope.

Lemma eqc_false a c : eqc a c = false → a ≠ c.
Proof. apply Ascii.eqb_neq. Qed.
Lemma eqc_ne a c : a ≠ c → eqc a c = false.
Proof. apply Ascii.eqb_neq. Qed.

(** ** Forms *)

(** [e] is a percent encoding of [s]. *)
Inductive encodes : text → text → Prop :=
  | enc_nil : encodes [] []
  | enc_plain c s e : oneof ["+"; "%"; "&"; "="]%char c = false → encodes s e → encodes (c :: s) (c :: e)
  | enc_plus s e : encodes s e → encodes (" "%char :: s) ("+"%char :: e)
  | enc_hex h1 h2 s e : isxdigit h1 = true → isxdigit h2 = true → encodes s e → encodes (chr (16 * hexval h1 + hexval h2) :: s) ("%"%char :: h1 :: h2 :: e).

Lemma oneof_false l c : oneof l c = false → Forall (λ x, eqc c x = false) l.
Proof. unfold oneof. induction l as [|x l IH]; [done|]. simpl. intros [H1 H2]%orb_false_iff. by constructor; [|apply IH]. Qed.

Lemma urlDecode_encodes s e : encodes s e → urlDecode e = s.
Proof.
  induction 1 as [|c s e Hc _ IH|s e _ IH|h1 h2 s e H1 H2 _ IH]; [done| | |].
  - apply oneof_false in Hc. rewrite !Forall_cons in Hc. destruct Hc as (E1 & E2 & _). cbn [urlDecode]. rewrite E1, E2. cbn [andb]. rewrite IH. by destruct e as [|? [|? ?]].
  - cbn [urlDecode]. by rewrite IH.
  - cbn [urlDecode]. change (eqc "%" "+") with false. change (eqc "%" "%") with true. cbn [andb]. by rewrite H1, H2, IH.
Qed.

Lemma isxdigit_ne h c : isxdigit h = true → isxdigit c = false → eqc h c = false.
Proof. intros H1 H2. apply eqc_ne. intros ->. by rewrite H1 in H2. Qed.

Lemma encodes_avoids s e c : encodes s e → oneof ["&"; "="]%char c = true → Forall (λ x, eqc x c = false) e.
Proof.
  intros H Hc. assert (c = "&"%char ∨ c = "="%char) as Hc' by (unfold oneof in Hc; simpl in Hc; rewrite orb_false_r in Hc; apply orb_true_iff in Hc as [?%eqc_true|?%eqc_true]; auto).
  induction H as [|x s e Hx _ IH|s e _ IH|h1 h2 s e H1 H2 _ IH]; [done| | |].
  - constructor; [|done]. apply oneof_false in Hx. rewrite !Forall_cons in Hx. by destruct Hx as (_ & _ & ? & ? & _), Hc' as [-> | ->].
  - constructor; [|done]. by destruct Hc' as [-> | ->].
  - repeat (constructor; [destruct Hc' as [-> | ->]; first [done|by apply isxdigit_ne]|]). done.
Qed.

Lemma cut_at_app c a b : Forall (λ x, eqc x c = false) a → cut_at c (a ++ c :: b) = Some (a, b).
Proof. induction 1 as [|x a Hx _ IH]; simpl; [by rewrite eqc_refl|]. by rewrite Hx, IH. Qed.
Lemma cut_at_None c a : Forall (λ x, eqc x c = false) a → cut_at c a = None.
Proof. induction 1 as [|x a Hx _ IH]; simpl; [done|]. by rewrite Hx, IH. Qed.
Lemma cut_at_length c s a b : cut_at c s = Some (a, b) → (length b < length s)%nat.
Proof.
  revert a. induction s as [|x s IH]; intros a H; [done|]. simpl in H. destruct (eqc x c); [injection H as <- <-; simpl; lia|].
  destruct (cut_at c s) as [[a' b']|]; [|done]. injection H as <- <-. specialize (IH a' eq_refl). simpl. lia.
Qed.

Definition encodes_pair (kv : text * text) (e : text) : Prop := ∃ k v, encodes kv.1 k ∧ encodes kv.2 v ∧ e = k ++ ["="%char] ++ v.

Lemma add_encoded m kv e : encodes_pair kv e → kv.1 ≠ [] → add_pair m e = <[kv.1 := kv.2]> m.
Proof.
  intros (k & v & Hk & Hv & ->) Hne. change (["="%char] ++ v) with ("="%char :: v). unfold add_pair. destruct (k ++ "="%char :: v) as [|x l] eqn:E; [by destruct k|]. rewrite <- E. rewrite cut_at_app by (by eapply encodes_avoids).
  rewrite (urlDecode_encodes _ _ Hk), (urlDecode_encodes _ _ Hv). by destruct kv as [[|a b] c].
Qed.

Lemma form_fields fuel kvs es m : Forall2 encodes_pair kvs es → Forall (λ kv, kv.1 ≠ []) kvs → (length (join ["&"%char] es) < fuel)%nat →
  form_loop fuel (join ["&"%char] es) m = foldl (λ m kv, <[kv.1 := kv.2]> m) m kvs.
Proof.
  intros H. revert fuel m. induction H as [|kv e kvs es He Hes IH]; intros fuel m Hne Hf.
  - destruct fuel as [|fuel]; [simpl in Hf; lia|]. done.
  - apply Forall_cons in Hne as [Hk Hne]. destruct fuel as [|fuel]; [lia|]. assert (Forall (λ x, eqc x "&" = false) e) as Hamp.
    { destruct He as (k & v & Ek & Ev & ->). apply Forall_app. split; [by eapply encodes_avoids|]. constructor; [done|]. by eapply encodes_avoids. }
    destruct es as [|e2 es].
    + inversion Hes; subst. simpl. rewrite cut_at_None by done. by apply add_encoded.
    + change (join ["&"%char] (e :: e2 :: es)) with (e ++ "&"%char :: join ["&"%char] (e2 :: es)) in *. cbn [form_loop]. rewrite cut_at_app by done. rewrite (add_encoded m kv e He Hk).
      rewrite IH; [done|done|]. rewrite length_app in Hf. cbn [length] in Hf. lia.
Qed.

Lemma parse_form kvs es : Forall2 encodes_pair kvs es → Forall (λ kv, kv.1 ≠ []) kvs →
  parseFormEncoded (join ["&"%char] es) = foldl (λ m kv, <[kv.1 := kv.2]> m) ∅ kvs.
Proof. intros H Hne. unfold parseFormEncoded. apply form_fields; [done|done|lia]. Qed.

(** Fields that are percent encoded, in any of the ways there are, and joined
    with [&] come back, the last one of a name winning. *)
Theorem form_roundtrip kvs es : Forall2 encodes_pair kvs es → Forall (λ kv, kv.1 ≠ []) kvs →
  parseFormEncoded (join ["&"%char] es) = foldl (λ m kv, <[kv.1 := kv.2]> m) ∅ kvs.
Proof. apply parse_form. Qed.

(** ** Rows *)

Definition chunk_values (ch : Chunk) : list (option text) := if isStringArray ch then ch_vals ch else replicate (length (ch_vals ch)) None.
Definition column_values (col : list Chunk) : list (option text) := col ≫= chunk_values.

Lemma length_chunk_values ch : length (chunk_values ch) = length (ch_vals ch).
Proof. unfold chunk_values. destruct (isStringArray ch); [done|apply length_replicate]. Qed.

(** What is left of a column behind a cursor. *)
Definition left_values (col : list Chunk) (cur : nat * nat) : list (option text) :=
  match col !! cur.1 with
  | None => []
  | Some ch => drop cur.2 (chunk_values ch) ++ column_values (drop (S cur.1) col)
  end.

Lemma skip_chunks_spec fuel col cur : (length col ≤ cur.1 + fuel)%nat → left_values col (skip_chunks fuel col cur) = left_values col cur ∧
  (∀ ch, col !! (skip_chunks fuel col cur).1 = Some ch → ((skip_chunks fuel col cur).2 < length (ch_vals ch))%nat).
Proof.
  revert cur. induction fuel as [|fuel IH]; intros [ci wi] Hf.
  - simpl in *. split; [done|]. intros ch Hch. apply lookup_lt_Some in Hch. lia.
  - cbn [skip_chunks]. destruct (col !! ci) as [ch|] eqn:Ech; [|split; [done|]; simpl; intros ch Hch; by rewrite Ech in Hch].
    destruct (Nat.leb_spec (length (ch_vals ch)) wi) as [Hle|Hlt]; [|split; [done|]; simpl; intros ch' Hch; rewrite Ech in Hch; by injection Hch as <-].
    destruct (IH (S ci, 0%nat)) as [E Hlt]; [simpl in *; lia|]. split; [|done]. rewrite E. unfold left_values. cbn [fst snd]. rewrite Ech, (drop_ge (chunk_values ch)) by (by rewrite length_chunk_values).
    simpl app. destruct (col !! S ci) as [ch2|] eqn:Ech2; [by rewrite drop_0, (drop_S _ _ _ Ech2)|]. apply lookup_ge_None in Ech2. by rewrite drop_ge.
Qed.

Lemma next_value_spec col cur : let '(v, cur') := next_value col cur in v = mjoin (head (left_values col cur)) ∧ left_values col cur' = tail (left_values col cur).
Proof.
  unfold next_value. destruct (skip_chunks_spec (length col) col cur) as [E Hlt]; [lia|]. destruct (skip_chunks (length col) col cur) as [ci wi]. cbn [fst snd] in *. rewrite <- E. unfold left_values. cbn [fst snd].
  destruct (col !! ci) as [ch|] eqn:Ech; cbn [fst snd]; rewrite Ech; [specialize (Hlt ch eq_refl)|done].
  destruct (lookup_lt_is_Some_2 (chunk_values ch) wi) as [v Hv]; [by rewrite length_chunk_values|]. rewrite (drop_S _ _ _ Hv). simpl. split; [|done].
  unfold arrowStringAt, chunk_values in *. destruct (isStringArray ch); [rewrite Hv; by destruct v|]. apply lookup_replicate in Hv as [-> _]. by destruct (ch_vals ch !! wi) as [[?|]|].
Qed.

Lemma next_row_spec cols curs : length curs = length cols → let '(r, curs') := next_row cols curs in length curs' = length cols ∧
  r = zip_with (λ col cur, mjoin (head (left_values col cur))) cols curs ∧ zip_with left_values cols curs' = tail <$> zip_with left_values cols curs.
Proof.
  revert curs. induction cols as [|col cols IH]; intros [|cur curs] Hlen; try done. simpl in Hlen. cbn [next_row]. pose proof (next_value_spec col cur) as Hv. destruct (next_value col cur) as [v cur'].
  destruct Hv as [-> E]. specialize (IH curs ltac:(lia)). destruct (next_row cols curs) as [vs curs']. destruct IH as (Hl & -> & E2). split_and!; [simpl; lia|done|]. csimpl. by rewrite E, E2.
Qed.

Lemma all_rows_spec n cols curs : length curs = length cols →
  all_rows n cols curs = (λ r, (λ l, mjoin (l !! r)) <$> zip_with left_values cols curs) <$> seq 0 n.
Proof.
  revert curs. induction n as [|n IH]; intros curs Hlen; [done|]. cbn [all_rows seq]. pose proof (next_row_spec cols curs Hlen) as Hr. destruct (next_row cols curs) as [r curs']. destruct Hr as (Hl & -> & E).
  rewrite IH by done. csimpl. f_equal.
  - clear. revert curs. induction cols as [|col cols IH]; intros [|cur curs]; try done. csimpl. rewrite IH. f_equal. by destruct (left_values col cur).
  - rewrite E. rewrite <- (fmap_S_seq 0 n), <- list_fmap_compose. apply list_fmap_ext. intros ? r _. simpl. rewrite <- list_fmap_compose. apply list_fmap_ext. intros ? l _. simpl. destruct l; [by destruct r|done].
Qed.

(** The rows of a result are the columns read side by side, across the
    boundaries of their chunks; a column that is not of strings is unbound. *)
Theorem extractRows_columns t r : tb_columns t ≠ [] → (r < tb_rows t)%nat →
  length (rows (extractRows (Some t))) = tb_rows t ∧ rows (extractRows (Some t)) !! r = Some ((λ col, mjoin (column_values col !! r)) <$> tb_columns t).
Proof.
  intros Hne Hr. unfold extractRows. destruct (tb_columns t) as [|col cols] eqn:Ec; [done|]. rewrite <- Ec. cbn [rows]. rewrite all_rows_spec by (by rewrite length_replicate).
  split; [by rewrite length_fmap, length_seq|]. rewrite list_lookup_fmap, lookup_seq_lt by done. simpl. f_equal. clear. induction (tb_columns t) as [|col cols IH]; [done|]. csimpl. rewrite IH. do 2 f_equal.
  unfold left_values, column_values. cbn [fst snd]. destruct col as [|ch col]; [done|]. simpl. by rewrite drop_0.
Qed.

(** ** CSV *)

(** A reader of CSV after RFC 4180: records end with CR LF; a field that begins
    with a quote ends with the next quote that is not doubled. *)
Inductive csvMode := Bare | Quoted | QuoteSeen | CrSeen.
Fixpoint csv_read (mode : csvMode) (field : text) (record : list text) (s : text) : list (list text) :=
  match s with
  | [] => []
  | c :: s =>
      match mode with
      | Bare | QuoteSeen =>
          if eqc c "," then csv_read Bare [] (record ++ [field]) s
          else if eqc c cr then csv_read CrSeen field record s
          else if eqc c quote2 then csv_read Quoted (match mode with QuoteSeen => field ++ [quote2] | _ => field end) record s
          else csv_read Bare (field ++ [c]) record s
      | Quoted => if eqc c quote2 then csv_read QuoteSeen field record s else csv_read Quoted (field ++ [c]) record s
      | CrSeen => if eqc c newline then (record ++ [field]) :: csv_read Bare [] [] s else csv_read Bare (field ++ [cr; c]) record s
      end
  end.

(** The characters behind a field. *)
Definition field_end (s : text) : Prop := front_is "," s = true ∨ front_is cr s = true.

Lemma csv_bare v field record s : existsb (oneof [","%char; quote2; newline; cr]) v = false → csv_read Bare field record (v ++ s) = csv_read Bare (field ++ v) record s.
Proof.
  revert field. induction v as [|c v IH]; intros field H; [by rewrite app_nil_r|]. apply orb_false_iff in H as [Hc Hv]. apply oneof_false in Hc. rewrite !Forall_cons in Hc. destruct Hc as (E1 & E2 & E3 & E4 & _).
  simpl. rewrite E1, E4, E2. rewrite IH by done. by rewrite <- app_assoc.
Qed.

Lemma csv_quoted v field record s : csv_read Quoted field record ((v ≫= λ c, if eqc c quote2 then [quote2; quote2] else [c]) ++ quote2 :: s) = csv_read QuoteSeen (field ++ v) record s.
Proof.
  revert field. induction v as [|c v IH]; intros field; [by rewrite app_nil_r|]. csimpl. destruct (eqc c quote2) eqn:E.
  - apply eqc_true in E as ->. simpl. rewrite IH. by rewrite <- app_assoc.
  - simpl. rewrite E, IH. by rewrite <- app_assoc.
Qed.

Lemma csv_field v record s : field_end s → ∃ mode, (mode = Bare ∨ mode = QuoteSeen) ∧ csv_read Bare [] record (csvEscape v ++ s) = csv_read mode v record s.
Proof.
  intros Hs. unfold csvEscape. destruct (existsb _ v) eqn:E; [|exists Bare; split; [by left|by apply csv_bare]]. exists QuoteSeen. split; [by right|].
  rewrite <- !app_assoc. simpl. apply (csv_quoted v []).
Qed.

Lemma csv_record fs rest done_ : fs ≠ [] → csv_read Bare [] done_ (join [","%char] (csvEscape <$> fs) ++ crlf ++ rest) = (done_ ++ fs) :: csv_read Bare [] [] rest.
Proof.
  intros Hne. revert done_. induction fs as [|f fs IH]; intros done_; [done|]. destruct fs as [|f2 fs].
  - change (join [","%char] (csvEscape <$> [f])) with (csvEscape f). destruct (csv_field f done_ (crlf ++ rest)) as (mode & Hm & ->); [by right|]. destruct Hm as [-> | ->]; done.
  - change (join [","%char] (csvEscape <$> f :: f2 :: fs)) with (csvEscape f ++ [","%char] ++ join [","%char] (csvEscape <$> f2 :: fs)). rewrite <- !app_assoc.
    destruct (csv_field f done_ ([","%char] ++ join [","%char] (csvEscape <$> f2 :: fs) ++ crlf ++ rest)) as (mode & Hm & ->); [by left|].
    transitivity (csv_read Bare [] (done_ ++ [f]) (join [","%char] (csvEscape <$> f2 :: fs) ++ crlf ++ rest)); [by destruct Hm as [-> | ->]|]. rewrite IH by done. by rewrite <- app_assoc.
Qed.

(** C35. The CSV text of a result, read back, is its header and its rows, whatever
    commas, quotes and line ends they have; an unbound value is empty. *)
Theorem csv_roundtrip t : vars t ≠ [] → Forall (λ r, r ≠ []) (rows t) →
  csv_read Bare [] [] (toCsv t) = vars t :: ((λ row : list (option text), default [] <$> row) <$> rows t).
Proof.
  intros Hv Hr. unfold toCsv. rewrite csv_record by done. simpl. f_equal. induction Hr as [|row rs Hrow _ IH]; [done|]. csimpl.
  assert (cell csvEscape <$> row = csvEscape <$> (default [] <$> row)) as -> by (rewrite <- list_fmap_compose; apply list_fmap_ext; intros ? [v|] _; done).
  rewrite <- app_assoc. rewrite csv_record; [by rewrite IH|]. by destruct row.
Qed.

(** ** TSV *)

(** A tab and the two characters that stand for it have the same text, and a
    carriage return has none. *)
Theorem tsv_ambiguous : tsvEscape [tab] = tsvEscape [backslash; "t"%char] ∧ tsvEscape [cr] = tsvEscape [].
Proof. done. Qed.

(** ** Terms *)

(** RDF terms and their N-Triples text. *)
Inductive suffix := NoSuffix | LangTag (l : text) | Datatype (d : text).
Inductive term := IriTerm (i : text) | BlankTerm (l : text) | LiteralTerm (v : text) (s : suffix).
Definition escape_char (c : ascii) : text :=
  if eqc c quote2 then [backslash; quote2] else if eqc c backslash then [backslash; backslash] else if eqc c newline then T "\n" else if eqc c cr then T "\r" else [c].
Definition suffix_text (s : suffix) : text :=
  match s with NoSuffix => [] | LangTag l => "@"%char :: l | Datatype d => T "^^<" ++ d ++ [">"%char] end.
Definition term_text (t : term) : text :=
  match t with
  | IriTerm i => ["<"%char] ++ i ++ [">"%char]
  | BlankTerm l => T "_:" ++ l
  | LiteralTerm v s => [quote2] ++ (v ≫= escape_char) ++ [quote2] ++ suffix_text s
  end.
Definition term_info (t : term) : TermInfo :=
  match t with
  | IriTerm i => mkTerm "uri" i None None
  | BlankTerm l => mkTerm "bnode" l None None
  | LiteralTerm v NoSuffix => mkTerm "literal" v None None
  | LiteralTerm v (LangTag l) => mkTerm "literal" v None (Some l)
  | LiteralTerm v (Datatype d) => mkTerm "literal" v (Some d) None
  end.

Lemma inner_app p v c : inner (length p) (p ++ v ++ [c]) = v.
Proof. unfold inner. rewrite drop_app_length, !length_app. simpl. replace (length p + (length v + 1) - length p - 1)%nat with (length v) by lia. apply take_app_length. Qed.
Lemma back_is_app c s : back_is c (s ++ [c]) = true.
Proof. unfold back_is. rewrite last_snoc. apply eqc_refl. Qed.

Lemma escape_char_cases c : (c = quote2 ∨ c = backslash ∨ c = newline ∨ c = cr) ∨ (escape_char c = [c] ∧ eqc c quote2 = false ∧ eqc c backslash = false).
Proof.
  unfold escape_char. destruct (eqc c quote2) eqn:E1; [apply eqc_true in E1; auto|]. destruct (eqc c backslash) eqn:E2; [apply eqc_true in E2; auto|].
  destruct (eqc c newline) eqn:E3; [apply eqc_true in E3; auto|]. destruct (eqc c cr) eqn:E4; [apply eqc_true in E4; auto|]. by right.
Qed.

Lemma scan_escaped v s : scan_quote ((v ≫= escape_char) ++ quote2 :: s) = Some (v ≫= escape_char, s).
Proof.
  induction v as [|c v IH]; [done|]. csimpl. destruct (escape_char_cases c) as [[-> | [-> | [-> | ->]]]|(-> & E1 & E2)]; simpl; try by rewrite IH.
  rewrite E1, E2, IH. destruct (((v ≫= escape_char) ++ quote2 :: s)) eqn:E; [by destruct (v ≫= escape_char)|done].
Qed.

Lemma unescape_escaped v : unescapeLexicalForm (v ≫= escape_char) = v.
Proof.
  induction v as [|c v IH]; [done|]. csimpl. destruct (escape_char_cases c) as [[-> | [-> | [-> | ->]]]|(-> & E1 & E2)]; try by (simpl; rewrite IH).
  simpl. rewrite E2. destruct (v ≫= escape_char) as [|x l] eqn:E; [by destruct v; [|simplify_eq]|]. by rewrite IH.
Qed.

(** A term that is printed in the N-Triples form is recognised: its kind, its
    value with the escapes resolved, and its language or datatype. *)
Theorem classifyTerm_roundtrip t : classifyTerm (term_text t) = term_info t.
Proof.
  destruct t as [i|l|v s]; unfold classifyTerm.
  - change (term_text (IriTerm i)) with (["<"%char] ++ i ++ [">"%char]). pose proof (inner_app ["<"%char] i ">"%char) as E. change (length ["<"%char]) with 1%nat in E. rewrite E. rewrite (app_assoc ["<"%char] i), back_is_app. rewrite (proj2 (Nat.leb_le _ _)) by (rewrite !length_app; simpl; lia). done.
  - change (term_text (BlankTerm l)) with ("_"%char :: ":"%char :: l). simpl. done.
  - change (term_text (LiteralTerm v s)) with (quote2 :: ((v ≫= escape_char) ++ quote2 :: suffix_text s)). change (front_is "<" (quote2 :: _)) with false. rewrite andb_false_r. cbn [andb].
    change (starts_with (T "_:") (quote2 :: _)) with false. change (front_is quote2 (quote2 :: _)) with true. cbn [drop]. rewrite drop_0, scan_escaped, unescape_escaped.
    destruct s as [|l|d]; [done|cbn [suffix_text front_is]; rewrite eqc_refl; simpl; by rewrite drop_0|]. cbn [suffix_text].
    change (front_is "@" (T "^^<" ++ d ++ [">"%char])) with false. pose proof (inner_app (T "^^<") d ">"%char) as E. change (length (T "^^<")) with 3%nat in E. rewrite E. rewrite (app_assoc (T "^^<") d), back_is_app. rewrite (proj2 (Nat.leb_le _ _)) by (rewrite !length_app; simpl; lia). done.
Qed.

(** ** XML *)

(** Text with the entities of the writer replaced. *)
Definition entities : list (text * ascii) := [(T "&amp;", "&"%char); (T "&lt;", "<"%char); (T "&gt;", ">"%char); (T "&quot;", quote2)].
Inductive xml_reads : text → text → Prop :=
  | xr_nil : xml_reads [] []
  | xr_char c s v : eqc c "&" = false → xml_reads s v → xml_reads (c :: s) (c :: v)
  | xr_entity e c s v : (e, c) ∈ entities → xml_reads s v → xml_reads (e ++ s) (c :: v).

(** A value in an element or an attribute is read back, and has none of the
    characters that end one. *)
Theorem xml_escape_roundtrip v : xml_reads (xmlEscape v) v ∧ Forall (λ c, oneof ["<"; ">"; quote2]%char c = false) (xmlEscape v).
Proof.
  induction v as [|c v [IH1 IH2]]; [split; [constructor|done]|]. unfold xmlEscape. csimpl. fold (xmlEscape v).
  destruct (eqc c "&") eqn:E1; [apply eqc_true in E1 as ->; split; [apply xr_entity; [unfold entities; set_solver|done]|apply Forall_app; split; [repeat constructor|done]]|].
  destruct (eqc c "<") eqn:E2; [apply eqc_true in E2 as ->; split; [apply xr_entity; [unfold entities; set_solver|done]|apply Forall_app; split; [repeat constructor|done]]|].
  destruct (eqc c ">") eqn:E3; [apply eqc_true in E3 as ->; split; [apply xr_entity; [unfold entities; set_solver|done]|apply Forall_app; split; [repeat constructor|done]]|].
  destruct (eqc c quote2) eqn:E4; [apply eqc_true in E4 as ->; split; [apply xr_entity; [unfold entities; set_solver|done]|apply Forall_app; split; [repeat constructor|done]]|].
  split; [by apply xr_char|]. constructor; [|done]. unfold oneof. simpl. by rewrite E2, E3, E4.
Qed.

(** ** Routes *)

Section routes.
Context {St : Type} `{Engine St} (dump : json → text).

(** Statements that are executed one after the other, all with success. *)
Fixpoint executes (st : St) (stmts : list text) (st' : St) : Prop :=
  match stmts with
  | [] => st' = st
  | s :: stmts => (classifyStatement s = inl Load ∨ classifyStatement s = inl Settings) ∧ ∃ st1 t, handleStatement st s None = Ok (st1, Done t) ∧ executes st1 stmts st'
  end.

(** A statement that ends the update: a query or one that throws. *)
Definition stopped (st1 : St) (s : text) (st' : St) : Prop :=
  ((classifyStatement s = inl Query ∨ ∃ w, classifyStatement s = inr w) ∧ st' = st1) ∨ ∃ o, handleStatement st1 s None = Ok (st', o) ∧ ∀ t, o ≠ Done t.

Definition update_statements (body : text) : list text := filter (λ s, s ≠ []) (trim <$> (feed newAccumulator (body ++ [newline; ";"%char])).1).

Lemma run_updates_spec raws st n st' k e : run_updates st raws n = Ok (st', k, e) →
  let stmts := filter (λ s, s ≠ []) (trim <$> raws) in ∃ st1 m, (m ≤ length stmts)%nat ∧ executes st (take m stmts) st1 ∧ k = (n + m)%nat ∧
    match e with
    | None => m = length stmts ∧ st' = st1
    | Some _ => ∃ s, stmts !! m = Some s ∧ stopped st1 s st'
    end.
Proof.
  revert st n. induction raws as [|raw raws IH]; intros st n E; csimpl.
  { injection E as <- <- <-. exists st, 0%nat. split_and!; by try lia. }
  cbn [run_updates] in E. destruct (trim raw) as [|c s] eqn:Et; [rewrite filter_cons_False by (intros Hn; by apply Hn); by apply IH|].
  rewrite filter_cons_True by done. set (stmts := filter _ (trim <$> raws)) in *. set (stmt := c :: s) in *.
  assert (∀ what, (classifyStatement stmt = inl Query ∨ ∃ w, classifyStatement stmt = inr w) → Ok (st, n, Some what) = Ok (st', k, e) → ∃ st1 m, (m ≤ length (stmt :: stmts))%nat ∧ executes st (take m (stmt :: stmts)) st1 ∧ k = (n + m)%nat ∧
    match e with None => m = length (stmt :: stmts) ∧ st' = st1 | Some _ => ∃ s, (stmt :: stmts) !! m = Some s ∧ stopped st1 s st' end) as Hstop.
  { intros what Hq [= <- <- <-]. exists st, 0%nat. split_and!; [lia|done|lia|]. exists stmt. split; [done|by left]. }
  destruct (classifyStatement stmt) as [kind|what] eqn:Ec; [|apply (Hstop what); [right; by exists what|done]].
  destruct (decide (kind = Query)) as [->|Hk]; [eapply Hstop; [by left|done]|].
  assert (∃ st1 o, handleStatement st stmt None = Ok (st1, o) ∧ match o with Done _ => run_updates st1 raws (S n) | Unsupported w | Failed w => Ok (st1, n, Some w) end = Ok (st', k, e)) as (st1 & o & Eh & E') by (destruct kind; [..|done]; apply res_bind_ok in E as ([st1 o] & Eh & E'); by exists st1, o). clear E.
  assert (classifyStatement stmt = inl Load ∨ classifyStatement stmt = inl Settings) as Hkind by (rewrite Ec; destruct kind; auto; done).
  destruct o as [t|what|what].
  - destruct (IH st1 (S n) E') as (st2 & m & Hm & Hex & -> & He). exists st2, (S m). split_and!; [simpl; lia|simpl; split; [done|]; by exists st1, t|lia|].
    destruct e; [done|]. destruct He as [-> ->]. done.
  - injection E' as <- <- <-. exists st, 0%nat. split_and!; [lia|done|lia|]. exists stmt. split; [done|]. right. by exists (Unsupported what).
  - injection E' as <- <- <-. exists st, 0%nat. split_and!; [lia|done|lia|]. exists stmt. split; [done|]. right. by exists (Failed what).
Qed.

Lemma run_updates_returns raws st n : (∀ st s, ∃ r, handleStatement st s None = Ok r) → ∃ r, run_updates st raws n = Ok r.
Proof.
  intros Hret. revert st n. induction raws as [|raw raws IH]; intros st n; [by eexists|]. cbn [run_updates]. destruct (trim raw) as [|c s]; [apply IH|].
  destruct (Hret st (c :: s)) as [[st1 o] ->]. cbn [res_bind]. destruct (classifyStatement (c :: s)) as [[]|w], o; eauto.
Qed.

(** The text of the update in a request. *)
Definition update_text (req : Request) : option text :=
  if has_text (T "application/x-www-form-urlencoded") (rq_contentType req) then parseFormEncoded (rq_body req) !! T "update" else Some (rq_body req).

(** The outcomes of running the statements of an update. *)
Definition update_outcome (st : St) (stmts : list text) (st' : St) (r : Response) : Prop :=
  ∃ st1 m, (m ≤ length stmts)%nat ∧ executes st (take m stmts) st1 ∧
    ((rs_status r = 200 ∧ m = length stmts ∧ (0 < m)%nat ∧ st' = st1) ∨
     (rs_status r = 400 ∧ stmts = [] ∧ st' = st) ∨
     (rs_status r = 400 ∧ ∃ s, stmts !! m = Some s ∧ stopped st1 s st')).

Lemma run_updates_outcome st body : (∀ st s, ∃ r, handleStatement st s None = Ok r) →
  ∃ st' r, (let* '(st, executed, error) := run_updates st (feed newAccumulator (body ++ [newline; ";"%char])).1 0 in
    match error with
    | Some what => Ok (st, error_response 400 "Error: " what)
    | None =>
        if (executed =? 0)%nat then Ok (st, plain 400 "No statements found in request body")
        else Ok (st, mkResponse 200 (T "text/plain") (concat (replicate executed (T "OK" ++ [newline]))))
    end) = Ok (st', r) ∧ update_outcome st (update_statements body) st' r.
Proof.
  intros Hret. destruct (run_updates_returns (feed newAccumulator (body ++ [newline; ";"%char])).1 st 0 Hret) as [[[st2 k] e] Er]. rewrite Er. cbn [res_bind].
  apply run_updates_spec in Er as (st1 & m & Hle & Hex & -> & He). fold (update_statements body) in *. destruct e as [what|].
  - eexists st2, _. split; [done|]. exists st1, m. split_and!; [done..|]. right. by right.
  - destruct He as [Hm' ->]. destruct (Nat.eqb_spec (0 + m) 0) as [En|En]; eexists st1, _; (split; [done|]); exists st1, m;
      (split_and!; [done..|]); [|left; split_and!; [done|done|lia|done]].
    right. left. assert (m = 0%nat) as -> by lia. split; [done|]. split; [by apply nil_length_inv|]. exact Hex.
Qed.

(** The statements of a text of closed items are those that were written. *)
Lemma update_statements_written body written : Forall statement_ok written →
  body ++ [newline; ";"%char] = concat ((λ s, items_text s ++ [";"%char]) <$> written) →
  update_statements body = filter (λ s, s ≠ []) (trim <$> (items_kept <$> written)).
Proof.
  intros Hw E. unfold update_statements. rewrite E. destruct (feed_statements written [] 0 (chr 0) Hw (Forall_nil_2 _) eq_refl) as (sd & Ef).
  unfold items_text in Ef at 2. simpl in Ef. rewrite app_nil_r in Ef. unfold newAccumulator. by rewrite Ef.
Qed.

(** C36. An update always answers, when every statement handler returns.  A
    request that is no POST or a form without the field changes nothing and is
    answered 405 or 400.  Otherwise the statements the accumulator finds in the
    text run in order up to the first that is a query or fails; what ran before
    stays done, and the answer is 200 exactly when there was a statement and all
    were run, else 400.  In a text of lexical items whose strings, IRIs and
    braces are closed these statements are all that were written; what follows
    an unclosed item is dropped ([update_drops_unterminated]). *)
Theorem update_in_order st req : (∀ st s, ∃ r, handleStatement st s None = Ok r) →
  ∃ st' r, handleUpdate st req = Ok (st', r) ∧
    match (rq_method req =? "POST")%string, update_text req with
    | false, _ => rs_status r = 405 ∧ st' = st
    | true, None => rs_status r = 400 ∧ st' = st
    | true, Some body => update_outcome st (update_statements body) st' r ∧
        ∀ written, Forall statement_ok written → body ++ [newline; ";"%char] = concat ((λ s, items_text s ++ [";"%char]) <$> written) →
          update_statements body = filter (λ s, s ≠ []) (trim <$> (items_kept <$> written))
    end.
Proof.
  intros Hret. unfold handleUpdate. destruct (rq_method req =? "POST")%string; cbn [negb]; [|by eexists _, _; split_and!].
  change (if has_text _ _ then _ else _) with (update_text req). destruct (update_text req) as [body|]; [|by eexists _, _; split_and!].
  destruct (run_updates_outcome st body Hret) as (st' & r & E & Ho). exists st', r. split; [exact E|]. split; [done|].
  intros written. apply update_statements_written.
Qed.

(** A statement that is not closed is dropped without an error. *)
Theorem update_drops_unterminated st st1 t s rest : statement_ok s → trim (items_kept s) ≠ [] → Forall (λ c, eqc c ">" = false) rest →
  classifyStatement (trim (items_kept s)) = inl Load → handleStatement st (trim (items_kept s)) None = Ok (st1, Done t) →
  handleUpdate st (mkRequest "POST" (T "/sparql-update") (T "application/sparql-update") [] (items_text s ++ T ";LOAD <" ++ rest)) =
    Ok (st1, mkResponse 200 (T "text/plain") (T "OK" ++ [newline])).
Proof.
  intros [Hs1 Hs2] Hne Hr Hc Hh. unfold handleUpdate. change (has_text _ (rq_contentType _)) with false. cbn [rq_method rq_body negb String.eqb].
  assert ((feed newAccumulator ((items_text s ++ T ";LOAD <" ++ rest) ++ [newline; ";"%char])).1 = [items_kept s]) as Ef.
  { destruct (feed_items s [] 0 (chr 0) (T ";LOAD <" ++ rest ++ [newline; ";"%char]) 0 Hs1 Hs2) as (sd & E). rewrite <- !app_assoc. unfold feed, newAccumulator. rewrite E. simpl.
    pose proof (feed_open_iri (rest ++ [newline; ";"%char]) (mkAcc (T "LOAD <") 0 true false sd)) as Ho. destruct (feed_loop false _ (rest ++ [newline; ";"%char])) as [o a] eqn:El. simpl in Ho. simpl. rewrite Ho; [done| |done].
    apply Forall_app. split; [done|]. repeat constructor. }
  change (negb (String.eqb "POST" "POST")) with false. cbv iota. rewrite Ef. cbn [run_updates]. destruct (trim (items_kept s)) as [|c l] eqn:Et; [done|]. by rewrite Hc, Hh.
Qed.

(** A statement that changes the database is executed by the query route too,
    even with GET. *)
Theorem query_route_updates st q st1 t : trim q = q → q ≠ [] → classifyStatement q = inl Load → handleStatement st q None = Ok (st1, Done t) →
  ∀ e, encodes q e →
  route dump st (mkRequest "GET" (T "/sparql?query=" ++ e) [] [] []) = Ok (st1, mkResponse 200 (T "text/plain") (T "OK" ++ [newline])).
Proof.
  intros Hq Hne Hc Hh e He. unfold route. cbn [rq_target]. change (T "/sparql?query=" ++ e) with (T "/sparql" ++ "?"%char :: T "query=" ++ e). rewrite cut_at_app by (repeat constructor).
  cbn [from_option id]. rewrite (bool_decide_false (T "/sparql" = T "/sparql-update")) by done. rewrite (bool_decide_true (T "/sparql" = T "/sparql")) by done. unfold handleQueryRoute. cbn [rq_method]. change (String.eqb "GET" "GET") with true. cbn [negb andb].
  assert (parseFormEncoded (T "query=" ++ e) = {[ T "query" := q ]}) as ->.
  { apply (parse_form [(T "query", q)] [T "query=" ++ e]); [|by repeat constructor]. constructor; [|constructor]. exists (T "query"), e. split_and!; [by repeat constructor|done|done]. }
  rewrite lookup_singleton_eq, lookup_singleton_ne by done. cbn [fmap option_fmap option_map]. rewrite Hq. destruct q as [|c q]; [done|]. rewrite Hc, Hh. done.
Qed.
End routes.

(** ** Instances *)

Lemma form_roundtrip_witness :
  parseFormEncoded (T "query=a+%26b%3D&x=1&x=2") = <[T "x" := T "2"]> (<[T "x" := T "1"]> (<[T "query" := T "a &b="]> ∅)).
Proof.
  apply (form_roundtrip [(T "query", T "a &b="); (T "x", T "1"); (T "x", T "2")] [T "query=a+%26b%3D"; T "x=1"; T "x=2"]); [|by repeat constructor].
  assert (∀ s, forallb (λ c, negb (oneof ["+"; "%"; "&"; "="]%char c)) s = true → encodes s s) as Hplain.
  { induction s as [|c s IH]; intros H; [constructor|]. simpl in H. apply andb_true_iff in H as [H1%negb_true_iff H2]. by apply enc_plain; [|apply IH]. }
  repeat constructor; eexists _, _; (split; [by apply Hplain|]); (split; [|reflexivity]); [|by apply Hplain..].
  change (encodes (T "a &b=") (T "a+%26b%3D")). cbn. apply enc_plain; [done|]. apply enc_plus. apply (enc_hex "2" "6"); [done|done|]. apply enc_plain; [done|]. apply (enc_hex "3" "D"); [done|done|]. constructor.
Defined.

Lemma extractRows_columns_witness :
  let t := mkTable [T "a"; T "b"] [[mkChunk true [Some (T "x")]; mkChunk true []; mkChunk true [None; Some (T "y")]]; [mkChunk false [None; None; None]]] 3 in
  length (rows (extractRows (Some t))) = 3%nat ∧ rows (extractRows (Some t)) !! 2%nat = Some [Some (T "y"); None].
Proof. intros t. apply (extractRows_columns t 2); [done|simpl; lia]. Defined.

Lemma csv_roundtrip_witness :
  csv_read Bare [] [] (toCsv (mkRows [T "a"; T "b"] [[Some (T "x,y" ++ [quote2; newline]); None]])) = [[T "a"; T "b"]; [T "x,y" ++ [quote2; newline]; []]].
Proof. apply (csv_roundtrip (mkRows [T "a"; T "b"] [[Some (T "x,y" ++ [quote2; newline]); None]])); [done|by repeat constructor]. Defined.

(** An engine that counts, and refuses what begins with a question mark. *)
Definition counting : Engine nat :=
  {| classifyStatement := λ s, inl (if front_is "S" s then Query else Load);
     handleStatement := λ n s _, Ok (if front_is "?" s then (n, Failed s) else (S n, Done None)) |}.

(** A form with two statements and a comment. *)
Lemma update_in_order_witness :
  let req := mkRequest "POST" (T "/sparql-update") (T "application/x-www-form-urlencoded") [] (T "update=LOAD+%3Cf%3E%3BLOAD%3Cg%3E+%23x") in
  ∃ st' r, handleUpdate (H := counting) 0%nat req = Ok (st', r) ∧
    update_outcome (H := counting) 0%nat [T "LOAD <f>"; T "LOAD<g>"] st' r.
Proof.
  intros req. destruct (update_in_order (H := counting) 0%nat req) as (st' & r & E & Ho); [intros st s; eexists; reflexivity|].
  exists st', r. split; [exact E|]. change (rq_method req =? "POST")%string with true in Ho.
  assert (update_text req = Some (T "LOAD <f>;LOAD<g> #x")) as Et by (vm_compute; reflexivity). rewrite Et in Ho. destruct Ho as [Ho Hw].
  pose (plain s := Plain <$> T s).
  specialize (Hw [plain "LOAD " ++ [Iri (T "f")]; plain "LOAD" ++ [Iri (T "g")] ++ plain " " ++ [Comment (T "x")]]).
  rewrite Hw in Ho.
  - replace [T "LOAD <f>"; T "LOAD<g>"] with (filter (λ s : text, s ≠ []) (trim <$> (items_kept <$> [plain "LOAD " ++ [Iri (T "f")]; plain "LOAD" ++ [Iri (T "g")] ++ plain " " ++ [Comment (T "x")]]))) by (vm_compute; reflexivity).
    exact Ho.
  - repeat first [apply Forall_nil_2|apply Forall_cons_2|split|done].
  - vm_compute; reflexivity.
Defined.

Lemma query_route_updates_witness : ∀ dump, route (H := counting) dump 0%nat (mkRequest "GET" (T "/sparql?query=LOAD") [] [] []) = Ok (1%nat, mkResponse 200 (T "text/plain") (T "OK" ++ [newline])).
Proof.
  intros dump. apply (query_route_updates (H := counting) dump 0%nat (T "LOAD") 1%nat None); try done. repeat (apply enc_plain; [done|]). constructor.
Defined.
