(* ===== verification/Regex.v ===== *)
(** * Regular expressions

    The part of the C++ library's ECMAScript expressions that the engine uses
    (src/gengodb/execution/SparqlEngine.cpp), matched by backtracking as the
    standard says: repetitions are greedy, of two alternatives the first one
    that leads to a match wins.  All expressions ignore the case of letters. *)

From S2P Require Import Prelude Serialization GraphDataOps FuzzyTurtle SparqlText.
From Stdlib Require Import Strings.Ascii.
From Stdlib Require Strings.String.
#[local] Open Scope list_scope.

Inductive rx :=
  | Set_ (p : ascii → bool)
  | Eps
  | Cat (a b : rx)
  | Alt (a b : rx)
  | Star (a : rx)
  | Group (n : nat) (a : rx)
  | Bol
  | Eol
  | WordB.

(** A place in the text: the character before it and the text behind it. *)
Definition place : Type := option ascii * text.
#[global] Abbreviation caps := (gmap nat text).

Definition isword (c : ascii) : bool := isalnum c || eqc c "_".
Definition word_before (st : place) : bool := match fst st with Some c => isword c | None => false end.
Definition word_behind (st : place) : bool := match snd st with c :: _ => isword c | [] => false end.

(** Repetition: [m] as often as it goes on, then [k]. *)
Fixpoint star_loop (m : place → caps → (place → caps → option caps) → option caps) (n : nat) (st : place) (c : caps) (k : place → caps → option caps) : option caps :=
  match n with
  | O => k st c
  | S n =>
      match m st c (λ st' c', if (length (snd st') <? length (snd st))%nat then star_loop m n st' c' k else None) with
      | Some r => Some r
      | None => k st c
      end
  end.
Fixpoint rmatch (r : rx) (st : place) (c : caps) (k : place → caps → option caps) : option caps :=
  match r with
  | Set_ p => match snd st with x :: s => if p x then k (Some x, s) c else None | [] => None end
  | Eps => k st c
  | Cat a b => rmatch a st c (λ st c, rmatch b st c k)
  | Alt a b => match rmatch a st c k with Some r => Some r | None => rmatch b st c k end
  | Star a => star_loop (rmatch a) (length (snd st)) st c k
  | Group n a => rmatch a st c (λ st' c', k st' (<[n := take (length (snd st) - length (snd st')) (snd st)]> c'))
  | Bol => match fst st with None => k st c | Some _ => None end
  | Eol => match snd st with [] => k st c | _ => None end
  | WordB => if xorb (word_before st) (word_behind st) then k st c else None
  end.

Definition regex_match (r : rx) (s : text) : option caps := rmatch r (None, s) ∅ (λ st c, match snd st with [] => Some c | _ => None end).
(** The first match from the left. *)
Fixpoint search_from (r : rx) (prev : option ascii) (s : text) : option caps :=
  match rmatch r (prev, s) ∅ (λ _ c, Some c) with
  | Some c => Some c
  | None => match s with [] => None | x :: s => search_from r (Some x) s end
  end.
Definition regex_search (r : rx) (s : text) : option caps := search_from r None s.

(** All matches, each from the end of the one before, as
    [std::sregex_iterator] gives them; the expressions match no empty text. *)
Fixpoint find_match (r : rx) (prev : option ascii) (s : text) : option (caps * place) :=
  match rmatch r (prev, s) ∅ (λ st c, Some (<[0%nat := snd st]> c)) with
  | Some c => let rest := default [] (c !! 0%nat) in Some (c, (last (take (length s - length rest) s), rest))
  | None => match s with [] => None | x :: s => find_match r (Some x) s end
  end.
Fixpoint find_all (fuel : nat) (r : rx) (st : place) : list caps :=
  match fuel with
  | O => []
  | S fuel => match find_match r (fst st) (snd st) with None => [] | Some (c, st) => c :: find_all fuel r st end
  end.

Definition tolower (c : ascii) : ascii :=
  let n := nat_of_ascii c in if (65 <=? n)%nat && (n <=? 90)%nat then chr (n + 32) else c.
Definition lower (s : text) : text := tolower <$> s.

Definition same_letter (a c : ascii) : bool := eqc (tolower a) (tolower c).
Definition Chr (c : ascii) : rx := Set_ (λ x, same_letter x c).
Definition Lit (s : text) : rx := foldr (λ c r, Cat (Chr c) r) Eps s.
Definition L (s : string) : rx := Lit (String.list_ascii_of_string s).
Definition Plus (a : rx) : rx := Cat a (Star a).
Definition Opt (a : rx) : rx := Alt a Eps.
Definition Blanks : rx := Set_ isspace.
Definition Digit : rx := Set_ isdigit.
Definition NotGt : rx := Set_ (λ c, negb (eqc c ">")).
Declare Scope rx_scope.
Delimit Scope rx_scope with rx.
Notation "a ⋅ b" := (Cat a b) (at level 60, right associativity) : rx_scope.

(** ** Inversion and completeness, one construct at a time *)

Section lemmas.
Implicit Types (k : place → caps → option caps).

Lemma lit_inv t prev s c k r : rmatch (Lit t) (prev, s) c k = Some r → ∃ a b prev', s = a ++ b ∧ lower a = lower t ∧ k (prev', b) c = Some r.
Proof.
  revert prev s. induction t as [|x t IH]; intros prev s H; [by exists [], s, prev|]. simpl in H. destruct s as [|y s]; [done|]. destruct (same_letter y x) eqn:E; [|done].
  apply IH in H as (a & b & prev' & -> & El & Hk). exists (y :: a), b, prev'. split_and!; [done| |done]. unfold same_letter in E. apply Ascii.eqb_eq in E. simpl. by rewrite E, El.
Qed.
Lemma lit_ok t prev a b c k : lower a = lower t → (∀ prev', is_Some (k (prev', b) c)) → is_Some (rmatch (Lit t) (prev, a ++ b) c k).
Proof.
  revert prev a. induction t as [|x t IH]; intros prev a E Hk; [destruct a; [apply Hk|done]|]. destruct a as [|y a]; [done|]. injection E as Ey E. simpl. unfold same_letter. rewrite Ey, (proj2 (Ascii.eqb_eq _ _) eq_refl : eqc _ _ = true). by apply IH.
Qed.

Lemma star_inv p prev s c k r : rmatch (Star (Set_ p)) (prev, s) c k = Some r → ∃ a b prev', s = a ++ b ∧ Forall (λ x, p x = true) a ∧ k (prev', b) c = Some r.
Proof.
  simpl. generalize (length s) as n. intros n. revert prev s. induction n as [|n IH]; intros prev s H; [by exists [], s, prev|]. destruct s as [|x s]; [by exists [], [], prev|]. simpl in H.
  destruct (p x) eqn:Ep; [|by exists [], (x :: s), prev]. rewrite (proj2 (Nat.ltb_lt _ _)) in H by lia.
  destruct (star_loop _ n (Some x, s) c k) as [r'|] eqn:E; [|by exists [], (x :: s), prev]. injection H as <-. apply IH in E as (a & b & prev' & -> & Ha & Hk). exists (x :: a), b, prev'. split_and!; [done|by constructor|done].
Qed.
Lemma star_ok p prev a b c k : Forall (λ x, p x = true) a → (∀ prev', is_Some (k (prev', b) c)) → is_Some (rmatch (Star (Set_ p)) (prev, a ++ b) c k).
Proof.
  intros Ha Hk. simpl. assert (length a ≤ length (a ++ b))%nat as Hn by (rewrite length_app; lia). revert Hn. generalize (length (a ++ b)) as n. intros n. revert prev n.
  induction Ha as [|x a Hx _ IH]; intros prev n Hn.
  - destruct n as [|n]; [apply Hk|]. simpl. case_match; [done|apply Hk].
  - simpl in Hn. destruct n as [|n]; [lia|]. simpl. rewrite Hx, (proj2 (Nat.ltb_lt _ _)) by lia. destruct (IH (Some x) n ltac:(lia)) as [r Hr]. simpl in Hr. by rewrite Hr.
Qed.

Lemma plus_inv p prev s c k r : rmatch (Plus (Set_ p)) (prev, s) c k = Some r → ∃ a b prev', s = a ++ b ∧ a ≠ [] ∧ Forall (λ x, p x = true) a ∧ k (prev', b) c = Some r.
Proof.
  unfold Plus. cbn [rmatch]. cbn [snd]. destruct s as [|x s]; [done|]. destruct (p x) eqn:Ep; [|done]. intros H. apply (star_inv p (Some x) s c k r) in H as (a & b & prev' & -> & Ha & Hk).
  exists (x :: a), b, prev'. split_and!; [done|done|by constructor|done].
Qed.
Lemma plus_ok p prev a b c k : a ≠ [] → Forall (λ x, p x = true) a → (∀ prev', is_Some (k (prev', b) c)) → is_Some (rmatch (Plus (Set_ p)) (prev, a ++ b) c k).
Proof.
  intros Hne Ha Hk. destruct a as [|x a]; [done|]. apply Forall_cons in Ha as [Hx Ha]. unfold Plus. cbn [rmatch]. cbn [snd app]. rewrite Hx. by apply (star_ok p (Some x)).
Qed.

(** The text a group matched. *)
Lemma group_text (a b : text) : take (length (a ++ b) - length b) (a ++ b) = a.
Proof. rewrite length_app. replace (length a + length b - length b)%nat with (length a) by lia. apply take_app_length. Qed.
End lemmas.
