(* ===== verification/Catalog.v ===== *)
(** * The catalogue of graphs

    Model of src/catalog/Catalog.cpp, include/lingodb/catalog/Catalog.h and of the
    entries of src/gengodb/catalog (graphs and the index of their nodes).  The
    relational entries of the catalogue are left out.  The map of entries is the
    list of its entries in the order of iteration. *)

From S2P Require Import Prelude Bytes Serialization Graph PropertyGraph GraphFile Identifiers RdfGraph RdfTypes.
From Stdlib Require Import Strings.Ascii.
#[local] Open Scope Z_scope.
#[local] Open Scope list_scope.

(** ** Entries *)

Inductive CatalogEntryType := INVALID_ENTRY | LINGODB_TABLE_ENTRY | LINGODB_HASH_INDEX_ENTRY | C_FUNCTION_ENTRY | GENGODB_GRAPH_ENTRY | GENGODB_NODE_INDEX_ENTRY.
Definition entry_code (t : CatalogEntryType) : Z :=
  match t with INVALID_ENTRY => 0 | LINGODB_TABLE_ENTRY => 1 | LINGODB_HASH_INDEX_ENTRY => 2 | C_FUNCTION_ENTRY => 3 | GENGODB_GRAPH_ENTRY => 4 | GENGODB_NODE_INDEX_ENTRY => 5 end.
Definition entry_decode (z : Z) : option CatalogEntryType :=
  [INVALID_ENTRY; LINGODB_TABLE_ENTRY; LINGODB_HASH_INDEX_ENTRY; C_FUNCTION_ENTRY; GENGODB_GRAPH_ENTRY; GENGODB_NODE_INDEX_ENTRY] !! Z.to_nat z.

Definition format_code (f : RDFFileFormat) : Z :=
  match f with FDEFAULT => 0 | FBINARY => 1 | FTURTLE => 2 | FNTRIPLES => 3 | FNQUADS => 4 | FRDFXML => 5 | FFUZZY_TURTLE => 6 end.
Definition format_decode (z : Z) : option RDFFileFormat :=
  if z <? 0 then None else [FDEFAULT; FBINARY; FTURTLE; FNTRIPLES; FNQUADS; FRDFXML; FFUZZY_TURTLE] !! Z.to_nat z.

#[global] Instance RDFFileFormat_eq_dec : EqDecision RDFFileFormat.
Proof. solve_decision. Defined.

Inductive CatalogEntry :=
  | RdfEntry (name : string) (impl : RdfGraph) (format : RDFFileFormat)
  | NodeIndexEntry (impl : GraphNodeIndex).
Definition ENTRY_NAME : string := "__gengodb_node_index__".
Definition getName (e : CatalogEntry) : string := match e with RdfEntry name _ _ => name | NodeIndexEntry _ => ENTRY_NAME end.
Definition getEntryType (e : CatalogEntry) : CatalogEntryType := match e with RdfEntry _ _ _ => GENGODB_GRAPH_ENTRY | NodeIndexEntry _ => GENGODB_NODE_INDEX_ENTRY end.

Section entries.
Context (zero_type : RDFNodeType) (Turtle : Z) (code : RDFNodeType → Z) (decode : Z → option RDFNodeType).
Context (RDFFileParser : Fs → string → Z → list (option (Node * Node * Node))) (IStreamQuadIterator : list ascii → Z → list (option (Node * Node * Node))) (ord : Order).
(** The readers of the relational entries. *)
Context (relational_deserialize : CatalogEntryType → reader CatalogEntry).

(** [setLoadedFromRdfFile], [setRdfParseFlags] and [setFuzzy] as
    [ensureFullyLoaded] calls them. *)
Definition set_format (g : RdfGraph) (format : RDFFileFormat) : RdfGraph :=
  if bool_decide (format = FBINARY) then
    mkRdf (rg_iri g) (rg_storage g) (rg_nodes g) (literalNodes g) (rg_persist g) (rg_fileName g) (sourceFileName g) (rg_dbDir g) false (rdfParseFlags g) (fuzzy g) (rg_loaded g)
  else
    mkRdf (rg_iri g) (rg_storage g) (rg_nodes g) (literalNodes g) (rg_persist g) (rg_fileName g) (sourceFileName g) (rg_dbDir g) true
      (getRDFParseFlags Turtle format) (bool_decide (format = FFUZZY_TURTLE)) (rg_loaded g).
Definition ensureFullyLoaded (fs : Fs) (e : CatalogEntry) : res CatalogEntry :=
  match e with
  | RdfEntry name impl format =>
      let* impl := rdf_ensureLoaded zero_type Turtle RDFFileParser IStreamQuadIterator ord fs (set_format impl format) in Ok (RdfEntry name impl format)
  | NodeIndexEntry _ => Ok e
  end.
Definition entry_setDBDir (dir : string) (e : CatalogEntry) : CatalogEntry :=
  match e with RdfEntry name impl format => RdfEntry name (rdf_setDBDir impl dir) format | NodeIndexEntry _ => e end.
Definition entry_setShouldPersist (fs : Fs) (persist : bool) (e : CatalogEntry) : res (Fs * CatalogEntry) :=
  match e with
  | RdfEntry name impl format => let* '(fs, impl) := rdf_setPersist fs impl persist in Ok (fs, RdfEntry name impl format)
  | NodeIndexEntry _ => Ok (fs, e)
  end.
Definition entry_flush (fs : Fs) (e : CatalogEntry) : res Fs :=
  match e with RdfEntry _ impl _ => rdf_flush fs impl | NodeIndexEntry _ => Ok fs end.

Definition entry_serialize (e : CatalogEntry) : bytes :=
  writeProperty 1 (wr_enum8 entry_code) (getEntryType e) ++
  match e with
  | RdfEntry name impl format =>
      writeProperty 2 wr_string name ++ writeProperty 3 (wr_option (wr_object (rdf_serialize code))) (Some impl) ++ writeProperty 4 wr_int (format_code format)
  | NodeIndexEntry impl =>
      writeProperty 2 (wr_option (wr_object index_serialize)) (Some (prod_map id Some <$> map_to_list impl))
  end.
(** A cast of an integer that is no format, or a null pointer, is undefined. *)
Definition entry_deserialize : reader CatalogEntry := λ bs,
  let* '(entryType, bs) := readProperty 1 rd_uint8 bs in
  match entry_decode entryType with
  | None => Fault (Thrown "deserialize: unknown catalog entry type")
  | Some INVALID_ENTRY => Fault BadAccess
  | Some GENGODB_GRAPH_ENTRY =>
      let* '(name, bs) := readProperty 2 rd_string bs in
      let* '(impl, bs) := readProperty 3 (rd_option (rd_object (rdf_deserialize Turtle decode))) bs in
      let* '(format, bs) := readProperty 4 rd_int bs in
      match impl, format_decode format with
      | Some impl, Some format => Ok (RdfEntry name impl format, bs)
      | _, _ => Fault BadAccess
      end
  | Some GENGODB_NODE_INDEX_ENTRY =>
      let* '(impl, bs) := readProperty 2 (rd_option (rd_object index_deserialize)) bs in
      match impl with
      | Some impl => Ok (NodeIndexEntry (list_to_map (omap (λ '(n, m), pair n <$> m) impl)), bs)
      | None => Fault BadAccess
      end
  | Some entryType => relational_deserialize entryType bs
  end.

(** ** The catalogue *)

Definition binaryVersion : Z := 3.
Record Catalog := mkCatalog { shouldPersist : bool; cat_dbDir : string; entries : list (string * CatalogEntry) }.
Definition createEmpty : Catalog := mkCatalog false "" [].

Fixpoint lookup_entry (l : list (string * CatalogEntry)) (name : string) : option CatalogEntry :=
  match l with
  | [] => None
  | (n, e) :: l => if bool_decide (n = name) then Some e else lookup_entry l name
  end.
Definition getEntry (c : Catalog) (name : string) : option CatalogEntry := lookup_entry (entries c) name.
(** [getTypedEntry<RDFGraphCatalogEntry>]. *)
Definition getRdfEntry (c : Catalog) (name : string) : option (RdfGraph * RDFFileFormat) :=
  match getEntry c name with Some (RdfEntry _ impl format) => Some (impl, format) | _ => None end.
Definition set_entry (c : Catalog) (name : string) (e : CatalogEntry) : Catalog :=
  mkCatalog (shouldPersist c) (cat_dbDir c) ((λ '(n, x), (n, if bool_decide (n = name) then e else x)) <$> entries c).

Definition insertEntry (fs : Fs) (c : Catalog) (e : CatalogEntry) (replace : bool) : res (Fs * Catalog) :=
  let name := getName e in
  let* c :=
    match getEntry c name with
    | None => Ok c
    | Some _ =>
        if replace then Ok (mkCatalog (shouldPersist c) (cat_dbDir c) (filter (λ x, x.1 ≠ name) (entries c)))
        else Fault (Thrown "catalog entry already exists")
    end in
  let* '(fs, e) := entry_setShouldPersist fs (shouldPersist c) (entry_setDBDir (cat_dbDir c) e) in
  Ok (fs, mkCatalog (shouldPersist c) (cat_dbDir c) (entries c ++ [(name, e)])).

Fixpoint persist_entries (fs : Fs) (b : bool) (l : list (string * CatalogEntry)) : res (Fs * list (string * CatalogEntry)) :=
  match l with
  | [] => Ok (fs, [])
  | (n, e) :: l =>
      let* '(fs, e) := entry_setShouldPersist fs b e in
      let* '(fs, l) := persist_entries fs b l in
      Ok (fs, (n, e) :: l)
  end.
Definition setShouldPersist (fs : Fs) (c : Catalog) (b : bool) : res (Fs * Catalog) :=
  let* '(fs, l) := persist_entries fs b (entries c) in Ok (fs, mkCatalog b (cat_dbDir c) l).

Definition catalog_serialize (l : list (string * CatalogEntry)) : bytes :=
  writeProperty 0 wr_size binaryVersion ++ writeProperty 1 (wr_map wr_string (wr_option (wr_object entry_serialize))) (prod_map id Some <$> l).
Definition catalog_deserialize : reader (list (string * CatalogEntry)) := λ bs,
  let* '(version, bs) := readProperty 0 rd_size bs in
  if negb (version =? binaryVersion) then Fault (Thrown "Catalog: version mismatch")
  else
    let* '(l, bs) := readProperty 1 (rd_map rd_string (rd_option (rd_object entry_deserialize))) bs in
    Ok (omap (λ '(n, e), pair n <$> e) l, bs).

Fixpoint flush_entries (fs : Fs) (l : list (string * CatalogEntry)) : res Fs :=
  match l with
  | [] => Ok fs
  | (_, e) :: l => let* fs := entry_flush fs e in flush_entries fs l
  end.
Definition catalogPath (dbDir : string) : string := dbDir +:+ "/db.lingodb".
Definition fs_write (fs : Fs) (path : string) (bs : bytes) : Fs := mkFs (<[path := (bs, fs_now fs)]> (fs_files fs)) (fs_denied fs) (fs_now fs).
(** [persist], also called by the destructor.  The database directory exists: it
    is made by [create]. *)
Definition persist (fs : Fs) (c : Catalog) : res Fs :=
  if shouldPersist c then
    let* fs := flush_entries fs (entries c) in
    Ok (fs_write fs (catalogPath (cat_dbDir c)) (writeProperty 0 (wr_object catalog_serialize) (entries c)))
  else Ok fs.

Fixpoint load_entries (fs : Fs) (l : list (string * CatalogEntry)) : res (list (string * CatalogEntry)) :=
  match l with
  | [] => Ok []
  | (n, e) :: l => let* e := ensureFullyLoaded fs e in let* l := load_entries fs l in Ok ((n, e) :: l)
  end.
Definition create (fs : Fs) (dbDir : string) (eagerLoading : bool) : res Catalog :=
  match fs_files fs !! catalogPath dbDir with
  | None => Ok (mkCatalog false dbDir [])
  | Some (bs, _) =>
      let* '(l, _) := readProperty 0 (rd_object catalog_deserialize) bs in
      let l := prod_map id (entry_setDBDir dbDir) <$> l in
      let* l := if eagerLoading then load_entries fs l else Ok l in
      Ok (mkCatalog false dbDir l)
  end.
End entries.
