(* ===== verification/CatalogProps.v ===== *)
(** * The catalogue of graphs: a database survives a restart

    Persisting the catalogue and opening the database again gives the same
    entries: every graph has its triples, its dictionary and its cache of
    literals. *)

From S2P Require Import Prelude Bytes Serialization Graph GraphSpec GraphRefine PropData PropDataProofs PropertyGraph GraphFile GraphFileProofs.
From S2P Require Import Identifiers IdentifiersProps IndexProps RdfTypes RdfGraph RdfGraphInv RdfGraphProps Catalog.
From Stdlib Require Import Strings.Ascii.
From Stdlib Require Strings.String.
#[local] Open Scope Z_scope.
#[local] Open Scope list_scope.

(** ** What is stored of an entry *)

Section reopen.
Context (z : RDFNodeType) (Turtle : Z) (code : RDFNodeType → Z) (decode : Z → option RDFNodeType).
Context (RDFFileParser : Fs → string → Z → list (option (Node * Node * Node))) (IStreamQuadIterator : list ascii → Z → list (option (Node * Node * Node))) (ord : Order).
Context (relational_deserialize : CatalogEntryType → reader CatalogEntry).
Hypothesis decode_code : ∀ t, decode (code t) = Some t.
Hypothesis code_u8 : ∀ t, in_u 8 (code t).

(** The graph that is read from the catalogue, before its file is. *)
Definition stored_graph (g : RdfGraph) : RdfGraph :=
  let pg := pgraph g in
  set_dict (newRdfGraph Turtle (rg_iri g) (gdb_create (fileName_ (rg_storage g)) (pg_nodeCap_ pg) (pg_relCap_ pg) (propCap_ pg)) (rg_fileName g) (sourceFileName g)) (rg_nodes g).
Definition stored_entry (e : CatalogEntry) : CatalogEntry :=
  match e with RdfEntry name g format => RdfEntry name (stored_graph g) format | NodeIndexEntry _ => e end.

Definition short (s : string) : Prop := fits_size (String.length s).

Record stored_ok (g : RdfGraph) : Prop := {
  so_names : short (rg_iri g) ∧ short (fileName_ (rg_storage g)) ∧ short (rg_fileName g) ∧ short (sourceFileName g);
  so_source : sourceFileName g ≠ ""%string;
  so_caps : in_s 32 (pg_nodeCap_ (pgraph g)) ∧ in_s 32 (pg_relCap_ (pgraph g)) ∧ in_s 32 (propCap_ (pgraph g));
  so_dict : dict_wf (rg_nodes g) ∧ dict_size (rg_nodes g) ≤ 2 ^ 31 ∧ Forall fits_node (id_to_node (rg_nodes g));
}.

Lemma gdb_reads_back g rest : short (fileName_ g) → in_s 32 (pg_nodeCap_ (storage_ g)) → in_s 32 (pg_relCap_ (storage_ g)) → in_s 32 (propCap_ (storage_ g)) →
  gdb_deserialize (gdb_serialize g ++ rest) = Ok (gdb_create (fileName_ g) (pg_nodeCap_ (storage_ g)) (pg_relCap_ (storage_ g)) (propCap_ (storage_ g)), rest).
Proof.
  intros H1 H2 H3 H4. unfold gdb_deserialize, gdb_serialize. rewrite <- !app_assoc.
  rewrite (codec_property (okA := short) 1 ltac:(unfold in_u; lia)) by done. cbn [res_bind].
  rewrite (codec_property (okA := in_s 32) 2 ltac:(unfold in_u; lia)) by done. cbn [res_bind].
  rewrite (codec_property (okA := in_s 32) 3 ltac:(unfold in_u; lia)) by done. cbn [res_bind].
  by rewrite (codec_property (okA := in_s 32) 4 ltac:(unfold in_u; lia)) by done.
Qed.

(** A reader that gives [f x] for what is written of [x]. *)
Definition reads_as {A} (wr : writer A) (rd : reader A) (x y : A) : Prop := ∀ rest, rd (wr x ++ rest) = Ok (y, rest).

Lemma property_reads_as {A} (wr : writer A) (rd : reader A) id x y : in_u 16 id → reads_as wr rd x y → reads_as (writeProperty id wr) (readProperty id rd) x y.
Proof.
  intros Hid H rest. unfold writeProperty, readProperty. rewrite <- !app_assoc. rewrite expect_marker by done. cbn [res_bind]. rewrite H. cbn [res_bind]. by rewrite expect_marker.
Qed.
Lemma object_reads_as {A} (wr : writer A) (rd : reader A) x y : reads_as wr rd x y → reads_as (wr_object wr) (rd_object rd) x y.
Proof.
  intros H rest. unfold wr_object, rd_object. rewrite <- !app_assoc. rewrite expect_marker by (unfold in_u, objectStart; lia). cbn [res_bind]. rewrite H. cbn [res_bind].
  by rewrite expect_marker by (unfold in_u, objectEnd; lia).
Qed.
Lemma option_reads_as {A} (wr : writer A) (rd : reader A) x y : reads_as wr rd x y → reads_as (wr_option wr) (rd_option rd) (Some x) (Some y).
Proof.
  intros H rest. unfold wr_option, rd_option. rewrite <- app_assoc, codec_uint16 by (unfold in_u, present; lia). cbn [res_bind]. simpl. by rewrite H.
Qed.
Lemma pointer_reads_as {A} id (wr : writer A) (rd : reader A) x y rest : in_u 16 id → reads_as wr rd x y →
  readProperty id (rd_option (rd_object rd)) (writeProperty id (wr_option (wr_object wr)) (Some x) ++ rest) = Ok (Some y, rest).
Proof. intros Hid H. by apply (property_reads_as _ _ id (Some x) (Some y)), option_reads_as, object_reads_as. Qed.

Lemma rdf_reads_back g : stored_ok g → reads_as (rdf_serialize code) (rdf_deserialize Turtle decode) g (stored_graph g).
Proof.
  intros [(H1 & H2 & H3 & H4) _ (C1 & C2 & C3) (D1 & D2 & D3)] rest. unfold rdf_serialize, rdf_deserialize. rewrite <- !app_assoc.
  rewrite (codec_property (okA := short) 1 ltac:(unfold in_u; lia)) by done. cbn [res_bind].
  rewrite (pointer_reads_as 2 _ _ _ (gdb_create (fileName_ (rg_storage g)) (pg_nodeCap_ (pgraph g)) (pg_relCap_ (pgraph g)) (propCap_ (pgraph g)))); [|unfold in_u; lia|intros r; by apply gdb_reads_back]. cbn [res_bind].
  rewrite (codec_property (okA := short) 3 ltac:(unfold in_u; lia)) by done. cbn [res_bind].
  rewrite (pointer_reads_as 4 _ _ _ (rg_nodes g)); [|unfold in_u; lia|intros r; by apply dict_reads_back]. cbn [res_bind].
  rewrite (codec_property (okA := short) 5 ltac:(unfold in_u; lia)) by done. cbn [res_bind]. done.
Qed.

Definition index_ok (index : GraphNodeIndex) : Prop :=
  fits_size (length (map_to_list index)) ∧ map_Forall (λ n m, short n ∧ ∃ gids, m = mapping_of gids ∧ Z.of_nat (length gids) ≤ 2 ^ 31 ∧ Forall (in_s 64) gids) index.
Definition entry_ok (e : CatalogEntry) : Prop :=
  match e with RdfEntry name g _ => short name ∧ stored_ok g | NodeIndexEntry index => index_ok index end.

Lemma format_decode_code f : in_s 32 (format_code f) ∧ format_decode (format_code f) = Some f.
Proof. destruct f; split; done || (unfold in_s; simpl; lia). Qed.

Lemma index_pairs (index : GraphNodeIndex) : list_to_map (omap (λ '(n, m), pair n <$> m) (prod_map id Some <$> map_to_list index)) = index.
Proof.
  assert (∀ l : list (string * NodeIdMapping), omap (λ '(n, m), pair n <$> m) (prod_map id Some <$> l) = l) as ->; [|apply list_to_map_to_list].
  induction l as [|[n m] l IH]; [done|]. csimpl. by rewrite IH.
Qed.

Lemma entry_reads_back e : entry_ok e → reads_as (entry_serialize code) (entry_deserialize Turtle decode relational_deserialize) e (stored_entry e).
Proof.
  intros Hok rest. unfold entry_serialize, entry_deserialize. rewrite <- !app_assoc.
  assert (∀ t, in_u 8 (entry_code t) ∧ entry_decode (entry_code t) = Some t) as Hcode by (intros []; split; done || (unfold in_u; simpl; lia)).
  change (writeProperty 1 (wr_enum8 entry_code) (getEntryType e)) with (writeProperty 1 wr_uint8 (entry_code (getEntryType e))).
  rewrite (codec_property (okA := in_u 8) 1 ltac:(unfold in_u; lia)) by apply Hcode. cbn [res_bind]. rewrite (proj2 (Hcode _)). destruct e as [name g f|index]; cbn [getEntryType stored_entry].
  - destruct Hok as [Hn Hg]. rewrite <- !app_assoc. rewrite (codec_property (okA := short) 2 ltac:(unfold in_u; lia)) by done. cbn [res_bind].
    rewrite (pointer_reads_as 3 _ _ _ (stored_graph g)); [|unfold in_u; lia|by apply rdf_reads_back]. cbn [res_bind]. destruct (format_decode_code f) as [Hf1 Hf2].
    rewrite (codec_property (okA := in_s 32) 4 ltac:(unfold in_u; lia)) by done. cbn [res_bind]. by rewrite Hf2.
  - destruct Hok as [Hs Hm]. rewrite (pointer_reads_as 2 _ _ _ (prod_map id Some <$> map_to_list index)); [cbn [res_bind]; by rewrite index_pairs|unfold in_u; lia|].
    intros r. apply index_roundtrip.
    + rewrite <- list_fmap_compose. apply NoDup_fst_map_to_list.
    + rewrite length_fmap. exact Hs.
    + apply Forall_fmap, Forall_forall. intros [n m] Hin%elem_of_map_to_list. simpl. destruct (Hm n m Hin) as [Hn Hg]. split; [done|]. intros m' [= <-]. done.
Qed.

(** ** Loading the file of a graph *)

Lemma restored_wf t : bt_wf t → bt_cap t < 2 ^ 63 → bt_wf (restored t) ∧ bt_cap (restored t) < 2 ^ 63.
Proof.
  intros Hw Hc. destruct (bt_wf_used _ Hw) as [_ Hu0]. pose proof (btw_used _ Hw) as Hu. pose proof (btw_data _ Hw) as Hd. unfold restored. cbn [bt_cap]. split; [|lia].
  split; cbn [bt_blobs bt_data bt_cap]; [apply Hw|apply Hw| | |lia].
  - rewrite length_app, length_take, length_drop, length_replicate. lia.
  - unfold usedBytes. cbn [bt_blobs]. fold (usedBytes t). lia.
Qed.

(** [g'] is [g] read from its file: the same records, dictionary and values. *)
Record reloaded (g g' : RdfGraph) : Prop := {
  rl_records : same_records (pgraph g) (pgraph g');
  rl_dict : rg_nodes g' = rg_nodes g;
  rl_lists : lst_i64_ (propData_ (pgraph g')) = lst_i64_ (propData_ (pgraph g)) ∧ lst_ui64_ (propData_ (pgraph g')) = lst_ui64_ (propData_ (pgraph g)) ∧
    lst_double_ (propData_ (pgraph g')) = lst_double_ (propData_ (pgraph g));
  rl_blobs : ∀ t idx, read_blob (propData_ (pgraph g')) t idx = read_blob (propData_ (pgraph g)) t idx;
  rl_wf : pd_wf (propData_ (pgraph g'));
  rl_caps : nodeCap_ (graph_ (pgraph g')) = pg_nodeCap_ (pgraph g) ∧ relCap_ (graph_ (pgraph g')) = pg_relCap_ (pgraph g) ∧ propCap_ (pgraph g') = propCap_ (pgraph g);
}.

Lemma reloaded_key g g' id : reloaded g g' → literalKeyFor z g' id = literalKeyFor z g id.
Proof.
  intros [[Hn _ Hp Hns _ Hps _ _] Hd (H1 & H2 & H3) Hb _ _]. unfold literalKeyFor, Graph.node. rewrite Hn.
  destruct ((0 <=? id) && (id <? nodeMark_ (graph_ (pgraph g)))) eqn:E; [|done]. apply andb_true_iff in E as [_ E%Z.ltb_lt]. cbn [assert_ res_bind].
  assert (load (nodes_ (graph_ (pgraph g'))) id = load (nodes_ (graph_ (pgraph g))) id) as -> by (unfold load; by rewrite Hns). destruct (load (nodes_ (graph_ (pgraph g))) id) as [n|]; [|done]. cbn [res_bind]. destruct (0 <=? n_payload n) eqn:E0; [|done]. cbn [assert_ res_bind]. unfold pg_prop. rewrite Hp, E0. cbn [andb].
  destruct (Z.ltb_spec (n_payload n) (propMark_ (pgraph g))); [|done]. cbn [assert_ res_bind].
  assert (load (props_ (pgraph g')) (n_payload n) = load (props_ (pgraph g)) (n_payload n)) as -> by (unfold load; by rewrite Hps). destruct (load (props_ (pgraph g)) (n_payload n)) as [p|]; [|done]. cbn [res_bind].
  unfold getIri, getNodeId. rewrite Hd. unfold get_i64_at, get_ui64_at, get_double_at. by rewrite H1, H2, H3, Hb.
Qed.
Lemma reloaded_has_key g g' id k : reloaded g g' → has_key z g' id k ↔ has_key z g id k.
Proof. intros H. unfold has_key. by rewrite (reloaded_key g g'), (rl_dict _ _ H). Qed.

Lemma reloaded_inv g g' s : RdfInv z g s → reloaded g g' → freeRels_ (graph_ (pgraph g)) = [] → literalNodes g' = literalNodes g →
  nodeMark_ (graph_ (pgraph g)) ≤ pg_nodeCap_ (pgraph g) < 2 ^ 31 → relMark_ (graph_ (pgraph g)) ≤ pg_relCap_ (pgraph g) → RdfInv z g' s.
Proof.
  intros HI HR Hfr Hlit Hnc Hrc. pose proof HR as [Hrec Hd (H1 & H2 & H3) Hb Hw (C1 & C2 & C3)]. pose proof Hrec as [Hnm Hrm Hpm Hns _ _ (Hf1 & Hf2 & Hf3) (L1 & L2 & L3)].
  destruct HI. split; rewrite ?Hd, ?Hlit, ?Hnm, ?Hpm, ?C1, ?C3, ?H1, ?H2, ?H3; try done; try lia.
  - apply (same_records_rep (pgraph g)); try done; [rewrite C1; lia|rewrite C2; lia].
  - intros i e Hi He. rewrite Hns in He by lia. by apply ri_payload.
  - intros k id. by rewrite ri_cache, (reloaded_has_key g g').
  - intros id Hid. destruct (ri_keys id Hid) as (data & dt & iri & Hk & Hdt). exists data, dt, iri. by rewrite (reloaded_has_key g g').
Qed.

(** ** The cache of literals *)

Definition cache_upto (g : RdfGraph) (n : Z) (m : gmap (bytes * Z) Z) : Prop :=
  ∀ k i, m !! k = Some i ↔ i < n ∧ zget (id_to_node (rg_nodes g)) i = Some literal_node ∧ has_key z g i k.

Lemma literal_type g s n : RdfInv z g s → n ∈ id_to_node (rg_nodes g) → ni_type n = NtLiteral → n = literal_node.
Proof.
  intros HI Hin Ht. destruct (ri_dict _ _ _ HI) as [_ Hc]. rewrite Forall_forall in Hc. specialize (Hc n Hin). destruct n as [t i l]. simpl in *. subst t. unfold canonical in Hc. simpl in Hc. naive_solver.
Qed.

Lemma rebuild_from_ok g g' s nodes m : RdfInv z g s → reloaded g g' → (∃ pre, id_to_node (rg_nodes g) = pre ++ nodes ∧ cache_upto g (Z.of_nat (length pre)) m) →
  rebuild_from z (set_literals g' m) (dict_size (rg_nodes g) - Z.of_nat (length nodes)) nodes = Ok (set_literals g' (literalNodes g)).
Proof.
  intros HI HR. revert m. induction nodes as [|n nodes IH]; intros m (pre & El & Hm).
  { simpl. f_equal. f_equal. apply map_eq. intros k. apply option_eq. intros i. rewrite (Hm k i), (ri_cache _ _ _ HI k i). rewrite app_nil_r in El. rewrite El. split; [naive_solver|]. intros [Hi Hk]. split; [|done]. apply zget_lt in Hi. lia. }
  assert (dict_size (rg_nodes g) - Z.of_nat (length (n :: nodes)) = Z.of_nat (length pre)) as -> by (unfold dict_size; rewrite El, length_app; lia).
  assert (Z.of_nat (length pre) + 1 = dict_size (rg_nodes g) - Z.of_nat (length nodes)) as Enext by (unfold dict_size; rewrite El, length_app; simpl; lia).
  assert (zget (id_to_node (rg_nodes g)) (Z.of_nat (length pre)) = Some n) as Hn by (rewrite El; unfold zget; rewrite (proj2 (Z.leb_le _ _)), Nat2Z.id by lia; by apply list_lookup_middle).
  assert (∀ m', cache_upto g (Z.of_nat (length pre) + 1) m' → rebuild_from z (set_literals g' m') (Z.of_nat (length pre) + 1) nodes = Ok (set_literals g' (literalNodes g))) as Hgo.
  { intros m' Hm'. rewrite Enext. apply IH. exists (pre ++ [n]). split; [by rewrite <- app_assoc|]. rewrite length_app, Nat2Z.inj_add. exact Hm'. }
  cbn [rebuild_from]. destruct (decide (ni_type n = NtLiteral)) as [Ht|Ht].
  - rewrite (bool_decide_true (ni_type n = NtLiteral)) by done. cbn [negb]. assert (n = literal_node) as -> by (eapply literal_type; [done| |done]; rewrite El; set_solver).
    destruct (ri_keys _ _ _ HI _ Hn) as (data & dt & iri & Hk & _). pose proof Hk as Hk'. destruct Hk' as [Ek _].
    assert (∃ e, Graph.node (graph_ (pgraph g')) (Z.of_nat (length pre)) = Ok e ∧ 0 ≤ n_payload e) as (e & He & Hp).
    { rewrite <- (reloaded_key _ _ _ HR) in Ek. unfold literalKeyFor in Ek. apply res_bind_ok in Ek as (e & He & Ek). apply res_bind_ok in Ek as (u & Hu & _). exists e. split; [done|]. unfold assert_ in Hu. destruct (Z.leb_spec 0 (n_payload e)); [done|discriminate Hu]. }
    change (pgraph (set_literals g' m)) with (pgraph g'). rewrite He. cbn [res_bind]. rewrite (proj2 (Z.ltb_ge _ _)) by lia.
    change (literalKeyFor z (set_literals g' m) _) with (literalKeyFor z g' (Z.of_nat (length pre))). rewrite (reloaded_key _ _ _ HR), Ek. cbn [res_bind]. unfold addLiteralNode. cbn [literalNodes set_literals].
    change (set_literals (set_literals g' m) (emplace_id m (data, dt) (Z.of_nat (length pre)))) with (set_literals g' (emplace_id m (data, dt) (Z.of_nat (length pre)))). apply Hgo.
    assert (∀ i, zget (id_to_node (rg_nodes g)) i = Some literal_node → has_key z g i (data, dt) → i = Z.of_nat (length pre)) as Huniq.
    { intros i Hi Hki. assert (literalNodes g !! (data, dt) = Some i) as E1 by (by apply (ri_cache _ _ _ HI)). assert (literalNodes g !! (data, dt) = Some (Z.of_nat (length pre))) as E2 by (by apply (ri_cache _ _ _ HI)). congruence. }
    intros k i. rewrite emplace_lookup. destruct (m !! k) as [j|] eqn:Ej.
    + pose proof (proj1 (Hm k j) Ej) as (Hj & Hjn & Hjk). split; [intros [= <-]; split; [lia|done]|]. intros (Hi & Hin & Hik).
      assert (literalNodes g !! k = Some j) by (by apply (ri_cache _ _ _ HI)). assert (literalNodes g !! k = Some i) by (by apply (ri_cache _ _ _ HI)). congruence.
    + destruct (decide ((data, dt) = k)) as [<-|Hne]; split.
      * intros [= <-]. split_and!; [lia|done|done].
      * intros (_ & Hin & Hik). f_equal. symmetry. by apply Huniq.
      * done.
      * intros (Hi & Hin & Hik). destruct (decide (i = Z.of_nat (length pre))) as [->|]; [destruct Hik as [Hik _]; congruence|]. rewrite <- Ej. apply Hm. split_and!; [lia|done|done].
  - rewrite (bool_decide_false (ni_type n = NtLiteral)) by done. cbn [negb]. apply Hgo. intros k i. rewrite (Hm k i). split; [intros (? & ? & ?); split_and!; [lia|done|done]|]. intros (Hi & Hin & Hik). split_and!; [|done|done].
    destruct (decide (i = Z.of_nat (length pre))) as [->|]; [|lia]. rewrite Hn in Hin. injection Hin as ->. done.
Qed.

(** ** One graph *)

(** A graph that can be kept: it has a name in the directory, its records fit
    the format of the file and its source is not newer than the clock. *)
Record keepable (fs : Fs) (dir name : string) (format : RDFFileFormat) (g : RdfGraph) (s : SpecGraph Z Z) : Prop := {
  kp_inv : RdfInv z g s;
  kp_stored : stored_ok g;
  kp_names : name ≠ ""%string ∧ dir ≠ ""%string ∧ short name ∧ fileName_ (rg_storage g) = name ∧ dbDir_ (rg_storage g) = dir;
  kp_fits : pg_fits (pgraph g);
  kp_free : freeRels_ (graph_ (pgraph g)) = [];
  kp_caps : nodeMark_ (graph_ (pgraph g)) ≤ pg_nodeCap_ (pgraph g) ∧ relMark_ (graph_ (pgraph g)) ≤ pg_relCap_ (pgraph g);
  kp_format : format ≠ FBINARY;
  kp_fresh : ∀ c t, fs_files fs !! (dir +:+ sourceFileName g +:+ flagExtension Turtle (getRDFParseFlags Turtle format)) = Some (c, t) → t ≤ fs_now fs;
  kp_open : graphPath dir name ∉ fs_denied fs;
}.

(** The graph after a restart. *)
Record reopened (g g' : RdfGraph) : Prop := {
  ro_reloaded : reloaded g g';
  ro_literals : literalNodes g' = literalNodes g;
  ro_names : rg_iri g' = rg_iri g ∧ rg_fileName g' = rg_fileName g ∧ sourceFileName g' = sourceFileName g;
}.

Definition graph_bytes (g : RdfGraph) : bytes := file_bytes (neo_of (pgraph g)) (propData_ (pgraph g)).

Lemma load_reloaded g : pg_fits (pgraph g) → pd_wf (propData_ (pgraph g)) → nodeMark_ (graph_ (pgraph g)) ≤ pg_nodeCap_ (pgraph g) → relMark_ (graph_ (pgraph g)) ≤ pg_relCap_ (pgraph g) →
  0 ≤ propMark_ (pgraph g) ≤ propCap_ (pgraph g) → propCap_ (pgraph g) < 2 ^ 31 →
  ∃ pg', load_file (pg_create (pg_nodeCap_ (pgraph g)) (pg_relCap_ (pgraph g)) (propCap_ (pgraph g))) (graph_bytes g) = Ok pg' ∧
    ∀ g', pgraph g' = pg' → rg_nodes g' = rg_nodes g → reloaded g g'.
Proof.
  intros Hf Hw Hn Hr Hp Hp'. destruct (load_flushed (pgraph g) _ _ _ Hf Hn Hr (proj2 Hp)) as (pg' & Hl & Hs & H1 & H2 & H3 & Hb & C1 & C2 & C3 & Hd). exists pg'. split; [done|].
  intros g' <- Hnodes. split; try done. rewrite Hd. split; cbn [blobCapacity_ pd_blobs].
  - unfold u64. rewrite (wrap_u_id 64 (propCap_ (pgraph g))) by (unfold in_u; lia). rewrite wrap_u_id by (unfold in_u; lia). lia.
  - intros t b. rewrite tbl_find_restored. intros (b0 & Hb0 & ->)%fmap_Some. destruct (pdw_tables _ Hw _ _ Hb0). by apply restored_wf.
Qed.

Lemma reopen_graph fs fs' dir name format g s : keepable fs dir name format g s →
  fs_files fs' !! graphPath dir name = Some (graph_bytes g, fs_now fs) → fs_denied fs' = fs_denied fs →
  (∀ path c t, fs_files fs' !! path = Some (c, t) → fs_files fs !! path = Some (c, t) ∨ t = fs_now fs) →
  ∃ g', ensureFullyLoaded z Turtle RDFFileParser IStreamQuadIterator ord fs' (entry_setDBDir dir (stored_entry (RdfEntry name g format))) = Ok (RdfEntry name g' format) ∧ reopened g g'.
Proof.
  intros [HI Hst (Hn & Hdir & _ & Ename & Edir) Hfits Hfree [Hnc Hrc] Hfmt Hfresh Hopen] Hfile Hden Hold. pose proof (ri_pmark _ _ _ HI) as [Hpm Hpc].
  destruct (load_reloaded g Hfits (ri_pd _ _ _ HI) Hnc Hrc Hpm Hpc) as (pg' & Hload & Hrel). cbn [stored_entry entry_setDBDir ensureFullyLoaded].
  set (gs := set_format Turtle (rdf_setDBDir (stored_graph g) dir) format).
  assert (sourceFileName gs = sourceFileName g) as Esrc. { unfold gs, set_format. rewrite bool_decide_false by done. cbn. by rewrite (proj2 (String.eqb_neq _ _) (so_source _ Hst)). }
  assert (rg_loaded gs = false ∧ loadedFromRdfFile gs = true ∧ rg_nodes gs = rg_nodes g ∧ literalNodes gs = ∅ ∧ rg_dbDir gs = dir ∧ rg_iri gs = rg_iri g ∧ rg_fileName gs = rg_fileName g ∧
    rdfParseFlags gs = getRDFParseFlags Turtle format ∧ rg_storage gs = setDBDir (gdb_create name (pg_nodeCap_ (pgraph g)) (pg_relCap_ (pgraph g)) (propCap_ (pgraph g))) dir) as (E1 & E2 & E3 & E4 & E5 & E6 & E7 & E8 & E9).
  { unfold gs, set_format. rewrite bool_decide_false by done. cbn. by rewrite Ename. }
  clearbody gs. unfold rdf_ensureLoaded. rewrite E1. change (rg_storage (set_loaded gs)) with (rg_storage gs). change (loadedFromRdfFile (set_loaded gs)) with (loadedFromRdfFile gs). rewrite E2, E9.
  assert (hasFreshCache fs' (setDBDir (gdb_create name (pg_nodeCap_ (pgraph g)) (pg_relCap_ (pgraph g)) (propCap_ (pgraph g))) dir) (sourcePath Turtle (set_loaded gs)) = true) as Hfr.
  { unfold hasFreshCache, unnamed. cbn [setDBDir gdb_create dbDir_ fileName_]. rewrite (proj2 (String.eqb_neq _ _) Hdir), (proj2 (String.eqb_neq _ _) Hn). cbn [orb]. rewrite Hfile. destruct (String.eqb _ ""); [done|].
    unfold sourcePath. change (rg_dbDir (set_loaded gs)) with (rg_dbDir gs). change (sourceFileName (set_loaded gs)) with (sourceFileName gs). change (rdfParseFlags (set_loaded gs)) with (rdfParseFlags gs). rewrite E5, Esrc, E8.
    match goal with |- context [fs_files fs' !! ?p] => destruct (fs_files fs' !! p) as [[c t]|] eqn:Ef end; [|done]. apply Z.leb_le. destruct (Hold _ _ _ Ef) as [Hf| ->]; [by eapply Hfresh|lia]. }
  rewrite Hfr. cbn [andb negb res_bind]. change (rg_storage (set_loaded gs)) with (rg_storage gs). rewrite E9.
  rewrite (gdb_load_exec fs' name dir _ _ _ (graph_bytes g) (fs_now fs) pg') by (done || by rewrite Hden). cbn [res_bind]. change (loadedFromRdfFile (set_storage (set_loaded gs) _)) with (loadedFromRdfFile gs). rewrite E2. cbn [andb].
  set (g1 := set_storage (set_loaded gs) (mkGDB pg' name dir true)). assert (reloaded g g1) as HR by (apply Hrel; [done|exact E3]).
  assert (set_literals g1 ∅ = g1) as E0 by (unfold g1, set_literals, set_storage, set_loaded; cbn; by rewrite E4).
  unfold rebuildLiteralNodeCache. change (rg_nodes g1) with (rg_nodes gs). rewrite E3. pose proof (rebuild_from_ok g g1 s (id_to_node (rg_nodes g)) ∅ HI HR) as Hreb.
  rewrite E0 in Hreb. unfold dict_size in Hreb. rewrite Z.sub_diag in Hreb. rewrite Hreb; [|exists []; split; [done|]; intros k i; rewrite lookup_empty; split; [done|]; intros (Hi & Hin & _); apply zget_lt in Hin; simpl in Hi; lia].
  cbn [res_bind]. eexists. split; [done|]. split; [|done|].
  - by apply Hrel.
  - cbn. by rewrite E6, E7, Esrc.
Qed.

Lemma reopened_denotes g g' id n : reopened g g' → denotes z g' id n ↔ denotes z g id n.
Proof.
  intros [HR _ _]. pose proof (λ k, reloaded_has_key g g' id k HR) as Hk. destruct n; simpl; rewrite (rl_dict _ _ HR); [done..|]. by setoid_rewrite Hk.
Qed.

(** ** The catalogue *)

Lemma stored_serialize e : entry_ok e → entry_serialize code (stored_entry e) = entry_serialize code e.
Proof.
  destruct e as [name g f|]; [|done]. intros [_ Hs]. cbn [stored_entry]. unfold entry_serialize. cbn [getEntryType]. assert (rdf_serialize code (stored_graph g) = rdf_serialize code g) as E.
  { unfold rdf_serialize, stored_graph, newRdfGraph. cbn. by rewrite (proj2 (String.eqb_neq _ _) (so_source _ Hs)). }
  unfold wr_option, wr_object, writeProperty. by rewrite E.
Qed.
Lemma stored_entry_ok e : entry_ok e → entry_ok (stored_entry e) ∧ stored_entry (stored_entry e) = stored_entry e.
Proof.
  destruct e as [name g f|]; [|done]. intros [Hn [(H1 & H2 & H3 & H4) Hs Hc Hd]]. cbn [stored_entry]. assert (sourceFileName (stored_graph g) = sourceFileName g) as E by (cbn; by rewrite (proj2 (String.eqb_neq _ _) Hs)). split.
  - split; [done|]. split; rewrite ?E; [|done..]. by split_and!.
  - f_equal. unfold stored_graph at 1. rewrite E. done.
Qed.

Lemma vector_same {A} (w : writer A) (f : A → A) l : Forall (λ x, w (f x) = w x) l → wr_vector w l = wr_vector w (f <$> l).
Proof.
  intros H. unfold wr_vector. rewrite length_fmap. f_equal. induction H as [|x l Hx _ IH]; [done|]. csimpl. by rewrite IH, Hx.
Qed.

Lemma catalog_reads_back l rest : Forall (λ ne, short ne.1 ∧ entry_ok ne.2) l → NoDup l.*1 → fits_size (length l) →
  catalog_deserialize Turtle decode relational_deserialize (catalog_serialize code l ++ rest) = Ok (prod_map id stored_entry <$> l, rest).
Proof.
  intros Hl Hnd Hlen. pose (okE := λ e, entry_ok e ∧ stored_entry e = e).
  assert (Codec okE (entry_serialize code) (entry_deserialize Turtle decode relational_deserialize)) as HE by (intros e r [He Es]; rewrite (entry_reads_back e He r); by rewrite Es).
  assert (catalog_serialize code l = catalog_serialize code (prod_map id stored_entry <$> l)) as ->.
  { unfold catalog_serialize. f_equal. unfold writeProperty, wr_map. do 2 f_equal. rewrite <- list_fmap_compose. rewrite (vector_same _ (prod_map id (fmap stored_entry))), <- list_fmap_compose; [done|].
    apply Forall_fmap. eapply Forall_impl; [exact Hl|]. intros [n e] [_ He]. unfold wr_pair. cbn [fst snd prod_map id fmap option_fmap option_map]. unfold wr_option, wr_object. f_equal. cbn [fst snd prod_map id fmap option_fmap option_map] in *. by rewrite stored_serialize. }
  unfold catalog_deserialize, catalog_serialize. rewrite <- app_assoc. rewrite (codec_property (okA := in_u 64) 0 ltac:(unfold in_u; lia)) by (unfold in_u, binaryVersion; lia). cbn [res_bind]. change (binaryVersion =? binaryVersion) with true. cbn [negb].
  pose proof (codec_object (okA := okE) (wa := entry_serialize code) (ra := entry_deserialize Turtle decode relational_deserialize)) as HO.
  pose proof (codec_option (okA := okE) (wa := wr_object (entry_serialize code)) (ra := rd_object (entry_deserialize Turtle decode relational_deserialize))) as HP.
  pose proof (codec_map (okK := short) (okV := λ v, ∀ x, v = Some x → okE x) (wk := wr_string) (rk := rd_string)
    (wv := wr_option (wr_object (entry_serialize code))) (rv := rd_option (rd_object (entry_deserialize Turtle decode relational_deserialize)))) as HC.
  rewrite (codec_property (Codec0 := HC) 1 ltac:(unfold in_u; lia)).
  - cbn [res_bind]. do 2 f_equal. clear. induction l as [|[n e] l IH]; [done|]. csimpl. by rewrite IH.
  - split_and!.
    + apply Forall_fmap, Forall_fmap. eapply Forall_impl; [exact Hl|]. intros [n e] [Hn He]. cbn. split; [done|]. intros x [= <-]. by apply stored_entry_ok.
    + by rewrite !length_fmap.
    + rewrite <- !list_fmap_compose. done.
Qed.

Definition entry_keepable (fs : Fs) (dir : string) (ne : string * CatalogEntry) : Prop :=
  getName ne.2 = ne.1 ∧ match ne.2 with RdfEntry name g format => ∃ s, keepable fs dir name format g s | NodeIndexEntry index => index_ok index end.

(** An entry after a restart: the graph represents the same multigraph, with the
    same terms under the same ids; the index is the same. *)
Definition same_entry (a b : string * CatalogEntry) : Prop :=
  b.1 = a.1 ∧
  match a.2, b.2 with
  | RdfEntry name g format, RdfEntry name' g' format' =>
      name' = name ∧ format' = format ∧ (∃ s, RdfInv z g s ∧ RdfInv z g' s) ∧
      rg_nodes g' = rg_nodes g ∧ literalNodes g' = literalNodes g ∧ ∀ id n, denotes z g' id n ↔ denotes z g id n
  | NodeIndexEntry index, NodeIndexEntry index' => index' = index
  | _, _ => False
  end.

Lemma graphPath_inj dir n m : graphPath dir n = graphPath dir m → n = m.
Proof.
  unfold graphPath. intros H%(inj (String.append dir))%(inj (String.append _)). apply (f_equal String.list_ascii_of_string) in H.
  assert (∀ a b, String.list_ascii_of_string (a +:+ b) = String.list_ascii_of_string a ++ String.list_ascii_of_string b) as Happ by (induction a as [|c a IH]; intros b; [done|]; simpl; by rewrite IH).
  rewrite !Happ in H. apply app_inj_2 in H as [H _]; [|done]. rewrite <- (String.string_of_list_ascii_of_string n), H. apply String.string_of_list_ascii_of_string.
Qed.
Lemma catalogPath_no_graph dir n : catalogPath dir ≠ graphPath dir n.
Proof. unfold catalogPath, graphPath. intros H%(inj (String.append dir)). simpl in H. discriminate H. Qed.

Lemma flush_keepable fs fs1 dir name format g s : keepable fs dir name format g s → fs_denied fs1 = fs_denied fs →
  rdf_flush fs1 g = Ok (mkFs (<[graphPath dir name := (graph_bytes g, fs_now fs1)]> (fs_files fs1)) (fs_denied fs1) (fs_now fs1)).
Proof.
  intros [_ _ (Hn & Hdir & _ & En & Ed) Hf _ _ _ _ Ho] Hden. unfold rdf_flush, gdb_flush, unnamed. rewrite En, Ed, (proj2 (String.eqb_neq _ _) Hn), (proj2 (String.eqb_neq _ _) Hdir). cbn [orb].
  rewrite bool_decide_false by (by rewrite Hden). fold (pgraph g). by rewrite serialize_ok by done.
Qed.

(** What flushing leaves in the file system. *)
Record flushed (fs : Fs) (dir : string) (l : list (string * CatalogEntry)) (fs' : Fs) : Prop := {
  fl_now : fs_now fs' = fs_now fs;
  fl_denied : fs_denied fs' = fs_denied fs;
  fl_graph : ∀ n g f, (n, RdfEntry n g f) ∈ l → fs_files fs' !! graphPath dir n = Some (graph_bytes g, fs_now fs);
  fl_old : ∀ p c t, fs_files fs' !! p = Some (c, t) → fs_files fs !! p = Some (c, t) ∨ t = fs_now fs;
}.

Lemma flush_entries_ok fs dir l fs1 : Forall (entry_keepable fs dir) l → NoDup l.*1 → fs_denied fs1 = fs_denied fs → fs_now fs1 = fs_now fs →
  ∃ fs', flush_entries fs1 l = Ok fs' ∧ flushed fs1 dir l fs' ∧ ∀ p, (∀ n, n ∈ l.*1 → p ≠ graphPath dir n) → fs_files fs' !! p = fs_files fs1 !! p.
Proof.
  intros Hl. revert fs1. induction Hl as [|[n e] l [Hname He] _ IH]; intros fs1 Hnd Hden Hnow.
  { exists fs1. split; [done|]. split; [|done]. split; try done; [by intros n g f Hin%elem_of_nil|]. intros p c t Hp. by left. }
  csimpl in Hnd. apply NoDup_cons in Hnd as [Hni Hnd]. cbn [flush_entries]. destruct e as [name g f|index]; simpl in Hname.
  - subst name. destruct He as [s Hk]. cbn [entry_flush]. rewrite (flush_keepable _ _ _ _ _ _ _ Hk Hden). cbn [res_bind]. set (fs2 := mkFs _ _ _).
    destruct (IH fs2 Hnd Hden Hnow) as (fs' & Hfl & [E1 E2 E3 E4] & E5). exists fs'. split; [done|]. split; [split; [done|done| |]|].
    + intros n' g' f' Hin. apply elem_of_cons in Hin as [Hin|Hin]; [injection Hin as -> _ -> ->|by apply (E3 n' g' f')]. rewrite E5; [apply lookup_insert_eq|]. intros n' Hn' ->%graphPath_inj. done.
    + intros p c t Hp. destruct (E4 p c t Hp) as [Hp2|Hp2]; [|by right]. cbn [fs2 fs_files] in Hp2. destruct (decide (p = graphPath dir n)) as [->|Hne]; [rewrite lookup_insert_eq in Hp2; injection Hp2 as _ <-; by right|].
      rewrite lookup_insert_ne in Hp2 by done. by left.
    + intros p Hp. rewrite E5 by (intros n' Hn'; apply Hp; csimpl; by right). cbn [fs2 fs_files]. apply lookup_insert_ne. intros <-. apply (Hp n); [csimpl; by left|done].
  - cbn [entry_flush res_bind]. destruct (IH fs1 Hnd Hden Hnow) as (fs' & Hfl & [E1 E2 E3 E4] & E5). exists fs'. split; [done|]. split; [split; [done|done| |done]|].
    + intros n' g' f' Hin. apply elem_of_cons in Hin as [Hin|Hin]; [done|by apply (E3 n' g' f')].
    + intros p Hp. apply E5. intros n' Hn'. apply Hp. csimpl. by right.
Qed.

Lemma load_entries_ok fs fs' dir l : Forall (entry_keepable fs dir) l → flushed fs dir l fs' →
  ∃ l', load_entries z Turtle RDFFileParser IStreamQuadIterator ord fs' (prod_map id (entry_setDBDir dir) <$> (prod_map id stored_entry <$> l)) = Ok l' ∧ Forall2 same_entry l l'.
Proof.
  intros Hl [_ E2 E3 E4]. revert E3. induction Hl as [|[n e] l [Hname He] _ IH]; intros E3; [by exists []|]. csimpl. destruct IH as (l' & Hl' & Hs); [intros n' g f Hin; apply (E3 n' g f); by right|]. rewrite Hl'.
  destruct e as [name g f|index]; simpl in Hname.
  - subst name. destruct He as [s Hk]. destruct (reopen_graph fs fs' dir n f g s Hk) as (g' & -> & Hro); [apply (E3 n g f); by left|done|done|]. cbn [res_bind]. eexists. split; [done|]. constructor; [|done]. split; [done|]. simpl.
    pose proof (kp_inv _ _ _ _ _ _ Hk) as HI. pose proof (kp_caps _ _ _ _ _ _ Hk) as [Hc1 Hc2]. pose proof (so_caps _ (kp_stored _ _ _ _ _ _ Hk)) as ((_ & Hc3) & _ & _).
    split_and!; try done; [|apply (rl_dict _ _ (ro_reloaded _ _ Hro))|apply Hro|intros; by apply reopened_denotes].
    exists s. split; [done|]. apply (reloaded_inv g); [done|apply Hro|apply Hk|apply Hro|simpl in Hc3; lia|done].
  - cbn [ensureFullyLoaded entry_setDBDir stored_entry res_bind]. eexists. split; [done|]. constructor; [|done]. by split.
Qed.
End reopen.

Lemma catalog_reopens z Turtle code decode RDFFileParser IStreamQuadIterator ord relational_deserialize fs c :
  (∀ t, decode (code t) = Some t) → (∀ t, in_u 8 (code t)) →
  Forall (entry_keepable z Turtle fs (cat_dbDir c)) (entries c) → NoDup (entries c).*1 → fits_size (length (entries c)) → Forall short (entries c).*1 → shouldPersist c = true →
  ∃ fs' c', persist code fs c = Ok fs' ∧ fs_denied fs' = fs_denied fs ∧ fs_now fs' = fs_now fs ∧
    (∀ p x t, fs_files fs' !! p = Some (x, t) → fs_files fs !! p = Some (x, t) ∨ t = fs_now fs) ∧
    create z Turtle decode RDFFileParser IStreamQuadIterator ord relational_deserialize fs' (cat_dbDir c) true = Ok c' ∧
    cat_dbDir c' = cat_dbDir c ∧ Forall2 (same_entry z) (entries c) (entries c').
Proof.
  intros Hdec Hu8 Hl Hnd Hlen Hsh Hp. unfold persist. rewrite Hp. set (dir := cat_dbDir c) in *. destruct (flush_entries_ok z Turtle fs dir (entries c) fs Hl Hnd eq_refl eq_refl) as (fs1 & -> & Hfl & _). cbn [res_bind].
  set (bs := writeProperty 0 (wr_object (catalog_serialize code)) (entries c)). set (fs' := fs_write fs1 (catalogPath dir) bs).
  assert (flushed fs dir (entries c) fs') as Hfl'.
  { destruct Hfl as [E1 E2 E3 E4]. split; [done|done| |].
    - intros n g f Hin. cbn [fs' fs_write fs_files]. rewrite lookup_insert_ne by apply catalogPath_no_graph. by apply (E3 n g f).
    - intros p x t. cbn [fs' fs_write fs_files]. destruct (decide (p = catalogPath dir)) as [->|]; [rewrite lookup_insert_eq; intros [= _ <-]; by right|]. rewrite lookup_insert_ne by done. apply E4. }
  destruct (load_entries_ok z Turtle code decode RDFFileParser IStreamQuadIterator ord Hdec Hu8 fs fs' dir (entries c) Hl Hfl') as (l' & Hload & Hsame).
  exists fs', (mkCatalog false dir l'). split; [done|]. split; [apply Hfl'|]. split; [apply Hfl'|]. split; [apply Hfl'|]. split; [|done]. unfold create. cbn [fs' fs_write fs_files]. rewrite lookup_insert_eq. fold fs'.
  assert (reads_as (wr_object (catalog_serialize code)) (rd_object (catalog_deserialize Turtle decode relational_deserialize)) (entries c) (prod_map id (stored_entry Turtle) <$> entries c)) as Hr.
  { apply object_reads_as. intros rest. apply catalog_reads_back; [done|done| |done|done]. apply Forall_forall. intros [n e] Hin. rewrite Forall_forall in Hl. destruct (Hl _ Hin) as [Hname He]. rewrite Forall_forall in Hsh.
    split; [apply Hsh; apply list_elem_of_fmap; by exists (n, e)|]. destruct e as [name g f|index]; [|done]. destruct He as [s Hk]. split; [apply Hk|apply Hk]. }
  rewrite <- (app_nil_r bs). unfold bs. rewrite (property_reads_as _ _ 0 _ _ ltac:(unfold in_u; lia) Hr []). cbn [res_bind]. by rewrite Hload.
Qed.

(** A database survives a restart.  Persisting the catalogue and opening the
    directory again, with eager loading, succeeds and gives the same entries in
    the same order; every graph represents the same multigraph, with the same
    terms under the same ids and the same cache of literals, and the index of
    nodes is the same. *)
Theorem database_reopens z Turtle code decode RDFFileParser IStreamQuadIterator ord relational_deserialize fs c :
  (∀ t, decode (code t) = Some t) → (∀ t, in_u 8 (code t)) →
  Forall (entry_keepable z Turtle fs (cat_dbDir c)) (entries c) → NoDup (entries c).*1 → fits_size (length (entries c)) → Forall short (entries c).*1 → shouldPersist c = true →
  ∃ fs' c', persist code fs c = Ok fs' ∧
    create z Turtle decode RDFFileParser IStreamQuadIterator ord relational_deserialize fs' (cat_dbDir c) true = Ok c' ∧
    cat_dbDir c' = cat_dbDir c ∧ Forall2 (same_entry z) (entries c) (entries c').
Proof.
  intros Hdec Hu8 Hl Hnd Hlen Hsh Hp. destruct (catalog_reopens z Turtle code decode RDFFileParser IStreamQuadIterator ord relational_deserialize fs c) as (fs' & c' & H1 & _ & _ & _ & H2); [done..|]. by exists fs', c'.
Qed.

(** ** Witness *)

(** A graph with a literal, kept in the directory "db". *)
Definition sample_int : Literal := mkLit (xsd_iri "int") "" "7" (AnyInt32 7).
Definition sample_base : RdfGraph := rdf_setDBDir (rdf_create 0 "g" None "src" 16 8 8) "db".
Definition sample_kept : RdfGraph := match addTriple SPO sample_base sample_s sample_p (NodeLiteral sample_int) 0 with Ok g => g | Fault _ => sample_base end.
Definition sample_disk : Fs := mkFs {["db" +:+ "src.ttl" := ([], 5)]} ∅ 7.
Definition sample_index : GraphNodeIndex := {["g"%string := mapping_of [3; 1; 2]]}.
Definition sample_catalog : Catalog := mkCatalog true "db" [("g"%string, RdfEntry "g" sample_kept FTURTLE); (ENTRY_NAME, NodeIndexEntry sample_index)].

Lemma sample_kept_inv : ∃ s, RdfInv NtIRI sample_kept s.
Proof.
  destruct (addTriple_ok NtIRI SPO sample_base spec_empty sample_s sample_p (NodeLiteral sample_int) 0) as (g & s & rel & si & pi & oi & Ha & HI & _).
  - eapply RdfInv_same; [..|apply (rdf_create_inv NtIRI 0 "g" None "src" 16 8 8); lia]; done.
  - reflexivity.
  - reflexivity.
  - split; [|split; [vm_compute; congruence|right; vm_compute; reflexivity]]. exists (LvInline 7). split; [vm_compute; reflexivity|]. split; [vm_compute; reflexivity|]. split; [vm_compute; reflexivity|]. eexists. vm_compute. reflexivity.
  - exists s. unfold sample_kept. by rewrite Ha.
Qed.

Lemma sample_kept_fits : pg_fits (pgraph sample_kept).
Proof.
  split.
  - eapply forallb_Forall; [apply node_fits_ok|vm_compute; reflexivity].
  - eapply forallb_Forall; [apply rel_fits_ok|vm_compute; reflexivity].
  - eapply forallb_Forall; [apply prop_fits_ok|vm_compute; reflexivity].
  - vm_compute; repeat split; congruence.
  - vm_compute; repeat split; congruence.
  - vm_compute; repeat split; congruence.
  - assert (propData_ (pgraph sample_kept) = mkPropertyData (2 ^ 20) [] [] [] []) as -> by (vm_compute; reflexivity). apply no_data_storable.
Qed.

Lemma sample_entries_keepable : Forall (entry_keepable NtIRI 0 sample_disk "db") (entries sample_catalog).
Proof.
  destruct sample_kept_inv as [s HI]. assert (∀ n, (String.length n < 1000)%nat → short n) as Hshort by (unfold short, fits_size; lia).
  constructor; [split; [done|]|constructor; [split; [done|]|constructor]].
  - exists s. split.
    + done.
    + split; [split_and!; apply Hshort; vm_compute; lia|vm_compute; congruence|split_and!; vm_compute; split; congruence|]. split; [apply HI|]. split; [vm_compute; congruence|].
      assert (id_to_node (rg_nodes sample_kept) = [iri_node "http://x/s"; iri_node "http://x/p"; iri_node (xsd_iri "int"); literal_node]) as -> by (vm_compute; reflexivity). unfold fits_node, fits_size. repeat constructor; simpl; lia.
    + split_and!; try done.
    + apply sample_kept_fits.
    + vm_compute; reflexivity.
    + split; vm_compute; congruence.
    + done.
    + intros c t. vm_compute. intros [= _ <-]. congruence.
    + apply not_elem_of_empty.
  - split; [assert (length (map_to_list sample_index) = 1%nat) as -> by exact (f_equal length (map_to_list_singleton (M := gmap string) "g"%string (mapping_of [3; 1; 2]))); done|]. apply map_Forall_singleton. split; [apply Hshort; simpl; lia|]. exists [3; 1; 2]. split; [done|]. split; [simpl; lia|]. repeat constructor; unfold in_s; simpl; lia.
Qed.

Lemma database_reopens_witness :
  ∃ fs' c', persist sample_code sample_disk sample_catalog = Ok fs' ∧
    create NtIRI 0 sample_decode (λ _ _ _, []) (λ _ _, []) SPO (λ _ _, Fault BadAccess) fs' "db" true = Ok c' ∧ Forall2 (same_entry NtIRI) (entries sample_catalog) (entries c').
Proof.
  destruct (database_reopens NtIRI 0 sample_code sample_decode (λ _ _ _, []) (λ _ _, []) SPO (λ _ _, Fault BadAccess) sample_disk sample_catalog) as (fs' & c' & H1 & H2 & _ & H3).
  - intros []; reflexivity.
  - intros []; vm_compute; split; congruence.
  - exact sample_entries_keepable.
  - apply NoDup_cons; split; [|apply NoDup_singleton]. intros H%list_elem_of_singleton. discriminate H.
  - vm_compute; reflexivity.
  - repeat constructor.
  - reflexivity.
  - exists fs', c'. split; [exact H1|]. split; [exact H2|exact H3].
Defined.
