(* ===== verification/Engine.v ===== *)
(** * The SPARQL engine

    Model of src/gengodb/execution/SparqlEngine.cpp: which statement is a LOAD or
    a settings directive, loading of graphs, the settings, and queries.  Reading
    of RDF files (rdf4cpp), the translation of queries to MLIR and their
    execution are arguments. *)

From S2P Require Import Prelude Bytes Serialization Graph PropertyGraph GraphFile GraphDataOps Identifiers RdfTypes FuzzyTurtle RdfGraph RdfGraphProps.
From S2P Require Import SparqlText Endpoint Regex Catalog.
From Stdlib Require Import Strings.Ascii.
From Stdlib Require Strings.String.
#[local] Open Scope Z_scope.
#[local] Open Scope list_scope.
#[local] Open Scope rx_scope.

Definition str (t : text) : string := String.string_of_list_ascii t.

(** ** Recognising statements *)

Definition loadStatementRegex : rx :=
  Bol ⋅ L "LOAD" ⋅ Star Blanks ⋅ L "<" ⋅ Group 1 (Plus NotGt) ⋅ L ">" ⋅ Star Blanks ⋅ L "INTO" ⋅ Plus Blanks ⋅ L "GRAPH" ⋅ Star Blanks ⋅ L "<" ⋅ Group 2 (Plus NotGt) ⋅ L ">" ⋅ Eol.
(** The source and the graph of a LOAD statement. *)
Definition matchLoad (stmt : text) : option (text * text) :=
  c ← regex_match loadStatementRegex stmt; Some (default [] (c !! 1%nat), default [] (c !! 2%nat)).

Definition settingsNamespace : text := T "gengodb://sparql/settings/".

Definition prefixRegex : rx :=
  L "PREFIX" ⋅ Plus Blanks ⋅ Opt (Group 1 (Set_ (λ c, isalpha c || eqc c "_") ⋅ Star (Set_ (λ c, isword c || eqc c "-")))) ⋅ Star Blanks ⋅ L ":" ⋅ Star Blanks ⋅ L "<" ⋅ Group 2 (Star NotGt) ⋅ L ">".

(** [std::map] of texts: sorted, the last value of a key. *)
Fixpoint text_lt (a b : text) : bool :=
  match a, b with
  | _, [] => false
  | [], _ :: _ => true
  | x :: a, y :: b => (code x <? code y) || (eqc x y && text_lt a b)
  end.
Fixpoint map_set (k v : text) (m : list (text * text)) : list (text * text) :=
  match m with
  | [] => [(k, v)]
  | (k', v') :: m' => if bool_decide (k' = k) then (k, v) :: m' else if text_lt k k' then (k, v) :: m else (k', v') :: map_set k v m'
  end.
Definition extractPrefixes (stmt : text) : list (text * text) :=
  foldl (λ m c, map_set (default [] (c !! 1%nat)) (default [] (c !! 2%nat)) m) [] (find_all (S (length stmt)) prefixRegex (None, stmt)).

(** The two spellings of a setting: its IRI, and its name with the prefix. *)
Definition settingRegex (localName : string) (label : option text) (value : nat → rx) : rx :=
  let full := L "<" ⋅ Lit settingsNamespace ⋅ L localName ⋅ L ">" ⋅ value 1%nat in
  match label with
  | None => full
  | Some label => Alt full (WordB ⋅ Lit label ⋅ L ":" ⋅ L localName ⋅ value 2%nat)
  end.
Definition hasSettingsDirective (stmt : text) (localName : string) (label : option text) : bool :=
  bool_decide (is_Some (regex_search (settingRegex localName label (λ _, Plus Blanks ⋅ L "true" ⋅ WordB)) stmt)).
Definition group_1_or_2 (c : caps) : text := match c !! 1%nat with Some t => t | None => default [] (c !! 2%nat) end.
Definition settingsDirectiveIri (stmt : text) (localName : string) (label : option text) : option text :=
  group_1_or_2 <$> regex_search (settingRegex localName label (λ n, Star Blanks ⋅ L "<" ⋅ Group n (Plus NotGt) ⋅ L ">")) stmt.
(** [std::stoi] throws when the number is out of range. *)
Definition stoi (t : text) : res Z :=
  let n := foldl (λ acc c, 10 * acc + (code c - 48)) 0 t in if n <? 2 ^ 31 then Ok n else Fault (Thrown "stoi").
Definition settingsDirectiveInt (stmt : text) (localName : string) (label : option text) : res (option Z) :=
  match regex_search (settingRegex localName label (λ n, Star Blanks ⋅ Group n (Plus Digit))) stmt with
  | None => Ok None
  | Some c => let* n := stoi (group_1_or_2 c) in Ok (Some n)
  end.

Record SettingsDirectives := mkDirectives {
  d_persists : bool; d_initialize : bool; d_defaultGraph : option text;
  d_capacity : option Z; d_nodeCapacity : option Z; d_relCapacity : option Z; d_propCapacity : option Z;
}.
Definition no_directives : SettingsDirectives := mkDirectives false false None None None None None.
#[global] Instance SettingsDirectives_eq_dec : EqDecision SettingsDirectives.
Proof. solve_decision. Defined.

Definition settingsLabel (stmt : text) : option text := fst <$> find (λ '(_, iri), bool_decide (iri = settingsNamespace)) (extractPrefixes stmt).
Definition detectSettingsDirectives (stmt : text) : res (option SettingsDirectives) :=
  let label := settingsLabel stmt in
  let* capacity := settingsDirectiveInt stmt "capacity" label in
  let* nodeCapacity := settingsDirectiveInt stmt "nodeCapacity" label in
  let* relCapacity := settingsDirectiveInt stmt "edgeCapacity" label in
  let* propCapacity := settingsDirectiveInt stmt "propCapacity" label in
  let d := mkDirectives (hasSettingsDirective stmt "persists" label) (hasSettingsDirective stmt "initialize" label)
    (settingsDirectiveIri stmt "defaultGraph" label) capacity nodeCapacity relCapacity propCapacity in
  Ok (if bool_decide (d = no_directives) then None else Some d).

Definition engine_classify (rawStmt : text) : StatementKind + text :=
  let stmt := trim rawStmt in
  match matchLoad stmt with
  | Some _ => inl Load
  | None =>
      match detectSettingsDirectives stmt with
      | Ok (Some _) => inl Settings
      | Ok None => inl Query
      | Fault _ => inr (T "stoi")
      end
  end.

(** ** Names of graphs *)

(** What stands before, and behind, the last [c]; all of the text without one. *)
Fixpoint before_last (c : ascii) (s : text) : option text :=
  match s with
  | [] => None
  | x :: s => match before_last c s with Some a => Some (x :: a) | None => if eqc x c then Some [] else None end
  end.
Fixpoint behind_last (c : ascii) (s : text) : option text :=
  match s with
  | [] => None
  | x :: s => match behind_last c s with Some b => Some b | None => if eqc x c then Some s else None end
  end.
Definition uriAlias (uri : text) : text :=
  let name := default uri (before_last "#" uri) in
  let name := default name (behind_last "/" name) in
  let name := default name (before_last "." name) in
  let name := match name with [] => T "graph" | _ => name end in
  let r := (λ c, if isalnum c || eqc c "_" then c else "_"%char) <$> name in
  match r with
  | [] => T "g_"
  | c :: _ => if isdigit c then T "g_" ++ r else r
  end.

(** ** The engine *)

(** [loadedGraphs] are the graphs of catalogue entries, by their names. *)
Record EngineState := mkEngine {
  es_fs : Fs; es_catalog : Catalog; es_dbDir : string; loadedGraphs : list string; es_defaultGraph : text;
  nodeCapacity : Z; relCapacity : Z; propCapacity : Z;
}.
Definition set_fs_catalog (st : EngineState) (fs : Fs) (c : Catalog) : EngineState :=
  mkEngine fs c (es_dbDir st) (loadedGraphs st) (es_defaultGraph st) (nodeCapacity st) (relCapacity st) (propCapacity st).
Definition set_loadedGraphs (st : EngineState) (l : list string) : EngineState :=
  mkEngine (es_fs st) (es_catalog st) (es_dbDir st) l (es_defaultGraph st) (nodeCapacity st) (relCapacity st) (propCapacity st).
Definition set_defaultGraph (st : EngineState) (g : text) : EngineState :=
  mkEngine (es_fs st) (es_catalog st) (es_dbDir st) (loadedGraphs st) g (nodeCapacity st) (relCapacity st) (propCapacity st).
Definition set_capacities (st : EngineState) (n r p : Z) : EngineState :=
  mkEngine (es_fs st) (es_catalog st) (es_dbDir st) (loadedGraphs st) (es_defaultGraph st) n r p.

(** An operation ends with [None], or with the exception it throws. *)
Definition result : Type := res (EngineState * option text).
Definition done_ (st : EngineState) : result := Ok (st, None).
Definition throw (st : EngineState) (what : text) : result := Ok (st, Some what).
(** [m], and then [k] unless it threw; an exception leaves the state [st]. *)
Definition try_ {A} (m : res A) (st : EngineState) (k : A → result) : result :=
  match m with Ok a => k a | Fault (Thrown what) => throw st (T what) | Fault f => Fault f end.
Definition seq_ (m : result) (k : EngineState → result) : result :=
  let* '(st, e) := m in match e with None => k st | Some what => throw st what end.

Section engine.
Context (zero_type : RDFNodeType) (Turtle : Z) (code : RDFNodeType → Z) (decode : Z → option RDFNodeType).
Context (RDFFileParser : Fs → string → Z → list (option (Node * Node * Node))) (IStreamQuadIterator : list ascii → Z → list (option (Node * Node * Node))) (ord : Order).
Context (relational_deserialize : CatalogEntryType → reader CatalogEntry).
(** The graph that is left when loading throws. *)
Context (leftover : RdfGraph → RdfGraph).
(** What the constructor of rdf4cpp's IRI throws, if it does. *)
Context (iri_error : text → option text).
(** Translation and execution of a query. *)
Context (translate : text → text → text + (text * bool)) (execute : EngineState → text → option Table + text).

#[local] Abbreviation load_entry := (ensureFullyLoaded zero_type Turtle RDFFileParser IStreamQuadIterator ord).

Definition endsWith (s : text) (ext : string) : bool :=
  (length (T ext) <=? length s)%nat && bool_decide (drop (length s - length (T ext)) s = T ext).

(** The entry after an exception in [ensureFullyLoaded]. *)
Definition failed_entry (e : CatalogEntry) : CatalogEntry :=
  match e with RdfEntry name impl format => RdfEntry name (leftover (set_format Turtle impl format)) format | NodeIndexEntry _ => e end.

Definition handleLoad (st : EngineState) (sourceIri graphIri : text) : result :=
  let format := if endsWith sourceIri ".ttl" then Some FTURTLE else if endsWith sourceIri ".fttl" then Some FFUZZY_TURTLE else None in
  match format with
  | None => throw st (T "LOAD: only Turtle (.ttl) and Fuzzy-Turtle (.fttl) sources are supported for now: <" ++ sourceIri ++ T ">")
  | Some format =>
      let ttlExt := formatExtension Turtle format in
      if negb (starts_with (T "file://") sourceIri) then throw st (T "LOAD: only file:// source IRIs are supported for now: <" ++ sourceIri ++ T ">")
      else
        let name := str (uriAlias graphIri) in
        let filename := str (uriAlias sourceIri) in
        let expectedPath := es_dbDir st +:+ filename +:+ ttlExt in
        if bool_decide (fs_files (es_fs st) !! expectedPath = None) then
          throw st (T "LOAD: expected RDF file at '" ++ T expectedPath ++ T "' (derived from GRAPH <" ++ sourceIri ++ T ">) but it was not found")
        else
          match getEntry (es_catalog st) name with
          | Some (RdfEntry n impl fmt) =>
              let e := RdfEntry n impl fmt in
              let push e := done_ (set_loadedGraphs (set_fs_catalog st (es_fs st) (set_entry (es_catalog st) name e)) (loadedGraphs st ++ [getName e])) in
              if bool_decide (fmt = FBINARY) then push e
              else try_ (load_entry (es_fs st) e) (set_fs_catalog st (es_fs st) (set_entry (es_catalog st) name (failed_entry e))) push
          | _ =>
              match iri_error graphIri with Some what => throw st what | None =>
              let e := RdfEntry name (rdf_create Turtle name (Some (str graphIri)) filename (nodeCapacity st) (relCapacity st) (propCapacity st)) format in
              try_ (insertEntry (es_fs st) (es_catalog st) e false) st (λ '(fs, c),
                let st := set_fs_catalog st fs c in
                match getEntry c name with
                | None => Fault BadAccess
                | Some e =>
                    try_ (load_entry fs e) (set_fs_catalog st fs (set_entry c name (failed_entry e))) (λ e,
                      done_ (set_loadedGraphs (set_fs_catalog st fs (set_entry c name e)) (loadedGraphs st ++ [name])))
                end)
              end
          end
  end.

(** One of the capacity settings. *)
Definition set_capacity (st : EngineState) (v : option Z) (what : string) (set : EngineState → Z → EngineState) : result :=
  match v with
  | None => done_ st
  | Some n => if n <=? 0 then throw st (T what) else done_ (set st n)
  end.

(** The graphs of [loadedGraphs]; one whose entry is gone is a dangling
    pointer. *)
Fixpoint loaded_views (c : Catalog) (names : list string) : res (list (string * GraphView)) :=
  match names with
  | [] => Ok []
  | n :: names =>
      match getRdfEntry c n with
      | None => Fault BadAccess
      | Some (g, _) => let* l := loaded_views c names in Ok ((n, view_of zero_type g) :: l)
      end
  end.

(** [initialize]. *)
Definition rebuildIndex (st : EngineState) : result :=
  let* views := loaded_views (es_catalog st) (loadedGraphs st) in
  try_ (build views) st (λ index,
    try_ (insertEntry (es_fs st) (es_catalog st) (NodeIndexEntry index) true) st (λ '(fs, c), done_ (set_fs_catalog st fs c))).

(** [persists]: the new session reads the database before the destructor of the
    old catalogue writes it once more. *)
Definition persistAll (st : EngineState) : result :=
  try_ (setShouldPersist (es_fs st) (es_catalog st) true) st (λ '(fs, c),
    let st := set_fs_catalog st fs c in
    try_ (persist code fs c) st (λ fs,
      try_ (create zero_type Turtle decode RDFFileParser IStreamQuadIterator ord relational_deserialize fs (es_dbDir st) true) (set_fs_catalog st fs c) (λ c',
        let* fs := persist code fs c in
        done_ (set_loadedGraphs (set_fs_catalog st fs c') (filter (λ n, is_Some (getRdfEntry c' n)) (loadedGraphs st)))))).

Definition handleSettings (st : EngineState) (d : SettingsDirectives) : result :=
  seq_ (set_capacity st (d_capacity d) "capacity must be a positive integer" (λ st n, set_capacities st n n n)) (λ st,
  seq_ (set_capacity st (d_nodeCapacity d) "nodeCapacity must be a positive integer" (λ st n, set_capacities st n (relCapacity st) (propCapacity st))) (λ st,
  seq_ (set_capacity st (d_relCapacity d) "edgeCapacity must be a positive integer" (λ st n, set_capacities st (nodeCapacity st) n (propCapacity st))) (λ st,
  seq_ (set_capacity st (d_propCapacity d) "propCapacity must be a positive integer" (λ st n, set_capacities st (nodeCapacity st) (relCapacity st) n)) (λ st,
  seq_ (if d_initialize d then rebuildIndex st else done_ st) (λ st,
  seq_ (if d_persists d then persistAll st else done_ st) (λ st,
  done_ (match d_defaultGraph d with Some g => set_defaultGraph st g | None => st end))))))).

Definition handleQuery (throwOnError : bool) (st : EngineState) (stmt : text) (defaultGraphOverride : option text) : EngineState * outcome :=
  match translate stmt (default (es_defaultGraph st) defaultGraphOverride) with
  | inr (what, unsupported) =>
      if throwOnError then (st, if unsupported then Unsupported what else Failed (T "Error translating SPARQL: " ++ what)) else (st, Done None)
  | inl mlir =>
      match execute st mlir with
      | inl table => (st, Done table)
      | inr what => if throwOnError then (st, Failed what) else (st, Done None)
      end
  end.

(** An exception of a handler is printed unless [throwOnError]. *)
Definition caught (throwOnError : bool) (m : result) : res (EngineState * outcome) :=
  let* '(st, e) := m in
  match e with
  | Some what => if throwOnError then Ok (st, Failed what) else Ok (st, Done None)
  | None => Ok (st, Done None)
  end.
Definition engine_handleStatement (throwOnError : bool) (st : EngineState) (rawStmt : text) (defaultGraphOverride : option text) : res (EngineState * outcome) :=
  let stmt := trim rawStmt in
  match stmt with
  | [] => Ok (st, Done None)
  | _ =>
      match matchLoad stmt with
      | Some (source, graph) => caught throwOnError (handleLoad st source graph)
      | None =>
          match detectSettingsDirectives stmt with
          | Ok (Some d) => caught throwOnError (handleSettings st d)
          | Ok None => Ok (handleQuery throwOnError st stmt defaultGraphOverride)
          | Fault _ => Ok (st, Failed (T "stoi"))
          end
      end
  end.

(** The engine of the endpoint: errors are thrown. *)
Definition engine : Engine EngineState := {| classifyStatement := engine_classify; handleStatement := engine_handleStatement true |}.
End engine.
