(* ===== verification/EngineProps.v ===== *)
(** * The SPARQL engine: statements, loading, settings *)

From S2P Require Import Prelude Graph GraphSpec GraphRefine Bytes PropData PropertyGraph GraphFile GraphFileProofs GraphDataOps Serialization RdfTypes Identifiers IdentifiersProps FuzzyTurtle RdfGraph RdfGraphInv RdfGraphProps SparqlText SparqlTextProps Endpoint Regex Catalog CatalogProps Engine.
From Stdlib Require Import Strings.Ascii.
From Stdlib Require Strings.String.
#[local] Open Scope Z_scope.
#[local] Open Scope list_scope.

(** ** LOAD statements *)

Definition blanks (s : text) : Prop := Forall (λ c, isspace c = true) s.
Definition iri_text (s : text) : Prop := s ≠ [] ∧ Forall (λ c, negb (eqc c ">") = true) s.
Definition keyword (s : text) (w : string) : Prop := lower s = lower (T w).

(** [LOAD <source> INTO GRAPH <graph>], with keywords in any case. *)
Definition load_form (s source graph : text) : Prop :=
  ∃ load w1 w2 into w3 gr w4,
    s = load ++ w1 ++ T "<" ++ source ++ T ">" ++ w2 ++ into ++ w3 ++ gr ++ w4 ++ T "<" ++ graph ++ T ">" ∧
    keyword load "LOAD" ∧ keyword into "INTO" ∧ keyword gr "GRAPH" ∧ iri_text source ∧ iri_text graph ∧ blanks w1 ∧ blanks w2 ∧ blanks w3 ∧ w3 ≠ [] ∧ blanks w4.

Lemma lower_symbol a c : same_letter c c = true → lower a = lower [c] → tolower c = c → (∀ x, tolower x = c → x = c) → a = [c].
Proof. intros _ H Hc Hu. destruct a as [|x [|y a]]; try done. injection H as H. f_equal. apply Hu. by rewrite H. Qed.
Lemma tolower_inv x c : (code c < 97 ∨ 122 < code c) → tolower x = c → x = c.
Proof.
  unfold tolower, code. intros Hc H. destruct ((65 <=? nat_of_ascii x)%nat && (nat_of_ascii x <=? 90)%nat) eqn:E; [|done]. apply andb_true_iff in E as [H1%Nat.leb_le H2%Nat.leb_le].
  subst c. unfold chr in Hc. rewrite nat_ascii_embedding in Hc by lia. lia.
Qed.
Lemma lower_lt a : lower a = lower (T "<") → a = T "<".
Proof. intros H. apply (lower_symbol a "<"%char); [done|done|done|]. intros x. apply tolower_inv. by left. Qed.
Lemma lower_gt a : lower a = lower (T ">") → a = T ">".
Proof. intros H. apply (lower_symbol a ">"%char); [done|done|done|]. intros x. apply tolower_inv. by left. Qed.

(** What a match of the expression says of the text. *)
Lemma load_regex_sound s c : regex_match loadStatementRegex s = Some c → ∃ source graph, c !! 1%nat = Some source ∧ c !! 2%nat = Some graph ∧ load_form s source graph.
Proof.
  unfold regex_match, loadStatementRegex. intros H. cbn [rmatch fst] in H.
  apply lit_inv in H as (load & s1 & p1 & -> & K1 & H). apply star_inv in H as (w1 & s2 & p2 & -> & W1 & H). apply lit_inv in H as (x1 & s3 & p3 & -> & X1%lower_lt & H).
  apply plus_inv in H as (source & s4 & p4 & -> & N1 & I1 & H). cbn [snd] in H. rewrite group_text in H. apply lit_inv in H as (x2 & s5 & p5 & -> & X2%lower_gt & H).
  apply star_inv in H as (w2 & s6 & p6 & -> & W2 & H). apply lit_inv in H as (into & s7 & p7 & -> & K2 & H). apply plus_inv in H as (w3 & s8 & p8 & -> & N3 & W3 & H).
  apply lit_inv in H as (gr & s9 & p9 & -> & K3 & H). apply star_inv in H as (w4 & s10 & p10 & -> & W4 & H). apply lit_inv in H as (x3 & s11 & p11 & -> & X3%lower_lt & H).
  apply plus_inv in H as (graph & s12 & p12 & -> & N2 & I2 & H). cbn [snd] in H. rewrite group_text in H. apply lit_inv in H as (x4 & s13 & p13 & -> & X4%lower_gt & H). cbn [snd] in H.
  destruct s13; [|done]. injection H as <-. exists source, graph. split_and!; [by rewrite lookup_insert_ne, lookup_insert_eq|by rewrite lookup_insert_eq|].
  exists load, w1, w2, into, w3, gr, w4. subst x1 x2 x3 x4. rewrite app_nil_r. split_and!; try done.
Qed.

Lemma load_regex_complete s source graph : load_form s source graph → is_Some (regex_match loadStatementRegex s).
Proof.
  intros (load & w1 & w2 & into & w3 & gr & w4 & -> & K1 & K2 & K3 & [N1 I1] & [N2 I2] & W1 & W2 & W3 & N3 & W4). unfold regex_match, loadStatementRegex. cbn [rmatch fst].
  apply lit_ok; [done|intros p1]. apply star_ok; [done|intros p2]. apply lit_ok; [done|intros p3]. apply plus_ok; [done|done|intros p4]. apply lit_ok; [done|intros p5]. apply star_ok; [done|intros p6].
  apply lit_ok; [done|intros p7]. apply plus_ok; [done|done|intros p8]. apply lit_ok; [done|intros p9]. apply star_ok; [done|intros p10]. apply lit_ok; [done|intros p11]. apply plus_ok; [done|done|intros p12].
  rewrite <- (app_nil_r (T ">")). apply lit_ok; [done|intros p13]. by eexists.
Qed.

(** A run of characters that [p] accepts, ended by one it does not. *)
Lemma span_unique (p : ascii → bool) a a' x x' b b' : Forall (λ c, p c = true) a → Forall (λ c, p c = true) a' → p x = false → p x' = false → a ++ x :: b = a' ++ x' :: b' → a = a' ∧ x = x' ∧ b = b'.
Proof.
  intros Ha. revert a'. induction Ha as [|c a Hc Ha IH]; intros a' Ha' Hx Hx' E; destruct Ha' as [|c' a' Hc' Ha']; simpl in E.
  - by injection E as -> ->.
  - injection E as -> _. by rewrite Hc' in Hx.
  - injection E as -> _. by rewrite Hc in Hx'.
  - injection E as -> E. destruct (IH a' Ha' Hx Hx' E) as (-> & -> & ->). done.
Qed.
Lemma keyword_unique a a' b b' w : keyword a w → keyword a' w → a ++ b = a' ++ b' → a = a' ∧ b = b'.
Proof. unfold keyword. intros H H' E. apply app_inj_1 in E; [done|]. apply (f_equal length) in H, H'. unfold lower in *. rewrite !length_fmap in *. lia. Qed.

Lemma keyword_head a b w x : keyword a w → T w ≠ [] → x = head (T w) → ∃ y r, a ++ b = y :: r ∧ Some (tolower y) = tolower <$> x.
Proof. intros H Hne ->. unfold keyword in H. destruct a as [|y a], (T w) as [|z t]; try done. injection H as H _. exists y, (a ++ b). simpl. by rewrite H. Qed.
Lemma not_space_of_lower y c : tolower y = tolower c → isalpha c = true → isspace y = false.
Proof.
  intros H Hc. unfold isspace. destruct (_ || _) eqn:E; [|done]. exfalso. assert (tolower y = y) as Hy.
  { unfold tolower. unfold code in E. destruct ((65 <=? nat_of_ascii y)%nat && _) eqn:E2; [|done]. apply andb_true_iff in E2 as [?%Nat.leb_le ?%Nat.leb_le]. apply orb_true_iff in E as [[? E%Z.leb_le]%andb_true_iff|E%Z.eqb_eq]; lia. }
  rewrite Hy in H. subst y. unfold tolower, code, isalpha in *. unfold code in *. destruct ((65 <=? nat_of_ascii c)%nat && (nat_of_ascii c <=? 90)%nat) eqn:E2.
  - apply andb_true_iff in E2 as [?%Nat.leb_le ?%Nat.leb_le]. unfold chr in E. rewrite nat_ascii_embedding in E by lia. apply orb_true_iff in E as [[? E%Z.leb_le]%andb_true_iff|E%Z.eqb_eq]; lia.
  - apply orb_true_iff in E as [[E1%Z.leb_le E3%Z.leb_le]%andb_true_iff|E%Z.eqb_eq]; apply orb_true_iff in Hc as [[H1%Z.leb_le H3%Z.leb_le]%andb_true_iff|[H1%Z.leb_le H3%Z.leb_le]%andb_true_iff]; lia.
Qed.

Lemma load_form_unique s source graph source' graph' : load_form s source graph → load_form s source' graph' → source = source' ∧ graph = graph'.
Proof.
  intros (l & w1 & w2 & i & w3 & g & w4 & E & K1 & K2 & K3 & [_ I1] & [_ I2] & W1 & W2 & W3 & N3 & W4).
  intros (l' & w1' & w2' & i' & w3' & g' & w4' & E' & K1' & K2' & K3' & [_ I1'] & [_ I2'] & W1' & W2' & W3' & N3' & W4'). rewrite E in E'. clear E s.
  apply (keyword_unique _ _ _ _ "LOAD" K1 K1') in E' as [-> E]. apply (span_unique isspace w1 w1') in E as (-> & _ & E); [|done..].
  apply (span_unique (λ c, negb (eqc c ">")) source source') in E as (-> & _ & E); [|done..]. split; [done|].
  assert (∀ k b, keyword k "INTO" → ∃ y r, k ++ b = y :: r ∧ isspace y = false) as HI.
  { intros k b Hk. destruct (keyword_head k b "INTO" _ Hk ltac:(done) eq_refl) as (y & r & Ey & Hy). exists y, r. split; [done|]. injection Hy as Hy. by apply (not_space_of_lower y "I"%char). }
  assert (∀ k b, keyword k "GRAPH" → ∃ y r, k ++ b = y :: r ∧ isspace y = false) as HG.
  { intros k b Hk. destruct (keyword_head k b "GRAPH" _ Hk ltac:(done) eq_refl) as (y & r & Ey & Hy). exists y, r. split; [done|]. injection Hy as Hy. by apply (not_space_of_lower y "G"%char). }
  destruct (HI i (w3 ++ g ++ w4 ++ T "<" ++ graph ++ T ">") K2) as (y & r & Ey & Hy). destruct (HI i' (w3' ++ g' ++ w4' ++ T "<" ++ graph' ++ T ">") K2') as (y' & r' & Ey' & Hy').
  rewrite Ey, Ey' in E. apply (span_unique isspace w2 w2') in E as (-> & -> & ->); [|done..]. rewrite <- Ey' in Ey. clear Ey' Hy Hy' y' r'.
  apply (keyword_unique _ _ _ _ "INTO" K2 K2') in Ey as [-> E]. destruct (HG g (w4 ++ T "<" ++ graph ++ T ">") K3) as (z & q & Ez & Hz). destruct (HG g' (w4' ++ T "<" ++ graph' ++ T ">") K3') as (z' & q' & Ez' & Hz').
  rewrite Ez, Ez' in E. apply (span_unique isspace w3 w3') in E as (-> & -> & ->); [|done..]. rewrite <- Ez' in Ez. apply (keyword_unique _ _ _ _ "GRAPH" K3 K3') in Ez as [-> E].
  apply (span_unique isspace w4 w4') in E as (-> & _ & E); [|done..]. by apply (span_unique (λ c, negb (eqc c ">")) graph graph') in E as (-> & _ & _).
Qed.

Lemma matchLoad_iff s source graph : matchLoad s = Some (source, graph) ↔ load_form s source graph.
Proof.
  unfold matchLoad. split.
  - destruct (regex_match loadStatementRegex s) as [c|] eqn:E; [|done]. simpl. intros [= <- <-]. apply load_regex_sound in E as (so & gr & -> & -> & Hf). exact Hf.
  - intros Hf. destruct (load_regex_complete s source graph Hf) as [c Hc]. rewrite Hc. simpl. apply load_regex_sound in Hc as (so & gr & -> & -> & Hf'). by destruct (load_form_unique _ _ _ _ _ Hf Hf') as [-> ->].
Qed.

Definition classified (stmt : text) (k : StatementKind) : Prop := engine_classify stmt = inl k.

(** C34. The engine takes a statement for a LOAD exactly when it has, between blanks,
    the form [LOAD <source> INTO GRAPH <graph>] with keywords in any case, and
    reads source and graph from it; the reading is unique. *)
Theorem load_statement_iff s source graph :
  (matchLoad s = Some (source, graph) ↔ load_form s source graph) ∧
  (classified s Load ↔ ∃ so gr, load_form (trim s) so gr) ∧
  (∀ so gr, load_form s source graph → load_form s so gr → so = source ∧ gr = graph).
Proof.
  split_and!; [apply matchLoad_iff| |].
  - unfold classified, engine_classify. split.
    + destruct (matchLoad (trim s)) as [[so gr]|] eqn:E; [intros _; exists so, gr; by apply matchLoad_iff|]. by destruct (detectSettingsDirectives (trim s)) as [[d|]|f].
    + intros (so & gr & H%matchLoad_iff). by rewrite H.
  - intros so gr H H'. by destruct (load_form_unique _ _ _ _ _ H H') as [-> ->].
Qed.

(** ** Loading *)

Section load.
Context (z : RDFNodeType) (Turtle : Z).
Context (RDFFileParser : Fs → string → Z → list (option (Node * Node * Node))) (IStreamQuadIterator : list ascii → Z → list (option (Node * Node * Node))) (ord : Order).
Context (leftover : RdfGraph → RdfGraph) (iri_error : text → option text).

#[local] Abbreviation handleLoad := (handleLoad z Turtle RDFFileParser IStreamQuadIterator ord leftover iri_error).
#[local] Abbreviation load_entry := (ensureFullyLoaded z Turtle RDFFileParser IStreamQuadIterator ord).

Lemma lookup_entry_app l1 l2 n : lookup_entry (l1 ++ l2) n = match lookup_entry l1 n with Some e => Some e | None => lookup_entry l2 n end.
Proof. induction l1 as [|[m e] l1 IH]; [done|]. simpl. by case_bool_decide. Qed.
Lemma lookup_set_entry c n e m : getEntry (set_entry c n e) m = if bool_decide (m = n) then (λ _, e) <$> getEntry c m else getEntry c m.
Proof.
  unfold getEntry, set_entry. simpl. induction (entries c) as [|[k x] l IH]; [by case_bool_decide|]. csimpl. repeat case_bool_decide; subst; try done.
Qed.

(** What the engine makes of a LOAD whose source is a file of the database. *)
Record loadable (st : EngineState) (source graph : text) (format : RDFFileFormat) : Prop := {
  lo_format : (if endsWith source ".ttl" then Some FTURTLE else if endsWith source ".fttl" then Some FFUZZY_TURTLE else None) = Some format;
  lo_iri : iri_error graph = None;
  lo_file : starts_with (T "file://") source = true;
  lo_exists : is_Some (fs_files (es_fs st) !! (es_dbDir st +:+ str (uriAlias source) +:+ formatExtension Turtle format));
}.

(** The graph that LOAD makes. *)
Definition new_graph (st : EngineState) (source graph : text) : RdfGraph :=
  rdf_setDBDir (rdf_create Turtle (str (uriAlias graph)) (Some (str graph)) (str (uriAlias source)) (nodeCapacity st) (relCapacity st) (propCapacity st)) (cat_dbDir (es_catalog st)).
Definition new_entry (st : EngineState) (source graph : text) (format : RDFFileFormat) : CatalogEntry := RdfEntry (str (uriAlias graph)) (new_graph st source graph) format.

Lemma load_new st source graph format : loadable st source graph format → shouldPersist (es_catalog st) = false → getEntry (es_catalog st) (str (uriAlias graph)) = None →
  let name := str (uriAlias graph) in let e := new_entry st source graph format in
  ∃ c, entries c = entries (es_catalog st) ++ [(name, e)] ∧ shouldPersist c = false ∧ cat_dbDir c = cat_dbDir (es_catalog st) ∧
  handleLoad st source graph = try_ (load_entry (es_fs st) e) (set_fs_catalog st (es_fs st) (set_entry c name (failed_entry Turtle leftover e)))
    (λ e, done_ (set_loadedGraphs (set_fs_catalog st (es_fs st) (set_entry c name e)) (loadedGraphs st ++ [name]))).
Proof.
  intros [Hf Hi Hs [x Hx]] Hp Hn name e. exists (mkCatalog false (cat_dbDir (es_catalog st)) (entries (es_catalog st) ++ [(name, e)])). split_and!; [done..|].
  unfold Engine.handleLoad. rewrite Hf, Hs, Hx. cbn [negb]. rewrite bool_decide_false by done. fold name. fold name in Hn. rewrite Hn, Hi. unfold insertEntry. cbn [getName]. rewrite Hn. cbn [res_bind]. rewrite Hp. cbn [entry_setDBDir entry_setShouldPersist]. unfold rdf_setPersist. cbn [res_bind try_].
  unfold getEntry at 1. cbn [entries]. rewrite lookup_entry_app. unfold getEntry in Hn. rewrite Hn. cbn [lookup_entry]. rewrite bool_decide_true by done. done.
Qed.

(** A file that cannot be read is reported once: the entry of the failed load
    stays in the catalogue and counts as loaded, so that the same LOAD succeeds
    the next time, without its triples. *)
Theorem failed_load_succeeds_next_time st source graph format what : loadable st source graph format → shouldPersist (es_catalog st) = false →
  getEntry (es_catalog st) (str (uriAlias graph)) = None → (∀ g, rg_loaded (leftover g) = true) →
  load_entry (es_fs st) (new_entry st source graph format) = Fault (Thrown what) →
  ∃ st1 st2 g, handleLoad st source graph = Ok (st1, Some (T what)) ∧ handleLoad st1 source graph = Ok (st2, None) ∧
    loadedGraphs st2 = loadedGraphs st ++ [str (uriAlias graph)] ∧
    getRdfEntry (es_catalog st2) (str (uriAlias graph)) = Some (set_format Turtle (leftover g) format, format).
Proof.
  intros Hl Hp Hn Hleft He. destruct (load_new st source graph format Hl Hp Hn) as (c & Ec & Ep & Ed & E). rewrite E, He. cbn [try_]. set (name := str (uriAlias graph)) in *.
  set (e0 := new_entry st source graph format) in *. set (g0 := set_format Turtle (new_graph st source graph) format).
  assert (∀ e, getEntry (set_entry c name e) name = Some e) as Hset.
  { intros e. rewrite lookup_set_entry, bool_decide_true by done. unfold getEntry in *. rewrite Ec, lookup_entry_app, Hn. simpl. by rewrite bool_decide_true. }
  set (st1 := set_fs_catalog st (es_fs st) (set_entry c name (failed_entry Turtle leftover e0))). destruct Hl as [Hf _ Hs [x Hx]].
  assert (format ≠ FBINARY) as Hfb by (intros ->; by destruct (endsWith source ".ttl"), (endsWith source ".fttl")).
  set (e1 := RdfEntry name (set_format Turtle (leftover g0) format) format). 
  exists st1, (set_loadedGraphs (set_fs_catalog st1 (es_fs st) (set_entry (es_catalog st1) name e1)) (loadedGraphs st ++ [name])), g0. split; [done|]. split; [|split; [done|]].
  - unfold Engine.handleLoad. rewrite Hf, Hs. change (es_fs st1) with (es_fs st). change (es_dbDir st1) with (es_dbDir st). rewrite Hx. cbn [negb]. rewrite bool_decide_false by done. fold name. change (es_catalog st1) with (set_entry c name (failed_entry Turtle leftover e0)). rewrite Hset. unfold e0, new_entry. cbn [failed_entry]. fold g0. fold name.
    rewrite bool_decide_false by done. cbn [ensureFullyLoaded]. unfold rdf_ensureLoaded. assert (rg_loaded (set_format Turtle (leftover g0) format) = true) as -> by (unfold set_format; rewrite bool_decide_false by done; apply Hleft). cbn [res_bind try_]. done.
  - unfold getRdfEntry. cbn [es_catalog set_loadedGraphs set_fs_catalog]. rewrite lookup_set_entry, bool_decide_true by done. change (es_catalog st1) with (set_entry c name (failed_entry Turtle leftover e0)). rewrite Hset. done.
Qed.

(** The name of a graph is the last part of its IRI: a LOAD into a second graph
    with that part finds the first one, and loads nothing. *)
Theorem load_alias_collision st graph source2 graph2 format impl fmt : loadable st source2 graph2 format → uriAlias graph = uriAlias graph2 →
  getEntry (es_catalog st) (str (uriAlias graph)) = Some (RdfEntry (str (uriAlias graph)) impl fmt) → fmt ≠ FBINARY → rg_loaded impl = true →
  ∃ st', handleLoad st source2 graph2 = Ok (st', None) ∧ getRdfEntry (es_catalog st') (str (uriAlias graph2)) = Some (set_format Turtle impl fmt, fmt) ∧
    ∀ name, name ≠ str (uriAlias graph) → getEntry (es_catalog st') name = getEntry (es_catalog st) name.
Proof.
  intros [Hf _ Hs [x Hx]] Ha He Hfb Hld. rewrite Ha in *. set (name := str (uriAlias graph2)) in *. eexists. split; [|split].
  - unfold Engine.handleLoad. rewrite Hf, Hs, Hx. cbn [negb]. rewrite bool_decide_false by done. fold name. rewrite He. rewrite bool_decide_false by done. cbn [ensureFullyLoaded]. unfold rdf_ensureLoaded.
    assert (rg_loaded (set_format Turtle impl fmt) = true) as -> by (unfold set_format; by rewrite bool_decide_false). cbn [res_bind try_]. done.
  - unfold getRdfEntry. cbn [es_catalog set_loadedGraphs set_fs_catalog]. rewrite lookup_set_entry, bool_decide_true by done. by rewrite He.
  - intros n Hne. cbn [es_catalog set_loadedGraphs set_fs_catalog]. by rewrite lookup_set_entry, bool_decide_false.
Qed.

(** *** A fuzzy graph, from the statement to its triples *)

(** The graph as LOAD has prepared it for the parser. *)
Definition fresh_graph (st : EngineState) (source graph : text) : RdfGraph :=
  let g := set_loaded (set_format Turtle (new_graph st source graph) FFUZZY_TURTLE) in
  let s := setDBDir (gdb_create (rg_fileName g) (pg_nodeCap_ (pgraph g)) (pg_relCap_ (pgraph g)) (propCap_ (pgraph g))) (rg_dbDir g) in
  set_literals (set_dict (set_storage g s) newDict) ∅.

(** A graph that holds exactly these triples, with their truth degrees. *)
Definition holds_triples (g : RdfGraph) (ts : list (Node * Node * Node)) (ds : list Z) : Prop :=
  ∃ s, RdfInv z g s ∧ base.size (sg_rels s) = length ts ∧
    ∀ k t p o d, ts !! k = Some (t, p, o) → ds !! k = Some d →
      ∃ rel si pi oi, sg_rels s !! rel = Some (mkSRel si oi pi (i32 d)) ∧ denotes z g si t ∧ denotes z g pi p ∧ denotes z g oi o.

Lemma load_fuzzy_file fs st source graph content t turtle ts ds :
  let g := new_graph st source graph in
  fs_files fs !! fuzzyPath Turtle g = Some (content, t) → fuzzyPath Turtle g ∉ fs_denied fs → hasFreshCache fs (rg_storage g) (rg_dbDir g +:+ sourceFileName g +:+ ".ttl") = false →
  loadFuzzyTTL (String.list_ascii_of_string (String.string_of_list_byte content)) = Ok (turtle, ds) → IStreamQuadIterator turtle Turtle = Some <$> ts → ts ≠ [] → length ds = length ts →
  0 ≤ nodeCapacity st < 2 ^ 31 → 0 ≤ relCapacity st → 0 ≤ propCapacity st < 2 ^ 31 → loads z ord (fresh_graph st source graph) ts ds →
  ∃ g', load_entry fs (new_entry st source graph FFUZZY_TURTLE) = Ok (RdfEntry (str (uriAlias graph)) g' FFUZZY_TURTLE) ∧ holds_triples g' ts ds.
Proof.
  intros g Hfile Hden Hfresh Httl Hparse Hne Hlen Hnc Hrc Hpc Hroom. set (g0 := fresh_graph st source graph) in *.
  assert (RdfInv z g0 spec_empty) as HI.
  { pose proof (rdf_create_inv z Turtle (str (uriAlias graph)) (Some (str graph)) (str (uriAlias source)) _ _ _ Hnc Hrc Hpc) as H0. by eapply RdfInv_same; [..|exact H0]. }
  destruct (add_fuzzy_ok z ord g0 spec_empty ts ds HI eq_refl Hroom) as (g1 & s1 & Ha & HI1 & _ & Hsz & _ & Hall).
  unfold new_entry. cbn [ensureFullyLoaded]. unfold rdf_ensureLoaded. fold g. set (gf := set_format Turtle g FFUZZY_TURTLE).
  change (rg_loaded gf) with false. cbv iota. change (rg_storage (set_loaded gf)) with (rg_storage g).
  assert (sourcePath Turtle (set_loaded gf) = rg_dbDir g +:+ sourceFileName g +:+ ".ttl") as ->.
  { unfold sourcePath, flagExtension. change (rdfParseFlags (set_loaded gf)) with Turtle. by rewrite Z.eqb_refl. }
  rewrite Hfresh. change (loadedFromRdfFile (set_loaded gf)) with true. cbn [andb negb]. change (set_literals _ _) with g0. unfold loadTriples. change (loadedFromRdfFile g0) with true. change (fuzzy g0) with true. cbn [negb].
  unfold loadFuzzyTriples. change (fuzzyPath Turtle g0) with (fuzzyPath Turtle g). rewrite Hfile. rewrite bool_decide_false by done. rewrite Httl. cbn [res_bind]. change (rdfParseFlags g0) with Turtle. rewrite Hparse, Ha. cbn [res_bind].
  destruct ts as [|[[t1 p1] o1] ts]; [done|]. destruct ds as [|d1 ds]; [done|]. destruct (Hall 0%nat t1 p1 o1 d1 eq_refl eq_refl) as (_ & si & _ & _ & _ & Ds & _). apply denotes_range in Ds.
  assert (gdb_ensureLoaded fs (rg_storage g1) = Ok (mkGDB (storage_ (rg_storage g1)) (fileName_ (rg_storage g1)) (dbDir_ (rg_storage g1)) true)) as ->.
  { unfold gdb_ensureLoaded. destruct (loaded_ (rg_storage g1)) eqn:El; [destruct (rg_storage g1); simpl in *; by subst|]. change (storage_ (rg_storage g1)) with (pgraph g1). rewrite (proj2 (Z.ltb_lt _ _)); [done|]. rewrite (ri_mark _ _ _ HI1). lia. }
  cbn [res_bind]. rewrite andb_false_r. eexists. split; [done|]. exists s1. split; [by eapply RdfInv_same; [..|exact HI1]|]. split; [rewrite Hsz; change (sg_rels spec_empty) with (∅ : gmap Z (SpecRel Z)); by rewrite map_size_empty|].
  intros k t' p o d Hk Hd. destruct (Hall k t' p o d Hk Hd) as (rel & si' & pi & oi & Hrel & D1 & D2 & D3). exists rel, si', pi, oi. split; [done|]. split_and!; by eapply denotes_same.
Qed.

Lemma endsWith_app s ext : endsWith (s ++ T ext) ext = true.
Proof.
  unfold endsWith. rewrite length_app. rewrite (proj2 (Nat.leb_le _ _)) by lia. replace (length s + length (T ext) - length (T ext))%nat with (length s) by lia. rewrite drop_app_length. by rewrite bool_decide_true.
Qed.
Lemma fttl_not_ttl s : endsWith (s ++ T ".fttl") ".ttl" = false.
Proof.
  unfold endsWith. apply andb_false_intro2, bool_decide_false. rewrite length_app. change (length (T ".fttl")) with 5%nat. change (length (T ".ttl")) with 4%nat.
  replace (length s + 5 - 4)%nat with (length s + 1)%nat by lia. rewrite <- drop_drop, drop_app_length. done.
Qed.
Lemma string_app_assoc (a b c : string) : a +:+ (b +:+ c) = (a +:+ b) +:+ c.
Proof. induction a as [|x a IH]; [done|]. exact (f_equal (String.String x) IH). Qed.
Lemma starts_with_app p s : starts_with p (p ++ s) = true.
Proof. induction p as [|c p IH]; [done|]. simpl. by rewrite eqc_refl. Qed.

Context (code : RDFNodeType → Z) (decode : Z → option RDFNodeType) (relational_deserialize : CatalogEntryType → reader CatalogEntry).
Context (translate : text → text → text + (text * bool)) (execute : EngineState → text → option Table + text).

(** C8. From the statement to the triples: [LOAD <file://....fttl> INTO GRAPH <g>]
    adds a graph under the name of [g] that holds exactly the triples the parser
    reads from the file, each with its truth degree, and changes no other entry
    of the catalogue.  The name must be new in the catalogue, which is not
    persisted, the file readable with no fresh cache beside it, the triples at
    least one and with one degree each, and the capacities large enough; on a
    name that is taken or a source without triples the code does otherwise
    ([load_alias_collision], [rdf_emptied_source_loads_stale_graph]). *)
Theorem load_statement_exact throwOnError st stmt p graph content t turtle ts ds :
  let source := T "file://" ++ p ++ T ".fttl" in let name := str (uriAlias graph) in let path := es_dbDir st +:+ str (uriAlias source) in
  load_form (trim stmt) source graph → iri_error graph = None → cat_dbDir (es_catalog st) = es_dbDir st → shouldPersist (es_catalog st) = false → getEntry (es_catalog st) name = None →
  str (uriAlias source) ≠ ""%string → fs_files (es_fs st) !! (path +:+ ".fttl") = Some (content, t) → (path +:+ ".fttl") ∉ fs_denied (es_fs st) →
  hasFreshCache (es_fs st) (setDBDir (gdb_create name (nodeCapacity st) (relCapacity st) (propCapacity st)) (es_dbDir st)) (path +:+ ".ttl") = false →
  loadFuzzyTTL (String.list_ascii_of_string (String.string_of_list_byte content)) = Ok (turtle, ds) → IStreamQuadIterator turtle Turtle = Some <$> ts → ts ≠ [] → length ds = length ts →
  0 ≤ nodeCapacity st < 2 ^ 31 → 0 ≤ relCapacity st → 0 ≤ propCapacity st < 2 ^ 31 → loads z ord (fresh_graph st source graph) ts ds →
  ∃ st' g, engine_handleStatement z Turtle code decode RDFFileParser IStreamQuadIterator ord relational_deserialize leftover iri_error translate execute throwOnError st stmt None = Ok (st', Done None) ∧
    getRdfEntry (es_catalog st') name = Some (g, FFUZZY_TURTLE) ∧ holds_triples g ts ds ∧ loadedGraphs st' = loadedGraphs st ++ [name] ∧
    ∀ n, n ≠ name → getEntry (es_catalog st') n = getEntry (es_catalog st) n.
Proof.
  intros source name path Hform Hiri Hdir Hp Hn Hsrc Hfile Hden Hfresh Httl Hparse Hne Hlen Hnc Hrc Hpc Hroom. 
  assert (∀ e, es_dbDir st +:+ (str (uriAlias source) +:+ e) = path +:+ e) as Epath by (intros e; unfold path; apply string_app_assoc).
  assert (sourceFileName (new_graph st source graph) = str (uriAlias source)) as Esf by (unfold new_graph, rdf_create, newRdfGraph, rdf_setDBDir; cbn [sourceFileName]; by rewrite (proj2 (String.eqb_neq _ _) Hsrc)).
  destruct (load_fuzzy_file (es_fs st) st source graph content t turtle ts ds) as (g & He & Hh); try done.
  { unfold fuzzyPath. rewrite Esf. cbn [rg_dbDir new_graph rdf_setDBDir]. rewrite Hdir. cbn [formatExtension]. by rewrite Epath. }
  { unfold fuzzyPath. rewrite Esf. cbn [rg_dbDir new_graph rdf_setDBDir]. rewrite Hdir. cbn [formatExtension]. by rewrite Epath. }
  { rewrite Esf. cbn [rg_dbDir rg_storage new_graph rdf_setDBDir]. rewrite Hdir, Epath. exact Hfresh. }
  assert (loadable st source graph FFUZZY_TURTLE) as Hl.
  { split; [|done|apply starts_with_app|eexists; etrans; [|exact Hfile]; f_equal; apply (Epath ".fttl"%string)]. unfold source. rewrite !(app_assoc (T "file://")). by rewrite fttl_not_ttl, endsWith_app. }
  destruct (load_new st source graph FFUZZY_TURTLE Hl Hp Hn) as (c & Ec & _ & _ & E). fold name in E, Ec, He. rewrite He in E. cbn [try_] in E. eexists _, g. split.
  - unfold engine_handleStatement. destruct (trim stmt) as [|x l] eqn:Et.
    { destruct Hform as (k & w1 & w2 & i & w3 & gr & w4 & E0 & K & _). destruct k; [discriminate K|discriminate E0]. }
    rewrite <- Et in *. rewrite (proj2 (matchLoad_iff _ _ _) Hform). rewrite E. done.
  - assert (∀ m, getEntry (set_entry c name (RdfEntry name g FFUZZY_TURTLE)) m = if bool_decide (m = name) then Some (RdfEntry name g FFUZZY_TURTLE) else getEntry (es_catalog st) m) as Hg.
    { intros m. rewrite lookup_set_entry. unfold getEntry in *. rewrite Ec, lookup_entry_app. case_bool_decide as Hm; [subst m; rewrite Hn; simpl; by rewrite bool_decide_true|].
      destruct (lookup_entry (entries (es_catalog st)) m); [done|]. simpl. by rewrite bool_decide_false. }
    split_and!; [|done|done|].
    + unfold getRdfEntry. cbn [es_catalog set_loadedGraphs set_fs_catalog]. rewrite Hg. by rewrite bool_decide_true.
    + intros n Hnn. cbn [es_catalog set_loadedGraphs set_fs_catalog]. rewrite Hg. by rewrite bool_decide_false.
Qed.
End load.

(** ** Settings *)

Section settings.
Context (z : RDFNodeType) (Turtle : Z) (code : RDFNodeType → Z) (decode : Z → option RDFNodeType).
Context (RDFFileParser : Fs → string → Z → list (option (Node * Node * Node))) (IStreamQuadIterator : list ascii → Z → list (option (Node * Node * Node))) (ord : Order).
Context (relational_deserialize : CatalogEntryType → reader CatalogEntry) (leftover : RdfGraph → RdfGraph) (iri_error : text → option text).
Context (translate : text → text → text + (text * bool)) (execute : EngineState → text → option Table + text).

#[local] Abbreviation handleSettings := (handleSettings z Turtle code decode RDFFileParser IStreamQuadIterator ord relational_deserialize).
#[local] Abbreviation handleStatement := (engine_handleStatement z Turtle code decode RDFFileParser IStreamQuadIterator ord relational_deserialize leftover iri_error translate execute).

Definition positive (v : option Z) : Prop := ∀ n, v = Some n → 0 < n.

Lemma set_capacity_ok st v what set : positive v → set_capacity st v what set = done_ (match v with Some n => set st n | None => st end).
Proof. intros H. unfold set_capacity. destruct v as [n|]; [|done]. specialize (H n eq_refl). by rewrite (proj2 (Z.leb_gt _ _)) by lia. Qed.

(** A capacity of its own for nodes, edges or properties takes precedence over
    the common one, whatever their order in the statement; nothing else
    changes. *)
Theorem settings_capacities st d : d_initialize d = false → d_persists d = false →
  positive (d_capacity d) → positive (d_nodeCapacity d) → positive (d_relCapacity d) → positive (d_propCapacity d) →
  let pick own old := default (default old (d_capacity d)) own in
  handleSettings st d = Ok (mkEngine (es_fs st) (es_catalog st) (es_dbDir st) (loadedGraphs st) (default (es_defaultGraph st) (d_defaultGraph d))
    (pick (d_nodeCapacity d) (nodeCapacity st)) (pick (d_relCapacity d) (relCapacity st)) (pick (d_propCapacity d) (propCapacity st)), None).
Proof.
  intros Hi Hp P1 P2 P3 P4 pick. unfold Engine.handleSettings. rewrite Hi, Hp. rewrite set_capacity_ok by done. cbn [seq_ done_ res_bind]. rewrite set_capacity_ok by done. cbn [seq_ done_ res_bind].
  rewrite set_capacity_ok by done. cbn [seq_ done_ res_bind]. rewrite set_capacity_ok by done. cbn [seq_ done_ res_bind]. unfold pick.
  destruct st, d as [? ? [?|] [?|] [?|] [?|] [?|]]; done.
Qed.

(** A capacity that does not fit an int is thrown where nobody catches it: with
    errors that should only be printed, the statement throws. *)
Theorem capacity_out_of_range_escapes st : handleStatement false st (T "<gengodb://sparql/settings/capacity> 2147483648") None = Ok (st, Failed (T "stoi")).
Proof. reflexivity. Qed.

(** With the empty prefix no directive is recognised: the word boundary before
    the colon asks for a letter there. *)
Theorem empty_prefix_is_ignored : settingsLabel (T "PREFIX : <gengodb://sparql/settings/> :capacity 7 ; :persists true") = Some [] ∧
  detectSettingsDirectives (T "PREFIX : <gengodb://sparql/settings/> :capacity 7 ; :persists true") = Ok None ∧
  detectSettingsDirectives (T "PREFIX s: <gengodb://sparql/settings/> s:capacity 7 ; s:persists true") = Ok (Some (mkDirectives true false None (Some 7) None None None)).
Proof. split_and!; vm_compute; reflexivity. Qed.

(** A graph under the name of the index is replaced by it: the pointer that the
    engine keeps dangles, and the next [initialize] uses it. *)
Theorem index_replaces_graph st st1 : ENTRY_NAME ∈ loadedGraphs st → shouldPersist (es_catalog st) = false → rebuildIndex z st = Ok (st1, None) → rebuildIndex z st1 = Fault BadAccess.
Proof.
  intros Hin Hp E. unfold rebuildIndex in E. apply res_bind_ok in E as (views & Hv & E). destruct (build views) as [index|f] eqn:Eb; [|by destruct f]. cbn [try_] in E. unfold insertEntry in E. cbn [getName] in E.
  assert (∀ c l, getRdfEntry (mkCatalog (shouldPersist (es_catalog st)) c (filter (λ x, x.1 ≠ ENTRY_NAME) l ++ [(ENTRY_NAME, NodeIndexEntry index)])) ENTRY_NAME = None) as Hgone.
  { intros c l. unfold getRdfEntry, getEntry. simpl. induction l as [|[n e] l IH]; [done|]. rewrite filter_cons. case_decide as Hne; [|done]. simpl in Hne |- *. by rewrite bool_decide_false. }
  assert (∀ c, (∃ l, entries c = filter (λ x, x.1 ≠ ENTRY_NAME) l ++ [(ENTRY_NAME, NodeIndexEntry index)]) → getRdfEntry c ENTRY_NAME = None) as Hgone2.
  { intros c [l El]. specialize (Hgone (cat_dbDir c) l). unfold getRdfEntry, getEntry in *. simpl in Hgone. by rewrite El. }
  assert (∃ l, entries (es_catalog st1) = filter (λ x, x.1 ≠ ENTRY_NAME) l ++ [(ENTRY_NAME, NodeIndexEntry index)]) as Hent.
  { destruct (getEntry (es_catalog st) ENTRY_NAME) eqn:Eg; cbn [res_bind entry_setDBDir entry_setShouldPersist try_] in E; injection E as <-; cbn [es_catalog set_fs_catalog entries]; [by eexists|].
    exists (entries (es_catalog st)). f_equal. unfold getEntry in Eg. symmetry. induction (entries (es_catalog st)) as [|[n e] l IH]; [done|]. simpl in Eg. case_bool_decide as Hne; [done|]. rewrite filter_cons_True by done. by rewrite IH. }
  assert (loadedGraphs st1 = loadedGraphs st) as El by (destruct (getEntry (es_catalog st) ENTRY_NAME); cbn [res_bind entry_setDBDir entry_setShouldPersist try_] in E; by injection E as <-).
  unfold rebuildIndex. rewrite El. assert (∀ names, ENTRY_NAME ∈ names → loaded_views z (es_catalog st1) names = Fault BadAccess) as ->; [|done|done].
  intros names Hn. induction names as [|n names IH]; [by apply elem_of_nil in Hn|]. simpl. destruct (getRdfEntry (es_catalog st1) n) as [[g f]|] eqn:Eg; [|done].
  apply elem_of_cons in Hn as [<-|Hn]; [by rewrite Hgone2 in Eg|]. by rewrite IH.
Qed.
End settings.

(** ** Witnesses *)

Definition sample_content : bytes := String.list_byte_of_string "a:s a:p a:o {0.5} .".
Definition sample_turtle : text := T "a:s a:p a:o       .".
Definition sample_fs : Fs := mkFs {["db/f.fttl"%string := (sample_content, 1)]} ∅ 2.
Definition sample_engine : EngineState := mkEngine sample_fs (mkCatalog false "db/" []) "db/" [] [] 16 8 8.
Definition sample_load : text := T " load <file://f.fttl> into graph <http://x/g> ".
Definition sample_triple : Node * Node * Node := (sample_s, sample_p, NodeIRI "http://x/o").

Lemma sample_load_form : load_form (trim sample_load) (T "file://" ++ T "f" ++ T ".fttl") (T "http://x/g").
Proof. apply matchLoad_iff. vm_compute. reflexivity. Qed.

Lemma load_statement_exact_witness :
  ∃ st' g, getRdfEntry (es_catalog st') "g" = Some (g, FFUZZY_TURTLE) ∧ holds_triples NtIRI g [sample_triple] [0x3f000000] ∧ loadedGraphs st' = ["g"%string].
Proof.
  destruct (load_statement_exact NtIRI 7 (λ _ _ _, []) (λ _ _, [Some sample_triple]) SPO id (λ _, None) (λ _, 0) (λ _, None) (λ _ _, Fault BadAccess) (λ _ _, inr ([], false)) (λ _ _, inr []) true
    sample_engine sample_load (T "f") (T "http://x/g") sample_content 1 sample_turtle [sample_triple] [0x3f000000]) as (st' & g & _ & H1 & H2 & H3 & _).
  - exact sample_load_form.
  - reflexivity.
  - reflexivity.
  - reflexivity.
  - reflexivity.
  - vm_compute; congruence.
  - vm_compute; reflexivity.
  - apply not_elem_of_empty.
  - vm_compute; reflexivity.
  - vm_compute; reflexivity.
  - reflexivity.
  - congruence.
  - reflexivity.
  - simpl; lia.
  - simpl; lia.
  - simpl; lia.
  - apply loads_cons; [reflexivity|reflexivity| |intros; apply loads_nil]. split; [exact I|]. split; [vm_compute; congruence|right; vm_compute; reflexivity].
  - exists st', g. split; [exact H1|]. split; [exact H2|exact H3].
Defined.

(** ** The settings directive "persists": the graphs of the session are kept *)

(** ** Turning persistence on *)

Definition with_persist (g : RdfGraph) : RdfGraph :=
  mkRdf (rg_iri g) (rg_storage g) (rg_nodes g) (literalNodes g) true (rg_fileName g) (sourceFileName g) (rg_dbDir g) (loadedFromRdfFile g) (rdfParseFlags g) (fuzzy g) (rg_loaded g).
Definition persisting (e : CatalogEntry) : CatalogEntry :=
  match e with RdfEntry name g format => RdfEntry name (with_persist g) format | NodeIndexEntry _ => e end.

Lemma persist_entries_flush fs l : persist_entries fs true l = (let* fs' := flush_entries fs l in Ok (fs', prod_map id persisting <$> l)).
Proof.
  revert fs. induction l as [|[n e] l IH]; intros fs; [done|]. cbn [persist_entries flush_entries]. destruct e as [name g f|index].
  - cbn [entry_setShouldPersist entry_flush]. unfold rdf_setPersist. change (rdf_flush fs (mkRdf _ _ _ _ _ _ _ _ _ _ _ _)) with (rdf_flush fs g). destruct (rdf_flush fs g) as [fs1|]; [|done]. cbn [res_bind]. rewrite IH. by destruct (flush_entries fs1 l).
  - cbn [entry_setShouldPersist entry_flush res_bind]. rewrite IH. by destruct (flush_entries fs l).
Qed.

Section keep.
Context (z : RDFNodeType) (Turtle : Z).

Lemma keepable_later fs fs' dir name format g s : keepable z Turtle fs dir name format g s → fs_denied fs' = fs_denied fs → fs_now fs' = fs_now fs →
  (∀ p c t, fs_files fs' !! p = Some (c, t) → fs_files fs !! p = Some (c, t) ∨ t = fs_now fs) → keepable z Turtle fs' dir name format (with_persist g) s.
Proof.
  intros [HI [S1 S2 S3 S4] Hn Hf Hfr Hc Hfm Hfre Ho] Hd Hnow Hold. split; try done.
  - by eapply RdfInv_same; [..|exact HI].
  - intros c t Hct. rewrite Hnow. destruct (Hold _ _ _ Hct) as [H| ->]; [by eapply Hfre|lia].
  - by rewrite Hd.
Qed.
Lemma entries_keepable_later fs fs' dir l : Forall (entry_keepable z Turtle fs dir) l → fs_denied fs' = fs_denied fs → fs_now fs' = fs_now fs →
  (∀ p c t, fs_files fs' !! p = Some (c, t) → fs_files fs !! p = Some (c, t) ∨ t = fs_now fs) → Forall (entry_keepable z Turtle fs' dir) (prod_map id persisting <$> l).
Proof.
  intros Hl E1 E2 E4. apply Forall_fmap. eapply Forall_impl; [exact Hl|]. intros [n [name g f|index]] [Hn He]; split; try done. destruct He as [s Hk]. exists s. by eapply keepable_later.
Qed.
Lemma persisting_twice (l : list (string * CatalogEntry)) : prod_map id persisting <$> (prod_map id persisting <$> l) = prod_map id persisting <$> l.
Proof. rewrite <- list_fmap_compose. apply list_fmap_ext. intros i [n [name g f|index]] _; done. Qed.

Lemma same_entry_persisting a b : same_entry z (prod_map id persisting a) b → same_entry z a b.
Proof.
  destruct a as [n [name g f|index]], b as [n' [name' g' f'|index']]; try done. intros [E (En & Ef & (s & HI & HI') & Hd & Hl & Hden)]. split; [done|]. split_and!; try done. exists s. split; [|done]. by eapply RdfInv_same; [..|exact HI].
Qed.
Lemma same_entry_lookup l l' n : Forall2 (same_entry z) l l' → is_Some (getRdfEntry (mkCatalog false "" l) n) → is_Some (getRdfEntry (mkCatalog false "" l') n).
Proof.
  unfold getRdfEntry, getEntry. cbn [entries]. induction 1 as [|[m e] [m' e'] l l' [E He] _ IH]; [done|]. cbn [lookup_entry]. simpl in E. subst m'. case_bool_decide; [|done]. by destruct e, e'.
Qed.
End keep.

(** C9. The directive [persists] on a catalogue whose graphs can be kept
    ([entry_keepable]: among other things no relationship slot is free, the
    records fit the format and the source is not newer than the clock).  It does
    not fail, the same graphs are loaded afterwards, and every entry of the
    session's catalogue is as before: the same multigraph, terms, ids and cache
    of literals.  A later start on the files that are left then opens a
    catalogue with the same entries again. *)
Theorem persists_keeps_graphs z Turtle code decode RDFFileParser IStreamQuadIterator ord relational_deserialize st :
  let c := es_catalog st in
  (∀ t, decode (code t) = Some t) → (∀ t, in_u 8 (code t)) → cat_dbDir c = es_dbDir st →
  Forall (entry_keepable z Turtle (es_fs st) (es_dbDir st)) (entries c) → NoDup (entries c).*1 → fits_size (length (entries c)) → Forall short (entries c).*1 →
  Forall (λ n, is_Some (getRdfEntry c n)) (loadedGraphs st) →
  ∃ st', persistAll z Turtle code decode RDFFileParser IStreamQuadIterator ord relational_deserialize st = Ok (st', None) ∧
    loadedGraphs st' = loadedGraphs st ∧ Forall2 (same_entry z) (entries c) (entries (es_catalog st')) ∧
    (∃ c', create z Turtle decode RDFFileParser IStreamQuadIterator ord relational_deserialize (es_fs st') (es_dbDir st) true = Ok c' ∧ Forall2 (same_entry z) (entries c) (entries c')) ∧
    nodeCapacity st' = nodeCapacity st ∧ relCapacity st' = relCapacity st ∧ propCapacity st' = propCapacity st ∧ es_defaultGraph st' = es_defaultGraph st.
Proof.
  intros c Hdec Hu8 Hdir Hl Hnd Hlen Hsh Hld. destruct (flush_entries_ok z Turtle (es_fs st) (es_dbDir st) (entries c) (es_fs st) Hl Hnd eq_refl eq_refl) as (fs1 & Hfl1 & [Hn1 Hd1 _ Ho1] & _).
  set (l1 := prod_map id persisting <$> entries c). set (c1 := mkCatalog true (cat_dbDir c) l1).
  assert (setShouldPersist (es_fs st) c true = Ok (fs1, c1)) as E1 by (unfold setShouldPersist; rewrite persist_entries_flush, Hfl1; done).
  assert (l1.*1 = (entries c).*1) as Efst by (unfold l1; rewrite <- list_fmap_compose; done).
  pose proof (entries_keepable_later z Turtle _ _ _ _ Hl Hd1 Hn1 Ho1) as Hl1. fold l1 in Hl1.
  assert (∀ fs, Forall (entry_keepable z Turtle fs (es_dbDir st)) l1 → ∃ fs' c', persist code fs c1 = Ok fs' ∧ fs_denied fs' = fs_denied fs ∧ fs_now fs' = fs_now fs ∧
    (∀ p x t, fs_files fs' !! p = Some (x, t) → fs_files fs !! p = Some (x, t) ∨ t = fs_now fs) ∧
    create z Turtle decode RDFFileParser IStreamQuadIterator ord relational_deserialize fs' (es_dbDir st) true = Ok c' ∧ Forall2 (same_entry z) (entries c) (entries c')) as Hreopen.
  { intros fs Hfs. destruct (catalog_reopens z Turtle code decode RDFFileParser IStreamQuadIterator ord relational_deserialize fs c1) as (fs' & c' & E & H1 & H2 & H3 & H4 & _ & Hsame); try done.
    1: by rewrite <- Hdir in Hfs. 1,3: cbn [c1 entries]; by rewrite Efst. 1: cbn [c1 entries]; unfold l1; by rewrite length_fmap.
    exists fs', c'. cbn [c1 cat_dbDir] in H4. rewrite Hdir in H4. split_and!; try done. cbn [c1 entries] in Hsame. unfold l1 in Hsame. rewrite Forall2_fmap_l in Hsame.
    eapply Forall2_impl; [exact Hsame|]. intros a b. apply same_entry_persisting. }
  destruct (Hreopen fs1 Hl1) as (fs2 & c' & E2 & Hd2 & Hn2 & Ho2 & E3 & Hsame').
  pose proof (entries_keepable_later z Turtle _ _ _ _ Hl1 Hd2 Hn2 Ho2) as Hl2. unfold l1 in Hl2. rewrite persisting_twice in Hl2. fold l1 in Hl2.
  destruct (Hreopen fs2 Hl2) as (fs4 & c'' & E4 & _ & _ & _ & E5 & Hsame2).
  unfold persistAll. fold c. rewrite E1. cbn [try_]. rewrite E2. cbn [try_ es_dbDir set_fs_catalog]. rewrite E3. cbn [try_]. rewrite E4. cbn [res_bind].
  eexists. split; [done|]. split_and!; try done; [|by exists c'']. cbn [loadedGraphs set_loadedGraphs set_fs_catalog]. induction Hld as [|n names Hn _ IH]; [done|]. rewrite filter_cons_True; [by rewrite IH|].
  apply (same_entry_lookup z _ (entries c') n) in Hsame'; done.
Qed.

Definition sample_session : EngineState := mkEngine sample_disk (mkCatalog false "db" (entries sample_catalog)) "db" ["g"%string] [] 16 8 8.

Lemma persists_keeps_graphs_witness :
  ∃ st', persistAll NtIRI 0 sample_code sample_decode (λ _ _ _, []) (λ _ _, []) SPO (λ _ _, Fault BadAccess) sample_session = Ok (st', None) ∧
    loadedGraphs st' = ["g"%string] ∧ Forall2 (same_entry NtIRI) (entries sample_catalog) (entries (es_catalog st')) ∧
    ∃ c', create NtIRI 0 sample_decode (λ _ _ _, []) (λ _ _, []) SPO (λ _ _, Fault BadAccess) (es_fs st') "db" true = Ok c' ∧ Forall2 (same_entry NtIRI) (entries sample_catalog) (entries c').
Proof.
  destruct (persists_keeps_graphs NtIRI 0 sample_code sample_decode (λ _ _ _, []) (λ _ _, []) SPO (λ _ _, Fault BadAccess) sample_session) as (st' & H1 & H2 & H3 & H4 & _).
  - intros []; reflexivity.
  - intros []; vm_compute; split; congruence.
  - reflexivity.
  - exact sample_entries_keepable.
  - apply NoDup_cons; split; [|apply NoDup_singleton]. intros H%list_elem_of_singleton. discriminate H.
  - vm_compute; reflexivity.
  - repeat constructor.
  - repeat constructor. eexists. reflexivity.
  - exists st'. split; [exact H1|]. split; [exact H2|]. split; [exact H3|exact H4].
Defined.
