(* ===== verification/SparqlLexer.v ===== *)
(** * The tokenizer of SPARQL queries

    Model of [TK], [Token] and [Tokenizer] of
    include/gengodb/compiler/frontend/SparqlMLIRTranslator.h.  The state of the
    tokenizer is the text behind the position, and the line. *)

From S2P Require Import Prelude Serialization GraphDataOps FuzzyTurtle SparqlText.
From Stdlib Require Import Strings.Ascii.
From Stdlib Require Strings.String.
#[local] Open Scope Z_scope.
#[local] Open Scope list_scope.

Module TK.
Inductive t :=
  | Eof | IRI | PrefixedName | Var | BlankNode
  | Keyword | LBrace | RBrace | Dot | Comma | Semicolon
  | Star | LeftParen | RightParen | StringLit | Colon | Unknown
  | Number | Eq | Neq | Lt | Lte | Gt | Gte | AndAnd | OrOr | Bang | DoubleCaret
  | Plus | Minus | Slash.
#[global] Instance eq_dec : EqDecision t.
Proof. solve_decision. Defined.
End TK.

Record Token := mkToken { kind : TK.t; value : text; tok_line : Z }.
#[global] Instance Token_eq_dec : EqDecision Token.
Proof. solve_decision. Defined.

Definition txt (s : string) : text := String.list_ascii_of_string s.

Record Tokenizer := mkTz { left : text; line : Z }.

(** [adv] counts the lines. *)
Definition bump (c : ascii) (line : Z) : Z := if eqc c newline then line + 1 else line.

(** [skipWS]; [comment] says that the loop over a comment is running, which the
    newline ends. *)
Fixpoint skipWS (comment : bool) (s : text) (line : Z) : Tokenizer :=
  match s with
  | [] => mkTz [] line
  | c :: r =>
      if comment then (if eqc c newline then skipWS false r (line + 1) else skipWS true r line)
      else if isspace c then skipWS false r (bump c line)
      else if eqc c "#" then skipWS true r line
      else mkTz s line
  end.

(** The longest prefix whose characters satisfy [p]; none is a newline. *)
Fixpoint take_while (p : ascii → bool) (s : text) : text * text :=
  match s with
  | [] => ([], [])
  | c :: r => if p c then let '(a, b) := take_while p r in (c :: a, b) else ([], s)
  end.

(** [readUntil], for an end that is no newline. *)
Fixpoint readUntil (e : ascii) (s : text) (line : Z) : text * Tokenizer :=
  match s with
  | [] => ([], mkTz [] line)
  | c :: r => if eqc c e then ([], mkTz r line) else let '(a, z) := readUntil e r (bump c line) in (c :: a, z)
  end.

(** [readStr]: behind a backslash at the end of the text the terminating zero of
    the string is read. *)
Fixpoint readStr (d : ascii) (s : text) (line : Z) : text * Tokenizer :=
  match s with
  | [] => ([], mkTz [] line)
  | c :: r =>
      if eqc c d then ([], mkTz r line)
      else if eqc c backslash then
        match r with
        | [] => ([chr 0], mkTz [] line)
        | c' :: r' => let '(a, z) := readStr d r' (bump c' line) in (c' :: a, z)
        end
      else let '(a, z) := readStr d r (bump c line) in (c :: a, z)
  end.

Definition isNameChar (c : ascii) : bool := isalnum c || oneof ["_"; "-"]%char c.
Definition isLocalChar (c : ascii) : bool := isalnum c || oneof ["_"; "-"; "."; "/"; "#"; "@"]%char c.
Definition isVarChar (c : ascii) : bool := isalnum c || eqc c "_".

(** Dots at the end of a local name are dropped, though they are consumed. *)
Fixpoint drop_dots (l : text) : text :=
  match l with
  | [] => []
  | c :: l => match drop_dots l with [] => if eqc c "." then [] else [c] | l' => c :: l' end
  end.

Definition readIdent (s : text) (line : Z) : Token * Tokenizer :=
  let '(name, r) := take_while isNameChar s in
  match r with
  | c :: r' =>
      if eqc c ":" && negb (match r' with c' :: _ => eqc c' ":" | [] => false end) then
        let '(local, r'') := take_while isLocalChar r' in
        (mkToken TK.PrefixedName (name ++ ":"%char :: drop_dots local) line, mkTz r'' line)
      else (mkToken TK.Keyword (toupper <$> name) line, mkTz r line)
  | [] => (mkToken TK.Keyword (toupper <$> name) line, mkTz [] line)
  end.

(** Whether the text behind a "<" is an IRI. *)
Fixpoint iri_ahead (s : text) : bool :=
  match s with
  | [] => false
  | c :: r => if eqc c ">" then true else if isspace c || oneof ["<"; quote2; "{"; "}"; "|"; "^"; "`"; backslash]%char c then false else iri_ahead r
  end.

Definition single (c : ascii) : option TK.t :=
  if eqc c ":" then Some TK.Colon else if eqc c "{" then Some TK.LBrace else if eqc c "}" then Some TK.RBrace else if eqc c "." then Some TK.Dot
  else if eqc c "," then Some TK.Comma else if eqc c ";" then Some TK.Semicolon else if eqc c "*" then Some TK.Star else if eqc c "(" then Some TK.LeftParen
  else if eqc c ")" then Some TK.RightParen else if eqc c "=" then Some TK.Eq else None.
Definition late_single (c : ascii) : option TK.t :=
  if eqc c "+" then Some TK.Plus else if eqc c "-" then Some TK.Minus else if eqc c "/" then Some TK.Slash else None.

Definition head_is (c : ascii) (s : text) : bool := match s with x :: _ => eqc x c | [] => false end.
Definition head_digit (s : text) : bool := match s with x :: _ => isdigit x | [] => false end.

(** A one-character operator that "=" may follow. *)
Definition with_eq (r : text) (line : Z) (one two : TK.t) (c : ascii) : Token * Tokenizer :=
  if head_is "=" r then (mkToken two [c; "="%char] line, mkTz (tail r) line) else (mkToken one [c] line, mkTz r line).

Definition readNumber (s : text) (line : Z) : Token * Tokenizer :=
  let '(n, r) := take_while isdigit s in
  if head_is "." r && head_digit (tail r) then
    let '(m, r') := take_while isdigit (tail r) in (mkToken TK.Number (n ++ "."%char :: m) line, mkTz r' line)
  else (mkToken TK.Number n line, mkTz r line).

(** [next]. *)
Definition next (z : Tokenizer) : Token * Tokenizer :=
  let '(mkTz s line) := skipWS false (left z) (line z) in
  match s with
  | [] => (mkToken TK.Eof [] line, mkTz [] line)
  | c :: r =>
      if eqc c "<" then
        if iri_ahead r then let '(v, z') := readUntil ">" r line in (mkToken TK.IRI v (SparqlLexer.line z'), z')
        else with_eq r line TK.Lt TK.Lte c
      else if eqc c quote2 || eqc c "'" then let '(v, z') := readStr c r line in (mkToken TK.StringLit v (SparqlLexer.line z'), z')
      else if eqc c "?" || eqc c "$" then let '(n, r') := take_while isVarChar r in (mkToken TK.Var n line, mkTz r' line)
      else if eqc c "_" && head_is ":" r then let '(n, r') := take_while isNameChar (tail r) in (mkToken TK.BlankNode n line, mkTz r' line)
      else
        match single c with
        | Some k => (mkToken k [c] line, mkTz r line)
        | None =>
            if eqc c "!" then with_eq r line TK.Bang TK.Neq c
            else if eqc c ">" then with_eq r line TK.Gt TK.Gte c
            else if eqc c "&" && head_is "&" r then (mkToken TK.AndAnd [c; c] line, mkTz (tail r) line)
            else if eqc c "|" && head_is "|" r then (mkToken TK.OrOr [c; c] line, mkTz (tail r) line)
            else if eqc c "^" && head_is "^" r then (mkToken TK.DoubleCaret [c; c] line, mkTz (tail r) line)
            else
              match late_single c with
              | Some k => (mkToken k [c] line, mkTz r line)
              | None =>
                  if isdigit c then readNumber s line
                  else if isalpha c || eqc c "_" then readIdent s line
                  else (mkToken TK.Unknown [c] line, mkTz r line)
              end
        end
  end.
Definition peek (z : Tokenizer) : Token := fst (next z).

(** ** Progress *)

Lemma take_while_length p s : (length (take_while p s).2 ≤ length s)%nat.
Proof. induction s as [|c s IH]; [done|]. simpl. destruct (p c); [|done]. destruct (take_while p s). simpl in *. lia. Qed.
Lemma skipWS_length b s l : (length (left (skipWS b s l)) ≤ length s)%nat.
Proof.
  revert b l. induction s as [|c s IH]; intros b l; [done|]. simpl.
  destruct b; [destruct (eqc c newline); (etrans; [apply IH|]; lia)|]. destruct (isspace c); [etrans; [apply IH|]; lia|]. destruct (eqc c "#"); [etrans; [apply IH|]; lia|done].
Qed.
Lemma readUntil_length e s l : (length (left (readUntil e s l).2) ≤ length s)%nat.
Proof. revert l. induction s as [|c s IH]; intros l; [done|]. simpl. destruct (eqc c e); simpl; [lia|]. specialize (IH (bump c l)). destruct (readUntil e s (bump c l)). simpl in *. lia. Qed.
Lemma readStr_length d s l : (length (left (readStr d s l).2) ≤ length s)%nat.
Proof.
  remember (length s) as n eqn:Hn. revert s l Hn. induction (lt_wf n) as [n _ IH]. intros s l ->. destruct s as [|c s]; [done|]. simpl. destruct (eqc c d); [simpl; lia|]. destruct (eqc c backslash).
  - destruct s as [|c' s]; [simpl; lia|]. specialize (IH (length s) ltac:(simpl; lia) s (bump c' l) eq_refl). destruct (readStr d s (bump c' l)). simpl in *. lia.
  - specialize (IH (length s) ltac:(simpl; lia) s (bump c l) eq_refl). destruct (readStr d s (bump c l)). simpl in *. lia.
Qed.

Lemma tail_length (s : text) : (length (tail s) ≤ length s)%nat.
Proof. destruct s; simpl; lia. Qed.

(** A token other than the end consumes a character; at the end nothing is
    left. *)
Lemma next_progress z : let '(t, z') := next z in if decide (kind t = TK.Eof) then left z' = [] else (length (left z') < length (left z))%nat.
Proof.
  unfold next. pose proof (skipWS_length false (left z) (line z)) as Hs. destruct (skipWS false (left z) (line z)) as [s l]. simpl in Hs. destruct s as [|c r]; [by rewrite decide_True|].
  assert (∀ k v l' r', k ≠ TK.Eof → (length r' ≤ length r)%nat → if decide (kind (mkToken k v l') = TK.Eof) then left (mkTz r' l') = [] else (length (left (mkTz r' l')) < length (left z))%nat) as Hok.
  { intros k v l' r' Hk Hr. rewrite decide_False by done. simpl in *. lia. }
  pose proof (tail_length r) as Ht. assert (∀ one two, one ≠ TK.Eof → two ≠ TK.Eof → let '(t, z') := with_eq r l one two c in if decide (kind t = TK.Eof) then left z' = [] else (length (left z') < length (left z))%nat) as Hw.
  { intros one two H1 H2. unfold with_eq. destruct (head_is "=" r); by apply Hok. }
  destruct (eqc c "<").
  { destruct (iri_ahead r); [|by apply Hw]. pose proof (readUntil_length ">" r l) as H. destruct (readUntil ">" r l) as [v [r' l']]. simpl in H. by apply (Hok TK.IRI). }
  destruct (eqc c quote2 || eqc c "'").
  { pose proof (readStr_length c r l) as H. destruct (readStr c r l) as [v [r' l']]. simpl in H. by apply (Hok TK.StringLit). }
  destruct (eqc c "?" || eqc c "$"); [pose proof (take_while_length isVarChar r) as H; destruct (take_while isVarChar r) as [n r']; by apply Hok|].
  destruct (eqc c "_" && head_is ":" r); [pose proof (take_while_length isNameChar (tail r)) as H; destruct (take_while isNameChar (tail r)) as [n r']; apply Hok; [done|]; simpl in H; lia|].
  destruct (single c) as [k|] eqn:Es; [apply Hok; [|done]; intros ->; unfold single in Es; repeat case_match; done|].
  destruct (eqc c "!"); [by apply Hw|]. destruct (eqc c ">"); [by apply Hw|]. do 3 (destruct (_ && _); [by apply Hok|]).
  destruct (late_single c) as [k|] eqn:El; [apply Hok; [|done]; intros ->; unfold late_single in El; repeat case_match; done|].
  destruct (isdigit c) eqn:Ed.
  { unfold readNumber. pose proof (take_while_length isdigit r) as H. simpl. rewrite Ed. destruct (take_while isdigit r) as [n r']. simpl in H. destruct (head_is "." r' && head_digit (tail r')); [|by apply Hok].
    pose proof (take_while_length isdigit (tail r')) as H2. pose proof (tail_length r'). destruct (take_while isdigit (tail r')) as [m r'']. apply Hok; [done|]. simpl in H2. lia. }
  destruct (isalpha c || eqc c "_") eqn:Ea; [|by apply Hok]. unfold readIdent. assert (isNameChar c = true) as En.
  { unfold isNameChar, isalnum. destruct (isdigit c); [done|]. destruct (isalpha c); [done|]. simpl in *. by rewrite Ea. }
  simpl. rewrite En. pose proof (take_while_length isNameChar r) as H. destruct (take_while isNameChar r) as [n r']. simpl in H. destruct r' as [|c' r']; [by apply Hok; [|simpl; lia]|].
  destruct (eqc c' ":" && _); [|by apply Hok]. pose proof (take_while_length isLocalChar r') as H2. destruct (take_while isLocalChar r') as [loc r'']. apply Hok; [done|]. simpl in *. lia.
Qed.
