(* ===== verification/SparqlParser.v ===== *)
(** * Queries

    Model of the namespace [sparql] of
    include/gengodb/compiler/frontend/SparqlMLIRTranslator.h: terms, patterns,
    expressions and queries, the key that identifies an expression, and its free
    variables. *)

From S2P Require Import Prelude Datatypes GraphDataOps Serialization FuzzyTurtle SparqlText SparqlLexer.
From Stdlib Require Import Strings.Ascii.
From stdpp Require Import pretty.
#[local] Open Scope Z_scope.
#[local] Open Scope list_scope.

Inductive TermKind := KIri | KVariable | KBlankNode.
Record Term := mkTerm { term_kind : TermKind; term_value : text }.
Record Triple := mkTriple { tr_s : Term; tr_p : Term; tr_o : Term }.
#[global] Instance TermKind_eq_dec : EqDecision TermKind.
Proof. solve_decision. Defined.
#[global] Instance Term_eq_dec : EqDecision Term.
Proof. solve_decision. Defined.
#[global] Instance Triple_eq_dec : EqDecision Triple.
Proof. solve_decision. Defined.

Inductive CompareOp := OEq | ONeq | OLt | OLte | OGt | OGte.
Inductive ArithOp := OAdd | OSub | OMul | ODiv.
Inductive AggFn := Count | Sum | Avg | Min | Max | Sample | GroupConcat.
#[global] Instance CompareOp_eq_dec : EqDecision CompareOp.
Proof. solve_decision. Defined.
#[global] Instance ArithOp_eq_dec : EqDecision ArithOp.
Proof. solve_decision. Defined.
#[global] Instance AggFn_eq_dec : EqDecision AggFn.
Proof. solve_decision. Defined.

(** A null [arg] of an aggregate stands for "*". *)
Inductive Expr :=
  | VariableExpr (name : text)
  | LiteralExpr (lexicalForm : text) (xsdType : Type_) (datatypeIri : text)
  | NotExpr (operand : Expr)
  | AndExpr (operands : list Expr)
  | OrExpr (operands : list Expr)
  | CompareExpr (op : CompareOp) (lhs rhs : Expr)
  | ArithExpr (op : ArithOp) (lhs rhs : Expr)
  | NegateExpr (operand : Expr)
  | FunctionCallExpr (name : text) (args : list Expr)
  | CastExpr (operand : Expr) (targetType : option Type_) (isLangCast : bool)
  | AggregateExpr (fn : AggFn) (distinct : bool) (arg : option Expr) (separator : text).

(** [threshold] is the bit pattern of a float. *)
Inductive PatternElement :=
  | GraphPattern (graphUri : text) (triples : list Triple)
  | GroupPattern (patterns : list PatternElement)
  | OptionalPattern (patterns : list PatternElement)
  | TruthPattern (variable : option text) (threshold : option Z) (normIri : option text) (patterns : list PatternElement)
  | UnionPattern (branches : list (list PatternElement))
  | FilterPattern (expr : Expr).

Record GroupKey := mkGroupKey { gk_var : text; gk_expr : option Expr }.
Record OrderKey := mkOrderKey { ok_expr : Expr; ok_descending : bool }.
Record Query := mkQuery {
  prefixes : gmap text text; selectStar : bool; selectVars : list text; selectExprs : list (text * Expr); patterns : list PatternElement;
  groupBy : list GroupKey; having : list Expr; limit : option Z; offset : option Z; q_distinct : bool; orderBy : list OrderKey; hasAggregateCall : bool;
}.
Definition nonempty {A} (l : list A) : bool := match l with [] => false | _ => true end.
Definition hasAggregation (q : Query) : bool := nonempty (groupBy q) || nonempty (having q) || hasAggregateCall q.
Definition find_alias (l : list (text * Expr)) (alias : text) : option Expr := snd <$> find (λ se, bool_decide (se.1 = alias)) l.
Definition findSelectExpr (q : Query) (alias : text) : option Expr := find_alias (selectExprs q) alias.
Definition has_key_var (l : list GroupKey) (v : text) : bool := existsb (λ g, bool_decide (gk_var g = v)) l.
Definition isGroupKey (q : Query) (v : text) : bool := has_key_var (groupBy q) v.

(** Rule induction through the lists of operands. *)
Lemma Expr_rect' (P : Expr → Prop) :
  (∀ n, P (VariableExpr n)) → (∀ l t d, P (LiteralExpr l t d)) → (∀ e, P e → P (NotExpr e)) →
  (∀ l, Forall P l → P (AndExpr l)) → (∀ l, Forall P l → P (OrExpr l)) →
  (∀ o a b, P a → P b → P (CompareExpr o a b)) → (∀ o a b, P a → P b → P (ArithExpr o a b)) → (∀ e, P e → P (NegateExpr e)) →
  (∀ n l, Forall P l → P (FunctionCallExpr n l)) → (∀ e t b, P e → P (CastExpr e t b)) →
  (∀ f d a s, (∀ e, a = Some e → P e) → P (AggregateExpr f d a s)) → ∀ e, P e.
Proof.
  intros H1 H2 H3 H4 H5 H6 H7 H8 H9 H10 H11. fix IH 1.
  intros [n|l t d|e|l|l|o a b|o a b|e|n l|e t b|f d a s].
  - apply H1.
  - apply H2.
  - apply H3, IH.
  - apply H4. induction l as [|x l IHl]; constructor; [apply IH|exact IHl].
  - apply H5. induction l as [|x l IHl]; constructor; [apply IH|exact IHl].
  - apply H6; apply IH.
  - apply H7; apply IH.
  - apply H8, IH.
  - apply H9. induction l as [|x l IHl]; constructor; [apply IH|exact IHl].
  - apply H10, IH.
  - apply H11. destruct a as [x|]; [intros e [= <-]; exact (IH x)|intros e H; discriminate H].
Qed.

(** ** The key of an expression *)

(** [std::to_string]. *)
Definition num (z : Z) : text := txt (pretty z).
Definition aggFnName (fn : AggFn) : text :=
  match fn with
  | Count => txt "COUNT" | Sum => txt "SUM" | Avg => txt "AVG" | Min => txt "MIN" | Max => txt "MAX" | Sample => txt "SAMPLE" | GroupConcat => txt "GROUP_CONCAT"
  end.
Definition compare_code (op : CompareOp) : Z := match op with OEq => 0 | ONeq => 1 | OLt => 2 | OLte => 3 | OGt => 4 | OGte => 5 end.
Definition arith_code (op : ArithOp) : Z := match op with OAdd => 0 | OSub => 1 | OMul => 2 | ODiv => 3 end.

Definition cast_target (targetType : option Type_) (isLangCast : bool) : text :=
  if isLangCast then txt "lang" else match targetType with Some t => num (to_int32 t) | None => txt "str" end.

Fixpoint exprKey (e : Expr) : text :=
  match e with
  | VariableExpr name => txt "?" ++ name
  | LiteralExpr lexicalForm xsdType datatypeIri =>
      txt "lit(" ++ num (Z.of_nat (length lexicalForm)) ++ txt ":" ++ lexicalForm ++ txt "^" ++ num (to_int32 xsdType) ++ txt "^" ++ datatypeIri ++ txt ")"
  | NotExpr o => txt "not(" ++ exprKey o ++ txt ")"
  | NegateExpr o => txt "neg(" ++ exprKey o ++ txt ")"
  | AndExpr ops => txt "and(" ++ concat (map (λ o, exprKey o ++ txt ",") ops) ++ txt ")"
  | OrExpr ops => txt "or(" ++ concat (map (λ o, exprKey o ++ txt ",") ops) ++ txt ")"
  | CompareExpr op l r => txt "cmp" ++ num (compare_code op) ++ txt "(" ++ exprKey l ++ txt "," ++ exprKey r ++ txt ")"
  | ArithExpr op l r => txt "arith" ++ num (arith_code op) ++ txt "(" ++ exprKey l ++ txt "," ++ exprKey r ++ txt ")"
  | FunctionCallExpr name args => txt "fn:" ++ name ++ txt "(" ++ concat (map (λ o, exprKey o ++ txt ",") args) ++ txt ")"
  | CastExpr o t b => txt "cast:" ++ cast_target t b ++ txt "(" ++ exprKey o ++ txt ")"
  | AggregateExpr fn distinct arg separator =>
      txt "agg(" ++ aggFnName fn ++ (if distinct then txt "|distinct|" else txt "|all|") ++ (match arg with Some a => exprKey a | None => txt "*" end) ++
      (match fn with GroupConcat => txt "|sep:" ++ separator | _ => [] end) ++ txt ")"
  end.
(** [AggregateExpr::key]. *)
Definition aggregate_key (fn : AggFn) (distinct : bool) (arg : option Expr) (separator : text) : text :=
  aggFnName fn ++ (if distinct then txt "|distinct|" else txt "|all|") ++ (match arg with Some a => exprKey a | None => txt "*" end) ++
  (match fn with GroupConcat => txt "|sep:" ++ separator | _ => [] end).

(** [forEachFreeVariable]: the variables it visits, in order. *)
Fixpoint freeVariables (e : Expr) : list text :=
  match e with
  | VariableExpr name => [name]
  | LiteralExpr _ _ _ | AggregateExpr _ _ _ _ => []
  | NotExpr o | NegateExpr o | CastExpr o _ _ => freeVariables o
  | AndExpr ops | OrExpr ops | FunctionCallExpr _ ops => concat (map freeVariables ops)
  | CompareExpr _ l r | ArithExpr _ l r => freeVariables l ++ freeVariables r
  end.

(** ** The parser of SPARQL queries

    Model of [Parser] of
    include/gengodb/compiler/frontend/SparqlMLIRTranslator.h: recursive descent
    over the tokens with one token of look-ahead ([tok]), two flags for
    aggregates, and exceptions.

    A parser maps the state to a value and a state, to an exception, or to
    [PFuel].  The recursion of the code is bounded by fuel: a function that calls
    itself through other functions takes the recursive call as an argument
    ([rec]), the loops take the number of iterations.  [SparqlParserProps] shows
    how much is enough.  [iri_error] is what the constructor of [rdf4cpp::IRI]
    throws for a text, if it does. *)

Record PState := mkPS { tz : Tokenizer; tok : Token; aggregatesAllowed : bool; sawAggregate : bool }.

(** [unsupported] tells [UnsupportedFeatureError] from the other errors. *)
Inductive pres (A : Type) := POk (a : A) (st : PState) | PThrow (unsupported : bool) (what : text) | PFuel.
Arguments POk {A} _ _.
Arguments PThrow {A} _ _.
Arguments PFuel {A}.
Definition PM (A : Type) : Type := PState → pres A.

Definition retP {A} (a : A) : PM A := λ st, POk a st.
Definition bindP {A B} (m : PM A) (k : A → PM B) : PM B :=
  λ st, match m st with POk a st' => k a st' | PThrow u w => PThrow u w | PFuel => PFuel end.
Definition throwP {A} (what : text) : PM A := λ _, PThrow false what.
Definition throwUnsupported {A} (what : text) : PM A := λ _, PThrow true what.
Definition fuelP {A} : PM A := λ _, PFuel.
Definition getP : PM PState := λ st, POk st st.

Declare Scope parse_scope.
Delimit Scope parse_scope with parse.
Notation "'let!' x := m 'in' k" := (bindP m (λ x, k)) (at level 10, x name, m at level 100, k at level 200) : parse_scope.
Notation "'let!' ' p := m 'in' k" := (bindP m (λ p, k)) (at level 10, p strict pattern, m at level 100, k at level 200) : parse_scope.
Notation "m1 ;; m2" := (bindP m1 (λ _, m2)) (at level 100, m2 at level 200, right associativity) : parse_scope.
#[local] Open Scope parse_scope.

(** ** Tokens *)

Definition advance : PM unit := λ st, let '(t, z) := next (tz st) in POk tt (mkPS z t (aggregatesAllowed st) (sawAggregate st)).
Definition allow (b : bool) : PM unit := λ st, POk tt (mkPS (tz st) (tok st) b (sawAggregate st)).
Definition setSaw : PM unit := λ st, POk tt (mkPS (tz st) (tok st) (aggregatesAllowed st) true).

Definition is_ (k : TK.t) (st : PState) : bool := bool_decide (kind (tok st) = k).
Definition kw (w : string) (st : PState) : bool := is_ TK.Keyword st && bool_decide (value (tok st) = txt w).
Definition val (st : PState) : text := value (tok st).
Definition at_line (st : PState) : text := num (tok_line (tok st)).
Definition got (st : PState) : text := txt ", got '" ++ val st ++ txt "'".

Definition eat (k : TK.t) : PM Token :=
  let! st := getP in
  if negb (is_ k st) then throwP (txt "Parse error at line " ++ at_line st ++ txt ": unexpected '" ++ val st ++ txt "'")
  else advance;; retP (tok st).
Definition eatKw (w : string) : PM unit :=
  let! st := getP in
  if negb (kw w st) then throwP (txt "Expected '" ++ txt w ++ txt "' at line " ++ at_line st ++ got st) else advance.
Definition atTruthOf (st : PState) : bool :=
  (is_ TK.Var st || is_ TK.Number st) && (let t := peek (tz st) in bool_decide (kind t = TK.Keyword) && bool_decide (value t = txt "TRUTH")).

(** The texts before and behind the first [c]. *)
Fixpoint split_first (c : ascii) (s : text) : option (text * text) :=
  match s with
  | [] => None
  | x :: s => if eqc x c then Some ([], s) else match split_first c s with Some (a, b) => Some (x :: a, b) | None => None end
  end.
Definition before_last (c : ascii) (s : text) : text :=
  match split_first c (rev s) with Some (_, b) => rev b | None => s end.
Fixpoint behind_last (p : ascii → bool) (s : text) : text :=
  match s with
  | [] => []
  | x :: r => if existsb p r then behind_last p r else if p x then r else s
  end.

Definition expandPrefix (raw : text) (pref : gmap text text) : text :=
  match split_first ":" raw with
  | None => raw
  | Some (label, rest) => match pref !! label with Some iri => iri ++ rest | None => raw end
  end.

Definition resolveXsdTypeFromIri (iri : text) : option Type_ := from_string (str_of (behind_last (oneof ["#"; "/"]%char) iri)).
Definition foldCastTargetType (t : Type_) : Type_ := match t with TInteger => TLong | TDecimal => TDouble | _ => t end.
Definition isSupportedCastTarget (t : Type_) : bool :=
  match t with
  | TBoolean | TByte | TShort | TInt | TLong | TUnsignedByte | TUnsignedShort | TUnsignedInt | TUnsignedLong | TFloat | TDouble => true
  | _ => false
  end.
Definition aggFnFromKeyword (w : text) : option AggFn := find (λ f, bool_decide (w = aggFnName f)) [Count; Sum; Avg; Min; Max; Sample; GroupConcat].

(** [std::stof] of the text of a number, digits with at most one dot: the errors
    are overflow, and underflow to an inexact subnormal number. *)
Definition stof (s : text) : option Z :=
  let '(m1, _, r) := digits 0 0 s in
  let '(m, k, _) := match r with _ :: r' => digits m1 0 r' | [] => (m1, O, []) end in
  let d := 10 ^ Z.of_nat k in
  if (m * 2 ^ 151 <? (2 ^ 25 - 1) * d) && negb ((m * 2 ^ 149) mod d =? 0) then None else float_of_decimal m (- Z.of_nat k).
(** [std::stoll]: the digits up to a dot. *)
Definition stoll (s : text) : option Z := let '(m, _, _) := digits 0 0 s in if m <? 2 ^ 63 then Some m else None.

Section Expressions.
Context (iri_error : text → option text) (pref : gmap text text).

(** ** Primary expressions *)

Section Primary.
(** [parseFilterExpr], and the bound of the loops. *)
Context (rec : PM Expr).

Definition parseAggregate (fn : AggFn) : PM Expr :=
  let! st := getP in
  if negb (aggregatesAllowed st) then
    throwP (txt "Aggregate " ++ val st ++ txt "() at line " ++ at_line st ++ txt " is only allowed in SELECT expressions, HAVING or ORDER BY (and cannot be nested)")
  else
    advance;; eat TK.LeftParen;;
    let! st1 := getP in
    (if kw "DISTINCT" st1 then advance else retP tt);;
    let! st2 := getP in
    let! arg :=
      (if is_ TK.Star st2 then
         if negb (bool_decide (fn = Count)) then throwP (txt "'*' is only allowed as argument of COUNT (line " ++ at_line st ++ txt ")") else advance;; retP None
       else allow false;; let! e := rec in allow true;; retP (Some e)) in
    let! st3 := getP in
    let! separator :=
      (if bool_decide (fn = GroupConcat) && is_ TK.Semicolon st3 then
         advance;; eatKw "SEPARATOR";; eat TK.Eq;;
         let! st4 := getP in
         if negb (is_ TK.StringLit st4) then throwP (txt "Expected string literal after SEPARATOR= at line " ++ at_line st4) else advance;; retP (val st4)
       else retP (txt " ")) in
    let! st5 := getP in
    if negb (is_ TK.RightParen st5) then
      throwP (txt "Parse error in aggregate " ++ val st ++ txt "() at line " ++ at_line st ++ txt ": unexpected '" ++ val st5 ++ txt "'")
    else advance;; setSaw;; retP (AggregateExpr fn (kw "DISTINCT" st1) arg separator).

(** The arguments behind the first: [while (is(Comma)) ...]. *)
Fixpoint args_loop (n : nat) (args : list Expr) : PM (list Expr) :=
  match n with
  | O => fuelP
  | S n => let! st := getP in if is_ TK.Comma st then advance;; let! e := rec in args_loop n (args ++ [e]) else retP args
  end.

(** The datatype behind a string. *)
Definition parse_string (s : text) : PM Expr :=
  advance;;
  let! st := getP in
  if negb (is_ TK.DoubleCaret st) then retP (LiteralExpr s TString []) else
  advance;;
  let! st := getP in
  let! dtIri :=
    (if is_ TK.IRI st then advance;; retP (val st)
     else if is_ TK.PrefixedName st then advance;; retP (expandPrefix (val st) pref)
     else throwP (txt "Expected datatype IRI after '^^' at line " ++ at_line st)) in
  match iri_error dtIri with
  | Some what => throwP what
  | None =>
      let resolved := from_iri (Some (str_of dtIri)) in
      retP (if bool_decide (resolved = TAnyLiteralNode) then LiteralExpr s TAnyLiteralScalar dtIri else LiteralExpr s resolved [])
  end.

(** An IRI, or the cast to the type it names. *)
Definition parse_iri_or_cast (iri : text) (line : Z) : PM Expr :=
  advance;;
  let! st := getP in
  if negb (is_ TK.LeftParen st) then retP (LiteralExpr iri TAnyIRI []) else
  advance;;
  match resolveXsdTypeFromIri iri with
  | None => throwUnsupported (txt "Unsupported cast target datatype '" ++ iri ++ txt "' at line " ++ num line)
  | Some resolved =>
      let target := foldCastTargetType resolved in
      if negb (isSupportedCastTarget target) then
        match to_string resolved with
        | Ok name =>
            throwUnsupported (txt "Unsupported xsd cast target '" ++ txt name ++ txt "' at line " ++ num line ++
              txt " (only boolean/numeric xsd cast targets are currently supported; use STR() for string conversion)")
        | Fault _ => throwP (txt "out_of_range")
        end
      else let! e := rec in eat TK.RightParen;; retP (CastExpr e (Some target) false)
  end.

(** A keyword followed by arguments. *)
Definition parse_call (n : nat) : PM Expr :=
  let! st := getP in
  advance;;
  let! st1 := getP in
  if negb (is_ TK.LeftParen st1) then throwP (txt "Expected FILTER expression term at line " ++ at_line st ++ got st) else
  advance;;
  let! st2 := getP in
  let! args := (if is_ TK.RightParen st2 then retP [] else let! e := rec in args_loop n [e]) in
  eat TK.RightParen;; retP (FunctionCallExpr (val st) args).

Definition parsePrimary (n : nat) : PM Expr :=
  let! st := getP in
  match (if is_ TK.Keyword st && bool_decide (kind (peek (tz st)) = TK.LeftParen) then aggFnFromKeyword (val st) else None) with
  | Some fn => parseAggregate fn
  | None =>
      if is_ TK.LeftParen st then advance;; let! e := rec in eat TK.RightParen;; retP e
      else if is_ TK.Var st then advance;; retP (VariableExpr (val st))
      else if is_ TK.Number st then advance;; retP (LiteralExpr (val st) (if existsb (eqc ".") (val st) then TDecimal else TInteger) [])
      else if is_ TK.StringLit st then parse_string (val st)
      else if is_ TK.PrefixedName st || is_ TK.IRI st then
        parse_iri_or_cast (if is_ TK.IRI st then val st else expandPrefix (val st) pref) (tok_line (tok st))
      else if kw "STR" st || kw "LANG" st then
        advance;; eat TK.LeftParen;; let! e := rec in eat TK.RightParen;; retP (CastExpr e None (kw "LANG" st))
      else if kw "TRUE" st || kw "FALSE" st then
        advance;; retP (LiteralExpr (if kw "TRUE" st then txt "true" else txt "false") TBoolean [])
      else if kw "BOUND" st || kw "LANGMATCHES" st then
        advance;; eat TK.LeftParen;; let! e := rec in let! args := args_loop n [e] in eat TK.RightParen;;
        retP (FunctionCallExpr (if kw "BOUND" st then txt "BOUND" else txt "LANGMATCHES") args)
      else if is_ TK.Keyword st then parse_call n
      else throwP (txt "Expected FILTER expression term at line " ++ at_line st ++ got st)
  end.

(** ** Operators *)

Section Operators.
Context (loops : nat).

Fixpoint parseUnaryExpr (n : nat) : PM Expr :=
  match n with
  | O => fuelP
  | S n =>
      let! st := getP in
      if is_ TK.Bang st then advance;; let! e := parseUnaryExpr n in retP (NotExpr e)
      else if is_ TK.Minus st then advance;; let! e := parseUnaryExpr n in retP (NegateExpr e)
      else if is_ TK.Plus st then advance;; parseUnaryExpr n
      else parsePrimary loops
  end.

Fixpoint mul_loop (n : nat) (lhs : Expr) : PM Expr :=
  match n with
  | O => fuelP
  | S n =>
      let! st := getP in
      if is_ TK.Star st || is_ TK.Slash st then
        advance;; let! rhs := parseUnaryExpr loops in mul_loop n (ArithExpr (if is_ TK.Star st then OMul else ODiv) lhs rhs)
      else retP lhs
  end.
Definition parseMultiplicativeExpr : PM Expr := let! lhs := parseUnaryExpr loops in mul_loop loops lhs.

Fixpoint add_loop (n : nat) (lhs : Expr) : PM Expr :=
  match n with
  | O => fuelP
  | S n =>
      let! st := getP in
      if is_ TK.Plus st || is_ TK.Minus st then
        advance;; let! rhs := parseMultiplicativeExpr in add_loop n (ArithExpr (if is_ TK.Plus st then OAdd else OSub) lhs rhs)
      else retP lhs
  end.
Definition parseAdditiveExpr : PM Expr := let! lhs := parseMultiplicativeExpr in add_loop loops lhs.

Definition compare_op (k : TK.t) : option CompareOp :=
  match k with
  | TK.Eq => Some OEq | TK.Neq => Some ONeq | TK.Lt => Some OLt | TK.Lte => Some OLte | TK.Gt => Some OGt | TK.Gte => Some OGte | _ => None
  end.
Definition parseComparisonExpr : PM Expr :=
  let! lhs := parseAdditiveExpr in
  let! st := getP in
  match compare_op (kind (tok st)) with
  | None => retP lhs
  | Some op => advance;; let! rhs := parseAdditiveExpr in retP (CompareExpr op lhs rhs)
  end.

Fixpoint and_loop (n : nat) (operands : list Expr) : PM (list Expr) :=
  match n with
  | O => fuelP
  | S n => let! st := getP in if is_ TK.AndAnd st then advance;; let! e := parseComparisonExpr in and_loop n (operands ++ [e]) else retP operands
  end.
Definition parseAndFilterExpr : PM Expr :=
  let! first := parseComparisonExpr in
  let! st := getP in
  if negb (is_ TK.AndAnd st) then retP first else let! ops := and_loop loops [first] in retP (AndExpr ops).

Fixpoint or_loop (n : nat) (operands : list Expr) : PM (list Expr) :=
  match n with
  | O => fuelP
  | S n => let! st := getP in if is_ TK.OrOr st then advance;; let! e := parseAndFilterExpr in or_loop n (operands ++ [e]) else retP operands
  end.
Definition filter_body : PM Expr :=
  let! first := parseAndFilterExpr in
  let! st := getP in
  if negb (is_ TK.OrOr st) then retP first else let! ops := or_loop loops [first] in retP (OrExpr ops).
End Operators.
End Primary.

Fixpoint parseFilterExpr (n : nat) : PM Expr :=
  match n with
  | O => fuelP
  | S n => filter_body (parseFilterExpr n) (S n)
  end.

(** [parsePrimary] as the clauses of a query call it. *)
Definition primaryExpr (n : nat) : PM Expr := parsePrimary (parseFilterExpr n) n.

(** ** Graph patterns *)

Definition rdf_type : text := txt "http://www.w3.org/1999/02/22-rdf-syntax-ns#type".
Definition parseTerm : PM Term :=
  let! st := getP in
  if is_ TK.IRI st then advance;; retP (mkTerm KIri (val st))
  else if is_ TK.PrefixedName st then advance;; retP (mkTerm KIri (expandPrefix (val st) pref))
  else if is_ TK.Var st then advance;; retP (mkTerm KVariable (val st))
  else if is_ TK.BlankNode st then advance;; retP (mkTerm KBlankNode (val st))
  else if kw "A" st then advance;; retP (mkTerm KIri rdf_type)
  else throwP (txt "Expected RDF term at line " ++ at_line st ++ got st).

(** [while (is(Semicolon)) ...] and [while (is(Comma)) ...]. *)
Fixpoint semicolon_loop (n : nat) (s : Term) (out : list Triple) : PM (list Triple) :=
  match n with
  | O => fuelP
  | S n =>
      let! st := getP in
      if negb (is_ TK.Semicolon st) then retP out else
      advance;;
      let! st := getP in
      if is_ TK.Dot st || is_ TK.RBrace st || is_ TK.Eof st then retP out
      else let! p2 := parseTerm in let! o2 := parseTerm in semicolon_loop n s (out ++ [mkTriple s p2 o2])
  end.
Fixpoint comma_loop (n : nat) (s p : Term) (out : list Triple) : PM (list Triple) :=
  match n with
  | O => fuelP
  | S n =>
      let! st := getP in
      if negb (is_ TK.Comma st) then retP out else advance;; let! o := parseTerm in comma_loop n s p (out ++ [mkTriple s p o])
  end.

Definition ends_triples (st : PState) : bool :=
  is_ TK.RBrace st || is_ TK.Eof st || kw "GRAPH" st || kw "OPTIONAL" st || kw "FILTER" st || kw "UNION" st || kw "MINUS" st || kw "SERVICE" st ||
  kw "BIND" st || kw "VALUES" st || is_ TK.LBrace st || kw "FUZZY_NORM" st || atTruthOf st.
Definition skipDot : PM unit := let! st := getP in if is_ TK.Dot st then advance else retP tt.
Fixpoint parseTriples (n : nat) (out : list Triple) : PM (list Triple) :=
  match n with
  | O => fuelP
  | S m =>
      let! st := getP in
      if ends_triples st then retP out
      else if is_ TK.Dot st then advance;; parseTriples m out
      else
        let! s := parseTerm in let! p := parseTerm in let! o := parseTerm in
        let! out := semicolon_loop n s (out ++ [mkTriple s p o]) in
        let! out := comma_loop n s p out in
        skipDot;; parseTriples m out
  end.

(** An IRI that an error message asks for. *)
Definition expect_iri (what : string) : PM text :=
  let! st := getP in
  if is_ TK.IRI st then advance;; retP (val st)
  else if is_ TK.PrefixedName st then advance;; retP (expandPrefix (val st) pref)
  else throwP (txt "Expected " ++ txt what ++ txt " at line " ++ at_line st).

(** The pattern that starts a [TRUTH OF] block. *)
Definition truth_header (st : PState) : PM (option text * option Z) :=
  if is_ TK.Var st then retP (Some (val st), None)
  else
    match stof (val st) with
    | None => throwP (txt "stof")
    | Some bits =>
        if negb (in_unit bits) then throwP (txt "TRUTH OF threshold must be in [0, 1] at line " ++ at_line st)
        else retP (None, Some bits)
    end.

Definition unsupported_op (st : PState) : option string := find (λ op, kw op st) ["MINUS"; "SERVICE"; "BIND"; "VALUES"].

Section Group.
(** [parseGroup] of an active graph; the flag says that the pointer [fuzzyNorm]
    is not null. *)
Context (rec : text → bool → PM (list PatternElement * option text)).

Fixpoint union_loop (n : nat) (activeGraph : text) (branches : list (list PatternElement)) : PM (list (list PatternElement)) :=
  match n with
  | O => fuelP
  | S n =>
      let! st := getP in
      if kw "UNION" st then advance;; let! '(b, _) := rec activeGraph false in union_loop n activeGraph (branches ++ [b]) else retP branches
  end.

(** One iteration of the loop of [parseGroup]. *)
Definition group_element (n : nat) (activeGraph : text) (truth : bool) (out : list PatternElement) (norm : option text) :
    PM (list PatternElement * option text) :=
  let! st := getP in
  if is_ TK.Dot st then advance;; retP (out, norm)
  else if atTruthOf st then
    let! '(v, threshold) := truth_header st in
    advance;; eatKw "TRUTH";; eatKw "OF";;
    let! '(ps, normIri) := rec activeGraph true in
    retP (out ++ [TruthPattern v threshold normIri ps], norm)
  else if kw "FUZZY_NORM" st then
    if negb truth then throwP (txt "FUZZY_NORM is only allowed directly inside a TRUTH OF block (line " ++ at_line st ++ txt ")")
    else if match norm with Some _ => true | None => false end then throwP (txt "Duplicate FUZZY_NORM in TRUTH OF block at line " ++ at_line st)
    else advance;; let! iri := expect_iri "norm IRI after FUZZY_NORM" in retP (out, Some iri)
  else if kw "GRAPH" st then
    advance;; let! uri := expect_iri "graph IRI after GRAPH" in
    let! '(ps, _) := rec uri false in retP (out ++ [GroupPattern ps], norm)
  else if kw "OPTIONAL" st then
    advance;; let! '(ps, _) := rec activeGraph false in retP (out ++ [OptionalPattern ps], norm)
  else if kw "FILTER" st then
    advance;; let! e := parseFilterExpr n in retP (out ++ [FilterPattern e], norm)
  else
    match unsupported_op st with
    | Some op => throwUnsupported (txt op ++ txt " is not yet supported")
    | None =>
        if is_ TK.LBrace st then
          let! '(first, _) := rec activeGraph false in
          let! st := getP in
          if kw "UNION" st then let! branches := union_loop n activeGraph [first] in retP (out ++ [UnionPattern branches], norm)
          else retP (out ++ [GroupPattern first], norm)
        else
          let! triples := parseTriples n [] in
          retP (if nonempty triples then out ++ [GraphPattern activeGraph triples] else out, norm)
    end.

Fixpoint group_loop (loops n : nat) (activeGraph : text) (truth : bool) (out : list PatternElement) (norm : option text) :
    PM (list PatternElement * option text) :=
  match n with
  | O => fuelP
  | S n =>
      let! st := getP in
      if is_ TK.RBrace st || is_ TK.Eof st then retP (out, norm)
      else let! '(out, norm) := group_element loops activeGraph truth out norm in group_loop loops n activeGraph truth out norm
  end.
End Group.

Fixpoint parseGroup (n : nat) (activeGraph : text) (truth : bool) : PM (list PatternElement * option text) :=
  match n with
  | O => fuelP
  | S m =>
      eat TK.LBrace;;
      let! r := group_loop (parseGroup m) n n activeGraph truth [] None in
      eat TK.RBrace;; retP r
  end.
End Expressions.
