(* ===== verification/SparqlQuery.v ===== *)
(** * Whole queries

    Model of [Parser::parse] of
    include/gengodb/compiler/frontend/SparqlMLIRTranslator.h: the prologue, the
    projection, the clauses behind the pattern, and the check of what an
    aggregation may project. *)

From S2P Require Import Prelude Serialization GraphDataOps FuzzyTurtle Datatypes SparqlText SparqlLexer SparqlParser.
From Stdlib Require Import Strings.Ascii.
#[local] Open Scope Z_scope.
#[local] Open Scope list_scope.
#[local] Open Scope parse_scope.

Section Query.
Context (iri_error : text → option text).

(** ** The prologue *)

(** The label of a [PREFIX] declaration. *)
Definition prefix_label : PM text :=
  let! st := getP in
  if is_ TK.PrefixedName st then advance;; retP (before_last ":" (val st))
  else if is_ TK.Colon st then advance;; retP []
  else if is_ TK.Keyword st then advance;; let! st1 := getP in (if is_ TK.Colon st1 then advance else retP tt);; retP (val st)
  else retP [].

Fixpoint parse_prefixes (n : nat) (prefixes : gmap text text) : PM (gmap text text) :=
  match n with
  | O => fuelP
  | S n =>
      let! st := getP in
      if kw "BASE" st then
        advance;; let! st := getP in (if is_ TK.IRI st then advance else retP tt);; parse_prefixes n prefixes
      else if kw "PREFIX" st then
        advance;; let! label := prefix_label in
        let! st := getP in
        if negb (is_ TK.IRI st) then throwP (txt "Expected IRI in PREFIX declaration at line " ++ at_line st)
        else advance;; parse_prefixes n (<[label := val st]> prefixes)
      else retP prefixes
  end.

Definition unsupported_form (st : PState) : option string := find (λ form, kw form st) ["ASK"; "DESCRIBE"; "CONSTRUCT"].

(** ** The projection *)

Definition projected_twice (v line : text) : text := txt "Variable ?" ++ v ++ txt " is projected twice at line " ++ line.
(** [( expression AS ?alias )] behind the parenthesis. *)
Definition parse_select_expr (n : nat) (pref : gmap text text) : PM (text * Expr) :=
  allow true;; let! e := parseFilterExpr iri_error pref n in allow false;;
  let! st := getP in
  if negb (kw "AS" st) then throwP (txt "Expected AS in SELECT expression at line " ++ at_line st ++ got st) else
  advance;;
  let! st := getP in
  if negb (is_ TK.Var st) then throwP (txt "Expected variable after AS at line " ++ at_line st ++ got st) else
  advance;; eat TK.RightParen;; retP (val st, e).

(** [projected] is the set of [selectVars]. *)
Fixpoint select_loop (loops n : nat) (pref : gmap text text) (vars : list text) (exprs : list (text * Expr)) : PM (list text * list (text * Expr)) :=
  match n with
  | O => fuelP
  | S n =>
      let! st := getP in
      if is_ TK.Var st then
        if bool_decide (val st ∈ vars) then throwP (projected_twice (val st) (at_line st))
        else advance;; select_loop loops n pref (vars ++ [val st]) exprs
      else if is_ TK.LeftParen st then
        advance;; let! '(alias, e) := parse_select_expr loops pref in
        if bool_decide (alias ∈ vars) then throwP (projected_twice alias (at_line st))
        else select_loop loops n pref (vars ++ [alias]) (exprs ++ [(alias, e)])
      else retP (vars, exprs)
  end.

(** The star, or the projected variables and the expressions of the aliases. *)
Definition parse_projection (n : nat) (pref : gmap text text) : PM (bool * list text * list (text * Expr)) :=
  let! st := getP in
  if is_ TK.Star st then advance;; retP (true, [], []) else
  let! '(vars, exprs) := select_loop n n pref [] [] in
  let! st := getP in
  if negb (nonempty vars) then throwP (txt "SELECT requires variables or * at line " ++ at_line st) else retP (false, vars, exprs).

Fixpoint from_loop (n : nat) : PM unit :=
  match n with
  | O => fuelP
  | S n =>
      let! st := getP in
      if negb (kw "FROM" st) then retP tt else
      advance;;
      let! st := getP in (if kw "NAMED" st then advance else retP tt);;
      let! st := getP in (if is_ TK.IRI st || is_ TK.PrefixedName st then advance else retP tt);;
      from_loop n
  end.

(** ** GROUP BY, HAVING, ORDER BY, LIMIT and OFFSET *)

(** The variable and the expression of a key, before names are given. *)
Definition parse_group_key (n : nat) (pref : gmap text text) : PM (text * option Expr) :=
  let! st := getP in
  if is_ TK.Var st then advance;; retP (val st, None)
  else if is_ TK.LeftParen st then
    advance;; let! e := parseFilterExpr iri_error pref n in
    let! st := getP in
    let! var :=
      (if kw "AS" st then
         advance;; let! st := getP in
         if negb (is_ TK.Var st) then throwP (txt "Expected variable after AS in GROUP BY at line " ++ at_line st ++ got st) else advance;; retP (val st)
       else retP []) in
    eat TK.RightParen;; retP (var, Some e)
  else let! e := primaryExpr iri_error pref n in retP ([], Some e).

(** A key that is only a variable names itself. *)
Definition plain_key (key : text * option Expr) : text * option Expr :=
  match key with
  | ([], Some (VariableExpr name)) => (name, None)
  | _ => key
  end.

(** A key of a variable that is a key already is skipped; an expression without a
    name gets the next hidden one. *)
Definition add_group_key (keys : list GroupKey) (hidden : Z) (key : text * option Expr) : PM (list GroupKey * Z) :=
  let! st := getP in
  let '(var, e) := plain_key key in
  if bool_decide (e = None) && has_key_var keys var then retP (keys, hidden)
  else if negb (nonempty var) then retP (keys ++ [mkGroupKey (txt "__gk" ++ num hidden) e], hidden + 1)
  else if has_key_var keys var then throwP (txt "GROUP BY alias ?" ++ var ++ txt " is defined twice at line " ++ at_line st)
  else retP (keys ++ [mkGroupKey var e], hidden).

Definition clause_end (st : PState) : bool := kw "LIMIT" st || kw "OFFSET" st || is_ TK.Eof st.
Fixpoint group_by_loop (loops n : nat) (pref : gmap text text) (keys : list GroupKey) (hidden : Z) : PM (list GroupKey) :=
  match n with
  | O => fuelP
  | S n =>
      let! st := getP in
      if kw "HAVING" st || kw "ORDER" st || clause_end st then retP keys
      else let! key := parse_group_key loops pref in let! '(keys, hidden) := add_group_key keys hidden key in group_by_loop loops n pref keys hidden
  end.
Definition parse_group_by (n : nat) (pref : gmap text text) : PM (list GroupKey) :=
  let! st := getP in
  if negb (kw "GROUP" st) then retP [] else
  advance;;
  let! st := getP in
  if negb (kw "BY" st) then throwP (txt "Expected BY after GROUP at line " ++ at_line st) else
  advance;;
  let! keys := group_by_loop n n pref [] 0 in
  let! st := getP in
  if negb (nonempty keys) then throwP (txt "GROUP BY requires at least one grouping key at line " ++ at_line st) else retP keys.

Fixpoint having_loop (loops n : nat) (pref : gmap text text) (out : list Expr) : PM (list Expr) :=
  match n with
  | O => fuelP
  | S n =>
      let! st := getP in
      if is_ TK.LeftParen st || (is_ TK.Keyword st && negb (kw "ORDER" st) && negb (kw "LIMIT" st) && negb (kw "OFFSET" st)) then
        let! e := primaryExpr iri_error pref loops in having_loop loops n pref (out ++ [e])
      else retP out
  end.
Definition parse_having (n : nat) (pref : gmap text text) : PM (list Expr) :=
  let! st := getP in
  if negb (kw "HAVING" st) then retP [] else
  advance;; allow true;; let! out := having_loop n n pref [] in allow false;;
  let! st := getP in
  if negb (nonempty out) then throwP (txt "HAVING requires at least one constraint at line " ++ at_line st) else retP out.

Definition parse_order_key (n : nat) (pref : gmap text text) : PM OrderKey :=
  let! st := getP in
  if kw "ASC" st || kw "DESC" st then
    advance;; eat TK.LeftParen;; let! e := parseFilterExpr iri_error pref n in eat TK.RightParen;; retP (mkOrderKey e (kw "DESC" st))
  else let! e := parseFilterExpr iri_error pref n in retP (mkOrderKey e false).
(** [do ... while (...)]. *)
Fixpoint order_loop (loops n : nat) (pref : gmap text text) (out : list OrderKey) : PM (list OrderKey) :=
  match n with
  | O => fuelP
  | S n =>
      let! key := parse_order_key loops pref in
      let! st := getP in
      if clause_end st then retP (out ++ [key]) else order_loop loops n pref (out ++ [key])
  end.
Definition parse_order_by (n : nat) (pref : gmap text text) : PM (list OrderKey) :=
  let! st := getP in
  if negb (kw "ORDER" st) then retP [] else
  advance;;
  let! st := getP in
  if negb (kw "BY" st) then throwP (txt "Expected BY after ORDER at line " ++ at_line st) else
  advance;; allow true;; let! out := order_loop n n pref [] in allow false;; retP out.

(** The number behind [LIMIT] or [OFFSET], at most once each. *)
Definition limit_number (w : string) (old : option Z) : PM Z :=
  let! st := getP in
  if match old with Some _ => true | None => false end then throwP (txt "Duplicate " ++ txt w ++ txt " clause at line " ++ at_line st) else
  advance;;
  let! st := getP in
  if negb (is_ TK.Number st) then throwP (txt "Expected integer after " ++ txt w ++ txt " at line " ++ at_line st) else
  match stoll (val st) with Some z => advance;; retP z | None => throwP (txt "stoll") end.
Fixpoint limit_loop (i : nat) (limit offset : option Z) : PM (option Z * option Z) :=
  match i with
  | O => retP (limit, offset)
  | S i =>
      let! st := getP in
      if kw "LIMIT" st then let! z := limit_number "LIMIT" limit in limit_loop i (Some z) offset
      else if kw "OFFSET" st then let! z := limit_number "OFFSET" offset in limit_loop i limit (Some z)
      else retP (limit, offset)
  end.

(** ** What an aggregation may project *)

(** The first variable that is not in the set. *)
Definition first_hidden (visible : list text) (vars : list text) : option text := find (λ v, negb (bool_decide (v ∈ visible))) vars.
Fixpoint check_select (exprs : list (text * Expr)) (visible : list text) (vars : list text) : option text :=
  match vars with
  | [] => None
  | v :: vars =>
      match find_alias exprs v with
      | Some e =>
          match first_hidden visible (freeVariables e) with
          | Some fv => Some (txt "Variable ?" ++ fv ++ txt " in the SELECT expression for ?" ++ v ++ txt " is neither grouped (GROUP BY) nor aggregated")
          | None => check_select exprs (v :: visible) vars
          end
      | None =>
          if bool_decide (v ∈ visible) then check_select exprs visible vars
          else Some (txt "Variable ?" ++ v ++ txt " is projected but neither grouped (GROUP BY) nor aggregated")
      end
  end.
Definition is_aggregate (e : Expr) : bool := match e with AggregateExpr _ _ _ _ => true | _ => false end.
Definition check_having (exprs : list (text * Expr)) (having : list Expr) : option text :=
  match find (λ fv, match find_alias exprs fv with Some e => negb (is_aggregate e) | None => false end) (concat (map freeVariables having)) with
  | Some fv => Some (txt "HAVING references ?" ++ fv ++ txt ", which is computed by a SELECT expression evaluated after HAVING")
  | None => None
  end.
Definition check_aggregation (q : Query) : option text :=
  if negb (hasAggregation q) then None
  else if selectStar q then Some (txt "SELECT * is not allowed together with GROUP BY, HAVING or aggregates")
  else
    match check_select (selectExprs q) (map gk_var (groupBy q)) (selectVars q) with
    | Some what => Some what
    | None => check_having (selectExprs q) (having q)
    end.

(** ** [parse] *)

Definition parse_query (n : nat) (defaultGraph : text) : PM Query :=
  let! pref := parse_prefixes n ∅ in
  let! st := getP in
  match unsupported_form st with
  | Some form => throwUnsupported (txt form ++ txt " queries are not yet supported (only SELECT is implemented)")
  | None =>
      eatKw "SELECT";;
      let! st := getP in
      (if kw "DISTINCT" st || kw "REDUCED" st then advance else retP tt);;
      let! '(star, vars, exprs) := parse_projection n pref in
      from_loop n;;
      let! st1 := getP in
      (if kw "WHERE" st1 then advance else retP tt);;
      let! '(ps, _) := parseGroup iri_error pref n defaultGraph false in
      let! keys := parse_group_by n pref in
      let! hav := parse_having n pref in
      let! ord := parse_order_by n pref in
      let! '(lim, off) := limit_loop 2 None None in
      let! st2 := getP in
      if negb (is_ TK.Eof st2) then
        throwP (txt "Parse error at line " ++ at_line st2 ++ txt ": unexpected '" ++ val st2 ++ txt "' after the query (unsupported or misplaced solution modifier?)")
      else
        let q := mkQuery pref star vars exprs ps keys hav lim off (kw "DISTINCT" st) ord (sawAggregate st2) in
        match check_aggregation q with Some what => throwP what | None => retP q end
  end.

(** The constructor of the parser, and [parse]. *)
Definition newParser (input : text) : PState := let '(t, z) := next (mkTz input 1) in mkPS z t false false.
Definition parse (n : nat) (input defaultGraph : text) : pres Query := parse_query n defaultGraph (newParser input).
End Query.

Example parse_a_query :
  match parse (λ _, None) 400 (txt "PREFIX x: <http://e/> SELECT ?a (COUNT(DISTINCT ?b) AS ?n) WHERE { ?a x:p ?b ; x:q 'u'^^x:t . }") (txt "g") with
  | PThrow false what => what = txt "Expected RDF term at line 1, got 'u'"
  | _ => False
  end.
Proof. vm_compute. reflexivity. Qed.
