(* ===== verification/SparqlTermination.v ===== *)
(** * The parser of queries ends

    The parser stops on every text without a misplaced [UNION]: the measure is
    the number of characters that are left, and the bound of the recursion is
    one more than it.  At [UNION] the loop of [parseGroup] makes no progress. *)

From S2P Require Import Prelude Serialization GraphDataOps FuzzyTurtle Datatypes SparqlText SparqlLexer SparqlParser SparqlQuery.
From Stdlib Require Import Strings.Ascii.
#[local] Open Scope nat_scope.
#[local] Open Scope list_scope.
#[local] Open Scope parse_scope.

(** The characters left, and the token in hand. *)
Definition size (st : PState) : nat := length (left (tz st)) + if is_ TK.Eof st then 0 else 1.
Definition step (st : PState) : PState := let '(t, z) := next (tz st) in mkPS z t (aggregatesAllowed st) (sawAggregate st).

Lemma advance_step st : advance st = POk tt (step st).
Proof. unfold advance, step. by destruct (next (tz st)). Qed.
Lemma step_size st : size (step st) ≤ size st ∧ (is_ TK.Eof st = false → size (step st) < size st).
Proof.
  unfold size, step. pose proof (next_progress (tz st)) as H. destruct (next (tz st)) as [t z].
  change (is_ TK.Eof (mkPS z t _ _)) with (bool_decide (kind t = TK.Eof)). simpl.
  destruct (decide (kind t = TK.Eof)) as [E|E]; [rewrite H, (bool_decide_true _ E)|rewrite (bool_decide_false _ E)]; simpl; destruct (is_ TK.Eof st); lia.
Qed.

Section Ends.
(** [I] is a property of states that the parser keeps, and that excludes
    [UNION]. *)
Context (I : PState → Prop).
Context (I_step : ∀ st, I st → I (step st)).
Context (I_flags : ∀ st b c, I st → I (mkPS (tz st) (tok st) b c)).

(** The parser ends, and leaves less than [b]. *)
Definition ends {A} (b : nat) (m : PM A) (st : PState) : Prop :=
  match m st with POk _ st' => size st' < b ∧ I st' | PThrow _ _ => True | PFuel => False end.

Lemma ends_bind {A B} b c (m : PM A) (k : A → PM B) st : ends c m st → (∀ a st', size st' < c → I st' → ends b (k a) st') → ends b (bindP m k) st.
Proof. unfold ends, bindP. destruct (m st) as [a st'|u w|]; [|done..]. intros [Hs Hi] H. exact (H a st' Hs Hi). Qed.
Lemma ends_get {B} b (k : PState → PM B) st : ends b (k st) st → ends b (bindP getP k) st.
Proof. done. Qed.
Lemma ends_ret {A} b (a : A) st : size st < b → I st → ends b (retP a) st.
Proof. done. Qed.
Lemma ends_throw {A} b w st : ends b (throwP (A := A) w) st.
Proof. done. Qed.
Lemma ends_unsupported {A} b w st : ends b (throwUnsupported (A := A) w) st.
Proof. done. Qed.
Lemma ends_weaken {A} b c (m : PM A) st : ends c m st → c ≤ b → ends b m st.
Proof. unfold ends. destruct (m st); [|done..]. intros [??] ?. split; [lia|done]. Qed.
Lemma ends_advance b st : I st → (size st ≤ b → is_ TK.Eof st = false) → size st < S b → ends b advance st.
Proof. intros Hi Hn Hb. unfold ends. rewrite advance_step. split; [|by apply I_step]. destruct (step_size st) as [_ H]. specialize (H (Hn ltac:(lia))). lia. Qed.
Lemma ends_step {B} b (k : unit → PM B) st :
  I st → (∀ st', I st' → size st' ≤ size st → (is_ TK.Eof st = false → size st' < size st) → ends b (k tt) st') → ends b (bindP advance k) st.
Proof. intros Hi H. unfold ends, bindP. rewrite advance_step. destruct (step_size st). apply H; [by apply I_step|done..]. Qed.
Lemma ends_step' b st : I st → size (step st) < b → ends b advance st.
Proof. intros Hi H. unfold ends. rewrite advance_step. by split; [|apply I_step]. Qed.
Lemma ends_allow {B} b x (k : unit → PM B) st : I st → (∀ st', I st' → size st' = size st → ends b (k tt) st') → ends b (bindP (allow x) k) st.
Proof. intros Hi H. apply H; [by apply I_flags|done]. Qed.
Lemma ends_saw {B} b (k : unit → PM B) st : I st → (∀ st', I st' → size st' = size st → ends b (k tt) st') → ends b (bindP setSaw k) st.
Proof. intros Hi H. apply H; [by apply I_flags|done]. Qed.

Ltac noteof :=
  match goal with
  | |- is_ TK.Eof ?st = false =>
      let Ee := fresh "Ee" in
      destruct (is_ TK.Eof st) eqn:Ee; [exfalso; apply bool_decide_eq_true in Ee|reflexivity];
      match goal with H : context [st] |- _ => solve [unfold kw, atTruthOf, is_ in H; rewrite Ee in H; vm_compute in H; discriminate H] end
  end.

Lemma ends_eat {B} b k (c : Token → PM B) st :
  k ≠ TK.Eof → I st → (∀ t st', I st' → size st' < size st → ends b (c t) st') → ends b (bindP (eat k) c) st.
Proof.
  intros Hk Hi H. apply (ends_bind b (size st)); [|auto]. unfold eat. apply ends_get. destruct (is_ k st) eqn:E; [|apply ends_throw]. simpl.
  apply ends_step; [done|]. intros st' Hi' _ Hs. apply ends_ret; [|done]. apply Hs. apply bool_decide_eq_true in E. unfold is_. rewrite E. by apply bool_decide_false.
Qed.
Lemma ends_eatKw {B} b w (c : unit → PM B) st : I st → (∀ t st', I st' → size st' < size st → ends b (c t) st') → ends b (bindP (eatKw w) c) st.
Proof.
  intros Hi H. apply (ends_bind b (size st)); [|auto]. unfold eatKw. apply ends_get. destruct (kw w st) eqn:E; [|apply ends_throw]. simpl.
  apply ends_step'; [done|]. apply step_size. noteof.
Qed.

(** One step of a proof: what the parser does next. *)
Ltac ends1 :=
  lazymatch goal with
  | |- ends _ (bindP getP _) _ => apply ends_get
  | |- ends _ (retP _) _ => apply ends_ret; [lia|assumption]
  | |- ends _ (throwP _) _ => apply ends_throw
  | |- ends _ (throwUnsupported _) _ => apply ends_unsupported
  | |- ends _ (bindP advance _) ?st =>
      apply ends_step; [assumption|];
      let st' := fresh "st" in let H := fresh "Hs" in intros st' ? ? H; try (specialize (H ltac:(noteof)))
  | |- ends _ advance ?st => apply ends_step'; [assumption|]; destruct (step_size st) as [? ?Hs]; try (specialize (Hs ltac:(noteof))); lia
  | |- ends _ (bindP (allow _) _) _ => apply ends_allow; [assumption|]; intros ? ? ?
  | |- ends _ (bindP setSaw _) _ => apply ends_saw; [assumption|]; intros ? ? ?
  | |- ends _ (bindP (eat _) _) _ => apply ends_eat; [done|assumption|]; intros ? ? ? ?
  | |- ends _ (bindP (eatKw _) _) _ => apply ends_eatKw; [assumption|]; intros ? ? ? ?
  | |- ends _ (if ?c then _ else _) _ => let E := fresh "E" in destruct c eqn:E; rewrite ?negb_true_iff, ?negb_false_iff in E
  | |- ends _ (match ?c with Some _ => _ | None => _ end) _ => let E := fresh "E" in destruct c eqn:E
  end.
Ltac ends_go := repeat ends1.
(** A call, whose lemma is given. *)
Ltac call H := eapply ends_bind; [eapply H; first [assumption|lia]|cbv beta; intros ? ? ? ?].

Section Expr.
Context (iri_error : text → option text) (pref : gmap text text).

Section Body.
Context (rec : PM Expr) (N : nat).
Context (Hrec : ∀ st, I st → size st < N → ends (size st) rec st).

Lemma parseAggregate_ends fn st : I st → size st ≤ N → is_ TK.Eof st = false → ends (size st) (parseAggregate rec fn) st.
Proof.
  intros Hi Hn He. unfold parseAggregate. ends1. ends1; [ends1|]. ends1. specialize (Hs He). do 2 ends1. apply (ends_bind _ (size st)); [ends_go|]. intros ? ? ??. ends1.
  apply (ends_bind _ (size st)). { ends_go. call Hrec. ends_go. }
  intros arg ? ??. ends1. apply (ends_bind _ (size st)); [ends_go|]. intros sep ? ??. ends_go.
Qed.

Lemma args_loop_ends n args st : I st → size st < n → size st ≤ N → ends (S (size st)) (args_loop rec n args) st.
Proof.
  revert args st. induction n as [|n IH]; intros args st Hi Hn HN; [lia|]. simpl. ends1. ends1; [|ends1]. ends1. call Hrec. eapply ends_weaken; [apply IH|]; [done|lia..].
Qed.

Lemma parse_string_ends s st : I st → is_ TK.Eof st = false → ends (size st) (parse_string iri_error pref s) st.
Proof. intros Hi He. unfold parse_string. ends1. specialize (Hs He). ends_go. apply (ends_bind _ (size st)); [ends_go|]. intros; cbv beta. ends_go. Qed.

Lemma parse_iri_or_cast_ends iri line st : I st → is_ TK.Eof st = false → size st ≤ N → ends (size st) (parse_iri_or_cast rec iri line) st.
Proof. intros Hi He Hn. unfold parse_iri_or_cast. ends1. specialize (Hs He). ends_go; [|call Hrec; ends_go]. destruct (to_string t); ends_go. Qed.

Lemma parse_call_ends n st : I st → is_ TK.Eof st = false → size st ≤ N → size st ≤ n → ends (size st) (parse_call rec n) st.
Proof.
  intros Hi He Hn Hl. unfold parse_call. ends1. ends1. specialize (Hs He). ends_go. apply (ends_bind _ (size st)); [|intros; ends_go].
  ends_go. call Hrec. eapply ends_weaken; [apply args_loop_ends|]; [done|lia..].
Qed.

Lemma parsePrimary_ends n st : I st → size st ≤ N → size st ≤ n → ends (size st) (parsePrimary iri_error pref rec n) st.
Proof.
  intros Hi Hn Hl. unfold parsePrimary. ends1. ends1; [apply parseAggregate_ends; [done..|noteof]|]. clear E.
  repeat (ends1; [first [solve [ends_go] | apply parse_string_ends; [done|noteof] | apply parse_iri_or_cast_ends; [done|noteof|done] | apply parse_call_ends; [done|noteof|done..] | idtac]|]); [..|ends1].
  - ends1. call Hrec. ends_go.
  - do 2 ends1. call Hrec. ends_go.
  - do 2 ends1. call Hrec. eapply ends_bind; [apply args_loop_ends; [done|lia..]|]. intros. ends_go.
Qed.

Context (loops : nat).
#[local] Abbreviation fits st := (size st ≤ N ∧ size st < loops).

Lemma parseUnaryExpr_ends n st : I st → fits st → size st < n → ends (size st) (parseUnaryExpr iri_error pref rec loops n) st.
Proof.
  revert st. induction n as [|n IH]; intros st Hi Hf Hn; [lia|]. simpl. ends1. ends1; [|ends1; [|ends1]].
  - ends1. eapply ends_bind; [apply IH; [done|lia..]|]. intros. ends_go.
  - ends1. eapply ends_bind; [apply IH; [done|lia..]|]. intros. ends_go.
  - ends1. eapply ends_weaken; [apply IH|]; [done|lia..].
  - apply parsePrimary_ends; [done|lia..].
Qed.

Lemma mul_loop_ends n lhs st : I st → fits st → size st < n → ends (S (size st)) (mul_loop iri_error pref rec loops n lhs) st.
Proof.
  revert lhs st. induction n as [|n IH]; intros lhs st Hi Hf Hn; [lia|]. simpl. do 2 ends1; [|ends1]. ends1. eapply ends_bind; [apply parseUnaryExpr_ends; [done|lia..]|]. intros.
  eapply ends_weaken; [apply IH|]; [done|lia..].
Qed.
Lemma mul_ends st : I st → fits st → ends (size st) (parseMultiplicativeExpr iri_error pref rec loops) st.
Proof. intros Hi Hf. eapply ends_bind; [apply parseUnaryExpr_ends; [done|lia..]|]. intros. eapply ends_weaken; [apply mul_loop_ends|]; [done|lia..]. Qed.

Lemma add_loop_ends n lhs st : I st → fits st → size st < n → ends (S (size st)) (add_loop iri_error pref rec loops n lhs) st.
Proof.
  revert lhs st. induction n as [|n IH]; intros lhs st Hi Hf Hn; [lia|]. simpl. do 2 ends1; [|ends1]. ends1. eapply ends_bind; [apply mul_ends; [done|lia]|]. intros.
  eapply ends_weaken; [apply IH|]; [done|lia..].
Qed.
Lemma add_ends st : I st → fits st → ends (size st) (parseAdditiveExpr iri_error pref rec loops) st.
Proof. intros Hi Hf. eapply ends_bind; [apply mul_ends; [done|lia..]|]. intros. eapply ends_weaken; [apply add_loop_ends|]; [done|lia..]. Qed.

Lemma comparison_ends st : I st → fits st → ends (size st) (parseComparisonExpr iri_error pref rec loops) st.
Proof. intros Hi Hf. eapply ends_bind; [apply add_ends; [done|lia..]|]. intros. do 2 ends1; [|ends1]. ends1. eapply ends_bind; [apply add_ends; [done|lia..]|]. intros. ends_go. Qed.

Lemma and_loop_ends n l st : I st → fits st → size st < n → ends (S (size st)) (and_loop iri_error pref rec loops n l) st.
Proof.
  revert l st. induction n as [|n IH]; intros l st Hi Hf Hn; [lia|]. simpl. do 2 ends1; [|ends1]. ends1. eapply ends_bind; [apply comparison_ends; [done|lia]|]. intros.
  eapply ends_weaken; [apply IH|]; [done|lia..].
Qed.
Lemma and_ends st : I st → fits st → ends (size st) (parseAndFilterExpr iri_error pref rec loops) st.
Proof. intros Hi Hf. eapply ends_bind; [apply comparison_ends; [done|lia..]|]. intros. do 2 ends1; [ends1|]. eapply ends_bind; [apply and_loop_ends; [done|lia..]|]. intros. ends_go. Qed.

Lemma or_loop_ends n l st : I st → fits st → size st < n → ends (S (size st)) (or_loop iri_error pref rec loops n l) st.
Proof.
  revert l st. induction n as [|n IH]; intros l st Hi Hf Hn; [lia|]. simpl. do 2 ends1; [|ends1]. ends1. eapply ends_bind; [apply and_ends; [done|lia]|]. intros.
  eapply ends_weaken; [apply IH|]; [done|lia..].
Qed.
Lemma filter_body_ends st : I st → fits st → ends (size st) (filter_body iri_error pref rec loops) st.
Proof. intros Hi Hf. eapply ends_bind; [apply and_ends; [done|lia..]|]. intros. do 2 ends1; [ends1|]. eapply ends_bind; [apply or_loop_ends; [done|lia..]|]. intros. ends_go. Qed.
End Body.

Lemma parseFilterExpr_ends n st : I st → size st < n → ends (size st) (parseFilterExpr iri_error pref n) st.
Proof. revert st. induction n as [|n IH]; intros st Hi Hn; [lia|]. simpl. apply (filter_body_ends _ n); [exact IH|done|lia]. Qed.
Lemma primaryExpr_ends n st : I st → size st < n → ends (size st) (primaryExpr iri_error pref n) st.
Proof. intros Hi Hn. apply (parsePrimary_ends _ n); [|done|lia..]. intros st' ??. by apply parseFilterExpr_ends. Qed.

(** ** Patterns *)

Lemma parseTerm_ends st : I st → ends (size st) (parseTerm pref) st.
Proof. intros Hi. unfold parseTerm. ends_go. Qed.
Lemma semicolon_loop_ends n s out st : I st → size st < n → ends (S (size st)) (semicolon_loop pref n s out) st.
Proof.
  revert out st. induction n as [|n IH]; intros out st Hi Hn; [lia|]. simpl. ends1. ends1; [ends1|]. do 2 ends1. ends1; [ends1|]. do 2 call parseTerm_ends. eapply ends_weaken; [apply IH|]; [done|lia..].
Qed.
Lemma comma_loop_ends n s p out st : I st → size st < n → ends (S (size st)) (comma_loop pref n s p out) st.
Proof. revert out st. induction n as [|n IH]; intros out st Hi Hn; [lia|]. simpl. ends1. ends1; [ends1|]. ends1. call parseTerm_ends. eapply ends_weaken; [apply IH|]; [done|lia..]. Qed.

(** A loop that does not stop at once makes progress. *)
Lemma parseTriples_ends n out st : I st → size st < n → ends (if ends_triples st then S (size st) else size st) (parseTriples pref n out) st.
Proof.
  revert out st. induction n as [|n IH]; intros out st Hi Hn; [lia|]. cbn [parseTriples]. ends1. destruct (ends_triples st) eqn:Et; [ends1|].
  assert (is_ TK.Eof st = false) as He by (unfold ends_triples in Et; destruct (is_ TK.Eof st); [by rewrite orb_true_r in Et|done]).
  assert (∀ out st', I st' → size st' < size st → ends (size st) (parseTriples pref n out) st') as Hrest.
  { intros out' st' Hi' Hs'. eapply ends_weaken; [apply IH; [done|lia]|]. destruct (ends_triples st'); lia. }
  ends1; [ends1; apply Hrest; [done|lia]|]. do 3 call parseTerm_ends. eapply ends_bind; [apply semicolon_loop_ends; [done|lia]|]. intros. cbv beta. eapply ends_bind; [apply comma_loop_ends; [done|lia]|]. intros. cbv beta.
  eapply (ends_bind _ (size st)); [unfold skipDot; ends_go|]. intros. cbv beta. by apply Hrest.
Qed.

Lemma expect_iri_ends what st : I st → ends (size st) (expect_iri pref what) st.
Proof. intros Hi. unfold expect_iri. ends_go. Qed.
Lemma truth_header_ends st : I st → ends (S (size st)) (truth_header st) st.
Proof. intros Hi. unfold truth_header. ends_go. Qed.

Context (I_union : ∀ st, I st → kw "UNION" st = false).
Section GroupBody.
Context (rec : text → bool → PM (list PatternElement * option text)) (N : nat).
Context (Hrec : ∀ g t st, I st → size st < N → ends (size st) (rec g t) st).

Lemma group_element_ends n g t out norm st :
  I st → size st < N → size st < n → is_ TK.RBrace st || is_ TK.Eof st = false → ends (size st) (group_element iri_error pref rec n g t out norm) st.
Proof.
  intros Hi HN Hn Ht. unfold group_element. ends1. ends1; [ends_go|]. ends1.
  { eapply ends_bind; [apply truth_header_ends; done|]. intros [v th] st1 ??. do 3 ends1. call Hrec. destruct a as [ps ni]. ends_go. }
  ends1; [ends1; [ends1|]; ends1; [ends1|]; ends1; call expect_iri_ends; ends_go|].
  ends1; [ends1; call expect_iri_ends; call Hrec; destruct a0 as [ps ni]; ends_go|].
  ends1; [ends1; call Hrec; destruct a as [ps ni]; ends_go|].
  ends1; [ends1; call parseFilterExpr_ends; ends_go|].
  ends1; [ends1|]. ends1.
  - call Hrec. destruct a as [ps ni]. ends1. rewrite I_union by done. ends_go.
  - assert (ends_triples st = false) as Et.
    { unfold ends_triples. apply orb_false_iff in Ht as [-> ->]. rewrite (I_union st Hi). unfold unsupported_op in *. cbn [find] in *.
      repeat match goal with H : context [if kw ?w st then _ else _] |- _ => destruct (kw w st); [discriminate H|] end.
      repeat match goal with H : _ = false |- _ => rewrite H; clear H end. reflexivity. }
    eapply ends_bind; [apply parseTriples_ends; [done|lia]|]. rewrite Et. intros. cbv beta. ends1.
Qed.

Lemma group_loop_ends loops n g t out norm st :
  I st → size st < N → size st < loops → size st < n → ends (S (size st)) (group_loop iri_error pref rec loops n g t out norm) st.
Proof.
  revert out norm st. induction n as [|n IH]; intros out norm st Hi HN Hl Hn; [lia|]. simpl. do 2 ends1; [ends1|]. eapply ends_bind; [apply group_element_ends; [done|lia..|done]|].
  intros [out' norm'] st' ??. eapply ends_weaken; [apply IH|]; [done|lia..].
Qed.
End GroupBody.

Lemma parseGroup_ends n g t st : I st → size st < n → ends (size st) (parseGroup iri_error pref n g t) st.
Proof.
  revert g t st. induction n as [|n IH]; intros g t st Hi Hn; [lia|]. cbn [parseGroup]. ends1. eapply ends_bind; [apply (group_loop_ends _ n); [|done|lia..]|].
  - exact IH.
  - intros. cbv beta. ends_go.
Qed.

(** ** Clauses *)

Lemma prefix_label_ends st : I st → ends (S (size st)) prefix_label st.
Proof. intros Hi. unfold prefix_label. ends_go. apply (ends_bind _ (S (size st))); [ends_go|]. intros. ends_go. Qed.
Lemma parse_prefixes_ends n p st : I st → size st < n → ends (S (size st)) (parse_prefixes n p) st.
Proof.
  revert p st. induction n as [|n IH]; intros p st Hi Hn; [lia|]. simpl. do 2 ends1.
  - do 2 ends1. apply (ends_bind _ (size st)); [ends_go|]. intros. eapply ends_weaken; [apply IH|]; [done|lia..].
  - ends1; [|ends1]. ends1. call prefix_label_ends. do 3 ends1. eapply ends_weaken; [apply IH|]; [done|lia..].
Qed.
Lemma parse_select_expr_ends n st : I st → size st < n → ends (size st) (parse_select_expr iri_error n pref) st.
Proof. intros Hi Hn. unfold parse_select_expr. ends1. call parseFilterExpr_ends. ends_go. Qed.
Lemma select_loop_ends loops n vs es st : I st → size st < loops → size st < n → ends (S (size st)) (select_loop iri_error loops n pref vs es) st.
Proof.
  revert vs es st. induction n as [|n IH]; intros vs es st Hi Hl Hn; [lia|]. simpl. do 2 ends1.
  - ends1; [ends1|]. ends1. eapply ends_weaken; [apply IH|]; [done|lia..].
  - ends1; [|ends1]. ends1. call parse_select_expr_ends. destruct a as [al e]. ends1; [ends1|]. eapply ends_weaken; [apply IH|]; [done|lia..].
Qed.
Lemma parse_projection_ends n st : I st → size st < n → ends (S (size st)) (parse_projection iri_error n pref) st.
Proof. intros Hi Hn. unfold parse_projection. do 2 ends1; [ends_go|]. eapply ends_bind; [apply select_loop_ends; done|]. intros [vs es] ???. ends_go. Qed.
Lemma from_loop_ends n st : I st → size st < n → ends (S (size st)) (from_loop n) st.
Proof.
  revert st. induction n as [|n IH]; intros st Hi Hn; [lia|]. simpl. do 2 ends1; [ends1|]. do 2 ends1. apply (ends_bind _ (size st)); [ends_go|]. intros. cbv beta. ends1. apply (ends_bind _ (size st)); [ends_go|]. intros.
  eapply ends_weaken; [apply IH|]; [done|lia..].
Qed.
Lemma parse_group_key_ends n st : I st → size st < n → ends (size st) (parse_group_key iri_error n pref) st.
Proof.
  intros Hi Hn. unfold parse_group_key. do 2 ends1; [ends_go|]. ends1; [|call primaryExpr_ends; ends_go]. ends1. call parseFilterExpr_ends. ends1. apply (ends_bind _ (size st)); [ends_go|]. intros. cbv beta. ends_go.
Qed.
Lemma add_group_key_ends ks h k st : I st → ends (S (size st)) (add_group_key ks h k) st.
Proof. intros Hi. unfold add_group_key. ends1. destruct (plain_key k). ends_go. Qed.
Lemma group_by_loop_ends loops n ks h st : I st → size st < loops → size st < n → ends (S (size st)) (group_by_loop iri_error loops n pref ks h) st.
Proof.
  revert ks h st. induction n as [|n IH]; intros ks h st Hi Hl Hn; [lia|]. simpl. do 2 ends1; [ends1|]. call parse_group_key_ends. call add_group_key_ends. destruct a0. eapply ends_weaken; [apply IH|]; [done|lia..].
Qed.
Lemma parse_group_by_ends n st : I st → size st < n → ends (S (size st)) (parse_group_by iri_error n pref) st.
Proof. intros Hi Hn. unfold parse_group_by. do 2 ends1; [ends1|]. do 2 ends1. ends1; [ends1|]. ends1. eapply ends_bind; [apply group_by_loop_ends; [done|lia..]|]. intros. cbv beta. ends_go. Qed.
Lemma having_loop_ends loops n es st : I st → size st < loops → size st < n → ends (S (size st)) (having_loop iri_error loops n pref es) st.
Proof.
  revert es st. induction n as [|n IH]; intros es st Hi Hl Hn; [lia|]. simpl. do 2 ends1; [|ends1]. call primaryExpr_ends. eapply ends_weaken; [apply IH|]; [done|lia..].
Qed.
Lemma parse_having_ends n st : I st → size st < n → ends (S (size st)) (parse_having iri_error n pref) st.
Proof. intros Hi Hn. unfold parse_having. do 2 ends1; [ends1|]. do 2 ends1. eapply ends_bind; [apply having_loop_ends; [done|lia..]|]. intros. cbv beta. ends_go. Qed.
Lemma parse_order_key_ends n st : I st → size st < n → ends (size st) (parse_order_key iri_error n pref) st.
Proof. intros Hi Hn. unfold parse_order_key. do 2 ends1; [do 2 ends1|]; call parseFilterExpr_ends; ends_go. Qed.
Lemma order_loop_ends loops n ks st : I st → size st < loops → size st < n → ends (S (size st)) (order_loop iri_error loops n pref ks) st.
Proof.
  revert ks st. induction n as [|n IH]; intros ks st Hi Hl Hn; [lia|]. simpl. call parse_order_key_ends. do 2 ends1; [ends1|]. eapply ends_weaken; [apply IH|]; [done|lia..].
Qed.
Lemma parse_order_by_ends n st : I st → size st < n → ends (S (size st)) (parse_order_by iri_error n pref) st.
Proof. intros Hi Hn. unfold parse_order_by. do 2 ends1; [ends1|]. do 2 ends1. ends1; [ends1|]. do 2 ends1. eapply ends_bind; [apply order_loop_ends; [done|lia..]|]. intros. cbv beta. ends_go. Qed.
Lemma limit_number_ends w old st : I st → ends (S (size st)) (limit_number w old) st.
Proof. intros Hi. unfold limit_number. do 2 ends1; ends_go. Qed.
Lemma limit_loop_ends i l o st : I st → ends (S (size st)) (limit_loop i l o) st.
Proof. revert l o st. induction i as [|i IH]; intros l o st Hi; simpl; [ends1|]. do 2 ends1; [|ends1; [|ends1]]; (call limit_number_ends; eapply ends_weaken; [apply IH|]; [done|lia]). Qed.
End Expr.

Lemma parse_query_ends iri_error n g st : (∀ st, I st → kw "UNION" st = false) → I st → size st < n → ends (S (size st)) (parse_query iri_error n g) st.
Proof.
  intros Hu Hi Hn. unfold parse_query. eapply ends_bind; [apply parse_prefixes_ends; done|]. intros pref ???. cbv beta. do 2 ends1; [ends1|]. do 2 ends1.
  apply (ends_bind _ (size st)); [ends_go|]. intros. cbv beta. eapply ends_bind; [apply parse_projection_ends; [done|lia]|]. intros [[star vs] es] ???.
  eapply ends_bind; [apply from_loop_ends; [done|lia]|]. intros. cbv beta. ends1. apply (ends_bind _ (size st)); [ends_go|]. intros. cbv beta.
  eapply ends_bind; [apply parseGroup_ends; [done|done|lia]|]. intros [ps ?] ???.
  eapply ends_bind; [apply parse_group_by_ends; [done|lia]|]. intros. cbv beta. eapply ends_bind; [apply parse_having_ends; [done|lia]|]. intros. cbv beta.
  eapply ends_bind; [apply parse_order_by_ends; [done|lia]|]. intros. cbv beta. eapply ends_bind; [apply limit_loop_ends; done|]. intros [lim off] ???. ends_go.
Qed.
End Ends.

(** ** Texts without UNION *)

(** Whether one of the next [n] tokens is the keyword [UNION]. *)
Fixpoint has_union (n : nat) (st : PState) : bool := match n with O => false | S n => kw "UNION" st || has_union n (step st) end.

Definition at_end (st : PState) : Prop := is_ TK.Eof st = true → left (tz st) = [].
Lemma at_end_step st : at_end (step st).
Proof. unfold at_end, step. pose proof (next_progress (tz st)) as H. destruct (next (tz st)) as [t z]. intros E. apply bool_decide_eq_true in E. simpl in *. by rewrite decide_True in H. Qed.
Lemma at_end_new s : at_end (newParser s).
Proof. unfold at_end, newParser. pose proof (next_progress (mkTz s 1)) as H. destruct (next (mkTz s 1)) as [t z]. intros E. apply bool_decide_eq_true in E. simpl in *. by rewrite decide_True in H. Qed.
Lemma newParser_size s : size (newParser s) ≤ length s.
Proof.
  unfold size, newParser. pose proof (next_progress (mkTz s 1)) as H. destruct (next (mkTz s 1)) as [t z]. change (is_ TK.Eof (mkPS z t _ _)) with (bool_decide (kind t = TK.Eof)). simpl in *.
  destruct (decide (kind t = TK.Eof)) as [E|E]; [rewrite H, (bool_decide_true _ E)|rewrite (bool_decide_false _ E)]; simpl; lia.
Qed.
Lemma step_at_end st : is_ TK.Eof st = true → left (tz st) = [] → is_ TK.Eof (step st) = true.
Proof. intros _ E. unfold step, next. by rewrite E. Qed.
Lemma has_union_end n st : is_ TK.Eof st = true → at_end st → has_union n st = false.
Proof.
  revert st. induction n as [|n IH]; intros st E Ha; [done|]. simpl. rewrite (IH (step st) (step_at_end st E (Ha E)) (at_end_step st)), orb_false_r.
  unfold kw, is_. apply bool_decide_eq_true in E. by rewrite E.
Qed.
Lemma has_union_enough n m st : at_end st → size st < n → has_union n st = false → has_union m st = false.
Proof.
  revert n st. induction m as [|m IH]; intros n st Ha Hn H; [done|]. destruct n as [|n]; [lia|]. simpl in *. apply orb_false_iff in H as [-> H]. simpl.
  destruct (is_ TK.Eof st) eqn:E; [exact (has_union_end m (step st) (step_at_end st E (Ha E)) (at_end_step st))|]. apply (IH n); [apply at_end_step| |done]. destruct (step_size st) as [_ Hs]. specialize (Hs E). lia.
Qed.
Lemma has_union_flags n st b c : has_union n (mkPS (tz st) (tok st) b c) = has_union n st.
Proof.
  revert st. induction n as [|n IH]; intros st; [done|]. simpl. unfold step at 1. simpl. f_equal. unfold step. destruct (next (tz st)) as [t z]. simpl.
  rewrite <-(IH (mkPS z t (aggregatesAllowed st) (sawAggregate st))). done.
Qed.

(** C28. The parser of queries ends.  On a text without the keyword [UNION] it
    returns a query or throws, within as many nested calls and iterations of each
    loop as the text has characters, and one more. *)
Theorem parse_terminates iri_error input g n :
  has_union (S (length input)) (newParser input) = false → length input < n →
  (∃ q st, parse iri_error n input g = POk q st) ∨ (∃ u what, parse iri_error n input g = PThrow u what).
Proof.
  intros Hu Hn. pose proof (newParser_size input) as Hs.
  pose proof (parse_query_ends (λ st, ∀ m, has_union m st = false)) as H. specialize (H ltac:(intros st Hi m; specialize (Hi (S m)); simpl in Hi; apply orb_false_iff in Hi as [_ Hi]; exact Hi)).
  specialize (H ltac:(intros st b c Hi m; rewrite has_union_flags; apply Hi) iri_error n g (newParser input)).
  specialize (H ltac:(intros st Hi; specialize (Hi 1); simpl in Hi; by rewrite orb_false_r in Hi)).
  specialize (H ltac:(intros m; eapply has_union_enough; [apply at_end_new| |exact Hu]; lia) ltac:(lia)).
  unfold ends in H. unfold parse. destruct (parse_query iri_error n g (newParser input)); [left|right|done]; eauto.
Qed.

(** ** A misplaced UNION *)

Lemma group_loop_stuck iri_error pref rec loops n g t out norm st :
  kw "UNION" st = true → group_loop iri_error pref rec (S loops) n g t out norm st = PFuel.
Proof.
  intros Hk. induction n as [|n IH]; [done|]. assert (∀ k, is_ k st = bool_decide (TK.Keyword = k)) as His.
  { intros k. unfold kw in Hk. apply andb_true_iff in Hk as [Hk%bool_decide_eq_true _]. unfold is_. by rewrite Hk. }
  assert (∀ w, kw w st = bool_decide (txt "UNION" = txt w)) as Hkw.
  { intros w. unfold kw in *. apply andb_true_iff in Hk as [Hk ->%bool_decide_eq_true]. by rewrite Hk. }
  assert (∀ w, bool_decide (txt "UNION" = txt w) = false → kw w st = false) as Hno by (intros w <-; apply Hkw).
  assert (unsupported_op st = None) as Hop by (unfold unsupported_op; cbn [find]; rewrite !Hno by (vm_compute; reflexivity); reflexivity).
  assert (ends_triples st = true) as Het by (unfold ends_triples; rewrite Hk, orb_true_r; reflexivity).
  cbn [group_loop]. unfold bindP at 1, getP at 1. rewrite (His TK.RBrace : _ = false), (His TK.Eof : _ = false). cbn [orb]. unfold bindP at 1, group_element, bindP at 1, getP at 1.
  rewrite (His TK.Dot : _ = false). unfold atTruthOf. rewrite (His TK.Var : _ = false), (His TK.Number : _ = false). cbn [orb andb].
  rewrite !Hno by (vm_compute; reflexivity). rewrite Hop, (His TK.LBrace : _ = false). unfold bindP at 1. cbn [parseTriples]. unfold bindP at 1, getP at 1. rewrite Het. exact IH.
Qed.

Lemma parseGroup_stuck iri_error pref n g t st : is_ TK.LBrace st = true → kw "UNION" (step st) = true → parseGroup iri_error pref n g t st = PFuel.
Proof.
  intros Hb Hu. destruct n as [|n]; [done|]. cbn [parseGroup]. unfold bindP at 1, eat, bindP at 1, getP at 1. rewrite Hb. cbn [negb]. unfold bindP at 1. rewrite advance_step. unfold retP at 1.
  unfold bindP at 1. by rewrite group_loop_stuck.
Qed.
Lemma bind_ok {A B} (m : PM A) (k : A → PM B) st a st' : m st = POk a st' → bindP m k st = k a st'.
Proof. unfold bindP. by intros ->. Qed.

(** A [UNION] that does not follow a group in braces is neither consumed nor
    refused: whatever was parsed before it, the loop of [parseGroup] does not
    end, however many iterations it is given; the parser does not return on the
    text of the second claim. *)
Theorem parse_stray_union iri_error :
  (∀ pref rec loops n g t out norm st, kw "UNION" st = true → group_loop iri_error pref rec (S loops) n g t out norm st = PFuel) ∧
  (∀ n g, parse iri_error n (txt "SELECT*{UNION{}}") g = PFuel).
Proof.
  split; [intros; by apply group_loop_stuck|]. intros [|n] g; [done|]. unfold parse, parse_query.
  erewrite bind_ok by (vm_compute; reflexivity). unfold bindP at 1, getP at 1. cbn [unsupported_form].
  match goal with |- match ?o with _ => _ end _ = _ => let x := eval vm_compute in o in change o with x end. cbv iota beta.
  do 4 (erewrite bind_ok by (vm_compute; reflexivity)). cbv iota beta. do 3 (erewrite bind_ok by (vm_compute; reflexivity)).
  unfold bindP at 1. rewrite parseGroup_stuck by (vm_compute; reflexivity). done.
Qed.

Lemma parse_terminates_witness :
  has_union 200 (newParser (txt "SELECT ?s (COUNT(*) AS ?n) WHERE { ?s ?p ?o OPTIONAL { ?o a ?t } FILTER(?p != <p> || !BOUND(?t)) } GROUP BY ?s ORDER BY DESC(?n) LIMIT 3")) = false ∧
  ((∃ q st, parse (λ _, None) 200 (txt "SELECT ?s (COUNT(*) AS ?n) WHERE { ?s ?p ?o OPTIONAL { ?o a ?t } FILTER(?p != <p> || !BOUND(?t)) } GROUP BY ?s ORDER BY DESC(?n) LIMIT 3") [] = POk q st) ∨
   (∃ u what, parse (λ _, None) 200 (txt "SELECT ?s (COUNT(*) AS ?n) WHERE { ?s ?p ?o OPTIONAL { ?o a ?t } FILTER(?p != <p> || !BOUND(?t)) } GROUP BY ?s ORDER BY DESC(?n) LIMIT 3") [] = PThrow u what)).
Proof.
  split; [vm_compute; reflexivity|]. apply (parse_terminates (λ _, None) _ [] 200); [vm_compute; reflexivity|]. apply Nat.ltb_lt. vm_compute. reflexivity.
Defined.
