(* ===== verification/SparqlSyntax.v ===== *)
(** * The syntax of queries

    A reference grammar for the parser, as a printer: the tokens and the text of
    an expression, of a pattern and of a query, and which of them are well
    formed.  An operand that is not a primary expression is put in parentheses.
    Patterns and queries have a syntax of their own ([SElement], [SQuery]), since
    the parser folds [GRAPH], the lists behind [;] and [,], and [a] into the
    patterns of SparqlParser. *)

From S2P Require Import Prelude Serialization GraphDataOps FuzzyTurtle Datatypes SparqlText SparqlLexer SparqlParser SparqlQuery.
From Stdlib Require Import Strings.Ascii.
#[local] Open Scope Z_scope.
#[local] Open Scope list_scope.

(** ** Tokens *)

Definition ptok : Type := TK.t * text.

Definition symbol (k : TK.t) : text :=
  match k with
  | TK.LBrace => txt "{" | TK.RBrace => txt "}" | TK.Dot => txt "." | TK.Comma => txt "," | TK.Semicolon => txt ";" | TK.Star => txt "*"
  | TK.LeftParen => txt "(" | TK.RightParen => txt ")" | TK.Colon => txt ":" | TK.Eq => txt "=" | TK.Neq => txt "!=" | TK.Lt => txt "<" | TK.Lte => txt "<="
  | TK.Gt => txt ">" | TK.Gte => txt ">=" | TK.AndAnd => txt "&&" | TK.OrOr => txt "||" | TK.Bang => txt "!" | TK.DoubleCaret => txt "^^"
  | TK.Plus => txt "+" | TK.Minus => txt "-" | TK.Slash => txt "/" | _ => []
  end.
Definition sym (k : TK.t) : ptok := (k, symbol k).
Definition word (w : string) : ptok := (TK.Keyword, txt w).

(** A delimiter or a backslash in a string is behind a backslash. *)
Definition escape (s : text) : text := concat (map (λ c, if eqc c quote2 || eqc c backslash then [backslash; c] else [c]) s).
Definition render (t : ptok) : text :=
  let '(k, v) := t in
  match k with
  | TK.IRI => txt "<" ++ v ++ txt ">"
  | TK.Var => txt "?" ++ v
  | TK.BlankNode => txt "_:" ++ v
  | TK.StringLit => quote2 :: escape v ++ [quote2]
  | _ => v
  end.
(** The text of tokens: each is followed by a blank. *)
Definition render_all (ts : list ptok) : text := concat (map (λ t, render t ++ txt " ") ts).

Definition iri_char (c : ascii) : bool := negb (eqc c ">" || isspace c || oneof ["<"; quote2; "{"; "}"; "|"; "^"; "`"; backslash]%char c).
Definition iri_text (v : text) : bool := forallb iri_char v.
Definition var_text (v : text) : bool := forallb isVarChar v.
Definition keyword_text (v : text) : bool :=
  match v with c :: _ => (isalpha c || eqc c "_") && forallb isNameChar v && bool_decide (toupper <$> v = v) | [] => false end.
Definition digits_text (v : text) : bool := nonempty v && forallb isdigit v.
Definition decimal_text (v : text) : bool := match split_first "." v with Some (a, b) => digits_text a && digits_text b | None => false end.

(** A label that does not make a blank node, and a local name without a dot at the
    end. *)
Definition label_text (v : text) : bool :=
  match v with c :: r => (isalpha c || (eqc c "_" && nonempty r)) && forallb isNameChar v | [] => false end.
Definition prefixed_text (v : text) : bool :=
  match split_first ":" v with Some (a, b) => label_text a && forallb isLocalChar b && bool_decide (drop_dots b = b) | None => false end.

Definition is_symbol (k : TK.t) : bool := nonempty (symbol k).
Definition valid_tok (t : ptok) : bool :=
  let '(k, v) := t in
  match k with
  | TK.IRI => iri_text v
  | TK.Var => var_text v
  | TK.BlankNode => forallb isNameChar v
  | TK.PrefixedName => prefixed_text v
  | TK.StringLit => true
  | TK.Keyword => keyword_text v
  | TK.Number => digits_text v || decimal_text v
  | _ => is_symbol k && bool_decide (v = symbol k)
  end.

(** ** Expressions *)

(** The IRI of a type. *)
Definition type_iri (t : Type_) : text := match to_string t with Ok name => txt (kXsdNamespace +:+ name) | Fault _ => [] end.

Definition short_literal (l : text) (t : Type_) : option ptok :=
  match t with
  | TInteger => if digits_text l then Some (TK.Number, l) else None
  | TDecimal => if decimal_text l then Some (TK.Number, l) else None
  | TString => Some (TK.StringLit, l)
  | TAnyIRI => Some (TK.IRI, l)
  | TBoolean => if bool_decide (l = txt "true") then Some (word "TRUE") else if bool_decide (l = txt "false") then Some (word "FALSE") else None
  | _ => None
  end.
Definition print_literal (l : text) (t : Type_) (d : text) : list ptok :=
  match short_literal l t with
  | Some tk => [tk]
  | None => [(TK.StringLit, l); sym TK.DoubleCaret; (TK.IRI, if bool_decide (t = TAnyLiteralScalar) then d else type_iri t)]
  end.

Definition compare_tok (op : CompareOp) : TK.t :=
  match op with OEq => TK.Eq | ONeq => TK.Neq | OLt => TK.Lt | OLte => TK.Lte | OGt => TK.Gt | OGte => TK.Gte end.
Definition arith_tok (op : ArithOp) : TK.t := match op with OAdd => TK.Plus | OSub => TK.Minus | OMul => TK.Star | ODiv => TK.Slash end.

Definition parens (ts : list ptok) : list ptok := sym TK.LeftParen :: ts ++ [sym TK.RightParen].
(** Lists of tokens with a separator between them. *)
Fixpoint join (s : ptok) (l : list (list ptok)) : list ptok :=
  match l with [] => [] | [x] => x | x :: l => x ++ s :: join s l end.

Definition cast_tok (targetType : option Type_) (isLangCast : bool) : ptok :=
  match targetType with Some t => (TK.IRI, type_iri t) | None => word (if isLangCast then "LANG" else "STR") end.

Fixpoint print (e : Expr) : list ptok :=
  match e with
  | VariableExpr v => [(TK.Var, v)]
  | LiteralExpr l t d => print_literal l t d
  | NotExpr o => parens (sym TK.Bang :: print o)
  | NegateExpr o => parens (sym TK.Minus :: print o)
  | AndExpr ops => parens (join (sym TK.AndAnd) (map print ops))
  | OrExpr ops => parens (join (sym TK.OrOr) (map print ops))
  | CompareExpr op l r => parens (print l ++ sym (compare_tok op) :: print r)
  | ArithExpr op l r => parens (print l ++ sym (arith_tok op) :: print r)
  | FunctionCallExpr name args => (TK.Keyword, name) :: parens (join (sym TK.Comma) (map print args))
  | CastExpr o t b => cast_tok t b :: parens (print o)
  | AggregateExpr fn distinct arg separator =>
      (TK.Keyword, aggFnName fn) ::
      parens ((if distinct then [word "DISTINCT"] else []) ++ (match arg with Some a => print a | None => [sym TK.Star] end) ++
              (if bool_decide (fn = GroupConcat) then [sym TK.Semicolon; word "SEPARATOR"; sym TK.Eq; (TK.StringLit, separator)] else []))
  end.

(** The keywords with a syntax of their own. *)
Definition own_syntax (name : text) : bool :=
  bool_decide (name ∈ map txt ["STR"; "LANG"; "TRUE"; "FALSE"; "DISTINCT"]) || match aggFnFromKeyword name with Some _ => true | None => false end.
Definition needs_args (name : text) : bool := bool_decide (name ∈ map txt ["BOUND"; "LANGMATCHES"]).

Section WellFormed.
Context (iri_error : text → option text).

Definition iri_ok (iri : text) : bool := iri_text iri && bool_decide (iri_error iri = None).
(** A literal that can be written: with a datatype, or as a number, a string, an
    IRI or a truth value. *)
Definition wf_literal (l : text) (t : Type_) (d : text) : bool :=
  match short_literal l t with
  | Some tk => valid_tok tk && bool_decide (d = [])
  | None =>
      if bool_decide (t = TAnyLiteralScalar) then iri_ok d && bool_decide (from_iri (Some (str_of d)) = TAnyLiteralNode)
      else nonempty (type_iri t) && iri_ok (type_iri t) && bool_decide (t ≠ TAnyLiteralNode) && bool_decide (d = [])
  end.

(** [agg] says that aggregates are allowed; they are not in an aggregate. *)
Fixpoint wf_expr (agg : bool) (e : Expr) : bool :=
  match e with
  | VariableExpr v => var_text v
  | LiteralExpr l t d => wf_literal l t d
  | NotExpr o | NegateExpr o => wf_expr agg o
  | AndExpr ops | OrExpr ops => (2 <=? length ops)%nat && forallb (wf_expr agg) ops
  | CompareExpr _ l r | ArithExpr _ l r => wf_expr agg l && wf_expr agg r
  | FunctionCallExpr name args =>
      keyword_text name && negb (own_syntax name) && (nonempty args || negb (needs_args name)) && forallb (wf_expr agg) args
  | CastExpr o t b => wf_expr agg o && match t with Some t => isSupportedCastTarget t && negb b | None => true end
  | AggregateExpr fn _ arg separator =>
      agg && (match arg with Some a => wf_expr false a | None => bool_decide (fn = Count) end) &&
      (bool_decide (fn = GroupConcat) || bool_decide (separator = txt " "))
  end.
End WellFormed.

(** Whether an expression calls an aggregate. *)
Fixpoint has_aggregate (e : Expr) : bool :=
  match e with
  | AggregateExpr _ _ _ _ => true
  | VariableExpr _ | LiteralExpr _ _ _ => false
  | NotExpr o | NegateExpr o | CastExpr o _ _ => has_aggregate o
  | AndExpr ops | OrExpr ops | FunctionCallExpr _ ops => existsb has_aggregate ops
  | CompareExpr _ l r | ArithExpr _ l r => has_aggregate l || has_aggregate r
  end.

(** ** Patterns *)

Inductive STerm := SIri (iri : text) | SPrefixed (name : text) | SVar (v : text) | SBlank (v : text) | SType.
Definition print_term (t : STerm) : ptok :=
  match t with SIri v => (TK.IRI, v) | SPrefixed v => (TK.PrefixedName, v) | SVar v => (TK.Var, v) | SBlank v => (TK.BlankNode, v) | SType => word "A" end.
(** The name of a graph or of a norm. *)
Inductive SName := NIri (iri : text) | NPrefixed (name : text).
Definition print_name (t : SName) : ptok := match t with NIri v => (TK.IRI, v) | NPrefixed v => (TK.PrefixedName, v) end.

(** One subject with one verb and its objects, or with several verbs and one
    object each. *)
Inductive SBlock :=
  | OneVerb (s p o : STerm) (objects : list STerm)
  | ManyVerbs (s p o : STerm) (verbs : list (STerm * STerm)).
Definition print_block (b : SBlock) : list ptok :=
  match b with
  | OneVerb s p o os => [print_term s; print_term p; print_term o] ++ concat (map (λ o, [sym TK.Comma; print_term o]) os) ++ [sym TK.Dot]
  | ManyVerbs s p o vs => [print_term s; print_term p; print_term o] ++ concat (map (λ '(p, o), [sym TK.Semicolon; print_term p; print_term o]) vs) ++ [sym TK.Dot]
  end.

(** What a [TRUTH OF] block binds or requires. *)
Inductive STruth := TVar (v : text) | TAtLeast (number : text).
Definition print_truth (t : STruth) : ptok := match t with TVar v => (TK.Var, v) | TAtLeast l => (TK.Number, l) end.

Inductive SElement :=
  | STriples (blocks : list SBlock)
  | SGroup (ps : list SElement)
  | SGraph (g : SName) (ps : list SElement)
  | SOptional (ps : list SElement)
  | STruthOf (t : STruth) (norm : option SName) (ps : list SElement)
  | SUnion (first : list SElement) (branches : list (list SElement))
  | SFilter (e : Expr).

Definition braces (ts : list ptok) : list ptok := sym TK.LBrace :: ts ++ [sym TK.RBrace].
Definition print_norm (norm : option SName) : list ptok := match norm with Some n => [word "FUZZY_NORM"; print_name n] | None => [] end.
Fixpoint print_element (x : SElement) : list ptok :=
  match x with
  | STriples bs => concat (map print_block bs)
  | SGroup ps => braces (concat (map print_element ps))
  | SGraph g ps => word "GRAPH" :: print_name g :: braces (concat (map print_element ps))
  | SOptional ps => word "OPTIONAL" :: braces (concat (map print_element ps))
  | STruthOf t norm ps => print_truth t :: word "TRUTH" :: word "OF" :: braces (print_norm norm ++ concat (map print_element ps))
  | SUnion first bs => braces (concat (map print_element first)) ++ concat (map (λ ps, word "UNION" :: braces (concat (map print_element ps))) bs)
  | SFilter e => word "FILTER" :: print e
  end.
Definition print_group (norm : option SName) (ps : list SElement) : list ptok := braces (print_norm norm ++ concat (map print_element ps)).

(** What a pattern denotes, where [pref] are the prefixes and [g] is the graph in
    force. *)
Section Elaborate.
Context (pref : gmap text text).
Definition elab_term (t : STerm) : Term :=
  match t with
  | SIri v => mkTerm KIri v | SPrefixed v => mkTerm KIri (expandPrefix v pref) | SVar v => mkTerm KVariable v | SBlank v => mkTerm KBlankNode v
  | SType => mkTerm KIri rdf_type
  end.
Definition elab_name (n : SName) : text := match n with NIri v => v | NPrefixed v => expandPrefix v pref end.
Definition elab_block (b : SBlock) : list Triple :=
  match b with
  | OneVerb s p o os => map (λ o, mkTriple (elab_term s) (elab_term p) (elab_term o)) (o :: os)
  | ManyVerbs s p o vs => map (λ '(p, o), mkTriple (elab_term s) (elab_term p) (elab_term o)) ((p, o) :: vs)
  end.
Definition elab_truth (t : STruth) : option text * option Z := match t with TVar v => (Some v, None) | TAtLeast l => (None, stof l) end.
Fixpoint elab (g : text) (x : SElement) : PatternElement :=
  match x with
  | STriples bs => GraphPattern g (concat (map elab_block bs))
  | SGroup ps => GroupPattern (map (elab g) ps)
  | SGraph n ps => GroupPattern (map (elab (elab_name n)) ps)
  | SOptional ps => OptionalPattern (map (elab g) ps)
  | STruthOf t norm ps => let '(v, th) := elab_truth t in TruthPattern v th (elab_name <$> norm) (map (elab g) ps)
  | SUnion first bs => UnionPattern (map (elab g) first :: map (map (elab g)) bs)
  | SFilter e => FilterPattern e
  end.
End Elaborate.

(** Two blocks of triples do not follow each other: they are one. *)
Definition is_triples (x : SElement) : bool := match x with STriples _ => true | _ => false end.
Fixpoint separated (ps : list SElement) : bool :=
  match ps with x :: (y :: _) as r => negb (is_triples x && is_triples y) && separated r | _ => true end.
Definition wf_truth (t : STruth) : bool := match t with TVar _ => true | TAtLeast l => match stof l with Some bits => in_unit bits | None => false end end.
Section WfElement.
Context (iri_error : text → option text).
Fixpoint wf_element (x : SElement) : bool :=
  match x with
  | STriples bs => nonempty bs
  | SGroup ps | SGraph _ ps | SOptional ps => separated ps && forallb wf_element ps
  | STruthOf t _ ps => wf_truth t && separated ps && forallb wf_element ps
  | SUnion first bs =>
      nonempty bs && separated first && forallb wf_element first && forallb (λ ps, separated ps && forallb wf_element ps) bs
  | SFilter e => wf_expr iri_error false e
  end.
Definition wf_group (ps : list SElement) : bool := separated ps && forallb wf_element ps.
End WfElement.

(** Rule induction through the lists of elements. *)
Lemma SElement_rect' (P : SElement → Prop) :
  (∀ bs, P (STriples bs)) → (∀ ps, Forall P ps → P (SGroup ps)) → (∀ g ps, Forall P ps → P (SGraph g ps)) → (∀ ps, Forall P ps → P (SOptional ps)) →
  (∀ t n ps, Forall P ps → P (STruthOf t n ps)) → (∀ ps bs, Forall P ps → Forall (Forall P) bs → P (SUnion ps bs)) → (∀ e, P (SFilter e)) → ∀ x, P x.
Proof.
  intros H1 H2 H3 H4 H5 H6 H7. fix IH 1. intros [bs|ps|g ps|ps|t n ps|ps bs|e].
  - apply H1.
  - apply H2. induction ps as [|x ps IHl]; constructor; [apply IH|exact IHl].
  - apply H3. induction ps as [|x ps IHl]; constructor; [apply IH|exact IHl].
  - apply H4. induction ps as [|x ps IHl]; constructor; [apply IH|exact IHl].
  - apply H5. induction ps as [|x ps IHl]; constructor; [apply IH|exact IHl].
  - apply H6.
    + induction ps as [|x ps IHl]; constructor; [apply IH|exact IHl].
    + induction bs as [|b bs IHb]; constructor; [|exact IHb]. induction b as [|x b IHl]; constructor; [apply IH|exact IHl].
  - apply H7.
Qed.

(** ** Queries *)

Inductive SItem := IVar (v : text) | IExpr (e : Expr) (alias : text).
Inductive SKey := GVar (v : text) | GExpr (e : Expr) (alias : option text).
(** [sq_select] is [None] for the star; the bounds are texts of digits. *)
Record SQuery := mkSQuery {
  sq_prefixes : list (text * text); sq_distinct : bool; sq_select : option (list SItem); sq_from : list (bool * text); sq_where : list SElement;
  sq_group : list SKey; sq_having : list Expr; sq_order : list OrderKey; sq_limit : option text; sq_offset : option text;
}.

Definition print_label (label : text) : ptok := match label with [] => sym TK.Colon | _ => (TK.PrefixedName, label ++ txt ":") end.
Definition print_prefix (p : text * text) : list ptok := [word "PREFIX"; print_label p.1; (TK.IRI, p.2)].
Definition print_item (i : SItem) : list ptok :=
  match i with IVar v => [(TK.Var, v)] | IExpr e v => parens (print e ++ [word "AS"; (TK.Var, v)]) end.
Definition print_from (f : bool * text) : list ptok := word "FROM" :: (if f.1 then [word "NAMED"] else []) ++ [(TK.IRI, f.2)].
Definition print_key (k : SKey) : list ptok :=
  match k with
  | GVar v => [(TK.Var, v)]
  | GExpr e a => parens (print e ++ match a with Some v => [word "AS"; (TK.Var, v)] | None => [] end)
  end.
Definition print_order (k : OrderKey) : list ptok := word (if ok_descending k then "DESC" else "ASC") :: parens (print (ok_expr k)).
Definition print_clause (ws : list ptok) {A} (f : A → list ptok) (l : list A) : list ptok := match l with [] => [] | _ => ws ++ concat (map f l) end.
Definition print_bound (w : string) (b : option text) : list ptok := match b with Some l => [word w; (TK.Number, l)] | None => [] end.
Definition print_query (q : SQuery) : list ptok :=
  concat (map print_prefix (sq_prefixes q)) ++ word "SELECT" :: (if sq_distinct q then [word "DISTINCT"] else []) ++
  (match sq_select q with None => [sym TK.Star] | Some l => concat (map print_item l) end) ++ concat (map print_from (sq_from q)) ++
  word "WHERE" :: print_group None (sq_where q) ++ print_clause [word "GROUP"; word "BY"] print_key (sq_group q) ++
  print_clause [word "HAVING"] (λ e, parens (print e)) (sq_having q) ++ print_clause [word "ORDER"; word "BY"] print_order (sq_order q) ++
  print_bound "LIMIT" (sq_limit q) ++ print_bound "OFFSET" (sq_offset q).
Definition print_text (q : SQuery) : text := render_all (print_query q).

(** The prefixes in force: a later declaration replaces an earlier one. *)
Definition prefix_map (l : list (text * text)) : gmap text text := foldl (λ m p, <[p.1 := p.2]> m) ∅ l.
Definition item_var (i : SItem) : text := match i with IVar v | IExpr _ v => v end.
Definition item_exprs (l : list SItem) : list (text * Expr) := omap (λ i, match i with IExpr e v => Some (v, e) | IVar _ => None end) l.
(** The keys; those without a name are counted. *)
Fixpoint group_keys (hidden : Z) (l : list SKey) : list GroupKey :=
  match l with
  | [] => []
  | GVar v :: l => mkGroupKey v None :: group_keys hidden l
  | GExpr e (Some v) :: l => mkGroupKey v (Some e) :: group_keys hidden l
  | GExpr e None :: l => mkGroupKey (txt "__gk" ++ num hidden) (Some e) :: group_keys (hidden + 1) l
  end.
Definition key_has_aggregate (k : SKey) : bool := match k with GVar _ => false | GExpr e _ => has_aggregate e end.
(** What a query denotes. *)
Definition elab_query (g : text) (q : SQuery) : Query :=
  let items := default [] (sq_select q) in
  mkQuery (prefix_map (sq_prefixes q)) (match sq_select q with None => true | Some _ => false end) (map item_var items) (item_exprs items)
    (map (elab (prefix_map (sq_prefixes q)) g) (sq_where q)) (group_keys 0 (sq_group q)) (sq_having q)
    (sq_limit q ≫= stoll) (sq_offset q ≫= stoll) (sq_distinct q) (sq_order q)
    (existsb (λ se, has_aggregate se.2) (item_exprs items) || existsb has_aggregate (sq_having q) || existsb (λ k, has_aggregate (ok_expr k)) (sq_order q)).

Definition key_name (k : SKey) : option text := match k with GVar v => Some v | GExpr _ a => a end.
Definition is_variable (e : Expr) : bool := match e with VariableExpr _ => true | _ => false end.
(** The names of keys differ from each other, and from the hidden ones. *)
Definition distinct_keys (l : list SKey) : bool := bool_decide (NoDup (map gk_var (group_keys 0 l))).
Section WfQuery.
Context (iri_error : text → option text).
Definition wf_item (i : SItem) : bool := match i with IVar _ => true | IExpr e _ => wf_expr iri_error true e end.
Definition wf_key (k : SKey) : bool :=
  match k with
  | GVar v => nonempty v
  | GExpr e a => wf_expr iri_error false e && match a with Some v => nonempty v | None => negb (is_variable e) end
  end.
Definition wf_bound (b : option text) : bool := match b with Some l => match stoll l with Some _ => true | None => false end | None => true end.
Definition wf_query (q : SQuery) : bool :=
  forallb (λ p, match p.1 with [] => true | _ => label_text p.1 end) (sq_prefixes q) &&
  (match sq_select q with None => true | Some l => nonempty l && bool_decide (NoDup (map item_var l)) && forallb wf_item l end) &&
  wf_group iri_error (sq_where q) && forallb wf_key (sq_group q) && distinct_keys (sq_group q) && forallb (wf_expr iri_error true) (sq_having q) &&
  forallb (λ k, wf_expr iri_error true (ok_expr k)) (sq_order q) && wf_bound (sq_limit q) && wf_bound (sq_offset q).
End WfQuery.
