(* ===== verification/SparqlExprRoundtrip.v ===== *)
(** * Parsing a printed expression

    What it means that a parser reads a sequence of tokens and yields a value,
    and that the parser of expressions yields what was printed. *)

From S2P Require Import Prelude Serialization GraphDataOps FuzzyTurtle Datatypes SparqlText SparqlLexer SparqlParser SparqlQuery SparqlTermination SparqlSyntax.
From Stdlib Require Import Strings.Ascii.
#[local] Open Scope nat_scope.
#[local] Open Scope list_scope.
#[local] Open Scope parse_scope.

(** ** Reading tokens *)

Definition tokv (st : PState) : ptok := (kind (tok st), value (tok st)).
(** The next tokens of a state. *)
Fixpoint reads (ts : list ptok) (st : PState) : Prop := match ts with [] => True | t :: ts => tokv st = t ∧ reads ts (step st) end.
(** The parser returns [a] and stands before [rest]; [saw] says that it met an
    aggregate. *)
Definition yields {A} (m : PM A) (st : PState) (a : A) (rest : list ptok) (saw : bool) : Prop :=
  ∃ st', m st = POk a st' ∧ reads rest st' ∧ aggregatesAllowed st' = aggregatesAllowed st ∧ sawAggregate st' = sawAggregate st || saw.

Lemma reads_flags ts st st' : tz st' = tz st → tok st' = tok st → reads ts st → reads ts st'.
Proof.
  revert st st'. induction ts as [|t ts IH]; intros st st' Hz Ht; [done|]. intros [H Hr]. split; [unfold tokv in *; by rewrite Ht|].
  apply (IH (step st)); [unfold step; rewrite Hz; by destruct (next (tz st))..|done].
Qed.
Lemma step_flags st : aggregatesAllowed (step st) = aggregatesAllowed st ∧ sawAggregate (step st) = sawAggregate st.
Proof. unfold step. by destruct (next (tz st)). Qed.
Lemma peek_step st : peek (tz st) = tok (step st).
Proof. unfold peek, step. by destruct (next (tz st)). Qed.
Lemma is_tokv st k v k' : tokv st = (k, v) → is_ k' st = bool_decide (k = k').
Proof. by intros [= <- <-]. Qed.
Lemma kw_tokv st k v w : tokv st = (k, v) → kw w st = bool_decide (k = TK.Keyword) && bool_decide (v = txt w).
Proof. by intros [= <- <-]. Qed.
Lemma val_tokv st k v : tokv st = (k, v) → val st = v.
Proof. by intros [= <- <-]. Qed.
Lemma kind_tokv st k v : tokv st = (k, v) → kind (tok st) = k.
Proof. by intros [= <- <-]. Qed.

Lemma y_ret {A} (a : A) st rest : reads rest st → yields (retP a) st a rest false.
Proof. intros H. exists st. by rewrite orb_false_r. Qed.
Lemma y_get {A} (k : PState → PM A) st a rest s : yields (k st) st a rest s → yields (bindP getP k) st a rest s.
Proof. done. Qed.
Lemma y_adv {A} (k : unit → PM A) st a rest s : yields (k tt) (step st) a rest s → yields (bindP advance k) st a rest s.
Proof. intros (st' & H & Hr & Ha & Hs). destruct (step_flags st) as [E1 E2]. exists st'. unfold bindP. rewrite advance_step, H, Ha, Hs, E1, E2. done. Qed.
Lemma y_adv_end st t ts : reads (t :: ts) st → yields advance st tt ts false.
Proof. intros [_ H]. destruct (step_flags st) as [E1 E2]. exists (step st). by rewrite advance_step, E1, E2, orb_false_r. Qed.
Lemma y_bind {A B} (m : PM A) (k : A → PM B) st a b r1 s1 r2 s2 s :
  yields m st a r1 s1 → s = s1 || s2 → (∀ st', reads r1 st' → aggregatesAllowed st' = aggregatesAllowed st → yields (k a) st' b r2 s2) → yields (bindP m k) st b r2 s.
Proof.
  intros (st1 & H1 & Hr1 & Ha1 & Hs1) -> Hk. destruct (Hk st1 Hr1 Ha1) as (st2 & H2 & Hr2 & Ha2 & Hs2). exists st2. unfold bindP. rewrite H1, H2, Ha2, Ha1, Hs2, Hs1, orb_assoc. done.
Qed.
Lemma y_assoc {A B C} (m : PM A) (k : A → PM B) (c : B → PM C) st a rest s :
  yields (bindP (bindP m k) c) st a rest s → yields (bindP m (λ x, bindP (k x) c)) st a rest s.
Proof. unfold yields, bindP. by destruct (m st). Qed.
Lemma y_eat {A} k v (c : Token → PM A) st a rest s : tokv st = (k, v) → yields (c (tok st)) (step st) a rest s → yields (bindP (eat k) c) st a rest s.
Proof.
  intros H (st' & E & Hr & Ha & Hs). destruct (step_flags st) as [E1 E2]. exists st'. unfold bindP at 1, eat, bindP at 1, getP. rewrite (is_tokv _ _ _ _ H), bool_decide_true by done. simpl.
  unfold bindP. rewrite advance_step. unfold retP. rewrite E, Ha, Hs, E1, E2. done.
Qed.
Lemma y_eatKw {A} w (c : unit → PM A) st a rest s : tokv st = word w → yields (c tt) (step st) a rest s → yields (bindP (eatKw w) c) st a rest s.
Proof.
  intros H (st' & E & Hr & Ha & Hs). destruct (step_flags st) as [E1 E2]. exists st'. unfold bindP at 1, eatKw, bindP at 1, getP. rewrite (kw_tokv _ _ _ _ H), !bool_decide_true by done. simpl.
  rewrite advance_step, E, Ha, Hs, E1, E2. done.
Qed.

(** Decides the questions about a token that is known, by evaluation. *)
Ltac bd_eval P D :=
  let x := eval vm_compute in (@bool_decide P D) in
  lazymatch x with true => change (@bool_decide P D) with true | false => change (@bool_decide P D) with false end.
Ltac bd :=
  repeat match goal with
  | |- context [@bool_decide (@eq TK.t ?a ?b) ?D] => is_constructor a; is_constructor b; bd_eval (@eq TK.t a b) D
  | |- context [@bool_decide (txt ?a = txt ?b) ?D] => bd_eval (txt a = txt b) D
  end; cbn [negb andb orb]; cbv iota.
Ltac known H := rewrite ?(is_tokv _ _ _ _ H), ?(kw_tokv _ _ _ _ H), ?(val_tokv _ _ _ H), ?(kind_tokv _ _ _ H); bd.

(** ** Levels of operators *)

Definition op_class (k : TK.t) : nat :=
  match k with
  | TK.LeftParen | TK.DoubleCaret => 6
  | TK.Star | TK.Slash => 5
  | TK.Plus | TK.Minus => 4
  | TK.Eq | TK.Neq | TK.Lt | TK.Lte | TK.Gt | TK.Gte => 3
  | TK.AndAnd => 2
  | TK.OrOr => 1
  | _ => 0
  end.
(** A token that no operator of a level or above may be. *)
Lemma class_is k st v rest k' c : reads ((k, v) :: rest) st → op_class k < c → c ≤ op_class k' → is_ k' st = false.
Proof. intros [H _] ??. rewrite (is_tokv _ _ _ _ H). apply bool_decide_false. intros ->. lia. Qed.

Definition head_ok (k : TK.t) : bool :=
  match k with TK.Var | TK.Number | TK.StringLit | TK.IRI | TK.Keyword | TK.LeftParen => true | _ => false end.

Section Levels.
Context (iri_error : text → option text) (pref : gmap text text) (rec : PM Expr) (loops : nat).
Context (Hloops : 2 ≤ loops).

Lemma unary_prim st t ts e rest s n : reads (t :: ts) st → head_ok t.1 = true → yields (parsePrimary iri_error pref rec loops) st e rest s →
  yields (parseUnaryExpr iri_error pref rec loops (S n)) st e rest s.
Proof. intros [H _] Hh Hp. destruct t as [k v]. simpl in Hh. cbn [parseUnaryExpr]. apply y_get. destruct k; try discriminate Hh; known H; exact Hp. Qed.

Lemma mul_unary st k v rest e s : yields (parseUnaryExpr iri_error pref rec loops loops) st e ((k, v) :: rest) s → op_class k < 5 →
  yields (parseMultiplicativeExpr iri_error pref rec loops) st e ((k, v) :: rest) s.
Proof.
  intros Hu Hk. eapply y_bind; [exact Hu|symmetry; apply orb_false_r|]. intros st' Hr _. destruct loops as [|n]; [lia|]. simpl. apply y_get.
  rewrite (class_is _ _ _ _ TK.Star 5 Hr Hk), (class_is _ _ _ _ TK.Slash 5 Hr Hk) by (simpl; lia). by apply y_ret.
Qed.
Lemma add_mul st k v rest e s : yields (parseMultiplicativeExpr iri_error pref rec loops) st e ((k, v) :: rest) s → op_class k < 4 →
  yields (parseAdditiveExpr iri_error pref rec loops) st e ((k, v) :: rest) s.
Proof.
  intros Hu Hk. eapply y_bind; [exact Hu|symmetry; apply orb_false_r|]. intros st' Hr _. destruct loops as [|n]; [lia|]. simpl. apply y_get.
  rewrite (class_is _ _ _ _ TK.Plus 4 Hr Hk), (class_is _ _ _ _ TK.Minus 4 Hr Hk) by (simpl; lia). by apply y_ret.
Qed.
Lemma cmp_add st k v rest e s : yields (parseAdditiveExpr iri_error pref rec loops) st e ((k, v) :: rest) s → op_class k < 3 →
  yields (parseComparisonExpr iri_error pref rec loops) st e ((k, v) :: rest) s.
Proof.
  intros Hu Hk. eapply y_bind; [exact Hu|symmetry; apply orb_false_r|]. intros st' Hr _. apply y_get. destruct Hr as [H Hr]. rewrite (kind_tokv _ _ _ H).
  destruct k; simpl in Hk; try lia; simpl; by apply y_ret.
Qed.
Lemma and_cmp st k v rest e s : yields (parseComparisonExpr iri_error pref rec loops) st e ((k, v) :: rest) s → op_class k < 2 →
  yields (parseAndFilterExpr iri_error pref rec loops) st e ((k, v) :: rest) s.
Proof.
  intros Hu Hk. eapply y_bind; [exact Hu|symmetry; apply orb_false_r|]. intros st' Hr _. apply y_get.
  rewrite (class_is _ _ _ _ TK.AndAnd 2 Hr Hk) by (simpl; lia). by apply y_ret.
Qed.
Lemma or_and st k v rest e s : yields (parseAndFilterExpr iri_error pref rec loops) st e ((k, v) :: rest) s → op_class k < 1 →
  yields (filter_body iri_error pref rec loops) st e ((k, v) :: rest) s.
Proof.
  intros Hu Hk. eapply y_bind; [exact Hu|symmetry; apply orb_false_r|]. intros st' Hr _. apply y_get.
  rewrite (class_is _ _ _ _ TK.OrOr 1 Hr Hk) by (simpl; lia). by apply y_ret.
Qed.
Lemma cmp_unary st k v rest e s : yields (parseUnaryExpr iri_error pref rec loops loops) st e ((k, v) :: rest) s → op_class k < 3 →
  yields (parseComparisonExpr iri_error pref rec loops) st e ((k, v) :: rest) s.
Proof. intros. apply cmp_add; [|done]. apply add_mul; [|lia]. apply mul_unary; [done|lia]. Qed.
Lemma or_cmp st k v rest e s : yields (parseComparisonExpr iri_error pref rec loops) st e ((k, v) :: rest) s → op_class k < 1 →
  yields (filter_body iri_error pref rec loops) st e ((k, v) :: rest) s.
Proof. intros. apply or_and; [|done]. apply and_cmp; [done|lia]. Qed.
Lemma or_unary st k v rest e s : yields (parseUnaryExpr iri_error pref rec loops loops) st e ((k, v) :: rest) s → op_class k < 1 →
  yields (filter_body iri_error pref rec loops) st e ((k, v) :: rest) s.
Proof. intros. apply or_cmp; [|done]. apply cmp_unary; [done|lia]. Qed.
End Levels.

(** ** Lists of operands *)

Lemma join_cons s x l : join s (x :: l) = x ++ concat (map (λ y, s :: y) l).
Proof. revert x. induction l as [|y l IH]; intros x; [by rewrite app_nil_r|]. change (join s (x :: y :: l)) with (x ++ s :: join s (y :: l)). by rewrite IH. Qed.

(** The loops over the operands behind the first have one form. *)
Lemma sep_loop sep (item : PM Expr) (loop : nat → list Expr → PM (list Expr)) c k v rest :
  (∀ n acc, loop (S n) acc = (let! st := getP in if is_ sep st then advance;; let! e := item in loop n (acc ++ [e]) else retP acc)) →
  k ≠ sep → op_class k < c → op_class sep < c →
  ∀ es acc n st,
  (∀ e st' k' v' rest', e ∈ es → aggregatesAllowed st' = aggregatesAllowed st → reads (print e ++ (k', v') :: rest') st' → op_class k' < c →
    yields item st' e ((k', v') :: rest') (has_aggregate e)) →
  reads (concat (map (λ y, sym sep :: y) (map print es)) ++ (k, v) :: rest) st → length es < n →
  yields (loop n acc) st (acc ++ es) ((k, v) :: rest) (existsb has_aggregate es).
Proof.
  intros Hloop Hk Hc Hs. induction es as [|e es IH]; intros acc [|n] st Hitem Hr Hn; [simpl in *; lia| |simpl in *; lia|]; rewrite Hloop; apply y_get.
  - simpl in Hr. destruct Hr as [H Hr]. rewrite (is_tokv _ _ _ _ H), bool_decide_false by done. rewrite app_nil_r. apply y_ret. by split.
  - simpl in Hr. destruct Hr as [H Hr]. rewrite (is_tokv _ _ _ _ H), bool_decide_true by done. apply y_adv. destruct (step_flags st) as [Ea _].
    assert (∃ k' v' rest', concat (map (λ y, sym sep :: y) (map print es)) ++ (k, v) :: rest = (k', v') :: rest' ∧ op_class k' < c) as (k' & v' & rest' & E & Hk').
    { destruct es as [|e' es]; simpl; eauto 10. }
    rewrite <-app_assoc, E in Hr. eapply y_bind; [apply Hitem; [left|exact Ea|exact Hr|exact Hk']|reflexivity|]. intros st' Hr' Ha. replace (acc ++ e :: es) with ((acc ++ [e]) ++ es) by (by rewrite <-app_assoc).
    apply IH; [|by rewrite E|simpl in Hn; lia]. intros e0 st0 ??? Hin Ha0. apply Hitem; [by right|]. by rewrite Ha0, Ha, Ea.
Qed.

(** ** Printed expressions *)

Lemma print_head e : ∃ t ts, print e = t :: ts ∧ head_ok t.1 = true.
Proof.
  destruct e as [| l t d| | | | | | | | o t b|]; simpl; eauto.
  - unfold print_literal. destruct (short_literal l t) as [tk|] eqn:E; [|eauto]. exists tk, []. split; [done|]. unfold short_literal in E. repeat case_match; by simplify_eq.
  - destruct t; simpl; eauto.
Qed.
Lemma str_of_txt s : str_of (txt s) = s.
Proof. induction s as [|c s IH]; [done|]. unfold str_of, txt in *. simpl. f_equal. exact IH. Qed.
Lemma type_iri_back t : nonempty (type_iri t) = true → from_iri (Some (str_of (type_iri t))) = t.
Proof.
  unfold type_iri. pose proof (names_ok t) as H. unfold named_ok in H. destruct (to_string t); [|done]. intros _. rewrite str_of_txt. rewrite !andb_true_iff in H. by destruct H as [[_ H%bool_decide_eq_true] _].
Qed.

Section Exprs.
Context (iri_error : text → option text) (pref : gmap text text).

Definition prints (e : Expr) (rec : PM Expr) (n : nat) : Prop :=
  ∀ st k v rest, wf_expr iri_error (aggregatesAllowed st) e = true → reads (print e ++ (k, v) :: rest) st → op_class k < 6 →
  yields (parsePrimary iri_error pref rec n) st e ((k, v) :: rest) (has_aggregate e).

Lemma unary_prints e rec loops n st k v rest : prints e rec loops → wf_expr iri_error (aggregatesAllowed st) e = true → reads (print e ++ (k, v) :: rest) st → op_class k < 6 →
  yields (parseUnaryExpr iri_error pref rec loops (S n)) st e ((k, v) :: rest) (has_aggregate e).
Proof. intros Hp Hw Hr Hk. destruct (print_head e) as (t & ts & E & Hh). eapply unary_prim; [|exact Hh|apply Hp; done]. rewrite E in Hr. exact Hr. Qed.
Lemma filter_prints e m st k v rest : prints e (parseFilterExpr iri_error pref m) (S m) → 1 ≤ m → wf_expr iri_error (aggregatesAllowed st) e = true →
  reads (print e ++ (k, v) :: rest) st → op_class k < 1 → yields (parseFilterExpr iri_error pref (S m)) st e ((k, v) :: rest) (has_aggregate e).
Proof. intros Hp Hm Hw Hr Hk. simpl. apply or_unary; [lia| |done]. apply unary_prints; [done..|lia]. Qed.

Lemma prim_parens rec n st e ts rest s : reads (parens ts ++ rest) st →
  (∀ st', reads (ts ++ sym TK.RightParen :: rest) st' → aggregatesAllowed st' = aggregatesAllowed st → yields rec st' e (sym TK.RightParen :: rest) s) →
  yields (parsePrimary iri_error pref rec n) st e rest s.
Proof.
  unfold parens. simpl. rewrite <-app_assoc. intros [H Hr] Hrec. unfold parsePrimary. apply y_get. known H. apply y_adv. destruct (step_flags st) as [Ea _].
  eapply y_bind; [apply Hrec; [exact Hr|done]|symmetry; apply orb_false_r|]. intros st' [H' Hr'] _. eapply y_eat; [exact H'|]. by apply y_ret.
Qed.

(** Literals. *)
Lemma prim_number rec n st l rest : reads ((TK.Number, l) :: rest) st →
  yields (parsePrimary iri_error pref rec n) st (LiteralExpr l (if existsb (eqc ".") l then TDecimal else TInteger) []) rest false.
Proof. intros [H Hr]. unfold parsePrimary. apply y_get. known H. apply y_adv. by apply y_ret. Qed.
Lemma prim_string rec n st l k v rest : reads ((TK.StringLit, l) :: (k, v) :: rest) st → op_class k < 6 →
  yields (parsePrimary iri_error pref rec n) st (LiteralExpr l TString []) ((k, v) :: rest) false.
Proof. intros [H Hr] Hk. unfold parsePrimary. apply y_get. known H. unfold parse_string. apply y_adv, y_get. rewrite (class_is _ _ _ _ TK.DoubleCaret 6 Hr) by (simpl; lia). by apply y_ret. Qed.
Lemma prim_typed rec n st l d rest : reads ((TK.StringLit, l) :: sym TK.DoubleCaret :: (TK.IRI, d) :: rest) st → iri_error d = None →
  yields (parsePrimary iri_error pref rec n) st
    (let t := from_iri (Some (str_of d)) in if bool_decide (t = TAnyLiteralNode) then LiteralExpr l TAnyLiteralScalar d else LiteralExpr l t []) rest false.
Proof.
  intros (H & H2 & H3 & Hr) Hd. unfold parsePrimary. apply y_get. known H. unfold parse_string. apply y_adv, y_get. known H2. apply y_adv, y_get. known H3.
  eapply y_bind; [apply y_adv; by apply y_ret|done|]. intros st' Hr' _. rewrite Hd. by apply y_ret.
Qed.
Lemma prim_iri rec n st l k v rest : reads ((TK.IRI, l) :: (k, v) :: rest) st → op_class k < 6 →
  yields (parsePrimary iri_error pref rec n) st (LiteralExpr l TAnyIRI []) ((k, v) :: rest) false.
Proof. intros [H Hr] Hk. unfold parsePrimary. apply y_get. known H. unfold parse_iri_or_cast. apply y_adv, y_get. rewrite (class_is _ _ _ _ TK.LeftParen 6 Hr) by (simpl; lia). by apply y_ret. Qed.
Lemma prim_truth rec n st (b : bool) k v rest : reads (word (if b then "TRUE" else "FALSE") :: (k, v) :: rest) st → op_class k < 6 →
  yields (parsePrimary iri_error pref rec n) st (LiteralExpr (if b then txt "true" else txt "false") TBoolean []) ((k, v) :: rest) false.
Proof.
  intros [H Hr] Hk. unfold parsePrimary. apply y_get. rewrite peek_step, (kind_tokv _ _ _ (proj1 Hr)), (bool_decide_false (k = TK.LeftParen)) by (intros ->; simpl in Hk; lia). rewrite andb_false_r.
  destruct b; known H; apply y_adv; by apply y_ret.
Qed.
Lemma digits_no_dot l : forallb isdigit l = true → existsb (eqc ".") l = false.
Proof. induction l as [|c l IH]; [done|]. simpl. intros [Hc Hl]%andb_true_iff. rewrite (IH Hl), orb_false_r. destruct c as [[] [] [] [] [] [] [] []]; vm_compute in Hc |- *; congruence. Qed.
Lemma decimal_dot l : decimal_text l = true → existsb (eqc ".") l = true.
Proof.
  unfold decimal_text. destruct (split_first "." l) as [[a b]|] eqn:E; [|done]. intros _. revert a b E. induction l as [|c l IH]; intros a b E; [done|]. cbn [existsb split_first] in *. destruct (eqc c ".") eqn:Ec.
  - assert (eqc "." c = true) as ->; [|done]. unfold eqc in *. by rewrite Ascii.eqb_sym.
  - destruct (split_first "." l) as [[a' b']|]; [|done]. rewrite (IH a' b'); [by rewrite orb_true_r|done].
Qed.

Lemma literal_prints l t d rec n : prints (LiteralExpr l t d) rec n.
Proof.
  intros st k v rest Hw Hr Hk. simpl in *. unfold wf_literal, print_literal in *. destruct (short_literal l t) as [tk|] eqn:E.
  - apply andb_true_iff in Hw as [Hv ->%bool_decide_eq_true]. change ([tk] ++ (k, v) :: rest) with (tk :: (k, v) :: rest) in Hr. unfold short_literal in E. destruct t; try discriminate E.
    + injection E as <-. by apply prim_string.
    + destruct (bool_decide_reflect (l = txt "true")) as [->|]; [injection E as <-; by apply (prim_truth rec n st true)|].
      destruct (bool_decide_reflect (l = txt "false")) as [->|]; [injection E as <-; by apply (prim_truth rec n st false)|done].
    + destruct (decimal_text l) eqn:Ed; [|done]. injection E as <-. pose proof (prim_number rec n st l _ Hr) as H. by rewrite (decimal_dot l Ed) in H.
    + destruct (digits_text l) eqn:Ed; [|done]. injection E as <-. pose proof (prim_number rec n st l _ Hr) as H. unfold digits_text in Ed. apply andb_true_iff in Ed as [_ Ed]. by rewrite (digits_no_dot l Ed) in H.
    + injection E as <-. by apply prim_iri.
  - cbn [app] in Hr. destruct (bool_decide_reflect (t = TAnyLiteralScalar)) as [->|Ht].
    + apply andb_true_iff in Hw as [[_ Hd%bool_decide_eq_true]%andb_true_iff Hn%bool_decide_eq_true]. pose proof (prim_typed rec n st l d _ Hr Hd) as H. cbv zeta in H. by rewrite Hn in H.
    + rewrite !andb_true_iff in Hw. destruct Hw as [[[Hne [_ Hd%bool_decide_eq_true]%andb_true_iff] Hnn%bool_decide_eq_true] ->%bool_decide_eq_true].
      pose proof (prim_typed rec n st l _ _ Hr Hd) as H. cbv zeta in H. rewrite (type_iri_back t Hne), bool_decide_false in H by done. done.
Qed.

(** Operators, in parentheses. *)
#[local] Abbreviation rp rest := (sym TK.RightParen :: rest).
Section Operands.
Context (m : nat) (Hm : 2 ≤ m).
#[local] Abbreviation rec := (parseFilterExpr iri_error pref m).
#[local] Abbreviation pr e := (prints e rec (S m)).
#[local] Abbreviation wf st e := (wf_expr iri_error (aggregatesAllowed st) e = true).

Lemma filter_unary_op st t f o rest : (t = TK.Bang ∧ f = NotExpr o) ∨ (t = TK.Minus ∧ f = NegateExpr o) → pr o → wf st o → reads (sym t :: print o ++ rp rest) st →
  yields (parseFilterExpr iri_error pref (S m)) st f (rp rest) (has_aggregate o).
Proof.
  intros Ht Hp Hw [H Hr]. simpl. apply or_unary; [lia| |simpl; lia]. destruct m as [|m']; [lia|]. cbn [parseUnaryExpr]. apply y_get. destruct (step_flags st) as [Ea _].
  assert (yields (parseUnaryExpr iri_error pref (parseFilterExpr iri_error pref (S m')) (S (S m')) (S m')) (step st) o (rp rest) (has_aggregate o)) as Hu.
  { apply unary_prints; [done|by rewrite Ea|done|simpl; lia]. }
  destruct Ht as [[-> ->]|[-> ->]]; known H; apply y_adv; (eapply y_bind; [exact Hu|symmetry; apply orb_false_r|]); intros; by apply y_ret.
Qed.

Lemma filter_arith st op l r rest : pr l → pr r → wf st l → wf st r → reads (print l ++ sym (arith_tok op) :: print r ++ rp rest) st →
  yields (parseFilterExpr iri_error pref (S m)) st (ArithExpr op l r) (rp rest) (has_aggregate l || has_aggregate r).
Proof.
  intros Hl Hr Wl Wr Hst. simpl. apply or_cmp; [lia| |simpl; lia]. apply cmp_add; [lia| |simpl; lia].
  assert (∀ st', aggregatesAllowed st' = aggregatesAllowed st → reads (print r ++ rp rest) st' →
    yields (parseUnaryExpr iri_error pref rec (S m) (S m)) st' r (rp rest) (has_aggregate r)) as Hur.
  { intros st' Ea Hr'. apply unary_prints; [done|by rewrite Ea|done|simpl; lia]. }
  assert (yields (parseUnaryExpr iri_error pref rec (S m) (S m)) st l (sym (arith_tok op) :: print r ++ rp rest) (has_aggregate l)) as Hul.
  { apply unary_prints; [done|done|done|by destruct op; simpl; lia]. }
  destruct m as [|m']; [lia|]. destruct op; simpl arith_tok in *.
  1,2: eapply y_bind; [apply mul_unary; [lia|exact Hul|simpl; lia]|reflexivity|]; intros st1 [H1 Hr1] Ea1; destruct (step_flags st1) as [Ea _]; cbn [add_loop]; apply y_get; known H1; apply y_adv;
    (eapply y_bind; [apply mul_unary; [lia|apply Hur; [by rewrite Ea|exact Hr1]|simpl; lia]|symmetry; apply orb_false_r|]); intros st2 [H2 Hr2] _; destruct m' as [|m']; [lia|]; cbn [add_loop]; apply y_get; known H2; by apply y_ret.
  all: apply add_mul; [lia| |simpl; lia]; (eapply y_bind; [exact Hul|reflexivity|]); intros st1 [H1 Hr1] Ea1; destruct (step_flags st1) as [Ea _]; cbn [mul_loop]; apply y_get; known H1; apply y_adv;
    (eapply y_bind; [apply Hur; [by rewrite Ea|exact Hr1]|symmetry; apply orb_false_r|]); intros st2 [H2 Hr2] _; destruct m' as [|m']; [lia|]; cbn [mul_loop]; apply y_get; known H2; by apply y_ret.
Qed.

Lemma add_prints st e k v rest : pr e → wf st e → reads (print e ++ (k, v) :: rest) st → op_class k < 4 →
  yields (parseAdditiveExpr iri_error pref rec (S m)) st e ((k, v) :: rest) (has_aggregate e).
Proof. intros Hp Hw Hr Hk. apply add_mul; [lia| |done]. apply mul_unary; [lia| |lia]. apply unary_prints; [done..|lia]. Qed.
Lemma cmp_prints st e k v rest : pr e → wf st e → reads (print e ++ (k, v) :: rest) st → op_class k < 3 →
  yields (parseComparisonExpr iri_error pref rec (S m)) st e ((k, v) :: rest) (has_aggregate e).
Proof. intros Hp Hw Hr Hk. apply cmp_add; [lia| |done]. apply add_prints; [done..|lia]. Qed.
Lemma and_prints st e k v rest : pr e → wf st e → reads (print e ++ (k, v) :: rest) st → op_class k < 2 →
  yields (parseAndFilterExpr iri_error pref rec (S m)) st e ((k, v) :: rest) (has_aggregate e).
Proof. intros Hp Hw Hr Hk. apply and_cmp; [lia| |done]. apply cmp_prints; [done..|lia]. Qed.

Lemma filter_compare st op l r rest : pr l → pr r → wf st l → wf st r → reads (print l ++ sym (compare_tok op) :: print r ++ rp rest) st →
  yields (parseFilterExpr iri_error pref (S m)) st (CompareExpr op l r) (rp rest) (has_aggregate l || has_aggregate r).
Proof.
  intros Hl Hr Wl Wr Hst. simpl. apply or_cmp; [lia| |simpl; lia]. eapply y_bind; [apply add_prints; [exact Hl|exact Wl|exact Hst|destruct op; simpl; lia]|reflexivity|].
  intros st1 [H1 Hr1] Ea1. destruct (step_flags st1) as [Ea _]. apply y_get. rewrite (kind_tokv _ _ _ H1). assert (compare_op (compare_tok op) = Some op) as -> by (by destruct op). apply y_adv.
  eapply y_bind; [apply add_prints; [exact Hr|by rewrite Ea, Ea1|exact Hr1|simpl; lia]|symmetry; apply orb_false_r|]. intros st2 Hr2 _. by apply y_ret.
Qed.

(** The operands behind the first one. *)
Lemma ops_split (ops : list Expr) sep rest st : 2 ≤ length ops → reads (join (sym sep) (map print ops) ++ rp rest) st →
  ∃ e es, ops = e :: es ∧ es ≠ [] ∧ ∃ rest', concat (map (λ y, sym sep :: y) (map print es)) ++ rp rest = sym sep :: rest' ∧ reads (print e ++ sym sep :: rest') st.
Proof.
  intros Hl Hr. destruct ops as [|e [|e' es]]; simpl in Hl; [lia|lia|]. exists e, (e' :: es). split_and!; [done..|]. cbn [map] in Hr. rewrite join_cons, <-app_assoc in Hr.
  simpl in Hr |- *. eauto.
Qed.
Lemma filter_and st ops rest : Forall (λ e, pr e) ops → forallb (wf_expr iri_error (aggregatesAllowed st)) ops = true → 2 ≤ length ops → length ops ≤ m →
  reads (join (sym TK.AndAnd) (map print ops) ++ rp rest) st →
  yields (parseFilterExpr iri_error pref (S m)) st (AndExpr ops) (rp rest) (existsb has_aggregate ops).
Proof.
  intros Hp Hw Hl Hlm Hr. destruct (ops_split _ _ _ _ Hl Hr) as (e & es & -> & Hne & rest' & E & Hr'). simpl. apply or_and; [lia| |simpl; lia]. apply Forall_cons in Hp as [Hp Hps]. simpl in Hw. apply andb_true_iff in Hw as [Hw Hws].
  eapply y_bind; [apply cmp_prints; [exact Hp|exact Hw|exact Hr'|simpl; lia]|reflexivity|]. intros st1 Hr1 Ea1. apply y_get. rewrite (is_tokv _ _ _ _ (proj1 Hr1)). bd. change (reads (sym TK.AndAnd :: rest') st1) in Hr1. rewrite <-E in Hr1.
  eapply y_bind; [|symmetry; apply orb_false_r|intros st2 Hr2 _; apply y_ret; exact Hr2].
  refine (sep_loop TK.AndAnd _ (and_loop iri_error pref rec (S m)) 3 TK.RightParen _ _ _ _ _ _ es [e] (S m) st1 _ _ _); [reflexivity|done|simpl; lia|simpl; lia| |exact Hr1|simpl in Hlm; lia].
  intros e0 st0 k' v' rest0 Hin Ha0 Hr0 Hk'. apply cmp_prints; [by eapply Forall_forall in Hps| |done..]. rewrite Ha0, Ea1. rewrite forallb_forall in Hws. by apply Hws, list_elem_of_In.
Qed.
Lemma filter_or st ops rest : Forall (λ e, pr e) ops → forallb (wf_expr iri_error (aggregatesAllowed st)) ops = true → 2 ≤ length ops → length ops ≤ m →
  reads (join (sym TK.OrOr) (map print ops) ++ rp rest) st →
  yields (parseFilterExpr iri_error pref (S m)) st (OrExpr ops) (rp rest) (existsb has_aggregate ops).
Proof.
  intros Hp Hw Hl Hlm Hr. destruct (ops_split _ _ _ _ Hl Hr) as (e & es & -> & Hne & rest' & E & Hr'). apply Forall_cons in Hp as [Hp Hps]. simpl in Hw. apply andb_true_iff in Hw as [Hw Hws].
  eapply y_bind; [apply and_prints; [exact Hp|exact Hw|exact Hr'|simpl; lia]|reflexivity|]. intros st1 Hr1 Ea1. apply y_get. rewrite (is_tokv _ _ _ _ (proj1 Hr1)). bd. change (reads (sym TK.OrOr :: rest') st1) in Hr1. rewrite <-E in Hr1.
  eapply y_bind; [|symmetry; apply orb_false_r|intros st2 Hr2 _; apply y_ret; exact Hr2].
  refine (sep_loop TK.OrOr _ (or_loop iri_error pref rec (S m)) 2 TK.RightParen _ _ _ _ _ _ es [e] (S m) st1 _ _ _); [reflexivity|done|simpl; lia|simpl; lia| |exact Hr1|simpl in Hlm; lia].
  intros e0 st0 k' v' rest0 Hin Ha0 Hr0 Hk'. apply and_prints; [by eapply Forall_forall in Hps| |done..]. rewrite Ha0, Ea1. rewrite forallb_forall in Hws. by apply Hws, list_elem_of_In.
Qed.
End Operands.

(** Calls. *)
Section Calls.
Context (m : nat) (Hm : 1 ≤ m).
#[local] Abbreviation rec := (parseFilterExpr iri_error pref (S m)).
#[local] Abbreviation pf e := (prints e (parseFilterExpr iri_error pref m) (S m)).
#[local] Abbreviation wf st e := (wf_expr iri_error (aggregatesAllowed st) e = true).

(** The arguments between the parentheses. *)
Lemma args_prints n st e es rest : Forall (λ e, pf e) (e :: es) → forallb (wf_expr iri_error (aggregatesAllowed st)) (e :: es) = true → length es < n →
  reads (join (sym TK.Comma) (map print (e :: es)) ++ rp rest) st →
  yields (let! e := rec in args_loop rec n [e]) st (e :: es) (rp rest) (existsb has_aggregate (e :: es)).
Proof.
  intros [Hp Hps]%Forall_cons Hw Hn Hr. simpl in Hw. apply andb_true_iff in Hw as [Hw Hws]. cbn [map] in Hr. rewrite join_cons, <-app_assoc in Hr.
  assert (∃ k v rest', concat (map (λ y, sym TK.Comma :: y) (map print es)) ++ rp rest = (k, v) :: rest' ∧ op_class k < 1) as (k & v & rest' & E & Hk).
  { destruct es as [|e' es]; [by exists TK.RightParen, (symbol TK.RightParen), rest; split; [|simpl; lia]|]. simpl. do 3 eexists. split; [reflexivity|simpl; lia]. }
  rewrite E in Hr. eapply y_bind; [apply filter_prints; done|reflexivity|]. intros st1 Hr1 Ea1.
  refine (sep_loop TK.Comma _ (args_loop rec) 1 TK.RightParen _ _ _ _ _ _ es [e] n st1 _ _ Hn); [reflexivity|done|simpl; lia|simpl; lia| |exact (eq_ind_r (λ ts, reads ts st1) Hr1 E)].
  intros e0 st0 k' v' rest0 Hin Ha0 Hr0 Hk'. apply filter_prints; [by eapply Forall_forall in Hps|done| |done..]. rewrite Ha0, Ea1. rewrite forallb_forall in Hws. by apply Hws, list_elem_of_In.
Qed.

(** A keyword with no syntax of its own. *)
Lemma own_syntax_kw name : own_syntax name = false →
  aggFnFromKeyword name = None ∧ ∀ w, w ∈ ["STR"; "LANG"; "TRUE"; "FALSE"] → bool_decide (name = txt w) = false.
Proof.
  unfold own_syntax. intros [H1%bool_decide_eq_false H2]%orb_false_iff. split; [by destruct (aggFnFromKeyword name)|]. intros w Hw. apply bool_decide_false. intros ->. apply H1. apply list_elem_of_fmap_2. set_solver.
Qed.
Lemma call_prints n st name args rest : keyword_text name && negb (own_syntax name) = true → nonempty args || negb (needs_args name) = true →
  Forall (λ e, pf e) args → forallb (wf_expr iri_error (aggregatesAllowed st)) args = true → length args ≤ n →
  reads ((TK.Keyword, name) :: parens (join (sym TK.Comma) (map print args)) ++ rest) st →
  yields (parsePrimary iri_error pref rec n) st (FunctionCallExpr name args) rest (existsb has_aggregate args).
Proof.
  intros [_ Hown%negb_true_iff]%andb_true_iff Hne Hp Hw Hn [H Hr]. unfold parens in Hr. cbn [app] in Hr. rewrite <-app_assoc in Hr. destruct Hr as [H1 Hr]. destruct (own_syntax_kw _ Hown) as [Hagg Hkw].
  destruct (step_flags st) as [Ea _]. destruct (step_flags (step st)) as [Ea' _]. rewrite Ea in Ea'.
  unfold parsePrimary. apply y_get. known H. rewrite !Hkw by set_solver. cbn [orb]. cbv iota.
  assert ((if bool_decide (kind (peek (tz st)) = TK.LeftParen) then aggFnFromKeyword name else None) = None) as -> by (case_bool_decide; done).
  destruct (bool_decide (name = txt "BOUND") || bool_decide (name = txt "LANGMATCHES")) eqn:Eb.
  - assert (needs_args name = true) as En.
    { unfold needs_args. apply bool_decide_true. apply orb_true_iff in Eb as [->%bool_decide_eq_true| ->%bool_decide_eq_true]; set_solver. }
    rewrite En in Hne. destruct args as [|e es]; [done|]. apply y_adv. eapply y_eat; [exact H1|].
    assert ((if bool_decide (name = txt "BOUND") then txt "BOUND" else txt "LANGMATCHES") = name) as ->.
    { apply orb_true_iff in Eb as [->%bool_decide_eq_true| ->%bool_decide_eq_true]; [by rewrite bool_decide_true|]. by case_bool_decide. }
    apply y_assoc. eapply y_bind; [apply args_prints; [done|by rewrite Ea'|simpl in Hn; lia|exact Hr]|symmetry; apply orb_false_r|]. intros st2 [H3 Hr3] _. eapply y_eat; [exact H3|]. by apply y_ret.
  - unfold parse_call. apply y_get, y_adv, y_get. known H1. rewrite (val_tokv _ _ _ H). apply y_adv, y_get. destruct args as [|e es].
    + simpl in Hr. destruct Hr as [H2 Hr]. known H2. apply (y_bind _ _ _ [] _ (rp rest) false rest false); [by apply y_ret|reflexivity|]. intros st2 [H3 Hr3] _. eapply y_eat; [exact H3|]. by apply y_ret.
    + assert (is_ TK.RightParen (step (step st)) = false) as ->.
      { destruct (print_head e) as (t & ts & Ep & Hh). cbn [map] in Hr. rewrite join_cons, Ep in Hr. destruct Hr as [H2 _]. destruct t as [k v]. rewrite (is_tokv _ _ _ _ H2). by destruct k. }
      eapply y_bind; [apply (args_prints n); [done|by rewrite Ea'|simpl in Hn; lia|exact Hr]|symmetry; apply orb_false_r|]. intros st2 [H3 Hr3] _. eapply y_eat; [exact H3|]. by apply y_ret.
Qed.

(** Casts. *)
Lemma cast_target_back t : isSupportedCastTarget t = true → resolveXsdTypeFromIri (type_iri t) = Some t ∧ foldCastTargetType t = t.
Proof. destruct t; try discriminate; intros _; split; vm_compute; reflexivity. Qed.
Lemma cast_prints n st o t b rest : pf o → wf st o → match t with Some t => isSupportedCastTarget t && negb b | None => true end = true →
  reads (cast_tok t b :: parens (print o) ++ rest) st → yields (parsePrimary iri_error pref rec n) st (CastExpr o t b) rest (has_aggregate o).
Proof.
  intros Hp Hw Ht [H Hr]. unfold parens in Hr. cbn [app] in Hr. rewrite <-app_assoc in Hr. destruct Hr as [H1 Hr]. destruct (step_flags st) as [Ea _]. destruct (step_flags (step st)) as [Ea' _]. rewrite Ea in Ea'.
  assert (yields rec (step (step st)) o (rp rest) (has_aggregate o)) as Ho by (apply filter_prints; [done|done|by rewrite Ea'|exact Hr|simpl; lia]).
  unfold parsePrimary. apply y_get. destruct t as [t|].
  - apply andb_true_iff in Ht as [Ht ->%negb_true_iff]. destruct (cast_target_back t Ht) as [E1 E2]. unfold cast_tok in H. known H. unfold parse_iri_or_cast. apply y_adv, y_get. known H1. apply y_adv. rewrite E1, E2, Ht. cbn [negb].
    eapply y_bind; [exact Ho|symmetry; apply orb_false_r|]. intros st2 [H3 Hr3] _. eapply y_eat; [exact H3|]. by apply y_ret.
  - unfold cast_tok, word in H. assert (aggFnFromKeyword (txt (if b then "LANG" else "STR")) = None) as Hagg by (destruct b; vm_compute; reflexivity).
    rewrite peek_step, (kind_tokv _ _ _ H1). known H. rewrite Hagg. destruct b; bd.
    all: apply y_adv; (eapply y_eat; [exact H1|]); (eapply y_bind; [exact Ho|symmetry; apply orb_false_r|]); intros st2 [H3 Hr3] _; (eapply y_eat; [exact H3|]); by apply y_ret.
Qed.

(** Aggregates. *)
Lemma print_not_distinct agg e ts : wf_expr iri_error agg e = true → print e ≠ word "DISTINCT" :: ts.
Proof.
  intros Hw E. destruct e as [|l t d| | | | | | |name args|o t b|fn di arg se]; simpl in *; try discriminate E.
  - unfold print_literal, short_literal in E. repeat case_match; try discriminate E; simplify_eq.
  - injection E as -> _. unfold own_syntax in Hw. rewrite bool_decide_true in Hw by set_solver. rewrite !andb_false_r in Hw. discriminate Hw.
  - destruct t; [discriminate E|]. destruct b; discriminate E.
  - destruct fn; discriminate E.
Qed.
Lemma y_arg st a k v rest : pf a → wf_expr iri_error false a = true → aggregatesAllowed st = true → reads (print a ++ (k, v) :: rest) st → op_class k < 1 →
  yields (allow false;; let! e := rec in allow true;; retP (Some e)) st (Some a) ((k, v) :: rest) (has_aggregate a).
Proof.
  intros Hp Hw Ha Hr Hk. destruct (filter_prints a m (mkPS (tz st) (tok st) false (sawAggregate st)) k v rest Hp Hm Hw) as (st' & E & Hr' & _ & Hs); [by eapply reads_flags; [..|exact Hr]|done|].
  exists (mkPS (tz st') (tok st') true (sawAggregate st')). split_and!; [|by eapply reads_flags; [..|exact Hr']|by rewrite Ha|exact Hs]. unfold bindP, allow. by rewrite E.
Qed.
Lemma y_separator st fn separator rest : fn = GroupConcat ∨ separator = txt " " →
  reads ((if bool_decide (fn = GroupConcat) then [sym TK.Semicolon; word "SEPARATOR"; sym TK.Eq; (TK.StringLit, separator)] else []) ++ rp rest) st →
  yields (if bool_decide (fn = GroupConcat) && is_ TK.Semicolon st then
            advance;; eatKw "SEPARATOR";; eat TK.Eq;;
            let! st4 := getP in
            if negb (is_ TK.StringLit st4) then throwP (txt "Expected string literal after SEPARATOR= at line " ++ at_line st4) else advance;; retP (val st4)
          else retP (txt " ")) st separator (rp rest) false.
Proof.
  intros Hs Hr. case_bool_decide as Hfn.
  - cbn [app] in Hr. destruct Hr as (H1 & H2 & H3 & H4 & Hr). known H1. apply y_adv. eapply y_eatKw; [exact H2|]. eapply y_eat; [exact H3|]. apply y_get. known H4. apply y_adv. by apply y_ret.
  - destruct Hs as [->| ->]; [done|]. by apply y_ret.
Qed.

Lemma aggregate_prints n st fn distinct arg separator rest :
  match arg with Some a => pf a ∧ wf_expr iri_error false a = true | None => fn = Count end → (fn = GroupConcat ∨ separator = txt " ") → aggregatesAllowed st = true →
  reads (print (AggregateExpr fn distinct arg separator) ++ rest) st → yields (parsePrimary iri_error pref rec n) st (AggregateExpr fn distinct arg separator) rest true.
Proof.
  intros Harg Hsep Hall Hr. cbn [print] in Hr. unfold parens in Hr. cbn [app] in Hr. rewrite <-!app_assoc in Hr. destruct Hr as (H & H1 & Hr).
  unfold parsePrimary. apply y_get. rewrite peek_step, (kind_tokv _ _ _ H1). known H. assert (aggFnFromKeyword (aggFnName fn) = Some fn) as -> by (by destruct fn).
  unfold parseAggregate. apply y_get. rewrite Hall. cbn [negb]. apply y_adv. eapply y_eat; [exact H1|]. apply y_get. destruct (step_flags st) as [Ea _]. destruct (step_flags (step st)) as [Ea' _]. rewrite Ea in Ea'.
  set (A := match arg with Some a => print a | None => [sym TK.Star] end) in *. set (S' := if bool_decide (fn = GroupConcat) then _ else _) in *.
  assert (∃ t ts, A = t :: ts ∧ t ≠ word "DISTINCT" ∧ t.1 ≠ TK.Star ∨ A = [sym TK.Star] ∧ arg = None) as HA.
  { destruct arg as [a|]; [|by exists (sym TK.Star), []; right]. destruct Harg as [_ Hw]. destruct (print_head a) as (t & ts & E & Hh). exists t, ts. left. split_and!; [exact E| |by intros Et; rewrite Et in Hh].
    intros ->. by apply (print_not_distinct false a ts). }
  assert (kw "DISTINCT" (step (step st)) = distinct) as Hd.
  { destruct distinct; [destruct Hr as [H2 _]; by known H2|]. destruct HA as (t & ts & [(E & Ht & _)|[E _]]); rewrite E in Hr; destruct Hr as [H2 _].
    - destruct t as [k v]. rewrite (kw_tokv _ _ _ _ H2). case_bool_decide as Hk; [|done]. case_bool_decide as Hv; [|done]. by subst.
    - by known H2. }
  rewrite Hd. apply (y_bind _ _ _ tt _ (A ++ S' ++ rp rest) false rest true); [destruct distinct; [by apply (y_adv_end _ (word "DISTINCT"))|by apply y_ret]|done|].
  intros st2 Hr2 Ea2. apply y_get. rewrite Ea', Hall in Ea2. apply (y_bind _ _ _ arg _ (S' ++ rp rest) (match arg with Some a => has_aggregate a | None => false end) rest true); [|by rewrite orb_true_r|].
  - destruct HA as (t & ts & [(E & _ & Ht)|[E ->]]).
    + pose proof Hr2 as Hr2'. rewrite E in Hr2. cbn [app] in Hr2. destruct t as [k v]. rewrite (is_tokv _ _ _ _ (proj1 Hr2)), bool_decide_false by done. destruct arg as [a|]; [|exfalso; apply Ht; unfold A in E; by inversion E]. destruct Harg as [Hp Hw].
      unfold S', A in *. destruct (bool_decide (fn = GroupConcat)); apply y_arg; try done; simpl; lia.
    + rewrite E in Hr2. cbn [app] in Hr2. known (proj1 Hr2). rewrite Harg. rewrite bool_decide_true by done. cbn [negb]. apply y_adv, y_ret. exact (proj2 Hr2).
  - intros st3 Hr3 _. apply y_get. apply (y_bind _ _ _ separator _ (rp rest) false rest true); [by apply y_separator|done|]. intros st4 [H4 Hr4] _. apply y_get. known H4. apply y_adv.
    exists (mkPS (tz (step st4)) (tok (step st4)) (aggregatesAllowed (step st4)) true). split_and!; [done|by eapply reads_flags; [..|exact Hr4]|done|by rewrite orb_true_r].
Qed.
End Calls.

(** ** Every expression *)

Lemma join_length s ops : (∀ e, e ∈ ops → length (print e) ≤ length (join s (map print ops))) ∧ length ops ≤ length (join s (map print ops)).
Proof.
  induction ops as [|e ops [IH1 IH2]]; [split; [by intros e He%elem_of_nil|done]|]. destruct (print_head e) as (t & ts & E & _).
  assert (length (join s (map print (e :: ops))) = length (print e) + match ops with [] => 0 | _ => S (length (join s (map print ops))) end) as ->.
  { destruct ops as [|e' ops]; simpl; [lia|]. rewrite length_app. reflexivity. }
  rewrite E. split; [intros e0 [->|He0]%elem_of_cons; [rewrite E; lia|specialize (IH1 e0 He0); destruct ops; [by apply elem_of_nil in He0|lia]]|].
  destruct ops; simpl in *; lia.
Qed.
Lemma print_length e : 1 ≤ length (print e).
Proof. destruct (print_head e) as (t & ts & -> & _). simpl. lia. Qed.
Lemma parens_length ts : length (parens ts) = S (S (length ts)).
Proof. unfold parens. simpl. rewrite length_app. simpl. lia. Qed.

Lemma all_prints e : ∀ m n, length (print e) ≤ m → length (print e) ≤ n → prints e (parseFilterExpr iri_error pref m) n.
Proof.
  induction e as [v|l t d|o IH|ops IH|ops IH|op l r IHl IHr|op l r IHl IHr|o IH|name args IH|o t b IH|fn di arg sep IH] using Expr_rect'; intros m n Hm Hn.
  - intros st k v0 rest Hw [H Hr] Hk. unfold parsePrimary. apply y_get. known H. apply y_adv. by apply y_ret.
  - apply literal_prints.
  - intros st k v rest Hw Hr Hk. cbn [print wf_expr length] in Hm, Hw. rewrite parens_length in Hm. simpl in Hm. pose proof (print_length o). destruct m as [|m]; [lia|].
    eapply prim_parens; [exact Hr|]. intros st' Hr' Ea. apply (filter_unary_op m ltac:(lia) st' TK.Bang (NotExpr o) o); [by left|apply IH; lia|by rewrite Ea|exact Hr'].
  - intros st k v rest Hw Hr Hk. cbn [print wf_expr length] in Hm, Hw. rewrite parens_length in Hm. apply andb_true_iff in Hw as [Hl%Nat.leb_le Hw]. destruct (join_length (sym TK.AndAnd) ops) as [J1 J2]. destruct m as [|m]; [lia|].
    eapply prim_parens; [exact Hr|]. intros st' Hr' Ea. apply filter_and; [lia| |by rewrite Ea|done|lia|exact Hr']. apply Forall_forall. intros e He. eapply Forall_forall in IH; [|exact He]. specialize (J1 e He). apply IH; lia.
  - intros st k v rest Hw Hr Hk. cbn [print wf_expr length] in Hm, Hw. rewrite parens_length in Hm. apply andb_true_iff in Hw as [Hl%Nat.leb_le Hw]. destruct (join_length (sym TK.OrOr) ops) as [J1 J2]. destruct m as [|m]; [lia|].
    eapply prim_parens; [exact Hr|]. intros st' Hr' Ea. apply filter_or; [lia| |by rewrite Ea|done|lia|exact Hr']. apply Forall_forall. intros e He. eapply Forall_forall in IH; [|exact He]. specialize (J1 e He). apply IH; lia.
  - intros st k v rest Hw Hr Hk. cbn [print wf_expr length] in Hm, Hw. rewrite parens_length, length_app in Hm. simpl in Hm. apply andb_true_iff in Hw as [Hwl Hwr]. pose proof (print_length l). destruct m as [|m]; [lia|].
    eapply prim_parens; [exact Hr|]. intros st' Hr' Ea. rewrite <-app_assoc in Hr'. apply filter_compare; [lia|apply IHl; lia|apply IHr; lia|by rewrite Ea..|exact Hr'].
  - intros st k v rest Hw Hr Hk. cbn [print wf_expr length] in Hm, Hw. rewrite parens_length, length_app in Hm. simpl in Hm. apply andb_true_iff in Hw as [Hwl Hwr]. pose proof (print_length l). destruct m as [|m]; [lia|].
    eapply prim_parens; [exact Hr|]. intros st' Hr' Ea. rewrite <-app_assoc in Hr'. apply filter_arith; [lia|apply IHl; lia|apply IHr; lia|by rewrite Ea..|exact Hr'].
  - intros st k v rest Hw Hr Hk. cbn [print wf_expr length] in Hm, Hw. rewrite parens_length in Hm. simpl in Hm. pose proof (print_length o). destruct m as [|m]; [lia|].
    eapply prim_parens; [exact Hr|]. intros st' Hr' Ea. apply (filter_unary_op m ltac:(lia) st' TK.Minus (NegateExpr o) o); [by right|apply IH; lia|by rewrite Ea|exact Hr'].
  - intros st k v rest Hw Hr Hk. cbn [print wf_expr length] in Hm, Hn, Hw. rewrite parens_length in Hm, Hn. apply andb_true_iff in Hw as [[Hw Hne]%andb_true_iff Hws]. destruct (join_length (sym TK.Comma) args) as [J1 J2]. destruct m as [|m]; [lia|].
    apply call_prints; [lia|done|done| |done|lia|exact Hr]. apply Forall_forall. intros e He. eapply Forall_forall in IH; [|exact He]. specialize (J1 e He). pose proof (print_length e). apply IH; lia.
  - intros st k v rest Hw Hr Hk. cbn [print wf_expr length] in Hm, Hw. rewrite parens_length in Hm. apply andb_true_iff in Hw as [Hw Ht]. destruct m as [|m]; [lia|]. pose proof (print_length o). apply (cast_prints m ltac:(lia) n st o t b); [apply IH; lia|done|done|exact Hr].
  - intros st k v rest Hw Hr Hk. cbn [print wf_expr length] in Hm, Hw. rewrite parens_length, !length_app in Hm. rewrite !andb_true_iff in Hw. destruct Hw as [[Ha Harg] Hsep]. destruct m as [|m]; [lia|].
    apply aggregate_prints; [| |by apply orb_true_iff in Hsep as [?%bool_decide_eq_true|?%bool_decide_eq_true]; [left|right]|done|exact Hr].
    + destruct arg as [a|]; simpl in Hm; [pose proof (print_length a)|]; lia.
    + destruct arg as [a|]; [|by apply bool_decide_eq_true in Harg]. split; [|done]. apply (IH a eq_refl); lia.
Qed.

(** The parser of expressions reads a printed expression, up to the token behind
    it, which no expression goes on with. *)
Lemma parse_print e n st k v rest : wf_expr iri_error (aggregatesAllowed st) e = true → reads (print e ++ (k, v) :: rest) st → op_class k < 1 → length (print e) < n →
  yields (parseFilterExpr iri_error pref n) st e ((k, v) :: rest) (has_aggregate e).
Proof. intros Hw Hr Hk Hn. pose proof (print_length e). destruct n as [|n]; [lia|]. apply filter_prints; [apply all_prints; lia|lia|done..]. Qed.
Lemma primary_print e n st k v rest : wf_expr iri_error (aggregatesAllowed st) e = true → reads (print e ++ (k, v) :: rest) st → op_class k < 6 → length (print e) ≤ n →
  yields (primaryExpr iri_error pref n) st e ((k, v) :: rest) (has_aggregate e).
Proof. intros Hw Hr Hk Hn. by apply all_prints. Qed.
End Exprs.
