(* ===== verification/SparqlPatternRoundtrip.v ===== *)
(** * Parsing printed patterns

    The parser of graph patterns yields what a printed pattern denotes. *)

From S2P Require Import Prelude Serialization GraphDataOps FuzzyTurtle Datatypes SparqlText SparqlLexer SparqlParser SparqlQuery SparqlTermination SparqlSyntax SparqlExprRoundtrip.
From Stdlib Require Import Strings.Ascii.
#[local] Open Scope nat_scope.
#[local] Open Scope list_scope.
#[local] Open Scope parse_scope.

Lemma no_aggregate iri_error e : wf_expr iri_error false e = true → has_aggregate e = false.
Proof.
  assert (∀ l, Forall (λ e, wf_expr iri_error false e = true → has_aggregate e = false) l → forallb (wf_expr iri_error false) l = true → existsb has_aggregate l = false) as Hl.
  { induction 1 as [|x l Hx _ IH]; [done|]. simpl. intros [Hw Hws]%andb_true_iff. by rewrite (Hx Hw), (IH Hws). }
  induction e as [v|l t d|o IH|ops IH|ops IH|op l r IHl IHr|op l r IHl IHr|o IH|name args IH|o t b IH|fn di arg sep IH] using Expr_rect'; simpl; try done; intros Hw; rewrite ?andb_true_iff in Hw.
  - apply Hl; [exact IH|]. by destruct Hw.
  - apply Hl; [exact IH|]. by destruct Hw.
  - destruct Hw as [Hw1 Hw2]. by rewrite (IHl Hw1), (IHr Hw2).
  - destruct Hw as [Hw1 Hw2]. by rewrite (IHl Hw1), (IHr Hw2).
  - apply Hl; [exact IH|]. by destruct Hw.
  - apply IH. by destruct Hw.
Qed.

(** ** Triples *)

(** The tokens at which a list of triples ends. *)
Definition ends_ok (rest : list ptok) : Prop :=
  match rest with
  | t :: rest' => t ∈ [sym TK.RBrace; sym TK.LBrace; word "GRAPH"; word "OPTIONAL"; word "FILTER"] ∨ ((t.1 = TK.Var ∨ t.1 = TK.Number) ∧ head rest' = Some (word "TRUTH"))
  | [] => False
  end.
Lemma truth_of st k v rest : reads ((k, v) :: rest) st → k = TK.Var ∨ k = TK.Number → head rest = Some (word "TRUTH") → atTruthOf st = true.
Proof.
  intros [H Hr] Hk Hh. destruct rest as [|t rest]; [done|]. injection Hh as ->. destruct Hr as [H2 _]. unfold atTruthOf. rewrite peek_step. injection H2 as -> ->. rewrite !bool_decide_true by done.
  rewrite !(is_tokv _ _ _ _ H). by destruct Hk as [-> | ->].
Qed.
Lemma not_truth_of st t t' rest : reads (t :: t' :: rest) st → t' ≠ word "TRUTH" → atTruthOf st = false.
Proof.
  intros (H & H2 & _) Ht. unfold atTruthOf. rewrite peek_step. destruct t' as [k v]. injection H2 as -> ->. apply andb_false_iff. right. case_bool_decide as Hk; [|done]. case_bool_decide as Hv; [|done]. by subst.
Qed.
Lemma ends_ok_true rest st : ends_ok rest → reads rest st → ends_triples st = true.
Proof.
  destruct rest as [|t rest]; [done|]. intros Hok Hr. unfold ends_triples. destruct t as [k v]. destruct Hok as [Hin|[Hk Hh]].
  - destruct Hr as [H _]. rewrite !elem_of_cons, elem_of_nil in Hin. destruct Hin as [E|[E|[E|[E|[E|[]]]]]]; rewrite E in H; known H; rewrite ?orb_true_r; done.
  - rewrite (truth_of st k v rest Hr Hk Hh). by rewrite orb_true_r.
Qed.

Section Patterns.
Context (iri_error : text → option text) (pref : gmap text text).
#[local] Abbreviation elab_term := (elab_term pref).
#[local] Abbreviation elab_name := (elab_name pref).
#[local] Abbreviation elab_block := (elab_block pref).
#[local] Abbreviation elab := (elab pref).

Lemma y_term t st rest : reads (print_term t :: rest) st → yields (parseTerm pref) st (elab_term t) rest false.
Proof. intros [H Hr]. unfold parseTerm. apply y_get. destruct t; simpl in H; known H; apply y_adv; by apply y_ret. Qed.
Lemma y_name what t st rest : reads (print_name t :: rest) st → yields (expect_iri pref what) st (elab_name t) rest false.
Proof. intros [H Hr]. unfold expect_iri. apply y_get. destruct t; simpl in H; known H; apply y_adv; by apply y_ret. Qed.

Lemma term_starts t t' rest st : reads (print_term t :: print_term t' :: rest) st → ends_triples st = false ∧ is_ TK.Dot st = false.
Proof.
  intros Hr. assert (atTruthOf st = false) as Ht by (eapply not_truth_of; [exact Hr|]; by destruct t'). destruct Hr as [H _]. unfold ends_triples. rewrite Ht.
  destruct t; simpl in H; known H; split; reflexivity.
Qed.

Lemma y_commas n s p os out st rest : reads (concat (map (λ o, [sym TK.Comma; print_term o]) os) ++ sym TK.Dot :: rest) st → length os < n →
  yields (comma_loop pref n s p out) st (out ++ map (λ o, mkTriple s p (elab_term o)) os) (sym TK.Dot :: rest) false.
Proof.
  revert n out st. induction os as [|o os IH]; intros [|n] out st Hr Hn; [simpl in Hn; lia| |simpl in Hn; lia|]; simpl in Hr; destruct Hr as [H Hr]; simpl; apply y_get; known H.
  - rewrite app_nil_r. by apply y_ret.
  - apply y_adv. eapply y_bind; [apply y_term; exact Hr|reflexivity|]. intros st' Hr' _.
    pose proof (IH n (out ++ [mkTriple s p (elab_term o)]) st' Hr' ltac:(simpl in Hn; lia)) as Hy. by rewrite <-app_assoc in Hy.
Qed.
Lemma y_semicolons n s vs out st rest : reads (concat (map (λ '(p, o), [sym TK.Semicolon; print_term p; print_term o]) vs) ++ sym TK.Dot :: rest) st → length vs < n →
  yields (semicolon_loop pref n s out) st (out ++ map (λ '(p, o), mkTriple s (elab_term p) (elab_term o)) vs) (sym TK.Dot :: rest) false.
Proof.
  revert n out st. induction vs as [|[p o] vs IH]; intros [|n] out st Hr Hn; [simpl in Hn; lia| |simpl in Hn; lia|]; simpl in Hr; destruct Hr as [H Hr]; simpl; apply y_get; known H.
  - rewrite app_nil_r. by apply y_ret.
  - change (reads (print_term p :: print_term o :: concat (map (λ '(p, o), [sym TK.Semicolon; print_term p; print_term o]) vs) ++ sym TK.Dot :: rest) (step st)) in Hr.
    apply y_adv, y_get. assert (is_ TK.Dot (step st) || is_ TK.RBrace (step st) || is_ TK.Eof (step st) = false) as -> by (destruct Hr as [H2 _]; destruct p; simpl in H2; known H2; reflexivity).
    eapply y_bind; [apply y_term; exact Hr|reflexivity|]. intros st1 Hr1 _. eapply y_bind; [apply y_term; exact Hr1|reflexivity|]. intros st2 Hr2 _.
    pose proof (IH n (out ++ [mkTriple s (elab_term p) (elab_term o)]) st2 Hr2 ltac:(simpl in Hn; lia)) as Hy. by rewrite <-app_assoc in Hy.
Qed.
Lemma y_no_semicolon n s out st ts : reads ts st → match ts with t :: _ => t.1 ≠ TK.Semicolon | [] => False end → yields (semicolon_loop pref (S n) s out) st out ts false.
Proof. intros Hr Ht. destruct ts as [|[k v] ts]; [done|]. simpl. apply y_get. rewrite (is_tokv _ _ _ _ (proj1 Hr)), bool_decide_false by done. by apply y_ret. Qed.
Lemma y_skipDot st rest : reads (sym TK.Dot :: rest) st → yields skipDot st tt rest false.
Proof. intros [H Hr]. unfold skipDot. apply y_get. known H. by apply (y_adv_end _ (sym TK.Dot)). Qed.

(** One round of the loop over the triples. *)
Lemma y_block n b out st rest : reads (print_block b ++ rest) st → length (print_block b) < S n →
  ends_triples st = false ∧ is_ TK.Dot st = false ∧
  ∀ (k : list Triple → PM (list Triple)) a r, (∀ st', reads rest st' → aggregatesAllowed st' = aggregatesAllowed st → yields (k (out ++ elab_block b)) st' a r false) →
  yields (let! s := parseTerm pref in let! p := parseTerm pref in let! o := parseTerm pref in
          let! out := semicolon_loop pref (S n) s (out ++ [mkTriple s p o]) in let! out := comma_loop pref (S n) s p out in skipDot;; k out) st a r false.
Proof.
  intros Hr Hn. set (tl := match b with OneVerb _ _ _ os => concat (map (λ o, [sym TK.Comma; print_term o]) os) | ManyVerbs _ _ _ vs => concat (map (λ '(p, o), [sym TK.Semicolon; print_term p; print_term o]) vs) end).
  set (s := match b with OneVerb s _ _ _ | ManyVerbs s _ _ _ => s end). set (p := match b with OneVerb _ p _ _ | ManyVerbs _ p _ _ => p end). set (o := match b with OneVerb _ _ o _ | ManyVerbs _ _ o _ => o end).
  assert (reads (print_term s :: print_term p :: print_term o :: tl ++ sym TK.Dot :: rest) st) as Hr'.
  { unfold tl, s, p, o. destruct b; cbn [print_block app] in Hr; by rewrite <-app_assoc in Hr. }
  destruct (term_starts _ _ _ _ Hr') as [Hs Hd]. split_and!; [done..|]. intros k a r Hk.
  eapply y_bind; [apply y_term; exact Hr'|reflexivity|]. intros st1 Hr1 Ea1. eapply y_bind; [apply y_term; exact Hr1|reflexivity|]. intros st2 Hr2 Ea2. eapply y_bind; [apply y_term; exact Hr2|reflexivity|]. intros st3 Hr3 Ea3.
  assert (∀ st', reads (sym TK.Dot :: rest) st' → aggregatesAllowed st' = aggregatesAllowed st3 → yields (skipDot;; k (out ++ elab_block b)) st' a r false) as Hend.
  { intros st' Hr4 Ea'. eapply y_bind; [by apply y_skipDot|reflexivity|]. intros st'' Hr'' Ea''. apply Hk; [done|congruence]. }
  destruct b as [s' p' o' os|s' p' o' vs]; unfold tl in *; clear tl; cbn [print_block] in Hn; rewrite !length_app in Hn; simpl in Hn.
  - eapply y_bind; [apply y_no_semicolon; [exact Hr3|by destruct os]|reflexivity|]. intros st4 Hr4 Ea4.
    eapply y_bind; [apply y_commas; [exact Hr4|]|reflexivity|].
    + assert (length os ≤ length (concat (map (λ o, [sym TK.Comma; print_term o]) os))) by (clear; induction os; simpl; lia). lia.
    + intros st5 Hr5 Ea5. rewrite <-app_assoc. apply Hend; [exact Hr5|congruence].
  - eapply y_bind; [apply y_semicolons; [exact Hr3|]|reflexivity|].
    + assert (length vs ≤ length (concat (map (λ '(p, o), [sym TK.Semicolon; print_term p; print_term o]) vs))) by (clear; induction vs as [|[]]; simpl; lia). lia.
    + intros st4 Hr4 Ea4. eapply y_bind; [apply (y_commas (S n) (elab_term s) (elab_term p) []); [exact Hr4|simpl; lia]|reflexivity|]. intros st5 Hr5 Ea5. cbn [map]. rewrite app_nil_r, <-app_assoc. apply Hend; [exact Hr5|congruence].
Qed.

Lemma y_triples n bs out st rest : reads (concat (map print_block bs) ++ rest) st → ends_ok rest → length (concat (map print_block bs)) < n →
  yields (parseTriples pref n out) st (out ++ concat (map elab_block bs)) rest false.
Proof.
  revert n out st. induction bs as [|b bs IH]; intros [|n] out st Hr Hok Hn; [simpl in Hn; lia| |simpl in Hn; lia|]; cbn [parseTriples]; apply y_get.
  - rewrite (ends_ok_true _ _ Hok Hr). cbn [map concat]. rewrite app_nil_r. by apply y_ret.
  - cbn [map concat] in Hr, Hn. rewrite <-app_assoc in Hr. rewrite length_app in Hn. destruct (y_block n b out st _ Hr ltac:(lia)) as (-> & -> & H). apply H. intros st' Hr' _.
    pose proof (IH n (out ++ elab_block b) st' Hr' Hok) as Hy. rewrite <-app_assoc in Hy. apply Hy. assert (1 ≤ length (print_block b)) by (destruct b; simpl; lia). lia.
Qed.

(** ** Groups *)

#[local] Abbreviation els ps := (concat (map print_element ps)).
#[local] Abbreviation rb rest := (sym TK.RBrace :: rest).

(** The tokens that may follow an element. *)
Definition follow (x : SElement) (rest : list ptok) : Prop :=
  match rest with t :: _ => op_class t.1 < 1 ∧ t ≠ word "UNION" | [] => False end ∧ (is_triples x = true → ends_ok rest).

(** An element is read by one round of the loop of [parseGroup]. *)
Definition element_ok (x : SElement) : Prop := ∀ m n g truth out norm st rest,
  length (print_element x) ≤ m → length (print_element x) < n → wf_element iri_error x = true → aggregatesAllowed st = false →
  reads (print_element x ++ rest) st → follow x rest →
  is_ TK.RBrace st || is_ TK.Eof st = false ∧
  yields (group_element iri_error pref (parseGroup iri_error pref m) n g truth out norm) st (out ++ [elab g x], norm) rest false.

Lemma block_head bs rest : nonempty bs = true → ∃ t t' r, concat (map print_block bs) ++ rest = print_term t :: print_term t' :: r.
Proof. destruct bs as [|b bs]; [done|]. intros _. destruct b; simpl; eauto. Qed.
Lemma element_follow x y rest : wf_element iri_error y = true → is_triples x && is_triples y = false → follow x (print_element y ++ rest).
Proof.
  intros Hw Hxy. unfold follow. destruct y as [bs|ps|g ps|ps|t n ps|ps bs|e]; cbn [print_element app] in *.
  - destruct (block_head bs rest Hw) as (t & t' & r & E). simpl in *. rewrite andb_true_r in Hxy. rewrite E, Hxy. split; [|done]. destruct t; simpl; split; try done; lia.
  - split; [split; [simpl; lia|done]|]. intros _. left. set_solver.
  - split; [split; [simpl; lia|done]|]. intros _. left. set_solver.
  - split; [split; [simpl; lia|done]|]. intros _. left. set_solver.
  - split; [split; [destruct t; simpl; lia|by destruct t]|]. intros _. right. split; [destruct t; simpl; auto|done].
  - split; [split; [simpl; lia|done]|]. intros _. left. set_solver.
  - split; [split; [simpl; lia|done]|]. intros _. left. set_solver.
Qed.
Lemma brace_follow x rest : follow x (rb rest).
Proof. split; [split; [simpl; lia|done]|]. intros _. left. set_solver. Qed.
Lemma element_length x : wf_element iri_error x = true → 1 ≤ length (print_element x).
Proof. destruct x as [bs| | | | | |]; simpl; try (intros; lia). intros H. destruct bs as [|[] bs]; simpl in *; [done|lia..]. Qed.
Lemma els_length ps : forallb (wf_element iri_error) ps = true → length ps ≤ length (els ps) ∧ ∀ x, x ∈ ps → length (print_element x) ≤ length (els ps).
Proof.
  induction ps as [|x ps IH]; [split; [done|by intros x ?%elem_of_nil]|]. simpl. intros [Hx Hps]%andb_true_iff. rewrite length_app. pose proof (element_length x Hx). destruct (IH Hps) as [H1 H2].
  split; [lia|]. intros y [->|Hy]%elem_of_cons; [lia|]. specialize (H2 y Hy). lia.
Qed.

Lemma y_elements m loops g truth norm rest ps : Forall element_ok ps → wf_group iri_error ps = true → length (els ps) ≤ m → length (els ps) < loops → ∀ n out st,
  length ps < n → aggregatesAllowed st = false → reads (els ps ++ rb rest) st →
  yields (group_loop iri_error pref (parseGroup iri_error pref m) loops n g truth out norm) st (out ++ map (elab g) ps, norm) (rb rest) false.
Proof.
  intros Hok Hw. unfold wf_group in Hw. apply andb_true_iff in Hw as [Hsep Hw]. revert Hsep Hw. induction Hok as [|x ps Hx _ IH]; intros Hsep Hw Hm Hl [|n] out st Hn Ha Hr; [simpl in Hn; lia| |simpl in Hn; lia|]; cbn [group_loop]; apply y_get.
  - destruct Hr as [H Hr]. known H. cbn [map]. rewrite app_nil_r. by apply y_ret.
  - cbn [map concat forallb] in *. rewrite <-app_assoc in Hr. rewrite length_app in Hm, Hl. apply andb_true_iff in Hw as [Hwx Hws].
    assert (follow x (els ps ++ rb rest)) as Hf.
    { destruct ps as [|y ps]; [apply brace_follow|]. cbn [map concat forallb] in *. rewrite <-app_assoc. apply andb_true_iff in Hws as [Hwy _]. apply element_follow; [done|]. simpl in Hsep. apply andb_true_iff in Hsep as [Hsep%negb_true_iff _]. done. }
    destruct (Hx m loops g truth out norm st _ ltac:(lia) ltac:(lia) Hwx Ha Hr Hf) as [-> Hy]. eapply y_bind; [exact Hy|reflexivity|]. intros st' Hr' Ea'.
    assert (separated ps = true) as Hs by (destruct ps; [done|]; simpl in Hsep; by apply andb_true_iff in Hsep as [_ ?]).
    pose proof (IH Hs Hws ltac:(lia) ltac:(lia) n (out ++ [elab g x]) st' ltac:(simpl in Hn; lia) ltac:(by rewrite Ea') Hr') as Hy2. by rewrite <-app_assoc in Hy2.
Qed.

(** A group in braces. *)
Lemma y_group m g truth norm ps st rest : Forall element_ok ps → wf_group iri_error ps = true → (norm = None ∨ truth = true) → length (print_group norm ps) ≤ m →
  aggregatesAllowed st = false → reads (print_group norm ps ++ rest) st →
  yields (parseGroup iri_error pref m g truth) st (map (elab g) ps, elab_name <$> norm) rest false.
Proof.
  intros Hok Hw Hn Hm Ha Hr. unfold print_group, braces in Hr, Hm. cbn [app] in Hr. rewrite <-!app_assoc in Hr. cbn [length] in Hm. rewrite !length_app in Hm. cbn [length] in Hm. destruct Hr as [H Hr].
  destruct m as [|m]; [lia|]. cbn [parseGroup]. eapply y_eat; [exact H|]. destruct (step_flags st) as [Ea _]. rewrite Ha in Ea. destruct (els_length ps) as [Hl1 _]; [unfold wf_group in Hw; by apply andb_true_iff in Hw as [_ ?]|].
  apply (y_bind _ _ _ (map (elab g) ps, elab_name <$> norm) _ (rb rest) false rest false); [|done|intros st' [H' Hr'] _; eapply y_eat; [exact H'|]; by apply y_ret].
  destruct norm as [nm|]; cbn [print_norm app length fmap option_fmap option_map] in *.
  - destruct Hn as [| ->]; [done|]. cbn [group_loop]. apply y_get. destruct Hr as [H1 Hr]. known H1. apply (y_bind _ _ _ ([], Some (elab_name nm)) _ (els ps ++ rb rest) false _ false); [|done|].
    + unfold group_element. apply y_get. assert (atTruthOf (step st) = false) as -> by (unfold atTruthOf; known H1; reflexivity). known H1. apply y_adv. eapply y_bind; [apply y_name; exact Hr|reflexivity|]. intros; by apply y_ret.
    + intros st' Hr' Ea'. cbv beta iota. destruct (step_flags st) as [Es _]. apply (y_elements m (S m) g true (Some (elab_name nm)) rest ps Hok Hw ltac:(lia) ltac:(lia) m [] st'); [lia|by rewrite Ea'|exact Hr'].
  - apply (y_elements m (S m) g truth None rest ps Hok Hw ltac:(lia) ltac:(lia) (S m) [] (step st)); [lia|done|exact Hr].
Qed.

Lemma known_word w st : tokv st = word w → atTruthOf st = false.
Proof. intros H. unfold atTruthOf. by known H. Qed.
Lemma known_brace st : tokv st = sym TK.LBrace → atTruthOf st = false.
Proof. intros H. unfold atTruthOf. by known H. Qed.
Lemma not_union rest st x : follow x rest → reads rest st → kw "UNION" st = false.
Proof.
  intros [Hf _] Hr. destruct rest as [|[k v] rest]; [done|]. destruct Hf as [_ Hu], Hr as [H _]. rewrite (kw_tokv _ _ _ _ H). case_bool_decide as Hk; [|done]. case_bool_decide as Hv; [|done]. by subst.
Qed.

(** The branches behind the first one. *)
Lemma y_branches m g x rest bs : Forall (Forall element_ok) bs → forallb (λ ps, separated ps && forallb (wf_element iri_error) ps) bs = true → follow x rest → ∀ n acc st,
  length (concat (map (λ ps, word "UNION" :: braces (els ps)) bs)) ≤ m → length bs < n → aggregatesAllowed st = false →
  reads (concat (map (λ ps, word "UNION" :: braces (els ps)) bs) ++ rest) st →
  yields (union_loop (parseGroup iri_error pref m) n g acc) st (acc ++ map (map (elab g)) bs) rest false.
Proof.
  intros Hok Hw Hf. induction Hok as [|ps bs Hps _ IH]; intros [|n] acc st Hm Hn Ha Hr; [simpl in Hn; lia| |simpl in Hn; lia|]; cbn [union_loop]; apply y_get; cbn [map concat app forallb] in *.
  - rewrite (not_union _ _ _ Hf Hr), app_nil_r. by apply y_ret.
  - destruct Hr as [H Hr]. known H. apply y_adv. destruct (step_flags st) as [Ea _]. rewrite <-app_assoc in Hr. apply andb_true_iff in Hw as [Hwp Hws]. cbn [length] in Hm. rewrite length_app in Hm.
    eapply y_bind; [apply (y_group m g false None ps); [done|done|by left|change (print_group None ps) with (braces (els ps)); lia|by rewrite Ea|exact Hr]|reflexivity|]. intros st' Hr' Ea'. cbv beta iota.
    pose proof (IH Hws n (acc ++ [map (elab g) ps]) st' ltac:(lia) ltac:(simpl in Hn; lia) ltac:(by rewrite Ea', Ea) Hr') as Hy. by rewrite <-app_assoc in Hy.
Qed.

(** Parsing the group of an element, from the state behind its keyword. *)
Lemma y_braces m g truth ps st rest : Forall element_ok ps → separated ps && forallb (wf_element iri_error) ps = true → length (braces (els ps)) ≤ m → aggregatesAllowed st = false →
  reads (braces (els ps) ++ rest) st → yields (parseGroup iri_error pref m g truth) st (map (elab g) ps, None) rest false.
Proof. intros. by apply (y_group m g truth None ps); [..|by left| | |]. Qed.

Lemma all_elements x : element_ok x.
Proof.
  induction x as [bs|ps IH|nm ps IH|ps IH|t norm ps IH|ps bs IH IHb|e] using SElement_rect'; intros m n g truth out norm' st rest Hm Hn Hw Ha Hr Hf; cbn [print_element wf_element elab] in *.
  - destruct (block_head bs rest Hw) as (t & t' & r & E). assert (ends_triples st = false ∧ is_ TK.Dot st = false) as [He Hd] by (rewrite E in Hr; by eapply term_starts).
    assert (nonempty (concat (map elab_block bs)) = true) as Hne by (destruct bs as [|[] bs]; done). pose proof He as He'. unfold ends_triples in He. rewrite !orb_false_iff in He. destruct_and!.
    split; [by apply orb_false_iff|]. unfold group_element. apply y_get. rewrite Hd.
    repeat match goal with H : ?b = false |- context [if ?b then _ else _] => rewrite H end. cbv iota.
    assert (unsupported_op st = None) as -> by (unfold unsupported_op; cbn [find]; repeat match goal with H : kw _ _ = false |- _ => rewrite H; clear H end; done).
    repeat match goal with H : ?b = false |- context [if ?b then _ else _] => rewrite H end. cbv iota.
    eapply y_bind; [apply y_triples; [exact Hr|by apply Hf|lia]|reflexivity|]. intros st' Hr' _. cbn [app]. rewrite Hne. by apply y_ret.
  - destruct Hr as [H Hr]. pose proof (conj H Hr : reads (braces (els ps) ++ rest) st) as Hg. split; [by known H|]. unfold group_element. apply y_get. rewrite (known_brace _ H). unfold unsupported_op. cbn [find]. known H.
    eapply y_bind; [by apply y_braces|reflexivity|]. intros st' Hr' _. cbv beta iota. apply y_get. rewrite (not_union _ _ _ Hf Hr'). by apply y_ret.
  - destruct Hr as [H Hr]. split; [by known H|]. destruct (step_flags st) as [Ea _]. unfold group_element. apply y_get. rewrite (known_word _ _ H). known H. apply y_adv.
    eapply y_bind; [apply y_name; exact Hr|reflexivity|]. intros st' Hr' Ea'. eapply y_bind; [apply y_braces; [done|done|cbn [length] in Hm; lia|by rewrite Ea', Ea|exact Hr']|reflexivity|]. intros st2 Hr2 _. by apply y_ret.
  - destruct Hr as [H Hr]. split; [by known H|]. destruct (step_flags st) as [Ea _]. unfold group_element. apply y_get. rewrite (known_word _ _ H). known H. apply y_adv.
    eapply y_bind; [apply y_braces; [done|done|cbn [length] in Hm; lia|by rewrite Ea|exact Hr]|reflexivity|]. intros st2 Hr2 _. by apply y_ret.
  - cbn [app] in Hr. assert (atTruthOf st = true) as Ht by (destruct t as [v|l]; (eapply truth_of; [exact Hr|auto|done])). destruct Hr as (H & H1 & H2 & Hr).
    assert (is_ TK.RBrace st || is_ TK.Eof st = false ∧ is_ TK.Dot st = false) as [He Hd] by (destruct t; simpl in H; by known H). split; [done|].
    rewrite <-andb_assoc in Hw. apply andb_true_iff in Hw as [Hwt Hw]. destruct (step_flags st) as [Ea1 _]. destruct (step_flags (step st)) as [Ea2 _]. destruct (step_flags (step (step st))) as [Ea3 _].
    unfold group_element. apply y_get. rewrite Hd, Ht. apply (y_bind _ _ _ (elab_truth t) _ (print_truth t :: word "TRUTH" :: word "OF" :: print_group norm ps ++ rest) false _ false); [|done|].
    { unfold truth_header. destruct t as [v|l]; simpl in H; known H; [by apply y_ret|]. simpl in Hwt |- *. destruct (stof l) as [bits|]; [|done]. rewrite Hwt. by apply y_ret. }
    intros st1 (K & K1 & K2 & Kr) Ea'. destruct (elab_truth t) as [v th]. destruct (step_flags st1) as [Eb1 _]. destruct (step_flags (step st1)) as [Eb2 _]. destruct (step_flags (step (step st1))) as [Eb3 _].
    apply y_adv. eapply y_eatKw; [exact K1|]. eapply y_eatKw; [exact K2|].
    eapply y_bind; [apply (y_group m g true norm ps); [done|done|by right|unfold print_group; cbn [length] in Hm; lia|by rewrite Eb3, Eb2, Eb1, Ea'|exact Kr]|reflexivity|]. intros st2 Hr2 _. by apply y_ret.
  - rewrite <-app_assoc in Hr. rewrite length_app in Hm, Hn. rewrite !andb_true_iff in Hw. destruct Hw as [[[Hne Hsep] Hwf] Hwb]. pose proof Hr as Hg. destruct Hr as [H _].
    split; [by known H|]. unfold group_element. apply y_get. rewrite (known_brace _ H). unfold unsupported_op. cbn [find]. known H.
    eapply y_bind; [apply y_braces; [done|by rewrite Hsep, Hwf|lia|done|exact Hg]|reflexivity|]. intros st' Hr' Ea'. cbv beta iota. apply y_get.
    assert (kw "UNION" st' = true) as -> by (destruct bs; [done|]; destruct Hr' as [H' _]; by known H').
    eapply y_bind; [apply (y_branches m g _ rest bs IHb Hwb Hf); [lia| |by rewrite Ea'|exact Hr']|reflexivity|].
    + assert (length bs ≤ length (concat (map (λ ps, word "UNION" :: braces (els ps)) bs))); [|lia]. clear. induction bs as [|b bs IH]; [done|]. cbn [map concat length app]. rewrite length_app. lia.
    + intros st2 Hr2 _. by apply y_ret.
  - destruct Hr as [H Hr]. split; [by known H|]. destruct (step_flags st) as [Ea _]. unfold group_element. apply y_get. rewrite (known_word _ _ H). known H. apply y_adv.
    destruct rest as [|[k v] rest]; [by destruct Hf|]. destruct Hf as [[Hk _] _]. cbn [length] in Hn.
    apply (y_bind _ _ _ e _ ((k, v) :: rest) (has_aggregate e) ((k, v) :: rest) false); [apply parse_print; [by rewrite Ea, Ha|exact Hr|exact Hk|lia]|by rewrite (no_aggregate _ _ Hw)|]. intros st2 Hr2 _. by apply y_ret.
Qed.
Lemma all_groups ps : Forall element_ok ps.
Proof. apply Forall_forall. intros x _. apply all_elements. Qed.
End Patterns.
