(* ===== verification/SparqlRoundtrip.v ===== *)
(** * Parsing a printed query

    The parser of queries yields what a printed query denotes: at the level of
    tokens for each clause, and at the level of texts with the tokenizer. *)

From S2P Require Import Prelude Datatypes GraphDataOps Serialization FuzzyTurtle SparqlText SparqlLexer SparqlParser SparqlQuery SparqlTermination SparqlSyntax SparqlExprRoundtrip SparqlPatternRoundtrip.
From Stdlib Require Import Strings.Ascii.
#[local] Open Scope nat_scope.
#[local] Open Scope list_scope.
#[local] Open Scope parse_scope.

(** ** The prologue *)

Lemma split_first_app c a b : forallb (λ x, negb (eqc x c)) a = true → split_first c (a ++ c :: b) = Some (a, b).
Proof. induction a as [|x a IH]; simpl; [by rewrite (Ascii.eqb_refl c : eqc c c = true)|]. intros [Hx%negb_true_iff Ha]%andb_true_iff. by rewrite Hx, (IH Ha). Qed.
Lemma name_char_colon c : isNameChar c = true → eqc c ":" = false.
Proof. destruct c as [[] [] [] [] [] [] [] []]; vm_compute; congruence. Qed.
Lemma forallb_impl {A} (p q : A → bool) l : (∀ x, p x = true → q x = true) → forallb p l = true → forallb q l = true.
Proof. intros H. rewrite !forallb_forall. eauto. Qed.
Lemma label_no_colon label : label_text label = true → forallb (λ x, negb (eqc x ":")) label = true.
Proof. destruct label as [|c r]; [done|]. intros [_ H]%andb_true_iff. apply (forallb_impl isNameChar); [|exact H]. intros x Hx. by rewrite name_char_colon. Qed.
Lemma before_last_label label : label_text label = true → before_last ":" (label ++ txt ":") = label.
Proof.
  intros H. unfold before_last. rewrite rev_app_distr. cbn [txt String.list_ascii_of_string rev app].
  change (split_first ":" (":"%char :: rev label)) with (if eqc ":" ":" then Some ([], rev label) else match split_first ":" (rev label) with Some (a, b) => Some (":"%char :: a, b) | None => None end).
  rewrite (Ascii.eqb_refl ":" : eqc ":" ":" = true). apply rev_involutive.
Qed.

Section Queries.
Context (iri_error : text → option text).

Lemma y_prefixes n l p st t rest : forallb (λ p : text * text, match p.1 with [] => true | _ => label_text p.1 end) l = true → t ≠ word "PREFIX" → t ≠ word "BASE" → length l < n →
  reads (concat (map print_prefix l) ++ t :: rest) st → yields (parse_prefixes n p) st (foldl (λ m p, <[p.1 := p.2]> m) p l) (t :: rest) false.
Proof.
  intros Hw Hp Hb. revert n p st Hw. induction l as [|[label iri] l IH]; intros [|n] p st Hw Hn Hr; [simpl in Hn; lia| |simpl in Hn; lia|]; cbn [map concat print_prefix app] in Hr; destruct Hr as [H Hr]; cbn [parse_prefixes]; apply y_get.
  - destruct t as [k v]. assert (∀ w, (k, v) ≠ word w → kw w st = false) as Hk.
    { intros w Hne. rewrite (kw_tokv _ _ _ _ H). case_bool_decide as Hk; [|done]. case_bool_decide as Hv; [|done]. by subst. }
    rewrite !Hk by done. by apply y_ret.
  - destruct Hr as (H1 & H2 & Hr). known H. apply y_adv. simpl in Hw. apply andb_true_iff in Hw as [Hl Hw].
    apply (y_bind _ _ _ label _ ((TK.IRI, iri) :: concat (map print_prefix l) ++ t :: rest) false (t :: rest) false); [|done|].
    + unfold prefix_label. apply y_get. destruct label as [|c r].
      * unfold print_label in H1. known H1. apply y_adv. apply y_ret. by split.
      * unfold print_label in H1. simpl (fst _) in H1. known H1. apply y_adv. rewrite before_last_label by done. apply y_ret. by split.
    + intros st' [H3 Hr'] _. apply y_get. known H3. apply y_adv. cbn [foldl fst snd]. apply IH; [done|simpl in Hn; lia|done].
Qed.

(** ** The projection *)

(** A part in which aggregates are allowed. *)
Lemma y_scoped {A B} (m : PM A) (k : A → PM B) st ts a b r1 s1 r2 s2 s : aggregatesAllowed st = false → reads ts st →
  (∀ st', reads ts st' → aggregatesAllowed st' = true → yields m st' a r1 s1) → s = s1 || s2 →
  (∀ st', reads r1 st' → aggregatesAllowed st' = false → yields (k a) st' b r2 s2) → yields (allow true;; let! x := m in allow false;; k x) st b r2 s.
Proof.
  intros Ha Hr Hm -> Hk. destruct (Hm (mkPS (tz st) (tok st) true (sawAggregate st))) as (st1 & E1 & Hr1 & _ & Hs1); [by eapply reads_flags; [..|exact Hr]|done|].
  destruct (Hk (mkPS (tz st1) (tok st1) false (sawAggregate st1))) as (st2 & E2 & Hr2 & Ha2 & Hs2); [by eapply reads_flags; [..|exact Hr1]|done|].
  exists st2. unfold bindP at 1, allow at 1. unfold bindP at 1. rewrite E1. unfold bindP at 1, allow at 1. rewrite E2. simpl in *. split_and!; [done..|by rewrite Ha2|by rewrite Hs2, Hs1, orb_assoc].
Qed.

Lemma y_select_expr n pref e v st rest : wf_expr iri_error true e = true → length (print e) < n →
  reads (print e ++ word "AS" :: (TK.Var, v) :: sym TK.RightParen :: rest) st → aggregatesAllowed st = false →
  yields (parse_select_expr iri_error n pref) st (v, e) rest (has_aggregate e).
Proof.
  intros Hw Hn Hr Ha. unfold parse_select_expr. eapply y_scoped; [exact Ha|exact Hr| |symmetry; apply orb_false_r|].
  - intros st' Hr' Ha'. apply parse_print; [by rewrite Ha'|exact Hr'|simpl; lia|exact Hn].
  - intros st' (K1 & K2 & K3 & Kr) _. apply y_get. known K1. apply y_adv, y_get. known K2. apply y_adv. eapply y_eat; [exact K3|]. by apply y_ret.
Qed.

(** Whether a token starts an item of the projection. *)
Definition item_start (k : TK.t) : bool := match k with TK.Var | TK.LeftParen => true | _ => false end.
Lemma y_select loops pref l : forallb (wf_item iri_error) l = true → length (concat (map print_item l)) < loops → ∀ n vars exprs st t rest,
  NoDup (vars ++ map item_var l) → item_start t.1 = false → length l < n → aggregatesAllowed st = false → reads (concat (map print_item l) ++ t :: rest) st →
  yields (select_loop iri_error loops n pref vars exprs) st (vars ++ map item_var l, exprs ++ item_exprs l) (t :: rest) (existsb (λ se, has_aggregate se.2) (item_exprs l)).
Proof.
  induction l as [|i l IH]; intros Hw Hl [|n] vars exprs st t rest Hnd Ht Hn Ha Hr; [simpl in Hn; lia| |simpl in Hn; lia|]; cbn [map concat forallb] in *; cbn [select_loop]; apply y_get.
  - destruct Hr as [H Hr]. destruct t as [k v]. rewrite !(is_tokv _ _ _ _ H), !bool_decide_false by (by intros ->). cbn [item_exprs omap list_omap]. rewrite !app_nil_r. by apply y_ret.
  - apply andb_true_iff in Hw as [Hwi Hw]. rewrite length_app in Hl. rewrite <-app_assoc in Hr. assert (item_var i ∉ vars) as Hni.
    { intros Hin. apply NoDup_app in Hnd as (_ & Hd & _). apply (Hd _ Hin). by left. }
    rewrite cons_middle, app_assoc in Hnd. destruct i as [v|e v]; cbn [print_item] in *.
    + destruct Hr as [H Hr]. known H. rewrite bool_decide_false by done. apply y_adv. destruct (step_flags st) as [Ea _].
      pose proof (IH Hw ltac:(lia) n (vars ++ [v]) exprs (step st) t rest Hnd Ht ltac:(simpl in Hn; lia) ltac:(by rewrite Ea) Hr) as Hy. by rewrite <-app_assoc in Hy.
    + unfold parens in Hr, Hl. cbn [app length] in Hr, Hl. rewrite <-!app_assoc in Hr. rewrite !length_app in Hl. destruct Hr as [H Hr]. known H. apply y_adv. destruct (step_flags st) as [Ea _].
      eapply y_bind; [apply y_select_expr; [exact Hwi|lia|exact Hr|by rewrite Ea]|reflexivity|]. intros st' Hr' Ea'. cbv beta iota. rewrite bool_decide_false by done.
      pose proof (IH Hw ltac:(lia) n (vars ++ [v]) (exprs ++ [(v, e)]) st' t rest Hnd Ht ltac:(simpl in Hn; lia) ltac:(by rewrite Ea', Ea) Hr') as Hy. rewrite <-!app_assoc in Hy. exact Hy.
Qed.

Lemma y_from n l st t rest : t ≠ word "FROM" → length l < n → reads (concat (map print_from l) ++ t :: rest) st → yields (from_loop n) st tt (t :: rest) false.
Proof.
  intros Ht. revert n st. induction l as [|[named iri] l IH]; intros [|n] st Hn Hr; [simpl in Hn; lia| |simpl in Hn; lia|]; cbn [map concat print_from app fst snd] in Hr; destruct Hr as [H Hr]; cbn [from_loop]; apply y_get.
  - destruct t as [k v]. assert (kw "FROM" st = false) as ->; [|by apply y_ret].
    rewrite (kw_tokv _ _ _ _ H). case_bool_decide as Hk; [|done]. case_bool_decide as Hv; [|done]. by subst.
  - known H. apply y_adv, y_get. assert (∀ st', reads ((TK.IRI, iri) :: concat (map print_from l) ++ t :: rest) st' →
      yields (let! st0 := getP in (if is_ TK.IRI st0 || is_ TK.PrefixedName st0 then advance else retP tt);; from_loop n) st' tt (t :: rest) false) as Hiri.
    { intros st' [H2 Hr2]. apply y_get. known H2. apply y_adv. apply IH; [simpl in Hn; lia|exact Hr2]. }
    destruct named; cbn [app] in Hr; destruct Hr as [H1 Hr]; known H1.
    + apply y_adv. by apply Hiri.
    + apply (y_bind _ _ _ tt _ ((TK.IRI, iri) :: concat (map print_from l) ++ t :: rest) false _ false); [apply y_ret; by split|done|]. intros st' Hr' _. by apply Hiri.
Qed.

(** ** The clauses behind the pattern *)

(** The tokens that end the grouping keys. *)
Definition ends_keys (t : ptok) : bool := bool_decide (t ∈ [word "HAVING"; word "ORDER"; word "LIMIT"; word "OFFSET"; (TK.Eof, [])]).
Lemma has_key_var_elem keys v : has_key_var keys v = bool_decide (v ∈ map gk_var keys).
Proof.
  induction keys as [|k keys IH]; [done|]. simpl. rewrite IH. apply eq_true_iff_eq. rewrite orb_true_iff, !bool_decide_eq_true, elem_of_cons. intuition.
Qed.

Lemma y_group_key n pref k st t rest : wf_key iri_error k = true → length (print_key k) ≤ n → aggregatesAllowed st = false → reads (print_key k ++ t :: rest) st →
  ∃ a, plain_key a = (default [] (key_name k), match k with GVar _ => None | GExpr e _ => Some e end) ∧
  yields (parse_group_key iri_error n pref) st a (t :: rest) false.
Proof.
  intros Hw Hn Ha Hr. unfold parse_group_key. destruct k as [v|e a]; cbn [print_key wf_key key_name default] in *.
  - exists (v, None). split; [by destruct v|]. destruct Hr as [H Hr]. apply y_get. known H. apply y_adv. by apply y_ret.
  - apply andb_true_iff in Hw as [Hw Hk]. exists (default [] a, Some e). split; [destruct a as [[|c v]|]; [done|done|by destruct e]|].
    unfold parens in Hr, Hn. cbn [app length] in Hr, Hn. rewrite <-!app_assoc in Hr. rewrite !length_app in Hn. destruct Hr as [H Hr]. apply y_get. known H. apply y_adv. destruct (step_flags st) as [Ea _].
    assert (∃ k v r, (match a with Some v => [word "AS"; (TK.Var, v)] | None => [] end) ++ sym TK.RightParen :: t :: rest = (k, v) :: r ∧ op_class k < 1) as (k' & v' & r & E & Hc) by (destruct a; simpl; eauto 10).
    cbn [app] in Hr. change ([sym TK.RightParen] ++ t :: rest) with (sym TK.RightParen :: t :: rest) in Hr. rewrite E in Hr.
    apply (y_bind _ _ _ e _ ((k', v') :: r) (has_aggregate e) _ false); [apply parse_print; [by rewrite Ea, Ha|exact Hr|exact Hc|lia]|by rewrite (no_aggregate _ _ Hw)|].
    intros st1 Hr1 _. rewrite <-E in Hr1. apply y_get. apply (y_bind _ _ _ (default [] a) _ (sym TK.RightParen :: t :: rest) false _ false); [|done|intros st2 [H2 Hr2] _; eapply y_eat; [exact H2|]; by apply y_ret].
    destruct a as [v|]; cbn [app default] in *.
    + destruct Hr1 as (H1 & H2 & Hr1). known H1. apply y_adv, y_get. known H2. apply y_adv. by apply y_ret.
    + destruct Hr1 as [H1 Hr1]. known H1. apply y_ret. by split.
Qed.

Lemma y_keys loops pref l : forallb (wf_key iri_error) l = true → length (concat (map print_key l)) ≤ loops → ∀ n keys hidden st t rest,
  NoDup (map gk_var (keys ++ group_keys hidden l)) → ends_keys t = true → length l < n → aggregatesAllowed st = false → reads (concat (map print_key l) ++ t :: rest) st →
  yields (group_by_loop iri_error loops n pref keys hidden) st (keys ++ group_keys hidden l) (t :: rest) false.
Proof.
  induction l as [|k l IH]; intros Hw Hl [|n] keys hidden st t rest Hnd Ht Hn Ha Hr; [simpl in Hn; lia| |simpl in Hn; lia|]; cbn [map concat forallb] in *; cbn [group_by_loop]; apply y_get.
  - destruct Hr as [H Hr]. cbn [group_keys]. rewrite app_nil_r. unfold ends_keys in Ht. rewrite bool_decide_eq_true, !elem_of_cons, elem_of_nil in Ht.
    assert (kw "HAVING" st || kw "ORDER" st || clause_end st = true) as ->; [|apply y_ret; by split].
    unfold clause_end. destruct Ht as [->|[->|[->|[->|[->|[]]]]]]; known H; rewrite ?orb_true_r; done.
  - apply andb_true_iff in Hw as [Hwk Hw]. rewrite length_app in Hl. rewrite <-app_assoc in Hr.
    assert (kw "HAVING" st || kw "ORDER" st || clause_end st = false) as -> by (unfold clause_end; destruct k; cbn [print_key app parens] in Hr; destruct Hr as [H _]; by known H).
    assert (∃ t' r', concat (map print_key l) ++ t :: rest = t' :: r') as (t' & r' & E) by (destruct l as [|[] l]; simpl; eauto). rewrite E in Hr.
    destruct (y_group_key loops pref k st t' r' Hwk ltac:(lia) Ha Hr) as (a & Ea & Hy). eapply y_bind; [exact Hy|reflexivity|]. intros st1 Hr1 Ea1. rewrite <-E in Hr1.
    assert (∀ keys' hidden', keys ++ group_keys hidden (k :: l) = keys' ++ group_keys hidden' l → add_group_key keys hidden a st1 = POk (keys', hidden') st1 →
      yields (let! '(keys, hidden) := add_group_key keys hidden a in group_by_loop iri_error loops n pref keys hidden) st1 (keys ++ group_keys hidden (k :: l)) (t :: rest) false) as Hgo.
    { intros keys' hidden' Ek Eadd. rewrite Ek in *. unfold yields, bindP at 1. rewrite Eadd. apply IH; [done|lia|done|done|simpl in Hn; lia|by rewrite Ea1|done]. }
    assert (∀ v e, group_keys hidden (k :: l) = mkGroupKey v e :: group_keys hidden l → has_key_var keys v = false) as Hnew.
    { intros v e Eg. rewrite has_key_var_elem. apply bool_decide_false. intros Hin. rewrite Eg, map_app in Hnd. apply NoDup_app in Hnd as (_ & Hd & _). apply (Hd _ Hin). by left. }
    unfold add_group_key, bindP, getP in Hgo |- *. rewrite Ea in *. destruct k as [v|e [v|]]; cbn [key_name default group_keys wf_key] in *.
    + apply (Hgo (keys ++ [mkGroupKey v None]) hidden); [by rewrite <-app_assoc|]. unfold id. cbv beta iota. rewrite (Hnew v None eq_refl). rewrite andb_false_r, Hwk. done.
    + apply andb_true_iff in Hwk as [_ Hv]. apply (Hgo (keys ++ [mkGroupKey v (Some e)]) hidden); [by rewrite <-app_assoc|]. unfold id. cbv beta iota. rewrite (Hnew v (Some e) eq_refl). rewrite andb_false_r, Hv. done.
    + apply (Hgo (keys ++ [mkGroupKey (txt "__gk" ++ num hidden) (Some e)]) (hidden + 1)%Z); [by rewrite <-app_assoc|]. done.
Qed.

Lemma kw_head w st ts : reads ts st → match ts with t :: _ => t ≠ word w | [] => False end → kw w st = false.
Proof.
  intros Hr Ht. destruct ts as [|[k v] ts]; [done|]. rewrite (kw_tokv _ _ _ _ (proj1 Hr)). case_bool_decide as Hk; [|done]. case_bool_decide as Hv; [|done]. by subst.
Qed.

Lemma y_group_by n pref l st t rest : forallb (wf_key iri_error) l = true → distinct_keys l = true → length (concat (map print_key l)) < n → ends_keys t = true → aggregatesAllowed st = false →
  reads (print_clause [word "GROUP"; word "BY"] print_key l ++ t :: rest) st → yields (parse_group_by iri_error n pref) st (group_keys 0 l) (t :: rest) false.
Proof.
  intros Hw Hd Hn Ht Ha Hr. unfold parse_group_by. apply y_get. destruct l as [|k l].
  - rewrite (kw_head "GROUP" _ _ Hr); [by apply y_ret|]. cbn [print_clause app]. intros ->. by vm_compute in Ht.
  - cbn [print_clause app] in Hr. destruct Hr as (H & H1 & Hr). known H. apply y_adv, y_get. known H1. apply y_adv.
    destruct (step_flags st) as [Ea1 _]. destruct (step_flags (step st)) as [Ea2 _].
    assert (length (k :: l) ≤ length (concat (map print_key (k :: l)))) as Hl.
    { clear. induction (k :: l) as [|x r IH]; [done|]. cbn [map concat length]. rewrite length_app. destruct x; simpl; lia. }
    eapply y_bind; [apply (y_keys n pref (k :: l) Hw ltac:(lia) n [] 0%Z); [by apply bool_decide_eq_true in Hd|exact Ht|lia|by rewrite Ea2, Ea1|exact Hr]|reflexivity|].
    intros st' Hr' _. apply y_get. cbn [app]. assert (nonempty (group_keys 0 (k :: l)) = true) as -> by (by destruct k as [|? []]). by apply y_ret.
Qed.

Lemma y_constraints loops pref l : forallb (wf_expr iri_error true) l = true → length (concat (map (λ e, parens (print e)) l)) < loops → ∀ n acc st t rest,
  t ∈ [word "ORDER"; word "LIMIT"; word "OFFSET"; (TK.Eof, [])] → length l < n → aggregatesAllowed st = true → reads (concat (map (λ e, parens (print e)) l) ++ t :: rest) st →
  yields (having_loop iri_error loops n pref acc) st (acc ++ l) (t :: rest) (existsb has_aggregate l).
Proof.
  induction l as [|e l IH]; intros Hw Hl [|n] acc st t rest Ht Hn Ha Hr; [simpl in Hn; lia| |simpl in Hn; lia|]; cbn [map concat forallb] in *; cbn [having_loop]; apply y_get.
  - rewrite app_nil_r. destruct Hr as [H Hr]. rewrite !elem_of_cons, elem_of_nil in Ht. destruct Ht as [->|[->|[->|[->|[]]]]]; known H; apply y_ret; by split.
  - apply andb_true_iff in Hw as [Hwe Hw]. rewrite length_app in Hl. rewrite <-app_assoc in Hr. pose proof (proj1 Hr : tokv st = sym TK.LeftParen) as H. known H. unfold parens in Hl at 1. cbn [length] in Hl. rewrite length_app in Hl.
    eapply y_bind; [|reflexivity|].
    + eapply prim_parens; [exact Hr|]. intros st' Hr' Ea'. apply parse_print; [by rewrite Ea', Ha|exact Hr'|simpl; lia|lia].
    + intros st' Hr' Ea'. pose proof (IH Hw ltac:(lia) n (acc ++ [e]) st' t rest Ht ltac:(simpl in Hn; lia) ltac:(by rewrite Ea') Hr') as Hy. by rewrite <-app_assoc in Hy.
Qed.
Lemma y_having n pref l st t rest : forallb (wf_expr iri_error true) l = true → length (concat (map (λ e, parens (print e)) l)) < n →
  t ∈ [word "ORDER"; word "LIMIT"; word "OFFSET"; (TK.Eof, [])] → aggregatesAllowed st = false →
  reads (print_clause [word "HAVING"] (λ e, parens (print e)) l ++ t :: rest) st → yields (parse_having iri_error n pref) st l (t :: rest) (existsb has_aggregate l).
Proof.
  intros Hw Hn Ht Ha Hr. unfold parse_having. apply y_get. destruct l as [|e l].
  - rewrite (kw_head "HAVING" _ _ Hr); [by apply y_ret|]. cbn [print_clause app]. rewrite !elem_of_cons, elem_of_nil in Ht. destruct Ht as [->|[->|[->|[->|[]]]]]; done.
  - cbn [print_clause app] in Hr. destruct Hr as [H Hr]. known H. apply y_adv. destruct (step_flags st) as [Ea _].
    assert (length (e :: l) ≤ length (concat (map (λ e, parens (print e)) (e :: l)))) as Hl.
    { clear. induction (e :: l) as [|x r IH]; [done|]. cbn [map concat length]. rewrite length_app. simpl. lia. }
    eapply y_scoped; [by rewrite Ea|exact Hr| |symmetry; apply orb_false_r|].
    + intros st' Hr' Ha'. apply (y_constraints n pref (e :: l) Hw Hn n [] st'); [exact Ht|lia|exact Ha'|exact Hr'].
    + intros st' Hr' _. apply y_get. by apply y_ret.
Qed.

Lemma y_order_keys loops pref l : forallb (λ k, wf_expr iri_error true (ok_expr k)) l = true → length (concat (map print_order l)) < loops → l ≠ [] → ∀ n acc st t rest,
  t ∈ [word "LIMIT"; word "OFFSET"; (TK.Eof, [])] → length l ≤ n → aggregatesAllowed st = true → reads (concat (map print_order l) ++ t :: rest) st →
  yields (order_loop iri_error loops n pref acc) st (acc ++ l) (t :: rest) (existsb (λ k, has_aggregate (ok_expr k)) l).
Proof.
  induction l as [|[e d] l IH]; intros Hw Hl Hne [|n] acc st t rest Ht Hn Ha Hr; [done|done|simpl in Hn; lia|]; cbn [map concat forallb existsb ok_expr] in *; cbn [order_loop].
  apply andb_true_iff in Hw as [Hwe Hw]. rewrite length_app in Hl. rewrite <-app_assoc in Hr. unfold print_order in Hr at 1, Hl at 1. cbn [ok_expr ok_descending app length] in Hr, Hl. rewrite parens_length in Hl.
  unfold parens in Hr at 1. cbn [app] in Hr. rewrite <-app_assoc in Hr. destruct Hr as (H & H1 & Hr). destruct (step_flags st) as [Ea1 _]. destruct (step_flags (step st)) as [Ea2 _].
  eapply (y_bind _ _ _ (mkOrderKey e d) _ (concat (map print_order l) ++ t :: rest) (has_aggregate e)); [|reflexivity|].
  - unfold parse_order_key. apply y_get. assert (kw "ASC" st || kw "DESC" st = true ∧ kw "DESC" st = d) as [-> ->] by (destruct d; by known H). apply y_adv. eapply y_eat; [exact H1|].
    eapply y_bind; [apply parse_print; [by rewrite Ea2, Ea1, Ha|exact Hr|simpl; lia|lia]|symmetry; apply orb_false_r|]. intros st1 [H2 Hr2] _. eapply y_eat; [exact H2|]. by apply y_ret.
  - intros st1 Hr1 Ea'. apply y_get. destruct l as [|k l].
    + assert (clause_end st1 = true) as ->; [|by apply y_ret]. destruct Hr1 as [H2 _]. unfold clause_end. rewrite !elem_of_cons, elem_of_nil in Ht. destruct Ht as [->|[->|[->|[]]]]; known H2; rewrite ?orb_true_r; done.
    + assert (clause_end st1 = false) as -> by (destruct Hr1 as [H2 _]; unfold clause_end; destruct k as [e' []]; cbn in H2; known H2; done).
      pose proof (IH Hw ltac:(lia) ltac:(done) n (acc ++ [mkOrderKey e d]) st1 t rest Ht ltac:(simpl in Hn |- *; lia) ltac:(by rewrite Ea') Hr1) as Hy. by rewrite <-app_assoc in Hy.
Qed.
Lemma y_order_by n pref l st t rest : forallb (λ k, wf_expr iri_error true (ok_expr k)) l = true → length (concat (map print_order l)) < n →
  t ∈ [word "LIMIT"; word "OFFSET"; (TK.Eof, [])] → aggregatesAllowed st = false →
  reads (print_clause [word "ORDER"; word "BY"] print_order l ++ t :: rest) st → yields (parse_order_by iri_error n pref) st l (t :: rest) (existsb (λ k, has_aggregate (ok_expr k)) l).
Proof.
  intros Hw Hn Ht Ha Hr. unfold parse_order_by. apply y_get. destruct l as [|k l].
  - rewrite (kw_head "ORDER" _ _ Hr); [by apply y_ret|]. cbn [print_clause app]. rewrite !elem_of_cons, elem_of_nil in Ht. destruct Ht as [->|[->|[->|[]]]]; done.
  - cbn [print_clause app] in Hr. destruct Hr as (H & H1 & Hr). known H. apply y_adv, y_get. known H1. apply y_adv. destruct (step_flags st) as [Ea1 _]. destruct (step_flags (step st)) as [Ea2 _].
    assert (length (k :: l) ≤ length (concat (map print_order (k :: l)))) as Hl.
    { clear. induction (k :: l) as [|x r IH]; [done|]. cbn [map concat length]. rewrite length_app. simpl. lia. }
    eapply y_scoped; [by rewrite Ea2, Ea1|exact Hr| |symmetry; apply orb_false_r|intros st' Hr' _; by apply y_ret].
    intros st' Hr' Ha'. apply (y_order_keys n pref (k :: l) Hw Hn ltac:(done) n [] st'); [exact Ht|lia|exact Ha'|exact Hr'].
Qed.

#[local] Abbreviation eof := ((TK.Eof, []) : ptok).
Lemma y_number w l z st rest : reads (word w :: (TK.Number, l) :: rest) st → stoll l = Some z → yields (limit_number w None) st z rest false.
Proof. intros (H & H1 & Hr) Hz. unfold limit_number. apply y_get, y_adv, y_get. known H1. rewrite Hz. apply y_adv. by apply y_ret. Qed.
Lemma y_bounds lim off st : wf_bound lim = true → wf_bound off = true → reads (print_bound "LIMIT" lim ++ print_bound "OFFSET" off ++ [eof]) st →
  yields (limit_loop 2 None None) st (lim ≫= stoll, off ≫= stoll) [eof] false.
Proof.
  intros Hl Ho Hr. assert (∀ i lo st', reads (print_bound "OFFSET" off ++ [eof]) st' → yields (limit_loop (S i) lo None) st' (lo, off ≫= stoll) [eof] false) as Hoff.
  { intros i lo st' Hr'. cbn [limit_loop]. apply y_get. destruct off as [l|]; cbn [print_bound app] in Hr'.
    - pose proof (proj1 Hr') as H. known H. simpl in Ho. destruct (stoll l) as [z|] eqn:Ez; [|done]. eapply y_bind; [by eapply y_number|reflexivity|]. intros st2 [H2 Hr2] _. simpl. rewrite Ez. destruct i as [|i]; [apply y_ret; by split|].
      cbn [limit_loop]. apply y_get. known H2. apply y_ret. by split.
    - pose proof (proj1 Hr') as H. known H. by apply y_ret. }
  destruct lim as [l|]; cbn [print_bound app] in Hr; [|by apply (Hoff 1 None)]. cbn [limit_loop]. apply y_get. pose proof (proj1 Hr) as H. known H. simpl in Hl. destruct (stoll l) as [z|] eqn:Ez; [|done].
  eapply y_bind; [by eapply y_number|reflexivity|]. intros st2 Hr2 _. simpl (_ ≫= _). rewrite Ez. by apply (Hoff 0 (Some z)).
Qed.

(** ** The whole query *)

Definition finish (q : Query) : PM Query := match check_aggregation q with Some what => throwP what | None => retP q end.

Lemma y_projection n pref sel st t rest : (match sel with None => true | Some l => nonempty l && bool_decide (NoDup (map item_var l)) && forallb (wf_item iri_error) l end) = true →
  length (match sel with None => [sym TK.Star] | Some l => concat (map print_item l) end) < n → item_start t.1 = false → aggregatesAllowed st = false →
  reads ((match sel with None => [sym TK.Star] | Some l => concat (map print_item l) end) ++ t :: rest) st →
  yields (parse_projection iri_error n pref) st
    (match sel with None => true | Some _ => false end, map item_var (default [] sel), item_exprs (default [] sel)) (t :: rest) (existsb (λ se, has_aggregate se.2) (item_exprs (default [] sel))).
Proof.
  intros Hw Hn Ht Ha Hr. unfold parse_projection. apply y_get. destruct sel as [l|].
  - apply andb_true_iff in Hw as [[Hne Hnd%bool_decide_eq_true]%andb_true_iff Hw]. assert (is_ TK.Star st = false) as -> by (destruct l as [|[] l]; [done|..]; destruct Hr as [H _]; by known H).
    assert (length l ≤ length (concat (map print_item l))) as Hl by (clear; induction l as [|[] l IH]; simpl; rewrite ?length_app; simpl; lia).
    eapply y_bind; [apply (y_select n pref l Hw Hn n [] [] st); [exact Hnd|exact Ht|lia|exact Ha|exact Hr]|symmetry; apply orb_false_r|]. intros st' Hr' _. cbn [app]. apply y_get.
    assert (nonempty (map item_var l) = true) as -> by (by destruct l). by apply y_ret.
  - destruct Hr as [H Hr]. known H. apply y_adv. by apply y_ret.
Qed.

(** The first token of the clauses that follow a clause. *)
Lemma off_head off : ∃ t r, print_bound "OFFSET" off ++ [eof] = t :: r ∧ t ∈ [word "OFFSET"; eof].
Proof. destruct off; simpl; do 2 eexists; (split; [reflexivity|set_solver]). Qed.
Lemma lim_head lim off : ∃ t r, print_bound "LIMIT" lim ++ print_bound "OFFSET" off ++ [eof] = t :: r ∧ t ∈ [word "LIMIT"; word "OFFSET"; eof].
Proof. destruct (off_head off) as (t & r & E & Ht). destruct lim; simpl; [do 2 eexists; split; [reflexivity|set_solver]|]. rewrite E. do 2 eexists; split; [reflexivity|set_solver]. Qed.
Lemma clause_head {A} w ws (f : A → list ptok) l t r (ts : list ptok) : t ∈ ts → ∃ t' r', print_clause (word w :: ws) f l ++ t :: r = t' :: r' ∧ t' ∈ word w :: ts.
Proof. intros Ht. destruct l; simpl; do 2 eexists; (split; [reflexivity|set_solver]). Qed.

Ltac unread E R := let H := fresh in pose proof (eq_ind_r (λ ts, reads ts _) R E) as H; cbv beta in H; clear R; rename H into R.

(** The parser of queries on the tokens of a query. *)
Lemma y_query n g q st : wf_query iri_error q = true → length (print_query q) < n → aggregatesAllowed st = false → sawAggregate st = false → reads (print_query q ++ [eof]) st →
  ∃ st', parse_query iri_error n g st = finish (elab_query g q) st'.
Proof.
  intros Hw Hn Ha Hs Hr. unfold wf_query in Hw. rewrite !andb_true_iff in Hw. destruct Hw as [[[[[[[[Wp Wsel] Wps] Wk] Wd] Wh] Wo] Wl] Woff]. unfold print_query in Hn, Hr. repeat (rewrite <-!app_assoc in Hr; cbn [app] in Hr). repeat (rewrite !length_app in Hn; cbn [length] in Hn).
  destruct (lim_head (sq_limit q) (sq_offset q)) as (tl & rl & El & Htl). destruct (clause_head "ORDER" [word "BY"] print_order (sq_order q) tl rl _ Htl) as (to & ro & Eo & Hto).
  destruct (clause_head "HAVING" [] (λ e, parens (print e)) (sq_having q) to ro _ Hto) as (th & rh & Eh & Hth). rewrite El, Eo, Eh in Hr.
  assert (length (sq_prefixes q) ≤ length (concat (map print_prefix (sq_prefixes q)))) as Lp by (clear; induction (sq_prefixes q) as [|[] l IH]; simpl in *; lia).
  assert (length (sq_from q) ≤ length (concat (map print_from (sq_from q)))) as Lf by (clear; induction (sq_from q) as [|[[] ] l IH]; simpl in *; lia).
  set (pref := prefix_map (sq_prefixes q)). set (exprs := item_exprs (default [] (sq_select q))).
  destruct (y_prefixes n (sq_prefixes q) ∅ st (word "SELECT") _ Wp ltac:(done) ltac:(done) ltac:(lia) Hr) as (s1 & E1 & [H1 R1] & A1 & S1). change (parse_prefixes n ∅ st = POk pref s1) in E1.
  unfold parse_query. rewrite (bind_ok _ _ _ _ _ E1). unfold bindP at 1, getP at 1. assert (unsupported_form s1 = None) as -> by (unfold unsupported_form; cbn [find]; by known H1).
  assert (eatKw "SELECT" s1 = POk tt (step s1)) as E2 by (unfold eatKw, bindP, getP; known H1; apply advance_step). rewrite (bind_ok _ _ _ _ _ E2). destruct (step_flags s1) as [A2 S2]. unfold bindP at 1, getP at 1.
  set (proj := match sq_select q with None => [sym TK.Star] | Some l => concat (map print_item l) end) in *.
  assert (∃ t r, (proj ++ concat (map print_from (sq_from q)) ++ word "WHERE" :: print_group None (sq_where q) ++ print_clause [word "GROUP"; word "BY"] print_key (sq_group q) ++ th :: rh) = t :: r ∧ t.1 ≠ TK.Keyword) as (tp & rp & Ep & Htp).
  { unfold proj. destruct (sq_select q) as [[|[] l]|]; simpl in *; [done|..]; by do 2 eexists. }
  assert (∃ s2, (if kw "DISTINCT" (step s1) || kw "REDUCED" (step s1) then advance else retP tt) (step s1) = POk tt s2 ∧ kw "DISTINCT" (step s1) = sq_distinct q ∧ reads (tp :: rp) s2 ∧ aggregatesAllowed s2 = false ∧ sawAggregate s2 = false) as (s2 & E3 & Hd & R2 & A3 & S3).
  { rewrite Ep in R1. destruct (step_flags (step s1)) as [A2' S2']. destruct (sq_distinct q); cbn [app] in R1; destruct R1 as [K R1].
    - known K. exists (step (step s1)). rewrite advance_step, A2', A2, A1, Ha, S2', S2, S1, Hs. done.
    - destruct tp as [k v]. rewrite !(kw_tokv _ _ _ _ K), bool_decide_false by done. exists (step s1). rewrite A2, A1, Ha, S2, S1, Hs. by split_and!. }
  rewrite (bind_ok _ _ _ _ _ E3), Hd. unread Ep R2. clear Ep Htp tp rp E1 E2 E3.
  assert (∃ t r, concat (map print_from (sq_from q)) ++ word "WHERE" :: print_group None (sq_where q) ++ print_clause [word "GROUP"; word "BY"] print_key (sq_group q) ++ th :: rh = t :: r ∧ item_start t.1 = false) as (tf & rf & Ef & Htf).
  { destruct (sq_from q) as [|[[] ?] l]; simpl; by do 2 eexists. }
  rewrite Ef in R2. destruct (y_projection n pref (sq_select q) s2 tf rf Wsel ltac:(unfold proj in *; lia) Htf A3 R2) as (s3 & E4 & R3 & A4 & S4). rewrite (bind_ok _ _ _ _ _ E4). cbv beta iota. fold exprs in S4 |- *. unread Ef R3.
  destruct (y_from n (sq_from q) s3 (word "WHERE") _ ltac:(done) ltac:(lia) R3) as (s4 & E5 & [H4 R4] & A5 & S5). rewrite (bind_ok _ _ _ _ _ E5). unfold bindP at 1, getP at 1.
  assert ((if kw "WHERE" s4 then advance else retP tt) s4 = POk tt (step s4)) as E6 by (known H4; apply advance_step). rewrite (bind_ok _ _ _ _ _ E6). destruct (step_flags s4) as [A6 S6].
  destruct (y_group iri_error pref n g false None (sq_where q) (step s4) _ (all_groups _ _ _) Wps ltac:(by left) ltac:(lia) ltac:(congruence) R4) as (s5 & E7 & R5 & A7 & S7). rewrite (bind_ok _ _ _ _ _ E7). cbv beta iota.
  assert (ends_keys th = true) as Hek by (unfold ends_keys; apply bool_decide_true; set_solver).
  destruct (y_group_by n pref (sq_group q) s5 th rh Wk Wd ltac:(unfold print_clause in Hn; destruct (sq_group q); simpl in *; lia) Hek ltac:(congruence) R5) as (s6 & E8 & R6 & A8 & S8). rewrite (bind_ok _ _ _ _ _ E8). unread Eh R6.
  destruct (y_having n pref (sq_having q) s6 to ro Wh ltac:(unfold print_clause in Hn; destruct (sq_having q); simpl in *; lia) Hto ltac:(congruence) R6) as (s7 & E9 & R7 & A9 & S9). rewrite (bind_ok _ _ _ _ _ E9). unread Eo R7.
  destruct (y_order_by n pref (sq_order q) s7 tl rl Wo ltac:(unfold print_clause in Hn; destruct (sq_order q); simpl in *; lia) Htl ltac:(congruence) R7) as (s8 & E10 & R8 & A10 & S10). rewrite (bind_ok _ _ _ _ _ E10). unread El R8.
  destruct (y_bounds _ _ s8 Wl Woff R8) as (s9 & E11 & [H9 _] & A11 & S11). rewrite (bind_ok _ _ _ _ _ E11). cbv beta iota. unfold bindP at 1, getP at 1. known H9. exists s9. unfold finish, elab_query. fold pref exprs.
  assert (sawAggregate s9 = existsb (λ se, has_aggregate se.2) exprs || existsb has_aggregate (sq_having q) || existsb (λ k, has_aggregate (ok_expr k)) (sq_order q)) as ->.
  { rewrite S11, S10, S9, S8, S7, S6, S5, S4, S3. by rewrite !orb_false_r. }
  done.
Qed.
End Queries.

(** ** Parsing the text of a query

    The tokenizer reads the text of tokens back, and so the parser the text of a
    query. *)

(** ** Characters *)

Lemma all_chars (p : ascii → bool) : forallb p (map chr (seq 0 256)) = true → ∀ c, p c = true.
Proof.
  rewrite forallb_forall. intros H c. apply H. apply in_map_iff. exists (nat_of_ascii c). split; [apply ascii_nat_embedding|]. apply in_seq. pose proof (nat_ascii_bounded c). lia.
Qed.
(** A character that starts a name or a number is no operator and no blank. *)
Definition not_operator (c : ascii) : bool :=
  negb (isspace c || eqc c "#" || eqc c "<" || eqc c quote2 || eqc c "'" || eqc c "?" || eqc c "$" || eqc c "!" || eqc c ">" || eqc c "&" || eqc c "|" || eqc c "^") &&
  match single c, late_single c with None, None => true | _, _ => false end.
Lemma word_char c : implb (isalnum c || eqc c "_") (not_operator c && negb (eqc c ":")) = true.
Proof. revert c. apply all_chars. vm_compute. reflexivity. Qed.
Lemma name_char c : implb (isNameChar c) (negb (eqc c ":")) = true.
Proof. revert c. apply all_chars. vm_compute. reflexivity. Qed.
Lemma local_char c : implb (isLocalChar c) (negb (eqc c ":")) = true.
Proof. revert c. apply all_chars. vm_compute. reflexivity. Qed.
Lemma alpha_char c : implb (isalpha c || eqc c "_") (isalnum c || eqc c "_") && implb (isalpha c || eqc c "_") (negb (isdigit c)) && implb (isdigit c) (isalnum c && negb (eqc c "_")) = true.
Proof. revert c. apply all_chars. vm_compute. reflexivity. Qed.

Lemma take_while_app p v c rest : forallb p v = true → p c = false → take_while p (v ++ c :: rest) = (v, c :: rest).
Proof. intros Hv Hc. induction v as [|x v IH]; simpl in *; [by rewrite Hc|]. apply andb_true_iff in Hv as [-> Hv]. by rewrite IH. Qed.
Lemma split_first_eq c s a b : split_first c s = Some (a, b) → s = a ++ c :: b.
Proof.
  revert a. induction s as [|x s IH]; intros a E; [done|]. simpl in E. destruct (eqc x c) eqn:Ex.
  - injection E as <- <-. apply Ascii.eqb_eq in Ex. by subst.
  - destruct (split_first c s) as [[a' b']|]; [|done]. injection E as <- <-. by rewrite (IH a' eq_refl).
Qed.

(** The tokenizer on a character that starts a name or a number. *)
Lemma next_word c r l : not_operator c = true → (eqc c "_" && head_is ":" r) = false →
  next (mkTz (c :: r) l) = if isdigit c then readNumber (c :: r) l else if isalpha c || eqc c "_" then readIdent (c :: r) l else (mkToken TK.Unknown [c] l, mkTz r l).
Proof.
  unfold not_operator. intros [H Hs]%andb_true_iff Hb. rewrite negb_true_iff, !orb_false_iff in H. destruct_and!. unfold next. cbn [left line skipWS].
  repeat match goal with E : eqc c _ = false |- _ => rewrite E; clear E | E : isspace c = false |- _ => rewrite E; clear E end. cbn [orb andb]. rewrite Hb.
  destruct (single c); [done|]. destruct (late_single c); [done|]. reflexivity.
Qed.

Lemma iri_ahead_text v rest : iri_text v = true → iri_ahead (v ++ ">"%char :: rest) = true.
Proof.
  induction v as [|c v IH]; [done|]. intros [Hc Hv]%andb_true_iff. unfold iri_char in Hc. rewrite negb_true_iff, !orb_false_iff in Hc. destruct Hc as [[Hc Hs] Ho].
  cbn [app iri_ahead]. by rewrite Hc, Hs, Ho, IH.
Qed.
Lemma readUntil_text v rest l : iri_text v = true → readUntil ">" (v ++ ">"%char :: rest) l = (v, mkTz rest l).
Proof.
  revert l. induction v as [|c v IH]; intros l; [done|]. intros [Hc Hv]%andb_true_iff. unfold iri_char in Hc. rewrite negb_true_iff, !orb_false_iff in Hc. destruct Hc as [[Hc Hs] Ho].
  cbn [app readUntil]. rewrite Hc. assert (bump c l = l) as ->; [|by rewrite (IH l Hv)]. unfold bump. destruct (eqc c newline) eqn:E; [|done]. apply Ascii.eqb_eq in E. subst. by vm_compute in Hs.
Qed.
Lemma readStr_text v rest l : ∃ l', readStr quote2 (escape v ++ quote2 :: rest) l = (v, mkTz rest l').
Proof.
  revert l. induction v as [|c v IH]; intros l; [by exists l|]. unfold escape. cbn [map concat]. fold (escape v). destruct (eqc c quote2 || eqc c backslash) eqn:E.
  - destruct (IH (bump c l)) as (l' & E'). exists l'. cbn [app readStr]. change (eqc backslash quote2) with false. change (eqc backslash backslash) with true. cbv iota. by rewrite E'.
  - apply orb_false_iff in E as [E1 E2]. destruct (IH (bump c l)) as (l' & E'). exists l'. cbn [app readStr]. by rewrite E1, E2, E'.
Qed.

Lemma next_space s l : next (mkTz (" "%char :: s) l) = next (mkTz s l).
Proof. reflexivity. Qed.

Lemma implb_elim a b : implb a b = true → a = true → b = true.
Proof. by intros H ->. Qed.

(** The tokenizer reads the text of a token back. *)
Lemma next_render t rest l : valid_tok t = true → ∃ l1 l2, next (mkTz (render t ++ " "%char :: rest) l) = (mkToken t.1 t.2 l1, mkTz (" "%char :: rest) l2).
Proof.
  destruct t as [k v]. intros Hv. assert ((is_symbol k && bool_decide (v = symbol k)) = true → ∃ l1 l2, next (mkTz (v ++ " "%char :: rest) l) = (mkToken k v l1, mkTz (" "%char :: rest) l2)) as Hsym.
  { intros [Hk ->%bool_decide_eq_true]%andb_true_iff. exists l, l. destruct k; try discriminate Hk; reflexivity. }
  destruct k; cbn [valid_tok render fst snd] in *; try (by apply Hsym); try discriminate Hv.
  - (* IRI *) exists l, l. cbn [txt String.list_ascii_of_string app]. rewrite <-!app_assoc. cbn [app]. unfold next. cbn [left line skipWS].
    change (isspace "<") with false. change (eqc "<" "#") with false. change (eqc "<" "<") with true. cbv iota. by rewrite (iri_ahead_text _ _ Hv), (readUntil_text _ _ _ Hv).
  - (* PrefixedName *) unfold prefixed_text in Hv. destruct (split_first ":" v) as [[a b]|] eqn:E; [|done]. apply split_first_eq in E as ->. rewrite !andb_true_iff in Hv. destruct Hv as [[Ha Hb] Hd%bool_decide_eq_true].
    destruct a as [|c r]; [done|]. apply andb_true_iff in Ha as [Hc Hr]. rewrite <-app_assoc. cbn [app].
    assert (isalpha c || eqc c "_" = true) as Hc' by (destruct (isalpha c), (eqc c "_"); simpl in *; done). pose proof (alpha_char c) as Hal. rewrite !andb_true_iff in Hal. destruct Hal as [[Hal1 Hal2] _].
    pose proof (implb_elim _ _ (word_char c) (implb_elim _ _ Hal1 Hc')) as [Hop _]%andb_true_iff. rewrite next_word; [|done|].
    + rewrite (proj1 (negb_true_iff _) (implb_elim _ _ Hal2 Hc')), Hc'. exists l, l. unfold readIdent. change (c :: r ++ ":"%char :: b ++ " "%char :: rest) with ((c :: r) ++ ":"%char :: b ++ " "%char :: rest).
      rewrite take_while_app by done. cbn [andb]. change (eqc ":" ":") with true. cbn [andb].
      assert (match b ++ " "%char :: rest with c' :: _ => eqc c' ":" | [] => false end = false) as ->.
      { destruct b as [|c' b]; [done|]. simpl in *. apply andb_true_iff in Hb as [Hb _]. apply negb_true_iff. apply (implb_elim _ _ (local_char c') Hb). }
      cbn [negb]. rewrite take_while_app by done. by rewrite Hd.
    + destruct (eqc c "_") eqn:Eu; [|done]. apply Ascii.eqb_eq in Eu. subst. simpl in Hc. destruct r as [|c' r]; [done|]. cbn [app head_is andb]. simpl in Hr. apply andb_true_iff in Hr as [Hr _].
      apply negb_true_iff. apply (implb_elim _ _ (name_char c') Hr).
  - (* Var *) exists l, l. cbn [txt String.list_ascii_of_string app]. unfold next. cbn [left line skipWS]. change (isspace "?") with false. change (eqc "?" "#") with false. change (eqc "?" "<") with false.
    change (eqc "?" quote2 || eqc "?" "'") with false. change (eqc "?" "?" || eqc "?" "$") with true. cbv iota. by rewrite take_while_app.
  - (* BlankNode *) exists l, l. cbn [txt String.list_ascii_of_string app]. unfold next. cbn [left line skipWS]. change (isspace "_") with false. change (eqc "_" "#") with false. change (eqc "_" "<") with false.
    change (eqc "_" quote2 || eqc "_" "'") with false. change (eqc "_" "?" || eqc "_" "$") with false. cbn [head_is tail]. change (eqc "_" "_" && eqc ":" ":") with true. cbv iota. by rewrite take_while_app.
  - (* Keyword *) unfold keyword_text in Hv. destruct v as [|c r]; [done|]. rewrite !andb_true_iff in Hv. destruct Hv as [[Hc Hr] Hu%bool_decide_eq_true].
    pose proof (alpha_char c) as Hal. rewrite !andb_true_iff in Hal. destruct Hal as [[Hal1 Hal2] _]. pose proof (implb_elim _ _ (word_char c) (implb_elim _ _ Hal1 Hc)) as [Hop _]%andb_true_iff.
    cbn [app]. rewrite next_word; [|done|].
    + rewrite (proj1 (negb_true_iff _) (implb_elim _ _ Hal2 Hc)), Hc. exists l, l. unfold readIdent. change (c :: r ++ " "%char :: rest) with ((c :: r) ++ " "%char :: rest). rewrite take_while_app by done.
      change (eqc " " ":") with false. cbn [andb]. by rewrite Hu.
    + destruct (eqc c "_"); [|done]. simpl in Hr. apply andb_true_iff in Hr as [_ Hr]. destruct r as [|c' r]; [done|]. simpl in Hr |- *. apply andb_true_iff in Hr as [Hr _]. apply negb_true_iff. apply (implb_elim _ _ (name_char c') Hr).
  - (* StringLit *) destruct (readStr_text v (" "%char :: rest) l) as (l' & E). exists l', l'. rewrite app_comm_cons, <-app_assoc. cbn [app]. unfold next. cbn [left line skipWS].
    change (isspace quote2) with false. change (eqc quote2 "#") with false. change (eqc quote2 "<") with false. change (eqc quote2 quote2 || eqc quote2 "'") with true. cbv iota. by rewrite E.
  - (* Number *) assert (∃ c r, v = c :: r ∧ isdigit c = true) as (c & r & -> & Hc).
    { apply orb_true_iff in Hv as [Hv|Hv]; [destruct v as [|c r]; [done|]; apply andb_true_iff in Hv as [_ [Hc _]%andb_true_iff]; eauto|].
      unfold decimal_text in Hv. destruct (split_first "." v) as [[a b]|] eqn:E; [|done]. apply split_first_eq in E as ->. destruct a as [|c a]; [done|]. apply andb_true_iff in Hv as [[_ [Hc _]%andb_true_iff]%andb_true_iff _]. simpl. eauto. }
    pose proof (alpha_char c) as Hal. rewrite !andb_true_iff in Hal. destruct Hal as [_ Hal]. pose proof (implb_elim _ _ Hal Hc) as [Hn Hu%negb_true_iff]%andb_true_iff.
    pose proof (implb_elim _ _ (word_char c) ltac:(by rewrite Hn)) as [Hop _]%andb_true_iff. cbn [app]. rewrite next_word, Hc; [|done|by rewrite Hu]. exists l, l. unfold readNumber. change (c :: r ++ " "%char :: rest) with ((c :: r) ++ " "%char :: rest).
    apply orb_true_iff in Hv as [Hv|Hv].
    + apply andb_true_iff in Hv as [_ Hv]. by rewrite take_while_app.
    + unfold decimal_text in Hv. destruct (split_first "." (c :: r)) as [[a b]|] eqn:E; [|done]. apply split_first_eq in E as E'. rewrite E'. rewrite !andb_true_iff in Hv. destruct Hv as [[_ Ha]%andb_true_iff [Hne Hb]%andb_true_iff].
      rewrite <-app_assoc. cbn [app]. rewrite take_while_app by done. cbn [head_is tail]. assert (head_digit (b ++ " "%char :: rest) = true) as -> by (destruct b; [done|]; simpl in *; by apply andb_true_iff in Hb as [? _]).
      change (eqc "." "." && true) with true. cbv iota. by rewrite take_while_app.
Qed.

(** ** Texts *)

#[local] Abbreviation eof := ((TK.Eof, []) : ptok).
Lemma reads_text ts : forallb valid_tok ts = true → ∀ st l, tz st = mkTz (" "%char :: render_all ts) l → reads (ts ++ [eof]) (step st).
Proof.
  induction ts as [|t ts IH]; intros Hv st l Hz; unfold step; rewrite Hz, next_space.
  - split; [|done]. reflexivity.
  - cbn [forallb] in Hv. apply andb_true_iff in Hv as [Ht Hv]. unfold render_all. cbn [map concat]. fold (render_all ts). rewrite <-app_assoc. change (txt " " ++ render_all ts) with (" "%char :: render_all ts).
    destruct (next_render t (render_all ts) l Ht) as (l1 & l2 & E). rewrite E. cbn [app]. split; [by destruct t|]. by eapply IH.
Qed.
Lemma reads_new ts : forallb valid_tok ts = true → reads (ts ++ [eof]) (newParser (render_all ts)).
Proof.
  intros Hv. pose proof (reads_text ts Hv (mkPS (mkTz (" "%char :: render_all ts) 1) (mkToken TK.Eof [] 1) false false) 1%Z eq_refl) as H. unfold step in H. cbn [tz aggregatesAllowed sawAggregate] in H. rewrite next_space in H. exact H.
Qed.

(** C5. The parser implements the grammar.  The text of a query yields the
    expressions, patterns and clauses that the query denotes, with prefixes
    expanded and the graph in force at each pattern, or the error of an
    aggregation that projects a variable it does not group; the bound on the
    recursion is the number of tokens. *)
Theorem parse_print_query iri_error g q n :
  wf_query iri_error q = true → forallb valid_tok (print_query q) = true → length (print_query q) < n →
  ∃ st, parse iri_error n (print_text q) g =
    match check_aggregation (elab_query g q) with Some what => PThrow false what | None => POk (elab_query g q) st end.
Proof.
  intros Hw Hv Hn. destruct (y_query iri_error n g q (newParser (print_text q)) Hw Hn) as (st & E).
  - unfold newParser. by destruct (next _).
  - unfold newParser. by destruct (next _).
  - by apply reads_new.
  - exists st. unfold parse. rewrite E. unfold finish. by destruct (check_aggregation _).
Qed.

(** A query with most of the grammar. *)
Definition sample_query : SQuery :=
  mkSQuery [(txt "x", txt "http://e/"); ([], txt "http://f/")] true
    (Some [IVar (txt "a"); IExpr (AggregateExpr GroupConcat true (Some (VariableExpr (txt "b"))) (txt ", ")) (txt "bs");
           IExpr (ArithExpr OMul (AggregateExpr Count false None (txt " ")) (NegateExpr (LiteralExpr (txt "2.5") TDecimal []))) (txt "n")])
    [(true, txt "http://g")]
    [STriples [OneVerb (SVar (txt "a")) (SPrefixed (txt "x:p")) (SVar (txt "b")) [SBlank (txt "k"); SIri (txt "http://o")]; ManyVerbs (SVar (txt "b")) SType (SPrefixed (txt "x:T")) [(SPrefixed (txt "x:q"), SVar (txt "c"))]];
     SUnion [SGraph (NPrefixed (txt "x:g")) [STriples [OneVerb (SVar (txt "a")) (SVar (txt "r")) (SVar (txt "d")) []]]] [[]; [SOptional []]];
     STruthOf (TAtLeast (txt "0.5")) (Some (NIri (txt "http://norm"))) [STruthOf (TVar (txt "t")) None [STriples [OneVerb (SVar (txt "a")) SType (SVar (txt "d")) []]]];
     SFilter (OrExpr [CompareExpr OLte (CastExpr (VariableExpr (txt "c")) (Some TLong) false) (LiteralExpr (txt "7") TInteger []);
                      AndExpr [NotExpr (FunctionCallExpr (txt "BOUND") [VariableExpr (txt "d")]); CompareExpr ONeq (VariableExpr (txt "c")) (LiteralExpr (txt "it is a \") TString []);
                               LiteralExpr (txt "1") TByte []]])]
    [GVar (txt "a"); GExpr (FunctionCallExpr (txt "STRLEN") [CastExpr (VariableExpr (txt "a")) None true]) None; GExpr (LiteralExpr (txt "true") TBoolean []) (Some (txt "k"))]
    [CompareExpr OGt (AggregateExpr Sum false (Some (VariableExpr (txt "c"))) (txt " ")) (LiteralExpr (txt "3") TInteger [])]
    [mkOrderKey (VariableExpr (txt "n")) true; mkOrderKey (AggregateExpr Min false (Some (VariableExpr (txt "c"))) (txt " ")) false] (Some (txt "10")) (Some (txt "20")).
Lemma parse_print_query_witness :
  wf_query (λ _, None) sample_query = true ∧ forallb valid_tok (print_query sample_query) = true ∧ length (print_query sample_query) < 300 ∧ check_aggregation (elab_query [] sample_query) = None ∧
  ∃ st, parse (λ _, None) 300 (print_text sample_query) [] =
    match check_aggregation (elab_query [] sample_query) with Some what => PThrow false what | None => POk (elab_query [] sample_query) st end.
Proof.
  assert (length (print_query sample_query) < 300) as Hl by (apply Nat.ltb_lt; vm_compute; reflexivity). split_and!; [vm_compute; reflexivity..|exact Hl|vm_compute; reflexivity|].
  apply parse_print_query; [vm_compute; reflexivity..|exact Hl].
Defined.
