(* ===== verification/SparqlKey.v ===== *)
(** * The key of an expression

    Aggregates with one key share a column, and so do their arguments.  The key
    tells two expressions apart as long as no datatype and no separator in them
    contains a closing parenthesis. *)

From S2P Require Import Prelude Serialization GraphDataOps FuzzyTurtle Datatypes SparqlText SparqlLexer SparqlParser SparqlQuery SparqlTermination SparqlSyntax SparqlExprRoundtrip SparqlPatternRoundtrip SparqlRoundtrip.
From Stdlib Require Import Strings.Ascii.
From stdpp Require Import pretty.
#[local] Open Scope nat_scope.
#[local] Open Scope list_scope.

(** ** Numbers *)

Lemma digit_char_ok x : (x < 10)%N → isdigit (pretty_N_char x) = true.
Proof. intros H. assert (∃ n : nat, x = N.of_nat n ∧ n < 10) as (n & -> & Hn) by (exists (N.to_nat x); lia). do 10 (destruct n as [|n]; [reflexivity|]). lia. Qed.
Lemma pretty_go_digits x s : forallb isdigit (txt s) = true → forallb isdigit (txt (pretty_N_go x s)) = true.
Proof.
  revert s. induction (N.lt_wf_0 x) as [x _ IH]. intros s Hs. destruct (N.eq_dec x 0%N) as [->|Hx]; [by rewrite pretty_N_go_0|]. rewrite pretty_N_go_step by lia.
  apply IH; [apply N.div_lt; lia|]. unfold txt in *. simpl. rewrite Hs, digit_char_ok; [done|]. apply N.mod_lt. lia.
Qed.
Lemma num_nat_digits n : forallb isdigit (num (Z.of_nat n)) = true.
Proof.
  unfold num, pretty, pretty_Z. destruct n as [|n]; [reflexivity|]. cbn [Z.of_nat]. unfold pretty, pretty_positive, pretty, pretty_N. by apply pretty_go_digits.
Qed.
Lemma num_type_digits t : forallb isdigit (num (to_int32 t)) = true.
Proof. destruct t; vm_compute; reflexivity. Qed.
Lemma num_inj a b : num a = num b → a = b.
Proof.
  unfold num, txt. intros H. apply (inj pretty). rewrite <-(String.string_of_list_ascii_of_string (pretty a)), <-(String.string_of_list_ascii_of_string (pretty b)). by rewrite H.
Qed.

(** ** Splitting *)

Definition stops (p : ascii → bool) (r : text) : Prop := match r with [] => True | c :: _ => p c = false end.
Lemma take_while_stops p v r : forallb p v = true → stops p r → take_while p (v ++ r) = (v, r).
Proof. intros Hv Hr. destruct r as [|c r]; [|by apply take_while_app]. rewrite app_nil_r. induction v as [|x v IH]; [done|]. simpl in *. apply andb_true_iff in Hv as [-> Hv]. by rewrite IH. Qed.
Lemma split_stops p v1 v2 r1 r2 : forallb p v1 = true → forallb p v2 = true → stops p r1 → stops p r2 → v1 ++ r1 = v2 ++ r2 → v1 = v2 ∧ r1 = r2.
Proof. intros H1 H2 S1 S2 E. pose proof (take_while_stops p v1 r1 H1 S1) as T1. rewrite E, (take_while_stops p v2 r2 H2 S2) in T1. by simplify_eq. Qed.

Definition not_close (c : ascii) : bool := negb (eqc c ")").
Definition delim (r : text) : Prop := match r with [] => True | c :: _ => oneof [","; ")"; "|"]%char c = true end.
Lemma delim_var r : delim r → stops isVarChar r.
Proof.
  destruct r as [|c r]; [done|]. unfold delim, stops. assert (implb (oneof [","; ")"; "|"]%char c) (negb (isVarChar c)) = true) as H by (revert c; apply all_chars; vm_compute; reflexivity).
  intros Hc. by apply negb_true_iff, (implb_elim _ _ H).
Qed.

(** What an expression must be for its key to tell it apart. *)
Fixpoint key_ok (e : Expr) : bool :=
  match e with
  | VariableExpr v => var_text v
  | LiteralExpr _ _ d => forallb not_close d
  | NotExpr o | NegateExpr o => key_ok o
  | AndExpr ops | OrExpr ops => forallb key_ok ops
  | CompareExpr _ l r | ArithExpr _ l r => key_ok l && key_ok r
  | FunctionCallExpr name args => forallb isNameChar name && forallb key_ok args
  | CastExpr o t b => key_ok o && (negb b || bool_decide (t = None))
  | AggregateExpr fn _ arg separator =>
      (match arg with Some a => key_ok a | None => true end) && (if bool_decide (fn = GroupConcat) then forallb not_close separator else bool_decide (separator = txt " "))
  end.

Lemma compare_prefix op1 op2 x y : num (compare_code op1) ++ txt "(" ++ x = num (compare_code op2) ++ txt "(" ++ y → op1 = op2 ∧ x = y.
Proof. destruct op1, op2; intros H; vm_compute in H; by simplify_eq. Qed.
Lemma arith_prefix op1 op2 x y : num (arith_code op1) ++ txt "(" ++ x = num (arith_code op2) ++ txt "(" ++ y → op1 = op2 ∧ x = y.
Proof. destruct op1, op2; intros H; vm_compute in H; by simplify_eq. Qed.
Lemma agg_prefix fn1 fn2 (d1 d2 : bool) x y :
  aggFnName fn1 ++ (if d1 then txt "|distinct|" else txt "|all|") ++ x = aggFnName fn2 ++ (if d2 then txt "|distinct|" else txt "|all|") ++ y → fn1 = fn2 ∧ d1 = d2 ∧ x = y.
Proof. destruct fn1, fn2, d1, d2; intros H; vm_compute in H; by simplify_eq. Qed.
Lemma key_head e : ∃ c r, exprKey e = c :: r ∧ c ≠ ")"%char ∧ c ≠ "*"%char.
Proof. destruct e; simpl; eauto. Qed.

(** ** Keys are prefix codes *)

(** The key of [e] and what follows it determine [e]. *)
Definition decodes (e : Expr) : Prop := ∀ e2 r1 r2, key_ok e = true → key_ok e2 = true → delim r1 → delim r2 → exprKey e ++ r1 = exprKey e2 ++ r2 → e = e2 ∧ r1 = r2.

Lemma keys_decode ops : Forall decodes ops → ∀ ops2 r1 r2, forallb key_ok ops = true → forallb key_ok ops2 = true →
  concat (map (λ o, exprKey o ++ txt ",") ops) ++ ")"%char :: r1 = concat (map (λ o, exprKey o ++ txt ",") ops2) ++ ")"%char :: r2 → ops = ops2 ∧ r1 = r2.
Proof.
  induction 1 as [|e ops He _ IH]; intros [|e2 ops2] r1 r2 H1 H2 E; cbn [map concat forallb app] in *.
  - injection E as E. done.
  - exfalso. destruct (key_head e2) as (c & r & Ek & Hc & _). rewrite Ek in E. cbn [app] in E. injection E as E _. by subst.
  - exfalso. destruct (key_head e) as (c & r & Ek & Hc & _). rewrite Ek in E. cbn [app] in E. injection E as E _. by subst.
  - apply andb_true_iff in H1 as [H1 H1s]. apply andb_true_iff in H2 as [H2 H2s]. rewrite <-!app_assoc in E. apply He in E as [-> E]; [|done|done|reflexivity|reflexivity].
    cbn [txt String.list_ascii_of_string app] in E. injection E as E. by apply IH in E as [-> ->].
Qed.

Lemma literal_decodes l t d : decodes (LiteralExpr l t d).
Proof.
  intros e2 r1 r2 H1 H2 _ _ E. destruct e2 as [|l2 t2 d2| | | | | | | | |]; try discriminate E. cbn [key_ok exprKey txt String.list_ascii_of_string app] in *. injection E as E. repeat (rewrite <-!app_assoc in E; cbn [app] in E).
  apply (split_stops isdigit) in E as [E1 E]; [|apply num_nat_digits|apply num_nat_digits|reflexivity|reflexivity]. apply num_inj, Nat2Z.inj in E1. injection E as E.
  apply app_inj_1 in E as [-> E]; [|exact E1]. injection E as E. apply (split_stops isdigit) in E as [E2 E]; [|apply num_type_digits|apply num_type_digits|reflexivity|reflexivity]. apply num_inj, to_int32_inj in E2 as ->. injection E as E.
  apply (split_stops not_close) in E as [-> E]; [|done|done|reflexivity|reflexivity]. injection E as E. done.
Qed.
Lemma cast_decodes o t b : decodes o → decodes (CastExpr o t b).
Proof.
  intros Ho e2 r1 r2 H1 H2 _ _ E. destruct e2 as [| | | | | | | | |o2 t2 b2|]; try discriminate E. cbn [key_ok exprKey txt String.list_ascii_of_string app] in *. injection E as E. repeat (rewrite <-!app_assoc in E; cbn [app] in E).
  apply andb_true_iff in H1 as [H1 Hb1]. apply andb_true_iff in H2 as [H2 Hb2].
  set (p := λ c : ascii, negb (eqc c "(")). assert (∀ t b, forallb p (cast_target t b) = true) as Hp.
  { intros t0 b0. unfold cast_target. destruct b0; [reflexivity|]. destruct t0 as [t0|]; [|reflexivity]. apply (forallb_impl isdigit); [|apply num_type_digits].
    intros c. pose proof (alpha_char c) as Ha. unfold p. destruct (eqc c "(") eqn:Ec; [|done]. apply Ascii.eqb_eq in Ec. by subst. }
  apply (split_stops p) in E as [Et E]; [|apply Hp|apply Hp|reflexivity|reflexivity]. injection E as E. apply Ho in E as [-> E]; [|done|done|reflexivity|reflexivity]. injection E as ->. split; [|done].
  assert (b = b2 ∧ t = t2) as [-> ->]; [|done]. unfold cast_target in Et.
  assert (∀ t, txt "lang" ≠ num (to_int32 t) ∧ txt "str" ≠ num (to_int32 t)) as Hne by (intros t0; split; intros Ex; pose proof (num_type_digits t0) as Hd; rewrite <-Ex in Hd; discriminate Hd).
  destruct b, b2; cbn [negb orb] in *; rewrite ?bool_decide_eq_true in *; destruct t as [t|], t2 as [t2|]; try done; try (by destruct (Hne t)); try (by destruct (Hne t2)).
  apply num_inj, to_int32_inj in Et as ->. done.
Qed.
(** The function, the flag, the argument and the separator of an aggregate, before
    a text that delimits the separator. *)
Lemma agg_decodes fn (d : bool) arg (sep : text) fn2 (d2 : bool) arg2 (sep2 r1 r2 : text) :
  (∀ a, arg = Some a → decodes a) → match arg with Some a => key_ok a | None => true end = true → match arg2 with Some a => key_ok a | None => true end = true →
  (fn ≠ GroupConcat → delim r1) → (fn2 ≠ GroupConcat → delim r2) →
  aggFnName fn ++ (if d then txt "|distinct|" else txt "|all|") ++ (match arg with Some a => exprKey a | None => txt "*" end) ++ (match fn with GroupConcat => txt "|sep:" ++ sep | _ => [] end) ++ r1 =
  aggFnName fn2 ++ (if d2 then txt "|distinct|" else txt "|all|") ++ (match arg2 with Some a => exprKey a | None => txt "*" end) ++ (match fn2 with GroupConcat => txt "|sep:" ++ sep2 | _ => [] end) ++ r2 →
  fn = fn2 ∧ d = d2 ∧ arg = arg2 ∧ match fn with GroupConcat => sep ++ r1 = sep2 ++ r2 | _ => r1 = r2 end.
Proof.
  intros Ha H1 H2 D1 D2 E. apply agg_prefix in E as (-> & -> & E). split_and!; [done..| |].
  all: assert (arg = arg2 ∧ (match fn2 with GroupConcat => txt "|sep:" ++ sep | _ => [] end) ++ r1 = (match fn2 with GroupConcat => txt "|sep:" ++ sep2 | _ => [] end) ++ r2) as [-> E'].
  1,3: assert (∀ s r, (fn2 ≠ GroupConcat → delim r) → delim ((match fn2 with GroupConcat => txt "|sep:" ++ s | _ => [] end) ++ r)) as Hd by (intros s r Hr; destruct fn2; try (by apply Hr); reflexivity).
  1,2: destruct arg as [a|], arg2 as [a2|].
  1,5: apply (Ha a eq_refl) in E as [-> E]; [by split|done|done|by apply Hd|by apply Hd].
  1,4: destruct (key_head a) as (c & r & Ek & _ & Hc); rewrite Ek in E; cbn [app] in E; injection E as Ec _; by subst.
  1,3: destruct (key_head a2) as (c & r & Ek & _ & Hc); rewrite Ek in E; cbn [app] in E; injection E as Ec _; by subst.
  1,2: injection E as E; by split.
  all: try done. destruct fn2; try done. rewrite <-!app_assoc in E'. by apply app_inj_1 in E' as [_ E'].
Qed.

Lemma all_decode e : decodes e.
Proof.
  induction e as [v|l t d|o IH|ops IH|ops IH|op l r IHl IHr|op l r IHl IHr|o IH|name args IH|o t b IH|fn di arg sep IH] using Expr_rect'; [| |intros e2 r1 r2 H1 H2 D1 D2 E..].
  - intros e2 r1 r2 H1 H2 D1 D2 E. destruct e2 as [v2| | | | | | | | | |]; try discriminate E. cbn [exprKey txt String.list_ascii_of_string app] in E. injection E as E.
    apply (split_stops isVarChar) in E as [-> ->]; [done|done|done|by apply delim_var|by apply delim_var].
  - apply literal_decodes.
  - destruct e2 as [| |o2| | | | | | | |]; try discriminate E. cbn [key_ok exprKey txt String.list_ascii_of_string app] in *. rewrite <-!app_assoc in E. injection E as E. apply IH in E as [-> E]; [|done|done|reflexivity|reflexivity]. by injection E as ->.
  - destruct e2 as [| | |ops2| | | | | | |]; try discriminate E. cbn [key_ok exprKey txt String.list_ascii_of_string app] in *. rewrite <-!app_assoc in E. injection E as E. by apply (keys_decode ops IH) in E as [-> ->].
  - destruct e2 as [| | | |ops2| | | | | |]; try discriminate E. cbn [key_ok exprKey txt String.list_ascii_of_string app] in *. rewrite <-!app_assoc in E. injection E as E. by apply (keys_decode ops IH) in E as [-> ->].
  - destruct e2 as [| | | | |op2 l2 r2'| | | | |]; try discriminate E. cbn [key_ok exprKey] in *. rewrite <-!app_assoc in E. cbn [txt String.list_ascii_of_string app] in E. injection E as E. apply andb_true_iff in H1 as [? ?]. apply andb_true_iff in H2 as [? ?].
    apply compare_prefix in E as [-> E]. apply IHl in E as [-> E]; [|done|done|reflexivity|reflexivity]. injection E as E. apply IHr in E as [-> E]; [|done|done|reflexivity|reflexivity]. by injection E as ->.
  - destruct e2 as [| | | | | |op2 l2 r2'| | | |]; try discriminate E. cbn [key_ok exprKey] in *. rewrite <-!app_assoc in E. cbn [txt String.list_ascii_of_string app] in E. injection E as E. apply andb_true_iff in H1 as [? ?]. apply andb_true_iff in H2 as [? ?].
    apply arith_prefix in E as [-> E]. apply IHl in E as [-> E]; [|done|done|reflexivity|reflexivity]. injection E as E. apply IHr in E as [-> E]; [|done|done|reflexivity|reflexivity]. by injection E as ->.
  - destruct e2 as [| | | | | | |o2| | |]; try discriminate E. cbn [key_ok exprKey txt String.list_ascii_of_string app] in *. rewrite <-!app_assoc in E. injection E as E. apply IH in E as [-> E]; [|done|done|reflexivity|reflexivity]. by injection E as ->.
  - destruct e2 as [| | | | | | | |name2 args2| |]; try discriminate E. cbn [key_ok exprKey txt String.list_ascii_of_string app] in *. rewrite <-!app_assoc in E. injection E as E. apply andb_true_iff in H1 as [? ?]. apply andb_true_iff in H2 as [? ?]. cbn [app] in E.
    apply (split_stops isNameChar) in E as [-> E]; [|done|done|reflexivity|reflexivity]. injection E as E. rewrite <-!app_assoc in E. by apply (keys_decode args IH) in E as [-> ->].
  - by apply (cast_decodes o t b IH e2 r1 r2).
  - destruct e2 as [| | | | | | | | | |fn2 di2 arg2 sep2]; try discriminate E. cbn [key_ok exprKey] in *. rewrite <-!app_assoc in E. apply andb_true_iff in H1 as [H1 S1]. apply andb_true_iff in H2 as [H2 S2].
    apply app_inv_head in E. change (txt ")" ++ r1) with (")"%char :: r1) in E. change (txt ")" ++ r2) with (")"%char :: r2) in E.
    apply agg_decodes in E as (-> & -> & -> & E); [|done|done|done|by intros|by intros].
    destruct fn2; rewrite ?bool_decide_true, ?bool_decide_false in S1 by done; rewrite ?bool_decide_true, ?bool_decide_false in S2 by done; rewrite ?bool_decide_eq_true in *; subst; try (by injection E as ->).
    apply (split_stops not_close) in E as [-> E]; [|done|done|reflexivity|reflexivity]. by injection E as ->.
Qed.

(** C30. The keys by which aggregates are found: two expressions have one key
    exactly when they are equal, and two aggregate calls exactly when they have
    one function, one [DISTINCT], one argument and, for [GROUP_CONCAT], one
    separator, which may be any text.  In the expressions and in the arguments
    of the calls no datatype and no separator of a nested [GROUP_CONCAT] may
    have a closing parenthesis ([key_ok]). *)
Theorem exprKey_identifies :
  (∀ e1 e2, key_ok e1 = true → key_ok e2 = true → exprKey e1 = exprKey e2 ↔ e1 = e2) ∧
  (∀ fn1 d1 arg1 sep1 fn2 d2 arg2 sep2, match arg1 with Some a => key_ok a | None => true end = true → match arg2 with Some a => key_ok a | None => true end = true →
    aggregate_key fn1 d1 arg1 sep1 = aggregate_key fn2 d2 arg2 sep2 ↔ fn1 = fn2 ∧ d1 = d2 ∧ arg1 = arg2 ∧ (fn1 = GroupConcat → sep1 = sep2)).
Proof.
  split.
  - intros e1 e2 H1 H2. split; [|by intros ->]. intros E. destruct (all_decode e1 e2 [] [] H1 H2 I I) as [-> _]; [by rewrite E|done].
  - intros fn1 d1 arg1 sep1 fn2 d2 arg2 sep2 H1 H2. split; [|intros (<- & <- & <- & Hs); unfold aggregate_key; destruct fn1; try done; by rewrite Hs].
    intros E. unfold aggregate_key in E.
    assert (∀ fn (sep : text), match fn with GroupConcat => txt "|sep:" ++ sep | _ => [] end = match fn with GroupConcat => txt "|sep:" ++ sep | _ => [] end ++ []) as Hn by (intros; by rewrite app_nil_r).
    rewrite (Hn fn1 sep1), (Hn fn2 sep2) in E. apply agg_decodes in E as (-> & -> & -> & E); [|intros; apply all_decode|done|done|done|done]. split_and!; [done..|]. intros ->. by rewrite !app_nil_r in E.
Qed.
(** Two comparisons that differ in the lexical form only have different keys. *)
Lemma exprKey_identifies_witness :
  let e s := CompareExpr OLt (VariableExpr (txt "a")) (LiteralExpr s TInteger []) in
  exprKey (e (txt "1) ")) ≠ exprKey (e (txt "1)")) ∧
  aggregate_key Sum true (Some (e (txt "1"))) [] ≠ aggregate_key Sum false (Some (e (txt "1"))) [].
Proof.
  intros e. split.
  - intros E. apply (proj1 exprKey_identifies) in E; [discriminate E|vm_compute; reflexivity..].
  - intros E. apply (proj2 exprKey_identifies) in E as (_ & E & _); [discriminate E|vm_compute; reflexivity..].
Defined.

(** A datatype with a closing parenthesis: [F("a"^^<u>, -?x)] and
    [F("a"^^<u),neg(?x>)] have one key, and the parser accepts both. *)
Definition collide1 : Expr := FunctionCallExpr (txt "F") [LiteralExpr (txt "a") TAnyLiteralScalar (txt "u"); NegateExpr (VariableExpr (txt "x"))].
Definition collide2 : Expr := FunctionCallExpr (txt "F") [LiteralExpr (txt "a") TAnyLiteralScalar (txt "u),neg(?x")].
Lemma exprKey_collision : collide1 ≠ collide2 ∧ exprKey collide1 = exprKey collide2 ∧ wf_expr (λ _, None) true collide1 = true ∧ wf_expr (λ _, None) true collide2 = true ∧
  forallb valid_tok (print collide1) = true ∧ forallb valid_tok (print collide2) = true.
Proof. split; [done|]. split_and!; vm_compute; reflexivity. Qed.
