(* ===== verification/SparqlResult.v ===== *)
(** * What the parser of queries guarantees

    The invariant of every query the parser returns, and texts on which it
    departs from SPARQL. *)

From S2P Require Import Prelude Serialization GraphDataOps FuzzyTurtle Datatypes SparqlText SparqlLexer SparqlParser SparqlQuery SparqlTermination.
From Stdlib Require Import Strings.Ascii.
#[local] Open Scope Z_scope.
#[local] Open Scope list_scope.
#[local] Open Scope parse_scope.

(** ** Postconditions *)

Definition ensures {A} (m : PM A) (P : A → Prop) : Prop := ∀ st a st', m st = POk a st' → P a.
Lemma e_ret {A} (a : A) (P : A → Prop) : P a → ensures (retP a) P.
Proof. intros H st b st' [= <- <-]. exact H. Qed.
Lemma e_bind {A B} (m : PM A) (k : A → PM B) (Q : A → Prop) P : ensures m Q → (∀ a, Q a → ensures (k a) P) → ensures (bindP m k) P.
Proof. intros Hm Hk st b st'. unfold bindP. destruct (m st) as [a st1| |] eqn:E; [|done..]. apply Hk. by apply Hm in E. Qed.
Lemma e_any {A B} (m : PM A) (k : A → PM B) P : (∀ a, ensures (k a) P) → ensures (bindP m k) P.
Proof. intros Hk. apply (e_bind m k (λ _, True)); [done|auto]. Qed.
Lemma e_throw {A} w (P : A → Prop) : ensures (throwP w) P.
Proof. by intros st a st'. Qed.
Lemma e_unsupported {A} w (P : A → Prop) : ensures (throwUnsupported w) P.
Proof. by intros st a st'. Qed.
Lemma e_fuel {A} (P : A → Prop) : ensures fuelP P.
Proof. by intros st a st'. Qed.
Ltac e1 :=
  lazymatch goal with
  | |- ensures (retP _) _ => apply e_ret
  | |- ensures (throwP _) _ => apply e_throw
  | |- ensures (throwUnsupported _) _ => apply e_unsupported
  | |- ensures fuelP _ => apply e_fuel
  | |- ensures (if ?c then _ else _) _ => let E := fresh "E" in destruct c eqn:E
  | |- ensures (match ?c with Some _ => _ | None => _ end) _ => let E := fresh "E" in destruct c eqn:E
  | |- ensures (bindP _ _) _ => apply e_any; intros ?
  end.

Section Result.
Context (iri_error : text → option text).

(** The aliases are projected variables, in order. *)
Definition projection_ok (p : list text * list (text * Expr)) : Prop := NoDup p.1 ∧ sublist (map fst p.2) p.1.
Lemma select_loop_ok loops n pref vars exprs : projection_ok (vars, exprs) → ensures (select_loop iri_error loops n pref vars exprs) projection_ok.
Proof.
  revert vars exprs. induction n as [|n IH]; intros vars exprs [Hnd Hs]; [apply e_fuel|]. cbn [select_loop]. e1. cbn [fst snd] in *. e1.
  - e1; [e1|]. e1. apply IH. rewrite bool_decide_eq_false in E0. split; cbn [fst snd]; [|by apply sublist_inserts_r]. apply NoDup_app. split_and!; [done|set_solver|apply NoDup_singleton].
  - e1; [|e1; by split]. e1. e1. destruct a1 as [alias e]. e1; [e1|]. apply IH. rewrite bool_decide_eq_false in E1. split; cbn [fst snd]; [apply NoDup_app; split_and!; [done|set_solver|apply NoDup_singleton]|].
    rewrite map_app. by apply sublist_app.
Qed.

Lemma digits_nonneg v k l : 0 ≤ v → 0 ≤ (digits v k l).1.1.
Proof.
  revert v k. induction l as [|c l IH]; intros v k Hv; [done|]. simpl. destruct (isdigit c) eqn:Ec; [|done]. apply IH. unfold isdigit in Ec. lia.
Qed.
Lemma stoll_bounds s z : stoll s = Some z → 0 ≤ z < 2 ^ 63.
Proof. unfold stoll. pose proof (digits_nonneg 0 0 s ltac:(lia)) as H. destruct (digits 0 0 s) as [[m ?] ?]. simpl in H. destruct (m <? 2 ^ 63) eqn:E; [|done]. intros [= <-]. lia. Qed.
Definition bound_ok (b : option Z) : Prop := ∀ z, b = Some z → 0 ≤ z < 2 ^ 63.
Lemma limit_number_ok w old : ensures (limit_number w old) (λ z, 0 ≤ z < 2 ^ 63).
Proof. unfold limit_number. e1. e1; [e1|]. do 2 e1. e1; [e1|]. e1; [|e1]. do 2 e1. by eapply stoll_bounds. Qed.
Lemma limit_loop_ok i lim off : bound_ok lim → bound_ok off → ensures (limit_loop i lim off) (λ p, bound_ok p.1 ∧ bound_ok p.2).
Proof.
  revert lim off. induction i as [|i IH]; intros lim off Hl Ho; cbn [limit_loop]; [by apply e_ret|]. e1. e1; [|e1].
  - eapply e_bind; [apply limit_number_ok|]. intros z Hz. apply IH; [|done]. by intros ? [= <-].
  - eapply e_bind; [apply limit_number_ok|]. intros z Hz. apply IH; [done|]. by intros ? [= <-].
  - by apply e_ret.
Qed.
Lemma group_by_loop_ok loops n pref keys hidden : Forall (λ k, gk_var k ≠ []) keys → ensures (group_by_loop iri_error loops n pref keys hidden) (Forall (λ k, gk_var k ≠ [])).
Proof.
  revert keys hidden. induction n as [|n IH]; intros keys hidden Hk; [apply e_fuel|]. cbn [group_by_loop]. do 2 e1; [by e1|]. e1. apply (e_bind _ _ (λ p, Forall (λ k, gk_var k ≠ []) p.1)); [|intros [ks h] ?; by apply IH].
  unfold add_group_key. e1. destruct (plain_key a0) as [var e]. e1; [by e1|]. e1; [|e1; [e1|]]; e1; apply Forall_app; (split; [done|]); repeat constructor; cbn; [done|by destruct var].
Qed.

(** The thresholds of a pattern are truth degrees. *)
Fixpoint degrees_ok (p : PatternElement) : bool :=
  match p with
  | GraphPattern _ _ | FilterPattern _ => true
  | GroupPattern ps | OptionalPattern ps => forallb degrees_ok ps
  | TruthPattern _ threshold _ ps => match threshold with Some bits => in_unit bits | None => true end && forallb degrees_ok ps
  | UnionPattern bs => forallb (forallb degrees_ok) bs
  end.
Definition group_ok (r : list PatternElement * option text) : Prop := forallb degrees_ok r.1 = true.
Lemma group_ok_snoc out p (norm : option text) : group_ok (out, norm) → degrees_ok p = true → group_ok (out ++ [p], norm).
Proof. unfold group_ok. simpl. rewrite forallb_app. simpl. by intros -> ->. Qed.
Lemma truth_header_ok st : ensures (truth_header st) (λ p, match p.2 with Some bits => in_unit bits | None => true end = true).
Proof. unfold truth_header. e1; [by e1|]. e1; [|e1]. e1; [e1|]. e1. by rewrite negb_false_iff in E1. Qed.
Lemma union_loop_ok rec n g bs : (∀ g t, ensures (rec g t) group_ok) → forallb (forallb degrees_ok) bs = true → ensures (union_loop rec n g bs) (λ bs, forallb (forallb degrees_ok) bs = true).
Proof.
  intros Hrec. revert bs. induction n as [|n IH]; intros bs Hb; [apply e_fuel|]. cbn [union_loop]. e1. e1; [|by e1]. e1. eapply e_bind; [apply Hrec|]. intros [b ?] Hok. apply IH. rewrite forallb_app, Hb. simpl. unfold group_ok in Hok. simpl in Hok. by rewrite Hok.
Qed.
Lemma group_element_ok pref rec n g t out norm : (∀ g t, ensures (rec g t) group_ok) → group_ok (out, norm) → ensures (group_element iri_error pref rec n g t out norm) group_ok.
Proof.
  intros Hrec Hok. unfold group_element. e1. e1; [by e1; e1|]. e1.
  { eapply e_bind; [apply truth_header_ok|]. intros [v th] Hth. do 3 e1. eapply e_bind; [apply Hrec|]. intros [ps ni] Hps. e1. apply group_ok_snoc; [done|]. simpl in *. unfold group_ok in Hps. simpl in Hps. by rewrite Hth, Hps. }
  e1; [e1; [e1|]; e1; [e1|]; e1; by e1; e1|].
  e1; [do 2 e1; eapply e_bind; [apply Hrec|]; intros [ps ?] Hps; e1; by apply group_ok_snoc|].
  e1; [e1; eapply e_bind; [apply Hrec|]; intros [ps ?] Hps; e1; by apply group_ok_snoc|].
  e1; [do 2 e1; e1; by apply group_ok_snoc|]. e1; [e1|]. e1.
  - eapply e_bind; [apply Hrec|]. intros [ps ?] Hps. e1. e1; [|e1; by apply group_ok_snoc]. eapply e_bind; [apply (union_loop_ok rec n g [ps] Hrec)|]; [simpl; unfold group_ok in Hps; simpl in Hps; by rewrite Hps|].
    intros bs Hbs. e1. by apply group_ok_snoc.
  - e1. e1. destruct (nonempty _); [by apply group_ok_snoc|done].
Qed.
Lemma group_loop_ok pref rec loops n g t out norm : (∀ g t, ensures (rec g t) group_ok) → group_ok (out, norm) → ensures (group_loop iri_error pref rec loops n g t out norm) group_ok.
Proof.
  intros Hrec. revert out norm. induction n as [|n IH]; intros out norm Hok; [apply e_fuel|]. cbn [group_loop]. e1. e1; [by e1|]. eapply e_bind; [by apply group_element_ok|]. intros [out' norm'] ?. by apply IH.
Qed.
Lemma parseGroup_ok pref n g t : ensures (parseGroup iri_error pref n g t) group_ok.
Proof.
  revert g t. induction n as [|n IH]; intros g t; [apply e_fuel|]. cbn [parseGroup]. e1. eapply e_bind; [by apply group_loop_ok|]. intros r Hr. e1. by e1.
Qed.

(** ** Aggregation *)

Definition projected_alias (exprs : list (text * Expr)) (l : list text) (v : text) : Prop := v ∈ l ∧ find_alias exprs v ≠ None.
Lemma first_hidden_None visible vars : first_hidden visible vars = None → ∀ v, v ∈ vars → v ∈ visible.
Proof.
  unfold first_hidden. intros H v Hv. pose proof (find_none _ _ H v ltac:(by apply list_elem_of_In)) as Hn. cbv beta in Hn. by rewrite negb_false_iff, bool_decide_eq_true in Hn.
Qed.
Lemma check_select_None exprs visible vars : check_select exprs visible vars = None → ∀ l1 v l2, vars = l1 ++ v :: l2 →
  match find_alias exprs v with
  | Some e => ∀ fv, fv ∈ freeVariables e → fv ∈ visible ∨ projected_alias exprs l1 fv
  | None => v ∈ visible
  end.
Proof.
  revert visible. induction vars as [|w vars IH]; intros visible H l1 v l2 E; [by destruct l1|]. simpl in H. destruct l1 as [|w' l1]; simpl in E; injection E as -> E.
  - destruct (find_alias exprs v) as [e|]; [|by case_bool_decide]. destruct (first_hidden visible (freeVariables e)) eqn:Eh; [done|]. intros fv Hfv. left. by eapply first_hidden_None.
  - destruct (find_alias exprs w') as [e'|] eqn:Ew.
    + destruct (first_hidden visible (freeVariables e')) eqn:Eh; [done|]. specialize (IH _ H l1 v l2 E). destruct (find_alias exprs v) as [e|] eqn:Ev.
      * intros fv Hfv. destruct (IH fv Hfv) as [[->|Hin]%elem_of_cons|[Hin Ha]]; [right; split; [by left|by rewrite Ew]|by left|right; split; [by right|done]].
      * apply elem_of_cons in IH as [->|]; [by rewrite Ew in Ev|done].
    + case_bool_decide; [|done]. specialize (IH _ H l1 v l2 E). destruct (find_alias exprs v) as [e|]; [|done]. intros fv Hfv. destruct (IH fv Hfv) as [|[Hin Ha]]; [by left|]. right. split; [by right|done].
Qed.
Lemma check_having_None exprs l : check_having exprs l = None → ∀ h fv e, h ∈ l → fv ∈ freeVariables h → find_alias exprs fv = Some e → is_aggregate e = true.
Proof.
  unfold check_having. intros H h fv e Hh Hfv He. destruct (find _ _) eqn:Ef in H; [done|]. pose proof (find_none _ _ Ef fv) as Hn. cbv beta in Hn. rewrite He in Hn. apply negb_false_iff, Hn.
  apply list_elem_of_In, list_elem_of_In. apply in_concat. exists (freeVariables h). split; [apply in_map, list_elem_of_In, Hh|by apply list_elem_of_In].
Qed.

(** What a query must satisfy to group and aggregate: the star is not projected,
    every projected variable is a key of the grouping, or an expression over
    aggregates, keys, and aliases before it; and [HAVING] refers to no expression
    that is computed after it. *)
Definition aggregation_ok (q : Query) : Prop :=
  selectStar q = false ∧
  (∀ l1 v l2, selectVars q = l1 ++ v :: l2 →
    match findSelectExpr q v with
    | Some e => ∀ fv, fv ∈ freeVariables e → fv ∈ map gk_var (groupBy q) ∨ projected_alias (selectExprs q) l1 fv
    | None => v ∈ map gk_var (groupBy q)
    end) ∧
  (∀ h fv e, h ∈ having q → fv ∈ freeVariables h → findSelectExpr q fv = Some e → is_aggregate e = true).
Lemma check_aggregation_None q : check_aggregation q = None → hasAggregation q = true → aggregation_ok q.
Proof.
  unfold check_aggregation. intros H Ha. rewrite Ha in H. simpl in H. destruct (selectStar q) eqn:Es; [done|]. destruct (check_select _ _ _) eqn:Ec; [done|]. split_and!; [done| |].
  - intros l1 v l2 E. exact (check_select_None _ _ _ Ec l1 v l2 E).
  - intros h fv e. by apply check_having_None.
Qed.

(** C29. What the parser guarantees of every query it returns.  Projected
    variables are distinct and the aliases among them in order; only the star
    projects no variable; grouping keys have names; the thresholds of truth
    degrees lie in [0, 1]; [LIMIT] and [OFFSET] are at least 0 and below 2^63; and
    a query that aggregates projects and filters only what the grouping makes
    visible. *)
Theorem parse_guarantees n input g q st : parse iri_error n input g = POk q st →
  NoDup (selectVars q) ∧ sublist (map fst (selectExprs q)) (selectVars q) ∧ (selectStar q = true ↔ selectVars q = []) ∧
  Forall (λ k, gk_var k ≠ []) (groupBy q) ∧ forallb degrees_ok (patterns q) = true ∧ bound_ok (limit q) ∧ bound_ok (offset q) ∧
  (hasAggregation q = true → aggregation_ok q).
Proof.
  unfold parse. revert q. enough (ensures (parse_query iri_error n g) (λ q, NoDup (selectVars q) ∧ sublist (map fst (selectExprs q)) (selectVars q) ∧ (selectStar q = true ↔ selectVars q = []) ∧
    Forall (λ k, gk_var k ≠ []) (groupBy q) ∧ forallb degrees_ok (patterns q) = true ∧ bound_ok (limit q) ∧ bound_ok (offset q) ∧ (hasAggregation q = true → aggregation_ok q))) as H by (intros q; apply H).
  unfold parse_query. do 2 e1. e1; [e1|]. do 3 e1.
  apply (e_bind _ _ (λ p, projection_ok (p.1.2, p.2) ∧ (p.1.1 = true ↔ p.1.2 = []))).
  { unfold parse_projection. e1. e1; [e1; e1; split; [split; [by constructor|done]|done]|]. eapply e_bind; [apply (select_loop_ok n n a [] []); split; [by constructor|done]|]. intros [vs es] Hp. e1. e1; [e1|]. e1. split; [done|]. by destruct vs. }
  intros [[star vars] exprs] [[Hnd Hsub] Hstar]. do 3 e1. eapply e_bind; [apply parseGroup_ok|]. intros [ps ?] Hps.
  apply (e_bind _ _ (Forall (λ k, gk_var k ≠ []))).
  { unfold parse_group_by. e1. e1; [by e1|]. do 2 e1. e1; [e1|]. e1. eapply e_bind; [apply group_by_loop_ok; constructor|]. intros ks Hks. e1. e1; [e1|]. by e1. }
  intros keys Hkeys. do 2 e1. eapply e_bind; [by apply limit_loop_ok|]. intros [lim off] [Hlim Hoff]. e1. e1; [e1|]. cbv zeta. e1; [e1|]. e1. cbn in *. split_and!; try done. by apply check_aggregation_None.
Qed.
End Result.

Lemma parse_guarantees_witness : ∃ q st, parse (λ _, None) 90 (txt "SELECT ?s (COUNT(*) AS ?n) { ?s <p> ?o 0.5 TRUTH OF { ?o a ?s } } GROUP BY ?s LIMIT 3") [] = POk q st ∧
  NoDup (selectVars q) ∧ sublist (map fst (selectExprs q)) (selectVars q) ∧ (selectStar q = true ↔ selectVars q = []) ∧
  Forall (λ k, gk_var k ≠ []) (groupBy q) ∧ forallb degrees_ok (patterns q) = true ∧ bound_ok (limit q) ∧ bound_ok (offset q) ∧
  (hasAggregation q = true → aggregation_ok q).
Proof. eexists _, _. split; [vm_compute; reflexivity|]. eapply (parse_guarantees (λ _, None) 90 (txt "SELECT ?s (COUNT(*) AS ?n) { ?s <p> ?o 0.5 TRUTH OF { ?o a ?s } } GROUP BY ?s LIMIT 3") []). vm_compute. reflexivity. Defined.

(** ** Texts that are read in another way than SPARQL says *)

Definition parse_text (s : string) : pres Query := parse (λ _, None) 200 (txt s) [].
Definition triples_of (p : PatternElement) : list Triple := match p with GraphPattern _ ts => ts | _ => [] end.
Definition result (r : pres Query) {A} (f : Query → A) : option A := match r with POk q _ => Some (f q) | _ => None end.
Definition v (s : string) : Term := mkTerm KVariable (txt s).
Definition i (s : string) : Term := mkTerm KIri (txt s).

(** An object behind a comma gets the first predicate of its subject, not the last
    one; a semicolon behind a comma is refused. *)
Lemma comma_takes_first_predicate :
  result (parse_text "SELECT * { ?s <p> ?o ; <q> ?x , ?y . }") (λ q, concat (map triples_of (patterns q))) =
    Some [mkTriple (v "s") (i "p") (v "o"); mkTriple (v "s") (i "q") (v "x"); mkTriple (v "s") (i "p") (v "y")] ∧
  parse_text "SELECT * { ?s <p> ?o , ?x ; <q> ?y . }" = PThrow false (txt "Expected RDF term at line 1, got ';'").
Proof. split; vm_compute; reflexivity. Qed.

(** [LIMIT 10.9] is read as 10, and a bound of 2^63 leaves the parser as an
    exception of [std::stoll]. *)
Lemma limit_is_cut :
  result (parse_text "SELECT * { } LIMIT 10.9") limit = Some (Some 10) ∧ parse_text "SELECT * { } LIMIT 9223372036854775808" = PThrow false (txt "stoll").
Proof. split; vm_compute; reflexivity. Qed.

(** The empty prefix is accepted, its names are not. *)
Lemma empty_prefix_unusable :
  parse_text "PREFIX : <http://e/> SELECT * { ?s :p ?o }" = PThrow false (txt "Expected RDF term at line 1, got ':'").
Proof. vm_compute. reflexivity. Qed.

(** A variable may have the name of a hidden key: two keys with one name. *)
Lemma hidden_key_collision :
  result (parse_text "SELECT ?__gk0 { ?__gk0 ?p ?o } GROUP BY ?__gk0 (STRLEN(?o))") (λ q, map gk_var (groupBy q)) = Some [txt "__gk0"; txt "__gk0"].
Proof. vm_compute. reflexivity. Qed.
