(* ===== verification/JoinOrder.v ===== *)
(** * Join ordering

    Model of the join-order optimiser: the node sets of
    include/lingodb/compiler/Dialect/RelAlg/Transforms/queryopt/utils.h, the
    query graph of QueryGraph.h with the operations of QueryGraphBuilder that
    fill it, the combination of plans in utils.cpp, the dynamic programming of
    DPhyp.cpp, the greedy fallback of GOO.cpp and the choice between the two
    in OptimizeJoinOrder.cpp.

    A node set is a vector of [numNodes] bits, here the integer with these
    bits.  Estimates are IEEE doubles ([spec_float] of the Standard Library).
    An operator of MLIR is its address and its class; the estimate of a
    predicate over columns, LLVM's equivalence classes and the iteration order
    of an unordered set are arguments. *)

From stdpp Require Import pretty.
From S2P Require Import Prelude.
From Stdlib Require Import SpecFloat.
#[local] Open Scope Z_scope.

(** ** Loops *)

Fixpoint fold_res {A S} (f : S → A → res S) (l : list A) (st : S) : res S :=
  match l with
  | [] => Ok st
  | a :: l => let* st := f st a in fold_res f l st
  end.
(** A loop that returns [true] at the first element with [f]. *)
Fixpoint any_res {A} (f : A → res bool) (l : list A) : res bool :=
  match l with
  | [] => Ok false
  | a :: l => let* b := f a in if b then Ok true else any_res f l
  end.

(** ** Doubles *)

Definition double := spec_float.
Definition dadd : double → double → double := SFadd 53 1024.
Definition dsub : double → double → double := SFsub 53 1024.
Definition dmul : double → double → double := SFmul 53 1024.
Definition dlt : double → double → bool := SFltb.
(** [std::min]. *)
Definition dmin (a b : double) : double := if dlt b a then b else a.
Definition d_one : double := S754_finite false 4503599627370496 (-52).
(** [std::numeric_limits<double>::max()]. *)
Definition d_max : double := S754_finite false 9007199254740991 971.

(** ** Node sets *)

Section nodeset.
(** The size of the vectors. *)
Context (numNodes : Z).

(** The set bits in order, as [begin] and [end] give them. *)
Definition members (s : Z) : list Z := filter (λ i, Z.testbit s i = true) (seqZ 0 numNodes).
Definition findFirst (s : Z) : Z := default (-1) (head (members s)).
Definition findLast (s : Z) : Z := default (-1) (last (members s)).
Definition count (s : Z) : Z := Z.of_nat (length (members s)).

Definition flip (s : Z) : Z := Z.lxor s (Z.ones numNodes).
(** The bits from [lo] on and below [hi]. *)
Definition bit_range (lo hi : Z) : Z := Z.shiftl (Z.ones (hi - lo)) lo.
Definition negate (s : Z) : Z :=
  let pos := findFirst s in
  let flipLen := numNodes - pos - 1 in
  if flipLen =? 0 then s else Z.lxor s (bit_range (pos + 1) numNodes).

Definition all_ones : Z := Z.ones numNodes.
Definition fillUntil (n : Z) : Z := bit_range 0 (n + 1).
Definition single (pos : Z) : Z := Z.shiftl 1 pos.
Definition set_bit (s pos : Z) : res Z :=
  let* _ := assert_ ((0 <=? pos) && (pos <? numNodes)) in Ok (Z.lor s (single pos)).
Definition isSubsetOf (s t : Z) : bool := Z.ldiff s t =? 0.
Definition intersects (s t : Z) : bool := negb (Z.land s t =? 0).
Definition any (s : Z) : bool := negb (s =? 0).

(** The arguments of the calls that [iterateSubsets] makes, in order. *)
Fixpoint subsets_loop (fuel : nat) (s s1 : Z) : res (list Z) :=
  if s1 =? s then Ok [s]
  else
    match fuel with
    | O => Fault OutOfFuel
    | S fuel =>
        let s1flipped := flip s1 in
        let s2 := Z.land s s1flipped in
        let* rest := subsets_loop fuel s (Z.land s (negate s2)) in
        Ok (s1 :: rest)
    end.
Definition iterateSubsets (s : Z) : res (list Z) :=
  if negb (any s) then Ok []
  else subsets_loop (Z.to_nat s) s (Z.land s (negate s)).
End nodeset.

(** ** Operators and the query graph *)

Inductive OpClass :=
  | BaseTableOp (tableIdentifier : string) | SelectionOp | UnionOp | IntersectOp | ExceptOp | CrossProductOp | InnerJoinOp | SemiJoinOp
  | AntiSemiJoinOp | SingleJoinOp | MarkJoinOp | CollectionJoinOp | OuterJoinOp | FullOuterJoinOp | OtherOp.
Record operator := Operator { op_address : Z; op_class : OpClass }.
#[global] Instance opclass_eq_dec : EqDecision OpClass. Proof. solve_decision. Defined.
#[global] Instance operator_eq_dec : EqDecision operator. Proof. solve_decision. Defined.

Inductive BinaryOperatorType :=
  | Union_ | Intersection_ | Except | CP | InnerJoin | SemiJoin | AntiSemiJoin | OuterJoin | FullOuterJoin | MarkJoin | CollectionJoin | NoBinaryOperator.
Definition getBinaryOperatorType (op : operator) : BinaryOperatorType :=
  match op_class op with
  | UnionOp => Union_
  | IntersectOp => Intersection_
  | ExceptOp => Except
  | CrossProductOp => CP
  | InnerJoinOp => InnerJoin
  | SemiJoinOp => SemiJoin
  | AntiSemiJoinOp => AntiSemiJoin
  | SingleJoinOp => OuterJoin
  | MarkJoinOp => MarkJoin
  | CollectionJoinOp => CollectionJoin
  | OuterJoinOp => OuterJoin
  | FullOuterJoinOp => FullOuterJoin
  | _ => NoBinaryOperator
  end.

Record SelectionEdge := {
  sel_id : Z;
  required : Z;
  sel_op : option operator;
  sel_selectivity : double;
}.
(** Columns are addresses. *)
Record JoinEdge := {
  join_op : option operator;
  join_left : Z;
  join_right : Z;
  join_selectivity : double;
  createdNode : option Z;
  equality : option (Z * Z);
}.
Record Node := {
  node_id : Z;
  node_op : operator;
  additionalPredicates : list (option operator);
  node_selectivity : double;
  node_rows : double;
  edges : list Z;
  node_selections : list Z;
}.
(** [normalNodesMask] is an empty vector until [addPseudoNode] sets it.  The
    caches of the selection edges are the state of the searches below. *)
Record QueryGraph := {
  numNodes : Z;
  pseudoNodes : Z;
  normalNodesMask : option Z;
  nodes : list Node;
  joins : list JoinEdge;
  selections : list SelectionEdge;
  pseudoNodeOwner : gmap Z Z;
}.

Definition sel_connects (e : SelectionEdge) (s1 s2 : Z) : bool :=
  isSubsetOf (required e) (Z.lor s1 s2) && negb (isSubsetOf (required e) s1) && negb (isSubsetOf (required e) s2).
Definition connects2 (e : SelectionEdge) (complete s1 s2 : Z) : bool :=
  isSubsetOf (required e) complete && negb (isSubsetOf (required e) s1) && negb (isSubsetOf (required e) s2).
Definition join_connects (e : JoinEdge) (s1 s2 : Z) : bool :=
  if negb (any (join_left e) && any (join_right e)) then false
  else if isSubsetOf (join_left e) s1 && isSubsetOf (join_right e) s2 then true
  else if isSubsetOf (join_left e) s2 && isSubsetOf (join_right e) s1 then true
  else false.

Section graph.
Context (g : QueryGraph).

Definition sel_findNeighbor (e : SelectionEdge) (s x : Z) : option Z :=
  let remaining := Z.land (required e) (flip (numNodes g) s) in
  if negb (intersects x remaining) && any remaining then Some (findFirst (numNodes g) remaining) else None.
Definition join_findNeighbor (e : JoinEdge) (s x : Z) : option Z :=
  if isSubsetOf (join_left e) s && negb (intersects s (join_right e)) then
    let otherside := join_right e in
    if negb (intersects x otherside) && any otherside then Some (findFirst (numNodes g) otherside) else None
  else if isSubsetOf (join_right e) s && negb (intersects s (join_left e)) then
    let otherside := join_left e in
    if negb (intersects x otherside) && any otherside then Some (findFirst (numNodes g) otherside) else None
  else None.

Definition nodes_size : Z := Z.of_nat (length (nodes g)).

Definition containsLonelyPseudo (s1 : Z) : res bool :=
  if isSubsetOf s1 (default 0 (normalNodesMask g)) then Ok false
  else
    any_res (λ pseudo,
      let* join := load (joins g) (default 0 (pseudoNodeOwner g !! pseudo)) in
      if isSubsetOf (join_left join) s1 && isSubsetOf (join_right join) s1 then Ok false else Ok true)
    (members (numNodes g) (Z.land s1 (from_option (flip (numNodes g)) 0 (normalNodesMask g)))).

Definition isConnected (s1 s2 : Z) : res bool :=
  let* lonely1 := containsLonelyPseudo s1 in
  if (lonely1 : bool) then Ok false
  else
    let* lonely2 := containsLonelyPseudo s2 in
    if (lonely2 : bool) then Ok false
    else
      any_res (λ v,
        if nodes_size <=? v then Ok false
        else
          let* n := load (nodes g) v in
          let* b := any_res (λ edgeid, let* edge := load (joins g) edgeid in Ok (join_connects edge s1 s2)) (edges n) in
          if b then Ok true
          else any_res (λ edgeid, let* edge := load (selections g) edgeid in Ok (sel_connects edge s1 s2)) (node_selections n))
      (members (numNodes g) s1).

(** The nodes of a set that are not pseudo nodes. *)
Definition iterateNodes {S} (f : S → Node → res S) (s : Z) (st : S) : res S :=
  fold_res (λ st v, if nodes_size <=? v then Ok st else let* n := load (nodes g) v in f st n) (members (numNodes g) s) st.
Definition iterateJoinEdges {S} (f : S → JoinEdge → res S) : Z → S → res S :=
  iterateNodes (λ st n, fold_res (λ st edgeid, let* edge := load (joins g) edgeid in f st edge) (edges n) st).
Definition iterateSelectionEdges {S} (f : S → SelectionEdge → res S) : Z → S → res S :=
  iterateNodes (λ st n, fold_res (λ st edgeid, let* edge := load (selections g) edgeid in f st edge) (node_selections n) st).

Definition add_representative (found : option Z) (acc : Z) : res Z :=
  match found with Some representative => set_bit (numNodes g) acc representative | None => Ok acc end.
Definition getNeighbors (s x : Z) : res Z :=
  let* acc := iterateJoinEdges (λ acc edge, add_representative (join_findNeighbor edge s x) acc) s 0 in
  iterateSelectionEdges (λ acc edge, add_representative (sel_findNeighbor edge s x) acc) s acc.
End graph.

(** ** Building the graph *)

Section builder.
(** The columns that the predicate of an operator equates. *)
Context (analyzePredicate : operator → option (Z * Z)).

Definition newGraph (n : Z) : QueryGraph := {|
  numNodes := n; pseudoNodes := 0; normalNodesMask := None;
  nodes := []; joins := []; selections := []; pseudoNodeOwner := ∅;
|}.

Definition addNode (g : QueryGraph) (op : operator) : Z * QueryGraph :=
  let n := {| node_id := nodes_size g; node_op := op; additionalPredicates := [];
              node_selectivity := d_one; node_rows := d_one; edges := []; node_selections := [] |} in
  (node_id n, {| numNodes := numNodes g; pseudoNodes := pseudoNodes g; normalNodesMask := normalNodesMask g;
     nodes := nodes g ++ [n]; joins := joins g; selections := selections g; pseudoNodeOwner := pseudoNodeOwner g |}).

Definition addPseudoNode (g : QueryGraph) : Z * QueryGraph :=
  let p := pseudoNodes g + 1 in
  (numNodes g - p,
   {| numNodes := numNodes g; pseudoNodes := p; normalNodesMask := Some (fillUntil (numNodes g - 1 - p));
      nodes := nodes g; joins := joins g; selections := selections g; pseudoNodeOwner := pseudoNodeOwner g |}).

Definition push_edge (edgeid : Z) (n : Node) : Node := {|
  node_id := node_id n; node_op := node_op n; additionalPredicates := additionalPredicates n;
  node_selectivity := node_selectivity n; node_rows := node_rows n;
  edges := edges n ++ [edgeid]; node_selections := node_selections n |}.
Definition push_selection (edgeid : Z) (n : Node) : Node := {|
  node_id := node_id n; node_op := node_op n; additionalPredicates := additionalPredicates n;
  node_selectivity := node_selectivity n; node_rows := node_rows n;
  edges := edges n; node_selections := node_selections n ++ [edgeid] |}.
(** [push] at every node of the set that is not a pseudo node. *)
Definition push_all (push : Node → Node) (n : Z) (s : Z) (ns : list Node) : list Node :=
  fold_left (λ ns v, if Z.of_nat (length ns) <=? v then ns else alter push (Z.to_nat v) ns) (members n s) ns.

Definition with_joins (js : list JoinEdge) (owner : gmap Z Z) (g : QueryGraph) : QueryGraph := {|
  numNodes := numNodes g; pseudoNodes := pseudoNodes g; normalNodesMask := normalNodesMask g;
  nodes := nodes g; joins := js; selections := selections g; pseudoNodeOwner := owner |}.
Definition with_nodes (ns : list Node) (g : QueryGraph) : QueryGraph := {|
  numNodes := numNodes g; pseudoNodes := pseudoNodes g; normalNodesMask := normalNodesMask g;
  nodes := ns; joins := joins g; selections := selections g; pseudoNodeOwner := pseudoNodeOwner g |}.
Definition with_selections (sels : list SelectionEdge) (g : QueryGraph) : QueryGraph := {|
  numNodes := numNodes g; pseudoNodes := pseudoNodes g; normalNodesMask := normalNodesMask g;
  nodes := nodes g; joins := joins g; selections := sels; pseudoNodeOwner := pseudoNodeOwner g |}.

Definition new_edge (l r : Z) (op : option operator) (created : option Z) : JoinEdge := {|
  join_op := op; join_left := l; join_right := r; join_selectivity := d_one; createdNode := created;
  equality := match op with
              | Some o => match op_class o with SelectionOp | InnerJoinOp => analyzePredicate o | _ => None end
              | None => None
              end |}.
Definition link_edge (edgeid l r : Z) (g : QueryGraph) : QueryGraph :=
  with_nodes (push_all (push_edge edgeid) (numNodes g) r (push_all (push_edge edgeid) (numNodes g) l (nodes g))) g.
(** The recursive call has no created node, so it ends there. *)
Definition addJoinEdge (g : QueryGraph) (l r : Z) (op : option operator) (created : option Z) : QueryGraph :=
  let edgeid := Z.of_nat (length (joins g)) in
  let g1 := with_joins (joins g ++ [new_edge l r op created]) (pseudoNodeOwner g) g in
  let g2 :=
    match created with
    | Some c =>
        let edgeid2 := Z.of_nat (length (joins g1)) in
        let g1 := with_joins (joins g1 ++ [new_edge (Z.lor l r) (single c) None None]) (<[c := edgeid]> (pseudoNodeOwner g1)) g1 in
        link_edge edgeid2 (Z.lor l r) (single c) g1
    | None => g1
    end in
  link_edge edgeid l r g2.

(** A join that creates columns gets a pseudo node, which its edge owns. *)
Definition addCreatingJoin (g : QueryGraph) (l r : Z) (op : option operator) : QueryGraph :=
  let '(c, g) := addPseudoNode g in addJoinEdge g l r op (Some c).

Definition addSelectionEdge (g : QueryGraph) (req : Z) (op : option operator) : res QueryGraph :=
  let leftIdx := findFirst (numNodes g) req in
  let rightIdx := findLast (numNodes g) req in
  if (count (numNodes g) req =? 2) && (leftIdx <? nodes_size g) && (rightIdx <? nodes_size g) then
    let* l := set_bit (numNodes g) 0 leftIdx in
    let* r := set_bit (numNodes g) 0 rightIdx in
    Ok (addJoinEdge g l r op None)
  else
    let edgeid := Z.of_nat (length (selections g)) in
    let g1 := with_selections (selections g ++ [{| sel_id := edgeid; required := req; sel_op := op; sel_selectivity := d_one |}]) g in
    Ok (with_nodes (push_all (push_selection edgeid) (numNodes g) req (nodes g1)) g1).

(** A predicate over one relation, as [populateQueryGraph] adds it. *)
Definition push_predicate (op : option operator) (n : Node) : Node := {|
  node_id := node_id n; node_op := node_op n; additionalPredicates := additionalPredicates n ++ [op];
  node_selectivity := node_selectivity n; node_rows := node_rows n;
  edges := edges n; node_selections := node_selections n |}.
Definition addPredicate (g : QueryGraph) (ses : Z) (op : operator) : res QueryGraph :=
  let nodeId := findFirst (numNodes g) ses in
  if (count (numNodes g) ses =? 1) && (nodeId <? nodes_size g)
  then Ok (with_nodes (alter (push_predicate (Some op)) (Z.to_nat nodeId) (nodes g)) g)
  else addSelectionEdge g ses (Some op).
End builder.

(** [estimate] fills in the rows and selectivities. *)
Section estimate.
Context (estimateNode : Node → double * double) (estimateSelectivity : option operator → Z → Z → double).
Definition estimate_node (n : Node) : Node := {|
  node_id := node_id n; node_op := node_op n; additionalPredicates := additionalPredicates n;
  node_selectivity := snd (estimateNode n); node_rows := fst (estimateNode n);
  edges := edges n; node_selections := node_selections n |}.
Definition estimate_join (e : JoinEdge) : JoinEdge := {|
  join_op := join_op e; join_left := join_left e; join_right := join_right e;
  join_selectivity := estimateSelectivity (join_op e) (join_left e) (join_right e);
  createdNode := createdNode e; equality := equality e |}.
Definition estimate_selection (n : Z) (e : SelectionEdge) : SelectionEdge := {|
  sel_id := sel_id e; required := required e; sel_op := sel_op e;
  sel_selectivity := if count n (required e) =? 2
                     then estimateSelectivity (sel_op e) (single (findFirst n (required e))) (required e)
                     else sel_selectivity e |}.
Definition estimate (g : QueryGraph) : QueryGraph := {|
  numNodes := numNodes g; pseudoNodes := pseudoNodes g; normalNodesMask := normalNodesMask g;
  nodes := estimate_node <$> nodes g; joins := estimate_join <$> joins g;
  selections := estimate_selection (numNodes g) <$> selections g; pseudoNodeOwner := pseudoNodeOwner g |}.
End estimate.

(** ** Plans *)

Inductive plan := Plan (op : option operator) (subplans : list plan) (additionalOps : list (option operator))
                       (cost rows : double) (description : string).
Definition getCost (p : plan) : double := match p with Plan _ _ _ c _ _ => c end.
Definition getRows (p : plan) : double := match p with Plan _ _ _ _ r _ => r end.
Definition getDescription (p : plan) : string := match p with Plan _ _ _ _ _ d => d end.
Definition subplans (p : plan) : list plan := match p with Plan _ l _ _ _ _ => l end.
Definition newPlan (op : option operator) (subs : list plan) (additional : list (option operator)) (r : double) (d : string) : plan :=
  Plan op subs additional (fold_left (λ c sub, dadd c (getCost sub)) subs r) r d.

(** LLVM's [EquivalenceClasses] over columns. *)
Class EquivalenceClasses := {
  classes : Type;
  no_classes : classes;
  unionSets : Z → Z → classes → classes;
  isEquivalent : classes → Z → Z → bool;
}.

(** The caches of the selection edges, by the id of the edge. *)
Abbreviation sel_cache := (gmap (Z * Z) double).

Section plans.
Context (g : QueryGraph) `{EC : EquivalenceClasses}.
(** The estimate of a predicate over two node sets, and the order in which an
    unordered set of operators is visited. *)
Context (estimateSelectivity : option operator → Z → Z → double).
Context (set_order : list (option operator) → list (option operator)).

Definition calculateSelectivity (cache : sel_cache) (e : SelectionEdge) (l r : Z) : double * sel_cache :=
  if (count (numNodes g) (required e) =? 2) && any l && any r then (sel_selectivity e, cache)
  else
    let key := Z.land l (required e) in
    match cache !! (sel_id e, key) with
    | Some d => (d, cache)
    | None => let d := estimateSelectivity (sel_op e) l r in (d, <[(sel_id e, key) := d]> cache)
    end.

(** The variables of [joinPlans].  The arguments may be swapped. *)
Record joining := {
  jn_s : Z; jn_s1 : Z; jn_s2 : Z; jn_p1 : option plan; jn_p2 : option plan;
  specialJoin : option operator; totalSelectivity : double;
  predicates : list (option operator); equivalentColumns : classes;
}.
Definition insert_op (op : option operator) (l : list (option operator)) : list (option operator) :=
  if decide (op ∈ l) then l else l ++ [op].

(** The loop over the equalities that hold inside the two sides. *)
Definition note_equality (s s1 s2 : Z) (ec : classes) (edge : JoinEdge) : classes :=
  if negb (join_connects edge s1 s2) && isSubsetOf (join_left edge) s && isSubsetOf (join_right edge) s then
    match equality edge with Some (a, b) => unionSets a b ec | None => ec end
  else ec.

Definition isInner (op : operator) : bool :=
  match op_class op with SelectionOp | InnerJoinOp => true | _ => false end.
Definition useSelection (edge : JoinEdge) (ec : classes) : bool :=
  match equality edge with Some (a, b) => negb (isEquivalent ec a b) | None => true end.

Definition apply_op (edge : JoinEdge) (j : joining) : joining :=
  match join_op edge with
  | None => j
  | Some op =>
      if negb (isInner op) then
        let swap := negb (isSubsetOf (join_left edge) (jn_s1 j)) in
        {| jn_s := jn_s j;
           jn_s1 := if swap then jn_s2 j else jn_s1 j; jn_s2 := if swap then jn_s1 j else jn_s2 j;
           jn_p1 := if swap then jn_p2 j else jn_p1 j; jn_p2 := if swap then jn_p1 j else jn_p2 j;
           specialJoin := Some op; totalSelectivity := dmul (totalSelectivity j) (join_selectivity edge);
           predicates := predicates j; equivalentColumns := equivalentColumns j |}
      else if useSelection edge (equivalentColumns j) then
        {| jn_s := jn_s j; jn_s1 := jn_s1 j; jn_s2 := jn_s2 j; jn_p1 := jn_p1 j; jn_p2 := jn_p2 j;
           specialJoin := specialJoin j; totalSelectivity := dmul (totalSelectivity j) (join_selectivity edge);
           predicates := insert_op (Some op) (predicates j); equivalentColumns := equivalentColumns j |}
      else j
  end.
Definition apply_join_edge (j : joining) (edge : JoinEdge) : joining :=
  if join_connects edge (jn_s1 j) (jn_s2 j) then
    let j := apply_op edge j in
    {| jn_s := match createdNode edge with Some c => Z.lor (jn_s j) (single c) | None => jn_s j end;
       jn_s1 := jn_s1 j; jn_s2 := jn_s2 j; jn_p1 := jn_p1 j; jn_p2 := jn_p2 j;
       specialJoin := specialJoin j; totalSelectivity := totalSelectivity j; predicates := predicates j;
       equivalentColumns := match equality edge with Some (a, b) => unionSets a b (equivalentColumns j) | None => equivalentColumns j end |}
  else j.
Definition apply_selection_edge (st : joining * sel_cache) (edge : SelectionEdge) : joining * sel_cache :=
  let '(j, cache) := st in
  if connects2 edge (jn_s j) (jn_s1 j) (jn_s2 j) then
    let '(d, cache) := calculateSelectivity cache edge (jn_s1 j) (jn_s2 j) in
    ({| jn_s := jn_s j; jn_s1 := jn_s1 j; jn_s2 := jn_s2 j; jn_p1 := jn_p1 j; jn_p2 := jn_p2 j;
        specialJoin := specialJoin j; totalSelectivity := dmul (totalSelectivity j) d;
        predicates := insert_op (sel_op edge) (predicates j);
        equivalentColumns := equivalentColumns j |}, cache)
  else st.

Definition estimatedResultSize (op : operator) (r1 r2 total : double) : double :=
  match getBinaryOperatorType op with
  | AntiSemiJoin => dsub r1 (dmin r1 (dmul (dmul r1 r2) total))
  | SemiJoin => dmin r1 (dmul (dmul r1 r2) total)
  | CollectionJoin | OuterJoin | MarkJoin => r1
  | _ => dmul (dmul r1 r2) total
  end.
(** [p->...] of a shared pointer. *)
Definition deref (p : option plan) : res plan := match p with Some p => Ok p | None => Fault BadAccess end.
Definition describe (p1 p2 : plan) : string :=
  "(" +:+ getDescription p1 +:+ ") join (" +:+ getDescription p2 +:+ ")".

Definition build_plan (j : joining) : res plan :=
  let* p1 := deref (jn_p1 j) in
  let* p2 := deref (jn_p2 j) in
  let product := dmul (dmul (getRows p1) (getRows p2)) (totalSelectivity j) in
  match specialJoin j with
  | Some op =>
      Ok (newPlan (Some op) [p1; p2] (set_order (predicates j))
            (estimatedResultSize op (getRows p1) (getRows p2) (totalSelectivity j)) (describe p1 p2))
  | None =>
      match set_order (predicates j) with
      | op :: rest =>
          let swap := dlt (getRows p2) (getRows p1) in
          let q1 := if swap then p2 else p1 in
          let q2 := if swap then p1 else p2 in
          Ok (newPlan op [q1; q2] rest product (describe q1 q2))
      | [] => Ok (newPlan None [p1; p2] [] product (describe p1 p2))
      end
  end.

Definition initial_joining (s1 s2 : Z) (p1 p2 : option plan) : joining := {|
  jn_s := Z.lor s1 s2; jn_s1 := s1; jn_s2 := s2; jn_p1 := p1; jn_p2 := p2;
  specialJoin := None; totalSelectivity := d_one; predicates := [];
  equivalentColumns := fold_left (note_equality (Z.lor s1 s2) s1 s2) (joins g) no_classes |}.
(** The plan, the set it covers and the caches afterwards. *)
Definition joinPlans (s1 s2 : Z) (p1 p2 : option plan) (cache : sel_cache) : res (plan * Z * sel_cache) :=
  let j := fold_left apply_join_edge (joins g) (initial_joining s1 s2 p1 p2) in
  let '(j, cache) := fold_left apply_selection_edge (selections g) (j, cache) in
  let* p := build_plan j in
  Ok (p, jn_s j, cache).

(** ** Dynamic programming over connected subgraphs *)

(** [dpTable[s]] of a missing key adds a null pointer. *)
Record search := { dpTable : gmap Z (option plan); caches : sel_cache }.
Definition fetch (s : Z) (t : gmap Z (option plan)) : option plan * gmap Z (option plan) :=
  match t !! s with Some p => (p, t) | None => (None, <[s := None]> t) end.

Definition emitCsgCmp (st : search) (s1 s2 : Z) : res search :=
  let '(p1, t) := fetch s1 (dpTable st) in
  let '(p2, t) := fetch s2 t in
  let* '(currPlan, s, cache) := joinPlans s1 s2 p1 p2 (caches st) in
  match t !! s with
  | None => Ok {| dpTable := <[s := Some currPlan]> t; caches := cache |}
  | Some old =>
      let* old := deref old in
      if dlt (getCost currPlan) (getCost old)
      then Ok {| dpTable := <[s := Some currPlan]> t; caches := cache |}
      else Ok {| dpTable := t; caches := cache |}
  end.

Definition contains (st : search) (s : Z) : bool := bool_decide (is_Some (dpTable st !! s)).

(** The fuel of a recursion bounds the nodes outside the excluded set. *)
Fixpoint enumerateCmpRec (fuel : nat) (st : search) (s1 s2 x : Z) : res search :=
  match fuel with
  | O => Fault OutOfFuel
  | S fuel =>
      let* neighbors := getNeighbors g s2 x in
      let* ns := iterateSubsets (numNodes g) neighbors in
      let* st := fold_res (λ st n,
        let s2N := Z.lor s2 n in
        if contains st s2N then
          let* connected := isConnected g s1 s2N in
          if connected then emitCsgCmp st s1 s2N else Ok st
        else Ok st) ns st in
      let x := Z.lor x neighbors in
      fold_res (λ st n, enumerateCmpRec fuel st s1 (Z.lor s2 n) x) ns st
  end.

Definition recursion_fuel : nat := S (Z.to_nat (numNodes g)).

Definition emitCsg (st : search) (s1 : Z) : res search :=
  let x := Z.lor s1 (fillUntil (findFirst (numNodes g) s1)) in
  let* neighbors := getNeighbors g s1 x in
  fold_res (λ st pos,
    let s2 := single pos in
    let* connected := isConnected g s1 s2 in
    let* st := if connected then emitCsgCmp st s1 s2 else Ok st in
    enumerateCmpRec recursion_fuel st s1 s2 x) (reverse (members (numNodes g) neighbors)) st.

Fixpoint enumerateCsgRec (fuel : nat) (st : search) (s1 x : Z) : res search :=
  match fuel with
  | O => Fault OutOfFuel
  | S fuel =>
      let* neighbors := getNeighbors g s1 x in
      let* ns := iterateSubsets (numNodes g) neighbors in
      let* st := fold_res (λ st n,
        let s1N := Z.lor s1 n in if contains st s1N then emitCsg st s1N else Ok st) ns st in
      fold_res (λ st n, enumerateCsgRec fuel st (Z.lor s1 n) (Z.lor x neighbors)) ns st
  end.

Definition createInitialPlan (n : Node) : plan :=
  let description := match op_class (node_op n) with BaseTableOp t => t | _ => pretty (node_id n) end in
  newPlan (Some (node_op n)) [] (additionalPredicates n) (dmul (node_rows n) (node_selectivity n)) description.

(** [DenseMap::insert] keeps an entry that is there. *)
Definition initial_search : search := {|
  dpTable := fold_left (λ t v, let s := single (node_id v) in
               match t !! s with Some _ => t | None => <[s := Some (createInitialPlan v)]> t end) (nodes g) ∅;
  caches := ∅ |}.
Definition solve_node (st : search) (v : Node) : res search :=
  let onlyV := single (node_id v) in
  let* st := emitCsg st onlyV in
  let bv := fillUntil (node_id v) in
  enumerateCsgRec recursion_fuel st onlyV bv.
Definition solve : res (option plan * search) :=
  let* st := fold_res solve_node (reverse (nodes g)) initial_search in
  let '(p, t) := fetch (all_ones (numNodes g)) (dpTable st) in
  Ok (p, {| dpTable := t; caches := caches st |}).

Fixpoint countSubGraphsRec (fuel : nat) (s1 x cnt maxCount : Z) : res Z :=
  match fuel with
  | O => Fault OutOfFuel
  | S fuel =>
      let* neighbors := getNeighbors g s1 x in
      let* ns := iterateSubsets (numNodes g) neighbors in
      fold_res (λ cnt n,
        let cnt := cnt + 1 in
        if maxCount <=? cnt then Ok cnt
        else countSubGraphsRec fuel (Z.lor s1 n) (Z.lor x neighbors) cnt maxCount) ns cnt
  end.
Definition countSubGraphs (maxCount : Z) : res Z :=
  fold_res (λ cnt v,
    let onlyV := single (node_id v) in
    let cnt := cnt + 1 in
    if maxCount <=? cnt then Ok cnt
    else
      let bv := fillUntil (node_id v) in
      countSubGraphsRec recursion_fuel onlyV bv cnt maxCount) (reverse (nodes g)) 0.

(** ** The greedy fallback *)

Record best_pair := { leftIdx : Z; rightIdx : Z; best : double; newProblem : Z; bestPlan : option plan }.
Definition try_pair (plans : list (Z * plan)) (st : best_pair * sel_cache) (lr : Z * Z) : res (best_pair * sel_cache) :=
  let '(b, cache) := st in
  let '(l, r) := lr in
  let* '(leftProblem, leftPlan) := load plans l in
  let* '(rightProblem, rightPlan) := load plans r in
  let* connected := isConnected g leftProblem rightProblem in
  if (connected : bool) then
    let* '(currPlan, s, cache) := joinPlans leftProblem rightProblem (Some leftPlan) (Some rightPlan) cache in
    if dlt (getRows currPlan) (best b)
    then Ok ({| leftIdx := l; rightIdx := r; best := getRows currPlan; newProblem := s; bestPlan := Some currPlan |}, cache)
    else Ok (b, cache)
  else Ok st.
Definition no_pair : best_pair := {| leftIdx := 0; rightIdx := 0; best := d_max; newProblem := 0; bestPlan := None |}.
Definition index_pairs (n : Z) : list (Z * Z) :=
  l ← seqZ 0 n; r ← seqZ 0 l; [(l, r)].
Definition erase {A} (i : Z) (l : list A) : list A := take (Z.to_nat i) l ++ drop (S (Z.to_nat i)) l.

Fixpoint goo_loop (fuel : nat) (plans : list (Z * plan)) (cache : sel_cache) : res (option plan) :=
  if Z.of_nat (length plans) <=? 1 then let* '(_, p) := load plans 0 in Ok (Some p)
  else
    match fuel with
    | O => Fault OutOfFuel
    | S fuel =>
        let* '(b, cache) := fold_res (try_pair plans) (index_pairs (Z.of_nat (length plans))) (no_pair, cache) in
        match bestPlan b with
        | None => Ok None
        | Some p =>
            let lo := Z.min (leftIdx b) (rightIdx b) in
            let hi := Z.max (leftIdx b) (rightIdx b) in
            goo_loop fuel (erase lo (erase hi plans) ++ [(newProblem b, p)]) cache
        end
    end.
Definition goo_solve (cache : sel_cache) : res (option plan) :=
  goo_loop (length (nodes g)) ((λ v, (single (node_id v), createInitialPlan v)) <$> nodes g) cache.

(** The choice of the optimiser. *)
Definition find_plan : res (option plan) :=
  let* n := countSubGraphs 1000 in
  if n <? 1000 then let* '(p, _) := solve in Ok p else goo_solve ∅.
End plans.
