(* ===== verification/JoinOrderSets.v ===== *)
(** * Sets of nodes

    The bit vectors of the join-order optimiser as sets: membership, order,
    the subsets that [iterateSubsets] visits, and lists in which elements
    stand in a relation to the later ones. *)

From stdpp Require Import sorting.
From S2P Require Import Prelude JoinOrder.
#[local] Open Scope Z_scope.

(** ** Bits *)

(** All bits are below [n]. *)
Definition within (n s : Z) : Prop := ∀ i, Z.testbit s i = true → i < n.
(** [t] is a subset of [s]. *)
Definition sub (t s : Z) : Prop := ∀ i, Z.testbit t i = true → Z.testbit s i = true.
Definition disjoint_sets (s t : Z) : Prop := ∀ i, Z.testbit s i = true → Z.testbit t i = true → False.

Lemma testbit_nonneg s i : Z.testbit s i = true → 0 ≤ i.
Proof. destruct (Z.neg_nonneg_cases i); [rewrite Z.testbit_neg_r by done; done|done]. Qed.

Lemma testbit_single p i : 0 ≤ p → Z.testbit (single p) i = bool_decide (i = p).
Proof.
  intros Hp. unfold single. rewrite Z.shiftl_1_l. case_bool_decide as E; [subst; by apply Z.pow2_bits_true|].
  by apply Z.pow2_bits_false.
Qed.
Lemma testbit_ones n i : 0 ≤ n → Z.testbit (Z.ones n) i = bool_decide (0 ≤ i < n).
Proof. intros. rewrite Z.testbit_ones by done. apply eq_bool_prop_intro. rewrite bool_decide_spec, andb_True, !Is_true_true. lia. Qed.
Lemma testbit_range lo hi i : 0 ≤ lo → lo ≤ hi → Z.testbit (bit_range lo hi) i = bool_decide (lo ≤ i < hi).
Proof.
  intros. unfold bit_range. destruct (Z.neg_nonneg_cases i) as [Hi|Hi].
  - rewrite Z.testbit_neg_r by done. symmetry. apply bool_decide_false. lia.
  - rewrite Z.shiftl_spec by done. destruct (decide (i < lo)); [rewrite Z.testbit_neg_r by lia; symmetry; apply bool_decide_false; lia|].
    rewrite testbit_ones by lia. apply bool_decide_ext. lia.
Qed.
Lemma testbit_fillUntil v i : 0 ≤ v → Z.testbit (fillUntil v) i = bool_decide (0 ≤ i ≤ v).
Proof. intros. unfold fillUntil. rewrite testbit_range by lia. apply bool_decide_ext. lia. Qed.

#[export] Hint Rewrite Z.land_spec Z.lor_spec Z.ldiff_spec Z.lxor_spec andb_true_iff orb_true_iff negb_true_iff : bits.
#[export] Hint Rewrite testbit_single testbit_fillUntil testbit_ones using lia : bits.
(** Membership goals over unions, intersections and differences. *)
Ltac bits := autorewrite with bits in *; rewrite ?bool_decide_eq_true in *.

Lemma set_ext a b : (∀ i, Z.testbit a i = true ↔ Z.testbit b i = true) → a = b.
Proof.
  intros H. apply Z.bits_inj. intros i. specialize (H i).
  destruct (Z.testbit a i), (Z.testbit b i); naive_solver.
Qed.
Lemma sub_antisym a b : sub a b → sub b a → a = b.
Proof. intros. apply set_ext. split; auto. Qed.
Lemma not_member_0 i : Z.testbit 0 i = true → False.
Proof. by rewrite Z.testbit_0_l. Qed.
Lemma nonempty_member s : s ≠ 0 ↔ ∃ i, Z.testbit s i = true.
Proof.
  split.
  - intros Hs. destruct (decide (s < 0)) as [Hneg|].
    + exists (Z.log2 (Z.pred (- s)) + 1). pose proof (Z.log2_nonneg (Z.pred (- s))). apply Z.bits_above_log2_neg; lia.
    + exists (Z.log2 s). apply Z.bit_log2. lia.
  - by intros [i Hi] ->; rewrite Z.testbit_0_l in Hi.
Qed.
Lemma within_nonneg n s : within n s → 0 ≤ s.
Proof.
  intros Hw. destruct (decide (0 ≤ s)); [done|]. exfalso. set (i := Z.max n (Z.log2 (Z.pred (- s)) + 1)).
  assert (Z.testbit s i = true) by (apply Z.bits_above_log2_neg; lia). specialize (Hw i H). lia.
Qed.
Lemma within_sub n s t : within n s → sub t s → within n t.
Proof. unfold within, sub. auto. Qed.
Lemma within_lor n s t : within n s → within n t → within n (Z.lor s t).
Proof. intros Hs Ht i Hi. bits. naive_solver. Qed.
Lemma within_land n s t : within n s → within n (Z.land s t).
Proof. intros Hs i Hi. bits. naive_solver. Qed.
Lemma within_single n p : 0 ≤ p < n → within n (single p).
Proof. intros Hp i Hi. bits. lia. Qed.
Lemma within_0 n : within n 0.
Proof. intros i Hi. by apply not_member_0 in Hi. Qed.
Lemma within_fillUntil n v : 0 ≤ v < n → within n (fillUntil v).
Proof. intros Hv i Hi. bits. lia. Qed.
#[export] Hint Resolve within_lor within_land within_single within_0 within_fillUntil : bits.

Lemma isSubsetOf_spec s t : isSubsetOf s t = true ↔ sub s t.
Proof.
  unfold isSubsetOf. rewrite Z.eqb_eq. split.
  - intros H i Hi. destruct (Z.testbit t i) eqn:Ht; [done|].
    assert (Z.testbit (Z.ldiff s t) i = true) as D by (bits; done). rewrite H in D. by apply not_member_0 in D.
  - intros H. apply set_ext. intros i. rewrite Z.testbit_0_l. bits. split; [|done]. intros [Hs Ht]. rewrite H in Ht by done. done.
Qed.
Lemma intersects_spec s t : intersects s t = true ↔ ∃ i, Z.testbit s i = true ∧ Z.testbit t i = true.
Proof.
  unfold intersects. rewrite negb_true_iff, Z.eqb_neq, nonempty_member. f_equiv. intros i. by bits.
Qed.
Lemma intersects_false s t : intersects s t = false ↔ disjoint_sets s t.
Proof.
  rewrite <- not_true_iff_false, intersects_spec. unfold disjoint_sets. naive_solver.
Qed.
Lemma any_spec s : any s = true ↔ s ≠ 0.
Proof. unfold any. by rewrite negb_true_iff, Z.eqb_neq. Qed.
Lemma sub_le s t : 0 ≤ t → sub s t → s ≤ t.
Proof. intros Ht H%isSubsetOf_spec. apply Z.ldiff_le; [done|]. by apply Z.eqb_eq. Qed.

(** Sets compare like their highest different node. *)
Lemma lt_highest a b p : 0 ≤ b → 0 ≤ p → Z.testbit a p = false → Z.testbit b p = true →
  (∀ i, p < i → Z.testbit a i = Z.testbit b i) → a < b.
Proof.
  intros Hb Hp Hap Hbp Hi. set (h := Z.land b (Z.lnot (Z.ones (p + 1)))).
  assert (∀ i, Z.testbit h i = true ↔ Z.testbit b i = true ∧ p < i) as Hh.
  { intros i. unfold h. rewrite Z.land_spec. destruct (Z.neg_nonneg_cases i) as [?|?].
    - rewrite !Z.testbit_neg_r by done. naive_solver lia.
    - rewrite Z.lnot_spec by done. bits. rewrite bool_decide_eq_false. naive_solver lia. }
  assert (0 ≤ h) by (apply Z.land_nonneg; auto).
  assert (a ≤ h + Z.ones p) as Ha.
  { rewrite Z.add_nocarry_lxor.
    - apply sub_le; [apply Z.lxor_nonneg; rewrite Z.ones_equiv; pose proof (Z.pow_pos_nonneg 2 p); lia|].
      intros i Ha. pose proof (testbit_nonneg _ _ Ha). rewrite Z.lxor_spec, testbit_ones by done.
      destruct (decide (p < i)) as [Hpi|Hpi].
      + rewrite (bool_decide_false (0 ≤ i < p)) by lia. rewrite xorb_false_r. apply Hh. rewrite <- Hi; done.
      + rewrite (bool_decide_true (0 ≤ i < p)).
        * destruct (Z.testbit h i) eqn:E; [apply Hh in E; lia|done].
        * assert (i ≠ p) by congruence. lia.
    - apply set_ext. intros i. rewrite Z.testbit_0_l. bits. rewrite Hh. naive_solver lia. }
  assert (h + 2 ^ p ≤ b) as Hle.
  { rewrite Z.add_nocarry_lxor.
    - apply sub_le; [done|]. intros i. rewrite <- Z.shiftl_1_l. fold (single p). rewrite Z.lxor_spec, testbit_single by done.
      case_bool_decide; [by subst|]. rewrite xorb_false_r, Hh. naive_solver.
    - rewrite <- Z.shiftl_1_l. fold (single p). apply set_ext. intros i. rewrite Z.testbit_0_l. bits. rewrite Hh. naive_solver lia. }
  rewrite Z.ones_equiv in Ha. lia.
Qed.
Lemma highest_difference a b : 0 ≤ a → 0 ≤ b → a ≠ b →
  ∃ p, 0 ≤ p ∧ Z.testbit a p = negb (Z.testbit b p) ∧ ∀ i, p < i → Z.testbit a i = Z.testbit b i.
Proof.
  intros Ha Hb Hne. set (d := Z.lxor a b).
  assert (0 < d) as Hd. { assert (0 ≤ d) by (apply Z.lxor_nonneg; lia). assert (d ≠ 0) by (by unfold d; rewrite Z.lxor_eq_0_iff). lia. }
  exists (Z.log2 d). split; [apply Z.log2_nonneg|].
  assert (∀ i, Z.testbit d i = xorb (Z.testbit a i) (Z.testbit b i)) as Hx by (intros; apply Z.lxor_spec). split.
  - pose proof (Hx (Z.log2 d)) as H. rewrite Z.bit_log2 in H by done. by destruct (Z.testbit a _), (Z.testbit b _).
  - intros i Hi. pose proof (Hx i) as H. rewrite Z.bits_above_log2 in H by lia. by destruct (Z.testbit a _), (Z.testbit b _).
Qed.

(** ** Lists in which every element stands in a relation to the later ones *)

Section ordered.
Context {A : Type}.
Implicit Types (R : A → A → Prop) (l : list A).

Lemma ordered_filter R (P : A → Prop) `{!∀ x, Decision (P x)} l : StronglySorted R l → StronglySorted R (filter P l).
Proof.
  induction 1 as [|a l _ IH Ha]; [constructor|]. rewrite filter_cons. case_decide; [|done].
  constructor; [done|]. rewrite Forall_forall in Ha |- *. intros x Hx. apply list_elem_of_filter in Hx as [_ Hx]. auto.
Qed.
Lemma ordered_impl R R' l : (∀ x y, x ∈ l → y ∈ l → R x y → R' x y) → StronglySorted R l → StronglySorted R' l.
Proof.
  intros H. induction 1 as [|a l _ IH Ha]; [constructor|]. constructor; [apply IH; intros; apply H; set_solver|].
  rewrite Forall_forall in Ha |- *. intros x Hx. apply H; [set_solver..|auto].
Qed.
Lemma ordered_reverse R l : StronglySorted R l → StronglySorted (λ x y, R y x) (reverse l).
Proof.
  induction 1 as [|a l _ IH Ha]; [apply SSorted_nil|]. rewrite reverse_cons. apply StronglySorted_app_2; [|done|repeat constructor].
  intros x y Hx ->%list_elem_of_singleton. rewrite Forall_forall in Ha. by apply Ha, elem_of_reverse.
Qed.
Lemma ordered_bind {B} R (f : B → list A) (lb : list B) :
  StronglySorted (λ b c, ∀ x y, x ∈ f b → y ∈ f c → R x y) lb →
  (∀ b, b ∈ lb → StronglySorted R (f b)) → StronglySorted R (lb ≫= f).
Proof.
  induction 1 as [|b lb _ IH Hb]; intros Hf; [constructor|]. simpl. apply StronglySorted_app_2.
  - intros x y Hx (c & Hy & Hc)%list_elem_of_bind. rewrite Forall_forall in Hb. eauto.
  - apply Hf. set_solver.
  - apply IH. intros. apply Hf. set_solver.
Qed.
Lemma ordered_fmap {B} R (f : B → A) (lb : list B) :
  StronglySorted (λ b c, R (f b) (f c)) lb → StronglySorted R (f <$> lb).
Proof.
  induction 1 as [|b lb _ IH Hb]; [constructor|]. csimpl. constructor; [done|]. by rewrite Forall_fmap.
Qed.
End ordered.

Lemma ordered_seqZ m k : StronglySorted Z.lt (seqZ m k).
Proof.
  destruct (decide (0 ≤ k)) as [Hk|]; [|rewrite seqZ_nil by lia; constructor]. revert m. pattern k. apply natlike_ind; [..|done].
  - intros. rewrite seqZ_nil by lia. constructor.
  - intros j Hj IH m. rewrite seqZ_cons by lia. constructor; [rewrite Z.pred_succ; apply IH|].
    apply Forall_seqZ. lia.
Qed.

(** ** Node sets as lists *)

Section nodesets.
Context (n : Z).

Lemma members_spec s i : i ∈ members n s ↔ 0 ≤ i < n ∧ Z.testbit s i = true.
Proof. unfold members. rewrite list_elem_of_filter, elem_of_seqZ. naive_solver lia. Qed.
Lemma members_within s i : within n s → (i ∈ members n s ↔ Z.testbit s i = true).
Proof. intros Hs. rewrite members_spec. split; [tauto|]. intros Hi. pose proof (testbit_nonneg _ _ Hi). auto. Qed.
Lemma members_ordered s : StronglySorted Z.lt (members n s).
Proof. apply ordered_filter, ordered_seqZ. Qed.
Lemma findFirst_spec s : within n s → s ≠ 0 →
  Z.testbit s (findFirst n s) = true ∧ ∀ i, Z.testbit s i = true → findFirst n s ≤ i.
Proof.
  intros Hw [i Hi]%nonempty_member. pose proof (members_ordered s) as Ho. unfold findFirst.
  apply members_within in Hi; [|done]. assert (∀ j, Z.testbit s j = true → j ∈ members n s) as Hm by (intros; by apply members_within).
  assert (∀ j, j ∈ members n s → Z.testbit s j = true) as Hm' by (intros; by apply members_within).
  destruct (members n s) as [|j l]; [by apply not_elem_of_nil in Hi|]. simpl. apply StronglySorted_inv in Ho as [_ Ho].
  rewrite Forall_forall in Ho. split; [apply Hm'; set_solver|]. intros k Hk%Hm.
  apply elem_of_cons in Hk as [->|Hk%Ho]; lia.
Qed.
Lemma findFirst_range s : within n s → s ≠ 0 → 0 ≤ findFirst n s < n.
Proof. intros Hw Hs. pose proof (proj1 (findFirst_spec s Hw Hs)) as H. pose proof (testbit_nonneg _ _ H). auto. Qed.
Lemma findFirst_eq s i : within n s → Z.testbit s i = true → (∀ j, Z.testbit s j = true → i ≤ j) → findFirst n s = i.
Proof.
  intros Hw Hi Hmin. destruct (findFirst_spec s Hw) as [H1 H2]; [apply nonempty_member; eauto|].
  pose proof (H2 _ Hi). pose proof (Hmin _ H1). lia.
Qed.
Lemma findFirst_single p : 0 ≤ p < n → findFirst n (single p) = p.
Proof. intros. apply findFirst_eq; [auto with bits|by bits|]. intros j Hj. bits. lia. Qed.

Lemma testbit_flip s i : 0 ≤ i < n → Z.testbit (flip n s) i = negb (Z.testbit s i).
Proof. intros. unfold flip. rewrite Z.lxor_spec, testbit_ones, (bool_decide_true (0 ≤ i < n)) by lia. by destruct (Z.testbit s i). Qed.
Lemma testbit_land_flip s t i : within n s → Z.testbit (Z.land s (flip n t)) i = Z.testbit s i && negb (Z.testbit t i).
Proof.
  intros Hs. rewrite Z.land_spec. destruct (Z.testbit s i) eqn:E; [|done]. simpl. apply testbit_flip. split; [by eapply testbit_nonneg|auto].
Qed.
Lemma testbit_negate s i : within n s → s ≠ 0 → 0 ≤ i < n →
  Z.testbit (negate n s) i = if decide (i ≤ findFirst n s) then Z.testbit s i else negb (Z.testbit s i).
Proof.
  intros Hs H0 Hi. pose proof (findFirst_range s Hs H0). unfold negate. destruct (Z.eqb_spec (n - findFirst n s - 1) 0).
  - by rewrite decide_True by lia.
  - rewrite Z.lxor_spec, testbit_range by lia. case_decide.
    + rewrite (bool_decide_false (_ ≤ i < _)) by lia. apply xorb_false_r.
    + rewrite (bool_decide_true (_ ≤ i < _)) by lia. apply xorb_true_r.
Qed.

(** The subset after [s1]: the first missing node is added, those before it
    are dropped. *)
Definition next_subset (s s1 : Z) : Z := Z.land s (negate n (Z.land s (flip n s1))).

Section next.
Context (s s1 : Z) (Hs : within n s) (H1 : sub s1 s) (Hne : s1 ≠ s).
Let rest := Z.land s (flip n s1).
Let lo := findFirst n rest.

Lemma rest_spec i : Z.testbit rest i = true ↔ Z.testbit s i = true ∧ Z.testbit s1 i = false.
Proof. unfold rest. rewrite testbit_land_flip by done. by bits. Qed.
Lemma lo_spec : (Z.testbit s lo = true ∧ Z.testbit s1 lo = false) ∧ ∀ i, i < lo → Z.testbit s i = true → Z.testbit s1 i = true.
Proof.
  destruct (findFirst_spec rest) as [Hf Hmin].
  - unfold rest. auto with bits.
  - intros Hr. apply Hne, sub_antisym; [done|]. intros i Hi. destruct (Z.testbit s1 i) eqn:E; [done|].
    assert (Z.testbit rest i = true) as Hri by (by apply rest_spec). rewrite Hr in Hri. by apply not_member_0 in Hri.
  - split; [by apply rest_spec|]. intros i Hi Hsi. destruct (Z.testbit s1 i) eqn:E; [done|].
    assert (Z.testbit rest i = true) as Hri%Hmin by (by apply rest_spec). fold lo in Hri. lia.
Qed.
Lemma next_spec i : Z.testbit (next_subset s s1) i = true ↔ i = lo ∨ lo < i ∧ Z.testbit s1 i = true.
Proof.
  destruct lo_spec as [[Hlo Hlo1] Hlow]. unfold next_subset. fold rest. bits.
  assert (rest ≠ 0) as Hr. { apply nonempty_member. exists lo. by apply rest_spec. }
  assert (within n rest) as Hw by (unfold rest; auto with bits). split.
  - intros [Hi Hn]. rewrite testbit_negate in Hn by (done || (split; [by eapply testbit_nonneg|auto])). fold lo in Hn. case_decide.
    + apply rest_spec in Hn as [_ Hn]. left. destruct (decide (i < lo)); [|lia]. rewrite Hlow in Hn by done. done.
    + right. split; [lia|]. apply negb_true_iff in Hn. destruct (Z.testbit s1 i) eqn:E; [done|].
      assert (Z.testbit rest i = true) as Hri by (by apply rest_spec). by rewrite Hri in Hn.
  - intros Hi. assert (Z.testbit s i = true) as Hsi by (destruct Hi as [->|[_ Hi]]; auto). split; [done|].
    rewrite testbit_negate by (done || (split; [by eapply testbit_nonneg|auto])). fold lo. destruct Hi as [->|[Hi H1i]].
    + rewrite decide_True by lia. by apply rest_spec.
    + rewrite decide_False by lia. rewrite negb_true_iff. apply not_true_iff_false. intros [_ Hri]%rest_spec. congruence.
Qed.
Lemma next_sub : sub (next_subset s s1) s.
Proof. intros i Hi. unfold next_subset in Hi. bits. tauto. Qed.
Lemma next_gt : s1 < next_subset s s1.
Proof.
  destruct lo_spec as [[Hlo Hlo1] Hlow]. apply (lt_highest _ _ lo).
  - eapply within_nonneg, within_sub, next_sub. done.
  - by eapply testbit_nonneg.
  - done.
  - apply next_spec. by left.
  - intros i Hi. apply eq_true_iff_eq. rewrite next_spec. naive_solver lia.
Qed.
Lemma next_least t : sub t s → s1 < t → next_subset s s1 ≤ t.
Proof.
  intros Ht Hlt. destruct (decide (next_subset s s1 ≤ t)) as [|Hgt]; [done|]. exfalso.
  destruct lo_spec as [[Hlo Hlo1] Hlow]. assert (0 ≤ t) by (eapply within_nonneg, within_sub; done).
  assert (0 ≤ s1) by (eapply within_nonneg, within_sub; done).
  destruct (highest_difference t (next_subset s s1)) as (p & Hp & Hd & Habove);
    [done|eapply within_nonneg, within_sub, next_sub; done|lia|].
  destruct (Z.testbit (next_subset s s1) p) eqn:En; simpl in Hd.
  - apply next_spec in En as [->|[Hlt' Hp1]].
    + assert (sub t s1) as Hts. { intros i Hi. destruct (decide (i < lo)); [auto|].
        destruct (decide (i = lo)) as [->|]; [congruence|]. rewrite Habove, next_spec in Hi by lia. naive_solver lia. }
      apply sub_le in Hts; lia.
    + assert (t < s1); [|lia]. apply (lt_highest _ _ p); [done..|]. intros i Hi. rewrite Habove by done.
      apply eq_true_iff_eq. rewrite next_spec. naive_solver lia.
  - assert (next_subset s s1 < t); [|lia]. apply (lt_highest _ _ p); [done..|]. intros i Hi. by rewrite Habove.
Qed.
End next.

Lemma subsets_loop_spec s fuel s1 : within n s → sub s1 s → (Z.to_nat (s - s1) ≤ fuel)%nat →
  ∃ l, subsets_loop n fuel s s1 = Ok l ∧ StronglySorted Z.lt l ∧ ∀ t, t ∈ l ↔ sub t s ∧ s1 ≤ t.
Proof.
  intros Hs. revert s1. induction fuel as [|fuel IH]; intros s1 H1 Hf; simpl; destruct (Z.eqb_spec s1 s) as [->|Hne].
  1,3: exists [s]; split; [done|]; split; [repeat constructor|]; intros t; rewrite list_elem_of_singleton; split;
    [intros ->; split; [by intros i|lia]|intros [Ht Hle]; apply sub_le in Ht; [lia|by eapply within_nonneg]].
  - pose proof (sub_le _ _ (within_nonneg _ _ Hs) H1). lia.
  - fold (next_subset s s1). pose proof (next_gt s s1 Hs H1 Hne) as Hgt.
    pose proof (sub_le _ _ (within_nonneg _ _ Hs) (next_sub s s1)) as Hle.
    destruct (IH (next_subset s s1)) as (l & -> & Hl & Hin); [by apply next_sub|lia|].
    exists (s1 :: l). split; [done|]. split.
    + constructor; [done|]. apply Forall_forall. intros t Ht%Hin. lia.
    + intros t. rewrite elem_of_cons, Hin. split.
      * intros [->|[Ht Hnt]]; [split; [done|lia]|split; [done|lia]].
      * intros [Ht Hst]. destruct (decide (t = s1)); [by left|]. right. split; [done|]. apply next_least; [done..|lia].
Qed.
Lemma iterateSubsets_spec s : within n s →
  ∃ l, iterateSubsets n s = Ok l ∧ StronglySorted Z.lt l ∧ ∀ t, t ∈ l ↔ t ≠ 0 ∧ sub t s.
Proof.
  intros Hs. unfold iterateSubsets. destruct (any s) eqn:Ha; simpl.
  - apply any_spec in Ha. pose proof (within_nonneg _ _ Hs).
    assert (Z.land s (negate n s) = next_subset s 0) as ->.
    { unfold next_subset. do 2 f_equal. apply set_ext. intros i. rewrite testbit_land_flip, Z.testbit_0_l by done. by destruct (Z.testbit s i). }
    assert (sub 0 s) as H0 by (intros i Hi; by apply not_member_0 in Hi).
    destruct (subsets_loop_spec s (Z.to_nat s) (next_subset s 0)) as (l & -> & Hl & Hin); [done|by apply next_sub| |].
    { pose proof (next_gt s 0 Hs H0 ltac:(congruence)). lia. }
    exists l. split; [done|]. split; [done|]. intros t. rewrite Hin. split.
    + intros [Ht Hnt]. split; [|done]. pose proof (next_gt s 0 Hs H0 ltac:(congruence)). lia.
    + intros [Hn0 Ht]. split; [done|]. apply next_least; [done..|congruence|done|].
      pose proof (within_nonneg _ _ (within_sub _ _ _ Hs Ht)). lia.
  - exists []. split; [done|]. split; [constructor|]. intros t. split; [by intros ?%not_elem_of_nil|]. intros [Hn0 Ht].
    apply not_true_iff_false in Ha. rewrite any_spec in Ha. apply dec_stable in Ha as ->. apply nonempty_member in Hn0 as [i Hi].
    by apply Ht, not_member_0 in Hi.
Qed.
End nodesets.
