(* ===== verification/JoinOrderProps.v ===== *)
(** * Join ordering: termination, safety and complete plans

    What well-formed query graphs are, that the builder makes them, what
    [getNeighbors] and [isConnected] compute, and that both searches end
    with plans that join every relation once. *)

From stdpp Require Import sorting.
From S2P Require Import Prelude JoinOrder JoinOrderSets.
#[local] Open Scope Z_scope.

(** ** Loops *)

Lemma fold_res_app {A S} (f : S → A → res S) l l' st :
  fold_res f (l ++ l') st = (let* st := fold_res f l st in fold_res f l' st).
Proof. revert st. induction l as [|a l IH]; intros st; [done|]. simpl. destruct (f st a); [apply IH|done]. Qed.
Lemma fold_res_inv {A S} (I : S → Prop) (f : S → A → res S) l st :
  (∀ a st, a ∈ l → I st → ∃ st', f st a = Ok st' ∧ I st') → I st → ∃ st', fold_res f l st = Ok st' ∧ I st'.
Proof.
  revert st. induction l as [|a l IH]; intros st Hf Hst; [by exists st|].
  destruct (Hf a st) as (st' & E & Hst'); [set_solver|done|]. simpl. rewrite E. apply IH; [|done]. intros. apply Hf; [set_solver|done].
Qed.
Lemma fold_inv {A S} (I : S → Prop) (f : S → A → S) l st :
  (∀ a st, a ∈ l → I st → I (f st a)) → I st → I (fold_left f l st).
Proof. revert st. induction l as [|a l IH]; intros st Hf Hst; [done|]. apply IH; [intros; apply Hf; set_solver|]. apply Hf; [set_solver|done]. Qed.
Lemma any_res_ok {A} (f : A → res bool) (P : A → Prop) l :
  (∀ a, a ∈ l → ∃ b, f a = Ok b ∧ (b = true ↔ P a)) → ∃ b, any_res f l = Ok b ∧ (b = true ↔ ∃ a, a ∈ l ∧ P a).
Proof.
  induction l as [|a l IH]; intros H; simpl; [exists false; split; [done|]; set_solver|].
  destruct (H a) as (b & -> & Hb); [set_solver|]. simpl. destruct b.
  - exists true. split; [done|]. split; [intros _; exists a; set_solver|done].
  - destruct IH as (b & -> & Hb'); [intros; apply H; set_solver|]. exists b. split; [done|]. rewrite Hb'. set_solver.
Qed.

(** ** Well-formed graphs *)

(** An edge joins two disjoint non-empty sets. *)
Definition wf_edge (n : Z) (e : JoinEdge) : Prop :=
  within n (join_left e) ∧ within n (join_right e) ∧ join_left e ≠ 0 ∧ join_right e ≠ 0 ∧
  disjoint_sets (join_left e) (join_right e).
(** Node [v] lists the edges that touch it. *)
Definition wf_node (g : QueryGraph) (v : Z) (nd : Node) : Prop :=
  node_id nd = v ∧
  (∀ k, k ∈ edges nd ↔ ∃ e, zget (joins g) k = Some e ∧ Z.testbit (Z.lor (join_left e) (join_right e)) v = true) ∧
  (∀ k, k ∈ node_selections nd ↔ ∃ e, zget (selections g) k = Some e ∧ Z.testbit (required e) v = true).
(** A pseudo node belongs to an edge, which created it. *)
Definition wf_pseudo (g : QueryGraph) (v : Z) : Prop :=
  ∃ e, zget (joins g) (default 0 (pseudoNodeOwner g !! v)) = Some e.
Record wf_graph (g : QueryGraph) : Prop := {
  wf_size : nodes_size g + pseudoNodes g = numNodes g;
  wf_pseudoNodes : 0 ≤ pseudoNodes g;
  wf_mask : normalNodesMask g = if pseudoNodes g =? 0 then None else Some (fillUntil (numNodes g - 1 - pseudoNodes g));
  wf_joins : ∀ e, e ∈ joins g → wf_edge (numNodes g) e;
  wf_created : ∀ e c, e ∈ joins g → createdNode e = Some c → nodes_size g ≤ c < numNodes g;
  wf_selections : ∀ e, e ∈ selections g → within (numNodes g) (required e);
  wf_nodes : ∀ v nd, zget (nodes g) v = Some nd → wf_node g v nd;
  wf_pseudos : ∀ v, nodes_size g ≤ v < numNodes g → wf_pseudo g v;
}.

Lemma zget_elem {A} (l : list A) i x : zget l i = Some x → x ∈ l.
Proof. unfold zget. destruct (0 <=? i); [apply list_elem_of_lookup_2|done]. Qed.
Lemma elem_zget {A} (l : list A) x : x ∈ l → ∃ i, zget l i = Some x.
Proof.
  intros [i Hi]%list_elem_of_lookup. exists (Z.of_nat i). unfold zget. by rewrite (proj2 (Z.leb_le 0 (Z.of_nat i))), Nat2Z.id by lia.
Qed.

Section wf.
Context (g : QueryGraph) (Hg : wf_graph g).
Notation n := (numNodes g).
Notation bit s i := (Z.testbit s i = true).

Lemma node_below v : 0 ≤ v < nodes_size g → ∃ nd, zget (nodes g) v = Some nd ∧ wf_node g v nd.
Proof. intros [nd Hnd]%zget_is_Some. exists nd. split; [done|]. by apply wf_nodes. Qed.
Lemma nodes_size_le : nodes_size g ≤ n.
Proof. pose proof (wf_size _ Hg). pose proof (wf_pseudoNodes _ Hg). lia. Qed.
Lemma numNodes_nonneg : 0 ≤ n.
Proof. pose proof nodes_size_le. unfold nodes_size in *. lia. Qed.

(** What a loop adds to a set. *)
Definition adds (f : Z → res Z) (C : Z → Prop) : Prop :=
  ∀ acc, within n acc → ∃ acc', f acc = Ok acc' ∧ within n acc' ∧ ∀ i, bit acc' i ↔ bit acc i ∨ C i.

Lemma adds_fold {A} (f : Z → A → res Z) (C : A → Z → Prop) l :
  (∀ a, a ∈ l → adds (λ acc, f acc a) (C a)) → adds (fold_res f l) (λ i, ∃ a, a ∈ l ∧ C a i).
Proof.
  induction l as [|a l IH]; intros H acc Hacc; simpl.
  - exists acc. split; [done|]. split; [done|]. intros i. set_solver.
  - destruct (H a ltac:(set_solver) acc Hacc) as (acc1 & -> & Hacc1 & H1). simpl.
    destruct (IH (λ b Hb, H b ltac:(set_solver)) acc1 Hacc1) as (acc2 & -> & Hacc2 & H2).
    exists acc2. split; [done|]. split; [done|]. intros i. rewrite H2, H1. set_solver.
Qed.
Lemma adds_impl f (C C' : Z → Prop) : (∀ i, C i ↔ C' i) → adds f C → adds f C'.
Proof. intros HC H acc Hacc. destruct (H acc Hacc) as (acc' & ? & ? & Hi). exists acc'. split_and!; [done..|]. intros i. by rewrite Hi, HC. Qed.
Lemma adds_representative found : (∀ i, found = Some i → 0 ≤ i < n) → adds (add_representative g found) (λ i, found = Some i).
Proof.
  intros Hf acc Hacc. unfold add_representative. destruct found as [r|].
  - specialize (Hf r eq_refl). unfold set_bit. rewrite (proj2 (Z.leb_le 0 r)), (proj2 (Z.ltb_lt r n)) by lia. simpl.
    exists (Z.lor acc (single r)). split; [done|]. split; [auto with bits|]. intros i. bits. naive_solver.
  - exists acc. split; [done|]. split; [done|]. naive_solver.
Qed.

Lemma adds_nodes {A} (f : Z → A → res Z) (get : Z → res A) (ids : Node → list Z) (C : A → Z → Prop) s :
  (∀ v nd k, zget (nodes g) v = Some nd → bit s v → k ∈ ids nd → ∃ a, get k = Ok a ∧ adds (λ acc, f acc a) (C a)) →
  adds (iterateNodes g (λ acc nd, fold_res (λ acc k, let* a := get k in f acc a) (ids nd) acc) s)
    (λ i, ∃ v nd k a, bit s v ∧ zget (nodes g) v = Some nd ∧ k ∈ ids nd ∧ get k = Ok a ∧ C a i).
Proof.
  intros H. eapply adds_impl, adds_fold; [|]. 2:{
    intros v Hv. instantiate (1 := λ v i, ∃ nd k a, zget (nodes g) v = Some nd ∧ k ∈ ids nd ∧ get k = Ok a ∧ C a i). simpl.
    destruct (Z.leb_spec (nodes_size g) v) as [Hge|Hlt].
    - intros acc Hacc. exists acc. split; [done|]. split; [done|]. intros i. split; [by left|]. intros [?|(nd & ? & ? & Hnd & _)]; [done|].
      apply zget_lt in Hnd. unfold nodes_size in *. lia.
    - apply members_spec in Hv as [Hr Hv]. destruct (node_below v) as (nd & Hnd & _); [lia|]. rewrite (load_Some _ _ _ Hnd). simpl.
      eapply adds_impl, adds_fold; [|]. 2:{
        intros k Hk. instantiate (1 := λ k i, ∃ a, get k = Ok a ∧ C a i). destruct (H v nd k Hnd Hv Hk) as (a & Ha & Hadd). simpl. rewrite Ha. simpl.
        eapply adds_impl, Hadd. naive_solver. }
      intros i. simpl. naive_solver. }
  intros i. simpl. split.
  - intros (v & [_ Hv]%members_spec & nd & k & a & ?). naive_solver.
  - intros (v & nd & k & a & Hv & Hnd & ?). exists v. split; [|naive_solver]. apply members_spec. split; [|done].
    pose proof (zget_lt _ _ _ Hnd). pose proof nodes_size_le. unfold nodes_size in *. lia.
Qed.

Lemma join_neighbor_spec e s x i : wf_edge n e → join_findNeighbor g e s x = Some i →
  0 ≤ i < n ∧ ¬ bit s i ∧ ¬ bit x i.
Proof.
  intros (Hl & Hr & Hl0 & Hr0 & _) H. unfold join_findNeighbor in H.
  assert (∀ o, within n o → o ≠ 0 → intersects s o = false → intersects x o = false → findFirst n o = i → 0 ≤ i < n ∧ ¬ bit s i ∧ ¬ bit x i) as Ho.
  { intros o Ho Ho0 Hs%intersects_false Hx%intersects_false <-. split; [by apply findFirst_range|].
    pose proof (proj1 (findFirst_spec _ o Ho Ho0)). split; intros ?; [by eapply Hs|by eapply Hx]. }
  destruct (isSubsetOf (join_left e) s && _) eqn:E1; [|destruct (isSubsetOf (join_right e) s && _) eqn:E2; [|done]];
    destruct (negb _ && _) eqn:E3 in H; try done; injection H as H; apply andb_true_iff in E3 as [Hx%negb_true_iff _];
    [apply andb_true_iff in E1 as [_ Hd%negb_true_iff]|apply andb_true_iff in E2 as [_ Hd%negb_true_iff]]; (eapply Ho; [| |exact Hd|..]; done).
Qed.
Lemma sel_neighbor_spec e s x i : within n (required e) → sel_findNeighbor g e s x = Some i →
  0 ≤ i < n ∧ ¬ bit s i ∧ ¬ bit x i.
Proof.
  intros Hr H. unfold sel_findNeighbor in H. destruct (negb _ && _) eqn:E; [|done]. injection H as H. apply andb_true_iff in E.
  destruct E as [Hx%negb_true_iff%intersects_false H0%any_spec].
  assert (within n (Z.land (required e) (flip n s))) as Hw by auto with bits.
  pose proof (findFirst_range _ _ Hw H0). pose proof (proj1 (findFirst_spec _ _ Hw H0)) as Hi. rewrite H in *.
  split; [done|]. split; [|by intros ?; eapply Hx]. rewrite testbit_land_flip, andb_true_iff, negb_true_iff in Hi by done. destruct Hi; congruence.
Qed.

(** The neighbours of a set outside [x]. *)
Definition join_neighbor (s x i : Z) : Prop :=
  ∃ e, e ∈ joins g ∧ (∃ v, bit s v ∧ v < nodes_size g ∧ bit (Z.lor (join_left e) (join_right e)) v) ∧ join_findNeighbor g e s x = Some i.
Definition sel_neighbor (s x i : Z) : Prop :=
  ∃ e, e ∈ selections g ∧ (∃ v, bit s v ∧ v < nodes_size g ∧ bit (required e) v) ∧ sel_findNeighbor g e s x = Some i.

Lemma getNeighbors_spec s x :
  ∃ N, getNeighbors g s x = Ok N ∧ within n N ∧ ∀ i, bit N i ↔ join_neighbor s x i ∨ sel_neighbor s x i.
Proof.
  pose proof (adds_nodes (λ acc edge, add_representative g (join_findNeighbor g edge s x) acc) (load (joins g)) edges
    (λ e i, join_findNeighbor g e s x = Some i) s) as Hj.
  pose proof (adds_nodes (λ acc edge, add_representative g (sel_findNeighbor g edge s x) acc) (load (selections g)) node_selections
    (λ e i, sel_findNeighbor g e s x = Some i) s) as Hs.
  destruct (λ H, Hj H 0 (within_0 n)) as (N1 & E1 & Hw1 & H1); clear Hj.
  { intros v nd k Hnd Hv Hk. destruct (wf_nodes _ Hg _ _ Hnd) as (_ & Hedges & _). apply Hedges in Hk as (e & He & _).
    exists e. split; [by apply load_Some|]. apply adds_representative. intros i Hi.
    eapply join_neighbor_spec, Hi. eapply wf_joins, zget_elem; done. }
  destruct (λ H, Hs H N1 Hw1) as (N & E2 & Hw & H2); clear Hs.
  { intros v nd k Hnd Hv Hk. destruct (wf_nodes _ Hg _ _ Hnd) as (_ & _ & Hsels). apply Hsels in Hk as (e & He & _).
    exists e. split; [by apply load_Some|]. apply adds_representative. intros i Hi.
    eapply sel_neighbor_spec, Hi. eapply wf_selections, zget_elem; done. }
  unfold getNeighbors, iterateJoinEdges, iterateSelectionEdges. rewrite E1. simpl. rewrite E2.
  exists N. split; [done|]. split; [done|]. intros i. rewrite H2, H1. setoid_rewrite load_ok.
  assert (¬ bit 0 i) as H0 by (intros ?%not_member_0; done). split.
  - intros [[?|(v & nd & k & e & Hv & Hnd & Hk & He & Hi)]|(v & nd & k & e & Hv & Hnd & Hk & He & Hi)]; [done|left|right];
      destruct (wf_nodes _ Hg _ _ Hnd) as (_ & Hedges & Hsels); pose proof (zget_lt _ _ _ Hnd).
    + apply Hedges in Hk as (e' & He' & Hb). simplify_eq. exists e'. split; [by eapply zget_elem|]. split; [|done]. exists v. unfold nodes_size. split_and!; [done|lia|done].
    + apply Hsels in Hk as (e' & He' & Hb). simplify_eq. exists e'. split; [by eapply zget_elem|]. split; [|done]. exists v. unfold nodes_size. split_and!; [done|lia|done].
  - intros [(e & [k Hk]%elem_zget & (v & Hv & Hlt & Hb) & Hi)|(e & [k Hk]%elem_zget & (v & Hv & Hlt & Hb) & Hi)];
      destruct (node_below v) as (nd & Hnd & (_ & Hedges & Hsels)); [split; [by eapply testbit_nonneg|done]| |split; [by eapply testbit_nonneg|done]|].
    + left; right. exists v, nd, k, e. split_and!; [done..| |done|done]. apply Hedges. eauto.
    + right. exists v, nd, k, e. split_and!; [done..| |done|done]. apply Hsels. eauto.
Qed.
Lemma getNeighbors_outside s x N i : getNeighbors g s x = Ok N → bit N i → 0 ≤ i < n ∧ ¬ bit s i ∧ ¬ bit x i.
Proof.
  intros HN. destruct (getNeighbors_spec s x) as (N' & HN' & _ & Hi). assert (N' = N) as -> by congruence. rewrite Hi.
  intros [(e & He & _ & Hf)|(e & He & _ & Hf)]; [eapply join_neighbor_spec, Hf|eapply sel_neighbor_spec, Hf].
  - by apply wf_joins.
  - by apply wf_selections.
Qed.

(** The pseudo nodes of a set come with the edge that created them. *)
Definition not_lonely (s : Z) : Prop :=
  ∀ v, bit s v → nodes_size g ≤ v →
    ∃ e, zget (joins g) (default 0 (pseudoNodeOwner g !! v)) = Some e ∧ sub (join_left e) s ∧ sub (join_right e) s.

Lemma containsLonelyPseudo_spec s : within n s → ∃ b, containsLonelyPseudo g s = Ok b ∧ (b = false ↔ not_lonely s).
Proof.
  intros Hs. pose proof (wf_size _ Hg) as Hsz. pose proof (wf_mask _ Hg) as Hm. pose proof (wf_pseudoNodes _ Hg).
  assert (0 ≤ nodes_size g) by (unfold nodes_size; lia).
  set (normal := default 0 (normalNodesMask g)). set (pseudo := from_option (flip n) 0 (normalNodesMask g)).
  assert (pseudoNodes g = 0 ∨ ∀ i, bit normal i ↔ 0 ≤ i < nodes_size g) as Hnormal.
  { unfold normal. rewrite Hm. destruct (Z.eqb_spec (pseudoNodes g) 0); [by left|right]. intros i. simpl.
    unfold fillUntil. rewrite testbit_range by lia. rewrite bool_decide_eq_true. lia. }
  assert (∀ i, bit (Z.land s pseudo) i ↔ bit s i ∧ nodes_size g ≤ i) as Hpseudo.
  { intros i. unfold pseudo. rewrite Hm. destruct (Z.eqb_spec (pseudoNodes g) 0) as [E|E]; simpl.
    - rewrite Z.land_0_r, Z.testbit_0_l. split; [done|]. intros [Hi%Hs ?]. lia.
    - rewrite testbit_land_flip by done. unfold fillUntil. rewrite andb_true_iff, negb_true_iff, testbit_range, bool_decide_eq_false by lia.
      split; [intros [Hi ?]; pose proof (testbit_nonneg _ _ Hi); split; [done|lia]|intros [? ?]; split; [done|lia]]. }
  assert (within n (Z.land s pseudo)) as Hw by auto with bits.
  unfold containsLonelyPseudo. fold normal pseudo. destruct (isSubsetOf s normal) eqn:E.
  - apply isSubsetOf_spec in E. exists false. split; [done|]. split; [|done]. intros _ v Hv Hge. apply Hs in Hv as Hlt. apply E in Hv.
    destruct Hnormal as [|Hn]; [lia|]. apply Hn in Hv. lia.
  - edestruct (any_res_ok (λ pseudo, let* join := load (joins g) (default 0 (pseudoNodeOwner g !! pseudo)) in
      if isSubsetOf (join_left join) s && isSubsetOf (join_right join) s then Ok false else Ok true)
      (λ v, ¬ ∃ e, zget (joins g) (default 0 (pseudoNodeOwner g !! v)) = Some e ∧ sub (join_left e) s ∧ sub (join_right e) s)) as (b & -> & Hb).
    { intros v Hv. apply members_within in Hv; [|done]. apply Hpseudo in Hv as [Hv Hge].
      destruct (wf_pseudos _ Hg v) as [e He]; [auto|]. rewrite (load_Some _ _ _ He). simpl.
      destruct (isSubsetOf (join_left e) s && isSubsetOf (join_right e) s) eqn:E'; [exists false|exists true]; (split; [done|]); (split; [|]); try done.
      - intros []. exists e. by rewrite andb_true_iff, !isSubsetOf_spec in E'.
      - intros _ (e' & He' & Hl%isSubsetOf_spec & Hr%isSubsetOf_spec). simplify_eq. by rewrite Hl, Hr in E'. }
    exists b. split; [done|]. rewrite <- not_true_iff_false, Hb. unfold not_lonely. setoid_rewrite (members_within _ _ _ Hw). setoid_rewrite Hpseudo. split.
    + intros H1 v Hv Hge. destruct (wf_pseudos _ Hg v) as [e He]; [auto|]. destruct (isSubsetOf (join_left e) s && isSubsetOf (join_right e) s) eqn:E'.
      * exists e. by rewrite andb_true_iff, !isSubsetOf_spec in E'.
      * exfalso. apply H1. exists v. split; [done|]. intros (e' & He' & Hl%isSubsetOf_spec & Hr%isSubsetOf_spec). simplify_eq. by rewrite Hl, Hr in E'.
    + intros H1 (v & [Hv Hge] & H2). by apply H2, H1.
Qed.

Definition connecting (s1 s2 : Z) : Prop :=
  ∃ v, bit s1 v ∧ v < nodes_size g ∧
    ((∃ e, e ∈ joins g ∧ bit (Z.lor (join_left e) (join_right e)) v ∧ join_connects e s1 s2 = true) ∨
     (∃ e, e ∈ selections g ∧ bit (required e) v ∧ sel_connects e s1 s2 = true)).

(** The loop over the edges of a node. *)
Lemma any_edge {A} (l : list A) (ids : list Z) (touches : A → Prop) (f : A → bool) :
  (∀ k, k ∈ ids ↔ ∃ e, zget l k = Some e ∧ touches e) →
  ∃ b, any_res (λ k, let* e := load l k in Ok (f e)) ids = Ok b ∧ (b = true ↔ ∃ e, e ∈ l ∧ touches e ∧ f e = true).
Proof.
  intros Hids. destruct (any_res_ok (λ k, let* e := load l k in Ok (f e)) (λ k, ∃ e, zget l k = Some e ∧ f e = true) ids) as (b & -> & Hb).
  { intros k (e & He & _)%Hids. rewrite (load_Some _ _ _ He). simpl. exists (f e). split; [done|]. rewrite He. naive_solver. }
  exists b. split; [done|]. rewrite Hb. split.
  - intros (k & (e & He & Ht)%Hids & e' & He' & Hf). simplify_eq. exists e. split; [by eapply zget_elem|done].
  - intros (e & [k Hk]%elem_zget & Ht & Hf). exists k. split; [apply Hids|]; eauto.
Qed.

Lemma isConnected_spec s1 s2 : within n s1 → within n s2 →
  ∃ b, isConnected g s1 s2 = Ok b ∧ (b = true ↔ not_lonely s1 ∧ not_lonely s2 ∧ connecting s1 s2).
Proof.
  intros H1 H2. unfold isConnected. destruct (containsLonelyPseudo_spec s1 H1) as (b1 & -> & Hb1). simpl.
  destruct b1; [exists false; split; [done|]; split; [done|]; intros (Hn & _); by apply Hb1 in Hn|].
  destruct (containsLonelyPseudo_spec s2 H2) as (b2 & -> & Hb2). simpl.
  destruct b2; [exists false; split; [done|]; split; [done|]; intros (_ & Hn & _); by apply Hb2 in Hn|].
  match goal with |- context [any_res ?f ?l] => destruct (any_res_ok f (λ v, v < nodes_size g ∧
    ((∃ e, e ∈ joins g ∧ bit (Z.lor (join_left e) (join_right e)) v ∧ join_connects e s1 s2 = true) ∨
     (∃ e, e ∈ selections g ∧ bit (required e) v ∧ sel_connects e s1 s2 = true))) l) as (b & -> & Hb) end.
  { intros v [Hr Hv]%members_spec. destruct (Z.leb_spec (nodes_size g) v) as [Hge|Hlt]; [exists false; split; [done|]; naive_solver lia|].
    destruct (node_below v) as (nd & Hnd & (_ & Hj & Hs)); [lia|]. rewrite (load_Some _ _ _ Hnd). simpl.
    destruct (any_edge _ _ _ (λ e, join_connects e s1 s2) Hj) as (b & -> & Hb). simpl. destruct b.
    - exists true. split; [done|]. naive_solver.
    - destruct (any_edge _ _ _ (λ e, sel_connects e s1 s2) Hs) as (b & -> & Hb'). exists b. split; [done|]. rewrite Hb'.
      split; [intros HB; split; [done|by right]|intros [_ [HA|HB]]; [by apply Hb in HA|done]]. }
  exists b. split; [done|]. rewrite Hb. unfold connecting. setoid_rewrite (members_within _ _ _ H1). naive_solver.
Qed.

(** ** Plans cover node sets *)

Section search.
Context `{EC : EquivalenceClasses} (estimateSelectivity : option operator → Z → Z → double).
Context (set_order : list (option operator) → list (option operator)).
Notation joinPlans := (joinPlans g estimateSelectivity set_order).
Notation emitCsgCmp := (emitCsgCmp g estimateSelectivity set_order).
Notation emitCsg := (emitCsg g estimateSelectivity set_order).
Notation enumerateCmpRec := (enumerateCmpRec g estimateSelectivity set_order).
Notation enumerateCsgRec := (enumerateCsgRec g estimateSelectivity set_order).

(** What the loops of [joinPlans] keep: the two plans, perhaps swapped, and
    the normal nodes of the set. *)
Definition joining_of (s : Z) (p1 p2 : plan) (j : joining) : Prop :=
  (jn_p1 j = Some p1 ∧ jn_p2 j = Some p2 ∨ jn_p1 j = Some p2 ∧ jn_p2 j = Some p1) ∧
  within n (jn_s j) ∧ sub s (jn_s j) ∧ ∀ v, v < nodes_size g → bit (jn_s j) v → bit s v.

Lemma apply_join_edge_keeps s p1 p2 e j : e ∈ joins g → joining_of s p1 p2 j → joining_of s p1 p2 (apply_join_edge j e).
Proof.
  intros He (Hp & Hw & Hsub & Hnorm). unfold apply_join_edge. destruct (join_connects _ _ _); [|done].
  assert ((jn_p1 (apply_op e j) = Some p1 ∧ jn_p2 (apply_op e j) = Some p2 ∨ jn_p1 (apply_op e j) = Some p2 ∧ jn_p2 (apply_op e j) = Some p1)
    ∧ jn_s (apply_op e j) = jn_s j) as [Hp' Hs'].
  { unfold apply_op. destruct (join_op e) as [op|]; [|done]. destruct (negb (isInner op)); simpl.
    - destruct (negb (isSubsetOf _ _)); naive_solver.
    - destruct (useSelection e _); done. }
  split; [done|]. simpl. rewrite Hs'. destruct (createdNode e) as [c|] eqn:Ec; [|done].
  pose proof (wf_created _ Hg _ _ He Ec) as Hc. assert (0 ≤ c) by (unfold nodes_size in Hc; lia). split_and!.
  - apply within_lor; [done|]. apply within_single. lia.
  - intros i Hi. bits. auto.
  - intros v Hv Hb. bits. destruct Hb as [?| ->]; [auto|lia].
Qed.
Lemma apply_selection_edge_keeps s p1 p2 e j cache :
  joining_of s p1 p2 j → joining_of s p1 p2 (apply_selection_edge g estimateSelectivity (j, cache) e).1.
Proof.
  intros Hj. unfold apply_selection_edge. destruct (connects2 _ _ _ _); [|done].
  destruct (calculateSelectivity _ _ _ _ _). by destruct Hj.
Qed.

Fixpoint leaves (p : plan) : list plan :=
  match p with
  | Plan _ [] _ _ _ _ => [p]
  | Plan _ l _ _ _ _ => flat_map leaves l
  end.

Lemma joinPlans_ok s1 s2 p1 p2 cache : within n s1 → within n s2 →
  ∃ p s cache', joinPlans s1 s2 (Some p1) (Some p2) cache = Ok (p, s, cache') ∧
    leaves p ≡ₚ leaves p1 ++ leaves p2 ∧
    within n s ∧ sub (Z.lor s1 s2) s ∧ ∀ v, v < nodes_size g → bit s v → bit s1 v ∨ bit s2 v.
Proof.
  intros H1 H2. unfold JoinOrder.joinPlans.
  assert (joining_of (Z.lor s1 s2) p1 p2 (fold_left apply_join_edge (joins g) (initial_joining g s1 s2 (Some p1) (Some p2)))) as Hj.
  { apply (fold_inv (joining_of (Z.lor s1 s2) p1 p2)); [intros; by apply apply_join_edge_keeps|].
    split; [by left|]. split_and!; [simpl; auto with bits|by intros i|done]. }
  revert Hj. generalize (fold_left apply_join_edge (joins g) (initial_joining g s1 s2 (Some p1) (Some p2))) as j. intros j Hj.
  assert (joining_of (Z.lor s1 s2) p1 p2 (fold_left (apply_selection_edge g estimateSelectivity) (selections g) (j, cache)).1) as Hj'.
  { apply (fold_inv (λ jc, joining_of (Z.lor s1 s2) p1 p2 jc.1)); [|done]. intros e [j' c] _. apply apply_selection_edge_keeps. }
  destruct (fold_left (apply_selection_edge g estimateSelectivity) (selections g) (j, cache)) as [j' cache'].
  simpl in Hj'. destruct Hj' as (Hp & Hw & Hsub & Hnorm).
  assert (∃ p, build_plan set_order j' = Ok p ∧ leaves p ≡ₚ leaves p1 ++ leaves p2) as (p & -> & Hl).
  { unfold build_plan. destruct Hp as [[-> ->]|[-> ->]]; simpl; destruct (specialJoin j'); [|destruct (set_order _)| |destruct (set_order _)];
      eexists; (split; [done|]); simpl; rewrite ?app_nil_r; repeat case_match; rewrite ?app_nil_r; solve [done|apply Permutation_app_comm]. }
  simpl. exists p, (jn_s j'), cache'. split; [done|]. split_and!; [done..|]. intros v Hv Hb. specialize (Hnorm v Hv Hb). by bits.
Qed.

(** The plan of a node set uses each of its normal nodes once. *)
Definition nodes_of (s : Z) : list Node := filter (λ nd, bit s (node_id nd)) (nodes g).
Definition covers (s : Z) (p : plan) : Prop :=
  within n s ∧ s ≠ 0 ∧ leaves p ≡ₚ createInitialPlan <$> nodes_of s.

Lemma node_ids nd : nd ∈ nodes g → 0 ≤ node_id nd < nodes_size g ∧ zget (nodes g) (node_id nd) = Some nd.
Proof.
  intros [v Hv]%elem_zget. pose proof (zget_lt _ _ _ Hv). destruct (wf_nodes _ Hg _ _ Hv) as (Hid & _).
  unfold nodes_size. by rewrite Hid.
Qed.
Lemma filter_union {A} (P Q R : A → Prop) `{!∀ x, Decision (P x), !∀ x, Decision (Q x), !∀ x, Decision (R x)} (l : list A) :
  (∀ x, x ∈ l → (R x ↔ P x ∨ Q x) ∧ ¬ (P x ∧ Q x)) → filter R l ≡ₚ filter P l ++ filter Q l.
Proof.
  induction l as [|x l IH]; intros HPs; [done|]. destruct (HPs x ltac:(set_solver)) as [HR HPQ].
  specialize (IH (λ y Hy, HPs y ltac:(set_solver))). rewrite !filter_cons.
  destruct (decide (R x)), (decide (P x)), (decide (Q x)); try (exfalso; tauto); simpl; rewrite IH; [done|by rewrite Permutation_middle|done].
Qed.
Lemma covers_join s1 s2 s p1 p2 p : covers s1 p1 → covers s2 p2 → disjoint_sets s1 s2 →
  leaves p ≡ₚ leaves p1 ++ leaves p2 → within n s → sub (Z.lor s1 s2) s →
  (∀ v, v < nodes_size g → bit s v → bit s1 v ∨ bit s2 v) → covers s p.
Proof.
  intros (Hw1 & H10 & Hl1) (Hw2 & _ & Hl2) Hd Hl Hw Hsub Hnorm. split; [done|]. split.
  { apply nonempty_member in H10 as [i Hi]. apply nonempty_member. exists i. apply Hsub. bits. by left. }
  rewrite Hl, Hl1, Hl2, <- fmap_app. apply fmap_Permutation. symmetry. apply filter_union. intros nd Hnd.
  pose proof (node_ids nd Hnd) as [Hr _]. split; [|intros [? ?]; by eapply Hd]. split; [apply Hnorm; lia|].
  intros Hi. apply Hsub. bits. done.
Qed.
Lemma covers_single nd : nd ∈ nodes g → covers (single (node_id nd)) (createInitialPlan nd).
Proof.
  intros Hnd. pose proof (node_ids nd Hnd) as [Hr Hz]. pose proof nodes_size_le. split; [apply within_single; lia|]. split.
  { apply nonempty_member. exists (node_id nd). by bits. }
  assert (nodes_of (single (node_id nd)) = [nd]) as ->; [|done].
  unfold nodes_of. pose proof Hz as Hz'. unfold zget in Hz. destruct (0 <=? node_id nd); [|done].
  apply list_elem_of_split_length in Hz as (l1 & l2 & E & Hlen). rewrite E, filter_app, filter_cons_True by (by bits).
  assert (∀ l, (∀ nd', nd' ∈ l → node_id nd' ≠ node_id nd) → filter (λ nd', bit (single (node_id nd)) (node_id nd')) l = []) as Hnil.
  { intros l Hl. induction l as [|nd' l IH]; [done|]. rewrite filter_cons_False; [apply IH; intros; apply Hl; set_solver|].
    intros Hb. bits. by apply (Hl nd'); [set_solver|]. }
  assert (∀ k nd', nodes g !! k = Some nd' → node_id nd' = Z.of_nat k) as Hid.
  { intros k nd' Hk. destruct (wf_nodes _ Hg (Z.of_nat k) nd') as (? & _); [|done]. unfold zget.
    by rewrite (proj2 (Z.leb_le 0 (Z.of_nat k))), Nat2Z.id by lia. }
  rewrite !Hnil; [done|..].
  - intros nd' [k Hk]%list_elem_of_lookup. rewrite (Hid (S (length l1) + k)%nat nd'); [lia|].
    rewrite E, lookup_app_r by lia. replace (S (length l1) + k - length l1)%nat with (S k) by lia. done.
  - intros nd' [k Hk]%list_elem_of_lookup. pose proof (lookup_lt_Some _ _ _ Hk). rewrite (Hid k nd'); [lia|]. by rewrite E, lookup_app_l.
Qed.

(** Every entry of the table is a plan of its set, and the nodes have one. *)
Definition searching (st : search) : Prop :=
  (∀ s q, dpTable st !! s = Some q → ∃ p, q = Some p ∧ covers s p) ∧
  (∀ v, 0 ≤ v < nodes_size g → is_Some (dpTable st !! single v)).
Definition kept (st st' : search) : Prop := ∀ s, is_Some (dpTable st !! s) → is_Some (dpTable st' !! s).

Lemma emitCsgCmp_ok st s1 s2 : searching st → is_Some (dpTable st !! s1) → is_Some (dpTable st !! s2) → disjoint_sets s1 s2 →
  ∃ st', emitCsgCmp st s1 s2 = Ok st' ∧ searching st' ∧ kept st st'.
Proof.
  intros [Hst Hsingle] [q1 E1] [q2 E2] Hd. destruct (Hst _ _ E1) as (p1 & -> & Hc1). destruct (Hst _ _ E2) as (p2 & -> & Hc2).
  destruct (joinPlans_ok s1 s2 p1 p2 (caches st)) as (p & s & cache & Ej & Hl & Hw & Hsub & Hnorm); [apply Hc1|apply Hc2|].
  assert (covers s p) as Hc by (by apply (covers_join s1 s2 s p1 p2)).
  unfold JoinOrder.emitCsgCmp, fetch. rewrite E1, E2, Ej. simpl.
  assert (∀ c, searching {| dpTable := <[s := Some p]> (dpTable st); caches := c |} ∧ kept st {| dpTable := <[s := Some p]> (dpTable st); caches := c |}) as Hins.
  { intros c. assert (∀ t, is_Some (dpTable st !! t) → is_Some (<[s := Some p]> (dpTable st) !! t)) as Hk.
    { intros t [q Hq]. destruct (decide (s = t)) as [->|]; [rewrite lookup_insert_eq|rewrite lookup_insert_ne by done]; eauto. }
    split; [split; [|intros v Hv; apply Hk, Hsingle, Hv]|done]. intros t q. simpl.
    destruct (decide (s = t)) as [->|]; [rewrite lookup_insert_eq|rewrite lookup_insert_ne by done]; [intros [= <-]; eauto|apply Hst]. }
  destruct (dpTable st !! s) as [old|] eqn:Es; [|eexists; split; [done|apply Hins]].
  destruct (Hst _ _ Es) as (old' & -> & _). simpl. destruct (dlt _ _); eexists; (split; [done|]); [apply Hins|]. split; [by split|by intros t].
Qed.

(** The nodes that the excluded set leaves. *)
Definition left_over (x : Z) : nat := length (members n (flip n x)).
Lemma left_over_le x : (left_over x ≤ Z.to_nat n)%nat.
Proof. unfold left_over, members. etrans; [apply length_filter|]. by rewrite length_seqZ. Qed.
Lemma left_over_lt x N : within n N → N ≠ 0 → disjoint_sets N x → (left_over (Z.lor x N) < left_over x)%nat.
Proof.
  intros Hw [i Hi]%nonempty_member Hd. unfold left_over.
  assert (∀ y, NoDup (members n y)) as Hnd by (intros; apply NoDup_filter, NoDup_seqZ).
  assert (∀ j y, j ∈ members n (flip n y) ↔ 0 ≤ j < n ∧ ¬ bit y j) as Hm.
  { intros j y. rewrite members_spec. split; intros [Hj Hb]; (split; [done|]); rewrite testbit_flip in *; try done;
      [by rewrite negb_true_iff, <- not_true_iff_false in Hb|by rewrite negb_true_iff, <- not_true_iff_false]. }
  pose proof (testbit_nonneg _ _ Hi). assert (i ∉ members n (flip n (Z.lor x N))) as Hni.
  { rewrite Hm. intros [_ Hb]. apply Hb. bits. by right. }
  assert ((length (i :: members n (flip n (Z.lor x N))) ≤ length (members n (flip n x)))%nat) as Hle; [|simpl in Hle; lia].
  apply submseteq_length, NoDup_submseteq; [by constructor|]. intros j [->|Hj]%elem_of_cons; apply Hm.
  - split; [auto|]. intros ?. by eapply Hd.
  - apply Hm in Hj as [Hj Hb]. split; [done|]. intros Hx. apply Hb. bits. by left.
Qed.

Lemma kept_refl st : kept st st.
Proof. by intros s. Qed.
Lemma kept_trans st1 st2 st3 : kept st1 st2 → kept st2 st3 → kept st1 st3.
Proof. unfold kept. auto. Qed.

(** The invariant of a loop that keeps the entries of [st0]. *)
Definition after (st0 st : search) : Prop := searching st ∧ kept st0 st.
Lemma after_step {A} (f : search → A → res search) l st0 st :
  (∀ a st, a ∈ l → after st0 st → ∃ st', f st a = Ok st' ∧ searching st' ∧ kept st st') →
  after st0 st → ∃ st', fold_res f l st = Ok st' ∧ after st0 st'.
Proof.
  intros Hf. apply fold_res_inv. intros a st' Ha [Hs Hk]. destruct (Hf a st' Ha) as (st'' & -> & Hs' & Hk'); [done|].
  exists st''. split; [done|]. split; [done|]. by eapply kept_trans.
Qed.
Lemma contains_spec st s : contains st s = true ↔ is_Some (dpTable st !! s).
Proof. unfold contains. apply bool_decide_eq_true. Qed.

(** The subsets of the neighbours outside [x]. *)
Lemma neighbour_subsets s x : ∃ N ns, getNeighbors g s x = Ok N ∧ iterateSubsets n N = Ok ns ∧
  within n N ∧ disjoint_sets N x ∧ disjoint_sets N s ∧ StronglySorted Z.lt ns ∧ ∀ t, t ∈ ns ↔ t ≠ 0 ∧ sub t N.
Proof.
  destruct (getNeighbors_spec s x) as (N & HN & Hw & _). destruct (iterateSubsets_spec n N Hw) as (ns & Hns & Hsorted & Hin).
  exists N, ns. split_and!; [done..| | |done|done]; intros i Hi; by destruct (getNeighbors_outside _ _ _ _ HN Hi) as (_ & ? & ?).
Qed.

Lemma enumerateCmpRec_ok fuel st s1 s2 x : (left_over x < fuel)%nat → searching st → is_Some (dpTable st !! s1) →
  within n s1 → within n s2 → sub s1 x → disjoint_sets s1 s2 →
  ∃ st', enumerateCmpRec fuel st s1 s2 x = Ok st' ∧ searching st' ∧ kept st st'.
Proof.
  intros Hf Hst H1 Hw1 Hw2 Hx Hd. change (∃ st', enumerateCmpRec fuel st s1 s2 x = Ok st' ∧ after st st').
  revert st s2 x Hf Hst H1 Hw2 Hx Hd. induction fuel as [|fuel IH]; intros st s2 x Hf Hst H1 Hw2 Hx Hd; [lia|]. simpl.
  destruct (neighbour_subsets s2 x) as (N & ns & -> & Hns & HwN & HNx & HNs & _ & Hin). simpl. rewrite Hns. simpl.
  assert (∀ t, t ∈ ns → within n (Z.lor s2 t) ∧ disjoint_sets s1 (Z.lor s2 t)) as Hgrow.
  { intros t [_ Ht]%Hin. split; [apply within_lor; [done|by eapply within_sub]|]. intros i Hi Hi'. bits.
    destruct Hi' as [?|Hi'%Ht]; [by eapply Hd|]. by eapply HNx, Hx. }
  destruct (after_step (λ st t, if contains st (Z.lor s2 t)
    then let* connected := isConnected g s1 (Z.lor s2 t) in if connected then emitCsgCmp st s1 (Z.lor s2 t) else Ok st else Ok st)
    ns st st) as (st1 & E1 & Hs1 & Hk1); [|by split; [|apply kept_refl]|].
  { intros t st' Ht [Hs' Hk']. simpl. destruct (contains st' (Z.lor s2 t)) eqn:Ec; [|exists st'; split_and!; [done..|apply kept_refl]].
    apply contains_spec in Ec. destruct (Hgrow t Ht) as [Hwt Hdt]. destruct (isConnected_spec s1 (Z.lor s2 t)) as (b & -> & _); [done..|]. simpl.
    destruct b; [|exists st'; split_and!; [done..|apply kept_refl]]. apply emitCsgCmp_ok; auto. }
  rewrite E1. simpl. destruct (decide (N = 0)) as [->|HN0].
  { assert (ns = []) as ->; [|by exists st1]. destruct ns as [|t ns]; [done|]. destruct (proj1 (Hin t) ltac:(set_solver)) as [Ht0 Ht].
    apply nonempty_member in Ht0 as [i Hi%Ht]. by apply not_member_0 in Hi. }
  apply after_step; [|done]. intros t st' Ht [Hs' Hk']. destruct (Hgrow t Ht) as [Hwt Hdt]. apply IH; auto.
  - pose proof (left_over_lt x N HwN HN0 HNx). lia.
  - intros i Hi. bits. auto.
Qed.

(** A pseudo node is lonely. *)
Lemma not_lonely_single p : 0 ≤ p < n → not_lonely (single p) → p < nodes_size g.
Proof.
  intros Hp Hl. destruct (decide (p < nodes_size g)) as [|Hge]; [done|]. destruct (Hl p) as (e & He%zget_elem & Hsl & Hsr); [by bits|lia|].
  destruct (wf_joins _ Hg _ He) as (_ & _ & [i Hi]%nonempty_member & [j Hj]%nonempty_member & Hd). exfalso.
  pose proof (Hsl _ Hi) as Hi'. pose proof (Hsr _ Hj) as Hj'. bits. subst. by eapply Hd.
Qed.

Lemma emitCsg_ok st s1 : searching st → is_Some (dpTable st !! s1) → ∃ st', emitCsg st s1 = Ok st' ∧ searching st' ∧ kept st st'.
Proof.
  intros Hst H1. pose proof H1 as [q Hq]. destruct (proj1 Hst _ _ Hq) as (p & -> & Hw1 & H10 & _). unfold JoinOrder.emitCsg.
  set (x := Z.lor s1 (fillUntil (findFirst n s1))). destruct (getNeighbors_spec s1 x) as (N & EN & HwN & _). rewrite EN. cbn [res_bind].
  apply (after_step _ _ st st); [|by split; [|apply kept_refl]].
  intros pos st' Hpos [Hs' Hk']. rewrite elem_of_reverse in Hpos. apply members_within in Hpos; [|done].
  destruct (getNeighbors_outside _ _ _ _ EN Hpos) as (Hr & Hns & Hnx).
  assert (within n (single pos)) as Hwp by auto with bits. assert (disjoint_sets s1 (single pos)) as Hd by (intros i Hi Hi'; bits; by subst).
  destruct (isConnected_spec s1 (single pos)) as (b & -> & Hb); [done..|]. cbn [res_bind].
  assert (∃ st2, (if b then emitCsgCmp st' s1 (single pos) else Ok st') = Ok st2 ∧ searching st2 ∧ kept st' st2) as (st2 & -> & Hs2 & Hk2).
  { destruct b; [|exists st'; split_and!; [done..|apply kept_refl]]. apply emitCsgCmp_ok; auto. apply Hs'.
    split; [lia|]. apply not_lonely_single; [done|]. by apply Hb. }
  cbn [res_bind]. destruct (enumerateCmpRec_ok (recursion_fuel g) st2 s1 (single pos) x) as (st3 & -> & Hs3 & Hk3); auto.
  - unfold recursion_fuel. pose proof (left_over_le x). lia.
  - intros i Hi. unfold x. bits. by left.
  - exists st3. split_and!; [done..|]. by eapply kept_trans.
Qed.

Lemma enumerateCsgRec_ok fuel st s1 x : (left_over x < fuel)%nat → searching st →
  ∃ st', enumerateCsgRec fuel st s1 x = Ok st' ∧ searching st' ∧ kept st st'.
Proof.
  intros Hf Hst. change (∃ st', enumerateCsgRec fuel st s1 x = Ok st' ∧ after st st').
  revert st s1 x Hf Hst. induction fuel as [|fuel IH]; intros st s1 x Hf Hst; [lia|]. simpl.
  destruct (neighbour_subsets s1 x) as (N & ns & -> & Hns & HwN & HNx & HNs & _ & Hin). simpl. rewrite Hns. simpl.
  destruct (after_step (λ st t, if contains st (Z.lor s1 t) then emitCsg st (Z.lor s1 t) else Ok st) ns st st) as (st1 & -> & Hs1 & Hk1);
    [|by split; [|apply kept_refl]|].
  { intros t st' Ht [Hs' Hk']. simpl. destruct (contains st' (Z.lor s1 t)) eqn:Ec; [|exists st'; split_and!; [done..|apply kept_refl]].
    apply emitCsg_ok; [done|]. by apply contains_spec. }
  simpl. destruct (decide (N = 0)) as [->|HN0].
  { assert (ns = []) as ->; [|by exists st1]. destruct ns as [|t ns]; [done|]. destruct (proj1 (Hin t) ltac:(set_solver)) as [Ht0 Ht].
    apply nonempty_member in Ht0 as [i Hi%Ht]. by apply not_member_0 in Hi. }
  apply after_step; [|done]. intros t st' Ht [Hs' Hk']. apply IH; [|done]. pose proof (left_over_lt x N HwN HN0 HNx). lia.
Qed.

Lemma initial_searching : searching (initial_search g).
Proof.
  assert (∀ l, (∀ nd, nd ∈ l → nd ∈ nodes g) →
    let t := fold_left (λ (t : gmap Z (option plan)) (v : Node), let s := single (node_id v) in match t !! s with Some _ => t | None => <[s := Some (createInitialPlan v)]> t end) l (∅ : gmap Z (option plan)) in
    (∀ s q, t !! s = Some q → ∃ p, q = Some p ∧ covers s p) ∧ (∀ nd, nd ∈ l → is_Some (t !! single (node_id nd)))) as Hl.
  { intros l. induction l as [|nd l IH] using rev_ind; intros Hl; [split; set_solver|]. rewrite fold_left_app. simpl.
    destruct IH as [Hc Hs]; [set_solver|]. simpl in Hc, Hs. set (t := fold_left _ l ∅) in *.
    destruct (t !! single (node_id nd)) as [q|] eqn:E.
    - split; [done|]. intros nd' [?| ->%list_elem_of_singleton]%elem_of_app; [auto|eauto].
    - split.
      + intros s q. destruct (decide (single (node_id nd) = s)) as [<-|Hne]; [rewrite lookup_insert_eq|rewrite lookup_insert_ne by done; auto].
        intros [= <-]. eexists. split; [done|]. apply covers_single, Hl. set_solver.
      + intros nd' [Hnd'| ->%list_elem_of_singleton]%elem_of_app; [|rewrite lookup_insert_eq; eauto].
        destruct (decide (single (node_id nd) = single (node_id nd'))) as [->|]; [rewrite lookup_insert_eq; eauto|rewrite lookup_insert_ne by done; auto]. }
  destruct (Hl (nodes g)) as [Hc Hs]; [done|]. split; [done|]. intros v Hv. destruct (node_below v Hv) as (nd & Hnd & Hid & _).
  rewrite <- Hid. apply Hs. by eapply zget_elem.
Qed.

Lemma solve_node_ok st nd : nd ∈ nodes g → searching st →
  ∃ st', solve_node g estimateSelectivity set_order st nd = Ok st' ∧ searching st' ∧ kept st st'.
Proof.
  intros Hnd Hst. unfold solve_node. destruct (emitCsg_ok st (single (node_id nd))) as (st1 & -> & Hs1 & Hk1); [done| |].
  { apply Hst. by apply node_ids. }
  cbn [res_bind]. destruct (enumerateCsgRec_ok (recursion_fuel g) st1 (single (node_id nd)) (fillUntil (node_id nd))) as (st2 & -> & Hs2 & Hk2); [|done|].
  { unfold recursion_fuel. pose proof (left_over_le (fillUntil (node_id nd))). lia. }
  exists st2. split_and!; [done..|]. by eapply kept_trans.
Qed.
Lemma solve_ok : ∃ q st, solve g estimateSelectivity set_order = Ok (q, st) ∧
  ∀ p, q = Some p → leaves p ≡ₚ createInitialPlan <$> nodes g.
Proof.
  unfold solve. pose proof initial_searching as Hi.
  destruct (after_step (solve_node g estimateSelectivity set_order) (reverse (nodes g)) (initial_search g) (initial_search g)) as (st & -> & Hs & _);
    [|by split; [|apply kept_refl]|].
  { intros nd st Hnd [Hs _]. apply solve_node_ok; [by apply elem_of_reverse|done]. }
  simpl. unfold fetch. destruct (dpTable st !! all_ones n) as [q|] eqn:E; [|by eexists _, _].
  eexists _, _. split; [done|]. intros p ->. destruct (proj1 Hs _ _ E) as (p' & [= <-] & _ & _ & ->).
  unfold nodes_of. assert (filter (λ nd, bit (all_ones n) (node_id nd)) (nodes g) = nodes g) as ->; [|done].
  pose proof nodes_size_le. pose proof numNodes_nonneg. assert (∀ nd, nd ∈ nodes g → bit (all_ones n) (node_id nd)) as Hall.
  { intros nd Hnd. pose proof (node_ids nd Hnd) as [? _]. unfold all_ones. rewrite testbit_ones, bool_decide_eq_true by done. lia. }
  revert Hall. generalize (nodes g) as l. intros l Hl. induction l as [|nd l IH]; [done|].
  rewrite filter_cons_True by (apply Hl; set_solver). f_equal. apply IH. intros. apply Hl. set_solver.
Qed.

(** ** The greedy fallback and the choice *)

Lemma countSubGraphsRec_ok fuel s1 x cnt maxCount : (left_over x < fuel)%nat →
  ∃ c, countSubGraphsRec g fuel s1 x cnt maxCount = Ok c ∧ cnt ≤ c.
Proof.
  revert s1 x cnt. induction fuel as [|fuel IH]; intros s1 x cnt Hf; [lia|]. simpl.
  destruct (neighbour_subsets s1 x) as (N & ns & -> & Hns & HwN & HNx & HNs & _ & Hin). simpl. rewrite Hns. simpl.
  apply (fold_res_inv (λ c, cnt ≤ c)); [|done]. intros t c Ht Hc. cbv beta zeta. destruct (maxCount <=? c + 1); [eexists; split; [done|lia]|].
  apply Hin in Ht as [Ht0 Ht]. assert (N ≠ 0) as HN0. { intros ->. apply nonempty_member in Ht0 as [i Hi%Ht]. by apply not_member_0 in Hi. }
  pose proof (left_over_lt x N HwN HN0 HNx). destruct (IH (Z.lor s1 t) (Z.lor x N) (c + 1)) as (c' & -> & ?); [lia|]. exists c'. split; [done|lia].
Qed.
Lemma countSubGraphs_ok maxCount : ∃ c, countSubGraphs g maxCount = Ok c ∧ 0 ≤ c.
Proof.
  apply (fold_res_inv (λ c, 0 ≤ c)); [|done]. intros nd c _ Hc. cbv beta zeta. destruct (maxCount <=? c + 1); [eexists; split; [done|lia]|].
  destruct (countSubGraphsRec_ok (recursion_fuel g) (single (node_id nd)) (fillUntil (node_id nd)) (c + 1) maxCount) as (c' & -> & ?).
  { unfold recursion_fuel. pose proof (left_over_le (fillUntil (node_id nd))). lia. }
  exists c'. split; [done|lia].
Qed.

Lemma index_pairs_spec k l r : (l, r) ∈ index_pairs k → 0 ≤ r ∧ r < l ∧ l < k.
Proof.
  unfold index_pairs. intros (l' & H & Hl%elem_of_seqZ)%list_elem_of_bind. apply list_elem_of_bind in H as (r' & H & Hr%elem_of_seqZ).
  apply list_elem_of_singleton in H as [= -> ->]. lia.
Qed.
Lemma erase_perm {A} i (l : list A) x : zget l i = Some x → l ≡ₚ x :: erase i l.
Proof.
  unfold zget, erase. destruct (0 <=? i); [|done]. intros H. rewrite <- (take_drop_middle _ _ _ H) at 1. by rewrite Permutation_middle.
Qed.
Lemma erase_lookup {A} i j (l : list A) : j < i → zget (erase i l) j = zget l j.
Proof.
  intros Hj. unfold zget, erase. destruct (Z.leb_spec 0 j); [|done]. destruct (decide (Z.to_nat j < length (take (Z.to_nat i) l))%nat) as [Hlt|Hge].
  - rewrite lookup_app_l by done. apply lookup_take_lt. lia.
  - rewrite length_take in Hge. rewrite lookup_app_r by (rewrite length_take; lia). rewrite drop_ge by lia. symmetry. apply lookup_ge_None_2. lia.
Qed.

(** The best pair so far joins two of the plans. *)
Definition good_pair (plans : list (Z * plan)) (b : best_pair) : Prop :=
  ∀ p, bestPlan b = Some p → ∃ pl pr, 0 ≤ rightIdx b < leftIdx b ∧ zget plans (leftIdx b) = Some pl ∧ zget plans (rightIdx b) = Some pr ∧
    leaves p ≡ₚ leaves pl.2 ++ leaves pr.2 ∧ within n (newProblem b).
Definition plans_within (plans : list (Z * plan)) : Prop := ∀ sp, sp ∈ plans → within n sp.1.

Lemma try_pair_ok plans l r st : plans_within plans → 0 ≤ r → r < l → l < Z.of_nat (length plans) → good_pair plans st.1 →
  ∃ st', try_pair g estimateSelectivity set_order plans st (l, r) = Ok st' ∧ good_pair plans st'.1.
Proof.
  intros Hw Hr Hrl Hl Hb. destruct st as [b cache]. unfold try_pair.
  destruct (proj2 (zget_is_Some plans l)) as [[sl pl] El]; [lia|]. destruct (proj2 (zget_is_Some plans r)) as [[sr pr] Er]; [lia|].
  rewrite (load_Some _ _ _ El), (load_Some _ _ _ Er). simpl. pose proof (Hw _ (zget_elem _ _ _ El)) as Hwl. pose proof (Hw _ (zget_elem _ _ _ Er)) as Hwr.
  destruct (isConnected_spec sl sr) as (c & -> & _); [done..|]. simpl. destruct c; [|by eexists].
  destruct (joinPlans_ok sl sr pl pr cache) as (p & s & cache' & -> & Hlv & Hws & _); [done..|]. simpl.
  destruct (dlt _ _); [|by eexists]. eexists. split; [done|]. intros p' [= <-]. exists (sl, pl), (sr, pr). done.
Qed.

Lemma goo_loop_ok fuel plans cache : (length plans ≤ fuel)%nat → plans ≠ [] → plans_within plans →
  ∃ q, goo_loop g estimateSelectivity set_order fuel plans cache = Ok q ∧
    ∀ p, q = Some p → leaves p ≡ₚ flat_map leaves plans.*2.
Proof.
  revert plans cache. induction fuel as [|fuel IH]; intros plans cache Hf Hne Hw; simpl; [destruct plans; simpl in Hf; [done|lia]|].
  destruct (Z.leb_spec (Z.of_nat (length plans)) 1) as [H1|H1].
  { destruct plans as [|[s p] [|]]; [done| |simpl in H1; lia]. exists (Some p). split; [done|]. intros p' [= <-]. simpl. by rewrite app_nil_r. }
  destruct (fold_res_inv (λ st : best_pair * sel_cache, good_pair plans st.1) (try_pair g estimateSelectivity set_order plans)
    (index_pairs (Z.of_nat (length plans))) (no_pair, cache)) as ([b cache'] & -> & Hb); [|by intros p|].
  { intros [l r] st Hlr Hst. apply index_pairs_spec in Hlr as (? & ? & ?). by apply try_pair_ok. }
  simpl in *. destruct (bestPlan b) as [p|] eqn:Ep; [|by exists None].
  destruct (Hb p Ep) as (pl & pr & Hlt & El & Er & Hlv & Hws). rewrite Z.min_r, Z.max_l by lia.
  rewrite <- (erase_lookup (leftIdx b)) in Er by lia. pose proof (erase_perm _ _ _ El) as P1. pose proof (erase_perm _ _ _ Er) as P2.
  set (rest := erase (rightIdx b) (erase (leftIdx b) plans)) in *. rewrite P2 in P1.
  destruct (IH (rest ++ [(newProblem b, p)]) cache') as (q & -> & Hq).
  - apply Permutation_length in P1. simpl in P1. rewrite length_app. simpl. lia.
  - by destruct rest.
  - intros sp [Hsp| ->%list_elem_of_singleton]%elem_of_app; [|done]. apply Hw. rewrite P1. set_solver.
  - exists q. split; [done|]. intros p' Hp'. rewrite (Hq p' Hp'), fmap_app, flat_map_app. simpl. rewrite app_nil_r, Hlv.
    rewrite P1. simpl. by rewrite (Permutation_app_comm (flat_map leaves rest.*2)), <- app_assoc.
Qed.

Lemma find_plan_ok : nodes g ≠ [] →
  ∃ q, find_plan g estimateSelectivity set_order = Ok q ∧
    ∀ p, q = Some p → leaves p ≡ₚ createInitialPlan <$> nodes g.
Proof.
  intros Hne. unfold find_plan. destruct (countSubGraphs_ok 1000) as (c & -> & _). simpl. destruct (c <? 1000).
  - destruct solve_ok as (q & st & -> & Hq). by exists q.
  - unfold goo_solve. destruct (goo_loop_ok (length (nodes g)) ((λ v, (single (node_id v), createInitialPlan v)) <$> nodes g) ∅) as (q & -> & Hq).
    + by rewrite length_fmap.
    + by destruct (nodes g).
    + intros sp (nd & -> & Hnd)%list_elem_of_fmap. simpl. apply within_single. pose proof (node_ids nd Hnd) as [? _]. pose proof nodes_size_le. lia.
    + exists q. split; [done|]. intros p Hp. rewrite (Hq p Hp), <- list_fmap_compose.
      change (flat_map leaves (createInitialPlan <$> nodes g) ≡ₚ createInitialPlan <$> nodes g).
      assert (∀ l, flat_map leaves (createInitialPlan <$> l) = createInitialPlan <$> l) as E; [|by rewrite E].
      intros l. induction l as [|nd l IH]; [done|]. csimpl. by rewrite IH.
Qed.
End search.
End wf.

(** ** The graphs that the builder makes *)

Lemma push_all_spec push n s ns v : 0 ≤ v < Z.of_nat (length ns) → Z.of_nat (length ns) ≤ n →
  zget (push_all push n s ns) v = (if Z.testbit s v then push else id) <$> zget ns v.
Proof.
  intros Hv Hn. unfold push_all.
  assert (∀ l, NoDup l → (∀ i, i ∈ l → 0 ≤ i) → let r := fold_left (λ ns v, if Z.of_nat (length ns) <=? v then ns else alter push (Z.to_nat v) ns) l ns in
    length r = length ns ∧ zget r v = (if bool_decide (v ∈ l) then push else id) <$> zget ns v) as H.
  { intros l Hnd. induction l as [|i l IH] using rev_ind; intros Hl; cbv zeta.
    - split; [done|]. rewrite bool_decide_false by set_solver. simpl. by destruct (zget ns v).
    - apply NoDup_app in Hnd as (Hnd & Hi & _). destruct IH as [Hlen Hz]; [done|set_solver|]. rewrite fold_left_app. simpl.
      set (r := fold_left _ l ns) in *. destruct (Z.leb_spec (Z.of_nat (length r)) i) as [Hge|Hlt].
      + split; [done|]. rewrite Hz, (bool_decide_ext (v ∈ l) (v ∈ l ++ [i])); [done|]. rewrite elem_of_app, list_elem_of_singleton. naive_solver lia.
      + split; [by rewrite length_alter|]. unfold zget in *. assert (0 ≤ i) by (apply Hl; set_solver). destruct (Z.leb_spec 0 v); [|done].
        destruct (decide (v = i)) as [->|Hne].
        * rewrite list_lookup_alter_eq, Hz. rewrite (bool_decide_true (i ∈ l ++ [i])) by set_solver. rewrite (bool_decide_false (i ∈ l)) by (intros ?; by apply (Hi i); [|set_solver]).
          by destruct (ns !! Z.to_nat i).
        * rewrite list_lookup_alter_ne by lia. rewrite Hz, (bool_decide_ext (v ∈ l) (v ∈ l ++ [i])); [done|]. set_solver. }
  destruct (H (members n s)) as [_ ->]; [apply NoDup_filter, NoDup_seqZ|intros i [? _]%members_spec; lia|]. f_equal.
  case_bool_decide as E; [by apply members_spec in E as [_ ->]|]. destruct (Z.testbit s v) eqn:Eb; [|done]. destruct E. apply members_spec. split; [lia|done].
Qed.
Lemma length_push_all push n s ns : length (push_all push n s ns) = length ns.
Proof.
  unfold push_all. generalize (members n s) as l. intros l. revert ns. induction l as [|i l IH]; intros ns; [done|]. simpl. rewrite IH.
  destruct (_ <=? _); [done|apply length_alter].
Qed.
Lemma link_edge_spec id l r g v : 0 ≤ v < nodes_size g → nodes_size g ≤ numNodes g → ∃ nd nd',
  zget (nodes g) v = Some nd ∧ zget (nodes (link_edge id l r g)) v = Some nd' ∧ node_id nd' = node_id nd ∧ node_selections nd' = node_selections nd ∧
  ∀ k, k ∈ edges nd' ↔ k ∈ edges nd ∨ k = id ∧ Z.testbit (Z.lor l r) v = true.
Proof.
  intros Hv Hn. unfold nodes_size in *. destruct (proj2 (zget_is_Some (nodes g) v) Hv) as [nd Hnd]. exists nd.
  unfold link_edge. simpl. rewrite push_all_spec by (rewrite length_push_all; done). rewrite push_all_spec by done. rewrite Hnd. simpl.
  eexists. split; [done|]. split; [done|]. rewrite Z.lor_spec.
  destruct (Z.testbit l v), (Z.testbit r v); simpl; (split; [done|]); (split; [done|]); intros k; set_solver.
Qed.
Lemma nodes_size_link id l r g : nodes_size (link_edge id l r g) = nodes_size g.
Proof. unfold nodes_size, link_edge. simpl. by rewrite !length_push_all. Qed.

(** The nodes that the graph has so far. *)
Definition known (g : QueryGraph) (s : Z) : Prop :=
  ∀ i, Z.testbit s i = true → i < nodes_size g ∨ numNodes g - pseudoNodes g ≤ i < numNodes g.
Record building (g : QueryGraph) : Prop := {
  b_size : nodes_size g + pseudoNodes g ≤ numNodes g;
  b_pseudoNodes : 0 ≤ pseudoNodes g;
  b_mask : normalNodesMask g = if pseudoNodes g =? 0 then None else Some (fillUntil (numNodes g - 1 - pseudoNodes g));
  b_joins : ∀ e, e ∈ joins g → wf_edge (numNodes g) e ∧ known g (join_left e) ∧ known g (join_right e);
  b_created : ∀ e c, e ∈ joins g → createdNode e = Some c → numNodes g - pseudoNodes g ≤ c < numNodes g;
  b_selections : ∀ e, e ∈ selections g → known g (required e);
  b_nodes : ∀ v nd, zget (nodes g) v = Some nd → wf_node g v nd;
  b_pseudos : ∀ v, numNodes g - pseudoNodes g ≤ v < numNodes g → wf_pseudo g v;
}.

Lemma known_within g s : nodes_size g + pseudoNodes g ≤ numNodes g → 0 ≤ pseudoNodes g → known g s → within (numNodes g) s.
Proof. intros ? ? H i [?|?]%H; lia. Qed.
Lemma building_wf g : building g → nodes_size g + pseudoNodes g = numNodes g → wf_graph g.
Proof.
  intros [? ? ? Hj Hc Hs ? Hp] E. split; try done.
  - intros e He. by apply Hj.
  - intros e c He Hec. specialize (Hc e c He Hec). lia.
  - intros e He. apply known_within; auto.
  - intros v Hv. apply Hp. lia.
Qed.
Lemma zget_app_elem {A} (l : list A) x k y : zget (l ++ [x]) k = Some y ↔ zget l k = Some y ∨ k = Z.of_nat (length l) ∧ y = x.
Proof.
  destruct (decide (k < Z.of_nat (length l))) as [Hlt|Hge].
  - rewrite zget_app_l by done. naive_solver lia.
  - destruct (decide (k = Z.of_nat (length l))) as [->|Hne].
    + rewrite zget_app_end. pose proof (zget_lt l (Z.of_nat (length l)) y). naive_solver lia.
    + assert (zget (l ++ [x]) k = None) as ->. { apply zget_None. rewrite length_app. simpl. lia. }
      pose proof (zget_lt l k y). naive_solver lia.
Qed.

Lemma zget_app_iff {A} (l l' : list A) k y :
  zget (l ++ l') k = Some y ↔ zget l k = Some y ∨ zget l' (k - Z.of_nat (length l)) = Some y.
Proof.
  destruct (decide (k < Z.of_nat (length l))) as [Hlt|Hge].
  - rewrite zget_app_l by done. split; [by left|]. intros [?|H]; [done|]. apply zget_lt in H. lia.
  - assert (zget l k = None) as -> by (apply zget_None; lia). unfold zget.
    destruct (Z.leb_spec 0 k), (Z.leb_spec 0 (k - Z.of_nat (length l))); try lia.
    rewrite lookup_app_r by lia. replace (Z.to_nat k - length l)%nat with (Z.to_nat (k - Z.of_nat (length l))) by lia. naive_solver.
Qed.
Lemma zget_singleton {A} (x : A) k y : zget [x] k = Some y ↔ k = 0 ∧ y = x.
Proof.
  split.
  - intros H. pose proof (zget_lt _ _ _ H). simpl in *. assert (k = 0) as -> by lia. by injection H as ->.
  - by intros [-> ->].
Qed.
Lemma length_zget_eq {A} (l : list A) k : (∃ x, zget l k = Some x) ↔ 0 ≤ k < Z.of_nat (length l).
Proof. apply zget_is_Some. Qed.

(** A node after new edges have been linked to it. *)
Definition linked (g g' : QueryGraph) (es : list JoinEdge) : Prop :=
  ∀ v nd', zget (nodes g') v = Some nd' → ∃ nd, zget (nodes g) v = Some nd ∧ node_id nd' = node_id nd ∧ node_selections nd' = node_selections nd ∧
    ∀ k, k ∈ edges nd' ↔ k ∈ edges nd ∨ ∃ e, zget es (k - Z.of_nat (length (joins g))) = Some e ∧ Z.testbit (Z.lor (join_left e) (join_right e)) v = true.
Lemma linked_wf g g' es : building g → linked g g' es → joins g' = joins g ++ es → selections g' = selections g →
  ∀ v nd, zget (nodes g') v = Some nd → wf_node g' v nd.
Proof.
  intros Hb Hl Ej Es v nd' Hnd'. destruct (Hl v nd' Hnd') as (nd & Hnd & Hid & Hsel & Hed). destruct (b_nodes _ Hb v nd Hnd) as (H1 & H2 & H3).
  split; [congruence|]. split; [|by rewrite Hsel, Es]. intros k. rewrite Hed, H2, Ej. setoid_rewrite zget_app_iff. naive_solver.
Qed.
Lemma link_edge_linked g g' id e : nodes_size g ≤ numNodes g → nodes g' = nodes g → numNodes g' = numNodes g → id = Z.of_nat (length (joins g)) →
  linked g (link_edge id (join_left e) (join_right e) g') [e].
Proof.
  intros Hsz En Enum -> v nd' Hnd'. assert (nodes_size g' = nodes_size g) as Es by (unfold nodes_size; by rewrite En).
  pose proof (zget_lt _ _ _ Hnd') as Hv. fold (nodes_size (link_edge (Z.of_nat (length (joins g))) (join_left e) (join_right e) g')) in Hv.
  rewrite nodes_size_link in Hv. destruct (link_edge_spec (Z.of_nat (length (joins g))) (join_left e) (join_right e) g' v) as (nd & nd2 & Hnd & Hnd2 & Hid & Hsel & Hed); [done|lia|].
  assert (nd2 = nd') as -> by congruence. exists nd. rewrite <- En. split_and!; [done..|]. intros k. rewrite Hed. setoid_rewrite zget_singleton.
  split; [intros [?|[-> ?]]; [by left|right; exists e; split; [split; [lia|done]|done]]|intros [?|(e' & [? ->] & ?)]; [by left|right; split; [lia|done]]].
Qed.

Section builder.
Context (analyzePredicate : operator → option (Z * Z)).
Notation addJoinEdge := (addJoinEdge analyzePredicate).
Notation addSelectionEdge := (addSelectionEdge analyzePredicate).
Notation addCreatingJoin := (addCreatingJoin analyzePredicate).

Lemma known_same g g' s : nodes_size g' = nodes_size g → numNodes g' = numNodes g → pseudoNodes g' = pseudoNodes g → known g s → known g' s.
Proof. unfold known. by intros -> -> ->. Qed.


Lemma building_edge g l r op : building g → known g l → known g r → l ≠ 0 → r ≠ 0 → disjoint_sets l r →
  building (addJoinEdge g l r op None).
Proof.
  intros Hb Hl Hr Hl0 Hr0 Hd. pose proof (b_size _ Hb) as Hsz. pose proof (b_pseudoNodes _ Hb).
  set (e := new_edge analyzePredicate l r op None). set (g' := addJoinEdge g l r op None).
  assert (nodes_size g' = nodes_size g) as Es by (unfold g', JoinOrder.addJoinEdge; by rewrite nodes_size_link).
  assert (∀ s, known g s → known g' s) as Hk by (intros s; by apply known_same).
  split; rewrite ?Es; try done.
  - apply (b_mask _ Hb).
  - intros e' [He'| ->%list_elem_of_singleton]%elem_of_app; [destruct (b_joins _ Hb _ He') as (? & ? & ?); auto|].
    split_and!; [|by apply Hk..]. split_and!; simpl; [by apply known_within..|done|done|done].
  - intros e' c [He'| ->%list_elem_of_singleton]%elem_of_app Hc; [by apply (b_created _ Hb e')|done].
  - intros e' He'. apply Hk. by apply (b_selections _ Hb).
  - apply (linked_wf g g' [e]); [done| |done|done]. apply (link_edge_linked g (with_joins (joins g ++ [e]) (pseudoNodeOwner g) g) _ e); [lia|done..].
  - intros v Hv. destruct (b_pseudos _ Hb v Hv) as [e' He']. exists e'. apply zget_app_iff. by left.
Qed.

Lemma building_new n : 0 ≤ n → building (newGraph n).
Proof.
  intros Hn. split; simpl; try done; try (intros; set_solver); [intros v nd Hv; apply zget_lt in Hv; simpl in Hv; lia|lia].
Qed.
Lemma building_node g op : building g → nodes_size g + pseudoNodes g < numNodes g → building (addNode g op).2.
Proof.
  intros Hb Hlt. pose proof (b_pseudoNodes _ Hb). set (g' := (addNode g op).2).
  assert (nodes_size g' = nodes_size g + 1) as Es by (unfold g', nodes_size; simpl; rewrite length_app; simpl; lia).
  assert (∀ s, known g s → known g' s) as Hk by (intros s Hs i [?|?]%Hs; [left; lia|by right]).
  assert (∀ s, known g s → Z.testbit s (nodes_size g) = false) as Hnew.
  { intros s Hs. destruct (Z.testbit s (nodes_size g)) eqn:E; [|done]. destruct (Hs _ E); simpl in *; lia. }
  split; rewrite ?Es; simpl.
  - lia.
  - done.
  - apply (b_mask _ Hb).
  - intros e He. destruct (b_joins _ Hb _ He) as (? & ? & ?); auto.
  - apply (b_created _ Hb).
  - intros e He. apply Hk. by apply (b_selections _ Hb).
  - intros v nd [Hnd|[-> ->]]%zget_app_elem; [by apply (b_nodes _ Hb)|]. split; [done|]. unfold g'. simpl. split; intros k; (split; [set_solver|]).
    + intros (e & He%zget_elem & Hbit). destruct (b_joins _ Hb _ He) as (_ & Hl & Hr). rewrite Z.lor_spec in Hbit.
      fold (nodes_size g) in Hbit. by rewrite (Hnew _ Hl), (Hnew _ Hr) in Hbit.
    + intros (e & He%zget_elem & Hbit). fold (nodes_size g) in Hbit. by rewrite (Hnew _ (b_selections _ Hb _ He)) in Hbit.
  - apply (b_pseudos _ Hb).
Qed.

Lemma building_created g l r op : building g → nodes_size g + pseudoNodes g < numNodes g → known g l → known g r → l ≠ 0 → r ≠ 0 →
  disjoint_sets l r → building (addCreatingJoin g l r op).
Proof.
  intros Hb Hlt Hl Hr Hl0 Hr0 Hd. pose proof (b_size _ Hb) as Hsz. pose proof (b_pseudoNodes _ Hb).
  set (c := numNodes g - (pseudoNodes g + 1)). set (e := new_edge analyzePredicate l r op (Some c)).
  set (e2 := new_edge analyzePredicate (Z.lor l r) (single c) None None).
  assert (0 ≤ nodes_size g) by (unfold nodes_size; lia). assert (0 ≤ c < numNodes g) as Hc by (unfold c; lia).
  set (gp := (addPseudoNode g).2). set (g1 := with_joins (joins g ++ [e]) (pseudoNodeOwner g) gp).
  set (g2 := with_joins (joins g1 ++ [e2]) (<[c := Z.of_nat (length (joins g))]> (pseudoNodeOwner g)) g1).
  set (g3 := link_edge (Z.of_nat (length (joins g1))) (Z.lor l r) (single c) g2).
  change (addCreatingJoin g l r op) with (link_edge (Z.of_nat (length (joins g))) l r g3).
  set (g4 := link_edge (Z.of_nat (length (joins g))) l r g3).
  assert (nodes_size g4 = nodes_size g) as Es by (unfold g4, g3; by rewrite !nodes_size_link).
  assert (joins g4 = (joins g ++ [e]) ++ [e2]) as Ej by done.
  assert (∀ s, known g s → known g4 s) as Hk.
  { intros s Hs i [?|?]%Hs; [left; by rewrite Es|right]. simpl. lia. }
  assert (known g4 (single c)) as Hkc. { intros i Hi. rewrite testbit_single, bool_decide_eq_true in Hi by lia. subst. right. simpl. unfold c. lia. }
  assert (known g4 (Z.lor l r)) as Hklr by (apply Hk; intros i Hi; bits; naive_solver).
  assert (∀ s, known g s → within (numNodes g) s) as Hw by (intros; by apply known_within).
  split; rewrite ?Es, ?Ej.
  - simpl. lia.
  - simpl. lia.
  - simpl. destruct (Z.eqb_spec (pseudoNodes g + 1) 0); [lia|]. done.
  - intros e' [[He'| ->%list_elem_of_singleton]%elem_of_app| ->%list_elem_of_singleton]%elem_of_app.
    + destruct (b_joins _ Hb _ He') as (? & ? & ?); auto.
    + split_and!; [|by apply Hk..]. split_and!; simpl; auto.
    + split_and!; [|done..]. split_and!; simpl; [auto with bits|auto with bits| |apply nonempty_member; exists c; by bits|].
      * apply nonempty_member in Hl0 as [i Hi]. apply nonempty_member. exists i. bits. by left.
      * intros i Hi Hi'. bits. subst. assert (∀ s, known g s → Z.testbit s c = true → False) as Hn; [|naive_solver].
        intros s Hs [?|?]%Hs; unfold c in *; lia.
  - intros e' c' [[He'| ->%list_elem_of_singleton]%elem_of_app| ->%list_elem_of_singleton]%elem_of_app Hc'.
    + pose proof (b_created _ Hb _ _ He' Hc'). simpl. lia.
    + injection Hc' as <-. simpl. unfold c. lia.
    + done.
  - intros e' He'. apply Hk. by apply (b_selections _ Hb).
  - apply (linked_wf g g4 [e; e2]); [done| |by rewrite Ej, <- app_assoc|done].
    intros v nd' Hnd'. assert (0 ≤ v < nodes_size g) as Hv by (rewrite <- Es; by apply zget_lt in Hnd').
    destruct (link_edge_spec (Z.of_nat (length (joins g))) l r g3 v) as (nd3 & nd4 & Hnd3 & Hnd4 & Hid4 & Hsel4 & Hed4);
      [unfold g3; by rewrite nodes_size_link|unfold g3; rewrite nodes_size_link; simpl; unfold nodes_size in *; simpl; lia|].
    assert (nd4 = nd') as -> by (change (zget (nodes g4) v = Some nd4) in Hnd4; congruence).
    destruct (link_edge_spec (Z.of_nat (length (joins g1))) (Z.lor l r) (single c) g2 v) as (nd & nd3' & Hnd & Hnd3' & Hid3 & Hsel3 & Hed3);
      [done|unfold nodes_size in *; simpl; lia|]. assert (nd3' = nd3) as -> by (change (zget (nodes g3) v = Some nd3') in Hnd3'; congruence).
    exists nd. split_and!; [done|congruence|congruence|]. intros k. rewrite Hed4, Hed3.
    assert (Z.of_nat (length (joins g1)) = Z.of_nat (length (joins g)) + 1) as -> by (simpl; rewrite length_app; simpl; lia).
    change [e; e2] with ([e] ++ [e2]). setoid_rewrite zget_app_iff. setoid_rewrite zget_singleton. simpl. split.
    + intros [[?|[-> ?]]|[-> ?]]; [by left|right; exists e2; split; [right; split; [lia|done]|done]|right; exists e; split; [left; split; [lia|done]|done]].
    + intros [?|(e' & [[? ->]|[? ->]] & ?)]; [by left; left|right; split; [lia|done]|left; right; split; [lia|done]].
  - intros v Hv. simpl in Hv. unfold wf_pseudo. rewrite Ej. simpl. destruct (decide (v = c)) as [->|Hne].
    + rewrite lookup_insert_eq. simpl. exists e. apply zget_app_iff. left. apply zget_app_end.
    + rewrite lookup_insert_ne by done. destruct (b_pseudos _ Hb v) as [e' He']; [unfold c in *; lia|]. exists e'.
      apply zget_app_iff. left. apply zget_app_iff. by left.
Qed.

(** Changes that keep the shape of the graph keep it well formed. *)
Lemma building_shape g g' : building g → numNodes g' = numNodes g → pseudoNodes g' = pseudoNodes g → normalNodesMask g' = normalNodesMask g →
  pseudoNodeOwner g' = pseudoNodeOwner g →
  Forall2 (λ e e', join_left e' = join_left e ∧ join_right e' = join_right e ∧ createdNode e' = createdNode e) (joins g) (joins g') →
  Forall2 (λ e e', required e' = required e) (selections g) (selections g') →
  Forall2 (λ nd nd', node_id nd' = node_id nd ∧ edges nd' = edges nd ∧ node_selections nd' = node_selections nd) (nodes g) (nodes g') →
  building g'.
Proof.
  intros Hb En Ep Em Eo Hj Hsl Hn. assert (nodes_size g' = nodes_size g) as Es by (unfold nodes_size; by rewrite (Forall2_length _ _ _ Hn)).
  assert (∀ s, known g s → known g' s) as Hk by (intros s; by apply known_same).
  assert (∀ {A} (P : A → A → Prop) l l' k y, Forall2 P l l' → zget l' k = Some y → ∃ x, zget l k = Some x ∧ P x y) as Hback.
  { intros A P l l' k y HF. unfold zget. destruct (0 <=? k); [|done]. intros Hy. destruct (Forall2_lookup_r _ _ _ _ _ HF Hy) as (x & ? & ?). eauto. }
  assert (∀ {A} (P : A → A → Prop) l l' k x, Forall2 P l l' → zget l k = Some x → ∃ y, zget l' k = Some y ∧ P x y) as Hfwd.
  { intros A P l l' k x HF. unfold zget. destruct (0 <=? k); [|done]. intros Hy. destruct (Forall2_lookup_l _ _ _ _ _ HF Hy) as (y & ? & ?). eauto. }
  split; rewrite ?Es, ?En, ?Ep, ?Em.
  - apply (b_size _ Hb).
  - apply (b_pseudoNodes _ Hb).
  - apply (b_mask _ Hb).
  - intros e' [k He']%elem_zget. destruct (Hback _ _ _ _ _ _ Hj He') as (e & He%zget_elem & E1 & E2 & _).
    destruct (b_joins _ Hb _ He) as (? & ? & ?). unfold wf_edge in *. rewrite E1, E2. auto.
  - intros e' c [k He']%elem_zget Hc. destruct (Hback _ _ _ _ _ _ Hj He') as (e & He%zget_elem & _ & _ & E3). apply (b_created _ Hb e); congruence.
  - intros e' [k He']%elem_zget. destruct (Hback _ _ _ _ _ _ Hsl He') as (e & He%zget_elem & E1). rewrite E1. apply Hk. by apply (b_selections _ Hb).
  - intros v nd' Hnd'. destruct (Hback _ _ _ _ _ _ Hn Hnd') as (nd & Hnd & E1 & E2 & E3). destruct (b_nodes _ Hb v nd Hnd) as (H1 & H2 & H3).
    split; [congruence|]. rewrite E2, E3. split; intros k; [rewrite H2|rewrite H3]; split.
    + intros (e & He & Hbit). destruct (Hfwd _ _ _ _ _ _ Hj He) as (e' & He' & Ea & Eb & _). exists e'. by rewrite Ea, Eb.
    + intros (e' & He' & Hbit). destruct (Hback _ _ _ _ _ _ Hj He') as (e & He & Ea & Eb & _). exists e. by rewrite <- Ea, <- Eb.
    + intros (e & He & Hbit). destruct (Hfwd _ _ _ _ _ _ Hsl He) as (e' & He' & Ea). exists e'. by rewrite Ea.
    + intros (e' & He' & Hbit). destruct (Hback _ _ _ _ _ _ Hsl He') as (e & He & Ea). exists e. by rewrite <- Ea.
  - intros v Hv. unfold wf_pseudo. rewrite Eo. destruct (b_pseudos _ Hb v Hv) as [e He]. destruct (Hfwd _ _ _ _ _ _ Hj He) as (e' & He' & _). eauto.
Qed.
Lemma building_estimate f h g : building g → building (estimate f h g).
Proof.
  intros Hb. apply (building_shape g); try done; apply Forall2_fmap_r, Forall_Forall2_diag, Forall_forall; done.
Qed.

Lemma addSelectionEdge_known g req op : building g → known g req → ∃ g', addSelectionEdge g req op = Ok g' ∧ building g'.
Proof.
  intros Hb Hr. pose proof (b_size _ Hb). pose proof (b_pseudoNodes _ Hb). unfold JoinOrder.addSelectionEdge.
  destruct (_ && _ && _) eqn:Econd.
  - rewrite !andb_true_iff, Z.eqb_eq, !Z.ltb_lt in Econd. destruct Econd as [[Hc Hl] Hr2].
    assert (0 ≤ findFirst (numNodes g) req ∧ findFirst (numNodes g) req < findLast (numNodes g) req) as [Hlo Hlt].
    { unfold count in Hc. unfold findFirst, findLast. pose proof (members_ordered (numNodes g) req) as Ho.
      pose proof (members_spec (numNodes g) req) as Hm. destruct (members (numNodes g) req) as [|a [|b [|]]]; simpl in *; try lia.
      apply StronglySorted_inv in Ho as [_ Ho%Forall_inv]. destruct (proj1 (Hm a) ltac:(set_solver)) as [? _]. lia. }
    unfold set_bit. rewrite !(proj2 (Z.leb_le 0 _)), !(proj2 (Z.ltb_lt _ (numNodes g))) by lia. simpl. eexists. split; [done|].
    rewrite !Z.lor_0_l || idtac. apply building_edge; [done|..].
    + intros i Hi. bits. left. lia.
    + intros i Hi. bits. left. lia.
    + apply nonempty_member. eexists. by bits.
    + apply nonempty_member. eexists. by bits.
    + intros i Hi Hi'. bits. lia.
  - eexists. split; [done|]. clear Econd. match goal with |- building ?x => set (g' := x) end.
    set (e := {| sel_id := Z.of_nat (length (selections g)); required := req; sel_op := op; sel_selectivity := d_one |}).
    assert (nodes_size g' = nodes_size g) as Es by (unfold g', nodes_size; simpl; by rewrite length_push_all).
    assert (∀ s, known g s → known g' s) as Hk by (intros s; by apply known_same).
    split; rewrite ?Es; try done.
    + apply (b_mask _ Hb).
    + intros e' He'. destruct (b_joins _ Hb _ He') as (? & ? & ?); auto.
    + apply (b_created _ Hb).
    + intros e' [He'| ->%list_elem_of_singleton]%elem_of_app; apply Hk; [by apply (b_selections _ Hb)|done].
    + intros v nd' Hnd'. assert (0 ≤ v < nodes_size g) as Hv by (rewrite <- Es; by apply zget_lt in Hnd').
      simpl in Hnd'. rewrite push_all_spec in Hnd' by (unfold nodes_size in *; lia).
      destruct (zget (nodes g) v) as [nd|] eqn:Hnd; [|done]. injection Hnd' as <-. destruct (b_nodes _ Hb v nd Hnd) as (H1 & H2 & H3).
      assert (∀ k, k ∈ node_selections ((if Z.testbit req v then push_selection (Z.of_nat (length (selections g))) else id) nd) ↔
        k ∈ node_selections nd ∨ k = Z.of_nat (length (selections g)) ∧ Z.testbit req v = true) as Hsel by (intros k; destruct (Z.testbit req v); simpl; set_solver).
      split; [by destruct (Z.testbit req v)|]. split; [by destruct (Z.testbit req v)|]. intros k. rewrite Hsel, H3. simpl.
      setoid_rewrite zget_app_elem. split.
      * intros [(e' & ? & ?)|[-> ?]]; [exists e'; auto|exists e; auto].
      * intros (e' & [?|[-> ->]] & ?); [left; eauto|by right].
    + intros v Hv. destruct (b_pseudos _ Hb v Hv) as [e' He']. by exists e'.
Qed.
Lemma addPredicate_known g req op : building g → known g req → ∃ g', addPredicate analyzePredicate g req op = Ok g' ∧ building g'.
Proof.
  intros Hb Hr. unfold addPredicate. destruct (_ && _); [|by apply addSelectionEdge_known]. eexists. split; [done|].
  apply (building_shape g); try done; simpl; [by apply Forall_Forall2_diag, Forall_forall..|].
  apply Forall2_same_length_lookup_2; [by rewrite length_alter|]. intros k nd nd' Hnd Hnd'.
  destruct (decide (k = Z.to_nat (findFirst (numNodes g) req))) as [->|Hne].
  - rewrite list_lookup_alter_eq, Hnd in Hnd'. by injection Hnd' as <-.
  - rewrite list_lookup_alter_ne in Hnd' by done. by simplify_eq.
Qed.

(** The graphs that the builder makes, before and after the estimates. *)
Inductive built : QueryGraph → Prop :=
  | built_new n : 0 ≤ n → built (newGraph n)
  | built_node g op : built g → nodes_size g + pseudoNodes g < numNodes g → built (addNode g op).2
  | built_predicate g ses op g' : built g → known g ses → addPredicate analyzePredicate g ses op = Ok g' → built g'
  | built_join g l r op : built g → known g l → known g r → l ≠ 0 → r ≠ 0 → disjoint_sets l r → built (addJoinEdge g l r op None)
  | built_created g l r op : built g → nodes_size g + pseudoNodes g < numNodes g → known g l → known g r → l ≠ 0 → r ≠ 0 →
      disjoint_sets l r → built (addCreatingJoin g l r op)
  | built_estimate g f h : built g → built (estimate f h g).
Lemma built_building g : built g → building g.
Proof.
  induction 1.
  - by apply building_new.
  - by apply building_node.
  - destruct (addPredicate_known g ses op) as (g2 & ? & ?); [done..|]. by assert (g2 = g') as <- by congruence.
  - by apply building_edge.
  - by apply building_created.
  - by apply building_estimate.
Qed.
Lemma built_wf g : built g → nodes_size g + pseudoNodes g = numNodes g → wf_graph g.
Proof. intros Hb. by apply building_wf, built_building. Qed.
End builder.

(** ** The optimiser *)

(** C14. The optimiser always finishes without touching a missing plan, on every
    graph that the builder makes, with outer, semi and mark joins, hyperedges
    and pseudo nodes; a plan that it finds joins every relation of the query
    exactly once. *)
Theorem join_order_complete `{EC : EquivalenceClasses} analyzePredicate estimateSelectivity set_order g :
  built analyzePredicate g → nodes_size g + pseudoNodes g = numNodes g → nodes g ≠ [] →
  ∃ q, find_plan g estimateSelectivity set_order = Ok q ∧
    ∀ p, q = Some p → leaves p ≡ₚ createInitialPlan <$> nodes g.
Proof. intros Hb Hsz. apply find_plan_ok. by eapply built_wf. Qed.

(** Classes of columns as a function to a representative. *)
Definition label_classes : EquivalenceClasses := {|
  classes := Z → Z;
  no_classes := id;
  unionSets a b m := λ x, if m x =? m b then m a else m x;
  isEquivalent m a b := m a =? m b;
|}.

(** Two relations with a mark join, whose mark a selection reads. *)
Definition relation (i : Z) : operator := Operator i (BaseTableOp "t").
Definition relations (n : Z) (count : Z) : QueryGraph :=
  fold_left (λ g i, (addNode g (relation i)).2) (seqZ 0 count) (newGraph n).
Lemma built_relations analyzePredicate n k : Z.of_nat k ≤ n → let g := relations n (Z.of_nat k) in
  built analyzePredicate g ∧ nodes_size g = Z.of_nat k ∧ pseudoNodes g = 0 ∧ numNodes g = n.
Proof.
  induction k as [|k IH]; intros Hk; cbv zeta; [split; [apply built_new; lia|done]|].
  destruct IH as (Hb & Es & Ep & En); [lia|]. unfold relations. rewrite seqZ_S, fold_left_app. cbn [fold_left].
  fold (relations n (Z.of_nat k)). split; [apply built_node; [done|lia]|]. split; [|done].
  unfold nodes_size in *. simpl. rewrite length_app. simpl. lia.
Qed.
Definition or_empty (r : res QueryGraph) : QueryGraph := match r with Ok g => g | Fault _ => newGraph 0 end.
Definition mark_graph : QueryGraph :=
  or_empty (addPredicate (λ _, None)
    (addCreatingJoin (λ _, None) (relations 3 2) (single 0) (single 1) (Some (Operator 10 MarkJoinOp)))
    (Z.lor (single 1) (single 2)) (Operator 11 SelectionOp)).

Lemma known_subset g s : 0 ≤ s → 0 < nodes_size g → isSubsetOf s (fillUntil (nodes_size g - 1)) = true → known g s.
Proof. intros Hs Hn H%isSubsetOf_spec i Hi%H. bits. left. lia. Qed.
Lemma known_all g s : nodes_size g + pseudoNodes g = numNodes g → 0 ≤ s → 0 < nodes_size g → 0 < numNodes g →
  isSubsetOf s (fillUntil (numNodes g - 1)) = true → known g s.
Proof. intros E Hs Hn Hp H%isSubsetOf_spec i Hi%H. bits. destruct (decide (i < nodes_size g)); [by left|right; lia]. Qed.
Lemma isDisjoint s t : intersects s t = false → disjoint_sets s t.
Proof. apply intersects_false. Qed.

Lemma join_order_complete_witness :
  ∃ q, find_plan (EC := label_classes) mark_graph (λ _ _ _, d_one) id = Ok q ∧
    ∀ p, q = Some p → leaves p ≡ₚ createInitialPlan <$> nodes mark_graph.
Proof.
  apply (join_order_complete (EC := label_classes) (λ _, None)); [|vm_compute; reflexivity|vm_compute; discriminate].
  apply (built_predicate _ (addCreatingJoin (λ _, None) (relations 3 2) (single 0) (single 1) (Some (Operator 10 MarkJoinOp)))
    (Z.lor (single 1) (single 2)) (Operator 11 SelectionOp)); [|apply known_all; vm_compute; (reflexivity || discriminate)|vm_compute; reflexivity].
  apply built_created; [|vm_compute; reflexivity|apply known_subset; vm_compute; (reflexivity || discriminate)..|vm_compute; discriminate|vm_compute; discriminate|
    apply isDisjoint; vm_compute; reflexivity].
  apply (built_relations (λ _, None) 3 2). lia.
Defined.
