(* ===== verification/JoinOrderOptimal.v ===== *)
(** * Join ordering: the recurrence of optimal plans

    On queries whose predicates each join two relations, the recursions of
    DPHyp emit every pair of connected sets with an edge between them, after
    the plans of both are final, so its table solves the recurrence of
    optimal plans; and plans keep the predicates of the query. *)

From stdpp Require Import sorting.
From Stdlib Require Import SpecFloat.
From S2P Require Import Prelude JoinOrder JoinOrderSets JoinOrderProps.
#[local] Open Scope Z_scope.

(** ** The order of doubles *)

(** The comparison of [SFltb] is lexicographic, whatever the operands. *)
Lemma dlt_trans a b c : dlt a b = true → dlt b c = true → dlt a c = true.
Proof.
  unfold dlt, SFltb, SFcompare.
  destruct a as [[]|[]| |[] m1 e1], b as [[]|[]| |[] m2 e2], c as [[]|[]| |[] m3 e3]; try done; intros H1 H2;
    (destruct (Z.compare_spec e1 e2), (Z.compare_spec e2 e3), (Z.compare_spec e1 e3); try done; try (exfalso; lia); subst; try done);
    change (Pos.compare_cont Eq) with Pos.compare in *;
    destruct (Pos.compare_spec m1 m2), (Pos.compare_spec m2 m3), (Pos.compare_spec m1 m3); try done; lia.
Qed.
Lemma dlt_irrefl a : dlt a a = false.
Proof.
  unfold dlt, SFltb, SFcompare. destruct a as [[]|[]| |[] m e]; try done; rewrite Z.compare_refl;
    change (Pos.compare_cont Eq) with Pos.compare; by rewrite Pos.compare_refl.
Qed.

(** What [EquivalenceClasses] promises: after a list of unions, the columns
    that the list connects are equivalent. *)
Class EquivalenceLaws `{EC : EquivalenceClasses} : Prop :=
  equivalent_spec l a b :
    isEquivalent (fold_left (λ m p, unionSets p.1 p.2 m) l no_classes) a b = true ↔ rtsc (λ x y, (x, y) ∈ l) a b.

(** ** Simple graphs: every edge joins two relations *)

Definition adjacent (g : QueryGraph) (u v : Z) : Prop :=
  0 ≤ u ∧ 0 ≤ v ∧ ∃ e, e ∈ joins g ∧
    (join_left e = single u ∧ join_right e = single v ∨ join_left e = single v ∧ join_right e = single u).
Record simple_graph (g : QueryGraph) : Prop := {
  simple_wf : wf_graph g;
  simple_pseudo : pseudoNodes g = 0;
  simple_selections : selections g = [];
  simple_joins : ∀ e, e ∈ joins g → createdNode e = None ∧ ∃ a b, 0 ≤ a ∧ 0 ≤ b ∧ join_left e = single a ∧ join_right e = single b;
}.
(** No cut separates the set. *)
Definition connected (g : QueryGraph) (s : Z) : Prop :=
  s ≠ 0 ∧ within (numNodes g) s ∧
  ∀ a, sub a s → a ≠ 0 → a ≠ s → ∃ u v, Z.testbit a u = true ∧ Z.testbit s v = true ∧ Z.testbit a v = false ∧ adjacent g u v.

(** The operators of a plan, and the columns that their equalities make equal. *)
Fixpoint applied_ops (p : plan) : list (option operator) :=
  match p with Plan op subs additional _ _ _ => op :: additional ++ flat_map applied_ops subs end.
Definition implied (g : QueryGraph) (ops : list (option operator)) : Z → Z → Prop :=
  rtsc (λ x y, ∃ e, e ∈ joins g ∧ join_op e ∈ ops ∧ equality e = Some (x, y)).
(** The predicate of an edge is applied, or follows from those that are. *)
Definition predicate_kept (g : QueryGraph) (ops : list (option operator)) (e : JoinEdge) : Prop :=
  join_op e ∈ ops ∨ ∃ x y, equality e = Some (x, y) ∧ implied g ops x y.

Lemma single_inj a b : 0 ≤ a → 0 ≤ b → single a = single b → a = b.
Proof.
  intros Ha Hb E. assert (Z.testbit (single b) a = true) as H by (rewrite <- E; by bits). by bits.
Qed.
Lemma sub_single a s : 0 ≤ a → sub (single a) s ↔ Z.testbit s a = true.
Proof. intros Ha. split; [intros H; apply H; by bits|]. intros H i Hi. bits. by subst. Qed.
Lemma disjoint_single a s : 0 ≤ a → disjoint_sets s (single a) ↔ Z.testbit s a = false.
Proof.
  intros Ha. rewrite <- not_true_iff_false. split; [intros H Hb; apply (H a); [done|by bits]|]. intros H i Hi Hi'. bits. by subst.
Qed.
Lemma single_ne a : 0 ≤ a → single a ≠ 0.
Proof. intros Ha. apply nonempty_member. exists a. by bits. Qed.
Lemma not_sub a b : ¬ sub a b → ∃ i, Z.testbit a i = true ∧ Z.testbit b i = false.
Proof.
  rewrite <- isSubsetOf_spec. unfold isSubsetOf. rewrite Z.eqb_eq. intros [i Hi]%nonempty_member. exists i. by bits.
Qed.
Lemma bit_dec s i : Z.testbit s i = true ∨ Z.testbit s i = false.
Proof. destruct (Z.testbit s i); auto. Qed.

Section simple.
Context (g : QueryGraph) (Hs : simple_graph g).
Notation n := (numNodes g).
Notation bit s i := (Z.testbit s i = true).
Let Hg : wf_graph g := simple_wf g Hs.

Lemma simple_size : nodes_size g = n.
Proof. pose proof (wf_size _ Hg). pose proof (simple_pseudo _ Hs). lia. Qed.
Lemma adjacent_sym u v : adjacent g u v → adjacent g v u.
Proof. intros (Hu & Hv & e & He & H). split_and!; [done..|]. exists e. tauto. Qed.
Lemma edge_ends e : e ∈ joins g → ∃ a b, 0 ≤ a < n ∧ 0 ≤ b < n ∧ a ≠ b ∧ join_left e = single a ∧ join_right e = single b.
Proof.
  intros He. destruct (simple_joins _ Hs e He) as (_ & a & b & Ha & Hb & El & Er).
  destruct (wf_joins _ Hg e He) as (Hl & Hr & _ & _ & Hd). rewrite El, Er in *. exists a, b.
  assert (a < n) by (apply Hl; by bits). assert (b < n) by (apply Hr; by bits).
  assert (a ≠ b) by (intros ->; apply (Hd b); by bits). done.
Qed.
Lemma adjacent_range u v : adjacent g u v → 0 ≤ u < n ∧ 0 ≤ v < n ∧ u ≠ v.
Proof.
  intros (Hu & Hv & e & He & H). destruct (edge_ends e He) as (a & b & Ha & Hb & Hne & El & Er).
  destruct H as [[H1 H2]|[H1 H2]]; rewrite El in H1; rewrite Er in H2; apply single_inj in H1, H2; try lia.
Qed.
Lemma bool_bit_eq (b : bool) s i : (b = true ↔ bit s i) → b = Z.testbit s i.
Proof. destruct b, (Z.testbit s i); naive_solver. Qed.
Lemma isSubsetOf_single a s : 0 ≤ a → isSubsetOf (single a) s = Z.testbit s a.
Proof. intros Ha. apply bool_bit_eq. by rewrite isSubsetOf_spec, sub_single. Qed.
Lemma intersects_single a s : 0 ≤ a → intersects s (single a) = Z.testbit s a.
Proof.
  intros Ha. destruct (bit_dec s a) as [E|E]; rewrite E; [apply intersects_spec|by apply intersects_false, disjoint_single].
  exists a. split; [done|by bits].
Qed.
Lemma any_single a : 0 ≤ a → any (single a) = true.
Proof. intros. by apply any_spec, single_ne. Qed.

(** The neighbours of a set are the adjacent nodes outside it. *)
Definition neighbour (s x i : Z) : Prop := Z.testbit s i = false ∧ Z.testbit x i = false ∧ ∃ u, bit s u ∧ adjacent g u i.
Lemma simple_neighbors s x : ∃ N, getNeighbors g s x = Ok N ∧ within n N ∧ ∀ i, bit N i ↔ neighbour s x i.
Proof.
  destruct (getNeighbors_spec g Hg s x) as (N & -> & Hw & HN). exists N. split; [done|]. split; [done|]. intros i. rewrite HN.
  transitivity (join_neighbor g s x i).
  { split; [|by left]. intros [?|(e & He & _)]; [done|]. rewrite (simple_selections _ Hs) in He. by apply not_elem_of_nil in He. }
  unfold join_neighbor, join_findNeighbor. split.
  - intros (e & He & _ & Hf). destruct (edge_ends e He) as (a & b & Ha & Hb & Hne & El & Er). rewrite El, Er in Hf.
    rewrite !isSubsetOf_single, !intersects_single, !any_single, !findFirst_single in Hf by lia.
    unfold neighbour, adjacent. destruct (Z.testbit s a) eqn:Ea, (Z.testbit s b) eqn:Eb; simpl in Hf; try done.
    + destruct (Z.testbit x b) eqn:Ex; [done|]. injection Hf as <-. split_and!; [done..|]. exists a. split_and!; [done|lia|lia|]. exists e. auto.
    + destruct (Z.testbit x a) eqn:Ex; [done|]. injection Hf as <-. split_and!; [done..|]. exists b. split_and!; [done|lia|lia|]. exists e. auto.
  - intros (Hsi & Hxi & u & Hu & Hadj). pose proof (adjacent_range _ _ Hadj) as (Hur & Hir & Hne). destruct Hadj as (_ & _ & e & He & Hends).
    exists e. split; [done|]. split; [exists u; split; [done|]; split; [rewrite simple_size; lia|]|].
    + destruct Hends as [[-> ->]|[-> ->]]; bits; auto.
    + destruct Hends as [[-> ->]|[-> ->]]; rewrite !isSubsetOf_single, !intersects_single, !any_single, !findFirst_single by lia;
        by rewrite Hu, Hsi, Hxi.
Qed.
Definition joined (a b : Z) : Prop := ∃ u v, bit a u ∧ bit b v ∧ adjacent g u v.
Lemma simple_isConnected a b : within n a → within n b → joined a b → isConnected g a b = Ok true.
Proof.
  intros Ha Hb (u & v & Hu & Hv & Hadj). destruct (isConnected_spec g Hg a b Ha Hb) as (r & -> & Hr). f_equal. apply Hr.
  assert (∀ s, within n s → not_lonely g s) as Hl. { intros s Hw i Hi%Hw. rewrite simple_size. lia. }
  split_and!; [auto..|]. pose proof (adjacent_range _ _ Hadj) as (Hur & Hvr & _). destruct Hadj as (_ & _ & e & He & Hends).
  exists u. split; [done|]. split; [rewrite simple_size; lia|]. left. exists e. split; [done|]. unfold join_connects.
  destruct Hends as [[-> ->]|[-> ->]]; rewrite !isSubsetOf_single, !any_single by lia; rewrite Hu, Hv; (split; [bits; auto|]); simpl; repeat case_match; done.
Qed.

(** ** Connected sets grow by neighbours *)

Lemma connected_single v : 0 ≤ v < n → connected g (single v).
Proof.
  intros Hv. split_and!; [apply single_ne; lia|auto with bits|]. intros a Ha Ha0 Hne. exfalso. apply Hne, sub_antisym; [done|].
  apply sub_single; [lia|]. apply nonempty_member in Ha0 as [i Hi]. pose proof (Ha _ Hi) as Hi'. bits. by subst.
Qed.
Lemma connected_extend s t : connected g s → within n t → (∀ i, bit t i → ∃ u, bit s u ∧ adjacent g u i) → connected g (Z.lor s t).
Proof.
  intros (Hs0 & Hw & Hcut) Hwt Ht. split_and!.
  - apply nonempty_member in Hs0 as [i Hi]. apply nonempty_member. exists i. bits. by left.
  - auto with bits.
  - intros a Ha Ha0 Hne. set (c := Z.land a s). assert (∀ i, bit c i ↔ bit a i ∧ bit s i) as Hc by (intros; unfold c; by bits).
    destruct (decide (c = 0)) as [E|Hc0]; [|destruct (decide (c = s)) as [E|Hcs]].
    + apply nonempty_member in Ha0 as [v Hv]. assert (bit (Z.lor s t) v) as Hv' by auto. bits. destruct Hv' as [Hsv|Htv].
      { assert (bit c v) as Hcv by (by apply Hc). rewrite E in Hcv. by apply not_member_0 in Hcv. }
      destruct (Ht v Htv) as (u & Hu & Hadj). exists v, u. split_and!; [done|by bits; left| |by apply adjacent_sym].
      destruct (bit_dec a u) as [Hau|]; [|done]. assert (bit c u) as Hcu by (by apply Hc). rewrite E in Hcu. by apply not_member_0 in Hcu.
    + assert (¬ sub (Z.lor s t) a) as [v [Hv Hav]]%not_sub by (intros ?; by apply Hne, sub_antisym).
      bits. destruct Hv as [Hsv|Htv].
      { rewrite <- E in Hsv. apply Hc in Hsv as [Hav' _]. congruence. }
      destruct (Ht v Htv) as (u & Hu & Hadj). exists u, v. split_and!; [|by bits; right|done|done].
      rewrite <- E in Hu. by apply Hc.
    + destruct (Hcut c) as (u & v & Hu & Hv & Hcv & Hadj); [by intros i [_ ?]%Hc|done..|]. exists u, v.
      split_and!; [by apply Hc in Hu as [? _]|by bits; left| |done]. destruct (bit_dec a v) as [Hav|]; [|done].
      assert (bit c v) by (by apply Hc). congruence.
Qed.
(** A connected proper superset contains a neighbour. *)
Lemma connected_neighbour s t : connected g t → sub s t → s ≠ 0 → s ≠ t → ∃ u v, bit s u ∧ bit t v ∧ Z.testbit s v = false ∧ adjacent g u v.
Proof. intros (_ & _ & H). apply H. Qed.

(** ** The sets that the recursions visit *)

Definition nbs (s x : Z) : Z := match getNeighbors g s x with Ok N => N | Fault _ => 0 end.
Definition subsets (s : Z) : list Z := match iterateSubsets n s with Ok l => l | Fault _ => [] end.
Fixpoint visits (fuel : nat) (s x : Z) : list Z :=
  match fuel with
  | O => []
  | S fuel =>
      let N := nbs s x in
      (Z.lor s <$> subsets N) ++ (subsets N ≫= λ t, visits fuel (Z.lor s t) (Z.lor x N))
  end.

Lemma nbs_ok s x : getNeighbors g s x = Ok (nbs s x).
Proof. unfold nbs. by destruct (simple_neighbors s x) as (N & -> & _). Qed.
Lemma nbs_within s x : within n (nbs s x).
Proof. unfold nbs. by destruct (simple_neighbors s x) as (N & -> & ? & _). Qed.
Lemma nbs_spec s x i : bit (nbs s x) i ↔ neighbour s x i.
Proof. unfold nbs. by destruct (simple_neighbors s x) as (N & -> & _ & ?). Qed.
Lemma subsets_ok s : within n s → iterateSubsets n s = Ok (subsets s).
Proof. intros Hw. unfold subsets. by destruct (iterateSubsets_spec n s Hw) as (l & -> & _). Qed.
Lemma subsets_spec s t : within n s → t ∈ subsets s ↔ t ≠ 0 ∧ sub t s.
Proof. intros Hw. unfold subsets. by destruct (iterateSubsets_spec n s Hw) as (l & -> & _ & ?). Qed.
Lemma subsets_ordered s : within n s → StronglySorted Z.lt (subsets s).
Proof. intros Hw. unfold subsets. by destruct (iterateSubsets_spec n s Hw) as (l & -> & ? & _). Qed.
Lemma nbs_disjoint s x : disjoint_sets (nbs s x) x.
Proof. intros i (_ & Hx & _)%nbs_spec Hi. congruence. Qed.
Lemma nbs_nonempty s x t : t ∈ subsets (nbs s x) → nbs s x ≠ 0.
Proof.
  intros [Ht0 Ht]%subsets_spec; [|apply nbs_within]. apply nonempty_member in Ht0 as [i Hi]. apply nonempty_member. eauto.
Qed.

Definition grown (s x t : Z) : Prop :=
  sub s t ∧ s ≠ t ∧ within n t ∧ (∀ i, bit t i → Z.testbit s i = false → Z.testbit x i = false).
(** A visited set adds adjacent nodes to a smaller connected set. *)
Definition extends (s t : Z) : Prop :=
  ∃ c d, t = Z.lor c d ∧ sub s c ∧ connected g c ∧ d ≠ 0 ∧ within n d ∧ ∀ i, bit d i → Z.testbit c i = false ∧ ∃ u, bit c u ∧ adjacent g u i.

Lemma subset_adds s x t : within n s → t ∈ subsets (nbs s x) → grown s x (Z.lor s t).
Proof.
  intros Hw [Ht0 Ht]%subsets_spec; [|apply nbs_within]. pose proof (nbs_within s x) as HwN. split_and!.
  - intros i Hi. bits. by left.
  - intros E. apply nonempty_member in Ht0 as [i Hi]. pose proof (Ht i Hi) as (Hsi & _)%nbs_spec.
    assert (bit (Z.lor s t) i) as Hb by (bits; by right). rewrite <- E in Hb. congruence.
  - apply within_lor; [done|]. by eapply within_sub.
  - intros i Hi Hsi. bits. destruct Hi as [?|Hi%Ht]; [congruence|]. by apply nbs_spec in Hi as (_ & ? & _).
Qed.
Lemma visits_grown fuel s x t : within n s → t ∈ visits fuel s x → grown s x t.
Proof.
  revert s x. induction fuel as [|fuel IH]; intros s x Hw; simpl; [set_solver|].
  intros [(a & -> & Ha)%list_elem_of_fmap|(a & Ht & Ha)%list_elem_of_bind]%elem_of_app; [by apply subset_adds|].
  destruct (subset_adds _ _ _ Hw Ha) as (Hsub & Hne & Hw' & Hx). destruct (IH _ _ Hw' Ht) as (Hsub' & Hne' & Hwt & Hx'). split_and!.
  - intros i Hi. auto.
  - intros <-. apply Hne. by apply sub_antisym.
  - done.
  - intros i Hi Hsi. destruct (bit_dec (Z.lor s a) i) as [Hb|Hb]; [auto|]. specialize (Hx' i Hi Hb).
    rewrite Z.lor_spec, orb_false_iff in Hx'. apply Hx'.
Qed.
Lemma visits_extends fuel s x t : connected g s → t ∈ visits fuel s x → extends s t.
Proof.
  revert s x. induction fuel as [|fuel IH]; intros s x Hc; simpl; [set_solver|].
  assert (∀ a, a ∈ subsets (nbs s x) → a ≠ 0 ∧ within n a ∧ ∀ i, bit a i → Z.testbit s i = false ∧ ∃ u, bit s u ∧ adjacent g u i) as Hsub.
  { intros a [Ha0 Ha]%subsets_spec; [|apply nbs_within]. split_and!; [done|eapply within_sub, Ha; apply nbs_within|].
    intros i (Hsi & _ & Hu)%Ha%nbs_spec. by split. }
  intros [(a & -> & Ha)%list_elem_of_fmap|(a & Ht & Ha)%list_elem_of_bind]%elem_of_app; apply Hsub in Ha as (Ha0 & Hwa & Ha).
  - exists s, a. split_and!; [done|by intros i|done..].
  - assert (connected g (Z.lor s a)) as Hca by (apply connected_extend; [done..|]; intros i Hi; by apply Ha).
    destruct (IH _ _ Hca Ht) as (c & d & -> & Hc' & ?).
    exists c, d. split; [done|]. split; [|done]. intros i Hi. apply Hc'. bits. by left.
Qed.
Lemma visits_complete fuel s x t : (left_over g x < fuel)%nat → connected g t → s ≠ 0 → grown s x t → t ∈ visits fuel s x.
Proof.
  revert s x. induction fuel as [|fuel IH]; intros s x Hf Hc Hs0 (Hsub & Hne & Hw & Hx); [lia|]. simpl.
  destruct (connected_neighbour s t Hc Hsub Hs0 Hne) as (u & v & Hu & Hv & Hsv & Hadj).
  set (N := nbs s x). set (d := Z.land t N). pose proof (nbs_within s x) as HwN. fold N in HwN.
  assert (∀ i, bit d i ↔ bit t i ∧ bit N i) as Hd by (intros; unfold d; by bits).
  assert (bit d v) as Hdv. { apply Hd. split; [done|]. apply nbs_spec. split_and!; [done|by apply Hx|eauto]. }
  assert (d ∈ subsets N) as Hin. { apply subsets_spec; [done|]. split; [apply nonempty_member; eauto|]. by intros i [_ ?]%Hd. }
  apply elem_of_app. destruct (decide (Z.lor s d = t)) as [E|E]; [left; apply list_elem_of_fmap; eauto|right].
  apply list_elem_of_bind. exists d. split; [|done]. apply IH.
  - pose proof (left_over_lt g x N HwN (nbs_nonempty _ _ _ Hin) (nbs_disjoint s x)). lia.
  - done.
  - apply nonempty_member in Hs0 as [i Hi]. apply nonempty_member. exists i. bits. by left.
  - split_and!; [|done|done|].
    + intros i Hi. bits. destruct Hi as [?|[? _]%Hd]; auto.
    + intros i Hi Hni. rewrite Z.lor_spec, orb_false_iff in *. destruct Hni as [Hsi Hdi]. split; [by apply Hx|].
      destruct (bit_dec N i) as [HNi|]; [|done]. assert (bit d i) by (by apply Hd). congruence.
Qed.

(** No set is visited after one of its supersets, and none twice. *)
Definition not_before (a b : Z) : Prop := ¬ sub b a.
Lemma not_before_lt a b : 0 ≤ a → a < b → not_before a b.
Proof. intros Ha Hlt Hsub. apply sub_le in Hsub; [lia|done]. Qed.
Lemma visits_ordered fuel s x : within n s → StronglySorted not_before (visits fuel s x).
Proof.
  revert s x. induction fuel as [|fuel IH]; intros s x Hw; simpl; [constructor|].
  set (N := nbs s x). pose proof (nbs_within s x) as HwN. fold N in HwN.
  assert (∀ i, bit N i → Z.testbit s i = false) as HNs by (by intros i (? & _)%nbs_spec).
  assert (∀ a b t u, sub a N → sub b N → a < b → sub (Z.lor s a) t → sub (Z.lor s b) u →
    (∀ i, bit t i → Z.testbit (Z.lor s a) i = false → Z.testbit N i = false) → not_before t u) as Hlt.
  { intros a b t u Ha Hb Hab Hat Hbu Ht Hut. assert (sub b a) as Hba.
    { intros i Hi. destruct (bit_dec a i) as [|Hai]; [done|]. pose proof (HNs i (Hb i Hi)) as Hsi.
      assert (bit u i) as Hui by (apply Hbu; bits; by right). apply Hut in Hui. assert (Z.testbit N i = false); [|rewrite (Hb i Hi) in *; done].
      apply Ht; [done|]. by rewrite Z.lor_spec, Hsi, Hai. }
    apply sub_le in Hba; [lia|]. by eapply within_nonneg, within_sub. }
  assert (∀ a, a ∈ subsets N → sub a N ∧ within n (Z.lor s a)) as Hin.
  { intros a [_ Ha]%subsets_spec; [|done]. split; [done|]. apply within_lor; [done|by eapply within_sub]. }
  apply StronglySorted_app_2.
  - intros t u (a & -> & Ha)%list_elem_of_fmap (b & Hu & Hb)%list_elem_of_bind Hsub.
    destruct (Hin a Ha) as [HaN Hwa]. destruct (Hin b Hb) as [HbN Hwb]. destruct (visits_grown _ _ _ _ Hwb Hu) as (Hbu & Hbne & Hwu & Hux).
    apply Hbne, sub_antisym; [done|]. intros i Hi. destruct (bit_dec (Z.lor s b) i) as [|Hbi]; [done|].
    pose proof (Hux i Hi Hbi) as Hxi. rewrite Z.lor_spec, orb_false_iff in Hxi, Hbi. apply Hsub in Hi. bits.
    destruct Hi as [Hi|Hi%HaN]; destruct Hxi, Hbi; congruence.
  - apply ordered_fmap. eapply ordered_impl, subsets_ordered; [|done]. intros a b Ha Hb Hab. simpl.
    destruct (Hin a Ha) as [HaN Hwa]. destruct (Hin b Hb) as [HbN Hwb]. apply (Hlt a b); [done..|by intros i|by intros i|]. intros i Hi Hni. congruence.
  - apply ordered_bind; [|intros a Ha; by apply IH, Hin]. eapply ordered_impl, subsets_ordered; [|done]. intros a b Ha Hb Hab t u Ht Hu. simpl in *.
    destruct (Hin a Ha) as [HaN Hwa]. destruct (Hin b Hb) as [HbN Hwb].
    destruct (visits_grown _ _ _ _ Hwa Ht) as (Hat & _ & _ & Htx). destruct (visits_grown _ _ _ _ Hwb Hu) as (Hbu & _ & _ & Hux).
    apply (Hlt a b); [done..|]. intros i Hi Hni. specialize (Htx i Hi Hni). rewrite Z.lor_spec, orb_false_iff in Htx. apply Htx.
Qed.

(** ** The pairs that are emitted *)

Notation first s := (findFirst n s).
(** Two disjoint connected sets with an edge between them; the smaller first
    node is in the first set. *)
Definition csg_cmp (a b : Z) : Prop :=
  connected g a ∧ connected g b ∧ disjoint_sets a b ∧ first a < first b ∧ joined a b.

Definition all_visits (s x : Z) : list Z := visits (recursion_fuel g) s x.
Definition csgs_of (v : Z) : list Z := single v :: all_visits (single v) (fillUntil v).
Definition csgs : list Z := reverse (seqZ 0 n) ≫= csgs_of.
Definition cmps (a : Z) : list Z :=
  let x := Z.lor a (fillUntil (first a)) in
  reverse (members n (nbs a x)) ≫= λ pos, single pos :: all_visits (single pos) x.

Lemma connected_first a : connected g a → bit a (first a) ∧ (∀ i, bit a i → first a ≤ i) ∧ 0 ≤ first a < n.
Proof.
  intros (H0 & Hw & _). pose proof (findFirst_spec n a Hw H0) as [? ?]. pose proof (findFirst_range n a Hw H0). done.
Qed.
Lemma all_visits_complete s x t : connected g t → s ≠ 0 → grown s x t → t ∈ all_visits s x.
Proof. apply visits_complete. unfold recursion_fuel. pose proof (left_over_le g x). lia. Qed.
Lemma grown_single v x t : connected g t → bit t v → t ≠ single v → (∀ i, bit t i → i ≠ v → Z.testbit x i = false) → grown (single v) x t.
Proof.
  intros (_ & Hw & _) Hv Hne Hx. pose proof (testbit_nonneg _ _ Hv). split_and!; [by apply sub_single|done|done|].
  intros i Hi Hvi. apply Hx; [done|]. intros ->. rewrite testbit_single, bool_decide_eq_false in Hvi by done. done.
Qed.

Lemma csgs_of_spec v a : 0 ≤ v < n → a ∈ csgs_of v ↔ connected g a ∧ first a = v.
Proof.
  intros Hv. assert (within n (single v)) as Hw by auto with bits. pose proof (connected_single v Hv) as Hc. unfold csgs_of. rewrite elem_of_cons. split.
  - intros [->|Ha]; [split; [done|by apply findFirst_single]|].
    destruct (visits_grown _ _ _ _ Hw Ha) as (Hsub & _ & Hwa & Hx). destruct (visits_extends _ _ _ _ Hc Ha) as (c & d & -> & Hsc & Hcc & _ & Hwd & Hd).
    split; [apply connected_extend; [done..|]; intros i Hi; by apply Hd|]. apply findFirst_eq; [done|apply Hsub; by bits|].
    intros j Hj. destruct (bit_dec (single v) j) as [E|E]; [bits; lia|]. pose proof (testbit_nonneg _ _ Hj).
    specialize (Hx j Hj E). rewrite testbit_fillUntil, bool_decide_eq_false in Hx by lia. lia.
  - intros [Ha <-]. destruct (decide (a = single (first a))) as [|Hne]; [by left|right]. destruct (connected_first a Ha) as (Hf & Hmin & Hr).
    apply all_visits_complete; [done|apply single_ne; lia|]. apply grown_single; [done..|]. intros i Hi Hne'. specialize (Hmin i Hi).
    rewrite testbit_fillUntil, bool_decide_eq_false by lia. lia.
Qed.
Lemma csgs_spec a : a ∈ csgs ↔ connected g a.
Proof.
  unfold csgs. rewrite list_elem_of_bind. split.
  - intros (v & Ha & Hv). rewrite elem_of_reverse, elem_of_seqZ in Hv. apply csgs_of_spec in Ha; [tauto|lia].
  - intros Ha. destruct (connected_first a Ha) as (_ & _ & Hr). exists (first a). rewrite elem_of_reverse, elem_of_seqZ, csgs_of_spec by lia.
    split; [done|lia].
Qed.
(** Connected subgraphs come before their supersets, and those with larger
    nodes come first. *)
Lemma csgs_ordered : StronglySorted (λ a b, not_before a b ∧ first b ≤ first a) csgs.
Proof.
  unfold csgs. apply ordered_bind.
  - eapply ordered_impl, ordered_reverse, ordered_seqZ. simpl. intros v w Hv Hw Hvw a b Ha Hb.
    rewrite elem_of_reverse, elem_of_seqZ in Hv, Hw. apply csgs_of_spec in Ha as [Ha Hfa], Hb as [Hb Hfb]; [|lia..]. split; [|lia].
    intros Hsub. destruct (connected_first b Hb) as (Hbit & _ & _). apply Hsub in Hbit. apply (connected_first a Ha) in Hbit. lia.
  - intros v Hv. rewrite elem_of_reverse, elem_of_seqZ in Hv. assert (within n (single v)) as Hw by (apply within_single; lia).
    assert (∀ a, a ∈ csgs_of v → first a = v) as Hf by (intros a Ha; apply csgs_of_spec in Ha as [_ ?]; [done|lia]).
    eapply (ordered_impl not_before); [intros a b Ha Hb Hab; split; [done|]; rewrite (Hf a Ha), (Hf b Hb); lia|].
    constructor; [by apply visits_ordered|]. apply Forall_forall. intros b Hb Hsub.
    destruct (visits_grown _ _ _ _ Hw Hb) as (Hsub' & Hne & _). by apply Hne, sub_antisym.
Qed.

Lemma cmps_spec a b : connected g a → b ∈ cmps a ↔ csg_cmp a b.
Proof.
  intros Ha. destruct (connected_first a Ha) as (Hf & Hmin & Hr). unfold cmps. set (x := Z.lor a (fillUntil (first a))).
  assert (∀ i, 0 ≤ i → Z.testbit x i = false ↔ Z.testbit a i = false ∧ first a < i) as Hx.
  { intros i Hi. unfold x. rewrite Z.lor_spec, orb_false_iff, testbit_fillUntil, bool_decide_eq_false by lia. naive_solver lia. }
  rewrite list_elem_of_bind. split.
  - intros (pos & Hb & Hpos). rewrite elem_of_reverse, members_within in Hpos by apply nbs_within.
    apply nbs_spec in Hpos as (Hap & Hxp & u & Hu & Hadj). pose proof (adjacent_range _ _ Hadj) as (_ & Hp & _).
    assert (within n (single pos)) as Hw by auto with bits. pose proof (connected_single pos Hp) as Hc.
    assert (connected g b ∧ bit b pos ∧ ∀ i, bit b i → Z.testbit x i = false) as (Hcb & Hbp & Hbx).
    { apply elem_of_cons in Hb as [->|Hb]; [split_and!; [done|by bits|intros i Hi; bits; by subst]|].
      destruct (visits_grown _ _ _ _ Hw Hb) as (Hsub & _ & _ & Hgx). destruct (visits_extends _ _ _ _ Hc Hb) as (c & d & -> & Hsc & Hcc & _ & Hwd & Hd).
      split_and!; [apply connected_extend; [done..|]; intros i Hi; by apply Hd|apply Hsub; by bits|].
      intros i Hi. destruct (bit_dec (single pos) i) as [E|E]; [bits; by subst|auto]. }
    assert (∀ i, bit b i → Z.testbit a i = false ∧ first a < i) as Hba.
    { intros i Hi. apply Hx; [by eapply testbit_nonneg|auto]. }
    split_and!; [done..| | |exists u, pos; done].
    + intros i Hi Hbi. destruct (Hba i Hbi). congruence.
    + apply Hba. by apply connected_first.
  - intros (_ & Hb & Hd & Hlt & u & v & Hu & Hv & Hadj). destruct (connected_first b Hb) as (Hfb & Hminb & Hrb).
    assert (∀ i, bit b i → Z.testbit x i = false) as Hbx.
    { intros i Hi. apply Hx; [by eapply testbit_nonneg|]. specialize (Hminb i Hi). split; [|lia]. destruct (bit_dec a i) as [|]; [|done]. exfalso. by eapply Hd. }
    exists v. rewrite elem_of_reverse, members_within by apply nbs_within. pose proof (testbit_nonneg _ _ Hv). split.
    + apply elem_of_cons. destruct (decide (b = single v)) as [|Hne]; [by left|right].
      apply all_visits_complete; [done|by apply single_ne|]. apply grown_single; auto.
    + apply nbs_spec. split_and!; [|by apply Hbx|eauto]. destruct (bit_dec a v) as [|]; [|done]. exfalso. by eapply Hd.
Qed.

(** A connected set with several nodes loses a node other than its first and
    stays connected. *)
Lemma connected_split a : connected g a → a ≠ single (first a) →
  ∃ c w, a = Z.lor c (single w) ∧ first c = first a ∧ csg_cmp c (single w).
Proof.
  intros Ha Hne. destruct (connected_first a Ha) as (Hf & Hmin & Hr). set (v := first a) in *.
  assert (a ∈ csgs_of v) as Hin by (apply csgs_of_spec; done). apply elem_of_cons in Hin as [|Hin]; [done|].
  destruct (visits_extends _ _ _ _ (connected_single v Hr) Hin) as (c & d & E & Hsc & Hcc & [w Hw]%nonempty_member & Hwd & Hd).
  pose proof (testbit_nonneg _ _ Hw) as Hw0. set (d' := Z.ldiff d (single w)).
  assert (∀ i, bit d' i ↔ bit d i ∧ i ≠ w) as Hd'.
  { intros i. unfold d'. rewrite Z.ldiff_spec, andb_true_iff, negb_true_iff, testbit_single, bool_decide_eq_false by done. done. }
  assert (connected g (Z.lor c d')) as Hcd.
  { apply connected_extend; [done| |]; [intros i [? _]%Hd'; auto|]. intros i [Hi _]%Hd'. by apply Hd. }
  assert (bit c v) as Hcv by (apply Hsc; bits; done).
  assert (first (Z.lor c d') = v) as Hfirst.
  { apply findFirst_eq; [apply Hcd|bits; by left|]. intros j Hj. apply Hmin. rewrite E. bits. destruct Hj as [|[? _]%Hd']; auto. }
  destruct (Hd w Hw) as (Hcw & u & Hu & Hadj). assert (w < n) as Hwn by auto.
  exists (Z.lor c d'), w. split_and!; [|done|].
  - rewrite E. apply set_ext. intros i. bits. rewrite Hd'. destruct (decide (i = w)) as [->|]; naive_solver.
  - split_and!; [done|by apply connected_single| | |].
    + apply disjoint_single; [done|]. apply not_true_iff_false. intros Hb. bits. destruct Hb as [?|[_ ?]%Hd']; [congruence|done].
    + rewrite Hfirst, findFirst_single by done. assert (v ≤ w) by (apply Hmin; rewrite E; bits; by right). assert (v ≠ w) by congruence. lia.
    + exists u, w. split_and!; [by bits; left|by bits|done].
Qed.

(** ** The recursions emit these pairs *)

Lemma fold_res_ext {A S} (I : S → Prop) (f f' : S → A → res S) l st : I st →
  (∀ a st, a ∈ l → I st → f st a = f' st a ∧ ∀ st', f' st a = Ok st' → I st') → fold_res f l st = fold_res f' l st.
Proof.
  revert st. induction l as [|a l IH]; intros st Hst Hf; [done|]. simpl. destruct (Hf a st) as [-> Hk]; [set_solver|done|].
  destruct (f' st a) as [st'|]; [|done]. apply IH; [auto|]. intros. apply Hf; [set_solver|done].
Qed.
Lemma fold_res_fmap {A B S} (f : S → B → res S) (h : A → B) l st : fold_res f (h <$> l) st = fold_res (λ st a, f st (h a)) l st.
Proof. revert st. induction l as [|a l IH]; intros st; [done|]. csimpl. destruct (f st (h a)); [apply IH|done]. Qed.
Lemma fold_res_bind {A B S} (f : S → B → res S) (h : A → list B) l st :
  fold_res f (l ≫= h) st = fold_res (λ st a, fold_res f (h a) st) l st.
Proof. revert st. induction l as [|a l IH]; intros st; [done|]. simpl. rewrite fold_res_app. destruct (fold_res f (h a) st); [apply IH|done]. Qed.

Section search.
Context `{EC : EquivalenceClasses} (estimateSelectivity : option operator → Z → Z → double).
Context (set_order : list (option operator) → list (option operator)).
Notation emitCsgCmp := (emitCsgCmp g estimateSelectivity set_order).
Notation emitCsg := (emitCsg g estimateSelectivity set_order).
Notation enumerateCmpRec := (enumerateCmpRec g estimateSelectivity set_order).
Notation enumerateCsgRec := (enumerateCsgRec g estimateSelectivity set_order).
Notation searching := (searching g).
Notation has st s := (is_Some (dpTable st !! s)).

Definition emit_all (st : search) (a : Z) : res search := fold_res (λ st b, emitCsgCmp st a b) (cmps a) st.

Lemma emit_list st a l : searching st → has st a → (∀ b, b ∈ l → has st b ∧ disjoint_sets a b) →
  ∃ st', fold_res (λ st b, emitCsgCmp st a b) l st = Ok st' ∧ after g st st'.
Proof.
  intros Hst Ha Hl. apply after_step; [|by split; [|apply kept_refl]]. intros b st' Hb [Hs' Hk']. destruct (Hl b Hb).
  apply emitCsgCmp_ok; auto.
Qed.

Lemma run_cmp fuel st a s2 x : (left_over g x < fuel)%nat → searching st → has st a → within n a → within n s2 → sub a x →
  disjoint_sets a s2 → joined a s2 → (∀ b, b ∈ visits fuel s2 x → has st b) →
  enumerateCmpRec fuel st a s2 x = fold_res (λ st b, emitCsgCmp st a b) (visits fuel s2 x) st.
Proof.
  revert st s2 x. induction fuel as [|fuel IH]; intros st s2 x Hf Hst Ha Hwa Hw Hx Hd Hj Hv; [lia|]. simpl.
  rewrite nbs_ok. simpl. pose proof (nbs_within s2 x) as HwN. rewrite subsets_ok by done. simpl in *. set (N := nbs s2 x) in *.
  assert (∀ t, t ∈ subsets N → within n (Z.lor s2 t) ∧ disjoint_sets a (Z.lor s2 t) ∧ joined a (Z.lor s2 t)) as Hgrow.
  { intros t [_ Ht]%subsets_spec; [|done]. split_and!.
    - apply within_lor; [done|by eapply within_sub].
    - intros i Hi Hi'. bits. destruct Hi' as [?|Hi'%Ht]; [by eapply Hd|]. by eapply nbs_disjoint, Hx.
    - destruct Hj as (u & v & Hu & Hv' & Hadj). exists u, v. split_and!; [done|by bits; left|done]. }
  assert (∀ t, t ∈ subsets N → has st (Z.lor s2 t)) as Hhas by (intros t Ht; apply Hv, elem_of_app; left; apply list_elem_of_fmap; eauto).
  rewrite fold_res_app, fold_res_fmap.
  rewrite (fold_res_ext (after g st) _ (λ st t, emitCsgCmp st a (Z.lor s2 t))).
  - destruct (emit_list st a (Z.lor s2 <$> subsets N) Hst Ha) as (st1 & E1 & Hst1 & Hk1).
    { intros b (t & -> & Ht)%list_elem_of_fmap. split; [by apply Hhas|by apply Hgrow]. }
    rewrite fold_res_fmap in E1. rewrite E1. simpl. rewrite fold_res_bind.
    apply (fold_res_ext (after g st1)); [by split; [|apply kept_refl]|]. intros t st' Ht [Hs' Hk'].
    destruct (Hgrow t Ht) as (Hwt & Hdt & Hjt). pose proof (left_over_lt g x N HwN (nbs_nonempty _ _ _ Ht) (nbs_disjoint s2 x)).
    assert (∀ b, b ∈ visits fuel (Z.lor s2 t) (Z.lor x N) → has st' b) as Hvt.
    { intros b Hb. apply Hk', Hk1, Hv, elem_of_app. right. apply list_elem_of_bind. eauto. }
    split; [apply IH; auto; [lia|]; intros i Hi; bits; auto|]. intros st'' E. destruct (emit_list st' a (visits fuel (Z.lor s2 t) (Z.lor x N)) Hs') as (st3 & E3 & Hs3 & Hk3).
    + auto.
    + intros b Hb. split; [auto|]. destruct (visits_grown _ _ _ _ Hwt Hb) as (_ & _ & _ & Hgx). intros i Hi Hbi.
      destruct (bit_dec (Z.lor s2 t) i) as [Hti|Hti]; [by eapply Hdt|]. specialize (Hgx i Hbi Hti). apply Hx in Hi.
      rewrite Z.lor_spec, Hi in Hgx. done.
    + assert (st'' = st3) as -> by congruence. split; [done|]. by eapply kept_trans.
  - by split; [|apply kept_refl].
  - intros t st' Ht [Hs' Hk']. destruct (Hgrow t Ht) as (Hwt & Hdt & Hjt). split.
    + rewrite (proj2 (contains_spec st' (Z.lor s2 t))) by auto. rewrite simple_isConnected by done. done.
    + intros st'' E. destruct (emitCsgCmp_ok g Hg estimateSelectivity set_order st' a (Z.lor s2 t)) as (st3 & E3 & Hs3 & Hk3); [auto..|].
      assert (st'' = st3) as -> by congruence. split; [done|]. by eapply kept_trans.
Qed.

Lemma run_emitCsg st a : searching st → connected g a → has st a → (∀ b, b ∈ cmps a → has st b) → emitCsg st a = emit_all st a.
Proof.
  intros Hst Hc Ha Hb. pose proof Hc as (_ & Hwa & _). unfold JoinOrder.emitCsg, emit_all, cmps.
  set (x := Z.lor a (fillUntil (first a))). rewrite nbs_ok. cbn [res_bind]. rewrite fold_res_bind.
  apply (fold_res_ext (after g st)); [by split; [|apply kept_refl]|]. intros pos st' Hpos [Hs' Hk'].
  assert (∀ b, b ∈ single pos :: all_visits (single pos) x → has st' b ∧ disjoint_sets a b) as Hall.
  { intros b Hbp. assert (b ∈ cmps a) as Hin by (unfold cmps; fold x; apply list_elem_of_bind; eauto). split; [by apply Hk', Hb|].
    by apply (cmps_spec a b Hc) in Hin as (_ & _ & ? & _). }
  rewrite elem_of_reverse, members_within in Hpos by apply nbs_within.
  apply nbs_spec in Hpos as (Hap & Hxp & u & Hu & Hadj). pose proof (adjacent_range _ _ Hadj) as (_ & Hp & _).
  assert (joined a (single pos)) as Hj by (exists u, pos; split_and!; [done|by bits|done]).
  assert (within n (single pos)) as Hwp by auto with bits.
  destruct (Hall (single pos)) as [Hsp Hdp]; [set_solver|].
  destruct (emitCsgCmp_ok g Hg estimateSelectivity set_order st' a (single pos)) as (st1 & E1 & Hs1 & Hk1); [auto..|].
  split.
  - rewrite simple_isConnected by done. cbn [res_bind]. cbn [fold_res]. rewrite E1. cbn [res_bind]. apply run_cmp; auto.
    + unfold recursion_fuel. pose proof (left_over_le g x). lia.
    + intros i Hi. unfold x. bits. by left.
    + intros b Hbv. apply Hk1, Hall. apply elem_of_cons. by right.
  - intros st'' E. destruct (emit_list st' a (single pos :: all_visits (single pos) x) Hs') as (st3 & E3 & Hs3 & Hk3); [auto|done|].
    assert (st'' = st3) as -> by congruence. split; [done|]. by eapply kept_trans.
Qed.

(** The plan of a pair does not depend on the caches. *)
Definition join_plan (a b : Z) (pa pb : plan) : plan :=
  match joinPlans g estimateSelectivity set_order a b (Some pa) (Some pb) ∅ with Ok (p, _, _) => p | Fault _ => pa end.

Lemma simple_joining s1 s2 p1 p2 : jn_s (fold_left apply_join_edge (joins g) (initial_joining g s1 s2 p1 p2)) = Z.lor s1 s2.
Proof.
  apply (fold_inv (λ j, jn_s j = Z.lor s1 s2)); [|done]. intros e j He Hj. unfold apply_join_edge. destruct (join_connects _ _ _); [|done].
  simpl. rewrite (proj1 (simple_joins _ Hs e He)). unfold apply_op. by repeat case_match.
Qed.
Lemma simple_joinPlans a b pa pb cache : within n a → within n b →
  joinPlans g estimateSelectivity set_order a b (Some pa) (Some pb) cache = Ok (join_plan a b pa pb, Z.lor a b, cache).
Proof.
  intros Ha Hb. destruct (joinPlans_ok g Hg estimateSelectivity set_order a b pa pb ∅ Ha Hb) as (p & s & c & E & _).
  unfold join_plan. rewrite E. revert E. unfold joinPlans. rewrite (simple_selections _ Hs). simpl.
  rewrite simple_joining. destruct (build_plan _ _); [|done]. simpl. by intros [= -> <- <-].
Qed.
Definition improve (t : gmap Z (option plan)) (s : Z) (p : plan) : gmap Z (option plan) :=
  match t !! s with
  | Some (Some old) => if dlt (getCost p) (getCost old) then <[s := Some p]> t else t
  | _ => <[s := Some p]> t
  end.
Lemma emit_effect st a b pa pb : searching st → dpTable st !! a = Some (Some pa) → dpTable st !! b = Some (Some pb) →
  emitCsgCmp st a b = Ok {| dpTable := improve (dpTable st) (Z.lor a b) (join_plan a b pa pb); caches := caches st |}.
Proof.
  intros [Hst _] Ea Eb. destruct (Hst _ _ Ea) as (pa' & _ & Hwa & _). destruct (Hst _ _ Eb) as (pb' & _ & Hwb & _).
  unfold JoinOrder.emitCsgCmp, fetch, improve. rewrite Ea, Eb. rewrite simple_joinPlans by done. cbn [res_bind].
  destruct (dpTable st !! Z.lor a b) as [[old|]|] eqn:E; [|by destruct (Hst _ _ E) as (? & ? & _)|done].
  simpl. by destruct (dlt _ _).
Qed.
Lemma improve_has t s p u : is_Some (t !! u) ∨ u = s → is_Some (improve t s p !! u).
Proof.
  intros Hu. unfold improve. destruct (decide (u = s)) as [->|Hne].
  - destruct (t !! s) as [[old|]|] eqn:E; [destruct (dlt _ _)|..]; rewrite ?lookup_insert_eq, ?E; eauto.
  - destruct Hu as [Hu|]; [|done]. destruct (t !! s) as [[old|]|]; [destruct (dlt _ _)|..]; by rewrite ?lookup_insert_ne by done.
Qed.
Lemma emitCsgCmp_has st a b st' : searching st → has st a → has st b → emitCsgCmp st a b = Ok st' → has st' (Z.lor a b).
Proof.
  intros Hst [qa Ea] [qb Eb]. destruct (proj1 Hst _ _ Ea) as (pa & -> & _). destruct (proj1 Hst _ _ Eb) as (pb & -> & _).
  rewrite (emit_effect _ _ _ _ _ Hst Ea Eb). intros [= <-]. simpl. apply improve_has. by right.
Qed.

(** The table after the first connected subgraphs have been processed. *)
Definition processed (pre : list Z) (st : search) : Prop :=
  searching st ∧ ∀ a b, a ∈ pre → b ∈ cmps a → has st (Z.lor a b).

Lemma has_single st v : searching st → 0 ≤ v < n → has st (single v).
Proof. intros [_ H] Hv. apply H. by rewrite simple_size. Qed.
Lemma processed_has pre a post st s : csgs = pre ++ a :: post → processed pre st → connected g s →
  (∀ c, c ∈ csgs → sub c s → c ≠ s → first c = first s → c ∈ pre) → has st s.
Proof.
  intros E [Hst Hp] Hsc Hc. destruct (decide (s = single (first s))) as [->|Hne].
  { destruct (connected_first s Hsc) as (_ & _ & Hr). by apply has_single. }
  destruct (connected_split s Hsc Hne) as (c & w & -> & Hfc & Hcw). pose proof Hcw as (Hcc & Hcs & Hd & _).
  apply Hp; [|by apply cmps_spec]. apply Hc; [by apply csgs_spec|intros i Hi; bits; by left| |done].
  intros Ec. destruct Hcs as (Hw0 & _). apply nonempty_member in Hw0 as [i Hi]. apply (Hd i); [|done]. rewrite Ec. bits. by right.
Qed.
Lemma processed_available pre a post st : csgs = pre ++ a :: post → processed pre st →
  connected g a ∧ has st a ∧ ∀ b, b ∈ cmps a → has st b.
Proof.
  intros E Hp. assert (connected g a) as Ha by (apply csgs_spec; rewrite E; set_solver). split; [done|].
  pose proof csgs_ordered as Ho. rewrite E in Ho. apply StronglySorted_app in Ho as (_ & _ & Ho).
  apply StronglySorted_inv in Ho as [_ Ho]. rewrite Forall_forall in Ho.
  assert (∀ c, c ∈ csgs → c ≠ a → c ∉ post → c ∈ pre) as Hpre.
  { intros c Hc Hne Hnp. rewrite E in Hc. set_solver. }
  split.
  - apply (processed_has pre a post); [done..|]. intros c Hc Hsub Hne _. apply Hpre; [done..|]. intros Hpost.
    destruct (Ho c Hpost) as [Hnb _]. by apply Hnb.
  - intros b Hb. apply (cmps_spec a b Ha) in Hb as (_ & Hb & Hd & Hlt & _). apply (processed_has pre a post); [done..|].
    intros c Hc Hsub Hne Hf. apply Hpre; [done|intros ->; lia|]. intros Hpost. destruct (Ho c Hpost) as [_ Hle]. lia.
Qed.
Lemma processed_step pre a post st : csgs = pre ++ a :: post → processed pre st →
  ∃ st', emit_all st a = Ok st' ∧ processed (pre ++ [a]) st'.
Proof.
  intros E Hp. destruct (processed_available _ _ _ _ E Hp) as (Hc & Ha & Hb). destruct Hp as [Hst Hp].
  assert (∀ l, (∀ b, b ∈ l → b ∈ cmps a) → ∃ st', fold_res (λ st b, emitCsgCmp st a b) l st = Ok st' ∧ after g st st' ∧ ∀ b, b ∈ l → has st' (Z.lor a b)) as H.
  { intros l. induction l as [|b l IH] using rev_ind; intros Hl.
    - exists st. split; [done|]. split; [by split; [|apply kept_refl]|]. set_solver.
    - destruct IH as (st1 & E1 & [Hs1 Hk1] & Hl1); [set_solver|]. rewrite fold_res_app, E1. simpl.
      assert (b ∈ cmps a) as Hbc by (apply Hl; set_solver). pose proof (proj1 (cmps_spec a b Hc) Hbc) as (_ & (_ & Hwb & _) & Hd & _).
      assert (∃ st2, emitCsgCmp st1 a b = Ok st2 ∧ searching st2 ∧ kept st1 st2 ∧ has st2 (Z.lor a b)) as (st2 & E2 & Hs2 & Hk2 & Hab).
      { destruct (emitCsgCmp_ok g Hg estimateSelectivity set_order st1 a b) as (st2 & E2 & Hs2 & Hk2); [auto..|]. exists st2. split_and!; [done..|].
        revert E2. apply emitCsgCmp_has; auto. }
      rewrite E2. exists st2. split; [done|]. split; [split; [done|by eapply kept_trans]|].
      intros b' [?| ->%list_elem_of_singleton]%elem_of_app; [by apply Hk2, Hl1|done]. }
  destruct (H (cmps a)) as (st' & E' & [Hs' Hk'] & Hl'); [done|]. exists st'. split; [done|]. split; [done|].
  intros c b [?| ->%list_elem_of_singleton]%elem_of_app Hb'; [apply Hk'; auto|auto].
Qed.

Lemma processed_list pre l post st : csgs = pre ++ l ++ post → processed pre st →
  ∃ st', fold_res emit_all l st = Ok st' ∧ processed (pre ++ l) st'.
Proof.
  revert pre st. induction l as [|a l IH]; intros pre st E Hp; simpl.
  - exists st. by rewrite app_nil_r.
  - destruct (processed_step pre a (l ++ post) st E Hp) as (st1 & -> & H1). simpl.
    destruct (IH (pre ++ [a]) st1) as (st' & -> & H'); [by rewrite <- app_assoc|done|]. exists st'. by rewrite <- app_assoc in H'.
Qed.
(** A loop whose steps process consecutive parts of the list. *)
Lemma run_blocks {A} (h : A → list Z) (f : search → A → res search) l pre post st :
  csgs = pre ++ (l ≫= h) ++ post → processed pre st →
  (∀ a pre' post' st', a ∈ l → csgs = pre' ++ h a ++ post' → processed pre' st' → f st' a = fold_res emit_all (h a) st') →
  fold_res f l st = fold_res emit_all (l ≫= h) st.
Proof.
  revert pre st. induction l as [|a l IH]; intros pre st E Hp Hf; [done|]. simpl in *. rewrite <- app_assoc in E. rewrite fold_res_app.
  rewrite (Hf a pre ((l ≫= h) ++ post)) by (done || set_solver). destruct (processed_list _ _ _ _ E Hp) as (st1 & -> & H1). simpl.
  apply (IH (pre ++ h a)); [by rewrite <- app_assoc|done|]. intros. eapply Hf; [set_solver|done..].
Qed.
Lemma bind_singleton {A B} (f : A → B) l : (l ≫= λ a, [f a]) = f <$> l.
Proof. induction l as [|a l IH]; [done|]. csimpl. by rewrite <- IH. Qed.

Lemma run_csg fuel st s x pre post : (left_over g x < fuel)%nat → csgs = pre ++ visits fuel s x ++ post → processed pre st →
  enumerateCsgRec fuel st s x = fold_res emit_all (visits fuel s x) st.
Proof.
  revert st s x pre post. induction fuel as [|fuel IH]; intros st s x pre post Hf E Hp; [lia|]. simpl in *.
  rewrite nbs_ok. simpl. pose proof (nbs_within s x) as HwN. rewrite subsets_ok by done. simpl. set (N := nbs s x) in *.
  rewrite fold_res_app. rewrite <- app_assoc in E. rewrite <- bind_singleton in E |- *.
  rewrite (run_blocks (λ t, [Z.lor s t]) _ (subsets N) pre _ st E Hp).
  - destruct (processed_list _ _ _ _ E Hp) as (st1 & -> & H1). simpl.
    apply (run_blocks _ _ (subsets N) (pre ++ (subsets N ≫= λ t, [Z.lor s t])) post); [by rewrite <- app_assoc|done|].
    intros t pre' post' st' Ht E' Hp'. eapply IH; [|done|done].
    pose proof (left_over_lt g x N HwN (nbs_nonempty _ _ _ Ht) (nbs_disjoint s x)). lia.
  - intros t pre' post' st' Ht E' Hp'. destruct (processed_available _ _ _ _ E' Hp') as (Hc & Ha & Hb).
    rewrite (proj2 (contains_spec st' (Z.lor s t)) Ha). cbn [fold_res]. rewrite run_emitCsg; [by destruct (emit_all st' (Z.lor s t))|apply Hp'|done..].
Qed.

(** The nodes are numbered in order. *)
Lemma node_id_seq : node_id <$> nodes g = seqZ 0 n.
Proof.
  apply list_eq. intros k. rewrite list_lookup_fmap. destruct (nodes g !! k) as [nd|] eqn:E; simpl.
  - pose proof (lookup_lt_Some _ _ _ E). assert (zget (nodes g) (Z.of_nat k) = Some nd) as Hz.
    { unfold zget. by rewrite (proj2 (Z.leb_le 0 (Z.of_nat k))), Nat2Z.id by lia. }
    destruct (wf_nodes _ Hg _ _ Hz) as (-> & _). symmetry. apply lookup_seqZ. pose proof simple_size. unfold nodes_size in *. lia.
  - apply lookup_ge_None_1 in E. symmetry. apply lookup_seqZ_ge. pose proof simple_size. unfold nodes_size in *. lia.
Qed.
Lemma csgs_nodes : csgs = reverse (nodes g) ≫= λ nd, csgs_of (node_id nd).
Proof.
  unfold csgs. rewrite <- node_id_seq, <- fmap_reverse. generalize (reverse (nodes g)) as l. intros l.
  induction l as [|nd l IH]; [done|]. csimpl. by rewrite IH.
Qed.
Lemma run_solve : ∃ st, fold_res (solve_node g estimateSelectivity set_order) (reverse (nodes g)) (initial_search g) = Ok st ∧
  fold_res emit_all csgs (initial_search g) = Ok st.
Proof.
  assert (processed [] (initial_search g)) as H0 by (split; [by apply initial_searching|set_solver]).
  destruct (processed_list [] csgs [] _ (eq_sym (app_nil_r _)) H0) as (st & E & _). exists st. split; [|done].
  rewrite <- E, csgs_nodes. apply (run_blocks _ _ _ [] []); [by rewrite app_nil_r, csgs_nodes|done|].
  intros nd pre post st' Hnd E' Hp. unfold solve_node, csgs_of. unfold csgs_of in E'. simpl in E'.
  destruct (processed_available _ _ _ _ E' Hp) as (Hc & Ha & Hb). rewrite run_emitCsg; [|apply Hp|done..].
  destruct (processed_step _ _ _ _ E' Hp) as (st1 & E1 & H1). cbn [fold_res]. rewrite E1. cbn [res_bind].
  apply (run_csg _ _ _ _ (pre ++ [single (node_id nd)]) post); [|by rewrite <- app_assoc|done]. unfold recursion_fuel. pose proof (left_over_le g (fillUntil (node_id nd))). lia.
Qed.

(** ** The table solves the recurrence of optimal plans *)

Definition pairs : list (Z * Z) := csgs ≫= λ a, (a,.) <$> cmps a.
Definition emit_pair (st : search) (p : Z * Z) : res search := emitCsgCmp st p.1 p.2.
Lemma pairs_spec a b : (a, b) ∈ pairs ↔ csg_cmp a b.
Proof.
  unfold pairs. rewrite list_elem_of_bind. split.
  - intros (a' & (b' & [= <- <-] & Hb)%list_elem_of_fmap & Ha). apply csgs_spec in Ha. by apply cmps_spec.
  - intros H. exists a. assert (connected g a) as Ha by apply H. split; [|by apply csgs_spec].
    apply list_elem_of_fmap. exists b. split; [done|]. by apply cmps_spec.
Qed.
Lemma fold_pairs st : fold_res emit_all csgs st = fold_res emit_pair pairs st.
Proof.
  unfold pairs. rewrite fold_res_bind. apply (fold_res_ext (λ _, True)); [done|]. intros a st' _ _. split; [|done].
  by rewrite fold_res_fmap.
Qed.
Lemma csg_cmp_ne a b : csg_cmp a b → Z.lor a b ≠ a ∧ Z.lor a b ≠ b.
Proof.
  intros ((Ha0 & _) & (Hb0 & _) & Hd & _). apply nonempty_member in Ha0 as [i Hi], Hb0 as [j Hj]. split; intros E.
  - apply (Hd j); [rewrite <- E; bits; by right|done].
  - apply (Hd i); [done|rewrite <- E; bits; by left].
Qed.
Lemma csg_cmp_first a b : csg_cmp a b → first (Z.lor a b) = first a.
Proof.
  intros (Ha & Hb & Hd & Hlt & _). destruct (connected_first a Ha) as (Hfa & Hma & _). destruct (connected_first b Hb) as (Hfb & Hmb & _).
  apply findFirst_eq; [apply within_lor; [apply Ha|apply Hb]|bits; by left|]. intros j Hj. bits.
  destruct Hj as [Hj|Hj]; [auto|]. specialize (Hmb j Hj). lia.
Qed.
(** A pair is emitted after the plans of its parts are final. *)
Lemma pairs_ordered : StronglySorted (λ p q, Z.lor q.1 q.2 ≠ p.1 ∧ Z.lor q.1 q.2 ≠ p.2) pairs.
Proof.
  unfold pairs. apply ordered_bind.
  - eapply ordered_impl, csgs_ordered. intros c a Hc Ha [Hnb Hle] p q (d & -> & Hd)%list_elem_of_fmap (b & -> & Hb)%list_elem_of_fmap. simpl.
    apply csgs_spec in Hc, Ha. apply cmps_spec in Hd, Hb; [|done..]. split; intros E.
    + apply Hnb. rewrite <- E. intros i Hi. bits. by left.
    + pose proof (csg_cmp_first _ _ Hb) as Hf. rewrite E in Hf. destruct Hd as (_ & _ & _ & Hlt & _). lia.
  - intros a Ha. apply csgs_spec in Ha. apply ordered_fmap. simpl.
    assert (∀ l, (∀ b, b ∈ l → b ∈ cmps a) → StronglySorted (λ b c, Z.lor a c ≠ a ∧ Z.lor a c ≠ b) l) as H; [|by apply H].
    intros l Hl. induction l as [|b l IH]; constructor; [apply IH; intros; apply Hl; set_solver|]. apply Forall_forall. intros c Hc.
    assert (csg_cmp a c) as Hac by (apply cmps_spec; [done|apply Hl; set_solver]). split; [by apply csg_cmp_ne|]. intros E.
    pose proof (csg_cmp_first _ _ Hac) as Hf. rewrite E in Hf. assert (csg_cmp a b) as (_ & _ & _ & Hlt & _) by (apply cmps_spec; [done|apply Hl; set_solver]). lia.
Qed.

(** ** Counting *)

Lemma csgs_NoDup : NoDup csgs.
Proof.
  pose proof csgs_ordered as Ho. induction Ho as [|a l _ IH Ha]; constructor; [|done]. rewrite Forall_forall in Ha.
  intros Hin. destruct (Ha a Hin) as [Hnb _]. apply Hnb. by intros i.
Qed.
(** [c] is the count after [k] more sets, with the sets past the maximum in any number. *)
Definition counted (maxCount cnt : Z) (k : nat) (c : Z) : Prop :=
  if cnt + Z.of_nat k <? maxCount then c = cnt + Z.of_nat k else maxCount ≤ c.
Lemma counted_loop {A} (f : Z → A → res Z) (w : A → nat) maxCount l cnt :
  (∀ a c, a ∈ l → c < maxCount → ∃ c', f c a = Ok c' ∧ counted maxCount c (w a) c') →
  (∀ a c, a ∈ l → maxCount ≤ c → ∃ c', f c a = Ok c' ∧ maxCount ≤ c') →
  ∃ c, fold_res f l cnt = Ok c ∧ counted maxCount cnt (sum_list_with w l) c.
Proof.
  intros H1 H2. unfold counted in *. revert cnt. induction l as [|a l IH]; intros cnt; simpl.
  - exists cnt. split; [done|]. rewrite Z.add_0_r. destruct (Z.ltb_spec cnt maxCount); lia.
  - assert (∃ c', f cnt a = Ok c' ∧ (cnt < maxCount → counted maxCount cnt (w a) c') ∧ (maxCount ≤ cnt → maxCount ≤ c')) as (c & -> & Hc1 & Hc2).
    { destruct (decide (cnt < maxCount)) as [Hlt|Hge].
      - destruct (H1 a cnt) as (c & -> & Hc); [set_solver|done|]. exists c. split; [done|]. split; [done|lia].
      - destruct (H2 a cnt) as (c & -> & Hc); [set_solver|lia|]. exists c. split; [done|]. split; [lia|done]. }
    simpl. destruct (IH (λ b c' Hb, H1 b c' ltac:(set_solver)) (λ b c' Hb, H2 b c' ltac:(set_solver)) c) as (c' & -> & Hc'). exists c'. split; [done|].
    unfold counted in Hc1. destruct (Z.ltb_spec (cnt + Z.of_nat (w a)) maxCount), (Z.ltb_spec (c + Z.of_nat (sum_list_with w l)) maxCount),
      (Z.ltb_spec (cnt + Z.of_nat (w a + sum_list_with w l)) maxCount); lia.
Qed.
Lemma length_bind {A B} (f : A → list B) l : length (l ≫= f) = sum_list_with (λ a, length (f a)) l.
Proof. induction l as [|a l IH]; [done|]. csimpl. by rewrite length_app, IH. Qed.
Lemma sum_list_S {A} (f : A → nat) l : sum_list_with (λ a, S (f a)) l = (length l + sum_list_with f l)%nat.
Proof. induction l as [|a l IH]; [done|]. simpl. rewrite IH. lia. Qed.

Lemma count_visits fuel s x cnt maxCount : (left_over g x < fuel)%nat →
  ∃ c, countSubGraphsRec g fuel s x cnt maxCount = Ok c ∧ counted maxCount cnt (length (visits fuel s x)) c.
Proof.
  revert s x cnt. induction fuel as [|fuel IH]; intros s x cnt Hf; [lia|]. simpl.
  rewrite nbs_ok. simpl. pose proof (nbs_within s x) as HwN. rewrite subsets_ok by done. simpl. set (N := nbs s x) in *.
  rewrite length_app, length_fmap, length_bind, <- sum_list_S. apply counted_loop; intros t c Ht Hc.
  - pose proof (left_over_lt g x N HwN (nbs_nonempty _ _ _ Ht) (nbs_disjoint s x)). destruct (Z.leb_spec maxCount (c + 1)) as [Hge|Hlt].
    + exists (c + 1). split; [done|]. unfold counted. destruct (Z.ltb_spec (c + Z.of_nat (S (length (visits fuel (Z.lor s t) (Z.lor x N))))) maxCount); lia.
    + destruct (IH (Z.lor s t) (Z.lor x N) (c + 1)) as (c' & -> & Hc'); [lia|]. exists c'. split; [done|]. unfold counted in *.
      by replace (c + Z.of_nat (S (length (visits fuel (Z.lor s t) (Z.lor x N))))) with (c + 1 + Z.of_nat (length (visits fuel (Z.lor s t) (Z.lor x N)))) by lia.
  - exists (c + 1). rewrite (proj2 (Z.leb_le maxCount (c + 1))) by lia. split; [done|lia].
Qed.
(** The optimiser counts the connected subgraphs exactly up to its bound. *)
Lemma countSubGraphs_spec maxCount : ∃ c, countSubGraphs g maxCount = Ok c ∧ counted maxCount 0 (length csgs) c.
Proof.
  unfold countSubGraphs. rewrite csgs_nodes, length_bind. apply counted_loop; intros nd c Hnd Hc; unfold csgs_of; cbn [length].
  - destruct (Z.leb_spec maxCount (c + 1)) as [Hge|Hlt].
    + exists (c + 1). split; [done|]. unfold counted. case_match eqn:E; [apply Z.ltb_lt in E; lia|lia].
    + destruct (count_visits (recursion_fuel g) (single (node_id nd)) (fillUntil (node_id nd)) (c + 1) maxCount) as (c' & -> & Hc').
      { unfold recursion_fuel. pose proof (left_over_le g (fillUntil (node_id nd))). lia. }
      exists c'. split; [done|]. unfold counted in *. fold (all_visits (single (node_id nd)) (fillUntil (node_id nd))) in Hc'.
      by replace (c + Z.of_nat (S (length (all_visits (single (node_id nd)) (fillUntil (node_id nd)))))) with
        (c + 1 + Z.of_nat (length (all_visits (single (node_id nd)) (fillUntil (node_id nd))))) by lia.
  - exists (c + 1). rewrite (proj2 (Z.leb_le maxCount (c + 1))) by lia. split; [done|lia].
Qed.

Definition plan_at (st : search) (s : Z) (p : plan) : Prop := dpTable st !! s = Some (Some p).
(** The plan kept for the pair's set is no dearer than the join of the plans
    kept for its parts. *)
Definition no_dearer (st : search) (a b : Z) : Prop :=
  ∃ pa pb p, plan_at st a pa ∧ plan_at st b pb ∧ plan_at st (Z.lor a b) p ∧ dlt (getCost (join_plan a b pa pb)) (getCost p) = false.
Definition justified (pre : list (Z * Z)) (st : search) (s : Z) (p : plan) : Prop :=
  (∃ nd, nd ∈ nodes g ∧ s = single (node_id nd) ∧ p = createInitialPlan nd) ∨
  (∃ a b pa pb, (a, b) ∈ pre ∧ s = Z.lor a b ∧ plan_at st a pa ∧ plan_at st b pb ∧ p = join_plan a b pa pb).
Definition table (pre : list (Z * Z)) (st : search) : Prop :=
  searching st ∧ (∀ a b, (a, b) ∈ pre → no_dearer st a b) ∧ ∀ s p, plan_at st s p → justified pre st s p.

Lemma improve_spec t s p : (∀ q, t !! s = Some q → ∃ old, q = Some old) →
  ∃ p', improve t s p !! s = Some (Some p') ∧ dlt (getCost p) (getCost p') = false ∧
    (p' = p ∨ t !! s = Some (Some p')) ∧ (∀ old, t !! s = Some (Some old) → p' = old ∨ dlt (getCost p') (getCost old) = true).
Proof.
  intros Ht. unfold improve. destruct (t !! s) as [q|] eqn:E.
  - destruct (Ht q eq_refl) as [old ->]. destruct (dlt (getCost p) (getCost old)) eqn:Ed.
    + exists p. rewrite lookup_insert_eq. split_and!; [done|apply dlt_irrefl|by left|]. intros old' [= <-]. by right.
    + exists old. split_and!; [done|done|by right|]. intros old' [= <-]. by left.
  - exists p. rewrite lookup_insert_eq. split_and!; [done|apply dlt_irrefl|by left|done].
Qed.
Lemma improve_ne t s p u : u ≠ s → improve t s p !! u = t !! u.
Proof. intros Hne. unfold improve. repeat case_match; by rewrite ?lookup_insert_ne by done. Qed.

Lemma initial_table : table [] (initial_search g).
Proof.
  split; [by apply initial_searching|]. split; [set_solver|]. intros s p Hp. left. revert s p Hp. unfold plan_at. simpl.
  generalize (nodes g) as l. intros l. induction l as [|nd l IH] using rev_ind; intros s p; [simpl; by rewrite lookup_empty|].
  rewrite fold_left_app. simpl. case_match.
  - intros (nd' & ? & ?)%IH. exists nd'. set_solver.
  - destruct (decide (single (node_id nd) = s)) as [<-|Hne]; [rewrite lookup_insert_eq|rewrite lookup_insert_ne by done].
    + intros [= <-]. exists nd. set_solver.
    + intros (nd' & ? & ?)%IH. exists nd'. set_solver.
Qed.

Lemma table_step pre a b st : csg_cmp a b → table pre st → has st a → has st b →
  (∀ p, p ∈ pre → csg_cmp p.1 p.2 ∧ Z.lor a b ≠ p.1 ∧ Z.lor a b ≠ p.2) →
  ∃ st', emitCsgCmp st a b = Ok st' ∧ table (pre ++ [(a, b)]) st'.
Proof.
  intros Hab (Hst & Hd & Hj) Ha Hb Hpre. pose proof (csg_cmp_ne a b Hab) as [Hna Hnb]. pose proof Hab as (_ & _ & Hdis & _).
  destruct (emitCsgCmp_ok g Hg estimateSelectivity set_order st a b Hst Ha Hb Hdis) as (st' & E & Hst' & _). exists st'. split; [done|].
  destruct Ha as [qa Ea], Hb as [qb Eb]. destruct (proj1 Hst _ _ Ea) as (pa & -> & _). destruct (proj1 Hst _ _ Eb) as (pb & -> & _).
  rewrite (emit_effect _ _ _ _ _ Hst Ea Eb) in E. injection E as <-. set (s := Z.lor a b) in *. set (new := join_plan a b pa pb) in *.
  assert (∀ u, u ≠ s → improve (dpTable st) s new !! u = dpTable st !! u) as Hne by (intros; by apply improve_ne).
  destruct (improve_spec (dpTable st) s new) as (p' & Ep' & Hle & Hfrom & Hold).
  { intros q Hq. destruct (proj1 Hst _ _ Hq) as (p & -> & _). eauto. }
  split; [done|]. split.
  - intros c d [Hcd|[= -> ->]%list_elem_of_singleton]%elem_of_app.
    + destruct (Hd c d Hcd) as (pc & pd & p & Hc & Hdd & Hp & Hmin). destruct (Hpre _ Hcd) as (_ & Hsc & Hsd). simpl in *.
      destruct (decide (Z.lor c d = s)) as [Es|Hcds].
      * exists pc, pd, p'. unfold plan_at in *. simpl. rewrite Es in *. rewrite !Hne by done. split_and!; [done..|].
        destruct (Hold p Hp) as [->|Hlt]; [done|]. apply not_true_iff_false. intros Hlt'. by rewrite (dlt_trans _ _ _ Hlt' Hlt) in Hmin.
      * exists pc, pd, p. unfold plan_at in *. simpl. by rewrite !Hne by done.
    + exists pa, pb, p'. unfold plan_at. simpl. fold s. rewrite !Hne by done. done.
  - intros u p Hp. unfold plan_at in Hp. simpl in Hp.
    assert (∀ v q, plan_at st v q → justified pre st v q → justified (pre ++ [(a, b)]) {| dpTable := improve (dpTable st) s new; caches := caches st |} v q) as Hkeep.
    { intros v q _ [?|(c & d & pc & pd & Hcd & -> & Hc & Hdd & ->)]; [by left|right]. destruct (Hpre _ Hcd) as (_ & Hsc & Hsd).
      exists c, d, pc, pd. unfold plan_at in *. simpl in *. rewrite !Hne by done. split_and!; [set_solver|done..]. }
    destruct (decide (u = s)) as [->|Hus].
    + assert (p = p') as -> by congruence. destruct Hfrom as [->|Hq]; [|by apply Hkeep, Hj].
      right. exists a, b, pa, pb. unfold plan_at. simpl. rewrite !Hne by done. split_and!; [set_solver|done..].
    + rewrite Hne in Hp by done. by apply Hkeep, Hj.
Qed.
Lemma table_pairs pre post : pairs = pre ++ post → ∃ st, fold_res emit_pair pre (initial_search g) = Ok st ∧ table pre st.
Proof.
  revert post. induction pre as [|[a b] pre IH] using rev_ind; intros post E; [exists (initial_search g); split; [done|apply initial_table]|].
  destruct (IH ([(a, b)] ++ post)) as (st & E1 & H1); [by rewrite app_assoc|]. rewrite fold_res_app, E1. simpl.
  rewrite <- app_assoc in E. simpl in E. pose proof pairs_ordered as Ho. rewrite E in Ho. apply StronglySorted_app in Ho as (Ho & _ & Hpost).
  apply StronglySorted_inv in Hpost as [_ Hpost]. rewrite Forall_forall in Hpost.
  assert (csg_cmp a b) as Hab by (apply pairs_spec; rewrite E; set_solver).
  assert (∀ s, connected g s → (∀ c d, csg_cmp c d → s = Z.lor c d → (c, d) ≠ (a, b) ∧ (c, d) ∉ post) → has st s) as Hhas.
  { intros s Hsc Hn. destruct (decide (s = single (first s))) as [->|Hne].
    { destruct (connected_first s Hsc) as (_ & _ & Hr). apply has_single; [apply H1|done]. }
    destruct (connected_split s Hsc Hne) as (c & w & -> & _ & Hcw). destruct (Hn _ _ Hcw eq_refl) as [Hn1 Hn2].
    assert ((c, single w) ∈ pre) as Hin by (pose proof (proj2 (pairs_spec _ _) Hcw) as Hin; rewrite E in Hin; set_solver).
    destruct H1 as (_ & H1 & _). destruct (H1 _ _ Hin) as (? & ? & p & _ & _ & Hp & _). by exists (Some p). }
  destruct (table_step pre a b st) as (st' & E' & H'); [done|done|..].
  - apply Hhas; [apply Hab|]. intros c d _ Es. split; [intros [= -> ->]; by destruct (csg_cmp_ne _ _ Hab)|].
    intros Hin. by destruct (Hpost _ Hin).
  - apply Hhas; [apply Hab|]. intros c d _ Es. split; [intros [= -> ->]; by destruct (csg_cmp_ne _ _ Hab)|].
    intros Hin. by destruct (Hpost _ Hin).
  - intros [c d] Hcd. split; [apply pairs_spec; rewrite E; set_solver|]. simpl. by apply (Ho (c, d) (a, b)); [|set_solver].
  - unfold emit_pair. simpl. rewrite E'. exists st'. done.
Qed.

Lemma solve_table :
  ∃ q st, solve g estimateSelectivity set_order = Ok (q, st) ∧
    (∀ s, connected g s → ∃ p, plan_at st s p) ∧
    (∀ s p, plan_at st s p →
      (∃ nd, nd ∈ nodes g ∧ s = single (node_id nd) ∧ p = createInitialPlan nd) ∨
      (∃ a b pa pb, csg_cmp a b ∧ s = Z.lor a b ∧ plan_at st a pa ∧ plan_at st b pb ∧ p = join_plan a b pa pb)) ∧
    (∀ a b, csg_cmp a b → ∃ pa pb p, plan_at st a pa ∧ plan_at st b pb ∧ plan_at st (Z.lor a b) p ∧
      dlt (getCost (join_plan a b pa pb)) (getCost p) = false) ∧
    (∀ p, q = Some p ↔ plan_at st (all_ones n) p).
Proof.
  destruct run_solve as (st & E & E'). rewrite fold_pairs in E'. destruct (table_pairs pairs []) as (st' & E1 & Hst & Hd & Hj); [by rewrite app_nil_r|].
  assert (st' = st) as -> by congruence. clear E' E1.
  assert (∀ s, connected g s → ∃ p, plan_at st s p) as Hc.
  { intros s Hsc. destruct (decide (s = single (first s))) as [->|Hne].
    - destruct (connected_first s Hsc) as (_ & _ & Hr). destruct (has_single st _ Hst Hr) as [q Hq].
      destruct (proj1 Hst _ _ Hq) as (p & -> & _). by exists p.
    - destruct (connected_split s Hsc Hne) as (c & w & -> & _ & Hcw%pairs_spec). destruct (Hd _ _ Hcw) as (? & ? & p & _ & _ & Hp & _). by exists p. }
  unfold solve. rewrite E. cbn [res_bind]. unfold fetch. set (t := match dpTable st !! all_ones n with Some p => (p, dpTable st) | None => (None, <[all_ones n:=None]> (dpTable st)) end).
  assert (∀ s p, t.2 !! s = Some (Some p) ↔ plan_at st s p) as Ht.
  { intros s p. unfold t, plan_at. destruct (dpTable st !! all_ones n) eqn:Eo; [done|]. simpl.
    destruct (decide (all_ones n = s)) as [<-|Hne]; [rewrite lookup_insert_eq, Eo; naive_solver|by rewrite lookup_insert_ne]. }
  assert (∀ p, t.1 = Some p ↔ plan_at st (all_ones n) p) as Hq.
  { intros p. unfold t, plan_at. destruct (dpTable st !! all_ones n); naive_solver. }
  destruct t as [q t']. simpl in *. exists q, {| dpTable := t'; caches := caches st |}. unfold plan_at in *. simpl. setoid_rewrite Ht. split_and!; [done|done| | |done].
  - intros s p Hp. destruct (Hj s p Hp) as [?|(a & b & pa & pb & Hab%pairs_spec & ?)]; [by left|right]. by exists a, b, pa, pb.
  - intros a b Hab%pairs_spec. by apply Hd.
Qed.

(** ** Plans keep the predicates *)

Section predicates.
Context (Hlaws : EquivalenceLaws).
Context (Horder : ∀ l, set_order l ≡ₚ l).
Context (Hinner : ∀ e, e ∈ joins g → ∃ op, join_op e = Some op ∧ isInner op = true).

Lemma implied_mono ops ops' x y : (∀ o, o ∈ ops → o ∈ ops') → implied g ops x y → implied g ops' x y.
Proof. intros H. apply (rtsc_congruence id). intros u v (e & He & Ho & Hq). exists e. auto. Qed.
Lemma predicate_kept_mono ops ops' e : (∀ o, o ∈ ops → o ∈ ops') → predicate_kept g ops e → predicate_kept g ops' e.
Proof. intros H [?|(x & y & ? & ?)]; [left; auto|right; exists x, y; split; [done|by eapply implied_mono]]. Qed.
Lemma kept_implied ops e x y : e ∈ joins g → equality e = Some (x, y) → predicate_kept g ops e → implied g ops x y.
Proof.
  intros He Hq [Ho|(x' & y' & Hq' & Hi)]; [|by simplify_eq]. apply rtsc_lr. exists e. done.
Qed.

(** The classes hold equalities that the operators imply. *)
Definition sound_classes (ops : list (option operator)) (m : classes) : Prop :=
  ∃ l, m = fold_left (λ m p, unionSets p.1 p.2 m) l no_classes ∧ ∀ x y, (x, y) ∈ l → implied g ops x y.
Lemma sound_mono ops ops' m : (∀ o, o ∈ ops → o ∈ ops') → sound_classes ops m → sound_classes ops' m.
Proof. intros H (l & -> & Hl). exists l. split; [done|]. intros x y Hxy. eapply implied_mono, Hl; done. Qed.
Lemma sound_union ops m x y : implied g ops x y → sound_classes ops m → sound_classes ops (unionSets x y m).
Proof.
  intros Hxy (l & -> & Hl). exists (l ++ [(x, y)]). split; [by rewrite fold_left_app|].
  intros x' y' [?|[= -> ->]%list_elem_of_singleton]%elem_of_app; auto.
Qed.
Lemma sound_equivalent ops m x y : sound_classes ops m → isEquivalent m x y = true → implied g ops x y.
Proof.
  intros (l & -> & Hl) H%equivalent_spec. induction H as [|x y z [Hxy|Hxy] _ IH]; [done| |].
  - etrans; [apply Hl, Hxy|done].
  - etrans; [symmetry; apply Hl, Hxy|done].
Qed.

Section join.
Context (a b : Z) (pa pb : plan) (Hdis : disjoint_sets a b).
(** The edges inside the two parts. *)
Context (Hin : ∀ e, e ∈ joins g → sub (join_left e) a ∧ sub (join_right e) a ∨ sub (join_left e) b ∧ sub (join_right e) b →
  predicate_kept g (applied_ops pa ++ applied_ops pb) e).
Definition ops_of (j : joining) : list (option operator) := (applied_ops pa ++ applied_ops pb) ++ predicates j.
Definition joining_ok (done_ : list JoinEdge) (j : joining) : Prop :=
  jn_s1 j = a ∧ jn_s2 j = b ∧ jn_p1 j = Some pa ∧ jn_p2 j = Some pb ∧ specialJoin j = None ∧
  sound_classes (ops_of j) (equivalentColumns j) ∧ ∀ e, e ∈ done_ → join_connects e a b = true → predicate_kept g (ops_of j) e.

Lemma edge_inside e : e ∈ joins g → sub (join_left e) (Z.lor a b) → sub (join_right e) (Z.lor a b) → join_connects e a b = false →
  predicate_kept g (applied_ops pa ++ applied_ops pb) e.
Proof.
  intros He Hl Hr Hc. apply Hin; [done|]. destruct (edge_ends e He) as (u & v & Hu & Hv & Hne & El & Er). revert Hc. unfold join_connects.
  rewrite El, Er in *. rewrite !sub_single in * by lia. rewrite !isSubsetOf_single, !any_single by lia. bits. simpl.
  destruct (Z.testbit a u), (Z.testbit a v), (Z.testbit b u), (Z.testbit b v); naive_solver.
Qed.
Lemma joining_initial : joining_ok [] (initial_joining g a b (Some pa) (Some pb)).
Proof.
  split_and!; [done..| |by intros ? ?%not_elem_of_nil]. simpl.
  apply (fold_inv (sound_classes (ops_of (initial_joining g a b (Some pa) (Some pb))))).
  - intros e m He Hm. unfold note_equality. destruct (_ && _ && _) eqn:E; [|done]. rewrite !andb_true_iff, negb_true_iff, !isSubsetOf_spec in E.
    destruct E as [[Hc Hl] Hr]. destruct (equality e) as [[x y]|] eqn:Eq; [|done]. apply sound_union; [|done].
    apply (implied_mono (applied_ops pa ++ applied_ops pb)); [unfold ops_of; set_solver|]. eapply kept_implied; [done..|]. by apply edge_inside.
  - exists []. split; [done|]. set_solver.
Qed.
Lemma insert_op_spec op l o : o ∈ insert_op op l ↔ o ∈ l ∨ o = op.
Proof. unfold insert_op. case_decide; set_solver. Qed.
Lemma joining_step done_ j e : e ∈ joins g → joining_ok done_ j → joining_ok (done_ ++ [e]) (apply_join_edge j e).
Proof.
  intros He (E1 & E2 & E3 & E4 & E5 & Hm & Hd). unfold apply_join_edge. rewrite E1, E2. destruct (join_connects e a b) eqn:Ec.
  2:{ split_and!; [done..|]. intros e' [?| ->%list_elem_of_singleton]%elem_of_app Hc; [auto|congruence]. }
  destruct (Hinner e He) as (op & Eop & Hi). unfold apply_op. rewrite Eop, Hi. simpl.
  set (j' := if useSelection e (equivalentColumns j) then _ else j).
  assert (jn_s1 j' = a ∧ jn_s2 j' = b ∧ jn_p1 j' = Some pa ∧ jn_p2 j' = Some pb ∧ specialJoin j' = None ∧ equivalentColumns j' = equivalentColumns j ∧
    (∀ o, o ∈ ops_of j → o ∈ ops_of j') ∧ predicate_kept g (ops_of j') e) as (F1 & F2 & F3 & F4 & F5 & F6 & Hmono & Hkept).
  { unfold j'. destruct (useSelection e (equivalentColumns j)) eqn:Eu; simpl; split_and!; try done.
    - intros o. unfold ops_of. simpl. rewrite !elem_of_app, insert_op_spec. tauto.
    - left. unfold ops_of. simpl. rewrite Eop, !elem_of_app, insert_op_spec. auto.
    - right. unfold useSelection in Eu. destruct (equality e) as [[x y]|]; [|done]. exists x, y. split; [done|].
      apply negb_false_iff in Eu. by eapply sound_equivalent. }
  split_and!; simpl; [done..| |].
  - rewrite F6. apply (sound_mono _ (ops_of j')) in Hm; [|done]. destruct (equality e) as [[x y]|] eqn:Eq; [|done].
    apply sound_union; [by eapply kept_implied|done].
  - intros e' [He'| ->%list_elem_of_singleton]%elem_of_app Hc; [|done]. eapply predicate_kept_mono; [done|auto].
Qed.
Lemma joining_end l j done_ : (∀ e, e ∈ l → e ∈ joins g) → joining_ok done_ j → joining_ok (done_ ++ l) (fold_left apply_join_edge l j).
Proof.
  revert j done_. induction l as [|e l IH]; intros j done_ Hl Hj; [by rewrite app_nil_r|]. simpl. change (done_ ++ e :: l) with (done_ ++ [e] ++ l). rewrite (app_assoc done_ [e] l).
  apply IH; [set_solver|]. apply joining_step; [set_solver|done].
Qed.
Lemma join_plan_keeps e : within n a → within n b → e ∈ joins g → sub (join_left e) (Z.lor a b) → sub (join_right e) (Z.lor a b) →
  predicate_kept g (applied_ops (join_plan a b pa pb)) e.
Proof.
  intros Hwa Hwb He Hl Hr. pose proof (simple_joinPlans a b pa pb ∅ Hwa Hwb) as E. revert E. unfold joinPlans. rewrite (simple_selections _ Hs). simpl.
  pose proof (joining_end (joins g) _ [] (λ e H, H) joining_initial) as (_ & _ & E3 & E4 & E5 & _ & Hd).
  set (j := fold_left apply_join_edge (joins g) (initial_joining g a b (Some pa) (Some pb))) in *. simpl in Hd.
  assert (predicate_kept g (ops_of j) e) as Hk.
  { destruct (join_connects e a b) eqn:Ec; [by apply Hd|]. eapply predicate_kept_mono; [|by apply edge_inside]. unfold ops_of. set_solver. }
  unfold build_plan. rewrite E3, E4, E5. simpl. intros E. apply (predicate_kept_mono (ops_of j)); [|done]. clear Hk.
  assert (∀ o, o ∈ predicates j ↔ o ∈ set_order (predicates j)) as Hperm by (intros o; by rewrite Horder).
  intros o. unfold ops_of. rewrite !elem_of_app, Hperm. clear Hperm.
  destruct (set_order (predicates j)) as [|op rest]; simpl in E; injection E as <- _; simpl.
  - rewrite app_nil_r. set_solver.
  - destruct (dlt _ _); simpl; rewrite app_nil_r; set_solver.
Qed.
End join.

Lemma table_keeps_predicates q st : solve g estimateSelectivity set_order = Ok (q, st) →
  ∀ s p, plan_at st s p → ∀ e, e ∈ joins g → sub (join_left e) s → sub (join_right e) s → predicate_kept g (applied_ops p) e.
Proof.
  destruct solve_table as (q' & st' & E & _ & Hj & _). intros E'. assert (st' = st) as -> by congruence. clear E E' q q'.
  assert (∀ k s, 0 ≤ s < k → ∀ p, plan_at st s p → ∀ e, e ∈ joins g → sub (join_left e) s → sub (join_right e) s → predicate_kept g (applied_ops p) e) as H.
  { intros k. destruct (decide (0 ≤ k)) as [Hk|]; [|intros; lia]. pattern k. apply natlike_ind; [intros; lia| |done]. clear k Hk. intros k Hk IH s Hsk p Hp e He Hl Hr.
    destruct (Hj s p Hp) as [(nd & Hnd & -> & _)|(a & b & pa & pb & Hab & -> & Ha & Hb & ->)].
    - destruct (edge_ends e He) as (u & v & Hu & Hv & Hne & El & Er). pose proof (node_ids g Hg nd Hnd) as [? _].
      rewrite El, sub_single in Hl by lia. rewrite Er, sub_single in Hr by lia. bits. congruence.
    - pose proof (csg_cmp_ne a b Hab) as [Hna Hnb]. destruct Hab as ((_ & Hwa & _) & (_ & Hwb & _) & Hd & _).
      assert (sub a (Z.lor a b)) as Hsa by (intros i Hi; bits; by left). assert (sub b (Z.lor a b)) as Hsb by (intros i Hi; bits; by right).
      pose proof (sub_le _ _ (proj1 Hsk) Hsa). pose proof (sub_le _ _ (proj1 Hsk) Hsb).
      pose proof (within_nonneg _ _ Hwa). pose proof (within_nonneg _ _ Hwb).
      apply join_plan_keeps; try done. intros e' He' [[? ?]|[? ?]].
      + apply (predicate_kept_mono (applied_ops pa)); [set_solver|]. apply (IH a); [lia|done..].
      + apply (predicate_kept_mono (applied_ops pb)); [set_solver|]. apply (IH b); [lia|done..]. }
  intros s p Hp. destruct (Hj s p Hp) as [(nd & Hnd & -> & _)|(a & b & pa & pb & Hab & -> & _)].
  - pose proof (node_ids g Hg nd Hnd) as [? _]. apply (H (single (node_id nd) + 1)); [|done].
    pose proof (within_nonneg n (single (node_id nd))) as Hw. rewrite <- simple_size in Hw. assert (0 ≤ single (node_id nd)) by auto with bits. lia.
  - destruct Hab as ((_ & Hwa & _) & (_ & Hwb & _) & _). pose proof (within_nonneg _ _ (within_lor _ _ _ Hwa Hwb)).
    apply (H (Z.lor a b + 1)); [lia|done].
Qed.
End predicates.
End search.
End simple.

(** ** The optimiser on queries of joins between two relations *)

(** C10. The table of the dynamic programming solves the recurrence of optimal
    plans over the connected sets of relations.  Exactly these sets have a
    plan; that of a single relation is its scan, that of a larger set the join
    of the plans of two connected parts with an edge between them; and it is
    no dearer than the join of the plans of any other two such parts, in the
    arithmetic of doubles, NaN included.  The result is the plan of all
    relations. *)
Theorem dphyp_recurrence `{EC : EquivalenceClasses} estimateSelectivity set_order g : simple_graph g →
  ∃ q st, solve g estimateSelectivity set_order = Ok (q, st) ∧
    (∀ s, connected g s → ∃ p, plan_at st s p) ∧
    (∀ s p, plan_at st s p →
      (∃ nd, nd ∈ nodes g ∧ s = single (node_id nd) ∧ p = createInitialPlan nd) ∨
      (∃ a b pa pb, csg_cmp g a b ∧ s = Z.lor a b ∧ plan_at st a pa ∧ plan_at st b pb ∧
        p = join_plan g estimateSelectivity set_order a b pa pb)) ∧
    (∀ a b, csg_cmp g a b → ∃ pa pb p, plan_at st a pa ∧ plan_at st b pb ∧ plan_at st (Z.lor a b) p ∧
      dlt (getCost (join_plan g estimateSelectivity set_order a b pa pb)) (getCost p) = false) ∧
    (∀ p, q = Some p ↔ plan_at st (all_ones (numNodes g)) p).
Proof. intros Hs. by apply solve_table. Qed.

(** C15. In a query of inner joins no predicate is lost: for every two relations
    that a plan joins, the predicate between them is applied in the plan, or
    it is an equality that follows from the equalities applied there. *)
Theorem dphyp_keeps_predicates `{EC : EquivalenceClasses, !EquivalenceLaws} estimateSelectivity set_order g : simple_graph g →
  (∀ l, set_order l ≡ₚ l) → (∀ e, e ∈ joins g → ∃ op, join_op e = Some op ∧ isInner op = true) →
  ∃ q st, solve g estimateSelectivity set_order = Ok (q, st) ∧
    ∀ s p, plan_at st s p → ∀ e, e ∈ joins g → sub (join_left e) s → sub (join_right e) s → predicate_kept g (applied_ops p) e.
Proof.
  intros Hs Horder Hinner. destruct (solve_table g Hs estimateSelectivity set_order) as (q & st & E & _). exists q, st. split; [done|].
  by eapply table_keeps_predicates.
Qed.

(** The size of the search that the optimiser measures before it starts is the
    number of connected sets, exactly up to the bound. *)
Lemma countSubGraphs_connected g maxCount : simple_graph g →
  ∃ l c, NoDup l ∧ (∀ s, s ∈ l ↔ connected g s) ∧ countSubGraphs g maxCount = Ok c ∧
    (c < maxCount ↔ Z.of_nat (length l) < maxCount) ∧ (c < maxCount → c = Z.of_nat (length l)).
Proof.
  intros Hs. destruct (countSubGraphs_spec g Hs maxCount) as (c & Ec & Hc). exists (csgs g), c. split_and!; [by apply csgs_NoDup| |done|..].
  - intros s. by apply csgs_spec.
  - unfold counted in Hc. destruct (Z.ltb_spec (0 + Z.of_nat (length (csgs g))) maxCount); lia.
  - unfold counted in Hc. destruct (Z.ltb_spec (0 + Z.of_nat (length (csgs g))) maxCount); lia.
Qed.

#[local] Existing Instance label_classes.
#[local] Instance label_laws : EquivalenceLaws.
Proof.
  intros l. induction l as [|[u v] l IH] using rev_ind; intros a b.
  - simpl. rewrite Z.eqb_eq. split; [by intros ->|]. intros H. induction H as [|x y z [Hxy|Hxy] _ IH]; [done|..]; by apply not_elem_of_nil in Hxy.
  - rewrite fold_left_app. set (m := fold_left _ l no_classes) in *. simpl in *. setoid_rewrite Z.eqb_eq in IH. rewrite Z.eqb_eq.
    assert (∀ x y, rtsc (λ x y, (x, y) ∈ l) x y → rtsc (λ x y, (x, y) ∈ l ++ [(u, v)]) x y) as Hmono.
    { intros x y. apply (rtsc_congruence id). intros x' y' H. set_solver. }
    assert (rtsc (λ x y, (x, y) ∈ l ++ [(u, v)]) u v) as Huv by (apply rtsc_lr; set_solver). split.
    + intros H. destruct (Z.eqb_spec (m a) (m v)) as [Ea|Ea], (Z.eqb_spec (m b) (m v)) as [Eb|Eb]; rewrite ?IH in *.
      * by apply Hmono; trans v.
      * trans v; [by apply Hmono|]. trans u; [by symmetry|by apply Hmono].
      * trans u; [by apply Hmono|]. trans v; [done|]. symmetry. by apply Hmono.
      * by apply Hmono.
    + intros H. induction H as [|x y z Hxy _ IHxy]; [done|]. rewrite <- IHxy.
      assert ((x, y) ∈ l ∨ (y, x) ∈ l ∨ x = u ∧ y = v ∨ x = v ∧ y = u) as [Hin|[Hin|[[-> ->]|[-> ->]]]] by (destruct Hxy; set_solver).
      * assert (m x = m y) as -> by (apply IH, rtsc_lr; done). done.
      * assert (m x = m y) as -> by (apply IH, rtsc_rl; done). done.
      * rewrite Z.eqb_refl. by destruct (Z.eqb_spec (m u) (m v)).
      * rewrite Z.eqb_refl. by destruct (Z.eqb_spec (m u) (m v)).
Qed.

(** A triangle of equalities, of which the third follows from the others. *)
Definition equated (op : operator) : option (Z * Z) :=
  if op_address op =? 20 then Some (1, 2) else if op_address op =? 21 then Some (2, 3) else Some (1, 3).
Definition triangle_step (g : QueryGraph) (e : Z * Z * Z) : QueryGraph :=
  or_empty (addPredicate equated g (Z.lor (single e.1.1) (single e.1.2)) (Operator e.2 SelectionOp)).
Definition triangle : QueryGraph :=
  estimate (λ _, (d_one, d_one)) (λ _ _ _, d_one) (fold_left triangle_step [(0, 1, 20); (1, 2, 21); (0, 2, 22)] (relations 3 3)).

Lemma triangle_step_built g e : built equated g → known g (Z.lor (single e.1.1) (single e.1.2)) → built equated (triangle_step g e).
Proof.
  intros Hg Hk. destruct (addPredicate_known equated g _ (Operator e.2 SelectionOp) (built_building _ _ Hg) Hk) as (g' & E & _).
  unfold triangle_step. rewrite E. by eapply built_predicate.
Qed.
Lemma triangle_built : built equated triangle.
Proof.
  apply built_estimate. cbn [fold_left].
  repeat (apply triangle_step_built; [|apply known_subset; vm_compute; (reflexivity || discriminate)]).
  apply (built_relations equated 3 3). lia.
Qed.
Lemma triangle_simple : simple_graph triangle.
Proof.
  split; [apply (built_wf equated); [apply triangle_built|vm_compute; reflexivity]|vm_compute; reflexivity..|].
  apply Forall_forall. let l := eval vm_compute in (joins triangle) in change (joins triangle) with l.
  repeat constructor; simpl; [exists 0, 1|exists 1, 2|exists 0, 2]; by vm_compute.
Qed.
Lemma dphyp_recurrence_witness :
  ∃ q st, solve triangle (λ _ _ _, d_one) id = Ok (q, st) ∧
    ∀ a b, csg_cmp triangle a b → ∃ pa pb p, plan_at st a pa ∧ plan_at st b pb ∧ plan_at st (Z.lor a b) p ∧
      dlt (getCost (join_plan triangle (λ _ _ _, d_one) id a b pa pb)) (getCost p) = false.
Proof.
  destruct (dphyp_recurrence (λ _ _ _, d_one) id triangle triangle_simple) as (q & st & E & _ & _ & H & _). exists q, st. exact (conj E H).
Defined.
Lemma dphyp_keeps_predicates_witness :
  ∃ q st, solve triangle (λ _ _ _, d_one) id = Ok (q, st) ∧
    ∀ s p, plan_at st s p → ∀ e, e ∈ joins triangle → sub (join_left e) s → sub (join_right e) s → predicate_kept triangle (applied_ops p) e.
Proof.
  apply dphyp_keeps_predicates; [apply triangle_simple|done|].
  apply Forall_forall. let l := eval vm_compute in (joins triangle) in change (joins triangle) with l.
  repeat constructor; simpl; eexists; split; reflexivity.
Defined.
